(* ===== verification/_CoqProject ===== *)
-Q . S2P
Prelude.v
Bytes.v
Framing.v
FramingSpec.v
JsValue.v
Utf8.v
Cbor.v
CborSpec.v
CborTheorems.v
Schemas.v
Codec.v
CodecSpec.v
JsMap.v
FileSystem.v
Regex.v
NodePath.v
Json.v
JsonSpec.v
Settings.v
SettingsSpec.v
AgentMode.v
AgentModeSpec.v
Sandbox.v
SandboxSpec.v
SandboxCommand.v
SandboxClaims.v
Truncate.v
TruncateSpec.v
ShellOutput.v
ShellOutputSpec.v
EditDiff.v
EditDiffSpec.v
DiffDisplaySpec.v
FileQueue.v
FileQueueSpec.v
Image.v
Tools.v
ReadTool.v
BashTool.v
JsonlCodec.v
JsonlCodecSpec.v
SessionTypes.v
SessionState.v
SessionView.v
JsonlStorage.v
JsonlStorageSpec.v
Disk.v
ToolClaims.v
SessionSpec.v
SessionQueries.v
SessionFork.v
JsonPayload.v
SessionStore.v
SessionStoreSpec.v
JsonlTheorems.v
JsonlFork.v
JsonlClaims.v
JsonlRepo.v
Context.v
Retry.v
Compaction.v
CompactionSpec.v
BranchSummary.v
SessionManager.v
AgentLoop.v
AgentLoopSpec.v
Agent.v
AgentSpec.v
Reducer.v
ReducerSpec.v
WireTypes.v
ClientState.v
ClientStateSpec.v
Connection.v
ConnectionSpec.v
PiClient.v
PiClientSpec.v
Transcript.v
StdinBuffer.v
RemoteSession.v
