(* ===== verification/Prelude.v ===== *)
(** * PatchCage agent: verification of the protocol, the durable session and the client

    PatchCage is a Python engine that repairs findings in a sandbox and the
    TypeScript agent under [cli/] that drives it.  The agent's packages are
    [protocol] (the wire format between a server and its clients), [agent] (the
    harness: durable sessions, recovery, tools), [client] (the protocol client),
    [coding-agent] (the application), [ai] (model providers), [tui], [telemetry]
    and [session-backends].  This library models the parts that carry the agent's
    own logic and state: the protocol, the session and its recovery, the loop that
    drives a model and its tools, the compaction of what it said, the client, and
    the code that drives and guards the sandbox.

    ** How the parts interact

    A server and a client exchange messages: plain objects, validated against a
    schema, encoded as CBOR and framed by a length prefix ([Codec] over [Cbor] and
    [Framing]).  The harness keeps a session as an append-only sequence of
    mutations, entries of the conversation tree and records of the operations run
    on it ([SessionState]), behind a storage interface ([SessionStore]); the
    messages sent to a model are derived from a branch ([Context]), and after a
    restart the state of each lane is rebuilt from its records ([Reducer]).  A
    client holds a connection ([Connection]), requests and leases ([PiClient]), and
    the latest snapshots with their listeners ([ClientState]); an application
    shows a session's transcript from snapshots and progress ([Transcript]) and
    opens, drives and replaces sessions through a controller ([RemoteSession]); keys
    and pastes reach its terminal through [StdinBuffer].
    An agent ([Agent]) keeps a transcript and queues, and runs the loop ([AgentLoop])
    that asks the model, executes the calls of its answer and asks again.  When the
    context grows too long its beginning is summarized ([Compaction]), as are
    branches that are left ([BranchSummary]), by calls that are retried ([Retry]).
    A model's tool calls edit, write and read files ([Tools], [ReadTool]) and run
    commands ([BashTool]); changes of one file wait for each other ([FileQueue]),
    and long output is cut to its limits ([Truncate], [ShellOutput]).
    The application runs the engine for its [/sandbox] command ([SandboxCommand]
    over [Sandbox]), sets up a model and discloses what runs outside the sandbox
    ([AgentMode]), and reads and writes its settings ([Settings]).

    ** Files and what they model (paths under [cli/packages/])

    - [Prelude]: results of fallible code, the [let*] notation, folds, the tactics
      [invert_ok], [zb], [decide_now], and generic lemmas.  [Bytes] (typed arrays,
      big-endian words), [JsValue] (values, objects in a heap, numbers as doubles),
      [Utf8] and [JsMap] ([Map] with insertion order) model what the code uses of
      the language.
    - [Framing] = [protocol/src/framing.ts]: [encodeFrame], [assertCompleteFrame]
      and the class [FrameDecoder], with its header buffer and payload blocks.
      [FramingSpec] proves it against a decoder on the whole stream.
    - [Cbor] = [protocol/src/cbor/]: options, [CborWriter] and [encodeValue],
      [CborReader] and [decodeCbor].  [CborSpec], [CborTheorems].
    - [Schemas] = [protocol/src/schemas.ts], every schema by its name, as data.
      [Codec] = [protocol/src/codec.ts]: [isProtocolValue], encoding and
      [ValidatedMessageDecoder].  [CodecSpec].
    - [SessionTypes] = [agent/src/harness/session/types.ts] and the messages of
      [harness/messages.ts] and [ai/src/types.ts].  [SessionState] =
      [harness/session/state.ts]: the class's fields as a record, [applyMutation]
      with its branches, the queries, [createForkMutations].  [SessionSpec] is the
      invariant; [SessionQueries] and [SessionFork] the theorems.
    - [JsonPayload] = [assertJsonSerializable] of [harness/session/session.ts].
      [SessionStore] = the interface [SessionStorage] (a class of operations),
      [harness/session/memory.ts] (its instance and the repository, whose storages
      are shared objects in a store), and the class [Session].  [SessionStoreSpec]
      states what storage promises a session (class [StorageSpec]) and discharges
      it for the memory storage.
    - [Json] is JSON text as ECMA-262 defines it ([JSON.stringify], [JSON.parse]),
      with its round trip in [JsonSpec].  [JsonlCodec] =
      [harness/session/jsonl/codec.ts] (a line of the session file to a mutation
      and back); [SessionView] reads the objects of a line as the typed entries and
      records of [SessionTypes].  [JsonlStorage] =
      [harness/session/jsonl/storage.ts] and [errors.ts]: creation, loading with
      the repair of a torn tail, every mutating method, forking, over the interface
      [FileSystem] of [harness/types.ts].  [JsonlCodecSpec], [JsonlStorageSpec],
      [JsonlTheorems], [JsonlFork] and [JsonlClaims] are its theorems; [Disk] is a
      file system with injected faults.  [JsonlRepo] = [harness/session/jsonl/repo.ts],
      with overlapping calls of [create] and [fork] as steps of a shared repository.
    - [SessionManager] = [coding-agent/src/core/session-manager.ts]: the session tree
      of the coding agent, its file, migrations, branching, forking and context, with
      its theorems.
    - [Context] = [harness/session/context.ts] and the conversions of
      [harness/messages.ts].
    - [Reducer] = [harness/reducer.ts]: [validateRecordLog] and [reduceLaneState].
      [ReducerSpec].
    - [AgentLoop] = [agent/src/agent-loop.ts]: a state machine whose control points are
      the awaits of the loop, with the types of [agent/src/types.ts].  [AgentLoopSpec].
      [Agent] = [agent/src/agent.ts] over it, [AgentSpec].
    - [Retry] = [ai/src/utils/retry.ts].  [Compaction] =
      [harness/compaction/compaction.ts] and [utils.ts], [CompactionSpec].
      [BranchSummary] = [harness/compaction/branch-summarization.ts].
    - [WireTypes] = the static types of [protocol/src/schemas.ts] the client reads.
      [ClientState] = [client/src/state.ts], with the listener sets as shared
      objects.  [Connection] = [client/src/connection.ts], with callbacks that may
      call back into the connection.  [PiClient] = [client/src/client.ts].  Their
      theorems are in [ClientStateSpec], [ConnectionSpec] and [PiClientSpec].
    - [Transcript] = [coding-agent/src/client/transcript.ts], with its theorems.
      [RemoteSession] = [coding-agent/src/client/remote-session.ts]: overlapping calls as
      the awaits their promises are at, with the client as environment.
    - [StdinBuffer] = [tui/src/stdin-buffer.ts]: terminal input cut into chunks.
    - [FileSystem] = the interface of [harness/types.ts] with its documented laws, for
      the session files and the tools.
    - [Truncate] = [harness/utils/truncate.ts]; [ShellOutput] =
      [harness/utils/shell-output.ts], the capture of a command as a run of chunks,
      writes and the command's end.  [TruncateSpec], [ShellOutputSpec].
    - [EditDiff] = [harness/tools/edit-diff.ts]: applying edits and displaying diffs.
      [EditDiffSpec], [DiffDisplaySpec].  [FileQueue] = [file-mutation-queue.ts] as a
      step function on the queue, its callers and their files.  [FileQueueSpec].
    - [Tools] = [edit.ts], [write.ts] and [path-utils.ts]; [ReadTool] = [read.ts];
      [Image] = [image.ts]; [BashTool] = [bash.ts], with the throttled updates as a run
      beside the capture.  [ToolClaims] is what needs a file
      system.
    - [Sandbox] = [coding-agent/src/core/patchcage-sandbox.ts] (engine paths, environment,
      the run of the engine and its event stream); [SandboxCommand] = the
      [/sandbox] command of [modes/interactive/interactive-mode.ts].  They use
      [Regex] (regular expressions as ECMA-262 matches them) and [NodePath]
      ([node:path]).  [SandboxSpec], [SandboxClaims].
    - [Settings] = [coding-agent/src/core/settings-manager.ts], [SettingsSpec].
      [AgentMode] = [coding-agent/src/core/patchcage-agent-mode.ts] and the
      onboarding that uses it, [AgentModeSpec].

    ** How state and errors are modelled

    A method that throws returns [Err] with the error; where an object outlives
    the error (decoders, connections) its new state is returned as well.  Objects
    that are shared are locations in a store: values to be encoded or validated
    ([JsValue.heap]), storages of a repository, sets of listeners.  Asynchronous
    methods are split at their awaits, and theorems about them range over all
    interleavings of the resulting steps.  Integers are [Z] with their ranges
    checked where the code checks them; bytes are [Z] in 0..255 and words are
    split and joined with shifts; the statistics add IEEE doubles.

    Loops whose bound is not structural take fuel that is shown to be enough.
    The encoder and decoder use the depth that is left plus one, since a deeper
    call throws first ([cbor_total]); the frame decoder uses the length of the
    chunk, since each turn consumes a byte; [isProtocolValue] uses the number of
    objects plus one, since a path repeats none; a walk to the root uses the
    number of entries plus two, since parents come earlier; retries use their maximum
    plus one; for
    [assertJsonSerializable], which need not be bounded by the heap's size, the
    theorem gives for every value a fuel that decides it.

    ** What the theorems show

    - Framing: the decoder refines the split of the stream into frames, whatever
      the chunks; frames round-trip; a truncated stream is an error.
    - CBOR: the encoder succeeds exactly on the values of the format, with the
      bytes of its grammar; encoding then decoding gives the value back; decoded
      values respect the limits; both always return.
    - Codec: [isProtocolValue] accepts exactly acyclic plain data; a stream
      of messages is received as it was sent; a decoder that failed stays failed;
      unions are discriminated, so a message conforms to at most one alternative.
    - Session: every mutation preserves the invariant (consecutive sequence,
      unique ids, a forest rooted at null, lanes and labels that exist); queries
      return what they describe, pages cover everything once, open operations are
      those started and not finished, a fork is the selected part of its source;
      payload validation terminates on every value and its explicit stack computes
      the recursive check; storage validates before it applies, so a storage
      error leaves the session as it was; a lane never has two open operations.
    - Session files: which lines are accepted, and that these are mutations with the
      fields the reader checks (a message's own fields are not); lines round trip, and a cut
      line is recognised as such; the file storage simulates the memory storage
      call by call, and a run of calls can be reopened; an append cut anywhere
      leaves the session before it or after it; a fork is published whole or not
      at all.  One theorem shows a defect: after a failed append in an open session
      the next acknowledged append is lost on reopening.  Overlapping calls never
      create a session twice; two theorems show names that collide.
    - Session manager: the entries are a forest, the way to the root ends, a recorded
      session reopens as it was, and a branched session has the context it was made
      at.  Six theorems show defects, in what failed writes, labels, migrations and
      cycles lead to.
    - Context and recovery: compaction replaces what precedes it; an accepted log
      has no record outside its operation, consecutive attempts, tools started
      once; what is pending is what was queued and neither cancelled nor written;
      reduction does not depend on the order its inputs are listed in.
    - Agent: the events of a run are well bracketed and end with the messages they
      announced; a tool runs only for a call of a complete answer, once, with
      arguments that were checked and a hook that let it pass; every call gets its
      result, in the order of the calls; what is queued is delivered once, and the
      model is asked with the transcript.  The model, the tools and the hooks may do
      anything but start the stream of a response twice, which breaks the brackets (a
      theorem shows it); a hook that throws loses the messages taken last (another does),
      and a context that [prepareNextTurn] replaces is no longer the transcript.
    - Compaction: the context is cut in two and only its beginning replaced, on a path
      of entries that are all shown no tool result is parted from its call, the cut is the one the limit asks for, the lists
      of files are complete, and an abandoned branch is what the other path lacks.
      Three theorems show defects: a summary is lost when the first turn after it is
      split, large results at the end defeat the cut, and deferred responses reappear.
    - Client: reported connection states and handshake promises are well formed
      for every interleaving and re-entrant callback; every request is answered
      once; exclusive leases are exclusive; a session's listener ends on the stored
      snapshot and never goes back in revision; the transcript shown names each
      item once, in its latest version.  Three theorems show defects: a second
      [Unsubscribe] can cancel another subscriber, messages left over from a closed
      connection fail the next one, and a reservation invalidated during its attach
      still counts afterwards.
    - Remote session: one operation runs at a time, an abort of a submission apart, and
      the state shown tells which; no exclusive lease is left behind, given disposals
      outside two windows.  Three theorems show what disposals inside them, or with a
      lease that is not active, do.
    - Terminal input: without a paste the sequences do not depend on how the input is
      cut, but for two Escapes cut from what they introduce; a paste that starts on an
      empty buffer arrives whole unless the timer expires within its first marker; what
      is emitted are the shortest complete sequences.  Three theorems show input that is
      typed as text or lost.
    - Tools: a text is cut to as many whole lines as the limits allow, with a report
      that says how much is left and the same result in every runtime; the window kept
      of a command's output gives the same result as the whole, and the log file holds
      the whole; updates are spaced and the last one is up to date; an edit changes one
      file, to the simultaneous replacement of its texts with the line endings of the first
      line, and leaves the lines it does not touch alone when it had to normalize; what
      a file holds is what the changes under its key that have ended make of it, one
      after the other in the order of the calls, and every call settles; pages of a file cover its
      lines once; a diff shows the lines it numbers; base 64 can be decoded.  Further
      theorems show defects: the size of a long last line is reported as 0, a file
      created meanwhile changes its key, mixed line endings are rewritten, and two
      corners of normalized matching.
    - Sandbox: it is known which targets are refused, and the others are inside the
      repository; the engine's environment carries no credential but the run's own key, its events are the lines of its
      output whatever the chunks, a run settles exactly once, only a reviewed and
      confirmed candidate is exported, and one run is under way at a time, exactly while
      the slot is taken.
    - Settings and agent mode: a write changes only the settings named and keeps
      what others wrote, the settings in effect are made without those of an untrusted
      project, tools run
      outside the sandbox only after that was disclosed, and keys are stored by
      reference.
      One theorem shows a defect: a failed write of the settings is not retried.

    ** Parameters

    The hash of a candidate, the case mapping of non-ASCII text (class [CaseMap]),
    the URL parser and the network of the onboarding.
    Unicode normalization, the diff package and the image processor of the tools.
    The file system ([FileSystem], classes [FsLaws], [ToolLaws] and [DirLaws]: what its documentation says of
    reading, writing, appending, renaming and removing; it may fail at any call.  An
    append is cut between code units, and a file has one path).
    [Check] of typebox (class [CheckSpec]: it decides the schema's meaning),
    [IsDeepEqual] of typebox, [JSON.parse] of the transcript,
    [validateToolArguments] of the loop, its hooks (the functions that make a request
    of the context among them), and the responses of the model,
    identifiers and clocks, transports and, in [Connection], the message decoder.

    ** Not modelled

    Model providers, the terminal interface behind its input buffer, telemetry, extensions, the harness over
    the agent (whose operations are not implemented yet) and its skills, the SQLite
    storage, the Unix transport, the rest of the interactive mode,
    and the Python engine (another language).  Of [PiClient], the sharing of
    attach, detach and reconciliation promises between acquisitions is not
    modelled, nor is the listing of sessions in [SessionManager].  In [JsonlRepo] each of
    preparing, loading and publishing a session is one step, though the code awaits the
    file system several times within them; in [Tools] a change finds the queue of its
    file empty ([FileQueue] has the waiting).  The texts of [SessionTypes] are strings
    of 8-bit characters, the injective image of the code units that [SessionView]
    makes. *)
From stdpp Require Export base list list_numbers gmap strings sorting.
From Stdlib Require Export ZArith Lia.

(** * Results: fallible code returns [Ok] or the error it throws. *)

Inductive result (E A : Type) : Type :=
| Ok (a : A)
| Err (e : E).
Arguments Ok {E A} a.
Arguments Err {E A} e.

Definition rbind {E A B} (m : result E A) (k : A → result E B) : result E B :=
  match m with
  | Ok a => k a
  | Err e => Err e
  end.

Definition rmap {E A B} (f : A → B) (m : result E A) : result E B :=
  rbind m (λ a, Ok (f a)).

Definition is_Ok {E A} (m : result E A) : bool :=
  match m with Ok _ => true | Err _ => false end.

Declare Scope res_scope.
Delimit Scope res_scope with res.
Notation "'let*' x := m 'in' k" := (rbind m (λ x, k))
  (at level 10, x pattern, m at level 100, k at level 200) : res_scope.
Open Scope res_scope.

Lemma rbind_Ok {E A B} (m : result E A) (k : A → result E B) b :
  rbind m k = Ok b ↔ ∃ a, m = Ok a ∧ k a = Ok b.
Proof. destruct m; simpl; naive_solver. Qed.

Lemma rbind_Err {E A B} (m : result E A) (k : A → result E B) e :
  rbind m k = Err e ↔ m = Err e ∨ ∃ a, m = Ok a ∧ k a = Err e.
Proof. destruct m; simpl; naive_solver. Qed.

Lemma is_Ok_spec {E A} (m : result E A) : is_Ok m = true ↔ ∃ a, m = Ok a.
Proof. destruct m; naive_solver. Qed.

(** Sequencing a fallible action over a list, left to right. *)
Fixpoint rfold {E A S} (f : S → A → result E S) (s : S) (l : list A) : result E S :=
  match l with
  | [] => Ok s
  | x :: l => let* s := f s x in rfold f s l
  end.

Lemma rfold_app {E A S} (f : S → A → result E S) s l k :
  rfold f s (l ++ k) = (let* s := rfold f s l in rfold f s k).
Proof. revert s. induction l as [|x l IH]; intros s; simpl; [done|]. by destruct (f s x); simpl. Qed.

Lemma rfold_inv {E A S} (f : S → A → result E S) (P : S → Prop) s l s' :
  P s →
  (∀ s x s', x ∈ l → P s → f s x = Ok s' → P s') →
  rfold f s l = Ok s' → P s'.
Proof.
  revert s. induction l as [|x l IH]; intros s Hs Hf; simpl; [naive_solver|].
  intros (s1 & H1 & H2)%rbind_Ok. eapply (IH s1); [| |done].
  - eapply Hf; [|done..]. left.
  - intros ?????. eapply Hf; [by right|done..].
Qed.

(** An invariant of the processed prefix. *)
Lemma rfold_prefix {E A S} (f : S → A → result E S) (P : list A → S → Prop) s l s' :
  P [] s →
  (∀ pre x post s s', l = pre ++ x :: post → P pre s → f s x = Ok s' → P (pre ++ [x]) s') →
  rfold f s l = Ok s' → P l s'.
Proof.
  intros H0 Hstep. assert (∀ pre post s, l = pre ++ post → P pre s → rfold f s post = Ok s' → P l s') as H.
  { intros pre post. revert pre. induction post as [|x post IH]; intros pre t Hl Ht H; simpl in H.
    - injection H as <-. by rewrite Hl, app_nil_r.
    - apply rbind_Ok in H as (t' & Hf & H). apply (IH (pre ++ [x]) t'); [by rewrite <- app_assoc| |done].
      by eapply Hstep. }
  by apply (H []).
Qed.

(** * The development's tactics *)

(** Splits a successful computation into its steps. *)
Ltac invert_ok :=
  repeat match goal with
  | H : rbind _ _ = Ok _ |- _ =>
      let a := fresh "a" in let H1 := fresh "H" in let H2 := fresh "H" in
      apply rbind_Ok in H as (a & H1 & H2)
  | H : Ok _ = Ok _ |- _ => injection H as H
  | H : Err _ = Ok _ |- _ => discriminate H
  | H : Ok _ = Err _ |- _ => discriminate H
  | H : (if ?b then Err _ else _) = Ok _ |- _ =>
      let E := fresh "E" in destruct b eqn:E; [discriminate H|]
  | H : (if ?b then _ else Err _) = Ok _ |- _ =>
      let E := fresh "E" in destruct b eqn:E; [|discriminate H]
  end.

(** Turns boolean tests on [Z] and [nat] in hypotheses and goal into [Prop]. *)
Ltac zb :=
  repeat match goal with
  | H : (_ <? _)%Z = true |- _ => apply Z.ltb_lt in H
  | H : (_ <? _)%Z = false |- _ => apply Z.ltb_ge in H
  | H : (_ <=? _)%Z = true |- _ => apply Z.leb_le in H
  | H : (_ <=? _)%Z = false |- _ => apply Z.leb_gt in H
  | H : (_ =? _)%Z = true |- _ => apply Z.eqb_eq in H
  | H : (_ =? _)%Z = false |- _ => apply Z.eqb_neq in H
  | H : (_ <? _)%nat = true |- _ => apply Nat.ltb_lt in H
  | H : (_ <? _)%nat = false |- _ => apply Nat.ltb_ge in H
  | H : (_ =? _)%nat = true |- _ => apply Nat.eqb_eq in H
  | H : (_ =? _)%nat = false |- _ => apply Nat.eqb_neq in H
  | H : _ && _ = true |- _ => apply andb_true_iff in H as [? ?]
  | H : _ || _ = false |- _ => apply orb_false_iff in H as [? ?]
  | H : negb _ = true |- _ => apply negb_true_iff in H
  | H : negb _ = false |- _ => apply negb_false_iff in H
  | H : bool_decide _ = true |- _ => apply bool_decide_eq_true in H
  | H : bool_decide _ = false |- _ => apply bool_decide_eq_false in H
  end.

(** A guarded step: the lemma where the guard holds, nothing to show where it does not. *)
Tactic Notation "guarded" uconstr(lem) := case_match; [by apply lem|first [done|reflexivity]].

(** Closes a decidable goal on concrete data by evaluation. *)
Ltac decide_now := apply (bool_decide_unpack _); vm_compute; reflexivity.

(** * Lists *)

Lemma Forall2_det {A B} (R : A → B → Prop) l k k' :
  Forall (λ b, ∀ a b', R a b → R a b' → b = b') k → Forall2 R l k → Forall2 R l k' → k = k'.
Proof.
  intros Hdet H. revert k'. induction H as [|a b l k Hab H IH]; intros k' H'; inversion H'; subst; [done|].
  apply Forall_cons in Hdet as [Hd Hdet]. f_equal; [by eapply Hd|by apply IH].
Qed.

Lemma Forall2_impl_elem {A B} (R S : A → B → Prop) l k :
  Forall2 R l k → (∀ a b, a ∈ l → b ∈ k → R a b → S a b) → Forall2 S l k.
Proof.
  induction 1 as [|a b l k Hab H IH]; intros HS; constructor.
  - apply HS; [left|left|done].
  - apply IH. intros ????. apply HS; by right.
Qed.

Lemma sum_list_with_elem {A} (f : A → nat) x l : x ∈ l → f x ≤ sum_list_with f l.
Proof. induction 1; simpl; lia. Qed.

Lemma filter_all {A} (P : A → Prop) `{∀ x, Decision (P x)} l : Forall P l → filter P l = l.
Proof. induction 1 as [|x l Hx _ IH]; [done|]. by rewrite filter_cons_True, IH. Qed.

Lemma NoDup_fmap_eq {A B} (f : A → B) l x y : NoDup (f <$> l) → x ∈ l → y ∈ l → f x = f y → x = y.
Proof.
  induction l as [|z l IH]; csimpl; [set_solver|]. intros [Hz Hl]%NoDup_cons.
  intros [->|Hx]%elem_of_cons [->|Hy]%elem_of_cons E; [done| | |by apply IH].
  - destruct Hz. rewrite E. by apply list_elem_of_fmap_2.
  - destruct Hz. rewrite <- E. by apply list_elem_of_fmap_2.
Qed.

(** * Sorting by a number

    [values.sort((a, b) => key(a) - key(b))]: a stable sort. *)
Fixpoint insert_by {A} (key : A → Z) (x : A) (l : list A) : list A :=
  match l with
  | [] => [x]
  | y :: l' => if (key x <? key y)%Z then x :: l else y :: insert_by key x l'
  end.

Definition sort_by {A} (key : A → Z) (values : list A) : list A :=
  foldl (λ acc x, insert_by key x acc) [] values.


Section sort.
Context {A : Type} (key : A → Z).
Notation le := (λ x y, (key x ≤ key y)%Z).

Lemma insert_by_Permutation x l : insert_by key x l ≡ₚ x :: l.
Proof.
  induction l as [|y l IH]; simpl; [done|]. destruct (key x <? key y)%Z; [done|].
  rewrite IH. by rewrite Permutation_swap.
Qed.

Lemma insert_by_sorted x l : StronglySorted le l → StronglySorted le (insert_by key x l).
Proof.
  induction 1 as [|y l Hs IH Hy]; simpl; [repeat constructor|].
  destruct (Z.ltb_spec (key x) (key y)).
  - constructor; [by constructor|]. constructor; [lia|]. eapply Forall_impl; [done|]. simpl. lia.
  - constructor; [done|]. rewrite insert_by_Permutation. constructor; [lia|done].
Qed.

Lemma sort_by_spec l : sort_by key l ≡ₚ l ∧ StronglySorted le (sort_by key l).
Proof.
  unfold sort_by. assert (StronglySorted le (@nil A)) as H by constructor.
  rewrite <- (app_nil_l l) at 2. revert H. generalize (@nil A) as acc. induction l as [|x l IH]; intros acc H; simpl.
  { by rewrite app_nil_r. }
  destruct (IH (insert_by key x acc) (insert_by_sorted x acc H)) as [H1 H2]. split; [|done].
  rewrite H1, insert_by_Permutation. apply Permutation_middle.
Qed.

Lemma sort_by_elem l x : x ∈ sort_by key l ↔ x ∈ l.
Proof. by rewrite (proj1 (sort_by_spec l)). Qed.

(** Distinct keys determine the result. *)
Lemma sort_by_perm l l' : NoDup (key <$> l) → l ≡ₚ l' → sort_by key l = sort_by key l'.
Proof.
  intros Hnd Hp. destruct (sort_by_spec l) as [P1 S1], (sort_by_spec l') as [P2 S2].
  apply (StronglySorted_unique_strong le); [|done|done|by rewrite P1, P2].
  intros x y Hx Hy Hxy Hyx. rewrite sort_by_elem in Hx. rewrite sort_by_elem, <- Hp in Hy.
  apply list_elem_of_lookup in Hx as [i Hi]. apply list_elem_of_lookup in Hy as [j Hj].
  assert (i = j) as ->; [|congruence].
  eapply NoDup_lookup; [exact Hnd|..]; rewrite list_lookup_fmap; [rewrite Hi|rewrite Hj]; simpl; [done|].
  f_equal. lia.
Qed.

(** A list that is sorted already is left as it is. *)
Lemma insert_by_last x l : Forall (λ y, le y x) l → insert_by key x l = l ++ [x].
Proof.
  induction 1 as [|y l Hy _ IH]; [done|]. cbn. destruct (Z.ltb_spec (key x) (key y)); [lia|]. by rewrite IH.
Qed.

Lemma sort_by_sorted l : StronglySorted le l → sort_by key l = l.
Proof.
  unfold sort_by. assert (∀ acc, StronglySorted le (acc ++ l) → foldl (λ acc x, insert_by key x acc) acc l = acc ++ l) as H;
    [|by apply (H [])].
  induction l as [|x l IH]; intros acc Hs; cbn; [by rewrite app_nil_r|].
  rewrite insert_by_last.
  - rewrite IH by (by rewrite <- app_assoc). by rewrite <- app_assoc.
  - clear IH. induction acc as [|y acc IH]; [done|]. cbn in Hs. apply StronglySorted_inv in Hs as [Hs Hy].
    constructor; [|by apply IH]. apply Forall_app in Hy as [_ [? _]%Forall_cons]. done.
Qed.
End sort.
