(* ===== verification/Bytes.v ===== *)
(** Byte arrays as the sources use them: a [Uint8Array] is a list of integers,
    storing a number keeps its low eight bits, [>>>] works on the low thirty-two
    bits, and [set] copies a source into a buffer or throws a [RangeError].  The
    big-endian encodings shared by [protocol/src/framing.ts] and
    [protocol/src/cbor] are here with their round trips. *)
From S2P Require Import Prelude.
Open Scope Z_scope.

(** Storing a number into a [Uint8Array] slot. *)
Definition to_uint8 (v : Z) : Z := v mod 256.

(** The unsigned right shift [v >>> k]. *)
Definition ushr (v k : Z) : Z := Z.shiftr (v mod 2 ^ 32) k.

Definition is_byte (b : Z) : Prop := 0 ≤ b < 256.
#[export] Instance is_byte_dec b : Decision (is_byte b).
Proof. unfold is_byte. apply _. Defined.

Notation bytes_ok := (Forall is_byte).

(** [new Uint8Array(n)] *)
Definition new_bytes (n : nat) : list Z := replicate n 0.

(** [buf.set(src, off)]; [None] is the [RangeError] of an out-of-bounds copy. *)
Definition buf_set (buf : list Z) (off : nat) (src : list Z) : option (list Z) :=
  if (off + length src <=? length buf)%nat
  then Some (take off buf ++ src ++ drop (off + length src) buf)
  else None.

Definition be16 (v : Z) : list Z := [to_uint8 (ushr v 8); to_uint8 v].

Definition be32 (v : Z) : list Z :=
  [to_uint8 (ushr v 24); to_uint8 (ushr v 16); to_uint8 (ushr v 8); to_uint8 v].

Definition read_be16 (bs : list Z) : Z :=
  match bs with
  | [b0; b1] => b0 * 0x100 + b1
  | _ => 0
  end.

Definition read_be32 (bs : list Z) : Z :=
  match bs with
  | [b0; b1; b2; b3] => b0 * 0x1000000 + b1 * 0x10000 + b2 * 0x100 + b3
  | _ => 0
  end.

(** ** Lemmas *)

Lemma to_uint8_byte v : is_byte (to_uint8 v).
Proof. apply Z.mod_pos_bound. lia. Qed.

Lemma to_uint8_small v : is_byte v → to_uint8 v = v.
Proof. apply Z.mod_small. Qed.

Lemma ushr_div v k : 0 ≤ v < 2 ^ 32 → 0 ≤ k → ushr v k = v / 2 ^ k.
Proof. intros Hv Hk. unfold ushr. rewrite Z.mod_small by lia. by apply Z.shiftr_div_pow2. Qed.

Lemma be16_bytes v : bytes_ok (be16 v).
Proof. repeat constructor; apply to_uint8_byte. Qed.

Lemma be32_bytes v : bytes_ok (be32 v).
Proof. repeat constructor; apply to_uint8_byte. Qed.

Lemma length_be16 v : length (be16 v) = 2%nat.
Proof. done. Qed.

Lemma length_be32 v : length (be32 v) = 4%nat.
Proof. done. Qed.

Lemma read_be16_be16 v : 0 ≤ v < 2 ^ 16 → read_be16 (be16 v) = v.
Proof.
  intros Hv. simpl. unfold to_uint8. rewrite !ushr_div by lia.
  Z.div_mod_to_equations. lia.
Qed.

Lemma read_be32_be32 v : 0 ≤ v < 2 ^ 32 → read_be32 (be32 v) = v.
Proof.
  intros Hv. simpl. unfold to_uint8. rewrite !ushr_div by lia.
  change (2 ^ 24) with 16777216; change (2 ^ 16) with 65536; change (2 ^ 8) with 256.
  Z.div_mod_to_equations. lia.
Qed.

Lemma length_four {A} (l : list A) :
  length l = 4%nat → ∃ a b c d, l = [a; b; c; d].
Proof. destruct l as [|a [|b [|c [|d [|]]]]]; intros; simplify_eq/=; eauto. Qed.

Lemma be32_read_be32 bs : length bs = 4%nat → bytes_ok bs → be32 (read_be32 bs) = bs.
Proof.
  intros (b0 & b1 & b2 & b3 & ->)%length_four Hb.
  unfold is_byte in Hb. decompose_Forall_hyps. unfold be32, to_uint8. simpl.
  rewrite !ushr_div by lia.
  change (2 ^ 24) with 16777216; change (2 ^ 16) with 65536; change (2 ^ 8) with 256.
  repeat f_equal; Z.div_mod_to_equations; lia.
Qed.

Lemma read_be32_range bs : length bs = 4%nat → bytes_ok bs → 0 ≤ read_be32 bs < 2 ^ 32.
Proof.
  intros (b0 & b1 & b2 & b3 & ->)%length_four Hb.
  unfold is_byte in Hb. decompose_Forall_hyps. simpl. lia.
Qed.

Lemma buf_set_Some buf off src :
  (off + length src ≤ length buf)%nat →
  buf_set buf off src = Some (take off buf ++ src ++ drop (off + length src) buf).
Proof. intros H. unfold buf_set. by rewrite (proj2 (Nat.leb_le _ _) H). Qed.

Lemma buf_set_length buf off src buf' :
  buf_set buf off src = Some buf' → length buf' = length buf.
Proof.
  unfold buf_set. destruct (Nat.leb_spec (off + length src) (length buf)); [|done].
  intros [= <-]. rewrite !length_app, length_take, length_drop. lia.
Qed.

(** A copy at [off] extends the filled prefix by the source. *)
Lemma buf_set_prefix buf off src buf' :
  buf_set buf off src = Some buf' →
  take (off + length src) buf' = take off buf ++ src.
Proof.
  unfold buf_set. destruct (Nat.leb_spec (off + length src) (length buf)); [|done].
  intros [= <-]. rewrite app_assoc, take_app_le; rewrite ?length_app, ?length_take; [|lia].
  apply take_ge. rewrite length_app, length_take. lia.
Qed.

Lemma buf_set_bytes buf off src buf' :
  bytes_ok buf → bytes_ok src → buf_set buf off src = Some buf' → bytes_ok buf'.
Proof.
  unfold buf_set. destruct (_ <=? _)%nat; [|done]. intros Hb Hs [= <-].
  apply Forall_app; split; [by apply Forall_take|].
  apply Forall_app; split; [done|by apply Forall_drop].
Qed.

Lemma new_bytes_ok n : bytes_ok (new_bytes n).
Proof. apply Forall_replicate. unfold is_byte; lia. Qed.

Lemma length_new_bytes n : length (new_bytes n) = n.
Proof. apply length_replicate. Qed.

Create HintDb bytes.
#[export] Hint Resolve to_uint8_byte be16_bytes be32_bytes new_bytes_ok
  Forall_nil_2 Forall_app_2 Forall_take Forall_drop : bytes.
