(* ===== verification/Framing.v ===== *)
(** Length-prefixed framing: [cli/packages/protocol/src/framing.ts].

    [encodeFrame] and [assertCompleteFrame] are pure; [FrameDecoder] is the
    class's state as a record, [push] and [end_] its methods.  A method that
    throws still leaves its object behind, so each returns the object's new
    state together with a result.  The payload blocks are a list of fixed-size
    buffers and [currentPayloadBlock] is an index into it: in the source it
    aliases the block last pushed, and writes through it are writes to that
    block. *)
From S2P Require Import Prelude Bytes.
Open Scope Z_scope.

Definition FRAME_HEADER_LENGTH : nat := 4.
Definition MAX_UINT32 : Z := 0xffffffff.
Definition PAYLOAD_BLOCK_SIZE : Z := 64 * 1024.
Definition DEFAULT_MAX_FRAME_LENGTH : Z := 16 * 1024 * 1024.
Definition MAX_SAFE_INTEGER : Z := 2 ^ 53 - 1.

(** What the functions of this file throw; [RangeErr] is a [RangeError]. *)
Inductive frame_error :=
| FrameTooLong (length limit : Z)
| FrameNoHeader
| FrameNotExact
| DecoderEnded
| DecoderFailed
| TruncatedFrame
| RangeErr
| LoopFuel.

(** [resolveMaxFrameLength]; the option is the [?? DEFAULT] of the source. *)
Definition resolveMaxFrameLength (maxFrameLength : option Z) : result frame_error Z :=
  let value := default DEFAULT_MAX_FRAME_LENGTH maxFrameLength in
  if (MAX_SAFE_INTEGER <? Z.abs value) || (value <? 0) || (MAX_UINT32 <? value)
  then Err RangeErr else Ok value.

Definition encodeFrame (payload : list Z) : result frame_error (list Z) :=
  let length := Z.of_nat (length payload) in
  if MAX_UINT32 <? length then Err RangeErr else
  let frame := new_bytes (FRAME_HEADER_LENGTH + List.length payload) in
  match buf_set (be32 length ++ drop 4 frame) FRAME_HEADER_LENGTH payload with
  | Some frame => Ok frame
  | None => Err RangeErr
  end.

Definition assertCompleteFrame (frame : list Z) (maxFrameLength : option Z) :
    result frame_error unit :=
  if (length frame <? FRAME_HEADER_LENGTH)%nat then Err FrameNoHeader else
  let length := read_be32 (take 4 frame) in
  let* maxFrameLength := resolveMaxFrameLength maxFrameLength in
  if maxFrameLength <? length then Err (FrameTooLong length maxFrameLength) else
  if negb (Z.of_nat (List.length frame) =? Z.of_nat FRAME_HEADER_LENGTH + length)
  then Err FrameNotExact else Ok tt.

Inductive DecoderState := open | ended | failed.

#[export] Instance DecoderState_eq_dec : EqDecision DecoderState.
Proof. solve_decision. Defined.

Record FrameDecoder := mkDecoder {
  header : list Z;
  headerLength : nat;
  maxFrameLength : Z;
  payloadBlocks : list (list Z);
  currentPayloadBlock : option nat;
  currentPayloadBlockLength : nat;
  expectedPayloadLength : option Z;
  payloadLength : Z;
  state : DecoderState;
}.

Definition new_FrameDecoder (options : option Z) : result frame_error FrameDecoder :=
  let* max := resolveMaxFrameLength options in
  Ok (mkDecoder (new_bytes FRAME_HEADER_LENGTH) 0 max [] None 0 None 0 open).

(** The resets of [push] and [fail]: no payload in progress. *)
Definition clearPayload (d : FrameDecoder) : FrameDecoder :=
  mkDecoder (header d) (headerLength d) (maxFrameLength d) [] None 0 None 0 (state d).

Definition fail {A} (d : FrameDecoder) (e : frame_error) : FrameDecoder * result frame_error A :=
  (mkDecoder (header d) 0 (maxFrameLength d) [] None 0 None 0 failed, Err e).

(** The header part of one iteration of [push]'s outer loop: copies header
    bytes; [None] is a [RangeError] of [header.set]. *)
Definition fillHeader (d : FrameDecoder) (rest : list Z) : option (FrameDecoder * list Z) :=
  let headerBytes := Nat.min (FRAME_HEADER_LENGTH - headerLength d) (length rest) in
  match buf_set (header d) (headerLength d) (take headerBytes rest) with
  | Some header =>
      Some (mkDecoder header (headerLength d + headerBytes) (maxFrameLength d)
              (payloadBlocks d) (currentPayloadBlock d) (currentPayloadBlockLength d)
              (expectedPayloadLength d) (payloadLength d) (state d),
            drop headerBytes rest)
  | None => None
  end.

Definition currentBlock (d : FrameDecoder) : option (list Z) :=
  i ← currentPayloadBlock d; payloadBlocks d !! i.

(** Opens a fresh block when there is none or the current one is full. *)
Definition ensureBlock (d : FrameDecoder) (expected : Z) : FrameDecoder :=
  match currentBlock d with
  | Some block =>
      if (currentPayloadBlockLength d =? length block)%nat
      then mkDecoder (header d) (headerLength d) (maxFrameLength d)
             (payloadBlocks d ++
                [new_bytes (Z.to_nat (Z.min PAYLOAD_BLOCK_SIZE (expected - payloadLength d)))])
             (Some (length (payloadBlocks d))) 0
             (expectedPayloadLength d) (payloadLength d) (state d)
      else d
  | None =>
      mkDecoder (header d) (headerLength d) (maxFrameLength d)
        (payloadBlocks d ++
           [new_bytes (Z.to_nat (Z.min PAYLOAD_BLOCK_SIZE (expected - payloadLength d)))])
        (Some (length (payloadBlocks d))) 0
        (expectedPayloadLength d) (payloadLength d) (state d)
  end.

(** One iteration of the inner loop: copy into the current block. *)
Definition fillBlock (d : FrameDecoder) (rest : list Z) (expected : Z) :
    option (FrameDecoder * list Z) :=
  let d := ensureBlock d expected in
  i ← currentPayloadBlock d;
  block ← payloadBlocks d !! i;
  let payloadBytes :=
    Nat.min (length block - currentPayloadBlockLength d) (length rest) in
  block' ← buf_set block (currentPayloadBlockLength d) (take payloadBytes rest);
  Some (mkDecoder (header d) (headerLength d) (maxFrameLength d)
          (<[i := block']> (payloadBlocks d)) (currentPayloadBlock d)
          (currentPayloadBlockLength d + payloadBytes)
          (expectedPayloadLength d) (payloadLength d + Z.of_nat payloadBytes) (state d),
        drop payloadBytes rest).

(** The inner [while] loop. *)
Fixpoint fillPayload (fuel : nat) (d : FrameDecoder) (rest : list Z) (expected : Z) :
    option (FrameDecoder * list Z) :=
  if bool_decide (rest ≠ []) && (payloadLength d <? expected) then
    match fuel with
    | O => None
    | S fuel =>
        '(d, rest) ← fillBlock d rest expected;
        fillPayload fuel d rest expected
    end
  else Some (d, rest).

(** Joining the blocks of a complete payload: the single block itself, or a copy
    of all of them into one array of the expected length. *)
Fixpoint copyBlocks (payload : list Z) (offset : nat) (blocks : list (list Z)) :
    option (list Z) :=
  match blocks with
  | [] => Some payload
  | b :: blocks =>
      payload ← buf_set payload offset b;
      copyBlocks payload (offset + length b) blocks
  end.

Definition joinBlocks (blocks : list (list Z)) (expected : Z) : option (list Z) :=
  match blocks with
  | [b] => Some b
  | _ => copyBlocks (new_bytes (Z.to_nat expected)) 0 blocks
  end.

(** The payload part of one iteration of the outer loop. *)
Definition pushPayload (d : FrameDecoder) (rest : list Z) (frames : list (list Z)) (expected : Z) :
    option (FrameDecoder * list Z * list (list Z)) :=
  '(d, rest) ← fillPayload (length rest) d rest expected;
  if payloadLength d =? expected then
    payload ← joinBlocks (payloadBlocks d) expected;
    Some (clearPayload d, rest, frames ++ [payload])
  else Some (d, rest, frames).

Definition beginPayload (d : FrameDecoder) (frameLength : Z) : FrameDecoder :=
  mkDecoder (header d) (headerLength d) (maxFrameLength d) [] None 0
    (Some frameLength) 0 (state d).

Definition resetHeader (d : FrameDecoder) : FrameDecoder :=
  mkDecoder (header d) 0 (maxFrameLength d) (payloadBlocks d) (currentPayloadBlock d)
    (currentPayloadBlockLength d) (expectedPayloadLength d) (payloadLength d) (state d).

(** The outer [while (chunkOffset < chunk.byteLength)] loop of [push]; [rest] is
    the part of the chunk from [chunkOffset] on. *)
Fixpoint pushLoop (fuel : nat) (d : FrameDecoder) (rest : list Z) (frames : list (list Z)) :
    FrameDecoder * result frame_error (list (list Z)) :=
  match rest with
  | [] => (d, Ok frames)
  | _ =>
    match fuel with
    | O => (d, Err LoopFuel)
    | S fuel =>
      match expectedPayloadLength d with
      | None =>
          match fillHeader d rest with
          | None => (d, Err RangeErr)
          | Some (d, rest) =>
              if (headerLength d <? FRAME_HEADER_LENGTH)%nat then pushLoop fuel d rest frames else
              let frameLength := read_be32 (header d) in
              let d := resetHeader d in
              if maxFrameLength d <? frameLength
              then fail d (FrameTooLong frameLength (maxFrameLength d)) else
              if frameLength =? 0 then pushLoop fuel d rest (frames ++ [[]]) else
              let d := beginPayload d frameLength in
              match pushPayload d rest frames frameLength with
              | None => (d, Err RangeErr)
              | Some (d, rest, frames) => pushLoop fuel d rest frames
              end
          end
      | Some expected =>
          match pushPayload d rest frames expected with
          | None => (d, Err RangeErr)
          | Some (d, rest, frames) => pushLoop fuel d rest frames
          end
      end
    end
  end.

Definition push (d : FrameDecoder) (chunk : list Z) :
    FrameDecoder * result frame_error (list (list Z)) :=
  match state d with
  | ended => (d, Err DecoderEnded)
  | failed => (d, Err DecoderFailed)
  | open => pushLoop (length chunk) d chunk []
  end.

Definition end_ (d : FrameDecoder) : FrameDecoder * result frame_error unit :=
  match state d with
  | ended => (d, Err DecoderEnded)
  | failed => (d, Err DecoderFailed)
  | open =>
      if negb (headerLength d =? 0)%nat || bool_decide (expectedPayloadLength d ≠ None)
      then fail d TruncatedFrame
      else (mkDecoder (header d) (headerLength d) (maxFrameLength d) (payloadBlocks d)
              (currentPayloadBlock d) (currentPayloadBlockLength d)
              (expectedPayloadLength d) (payloadLength d) ended, Ok tt)
  end.

(** Pushing the chunks of a stream one after the other, stopping at the first error. *)
Fixpoint pushAll (d : FrameDecoder) (chunks : list (list Z)) :
    FrameDecoder * result frame_error (list (list Z)) :=
  match chunks with
  | [] => (d, Ok [])
  | c :: chunks =>
      match push d c with
      | (d, Ok fs) =>
          match pushAll d chunks with
          | (d, Ok gs) => (d, Ok (fs ++ gs))
          | (d, Err e) => (d, Err e)
          end
      | (d, Err e) => (d, Err e)
      end
  end.

Example frame_ex : encodeFrame [1; 2; 3] = Ok [0; 0; 0; 3; 1; 2; 3].
Proof. reflexivity. Qed.

Example push_ex :
  (match new_FrameDecoder None with
   | Ok d => (pushAll d [[0; 0]; [0; 3; 1]; []; [2; 3; 0; 0; 0; 0; 0; 0]; [0; 1; 9]]).2
   | Err e => Err e
   end) = Ok [[1; 2; 3]; []; [9]].
Proof. reflexivity. Qed.
