(* ===== verification/FramingSpec.v ===== *)
(** What framing promises, and that [FrameDecoder] implements it.

    The abstract decoder is a buffer of pending bytes.  [framed max bs fs r]
    says that the byte stream [bs] is the frames [fs] followed by the incomplete
    tail [r]; [overlong max bs n] that after some complete frames the stream
    announces a frame of [n] bytes, more than the limit.  Every byte stream is
    exactly one of the two.  [Repr d pend] relates the decoder's buffers to its
    pending bytes; [push] implements the grammar on [pend ++ chunk]. *)
From S2P Require Import Prelude Bytes Framing.
Open Scope Z_scope.

Inductive incomplete (max : Z) : list Z → Prop :=
| incomplete_header r : (length r < 4)%nat → incomplete max r
| incomplete_payload n p r :
    r = be32 n ++ p → 0 ≤ n ≤ max → Z.of_nat (length p) < n → incomplete max r.

Inductive framed (max : Z) : list Z → list (list Z) → list Z → Prop :=
| framed_tail r : incomplete max r → framed max r [] r
| framed_frame p bs fs r stream :
    stream = be32 (Z.of_nat (length p)) ++ p ++ bs →
    Z.of_nat (length p) ≤ max →
    framed max bs fs r →
    framed max stream (p :: fs) r.

Inductive overlong (max : Z) : list Z → Z → Prop :=
| overlong_here n bs stream :
    stream = be32 n ++ bs → max < n ≤ MAX_UINT32 → overlong max stream n
| overlong_after p bs n stream :
    stream = be32 (Z.of_nat (length p)) ++ p ++ bs →
    Z.of_nat (length p) ≤ max →
    overlong max bs n →
    overlong max stream n.

(** The filled part [p] of the payload in progress, of expected length [n]. *)
Definition blocks_ok (d : FrameDecoder) (n : Z) (p : list Z) : Prop :=
  bytes_ok p ∧ payloadLength d = Z.of_nat (length p) ∧ Z.of_nat (length p) ≤ n ∧
  ((currentPayloadBlock d = None ∧ payloadBlocks d = [] ∧ p = []) ∨
   ∃ init blk,
     payloadBlocks d = init ++ [blk] ∧ currentPayloadBlock d = Some (length init) ∧
     (currentPayloadBlockLength d ≤ length blk)%nat ∧
     p = concat init ++ take (currentPayloadBlockLength d) blk ∧
     Z.of_nat (length (concat init) + length blk) ≤ n).

Definition common_ok (d : FrameDecoder) : Prop :=
  length (header d) = 4%nat ∧ bytes_ok (header d) ∧ state d = open ∧
  0 ≤ maxFrameLength d ≤ MAX_UINT32.

Definition Repr (d : FrameDecoder) (pend : list Z) : Prop :=
  common_ok d ∧ (headerLength d < 4)%nat ∧
  match expectedPayloadLength d with
  | None => pend = take (headerLength d) (header d)
  | Some n =>
      headerLength d = 0%nat ∧ 0 < n ≤ maxFrameLength d ∧
      ∃ p, pend = be32 n ++ p ∧ blocks_ok d n p ∧ Z.of_nat (length p) < n
  end.

(** The fields a payload copy leaves alone. *)
Definition same_frame (d d' : FrameDecoder) : Prop :=
  header d' = header d ∧ headerLength d' = headerLength d ∧
  maxFrameLength d' = maxFrameLength d ∧
  expectedPayloadLength d' = expectedPayloadLength d ∧ state d' = state d.

#[export] Instance same_frame_preorder : PreOrder same_frame.
Proof. split; unfold same_frame; [done|]. intros x y z. intuition congruence. Qed.

(** ** The inner loop *)

Lemma ensureBlock_spec d n p :
  blocks_ok d n p → Z.of_nat (length p) < n →
  same_frame d (ensureBlock d n) ∧ payloadLength (ensureBlock d n) = payloadLength d ∧
  ∃ init blk,
    payloadBlocks (ensureBlock d n) = init ++ [blk] ∧
    currentPayloadBlock (ensureBlock d n) = Some (length init) ∧
    (currentPayloadBlockLength (ensureBlock d n) < length blk)%nat ∧
    p = concat init ++ take (currentPayloadBlockLength (ensureBlock d n)) blk ∧
    Z.of_nat (length (concat init) + length blk) ≤ n.
Proof.
  intros (Hb & Hpl & Hle & Hc) Hlt.
  assert (0 < Z.to_nat (Z.min PAYLOAD_BLOCK_SIZE (n - payloadLength d)))%nat as Hnew.
  { unfold PAYLOAD_BLOCK_SIZE. lia. }
  destruct Hc as [(Hcur & Hbl & ->)|(init & blk & Hbl & Hcur & Hk & -> & Hn)];
    unfold ensureBlock, currentBlock; rewrite Hcur, Hbl; simpl.
  - split; [done|]. split; [done|]. eexists [], _. repeat split; simpl; rewrite length_new_bytes; simpl in *; lia.
  - rewrite lookup_app_r, Nat.sub_diag by lia. simpl.
    destruct (Nat.eqb_spec (currentPayloadBlockLength d) (length blk)) as [E|E]; simpl.
    + split; [done|]. split; [done|]. eexists (init ++ [blk]), _.
      rewrite length_new_bytes. repeat split; [lia| |].
      * rewrite E, take_ge, concat_app by lia. simpl. by rewrite !app_nil_r.
      * rewrite E, take_ge in Hle, Hpl, Hlt by lia.
        rewrite concat_app, length_app. simpl. rewrite app_nil_r.
        rewrite length_app in Hpl, Hlt. rewrite Hpl. lia.
    + split; [done|]. split; [done|]. exists init, blk. rewrite Hbl. repeat split; try done. lia.
Qed.

Lemma fillBlock_spec d n p rest :
  blocks_ok d n p → Z.of_nat (length p) < n → bytes_ok rest → rest ≠ [] →
  ∃ d' k, fillBlock d rest n = Some (d', drop k rest) ∧
    (0 < k ≤ length rest)%nat ∧ same_frame d d' ∧ blocks_ok d' n (p ++ take k rest).
Proof.
  intros Hok Hlt Hrest Hne.
  destruct (ensureBlock_spec d n p Hok Hlt) as (Hsame & Hpl & init & blk & Hbl & Hcur & Hk & Hp & Hn).
  destruct Hok as (Hb & Hpl0 & _ & _).
  unfold fillBlock. set (d1 := ensureBlock d n) in *. rewrite Hcur. simpl.
  rewrite Hbl, lookup_app_r, Nat.sub_diag by lia. simpl.
  set (k := Nat.min _ _).
  assert (0 < length rest)%nat by (destruct rest; [done|simpl; lia]).
  assert (length (take k rest) = k) as Hlk by (rewrite length_take; lia).
  assert (k ≤ length blk - currentPayloadBlockLength d1)%nat by lia.
  rewrite buf_set_Some by lia. simpl.
  eexists _, k. split; [done|]. split; [lia|]. split; [done|].
  set (blk' := take _ blk ++ _).
  assert (buf_set blk (currentPayloadBlockLength d1) (take k rest) = Some blk') as Hset
    by (by rewrite buf_set_Some by lia).
  pose proof (buf_set_prefix _ _ _ _ Hset) as Hpre. pose proof (buf_set_length _ _ _ _ Hset) as Hlen.
  rewrite Hlk in Hpre.
  split; [by apply Forall_app_2; [|apply Forall_take]|]. simpl.
  split; [rewrite length_app, Hlk; lia|].
  split; [rewrite length_app, Hlk; subst p; rewrite length_app, length_take; lia|].
  right. exists init, blk'.
  rewrite insert_app_r_alt, Nat.sub_diag by lia. simpl.
  repeat split; [lia| |lia]. rewrite Hpre. subst p. by rewrite <- app_assoc.
Qed.

Lemma fillPayload_spec fuel d n p rest :
  blocks_ok d n p → bytes_ok rest → (length rest ≤ fuel)%nat →
  ∃ d' k, fillPayload fuel d rest n = Some (d', drop k rest) ∧
    same_frame d d' ∧ blocks_ok d' n (p ++ take k rest) ∧
    (k = length rest ∨ Z.of_nat (length (p ++ take k rest)) = n) ∧
    (k ≤ length rest)%nat ∧ (Z.of_nat (length p) < n → rest ≠ [] → (0 < k)%nat).
Proof.
  revert d p rest. induction fuel as [|fuel IH]; intros d p rest Hok Hrest Hfuel; simpl.
  - destruct rest; [|simpl in Hfuel; lia]. exists d, 0%nat. simpl. rewrite app_nil_r.
    split_and!; [done..|by left|done|done].
  - pose proof Hok as (_ & Hpl & Hle & _).
    case_bool_decide as Hne; simpl.
    2:{ destruct rest; [|done]. exists d, 0%nat. simpl. rewrite app_nil_r.
        split_and!; [done..|by left|done|done]. }
    destruct (Z.ltb_spec (payloadLength d) n) as [Hlt|Hge].
    2:{ exists d, 0%nat. rewrite drop_0, take_0, app_nil_r. split; [done|]. split; [done|].
        split; [done|]. split; [right; lia|]. split; [lia|]. lia. }
    destruct (fillBlock_spec d n p rest) as (d1 & k1 & -> & Hk1 & Hs1 & Hok1); [done|lia|done..|].
    simpl. destruct (IH d1 (p ++ take k1 rest) (drop k1 rest)) as (d2 & k2 & -> & Hs2 & Hok2 & Hdone & Hk2 & _);
      [done|by apply Forall_drop|rewrite length_drop; lia|].
    rewrite length_drop in *.
    assert (take k1 rest ++ take k2 (drop k1 rest) = take (k1 + k2) rest) as Htake
      by by rewrite take_take_drop.
    exists d2, (k1 + k2)%nat. rewrite drop_drop, <- app_assoc, Htake in *.
    split; [done|]. split; [by etrans|]. split; [done|].
    split; [destruct Hdone; [left; lia|by right]|]. lia.
Qed.

(** ** Joining the blocks *)

Lemma copyBlocks_spec payload off blocks done_ :
  length done_ = off → take off payload = done_ →
  (off + length (concat blocks) = length payload)%nat →
  copyBlocks payload off blocks = Some (done_ ++ concat blocks).
Proof.
  revert payload off done_. induction blocks as [|b blocks IH]; intros payload off done_ Hl Ht Hlen; simpl in *.
  - rewrite app_nil_r. rewrite take_ge in Ht by lia. by subst.
  - rewrite length_app in Hlen. destruct (buf_set payload off b) as [payload'|] eqn:Hset; simpl.
    2:{ rewrite buf_set_Some in Hset by lia. done. }
    rewrite (IH _ _ (done_ ++ b)).
    + by rewrite <- app_assoc.
    + rewrite length_app. lia.
    + rewrite (buf_set_prefix _ _ _ _ Hset). by rewrite Ht.
    + rewrite (buf_set_length _ _ _ _ Hset). lia.
Qed.

Lemma joinBlocks_spec d n p :
  blocks_ok d n p → Z.of_nat (length p) = n → 0 < n → joinBlocks (payloadBlocks d) n = Some p.
Proof.
  intros (_ & _ & _ & Hc) Hn Hpos.
  destruct Hc as [(_ & _ & ->)|(init & blk & Hbl & _ & Hk & -> & Hle)]; [simpl in Hn; lia|].
  rewrite length_app, length_take in Hn.
  rewrite take_ge in * by lia. rewrite Hbl. unfold joinBlocks.
  assert (copyBlocks (new_bytes (Z.to_nat n)) 0 (init ++ [blk]) = Some (concat (init ++ [blk]))) as Hcopy.
  { rewrite (copyBlocks_spec _ 0 _ []); [done..|]. rewrite length_new_bytes, concat_app, length_app.
    simpl. rewrite app_nil_r. lia. }
  rewrite concat_app in Hcopy. simpl in Hcopy. rewrite app_nil_r in Hcopy.
  destruct init as [|b [|]]; simpl in *; [done|by rewrite Hcopy..].
Qed.

(** ** The outer loop *)

(** One payload step from pending payload [p]: either the chunk is used up with
    the payload still incomplete, or the payload is complete and emitted. *)
Lemma pushPayload_spec d n p rest frames :
  common_ok d → headerLength d = 0%nat → expectedPayloadLength d = Some n →
  0 < n ≤ maxFrameLength d → blocks_ok d n p → Z.of_nat (length p) < n → bytes_ok rest →
  ∃ d' k,
    maxFrameLength d' = maxFrameLength d ∧ (k ≤ length rest)%nat ∧ (rest ≠ [] → 0 < k)%nat ∧
    ((pushPayload d rest frames n = Some (d', [], frames) ∧ k = length rest ∧
      Repr d' (be32 n ++ p ++ rest)) ∨
     (pushPayload d rest frames n = Some (d', drop k rest, frames ++ [p ++ take k rest]) ∧
      Z.of_nat (length (p ++ take k rest)) = n ∧ Repr d' [])).
Proof.
  intros (Hh & Hhb & Hst & Hmax) Hhl Hexp Hn Hok Hlt Hrest.
  destruct (fillPayload_spec (length rest) d n p rest) as
    (d1 & k & Hfill & (Hs1 & Hs2 & Hs3 & Hs4 & Hs5) & Hok1 & Hdone & Hk & Hpos); [done..|].
  unfold pushPayload. rewrite Hfill. simpl.
  pose proof Hok1 as (_ & Hpl1 & Hle1 & _).
  destruct (Z.eqb_spec (payloadLength d1) n) as [E|E].
  - rewrite (joinBlocks_spec d1 n (p ++ take k rest)) by (done || lia). simpl.
    exists (clearPayload d1), k. simpl. split; [done|]. split; [done|]. split; [auto|].
    right. split; [done|]. split; [lia|]. unfold Repr, common_ok; simpl.
    rewrite Hs1, Hs2, Hs3, Hs5, Hhl. split_and!; try done; lia.
  - destruct Hdone as [Hd|Hd]; [|lia].
    exists d1, k. split; [done|]. split; [done|]. split; [auto|]. left.
    subst k. rewrite drop_all. split; [done|]. split; [done|].
    rewrite take_ge in Hok1, Hpl1, Hle1 by lia.
    unfold Repr, common_ok. rewrite Hs1, Hs2, Hs3, Hs4, Hs5, Hexp, Hhl.
    split_and!; try done; try lia. exists (p ++ rest). split_and!; [done|done|lia].
Qed.

Lemma fillHeader_spec d rest :
  common_ok d → (headerLength d < 4)%nat → bytes_ok rest →
  ∃ hdr k, fillHeader d rest =
      Some (mkDecoder hdr (headerLength d + k) (maxFrameLength d) (payloadBlocks d)
              (currentPayloadBlock d) (currentPayloadBlockLength d)
              (expectedPayloadLength d) (payloadLength d) (state d), drop k rest) ∧
    k = Nat.min (4 - headerLength d) (length rest) ∧
    length hdr = 4%nat ∧ bytes_ok hdr ∧
    take (headerLength d + k) hdr = take (headerLength d) (header d) ++ take k rest.
Proof.
  intros (Hh & Hhb & _) Hhl Hrest. unfold fillHeader. set (k := Nat.min _ _).
  assert (length (take k rest) = k) as Hlk by (rewrite length_take; unfold k; lia).
  destruct (buf_set (header d) (headerLength d) (take k rest)) as [hdr|] eqn:Hset.
  2:{ rewrite buf_set_Some in Hset; [done|]. unfold k, FRAME_HEADER_LENGTH in *. lia. }
  exists hdr, k. split; [done|]. split; [done|].
  split; [by rewrite (buf_set_length _ _ _ _ Hset)|].
  split; [eapply buf_set_bytes, Hset; auto with bytes|].
  pose proof (buf_set_prefix _ _ _ _ Hset) as Hp. by rewrite Hlk in Hp.
Qed.

Lemma Repr_incomplete d pend : Repr d pend → incomplete (maxFrameLength d) pend.
Proof.
  intros ((Hh & _) & Hhl & Hm). destruct (expectedPayloadLength d) as [n|].
  - destruct Hm as (_ & Hn & p & -> & _ & Hp). eapply incomplete_payload; [done|lia..].
  - subst. constructor. rewrite length_take. lia.
Qed.

(** What running the loop with output so far [frames] must deliver on a stream. *)
Definition Outcome (max : Z) (stream : list Z) (frames : list (list Z))
    (out : FrameDecoder * result frame_error (list (list Z))) : Prop :=
  (∃ d fs r, out = (d, Ok (frames ++ fs)) ∧ framed max stream fs r ∧ Repr d r ∧
     maxFrameLength d = max) ∨
  (∃ d n, out = (d, Err (FrameTooLong n max)) ∧ overlong max stream n ∧ state d = failed).

Lemma Outcome_emit max p stream frames out :
  Z.of_nat (length p) ≤ max → Outcome max stream (frames ++ [p]) out →
  Outcome max (be32 (Z.of_nat (length p)) ++ p ++ stream) frames out.
Proof.
  intros Hp [(d & fs & r & -> & Hf & HR & Hmax)|(d & n & -> & Ho & Hf)].
  - left. exists d, (p :: fs), r. rewrite <- app_assoc. split_and!; try done. by eapply framed_frame.
  - right. exists d, n. split_and!; try done. by eapply overlong_after.
Qed.

(** A payload step inside the loop, whether the payload starts in this chunk or
    continues from an earlier one. *)
Lemma pushPayload_Outcome fuel d n p rest frames :
  (∀ d pend rest frames, Repr d pend → bytes_ok rest → (length rest ≤ fuel)%nat →
     Outcome (maxFrameLength d) (pend ++ rest) frames (pushLoop fuel d rest frames)) →
  common_ok d → headerLength d = 0%nat → expectedPayloadLength d = Some n →
  0 < n ≤ maxFrameLength d → blocks_ok d n p → Z.of_nat (length p) < n → bytes_ok rest →
  (length rest ≤ fuel ∨ rest ≠ [] ∧ length rest ≤ S fuel)%nat →
  Outcome (maxFrameLength d) (be32 n ++ p ++ rest) frames
    (match pushPayload d rest frames n with
     | None => (d, Err RangeErr)
     | Some (d, rest, frames) => pushLoop fuel d rest frames
     end).
Proof.
  intros IH Hc Hhl Hexp Hn Hok Hlt Hrest Hfuel.
  destruct (pushPayload_spec d n p rest frames) as (d1 & k & Hmax & Hk & Hpos & Hstep); [done..|].
  assert (length (drop k rest) ≤ fuel)%nat as Hfuel'.
  { rewrite length_drop. destruct Hfuel as [|[Hne ?]]; [lia|]. specialize (Hpos Hne). lia. }
  rewrite <- Hmax. destruct Hstep as [(-> & -> & HR)|(-> & Hlen & HR)].
  - rewrite <- (app_nil_r (be32 n ++ p ++ rest)). apply IH; [done|constructor|simpl; lia].
  - replace (p ++ rest) with ((p ++ take k rest) ++ drop k rest)
      by (by rewrite <- app_assoc, take_drop).
    rewrite <- Hlen. apply Outcome_emit; [lia|].
    apply (IH _ []); [done|by apply Forall_drop|done].
Qed.

(** One turn of [push]'s outer loop. *)
Lemma pushLoop_S fuel d rest frames :
  rest ≠ [] →
  pushLoop (S fuel) d rest frames =
  match expectedPayloadLength d with
  | None =>
      match fillHeader d rest with
      | None => (d, Err RangeErr)
      | Some (d, rest) =>
          if (headerLength d <? FRAME_HEADER_LENGTH)%nat then pushLoop fuel d rest frames else
          if maxFrameLength d <? read_be32 (header d)
          then fail (resetHeader d) (FrameTooLong (read_be32 (header d)) (maxFrameLength d)) else
          if read_be32 (header d) =? 0 then pushLoop fuel (resetHeader d) rest (frames ++ [[]]) else
          match pushPayload (beginPayload (resetHeader d) (read_be32 (header d))) rest frames (read_be32 (header d)) with
          | None => (beginPayload (resetHeader d) (read_be32 (header d)), Err RangeErr)
          | Some (d, rest, frames) => pushLoop fuel d rest frames
          end
      end
  | Some expected =>
      match pushPayload d rest frames expected with
      | None => (d, Err RangeErr)
      | Some (d, rest, frames) => pushLoop fuel d rest frames
      end
  end.
Proof. by destruct rest. Qed.

(** The loop of [push] parses [pend ++ rest] by the frame grammar. *)
Lemma pushLoop_spec fuel d pend rest frames :
  Repr d pend → bytes_ok rest → (length rest ≤ fuel)%nat →
  Outcome (maxFrameLength d) (pend ++ rest) frames (pushLoop fuel d rest frames).
Proof.
  revert d pend rest frames.
  induction fuel as [|fuel IH]; intros d pend rest frames HR Hrest Hfuel.
  all: destruct rest as [|b rest0];
    [left; exists d, [], pend; rewrite !app_nil_r;
     split_and!; [done| |done|done]; constructor; by apply Repr_incomplete|].
  { simpl in Hfuel. lia. }
  set (rest := b :: rest0) in *.
  rewrite pushLoop_S by done.
  pose proof HR as (Hc & Hhl & Hm). destruct (expectedPayloadLength d) as [n|] eqn:Hexp.
  - destruct Hm as (Hhl0 & Hn & p & -> & Hok & Hlt). rewrite <- app_assoc.
    apply pushPayload_Outcome; try done. right. split; [done|lia].
  - destruct (fillHeader_spec d rest) as (hdr & k & -> & Hk & Hlen & Hhb & Htake); [done..|]. simpl.
    subst pend. replace (take (headerLength d) (header d) ++ rest)
      with (take (headerLength d + k) hdr ++ drop k rest)
      by (by rewrite Htake, <- app_assoc, take_drop).
    assert (length (drop k rest) ≤ fuel)%nat as Hfuel'
      by (rewrite length_drop; simpl in *; lia).
    pose proof Hc as (_ & _ & Hst & Hmax).
    destruct (Nat.ltb_spec (headerLength d + k) FRAME_HEADER_LENGTH) as [Hshort|Hfull];
      unfold FRAME_HEADER_LENGTH in *.
    { apply (IH (mkDecoder hdr _ (maxFrameLength d) _ _ _ _ _ _)); [|by apply Forall_drop|done].
      unfold Repr, common_ok; simpl. rewrite Hexp. split_and!; try done; lia. }
    rewrite take_ge by lia. rewrite <- (be32_read_be32 hdr) at 1 by done.
    pose proof (read_be32_range hdr Hlen Hhb) as Hrange. set (n := read_be32 hdr) in *.
    destruct (Z.ltb_spec (maxFrameLength d) n) as [Hbig|Hfits].
    { right. eexists _, n. split_and!; [done| |done].
      eapply overlong_here; [done|]. unfold MAX_UINT32. lia. }
    destruct (Z.eqb_spec n 0) as [Hz|Hz].
    { rewrite Hz. apply (Outcome_emit _ []); [simpl; lia|].
      apply (IH (mkDecoder hdr 0 (maxFrameLength d) _ _ _ _ _ _) []); [|by apply Forall_drop|done].
      unfold Repr, common_ok; simpl. rewrite Hexp. split_and!; try done; lia. }
    change (maxFrameLength d) with
      (maxFrameLength (beginPayload (resetHeader (mkDecoder hdr (headerLength d + k)
         (maxFrameLength d) (payloadBlocks d) (currentPayloadBlock d)
         (currentPayloadBlockLength d) (expectedPayloadLength d) (payloadLength d) (state d))) n)) at 1.
    apply (pushPayload_Outcome fuel _ n []); simpl; try done; try lia.
    + split_and!; try done; simpl; [lia|by left].
    + by apply Forall_drop.
Qed.

(** ** The grammar: deterministic, total, closed under concatenation *)

Lemma be32_app_inj n m p q :
  0 ≤ n ≤ MAX_UINT32 → 0 ≤ m ≤ MAX_UINT32 → be32 n ++ p = be32 m ++ q → n = m ∧ p = q.
Proof.
  unfold MAX_UINT32. intros Hn Hm H. apply app_inj_1 in H as [H ->]; [|done]. split; [|done].
  rewrite <- (read_be32_be32 n), <- (read_be32_be32 m) by lia. by f_equal.
Qed.

Section grammar.
Context (max : Z) (Hmax : 0 ≤ max ≤ MAX_UINT32).

Lemma incomplete_no_frame p bs :
  Z.of_nat (length p) ≤ max → ¬ incomplete max (be32 (Z.of_nat (length p)) ++ p ++ bs).
Proof.
  intros Hp. inversion 1 as [? Hs|n q ? Heq Hn Hq].
  - rewrite !length_app, length_be32 in Hs. lia.
  - apply be32_app_inj in Heq as [<- <-]; [|lia..]. rewrite length_app in Hq. lia.
Qed.

Lemma frame_app_inj p bs p' bs' :
  Z.of_nat (length p) ≤ max → Z.of_nat (length p') ≤ max →
  be32 (Z.of_nat (length p)) ++ p ++ bs = be32 (Z.of_nat (length p')) ++ p' ++ bs' →
  p = p' ∧ bs = bs'.
Proof.
  intros Hp Hp' H. apply be32_app_inj in H as [Hl H]; [|lia..].
  apply app_inj_1 in H; [done|lia].
Qed.

Lemma framed_det bs fs r fs' r' :
  framed max bs fs r → framed max bs fs' r' → fs = fs' ∧ r = r'.
Proof.
  intros H. revert fs' r'.
  induction H as [r Hr|p bs fs r ? -> Hp Hf IH]; intros fs' r' H'.
  - inversion H'; subst; [done|]. by destruct (incomplete_no_frame p bs).
  - inversion H' as [? Hi|p' bs' fs1 r1 ? Heq Hp' Hf']; subst.
    + by destruct (incomplete_no_frame p bs).
    + apply frame_app_inj in Heq as [-> ->]; [|done..]. by destruct (IH _ _ Hf') as [-> ->].
Qed.

Lemma framed_overlong bs fs r n : framed max bs fs r → overlong max bs n → False.
Proof.
  intros H. induction H as [r Hr|p bs fs r ? -> Hp Hf IH]; intros Ho.
  - destruct Ho as [n bs ? -> Hn|p bs n ? -> Hp Ho]; [|by destruct (incomplete_no_frame p bs)].
    inversion Hr as [? Hs|m q ? Heq Hm Hq].
    + rewrite length_app, length_be32 in Hs. lia.
    + apply be32_app_inj in Heq as [-> _]; lia.
  - inversion Ho as [m bs' ? Heq Hm|p' bs' m ? Heq Hp' Ho']; subst.
    + apply be32_app_inj in Heq as [<- _]; lia.
    + apply frame_app_inj in Heq as [-> ->]; auto.
Qed.

(** Frames already complete stay complete when more bytes arrive. *)
Lemma framed_app bs fs r bs' fs' r' :
  framed max bs fs r → framed max (r ++ bs') fs' r' → framed max (bs ++ bs') (fs ++ fs') r'.
Proof.
  induction 1 as [|p bs fs r ? -> Hp Hf IH]; intros H'; simpl; [done|].
  eapply framed_frame; [by rewrite <- !app_assoc|done|auto].
Qed.

Lemma overlong_app bs fs r bs' n :
  framed max bs fs r → overlong max (r ++ bs') n → overlong max (bs ++ bs') n.
Proof.
  induction 1 as [|p bs fs r ? -> Hp Hf IH]; intros H'; [done|].
  apply (overlong_after _ p (bs ++ bs')); [by rewrite <- !app_assoc|done|auto].
Qed.

Lemma framed_frames ps :
  Forall (λ p, Z.of_nat (length p) ≤ max) ps →
  framed max (concat ((λ p, be32 (Z.of_nat (length p)) ++ p) <$> ps)) ps [].
Proof.
  induction 1 as [|p ps Hp Hps IH]; simpl.
  - constructor. constructor. simpl; lia.
  - eapply framed_frame; [done..].
Qed.

Lemma overlong_det bs n n' : overlong max bs n → overlong max bs n' → n = n'.
Proof.
  induction 1 as [n bs ? -> Hn|p bs n ? -> Hp Ho IH]; inversion 1 as [m bs' ? Heq Hm|p' bs' m ? Heq Hp' Ho']; subst.
  - apply be32_app_inj in Heq as [-> _]; lia.
  - apply be32_app_inj in Heq as [Hl _]; lia.
  - apply be32_app_inj in Heq as [Hl _]; lia.
  - apply frame_app_inj in Heq as [-> ->]; auto.
Qed.

Lemma overlong_app_r bs bs' n : overlong max bs n → overlong max (bs ++ bs') n.
Proof.
  induction 1 as [n bs ? -> Hn|p bs n ? -> Hp Ho IH].
  - apply (overlong_here _ n (bs ++ bs')); [by rewrite <- app_assoc|done].
  - apply (overlong_after _ p (bs ++ bs')); [by rewrite <- !app_assoc|done..].
Qed.
End grammar.

(** ** The decoder *)

Lemma new_FrameDecoder_Repr options d :
  new_FrameDecoder options = Ok d → Repr d [] ∧ maxFrameLength d = default DEFAULT_MAX_FRAME_LENGTH options.
Proof.
  unfold new_FrameDecoder, resolveMaxFrameLength. intros H. invert_ok. simplify_eq. zb.
  unfold Repr, common_ok; simpl. split_and!; try done; lia || auto with bytes.
Qed.

Lemma push_Outcome d pend chunk :
  Repr d pend → bytes_ok chunk → Outcome (maxFrameLength d) (pend ++ chunk) [] (push d chunk).
Proof.
  intros HR Hc. unfold push. pose proof HR as ((_ & _ & -> & _) & _). by apply pushLoop_spec.
Qed.

Lemma Repr_max d pend : Repr d pend → 0 ≤ maxFrameLength d ≤ MAX_UINT32.
Proof. by intros ((_ & _ & _ & ?) & _). Qed.

(** The pending bytes are determined by the decoder. *)
Lemma Repr_fun d r r' : Repr d r → Repr d r' → r = r'.
Proof.
  intros (_ & _ & H) (_ & _ & H'). destruct (expectedPayloadLength d) as [n|]; [|congruence].
  destruct H as (_ & _ & p & -> & (_ & _ & _ & Hp) & _).
  destruct H' as (_ & _ & p' & -> & (_ & _ & _ & Hp') & _). f_equal.
  destruct Hp as [(Hc & _ & ->)|(i & b & Hb & Hc & _ & -> & _)];
    destruct Hp' as [(Hc' & _ & ->)|(i' & b' & Hb' & Hc' & _ & -> & _)]; try congruence.
  rewrite Hb in Hb'. by apply app_inj_2 in Hb' as [-> [= ->]].
Qed.

(** Any sequence of pushes is one parse of the concatenated stream. *)
Lemma pushAll_Outcome d pend chunks :
  Repr d pend → Forall bytes_ok chunks →
  (∃ d' fs r, pushAll d chunks = (d', Ok fs) ∧ framed (maxFrameLength d) (pend ++ concat chunks) fs r ∧
     Repr d' r ∧ maxFrameLength d' = maxFrameLength d) ∨
  (∃ d' n, pushAll d chunks = (d', Err (FrameTooLong n (maxFrameLength d))) ∧
     overlong (maxFrameLength d) (pend ++ concat chunks) n ∧ state d' = failed).
Proof.
  revert d pend. induction chunks as [|c chunks IH]; intros d pend HR Hcs; simpl.
  - left. exists d, [], pend. rewrite app_nil_r. split_and!; try done. constructor.
    by apply Repr_incomplete.
  - apply Forall_cons in Hcs as [Hc Hcs]. pose proof (Repr_max _ _ HR) as Hmax.
    destruct (push_Outcome d pend c HR Hc) as [(d1 & fs & r & -> & Hf & HR1 & Hm)|(d1 & n & -> & Ho & Hs)]; simpl.
    2:{ right. exists d1, n. split_and!; try done. rewrite app_assoc.
        by apply overlong_app_r. }
    rewrite app_assoc, <- Hm.
    destruct (IH d1 r HR1 Hcs) as [(d2 & gs & r2 & -> & Hg & HR2 & Hm2)|(d2 & n & -> & Ho & Hs)].
    + left. exists d2, (fs ++ gs), r2. split_and!; try done. rewrite Hm in *.
      by eapply framed_app.
    + right. exists d2, n. split_and!; try done. rewrite Hm in *. by eapply overlong_app.
Qed.

Lemma end_cases d pend :
  Repr d pend →
  (pend = [] → (end_ d).2 = Ok tt ∧ state (end_ d).1 = ended) ∧
  (pend ≠ [] → (end_ d).2 = Err TruncatedFrame ∧ state (end_ d).1 = failed).
Proof.
  intros ((Hh & _ & Hst & _) & Hhl & Hm). unfold end_. rewrite Hst.
  destruct (expectedPayloadLength d) as [n|].
  - destruct Hm as (-> & _ & p & -> & _). split; [intros Hp|done].
    by apply app_eq_nil in Hp as [? _].
  - destruct (headerLength d) as [|k] eqn:E; [naive_solver|]. subst pend. split; [|done].
    intros Hp%(f_equal length). rewrite length_take, Hh in Hp. cbn [length] in Hp. lia.
Qed.

(** ** [encodeFrame] and [assertCompleteFrame] *)

Lemma encodeFrame_spec p frame :
  encodeFrame p = Ok frame ↔
  Z.of_nat (length p) ≤ MAX_UINT32 ∧ frame = be32 (Z.of_nat (length p)) ++ p.
Proof.
  unfold encodeFrame. destruct (Z.ltb_spec MAX_UINT32 (Z.of_nat (length p))); [naive_solver lia|].
  change (drop 4 (new_bytes (FRAME_HEADER_LENGTH + length p))) with (new_bytes (length p)).
  rewrite buf_set_Some by (rewrite length_app, length_be32, length_new_bytes; done).
  change FRAME_HEADER_LENGTH with (length (be32 (Z.of_nat (length p)))).
  rewrite take_app_length, (drop_ge _ (_ + _)), app_nil_r
    by (rewrite length_app, length_new_bytes; lia).
  naive_solver.
Qed.

Lemma resolve_Ok m max :
  resolveMaxFrameLength m = Ok max ↔
  max = default DEFAULT_MAX_FRAME_LENGTH m ∧ 0 ≤ max ≤ MAX_UINT32.
Proof.
  unfold resolveMaxFrameLength, MAX_SAFE_INTEGER, MAX_UINT32.
  destruct (_ || _) eqn:E; split; intros H; simplify_eq.
  - destruct H as [-> H]. rewrite !orb_true_iff, !Z.ltb_lt in E. lia.
  - zb. naive_solver lia.
  - naive_solver.
Qed.

(** The frames of a list of payloads. *)
Fixpoint encodeFrames (ps : list (list Z)) : result frame_error (list (list Z)) :=
  match ps with
  | [] => Ok []
  | p :: ps => let* f := encodeFrame p in let* fs := encodeFrames ps in Ok (f :: fs)
  end.

Lemma encodeFrames_spec ps fs :
  encodeFrames ps = Ok fs → fs = (λ p, be32 (Z.of_nat (length p)) ++ p) <$> ps.
Proof.
  revert fs. induction ps as [|p ps IH]; intros fs H; simpl in H; invert_ok; subst; [done|].
  match goal with He : encodeFrame _ = _ |- _ => apply encodeFrame_spec in He as [_ ->] end.
  by rewrite (IH a0).
Qed.

(** A stream of frames, however it is cut, decodes to the payloads: shared with the message codec. *)
Lemma pushAll_frames options d ps fs chunks :
  new_FrameDecoder options = Ok d →
  encodeFrames ps = Ok fs →
  Forall (λ p, Z.of_nat (length p) ≤ maxFrameLength d) ps →
  Forall bytes_ok chunks →
  concat chunks = concat fs →
  ∃ d', pushAll d chunks = (d', Ok ps) ∧ (end_ d').2 = Ok tt.
Proof.
  intros Hnew Hfs Hps Hch Hcat. destruct (new_FrameDecoder_Repr _ _ Hnew) as [HR _].
  pose proof (Repr_max _ _ HR) as Hmax. apply encodeFrames_spec in Hfs as ->.
  pose proof (framed_frames (maxFrameLength d) ps Hps) as Hf. rewrite <- Hcat in Hf.
  destruct (pushAll_Outcome d [] chunks HR Hch) as [(d' & gs & r & -> & Hg & HR' & _)|(d' & n & _ & Ho & _)].
  - destruct (framed_det _ Hmax _ _ _ _ _ Hf Hg) as [<- <-]. exists d'. split; [done|].
    by apply (end_cases _ _ HR').
  - by destruct (framed_overlong _ Hmax _ _ _ _ Hf Ho).
Qed.

(** framing round trip under any chunking.  Frame any payloads within the
    decoder's limit, concatenate the frames, cut the stream into chunks in any
    way: a fresh decoder returns exactly the payloads, in order, and [end]
    accepts the stream. *)
Theorem frames_roundtrip options d ps fs chunks :
  new_FrameDecoder options = Ok d →
  encodeFrames ps = Ok fs →
  Forall (λ p, Z.of_nat (length p) ≤ maxFrameLength d) ps →
  Forall bytes_ok chunks →
  concat chunks = concat fs →
  ∃ d', pushAll d chunks = (d', Ok ps) ∧ (end_ d').2 = Ok tt.
Proof. apply pushAll_frames. Qed.

Lemma frames_roundtrip_witness :
  ∃ d', pushAll (mkDecoder [0; 0; 0; 0] 0 DEFAULT_MAX_FRAME_LENGTH [] None 0 None 0 open)
          [[0; 0]; [0; 2; 7]; [8; 0; 0; 0; 0]] = (d', Ok [[7; 8]; []]) ∧ (end_ d').2 = Ok tt.
Proof.
  apply (frames_roundtrip None _ _ [[0; 0; 0; 2; 7; 8]; [0; 0; 0; 0]]); try reflexivity; decide_now.
Defined.

(** C1: refinement of the frame grammar.  A decoder holding the pending bytes
    [pend] parses [pend ++ chunk]: it returns the complete frames and holds the
    incomplete tail, or it fails on the first over-long header.  In particular
    no copy is out of bounds and the loops end. *)
Theorem push_refines d pend chunk :
  Repr d pend → bytes_ok chunk →
  (∃ d' fs r, push d chunk = (d', Ok fs) ∧
     framed (maxFrameLength d) (pend ++ chunk) fs r ∧ Repr d' r) ∨
  (∃ d' n, push d chunk = (d', Err (FrameTooLong n (maxFrameLength d))) ∧
     overlong (maxFrameLength d) (pend ++ chunk) n ∧ state d' = failed).
Proof.
  intros HR Hc. destruct (push_Outcome d pend chunk HR Hc) as [(d' & fs & r & H)|(d' & n & H)].
  - left. exists d', fs, r. naive_solver.
  - right. exists d', n. naive_solver.
Qed.

Lemma Repr_example : Repr (mkDecoder [0; 0; 0; 0] 3 10 [] None 0 None 0 open) [0; 0; 0].
Proof. unfold Repr, common_ok, MAX_UINT32; simpl. split_and!; try done; try lia; decide_now. Qed.

Lemma push_refines_witness :
  Repr (mkDecoder [0; 0; 0; 0] 3 10 [] None 0 None 0 open) [0; 0; 0] ∧
  ((∃ d' fs r, push (mkDecoder [0; 0; 0; 0] 3 10 [] None 0 None 0 open) [1; 5; 0] = (d', Ok fs) ∧
     framed 10 ([0; 0; 0] ++ [1; 5; 0]) fs r ∧ Repr d' r) ∨
   (∃ d' n, push (mkDecoder [0; 0; 0; 0] 3 10 [] None 0 None 0 open) [1; 5; 0] =
        (d', Err (FrameTooLong n 10)) ∧
     overlong 10 ([0; 0; 0] ++ [1; 5; 0]) n ∧ state d' = failed)).
Proof.
  split; [exact Repr_example|].
  apply (push_refines (mkDecoder [0; 0; 0; 0] 3 10 [] None 0 None 0 open)); [exact Repr_example|].
  decide_now.
Defined.

(** chunking is invisible.  Two decoders holding the same pending bytes and
    fed the same stream in different chunks return the same frames and hold the
    same pending bytes, or both fail with the same error. *)
Theorem push_chunking d1 d2 pend cs1 cs2 :
  Repr d1 pend → Repr d2 pend → maxFrameLength d1 = maxFrameLength d2 →
  Forall bytes_ok cs1 → Forall bytes_ok cs2 → concat cs1 = concat cs2 →
  (pushAll d1 cs1).2 = (pushAll d2 cs2).2 ∧
  (∀ r, Repr (pushAll d1 cs1).1 r ↔ Repr (pushAll d2 cs2).1 r).
Proof.
  intros H1 H2 Hm Hc1 Hc2 Hcat. pose proof (Repr_max _ _ H1) as Hmax.
  pose proof (pushAll_Outcome d1 pend cs1 H1 Hc1) as O1.
  pose proof (pushAll_Outcome d2 pend cs2 H2 Hc2) as O2.
  rewrite <- Hm, <- Hcat in O2.
  destruct O1 as [(e1 & fs1 & r1 & -> & F1 & R1 & _)|(e1 & n1 & -> & V1 & S1)];
    destruct O2 as [(e2 & fs2 & r2 & -> & F2 & R2 & _)|(e2 & n2 & -> & V2 & S2)]; simpl.
  - destruct (framed_det _ Hmax _ _ _ _ _ F1 F2) as [-> ->]. split; [done|].
    intros r. split; intros HR.
    + by rewrite (Repr_fun _ _ _ HR R1).
    + by rewrite (Repr_fun _ _ _ HR R2).
  - by destruct (framed_overlong _ Hmax _ _ _ _ F1 V2).
  - by destruct (framed_overlong _ Hmax _ _ _ _ F2 V1).
  - rewrite (overlong_det _ Hmax _ _ _ V1 V2). split; [done|].
    intros r. split; intros ((_ & _ & Hs & _) & _); congruence.
Qed.

Lemma push_chunking_witness :
  (pushAll (mkDecoder [0; 0; 0; 0] 3 10 [] None 0 None 0 open) [[1; 5]; []; [0; 0]]).2 =
  (pushAll (mkDecoder [0; 0; 0; 0] 3 10 [] None 0 None 0 open) [[1]; [5; 0]; [0]]).2 ∧
  (∀ r, Repr (pushAll (mkDecoder [0; 0; 0; 0] 3 10 [] None 0 None 0 open) [[1; 5]; []; [0; 0]]).1 r ↔
        Repr (pushAll (mkDecoder [0; 0; 0; 0] 3 10 [] None 0 None 0 open) [[1]; [5; 0]; [0]]).1 r).
Proof.
  apply (push_chunking _ _ [0; 0; 0]); try exact Repr_example; try reflexivity;
    decide_now.
Defined.

(** [end] accepts a stream exactly when it stops at a frame boundary, and
    otherwise fails the decoder as truncated. *)
Theorem end_truncation d pend :
  Repr d pend →
  (pend = [] → (end_ d).2 = Ok tt ∧ state (end_ d).1 = ended) ∧
  (pend ≠ [] → (end_ d).2 = Err TruncatedFrame ∧ state (end_ d).1 = failed).
Proof.
  intros HR. by apply end_cases.
Qed.

Lemma end_truncation_witness :
  (end_ (mkDecoder [0; 0; 0; 0] 3 10 [] None 0 None 0 open)).2 = Err TruncatedFrame.
Proof. exact (proj1 (proj2 (end_truncation _ _ Repr_example) ltac:(discriminate))). Defined.

(** [assertCompleteFrame] accepts exactly the frames [encodeFrame] builds
    from payloads within the limit. *)
Theorem assertCompleteFrame_spec frame m :
  bytes_ok frame → 0 ≤ default DEFAULT_MAX_FRAME_LENGTH m ≤ MAX_UINT32 →
  (assertCompleteFrame frame m = Ok tt ↔
   ∃ p, encodeFrame p = Ok frame ∧ Z.of_nat (length p) ≤ default DEFAULT_MAX_FRAME_LENGTH m).
Proof.
  intros Hb Hm. unfold assertCompleteFrame.
  rewrite (proj2 (resolve_Ok m _) (conj eq_refl Hm)). simpl.
  destruct (Nat.ltb_spec (length frame) FRAME_HEADER_LENGTH) as [Hs|Hs].
  { split; [done|]. intros (p & [_ ->]%encodeFrame_spec & _).
    rewrite length_app, length_be32 in Hs. unfold FRAME_HEADER_LENGTH in Hs. lia. }
  unfold FRAME_HEADER_LENGTH in *.
  assert (length (take 4 frame) = 4%nat) as Hl by (rewrite length_take; lia).
  assert (bytes_ok (take 4 frame)) as Hbt by by apply Forall_take.
  pose proof (read_be32_range _ Hl Hbt) as Hr. pose proof (be32_read_be32 _ Hl Hbt) as Hrt.
  set (n := read_be32 (take 4 frame)) in *.
  assert (frame = be32 n ++ drop 4 frame) as Hframe by by rewrite Hrt, take_drop.
  assert (length frame = 4 + length (drop 4 frame))%nat as Hlf
    by (rewrite Hframe at 1; by rewrite length_app).
  destruct (Z.ltb_spec (default DEFAULT_MAX_FRAME_LENGTH m) n).
  { split; [done|]. intros (p & [Hp Heq]%encodeFrame_spec & Hle). rewrite Hframe in Heq.
    unfold MAX_UINT32 in *. apply be32_app_inj in Heq as [Hn _]; unfold MAX_UINT32; lia. }
  destruct (Z.eqb_spec (Z.of_nat (length frame)) (Z.of_nat 4 + n)) as [E|E]; simpl.
  - split; [|done]. intros _. exists (drop 4 frame). rewrite encodeFrame_spec.
    replace (Z.of_nat (length (drop 4 frame))) with n by lia. unfold MAX_UINT32 in *.
    split_and!; [lia|done|lia].
  - split; [done|]. intros (p & [Hp Heq]%encodeFrame_spec & Hle). rewrite Hframe in Heq.
    unfold MAX_UINT32 in *. apply be32_app_inj in Heq as [Hn Heq]; unfold MAX_UINT32; [|lia..].
    subst p. lia.
Qed.

Lemma assertCompleteFrame_witness :
  assertCompleteFrame [0; 0; 0; 1; 255] (Some 4) = Ok tt ∧
  ∃ p, encodeFrame p = Ok [0; 0; 0; 1; 255] ∧ Z.of_nat (length p) ≤ 4.
Proof.
  split; [reflexivity|]. apply (assertCompleteFrame_spec [0; 0; 0; 1; 255] (Some 4));
    [decide_now|decide_now|reflexivity].
Defined.
