(* ===== verification/JsValue.v ===== *)
(** JavaScript values as the sources inspect them.

    - [jsnum]: an IEEE-754 binary64 in the view the code takes of it.  Every
      integer-valued double other than -0 is [NInt z]; a finite non-integer
      keeps its 64 bits.  [num_of_bits] and [bits_of_num] are [getFloat64] and
      [setFloat64] in big-endian order.
    - strings are lists of UTF-16 code units; [utf8_encode] is [TextEncoder]
      (a lone surrogate becomes U+FFFD) and [utf8_decode] the fatal,
      BOM-preserving [TextDecoder].
    - objects live in a heap, so that sharing and cycles exist as in the
      runtime; own property names are in the order [Object.keys] reports.
    - [tree] is a value without identity, and [denotes h v t] says that the
      value [v] in heap [h] is the data [t]. *)
From S2P Require Import Prelude Bytes.
Open Scope Z_scope.

(** ** Numbers *)

Inductive jsnum :=
| NInt (z : Z)
| NNegZero
| NFrac (bits : Z)
| NInf (negative : bool)
| NNaN.

#[export] Instance jsnum_eq_dec : EqDecision jsnum.
Proof. solve_decision. Defined.

Definition MAX_SAFE : Z := 2 ^ 53 - 1.

Definition isFinite (n : jsnum) : bool :=
  match n with NInf _ | NNaN => false | _ => true end.

Definition isInteger (n : jsnum) : bool :=
  match n with NInt _ | NNegZero => true | _ => false end.

Definition isSafeInteger (n : jsnum) : bool :=
  match n with NInt z => Z.abs z <=? MAX_SAFE | NNegZero => true | _ => false end.

(** Reading a binary64 from its bits. *)
Definition num_of_bits (bits : Z) : jsnum :=
  let negative := Z.testbit bits 63 in
  let e := Z.land (Z.shiftr bits 52) 0x7ff in
  let m := Z.land bits (Z.ones 52) in
  if e =? 0x7ff then if m =? 0 then NInf negative else NNaN else
  let mant := if e =? 0 then m else m + 2 ^ 52 in
  let exp := if e =? 0 then -1074 else e - 1075 in
  let sign z := if negative then - z else z in
  if mant =? 0 then if negative then NNegZero else NInt 0 else
  if 0 <=? exp then NInt (sign (mant * 2 ^ exp)) else
  if mant mod 2 ^ (- exp) =? 0 then NInt (sign (mant / 2 ^ (- exp))) else NFrac bits.

(** The bits of a number; for an integer they are those of the nearest double
    towards zero, which is the number itself when it is a double. *)
Definition bits_of_num (n : jsnum) : Z :=
  match n with
  | NInt z =>
      if z =? 0 then 0 else
      let k := Z.log2 (Z.abs z) in
      let mant := if k <=? 52 then Z.abs z * 2 ^ (52 - k) else Z.abs z / 2 ^ (k - 52) in
      (if z <? 0 then 2 ^ 63 else 0) + (k + 1023) * 2 ^ 52 + (mant - 2 ^ 52)
  | NNegZero => 2 ^ 63
  | NFrac bits => bits
  | NInf negative => (if negative then 2 ^ 63 else 0) + 0x7ff * 2 ^ 52
  | NNaN => 0x7ff8 * 2 ^ 48
  end.

(** Eight bytes, most significant first. *)
Definition be64 (v : Z) : list Z := be32 (v / 2 ^ 32) ++ be32 (v mod 2 ^ 32).
Definition read_be64 (bs : list Z) : Z :=
  read_be32 (take 4 bs) * 2 ^ 32 + read_be32 (drop 4 bs).

(** A number the runtime can hold: fraction bits really are a fraction's. *)
Definition num_ok (n : jsnum) : Prop :=
  match n with
  | NFrac bits => 0 ≤ bits < 2 ^ 64 ∧ num_of_bits bits = NFrac bits
  | _ => True
  end.

#[export] Instance num_ok_dec n : Decision (num_ok n).
Proof. destruct n; simpl; apply _. Defined.

(** ** Strings *)

Notation jsstr := (list Z).

Definition is_high_surrogate (u : Z) : bool := (0xd800 <=? u) && (u <=? 0xdbff).
Definition is_low_surrogate (u : Z) : bool := (0xdc00 <=? u) && (u <=? 0xdfff).

(** The scalar values of a string, lone surrogates replaced. *)
Fixpoint scalars (s : jsstr) : list Z :=
  match s with
  | [] => []
  | u :: s' =>
      if is_high_surrogate u then
        match s' with
        | w :: s'' =>
            if is_low_surrogate w
            then 0x10000 + (u - 0xd800) * 0x400 + (w - 0xdc00) :: scalars s''
            else 0xfffd :: scalars s'
        | [] => [0xfffd]
        end
      else if is_low_surrogate u then 0xfffd :: scalars s'
      else u :: scalars s'
  end.

Definition utf8_scalar (c : Z) : list Z :=
  if c <? 0x80 then [c]
  else if c <? 0x800 then [0xc0 + c / 0x40; 0x80 + c mod 0x40]
  else if c <? 0x10000 then [0xe0 + c / 0x1000; 0x80 + (c / 0x40) mod 0x40; 0x80 + c mod 0x40]
  else [0xf0 + c / 0x40000; 0x80 + (c / 0x1000) mod 0x40; 0x80 + (c / 0x40) mod 0x40; 0x80 + c mod 0x40].

Definition utf8_encode (s : jsstr) : list Z := scalars s ≫= utf8_scalar.

Definition utf16_scalar (c : Z) : jsstr :=
  if c <? 0x10000 then [c]
  else [0xd800 + (c - 0x10000) / 0x400; 0xdc00 + (c - 0x10000) mod 0x400].

Definition is_cont (lo hi b : Z) : bool := (lo <=? b) && (b <=? hi).

(** The decoder of the Encoding standard with [fatal: true]: overlong forms,
    surrogates and values above U+10FFFF are errors. *)
Fixpoint utf8_decode (bs : list Z) : option jsstr :=
  match bs with
  | [] => Some []
  | b :: bs1 =>
      if b <? 0x80 then cons b <$> utf8_decode bs1
      else if (0xc2 <=? b) && (b <=? 0xdf) then
        match bs1 with
        | c1 :: bs2 =>
            if is_cont 0x80 0xbf c1
            then app (utf16_scalar ((b - 0xc0) * 0x40 + (c1 - 0x80))) <$> utf8_decode bs2
            else None
        | _ => None
        end
      else if (0xe0 <=? b) && (b <=? 0xef) then
        match bs1 with
        | c1 :: c2 :: bs3 =>
            let lo := if b =? 0xe0 then 0xa0 else 0x80 in
            let hi := if b =? 0xed then 0x9f else 0xbf in
            if is_cont lo hi c1 && is_cont 0x80 0xbf c2
            then app (utf16_scalar ((b - 0xe0) * 0x1000 + (c1 - 0x80) * 0x40 + (c2 - 0x80)))
                   <$> utf8_decode bs3
            else None
        | _ => None
        end
      else if (0xf0 <=? b) && (b <=? 0xf4) then
        match bs1 with
        | c1 :: c2 :: c3 :: bs4 =>
            let lo := if b =? 0xf0 then 0x90 else 0x80 in
            let hi := if b =? 0xf4 then 0x8f else 0xbf in
            if is_cont lo hi c1 && is_cont 0x80 0xbf c2 && is_cont 0x80 0xbf c3
            then app (utf16_scalar ((b - 0xf0) * 0x40000 + (c1 - 0x80) * 0x1000
                                    + (c2 - 0x80) * 0x40 + (c3 - 0x80)))
                   <$> utf8_decode bs4
            else None
        | _ => None
        end
      else None
  end.

(** A string literal of the sources (ASCII). *)
Definition js_lit (s : string) : jsstr :=
  (λ a, Z.of_N (Ascii.N_of_ascii a)) <$> String.list_ascii_of_string s.

(** ** Property names *)

(** The array index a property name spells, if it is one: the canonical decimal
    form of an integer below 2^32 - 1. *)
Definition is_digit (u : Z) : bool := (0x30 <=? u) && (u <=? 0x39).

Definition array_index (k : jsstr) : option Z :=
  match k with
  | [] => None
  | [0x30] => Some 0
  | u :: _ =>
      if (u =? 0x30) || negb (forallb is_digit k) then None else
      let n := foldl (λ acc d, acc * 10 + (d - 0x30)) 0 k in
      if n <? 2 ^ 32 - 1 then Some n else None
  end.

(** Whether [Object.keys] reports [k] before the already present key [k']: index
    keys come first, in ascending order; other keys stay in creation order. *)
Definition key_before (k k' : jsstr) : bool :=
  match array_index k, array_index k' with
  | Some i, Some j => i <? j
  | Some _, None => true
  | None, _ => false
  end.

(** Creating own property [k] of an object with the given ordered properties. *)
Fixpoint define_prop {A} (k : jsstr) (v : A) (props : list (jsstr * A)) : list (jsstr * A) :=
  match props with
  | [] => [(k, v)]
  | (k', v') :: props' =>
      if key_before k k' then (k, v) :: props else (k', v') :: define_prop k v props'
  end.

(** ** The heap *)

Notation loc := positive.

Inductive jsval :=
| JUndefined
| JNull
| JBool (b : bool)
| JNumber (n : jsnum)
| JString (s : jsstr)
| JRef (l : loc)
| JOther (type : string).     (* bigint, symbol, function *)

#[export] Instance jsval_eq_dec : EqDecision jsval.
Proof. solve_decision. Defined.

Inductive prototype := ObjectPrototype | NullPrototype | OtherPrototype.

#[export] Instance prototype_eq_dec : EqDecision prototype.
Proof. solve_decision. Defined.

(** An own string-keyed property; [p_value] is what reading it yields. *)
Record property := mkProp {
  p_key : jsstr;
  p_enumerable : bool;
  p_accessor : bool;
  p_value : jsval;
}.

(** An array slot: a hole, or an own property with its value. *)
Inductive slot :=
| Hole
| Slot (accessor : bool) (v : jsval).

Inductive jsobj :=
| OBytes (bytes : list Z)
| OArray (standard_prototype : bool) (symbols : nat) (extra_names : nat) (slots : list slot)
| OObject (proto : prototype) (symbols : list bool) (props : list property).

Notation heap := (gmap loc jsobj).

(** [Object.keys] with the values reading them yields. *)
Definition own_entries (props : list property) : list (jsstr * jsval) :=
  (λ p, (p_key p, p_value p)) <$> filter (λ p, p_enumerable p = true) props.

(** The runtime's own-key order: index keys ascending, then the others; no key twice. *)
Fixpoint keys_ok (ks : list jsstr) : bool :=
  match ks with
  | [] => true
  | k :: ks => forallb (λ k', negb (key_before k' k) && negb (bool_decide (k = k'))) ks && keys_ok ks
  end.

Definition obj_ok (o : jsobj) : Prop :=
  match o with
  | OBytes bs => bytes_ok bs
  | OArray _ _ _ _ => True
  | OObject _ _ props => keys_ok (p_key <$> props) = true
  end.

Definition val_ok (v : jsval) : Prop :=
  match v with JNumber n => num_ok n | _ => True end.

Definition slot_ok (s : slot) : Prop := match s with Slot _ v => val_ok v | Hole => True end.

Definition obj_vals_ok (o : jsobj) : Prop :=
  match o with
  | OBytes _ => True
  | OArray _ _ _ slots => Forall slot_ok slots
  | OObject _ _ props => Forall (λ p, val_ok (p_value p)) props
  end.

(** A heap the runtime can be in. *)
Definition heap_ok (h : heap) : Prop :=
  ∀ l o, h !! l = Some o → obj_ok o ∧ obj_vals_ok o.

#[export] Instance val_ok_dec v : Decision (val_ok v).
Proof. destruct v; simpl; apply _. Defined.

#[export] Instance slot_ok_dec s : Decision (slot_ok s).
Proof. destruct s; simpl; apply _. Defined.

#[export] Instance obj_ok_dec o : Decision (obj_ok o ∧ obj_vals_ok o).
Proof. destruct o; simpl; apply _. Defined.

#[export] Instance heap_ok_dec h : Decision (heap_ok h).
Proof. change (Decision (map_Forall (λ _ o, obj_ok o ∧ obj_vals_ok o) h)). apply _. Defined.

(** ** Data without identity *)

Inductive tree :=
| TNull
| TBool (b : bool)
| TNum (n : jsnum)
| TText (s : jsstr)
| TBytes (bs : list Z)
| TArray (ts : list tree)
| TMap (es : list (jsstr * tree)).

Section tree_ind.
Context (P : tree → Prop).
Context (Pnull : P TNull) (Pbool : ∀ b, P (TBool b)) (Pnum : ∀ n, P (TNum n))
  (Ptext : ∀ s, P (TText s)) (Pbytes : ∀ bs, P (TBytes bs))
  (Parray : ∀ ts, Forall P ts → P (TArray ts))
  (Pmap : ∀ es, Forall (λ e, P e.2) es → P (TMap es)).

Fixpoint tree_ind' (t : tree) : P t :=
  match t with
  | TNull => Pnull
  | TBool b => Pbool b
  | TNum n => Pnum n
  | TText s => Ptext s
  | TBytes bs => Pbytes bs
  | TArray ts =>
      Parray ts ((fix go ts : Forall P ts :=
        match ts with
        | [] => Forall_nil_2 _
        | t :: ts => Forall_cons_2 _ _ _ (tree_ind' t) (go ts)
        end) ts)
  | TMap es =>
      Pmap es ((fix go es : Forall (λ e, P e.2) es :=
        match es with
        | [] => Forall_nil_2 _
        | e :: es => Forall_cons_2 _ _ _ (tree_ind' e.2) (go es)
        end) es)
  end.
End tree_ind.

(** [v] in [h] is plain data: arrays without holes or undefined elements, and
    plain objects without enumerable symbols, whose entries with value
    undefined are left out. *)
Inductive denotes (h : heap) : jsval → tree → Prop :=
| den_null : denotes h JNull TNull
| den_bool b : denotes h (JBool b) (TBool b)
| den_num n : denotes h (JNumber n) (TNum n)
| den_text s : denotes h (JString s) (TText s)
| den_bytes l bs : h !! l = Some (OBytes bs) → denotes h (JRef l) (TBytes bs)
| den_array l std syms names slots ts :
    h !! l = Some (OArray std syms names slots) →
    Forall2 (λ s t, ∃ a v, s = Slot a v ∧ v ≠ JUndefined ∧ denotes h v t) slots ts →
    denotes h (JRef l) (TArray ts)
| den_map l proto syms props es :
    h !! l = Some (OObject proto syms props) →
    proto ≠ OtherPrototype → true ∉ syms →
    Forall2 (λ kv e, kv.1 = e.1 ∧ denotes h kv.2 e.2)
      (filter (λ kv, kv.2 ≠ JUndefined) (own_entries props)) es →
    denotes h (JRef l) (TMap es).

(** ** Lemmas *)

Lemma length_be64 v : length (be64 v) = 8%nat.
Proof. done. Qed.

Lemma be64_bytes v : bytes_ok (be64 v).
Proof. apply Forall_app_2; apply be32_bytes. Qed.

Lemma read_be64_be64 v : 0 ≤ v < 2 ^ 64 → read_be64 (be64 v) = v.
Proof.
  intros Hv. unfold read_be64, be64.
  change 4%nat with (length (be32 (v / 2 ^ 32))). rewrite take_app_length, drop_app_length.
  rewrite !read_be32_be32 by (Z.div_mod_to_equations; lia).
  Z.div_mod_to_equations. lia.
Qed.

(** A float read back from the bytes the writer stores. *)
Lemma float_roundtrip n :
  num_ok n → isFinite n = true → (∀ z, n ≠ NInt z) →
  num_of_bits (read_be64 (be64 (bits_of_num n))) = n.
Proof.
  intros Hok Hfin Hint. destruct n as [z| |bits| |]; try done.
  - by destruct (Hint z).
  - destruct Hok as [Hr Hb]. change (bits_of_num (NFrac bits)) with bits. by rewrite read_be64_be64.
Qed.

Lemma key_before_irrefl k : key_before k k = false.
Proof. unfold key_before. destruct (array_index k); [|done]. apply Z.ltb_irrefl. Qed.

(** Properties created in key order keep that order. *)
Lemma define_prop_last {A} k (v : A) props :
  Forall (λ e, key_before k e.1 = false) props → define_prop k v props = props ++ [(k, v)].
Proof.
  induction props as [|[k' v'] props IH]; intros H; simpl; [done|].
  apply Forall_cons in H as [Hk H]. simpl in Hk. rewrite Hk. by rewrite IH.
Qed.

Lemma keys_ok_app ks ks' :
  keys_ok (ks ++ ks') = true ↔
  keys_ok ks = true ∧ keys_ok ks' = true ∧
  ∀ k k', k ∈ ks → k' ∈ ks' → key_before k' k = false ∧ k ≠ k'.
Proof.
  induction ks as [|k ks IH]; simpl.
  - set_solver.
  - rewrite forallb_app, !andb_true_iff, IH, !forallb_forall.
    setoid_rewrite andb_true_iff. setoid_rewrite negb_true_iff. setoid_rewrite bool_decide_eq_false.
    setoid_rewrite <- list_elem_of_In.
    split.
    + intros [[H1 H2] (H3 & H4 & H5)]. split_and!; try done. intros k1 k2 [->|Hk]%elem_of_cons Hk2; auto.
    + intros ([H1 H2] & H3 & H4). split_and!; try done.
      * intros k2 Hk2. destruct (H4 k k2); [by left|done|]. naive_solver.
      * intros k1 k2 Hk1 Hk2. apply H4; [by right|done].
Qed.

Lemma keys_ok_sublist ks ks' : sublist ks ks' → keys_ok ks' = true → keys_ok ks = true.
Proof.
  induction 1 as [|k ks ks' Hs IH|k ks ks' Hs IH]; simpl; [done|..].
  - rewrite !andb_true_iff, !forallb_forall. intros [H1 H2]. split; [|auto].
    intros k' Hk'. apply H1. apply list_elem_of_In. eapply elem_of_sublist; [|done]. by apply list_elem_of_In.
  - rewrite andb_true_iff. naive_solver.
Qed.

(** [key_before] orders index keys by value before the others. *)
Lemma key_before_trans k1 k2 k3 : key_before k1 k2 = true → key_before k2 k3 = true → key_before k1 k3 = true.
Proof.
  unfold key_before. destruct (array_index k1), (array_index k2), (array_index k3); try done.
  rewrite !Z.ltb_lt. lia.
Qed.

Lemma define_prop_Permutation {A} k (v : A) props : define_prop k v props ≡ₚ (k, v) :: props.
Proof.
  induction props as [|[k' v'] props IH]; simpl; [done|]. case_match; [done|].
  rewrite IH. by rewrite Permutation_swap.
Qed.

Lemma keys_ok_cons k ks :
  keys_ok (k :: ks) = true ↔ (∀ k', k' ∈ ks → key_before k' k = false ∧ k ≠ k') ∧ keys_ok ks = true.
Proof. rewrite (keys_ok_app [k] ks). simpl. set_solver. Qed.

Lemma keys_ok_NoDup ks : keys_ok ks = true → NoDup ks.
Proof.
  induction ks as [|k ks IH]; [constructor|]. intros [Hk Hks]%keys_ok_cons. constructor; [|auto].
  intros Hin. by destruct (Hk k Hin).
Qed.

(** Creating a fresh property keeps the own-key order. *)
Lemma define_prop_keys {A} k (v : A) props :
  keys_ok (props.*1) = true → k ∉ props.*1 → keys_ok ((define_prop k v props).*1) = true.
Proof.
  induction props as [|[k' v'] props IH]; intros Hk Hnin; [done|].
  rewrite fmap_cons in Hk, Hnin. cbn [fst] in Hk, Hnin. apply not_elem_of_cons in Hnin as [Hne Hnin].
  pose proof Hk as [H1 H2]%keys_ok_cons. cbn [define_prop]. destruct (key_before k k') eqn:E.
  - rewrite fmap_cons. apply keys_ok_cons. split; [|done].
    intros k2 [->|Hk2]%elem_of_cons.
    + split; [|done]. destruct (key_before k' k) eqn:E2; [|done].
      pose proof (key_before_trans _ _ _ E E2). by rewrite key_before_irrefl in *.
    + split; [|set_solver]. destruct (key_before k2 k) eqn:E2; [|done].
      pose proof (key_before_trans _ _ _ E2 E). destruct (H1 k2 Hk2). congruence.
  - rewrite fmap_cons. apply keys_ok_cons. split; [|by apply IH].
    intros k2 Hk2. rewrite define_prop_Permutation in Hk2.
    apply elem_of_cons in Hk2 as [->|Hk2]; [done|by apply H1].
Qed.
