(* ===== verification/Utf8.v ===== *)
(** UTF-8: a byte string the fatal decoder accepts is the encoding of the string
    it decodes to, and decoding with replacement agrees with it. *)
From S2P Require Import Prelude Bytes JsValue.
Open Scope Z_scope.

(** A Unicode scalar value. *)
Definition scalar (c : Z) : Prop := 0 ≤ c < 0xd800 ∨ 0xe000 ≤ c ≤ 0x10ffff.

(** Decides the boolean range tests of the codec's definitions. *)
Ltac range_cases :=
  repeat match goal with
  | |- context [?a <? ?b] => destruct (Z.ltb_spec a b); try lia
  | |- context [?a <=? ?b] => destruct (Z.leb_spec a b); try lia
  end.

Lemma scalars_app c s : scalar c → scalars (utf16_scalar c ++ s) = c :: scalars s.
Proof.
  intros Hc. unfold utf16_scalar, scalar in *.
  destruct (Z.ltb_spec c 0x10000); cbn [app scalars].
  - unfold is_high_surrogate, is_low_surrogate. range_cases; done.
  - assert (is_high_surrogate (0xd800 + (c - 0x10000) / 0x400) = true) as ->.
    { unfold is_high_surrogate. apply andb_true_iff.
      rewrite !Z.leb_le. Z.div_mod_to_equations. lia. }
    assert (is_low_surrogate (0xdc00 + (c - 0x10000) mod 0x400) = true) as ->.
    { unfold is_low_surrogate. apply andb_true_iff.
      rewrite !Z.leb_le. Z.div_mod_to_equations. lia. }
    f_equal. Z.div_mod_to_equations. lia.
Qed.

Lemma utf8_encode_app c s : scalar c → utf8_encode (utf16_scalar c ++ s) = utf8_scalar c ++ utf8_encode s.
Proof. intros Hc. unfold utf8_encode. by rewrite scalars_app. Qed.

Lemma utf8_two b c1 :
  0xc2 ≤ b ≤ 0xdf → 0x80 ≤ c1 ≤ 0xbf →
  let c := (b - 0xc0) * 0x40 + (c1 - 0x80) in scalar c ∧ utf8_scalar c = [b; c1].
Proof.
  intros Hb H1 c. unfold scalar, utf8_scalar. split; [lia|].
  range_cases. repeat f_equal; subst c; Z.div_mod_to_equations; lia.
Qed.

Lemma utf8_three b c1 c2 :
  0xe0 ≤ b ≤ 0xef → (if b =? 0xe0 then 0xa0 else 0x80) ≤ c1 ≤ (if b =? 0xed then 0x9f else 0xbf) →
  0x80 ≤ c2 ≤ 0xbf →
  let c := (b - 0xe0) * 0x1000 + (c1 - 0x80) * 0x40 + (c2 - 0x80) in
  scalar c ∧ utf8_scalar c = [b; c1; c2].
Proof.
  intros Hb H1 H2 c. unfold scalar, utf8_scalar.
  destruct (Z.eqb_spec b 0xe0), (Z.eqb_spec b 0xed); try lia.
  all: split; [lia|]; range_cases; repeat f_equal; subst c; Z.div_mod_to_equations; lia.
Qed.

Lemma utf8_four b c1 c2 c3 :
  0xf0 ≤ b ≤ 0xf4 → (if b =? 0xf0 then 0x90 else 0x80) ≤ c1 ≤ (if b =? 0xf4 then 0x8f else 0xbf) →
  0x80 ≤ c2 ≤ 0xbf → 0x80 ≤ c3 ≤ 0xbf →
  let c := (b - 0xf0) * 0x40000 + (c1 - 0x80) * 0x1000 + (c2 - 0x80) * 0x40 + (c3 - 0x80) in
  scalar c ∧ utf8_scalar c = [b; c1; c2; c3].
Proof.
  intros Hb H1 H2 H3 c. unfold scalar, utf8_scalar.
  destruct (Z.eqb_spec b 0xf0), (Z.eqb_spec b 0xf4); try lia.
  all: split; [lia|]; range_cases; repeat f_equal; subst c; Z.div_mod_to_equations; lia.
Qed.

Lemma is_cont_spec lo hi b : is_cont lo hi b = true ↔ lo ≤ b ≤ hi.
Proof. unfold is_cont. rewrite andb_true_iff, !Z.leb_le. done. Qed.

Lemma utf8_decode_canonical bs s : bytes_ok bs → utf8_decode bs = Some s → utf8_encode s = bs.
Proof.
  revert s. induction bs as [bs IH] using (induction_ltof1 _ length). unfold ltof in IH.
  intros s Hok H. destruct bs as [|b bs]; simpl in H; [by simplify_eq|].
  apply Forall_cons in Hok as [Hb Hok]. unfold is_byte in Hb.
  destruct (Z.ltb_spec b 0x80).
  { apply fmap_Some in H as (s' & Hs' & ->).
    change (utf8_encode (b :: s')) with (utf8_encode ([b] ++ s')).
    assert ([b] = utf16_scalar b) as -> by (unfold utf16_scalar; range_cases; done).
    rewrite utf8_encode_app by (unfold scalar; lia). rewrite (IH bs) by (simpl; lia || done).
    unfold utf8_scalar. range_cases. done. }
  destruct ((0xc2 <=? b) && (b <=? 0xdf)) eqn:E2; zb.
  { destruct bs as [|c1 bs]; [done|]. destruct (is_cont _ _ c1) eqn:E; [|done].
    apply is_cont_spec in E. apply fmap_Some in H as (s' & Hs' & ->). apply Forall_cons in Hok as [_ Hok].
    destruct (utf8_two b c1) as [Hc Hu]; [lia..|]. rewrite utf8_encode_app by done.
    rewrite Hu, (IH bs) by (simpl; lia || done). done. }
  destruct ((0xe0 <=? b) && (b <=? 0xef)) eqn:E3; zb.
  { destruct bs as [|c1 [|c2 bs]]; [done..|]. destruct (is_cont _ _ c1 && is_cont _ _ c2) eqn:E; [|done].
    zb. rewrite is_cont_spec in *. apply fmap_Some in H as (s' & Hs' & ->). decompose_Forall_hyps.
    destruct (utf8_three b c1 c2) as [Hc Hu]; [lia|done|done|]. rewrite utf8_encode_app by done.
    rewrite Hu, (IH bs) by (simpl; lia || done). done. }
  destruct ((0xf0 <=? b) && (b <=? 0xf4)) eqn:E4; zb; [|done].
  destruct bs as [|c1 [|c2 [|c3 bs]]]; [done..|].
  destruct (is_cont _ _ c1 && is_cont _ _ c2 && is_cont _ _ c3) eqn:E; [|done].
  zb. rewrite is_cont_spec in *. apply fmap_Some in H as (s' & Hs' & ->). decompose_Forall_hyps.
  destruct (utf8_four b c1 c2 c3) as [Hc Hu]; [lia|done|done|done|]. rewrite utf8_encode_app by done.
  rewrite Hu, (IH bs) by (simpl; lia || done). done.
Qed.

(** Decoding with replacement, as the Encoding standard does it: how many
    continuation bytes are missing, the scalar so far, and the bounds of the next
    byte. *)
Record utf8_state := mkUtf8 { u_needed : nat; u_cp : Z; u_lo : Z; u_hi : Z }.
Definition utf8_start : utf8_state := mkUtf8 0 0 0x80 0xbf.
Definition REPLACEMENT : Z := 0xfffd.

Definition utf8_lead (b : Z) : jsstr * utf8_state :=
  if b <? 0x80 then ([b], utf8_start)
  else if (0xc2 <=? b) && (b <=? 0xdf) then ([], mkUtf8 1 (b - 0xc0) 0x80 0xbf)
  else if (0xe0 <=? b) && (b <=? 0xef) then
    ([], mkUtf8 2 (b - 0xe0) (if b =? 0xe0 then 0xa0 else 0x80) (if b =? 0xed then 0x9f else 0xbf))
  else if (0xf0 <=? b) && (b <=? 0xf4) then
    ([], mkUtf8 3 (b - 0xf0) (if b =? 0xf0 then 0x90 else 0x80) (if b =? 0xf4 then 0x8f else 0xbf))
  else ([REPLACEMENT], utf8_start).

Definition utf8_byte (s : utf8_state) (b : Z) : jsstr * utf8_state :=
  match u_needed s with
  | O => utf8_lead b
  | S n =>
      if is_cont (u_lo s) (u_hi s) b then
        let cp := u_cp s * 0x40 + (b - 0x80) in
        match n with
        | O => (utf16_scalar cp, utf8_start)
        | _ => ([], mkUtf8 n cp 0x80 0xbf)
        end
      else let '(out, s) := utf8_lead b in (REPLACEMENT :: out, s)
  end.

Fixpoint utf8_lossy_from (s : utf8_state) (bs : list Z) : jsstr :=
  match bs with
  | [] => match u_needed s with O => [] | _ => [REPLACEMENT] end
  | b :: bs => let '(out, s) := utf8_byte s b in out ++ utf8_lossy_from s bs
  end.

(** [bytes.toString("utf8")] *)
Definition utf8_lossy (bs : list Z) : jsstr := utf8_lossy_from utf8_start bs.

(** On valid UTF-8 nothing is replaced. *)
Lemma utf8_lossy_valid bs s : utf8_decode bs = Some s → utf8_lossy bs = s.
Proof.
  unfold utf8_lossy. revert s. remember (length bs) as n eqn:Hn. revert bs Hn.
  induction (lt_wf n) as [n _ IH]. intros bs -> s H. destruct bs as [|b bs]; [by injection H as <-|].
  cbn [utf8_decode utf8_lossy_from] in *. unfold utf8_byte. cbn [u_needed utf8_start]. unfold utf8_lead.
  destruct (b <? 0x80).
  { apply fmap_Some in H as (t & H & ->). cbn. f_equal. eapply IH; [|done|done]. cbn. lia. }
  destruct ((0xc2 <=? b) && (b <=? 0xdf)).
  { destruct bs as [|c1 bs]; [done|]. destruct (is_cont 0x80 0xbf c1) eqn:E1; [|done].
    apply fmap_Some in H as (t & H & ->). cbn. rewrite E1. cbn. f_equal. eapply IH; [|done|done]. cbn. lia. }
  destruct ((0xe0 <=? b) && (b <=? 0xef)).
  { destruct bs as [|c1 [|c2 bs]]; [done|done|].
    destruct (is_cont _ _ c1) eqn:E1; [|done]. destruct (is_cont 0x80 0xbf c2) eqn:E2; [|done].
    apply fmap_Some in H as (t & H & ->). cbn. rewrite E1. cbn. rewrite E2. cbn. f_equal; [f_equal; lia|].
    eapply IH; [|done|done]. cbn. lia. }
  destruct ((0xf0 <=? b) && (b <=? 0xf4)); [|done].
  destruct bs as [|c1 [|c2 [|c3 bs]]]; [done|done|done|].
  destruct (is_cont _ _ c1) eqn:E1; [|done]. destruct (is_cont 0x80 0xbf c2) eqn:E2; [|done].
  destruct (is_cont 0x80 0xbf c3) eqn:E3; [|done].
  apply fmap_Some in H as (t & H & ->). cbn. rewrite E1. cbn. rewrite E2. cbn. rewrite E3. cbn. f_equal; [f_equal; lia|].
  eapply IH; [|done|done]. cbn. lia.
Qed.
