(* ===== verification/Cbor.v ===== *)
(** The strict CBOR subset of the wire protocol:
    [cli/packages/protocol/src/cbor/options.ts], [encoder.ts] and [decoder.ts].

    [CborWriter] is the growable buffer of the encoder, a fixed array with a
    write offset that [ensureCapacity] replaces by a larger one.  [encodeValue]
    walks a heap value; its fuel is the depth that is left before the depth
    limit throws.  The reader's state is its offset into the input.  Decoded
    containers are freshly allocated and unshared, so the decoder's result is a
    [tree]. *)
From S2P Require Import Prelude Bytes JsValue.
Open Scope Z_scope.

Definition UINT32_BASE : Z := 0x100000000.
Definition MAX_UINT32 : Z := 0xffffffff.
Definition MAX_CONFIGURED_DEPTH : Z := 512.
Definition DEFAULT_MAX_CBOR_BYTE_LENGTH : Z := 16 * 1024 * 1024.
Definition DEFAULT_MAX_CBOR_CONTAINER_LENGTH : Z := 1000000.
Definition DEFAULT_MAX_CBOR_DEPTH : Z := 64.

Record CborOptions := mkOptions {
  opt_maxByteLength : option Z;
  opt_maxContainerLength : option Z;
  opt_maxDepth : option Z;
}.

Record ResolvedCborOptions := mkResolved {
  maxByteLength : Z;
  maxContainerLength : Z;
  maxDepth : Z;
}.

(** What the codec throws: a [RangeError] for the options or an out-of-bounds
    copy, otherwise a [CborError], one constructor per message. *)
Inductive cbor_error :=
| OptionRange (name : string)
| BufferRange
| ByteLengthLimit
| TextLengthLimit
| InvalidUnicode
| DepthLimit
| NonFiniteNumber
| UnsafeInteger
| BytesLengthLimit
| CyclicValue
| ArrayLengthLimit
| ArrayHole
| MapKeyNotString
| MapLengthLimit
| UnsupportedType (type : string)
| TrailingData
| InvalidUtf8
| DuplicateKey
| TagsUnsupported
| BreakUnsupported
| SimpleUnsupported
| IndefiniteLength
| MalformedInfo
| MalformedMajor
| Truncated
| EncodeFuel
| DecodeFuel.

Definition resolveLimit (name : string) (value maximum : Z) : result cbor_error Z :=
  if (MAX_SAFE <? Z.abs value) || (value <? 0) || (maximum <? value)
  then Err (OptionRange name) else Ok value.

Definition resolveOptions (options : option CborOptions) : result cbor_error ResolvedCborOptions :=
  let* bytes := resolveLimit "maxByteLength"
    (default DEFAULT_MAX_CBOR_BYTE_LENGTH (options ≫= opt_maxByteLength)) MAX_UINT32 in
  let* containers := resolveLimit "maxContainerLength"
    (default DEFAULT_MAX_CBOR_CONTAINER_LENGTH (options ≫= opt_maxContainerLength)) MAX_UINT32 in
  let* depth := resolveLimit "maxDepth"
    (default DEFAULT_MAX_CBOR_DEPTH (options ≫= opt_maxDepth)) MAX_CONFIGURED_DEPTH in
  Ok (mkResolved bytes containers depth).

(** ** The writer *)

Record CborWriter := mkWriter {
  buffer : list Z;
  offset : nat;
  w_maxByteLength : Z;
}.

Definition new_CborWriter (maxByteLength : Z) : CborWriter :=
  mkWriter (new_bytes (Z.to_nat (Z.min 256 maxByteLength))) 0 maxByteLength.

(** [while (capacity < required) capacity = min(max, max(required, capacity * 2))] *)
Fixpoint growCapacity (fuel : nat) (capacity required max : Z) : option Z :=
  if capacity <? required then
    match fuel with
    | O => None
    | S fuel => growCapacity fuel (Z.min max (Z.max required (capacity * 2))) required max
    end
  else Some capacity.

Definition ensureCapacity (w : CborWriter) (additionalBytes : nat) : result cbor_error CborWriter :=
  let required := Z.of_nat (offset w) + Z.of_nat additionalBytes in
  if w_maxByteLength w <? required then Err ByteLengthLimit else
  if required <=? Z.of_nat (length (buffer w)) then Ok w else
  match growCapacity 1 (Z.max 1 (Z.of_nat (length (buffer w)))) required (w_maxByteLength w) with
  | None => Err EncodeFuel
  | Some capacity =>
      match buf_set (new_bytes (Z.to_nat capacity)) 0 (buffer w) with
      | None => Err BufferRange
      | Some expanded => Ok (mkWriter expanded (offset w) (w_maxByteLength w))
      end
  end.

(** [this.buffer[i] = v]: an index out of range is ignored. *)
Definition poke (buf : list Z) (i : nat) (v : Z) : list Z := <[i := to_uint8 v]> buf.

Definition writeByte (w : CborWriter) (value : Z) : result cbor_error CborWriter :=
  let* w := ensureCapacity w 1 in
  Ok (mkWriter (poke (buffer w) (offset w) value) (offset w + 1) (w_maxByteLength w)).

Definition writeBytes (w : CborWriter) (bytes : list Z) : result cbor_error CborWriter :=
  let* w := ensureCapacity w (length bytes) in
  match buf_set (buffer w) (offset w) bytes with
  | None => Err BufferRange
  | Some buf => Ok (mkWriter buf (offset w + length bytes) (w_maxByteLength w))
  end.

Definition writeUint16 (w : CborWriter) (value : Z) : result cbor_error CborWriter :=
  let* w := ensureCapacity w 2 in
  let buf := poke (buffer w) (offset w) (ushr value 8) in
  let buf := poke buf (offset w + 1) value in
  Ok (mkWriter buf (offset w + 2) (w_maxByteLength w)).

Definition writeUint32 (w : CborWriter) (value : Z) : result cbor_error CborWriter :=
  let* w := ensureCapacity w 4 in
  let buf := poke (buffer w) (offset w) (ushr value 24) in
  let buf := poke buf (offset w + 1) (ushr value 16) in
  let buf := poke buf (offset w + 2) (ushr value 8) in
  let buf := poke buf (offset w + 3) value in
  Ok (mkWriter buf (offset w + 4) (w_maxByteLength w)).

Definition writeUint64 (w : CborWriter) (value : Z) : result cbor_error CborWriter :=
  let high := value / UINT32_BASE in
  let low := value - high * UINT32_BASE in
  let* w := writeUint32 w high in
  writeUint32 w low.

Definition writeFloat64 (w : CborWriter) (value : jsnum) : result cbor_error CborWriter :=
  let* w := ensureCapacity w 9 in
  let buf := poke (buffer w) (offset w) 0xfb in
  match buf_set buf (offset w + 1) (be64 (bits_of_num value)) with
  | None => Err BufferRange
  | Some buf => Ok (mkWriter buf (offset w + 9) (w_maxByteLength w))
  end.

Definition finish (w : CborWriter) : list Z := take (offset w) (buffer w).

(** ** The encoder *)

Definition writeArgument (w : CborWriter) (majorType value : Z) : result cbor_error CborWriter :=
  let prefix := Z.shiftl majorType 5 in
  if value <? 24 then writeByte w (Z.lor prefix value)
  else if value <=? 0xff then
    let* w := writeByte w (Z.lor prefix 24) in writeByte w value
  else if value <=? 0xffff then
    let* w := writeByte w (Z.lor prefix 25) in writeUint16 w value
  else if value <=? MAX_UINT32 then
    let* w := writeByte w (Z.lor prefix 26) in writeUint32 w value
  else
    let* w := writeByte w (Z.lor prefix 27) in writeUint64 w value.

Definition isPlainObject (proto : prototype) : bool :=
  bool_decide (proto = ObjectPrototype) || bool_decide (proto = NullPrototype).

Definition encodeText (w : CborWriter) (value : jsstr) (options : ResolvedCborOptions) :
    result cbor_error CborWriter :=
  let bytes := utf8_encode value in
  if maxByteLength options <? Z.of_nat (length bytes) then Err TextLengthLimit else
  if negb (bool_decide (utf8_decode bytes = Some value)) then Err InvalidUnicode else
  let* w := writeArgument w 3 (Z.of_nat (length bytes)) in
  writeBytes w bytes.

Definition encodeNumber (w : CborWriter) (n : jsnum) : result cbor_error CborWriter :=
  if negb (isFinite n) then Err NonFiniteNumber else
  match n with
  | NInt value =>
      if negb (isSafeInteger n) then Err UnsafeInteger else
      if 0 <=? value then writeArgument w 0 value else writeArgument w 1 (-1 - value)
  | _ => writeFloat64 w n
  end.

Definition defined (kv : jsstr * jsval) : bool := negb (bool_decide (kv.2 = JUndefined)).

(** The element loop of an array and the entry loop of an object, over the
    recursive call [encode]. *)
Fixpoint encodeElements (encode : CborWriter → jsval → result cbor_error CborWriter)
    (w : CborWriter) (slots : list slot) : result cbor_error CborWriter :=
  match slots with
  | [] => Ok w
  | Hole :: _ | Slot _ JUndefined :: _ => Err ArrayHole
  | Slot _ v :: slots => let* w := encode w v in encodeElements encode w slots
  end.

Fixpoint encodeFields (options : ResolvedCborOptions)
    (encode : CborWriter → jsval → result cbor_error CborWriter)
    (w : CborWriter) (entries : list (jsstr * jsval)) : result cbor_error CborWriter :=
  match entries with
  | [] => Ok w
  | (k, v) :: entries =>
      let* w := encodeText w k options in
      let* w := encode w v in
      encodeFields options encode w entries
  end.

Fixpoint encodeValue (fuel : nat) (h : heap) (w : CborWriter) (value : jsval)
    (options : ResolvedCborOptions) (depth : Z) (ancestors : gset loc) :
    result cbor_error CborWriter :=
  if maxDepth options <? depth then Err DepthLimit else
  match fuel with
  | O => Err EncodeFuel
  | S fuel =>
    match value with
    | JNull => writeByte w 0xf6
    | JBool b => writeByte w (if b then 0xf5 else 0xf4)
    | JNumber n => encodeNumber w n
    | JString s => encodeText w s options
    | JUndefined => Err (UnsupportedType "undefined")
    | JOther type => Err (UnsupportedType type)
    | JRef l =>
      match h !! l with
      | None => Err (UnsupportedType "dangling")
      | Some (OBytes bytes) =>
          if maxByteLength options <? Z.of_nat (length bytes) then Err BytesLengthLimit else
          let* w := writeArgument w 2 (Z.of_nat (length bytes)) in
          writeBytes w bytes
      | Some (OArray _ _ _ slots) =>
          if bool_decide (l ∈ ancestors) then Err CyclicValue else
          if maxContainerLength options <? Z.of_nat (length slots) then Err ArrayLengthLimit else
          let* w := writeArgument w 4 (Z.of_nat (length slots)) in
          encodeElements
            (λ w v, encodeValue fuel h w v options (depth + 1) ({[ l ]} ∪ ancestors)) w slots
      | Some (OObject proto symbols props) =>
          if negb (isPlainObject proto) then Err (UnsupportedType "object") else
          if bool_decide (l ∈ ancestors) then Err CyclicValue else
          if bool_decide (true ∈ symbols) then Err MapKeyNotString else
          let entries := List.filter defined (own_entries props) in
          if maxContainerLength options <? Z.of_nat (length entries) then Err MapLengthLimit else
          let* w := writeArgument w 5 (Z.of_nat (length entries)) in
          encodeFields options
            (λ w v, encodeValue fuel h w v options (depth + 1) ({[ l ]} ∪ ancestors)) w entries
      end
    end
  end.

Definition encodeCbor (h : heap) (value : jsval) (options : option CborOptions) :
    result cbor_error (list Z) :=
  let* resolved := resolveOptions options in
  let writer := new_CborWriter (maxByteLength resolved) in
  let* w := encodeValue (Z.to_nat (maxDepth resolved) + 1) h writer value resolved 0 ∅ in
  Ok (finish w).

(** ** The decoder *)

Section reader.
Context (bytes : list Z) (options : ResolvedCborOptions).

Definition readByte (off : nat) : result cbor_error (Z * nat) :=
  match bytes !! off with
  | None => Err Truncated
  | Some value => Ok (value, off + 1)%nat
  end.

Definition readBytes (length : Z) (off : nat) : result cbor_error (list Z * nat) :=
  if Z.of_nat (List.length bytes) - Z.of_nat off <? length then Err Truncated else
  Ok (take (Z.to_nat length) (drop off bytes), off + Z.to_nat length)%nat.

Definition readArgument26 (off : nat) : result cbor_error (Z * nat) :=
  let* (bs, off) := readBytes 4 off in Ok (read_be32 bs, off).

Definition readArgument (additionalInformation : Z) (off : nat) : result cbor_error (Z * nat) :=
  if additionalInformation <? 24 then Ok (additionalInformation, off) else
  match additionalInformation with
  | 24 => readByte off
  | 25 => let* (bs, off) := readBytes 2 off in Ok (read_be16 bs, off)
  | 26 => readArgument26 off
  | 27 =>
      let* (high, off) := readArgument26 off in
      let* (low, off) := readArgument26 off in
      if 0x1fffff <? high then Err UnsafeInteger else
      Ok (high * UINT32_BASE + low, off)
  | 31 => Err IndefiniteLength
  | _ => Err MalformedInfo
  end.

Definition readLength (additionalInformation limit : Z) (tooLong : cbor_error) (off : nat) :
    result cbor_error (Z * nat) :=
  if additionalInformation =? 31 then Err IndefiniteLength else
  let* (length, off) := readArgument additionalInformation off in
  if limit <? length then Err tooLong else Ok (length, off).

Definition readSimple (additionalInformation : Z) (off : nat) : result cbor_error (tree * nat) :=
  match additionalInformation with
  | 20 => Ok (TBool false, off)
  | 21 => Ok (TBool true, off)
  | 22 => Ok (TNull, off)
  | 27 =>
      let* (bs, off) := readBytes 8 off in
      let value := num_of_bits (read_be64 bs) in
      if negb (isFinite value) then Err NonFiniteNumber else
      if isInteger value && negb (isSafeInteger value) then Err UnsafeInteger else
      Ok (TNum value, off)
  | 31 => Err BreakUnsupported
  | _ => Err SimpleUnsupported
  end.

(** [for (index < length) result.push(readItem(depth + 1))] *)
Fixpoint readElements (readItem : nat → result cbor_error (tree * nat)) (count : nat)
    (acc : list tree) (off : nat) : result cbor_error (tree * nat) :=
  match count with
  | O => Ok (TArray acc, off)
  | S count =>
      let* (t, off) := readItem off in
      readElements readItem count (acc ++ [t]) off
  end.

(** The entries of a map; [keys] of the source is the key set of [acc]. *)
Fixpoint readEntries (readItem : nat → result cbor_error (tree * nat)) (count : nat)
    (acc : list (jsstr * tree)) (off : nat) : result cbor_error (tree * nat) :=
  match count with
  | O => Ok (TMap acc, off)
  | S count =>
      let* (key, off) := readItem off in
      match key with
      | TText k =>
          if bool_decide (k ∈ acc.*1) then Err DuplicateKey else
          let* (t, off) := readItem off in
          readEntries readItem count (define_prop k t acc) off
      | _ => Err MapKeyNotString
      end
  end.

Fixpoint readItem (fuel : nat) (depth : Z) (off : nat) : result cbor_error (tree * nat) :=
  if maxDepth options <? depth then Err DepthLimit else
  match fuel with
  | O => Err DecodeFuel
  | S fuel =>
    let* (initial, off) := readByte off in
    let majorType := ushr initial 5 in
    let additionalInformation := Z.land initial 0x1f in
    match majorType with
    | 0 =>
        let* (value, off) := readArgument additionalInformation off in
        Ok (TNum (NInt value), off)
    | 1 =>
        let* (arg, off) := readArgument additionalInformation off in
        let value := -1 - arg in
        if negb (isSafeInteger (NInt value)) then Err UnsafeInteger else
        Ok (TNum (NInt value), off)
    | 2 =>
        let* (length, off) :=
          readLength additionalInformation (maxByteLength options) BytesLengthLimit off in
        let* (bs, off) := readBytes length off in Ok (TBytes bs, off)
    | 3 =>
        let* (length, off) :=
          readLength additionalInformation (maxByteLength options) TextLengthLimit off in
        let* (bs, off) := readBytes length off in
        match utf8_decode bs with
        | Some s => Ok (TText s, off)
        | None => Err InvalidUtf8
        end
    | 4 =>
        let* (length, off) :=
          readLength additionalInformation (maxContainerLength options) ArrayLengthLimit off in
        readElements (readItem fuel (depth + 1)) (Z.to_nat length) [] off
    | 5 =>
        let* (length, off) :=
          readLength additionalInformation (maxContainerLength options) MapLengthLimit off in
        readEntries (readItem fuel (depth + 1)) (Z.to_nat length) [] off
    | 6 => Err TagsUnsupported
    | 7 => readSimple additionalInformation off
    | _ => Err MalformedMajor
    end
  end.

Definition decode : result cbor_error tree :=
  let* (value, off) := readItem (Z.to_nat (maxDepth options) + 1) 0 0 in
  if negb (off =? length bytes)%nat then Err TrailingData else Ok value.
End reader.

Definition decodeCbor (bytes : list Z) (options : option CborOptions) : result cbor_error tree :=
  let* resolved := resolveOptions options in
  if maxByteLength resolved <? Z.of_nat (length bytes) then Err ByteLengthLimit else
  decode bytes resolved.

(** A message with every kind of item, encoded and decoded. *)
Example cbor_ex :
  let h : heap :=
    {[ 1%positive := OObject ObjectPrototype []
         [mkProp (js_lit "a") true false (JNumber (NInt (-300)));
          mkProp (js_lit "u") true false JUndefined;
          mkProp (js_lit "b") true false (JRef 2)];
       2%positive := OArray true 0 0 [Slot false (JBool true); Slot false (JRef 3); Slot false (JRef 3)];
       3%positive := OBytes [1; 2] ]} in
  (let* bs := encodeCbor h (JRef 1) None in
   let* t := decodeCbor bs None in Ok (bs, t)) =
  Ok ([162; 97; 97; 57; 1; 43; 97; 98; 131; 245; 66; 1; 2; 66; 1; 2],
      TMap [(js_lit "a", TNum (NInt (-300)));
            (js_lit "b", TArray [TBool true; TBytes [1; 2]; TBytes [1; 2]])]).
Proof. vm_compute. reflexivity. Qed.

(** A cycle is reported, also when the depth limit alone would not. *)
Example cbor_cycle_ex :
  encodeCbor {[ 1%positive := OArray true 0 0 [Slot false (JRef 1)] ]} (JRef 1) None = Err CyclicValue.
Proof. vm_compute. reflexivity. Qed.
