(* ===== verification/CborSpec.v ===== *)
(** What the CBOR codec promises, and that it does.

    [wire t] is the encoding of plain data and [fits o d t] says that data at
    depth [d] is within the limits [o].  The growable writer refines appending
    to a byte string with a length limit ([writes]); the encoder succeeds
    exactly on values that denote data within the limits, and writes its wire
    form ([encodeCbor_spec]); the decoder inverts the wire form, and only ever
    returns data within the limits. *)
From S2P Require Import Prelude Bytes JsValue Utf8 Cbor.
Open Scope Z_scope.

(** ** The wire format *)

Definition head_info (arg : Z) : Z :=
  if arg <? 24 then arg else if arg <=? 0xff then 24 else
  if arg <=? 0xffff then 25 else if arg <=? MAX_UINT32 then 26 else 27.

Definition head_arg (arg : Z) : list Z :=
  if arg <? 24 then [] else if arg <=? 0xff then [arg] else
  if arg <=? 0xffff then be16 arg else if arg <=? MAX_UINT32 then be32 arg
  else be32 (arg / UINT32_BASE) ++ be32 (arg mod UINT32_BASE).

Definition head (major arg : Z) : list Z := (major * 32 + head_info arg) :: head_arg arg.

Definition wire_text (s : jsstr) : list Z :=
  head 3 (Z.of_nat (length (utf8_encode s))) ++ utf8_encode s.

Definition wire_num (n : jsnum) : list Z :=
  match n with
  | NInt z => if 0 <=? z then head 0 z else head 1 (-1 - z)
  | _ => 0xfb :: be64 (bits_of_num n)
  end.

Fixpoint wire (t : tree) : list Z :=
  match t with
  | TNull => [0xf6]
  | TBool b => [if b then 0xf5 else 0xf4]
  | TNum n => wire_num n
  | TText s => wire_text s
  | TBytes bs => head 2 (Z.of_nat (length bs)) ++ bs
  | TArray ts => head 4 (Z.of_nat (length ts)) ++ concat (wire <$> ts)
  | TMap es => head 5 (Z.of_nat (length es)) ++ concat ((λ e, wire_text e.1 ++ wire e.2) <$> es)
  end.

#[global] Arguments head : simpl never.
#[global] Arguments wire_text : simpl never.
#[global] Arguments wire_num : simpl never.

Definition num_fits (n : jsnum) : bool :=
  isFinite n && (negb (isInteger n) || isSafeInteger n).

Definition text_fits (o : ResolvedCborOptions) (s : jsstr) : bool :=
  (Z.of_nat (length (utf8_encode s)) <=? maxByteLength o) &&
  bool_decide (utf8_decode (utf8_encode s) = Some s).

Fixpoint fits (o : ResolvedCborOptions) (depth : Z) (t : tree) : bool :=
  (depth <=? maxDepth o) &&
  match t with
  | TNull | TBool _ => true
  | TNum n => num_fits n
  | TText s => text_fits o s
  | TBytes bs => Z.of_nat (length bs) <=? maxByteLength o
  | TArray ts => (Z.of_nat (length ts) <=? maxContainerLength o) && forallb (fits o (depth + 1)) ts
  | TMap es =>
      (Z.of_nat (length es) <=? maxContainerLength o) &&
      forallb (λ e, text_fits o e.1 && fits o (depth + 1) e.2) es
  end.

Definition options_ok (o : ResolvedCborOptions) : Prop :=
  0 ≤ maxByteLength o ≤ MAX_UINT32 ∧ 0 ≤ maxContainerLength o ≤ MAX_UINT32 ∧
  0 ≤ maxDepth o ≤ MAX_CONFIGURED_DEPTH.

Lemma resolveOptions_ok options o : resolveOptions options = Ok o → options_ok o.
Proof.
  unfold resolveOptions, resolveLimit, options_ok. intros H. invert_ok. zb. subst. simpl in *. lia.
Qed.

(** ** The writer *)

Definition w_ok (w : CborWriter) : Prop :=
  (offset w ≤ length (buffer w))%nat ∧ Z.of_nat (length (buffer w)) ≤ w_maxByteLength w.

(** [w'] is [w] with [bs] appended. *)
Definition ext (w w' : CborWriter) (bs : list Z) : Prop :=
  w_ok w' ∧ finish w' = finish w ++ bs ∧ w_maxByteLength w' = w_maxByteLength w.

Definition room (w : CborWriter) (n : nat) : Prop :=
  Z.of_nat (offset w + n) ≤ w_maxByteLength w.

(** [op] appends [bs], and fails with the byte limit exactly when it does not fit. *)
Definition writes (op : CborWriter → result cbor_error CborWriter) (bs : list Z) : Prop :=
  ∀ w, w_ok w →
    (room w (length bs) → ∃ w', op w = Ok w' ∧ ext w w' bs) ∧
    (¬ room w (length bs) → op w = Err ByteLengthLimit).

Lemma length_finish w : w_ok w → length (finish w) = offset w.
Proof. intros [H _]. unfold finish. rewrite length_take. lia. Qed.

Lemma ext_offset w w' bs : w_ok w → ext w w' bs → offset w' = (offset w + length bs)%nat.
Proof.
  intros Hw (Hw' & Hf & _). rewrite <- (length_finish w'), Hf, length_app, length_finish by done. done.
Qed.

Lemma ext_trans w1 w2 w3 a b : ext w1 w2 a → ext w2 w3 b → ext w1 w3 (a ++ b).
Proof.
  intros (? & H1 & M1) (? & H2 & M2). split; [done|]. split; [|congruence].
  by rewrite H2, H1, app_assoc.
Qed.

Lemma ext_refl w : w_ok w → ext w w [].
Proof. intros. split; [done|]. by rewrite app_nil_r. Qed.

Lemma writes_bind f g a b : writes f a → writes g b → writes (λ w, let* w := f w in g w) (a ++ b).
Proof.
  intros Hf Hg w Hw. destruct (Hf w Hw) as [Hf1 Hf2]. unfold room in *. rewrite length_app.
  destruct (decide (Z.of_nat (offset w + length a) ≤ w_maxByteLength w)) as [Hr|Hr].
  - destruct (Hf1 Hr) as (w1 & -> & He1). simpl. destruct (Hg w1 (proj1 He1)) as [Hg1 Hg2].
    unfold room in *. rewrite (ext_offset w w1 a) in * by done. pose proof He1 as (_ & _ & Hm1). rewrite Hm1 in *.
    split.
    + intros Hr2. destruct Hg1 as (w2 & Hw2 & He2); [lia|]. exists w2. split; [done|]. by eapply ext_trans.
    + intros Hr2. apply Hg2. lia.
  - rewrite (Hf2 Hr). split; [lia|done].
Qed.

Lemma writes_inv op bs w w' : writes op bs → w_ok w → op w = Ok w' → ext w w' bs ∧ room w (length bs).
Proof.
  intros H Hw Hop. destruct (H w Hw) as [H1 H2]. unfold room in *.
  destruct (decide (Z.of_nat (offset w + length bs) ≤ w_maxByteLength w)) as [Hr|Hr].
  - destruct (H1 Hr) as (w1 & Hw1 & He). split; [congruence|done].
  - rewrite (H2 Hr) in Hop. done.
Qed.

Lemma writes_ext op bs w w' : writes op bs → w_ok w → op w = Ok w' → ext w w' bs.
Proof. intros. by eapply writes_inv. Qed.

Lemma ensureCapacity_spec w n :
  w_ok w →
  (room w n → ∃ w', ensureCapacity w n = Ok w' ∧ w_ok w' ∧ finish w' = finish w ∧
     offset w' = offset w ∧ w_maxByteLength w' = w_maxByteLength w ∧
     (offset w + n ≤ length (buffer w'))%nat) ∧
  (¬ room w n → ensureCapacity w n = Err ByteLengthLimit).
Proof.
  intros [Ho Hm]. unfold ensureCapacity, room. split; intros Hr.
  - destruct (Z.ltb_spec (w_maxByteLength w) (Z.of_nat (offset w) + Z.of_nat n)); [lia|].
    destruct (Z.leb_spec (Z.of_nat (offset w) + Z.of_nat n) (Z.of_nat (length (buffer w)))).
    + exists w. split_and!; try done. lia.
    + simpl. destruct (Z.ltb_spec (Z.max 1 (Z.of_nat (length (buffer w)))) (Z.of_nat (offset w) + Z.of_nat n)).
      * destruct (Z.ltb_spec (Z.min (w_maxByteLength w) (Z.max (Z.of_nat (offset w) + Z.of_nat n)
           (Z.max 1 (Z.of_nat (length (buffer w))) * 2))) (Z.of_nat (offset w) + Z.of_nat n)); [lia|].
        set (cap := Z.min _ _) in *.
        destruct (buf_set (new_bytes (Z.to_nat cap)) 0 (buffer w)) as [b|] eqn:Hb.
        2:{ rewrite buf_set_Some in Hb; [done|]. rewrite length_new_bytes. lia. }
        pose proof (buf_set_length _ _ _ _ Hb) as Hl. rewrite length_new_bytes in Hl.
        pose proof (buf_set_prefix _ _ _ _ Hb) as Hp. simpl in Hp.
        eexists. split; [done|]. unfold w_ok, finish; simpl. split_and!; try lia.
        rewrite <- Hp, take_take. f_equal. lia.
      * destruct (buf_set (new_bytes _) 0 (buffer w)) as [b|] eqn:Hb.
        2:{ rewrite buf_set_Some in Hb; [done|]. rewrite length_new_bytes. lia. }
        pose proof (buf_set_length _ _ _ _ Hb) as Hl. rewrite length_new_bytes in Hl.
        pose proof (buf_set_prefix _ _ _ _ Hb) as Hp. simpl in Hp.
        eexists. split; [done|]. unfold w_ok, finish; simpl. split_and!; try lia.
        rewrite <- Hp, take_take. f_equal. lia.
  - destruct (Z.ltb_spec (w_maxByteLength w) (Z.of_nat (offset w) + Z.of_nat n)); [done|lia].
Qed.

Lemma take_poke buf i v :
  (i < length buf)%nat → take (i + 1) (poke buf i v) = take i buf ++ [to_uint8 v].
Proof.
  intros Hi. unfold poke. rewrite Nat.add_1_r.
  rewrite (take_S_r _ _ (to_uint8 v)) by by apply list_lookup_insert_eq.
  by rewrite take_insert_ge by lia.
Qed.

Lemma length_poke buf i v : length (poke buf i v) = length buf.
Proof. apply length_insert. Qed.

(** A write of [n] bytes after [ensureCapacity]: the new buffer agrees with the
    old one below the offset and holds [bs] above it. *)
Lemma writes_after n (f : CborWriter → option (list Z)) bs :
  length bs = n →
  (∀ w, (offset w + n ≤ length (buffer w))%nat →
     ∃ buf, f w = Some buf ∧ length buf = length (buffer w) ∧
       take (offset w + n) buf = take (offset w) (buffer w) ++ bs) →
  writes (λ w, let* w := ensureCapacity w n in
               match f w with
               | None => Err BufferRange
               | Some buf => Ok (mkWriter buf (offset w + n) (w_maxByteLength w))
               end) bs.
Proof.
  intros <- Hf w Hw. destruct (ensureCapacity_spec w (length bs) Hw) as [H1 H2]. split; intros Hr.
  - destruct (H1 Hr) as (w1 & -> & [Hw1 Hw1'] & Hfin & Ho & Hm & Hc). simpl.
    destruct (Hf w1) as (buf & -> & Hl & Ht); [by rewrite Ho|].
    simpl. eexists. split; [done|].
    unfold ext, w_ok, finish in *; simpl. rewrite Hl, Hm in *. split_and!; [lia|lia| |done].
    by rewrite Ht, Hfin.
  - by rewrite (H2 Hr).
Qed.

Lemma writeByte_writes v : writes (λ w, writeByte w v) [to_uint8 v].
Proof.
  apply (writes_after 1 (λ w, Some (poke (buffer w) (offset w) v))); [done|].
  intros w Hw. eexists. split; [done|]. rewrite length_poke, take_poke by lia. done.
Qed.

Lemma writeByte_small v : is_byte v → writes (λ w, writeByte w v) [v].
Proof. intros H. pose proof (writeByte_writes v) as Hw. by rewrite (to_uint8_small v H) in Hw. Qed.

Lemma writeUint16_writes v : writes (λ w, writeUint16 w v) (be16 v).
Proof.
  apply (writes_after 2 (λ w, Some (poke (poke (buffer w) (offset w) (ushr v 8)) (offset w + 1) v))); [done|].
  intros w Hw. eexists. split; [done|]. rewrite !length_poke. split; [done|].
  replace (offset w + 2)%nat with (offset w + 1 + 1)%nat by lia.
  rewrite !take_poke by (rewrite ?length_poke; lia). by rewrite <- app_assoc.
Qed.

Lemma writeUint32_writes v : writes (λ w, writeUint32 w v) (be32 v).
Proof.
  apply (writes_after 4 (λ w, Some (poke (poke (poke (poke (buffer w) (offset w) (ushr v 24))
    (offset w + 1) (ushr v 16)) (offset w + 2) (ushr v 8)) (offset w + 3) v))); [done|].
  intros w Hw. eexists. split; [done|]. rewrite !length_poke. split; [done|].
  replace (offset w + 4)%nat with (offset w + 3 + 1)%nat by lia. rewrite take_poke by (rewrite !length_poke; lia).
  replace (offset w + 3)%nat with (offset w + 2 + 1)%nat by lia. rewrite take_poke by (rewrite !length_poke; lia).
  replace (offset w + 2)%nat with (offset w + 1 + 1)%nat by lia.
  rewrite !take_poke by (rewrite ?length_poke; lia). by rewrite <- !app_assoc.
Qed.

Lemma writeBytes_writes bs : writes (λ w, writeBytes w bs) bs.
Proof.
  apply (writes_after _ (λ w, buf_set (buffer w) (offset w) bs)); [done|].
  intros w Hw. pose proof (buf_set_Some _ _ _ Hw) as Hs. eexists. split; [done|].
  split; [by rewrite (buf_set_length _ _ _ _ Hs)|by rewrite (buf_set_prefix _ _ _ _ Hs)].
Qed.

Lemma writeFloat64_writes n : writes (λ w, writeFloat64 w n) (0xfb :: be64 (bits_of_num n)).
Proof.
  apply (writes_after 9 (λ w, buf_set (poke (buffer w) (offset w) 0xfb) (offset w + 1)
    (be64 (bits_of_num n)))); [done|].
  intros w Hw.
  assert (offset w + 1 + length (be64 (bits_of_num n)) ≤ length (poke (buffer w) (offset w) 0xfb))%nat as Hl
    by (rewrite length_be64, length_poke; lia).
  pose proof (buf_set_Some _ _ _ Hl) as Hs. eexists. split; [done|].
  split; [rewrite (buf_set_length _ _ _ _ Hs); apply length_poke|].
  replace (offset w + 9)%nat with (offset w + 1 + 8)%nat by lia.
  etrans; [exact (buf_set_prefix _ _ _ _ Hs)|]. rewrite take_poke by lia. by rewrite <- app_assoc.
Qed.

Lemma writes_proper op op' bs : (∀ w, op w = op' w) → writes op bs → writes op' bs.
Proof. intros He H w Hw. rewrite <- !He. by apply H. Qed.

Lemma prefix_info m i : 0 ≤ m < 8 → 0 ≤ i < 32 → to_uint8 (Z.lor (Z.shiftl m 5) i) = m * 32 + i.
Proof.
  intros Hm Hi.
  assert (Forall (λ m, Forall (λ i, to_uint8 (Z.lor (Z.shiftl m 5) i) = m * 32 + i) (seqZ 0 32))
    (seqZ 0 8)) as H by decide_now.
  rewrite Forall_forall in H. specialize (H m). rewrite Forall_forall in H.
  apply H; apply elem_of_seqZ; lia.
Qed.

Lemma writeArgument_writes m v :
  0 ≤ m < 8 → 0 ≤ v ≤ MAX_SAFE → writes (λ w, writeArgument w m v) (head m v).
Proof.
  intros Hm Hv. unfold head, head_info, head_arg, writeArgument, MAX_UINT32 in *.
  destruct (Z.ltb_spec v 24); [rewrite <- prefix_info by lia; apply writeByte_writes|].
  destruct (Z.leb_spec v 0xff).
  { rewrite <- prefix_info by lia. apply (writes_bind _ _ [_] [_]); [apply writeByte_writes|].
    apply writeByte_small. unfold is_byte. lia. }
  destruct (Z.leb_spec v 0xffff).
  { rewrite <- prefix_info by lia. apply (writes_bind _ _ [_]);
      [apply writeByte_writes|apply writeUint16_writes]. }
  destruct (Z.leb_spec v 0xffffffff).
  { rewrite <- prefix_info by lia. apply (writes_bind _ _ [_]);
      [apply writeByte_writes|apply writeUint32_writes]. }
  rewrite <- prefix_info by lia. apply (writes_bind _ _ [_]); [apply writeByte_writes|].
  unfold writeUint64.
  replace (v - v / UINT32_BASE * UINT32_BASE) with (v mod UINT32_BASE)
    by (unfold UINT32_BASE; Z.div_mod_to_equations; lia).
  apply writes_bind; apply writeUint32_writes.
Qed.

(** ** The encoder *)

Lemma writeText_writes o s :
  options_ok o → text_fits o s = true → writes (λ w, encodeText w s o) (wire_text s).
Proof.
  intros (Ho & _) [Hl Hd]%andb_true_iff. zb.
  apply (writes_proper (λ w, let* w := writeArgument w 3 (Z.of_nat (length (utf8_encode s))) in
    writeBytes w (utf8_encode s))).
  { intros w. unfold encodeText. rewrite (proj2 (Z.ltb_ge _ _) Hl).
    by rewrite (bool_decide_eq_true_2 _ Hd). }
  apply writes_bind; [|apply writeBytes_writes].
  apply writeArgument_writes; [lia|]. unfold MAX_UINT32, MAX_SAFE in *. lia.
Qed.

Lemma encodeText_fits o s w w' : encodeText w s o = Ok w' → text_fits o s = true.
Proof.
  unfold encodeText, text_fits. intros H. invert_ok. zb.
  apply andb_true_iff. split; [by apply Z.leb_le|by apply bool_decide_eq_true].
Qed.

Lemma encodeNumber_writes n : num_fits n = true → writes (λ w, encodeNumber w n) (wire_num n).
Proof.
  intros [Hf Hs]%andb_true_iff. unfold encodeNumber. rewrite Hf.
  destruct n as [z| |bits| |]; simpl in *; try apply writeFloat64_writes; try done.
  unfold wire_num. rewrite Hs. simpl. zb. unfold MAX_SAFE in *.
  destruct (Z.leb_spec 0 z); apply writeArgument_writes; unfold MAX_SAFE; lia.
Qed.

Lemma encodeNumber_fits n w w' : encodeNumber w n = Ok w' → num_fits n = true.
Proof.
  unfold encodeNumber, num_fits. destruct n as [z| |bits| |]; simpl; try done.
  destruct (Z.abs z <=? MAX_SAFE); naive_solver.
Qed.

(** What a successful recursive call provides. *)
Definition sound (h : heap) (o : ResolvedCborOptions) (depth : Z)
    (encode : CborWriter → jsval → result cbor_error CborWriter) : Prop :=
  ∀ w v w', w_ok w → encode w v = Ok w' →
    ∃ t, denotes h v t ∧ fits o depth t = true ∧ ext w w' (wire t).

Lemma encodeElements_sound h o depth encode slots w w' :
  sound h o depth encode → w_ok w → encodeElements encode w slots = Ok w' →
  ∃ ts, Forall2 (λ s t, ∃ a v, s = Slot a v ∧ v ≠ JUndefined ∧ denotes h v t) slots ts ∧
    forallb (fits o depth) ts = true ∧ ext w w' (concat (wire <$> ts)).
Proof.
  intros Henc. revert w. induction slots as [|s slots IH]; intros w Hw H; simpl in H.
  { invert_ok. subst. exists []. split; [constructor|]. split; [done|by apply ext_refl]. }
  destruct s as [|a v]; [done|].
  assert (v ≠ JUndefined ∧ ∃ w1, encode w v = Ok w1 ∧ encodeElements encode w1 slots = Ok w')
    as (Hv & w1 & H1 & H2) by (destruct v; invert_ok; naive_solver).
  destruct (Henc _ _ _ Hw H1) as (t & Hd & Hf & He). destruct (IH w1 (proj1 He) H2) as (ts & Hts & Hfs & Hes).
  exists (t :: ts). split; [constructor; naive_solver|]. simpl. rewrite Hf, Hfs. split; [done|].
  by eapply ext_trans.
Qed.

Lemma encodeFields_sound h o depth encode entries w w' :
  options_ok o → sound h o depth encode → w_ok w → encodeFields o encode w entries = Ok w' →
  ∃ es, Forall2 (λ kv e, kv.1 = e.1 ∧ denotes h kv.2 e.2) entries es ∧
    forallb (λ e, text_fits o e.1 && fits o depth e.2) es = true ∧
    ext w w' (concat ((λ e, wire_text e.1 ++ wire e.2) <$> es)).
Proof.
  intros Ho Henc. revert w. induction entries as [|[k v] entries IH]; intros w Hw H; simpl in H.
  { invert_ok. subst. exists []. split; [constructor|]. split; [done|by apply ext_refl]. }
  invert_ok. pose proof (encodeText_fits _ _ _ _ H0) as Hk.
  destruct (writes_inv _ _ _ _ (writeText_writes o k Ho Hk) Hw H0) as [He0 _].
  destruct (Henc _ _ _ (proj1 He0) H) as (t & Hd & Hf & He).
  destruct (IH _ (proj1 He) H2) as (es & Hes & Hfs & Hee).
  exists ((k, t) :: es). split; [by constructor|]. split; [simpl; by rewrite Hk, Hf, Hfs|].
  rewrite fmap_cons, concat_cons, <- app_assoc. eapply ext_trans; [done|]. by eapply ext_trans.
Qed.

Lemma length_head_safe (n : nat) limit : Z.of_nat n ≤ limit → limit ≤ MAX_UINT32 → 0 ≤ Z.of_nat n ≤ MAX_SAFE.
Proof. unfold MAX_UINT32, MAX_SAFE. lia. Qed.

Lemma filter_defined entries :
  List.filter defined entries = filter (λ kv, kv.2 ≠ JUndefined) entries.
Proof.
  induction entries as [|kv entries IH]; [done|]. simpl. rewrite filter_cons, IH. unfold defined.
  destruct (decide (kv.2 = JUndefined)) as [E|E].
  - rewrite bool_decide_eq_true_2 by done. simpl. by rewrite decide_False by naive_solver.
  - rewrite bool_decide_eq_false_2 by done. simpl. by rewrite decide_True.
Qed.

Lemma encodeValue_sound h o fuel depth anc :
  options_ok o → sound h o depth (λ w v, encodeValue fuel h w v o depth anc).
Proof.
  intros Ho. pose proof Ho as (Hb & Hc & _). revert depth anc.
  induction fuel as [|fuel IH]; intros depth anc w v w' Hw H; simpl in H.
  { by destruct (_ <? _). }
  destruct (Z.ltb_spec (maxDepth o) depth) as [|Hd]; [done|].
  destruct v as [| |b|n|s|l|ty]; try done.
  - exists TNull. split; [constructor|]. cbn [fits wire]. rewrite (proj2 (Z.leb_le _ _) Hd). split; [done|].
    by apply (writes_ext _ _ _ _ (writeByte_small 0xf6 ltac:(unfold is_byte; lia)) Hw).
  - exists (TBool b). split; [constructor|]. cbn [fits wire]. rewrite (proj2 (Z.leb_le _ _) Hd). split; [done|].
    by apply (writes_ext _ _ _ _ (writeByte_small (if b then 0xf5 else 0xf4)
      ltac:(unfold is_byte; destruct b; lia)) Hw).
  - pose proof (encodeNumber_fits _ _ _ H) as Hn. exists (TNum n). split; [constructor|].
    cbn [fits wire]. rewrite (proj2 (Z.leb_le _ _) Hd), Hn. split; [done|]. by apply (writes_ext _ _ _ _ (encodeNumber_writes n Hn) Hw).
  - pose proof (encodeText_fits _ _ _ _ H) as Hs. exists (TText s). split; [constructor|].
    cbn [fits wire]. rewrite (proj2 (Z.leb_le _ _) Hd), Hs. split; [done|]. by apply (writes_ext _ _ _ _ (writeText_writes o s Ho Hs) Hw).
  - destruct (h !! l) as [[bs|std syms names slots|proto syms props]|] eqn:Hl; [..|done].
    + invert_ok. zb. exists (TBytes bs). split; [by constructor|]. cbn [fits wire]. rewrite (proj2 (Z.leb_le _ _) Hd).
      split; [by apply Z.leb_le|].
      apply (writes_ext _ _ _ _ (writes_bind _ _ _ _ (writeArgument_writes 2 (Z.of_nat (length bs))
        ltac:(lia) ltac:(eapply length_head_safe; [done|lia])) (writeBytes_writes bs)) Hw).
      simpl. by rewrite H0.
    + invert_ok. zb.
      destruct (writes_inv _ _ _ _ (writeArgument_writes 4 (Z.of_nat (length slots)) ltac:(lia)
        ltac:(eapply length_head_safe; [done|lia])) Hw H0) as [He0 _].
      destruct (encodeElements_sound h o (depth + 1) _ slots _ _ (IH _ _) (proj1 He0) H1) as (ts & Hts & Hf & He).
      exists (TArray ts). pose proof (Forall2_length _ _ _ Hts) as Hlen.
      split; [by econstructor|]. cbn [fits wire]. rewrite (proj2 (Z.leb_le _ _) Hd), Hf, <- Hlen. split.
      * simpl. rewrite andb_true_r. by apply Z.leb_le.
      * by eapply ext_trans.
    + invert_ok. zb. rewrite filter_defined in *.
      destruct (writes_inv _ _ _ _ (writeArgument_writes 5 (Z.of_nat (length (filter (λ kv, kv.2 ≠ JUndefined) (own_entries props)))) ltac:(lia)
        ltac:(eapply length_head_safe; [done|lia])) Hw H0) as [He0 _].
      destruct (encodeFields_sound h o (depth + 1) _ _ _ _ Ho (IH _ _) (proj1 He0) H1) as (es & Hes & Hf & He).
      exists (TMap es). pose proof (Forall2_length _ _ _ Hes) as Hlen.
      split; [econstructor; [done| |done|done]|].
      * by destruct proto.
      * cbn [fits wire]. rewrite (proj2 (Z.leb_le _ _) Hd), Hf, <- Hlen. split; [|by eapply ext_trans].
        simpl. rewrite andb_true_r. by apply Z.leb_le.
Qed.

(** ** Completeness: data within the limits is encoded *)

Fixpoint tree_size (t : tree) : nat :=
  match t with
  | TArray ts => S (sum_list_with tree_size ts)
  | TMap es => S (sum_list_with (λ e, tree_size e.2) es)
  | _ => 1
  end.

Lemma denotes_det h t v t' : denotes h v t → denotes h v t' → t = t'.
Proof.
  revert v t'. induction t as [|b|n|s|bs|ts IH|es IH] using tree_ind'; intros v t' H H';
    inversion H; subst; inversion H'; subst; simplify_eq; try done; f_equal.
  - eapply Forall2_det; [|done|done]. eapply Forall_impl; [exact IH|].
    intros t IHt s t' (a & v & -> & _ & Hd) (a' & v' & [= <- <-] & _ & Hd'). by eapply IHt.
  - eapply Forall2_det; [|done|done]. eapply Forall_impl; [exact IH|].
    intros [k t] IHt kv [k' t'] [Hk Hd] [Hk' Hd']. simpl in *. f_equal; [congruence|by eapply IHt].
Qed.

Lemma encodeElements_writes encode slots ts :
  Forall2 (λ s t, ∃ a v, s = Slot a v ∧ v ≠ JUndefined ∧ writes (λ w, encode w v) (wire t)) slots ts →
  writes (λ w, encodeElements encode w slots) (concat (wire <$> ts)).
Proof.
  induction 1 as [|s t slots ts (a & v & -> & Hv & Hw) _ IH].
  { intros w Hw. split; [|intros []; destruct Hw; unfold room; simpl; lia].
    intros _. exists w. split; [done|by apply ext_refl]. }
  eapply writes_proper; [|apply (writes_bind _ _ _ _ Hw IH)].
  intros w. by destruct v.
Qed.

Lemma encodeFields_writes o encode entries es :
  options_ok o →
  forallb (λ e, text_fits o e.1) es = true →
  Forall2 (λ kv e, kv.1 = e.1 ∧ writes (λ w, encode w kv.2) (wire e.2)) entries es →
  writes (λ w, encodeFields o encode w entries) (concat ((λ e, wire_text e.1 ++ wire e.2) <$> es)).
Proof.
  intros Ho Hk H. induction H as [|[k v] [k' t] entries es [Hkk Hw] _ IH].
  { intros w Hw. split; [|intros []; destruct Hw; unfold room; simpl; lia].
    intros _. exists w. split; [done|by apply ext_refl]. }
  simpl in Hk. apply andb_true_iff in Hk as [Hk Hks]. simpl in Hkk. subst k'.
  rewrite fmap_cons, concat_cons, <- app_assoc. simpl.
  apply (writes_bind _ _ _ _ (writeText_writes o k Ho Hk)).
  apply (writes_bind _ _ _ _ Hw). by apply IH.
Qed.

(** [t] is strictly inside the data of every ancestor. *)
Definition anc_ok (h : heap) (anc : gset loc) (n : nat) : Prop :=
  ∀ l, l ∈ anc → ∃ t', denotes h (JRef l) t' ∧ (n < tree_size t')%nat.

Lemma anc_ok_child h anc l t n :
  anc_ok h anc (tree_size t) → denotes h (JRef l) t → (n < tree_size t)%nat →
  anc_ok h ({[ l ]} ∪ anc) n.
Proof.
  intros Ha Hd Hn l' [->%elem_of_singleton|Hl]%elem_of_union; [eauto|].
  destruct (Ha l' Hl) as (t' & ? & ?). exists t'. split; [done|lia].
Qed.

Lemma anc_ok_fresh h anc l t : anc_ok h anc (tree_size t) → denotes h (JRef l) t → l ∉ anc.
Proof. intros Ha Hd Hl. destruct (Ha l Hl) as (t' & Hd' & Hs). rewrite (denotes_det _ _ _ _ Hd Hd') in Hs. lia. Qed.

Lemma encodeValue_writes h o t fuel v depth anc :
  options_ok o → denotes h v t → fits o depth t = true → maxDepth o < depth + Z.of_nat fuel →
  anc_ok h anc (tree_size t) →
  writes (λ w, encodeValue fuel h w v o depth anc) (wire t).
Proof.
  intros Ho. pose proof Ho as (_ & Hc & _).
  revert fuel v depth anc. induction t as [|b|n|s|bs|ts IH|es IH] using tree_ind';
    intros fuel v depth anc Hd Hf Hfuel Ha; cbn [fits] in Hf; apply andb_true_iff in Hf as [Hdep%Z.leb_le Hf].
  all: destruct fuel as [|fuel]; [lia|].
  all: assert (maxDepth o <? depth = false) as Hnd by (apply Z.ltb_ge; lia).
  all: eapply writes_proper; [intros w; cbn [encodeValue]; rewrite Hnd; reflexivity|].
  all: inversion Hd as [| | | |l bs' Hl|l std syms names slots ts' Hl Hts|l proto syms props es' Hl Hp Hs Hes];
    subst; try rewrite Hl.
  - apply writeByte_small. unfold is_byte. lia.
  - apply writeByte_small. unfold is_byte. destruct b; lia.
  - by apply encodeNumber_writes.
  - by apply writeText_writes.
  - apply Z.leb_le in Hf. rewrite (proj2 (Z.ltb_ge _ _) Hf).
    apply writes_bind; [|apply writeBytes_writes].
    apply writeArgument_writes; [lia|]. eapply length_head_safe; [done|]. by destruct Ho; lia.
  - apply andb_true_iff in Hf as [Hlen%Z.leb_le Hf]. pose proof (Forall2_length _ _ _ Hts) as Hl2.
    rewrite bool_decide_eq_false_2 by (by eapply anc_ok_fresh). rewrite Hl2, (proj2 (Z.ltb_ge _ _) Hlen).
    apply writes_bind; [apply writeArgument_writes; [lia|eapply length_head_safe; [done|lia]]|].
    apply encodeElements_writes. rewrite forallb_forall in Hf. rewrite Forall_forall in IH.
    eapply Forall2_impl_elem; [exact Hts|].
    intros s t' _ Ht' (a & v & -> & Hv & Hdv). exists a, v. split; [done|]. split; [done|].
    apply IH; [done|done|by apply Hf, list_elem_of_In|lia|].
    eapply anc_ok_child; [done|done|]. simpl. pose proof (sum_list_with_elem tree_size t' ts Ht'). lia.
  - apply andb_true_iff in Hf as [Hlen%Z.leb_le Hf]. pose proof (Forall2_length _ _ _ Hes) as Hl2.
    rewrite filter_defined. rewrite bool_decide_eq_false_2 by (by eapply anc_ok_fresh).
    rewrite bool_decide_eq_false_2 by done. rewrite Hl2, (proj2 (Z.ltb_ge _ _) Hlen).
    assert (isPlainObject proto = true) as -> by by destruct proto. simpl negb. cbn iota.
    apply writes_bind; [apply writeArgument_writes; [lia|eapply length_head_safe; [done|lia]]|].
    rewrite forallb_forall in Hf. setoid_rewrite andb_true_iff in Hf. rewrite Forall_forall in IH.
    apply encodeFields_writes; [done|apply forallb_forall; naive_solver|].
    eapply Forall2_impl_elem; [exact Hes|].
    intros kv e _ He [Hk Hdv]. split; [done|].
    apply IH; [done|done|by apply Hf, list_elem_of_In|lia|].
    eapply anc_ok_child; [done|done|]. simpl. pose proof (sum_list_with_elem (λ e, tree_size e.2) e es He). lia.
Qed.

(** ** The decoder inverts the wire form *)

(** [enc] stands at offset [off] of the input. *)
Definition at_ (bytes : list Z) (off : nat) (enc : list Z) : Prop :=
  ∃ pre post, bytes = pre ++ enc ++ post ∧ length pre = off.

Lemma at_app bytes off a b :
  at_ bytes off (a ++ b) → at_ bytes off a ∧ at_ bytes (off + length a) b.
Proof.
  intros (pre & post & -> & <-). split.
  - exists pre, (b ++ post). by rewrite <- app_assoc.
  - exists (pre ++ a), post. rewrite length_app, <- !app_assoc. done.
Qed.

Lemma readByte_at bytes off b : at_ bytes off [b] → readByte bytes off = Ok (b, off + 1)%nat.
Proof.
  intros (pre & post & -> & <-). unfold readByte.
  by rewrite lookup_app_r, Nat.sub_diag by lia.
Qed.

Lemma readBytes_at bytes off bs :
  at_ bytes off bs → readBytes bytes (Z.of_nat (length bs)) off = Ok (bs, off + length bs)%nat.
Proof.
  intros (pre & post & -> & <-). unfold readBytes. rewrite !length_app.
  destruct (Z.ltb_spec (Z.of_nat (length pre + (length bs + length post)) - Z.of_nat (length pre))
    (Z.of_nat (length bs))); [lia|].
  by rewrite Nat2Z.id, drop_app_length, take_app_length.
Qed.

Lemma readArgument26_at bytes off v :
  0 ≤ v ≤ MAX_UINT32 → at_ bytes off (be32 v) → readArgument26 bytes off = Ok (v, off + 4)%nat.
Proof.
  intros Hv Ha. unfold readArgument26. change 4 with (Z.of_nat (length (be32 v))).
  rewrite (readBytes_at _ _ _ Ha). cbn [rbind].
  rewrite read_be32_be32 by (unfold MAX_UINT32 in Hv; lia). done.
Qed.

Lemma readArgument_at bytes off v :
  0 ≤ v ≤ MAX_SAFE → at_ bytes off (head_arg v) →
  readArgument bytes (head_info v) off = Ok (v, off + length (head_arg v))%nat.
Proof.
  intros Hv Ha. unfold head_info, head_arg, MAX_UINT32, MAX_SAFE in *.
  destruct (Z.ltb_spec v 24) as [Hs|Hs].
  { unfold readArgument. rewrite (proj2 (Z.ltb_lt _ _) Hs). cbn [length]. by rewrite Nat.add_0_r. }
  destruct (Z.leb_spec v 0xff); [by apply readByte_at|].
  destruct (Z.leb_spec v 0xffff).
  { cbn [readArgument Z.ltb Z.compare Pos.compare Pos.compare_cont]. unfold readArgument. cbn -[readBytes read_be16 be16].
    change 2 with (Z.of_nat (length (be16 v))). rewrite (readBytes_at _ _ _ Ha). cbn [rbind].
    rewrite read_be16_be16 by lia. done. }
  destruct (Z.leb_spec v 0xffffffff).
  { unfold readArgument. cbn -[readArgument26 be32]. apply readArgument26_at; [unfold MAX_UINT32; lia|done]. }
  apply at_app in Ha as [Ha1 Ha2].
  unfold readArgument. cbn -[readArgument26 be32 UINT32_BASE Z.ltb Z.mul].
  rewrite (readArgument26_at _ _ (v / UINT32_BASE)); [|unfold MAX_UINT32, UINT32_BASE; Z.div_mod_to_equations; lia|done].
  cbn [rbind]. rewrite (readArgument26_at _ _ (v mod UINT32_BASE));
    [|unfold MAX_UINT32, UINT32_BASE; Z.div_mod_to_equations; lia|done].
  cbn [rbind]. destruct (Z.ltb_spec 0x1fffff (v / UINT32_BASE));
    [unfold UINT32_BASE in *; Z.div_mod_to_equations; lia|].
  rewrite length_app, !length_be32. f_equal. f_equal; [|lia].
  unfold UINT32_BASE; Z.div_mod_to_equations; lia.
Qed.

Lemma head_info_range v : 0 ≤ v → 0 ≤ head_info v < 28.
Proof.
  intros. unfold head_info. destruct (Z.ltb_spec v 24); [lia|].
  destruct (v <=? 0xff), (v <=? 0xffff), (v <=? MAX_UINT32); lia.
Qed.

Lemma initial_byte m i : 0 ≤ m < 8 → 0 ≤ i < 32 → ushr (m * 32 + i) 5 = m ∧ Z.land (m * 32 + i) 0x1f = i.
Proof.
  intros Hm Hi.
  assert (Forall (λ m, Forall (λ i, ushr (m * 32 + i) 5 = m ∧ Z.land (m * 32 + i) 0x1f = i) (seqZ 0 32))
    (seqZ 0 8)) as H by decide_now.
  rewrite Forall_forall in H. specialize (H m). rewrite Forall_forall in H.
  apply H; apply elem_of_seqZ; lia.
Qed.

Lemma readLength_at bytes off v limit e :
  0 ≤ v ≤ limit → limit ≤ MAX_UINT32 → at_ bytes off (head_arg v) →
  readLength bytes (head_info v) limit e off = Ok (v, off + length (head_arg v))%nat.
Proof.
  intros Hv Hl Ha. unfold readLength. pose proof (head_info_range v ltac:(lia)).
  destruct (Z.eqb_spec (head_info v) 31); [lia|].
  rewrite readArgument_at by (done || unfold MAX_UINT32, MAX_SAFE in *; lia). cbn [rbind].
  by rewrite (proj2 (Z.ltb_ge _ _)) by lia.
Qed.

(** Data the decoder can return: runtime numbers, keys in the runtime's order. *)
Fixpoint tree_ok (t : tree) : bool :=
  match t with
  | TNum n => bool_decide (num_ok n)
  | TArray ts => forallb tree_ok ts
  | TMap es => keys_ok (es.*1) && forallb (λ e, tree_ok e.2) es
  | _ => true
  end.

(** Reading [t] at any offset where its wire form stands. *)
Definition reads (bytes : list Z) (read : nat → result cbor_error (tree * nat)) (t : tree) : Prop :=
  ∀ off, at_ bytes off (wire t) → read off = Ok (t, off + length (wire t))%nat.

Lemma readElements_at bytes read ts acc off :
  Forall (reads bytes read) ts → at_ bytes off (concat (wire <$> ts)) →
  readElements read (length ts) acc off = Ok (TArray (acc ++ ts), off + length (concat (wire <$> ts)))%nat.
Proof.
  intros Hr. revert acc off. induction Hr as [|t ts Ht Hts IH]; intros acc off Ha.
  { simpl. by rewrite app_nil_r, Nat.add_0_r. }
  rewrite fmap_cons, concat_cons in *. apply at_app in Ha as [Ha1 Ha2].
  cbn [readElements length]. rewrite (Ht _ Ha1). cbn [rbind]. rewrite IH by done.
  rewrite <- app_assoc, length_app. simpl. by rewrite Nat.add_assoc.
Qed.

Lemma readEntries_at bytes read es acc off :
  Forall (λ e, reads bytes read (TText e.1) ∧ reads bytes read e.2) es →
  keys_ok ((acc ++ es).*1) = true →
  at_ bytes off (concat ((λ e, wire_text e.1 ++ wire e.2) <$> es)) →
  readEntries read (length es) acc off =
    Ok (TMap (acc ++ es), off + length (concat ((λ e, wire_text e.1 ++ wire e.2) <$> es)))%nat.
Proof.
  intros Hr. revert acc off. induction Hr as [|[k t] es [Hk Ht] Hes IH]; intros acc off Hkeys Ha.
  { simpl. by rewrite app_nil_r, Nat.add_0_r. }
  rewrite fmap_cons, concat_cons in *. cbn [fst snd] in *. rewrite <- app_assoc in Ha.
  apply at_app in Ha as [Ha1 Ha2]. apply at_app in Ha2 as [Ha2 Ha3].
  cbn [readEntries length]. rewrite (Hk _ Ha1). cbn [rbind].
  change (wire (TText k)) with (wire_text k).
  pose proof Hkeys as Hkeys'. rewrite fmap_app in Hkeys'. apply keys_ok_app in Hkeys' as (_ & _ & Hsep).
  simpl in Hsep.
  rewrite bool_decide_eq_false_2.
  2:{ intros Hin. destruct (Hsep k k) as [_ Hne]; [done|left|done]. }
  rewrite (Ht _ Ha2). cbn [rbind].
  rewrite define_prop_last.
  2:{ apply Forall_forall. intros e He. apply (Hsep e.1 k); [by apply list_elem_of_fmap_2|left]. }
  rewrite IH; [|by rewrite <- app_assoc|done].
  rewrite <- app_assoc, !length_app. simpl. f_equal. f_equal. lia.
Qed.

Lemma head_at bytes off m v rest :
  at_ bytes off (head m v ++ rest) →
  readByte bytes off = Ok (m * 32 + head_info v, (off + 1)%nat) ∧
  at_ bytes (off + 1) (head_arg v) ∧ at_ bytes (off + 1 + length (head_arg v)) rest.
Proof.
  unfold head. intros Ha. apply (at_app _ _ [_]) in Ha as [Ha1 Ha2].
  apply at_app in Ha2 as [Ha2 Ha3]. split_and!; [by apply readByte_at|done|done].
Qed.

Lemma length_head m v : length (head m v) = S (length (head_arg v)).
Proof. done. Qed.

(** The major type and the additional information come back out of the initial byte. *)
Lemma head_byte m v :
  0 ≤ m < 8 → 0 ≤ v →
  ushr (m * 32 + head_info v) 5 = m ∧ Z.land (m * 32 + head_info v) 0x1f = head_info v.
Proof. intros Hm Hv. pose proof (head_info_range v Hv). apply initial_byte; lia. Qed.

Lemma readItem_num_at bytes o n fuel depth :
  depth ≤ maxDepth o → num_fits n = true → num_ok n →
  reads bytes (readItem bytes o (S fuel) depth) (TNum n).
Proof.
  intros Hdep [Hfin Hsafe]%andb_true_iff Hok off Ha. cbn [readItem wire] in *.
  rewrite (proj2 (Z.ltb_ge _ _) Hdep).
  assert ((∃ z, n = NInt z) ∨ (∀ z, n ≠ NInt z)) as [[z ->]|Hni] by (destruct n; naive_solver).
  - cbn in Hsafe. apply Z.leb_le in Hsafe. unfold wire_num in *. unfold MAX_SAFE in *.
    destruct (Z.leb_spec 0 z) as [Hz|Hz]; rewrite <- (app_nil_r (head _ _)) in Ha;
      destruct (head_at _ _ _ _ _ Ha) as (-> & Ha1 & _); cbn [rbind].
    + destruct (head_byte 0 z) as [-> ->]; [lia..|]. cbn iota.
      rewrite readArgument_at by (done || unfold MAX_SAFE; lia). cbn [rbind]. rewrite length_head.
      f_equal. f_equal. lia.
    + destruct (head_byte 1 (-1 - z)) as [-> ->]; [lia..|]. cbn iota.
      rewrite readArgument_at by (done || unfold MAX_SAFE; lia). cbn [rbind]. rewrite length_head.
      replace (-1 - (-1 - z)) with z by lia. unfold isSafeInteger, MAX_SAFE.
      rewrite (proj2 (Z.leb_le _ _) Hsafe). cbn [negb]. f_equal. f_equal. lia.
  - assert (wire_num n = 0xfb :: be64 (bits_of_num n)) as Hw by (destruct n; naive_solver).
    rewrite Hw in *. apply (at_app _ _ [_]) in Ha as [Ha1 Ha2]. change (length [0xfb]) with 1%nat in Ha2.
    rewrite (readByte_at _ _ _ Ha1). cbn [rbind]. change (ushr 0xfb 5) with 7. change (Z.land 0xfb 0x1f) with 27. cbn iota. cbn [readSimple].
    change 8 with (Z.of_nat (length (be64 (bits_of_num n)))). rewrite (readBytes_at _ _ _ Ha2). cbn [rbind].
    rewrite float_roundtrip by done. rewrite Hfin.
    assert (isInteger n && negb (isSafeInteger n) = false) as -> by (destruct n; naive_solver).
    cbn [negb]. cbn [length]. rewrite <- Nat.add_assoc. done.
Qed.

Lemma readItem_text_at bytes o s fuel depth :
  options_ok o → depth ≤ maxDepth o → text_fits o s = true →
  reads bytes (readItem bytes o (S fuel) depth) (TText s).
Proof.
  intros (Hb & _) Hdep [Hl%Z.leb_le Hd%bool_decide_eq_true]%andb_true_iff off Ha. cbn [readItem wire] in *.
  rewrite (proj2 (Z.ltb_ge _ _) Hdep). unfold wire_text in *.
  destruct (head_at _ _ _ _ _ Ha) as (-> & Ha1 & Ha2). cbn [rbind].
  destruct (head_byte 3 (Z.of_nat (length (utf8_encode s)))) as [-> ->]; [lia..|]. cbn iota.
  rewrite readLength_at by (done || lia). cbn [rbind].
  rewrite (readBytes_at _ _ _ Ha2). cbn [rbind]. rewrite Hd.
  rewrite length_app, length_head. f_equal. f_equal. lia.
Qed.

Lemma readItem_at bytes o t fuel depth :
  options_ok o → fits o depth t = true → tree_ok t = true → maxDepth o < depth + Z.of_nat fuel →
  reads bytes (readItem bytes o fuel depth) t.
Proof.
  intros Ho. pose proof Ho as (Hb & Hc & _).
  revert fuel depth. induction t as [|b|n|s|bs|ts IH|es IH] using tree_ind';
    intros fuel depth Hf Hok Hfuel; cbn [fits] in Hf; cbn [tree_ok] in Hok;
    apply andb_true_iff in Hf as [Hdep%Z.leb_le Hf].
  all: destruct fuel as [|fuel]; [lia|].
  3: by apply readItem_num_at; [..|apply bool_decide_eq_true in Hok].
  3: by apply readItem_text_at.
  all: intros off Ha; cbn [readItem]; rewrite (proj2 (Z.ltb_ge _ _) Hdep); cbn [wire] in *.
  - by rewrite (readByte_at _ _ _ Ha).
  - rewrite (readByte_at _ _ _ Ha). by destruct b.
  - apply Z.leb_le in Hf. destruct (head_at _ _ _ _ _ Ha) as (-> & Ha1 & Ha2). cbn [rbind].
    destruct (head_byte 2 (Z.of_nat (length bs))) as [-> ->]; [lia..|]. cbn iota.
    rewrite readLength_at by (done || lia). cbn [rbind].
    rewrite (readBytes_at _ _ _ Ha2). cbn [rbind]. rewrite length_app, length_head. f_equal. f_equal. lia.
  - apply andb_true_iff in Hf as [Hl%Z.leb_le Hf]. destruct (head_at _ _ _ _ _ Ha) as (-> & Ha1 & Ha2). cbn [rbind].
    destruct (head_byte 4 (Z.of_nat (length ts))) as [-> ->]; [lia..|]. cbn iota.
    rewrite readLength_at by (done || lia). cbn [rbind]. rewrite Nat2Z.id.
    rewrite (readElements_at bytes _ ts); [|..|done].
    + rewrite length_app, length_head. f_equal. f_equal. lia.
    + rewrite forallb_forall in Hf, Hok. rewrite Forall_forall in IH |- *. intros t Ht.
      apply IH; [done|by apply Hf, list_elem_of_In|by apply Hok, list_elem_of_In|lia].
  - apply andb_true_iff in Hf as [Hl%Z.leb_le Hf]. apply andb_true_iff in Hok as [Hkeys Hok].
    destruct (head_at _ _ _ _ _ Ha) as (-> & Ha1 & Ha2). cbn [rbind].
    destruct (head_byte 5 (Z.of_nat (length es))) as [-> ->]; [lia..|]. cbn iota.
    rewrite readLength_at by (done || lia). cbn [rbind]. rewrite Nat2Z.id.
    rewrite (readEntries_at bytes _ es []); [|..|done|done].
    + rewrite length_app, length_head. f_equal. f_equal. lia.
    + rewrite forallb_forall in Hf, Hok. setoid_rewrite andb_true_iff in Hf. rewrite Forall_forall in IH |- *.
      intros e He. pose proof (proj1 (list_elem_of_In _ _) He) as Hin. destruct (Hf e Hin) as [Htx Hfe].
      pose proof Hfe as Hfe'. destruct e as [k t]. simpl in *.
      assert (depth + 1 ≤ maxDepth o) as Hd1.
      { destruct t; cbn [fits] in Hfe'; apply andb_true_iff in Hfe' as [?%Z.leb_le _]; done. }
      destruct fuel as [|fuel]; [lia|]. split; [by apply readItem_text_at|].
      apply (IH (k, t)); [done|done|by apply (Hok (k, t))|lia].
Qed.
