(* ===== verification/CborTheorems.v ===== *)
(** The CBOR codec's theorems: the encoder's exact behaviour, the round trip
    through the decoder, the limits on everything decoded, and that neither
    direction runs out of the fuel its model carries. *)
From S2P Require Import Prelude Bytes JsValue Utf8 Cbor CborSpec.
Open Scope Z_scope.

(** ** What the decoder returns is within the limits *)

Section reader_sound.
Context (bytes : list Z) (o : ResolvedCborOptions) (Hbytes : bytes_ok bytes) (Ho : options_ok o).

Lemma readBytes_Ok n off bs off' :
  readBytes bytes n off = Ok (bs, off') →
  bytes_ok bs ∧ (off ≤ off')%nat ∧ (0 ≤ n → Z.of_nat (length bs) = n ∧ off' = (off + length bs)%nat).
Proof.
  unfold readBytes. intros H. invert_ok. zb. simplify_eq.
  split; [by apply Forall_take, Forall_drop|]. split; [lia|].
  intros Hn. rewrite length_take, length_drop. lia.
Qed.

Lemma readByte_Ok off b off' : readByte bytes off = Ok (b, off') → is_byte b ∧ off' = (off + 1)%nat.
Proof.
  unfold readByte. destruct (bytes !! off) eqn:E; [|done]. intros [= <- <-].
  split; [|done]. rewrite Forall_forall in Hbytes. apply Hbytes. by eapply list_elem_of_lookup_2.
Qed.

Lemma readArgument26_Ok off v off' : readArgument26 bytes off = Ok (v, off') → 0 ≤ v ≤ MAX_UINT32 ∧ off' = (off + 4)%nat.
Proof.
  unfold readArgument26. intros H. invert_ok. destruct a as [bs off1]. invert_ok. simplify_eq.
  apply readBytes_Ok in H0 as (Hb & _ & Hl). destruct Hl as [Hl ->]; [lia|].
  assert (length bs = 4%nat) as Hl4 by lia.
  pose proof (read_be32_range bs Hl4 Hb). unfold MAX_UINT32. split; lia.
Qed.

(** The argument is a safe integer, and its canonical form is no longer than what was read. *)
Lemma readArgument_Ok info off v off' :
  0 ≤ info → readArgument bytes info off = Ok (v, off') →
  0 ≤ v ≤ MAX_SAFE ∧ (off + length (head_arg v) ≤ off')%nat.
Proof.
  unfold readArgument. intros Hi H. unfold MAX_SAFE.
  destruct (Z.ltb_spec info 24).
  { simplify_eq. unfold head_arg. rewrite (proj2 (Z.ltb_lt v 24)) by done. simpl. lia. }
  assert (∀ v, 0 ≤ v → ((length (head_arg v) ≤ 1)%nat ∨ 0xff < v) ∧ ((length (head_arg v) ≤ 2)%nat ∨ 0xffff < v) ∧
    ((length (head_arg v) ≤ 4)%nat ∨ MAX_UINT32 < v) ∧ (length (head_arg v) ≤ 8)%nat) as Hlen.
  { intros x Hx. unfold head_arg, MAX_UINT32. range_cases; simpl; lia. }
  pose proof (Hlen v) as Hv.
  destruct (decide (info = 24)) as [->|]; [apply readByte_Ok in H as [Hb ->]; unfold is_byte in *; lia|].
  destruct (decide (info = 25)) as [->|].
  { invert_ok. destruct a as [bs off1]. invert_ok. simplify_eq.
    apply readBytes_Ok in H1 as (Hb & _ & Hl). destruct Hl as [Hl ->]; [lia|].
    destruct bs as [|b0 [|b1 [|]]]; simpl in Hl; try lia. unfold is_byte in Hb.
    decompose_Forall_hyps. simpl in *. lia. }
  destruct (decide (info = 26)) as [->|].
  { apply readArgument26_Ok in H as [Hb ->]. unfold MAX_UINT32 in *. lia. }
  destruct (decide (info = 27)) as [->|].
  { invert_ok. destruct a as [hi off1]. invert_ok. destruct a as [lo off2]. invert_ok. zb. simplify_eq.
    apply readArgument26_Ok in H1 as [H1 ->]. apply readArgument26_Ok in H as [H ->].
    unfold MAX_UINT32, UINT32_BASE in *. split; [lia|]. specialize (Hlen (hi * 0x100000000 + lo)). lia. }
  exfalso. clear -H H0 n n0 n1 n2.
  destruct (decide (info = 31)) as [->|]; [done|].
  destruct info as [|p|p]; [lia| |lia].
  do 5 (destruct p as [p|p|]; try lia; try done).
Qed.

Lemma readLength_Ok info limit e off v off' :
  0 ≤ info → readLength bytes info limit e off = Ok (v, off') →
  0 ≤ v ≤ limit ∧ (off + length (head_arg v) ≤ off')%nat.
Proof.
  unfold readLength. intros Hi H. invert_ok. destruct a as [v1 off1]. invert_ok. zb. simplify_eq.
  apply readArgument_Ok in H0; [|done]. lia.
Qed.

(** What reading one item guarantees of its result. *)
Definition item_sound (depth : Z) (off : nat) (t : tree) (off' : nat) : Prop :=
  fits o depth t = true ∧ tree_ok t = true ∧ (off + length (wire t) ≤ off')%nat.

Definition read_sound (depth : Z) (read : nat → result cbor_error (tree * nat)) : Prop :=
  ∀ off t off', read off = Ok (t, off') → item_sound depth off t off'.

Lemma read_be64_range bs : length bs = 8%nat → bytes_ok bs → 0 ≤ read_be64 bs < 2 ^ 64.
Proof.
  intros Hl Hb. unfold read_be64.
  pose proof (read_be32_range (take 4 bs) ltac:(rewrite length_take; lia) ltac:(by apply Forall_take)).
  pose proof (read_be32_range (drop 4 bs) ltac:(rewrite length_drop; lia) ltac:(by apply Forall_drop)).
  lia.
Qed.

Lemma num_of_bits_ok bits : 0 ≤ bits < 2 ^ 64 → num_ok (num_of_bits bits).
Proof.
  intros Hb. destruct (num_of_bits bits) eqn:E; try done. simpl.
  assert (bits = bits0) as <-; [|done]. revert E. unfold num_of_bits.
  repeat case_match; congruence.
Qed.

Lemma length_head_le m v : (length (head m v) ≤ 9)%nat.
Proof. rewrite length_head. unfold head_arg. range_cases; simpl; lia. Qed.

Lemma length_wire_num n : (length (wire_num n) ≤ 9)%nat.
Proof.
  destruct n as [z| | | |]; unfold wire_num; try (cbn [length]; rewrite length_be64; lia).
  destruct (0 <=? z); apply length_head_le.
Qed.

Lemma readSimple_sound depth info off t off' :
  0 ≤ info → depth ≤ maxDepth o → readSimple bytes info off = Ok (t, off') →
  item_sound depth off t (off' + 1).
Proof.
  intros Hi Hd%Z.leb_le H. unfold item_sound.
  destruct (decide (info = 20)) as [->|H20]; [injection H as <- <-; cbn; rewrite Hd; split_and!; [done..|lia]|].
  destruct (decide (info = 21)) as [->|H21]; [injection H as <- <-; cbn; rewrite Hd; split_and!; [done..|lia]|].
  destruct (decide (info = 22)) as [->|H22]; [injection H as <- <-; cbn; rewrite Hd; split_and!; [done..|lia]|].
  destruct (decide (info = 27)) as [->|H27].
  - unfold readSimple in H. invert_ok. destruct a as [bs off1]. invert_ok. simplify_eq.
    apply readBytes_Ok in H0 as (Hb & _ & Hl). destruct Hl as [Hl ->]; [lia|].
    pose proof (length_wire_num (num_of_bits (read_be64 bs))).
    cbn [fits tree_ok wire]. rewrite Hd. unfold num_fits. apply negb_false_iff in E. rewrite E.
    apply andb_false_iff in E0. rewrite bool_decide_eq_true_2 by (apply num_of_bits_ok, read_be64_range; [lia|done]).
    split_and!; [|done|lia].
    destruct E0 as [->| ->%negb_false_iff]; [done|]. by rewrite orb_true_r.
  - exfalso. unfold readSimple in H. destruct info as [|p|p]; [done| |lia].
    do 5 (destruct p as [p|p|]; try lia; try done).
Qed.

Lemma readElements_sound depth read count acc off t off' :
  read_sound depth read → readElements read count acc off = Ok (t, off') →
  ∃ ts, t = TArray (acc ++ ts) ∧ length ts = count ∧ forallb (fits o depth) ts = true ∧
    forallb tree_ok ts = true ∧ (off + length (concat (wire <$> ts)) ≤ off')%nat.
Proof.
  intros Hr. revert acc off. induction count as [|count IH]; intros acc off H; simpl in H.
  { simplify_eq. exists []. rewrite app_nil_r. split_and!; try done. simpl; lia. }
  invert_ok. destruct a as [t1 off1]. destruct (Hr _ _ _ H0) as (Hf & Ho1 & Hl).
  destruct (IH _ _ H1) as (ts & -> & <- & Hfs & Hos & Hls).
  exists (t1 :: ts). rewrite fmap_cons, concat_cons, length_app, <- app_assoc. simpl.
  rewrite Hf, Hfs, Ho1, Hos. split_and!; try done. lia.
Qed.

Lemma readEntries_sound depth read count acc off t off' :
  read_sound depth read → keys_ok (acc.*1) = true → readEntries read count acc off = Ok (t, off') →
  ∃ es es', t = TMap es ∧ es ≡ₚ acc ++ es' ∧ length es' = count ∧ keys_ok (es.*1) = true ∧
    Forall (λ e, text_fits o e.1 = true ∧ fits o depth e.2 = true ∧ tree_ok e.2 = true) es' ∧
    (off + length (concat ((λ e, wire_text e.1 ++ wire e.2) <$> es')) ≤ off')%nat.
Proof.
  intros Hr. revert acc off. induction count as [|count IH]; intros acc off Hk H; simpl in H.
  { simplify_eq. exists acc, []. rewrite app_nil_r. split_and!; try done. simpl; lia. }
  invert_ok. destruct a as [k off1]. destruct k as [| | |k| | |]; invert_ok; try done. zb.
  destruct a as [t1 off2]. destruct (Hr _ _ _ H0) as (Hf & _ & Hl). destruct (Hr _ _ _ H) as (Hf1 & Ho1 & Hl1).
  apply IH in H2 as (es & es' & -> & Hp & <- & Hkeys & Hes & Hlen); [|by apply define_prop_keys].
  exists es, ((k, t1) :: es'). split_and!; try done.
  - rewrite Hp, define_prop_Permutation. apply Permutation_middle.
  - constructor; [|done]. cbn [fits] in Hf. apply andb_true_iff in Hf as [_ Hf]. done.
  - rewrite fmap_cons, concat_cons, !length_app. cbn [wire fst snd] in *. lia.
Qed.
Lemma map_sound depth es es' v off off1 off' :
  depth ≤ maxDepth o → es ≡ₚ [] ++ es' → length es' = Z.to_nat v → 0 ≤ v ≤ maxContainerLength o →
  keys_ok (es.*1) = true →
  Forall (λ e, text_fits o e.1 = true ∧ fits o (depth + 1) e.2 = true ∧ tree_ok e.2 = true) es' →
  (off + 1 + length (head_arg v) ≤ off1)%nat →
  (off1 + length (concat ((λ e, wire_text e.1 ++ wire e.2) <$> es')) ≤ off')%nat →
  item_sound depth off (TMap es) off'.
Proof.
  intros Hd Hp Hlen Hv Hk Hes Hl1 Hl2. rewrite app_nil_l in Hp. unfold item_sound.
  assert (length es = length es') as Hee by by rewrite Hp.
  assert (length (concat ((λ e, wire_text e.1 ++ wire e.2) <$> es))
    = length (concat ((λ e, wire_text e.1 ++ wire e.2) <$> es'))) as Hcc by by rewrite Hp.
  cbn [fits tree_ok wire]. rewrite (proj2 (Z.leb_le _ _) Hd), Hk, length_app, length_head, Hcc.
  rewrite <- Hp in Hes. rewrite Forall_forall in Hes. rewrite !andb_true_iff, !forallb_forall.
  setoid_rewrite andb_true_iff. setoid_rewrite <- list_elem_of_In.
  replace (Z.of_nat (length es)) with v by lia.
  split_and!; [done|apply Z.leb_le; lia|naive_solver|done|naive_solver|lia].
Qed.

Lemma initial_info b : is_byte b → 0 ≤ Z.land b 0x1f.
Proof. intros Hb. apply Z.land_nonneg. unfold is_byte in Hb. lia. Qed.

Lemma readItem_sound fuel depth : read_sound depth (readItem bytes o fuel depth).
Proof.
  pose proof Ho as (Hob & Hoc & _).
  revert depth. induction fuel as [|fuel IH]; intros depth off t off' H; cbn [readItem] in H.
  { by destruct (_ <? _). }
  destruct (Z.ltb_spec (maxDepth o) depth) as [|Hd]; [done|].
  apply rbind_Ok in H as ([b off1] & [Hb ->]%readByte_Ok & H).
  pose proof (initial_info b Hb) as Hinfo. revert H. generalize (ushr b 5) as major.
  generalize dependent (Z.land b 0x1f). intros info Hinfo major H.
  pose proof (proj2 (Z.leb_le _ _) Hd) as Hd'. unfold item_sound.
  destruct (decide (major = 0)) as [->|].
  { invert_ok. destruct a as [v off1]. simplify_eq. apply readArgument_Ok in H0 as [Hv Hl]; [|done].
    cbn [fits tree_ok wire]. rewrite Hd'. unfold wire_num. rewrite (proj2 (Z.leb_le 0 v)), length_head by lia.
    split_and!; [|done|lia]. unfold num_fits. simpl. apply Z.leb_le. lia. }
  destruct (decide (major = 1)) as [->|].
  { invert_ok. destruct a as [v off1]. invert_ok. simplify_eq. apply readArgument_Ok in H0 as [Hv Hl]; [|done].
    apply negb_false_iff in E. cbn [fits tree_ok wire]. rewrite Hd'. unfold wire_num.
    rewrite (proj2 (Z.leb_gt 0 (-1 - v))), length_head by lia. replace (-1 - (-1 - v)) with v by lia.
    split_and!; [|done|lia]. unfold num_fits. by rewrite E. }
  destruct (decide (major = 2)) as [->|].
  { invert_ok. destruct a as [v off1]. invert_ok. destruct a as [bs off2]. invert_ok. simplify_eq.
    apply readLength_Ok in H0 as [Hv Hl]; [|done]. apply readBytes_Ok in H as (_ & _ & H). destruct H as [<- ->]; [lia|].
    cbn [fits tree_ok wire]. rewrite Hd', length_app, length_head. split_and!; [apply Z.leb_le; lia|done|lia]. }
  destruct (decide (major = 3)) as [->|].
  { invert_ok. destruct a as [v off1]. invert_ok. destruct a as [bs off2].
    destruct (utf8_decode bs) as [s|] eqn:Hs; [|done]. simplify_eq.
    apply readLength_Ok in H0 as [Hv Hl]; [|done]. apply readBytes_Ok in H as (Hbs & _ & H). destruct H as [<- ->]; [lia|].
    pose proof (utf8_decode_canonical _ _ Hbs Hs) as Hc.
    cbn [fits tree_ok wire]. unfold text_fits, wire_text. rewrite Hd', Hc, Hs, length_app, length_head.
    split_and!; [|done|lia]. rewrite bool_decide_eq_true_2, andb_true_r by done. apply Z.leb_le; lia. }
  destruct (decide (major = 4)) as [->|].
  { invert_ok. destruct a as [v off1]. invert_ok. apply readLength_Ok in H0 as [Hv Hl]; [|done].
    apply (readElements_sound (depth + 1)) in H1 as (ts & -> & Hlen & Hf & Htok & Hl2); [|apply IH].
    assert (Z.of_nat (length ts) = v) as <- by lia.
    cbn [fits tree_ok wire]. rewrite app_nil_l, Hd', Hf, Htok, length_app, length_head.
    split_and!; [|done|lia]. rewrite andb_true_r. apply Z.leb_le; lia. }
  destruct (decide (major = 5)) as [->|].
  { invert_ok. destruct a as [v off1]. invert_ok. apply readLength_Ok in H0 as [Hv Hl]; [|done].
    apply (readEntries_sound (depth + 1)) in H1 as (es & es' & -> & Hp & Hlen & Hk & Hes & Hl2); [|apply IH|done].
    by apply (map_sound depth es es' v off off1). }
  destruct (decide (major = 7)) as [->|].
  { apply (readSimple_sound depth) in H as (? & ? & ?); [|done..]. split_and!; [done..|lia]. }
  exfalso. destruct major as [|p|p]; [done| |done].
  do 3 (destruct p as [p|p|]; try lia; try done).
Qed.
End reader_sound.

(** ** Neither direction runs out of fuel or of buffer *)

(** A writer step that ends in a proper writer or in an error of the source. *)
Definition graceful (m : result cbor_error CborWriter) : Prop :=
  match m with
  | Ok w => w_ok w
  | Err e => e ≠ EncodeFuel ∧ e ≠ BufferRange
  end.

Lemma graceful_bind m k : graceful m → (∀ w, w_ok w → graceful (k w)) → graceful (rbind m k).
Proof. destruct m; simpl; auto. Qed.

Lemma writes_graceful op bs w : writes op bs → w_ok w → graceful (op w).
Proof.
  intros H Hw. destruct (H w Hw) as [H1 H2]. unfold room in *.
  destruct (decide (Z.of_nat (offset w + length bs) ≤ w_maxByteLength w)) as [Hr|Hr].
  - destruct (H1 Hr) as (w' & -> & He & _). done.
  - by rewrite H2.
Qed.

Lemma writeArgument_graceful m v w : 0 ≤ m < 8 → 0 ≤ v ≤ MAX_UINT32 → w_ok w → graceful (writeArgument w m v).
Proof.
  intros Hm Hv Hw. apply (writes_graceful (λ w, writeArgument w m v) (head m v)); [|done].
  apply writeArgument_writes; [done|]. unfold MAX_UINT32, MAX_SAFE in *. lia.
Qed.

Lemma encodeText_graceful o s w : options_ok o → w_ok w → graceful (encodeText w s o).
Proof.
  intros Ho Hw. destruct (text_fits o s) eqn:E.
  { apply (writes_graceful (λ w, encodeText w s o) _ _ (writeText_writes o s Ho E) Hw). }
  revert E. unfold encodeText, text_fits. rewrite Z.leb_antisym. destruct (_ <? _); [done|]. simpl.
  by intros ->.
Qed.

Lemma encodeNumber_graceful n w : w_ok w → graceful (encodeNumber w n).
Proof.
  intros Hw. destruct (num_fits n) eqn:E.
  { apply (writes_graceful (λ w, encodeNumber w n) _ _ (encodeNumber_writes n E) Hw). }
  revert E. unfold encodeNumber, num_fits. destruct n; simpl; try done. by intros ->.
Qed.

Lemma encodeElements_graceful encode slots w :
  (∀ w v, w_ok w → graceful (encode w v)) → w_ok w → graceful (encodeElements encode w slots).
Proof.
  intros He. revert w. induction slots as [|[|a v] slots IH]; intros w Hw; simpl; [done..|].
  destruct v; simpl; try done; apply graceful_bind; auto.
Qed.

Lemma encodeFields_graceful o encode entries w :
  options_ok o → (∀ w v, w_ok w → graceful (encode w v)) → w_ok w →
  graceful (encodeFields o encode w entries).
Proof.
  intros Ho He. revert w. induction entries as [|[k v] entries IH]; intros w Hw; simpl; [done|].
  apply graceful_bind; [by apply encodeText_graceful|]. intros w1 Hw1. apply graceful_bind; auto.
Qed.

Lemma encodeValue_graceful h o fuel depth anc v w :
  options_ok o → maxDepth o < depth + Z.of_nat fuel → w_ok w →
  graceful (encodeValue fuel h w v o depth anc).
Proof.
  intros Ho. pose proof Ho as (Hb & Hc & _). revert depth anc v w.
  induction fuel as [|fuel IH]; intros depth anc v w Hf Hw; cbn [encodeValue].
  { rewrite (proj2 (Z.ltb_lt _ _)) by lia. done. }
  destruct (_ <? depth); [done|].
  destruct v as [| |b|n|s|l|ty]; try done.
  - by apply (writes_graceful _ _ _ (writeByte_writes 0xf6)).
  - by apply (writes_graceful _ _ _ (writeByte_writes (if b then 0xf5 else 0xf4))).
  - by apply encodeNumber_graceful.
  - by apply encodeText_graceful.
  - destruct (h !! l) as [[bs|std syms names slots|proto syms props]|]; [..|done].
    + destruct (Z.ltb_spec (maxByteLength o) (Z.of_nat (length bs))); [done|].
      apply graceful_bind; [apply writeArgument_graceful; [lia|lia|done]|].
      intros w1 Hw1. by apply (writes_graceful _ _ _ (writeBytes_writes bs)).
    + case_bool_decide; [done|]. destruct (Z.ltb_spec (maxContainerLength o) (Z.of_nat (length slots))); [done|].
      apply graceful_bind; [apply writeArgument_graceful; [lia|lia|done]|].
      intros w1 Hw1. apply encodeElements_graceful; [|done]. intros w2 v Hw2. apply IH; [lia|done].
    + destruct (isPlainObject proto); [|done]. simpl. do 2 (case_bool_decide; [done|]).
      destruct (Z.ltb_spec (maxContainerLength o) (Z.of_nat (length (List.filter defined (own_entries props))))); [done|].
      apply graceful_bind; [apply writeArgument_graceful; [lia|lia|done]|].
      intros w1 Hw1. apply encodeFields_graceful; [done| |done]. intros w2 v Hw2. apply IH; [lia|done].
Qed.

Definition no_fuel {A} (m : result cbor_error A) : Prop := m ≠ Err DecodeFuel.

Lemma no_fuel_bind {A B} (m : result cbor_error A) (k : A → result cbor_error B) :
  no_fuel m → (∀ a, no_fuel (k a)) → no_fuel (rbind m k).
Proof. destruct m as [a|e]; simpl; [naive_solver|]. unfold no_fuel. naive_solver. Qed.

Lemma readBytes_no_fuel bytes n off : no_fuel (readBytes bytes n off).
Proof. unfold readBytes. by case_match. Qed.

Lemma readArgument_no_fuel bytes info off : no_fuel (readArgument bytes info off).
Proof.
  unfold readArgument, readArgument26, readByte.
  repeat first [done | apply no_fuel_bind; intros; [apply readBytes_no_fuel|..] | apply no_fuel_bind; intros | case_match].
Qed.

Lemma readLength_no_fuel bytes i l e off : e ≠ DecodeFuel → no_fuel (readLength bytes i l e off).
Proof.
  intros He. unfold readLength. case_match; [done|]. apply no_fuel_bind; [apply readArgument_no_fuel|].
  intros [v ?]. case_match; [|done]. unfold no_fuel. congruence.
Qed.

Lemma readElements_no_fuel read count acc off :
  (∀ off, no_fuel (read off)) → no_fuel (readElements read count acc off).
Proof.
  intros Hr. revert acc off. induction count as [|count IH]; intros acc off; simpl; [done|].
  apply no_fuel_bind; [done|]. intros [t off1]. apply IH.
Qed.

Lemma readEntries_no_fuel read count acc off :
  (∀ off, no_fuel (read off)) → no_fuel (readEntries read count acc off).
Proof.
  intros Hr. revert acc off. induction count as [|count IH]; intros acc off; simpl; [done|].
  apply no_fuel_bind; [done|]. intros [k off1]. destruct k; try done. case_bool_decide; [done|].
  apply no_fuel_bind; [done|]. intros [t off2]. apply IH.
Qed.

Lemma readSimple_no_fuel bytes info off : no_fuel (readSimple bytes info off).
Proof.
  unfold readSimple. repeat case_match; try done.
  apply no_fuel_bind; [apply readBytes_no_fuel|]. intros [bs off1]. by repeat case_match.
Qed.

Create HintDb fuel.
#[export] Hint Resolve readBytes_no_fuel readArgument_no_fuel readLength_no_fuel readElements_no_fuel
  readEntries_no_fuel readSimple_no_fuel : fuel.

Lemma readItem_no_fuel bytes o fuel depth off :
  maxDepth o < depth + Z.of_nat fuel → no_fuel (readItem bytes o fuel depth off).
Proof.
  revert depth off. induction fuel as [|fuel IH]; intros depth off Hf; cbn [readItem].
  { by rewrite (proj2 (Z.ltb_lt _ _)) by lia. }
  assert (∀ off, no_fuel (readItem bytes o fuel (depth + 1) off)) as IH' by (intros; apply IH; lia).
  case_match; [done|]. apply no_fuel_bind; [unfold readByte; by case_match|]. intros [b off1].
  generalize (ushr b 5) as major. intros major.
  repeat case_match; try done; auto with fuel.
  all: apply no_fuel_bind; [auto with fuel|intros [v off2]]; auto with fuel; try done.
  all: try (by case_match).
  all: apply no_fuel_bind; [auto with fuel|intros [bs off3]]; by repeat case_match.
Qed.

(** ** The theorems *)

Lemma resolveOptions_Err options e : resolveOptions options = Err e → ∃ name, e = OptionRange name.
Proof.
  unfold resolveOptions, resolveLimit. repeat case_match; simpl; naive_solver.
Qed.

Lemma new_CborWriter_ok n : 0 ≤ n → w_ok (new_CborWriter n) ∧ finish (new_CborWriter n) = [].
Proof.
  intros Hn. unfold w_ok, new_CborWriter, finish; simpl. rewrite length_new_bytes.
  split; [lia|done].
Qed.

(** Data read off a heap of the runtime is data the decoder can return. *)
Lemma denotes_tree_ok h v t : heap_ok h → val_ok v → denotes h v t → tree_ok t = true.
Proof.
  intros Hh. revert v. induction t as [|b|n|s|bs|ts IH|es IH] using tree_ind'; intros v Hv Hd; try done.
  - inversion Hd; subst. by apply bool_decide_eq_true_2.
  - inversion Hd as [| | | | |l std syms names slots ts' Hl Hts|]; subst. cbn [tree_ok].
    destruct (Hh _ _ Hl) as [_ Hvs]. simpl in Hvs. apply forallb_forall. intros t Ht%list_elem_of_In.
    rewrite Forall_forall in IH. rewrite Forall_forall in Hvs. apply list_elem_of_lookup in Ht as [i Hi].
    destruct (Forall2_lookup_r _ _ _ _ _ Hts Hi) as (s & Hs & a & v & -> & _ & Hdv).
    eapply IH; [by eapply list_elem_of_lookup_2| |done].
    apply (Hvs (Slot a v)). by eapply list_elem_of_lookup_2.
  - inversion Hd as [| | | | | |l proto syms props es' Hl Hp Hs Hes]; subst. cbn [tree_ok].
    destruct (Hh _ _ Hl) as [Hkeys Hvs]. simpl in Hkeys, Hvs. apply andb_true_iff. split.
    + assert (es.*1 = (filter (λ kv, kv.2 ≠ JUndefined) (own_entries props)).*1) as ->.
      { clear -Hes. induction Hes as [|? ? ? ? [Hk _] ? IH]; [done|]. rewrite !fmap_cons. by rewrite Hk, IH. }
      eapply keys_ok_sublist; [|done].
      etrans; [apply fmap_sublist, sublist_filter|].
      unfold own_entries. rewrite <- list_fmap_compose. apply fmap_sublist, sublist_filter.
    + apply forallb_forall. intros e He%list_elem_of_In. rewrite Forall_forall in IH. rewrite Forall_forall in Hvs.
      apply list_elem_of_lookup in He as [i Hi].
      destruct (Forall2_lookup_r _ _ _ _ _ Hes Hi) as (kv & Hkv & _ & Hdv).
      eapply IH; [by eapply list_elem_of_lookup_2| |done].
      apply list_elem_of_lookup_2, list_elem_of_filter in Hkv as [_ Hkv].
      apply list_elem_of_fmap in Hkv as (p & -> & [_ Hp']%list_elem_of_filter). by apply Hvs.
Qed.

(** The encoder's behaviour without limits of fuel: shared by the theorems below. *)
Lemma encodeCbor_iff h v options bs :
  encodeCbor h v options = Ok bs ↔
  ∃ o t, resolveOptions options = Ok o ∧ denotes h v t ∧ fits o 0 t = true ∧
    bs = wire t ∧ Z.of_nat (length bs) ≤ maxByteLength o.
Proof.
  unfold encodeCbor. split.
  - intros (o & Ho & H)%rbind_Ok. exists o. pose proof (resolveOptions_ok _ _ Ho) as Hok.
    apply rbind_Ok in H as (w & Hw & [= <-]). destruct (new_CborWriter_ok (maxByteLength o)) as [Hn Hn0]; [apply Hok|].
    destruct (encodeValue_sound h o _ 0 ∅ Hok _ _ _ Hn Hw) as (t & Hd & Hf & He).
    exists t. destruct He as (Hw' & He & Hm). rewrite Hn0 in He. split_and!; try done.
    rewrite length_finish by done. destruct Hw' as [H1 H2]. rewrite Hm in H2. simpl in H2. lia.
  - intros (o & t & Ho & Hd & Hf & -> & Hl). rewrite Ho. cbn [rbind].
    pose proof (resolveOptions_ok _ _ Ho) as Hok. destruct (new_CborWriter_ok (maxByteLength o)) as [Hn Hn0]; [apply Hok|].
    destruct (encodeValue_writes h o t (Z.to_nat (maxDepth o) + 1) v 0 ∅ Hok Hd Hf) with (new_CborWriter (maxByteLength o))
      as [H1 _]; [destruct Hok as (_ & _ & ?); lia|intros ? []%elem_of_empty|done|].
    destruct H1 as (w & -> & He); [unfold room; simpl; lia|]. cbn [rbind]. destruct He as (_ & -> & _). by rewrite Hn0.
Qed.

Lemma decodeCbor_wire options o t :
  resolveOptions options = Ok o → fits o 0 t = true → tree_ok t = true →
  Z.of_nat (length (wire t)) ≤ maxByteLength o → decodeCbor (wire t) options = Ok t.
Proof.
  intros Ho Hf Ht Hl. unfold decodeCbor. rewrite Ho. cbn [rbind]. rewrite (proj2 (Z.ltb_ge _ _) Hl).
  pose proof (resolveOptions_ok _ _ Ho) as Hok. unfold decode.
  rewrite (readItem_at _ o t (Z.to_nat (maxDepth o) + 1) 0); [|done..| |].
  - cbn [rbind]. by rewrite Nat.add_0_l, Nat.eqb_refl.
  - destruct Hok as (_ & _ & ?). lia.
  - exists [], []. by rewrite app_nil_r.
Qed.

(** Encoding is exact.  [encodeCbor] returns bytes if and only if the options
    are valid and the value is plain data within the depth, container, text and
    byte limits whose canonical encoding is within the byte limit, and the bytes
    are that encoding. *)
Theorem encodeCbor_spec h v options bs :
  encodeCbor h v options = Ok bs ↔
  ∃ o t, resolveOptions options = Ok o ∧ denotes h v t ∧ fits o 0 t = true ∧
    bs = wire t ∧ Z.of_nat (length bs) ≤ maxByteLength o.
Proof. apply encodeCbor_iff. Qed.

(** C2: Round trip.  Whatever [encodeCbor] returns for a value of the runtime,
    [decodeCbor] under the same options turns back into that value's data. *)
Theorem cbor_roundtrip h v options bs :
  heap_ok h → val_ok v → encodeCbor h v options = Ok bs →
  ∃ t, denotes h v t ∧ decodeCbor bs options = Ok t.
Proof.
  intros Hh Hv (o & t & Ho & Hd & Hf & -> & Hl)%encodeCbor_iff. exists t. split; [done|].
  eapply decodeCbor_wire; [done..| |done]. by eapply denotes_tree_ok.
Qed.

Definition ex_heap : heap :=
  {[ 1%positive := OObject ObjectPrototype []
       [mkProp (js_lit "a") true false (JNumber (NInt (-300)));
        mkProp (js_lit "u") true false JUndefined;
        mkProp (js_lit "b") true false (JRef 2)];
     2%positive := OArray true 0 0 [Slot false (JBool true); Slot false (JRef 3); Slot false (JRef 3)];
     3%positive := OBytes [1; 2] ]}.

Definition ex_bytes : list Z := [162; 97; 97; 57; 1; 43; 97; 98; 131; 245; 66; 1; 2; 66; 1; 2].

Lemma cbor_roundtrip_witness :
  ∃ t, denotes ex_heap (JRef 1) t ∧ decodeCbor ex_bytes None = Ok t.
Proof.
  apply (cbor_roundtrip ex_heap (JRef 1) None ex_bytes); [decide_now|done|vm_compute; reflexivity].
Defined.

(** Decoding accepts only data within the limits, and is normalising: data
    returned for any byte string is runtime data within the limits, its
    canonical encoding is no longer than the input, and decodes to the same data. *)
Theorem decodeCbor_bounded bytes options t :
  bytes_ok bytes → decodeCbor bytes options = Ok t →
  ∃ o, resolveOptions options = Ok o ∧ fits o 0 t = true ∧ tree_ok t = true ∧
    (length (wire t) ≤ length bytes)%nat ∧ Z.of_nat (length bytes) ≤ maxByteLength o ∧
    decodeCbor (wire t) options = Ok t.
Proof.
  intros Hb H. unfold decodeCbor in H. apply rbind_Ok in H as (o & Ho & H). exists o.
  pose proof (resolveOptions_ok _ _ Ho) as Hok. destruct (Z.ltb_spec (maxByteLength o) (Z.of_nat (length bytes))); [done|].
  unfold decode in H. invert_ok. destruct a as [t' off]. invert_ok. zb. subst.
  destruct (readItem_sound bytes o Hb Hok _ _ _ _ _ H1) as (Hf & Ht & Hl).
  split_and!; try done. eapply decodeCbor_wire; [done..|lia].
Qed.

(** A non-canonical input: the length of the text in a two-byte head. *)
Lemma decodeCbor_bounded_witness :
  ∃ o, resolveOptions None = Ok o ∧ fits o 0 (TText (js_lit "hi")) = true ∧
    tree_ok (TText (js_lit "hi")) = true ∧
    (length (wire (TText (js_lit "hi"))) ≤ length [0x79; 0; 2; 104; 105])%nat ∧
    Z.of_nat (length [0x79; 0; 2; 104; 105]) ≤ maxByteLength o ∧
    decodeCbor (wire (TText (js_lit "hi"))) None = Ok (TText (js_lit "hi")).
Proof.
  apply (decodeCbor_bounded [0x79; 0; 2; 104; 105] None); [decide_now|vm_compute; reflexivity].
Defined.

(** The codec is total on every heap, cyclic ones included, and on every
    input: the recursion bound of either direction is never what stops it, and
    the encoder's buffer is always large enough for the bytes it writes. *)
Theorem cbor_total h v bytes options :
  encodeCbor h v options ≠ Err EncodeFuel ∧ encodeCbor h v options ≠ Err BufferRange ∧
  decodeCbor bytes options ≠ Err DecodeFuel.
Proof.
  unfold encodeCbor, decodeCbor.
  destruct (resolveOptions options) as [o|e] eqn:Ho; cbn [rbind].
  - pose proof (resolveOptions_ok _ _ Ho) as Hok. pose proof Hok as (Hb & _ & Hd).
    pose proof (encodeValue_graceful h o (Z.to_nat (maxDepth o) + 1) 0 ∅ v _ Hok ltac:(lia)
      (proj1 (new_CborWriter_ok _ (proj1 Hb)))) as Hg.
    assert (decode bytes o ≠ Err DecodeFuel) as Hdec.
    { apply (no_fuel_bind _ _ (readItem_no_fuel _ o (Z.to_nat (maxDepth o) + 1) 0 0 ltac:(lia))).
      intros [t off]. by case_match. }
    destruct (encodeValue _ _ _ _ _ _ _) as [w|e]; cbn [rbind graceful] in *; (split_and!; [naive_solver..|by case_match]).
  - destruct (resolveOptions_Err _ _ Ho) as [n ->]. done.
Qed.
