(* ===== verification/Schemas.v ===== *)
(** The message schemas of the wire protocol: [cli/packages/protocol/src/schemas.ts].

    A [schema] is the expression the source builds with typebox's [Type]
    builders; each schema of the source is a definition here.  [conforms] is the
    JSON-Schema reading of such an expression on plain data: what the validator
    is documented to accept (see [Codec], where the validator itself is a
    parameter). *)
From S2P Require Import Prelude Bytes JsValue.
Open Scope Z_scope.

Inductive literal :=
| LStr (s : string)
| LNum (z : Z)
| LBool (b : bool).

#[export] Instance literal_eq_dec : EqDecision literal.
Proof. solve_decision. Defined.

(** A property is optional when wrapped in [Type.Optional]. *)
Inductive schema :=
| SNull
| SBoolean
| SNumber (minimum : option Z)
| SInteger (minimum : option Z)
| SString (minLength : nat)
| SLiteral (l : literal)
| SArray (items : schema) (minItems : nat)
| SUnion (variants : list schema)
| SObject (properties : list (string * (bool * schema)))   (* additionalProperties: false *)
| SJson.                                                   (* the cyclic JsonValue *)

Notation "k '::=' s" := (k%string, (false, s)) (at level 60).
Notation "k '?:=' s" := (k%string, (true, s)) (at level 60).
Notation lit s := (SLiteral (LStr s%string)).

Definition PROTOCOL_VERSION : Z := 1.

Definition IdSchema := SString 1.
Definition TimestampSchema := SInteger (Some 0).
Definition StrictObject (properties : list (string * (bool * schema))) : schema := SObject properties.
Definition JsonValueSchema := SJson.

Definition ThinkingLevelSchema :=
  SUnion [lit "off"; lit "minimal"; lit "low"; lit "medium"; lit "high"; lit "xhigh"; lit "max"].

Definition SessionPhaseSchema :=
  SUnion [lit "idle"; lit "turn"; lit "compaction"; lit "branch_summary"; lit "retry"].

Definition ModelRefSchema := StrictObject ["provider" ::= IdSchema; "id" ::= IdSchema].

Definition ModelCostSchema := StrictObject [
  "input" ::= SNumber (Some 0);
  "output" ::= SNumber (Some 0);
  "cacheRead" ::= SNumber (Some 0);
  "cacheWrite" ::= SNumber (Some 0)].

Definition ModelMetadataSchema := StrictObject [
  "provider" ::= IdSchema;
  "id" ::= IdSchema;
  "name" ::= SString 1;
  "api" ::= IdSchema;
  "reasoning" ::= SBoolean;
  "input" ::= SArray (SUnion [lit "text"; lit "image"]) 0;
  "contextWindow" ::= SInteger (Some 1);
  "maxTokens" ::= SInteger (Some 1);
  "cost" ::= ModelCostSchema;
  "supportedThinkingLevels" ::= SArray ThinkingLevelSchema 1;
  "authenticated" ::= SBoolean].

Definition TextContentSchema := StrictObject ["type" ::= lit "text"; "text" ::= SString 0].
Definition ThinkingContentSchema := StrictObject [
  "type" ::= lit "thinking"; "thinking" ::= SString 0; "redacted" ?:= SBoolean].
Definition ImageContentSchema := StrictObject [
  "type" ::= lit "image"; "data" ::= SString 0; "mimeType" ::= SString 1].
Definition ToolCallContentSchema := StrictObject [
  "type" ::= lit "toolCall"; "toolCallId" ::= IdSchema; "toolName" ::= IdSchema;
  "input" ::= JsonValueSchema].
Definition UserContentSchema := SUnion [TextContentSchema; ImageContentSchema].
Definition AssistantContentSchema :=
  SUnion [TextContentSchema; ThinkingContentSchema; ToolCallContentSchema].
Definition ToolContentSchema := SUnion [TextContentSchema; ImageContentSchema].

Definition UsageSchema := StrictObject [
  "input" ::= SInteger (Some 0);
  "output" ::= SInteger (Some 0);
  "cacheRead" ::= SInteger (Some 0);
  "cacheWrite" ::= SInteger (Some 0);
  "reasoning" ?:= SInteger (Some 0);
  "totalTokens" ::= SInteger (Some 0);
  "cost" ::= StrictObject [
    "input" ::= SNumber (Some 0);
    "output" ::= SNumber (Some 0);
    "cacheRead" ::= SNumber (Some 0);
    "cacheWrite" ::= SNumber (Some 0);
    "total" ::= SNumber (Some 0)]].

Definition UserTranscriptItemSchema := StrictObject [
  "id" ::= IdSchema; "role" ::= lit "user"; "content" ::= SArray UserContentSchema 0;
  "timestamp" ::= TimestampSchema].

Definition AssistantTranscriptItemProperties := [
  "id" ::= IdSchema;
  "role" ::= lit "assistant";
  "content" ::= SArray AssistantContentSchema 0;
  "model" ::= ModelRefSchema;
  "responseModel" ?:= SString 1;
  "usage" ?:= UsageSchema;
  "timestamp" ::= TimestampSchema].
Definition StreamingAssistantTranscriptItemSchema :=
  StrictObject (AssistantTranscriptItemProperties ++ ["status" ::= lit "streaming"]).
Definition CompleteAssistantTranscriptItemSchema :=
  StrictObject (AssistantTranscriptItemProperties ++ [
    "status" ::= lit "complete";
    "stopReason" ::= SUnion [lit "stop"; lit "length"; lit "toolUse"]]).
Definition ErrorAssistantTranscriptItemSchema :=
  StrictObject (AssistantTranscriptItemProperties ++ [
    "status" ::= lit "error"; "stopReason" ::= lit "error"; "errorMessage" ?:= SString 1]).
Definition AbortedAssistantTranscriptItemSchema :=
  StrictObject (AssistantTranscriptItemProperties ++ [
    "status" ::= lit "aborted"; "stopReason" ::= lit "aborted"; "errorMessage" ?:= SString 0]).
Definition AssistantTranscriptItemSchema := SUnion [
  StreamingAssistantTranscriptItemSchema; CompleteAssistantTranscriptItemSchema;
  ErrorAssistantTranscriptItemSchema; AbortedAssistantTranscriptItemSchema].

Definition ToolTranscriptItemProperties := [
  "id" ::= IdSchema;
  "role" ::= lit "tool";
  "toolCallId" ::= IdSchema;
  "toolName" ::= IdSchema;
  "input" ::= JsonValueSchema;
  "content" ::= SArray ToolContentSchema 0;
  "details" ?:= JsonValueSchema;
  "usage" ?:= UsageSchema;
  "timestamp" ::= TimestampSchema].
Definition RunningToolTranscriptItemSchema :=
  StrictObject (ToolTranscriptItemProperties ++ [
    "status" ::= lit "running"; "isError" ::= SLiteral (LBool false)]).
Definition CompleteToolTranscriptItemSchema :=
  StrictObject (ToolTranscriptItemProperties ++ [
    "status" ::= lit "complete"; "isError" ::= SLiteral (LBool false)]).
Definition ErrorToolTranscriptItemSchema :=
  StrictObject (ToolTranscriptItemProperties ++ [
    "status" ::= lit "error"; "isError" ::= SLiteral (LBool true)]).
Definition ToolTranscriptItemSchema := SUnion [
  RunningToolTranscriptItemSchema; CompleteToolTranscriptItemSchema; ErrorToolTranscriptItemSchema].
Definition TranscriptItemSchema := SUnion [
  UserTranscriptItemSchema; AssistantTranscriptItemSchema; ToolTranscriptItemSchema].

Definition TranscriptProgressSchema := SUnion [
  StrictObject ["type" ::= lit "item_started"; "item" ::= TranscriptItemSchema];
  StrictObject [
    "type" ::= lit "assistant_delta";
    "messageId" ::= IdSchema;
    "contentIndex" ::= SInteger (Some 0);
    "kind" ::= SUnion [lit "text"; lit "thinking"; lit "toolCall"];
    "delta" ::= SString 0];
  StrictObject [
    "type" ::= lit "item_updated";
    "item" ::= SUnion [AssistantTranscriptItemSchema; ToolTranscriptItemSchema]];
  StrictObject [
    "type" ::= lit "item_finished";
    "item" ::= SUnion [
      CompleteAssistantTranscriptItemSchema; ErrorAssistantTranscriptItemSchema;
      AbortedAssistantTranscriptItemSchema; CompleteToolTranscriptItemSchema;
      ErrorToolTranscriptItemSchema]]].

Definition SessionMetadataSchema := StrictObject [
  "id" ::= IdSchema;
  "createdAt" ::= TimestampSchema;
  "updatedAt" ?:= TimestampSchema;
  "parentSessionId" ?:= IdSchema;
  "sessionName" ?:= SString 0;
  "cwd" ?:= SString 1].
Definition SessionSnapshotSchema := StrictObject [
  "id" ::= IdSchema;
  "name" ?:= SString 0;
  "cwd" ::= SString 1;
  "createdAt" ::= TimestampSchema;
  "updatedAt" ::= TimestampSchema;
  "phase" ::= SessionPhaseSchema;
  "model" ::= ModelRefSchema;
  "thinkingLevel" ::= ThinkingLevelSchema;
  "attached" ::= SBoolean;
  "locked" ::= SBoolean;
  "revision" ::= SInteger (Some 0);
  "transcript" ::= SArray TranscriptItemSchema 0;
  "queuedSteer" ::= SArray UserTranscriptItemSchema 0;
  "queuedSteerCount" ::= SInteger (Some 0)].

Definition ServerSnapshotSchema := StrictObject [
  "serverId" ::= IdSchema;
  "protocolVersion" ::= SLiteral (LNum PROTOCOL_VERSION);
  "revision" ::= SInteger (Some 0);
  "sessions" ::= SArray SessionMetadataSchema 0;
  "models" ::= SArray ModelMetadataSchema 0].

Definition ProtocolErrorCodeSchema := SUnion [
  lit "version"; lit "busy"; lit "session_locked"; lit "not_found"; lit "invalid_request";
  lit "not_implemented"; lit "internal_error"].
Definition ProtocolErrorSchema := StrictObject [
  "code" ::= ProtocolErrorCodeSchema; "message" ::= SString 0; "details" ?:= JsonValueSchema].

Definition PromptPayloadProperties := ["sessionId" ::= IdSchema; "text" ::= SString 0].

Definition ListCommandSchema := StrictObject ["command" ::= lit "list"].
Definition CreateCommandSchema := StrictObject [
  "command" ::= lit "create";
  "cwd" ?:= SString 1;
  "name" ?:= SString 0;
  "model" ?:= ModelRefSchema;
  "thinkingLevel" ?:= ThinkingLevelSchema].
Definition AttachCommandSchema := StrictObject ["command" ::= lit "attach"; "sessionId" ::= IdSchema].
Definition DetachCommandSchema := StrictObject ["command" ::= lit "detach"; "sessionId" ::= IdSchema].
Definition PromptCommandSchema := StrictObject (("command" ::= lit "prompt") :: PromptPayloadProperties).
Definition SteerCommandSchema := StrictObject (("command" ::= lit "steer") :: PromptPayloadProperties).
Definition AbortCommandSchema := StrictObject ["command" ::= lit "abort"; "sessionId" ::= IdSchema].
Definition SetModelCommandSchema := StrictObject [
  "command" ::= lit "set_model"; "sessionId" ::= IdSchema; "model" ::= ModelRefSchema].
Definition SetThinkingCommandSchema := StrictObject [
  "command" ::= lit "set_thinking"; "sessionId" ::= IdSchema; "thinkingLevel" ::= ThinkingLevelSchema].
Definition CommandSchema := SUnion [
  ListCommandSchema; CreateCommandSchema; AttachCommandSchema; DetachCommandSchema;
  PromptCommandSchema; SteerCommandSchema; AbortCommandSchema; SetModelCommandSchema;
  SetThinkingCommandSchema].

(** The seven results that carry a session snapshot. *)
Definition sessionResult (command : string) : schema :=
  StrictObject ["command" ::= lit command; "session" ::= SessionSnapshotSchema].
Definition CreateResultSchema := sessionResult "create".
Definition AttachResultSchema := sessionResult "attach".
Definition PromptResultSchema := sessionResult "prompt".
Definition SteerResultSchema := sessionResult "steer".
Definition AbortResultSchema := sessionResult "abort".
Definition SetModelResultSchema := sessionResult "set_model".
Definition SetThinkingResultSchema := sessionResult "set_thinking".

Definition ListResultSchema := StrictObject [
  "command" ::= lit "list"; "sessions" ::= SArray SessionMetadataSchema 0].
Definition DetachResultSchema := StrictObject ["command" ::= lit "detach"; "sessionId" ::= IdSchema].
Definition CommandResultSchema := SUnion [
  ListResultSchema; CreateResultSchema; AttachResultSchema; DetachResultSchema; PromptResultSchema;
  SteerResultSchema; AbortResultSchema; SetModelResultSchema; SetThinkingResultSchema].

Definition ClientHelloSchema := StrictObject ["type" ::= lit "hello"; "version" ::= SInteger (Some 0)].
Definition RequestEnvelopeSchema := StrictObject [
  "type" ::= lit "request"; "id" ::= IdSchema; "request" ::= CommandSchema].
Definition ClientMessageSchema := SUnion [ClientHelloSchema; RequestEnvelopeSchema].

Definition ServerEventSchema := SUnion [
  StrictObject ["type" ::= lit "server_snapshot"; "snapshot" ::= ServerSnapshotSchema];
  StrictObject ["type" ::= lit "session_snapshot"; "snapshot" ::= SessionSnapshotSchema];
  StrictObject [
    "type" ::= lit "session_progress"; "sessionId" ::= IdSchema;
    "progress" ::= TranscriptProgressSchema];
  StrictObject ["type" ::= lit "session_removed"; "sessionId" ::= IdSchema]].

Definition ServerHelloSchema := StrictObject [
  "type" ::= lit "hello";
  "version" ::= SLiteral (LNum PROTOCOL_VERSION);
  "connectionId" ::= IdSchema;
  "snapshot" ::= ServerSnapshotSchema].
Definition ServerHelloErrorSchema := StrictObject [
  "type" ::= lit "hello_error"; "error" ::= ProtocolErrorSchema].
Definition ResponseEnvelopeSchema := SUnion [
  StrictObject [
    "type" ::= lit "response"; "id" ::= IdSchema; "ok" ::= SLiteral (LBool true);
    "result" ::= CommandResultSchema];
  StrictObject [
    "type" ::= lit "response"; "id" ::= IdSchema; "ok" ::= SLiteral (LBool false);
    "error" ::= ProtocolErrorSchema]].
Definition EventEnvelopeSchema := StrictObject ["type" ::= lit "event"; "event" ::= ServerEventSchema].
Definition ServerMessageSchema := SUnion [
  ServerHelloSchema; ServerHelloErrorSchema; ResponseEnvelopeSchema; EventEnvelopeSchema].

(** ** The JSON-Schema reading *)

(** The largest integer not above a finite fraction. *)
Definition frac_floor (bits : Z) : Z :=
  let e := Z.land (Z.shiftr bits 52) 0x7ff in
  let m := Z.land bits (Z.ones 52) in
  let mant := if e =? 0 then m else m + 2 ^ 52 in
  let exp := if e =? 0 then -1074 else e - 1075 in
  (if Z.testbit bits 63 then - mant else mant) / 2 ^ (- exp).

Definition num_at_least (minimum : option Z) (n : jsnum) : bool :=
  match minimum, n with
  | None, _ => true
  | Some m, NInt z => m <=? z
  | Some m, NNegZero => m <=? 0
  | Some m, NFrac bits => m <=? frac_floor bits
  | Some _, _ => false
  end.

Definition assoc {A} (k : jsstr) (es : list (jsstr * A)) : option A :=
  (λ ie, ie.2.2) <$> list_find (λ e, e.1 = k) es.

(** Data without byte strings and with finite numbers. *)
Fixpoint is_json (t : tree) : bool :=
  match t with
  | TNull | TBool _ | TText _ => true
  | TNum n => isFinite n
  | TBytes _ => false
  | TArray ts => forallb is_json ts
  | TMap es => forallb (λ e, is_json e.2) es
  end.

Definition literal_matches (l : literal) (t : tree) : bool :=
  match l, t with
  | LStr s, TText s' => bool_decide (s' = js_lit s)
  | LNum z, TNum n => bool_decide (n = NInt z)
  | LBool b, TBool b' => Bool.eqb b b'
  | _, _ => false
  end.

Fixpoint conforms (s : schema) (t : tree) : bool :=
  match s, t with
  | SNull, TNull => true
  | SBoolean, TBool _ => true
  | SNumber minimum, TNum n => isFinite n && num_at_least minimum n
  | SInteger minimum, TNum n => isInteger n && num_at_least minimum n
  | SString minLength, TText s => (minLength <=? length s)%nat
  | SLiteral l, t => literal_matches l t
  | SArray items minItems, TArray ts => (minItems <=? length ts)%nat && forallb (conforms items) ts
  | SUnion variants, t => existsb (λ s, conforms s t) variants
  | SObject properties, TMap es =>
      forallb (λ p, match assoc (js_lit p.1) es with
                    | Some t => conforms p.2.2 t
                    | None => p.2.1
                    end) properties &&
      forallb (λ e, bool_decide (e.1 ∈ (λ p, js_lit p.1) <$> properties)) es
  | SJson, t => is_json t
  | _, _ => false
  end.

Example hello_conforms :
  conforms ClientMessageSchema (TMap [(js_lit "type", TText (js_lit "hello")); (js_lit "version", TNum (NInt 1))]) = true.
Proof. reflexivity. Qed.

Example hello_extra_key :
  conforms ClientMessageSchema (TMap [(js_lit "type", TText (js_lit "hello")); (js_lit "version", TNum (NInt 1));
    (js_lit "x", TNull)]) = false.
Proof. reflexivity. Qed.

(** ** Unions are discriminated *)

(** The object alternatives of a schema, nested unions flattened. *)
Fixpoint alternatives (s : schema) : list schema :=
  match s with
  | SUnion variants => concat (alternatives <$> variants)
  | s => [s]
  end.

Definition required_literal (s : schema) (k : string) : option literal :=
  match s with
  | SObject properties =>
      match list_find (λ p, p.1 = k) properties with
      | Some (_, (_, (false, SLiteral l))) => Some l
      | _ => None
      end
  | _ => None
  end.

Definition property_names (s : schema) : list string :=
  match s with SObject properties => properties.*1 | _ => [] end.

(** Two objects that require different literals for some property. *)
Definition exclusive (s1 s2 : schema) : bool :=
  existsb (λ k, match required_literal s1 k, required_literal s2 k with
                | Some l1, Some l2 => bool_decide (l1 ≠ l2)
                | _, _ => false
                end) (property_names s1).

Fixpoint pairwise {A} (r : A → A → bool) (l : list A) : bool :=
  match l with
  | [] => true
  | x :: l => forallb (r x) l && pairwise r l
  end.

Lemma pairwise_lookup {A} (r : A → A → bool) l i j x y :
  pairwise r l = true → (i < j)%nat → l !! i = Some x → l !! j = Some y → r x y = true.
Proof.
  revert i j. induction l as [|z l IH]; intros i j H Hij Hx Hy; [done|].
  simpl in H. apply andb_true_iff in H as [H1 H2]. destruct j as [|j]; [lia|]. destruct i as [|i]; simplify_eq/=.
  - rewrite forallb_forall in H1. apply H1, list_elem_of_In. by eapply list_elem_of_lookup_2.
  - apply (IH i j); [done|lia|done|done].
Qed.

#[export] Instance js_lit_inj : Inj eq eq js_lit.
Proof.
  intros s1 s2 H. unfold js_lit in H.
  rewrite <- (String.string_of_list_ascii_of_string s1), <- (String.string_of_list_ascii_of_string s2).
  f_equal. revert H. apply list_fmap_eq_inj. intros a b Hab%N2Z.inj.
  rewrite <- (Ascii.ascii_N_embedding a), <- (Ascii.ascii_N_embedding b). congruence.
Qed.

Lemma literal_matches_inj l1 l2 t : literal_matches l1 t = true → literal_matches l2 t = true → l1 = l2.
Proof.
  destruct l1, l2, t; simpl; try done; rewrite ?bool_decide_eq_true.
  - intros -> H. f_equal. by apply (inj js_lit).
  - intros -> [= ->]. done.
  - intros ->%eqb_prop ->%eqb_prop. done.
Qed.

Lemma conforms_required s t k l :
  required_literal s k = Some l → conforms s t = true →
  ∃ es t', t = TMap es ∧ assoc (js_lit k) es = Some t' ∧ literal_matches l t' = true.
Proof.
  destruct s as [| | | | | | | |properties|]; simpl; try done.
  destruct (list_find _ properties) as [[i [k' [b s]]]|] eqn:E; [|done].
  apply list_find_Some in E as (Hi & Hk & _). simpl in Hk. subst k'.
  destruct b; [done|]. destruct s; try done. intros [= ->]. destruct t as [| | | | | |es]; try done.
  intros [H _]%andb_true_iff. rewrite forallb_forall in H.
  specialize (H (k, (false, SLiteral l)) ltac:(apply list_elem_of_In; by eapply list_elem_of_lookup_2)). simpl in H.
  destruct (assoc (js_lit k) es) as [t'|] eqn:Ht; [|done]. naive_solver.
Qed.

Lemma exclusive_disjoint s1 s2 t :
  exclusive s1 s2 = true → conforms s1 t = true → conforms s2 t = true → False.
Proof.
  unfold exclusive. rewrite existsb_exists. intros (k & _ & H) H1 H2.
  destruct (required_literal s1 k) as [l1|] eqn:E1; [|done].
  destruct (required_literal s2 k) as [l2|] eqn:E2; [|done]. zb.
  destruct (conforms_required _ _ _ _ E1 H1) as (es & t1 & -> & Ha1 & Hm1).
  destruct (conforms_required _ _ _ _ E2 H2) as (es' & t2 & [= <-] & Ha2 & Hm2).
  assert (t1 = t2) as -> by congruence. by eapply H, literal_matches_inj.
Qed.

Section schema_ind.
Context (P : schema → Prop).
Context (Pnull : P SNull) (Pbool : P SBoolean) (Pnum : ∀ m, P (SNumber m)) (Pint : ∀ m, P (SInteger m))
  (Pstr : ∀ n, P (SString n)) (Plit : ∀ l, P (SLiteral l)) (Parr : ∀ s n, P s → P (SArray s n))
  (Punion : ∀ ss, Forall P ss → P (SUnion ss))
  (Pobj : ∀ ps, Forall (λ p, P p.2.2) ps → P (SObject ps)) (Pjson : P SJson).

Fixpoint schema_ind' (s : schema) : P s :=
  match s with
  | SNull => Pnull
  | SBoolean => Pbool
  | SNumber m => Pnum m
  | SInteger m => Pint m
  | SString n => Pstr n
  | SLiteral l => Plit l
  | SArray s n => Parr s n (schema_ind' s)
  | SUnion ss =>
      Punion ss ((fix go ss : Forall P ss :=
        match ss with
        | [] => Forall_nil_2 _
        | s :: ss => Forall_cons_2 _ _ _ (schema_ind' s) (go ss)
        end) ss)
  | SObject ps =>
      Pobj ps ((fix go ps : Forall (λ p, P p.2.2) ps :=
        match ps with
        | [] => Forall_nil_2 _
        | p :: ps => Forall_cons_2 _ _ _ (schema_ind' p.2.2) (go ps)
        end) ps)
  | SJson => Pjson
  end.
End schema_ind.

Lemma conforms_alternatives s t :
  conforms s t = true ↔ ∃ s', s' ∈ alternatives s ∧ conforms s' t = true.
Proof.
  induction s as [| | | | | | |ss IH|ps IH|] using schema_ind'; cbn [alternatives];
    try (split; [intros H; eexists; split; [by left|exact H]|intros (s' & ->%list_elem_of_singleton & H); exact H]).
  cbn [conforms]. rewrite existsb_exists. rewrite Forall_forall in IH. split.
  - intros (s & Hs%list_elem_of_In & H). apply (IH s Hs) in H as (s' & Hs' & H). exists s'. split; [|done].
    apply list_elem_of_In, in_concat. exists (alternatives s).
    split; apply list_elem_of_In; [by apply list_elem_of_fmap_2|done].
  - intros (s' & Hin & H). apply list_elem_of_In, in_concat in Hin as (l & Hl & Hin%list_elem_of_In).
    apply list_elem_of_In in Hl as (s & -> & Hs)%list_elem_of_fmap. exists s. split; [by apply list_elem_of_In|].
    apply (IH s Hs). eauto.
Qed.

Lemma assoc_elem {A} k (es : list (jsstr * A)) v : NoDup (es.*1) → (k, v) ∈ es → assoc k es = Some v.
Proof.
  unfold assoc. induction es as [|[k' v'] es IH]; intros Hnd Hin; [by apply elem_of_nil in Hin|].
  rewrite fmap_cons in Hnd. apply NoDup_cons in Hnd as [Hk Hnd]. simpl.
  apply elem_of_cons in Hin as [[= <- <-]|Hin]; [by rewrite decide_True|].
  rewrite decide_False; [|intros ->; apply Hk; by apply (list_elem_of_fmap_2 fst _ (k, v))].
  specialize (IH Hnd Hin). destruct (list_find _ es) as [[i e]|]; simpl in *; done.
Qed.

Fixpoint keys_unique (t : tree) : bool :=
  match t with
  | TArray ts => forallb keys_unique ts
  | TMap es => bool_decide (NoDup (es.*1)) && forallb (λ e, keys_unique e.2) es
  | _ => true
  end.

(** Whatever conforms to a schema is JSON data. *)
Lemma conforms_json s t : keys_unique t = true → conforms s t = true → is_json t = true.
Proof.
  revert t. induction s as [| | | | |l|s n IH|ss IH|ps IH|] using schema_ind';
    intros t Hk Hc; cbn [conforms] in Hc; try (by destruct t).
  - destruct t; try done. cbn. by apply andb_true_iff in Hc as [? _].
  - destruct t; try done. by destruct n.
  - destruct l, t; try done. simpl in Hc. zb. by subst.
  - destruct t as [| | | | |ts|]; try done. apply andb_true_iff in Hc as [_ Hc].
    cbn [keys_unique is_json] in *. rewrite forallb_forall in *. auto.
  - apply existsb_exists in Hc as (s & Hs%list_elem_of_In & Hc). rewrite Forall_forall in IH. by eapply IH.
  - destruct t as [| | | | | |es]; try done. apply andb_true_iff in Hc as [Hp He].
    cbn [keys_unique is_json] in *. apply andb_true_iff in Hk as [Hnd%bool_decide_eq_true Hk].
    rewrite forallb_forall in Hp, He, Hk |- *. intros [k t] Hin. specialize (He _ Hin). zb. simpl in *.
    apply list_elem_of_fmap in He as (p & -> & Hps). rewrite Forall_forall in IH.
    apply (IH p Hps); [exact (Hk _ Hin)|].
    specialize (Hp p (proj1 (list_elem_of_In _ _) Hps)). apply list_elem_of_In in Hin.
    by rewrite (assoc_elem _ _ _ Hnd Hin) in Hp.
Qed.

(** The unions a receiver dispatches on. *)
Definition protocol_unions : list schema := [
  ClientMessageSchema; ServerMessageSchema; ServerEventSchema; CommandSchema; CommandResultSchema;
  ResponseEnvelopeSchema; TranscriptItemSchema; TranscriptProgressSchema; UserContentSchema;
  AssistantContentSchema; ToolContentSchema].

(** Every message union is discriminated: data that conforms to a union
    conforms to exactly one of its (flattened) alternatives. *)
Theorem unions_discriminated s t :
  s ∈ protocol_unions → conforms s t = true →
  ∃ i v, alternatives s !! i = Some v ∧ conforms v t = true ∧
    ∀ j w, alternatives s !! j = Some w → conforms w t = true → j = i.
Proof.
  intros Hs Hc.
  assert (Forall (λ s, pairwise exclusive (alternatives s) = true) protocol_unions) as Hall by decide_now.
  rewrite Forall_forall in Hall. specialize (Hall s Hs).
  apply conforms_alternatives in Hc as (v & [i Hi]%list_elem_of_lookup & Hv).
  exists i, v. split_and!; [done..|]. intros j w Hj Hw.
  destruct (Nat.lt_trichotomy i j) as [Hlt|[->|Hlt]]; [|done|]; exfalso.
  - by eapply exclusive_disjoint; [exact (pairwise_lookup _ _ _ _ _ _ Hall Hlt Hi Hj)|..].
  - by eapply exclusive_disjoint; [exact (pairwise_lookup _ _ _ _ _ _ Hall Hlt Hj Hi)|..].
Qed.

Definition ex_response : tree := TMap [
  (js_lit "type", TText (js_lit "response")); (js_lit "id", TText (js_lit "1")); (js_lit "ok", TBool true);
  (js_lit "result", TMap [(js_lit "command", TText (js_lit "detach")); (js_lit "sessionId", TText (js_lit "s"))])].

Lemma unions_discriminated_witness :
  ∃ i v, alternatives ServerMessageSchema !! i = Some v ∧ conforms v ex_response = true ∧
    ∀ j w, alternatives ServerMessageSchema !! j = Some w → conforms w ex_response = true → j = i.
Proof.
  apply unions_discriminated; [|vm_compute; reflexivity].
  right. left.
Defined.
