(* ===== verification/Codec.v ===== *)
(** Validated messages: [cli/packages/protocol/src/codec.ts].

    The schema validator ([Check] of typebox) is a parameter of the section;
    [CheckSpec] in [CodecSpec] states what it is documented to do.  Decoding
    allocates: [alloc] builds the arrays and objects of decoded data in the
    receiver's heap, as the CBOR reader does. *)
From S2P Require Import Prelude Bytes Framing JsValue Cbor Schemas.
Open Scope Z_scope.

(** ** Allocation of decoded data *)

Section alloc.
Context (alloc : tree → heap → jsval * heap).

Fixpoint alloc_list (ts : list tree) (h : heap) : list jsval * heap :=
  match ts with
  | [] => ([], h)
  | t :: ts =>
      let '(v, h) := alloc t h in
      let '(vs, h) := alloc_list ts h in (v :: vs, h)
  end.

Fixpoint alloc_entries (es : list (jsstr * tree)) (h : heap) : list property * heap :=
  match es with
  | [] => ([], h)
  | (k, t) :: es =>
      let '(v, h) := alloc t h in
      let '(ps, h) := alloc_entries es h in (mkProp k true false v :: ps, h)
  end.
End alloc.

Definition alloc_obj (o : jsobj) (h : heap) : jsval * heap :=
  let l := fresh (dom h) in (JRef l, <[l := o]> h).

Fixpoint alloc (t : tree) (h : heap) : jsval * heap :=
  match t with
  | TNull => (JNull, h)
  | TBool b => (JBool b, h)
  | TNum n => (JNumber n, h)
  | TText s => (JString s, h)
  | TBytes bs => alloc_obj (OBytes bs) h
  | TArray ts =>
      let '(vs, h) := alloc_list alloc ts h in
      alloc_obj (OArray true 0 0 (Slot false <$> vs)) h
  | TMap es =>
      let '(ps, h) := alloc_entries alloc es h in
      alloc_obj (OObject ObjectPrototype [] ps) h
  end.

(** ** Errors *)

(** Every error of the codec is a [ProtocolValidationError]; the constructors are
    its messages, with the error whose message they embed. *)
Inductive codec_cause :=
| FrameCause (e : frame_error)
| CborCause (e : cbor_error).

Inductive ProtocolValidationError :=
| InvalidMessage (kind : string)
| UnableToEncode (kind : string) (cause : codec_cause)
| MessageDecoderFailed (kind : string)
| InvalidFrame (kind : string) (cause : codec_cause)
| InvalidFraming (kind : string) (cause : frame_error)
| ValidationFuel.

(** [boundedErrorMessage]: [None] is a thrown value that is not an [Error]. *)
Definition boundedErrorMessage (message : option jsstr) : jsstr :=
  match message with
  | None => js_lit "Unknown codec error"
  | Some message =>
      if (length message <=? 500)%nat then message else take 497 message ++ js_lit "..."
  end.

(** ** Structural validation *)

(** [Array.prototype.every] over a predicate that may run out of fuel. *)
Fixpoint every {A} (f : A → option bool) (l : list A) : option bool :=
  match l with
  | [] => Some true
  | x :: l =>
      match f x with
      | Some true => every f l
      | r => r
      end
  end.

(** The elements [every] visits: holes are skipped. *)
Definition present (slots : list slot) : list jsval :=
  omap (λ s : slot, match s with Slot _ v => Some v | Hole => None end) slots.

Fixpoint isProtocolValue (fuel : nat) (h : heap) (value : jsval) (optionalProperty : bool)
    (ancestors : gset loc) : option bool :=
  match fuel with
  | O => None
  | S fuel =>
    match value with
    | JUndefined => Some optionalProperty
    | JNull | JBool _ | JNumber _ | JString _ => Some true
    | JOther _ => Some false
    | JRef l =>
        if bool_decide (l ∈ ancestors) then Some false else
        let ancestors := {[ l ]} ∪ ancestors in
        match h !! l with
        | Some (OArray _ _ _ slots) =>
            every (λ v, isProtocolValue fuel h v false ancestors) (present slots)
        | Some (OObject ObjectPrototype _ props) =>
            every (λ kv, isProtocolValue fuel h kv.2 true ancestors) (own_entries props)
        | _ => Some false
        end
    end
  end.

(** A heap value can nest at most once through each object. *)
Definition protocol_fuel (h : heap) : nat := size h + 1.

Section codec.
Context (Check : schema → heap → jsval → bool).

Definition parseMessage (sch : schema) (kind : string) (h : heap) (value : jsval) :
    result ProtocolValidationError jsval :=
  match isProtocolValue (protocol_fuel h) h value false ∅ with
  | None => Err ValidationFuel
  | Some b => if negb b || negb (Check sch h value) then Err (InvalidMessage kind) else Ok value
  end.

Definition parseClientMessage := parseMessage ClientMessageSchema "client".
Definition parseServerMessage := parseMessage ServerMessageSchema "server".

Definition lift_cause {E A} (wrap : E → codec_cause) (m : result E A) : result codec_cause A :=
  match m with Ok a => Ok a | Err e => Err (wrap e) end.

Definition encodeProtocolMessage (parse : heap → jsval → result ProtocolValidationError jsval)
    (kind : string) (h : heap) (value : jsval) (options : option Z) :
    result ProtocolValidationError (list Z) :=
  let* validated := parse h value in
  let maxFrameLength := default DEFAULT_MAX_FRAME_LENGTH options in
  match
    let* payload := lift_cause CborCause
      (encodeCbor h validated (Some (mkOptions (Some maxFrameLength) None None))) in
    let* frame := lift_cause FrameCause (encodeFrame payload) in
    let* _ := lift_cause FrameCause (assertCompleteFrame frame (Some maxFrameLength)) in
    Ok frame
  with
  | Ok frame => Ok frame
  | Err cause => Err (UnableToEncode kind cause)
  end.

Definition encodeClientMessage := encodeProtocolMessage parseClientMessage "client".
Definition encodeServerMessage := encodeProtocolMessage parseServerMessage "server".

Record ValidatedMessageDecoder := mkMessageDecoder {
  md_failed : bool;
  md_frames : FrameDecoder;
  md_kind : string;
  md_maxFrameLength : Z;
  md_parse : heap → jsval → result ProtocolValidationError jsval;
}.

Definition new_ValidatedMessageDecoder (kind : string)
    (parse : heap → jsval → result ProtocolValidationError jsval) (options : option Z) :
    result frame_error ValidatedMessageDecoder :=
  let* frames := new_FrameDecoder options in
  Ok (mkMessageDecoder false frames kind (default DEFAULT_MAX_FRAME_LENGTH options) parse).

Definition createClientMessageDecoder := new_ValidatedMessageDecoder "client" parseClientMessage.
Definition createServerMessageDecoder := new_ValidatedMessageDecoder "server" parseServerMessage.

Definition with_frames (d : ValidatedMessageDecoder) (failed : bool) (frames : FrameDecoder) :=
  mkMessageDecoder failed frames (md_kind d) (md_maxFrameLength d) (md_parse d).

(** The loop over the frames of one chunk: decode, allocate, parse, collect. *)
Fixpoint decodeFrames (d : ValidatedMessageDecoder) (h : heap) (frames : list (list Z))
    (messages : list jsval) : heap * result ProtocolValidationError (list jsval) :=
  match frames with
  | [] => (h, Ok messages)
  | frame :: frames =>
      match decodeCbor frame (Some (mkOptions (Some (md_maxFrameLength d)) None None)) with
      | Err e => (h, Err (InvalidFrame (md_kind d) (CborCause e)))
      | Ok t =>
          let '(value, h) := alloc t h in
          match md_parse d h value with
          | Err e => (h, Err e)
          | Ok message => decodeFrames d h frames (messages ++ [message])
          end
      end
  end.

Definition messagePush (h : heap) (d : ValidatedMessageDecoder) (chunk : list Z) :
    heap * ValidatedMessageDecoder * result ProtocolValidationError (list jsval) :=
  if md_failed d then (h, d, Err (MessageDecoderFailed (md_kind d))) else
  match Framing.push (md_frames d) chunk with
  | (frames, Err e) => (h, with_frames d true frames, Err (InvalidFrame (md_kind d) (FrameCause e)))
  | (frames, Ok fs) =>
      match decodeFrames d h fs [] with
      | (h, Ok messages) => (h, with_frames d false frames, Ok messages)
      | (h, Err e) => (h, with_frames d true frames, Err e)
      end
  end.

Definition messageEnd (d : ValidatedMessageDecoder) :
    ValidatedMessageDecoder * result ProtocolValidationError unit :=
  if md_failed d then (d, Err (MessageDecoderFailed (md_kind d))) else
  match Framing.end_ (md_frames d) with
  | (frames, Ok _) => (with_frames d false frames, Ok tt)
  | (frames, Err e) => (with_frames d true frames, Err (InvalidFraming (md_kind d) e))
  end.

(** A connection's reads: the chunks one after the other, up to the first error. *)
Fixpoint messagePushAll (h : heap) (d : ValidatedMessageDecoder) (chunks : list (list Z)) :
    heap * ValidatedMessageDecoder * result ProtocolValidationError (list jsval) :=
  match chunks with
  | [] => (h, d, Ok [])
  | c :: chunks =>
      match messagePush h d c with
      | (h, d, Err e) => (h, d, Err e)
      | (h, d, Ok ms) =>
          match messagePushAll h d chunks with
          | (h, d, Err e) => (h, d, Err e)
          | (h, d, Ok ns) => (h, d, Ok (ms ++ ns))
          end
      end
  end.
End codec.

Definition isSupportedProtocolVersion (version : jsnum) : bool :=
  isInteger version && bool_decide (version = NInt PROTOCOL_VERSION).
