(* ===== verification/CodecSpec.v ===== *)
(** What the message codec promises.

    - [isProtocolValue] terminates on every heap and accepts exactly the values
      on which plain structural recursion succeeds;
    - [CheckSpec] is the validator's documented behaviour, the interface the
      codec's theorems are proved against, with a reference validator as instance;
    - the end-to-end theorem: messages encoded by one side come out of the other
      side's decoder as the same data, however the transport cuts the stream;
    - a decoder that has failed stays failed. *)
From S2P Require Import Prelude Bytes Framing FramingSpec JsValue Cbor CborSpec CborTheorems Schemas Codec.
Open Scope Z_scope.

(** ** Structural validation *)

(** Locations of the heap not yet on the path. *)
Definition unvisited (h : heap) (anc : gset loc) : nat := size (dom h ∖ anc).

Lemma unvisited_lt (h : heap) anc l o :
  h !! l = Some o → l ∉ anc → (unvisited h ({[ l ]} ∪ anc) < unvisited h anc)%nat.
Proof.
  intros Hl Hn. apply subset_size. apply elem_of_dom_2 in Hl. set_solver.
Qed.

Lemma every_total {A} (f : A → option bool) l :
  (∀ x, x ∈ l → f x ≠ None) → every f l ≠ None.
Proof.
  induction l as [|x l IH]; intros H; [done|]. simpl.
  destruct (f x) as [[]|] eqn:E; [|done|by destruct (H x ltac:(left))].
  apply IH. intros y Hy. apply H. by right.
Qed.

Lemma every_true {A} (f : A → option bool) l :
  every f l = Some true ↔ ∀ x, x ∈ l → f x = Some true.
Proof.
  induction l as [|x l IH]; simpl; [set_solver|].
  destruct (f x) as [[]|] eqn:E; rewrite ?IH; set_solver.
Qed.

Lemma isProtocolValue_total fuel h v opt anc :
  (unvisited h anc < fuel)%nat → isProtocolValue fuel h v opt anc ≠ None.
Proof.
  revert v opt anc. induction fuel as [|fuel IH]; intros v opt anc Hf; [lia|].
  destruct v as [| | | | |l|]; try done. simpl. case_bool_decide as Hl; [done|].
  destruct (h !! l) as [[|? ? ? slots|[] ? props]|] eqn:Ho; try done;
    pose proof (unvisited_lt h anc l _ Ho Hl); apply every_total; intros ? _; apply IH; lia.
Qed.

(** Structural recursion with no cycle detection: the reference definition. *)
Fixpoint protocol_shape (n : nat) (h : heap) (v : jsval) (opt : bool) : bool :=
  match n with
  | O => false
  | S n =>
    match v with
    | JUndefined => opt
    | JNull | JBool _ | JNumber _ | JString _ => true
    | JOther _ => false
    | JRef l =>
        match h !! l with
        | Some (OArray _ _ _ slots) => forallb (λ v, protocol_shape n h v false) (present slots)
        | Some (OObject ObjectPrototype _ props) =>
            forallb (λ kv, protocol_shape n h kv.2 true) (own_entries props)
        | _ => false
        end
    end
  end.

Lemma protocol_shape_S n h v opt : protocol_shape n h v opt = true → protocol_shape (S n) h v opt = true.
Proof.
  revert v opt. induction n as [|n IH]; intros v opt H; [done|].
  destruct v as [| | | | |l|]; try done. cbn [protocol_shape] in H |- *.
  destruct (h !! l) as [[|? ? ? slots|[] ? props]|]; try done; rewrite forallb_forall in *; intros; apply IH; auto.
Qed.

Lemma protocol_shape_le n m h v opt :
  (n ≤ m)%nat → protocol_shape n h v opt = true → protocol_shape m h v opt = true.
Proof. induction 1; [done|]. intros. apply protocol_shape_S. auto. Qed.

(** The reference needs more recursion for every object on the path than for [v]. *)
Definition deeper (h : heap) (anc : gset loc) (n : nat) : Prop :=
  ∀ l opt, l ∈ anc → protocol_shape n h (JRef l) opt = false.

Lemma protocol_shape_opt n h l opt opt' : protocol_shape n h (JRef l) opt = protocol_shape n h (JRef l) opt'.
Proof. by destruct n. Qed.

Lemma isProtocolValue_shape fuel h v opt anc :
  isProtocolValue fuel h v opt anc = Some true → protocol_shape fuel h v opt = true.
Proof.
  revert v opt anc. induction fuel as [|fuel IH]; intros v opt anc H; [done|].
  destruct v as [| | | | |l|]; simpl in *; try congruence. case_bool_decide; [done|].
  destruct (h !! l) as [[|? ? ? slots|[] ? props]|]; try done;
    rewrite every_true in H; apply forallb_forall; intros x Hx%list_elem_of_In; eauto.
Qed.

Lemma shape_isProtocolValue n fuel h v opt anc :
  (unvisited h anc < fuel)%nat → deeper h anc n → protocol_shape n h v opt = true →
  isProtocolValue fuel h v opt anc = Some true.
Proof.
  revert fuel v opt anc. induction n as [|n IH]; intros fuel v opt anc Hf Hd H; [done|].
  destruct fuel as [|fuel]; [lia|].
  destruct v as [| | | | |l|]; try done; [simpl in *; congruence|].
  destruct (protocol_shape n h (JRef l) opt) eqn:Hn.
  { (* a smaller bound is enough *)
    apply IH; [done| |done]. intros l' o' Hl'. destruct (protocol_shape n h (JRef l') o') eqn:E; [|done].
    apply protocol_shape_S in E. by rewrite Hd in E. }
  cbn [protocol_shape isProtocolValue] in *.
  rewrite bool_decide_eq_false_2.
  2:{ intros Hl. specialize (Hd l opt Hl). cbn [protocol_shape] in Hd. congruence. }
  assert (l ∉ anc) as Hl.
  { intros Hl. specialize (Hd l opt Hl). cbn [protocol_shape] in Hd. congruence. }
  assert (deeper h ({[ l ]} ∪ anc) n) as Hd'.
  { intros l' o' [->%elem_of_singleton|Hl']%elem_of_union; [by rewrite (protocol_shape_opt _ _ _ _ opt)|].
    destruct (protocol_shape n h (JRef l') o') eqn:E; [|done]. apply protocol_shape_S in E. by rewrite Hd in E. }
  destruct (h !! l) as [[|? ? ? slots|[] ? props]|] eqn:Ho; try done;
    pose proof (unvisited_lt h anc l _ Ho Hl); rewrite forallb_forall in H; apply every_true;
    intros x Hx; apply IH; [lia|done|by apply H, list_elem_of_In|lia|done|by apply H, list_elem_of_In].
Qed.

Lemma protocol_fuel_enough h : (unvisited h ∅ < protocol_fuel h)%nat.
Proof. unfold unvisited, protocol_fuel. rewrite difference_empty_L, size_dom. lia. Qed.

(** Structural validation terminates on every heap, cyclic ones included,
    and its cycle detection is exact: it accepts a value if and only if plain
    structural recursion, without any cycle detection, finds it well-formed. *)
Theorem isProtocolValue_exact h v opt :
  ∃ b, isProtocolValue (protocol_fuel h) h v opt ∅ = Some b ∧
    (b = true ↔ ∃ n, protocol_shape n h v opt = true).
Proof.
  pose proof (isProtocolValue_total _ h v opt ∅ (protocol_fuel_enough h)) as Ht.
  destruct (isProtocolValue _ h v opt ∅) as [b|] eqn:E; [|done]. exists b. split; [done|]. split.
  - intros ->. eexists. by eapply isProtocolValue_shape.
  - intros [n Hn]. apply (shape_isProtocolValue n (protocol_fuel h) h v opt ∅) in Hn; [congruence|apply protocol_fuel_enough|].
    intros ?? []%elem_of_empty.
Qed.

(** ** Decoded values *)

(** [v] is a freshly decoded copy of [t]: standard prototypes, own enumerable
    data properties only. *)
Inductive plain (h : heap) : jsval → tree → Prop :=
| plain_null : plain h JNull TNull
| plain_bool b : plain h (JBool b) (TBool b)
| plain_num n : plain h (JNumber n) (TNum n)
| plain_text s : plain h (JString s) (TText s)
| plain_bytes l bs : h !! l = Some (OBytes bs) → plain h (JRef l) (TBytes bs)
| plain_array l slots ts :
    h !! l = Some (OArray true 0 0 slots) →
    Forall2 (λ s t, ∃ v, s = Slot false v ∧ plain h v t) slots ts →
    plain h (JRef l) (TArray ts)
| plain_map l props es :
    h !! l = Some (OObject ObjectPrototype [] props) →
    Forall2 (λ p e, ∃ v, p = mkProp e.1 true false v ∧ plain h v e.2) props es →
    plain h (JRef l) (TMap es).

Lemma plain_defined h t : ¬ plain h JUndefined t.
Proof. inversion 1. Qed.

Lemma plain_entries h props es :
  Forall2 (λ p e, ∃ v, p = mkProp e.1 true false v ∧ plain h v e.2) props es →
  own_entries props = (λ p, (p_key p, p_value p)) <$> props ∧
  filter (λ kv, kv.2 ≠ JUndefined) (own_entries props) = own_entries props.
Proof.
  unfold own_entries. induction 1 as [|p [k t] props es (v & -> & Hv) _ [IH1 IH2]]; [done|].
  rewrite filter_cons_True by done. rewrite !fmap_cons. split; [by rewrite IH1|].
  rewrite filter_cons_True; [by rewrite IH2|]. simpl. intros ->. by eapply plain_defined.
Qed.

Lemma plain_denotes h v t : plain h v t → denotes h v t.
Proof.
  revert v. induction t as [|b|n|s|bs|ts IH|es IH] using tree_ind'; intros v H.
  all: inversion H as [| | | |l bs' Hl|l slots ts' Hl Hts|l props es' Hl Hes]; subst; try by econstructor.
  - rewrite Forall_forall in IH. eapply den_array; [done|]. eapply Forall2_impl_elem; [done|].
    intros s t _ Ht (v & -> & Hv). exists false, v. split_and!; [done| |by apply IH].
    intros ->. by eapply plain_defined.
  - rewrite Forall_forall in IH. eapply den_map; [done|done|set_solver|].
    destruct (plain_entries _ _ _ Hes) as [He ->]. rewrite He, Forall2_fmap_l.
    eapply Forall2_impl_elem; [done|]. intros p e _ Hin (v & -> & Hv). simpl. auto.
Qed.

Lemma plain_mono h h' v t : h ⊆ h' → plain h v t → plain h' v t.
Proof.
  intros Hh. revert v. induction t as [|b|n|s|bs|ts IH|es IH] using tree_ind'; intros v H.
  all: inversion H as [| | | |l bs' Hl|l slots ts' Hl Hts|l props es' Hl Hes]; subst; try by econstructor.
  all: pose proof (lookup_weaken _ _ _ _ Hl Hh) as Hl'.
  - by constructor.
  - rewrite Forall_forall in IH. eapply plain_array; [done|]. eapply Forall2_impl_elem; [done|].
    intros s t _ Ht (v & -> & Hv). eauto.
  - rewrite Forall_forall in IH. eapply plain_map; [done|]. eapply Forall2_impl_elem; [done|].
    intros p e _ Hin (v & -> & Hv). eauto.
Qed.

Lemma alloc_obj_spec o h v h' : alloc_obj o h = (v, h') → h ⊆ h' ∧ ∃ l, v = JRef l ∧ h' !! l = Some o.
Proof.
  unfold alloc_obj. intros [= <- <-]. split.
  - apply insert_subseteq, not_elem_of_dom, is_fresh.
  - eexists. split; [done|]. by rewrite lookup_insert_eq.
Qed.

Lemma alloc_spec t h v h' : alloc t h = (v, h') → h ⊆ h' ∧ plain h' v t.
Proof.
  revert h v h'. induction t as [|b|n|s|bs|ts IH|es IH] using tree_ind'; intros h v h' H; cbn [alloc] in H;
    try (injection H as <- <-; split; [done|constructor]).
  - apply alloc_obj_spec in H as [Hs (l & -> & Hl)]. split; [done|by constructor].
  - assert (∀ h vs h', alloc_list alloc ts h = (vs, h') → h ⊆ h' ∧ Forall2 (plain h') vs ts) as Hts.
    { clear H. induction IH as [|t ts Ht _ IH]; intros h0 vs h1 H; simpl in H; [by injection H as <- <-|].
      destruct (alloc t h0) as [v0 h2] eqn:E1. destruct (alloc_list alloc ts h2) as [vs' h3] eqn:E2.
      injection H as <- <-. apply Ht in E1 as [S1 P1]. apply IH in E2 as [S2 P2].
      split; [by etrans|]. constructor; [by eapply plain_mono|done]. }
    destruct (alloc_list alloc ts h) as [vs h1] eqn:E. apply Hts in E as [S1 P1].
    apply alloc_obj_spec in H as [S2 (l & -> & Hl)]. split; [by etrans|].
    eapply plain_array; [done|]. rewrite Forall2_fmap_l. eapply Forall2_impl; [done|].
    intros v t Hv. exists v. split; [done|by eapply plain_mono].
  - assert (∀ h ps h', alloc_entries alloc es h = (ps, h') →
      h ⊆ h' ∧ Forall2 (λ p e, ∃ v, p = mkProp e.1 true false v ∧ plain h' v e.2) ps es) as Hes.
    { clear H. induction IH as [|[k t] es Ht _ IH]; intros h0 ps h1 H; simpl in H; [by injection H as <- <-|].
      destruct (alloc t h0) as [v0 h2] eqn:E1. destruct (alloc_entries alloc es h2) as [ps' h3] eqn:E2.
      injection H as <- <-. apply Ht in E1 as [S1 P1]. apply IH in E2 as [S2 P2].
      split; [by etrans|]. constructor; [|done]. exists v0. split; [done|by eapply plain_mono]. }
    destruct (alloc_entries alloc es h) as [ps h1] eqn:E. apply Hes in E as [S1 P1].
    apply alloc_obj_spec in H as [S2 (l & -> & Hl)]. split; [by etrans|].
    eapply plain_map; [done|]. eapply Forall2_impl; [done|].
    intros p e (v & -> & Hv). exists v. split; [done|by eapply plain_mono].
Qed.

Lemma plain_shape h v t opt : plain h v t → is_json t = true → ∃ n, protocol_shape n h v opt = true.
Proof.
  revert v opt. induction t as [|b|n|s|bs|ts IH|es IH] using tree_ind'; intros v opt H Hj; try done.
  all: inversion H as [| | | |l bs' Hl|l slots ts' Hl Hts|l props es' Hl Hes]; subst; try by exists 1%nat.
  - assert (∃ n, ∀ v, v ∈ present slots → protocol_shape n h v false = true) as [n Hn].
    { clear H Hl. cbn [is_json] in Hj. revert slots Hts. induction IH as [|t ts Ht _ IH]; intros slots Hts;
        inversion Hts as [|s ? slots' ? (v & -> & Hv) Hts']; subst; [exists 0%nat; set_solver|].
      simpl in Hj. apply andb_true_iff in Hj as [Hj Hjs]. destruct (Ht v false Hv Hj) as [n Hn].
      destruct (IH Hjs _ Hts') as [m Hm]. exists (n `max` m)%nat. intros w [->|Hw]%elem_of_cons.
      - eapply protocol_shape_le; [|exact Hn]. lia.
      - eapply protocol_shape_le; [|by apply Hm]. lia. }
    exists (S n). cbn [protocol_shape]. rewrite Hl. apply forallb_forall. intros w Hw%list_elem_of_In. auto.
  - assert (∃ n, ∀ kv, kv ∈ own_entries props → protocol_shape n h kv.2 true = true) as [n Hn].
    { clear H Hl. cbn [is_json] in Hj. revert props Hes. induction IH as [|e es Ht _ IH]; intros props Hes;
        inversion Hes as [|p ? props' ? (v & -> & Hv) Hes']; subst; [exists 0%nat; set_solver|].
      simpl in Hj. apply andb_true_iff in Hj as [Hj Hjs]. destruct (Ht v true Hv Hj) as [n Hn].
      destruct (IH Hjs _ Hes') as [m Hm]. exists (n `max` m)%nat. intros w.
      unfold own_entries. rewrite filter_cons_True, fmap_cons by done. intros [->|Hw]%elem_of_cons.
      - eapply protocol_shape_le; [|exact Hn]. lia.
      - eapply protocol_shape_le; [|by apply Hm]. lia. }
    exists (S n). cbn [protocol_shape]. rewrite Hl. apply forallb_forall. intros w Hw%list_elem_of_In. auto.
Qed.

(** ** The validator's interface *)

Definition all_enumerable (h : heap) : Prop :=
  map_Forall (λ _ o, match o with OObject _ _ props => Forall (λ p, p_enumerable p = true) props | _ => True end) h.

#[export] Instance all_enumerable_dec h : Decision (all_enumerable h).
Proof. unfold all_enumerable. apply map_Forall_dec. intros _ []; apply _. Defined.

(** [Check schema value] is JSON-Schema validation: on decoded data it agrees
    with [conforms]; a value it accepts conforms once its properties with value
    undefined, which only an optional property may have, are left out. *)
Class CheckSpec (Check : schema → heap → jsval → bool) : Prop := {
  Check_accepts : ∀ s h v t, all_enumerable h → denotes h v t → Check s h v = true → conforms s t = true;
  Check_plain : ∀ s h v t, plain h v t → conforms s t = true → Check s h v = true;
}.

Lemma tree_ok_keys t : tree_ok t = true → keys_unique t = true.
Proof.
  induction t as [|b|n|s|bs|ts IH|es IH] using tree_ind'; intros H; try done; cbn [tree_ok keys_unique] in *.
  - rewrite Forall_forall in IH. rewrite forallb_forall in H |- *. intros t Ht. apply IH; [by apply list_elem_of_In|auto].
  - apply andb_true_iff in H as [Hk H]. rewrite Forall_forall in IH. rewrite bool_decide_eq_true_2 by by apply keys_ok_NoDup.
    simpl. rewrite forallb_forall in H |- *. intros t Ht. apply IH; [by apply list_elem_of_In|auto].
Qed.

Section stream.
Context (Check : schema → heap → jsval → bool) `{!CheckSpec Check}.

Definition cborOptions (max : Z) : option CborOptions := Some (mkOptions (Some max) None None).

(** A decoded copy of conforming data passes [parseMessage]. *)
Lemma parseMessage_plain s kind h v t :
  plain h v t → tree_ok t = true → conforms s t = true → parseMessage Check s kind h v = Ok v.
Proof.
  intros Hp Hok Hc. unfold parseMessage.
  destruct (plain_shape h v t false Hp) as [n Hn].
  { by eapply conforms_json; [apply tree_ok_keys|]. }
  rewrite (shape_isProtocolValue n _ h v false ∅ (protocol_fuel_enough h)); [|intros ?? []%elem_of_empty|done].
  simpl. by rewrite (Check_plain _ _ _ _ Hp Hc).
Qed.

Lemma parseMessage_Ok s kind h v v' : parseMessage Check s kind h v = Ok v' → v' = v ∧ Check s h v = true.
Proof.
  unfold parseMessage. destruct (isProtocolValue _ _ _ _ _) as [b|]; [|done].
  destruct b, (Check s h v); simpl; naive_solver.
Qed.

(** What a successfully encoded message is on the wire. *)
Lemma encodeProtocolMessage_Ok s kind h v options frame :
  encodeProtocolMessage (parseMessage Check s kind) kind h v options = Ok frame →
  Check s h v = true ∧
  ∃ payload, encodeCbor h v (cborOptions (default DEFAULT_MAX_FRAME_LENGTH options)) = Ok payload ∧
    encodeFrame payload = Ok frame.
Proof.
  unfold encodeProtocolMessage. intros (v' & [-> Hc]%parseMessage_Ok & H)%rbind_Ok. split; [done|].
  destruct (encodeCbor _ _ _) as [payload|] eqn:E1; [|done]. simpl in H.
  destruct (encodeFrame payload) as [frame'|] eqn:E2; [|done]. simpl in H.
  destruct (assertCompleteFrame _ _) as [[]|]; [|done]. simpl in H. injection H as <-. eauto.
Qed.

Section receive.
Context (s : schema) (kind : string) (d : ValidatedMessageDecoder)
  (Hparse : md_parse d = parseMessage Check s kind).

(** The payloads of encoded messages, decoded into the receiver's heap. *)
Lemma decodeFrames_spec payloads ts h acc :
  Forall2 (λ p t, decodeCbor p (cborOptions (md_maxFrameLength d)) = Ok t ∧
    tree_ok t = true ∧ conforms s t = true) payloads ts →
  ∃ h' ws, decodeFrames d h payloads acc = (h', Ok (acc ++ ws)) ∧ h ⊆ h' ∧ Forall2 (plain h') ws ts.
Proof.
  intros H. revert h acc. induction H as [|p t payloads ts (Hd & Hok & Hc) _ IH]; intros h acc; simpl.
  { exists h, []. by rewrite app_nil_r. }
  unfold cborOptions in Hd. rewrite Hd. destruct (alloc t h) as [w h1] eqn:Ha. apply alloc_spec in Ha as [S1 P1].
  rewrite Hparse, (parseMessage_plain s kind h1 w t P1 Hok Hc).
  destruct (IH h1 (acc ++ [w])) as (h' & ws & -> & S2 & P2).
  exists h', (w :: ws). rewrite <- app_assoc. split; [done|]. split; [by etrans|].
  constructor; [by eapply plain_mono|done].
Qed.

(** Feeding chunks: the frame decoder's output, decoded in one go. *)
Lemma messagePushAll_frames h d' chunks frames' fs ts :
  md_parse d' = md_parse d → md_maxFrameLength d' = md_maxFrameLength d → md_failed d' = false →
  Framing.pushAll (md_frames d') chunks = (frames', Ok fs) →
  Forall2 (λ p t, decodeCbor p (cborOptions (md_maxFrameLength d)) = Ok t ∧
    tree_ok t = true ∧ conforms s t = true) fs ts →
  ∃ h' ws, messagePushAll h d' chunks = (h', with_frames d' false frames', Ok ws) ∧ h ⊆ h' ∧
    Forall2 (plain h') ws ts.
Proof.
  revert h d' fs ts. induction chunks as [|c chunks IH]; intros h d' fs ts Hp Hm Hf Hpush Hfs; simpl in Hpush.
  { injection Hpush as <- <-. inversion Hfs; subst. exists h, []. simpl. split_and!; [|done|constructor].
    destruct d'; simpl in *. by subst. }
  simpl. unfold messagePush. rewrite Hf.
  destruct (Framing.push (md_frames d') c) as [fr1 [fs1|]] eqn:E1; [|done].
  destruct (Framing.pushAll fr1 chunks) as [fr2 [fs2|]] eqn:E2; [|done]. injection Hpush as <- <-.
  apply Forall2_app_inv_l in Hfs as (ts1 & ts2 & H1 & H2 & ->).
  assert (decodeFrames d' h fs1 [] = decodeFrames d h fs1 []) as ->.
  { clear -Hp Hm H1 Hparse CheckSpec0. generalize (@nil jsval) as acc. revert h.
    induction H1 as [|p t fs1 ts1 (Hd & _) _ IH]; intros h acc; [done|]. simpl. unfold cborOptions in Hd.
    rewrite Hm, Hp, Hd. destruct (alloc t h) as [w h1]. by destruct (md_parse d h1 w). }
  destruct (decodeFrames_spec _ _ h [] H1) as (h1 & ws1 & -> & S1 & P1). simpl.
  destruct (IH h1 (with_frames d' false fr1) fs2 ts2) as (h2 & ws2 & -> & S2 & P2); [done..|].
  exists h2, (ws1 ++ ws2). split_and!; [done|by etrans|]. apply Forall2_app; [|done].
  eapply Forall2_impl; [done|]. intros. by eapply plain_mono.
Qed.
End receive.
End stream.

Lemma resolveOptions_bytes max o : resolveOptions (cborOptions max) = Ok o → maxByteLength o = max.
Proof. unfold resolveOptions, resolveLimit. intros H. invert_ok. simplify_eq. done. Qed.

(** C3: End-to-end round trip.  Messages one side encodes (objects whose properties
    are all enumerable), framed, concatenated and cut into chunks in any way by the
    transport, come out of the other side's decoder as fresh copies of the same data,
    in order, and the stream ends cleanly. *)
Theorem message_stream_roundtrip Check `{!CheckSpec Check} s kind h0 vs frames options d h chunks :
  heap_ok h0 → all_enumerable h0 → Forall val_ok vs →
  Forall2 (λ v frame, encodeProtocolMessage (parseMessage Check s kind) kind h0 v options = Ok frame) vs frames →
  new_ValidatedMessageDecoder kind (parseMessage Check s kind) options = Ok d →
  Forall bytes_ok chunks → concat chunks = concat frames →
  ∃ h' d' ws, messagePushAll h d chunks = (h', d', Ok ws) ∧ h ⊆ h' ∧
    Forall2 (λ v w, ∃ t, denotes h0 v t ∧ plain h' w t) vs ws ∧ (messageEnd d').2 = Ok tt.
Proof.
  intros Hh He Hvs Henc Hnew Hch Hcat. unfold new_ValidatedMessageDecoder in Hnew.
  apply rbind_Ok in Hnew as (fr & Hfr & [= <-]). set (max := default DEFAULT_MAX_FRAME_LENGTH options) in *.
  destruct (new_FrameDecoder_Repr _ _ Hfr) as [_ Hmax].
  assert (∃ ps ts, encodeFrames ps = Ok frames ∧ Forall (λ p, Z.of_nat (length p) ≤ max) ps ∧
    Forall2 (λ p t, decodeCbor p (cborOptions max) = Ok t ∧ tree_ok t = true ∧ conforms s t = true) ps ts ∧
    Forall2 (denotes h0) vs ts) as (ps & ts & Hps & Hlen & Hdec & Hden).
  { clear -Henc He Hh Hvs CheckSpec0. induction Henc as [|v frame vs frames Hv _ IH].
    { exists [], []. done. }
    apply Forall_cons in Hvs as [Hok Hvs]. destruct (IH Hvs) as (ps & ts & H1 & H2 & H3 & H4).
    destruct (encodeProtocolMessage_Ok _ _ _ _ _ _ _ Hv) as (Hc & p & Hp & Hf).
    apply encodeCbor_iff in Hp as (o & t & Ho & Hd & Hfit & -> & Hl).
    pose proof (denotes_tree_ok _ _ _ Hh Hok Hd) as Ht. rewrite (resolveOptions_bytes _ _ Ho) in Hl.
    exists (wire t :: ps), (t :: ts). split_and!.
    - simpl. rewrite Hf. simpl. by rewrite H1.
    - by constructor.
    - constructor; [|done]. split_and!; [|done|by eapply Check_accepts].
      eapply decodeCbor_wire; [done..|]. by rewrite (resolveOptions_bytes _ _ Ho).
    - by constructor. }
  destruct (pushAll_frames options fr ps frames chunks) as (fr' & Hpush & Hend); try done.
  { by rewrite Hmax. }
  destruct (messagePushAll_frames Check s kind (mkMessageDecoder false fr kind max (parseMessage Check s kind)) eq_refl
    h (mkMessageDecoder false fr kind max (parseMessage Check s kind)) chunks fr' ps ts) as (h' & ws & Hm & Hs & Hp); try done.
  exists h', (with_frames (mkMessageDecoder false fr kind max (parseMessage Check s kind)) false fr'), ws.
  split_and!; [done|done| |].
  - clear -Hden Hp. revert ws Hp. induction Hden as [|v t vs ts Hv _ IH]; intros ws Hp; inversion Hp; subst; constructor; eauto.
  - unfold messageEnd. simpl. destruct (end_ fr') as [? [[]|]]; [done|]. done.
Qed.

(** ** A reference validator

    [CheckSpec] can hold: reading the data off the heap and applying [conforms]. *)

Fixpoint traverse {A B} (f : A → option B) (l : list A) : option (list B) :=
  match l with
  | [] => Some []
  | x :: l => y ← f x; ys ← traverse f l; Some (y :: ys)
  end.

Fixpoint read_tree (fuel : nat) (h : heap) (v : jsval) (anc : gset loc) : option tree :=
  match fuel with
  | O => None
  | S fuel =>
    match v with
    | JNull => Some TNull
    | JBool b => Some (TBool b)
    | JNumber n => Some (TNum n)
    | JString s => Some (TText s)
    | JRef l =>
        if bool_decide (l ∈ anc) then None else
        match h !! l with
        | Some (OBytes bs) => Some (TBytes bs)
        | Some (OArray _ _ _ slots) =>
            TArray <$> traverse (λ s, match s with
              | Slot _ v => read_tree fuel h v ({[ l ]} ∪ anc)
              | Hole => None
              end) slots
        | Some (OObject _ _ props) =>
            TMap <$> traverse (λ kv, pair kv.1 <$> read_tree fuel h kv.2 ({[ l ]} ∪ anc))
              (filter (λ kv, kv.2 ≠ JUndefined) (own_entries props))
        | None => None
        end
    | _ => None
    end
  end.

Definition CheckRef (s : schema) (h : heap) (v : jsval) : bool :=
  match read_tree (protocol_fuel h) h v ∅ with
  | Some t => conforms s t
  | None => false
  end.

Lemma traverse_Forall2 {A B} (f : A → option B) l k :
  Forall2 (λ x y, f x = Some y) l k → traverse f l = Some k.
Proof. induction 1 as [|x y l k Hx _ IH]; simpl; [done|]. by rewrite Hx, IH. Qed.

Lemma read_tree_denotes fuel h v t anc :
  (unvisited h anc < fuel)%nat → denotes h v t → anc_ok h anc (tree_size t) →
  read_tree fuel h v anc = Some t.
Proof.
  revert fuel v anc. induction t as [|b|n|s|bs|ts IH|es IH] using tree_ind';
    intros fuel v anc Hf Hd Ha; (destruct fuel as [|fuel]; [lia|]).
  all: inversion Hd as [| | | |l bs' Hl|l std syms names slots ts' Hl Hts|l proto syms props es' Hl Hp Hs Hes];
    subst; try done; cbn [read_tree];
    (rewrite bool_decide_eq_false_2 by by eapply anc_ok_fresh); rewrite Hl; try done;
    pose proof (unvisited_lt h anc l _ Hl (anc_ok_fresh _ _ _ _ Ha Hd)); rewrite Forall_forall in IH.
  - rewrite (traverse_Forall2 _ _ ts); [done|]. eapply Forall2_impl_elem; [exact Hts|].
    intros s t _ Ht (a & v & -> & _ & Hdv). apply IH; [done|lia|done|].
    eapply anc_ok_child; [done|done|]. simpl. pose proof (sum_list_with_elem tree_size t ts Ht). lia.
  - rewrite (traverse_Forall2 _ _ es); [done|]. eapply Forall2_impl_elem; [exact Hes|].
    intros kv [k t] _ He [Hk Hdv]. simpl in *. rewrite Hk.
    enough (read_tree fuel h kv.2 ({[l]} ∪ anc) = Some t) as -> by done. apply (IH (k, t)); [done|lia|done|].
    apply (anc_ok_child h anc l (TMap es)); [done|done|].
    simpl. pose proof (sum_list_with_elem (λ e, tree_size e.2) (k, t) es He). simpl in *. lia.
Qed.

#[export] Instance CheckRef_spec : CheckSpec CheckRef.
Proof.
  assert (∀ h v t, denotes h v t → read_tree (protocol_fuel h) h v ∅ = Some t) as H.
  { intros h v t Hd. apply read_tree_denotes; [apply protocol_fuel_enough|done|intros ? []%elem_of_empty]. }
  split; unfold CheckRef; intros s h v t.
  - intros _ Hd. by rewrite (H h v t Hd).
  - intros Hp. by rewrite (H h v t (plain_denotes _ _ _ Hp)).
Qed.

Definition hello_heap : heap :=
  {[ 1%positive := OObject ObjectPrototype []
       [mkProp (js_lit "type") true false (JString (js_lit "hello"));
        mkProp (js_lit "version") true false (JNumber (NInt 1))] ]}.

Definition hello_frame : list Z :=
  [0; 0; 0; 21; 162; 100; 116; 121; 112; 101; 101; 104; 101; 108; 108; 111; 103; 118; 101; 114; 115; 105; 111; 110; 1].

Lemma message_stream_roundtrip_witness :
  ∃ h' d' ws,
    messagePushAll ∅ (mkMessageDecoder false (mkDecoder [0; 0; 0; 0] 0 DEFAULT_MAX_FRAME_LENGTH [] None 0 None 0 Framing.open)
        "client" DEFAULT_MAX_FRAME_LENGTH (parseMessage CheckRef ClientMessageSchema "client"))
      [take 7 hello_frame; drop 7 hello_frame ++ hello_frame] = (h', d', Ok ws) ∧ ∅ ⊆ h' ∧
    Forall2 (λ v w, ∃ t, denotes hello_heap v t ∧ plain h' w t) [JRef 1; JRef 1] ws ∧
    (messageEnd d').2 = Ok tt.
Proof.
  apply (message_stream_roundtrip CheckRef ClientMessageSchema "client" hello_heap [JRef 1; JRef 1]
    [hello_frame; hello_frame] None).
  - decide_now.
  - decide_now.
  - repeat constructor.
  - apply Forall2_cons_2; [vm_compute; reflexivity|]. apply Forall2_cons_2; [vm_compute; reflexivity|constructor].
  - reflexivity.
  - decide_now.
  - reflexivity.
Defined.

(** A message decoder that has thrown stays unusable: after any error the
    decoder is failed, and every later [push] or [end] throws and changes nothing;
    a chunk that is rejected yields no message at all. *)
Theorem messageDecoder_absorbing h d chunk h' d' e :
  messagePush h d chunk = (h', d', Err e) →
  md_failed d' = true ∧
  (∀ g chunk', messagePush g d' chunk' = (g, d', Err (MessageDecoderFailed (md_kind d)))) ∧
  messageEnd d' = (d', Err (MessageDecoderFailed (md_kind d))).
Proof.
  intros H. assert (md_failed d' = true ∧ md_kind d' = md_kind d) as [Hf Hk].
  { unfold messagePush in H. destruct (md_failed d) eqn:Hd; [naive_solver|].
    destruct (Framing.push _ _) as [fr [fs|e']]; [|naive_solver].
    destruct (decodeFrames d h fs []) as [h1 [ms|e']]; naive_solver. }
  unfold messagePush, messageEnd. by rewrite Hf, Hk.
Qed.

Definition ex_decoder : ValidatedMessageDecoder :=
  mkMessageDecoder false (mkDecoder [0; 0; 0; 0] 0 8 [] None 0 None 0 Framing.open)
    "client" 8 (parseMessage CheckRef ClientMessageSchema "client").

(** The payload is CBOR null, which is not a client message. *)
Lemma messageDecoder_absorbing_witness :
  (messagePush ∅ ex_decoder [0; 0; 0; 1; 0xf6]).2 = Err (InvalidMessage "client") ∧
  md_failed (messagePush ∅ ex_decoder [0; 0; 0; 1; 0xf6]).1.2 = true.
Proof.
  assert ((messagePush ∅ ex_decoder [0; 0; 0; 1; 0xf6]).2 = Err (InvalidMessage "client")) as Hr
    by (vm_compute; reflexivity).
  split; [exact Hr|].
  apply (messageDecoder_absorbing ∅ ex_decoder [0; 0; 0; 1; 0xf6]
    (messagePush ∅ ex_decoder [0; 0; 0; 1; 0xf6]).1.1 _ (InvalidMessage "client")).
  rewrite <- Hr. by rewrite <- !surjective_pairing.
Defined.
