(* ===== verification/JsMap.v ===== *)
(** A JavaScript [Map], where its insertion order is observed:
    an association list without duplicate keys.  [set] of a present key keeps its
    place; [delete] and a later [set] move it to the end. *)
From S2P Require Import Prelude.

Notation jsmap A := (list (string * A)).

Section jsmap.
Context {K : Type} `{EqDecision K} {A : Type}.
Implicit Types (m : list (K * A)) (k : K).

Fixpoint map_get m k : option A :=
  match m with
  | [] => None
  | (k', v) :: m => if bool_decide (k' = k) then Some v else map_get m k
  end.

Definition map_has m k : bool := bool_decide (k ∈ m.*1).

Fixpoint map_set m k (v : A) : list (K * A) :=
  match m with
  | [] => [(k, v)]
  | (k', v') :: m => if bool_decide (k' = k) then (k, v) :: m else (k', v') :: map_set m k v
  end.

Definition map_delete m k : list (K * A) := filter (λ kv, kv.1 ≠ k) m.

(** [new Map(pairs)] *)
Definition map_of (pairs : list (K * A)) : list (K * A) :=
  foldl (λ m kv, map_set m kv.1 kv.2) [] pairs.

Lemma map_get_None m k : map_get m k = None ↔ k ∉ m.*1.
Proof.
  induction m as [|[k' v] m IH]; simpl; [set_solver|].
  rewrite not_elem_of_cons. case_bool_decide; [naive_solver|]. rewrite IH. naive_solver.
Qed.

Lemma map_get_Some_elem m k v : map_get m k = Some v → (k, v) ∈ m.
Proof.
  induction m as [|[k' v'] m IH]; simpl; [done|].
  case_bool_decide; [intros [= ->]; subst; left|]. intros. right. auto.
Qed.

Lemma map_get_elem m k v : NoDup (m.*1) → (k, v) ∈ m → map_get m k = Some v.
Proof.
  induction m as [|[k' v'] m IH]; simpl; [set_solver|].
  intros [Hk Hnd]%NoDup_cons [[= -> ->]|Hin]%elem_of_cons; [by rewrite bool_decide_eq_true_2|].
  rewrite bool_decide_eq_false_2; [by apply IH|]. intros ->. apply Hk.
  by apply (list_elem_of_fmap_2 fst _ (k, v)).
Qed.

Lemma map_has_get m k : map_has m k = bool_decide (is_Some (map_get m k)).
Proof.
  unfold map_has. apply bool_decide_ext. rewrite <- not_eq_None_Some, map_get_None.
  split; [naive_solver|]. intros H. by apply dec_stable.
Qed.

Lemma map_get_set m k v k' : map_get (map_set m k v) k' = if bool_decide (k = k') then Some v else map_get m k'.
Proof.
  induction m as [|[k1 v1] m IH]; simpl; [by case_bool_decide|].
  repeat case_bool_decide; simplify_eq/=; repeat case_bool_decide; simplify_eq; done.
Qed.

Lemma map_set_keys m k v :
  (map_set m k v).*1 = if bool_decide (k ∈ m.*1) then m.*1 else m.*1 ++ [k].
Proof.
  induction m as [|[k1 v1] m IH]; simpl; [done|].
  destruct (decide (k1 = k)) as [->|E].
  - rewrite !bool_decide_eq_true_2; [done|left|done].
  - rewrite (bool_decide_eq_false_2 (k1 = k)) by done. rewrite fmap_cons, IH. simpl.
    destruct (decide (k ∈ m.*1)) as [E2|E2]; [rewrite (bool_decide_eq_true_2 _ E2)|rewrite (bool_decide_eq_false_2 _ E2)].
    + rewrite bool_decide_eq_true_2; [done|by right].
    + rewrite bool_decide_eq_false_2; [done|]. rewrite not_elem_of_cons. naive_solver.
Qed.

Lemma map_set_NoDup m k v : NoDup (m.*1) → NoDup ((map_set m k v).*1).
Proof.
  intros H. rewrite map_set_keys. case_bool_decide; [done|].
  apply NoDup_app. split; [done|]. split; [set_solver|]. apply NoDup_singleton.
Qed.

Lemma map_set_fresh m k v : k ∉ m.*1 → map_set m k v = m ++ [(k, v)].
Proof.
  induction m as [|[k1 v1] m IH]; simpl; [done|]. intros [Hne Hk]%not_elem_of_cons.
  rewrite bool_decide_eq_false_2 by naive_solver. by rewrite IH.
Qed.

Lemma map_get_delete m k k' : map_get (map_delete m k) k' = if bool_decide (k = k') then None else map_get m k'.
Proof.
  unfold map_delete. induction m as [|[k1 v1] m IH]; simpl; [by case_bool_decide|].
  rewrite filter_cons. simpl. destruct (decide (k1 ≠ k)) as [Hk|Hk]; simpl.
  - rewrite IH. repeat case_bool_decide; naive_solver.
  - apply dec_stable in Hk. subst k1. rewrite IH. by repeat case_bool_decide.
Qed.

Lemma map_delete_NoDup m k : NoDup (m.*1) → NoDup ((map_delete m k).*1).
Proof. intros H. apply (sublist_NoDup _ _ H), fmap_sublist, sublist_filter. Qed.

Lemma map_of_NoDup pairs : NoDup ((map_of pairs).*1).
Proof.
  unfold map_of. assert (NoDup (@nil (K * A)).*1) as H by constructor.
  revert H. generalize (@nil (K * A)). induction pairs as [|[k v] pairs IH]; intros m Hm; simpl; [done|].
  by apply IH, map_set_NoDup.
Qed.
End jsmap.
