(* ===== verification/FileSystem.v ===== *)
(** The file system interface of the harness ([harness/types.ts], and
    [jsonl/types.ts], which selects what the session files use): a class of
    operations on a state, each of which may fail, and the laws its documentation
    states. *)
From S2P Require Import Prelude JsValue.
Open Scope Z_scope.

Notation path := jsstr.

(** ** The file system *)

Inductive FileErrorCode :=
| fe_aborted | fe_not_found | fe_permission_denied | fe_not_directory | fe_is_directory | fe_invalid
| fe_not_supported | fe_unknown.

#[export] Instance FileErrorCode_eq_dec : EqDecision FileErrorCode.
Proof. solve_decision. Defined.

Inductive FileKind := file_ | directory | symlink.

#[export] Instance FileKind_eq_dec : EqDecision FileKind.
Proof. solve_decision. Defined.

Record FileInfo := mkInfo {
  fi_name : jsstr;
  fi_path : path;
  fi_kind : FileKind;
  fi_size : Z;
  fi_mtimeMs : Z;
}.

Notation fs_result A := (result FileErrorCode A).

(** [JsonlSessionRepoFileSystem]; an operation never throws. *)
Class FileSystem (F : Type) := {
  absolutePath : path → F → F * fs_result path;
  joinPath : list path → F → F * fs_result path;
  readTextFile : path → F → F * fs_result jsstr;
  readTextLines : path → nat → F → F * fs_result (list jsstr);
  writeFile : path → jsstr → F → F * fs_result unit;
  appendFile : path → jsstr → F → F * fs_result unit;
  renameFile : path → path → F → F * fs_result unit;
  fileInfo : path → F → F * fs_result FileInfo;
  listDir : path → F → F * fs_result (list FileInfo);
  exists_ : path → F → F * fs_result bool;
  createDir : path → F → F * fs_result unit;
  remove : path → F → F * fs_result unit;        (* { force: true } *)
}.

(** ** The file system's laws

    The documented behaviour of [FileSystem] in [harness/types.ts]: [files] is
    what is on disk.  A failing write leaves the other files alone; a failing
    append may have written a prefix; a rename is atomic.

    Two simplifications: a file is the text that reading it gives, so an append is cut
    between code units and not within the bytes of one; and a file has one path, so
    no other path leads to it through a link. *)
Class FsLaws (F : Type) `{FileSystem F} := {
  files : F → gmap path jsstr;
  read_law p f f' r : readTextFile p f = (f', r) → files f' = files f ∧ (∀ t, r = Ok t → files f !! p = Some t);
  info_law p f f' r : fileInfo p f = (f', r) → files f' = files f;
  write_law p t f f' r : writeFile p t f = (f', r) →
    (∀ q, q ≠ p → files f' !! q = files f !! q) ∧ (r = Ok tt → files f' = <[p := t]> (files f));
  append_law p t f f' r : appendFile p t f = (f', r) →
    (r = Ok tt → files f' = <[p := default [] (files f !! p) ++ t]> (files f)) ∧
    (∀ e, r = Err e → files f' = files f ∨
       ∃ k, k `prefix_of` t ∧ files f' = <[p := default [] (files f !! p) ++ k]> (files f));
  rename_law s d f f' r : renameFile s d f = (f', r) →
    (r = Ok tt → ∃ t, files f !! s = Some t ∧ files f' = <[d := t]> (delete s (files f))) ∧
    (∀ e, r = Err e → files f' = files f);
  remove_law p f f' r : remove p f = (f', r) → ∀ q, q ≠ p → files f' !! q = files f !! q;
}.

(** ** What the tools use besides *)

(** The rest of [ExecutionEnv]'s file operations. *)
Class ToolFiles (F : Type) := {
  readBinaryFile : path → F → F * fs_result (list Z);
  canonicalPath : path → F → F * fs_result path;
  createTempFile : jsstr → jsstr → F → F * fs_result path;   (* { prefix, suffix } *)
}.

(** A temporary file is created: it was not there before, and it is empty.  What only
    looks changes nothing. *)
Class ToolLaws (F : Type) `{FsLaws F} `{ToolFiles F} := {
  temp_law pre suf f f' r : createTempFile pre suf f = (f', r) →
    (∀ p, r = Ok p → files f !! p = None ∧ files f' = <[p := []]> (files f)) ∧
    (∀ e, r = Err e → files f' = files f);
  absolute_law p f f' r : absolutePath p f = (f', r) → files f' = files f;
  canonical_law p f f' r : canonicalPath p f = (f', r) → files f' = files f;
  exists_law p f f' r : exists_ p f = (f', r) → files f' = files f;
  binary_law p f f' r : readBinaryFile p f = (f', r) → files f' = files f;
}.
