(* ===== verification/Regex.v ===== *)
(** Strings and regular expressions as the sources use them: the string methods on
    UTF-16 code units, and the backtracking matcher of ECMA-262 with captures,
    proved against the relation of the positions a pattern can reach. *)
From S2P Require Import Prelude JsValue.
Open Scope Z_scope.

(** ** String methods *)

(** WhiteSpace and LineTerminator, the class of [\s] and of [trim]. *)
Definition is_space (u : Z) : bool :=
  ((9 <=? u) && (u <=? 13)) || (u =? 0x20) || (u =? 0xa0) || (u =? 0x1680) || ((0x2000 <=? u) && (u <=? 0x200a)) ||
  (u =? 0x2028) || (u =? 0x2029) || (u =? 0x202f) || (u =? 0x205f) || (u =? 0x3000) || (u =? 0xfeff).

Fixpoint trimStart (s : jsstr) : jsstr :=
  match s with
  | [] => []
  | u :: s' => if is_space u then trimStart s' else s
  end.

Definition trimEnd (s : jsstr) : jsstr := reverse (trimStart (reverse s)).
Definition trim (s : jsstr) : jsstr := trimEnd (trimStart s).

Definition startsWith (s prefix : jsstr) : bool := bool_decide (prefix `prefix_of` s).
Definition endsWith (s suffix : jsstr) : bool := bool_decide (suffix `suffix_of` s).

Fixpoint includes (s sub : jsstr) : bool :=
  startsWith s sub || match s with [] => false | _ :: s' => includes s' sub end.

(** The case mappings of Unicode, known here on ASCII. *)
Definition is_upper (u : Z) : bool := (0x41 <=? u) && (u <=? 0x5a).
Definition is_lower (u : Z) : bool := (0x61 <=? u) && (u <=? 0x7a).
Definition ascii (s : jsstr) : bool := forallb (λ u, (0 <=? u) && (u <=? 0x7f)) s.
Definition upper_unit (u : Z) : Z := if is_lower u then u - 0x20 else u.
Definition lower_unit (u : Z) : Z := if is_upper u then u + 0x20 else u.

Class CaseMap := {
  toUpperCase : jsstr → jsstr;
  toLowerCase : jsstr → jsstr;
  upper_ascii s : ascii s = true → toUpperCase s = upper_unit <$> s;
  lower_ascii s : ascii s = true → toLowerCase s = lower_unit <$> s;
}.

(** A case mapping for evaluation. *)
Definition ascii_case : CaseMap := {|
  toUpperCase := fmap upper_unit; toLowerCase := fmap lower_unit;
  upper_ascii _ _ := eq_refl; lower_ascii _ _ := eq_refl |}.

(** ** Patterns *)

(** Alternatives are tried left to right and repetition is greedy.  No pattern of
    the sources modelled here has a group under a repetition. *)
Inductive regex :=
| Eps
| Class_ (p : Z → bool)
| Seq (a b : regex)
| Alt (a b : regex)
| Star (a : regex)
| Group (n : nat) (a : regex)
| Bol
| Eol.

(** A position in the input: whether it is the start, what is left, the captures. *)
Record pos := mkPos {
  at_start : bool;
  left_ : jsstr;
  caps : list (nat * jsstr);
}.

Definition consumed (s s' : pos) : jsstr := take (length (left_ s) - length (left_ s')) (left_ s).
Definition capture (n : nat) (w : jsstr) (s : pos) : pos := mkPos (at_start s) (left_ s) ((n, w) :: caps s).

(** Matching with a continuation; an iteration of a repetition must consume. *)
Fixpoint run (r : regex) (k : pos → option pos) (s : pos) {struct r} : option pos :=
  match r with
  | Eps => k s
  | Class_ p => match left_ s with c :: t => if p c then k (mkPos false t (caps s)) else None | [] => None end
  | Seq a b => run a (run b k) s
  | Alt a b => match run a k s with Some x => Some x | None => run b k s end
  | Star a =>
      (fix loop (n : nat) (s : pos) : option pos :=
         match n with
         | O => k s
         | S n =>
             match run a (λ s', if (length (left_ s') <? length (left_ s))%nat then loop n s' else None) s with
             | Some x => Some x
             | None => k s
             end
         end) (length (left_ s)) s
  | Group n a => run a (λ s', k (capture n (consumed s s') s')) s
  | Bol => if at_start s then k s else None
  | Eol => match left_ s with [] => k s | _ => None end
  end.

(** [exec] searches from the left; a match is its captures. *)
Fixpoint search (r : regex) (start : bool) (s : jsstr) : option pos :=
  match run r Some (mkPos start s []) with
  | Some x => Some x
  | None => match s with [] => None | _ :: s' => search r false s' end
  end.

Definition exec (r : regex) (s : jsstr) : option (list (nat * jsstr)) := caps <$> search r true s.
Definition test (r : regex) (s : jsstr) : bool := bool_decide (is_Some (search r true s)).

Fixpoint group (n : nat) (cs : list (nat * jsstr)) : option jsstr :=
  match cs with
  | [] => None
  | (m, w) :: cs => if (m =? n)%nat then Some w else group n cs
  end.

(** ** Building blocks *)

Definition chr (c : Z) : regex := Class_ (Z.eqb c).
Fixpoint word (s : jsstr) : regex := match s with [] => Eps | c :: s => Seq (chr c) (word s) end.
Definition lit (s : string) : regex := word (js_lit s).
Definition opt (a : regex) : regex := Alt a Eps.
Definition plus (a : regex) : regex := Seq a (Star a).
Fixpoint seq_of (rs : list regex) : regex := match rs with [] => Eps | [r] => r | r :: rs => Seq r (seq_of rs) end.
Fixpoint alts (rs : list regex) : regex := match rs with [] => Class_ (λ _, false) | [r] => r | r :: rs => Alt r (alts rs) end.
Definition one_of (s : string) : Z → bool := λ u, bool_decide (u ∈ js_lit s).
Definition space : regex := Class_ is_space.
Definition non_space : regex := Class_ (λ u, negb (is_space u)).
(** [.]: anything but a line terminator. *)
Definition dot : regex := Class_ (λ u, negb ((u =? 0x0a) || (u =? 0x0d) || (u =? 0x2028) || (u =? 0x2029))).
(** The flag [i] on an ASCII word: both cases of each letter. *)
Definition lit_i (s : string) : regex :=
  foldr (λ c r, Seq (Class_ (λ u, upper_unit u =? upper_unit c)) r) Eps (js_lit s).

(** ** What a pattern can reach *)

Inductive reach : regex → pos → pos → Prop :=
| reach_eps s : reach Eps s s
| reach_class p b c t cs : p c = true → reach (Class_ p) (mkPos b (c :: t) cs) (mkPos false t cs)
| reach_seq a b s s1 s2 : reach a s s1 → reach b s1 s2 → reach (Seq a b) s s2
| reach_alt_l a b s s1 : reach a s s1 → reach (Alt a b) s s1
| reach_alt_r a b s s1 : reach b s s1 → reach (Alt a b) s s1
| reach_star_nil a s : reach (Star a) s s
| reach_star_step a s s1 s2 :
    reach a s s1 → (length (left_ s1) < length (left_ s))%nat → reach (Star a) s1 s2 → reach (Star a) s s2
| reach_group n a s s1 : reach a s s1 → reach (Group n a) s (capture n (consumed s s1) s1)
| reach_bol t cs : reach Bol (mkPos true t cs) (mkPos true t cs)
| reach_eol b cs : reach Eol (mkPos b [] cs) (mkPos b [] cs).

(** The loop of a repetition. *)
Definition star_loop (a : regex) (k : pos → option pos) : nat → pos → option pos :=
  fix loop n s :=
    match n with
    | O => k s
    | S n =>
        match run a (λ s', if (length (left_ s') <? length (left_ s))%nat then loop n s' else None) s with
        | Some x => Some x
        | None => k s
        end
    end.

Lemma run_star a k s : run (Star a) k s = star_loop a k (length (left_ s)) s.
Proof. done. Qed.

(** Whatever the matcher finds, the pattern can reach. *)
Lemma run_sound r k s x : run r k s = Some x → ∃ s', reach r s s' ∧ k s' = Some x.
Proof.
  revert k s x. induction r as [|p|a IHa b IHb|a IHa b IHb|a IHa|n a IHa| |]; intros k s x H.
  - exists s. split; [constructor|done].
  - cbn in H. destruct s as [b [|c t] cs]; [done|]. cbn in H. destruct (p c) eqn:E; [|done].
    eexists. split; [by constructor|done].
  - cbn in H. apply IHa in H as (s1 & Ha & H). apply IHb in H as (s2 & Hb & H). exists s2. split; [by econstructor|done].
  - cbn in H. destruct (run a k s) as [y|] eqn:E.
    + injection H as <-. apply IHa in E as (s1 & Ha & H). exists s1. by split; [constructor|].
    + apply IHb in H as (s1 & Hb & H). exists s1. by split; [apply reach_alt_r|].
  - rewrite run_star in H. revert H. generalize (length (left_ s)) as n. intros n. revert s x.
    induction n as [|n IHn]; intros s' x H; cbn [star_loop] in H.
    { exists s'. split; [constructor|done]. }
    destruct (run a _ s') as [y|] eqn:E; [injection H as <-|exists s'; split; [constructor|done]].
    apply IHa in E as (s1 & Ha & E). destruct (Nat.ltb_spec (length (left_ s1)) (length (left_ s'))); [|done].
    apply IHn in E as (s2 & Hs & E). exists s2. split; [by econstructor|done].
  - cbn in H. apply IHa in H as (s1 & Ha & H). eexists. split; [by constructor|done].
  - cbn in H. destruct s as [[] t cs]; [|done]. eexists. split; [constructor|done].
  - cbn in H. destruct s as [b [|c t] cs]; [|done]. eexists. split; [constructor|done].
Qed.

(** Backtracking is complete: if some reachable position satisfies the
    continuation, the matcher succeeds. *)
Lemma run_complete r s s' k : reach r s s' → is_Some (k s') → is_Some (run r k s).
Proof.
  revert s s' k. induction r as [|p|a IHa b IHb|a IHa b IHb|a IHa|n a IHa| |]; intros s s' k H Hk.
  - by inversion H; subst.
  - inversion H as [|p' b c t cs E| | | | | | | |]; subst. cbn. by rewrite E.
  - inversion H; subst. cbn. eapply IHa; [done|]. by eapply IHb.
  - cbn. inversion H; subst.
    + by edestruct (IHa s) as [x ->].
    + destruct (run a k s); [done|]. by eapply IHb.
  - rewrite run_star. assert (∀ n s, (length (left_ s) ≤ n)%nat → reach (Star a) s s' → is_Some (star_loop a k n s)) as Hloop.
    { clear s H. induction n as [|n IHn]; intros s Hn H; cbn [star_loop]; inversion H; subst; [done|lia|by destruct (run a _ _)|].
      match goal with |- is_Some (match ?m with _ => _ end) => assert (is_Some m) as [x ->]; [|done] end.
      eapply IHa; [done|]. rewrite (proj2 (Nat.ltb_lt _ _)) by done. apply IHn; [lia|done]. }
    by apply Hloop.
  - cbn. inversion H; subst. by eapply IHa.
  - by inversion H; subst.
  - by inversion H; subst.
Qed.

Lemma search_spec r b s :
  is_Some (search r b s) ↔ ∃ pre post s', s = pre ++ post ∧ reach r (mkPos (b && bool_decide (pre = [])) post []) s'.
Proof.
  revert b. induction s as [|c s IH]; intros b; cbn [search].
  - split.
    + destruct (run r Some _) as [x|] eqn:E; [|intros [? [=]]]. intros _. apply run_sound in E as (s' & Hr & _).
      exists [], [], s'. split; [done|]. by rewrite andb_true_r.
    + intros (pre & post & s' & Hs & Hr). symmetry in Hs. apply app_eq_nil in Hs as [-> ->]. rewrite andb_true_r in Hr.
      by destruct (run_complete _ _ _ Some Hr) as [x ->].
  - split.
    + destruct (run r Some _) as [x|] eqn:E.
      * intros _. apply run_sound in E as (s' & Hr & _). exists [], (c :: s), s'. split; [done|]. by rewrite andb_true_r.
      * intros (pre & post & s' & -> & Hr)%IH. exists (c :: pre), post, s'. split; [done|]. by rewrite andb_false_r.
    + intros (pre & post & s' & Hs & Hr). destruct pre as [|c' pre].
      * cbn in Hs. subst post. rewrite andb_true_r in Hr. by destruct (run_complete _ _ _ Some Hr) as [x ->].
      * injection Hs as -> ->. destruct (run r Some _); [done|]. apply IH. rewrite andb_false_r in Hr. by exists pre, post, s'.
Qed.

(** [test] decides whether the pattern matches somewhere. *)
Lemma test_spec r s :
  test r s = true ↔ ∃ pre post s', s = pre ++ post ∧ reach r (mkPos (bool_decide (pre = [])) post []) s'.
Proof. unfold test. rewrite bool_decide_eq_true. apply (search_spec r true). Qed.

(** A match found is reachable, with its captures. *)
Lemma exec_reach r s cs :
  exec r s = Some cs → ∃ pre post s', s = pre ++ post ∧ reach r (mkPos (bool_decide (pre = [])) post []) s' ∧ caps s' = cs.
Proof.
  unfold exec. intros (x & H & ->)%fmap_Some.
  assert (∀ b, search r b s = Some x → ∃ pre post, s = pre ++ post ∧ reach r (mkPos (b && bool_decide (pre = [])) post []) x) as Hs.
  { clear H. induction s as [|c s IH]; intros b H; cbn [search] in H.
    - destruct (run r Some _) as [y|] eqn:E; [|done]. injection H as ->. apply run_sound in E as (s' & Hr & [= ->]).
      exists [], []. split; [done|]. by rewrite andb_true_r.
    - destruct (run r Some _) as [y|] eqn:E.
      + injection H as ->. apply run_sound in E as (s' & Hr & [= ->]). exists [], (c :: s). split; [done|]. by rewrite andb_true_r.
      + apply IH in H as (pre & post & -> & Hr). exists (c :: pre), post. split; [done|]. by rewrite andb_false_r. }
  destruct (Hs true H) as (pre & post & ? & ?). by exists pre, post, x.
Qed.

(** ** Reachability of the building blocks *)

(** The position after a text. *)
Definition after (s : pos) (w t : jsstr) : pos := mkPos (at_start s && bool_decide (w = [])) t (caps s).

Lemma after_nil s : after s [] (left_ s) = s.
Proof. destruct s. unfold after. cbn. by rewrite andb_true_r. Qed.

Lemma after_after s w w' t t' : after (after s w t) w' t' = after s (w ++ w') t'.
Proof.
  unfold after. cbn. f_equal. rewrite <- andb_assoc. f_equal. destruct w; cbn; [by destruct w'|done].
Qed.

Lemma reach_Class p s s' :
  reach (Class_ p) s s' ↔ ∃ c t, p c = true ∧ left_ s = c :: t ∧ s' = after s [c] t.
Proof.
  split.
  - inversion 1; subst. eexists _, _. split; [done|]. unfold after. cbn. by rewrite andb_false_r.
  - destruct s as [b l cs]. cbn. intros (c & t & Hp & -> & ->). unfold after. cbn. rewrite andb_false_r. by constructor.
Qed.

Lemma reach_Seq a b s s' : reach (Seq a b) s s' ↔ ∃ s1, reach a s s1 ∧ reach b s1 s'.
Proof. split; [inversion 1; subst; eauto|]. intros (s1 & ? & ?). by econstructor. Qed.

Lemma reach_Alt a b s s' : reach (Alt a b) s s' ↔ reach a s s' ∨ reach b s s'.
Proof. split; [inversion 1; subst; eauto|]. intros [?|?]; [by constructor|by apply reach_alt_r]. Qed.

Lemma reach_Eps s s' : reach Eps s s' ↔ s' = s.
Proof. split; [by inversion 1|intros ->; constructor]. Qed.

Lemma reach_Bol s s' : reach Bol s s' ↔ at_start s = true ∧ s' = s.
Proof. split; [by inversion 1|]. destruct s as [b l cs]. cbn. intros [-> ->]. constructor. Qed.

Lemma reach_Eol s s' : reach Eol s s' ↔ left_ s = [] ∧ s' = s.
Proof. split; [by inversion 1|]. destruct s as [b l cs]. cbn. intros [-> ->]. constructor. Qed.

Lemma reach_Group n a s s' : reach (Group n a) s s' ↔ ∃ s1, reach a s s1 ∧ s' = capture n (consumed s s1) s1.
Proof. split; [inversion 1; subst; eauto|]. intros (s1 & ? & ->). by constructor. Qed.

Lemma reach_word w s s' : reach (word w) s s' ↔ ∃ t, left_ s = w ++ t ∧ s' = after s w t.
Proof.
  revert s. induction w as [|c w IH]; intros s; cbn [word].
  - rewrite reach_Eps. split; [intros ->; exists (left_ s); by rewrite after_nil|]. intros (t & Hl & ->). cbn in Hl. by rewrite <- Hl, after_nil.
  - rewrite reach_Seq. split.
    + intros (s1 & (c' & t & Hc & Hl & ->)%reach_Class & H). apply IH in H as (t' & Ht & ->). cbn in Ht. subst t.
      apply Z.eqb_eq in Hc as ->. exists t'. split; [done|]. by rewrite after_after.
    + intros (t & Hl & ->). exists (after s [c] (w ++ t)). split.
      * apply reach_Class. exists c, (w ++ t). split_and!; [by apply Z.eqb_eq|done|done].
      * apply IH. exists t. split; [done|]. by rewrite after_after.
Qed.

Lemma reach_star_class p s s' :
  reach (Star (Class_ p)) s s' ↔ ∃ w t, forallb p w = true ∧ left_ s = w ++ t ∧ s' = after s w t.
Proof.
  split.
  - remember (Star (Class_ p)) as r eqn:Hr. induction 1; try discriminate Hr; injection Hr as ->.
    + exists [], (left_ s). split_and!; [done|done|by rewrite after_nil].
    + destruct (IHreach2 eq_refl) as (w & t & Hw & Hl & ->). clear IHreach1 IHreach2.
      apply reach_Class in H as (c & t' & Hc & Hl' & ->). cbn in Hl. subst t'. exists (c :: w), t.
      split_and!; [cbn; by rewrite Hc|done|by rewrite after_after].
  - intros (w & t & Hw & Hl & ->). revert s Hl. induction w as [|c w IH]; intros s Hl.
    + cbn in Hl. rewrite <- Hl, after_nil. constructor.
    + cbn in Hw. apply andb_true_iff in Hw as [Hc Hw]. apply (reach_star_step _ _ (after s [c] (w ++ t))).
      * apply reach_Class. eauto.
      * rewrite Hl. cbn. lia.
      * replace (after s (c :: w) t) with (after (after s [c] (w ++ t)) w t) by (by rewrite after_after). by apply IH.
Qed.

Lemma consumed_after s w t : left_ s = w ++ t → consumed s (after s w t) = w.
Proof. intros H. unfold consumed, after. cbn. rewrite H, length_app, Nat.add_sub. by rewrite take_app_length. Qed.
