(* ===== verification/NodePath.v ===== *)
(** The POSIX half of [node:path] that the sources call, on paths as strings of
    code units: [isAbsolute], [normalize], [join], [resolve], [basename] and
    [dirname], by the segments between slashes. *)
From S2P Require Import Prelude JsValue Regex.
Open Scope Z_scope.

Definition slash : Z := 0x2f.
Definition dot_seg : jsstr := [0x2e].
Definition dotdot_seg : jsstr := [0x2e; 0x2e].

(** [s.split(sep)] for a separator of one code unit. *)
Fixpoint split_on (sep : Z) (s : jsstr) : list jsstr :=
  match s with
  | [] => [[]]
  | c :: s =>
      if c =? sep then [] :: split_on sep s else
      match split_on sep s with
      | w :: ws => (c :: w) :: ws
      | [] => [[c]]
      end
  end.

(** [parts.join(sep)] *)
Fixpoint join_on (sep : jsstr) (parts : list jsstr) : jsstr :=
  match parts with
  | [] => []
  | [w] => w
  | w :: ws => w ++ sep ++ join_on sep ws
  end.

Definition isAbsolute (p : jsstr) : bool := bool_decide (head p = Some slash).

(** One segment of [normalizeString]; the segments kept so far are a stack. *)
Definition norm_step (allowAboveRoot : bool) (acc : list jsstr) (seg : jsstr) : list jsstr :=
  if bool_decide (seg = []) || bool_decide (seg = dot_seg) then acc else
  if bool_decide (seg = dotdot_seg) then
    match acc with
    | top :: rest =>
        if bool_decide (top = dotdot_seg) then (if allowAboveRoot then dotdot_seg :: acc else acc) else rest
    | [] => if allowAboveRoot then [dotdot_seg] else []
    end
  else seg :: acc.

Definition norm_segs (allowAboveRoot : bool) (acc : list jsstr) (segs : list jsstr) : list jsstr :=
  foldl (norm_step allowAboveRoot) acc segs.

Definition normalizeString (p : jsstr) (allowAboveRoot : bool) : jsstr :=
  join_on [slash] (reverse (norm_segs allowAboveRoot [] (split_on slash p))).

Definition normalize (p : jsstr) : jsstr :=
  if bool_decide (p = []) then dot_seg else
  let abs := isAbsolute p in
  let trailing := bool_decide (last p = Some slash) in
  let q := normalizeString p (negb abs) in
  if bool_decide (q = []) then
    if abs then [slash] else if trailing then dot_seg ++ [slash] else dot_seg
  else
    let q := if trailing then q ++ [slash] else q in
    if abs then slash :: q else q.

Definition join_paths (parts : list jsstr) : jsstr :=
  match filter (λ p, p ≠ []) parts with
  | [] => dot_seg
  | ps => normalize (join_on [slash] ps)
  end.

(** The arguments from the right up to the first absolute one, then the working directory. *)
Fixpoint gather (cwd : jsstr) (rargs : list jsstr) (resolved : jsstr) : jsstr * bool :=
  match rargs with
  | [] => (cwd ++ [slash] ++ resolved, isAbsolute cwd)
  | p :: ps =>
      if bool_decide (p = []) then gather cwd ps resolved else
      let r := p ++ [slash] ++ resolved in
      if isAbsolute p then (r, true) else gather cwd ps r
  end.

Definition resolve (cwd : jsstr) (args : list jsstr) : jsstr :=
  let '(p, abs) := gather cwd (reverse args) [] in
  let q := normalizeString p (negb abs) in
  if abs then slash :: q else if bool_decide (q = []) then dot_seg else q.

Fixpoint drop_while (p : Z → bool) (s : jsstr) : jsstr :=
  match s with [] => [] | c :: s' => if p c then drop_while p s' else s end.
Fixpoint take_while (p : Z → bool) (s : jsstr) : jsstr :=
  match s with [] => [] | c :: s' => if p c then c :: take_while p s' else [] end.

Definition is_slash (c : Z) : bool := c =? slash.

Definition basename (p : jsstr) : jsstr :=
  reverse (take_while (λ c, negb (is_slash c)) (drop_while is_slash (reverse p))).

Definition dirname (p : jsstr) : jsstr :=
  match p with
  | [] => dot_seg
  | c :: body =>
      let upto := drop_while (λ c, negb (is_slash c)) (drop_while is_slash (reverse body)) in
      if bool_decide (upto = []) then (if c =? slash then [slash] else dot_seg)
      else if (c =? slash) && (length upto =? 1)%nat then [slash; slash]
      else take (length upto) p
  end.

Example resolve_ex :
  resolve (js_lit "/home") [js_lit "/repo/"; js_lit "a/../../x//./y"] = js_lit "/x/y" ∧
  resolve (js_lit "/home") [js_lit "w"; js_lit ".."] = js_lit "/home" ∧
  join_paths [js_lit "/repo"; js_lit "../.."; js_lit "m/"] = js_lit "/m/" ∧
  join_paths [js_lit "a"; js_lit "../../b"] = js_lit "../b" ∧
  basename (js_lit "/a/b.yml/") = js_lit "b.yml" ∧ dirname (js_lit "/a/b.yml") = js_lit "/a" ∧
  dirname (js_lit "b.yml") = js_lit "." ∧ dirname (js_lit "/a") = js_lit "/".
Proof. vm_compute. done. Qed.

(** ** Clean segments *)

(** A segment a normalised absolute path can have. *)
Definition clean (seg : jsstr) : Prop := seg ≠ [] ∧ seg ≠ dot_seg ∧ seg ≠ dotdot_seg ∧ slash ∉ seg.

(** An absolute path from its segments. *)
Definition abs_path (segs : list jsstr) : jsstr := slash :: join_on [slash] segs.

Lemma split_on_nonempty sep s : split_on sep s ≠ [].
Proof. destruct s as [|c s]; cbn; [done|]. destruct (c =? sep); [done|]. by destruct (split_on sep s). Qed.

Lemma split_on_sep sep s w : w ∈ split_on sep s → sep ∉ w.
Proof.
  revert w. induction s as [|c s IH]; intros w; cbn.
  - intros ->%list_elem_of_singleton. apply not_elem_of_nil.
  - destruct (Z.eqb_spec c sep) as [->|Hc].
    + intros [->|Hw]%elem_of_cons; [apply not_elem_of_nil|by apply IH].
    + destruct (split_on sep s) as [|x xs] eqn:E; [by apply split_on_nonempty in E|].
      intros [->|Hw]%elem_of_cons; [|by apply IH; right].
      intros [->|Hx]%elem_of_cons; [done|]. eapply IH; [left|done].
Qed.

(** Splitting a prefix that ends at a separator. *)
Lemma split_on_free c s : c ∉ s → split_on c s = [s].
Proof.
  induction s as [|x s IH]; [done|]. intros [Hx Hs]%not_elem_of_cons. cbn [split_on]. rewrite IH by done.
  rewrite (proj2 (Z.eqb_neq _ _)) by done. done.
Qed.

Lemma split_on_app sep a b : split_on sep (a ++ sep :: b) = split_on sep a ++ split_on sep b.
Proof.
  induction a as [|c a IH]; cbn.
  - by rewrite Z.eqb_refl.
  - destruct (c =? sep); rewrite IH; [done|]. destruct (split_on sep a) as [|x xs] eqn:E; [by apply split_on_nonempty in E|done].
Qed.

Lemma split_join sep ws : ws ≠ [] → Forall (λ w, sep ∉ w) ws → split_on sep (join_on [sep] ws) = ws.
Proof.
  intros Hne H. induction H as [|w ws Hw Hws IH]; [done|].
  assert (split_on sep w = [w]) as Hone.
  { clear -Hw. induction w as [|c w IH]; [done|]. apply not_elem_of_cons in Hw as [Hc Hw]. cbn.
    destruct (Z.eqb_spec c sep) as [E|_]; [by subst c; destruct Hc|]. by rewrite IH. }
  destruct ws as [|w' ws]; [done|]. change (join_on [sep] (w :: w' :: ws)) with (w ++ sep :: join_on [sep] (w' :: ws)).
  by rewrite split_on_app, Hone, IH.
Qed.

Lemma norm_step_clean acc seg : Forall clean acc → slash ∉ seg → Forall clean (norm_step false acc seg).
Proof.
  intros Ha Hs. unfold norm_step. destruct (bool_decide_reflect (seg = [])), (bool_decide_reflect (seg = dot_seg)); cbn; [done..|].
  destruct (bool_decide_reflect (seg = dotdot_seg)).
  - destruct acc as [|top acc]; [done|]. apply Forall_cons in Ha as [Ht Ha]. destruct (bool_decide_reflect (top = dotdot_seg)); [|done].
    by destruct Ht as (_ & _ & ? & _).
  - by constructor.
Qed.

Lemma norm_segs_clean segs acc : Forall clean acc → Forall (λ w, slash ∉ w) segs → Forall clean (norm_segs false acc segs).
Proof.
  intros Ha Hs. revert acc Ha. induction Hs as [|w segs Hw _ IH]; intros acc Ha; [done|]. apply IH. by apply norm_step_clean.
Qed.

Lemma norm_clean segs acc : Forall clean segs → norm_segs false acc segs = reverse segs ++ acc.
Proof.
  intros H. revert acc. induction H as [|w segs (H1 & H2 & H3 & _) _ IH]; intros acc; [done|].
  unfold norm_segs. cbn [foldl]. fold (norm_segs false (norm_step false acc w) segs). rewrite IH. unfold norm_step.
  rewrite !bool_decide_eq_false_2 by done. cbn [orb]. by rewrite reverse_cons, <- app_assoc.
Qed.

Lemma split_segs_slashless s : Forall (λ w, slash ∉ w) (split_on slash s).
Proof. apply Forall_forall. intros w. apply split_on_sep. Qed.

(** The segments of an absolute path, normalised. *)
Definition segs_of (p : jsstr) : list jsstr := reverse (norm_segs false [] (split_on slash p)).

Lemma segs_of_clean p : Forall clean (segs_of p).
Proof. apply Forall_reverse, norm_segs_clean; [constructor|]. apply split_segs_slashless. Qed.

Lemma norm_segs_app al acc a b : norm_segs al acc (a ++ b) = norm_segs al (norm_segs al acc a) b.
Proof. apply foldl_app. Qed.

Lemma norm_nil_seg al acc : norm_segs al acc [[]] = acc.
Proof. done. Qed.

Lemma resolve_one cwd root : isAbsolute root = true → resolve cwd [root] = abs_path (segs_of root).
Proof.
  intros H. unfold resolve. cbn. destruct (bool_decide_reflect (root = [])) as [->|_]; [done|]. rewrite H. cbn.
  unfold abs_path, normalizeString, segs_of. by rewrite split_on_app, norm_segs_app.
Qed.

(** Resolving a relative path: its segments applied to the stack of the root's. *)
Lemma resolve_two cwd root rel :
  isAbsolute root = true → rel ≠ [] → isAbsolute rel = false →
  resolve cwd [root; rel] = abs_path (reverse (norm_segs false (reverse (segs_of root)) (split_on slash rel))).
Proof.
  intros H Hne Hrel. unfold resolve. cbn. rewrite (bool_decide_eq_false_2 (rel = [])), Hrel by done.
  destruct (bool_decide_reflect (root = [])) as [->|_]; [done|]. rewrite H. cbn.
  unfold abs_path, normalizeString, segs_of. rewrite reverse_involutive. f_equal. f_equal. f_equal.
  rewrite split_on_app, norm_segs_app. by rewrite split_on_app, norm_segs_app.
Qed.

Lemma abs_path_absolute segs : isAbsolute (abs_path segs) = true.
Proof. done. Qed.

Lemma segs_of_abs_path segs : Forall clean segs → segs_of (abs_path segs) = segs.
Proof.
  intros H. unfold segs_of, abs_path. change (slash :: ?l) with ([] ++ slash :: l). rewrite split_on_app, norm_segs_app.
  cbn [split_on]. rewrite norm_nil_seg. destruct segs as [|w ws]; [done|]. rewrite split_join.
  - by rewrite norm_clean, app_nil_r, reverse_involutive.
  - done.
  - eapply Forall_impl; [exact H|]. by intros w' (_ & _ & _ & ?).
Qed.

Lemma join_on_app sep a b : a ≠ [] → b ≠ [] → join_on sep (a ++ b) = join_on sep a ++ sep ++ join_on sep b.
Proof.
  intros Ha Hb. induction a as [|w a IH]; [done|]. destruct a as [|w' a]; cbn [app].
  - destruct b; [done|]. by cbn.
  - change (join_on sep (w :: w' :: a ++ b)) with (w ++ sep ++ join_on sep ((w' :: a) ++ b)).
    rewrite IH by done. change (join_on sep (w :: w' :: a)) with (w ++ sep ++ join_on sep (w' :: a)). by rewrite <- !app_assoc.
Qed.

Lemma split_abs_path segs : segs ≠ [] → Forall clean segs → split_on slash (abs_path segs) = [] :: segs.
Proof.
  intros Hne H. unfold abs_path. change (slash :: ?l) with ([] ++ slash :: l). rewrite split_on_app, split_join; [done|done|].
  eapply Forall_impl; [exact H|]. by intros w' (_ & _ & _ & ?).
Qed.

(** The text below which the paths under a root lie. *)
Definition dir_prefix (p : jsstr) : jsstr := if endsWith p [slash] then p else p ++ [slash].

Lemma dir_prefix_abs segs : Forall clean segs → dir_prefix (abs_path segs) = if bool_decide (segs = []) then [slash] else abs_path segs ++ [slash].
Proof.
  intros H. unfold dir_prefix, endsWith. destruct (bool_decide_reflect (segs = [])) as [->|Hne]; [done|].
  rewrite bool_decide_eq_false_2; [done|]. intros [k Hk].
  pose proof (split_abs_path _ Hne H) as E. rewrite Hk in E. change ([slash]) with (slash :: []) in E. rewrite split_on_app in E.
  assert ([] ∈ [] :: segs ∧ last ([] :: segs) = Some []) as [_ Hl].
  { split; [left|]. rewrite <- E. cbn [split_on]. apply last_snoc. }
  destruct segs as [|w ws]; [done|]. rewrite last_cons_cons in Hl. apply last_Some_elem_of in Hl.
  rewrite Forall_forall in H. by destruct (H _ Hl).
Qed.

(** Textual prefix of paths is prefix of segments. *)
Lemma under_iff r s :
  Forall clean r → Forall clean s →
  (abs_path s = abs_path r ∨ dir_prefix (abs_path r) `prefix_of` abs_path s) ↔ r `prefix_of` s.
Proof.
  intros Hr Hs. rewrite dir_prefix_abs by done. split.
  - intros [E|[t E]].
    { apply (f_equal segs_of) in E. rewrite !segs_of_abs_path in E by done. by rewrite E. }
    destruct (bool_decide_reflect (r = [])) as [->|Hne]; [apply prefix_nil|].
    destruct (decide (s = [])) as [->|Hs'].
    { apply (f_equal length) in E. rewrite !length_app in E. cbn in E. lia. }
    apply (f_equal (split_on slash)) in E. rewrite split_abs_path, <- app_assoc in E by done. cbn [app] in E.
    rewrite split_on_app, split_abs_path in E by done. injection E as ->. by exists (split_on slash t).
  - intros [k ->]. destruct (decide (k = [])) as [->|Hk]; [left; by rewrite app_nil_r|right].
    destruct (bool_decide_reflect (r = [])) as [->|Hne]; [by eexists|].
    unfold abs_path. rewrite join_on_app by done. exists (join_on [slash] k). by rewrite <- !app_assoc.
Qed.
