(* ===== verification/Json.v ===== *)
(** [JSON.stringify] and [JSON.parse] of ECMA-262, as the session files, the
    tool-call parser and the RPC lines use them.

    Text is a list of UTF-16 code units.  Numbers follow [Number::toString]: a
    safe integer is its decimal digits; another finite number is the shortest
    digit string that reads back as the number, laid out by the rules of the
    standard, and reading rounds the exact decimal value to the nearest binary64,
    ties to even.  [parse_value] is recursive descent with fuel;
    [JSON_parse] gives it enough (JsonSpec.v). *)
From S2P Require Import Prelude Bytes JsValue.
Open Scope Z_scope.

(** ** Numbers *)

Fixpoint span (p : Z → bool) (s : jsstr) : jsstr * jsstr :=
  match s with
  | [] => ([], [])
  | c :: s' => if p c then let '(a, b) := span p s' in (c :: a, b) else ([], s)
  end.

Fixpoint digits_loop (fuel : nat) (z : Z) (acc : jsstr) : jsstr :=
  match fuel with
  | O => acc
  | S fuel =>
      let acc := 0x30 + z mod 10 :: acc in
      if z <? 10 then acc else digits_loop fuel (z / 10) acc
  end.

(** The decimal digits of a nonnegative integer. *)
Definition decimal (z : Z) : jsstr := digits_loop (S (Z.to_nat (Z.log2 z))) z [].

Definition digits_value (s : jsstr) : Z := foldl (λ acc d, acc * 10 + (d - 0x30)) 0 s.

(** The nearest integer to [num / den], ties to even. *)
Definition round_half_even (num den : Z) : Z :=
  let m := num / den in
  let r := 2 * (num mod den) in
  if (den <? r) || ((r =? den) && Z.odd m) then m + 1 else m.

(** The binary64 nearest to [p / q], for positive [p] and [q]. *)
Definition round_ratio (negative : bool) (p q : Z) : jsnum :=
  let k := Z.log2 p - Z.log2 q in
  let k := if p * 2 ^ Z.max 0 (- k) <? q * 2 ^ Z.max 0 k then k - 1 else k in
  let x := Z.max (k - 52) (-1074) in
  let m := round_half_even (p * 2 ^ Z.max 0 (- x)) (q * 2 ^ Z.max 0 x) in
  if 971 <? x then NInf negative else
  num_of_bits ((if negative then 2 ^ 63 else 0) +
               (if m <? 2 ^ 52 then m else (x + 1075) * 2 ^ 52 + (m - 2 ^ 52))).

(** The number [m * 10^e]; a small integer is exact. *)
Definition to_double (negative : bool) (m e : Z) : jsnum :=
  if m =? 0 then if negative then NNegZero else NInt 0 else
  if (e =? 0) && (m <=? MAX_SAFE) then NInt (if negative then - m else m) else
  round_ratio negative (m * 10 ^ Z.max 0 e) (10 ^ Z.max 0 (- e)).

Definition is_char (c : Z) (s : jsstr) : option jsstr :=
  match s with
  | c' :: s' => if c' =? c then Some s' else None
  | [] => None
  end.

(** The parts of a JSON number after its integer digits. *)
Definition read_fraction (s : jsstr) : option (jsstr * jsstr) :=
  match is_char 0x2e s with
  | None => Some ([], s)
  | Some s' => let '(ds, s'') := span is_digit s' in if bool_decide (ds = []) then None else Some (ds, s'')
  end.

Definition read_exponent (s : jsstr) : option Z :=
  match s with
  | [] => Some 0
  | c :: s' =>
      if negb ((c =? 0x65) || (c =? 0x45)) then None else
      let '(sign, s') :=
        match is_char 0x2d s', is_char 0x2b s' with
        | Some s'', _ => (-1, s'')
        | None, Some s'' => (1, s'')
        | None, None => (1, s')
        end in
      let '(ds, s'') := span is_digit s' in
      if bool_decide (ds = []) || negb (bool_decide (s'' = [])) then None else Some (sign * digits_value ds)
  end.

(** An integer part is [0] or starts with a nonzero digit. *)
Definition int_part_ok (ds : jsstr) : bool :=
  match ds with
  | [] => false
  | [_] => true
  | d :: _ => negb (d =? 0x30)
  end.

(** The value of a JSON number literal that is the whole of [s]. *)
Definition read_number (s : jsstr) : option jsnum :=
  let '(negative, s) := match is_char 0x2d s with Some s' => (true, s') | None => (false, s) end in
  let '(ip, s) := span is_digit s in
  if negb (int_part_ok ip) then None else
  match read_fraction s with
  | None => None
  | Some (fp, s) =>
      match read_exponent s with
      | None => None
      | Some e => Some (to_double negative (digits_value (ip ++ fp)) (e - Z.of_nat (length fp)))
      end
  end.

(** The characters a number literal is made of. *)
Definition num_char (c : Z) : bool :=
  is_digit c || (c =? 0x2d) || (c =? 0x2b) || (c =? 0x2e) || (c =? 0x65) || (c =? 0x45).

(** *** [Number::toString] *)

(** The absolute value of a fraction as [mant / 2^j]. *)
Definition frac_mant (bits : Z) : Z :=
  let e := Z.land (Z.shiftr bits 52) 0x7ff in
  let m := Z.land bits (Z.ones 52) in
  if e =? 0 then m else m + 2 ^ 52.
Definition frac_shift (bits : Z) : Z :=
  let e := Z.land (Z.shiftr bits 52) 0x7ff in
  if e =? 0 then 1074 else 1075 - e.
Definition frac_negative (bits : Z) : bool := Z.testbit bits 63.

Definition zeros (n : Z) : jsstr := replicate (Z.to_nat n) 0x30.

(** The layout of the digits [s], [k] of them, for the value [s * 10^(n - k)]. *)
Definition layout (s n k : Z) : jsstr :=
  let ds := decimal s in
  if (k <=? n) && (n <=? 21) then ds ++ zeros (n - k)
  else if (0 <? n) && (n <=? 21) then take (Z.to_nat n) ds ++ 0x2e :: drop (Z.to_nat n) ds
  else if (-6 <? n) && (n <=? 0) then 0x30 :: 0x2e :: zeros (- n) ++ ds
  else
    let e := n - 1 in
    let exponent := 0x65 :: (if 0 <=? e then 0x2b else 0x2d) :: decimal (Z.abs e) in
    match ds with
    | [d] => d :: exponent
    | d :: ds => d :: 0x2e :: ds ++ exponent
    | [] => exponent
    end.

(** The decimal exponent [n] with [10^(n-1) <= p/q < 10^n]. *)
Definition decimal_exponent (p q : Z) : Z :=
  let n0 := (Z.log2 p - Z.log2 q - 1) * 30103 / 100000 in
  let ge n := q * 10 ^ Z.max 0 n <=? p * 10 ^ Z.max 0 (- n) in
  if ge (n0 + 2) then n0 + 3 else if ge (n0 + 1) then n0 + 2 else if ge n0 then n0 + 1 else n0.

Definition sign_text (negative : bool) (s : jsstr) : jsstr := if negative then 0x2d :: s else s.

(** The first digit count whose closest decimals read back as the number. *)
Fixpoint shortest (fuel : nat) (v : jsnum) (negative : bool) (p q n k : Z) : option jsstr :=
  match fuel with
  | O => None
  | S fuel =>
      let num := p * 10 ^ Z.max 0 (k - n) in
      let den := q * 10 ^ Z.max 0 (n - k) in
      let s := num / den in
      let candidates := if 2 * (num mod den) <=? den then [s; s + 1] else [s + 1; s] in
      let good s :=
        let text := sign_text negative (layout s n k) in
        (10 ^ (k - 1) <=? s) && (s <? 10 ^ k) && forallb num_char text &&
        bool_decide (read_number text = Some v) in
      match List.find good candidates with
      | Some s => Some (sign_text negative (layout s n k))
      | None => shortest fuel v negative p q n (k + 1)
      end
  end.

(** The exact expansion of [m / 2^j] as [(m * 5^j)e-j]. *)
Definition exact_text (negative : bool) (m j : Z) : jsstr :=
  sign_text negative (decimal (m * 5 ^ j) ++ 0x65 :: 0x2d :: decimal j).

(** A binary64 is determined by 17 significant digits; the expansion after them
    keeps the function total. *)
Definition num_text (n : jsnum) : jsstr :=
  match n with
  | NInt z =>
      if Z.abs z <=? MAX_SAFE then sign_text (z <? 0) (decimal (Z.abs z)) else
      default (sign_text (z <? 0) (decimal (Z.abs z)))
        (shortest 17 n (z <? 0) (Z.abs z) 1 (decimal_exponent (Z.abs z) 1) 1)
  | NNegZero => [0x30]
  | NFrac bits =>
      let m := frac_mant bits in
      let j := frac_shift bits in
      let negative := frac_negative bits in
      default (exact_text negative m j)
        (shortest 17 n negative m (2 ^ j) (decimal_exponent m (2 ^ j)) 1)
  | NInf _ | NNaN => js_lit "null"
  end.

(** ** Strings *)

Definition hex_digit (d : Z) : Z := if d <? 10 then 0x30 + d else 0x61 + (d - 10).
Definition unicode_escape (u : Z) : jsstr :=
  [0x5c; 0x75; hex_digit (u / 0x1000); hex_digit (u / 0x100 mod 0x10); hex_digit (u / 0x10 mod 0x10); hex_digit (u mod 0x10)].

(** [QuoteJSONString] on one code unit that is not half of a pair. *)
Definition quote_unit (u : Z) : jsstr :=
  if u =? 0x08 then [0x5c; 0x62] else
  if u =? 0x09 then [0x5c; 0x74] else
  if u =? 0x0a then [0x5c; 0x6e] else
  if u =? 0x0c then [0x5c; 0x66] else
  if u =? 0x0d then [0x5c; 0x72] else
  if u =? 0x22 then [0x5c; 0x22] else
  if u =? 0x5c then [0x5c; 0x5c] else
  if (u <? 0x20) || is_high_surrogate u || is_low_surrogate u then unicode_escape u else [u].

Fixpoint quote_units (s : jsstr) : jsstr :=
  match s with
  | [] => []
  | u :: s' =>
      match s' with
      | w :: s'' =>
          if is_high_surrogate u && is_low_surrogate w then u :: w :: quote_units s''
          else quote_unit u ++ quote_units s'
      | [] => quote_unit u
      end
  end.

Definition quote (s : jsstr) : jsstr := 0x22 :: quote_units s ++ [0x22].

Definition hex_value (c : Z) : option Z :=
  if is_digit c then Some (c - 0x30) else
  if (0x61 <=? c) && (c <=? 0x66) then Some (c - 0x61 + 10) else
  if (0x41 <=? c) && (c <=? 0x46) then Some (c - 0x41 + 10) else None.

Definition hex4 (a b c d : Z) : option Z :=
  match hex_value a, hex_value b, hex_value c, hex_value d with
  | Some a, Some b, Some c, Some d => Some (a * 0x1000 + b * 0x100 + c * 0x10 + d)
  | _, _, _, _ => None
  end.

Definition unescape (e : Z) : option Z :=
  if (e =? 0x22) || (e =? 0x5c) || (e =? 0x2f) then Some e else
  if e =? 0x62 then Some 0x08 else
  if e =? 0x74 then Some 0x09 else
  if e =? 0x6e then Some 0x0a else
  if e =? 0x66 then Some 0x0c else
  if e =? 0x72 then Some 0x0d else None.

Definition push_unit (u : Z) (r : option (jsstr * jsstr)) : option (jsstr * jsstr) :=
  match r with Some (s, rest) => Some (u :: s, rest) | None => None end.

(** A string after its opening quote. *)
Fixpoint parse_string (s : jsstr) : option (jsstr * jsstr) :=
  match s with
  | [] => None
  | c :: s1 =>
      if c =? 0x22 then Some ([], s1) else
      if c <? 0x20 then None else
      if c =? 0x5c then
        match s1 with
        | [] => None
        | e :: s2 =>
            if e =? 0x75 then
              match s2 with
              | h1 :: h2 :: h3 :: h4 :: s3 =>
                  match hex4 h1 h2 h3 h4 with Some u => push_unit u (parse_string s3) | None => None end
              | _ => None
              end
            else match unescape e with Some u => push_unit u (parse_string s2) | None => None end
        end
      else push_unit c (parse_string s1)
  end.

(** ** Values *)

Fixpoint join (sep : jsstr) (parts : list jsstr) : jsstr :=
  match parts with
  | [] => []
  | [p] => p
  | p :: parts => p ++ sep ++ join sep parts
  end.

(** A typed array has its indices as properties. *)
Fixpoint stringify (t : tree) : jsstr :=
  match t with
  | TNull => js_lit "null"
  | TBool true => js_lit "true"
  | TBool false => js_lit "false"
  | TNum n => num_text n
  | TText s => quote s
  | TBytes bs => 0x7b :: join [0x2c] (imap (λ i b, quote (decimal (Z.of_nat i)) ++ 0x3a :: decimal b) bs) ++ [0x7d]
  | TArray ts => 0x5b :: join [0x2c] (stringify <$> ts) ++ [0x5d]
  | TMap es => 0x7b :: join [0x2c] ((λ e, quote e.1 ++ 0x3a :: stringify e.2) <$> es) ++ [0x7d]
  end.

Definition is_ws (c : Z) : bool := (c =? 0x20) || (c =? 0x09) || (c =? 0x0a) || (c =? 0x0d).

Fixpoint skip_ws (s : jsstr) : jsstr :=
  match s with
  | c :: s' => if is_ws c then skip_ws s' else s
  | [] => []
  end.

Fixpoint strip (prefix s : jsstr) : option jsstr :=
  match prefix, s with
  | [], _ => Some s
  | c :: prefix, c' :: s => if c' =? c then strip prefix s else None
  | _ :: _, [] => None
  end.

(** [CreateDataProperty] while parsing: a repeated name overwrites. *)
Definition set_prop (k : jsstr) (v : tree) (props : list (jsstr * tree)) : list (jsstr * tree) :=
  if bool_decide (k ∈ props.*1)
  then (λ e, if bool_decide (e.1 = k) then (k, v) else e) <$> props
  else define_prop k v props.

Fixpoint parse_value (fuel : nat) (s : jsstr) : option (tree * jsstr) :=
  match fuel with
  | O => None
  | S fuel =>
      match skip_ws s with
      | [] => None
      | c :: s1 =>
          if c =? 0x7b then
            match is_char 0x7d (skip_ws s1) with
            | Some s2 => Some (TMap [], s2)
            | None => parse_members fuel [] s1
            end
          else if c =? 0x5b then
            match is_char 0x5d (skip_ws s1) with
            | Some s2 => Some (TArray [], s2)
            | None => parse_elements fuel [] s1
            end
          else if c =? 0x22 then
            match parse_string s1 with Some (t, s2) => Some (TText t, s2) | None => None end
          else if c =? 0x6e then (λ s2, (TNull, s2)) <$> strip (js_lit "ull") s1
          else if c =? 0x74 then (λ s2, (TBool true, s2)) <$> strip (js_lit "rue") s1
          else if c =? 0x66 then (λ s2, (TBool false, s2)) <$> strip (js_lit "alse") s1
          else
            let '(lit, s2) := span num_char (c :: s1) in
            match read_number lit with Some n => Some (TNum n, s2) | None => None end
      end
  end
with parse_members (fuel : nat) (acc : list (jsstr * tree)) (s : jsstr) : option (tree * jsstr) :=
  match fuel with
  | O => None
  | S fuel =>
      match is_char 0x22 (skip_ws s) with
      | None => None
      | Some s1 =>
          match parse_string s1 with
          | None => None
          | Some (k, s2) =>
              match is_char 0x3a (skip_ws s2) with
              | None => None
              | Some s3 =>
                  match parse_value fuel s3 with
                  | None => None
                  | Some (v, s4) =>
                      let acc := set_prop k v acc in
                      match skip_ws s4 with
                      | c :: s5 =>
                          if c =? 0x2c then parse_members fuel acc s5
                          else if c =? 0x7d then Some (TMap acc, s5) else None
                      | [] => None
                      end
                  end
              end
          end
      end
  end
with parse_elements (fuel : nat) (acc : list tree) (s : jsstr) : option (tree * jsstr) :=
  match fuel with
  | O => None
  | S fuel =>
      match parse_value fuel s with
      | None => None
      | Some (v, s1) =>
          let acc := acc ++ [v] in
          match skip_ws s1 with
          | c :: s2 =>
              if c =? 0x2c then parse_elements fuel acc s2
              else if c =? 0x5d then Some (TArray acc, s2) else None
          | [] => None
          end
      end
  end.

Definition parse_fuel (s : jsstr) : nat := (2 * length s + 2)%nat.

(** [None] is the [SyntaxError]. *)
Definition JSON_parse (s : jsstr) : option tree :=
  match parse_value (parse_fuel s) s with
  | Some (t, rest) => if bool_decide (skip_ws rest = []) then Some t else None
  | None => None
  end.

Definition JSON_stringify : tree → jsstr := stringify.

(** ** Data a JSON text carries without loss *)

Definition text_ok (s : jsstr) : bool := forallb (λ u, (0 <=? u) && (u <? 0x10000)) s.

Definition num_json (n : jsnum) : bool :=
  match n with
  | NInt z => Z.abs z <=? MAX_SAFE
  | NFrac _ => bool_decide (num_ok n)
  | _ => false
  end.

Fixpoint json_ok (t : tree) : bool :=
  match t with
  | TNull | TBool _ => true
  | TNum n => num_json n
  | TText s => text_ok s
  | TBytes _ => false
  | TArray ts => forallb json_ok ts
  | TMap es => keys_ok (es.*1) && forallb (λ e, text_ok e.1 && json_ok e.2) es
  end.

Example json_example :
  JSON_parse (JSON_stringify (TMap [(js_lit "a", TArray [TNum (NInt (-12)); TNum (num_of_bits 0x3fb999999999999a); TText [0x0a; 0xd800; 0x22]]); (js_lit "b", TMap [])]))
  = Some (TMap [(js_lit "a", TArray [TNum (NInt (-12)); TNum (num_of_bits 0x3fb999999999999a); TText [0x0a; 0xd800; 0x22]]); (js_lit "b", TMap [])])
  ∧ num_text (num_of_bits 0x3fb999999999999a) = js_lit "0.1"
  ∧ num_text (num_of_bits 1) = js_lit "5e-324"
  ∧ num_text (num_of_bits 0x3c80000000000000) = js_lit "2.7755575615628914e-17".
Proof. vm_compute. done. Qed.
