(* ===== verification/JsonSpec.v ===== *)
(** What the sources rely on of [JSON.stringify] and [JSON.parse]: data without
    bytes, infinities, NaN, -0 and unsafe integers comes back unchanged, the text
    is one line, the parser's fuel is enough, and no proper prefix of an object's
    text is JSON. *)
From S2P Require Import Prelude Bytes JsValue Json.
Open Scope Z_scope.

(** ** Decimal digits *)

Lemma digits_loop_acc fuel z acc : digits_loop fuel z acc = digits_loop fuel z [] ++ acc.
Proof.
  revert z acc. induction fuel as [|fuel IH]; intros z acc; [done|]. cbn [digits_loop].
  destruct (z <? 10); [done|]. rewrite (IH _ (_ :: acc)), (IH _ [_]). by rewrite <- app_assoc.
Qed.

Lemma digits_loop_spec fuel z :
  0 ≤ z < 10 ^ Z.of_nat (S fuel) →
  digits_value (digits_loop (S fuel) z []) = z ∧
  forallb is_digit (digits_loop (S fuel) z []) = true ∧
  int_part_ok (digits_loop (S fuel) z []) = true.
Proof.
  revert z. induction fuel as [|fuel IH]; intros z Hz.
  - change (10 ^ Z.of_nat 1) with 10 in Hz. cbn [digits_loop]. destruct (Z.ltb_spec z 10); [|lia].
    rewrite (Z.mod_small z 10) by lia. split_and!; [cbn; lia| |done].
    cbn. unfold is_digit. repeat (rewrite (proj2 (Z.leb_le _ _)); [|lia]). done.
  - remember (S fuel) as f eqn:Ef. cbn [digits_loop]. destruct (Z.ltb_spec z 10).
    + rewrite (Z.mod_small z 10) by lia. split_and!; [cbn; lia| |done].
      cbn. unfold is_digit. repeat (rewrite (proj2 (Z.leb_le _ _)); [|lia]). done.
    + rewrite digits_loop_acc. rewrite Nat2Z.inj_succ, Z.pow_succ_r in Hz by lia.
      destruct (IH (z / 10)) as (Hv & Hd & Hi).
      { split; [apply Z.div_pos; lia|]. apply Z.div_lt_upper_bound; lia. }
      pose proof (Z.mod_pos_bound z 10). split_and!.
      * unfold digits_value in *. rewrite foldl_app, Hv. cbn. rewrite (Z.div_mod z 10) at 3; lia.
      * rewrite forallb_app, Hd. cbn. unfold is_digit.
        repeat (rewrite (proj2 (Z.leb_le _ _)); [|lia]). done.
      * assert (digits_loop f (z / 10) [] ≠ [0x30]) as Hne.
        { intros E. rewrite E in Hv. unfold digits_value in Hv. cbn in Hv.
          pose proof (Z.div_le_mono 10 z 10). change (10 / 10) with 1 in *. lia. }
        destruct (digits_loop f (z / 10) []) as [|d [|d' ds]]; [done| |done].
        cbn. destruct (Z.eqb_spec d 0x30); [by subst|done].
Qed.

Lemma decimal_spec z :
  0 ≤ z → digits_value (decimal z) = z ∧ forallb is_digit (decimal z) = true ∧ int_part_ok (decimal z) = true.
Proof.
  intros Hz. apply digits_loop_spec. split; [done|].
  rewrite Nat2Z.inj_succ, Z2Nat.id by apply Z.log2_nonneg.
  destruct (decide (z = 0)) as [->|]; [done|].
  destruct (Z.log2_spec z) as [_ H]; [lia|]. eapply Z.lt_le_trans; [exact H|].
  apply Z.pow_le_mono_l. lia.
Qed.

(** ** Scanning *)

Definition stops (p : Z → bool) (s : jsstr) : Prop :=
  match s with [] => True | c :: _ => p c = false end.

Lemma span_app p a b : forallb p a = true → stops p b → span p (a ++ b) = (a, b).
Proof.
  intros Ha Hb. induction a as [|c a IH]; cbn in *.
  - destruct b as [|c b]; cbn in *; [done|]. by rewrite Hb.
  - apply andb_true_iff in Ha as [-> Ha]. by rewrite IH.
Qed.

Lemma span_all p a : forallb p a = true → span p a = (a, []).
Proof. intros Ha. rewrite <- (app_nil_r a) at 1. by apply span_app. Qed.

Lemma num_char_digits s : forallb is_digit s = true → forallb num_char s = true.
Proof.
  induction s as [|c s IH]; [done|]. cbn. intros [Hc Hs]%andb_true_iff. rewrite IH by done.
  unfold num_char. by rewrite Hc.
Qed.

Lemma is_char_digits c s : forallb is_digit s = true → is_digit c = false → is_char c s = None.
Proof.
  destruct s as [|d s]; [done|]. cbn. intros [Hd _]%andb_true_iff Hc.
  destruct (Z.eqb_spec d c); [by subst; congruence|done].
Qed.

Lemma int_part_nonempty s : int_part_ok s = true → s ≠ [].
Proof. by destruct s. Qed.

Lemma is_char_digits_app c s t :
  int_part_ok s = true → forallb is_digit s = true → is_digit c = false → is_char c (s ++ t) = None.
Proof.
  destruct s as [|d s]; [done|]. cbn. intros _ [Hd _]%andb_true_iff Hc.
  destruct (Z.eqb_spec d c); [by subst; congruence|done].
Qed.

(** A literal without a fraction: digits and what follows them. *)
Lemma read_number_digits negative z t e :
  0 ≤ z → stops is_digit t → is_char 0x2e t = None → read_exponent t = Some e →
  read_number (sign_text negative (decimal z ++ t)) = Some (to_double negative z e).
Proof.
  intros Hz Ht Hdot He. destruct (decimal_spec z Hz) as (Hv & Hd & Hi).
  unfold read_number.
  assert ((match is_char 0x2d (sign_text negative (decimal z ++ t)) with
           | Some s' => (true, s')
           | None => (false, sign_text negative (decimal z ++ t))
           end) = (negative, decimal z ++ t)) as ->.
  { destruct negative; cbn [sign_text]; [done|]. by rewrite is_char_digits_app. }
  rewrite span_app by done. rewrite Hi. cbn [negb]. unfold read_fraction. rewrite Hdot, He.
  rewrite app_nil_r, Hv. cbn [length]. do 2 f_equal. lia.
Qed.

(** ** Exact rounding *)

Lemma round_half_even_exact m d : 0 < d → round_half_even (m * d) d = m.
Proof.
  intros Hd. unfold round_half_even. rewrite Z.div_mul, Z.mod_mul by lia.
  change (2 * 0) with 0. destruct (Z.ltb_spec d 0); [lia|]. destruct (Z.eqb_spec 0 d); [lia|]. done.
Qed.

Lemma ratio_cmp m j k : 0 < m → 0 ≤ j →
  (m * 5 ^ j * 2 ^ Z.max 0 (- k) <? 10 ^ j * 2 ^ Z.max 0 k) =
  (m * 2 ^ Z.max 0 (- k) <? 2 ^ (j + Z.max 0 k)).
Proof.
  intros Hm Hj. change 10 with (2 * 5). rewrite Z.pow_mul_l, Z.pow_add_r by lia.
  assert (0 < 5 ^ j) by (apply Z.pow_pos_nonneg; lia).
  destruct (Z.ltb_spec (m * 2 ^ Z.max 0 (- k)) (2 ^ j * 2 ^ Z.max 0 k)) as [H1|H1].
  - apply Z.ltb_lt. apply (Z.mul_lt_mono_pos_l (5 ^ j)) in H1; [|done]. lia.
  - apply Z.ltb_ge. apply (Z.mul_le_mono_nonneg_l _ _ (5 ^ j)) in H1; lia.
Qed.

(** The binary exponent [round_ratio] finds for [m / 2^j]. *)
Lemma ratio_exponent m j : 0 < m → 0 ≤ j →
  let k := Z.log2 (m * 5 ^ j) - Z.log2 (10 ^ j) in
  (if m * 5 ^ j * 2 ^ Z.max 0 (- k) <? 10 ^ j * 2 ^ Z.max 0 k then k - 1 else k) = Z.log2 m - j.
Proof.
  intros Hm Hj k. assert (0 < 5 ^ j) as H5 by (apply Z.pow_pos_nonneg; lia).
  assert (Z.log2 (10 ^ j) = j + Z.log2 (5 ^ j)) as Hq.
  { change 10 with (2 * 5). rewrite Z.pow_mul_l, Z.mul_comm, Z.log2_mul_pow2 by lia. lia. }
  pose proof (Z.log2_mul_above m (5 ^ j)) as Ha. pose proof (Z.log2_mul_below m (5 ^ j)) as Hb.
  destruct (Z.log2_spec m Hm) as [Hlo Hhi]. pose proof (Z.log2_nonneg m) as Hl0.
  rewrite ratio_cmp by done. set (L := Z.log2 m) in *.
  assert (k = L - j ∨ k = L - j + 1) as [Hk|Hk] by (subst k; lia).
  - destruct (Z.ltb_spec (m * 2 ^ Z.max 0 (- k)) (2 ^ (j + Z.max 0 k))) as [H|H]; [exfalso|lia].
    assert (2 ^ L * 2 ^ Z.max 0 (- k) ≤ m * 2 ^ Z.max 0 (- k)) by (apply Z.mul_le_mono_nonneg_r; lia).
    rewrite <- Z.pow_add_r in * by lia. replace (L + Z.max 0 (- k)) with (j + Z.max 0 k) in * by lia. lia.
  - destruct (Z.ltb_spec (m * 2 ^ Z.max 0 (- k)) (2 ^ (j + Z.max 0 k))) as [H|H]; [lia|exfalso].
    assert (m * 2 ^ Z.max 0 (- k) < 2 ^ Z.succ L * 2 ^ Z.max 0 (- k)) as H2.
    { apply Z.mul_lt_mono_pos_r; [apply Z.pow_pos_nonneg; lia|lia]. }
    rewrite <- Z.pow_add_r in H2 by lia. replace (Z.succ L + Z.max 0 (- k)) with (j + Z.max 0 k) in H2 by lia. lia.
Qed.

Lemma round_exact negative m j :
  0 < m < 2 ^ 53 → 1 ≤ j ≤ 1074 → (m < 2 ^ 52 → j = 1074) →
  round_ratio negative (m * 5 ^ j) (10 ^ j) =
  num_of_bits ((if negative then 2 ^ 63 else 0) + (if m <? 2 ^ 52 then m else (1075 - j) * 2 ^ 52 + (m - 2 ^ 52))).
Proof.
  intros Hm Hj Hsub. unfold round_ratio. rewrite ratio_exponent by lia.
  assert (Z.max (Z.log2 m - j - 52) (-1074) = - j) as ->.
  { destruct (Z.lt_ge_cases m (2 ^ 52)) as [Hs|Hs].
    - rewrite Hsub by done. apply Z.log2_lt_pow2 in Hs; lia.
    - assert (Z.log2 m = 52) by (apply Z.log2_unique; lia). lia. }
  replace (Z.max 0 (- - j)) with j by lia. replace (Z.max 0 (- j)) with 0 by lia.
  rewrite Z.pow_0_r, Z.mul_1_r.
  replace (m * 5 ^ j * 2 ^ j) with (m * 10 ^ j)
    by (change 10 with (2 * 5); rewrite Z.pow_mul_l; lia).
  rewrite round_half_even_exact by (apply Z.pow_pos_nonneg; lia).
  destruct (Z.ltb_spec 971 (- j)); [lia|]. do 2 f_equal. destruct (m <? 2 ^ 52); lia.
Qed.

(** ** The bits of a fraction *)

Lemma bits_fields bits : 0 ≤ bits < 2 ^ 64 →
  bits = (if Z.testbit bits 63 then 2 ^ 63 else 0) + Z.land (Z.shiftr bits 52) 0x7ff * 2 ^ 52 + Z.land bits (Z.ones 52).
Proof.
  intros Hb. change 0x7ff with (Z.ones 11).
  rewrite !Z.land_ones, Z.shiftr_div_pow2 by lia.
  assert ((if Z.testbit bits 63 then 2 ^ 63 else 0) = bits / 2 ^ 63 * 2 ^ 63) as ->.
  { rewrite Z.testbit_odd, Z.shiftr_div_pow2 by lia.
    assert (bits / 2 ^ 63 = 0 ∨ bits / 2 ^ 63 = 1) as [E|E]; [|by rewrite E|by rewrite E].
    pose proof (Z.div_pos bits (2 ^ 63)). assert (bits / 2 ^ 63 < 2); [|lia].
    apply Z.div_lt_upper_bound; lia. }
  change (2 ^ 63) with (2 ^ 52 * 2 ^ 11). rewrite <- Z.div_div by lia.
  pose proof (Z.div_mod bits (2 ^ 52)). pose proof (Z.div_mod (bits / 2 ^ 52) (2 ^ 11)). lia.
Qed.

Lemma frac_fields bits :
  num_ok (NFrac bits) →
  0 < frac_mant bits < 2 ^ 53 ∧ 1 ≤ frac_shift bits ≤ 1074 ∧ (frac_mant bits < 2 ^ 52 → frac_shift bits = 1074) ∧
  bits = (if frac_negative bits then 2 ^ 63 else 0) +
         (if frac_mant bits <? 2 ^ 52 then frac_mant bits
          else (1075 - frac_shift bits) * 2 ^ 52 + (frac_mant bits - 2 ^ 52)).
Proof.
  intros [Hb Hn]. pose proof (bits_fields bits Hb) as Hf.
  unfold num_of_bits in Hn. unfold frac_mant, frac_shift, frac_negative.
  set (e := Z.land (Z.shiftr bits 52) 0x7ff) in *. set (m := Z.land bits (Z.ones 52)) in *.
  assert (0 ≤ e < 2 ^ 11) as He.
  { subst e. change 0x7ff with (Z.ones 11). rewrite Z.land_ones by lia. apply Z.mod_pos_bound. lia. }
  assert (0 ≤ m < 2 ^ 52) as Hm.
  { subst m. rewrite Z.land_ones by lia. apply Z.mod_pos_bound. lia. }
  destruct (Z.eqb_spec e 0x7ff) as [|He7]; [by destruct (m =? 0)|].
  destruct (Z.eqb_spec e 0) as [He0|He0].
  - destruct (Z.eqb_spec m 0) as [|Hm0]; [by destruct (Z.testbit bits 63)|].
    destruct (Z.ltb_spec m (2 ^ 52)); [|lia]. split_and!; try lia.
  - destruct (Z.eqb_spec (m + 2 ^ 52) 0) as [|Hm0]; [by destruct (Z.testbit bits 63)|].
    destruct (Z.leb_spec 0 (e - 1075)); [done|].
    destruct (Z.ltb_spec (m + 2 ^ 52) (2 ^ 52)); [lia|]. split_and!; try lia.
Qed.

Lemma read_exponent_minus j : 0 ≤ j → read_exponent (0x65 :: 0x2d :: decimal j) = Some (- j).
Proof.
  intros Hj. destruct (decimal_spec j Hj) as (Hv & Hd & Hi).
  cbn [read_exponent is_char Z.eqb Pos.eqb orb negb]. rewrite span_all by done.
  rewrite bool_decide_eq_false_2 by (by apply int_part_nonempty).
  rewrite bool_decide_eq_true_2 by done. cbn [orb negb]. by rewrite Hv.
Qed.

Lemma exact_text_spec bits :
  num_ok (NFrac bits) →
  let t := exact_text (frac_negative bits) (frac_mant bits) (frac_shift bits) in
  read_number t = Some (NFrac bits) ∧ forallb num_char t = true.
Proof.
  intros Hok t. destruct (frac_fields bits Hok) as (Hm & Hj & Hsub & Hbits).
  set (m := frac_mant bits) in *. set (j := frac_shift bits) in *.
  assert (0 < 5 ^ j) by (apply Z.pow_pos_nonneg; lia).
  assert (0 < m * 5 ^ j) by lia. split.
  - unfold t, exact_text. rewrite (read_number_digits _ _ _ (- j)); [|lia|done|done|by apply read_exponent_minus; lia].
    f_equal. unfold to_double. destruct (Z.eqb_spec (m * 5 ^ j) 0); [lia|].
    destruct (Z.eqb_spec (- j) 0); [lia|]. cbn [andb].
    replace (Z.max 0 (- j)) with 0 by lia. replace (Z.max 0 (- - j)) with j by lia.
    rewrite Z.pow_0_r, Z.mul_1_r, round_exact by done. rewrite <- Hbits. apply Hok.
  - unfold t, exact_text.
    destruct (decimal_spec (m * 5 ^ j)) as (_ & Hd1%num_char_digits & _); [lia|].
    destruct (decimal_spec j) as (_ & Hd2%num_char_digits & _); [lia|].
    assert (forallb num_char (decimal (m * 5 ^ j) ++ 0x65 :: 0x2d :: decimal j) = true) as H1.
    { rewrite forallb_app, Hd1. cbn [forallb andb]. by rewrite Hd2. }
    destruct (frac_negative bits); [|done]. cbn [sign_text forallb]. by rewrite H1.
Qed.

Lemma shortest_spec fuel v negative p q n k t :
  shortest fuel v negative p q n k = Some t → read_number t = Some v ∧ forallb num_char t = true.
Proof.
  revert k. induction fuel as [|fuel IH]; intros k; cbn [shortest]; [done|].
  match goal with |- context [List.find ?f ?l] => destruct (List.find f l) as [s|] eqn:E end; [|apply IH].
  intros [= <-]. apply List.find_some in E as [_ E].
  rewrite !andb_true_iff, bool_decide_eq_true in E. naive_solver.
Qed.

(** The text of a number is a literal that reads back as the number. *)
Lemma num_text_spec n :
  num_json n = true → read_number (num_text n) = Some n ∧ forallb num_char (num_text n) = true.
Proof.
  destruct n as [z| |bits| |]; cbn [num_json]; intros Hn; try done.
  - unfold num_text. rewrite Hn. apply Z.leb_le in Hn.
    destruct (decimal_spec (Z.abs z)) as (_ & Hd%num_char_digits & _); [lia|]. split.
    + rewrite <- (app_nil_r (decimal _)), (read_number_digits _ _ _ 0) by (done || lia).
      f_equal. unfold to_double. change (0 =? 0) with true. rewrite (proj2 (Z.leb_le _ _)) by done. cbn [andb].
      destruct (Z.eqb_spec (Z.abs z) 0), (Z.ltb_spec z 0); try lia; f_equal; lia.
    + destruct (z <? 0); cbn [sign_text forallb]; by rewrite Hd.
  - apply bool_decide_eq_true in Hn. unfold num_text.
    destruct (shortest _ _ _ _ _ _ _) as [t|] eqn:E; [by apply shortest_spec in E|].
    by apply exact_text_spec.
Qed.

Lemma num_text_nonempty n : num_text n ≠ [].
Proof.
  assert (∀ b s, s ≠ [] → sign_text b s ≠ []) as Hs by (by intros [] s).
  assert (∀ z, 0 ≤ z → decimal z ≠ []) as Hd.
  { intros z Hz. destruct (decimal_spec z Hz) as (_ & _ & Hi). by apply int_part_nonempty. }
  assert (∀ fuel v b p q m k t, shortest fuel v b p q m k = Some t → t ≠ []) as Hsh.
  { intros fuel v b p q m k t [Hr _]%shortest_spec ->. done. }
  destruct n as [z| |bits| |]; cbn [num_text]; try done.
  - case_match; [apply Hs, Hd; lia|].
    destruct (shortest _ _ _ _ _ _ _) eqn:E; cbn; [by eapply Hsh|]. apply Hs, Hd. lia.
  - destruct (shortest _ _ _ _ _ _ _) eqn:E; cbn; [by eapply Hsh|].
    apply Hs. intros [_ ?]%app_eq_nil. done.
Qed.

(** ** Strings *)

Lemma hex_value_digit d : 0 ≤ d < 16 → hex_value (hex_digit d) = Some d.
Proof.
  intros Hd. unfold hex_value, hex_digit, is_digit.
  destruct (Z.ltb_spec d 10).
  - repeat (rewrite (proj2 (Z.leb_le _ _)); [|lia]). cbn. f_equal. lia.
  - rewrite (proj2 (Z.leb_gt (0x61 + (d - 10)) 0x39)) by lia. rewrite andb_false_r.
    repeat (rewrite (proj2 (Z.leb_le _ _)); [|lia]). cbn. f_equal. lia.
Qed.

Lemma parse_unicode_escape u t :
  0 ≤ u < 0x10000 → parse_string (unicode_escape u ++ t) = push_unit u (parse_string t).
Proof.
  intros Hu. unfold unicode_escape. cbn [app].
  change (parse_string (0x5c :: 0x75 :: ?a :: ?b :: ?c :: ?d :: t)) with
    (match hex4 a b c d with Some u => push_unit u (parse_string t) | None => None end).
  unfold hex4. rewrite !hex_value_digit.
  - f_equal. Z.div_mod_to_equations. lia.
  - apply Z.mod_pos_bound. lia.
  - apply Z.mod_pos_bound. lia.
  - apply Z.mod_pos_bound. lia.
  - Z.div_mod_to_equations. lia.
Qed.

Lemma parse_plain u t :
  0x20 ≤ u → u ≠ 0x22 → u ≠ 0x5c → parse_string (u :: t) = push_unit u (parse_string t).
Proof.
  intros H1 H2 H3. cbn [parse_string].
  destruct (Z.eqb_spec u 0x22); [done|]. destruct (Z.ltb_spec u 0x20); [lia|].
  by destruct (Z.eqb_spec u 0x5c).
Qed.

Lemma parse_quote_unit u t :
  0 ≤ u < 0x10000 → parse_string (quote_unit u ++ t) = push_unit u (parse_string t).
Proof.
  intros Hu. unfold quote_unit.
  repeat match goal with
  | |- context [if u =? ?c then _ else _] => destruct (Z.eqb_spec u c); [by subst|]
  end.
  destruct ((u <? 0x20) || is_high_surrogate u || is_low_surrogate u) eqn:E; [by apply parse_unicode_escape|].
  apply orb_false_iff in E as [[E%Z.ltb_ge _]%orb_false_iff _]. by apply parse_plain.
Qed.

Lemma surrogate_plain u : is_high_surrogate u = true ∨ is_low_surrogate u = true → 0xd800 ≤ u.
Proof. unfold is_high_surrogate, is_low_surrogate. rewrite !andb_true_iff, !Z.leb_le. lia. Qed.

(** Induction along the code points a string is quoted by. *)
Lemma quote_ind (P : jsstr → Prop) :
  P [] →
  (∀ u w s, is_high_surrogate u = true → is_low_surrogate w = true → P s → P (u :: w :: s)) →
  (∀ u s, quote_units (u :: s) = quote_unit u ++ quote_units s → P s → P (u :: s)) →
  ∀ s, P s.
Proof.
  intros H0 H2 H1 s. remember (length s) as n eqn:En. revert s En.
  induction n as [n IH] using lt_wf_ind. intros [|u s] ->; [done|].
  destruct s as [|w s].
  { apply H1; [cbn; by rewrite app_nil_r|done]. }
  destruct (is_high_surrogate u && is_low_surrogate w) eqn:E.
  - apply andb_true_iff in E as [Hu Hw]. apply H2; [done..|]. eapply IH; [|done]. cbn. lia.
  - apply H1; [cbn [quote_units]; by rewrite E|]. eapply IH; [|done]. cbn. lia.
Qed.

Lemma text_ok_cons u s : text_ok (u :: s) = true ↔ 0 ≤ u < 0x10000 ∧ text_ok s = true.
Proof. unfold text_ok. cbn. rewrite !andb_true_iff, Z.leb_le, Z.ltb_lt. naive_solver. Qed.

Lemma quote_units_pair u w s :
  is_high_surrogate u = true → is_low_surrogate w = true → quote_units (u :: w :: s) = u :: w :: quote_units s.
Proof. intros Hu Hw. cbn [quote_units]. by rewrite Hu, Hw. Qed.

Lemma parse_quoted s rest :
  text_ok s = true → parse_string (quote_units s ++ 0x22 :: rest) = Some (s, rest).
Proof.
  induction s as [|u w s Hu Hw IH|u s Hq IH] using quote_ind; [done| |]; rewrite !text_ok_cons.
  - intros (_ & _ & Hs). rewrite quote_units_pair by done. cbn [app].
    pose proof (surrogate_plain u). pose proof (surrogate_plain w).
    rewrite !parse_plain by (assert (0xd800 ≤ u) by auto; assert (0xd800 ≤ w) by auto; lia). by rewrite IH.
  - intros [Hu Hs]. rewrite Hq, <- app_assoc, parse_quote_unit by done. by rewrite IH.
Qed.

(** ** More fuel, same result *)

Lemma parse_more fuel :
  (∀ s r, parse_value fuel s = Some r → parse_value (S fuel) s = Some r) ∧
  (∀ acc s r, parse_members fuel acc s = Some r → parse_members (S fuel) acc s = Some r) ∧
  (∀ acc s r, parse_elements fuel acc s = Some r → parse_elements (S fuel) acc s = Some r).
Proof.
  induction fuel as [|fuel (IHv & IHm & IHe)]; [done|].
  set (fuel' := S fuel) in *. split_and!.
  - intros s r H. subst fuel'. cbn [parse_value] in H. fold parse_members parse_elements in H.
    remember (S fuel) as f'. cbn [parse_value]. fold parse_members parse_elements.
    destruct (skip_ws s) as [|c s1]; [done|].
    destruct (c =? 0x7b); [destruct (is_char _ _); auto|].
    destruct (c =? 0x5b); [destruct (is_char _ _); auto|done].
  - intros acc s r H. subst fuel'. cbn [parse_members] in H. fold parse_value parse_members in H.
    remember (S fuel) as f'. cbn [parse_members]. fold parse_value parse_members.
    destruct (is_char _ _) as [s1|]; [|done]. destruct (parse_string s1) as [[k s2]|]; [|done].
    destruct (is_char _ _) as [s3|]; [|done].
    destruct (parse_value fuel s3) as [[v s4]|] eqn:Ev; [|done]. rewrite (IHv _ _ Ev).
    destruct (skip_ws s4); [done|]. repeat case_match; auto.
  - intros acc s r H. subst fuel'. cbn [parse_elements] in H. fold parse_value parse_elements in H.
    remember (S fuel) as f'. cbn [parse_elements]. fold parse_value parse_elements.
    destruct (parse_value fuel s) as [[v s4]|] eqn:Ev; [|done]. rewrite (IHv _ _ Ev).
    destruct (skip_ws s4); [done|]. repeat case_match; auto.
Qed.

Lemma parse_value_mono f f' s r : parse_value f s = Some r → (f ≤ f')%nat → parse_value f' s = Some r.
Proof. intros H. induction 1 as [|f' _ IH]; [done|]. by apply (parse_more f'). Qed.
Lemma parse_members_mono f f' acc s r :
  parse_members f acc s = Some r → (f ≤ f')%nat → parse_members f' acc s = Some r.
Proof. intros H. induction 1 as [|f' _ IH]; [done|]. by apply (parse_more f'). Qed.
Lemma parse_elements_mono f f' acc s r :
  parse_elements f acc s = Some r → (f ≤ f')%nat → parse_elements f' acc s = Some r.
Proof. intros H. induction 1 as [|f' _ IH]; [done|]. by apply (parse_more f'). Qed.

(** ** What is left is shorter *)

Lemma skip_ws_length s : (length (skip_ws s) ≤ length s)%nat.
Proof. induction s as [|c s IH]; cbn; [lia|]. destruct (is_ws c); cbn; lia. Qed.

Lemma is_char_length c s s' : is_char c s = Some s' → length s = S (length s').
Proof. destruct s; cbn; [done|]. case_match; [|done]. by intros [= ->]. Qed.

Lemma span_length p s a b : span p s = (a, b) → (length b ≤ length s)%nat.
Proof.
  revert a b. induction s as [|c s IH]; intros a b; cbn; [by intros [= <- <-]|].
  destruct (p c); [|by intros [= <- <-]]. destruct (span p s) as [a' b'] eqn:E. intros [= <- <-].
  specialize (IH _ _ eq_refl). lia.
Qed.

Lemma strip_length p s s' : strip p s = Some s' → (length s' ≤ length s)%nat.
Proof.
  revert s. induction p as [|c p IH]; intros [|c' s]; cbn; try done; [by intros [= <-]..|].
  destruct (c' =? c); [|done]. intros H%IH. lia.
Qed.

Lemma push_unit_Some u r k s : push_unit u r = Some (k, s) → ∃ k', r = Some (k', s).
Proof. destruct r as [[k' s']|]; cbn; [|done]. intros [= <- <-]. eauto. Qed.

Lemma parse_string_length s k s' : parse_string s = Some (k, s') → (length s' < length s)%nat.
Proof.
  remember (length s) as n eqn:En. revert s k En.
  induction n as [n IH] using lt_wf_ind. intros [|c s1] k -> H; [done|]. cbn [parse_string] in H.
  destruct (c =? 0x22); [by injection H as _ ->; cbn; lia|]. destruct (c <? 0x20); [done|].
  assert (∀ t, (length t < S (length s1))%nat →
    (∃ k', parse_string t = Some (k', s')) → (length s' < S (length s1))%nat) as Hrec.
  { intros t Ht [k' Hp]. specialize (IH (length t) Ht t k' eq_refl Hp). lia. }
  destruct (c =? 0x5c).
  - destruct s1 as [|e s2]; [done|]. destruct (e =? 0x75).
    + destruct s2 as [|h1 [|h2 [|h3 [|h4 s3]]]]; try done. destruct (hex4 h1 h2 h3 h4); [|done].
      apply push_unit_Some in H. eapply Hrec; [|exact H]. cbn. lia.
    + destruct (unescape e); [|done]. apply push_unit_Some in H. eapply Hrec; [|exact H]. cbn. lia.
  - apply push_unit_Some in H. eapply Hrec; [|exact H]. lia.
Qed.

Lemma parse_shorter fuel :
  (∀ s t r, parse_value fuel s = Some (t, r) → (length r < length s)%nat) ∧
  (∀ acc s t r, parse_members fuel acc s = Some (t, r) → (length r < length s)%nat) ∧
  (∀ acc s t r, parse_elements fuel acc s = Some (t, r) → (length r < length s)%nat).
Proof.
  induction fuel as [|fuel (IHv & IHm & IHe)]; [done|]. split_and!.
  - intros s t r H. cbn [parse_value] in H. pose proof (skip_ws_length s) as Hs.
    destruct (skip_ws s) as [|c s1]; [done|]. cbn [length] in Hs. pose proof (skip_ws_length s1) as Hs1.
    destruct (c =? 0x7b).
    { destruct (is_char _ _) as [s2|] eqn:E; [|apply IHm in H; lia].
      injection H as _ ->. apply is_char_length in E. lia. }
    destruct (c =? 0x5b).
    { destruct (is_char _ _) as [s2|] eqn:E; [|apply IHe in H; lia].
      injection H as _ ->. apply is_char_length in E. lia. }
    destruct (c =? 0x22).
    { destruct (parse_string s1) as [[k s2]|] eqn:E; [|done].
      injection H as _ ->. apply parse_string_length in E. lia. }
    destruct (c =? 0x6e); [|destruct (c =? 0x74); [|destruct (c =? 0x66)]].
    1-3: apply fmap_Some in H as (s2 & Hstrip%strip_length & [= _ ->]); lia.
    destruct (span num_char (c :: s1)) as [lit s2] eqn:E. destruct (read_number lit) eqn:En; [|done].
    injection H as _ ->. cbn in E. destruct (num_char c).
    + destruct (span num_char s1) as [a b] eqn:E2. injection E as _ ->. apply span_length in E2. lia.
    + by injection E as <- _.
  - intros acc s t r H. cbn [parse_members] in H. fold parse_value parse_members in H.
    pose proof (skip_ws_length s). destruct (is_char _ _) as [s1|] eqn:E1; [|done].
    apply is_char_length in E1. destruct (parse_string s1) as [[k s2]|] eqn:E2; [|done].
    apply parse_string_length in E2. pose proof (skip_ws_length s2).
    destruct (is_char 0x3a _) as [s3|] eqn:E3; [|done]. apply is_char_length in E3.
    destruct (parse_value fuel s3) as [[v s4]|] eqn:Ev; [|done]. apply IHv in Ev.
    pose proof (skip_ws_length s4). destruct (skip_ws s4) as [|c s5]; [done|]. cbn [length] in *.
    case_match; [apply IHm in H; lia|]. case_match; [injection H as _ ->; lia|done].
  - intros acc s t r H. cbn [parse_elements] in H. fold parse_value parse_elements in H.
    destruct (parse_value fuel s) as [[v s4]|] eqn:Ev; [|done]. apply IHv in Ev.
    pose proof (skip_ws_length s4). destruct (skip_ws s4) as [|c s5]; [done|]. cbn [length] in *.
    case_match; [apply IHe in H; lia|]. case_match; [injection H as _ ->; lia|done].
Qed.

(** ** The fuel of [JSON_parse] is enough *)

Lemma fuel_enough fuel :
  (∀ s r, parse_value fuel s = Some r → parse_value (2 * length s + 1) s = Some r) ∧
  (∀ acc s r, parse_members fuel acc s = Some r → parse_members (2 * length s + 2) acc s = Some r) ∧
  (∀ acc s r, parse_elements fuel acc s = Some r → parse_elements (2 * length s + 2) acc s = Some r).
Proof.
  induction fuel as [|fuel (IHv & IHm & IHe)]; [done|]. split_and!.
  - intros s r H. replace (2 * length s + 1)%nat with (S (2 * length s)) by lia.
    cbn [parse_value] in H |- *. pose proof (skip_ws_length s) as Hs.
    destruct (skip_ws s) as [|c s1]; [done|]. cbn [length] in Hs.
    destruct (c =? 0x7b).
    { destruct (is_char _ _); [done|]. apply IHm in H. eapply parse_members_mono; [exact H|lia]. }
    destruct (c =? 0x5b); [|done].
    destruct (is_char _ _); [done|]. apply IHe in H. eapply parse_elements_mono; [exact H|lia].
  - intros acc s r H. replace (2 * length s + 2)%nat with (S (2 * length s + 1)) by lia.
    cbn [parse_members] in H |- *. fold parse_value parse_members in H |- *.
    pose proof (skip_ws_length s). destruct (is_char _ _) as [s1|] eqn:E1; [|done].
    apply is_char_length in E1. destruct (parse_string s1) as [[k s2]|] eqn:E2; [|done].
    apply parse_string_length in E2. pose proof (skip_ws_length s2).
    destruct (is_char 0x3a _) as [s3|] eqn:E3; [|done]. apply is_char_length in E3.
    destruct (parse_value fuel s3) as [[v s4]|] eqn:Ev; [|done].
    pose proof (proj1 (parse_shorter fuel) _ _ _ Ev). apply IHv in Ev.
    rewrite (parse_value_mono _ (2 * length s + 1) _ _ Ev) by lia.
    pose proof (skip_ws_length s4). destruct (skip_ws s4) as [|c s5]; [done|]. cbn [length] in *.
    destruct (c =? 0x2c); [|done]. apply IHm in H. eapply parse_members_mono; [exact H|lia].
  - intros acc s r H. replace (2 * length s + 2)%nat with (S (2 * length s + 1)) by lia.
    cbn [parse_elements] in H |- *. fold parse_value parse_elements in H |- *.
    destruct (parse_value fuel s) as [[v s4]|] eqn:Ev; [|done].
    pose proof (proj1 (parse_shorter fuel) _ _ _ Ev). apply IHv in Ev. rewrite Ev.
    pose proof (skip_ws_length s4). destruct (skip_ws s4) as [|c s5]; [done|]. cbn [length] in *.
    destruct (c =? 0x2c); [|done]. apply IHe in H. eapply parse_elements_mono; [exact H|lia].
Qed.

(** The result does not depend on the fuel, once there is some per character. *)
Lemma parse_value_fuel fuel s : (parse_fuel s ≤ fuel)%nat → parse_value fuel s = parse_value (parse_fuel s) s.
Proof.
  unfold parse_fuel. intros Hf. destruct (parse_value (2 * length s + 2) s) as [r|] eqn:E.
  - eapply parse_value_mono; [exact E|done].
  - destruct (parse_value fuel s) as [r|] eqn:E2; [|done]. apply fuel_enough in E2.
    rewrite (parse_value_mono _ _ _ _ E2) in E by lia. done.
Qed.

Lemma JSON_parse_of fuel s t rest :
  parse_value fuel s = Some (t, rest) → skip_ws rest = [] → JSON_parse s = Some t.
Proof.
  intros H Hr. unfold JSON_parse, parse_fuel. apply fuel_enough in H.
  rewrite (parse_value_mono _ _ _ _ H) by lia. by rewrite bool_decide_eq_true_2.
Qed.

(** ** Round trip *)

Lemma num_char_head c :
  num_char c = true →
  is_ws c = false ∧ (c =? 0x7b) = false ∧ (c =? 0x5b) = false ∧ (c =? 0x22) = false ∧ (c =? 0x6e) = false ∧
  (c =? 0x74) = false ∧ (c =? 0x66) = false ∧ (c =? 0x5d) = false ∧ (c =? 0x7d) = false.
Proof. unfold num_char, is_ws, is_digit. lia. Qed.

Lemma skip_ws_head c s : is_ws c = false → skip_ws (c :: s) = c :: s.
Proof. intros H. cbn. by rewrite H. Qed.

(** The first character of a value's text. *)
Definition starts (p : jsstr) : Prop :=
  ∃ c s, p = c :: s ∧ is_ws c = false ∧ (c =? 0x5d) = false ∧ (c =? 0x7d) = false.

Lemma stringify_starts t : json_ok t = true → starts (stringify t).
Proof.
  destruct t as [|[]|n|s|bs|ts|es]; intros Hok; try (eexists _, _; split; [reflexivity|done]).
  destruct (num_text_spec n Hok) as [_ Hc]. pose proof (num_text_nonempty n) as Hne.
  cbn [stringify]. destruct (num_text n) as [|c s]; [done|].
  apply andb_true_iff in Hc as [Hc _]. apply num_char_head in Hc. exists c, s. naive_solver.
Qed.

Lemma starts_app p rest : starts p → skip_ws (p ++ rest) = p ++ rest ∧ is_char 0x5d (p ++ rest) = None.
Proof. intros (c & s & -> & Hw & H1 & _). cbn. by rewrite Hw, H1. Qed.

Definition reads (t : tree) : Prop :=
  ∀ rest, stops num_char rest → ∃ fuel, parse_value fuel (stringify t ++ rest) = Some (t, rest).

Lemma reads_num n : num_json n = true → reads (TNum n).
Proof.
  intros Hn rest Hrest. exists 1%nat. destruct (num_text_spec n Hn) as [Hr Hc].
  pose proof (num_text_nonempty n) as Hne. cbn [stringify parse_value].
  pose proof (span_app num_char (num_text n) rest Hc Hrest) as Hspan.
  destruct (num_text n) as [|c s]; [done|]. cbn [app] in *.
  apply andb_true_iff in Hc as [(Hw & H1 & H2 & H3 & H4 & H5 & H6 & _)%num_char_head _].
  rewrite skip_ws_head, H1, H2, H3, H4, H5, H6, Hspan by done. by rewrite Hr.
Qed.

Lemma reads_text s : text_ok s = true → reads (TText s).
Proof.
  intros Hs rest _. exists 1%nat. cbn [stringify parse_value]. unfold quote. cbn [app].
  rewrite <- app_assoc. cbn [skip_ws is_ws Z.eqb Pos.eqb orb app].
  by rewrite parse_quoted.
Qed.

Lemma join_cons sep p ps : ps ≠ [] → join sep (p :: ps) = p ++ sep ++ join sep ps.
Proof. by destruct ps. Qed.

Lemma elements_read ts acc rest :
  ts ≠ [] → Forall reads ts →
  ∃ fuel, parse_elements fuel acc (join [0x2c] (stringify <$> ts) ++ 0x5d :: rest) = Some (TArray (acc ++ ts), rest).
Proof.
  intros Hne Hts. revert acc. induction Hts as [|t ts Ht Hts IH]; intros acc; [done|].
  destruct ts as [|t' ts].
  - destruct (Ht (0x5d :: rest)) as [f Hf]; [done|]. exists (S f). cbn [fmap list_fmap join parse_elements].
    fold parse_value. rewrite Hf. done.
  - rewrite fmap_cons, join_cons by done. destruct (IH ltac:(done) (acc ++ [t])) as [f2 Hf2].
    set (s2 := join [0x2c] (stringify <$> t' :: ts) ++ 0x5d :: rest) in *.
    destruct (Ht (0x2c :: s2)) as [f1 Hf1]; [done|]. exists (S (f1 + f2)).
    rewrite <- !app_assoc. cbn [app parse_elements]. fold parse_value parse_elements.
    fold s2. rewrite (parse_value_mono _ (f1 + f2) _ _ Hf1) by lia.
    cbn [skip_ws is_ws Z.eqb Pos.eqb orb]. rewrite (parse_elements_mono _ (f1 + f2) _ _ _ Hf2) by lia.
    by rewrite <- app_assoc.
Qed.

Lemma reads_array ts : forallb json_ok ts = true → Forall reads ts → reads (TArray ts).
Proof.
  intros Hok Hts rest _. destruct ts as [|t ts]; [by exists 1%nat|].
  destruct (elements_read (t :: ts) [] rest) as [f Hf]; [done..|]. exists (S f).
  cbn [stringify parse_value]. fold parse_elements.
  cbn [app skip_ws is_ws Z.eqb Pos.eqb orb]. rewrite <- app_assoc. cbn [app].
  apply andb_true_iff in Hok as [Ht _]. apply stringify_starts in Ht.
  assert (starts (join [0x2c] (stringify <$> t :: ts))) as Hst.
  { destruct Ht as (c & s & E & Hc). rewrite fmap_cons, E. destruct ts; [by exists c, s|].
    eexists c, _. split; [reflexivity|done]. }
  destruct (starts_app _ (0x5d :: rest) Hst) as [-> ->]. exact Hf.
Qed.

Definition member_text (e : jsstr * tree) : jsstr := quote e.1 ++ 0x3a :: stringify e.2.

Lemma set_prop_new k v acc :
  (∀ k', k' ∈ acc.*1 → key_before k k' = false ∧ k' ≠ k) → set_prop k v acc = acc ++ [(k, v)].
Proof.
  intros Hk. unfold set_prop. rewrite bool_decide_eq_false_2.
  - apply define_prop_last, Forall_forall. intros e He. apply Hk, list_elem_of_fmap. eauto.
  - intros Hin. by destruct (Hk k Hin).
Qed.

(** One member: its name, a colon and its value, up to what follows. *)
Lemma member_step e acc rest s fuel :
  text_ok e.1 = true → parse_value fuel (stringify e.2 ++ rest) = Some (e.2, rest) →
  s = member_text e ++ rest →
  parse_members (S fuel) acc s =
  match skip_ws rest with
  | c :: s5 =>
      if c =? 0x2c then parse_members fuel (set_prop e.1 e.2 acc) s5
      else if c =? 0x7d then Some (TMap (set_prop e.1 e.2 acc), s5) else None
  | [] => None
  end.
Proof.
  intros Hk Hv ->. unfold member_text, quote. rewrite <- !app_assoc. cbn [app].
  rewrite <- !app_assoc. cbn [app parse_members].
  fold parse_value parse_members. cbn [skip_ws is_ws is_char Z.eqb Pos.eqb orb].
  rewrite parse_quoted by done. cbn [skip_ws is_ws is_char Z.eqb Pos.eqb orb]. by rewrite Hv.
Qed.

Lemma members_read es acc rest :
  es ≠ [] → keys_ok ((acc ++ es).*1) = true → Forall (λ e, text_ok e.1 = true ∧ reads e.2) es →
  ∃ fuel, parse_members fuel acc (join [0x2c] (member_text <$> es) ++ 0x7d :: rest) = Some (TMap (acc ++ es), rest).
Proof.
  intros Hne Hk Hes. revert acc Hk. induction Hes as [|e es [Hek He] Hes IH]; intros acc Hk; [done|].
  assert (set_prop e.1 e.2 acc = acc ++ [e]) as Hset.
  { rewrite set_prop_new; [by destruct e|]. rewrite fmap_app in Hk.
    apply keys_ok_app in Hk as (_ & _ & Hk). intros k' Hk'. apply Hk; [done|]. left. }
  destruct es as [|e' es].
  - destruct (He (0x7d :: rest)) as [f Hf]; [done|]. exists (S f).
    erewrite member_step; [|done|exact Hf|done]. cbn. by rewrite Hset.
  - rewrite fmap_cons, join_cons by done.
    destruct (IH ltac:(done) (acc ++ [e])) as [f2 Hf2]; [by rewrite <- app_assoc|].
    set (s2 := join [0x2c] (member_text <$> e' :: es) ++ 0x7d :: rest) in *.
    destruct (He (0x2c :: s2)) as [f1 Hf1]; [done|]. exists (S (f1 + f2)).
    erewrite (member_step e acc (0x2c :: s2)); [|done| |by rewrite <- !app_assoc].
    + cbn [skip_ws is_ws Z.eqb Pos.eqb orb]. rewrite Hset.
      rewrite (parse_members_mono _ (f1 + f2) _ _ _ Hf2) by lia. by rewrite <- app_assoc.
    + eapply parse_value_mono; [exact Hf1|lia].
Qed.

Lemma reads_map es :
  keys_ok (es.*1) = true → Forall (λ e, text_ok e.1 = true ∧ reads e.2) es → reads (TMap es).
Proof.
  intros Hk Hes rest _. destruct es as [|e es]; [by exists 1%nat|].
  destruct (members_read (e :: es) [] rest) as [f Hf]; [done..|]. exists (S f).
  cbn [stringify parse_value]. fold parse_members.
  change (λ e0 : jsstr * tree, quote e0.1 ++ 0x3a :: stringify e0.2) with member_text.
  cbn [app skip_ws is_ws Z.eqb Pos.eqb orb]. rewrite <- app_assoc. cbn [app].
  assert (∃ s, join [0x2c] (member_text <$> e :: es) = 0x22 :: s) as [s Hs].
  { rewrite fmap_cons. destruct es; unfold member_text, quote; eexists; reflexivity. }
  rewrite Hs in Hf |- *. exact Hf.
Qed.

Lemma stringify_reads t : json_ok t = true → reads t.
Proof.
  induction t as [|b|n|s|bs|ts IH|es IH] using tree_ind'; cbn [json_ok]; intros Hok.
  - intros rest _. by exists 1%nat.
  - intros rest _. exists 1%nat. by destruct b.
  - by apply reads_num.
  - by apply reads_text.
  - done.
  - apply reads_array; [done|]. rewrite forallb_forall in Hok.
    rewrite Forall_forall in IH |- *. intros t Ht. apply IH; [done|]. apply Hok. by apply list_elem_of_In.
  - apply andb_true_iff in Hok as [Hk Hok]. apply reads_map; [done|].
    rewrite forallb_forall in Hok. rewrite Forall_forall in IH |- *. intros e He.
    specialize (Hok e). rewrite andb_true_iff in Hok. destruct Hok as [Ht Hj]; [by apply list_elem_of_In|].
    split; [done|]. by apply IH.
Qed.

Theorem JSON_roundtrip t : json_ok t = true → JSON_parse (JSON_stringify t) = Some t.
Proof.
  intros Hok. destruct (stringify_reads t Hok []) as [f Hf]; [done|]. rewrite app_nil_r in Hf.
  by eapply JSON_parse_of.
Qed.

(** ** One line *)

Definition printable (s : jsstr) : Prop := Forall (λ u, 0x20 ≤ u) s.

Lemma hex_digit_printable d : 0 ≤ d → 0x20 ≤ hex_digit d.
Proof. unfold hex_digit. intros. case_match; lia. Qed.

Lemma quote_unit_printable u : 0 ≤ u → printable (quote_unit u).
Proof.
  intros Hu. unfold quote_unit, printable.
  repeat match goal with |- context [if u =? ?c then _ else _] => destruct (u =? c); [decide_now|] end.
  destruct (Z.ltb_spec u 0x20); cbn [orb]; [|destruct (_ || _)].
  1,2: pose proof (Z.mod_pos_bound (u / 0x100) 0x10); pose proof (Z.mod_pos_bound (u / 0x10) 0x10);
    pose proof (Z.mod_pos_bound u 0x10); pose proof (Z.div_pos u 0x1000);
    unfold unicode_escape; repeat (constructor; [first [lia|apply hex_digit_printable; lia]|]); constructor.
  constructor; [lia|constructor].
Qed.

Lemma quote_printable s : text_ok s = true → printable (quote s).
Proof.
  intros Hs. unfold quote. apply Forall_cons. split; [lia|]. apply Forall_app. split; [|by constructor].
  revert Hs. induction s as [|u w s Hu Hw IH|u s Hq IH] using quote_ind; [by constructor| |]; rewrite !text_ok_cons.
  - intros (? & ? & Hs). rewrite quote_units_pair by done.
    assert (0xd800 ≤ u) by (apply surrogate_plain; auto). assert (0xd800 ≤ w) by (apply surrogate_plain; auto).
    constructor; [lia|]. constructor; [lia|auto].
  - intros [Hu Hs]. rewrite Hq. apply Forall_app. split; [apply quote_unit_printable; lia|auto].
Qed.

Lemma join_printable sep ps : printable sep → Forall printable ps → printable (join sep ps).
Proof.
  intros Hsep. induction 1 as [|p ps Hp Hps IH]; [constructor|]. destruct ps; [done|].
  rewrite join_cons by done. unfold printable in *. rewrite !Forall_app. auto.
Qed.

(** The text of a value contains no line break, and no other control character. *)
Lemma stringify_printable t : json_ok t = true → printable (stringify t).
Proof.
  assert (∀ a b s, 0x20 ≤ a → 0x20 ≤ b → printable s → printable (a :: s ++ [b])) as Hwrap.
  { intros a b s Ha Hb Hs. constructor; [done|]. apply Forall_app. split; [done|]. by constructor. }
  induction t as [|b|n|s|bs|ts IH|es IH] using tree_ind'; cbn [json_ok]; intros Hok.
  - decide_now.
  - destruct b; decide_now.
  - destruct (num_text_spec n Hok) as [_ Hc]. apply Forall_forall. intros u Hu.
    rewrite forallb_forall in Hc. assert (num_char u = true) as Hn by (by apply Hc, list_elem_of_In).
    unfold num_char, is_digit in Hn. lia.
  - by apply quote_printable.
  - done.
  - cbn [stringify]. apply Hwrap; [done..|]. apply join_printable; [decide_now|].
    rewrite forallb_forall in Hok. apply Forall_fmap, Forall_forall. rewrite Forall_forall in IH.
    intros t Ht. apply IH; [done|]. by apply Hok, list_elem_of_In.
  - cbn [stringify]. apply Hwrap; [done..|]. apply join_printable; [decide_now|].
    apply andb_true_iff in Hok as [_ Hok]. rewrite forallb_forall in Hok. rewrite Forall_forall in IH.
    apply Forall_fmap, Forall_forall. intros e He. cbn.
    specialize (Hok e). rewrite andb_true_iff in Hok. destruct Hok as [Hk Hv]; [by apply list_elem_of_In|].
    change (printable (quote e.1 ++ 0x3a :: stringify e.2)).
    apply Forall_app. split; [by apply quote_printable|]. constructor; [lia|]. by apply IH.
Qed.

(** ** Cut text is not JSON *)

(** What is parsed from a value's complete text does not depend on the fuel. *)
Lemma reads_any t rest fuel :
  json_ok t = true → stops num_char rest →
  parse_value fuel (stringify t ++ rest) = None ∨ parse_value fuel (stringify t ++ rest) = Some (t, rest).
Proof.
  intros Hok Hrest. destruct (stringify_reads t Hok rest Hrest) as [f Hf].
  destruct (parse_value fuel _) as [r|] eqn:E; [right|by left].
  rewrite <- (parse_value_mono _ (f + fuel) _ _ E) by lia.
  by rewrite (parse_value_mono _ (f + fuel) _ _ Hf) by lia.
Qed.

Lemma cut_unit u p q : quote_unit u = p ++ q → q ≠ [] → parse_string p = None.
Proof.
  intros H Hq.
  assert (quote_unit u = [u] ∨ (∃ a, quote_unit u = [0x5c; a]) ∨ quote_unit u = unicode_escape u) as Ha.
  { unfold quote_unit. repeat (case_match; [eauto|]). eauto. }
  destruct Ha as [E|[[a E]|E]]; rewrite E in H; clear E.
  - destruct p as [|? p]; [done|]. injection H as <- H. by destruct p, q.
  - destruct p as [|? [|? p]]; [done|by injection H as <- _|]. injection H as <- <- H. by destruct p, q.
  - unfold unicode_escape in H.
    do 6 (destruct p as [|? p]; [by simplify_eq/=|]). simplify_eq/=. by destruct p, q.
Qed.

Lemma cut_quote s p q :
  text_ok s = true → quote_units s ++ [0x22] = p ++ q → q ≠ [] → parse_string p = None.
Proof.
  intros Hs H Hq. revert p Hs H.
  induction s as [|u w s Hu Hw IH|u s Hqu IH] using quote_ind; intros p; rewrite ?text_ok_cons; intros Hs H.
  - destruct p as [|? p]; [done|]. injection H as <- H. by destruct p, q.
  - rewrite quote_units_pair in H by done.
    assert (0xd800 ≤ u) by (apply surrogate_plain; auto). assert (0xd800 ≤ w) by (apply surrogate_plain; auto).
    destruct p as [|u' p]; [done|]. injection H as <- H. rewrite parse_plain by lia.
    destruct p as [|w' p]; [done|]. injection H as <- H. rewrite parse_plain by lia.
    by rewrite (IH p) by naive_solver.
  - rewrite Hqu, <- app_assoc in H. apply app_eq_inv in H as [(k & Hk & H)|(k & -> & H)].
    + destruct (decide (k = [])) as [->|Hne]; [|by eapply cut_unit].
      rewrite app_nil_r in Hk. cbn in H. subst p. rewrite <- (app_nil_r (quote_unit u)).
      rewrite parse_quote_unit by naive_solver. done.
    + rewrite parse_quote_unit by naive_solver. by rewrite (IH k) by naive_solver.
Qed.

(** A strict prefix of a value's text: an error, or a shorter number. *)
Definition cuts (t : tree) : Prop :=
  ∀ p q fuel, stringify t = p ++ q → q ≠ [] →
  parse_value fuel p = None ∨ ∃ v, parse_value fuel p = Some (v, []).

Lemma parse_value_nil fuel : parse_value fuel [] = None.
Proof. by destruct fuel. Qed.
Lemma parse_members_nil fuel acc : parse_members fuel acc [] = None.
Proof. by destruct fuel. Qed.
Lemma parse_elements_nil fuel acc : parse_elements fuel acc [] = None.
Proof. destruct fuel; [done|]. cbn. fold parse_value. by rewrite parse_value_nil. Qed.

Lemma cut_elements ts p q fuel acc :
  ts ≠ [] → Forall (λ t, json_ok t = true ∧ cuts t) ts →
  join [0x2c] (stringify <$> ts) ++ [0x5d] = p ++ q → q ≠ [] → parse_elements fuel acc p = None.
Proof.
  intros Hne Hts H Hq. revert p fuel acc H. induction Hts as [|t ts [Hok Ht] Hts IH]; intros p fuel acc H; [done|].
  destruct fuel as [|fuel]; [done|]. cbn [parse_elements]. fold parse_value parse_elements.
  assert (∃ tail, stringify t ++ tail = p ++ q ∧
    (tail = [0x5d] ∨ ts ≠ [] ∧ tail = 0x2c :: join [0x2c] (stringify <$> ts) ++ [0x5d])) as (tail & H1 & Htail).
  { destruct ts as [|t' ts]; [by eexists; split; [exact H|left]|].
    rewrite fmap_cons, join_cons, <- app_assoc in H by done. eexists; split; [exact H|right]. done. }
  apply app_eq_inv in H1 as [(k & Hk & H1)|(k & -> & H1)].
  - destruct (decide (k = [])) as [->|Hkne].
    + rewrite app_nil_r in Hk. subst p. rewrite <- (app_nil_r (stringify t)).
      destruct (reads_any t [] fuel Hok) as [-> | ->]; done.
    + by destruct (Ht p k fuel Hk Hkne) as [-> |[v ->]].
  - destruct k as [|c k].
    + destruct (reads_any t [] fuel Hok) as [-> | ->]; done.
    + destruct Htail as [-> |[Hts0 ->]]; injection H1 as <- H1; [by destruct k, q|].
      destruct (reads_any t (0x2c :: k) fuel Hok) as [-> | ->]; [done..|].
      cbn [skip_ws is_ws Z.eqb Pos.eqb orb]. by apply IH.
Qed.

Lemma cut_member e p q fuel acc :
  text_ok e.1 = true → json_ok e.2 = true → cuts e.2 →
  member_text e = p ++ q → parse_members fuel acc p = None.
Proof.
  intros Hk Hok He H. destruct fuel as [|fuel]; [done|]. cbn [parse_members]. fold parse_value parse_members.
  unfold member_text, quote in H. destruct p as [|c p]; [done|]. injection H as <- H. rewrite <- app_assoc in H.
  cbn [skip_ws is_ws is_char Z.eqb Pos.eqb orb app] in *.
  change (0x22 :: 0x3a :: stringify e.2) with ([0x22] ++ 0x3a :: stringify e.2) in H. rewrite app_assoc in H.
  apply app_eq_inv in H as [(k & Hk' & H)|(k & -> & H)].
  - destruct (decide (k = [])) as [->|Hkne].
    + rewrite app_nil_r in Hk'. subst p. rewrite parse_quoted by done. done.
    + by rewrite (cut_quote _ _ _ Hk Hk' Hkne).
  - rewrite <- app_assoc. cbn [app]. rewrite parse_quoted by done. destruct k as [|c k]; [done|].
    injection H as <- H. cbn [skip_ws is_ws is_char Z.eqb Pos.eqb orb].
    destruct (decide (q = [])) as [->|Hq].
    + rewrite app_nil_r in H. subst k. rewrite <- (app_nil_r (stringify e.2)).
      destruct (reads_any e.2 [] fuel Hok) as [-> | ->]; done.
    + by destruct (He k q fuel H Hq) as [-> |[v ->]].
Qed.

Lemma cut_members es p q fuel acc :
  es ≠ [] → Forall (λ e, text_ok e.1 = true ∧ json_ok e.2 = true ∧ cuts e.2) es →
  join [0x2c] (member_text <$> es) ++ [0x7d] = p ++ q → q ≠ [] → parse_members fuel acc p = None.
Proof.
  intros Hne Hes H Hq. revert p fuel acc H.
  induction Hes as [|e es (Hk & Hok & He) Hes IH]; intros p fuel acc H; [done|].
  assert (∃ tail, member_text e ++ tail = p ++ q ∧
    (tail = [0x7d] ∨ es ≠ [] ∧ tail = 0x2c :: join [0x2c] (member_text <$> es) ++ [0x7d])) as (tail & H1 & Htail).
  { destruct es as [|e' es]; [by eexists; split; [exact H|left]|].
    rewrite fmap_cons, join_cons, <- app_assoc in H by done. eexists; split; [exact H|right]. done. }
  apply app_eq_inv in H1 as [(k & Hk' & H1)|(k & -> & H1)]; [by eapply cut_member|].
  destruct k as [|c k].
  { eapply (cut_member e _ []); [done..|]. by rewrite !app_nil_r. }
  destruct fuel as [|fuel]; [done|].
  destruct Htail as [-> |[Hes0 ->]]; injection H1 as <- H1; [by destruct k, q|].
  destruct (reads_any e.2 (0x2c :: k) fuel Hok) as [Hv|Hv]; [done|..].
  - cbn [parse_members]. fold parse_value parse_members.
    unfold member_text, quote. rewrite <- !app_assoc. cbn [app]. rewrite <- !app_assoc.
    cbn [skip_ws is_ws is_char Z.eqb Pos.eqb orb app]. rewrite parse_quoted by done.
    cbn [skip_ws is_ws is_char Z.eqb Pos.eqb orb app]. by rewrite Hv.
  - erewrite member_step; [|done|exact Hv|done].
    cbn [skip_ws is_ws Z.eqb Pos.eqb orb]. by apply IH.
Qed.

Lemma cut_strip p q w : w = p ++ q → q ≠ [] → strip w p = None.
Proof.
  intros -> Hq. induction p as [|c p IH]; cbn; [by destruct q|]. by rewrite Z.eqb_refl.
Qed.

(** A cut literal [null], [true] or [false]. *)
Lemma cut_literal c w p q fuel :
  c :: w = p ++ q → q ≠ [] → c ∈ [0x6e; 0x74; 0x66] → (c = 0x6e → w = js_lit "ull") →
  (c = 0x74 → w = js_lit "rue") → (c = 0x66 → w = js_lit "alse") → parse_value fuel p = None.
Proof.
  intros H Hq Hc H1 H2 H3. destruct fuel; [done|]. destruct p as [|c' p]; [done|]. injection H as <- H.
  cbn [parse_value].
  assert (c = 0x6e ∨ c = 0x74 ∨ c = 0x66) as [-> |[-> | ->]] by set_solver;
    cbn [skip_ws is_ws Z.eqb Pos.eqb orb]; [rewrite <- H1 by done|rewrite <- H2 by done|rewrite <- H3 by done];
    by rewrite (cut_strip p q).
Qed.

(** A cut container. *)
Lemma cut_array ts p q fuel :
  Forall (λ t, json_ok t = true ∧ cuts t) ts → stringify (TArray ts) = p ++ q → q ≠ [] → parse_value fuel p = None.
Proof.
  intros Hts H Hq. destruct p as [|c p]; [by rewrite parse_value_nil|]. destruct fuel as [|fuel]; [done|].
  injection H as <- H. cbn [parse_value]. fold parse_elements. cbn [skip_ws is_ws Z.eqb Pos.eqb orb].
  destruct ts as [|t ts]; [by destruct p; [rewrite parse_elements_nil|destruct p, q]|].
  assert (is_char 0x5d (skip_ws p) = None) as ->; [|by apply (cut_elements (t :: ts) p q)].
  destruct p as [|c p]; [done|]. apply Forall_cons in Hts as [[Hok _] _].
  destruct (stringify_starts t Hok) as (c' & s & E & Hw & H5 & _).
  assert (c = c') as ->.
  { rewrite fmap_cons, E in H. destruct ts; by simplify_eq/=. }
  rewrite skip_ws_head by done. cbn. by rewrite H5.
Qed.

Lemma cut_map es p q fuel :
  Forall (λ e, text_ok e.1 = true ∧ json_ok e.2 = true ∧ cuts e.2) es →
  stringify (TMap es) = p ++ q → q ≠ [] → parse_value fuel p = None.
Proof.
  intros Hes H Hq. destruct p as [|c p]; [by rewrite parse_value_nil|]. destruct fuel as [|fuel]; [done|].
  injection H as <- H. cbn [parse_value]. fold parse_members. cbn [skip_ws is_ws Z.eqb Pos.eqb orb].
  change (λ e0 : jsstr * tree, quote e0.1 ++ 0x3a :: stringify e0.2) with member_text in H.
  destruct es as [|e es]; [by destruct p; [rewrite parse_members_nil|destruct p, q]|].
  assert (is_char 0x7d (skip_ws p) = None) as ->; [|by apply (cut_members (e :: es) p q)].
  destruct p as [|c p]; [done|].
  assert (c = 0x22) as ->; [|done].
  rewrite fmap_cons in H. destruct es; by simplify_eq/=.
Qed.

Lemma stringify_cuts t : json_ok t = true → cuts t.
Proof.
  induction t as [|b|n|s|bs|ts IH|es IH] using tree_ind'; cbn [json_ok]; intros Hok p q fuel H Hq.
  - left. eapply (cut_literal 0x6e (js_lit "ull")); [exact H|done|set_solver|done..].
  - left. destruct b.
    + eapply (cut_literal 0x74 (js_lit "rue")); [exact H|done|set_solver|done..].
    + eapply (cut_literal 0x66 (js_lit "alse")); [exact H|done|set_solver|done..].
  - destruct (num_text_spec n Hok) as [_ Hc]. cbn [stringify] in H. rewrite H, forallb_app in Hc.
    apply andb_true_iff in Hc as [Hc _]. destruct p as [|c p]; [left; apply parse_value_nil|].
    destruct fuel as [|fuel]; [by left|]. cbn [parse_value]. pose proof Hc as Hall.
    apply andb_true_iff in Hc as [(Hw & H1 & H2 & H3 & H4 & H5 & H6 & _)%num_char_head _].
    rewrite skip_ws_head, H1, H2, H3, H4, H5, H6, span_all by done.
    destruct (read_number (c :: p)); [right; eauto|by left].
  - left. destruct p as [|c p]; [apply parse_value_nil|]. destruct fuel; [done|].
    cbn [stringify] in H. injection H as <- H. cbn [parse_value skip_ws is_ws Z.eqb Pos.eqb orb].
    by rewrite (cut_quote s p q).
  - done.
  - left. eapply cut_array; [|done..]. rewrite forallb_forall in Hok. rewrite Forall_forall in IH |- *.
    intros t Ht. assert (json_ok t = true) by (by apply Hok, list_elem_of_In). auto.
  - left. eapply cut_map; [|done..]. apply andb_true_iff in Hok as [_ Hok].
    rewrite forallb_forall in Hok. rewrite Forall_forall in IH |- *.
    intros e He. specialize (Hok e). rewrite andb_true_iff in Hok.
    destruct Hok as [Hk Hv]; [by apply list_elem_of_In|]. auto.
Qed.

(** No strict prefix of an object's text is a JSON text. *)
Lemma JSON_cut es p q :
  json_ok (TMap es) = true → JSON_stringify (TMap es) = p ++ q → q ≠ [] → JSON_parse p = None.
Proof.
  intros Hok H Hq. unfold JSON_parse. rewrite (cut_map es p q); [done| |done..].
  cbn [json_ok] in Hok. apply andb_true_iff in Hok as [_ Hok].
  rewrite forallb_forall in Hok. apply Forall_forall. intros e He. specialize (Hok e).
  rewrite andb_true_iff in Hok. destruct Hok as [Hk Hv]; [by apply list_elem_of_In|].
  auto using stringify_cuts.
Qed.
