(* ===== verification/Settings.v ===== *)
(** The settings manager: [coding-agent/src/core/settings-manager.ts].  Global and
    project settings are JSON objects; a set field is marked as modified and
    written back into whatever the file holds by then.  A stored file is what
    [JSON.parse] makes of it; the queue of writes is explicit, and a write may
    fail.  A field set to [undefined] is an absent one: no code modelled here
    tells them apart.  Fields named [__proto__] are left out. *)
From S2P Require Import Prelude JsValue JsMap Json Regex.
Open Scope Z_scope.

Notation settings := (list (jsstr * tree)).

(** ** Merging *)

(** [result[key] = value] where an undefined value removes the field. *)
Definition assign (o : settings) (key : jsstr) (value : option tree) : settings :=
  match value with Some v => map_set o key v | None => map_delete o key end.

(** [deepMergeObjects]: nested objects merge, anything else is overridden.  The
    recursion is on the overriding value. *)
Fixpoint merge_value (base : option tree) (over : tree) : tree :=
  match over with
  | TMap os =>
      match base with
      | Some (TMap bs) =>
          TMap (foldl (λ acc kv, map_set acc kv.1 (kv.2 (map_get bs kv.1))) bs
                  ((λ kv, (kv.1, λ b, merge_value b kv.2)) <$> os))
      | _ => over
      end
  | _ => over
  end.

Definition deepMergeObjects (base overrides : settings) : settings :=
  foldl (λ acc kv, map_set acc kv.1 (merge_value (map_get base kv.1) kv.2)) base overrides.

Definition deepMergeSettings : settings → settings → settings := deepMergeObjects.

(** ** Storage *)

Inductive SettingsScope := global | project.

#[export] Instance SettingsScope_eq_dec : EqDecision SettingsScope.
Proof. solve_decision. Defined.

(** A settings file: missing or empty, not JSON, or a document. *)
Inductive content := NoContent | NotJson | Document (t : tree).

Record files := mkFiles { f_global : content; f_project : content }.
Definition file_of (fs : files) (scope : SettingsScope) : content :=
  match scope with global => f_global fs | project => f_project fs end.
Definition set_file (fs : files) (scope : SettingsScope) (c : content) : files :=
  match scope with global => mkFiles c (f_project fs) | project => mkFiles (f_global fs) c end.

Inductive load_error := ParseError | NotAnObject.

Definition get (s : settings) (name : string) : option tree := map_get s (js_lit name).
Definition put (s : settings) (name : string) (v : option tree) : settings := assign s (js_lit name) v.
Definition has_field (s : settings) (name : string) : bool := map_has s (js_lit name).

(** An array read as an object: its elements by index. *)
Definition indexed (ts : list tree) : settings := imap (λ i t, (decimal (Z.of_nat i), t)) ts.

(** ** Migration of old fields *)

Definition migrateQueueMode (s : settings) : settings :=
  if has_field s "queueMode" && negb (has_field s "steeringMode")
  then put (put s "steeringMode" (get s "queueMode")) "queueMode" None else s.

Definition migrateTransport (s : settings) : settings :=
  match get s "websockets" with
  | Some (TBool b) =>
      if has_field s "transport" then s
      else put (put s "transport" (Some (TText (js_lit (if b then "websocket" else "sse"))))) "websockets" None
  | _ => s
  end.

Definition migrateSkills (s : settings) : settings :=
  match get s "skills" with
  | Some (TMap sk) =>
      let s := match get sk "enableSkillCommands", get s "enableSkillCommands" with
               | Some v, None => put s "enableSkillCommands" (Some v)
               | _, _ => s
               end in
      match get sk "customDirectories" with
      | Some (TArray (d :: ds)) => put s "skills" (Some (TArray (d :: ds)))
      | _ => put s "skills" None
      end
  | _ => s
  end.

Definition migrateRetry (s : settings) : settings :=
  match get s "retry" with
  | Some (TMap r) =>
      let provider := match get r "provider" with Some (TMap p) => Some p | Some (TArray ts) => Some (indexed ts) | _ => None end in
      let unset := match provider with
                   | Some p => match get p "maxRetryDelayMs" with None | Some TNull => true | _ => false end
                   | None => true
                   end in
      let r := match get r "maxDelayMs" with
               | Some (TNum n) =>
                   if unset then put r "provider" (Some (TMap (put (default [] provider) "maxRetryDelayMs" (Some (TNum n))))) else r
               | _ => r
               end in
      put s "retry" (Some (TMap (put r "maxDelayMs" None)))
  | _ => s
  end.

Definition migrateSettings (s : settings) : settings :=
  migrateRetry (migrateSkills (migrateTransport (migrateQueueMode s))).

(** [JSON.parse] and migration; [in] on anything but an object throws. *)
Definition parseContent (c : content) : result load_error settings :=
  match c with
  | NoContent => Ok []
  | NotJson => Err ParseError
  | Document (TMap s) => Ok (migrateSettings s)
  | Document (TArray ts) => Ok (migrateSettings (indexed ts))
  | Document _ => Err NotAnObject
  end.

Definition tryLoadFromStorage (fs : files) (scope : SettingsScope) (projectTrusted : bool) : settings * option load_error :=
  if bool_decide (scope = project) && negb projectTrusted then ([], None) else
  match parseContent (file_of fs scope) with
  | Ok s => (s, None)
  | Err e => ([], Some e)
  end.

(** ** The manager *)

(** The fields marked as modified, and the nested keys of some of them. *)
Record marks := mkMarks { mk_fields : list jsstr; mk_nested : list (jsstr * list jsstr) }.
Definition no_marks : marks := mkMarks [] [].

Definition add_key (k : jsstr) (ks : list jsstr) : list jsstr := if bool_decide (k ∈ ks) then ks else ks ++ [k].

Definition mark (m : marks) (field : jsstr) (nestedKey : option jsstr) : marks :=
  mkMarks (add_key field (mk_fields m))
    (match nestedKey with
     | Some k => map_set (mk_nested m) field (add_key k (default [] (map_get (mk_nested m) field)))
     | None => mk_nested m
     end).

(** A queued write: what [save] captured. *)
Record write := mkWrite { wr_scope : SettingsScope; wr_snapshot : settings; wr_marks : marks }.

Record SettingsManager := mkManager {
  globalSettings : settings;
  projectSettings : settings;
  merged : settings;                        (* [this.settings] *)
  projectTrusted : bool;
  modified : marks;
  modifiedProject : marks;
  globalSettingsLoadError : option load_error;
  projectSettingsLoadError : option load_error;
  writeQueue : list write;
  errors : list SettingsScope;              (* the scopes of the recorded errors *)
}.

Definition errors_of (scope : SettingsScope) (e : option load_error) : list SettingsScope :=
  match e with Some _ => [scope] | None => [] end.

Definition fromStorage (fs : files) (trusted : bool) : SettingsManager :=
  let '(g, ge) := tryLoadFromStorage fs global true in
  let '(p, pe) := tryLoadFromStorage fs project trusted in
  mkManager g p (deepMergeSettings g p) trusted no_marks no_marks ge pe [] (errors_of global ge ++ errors_of project pe).

Definition setProjectTrusted (fs : files) (m : SettingsManager) (trusted : bool) : SettingsManager :=
  if bool_decide (projectTrusted m = trusted) then m else
  let '(p, pe) := if trusted then tryLoadFromStorage fs project trusted else ([], None) in
  mkManager (globalSettings m) p (deepMergeSettings (globalSettings m) p) trusted (modified m) no_marks
    (globalSettingsLoadError m) pe (writeQueue m) (errors m ++ errors_of project pe).

(** After [await this.writeQueue]. *)
Definition reload (fs : files) (m : SettingsManager) : SettingsManager :=
  let '(g, ge) := tryLoadFromStorage fs global true in
  let '(p, pe) := tryLoadFromStorage fs project (projectTrusted m) in
  let g := match ge with None => g | Some _ => globalSettings m end in
  let p := match pe with None => p | Some _ => projectSettings m end in
  mkManager g p (deepMergeSettings g p) (projectTrusted m) no_marks no_marks ge pe (writeQueue m)
    (errors m ++ errors_of global ge ++ errors_of project pe).

Definition applyOverrides (m : SettingsManager) (overrides : settings) : SettingsManager :=
  mkManager (globalSettings m) (projectSettings m) (deepMergeSettings (merged m) overrides) (projectTrusted m)
    (modified m) (modifiedProject m) (globalSettingsLoadError m) (projectSettingsLoadError m) (writeQueue m) (errors m).

Definition save (m : SettingsManager) : SettingsManager :=
  let queue := match globalSettingsLoadError m with
               | Some _ => writeQueue m
               | None => writeQueue m ++ [mkWrite global (globalSettings m) (modified m)]
               end in
  mkManager (globalSettings m) (projectSettings m) (deepMergeSettings (globalSettings m) (projectSettings m)) (projectTrusted m)
    (modified m) (modifiedProject m) (globalSettingsLoadError m) (projectSettingsLoadError m) queue (errors m).

(** Assign fields of the global settings, mark them, save: the shape of every setter. *)
Definition with_global (m : SettingsManager) (g : settings) (ms : marks) : SettingsManager :=
  save (mkManager g (projectSettings m) (merged m) (projectTrusted m) ms (modifiedProject m) (globalSettingsLoadError m)
          (projectSettingsLoadError m) (writeQueue m) (errors m)).

Definition setField (m : SettingsManager) (field : string) (v : option tree) : SettingsManager :=
  with_global m (put (globalSettings m) field v) (mark (modified m) (js_lit field) None).

(** A nested field: the object is created when missing; a primitive cannot hold a property. *)
Definition setNested (m : SettingsManager) (field key : string) (v : tree) : option SettingsManager :=
  let set_in (o : settings) :=
    with_global m (put (globalSettings m) field (Some (TMap (put o key (Some v)))))
      (mark (modified m) (js_lit field) (Some (js_lit key))) in
  match get (globalSettings m) field with
  | Some (TMap o) => Some (set_in o)
  | Some (TArray ts) => Some (set_in (indexed ts))
  | None | Some TNull | Some (TBool false) | Some (TText []) | Some (TNum (NInt 0)) | Some (TNum NNegZero) => Some (set_in [])
  | _ => None
  end.

Inductive settings_error := ProjectNotTrusted.

Definition saveProjectSettings (m : SettingsManager) (p : settings) (ms : marks) : SettingsManager :=
  let queue := match projectSettingsLoadError m with
               | Some _ => writeQueue m
               | None => writeQueue m ++ [mkWrite project p ms]
               end in
  mkManager (globalSettings m) p (deepMergeSettings (globalSettings m) p) (projectTrusted m)
    (modified m) ms (globalSettingsLoadError m) (projectSettingsLoadError m) queue (errors m).

Definition updateProjectSettings (m : SettingsManager) (field : string) (v : option tree) : result settings_error SettingsManager :=
  if negb (projectTrusted m) then Err ProjectNotTrusted else
  Ok (saveProjectSettings m (put (projectSettings m) field v) (mark (modifiedProject m) (js_lit field) None)).

(** ** Writing back *)

(** An object literal of a value: [(value ?? {})] spread. *)
Definition spread_of (v : option tree) : settings :=
  match v with
  | Some (TMap o) => o
  | Some (TArray ts) => indexed ts
  | Some (TText s) => indexed ((λ u, TText [u]) <$> s)
  | _ => []
  end.

Definition persistField (current snapshot : settings) (ms : marks) (acc : settings) (field : jsstr) : settings :=
  let value := map_get snapshot field in
  match map_get (mk_nested ms) field, value with
  | Some keys, Some (TMap o) =>
      map_set acc field
        (TMap (foldl (λ acc k, assign acc k (map_get o k)) (spread_of (map_get current field)) keys))
  | Some keys, Some (TArray ts) =>
      map_set acc field
        (TMap (foldl (λ acc k, assign acc k (map_get (indexed ts) k)) (spread_of (map_get current field)) keys))
  | _, _ => assign acc field value
  end.

(** The new document, or the error of parsing the current one. *)
Definition persistScopedSettings (c : content) (snapshot : settings) (ms : marks) : result load_error content :=
  let* current := parseContent c in
  Ok (Document (TMap (foldl (persistField current snapshot ms) current (mk_fields ms)))).

Record settings_system := mkSystem { ss_files : files; ss_manager : SettingsManager }.

Definition record_error (scope : SettingsScope) (m : SettingsManager) : SettingsManager :=
  mkManager (globalSettings m) (projectSettings m) (merged m) (projectTrusted m) (modified m) (modifiedProject m)
    (globalSettingsLoadError m) (projectSettingsLoadError m) (writeQueue m) (errors m ++ [scope]).

Definition clearModifiedScope (scope : SettingsScope) (m : SettingsManager) : SettingsManager :=
  mkManager (globalSettings m) (projectSettings m) (merged m) (projectTrusted m)
    (match scope with global => no_marks | project => modified m end)
    (match scope with global => modifiedProject m | project => no_marks end)
    (globalSettingsLoadError m) (projectSettingsLoadError m) (writeQueue m) (errors m).

Definition set_queue (q : list write) (m : SettingsManager) : SettingsManager :=
  mkManager (globalSettings m) (projectSettings m) (merged m) (projectTrusted m) (modified m) (modifiedProject m)
    (globalSettingsLoadError m) (projectSettingsLoadError m) q (errors m).

(** The next queued write runs; [lockOk] says whether the storage lets it. *)
Definition runWrite (s : settings_system) (lockOk : bool) : settings_system :=
  match writeQueue (ss_manager s) with
  | [] => s
  | w :: queue =>
      let m := set_queue queue (ss_manager s) in
      let scope := wr_scope w in
      if bool_decide (scope = project) && negb (projectTrusted m) then mkSystem (ss_files s) (record_error scope m) else
      if negb lockOk then mkSystem (ss_files s) (record_error scope m) else
      match persistScopedSettings (file_of (ss_files s) scope) (wr_snapshot w) (wr_marks w) with
      | Err _ => mkSystem (ss_files s) (record_error scope m)
      | Ok c => mkSystem (set_file (ss_files s) scope c) (clearModifiedScope scope m)
      end
  end.

(** What happens to a manager and its files. *)
Inductive settings_op :=
| SetField (field : string) (v : option tree)
| SetNested (field key : string) (v : tree)
| UpdateProject (field : string) (v : option tree)
| SetTrusted (trusted : bool)
| Reload
| ApplyOverrides (overrides : settings)
| WriteTurn (lockOk : bool)
| External (scope : SettingsScope) (c : content).

Definition settingsStep (s : settings_system) (op : settings_op) : settings_system :=
  let m := ss_manager s in
  match op with
  | SetField field v => mkSystem (ss_files s) (setField m field v)
  | SetNested field key v => mkSystem (ss_files s) (default m (setNested m field key v))
  | UpdateProject field v =>
      mkSystem (ss_files s) (match updateProjectSettings m field v with Ok m => m | Err _ => m end)
  | SetTrusted trusted => mkSystem (ss_files s) (setProjectTrusted (ss_files s) m trusted)
  | Reload => match writeQueue m with [] => mkSystem (ss_files s) (reload (ss_files s) m) | _ => s end
  | ApplyOverrides o => mkSystem (ss_files s) (applyOverrides m o)
  | WriteTurn lockOk => runWrite s lockOk
  | External scope c => mkSystem (set_file (ss_files s) scope c) m
  end.

Definition settingsRun (fs : files) (trusted : bool) (ops : list settings_op) : settings_system :=
  foldl settingsStep (mkSystem fs (fromStorage fs trusted)) ops.

(** ** Some accessors *)

Definition text (s : jsstr) : option tree := Some (TText s).
Definition setLastChangelogVersion m version := setField m "lastChangelogVersion" (text version).
Definition setDefaultProvider m provider := setField m "defaultProvider" (text provider).
Definition setDefaultModel m modelId := setField m "defaultModel" (text modelId).
Definition setDefaultModelAndProvider m provider modelId : SettingsManager :=
  with_global m (put (put (globalSettings m) "defaultProvider" (text provider)) "defaultModel" (text modelId))
    (mark (mark (modified m) (js_lit "defaultProvider") None) (js_lit "defaultModel") None).
Definition setSteeringMode m mode := setField m "steeringMode" (text mode).
Definition setFollowUpMode m mode := setField m "followUpMode" (text mode).
Definition setTheme m theme := setField m "theme" (text theme).
Definition setDefaultThinkingLevel m level := setField m "defaultThinkingLevel" (text level).
Definition setTransport m transport := setField m "transport" (text transport).
Definition setCompactionEnabled m enabled := setNested m "compaction" "enabled" (TBool enabled).
Definition setRetryEnabled m enabled := setNested m "retry" "enabled" (TBool enabled).
Definition setDefaultProjectTrust m trust := setField m "defaultProjectTrust" (text trust).
Definition setShellPath m path := setField m "shellPath" (TText <$> path).
Definition setEnableAnalytics m (enabled : bool) (uuid : jsstr) : SettingsManager :=
  let g := put (globalSettings m) "enableAnalytics" (Some (TBool enabled)) in
  let ms := mark (modified m) (js_lit "enableAnalytics") None in
  let known := match get g "trackingId" with
               | None | Some TNull | Some (TText []) | Some (TBool false) | Some (TNum (NInt 0)) | Some (TNum NNegZero) => false
               | _ => true
               end in
  if enabled && negb known then with_global m (put g "trackingId" (text uuid)) (mark ms (js_lit "trackingId") None)
  else with_global m g ms.
Definition getUnsandboxedDisclosureAcknowledged m : bool :=
  match get (globalSettings m) "unsandboxedDisclosureAcknowledged" with Some (TBool true) => true | _ => false end.
Definition setUnsandboxedDisclosureAcknowledged m acknowledged :=
  setField m "unsandboxedDisclosureAcknowledged" (Some (TBool acknowledged)).
Definition getModelSetupSkipped m : bool :=
  match get (merged m) "modelSetupSkipped" with Some (TBool true) => true | _ => false end.
Definition setModelSetupSkipped m skipped := setField m "modelSetupSkipped" (Some (TBool skipped)).
(** Only the user's own settings decide, not the project's. *)
Definition getDefaultProjectTrust m : jsstr :=
  match get (globalSettings m) "defaultProjectTrust" with
  | Some (TText v) => if bool_decide (v = js_lit "always") || bool_decide (v = js_lit "never") then v else js_lit "ask"
  | _ => js_lit "ask"
  end.
Definition setProjectPackages m packages := updateProjectSettings m "packages" (Some (TArray packages)).
Definition setProjectExtensionPaths m paths := updateProjectSettings m "extensions" (Some (TArray paths)).
