(* ===== verification/SettingsSpec.v ===== *)
(** What the settings manager guarantees: a write changes exactly the fields that
    were set, keeping what the file holds otherwise; an untrusted project is
    neither read nor written; and a defect of the marks when a write fails. *)
From S2P Require Import Prelude JsValue JsMap Json Regex Settings.
Open Scope Z_scope.

(** ** Merging *)

Lemma assign_get o k v k' : map_get (assign o k v) k' = if bool_decide (k = k') then v else map_get o k'.
Proof.
  destruct v as [v|]; cbn; [by rewrite map_get_set|]. rewrite map_get_delete. by repeat case_bool_decide; simplify_eq.
Qed.

(** A fold that assigns each key once or more, to a value that depends on the key only. *)
Lemma fold_assign_get (value : jsstr → option tree) keys acc k :
  map_get (foldl (λ acc k, assign acc k (value k)) acc keys) k = if bool_decide (k ∈ keys) then value k else map_get acc k.
Proof.
  induction keys as [|k' keys IH] using rev_ind; [done|]. rewrite foldl_app. cbn [foldl]. rewrite assign_get, IH.
  destruct (bool_decide_reflect (k' = k)) as [->|Hne].
  - by rewrite bool_decide_eq_true_2 by (apply elem_of_app; right; left).
  - rewrite (bool_decide_ext (k ∈ keys ++ [k']) (k ∈ keys)); [done|].
    rewrite elem_of_app, list_elem_of_singleton. naive_solver.
Qed.

(** ** Writing back *)

(** The value a write gives a marked field. *)
Definition persisted (current snapshot : settings) (ms : marks) (field : jsstr) : option tree :=
  let nested keys o :=
    Some (TMap (foldl (λ acc k, assign acc k (map_get o k)) (spread_of (map_get current field)) keys)) in
  match map_get (mk_nested ms) field, map_get snapshot field with
  | Some keys, Some (TMap o) => nested keys o
  | Some keys, Some (TArray ts) => nested keys (indexed ts)
  | _, value => value
  end.

Lemma persistField_assign current snapshot ms acc field :
  persistField current snapshot ms acc field = assign acc field (persisted current snapshot ms field).
Proof. unfold persistField, persisted. by repeat case_match. Qed.

Lemma persist_get current snapshot ms f :
  map_get (foldl (persistField current snapshot ms) current (mk_fields ms)) f =
  if bool_decide (f ∈ mk_fields ms) then persisted current snapshot ms f else map_get current f.
Proof.
  rewrite <- fold_assign_get. f_equal. generalize current at 2 4. induction (mk_fields ms) as [|g gs IH]; intros acc; [done|].
  cbn [foldl]. by rewrite persistField_assign, IH.
Qed.

(** A write merges, it does not overwrite.  When a queued write runs, the file
    it finds (edits by another process included) keeps every field that was not
    set; a field that was set gets its value at the time of the call; of an
    object whose keys were set one by one, only those keys change.  A file that is
    not valid JSON is left alone. *)
Theorem write_merges s w queue :
  writeQueue (ss_manager s) = w :: queue → wr_scope w = global →
  let s' := runWrite s true in
  let ms := wr_marks w in
  f_project (ss_files s') = f_project (ss_files s) ∧
  match parseContent (f_global (ss_files s)) with
  | Err _ => ss_files s' = ss_files s
  | Ok current =>
      ∃ new, f_global (ss_files s') = Document (TMap new) ∧
        ∀ f, (f ∉ mk_fields ms → map_get new f = map_get current f) ∧
             (f ∈ mk_fields ms → map_get (mk_nested ms) f = None → map_get new f = map_get (wr_snapshot w) f) ∧
             (∀ keys o, f ∈ mk_fields ms → map_get (mk_nested ms) f = Some keys → map_get (wr_snapshot w) f = Some (TMap o) →
                ∃ n, map_get new f = Some (TMap n) ∧
                  ∀ k, map_get n k = if bool_decide (k ∈ keys) then map_get o k else map_get (spread_of (map_get current f)) k)
  end.
Proof.
  intros Hq Hscope s' ms. unfold s', runWrite. rewrite Hq, Hscope. cbn [bool_decide decide_rel andb negb]. cbn.
  unfold persistScopedSettings. destruct (parseContent (f_global (ss_files s))) as [current|e]; cbn; [|done].
  split; [done|]. eexists. split; [done|]. intros f. rewrite persist_get. fold ms. split_and!.
  - intros Hf. by rewrite bool_decide_eq_false_2.
  - intros Hf Hn. rewrite bool_decide_eq_true_2 by done. unfold persisted. by rewrite Hn.
  - intros keys o Hf Hn Hs. rewrite bool_decide_eq_true_2 by done. unfold persisted. rewrite Hn, Hs.
    eexists. split; [done|]. intros k. by rewrite fold_assign_get.
Qed.

Definition num (z : Z) : tree := TNum (NInt z).
Definition theme_file (n : Z) : content := Document (TMap [(js_lit "a", num n); (js_lit "theme", TText (js_lit "old"))]).
Definition theme_run : settings_system :=
  settingsRun (mkFiles (theme_file 1) NoContent) true [SetField "theme" (text (js_lit "dark")); External global (theme_file 2)].

Lemma write_merges_witness :
  ∃ new, f_global (ss_files (runWrite theme_run true)) = Document (TMap new) ∧
    map_get new (js_lit "a") = Some (num 2) ∧ map_get new (js_lit "theme") = Some (TText (js_lit "dark")).
Proof.
  destruct (write_merges theme_run
    (mkWrite global [(js_lit "a", num 1); (js_lit "theme", TText (js_lit "dark"))] (mkMarks [js_lit "theme"] [])) []
    eq_refl eq_refl) as [_ (new & Hnew & Hf)].
  exists new. split; [exact Hnew|]. split.
  - rewrite (proj1 (Hf (js_lit "a"))); [reflexivity|decide_now].
  - rewrite (proj1 (proj2 (Hf (js_lit "theme")))); [reflexivity|decide_now|reflexivity].
Defined.

(** ** Untrusted projects *)

Lemma trusted_marks_load fs m : projectTrusted m = false → (tryLoadFromStorage fs project (projectTrusted m)) = ([], None).
Proof. intros ->. done. Qed.

(** The overrides that callers applied in a run. *)
Definition overrides_in (ops : list settings_op) : list settings :=
  omap (λ op, match op with ApplyOverrides o => Some o | _ => None end) ops.

(** What the getters read: the global settings, under the last of the overrides [os]. *)
Definition effective (m : SettingsManager) (os : list settings) : Prop :=
  ∃ os', os' `suffix_of` os ∧ merged m = foldl deepMergeSettings (globalSettings m) os'.

Definition untrusted_ok (m : SettingsManager) (os : list settings) : Prop :=
  projectTrusted m = false → projectSettings m = [] ∧ effective m os.

Lemma effective_global m os : merged m = globalSettings m → effective m os.
Proof. intros E. exists []. split; [apply suffix_nil|done]. Qed.

Lemma settingsStep_untrusted s op os :
  untrusted_ok (ss_manager s) os → untrusted_ok (ss_manager (settingsStep s op)) (os ++ overrides_in [op]).
Proof.
  unfold untrusted_ok. intros H. destruct op as [f v|f k v|f v|trusted| |o|ok|scope c]; cbn; rewrite ?app_nil_r.
  - intros Hf. destruct (H Hf) as [E _]. split; [done|]. apply effective_global. cbn. by rewrite E.
  - unfold setNested. repeat case_match; cbn; try done;
      intros Hf; destruct (H Hf) as [E _]; (split; [done|]); apply effective_global; cbn; by rewrite E.
  - unfold updateProjectSettings. destruct (projectTrusted (ss_manager s)) eqn:E; cbn; [intros Hf; congruence|intros _; by apply H].
  - unfold setProjectTrusted. case_bool_decide as E; [done|]. destruct trusted; cbn; [by destruct (tryLoadFromStorage _ _ _)|].
    intros _. split; [done|]. by apply effective_global.
  - destruct (writeQueue (ss_manager s)); [|done]. cbn. unfold reload. destruct (tryLoadFromStorage _ global true) as [g ge].
    destruct (projectTrusted (ss_manager s)) eqn:E; [destruct (tryLoadFromStorage _ project true); cbn; intros Hf; congruence|].
    cbn. intros _. split; [done|]. by apply effective_global.
  - intros Hf. destruct (H Hf) as [E (os' & [k Hk] & Hm)]. split; [done|]. exists (os' ++ [o]). cbn. split; [exists k; by rewrite Hk, app_assoc|].
    by rewrite foldl_snoc, Hm.
  - unfold runWrite. destruct (writeQueue (ss_manager s)) as [|w q]; [done|]. cbn. by repeat case_match.
  - done.
Qed.

Lemma untrusted_run fs trusted ops : untrusted_ok (ss_manager (settingsRun fs trusted ops)) (overrides_in ops).
Proof.
  unfold settingsRun. induction ops as [|op ops IH] using rev_ind.
  - unfold untrusted_ok, fromStorage. cbn. destruct (tryLoadFromStorage fs global true) as [g ge]. destruct trusted; cbn.
    + by destruct (tryLoadFromStorage fs project true).
    + intros _. split; [done|]. by apply effective_global.
  - rewrite foldl_snoc. unfold overrides_in. rewrite omap_app. by apply settingsStep_untrusted.
Qed.

(** C27: An untrusted project is inert.  Whatever happened before, while the project
    is not trusted its settings count as empty and what the getters read is the global
    settings, under the overrides that callers applied last; no queued write changes
    the project's file, and no call queues one. *)
Theorem untrusted_inert fs trusted ops :
  let s := settingsRun fs trusted ops in
  projectTrusted (ss_manager s) = false →
  projectSettings (ss_manager s) = [] ∧
  (∃ os, os `suffix_of` overrides_in ops ∧ merged (ss_manager s) = foldl deepMergeSettings (globalSettings (ss_manager s)) os) ∧
  (∀ lockOk, f_project (ss_files (runWrite s lockOk)) = f_project (ss_files s)) ∧
  (∀ f v, updateProjectSettings (ss_manager s) f v = Err ProjectNotTrusted).
Proof.
  intros s Hu. destruct (untrusted_run fs trusted ops Hu) as [H1 H2]. split_and!; [done|done|..].
  - intros lockOk. unfold runWrite. destruct (writeQueue (ss_manager s)) as [|w q]; [done|]. cbn. rewrite Hu. cbn.
    destruct (wr_scope w); cbn; [|done]. by repeat case_match.
  - intros f v. unfold updateProjectSettings. by rewrite Hu.
Qed.

Lemma untrusted_inert_witness :
  let s := settingsRun (mkFiles NoContent (theme_file 1)) true [UpdateProject "theme" (text (js_lit "x")); SetTrusted false] in
  projectSettings (ss_manager s) = [] ∧ f_project (ss_files (runWrite s true)) = theme_file 1.
Proof.
  cbv zeta. destruct (untrusted_inert (mkFiles NoContent (theme_file 1)) true
    [UpdateProject "theme" (text (js_lit "x")); SetTrusted false] eq_refl) as (H1 & _ & H2 & _).
  split; [exact H1|]. rewrite (H2 true). reflexivity.
Defined.

(** ** A failed write *)

(** Two fields are set before their writes run; the second write cannot get the
    lock; later a third field is set and written. *)
Definition failed_run : settings_system :=
  settingsRun (mkFiles NoContent NoContent) true
    [SetField "theme" (text (js_lit "dark")); SetField "defaultModel" (text (js_lit "m")); WriteTurn true; WriteTurn false;
     SetField "transport" (text (js_lit "sse")); WriteTurn true].

(** The first of two queued writes clears the marks of both: when the second
    fails, its field stays in memory but is not written by any later save, only
    the error is recorded. *)
Theorem failed_write_forgotten :
  get (globalSettings (ss_manager failed_run)) "defaultModel" = Some (TText (js_lit "m")) ∧
  writeQueue (ss_manager failed_run) = [] ∧ modified (ss_manager failed_run) = no_marks ∧
  errors (ss_manager failed_run) = [global] ∧
  match f_global (ss_files failed_run) with
  | Document (TMap o) => get o "theme" = Some (TText (js_lit "dark")) ∧ get o "transport" = Some (TText (js_lit "sse")) ∧
                         get o "defaultModel" = None
  | _ => False
  end.
Proof. vm_compute. done. Qed.
