(* ===== verification/AgentMode.v ===== *)
(** The unsandboxed agent mode: [coding-agent/src/core/patchcage-agent-mode.ts], the
    disclosure gate of [main.ts] and the model onboarding of
    [cli/patchcage-onboarding.ts].  The URL parser, the network, the user's
    answers and the file system's answers are arguments. *)
From S2P Require Import Prelude JsValue JsMap Json Regex NodePath Settings.
Open Scope Z_scope.

(** ** The disclosure *)

Inductive DisclosureDecision := allow | need_interactive_prompt | fail_closed.

Record DisclosureInput := mkDisclosure {
  acknowledged : bool;
  toolsEnabled : bool;
  interactive : bool;
  ackThisRun : bool;
}.

Definition decideUnsandboxedDisclosure (i : DisclosureInput) : DisclosureDecision :=
  if negb (toolsEnabled i) then allow else
  if acknowledged i || ackThisRun i then allow else
  if interactive i then need_interactive_prompt else fail_closed.

(** The flags of the command line that matter here. *)
Record Parsed := mkParsed {
  p_help : bool;
  p_listModels : bool;          (* [parsed.listModels !== undefined] *)
  p_version : bool;
  p_noTools : bool;
  p_ackUnsandboxed : bool;
}.

Definition shouldSkipUnsandboxedDisclosure (p : Parsed) : bool := p_help p || p_listModels p || p_version p.

(** The selector's answer, [undefined] when dismissed. *)
Definition promptUnsandboxedDisclosure (choice : option bool) : bool := bool_decide (choice = Some true).

(** [process.exit] with a code, or startup goes on. *)
Definition disclosureGate (p : Parsed) (interactive_ : bool) (m : SettingsManager) (choice : option bool) : Z + SettingsManager :=
  if shouldSkipUnsandboxedDisclosure p then inr m else
  match decideUnsandboxedDisclosure
          (mkDisclosure (getUnsandboxedDisclosureAcknowledged m) (negb (p_noTools p)) interactive_ (p_ackUnsandboxed p)) with
  | fail_closed => inl 1
  | need_interactive_prompt =>
      if negb (promptUnsandboxedDisclosure choice) then inl 0
      else inr (setUnsandboxedDisclosureAcknowledged m true)
  | allow => inr m
  end.

Definition withBundledPromptTemplates (existing : option (list jsstr)) (bundledDir : jsstr) (exists_ enabled : bool) :
    option (list jsstr) :=
  if negb enabled || negb exists_ then existing else Some (default [] existing ++ [bundledDir]).

(** ** Local and hosted models *)

Definition LOCAL_PROBE_BASE_URLS : list jsstr :=
  [js_lit "http://127.0.0.1:11434/v1"; js_lit "http://127.0.0.1:8080/v1"; js_lit "http://127.0.0.1:8000/v1"].

Inductive LocalPresetId := ollama | llamacpp | vllm.
Record LocalPreset := mkPreset { lp_providerId : jsstr; lp_baseUrl : jsstr; lp_apiKey : jsstr; lp_label : jsstr }.

Definition LOCAL_MODEL_PRESETS (id : LocalPresetId) : LocalPreset :=
  match id with
  | ollama => mkPreset (js_lit "ollama") (js_lit "http://127.0.0.1:11434/v1") (js_lit "ollama") (js_lit "Ollama (127.0.0.1:11434)")
  | llamacpp => mkPreset (js_lit "llamacpp") (js_lit "http://127.0.0.1:8080/v1") (js_lit "llamacpp") (js_lit "llama.cpp (127.0.0.1:8080)")
  | vllm => mkPreset (js_lit "vllm") (js_lit "http://127.0.0.1:8000/v1") (js_lit "vllm") (js_lit "vLLM (127.0.0.1:8000)")
  end.

Definition HOSTED_PROVIDER_ID : jsstr := js_lit "openai-compat".

Definition LOCAL_COMPAT : tree :=
  TMap [(js_lit "supportsDeveloperRole", TBool false); (js_lit "supportsReasoningEffort", TBool false)].

Inductive ref_error := NameRequired | LooksLikeKey | BadName.

(** [/^[A-Z_][A-Z0-9_]*$/] *)
Definition is_name_start (u : Z) : bool := is_upper u || (u =? 0x5f).
Definition is_name_char (u : Z) : bool := is_upper u || is_digit u || (u =? 0x5f).
Definition env_name_regex : regex := seq_of [Bol; Class_ is_name_start; Star (Class_ is_name_char); Eol].

Definition normalizeHostedApiKeyRef `{CaseMap} (input : jsstr) : result ref_error jsstr :=
  let trimmed := trim input in
  if bool_decide (trimmed = []) then Err NameRequired else
  if test space trimmed || startsWith (toLowerCase trimmed) (js_lit "sk-") then Err LooksLikeKey else
  let name := if startsWith trimmed (js_lit "$") then drop 1 trimmed else trimmed in
  if negb (test env_name_regex name) then Err BadName else Ok (js_lit "$" ++ name).

Record Url := mkUrl { u_protocol : jsstr; u_username : jsstr; u_password : jsstr }.

Inductive url_error := UrlRequired | InvalidUrl | NotHttp | HasCredentials.

(** [new URL(trimmed)] is the argument. *)
Definition validateHostedBaseUrl (parseUrl : jsstr → option Url) (input : jsstr) : result url_error jsstr :=
  let trimmed := trim input in
  if bool_decide (trimmed = []) then Err UrlRequired else
  match parseUrl trimmed with
  | None => Err InvalidUrl
  | Some u =>
      if negb (bool_decide (u_protocol u = js_lit "http:")) && negb (bool_decide (u_protocol u = js_lit "https:")) then Err NotHttp else
      if negb (bool_decide (u_username u = [])) || negb (bool_decide (u_password u = [])) then Err HasCredentials else
      Ok trimmed
  end.

(** [baseUrl.replace(/\/+$/, "")] *)
Definition normalizeLocalBaseUrl (baseUrl : jsstr) : jsstr := reverse (drop_while is_slash (reverse baseUrl)).

Definition isAllowlistedLocalBaseUrl (baseUrl : jsstr) : bool :=
  bool_decide (normalizeLocalBaseUrl baseUrl ∈ LOCAL_PROBE_BASE_URLS).

(** What [fetch] and [response.json] give: nothing on an error or a bad status. *)
Definition network : Type := jsstr → option tree.

Definition field (t : tree) (name : string) : option tree :=
  match t with TMap o => map_get o (js_lit name) | _ => None end.

(** The requests made, and the models. A null element or body throws, which is caught. *)
Definition probeLocalModels (fetch : network) (baseUrl : jsstr) : list jsstr * list jsstr :=
  let normalized := normalizeLocalBaseUrl baseUrl in
  if negb (isAllowlistedLocalBaseUrl normalized) then ([], []) else
  let url := normalized ++ js_lit "/models" in
  ([url],
   match fetch url with
   | None => []
   | Some body =>
       match field body "data" with
       | Some (TArray items) =>
           if existsb (λ i, match i with TNull => true | _ => false end) items then [] else
           omap (λ i, match field i "id" with Some (TText (c :: s)) => Some (c :: s) | _ => None end) items
       | _ => []
       end
   end).

Definition localPresetProvider (preset : LocalPreset) (modelId : jsstr) : settings :=
  [(js_lit "baseUrl", TText (lp_baseUrl preset)); (js_lit "api", TText (js_lit "openai-completions"));
   (js_lit "apiKey", TText (lp_apiKey preset)); (js_lit "compat", LOCAL_COMPAT);
   (js_lit "models", TArray [TMap [(js_lit "id", TText modelId)]])].

Definition hostedPresetProvider (baseUrl apiKeyRef modelId : jsstr) : settings :=
  [(js_lit "baseUrl", TText baseUrl); (js_lit "api", TText (js_lit "openai-completions")); (js_lit "apiKey", TText apiKeyRef);
   (js_lit "models", TArray [TMap [(js_lit "id", TText modelId)]])].

(** ** Writing models.json *)

(** The id of a model; the schema makes it a string. *)
Definition model_id (t : tree) : jsstr := match field t "id" with Some (TText s) => s | _ => [] end.
Definition models_of (provider : settings) : list tree :=
  match get provider "models" with Some (TArray ms) => ms | _ => [] end.

Definition by_id (ms : list tree) (acc : list (jsstr * tree)) : list (jsstr * tree) :=
  foldl (λ acc m, map_set acc (model_id m) m) acc ms.

Definition mergeProviderIntoConfig (existing : option settings) (incoming : settings) : settings :=
  let byId := by_id (models_of incoming) (by_id (models_of (default [] existing)) []) in
  put (foldl (λ acc kv, map_set acc kv.1 kv.2) (default [] existing) incoming) "models" (Some (TArray byId.*2)).

(** The files, [models.json] among them, by what they hold. *)
Notation model_files := (gmap jsstr tree).

(** Which file operations succeed, and the random part of the temporary name. *)
Record WriteAnswers := mkAnswers { wa_mkdir : bool; wa_write : bool; wa_rename : bool; wa_unlink : bool; wa_random : jsstr }.

Inductive write_error := MkdirFailed | WriteFailed | RenameFailed.

Definition tmpName (path random : jsstr) : jsstr :=
  join_paths [dirname path; js_lit ".models.json." ++ random ++ js_lit ".tmp"].

(** A failed [writeFile] may leave a part; it is not a document. *)
Definition writeModelsJsonAtomic (a : WriteAnswers) (path : jsstr) (data : tree) (fs : model_files) :
    model_files * result write_error unit :=
  let tmp := tmpName path (wa_random a) in
  if negb (wa_mkdir a) then (fs, Err MkdirFailed) else
  if negb (wa_write a) then (<[tmp := TNull]> fs, Err WriteFailed) else
  let fs := <[tmp := data]> fs in
  if wa_rename a then (<[path := data]> (delete tmp fs), Ok tt)
  else ((if wa_unlink a then delete tmp fs else fs), Err RenameFailed).

(** [ModelConfig.load]: the providers of the file, or its error. *)
Definition mergeAndWriteModelsJson (a : WriteAnswers) (loaded : result jsstr (list (jsstr * settings))) (path providerId : jsstr)
    (incoming : settings) (fs : model_files) : model_files * result (jsstr + write_error) unit :=
  match loaded with
  | Err e => (fs, Err (inl e))
  | Ok providers =>
      let providers := map_set providers providerId (mergeProviderIntoConfig (map_get providers providerId) incoming) in
      let data := TMap [(js_lit "providers", TMap ((λ p, (p.1, TMap p.2)) <$> providers))] in
      let '(fs, r) := writeModelsJsonAtomic a path data fs in
      (fs, match r with Ok _ => Ok tt | Err e => Err (inr e) end)
  end.

(** ** Onboarding *)

Inductive ModelOnboardingResult :=
| Applied (providerId modelId : jsstr)
| Skip (persist : bool)
| Failed.

Inductive PresetChoice := ChooseLocal (id : LocalPresetId) | ChooseHosted | ChooseSkip.

(** What the user answers; a dismissed prompt is [None]. *)
Record Answers := mkUser {
  ans_choice : option PresetChoice;
  ans_model : option jsstr;
  ans_baseUrl : option jsstr;
  ans_envVar : option jsstr;
}.

Section onboarding.
Context `{CaseMap} (parseUrl : jsstr → option Url) (fetch : network) (a : WriteAnswers)
  (loaded : result jsstr (list (jsstr * settings))) (modelsPath : jsstr).

Definition chosen_model (u : Answers) : option jsstr :=
  match ans_model u with Some s => if bool_decide (trim s = []) then None else Some (trim s) | None => None end.

Definition writePreset (providerId modelId : jsstr) (provider : settings) (fs : model_files) : model_files * ModelOnboardingResult :=
  match mergeAndWriteModelsJson a loaded modelsPath providerId provider fs with
  | (fs, Ok _) => (fs, Applied providerId modelId)
  | (fs, Err _) => (fs, Failed)
  end.

(** The probed models are what the selector offers. *)
Definition writeLocalPreset (presetId : LocalPresetId) (u : Answers) (fs : model_files) : model_files * ModelOnboardingResult :=
  let preset := LOCAL_MODEL_PRESETS presetId in
  match chosen_model u with
  | None => (fs, Skip false)
  | Some modelId => writePreset (lp_providerId preset) modelId (localPresetProvider preset modelId) fs
  end.

Definition writeHostedPreset (u : Answers) (fs : model_files) : model_files * ModelOnboardingResult :=
  match ans_baseUrl u with
  | None => (fs, Skip false)
  | Some baseRaw =>
      match validateHostedBaseUrl parseUrl baseRaw with
      | Err _ => (fs, Failed)
      | Ok url =>
          match ans_envVar u with
          | None => (fs, Skip false)
          | Some envRaw =>
              match normalizeHostedApiKeyRef envRaw with
              | Err _ => (fs, Failed)
              | Ok ref =>
                  match chosen_model u with
                  | None => (fs, Skip false)
                  | Some modelId => writePreset HOSTED_PROVIDER_ID modelId (hostedPresetProvider url ref modelId) fs
                  end
              end
          end
      end
  end.

Definition runModelPresetOnboarding (persistSkip : bool) (u : Answers) (fs : model_files) : model_files * ModelOnboardingResult :=
  match ans_choice u with
  | None => (fs, Skip false)
  | Some ChooseSkip => (fs, Skip persistSkip)
  | Some ChooseHosted => writeHostedPreset u fs
  | Some (ChooseLocal id) => writeLocalPreset id u fs
  end.
End onboarding.
