(* ===== verification/AgentModeSpec.v ===== *)
(** What the agent mode guarantees: tools run on the host only after the user
    accepted the disclosure, a project cannot accept for them; an API key is
    stored by reference; models.json is replaced whole and keeps the other
    providers and models. *)
From S2P Require Import Prelude JsValue JsMap Json Regex NodePath Settings SettingsSpec AgentMode.
Open Scope Z_scope.

(** ** The disclosure *)

Lemma ack_from_global g p trusted :
  getUnsandboxedDisclosureAcknowledged (fromStorage (mkFiles g p) trusted) = true →
  ∃ s, parseContent g = Ok s ∧ get s "unsandboxedDisclosureAcknowledged" = Some (TBool true).
Proof.
  unfold getUnsandboxedDisclosureAcknowledged, fromStorage. intros H.
  assert (globalSettings (fromStorage (mkFiles g p) trusted) = match parseContent g with Ok s => s | Err _ => [] end) as Hs.
  { unfold fromStorage, tryLoadFromStorage. rewrite (bool_decide_eq_false_2 (global = project)) by done. cbn [andb file_of f_global].
    destruct (parseContent g); by destruct (if (_ && _) then _ else _). }
  unfold fromStorage in Hs. rewrite Hs in H. destruct (parseContent g) as [s|e]; [|done]. exists s. split; [done|].
  destruct (get s _) as [[|[]| | | | |]|]; done.
Qed.

Lemma ack_set m : getUnsandboxedDisclosureAcknowledged (setUnsandboxedDisclosureAcknowledged m true) = true.
Proof.
  unfold getUnsandboxedDisclosureAcknowledged, setUnsandboxedDisclosureAcknowledged, setField, with_global, save, put, get.
  cbn [globalSettings]. rewrite assign_get. by rewrite bool_decide_eq_true_2.
Qed.

(** C23: Tools run unsandboxed only after disclosure.  If startup passes the gate
    with tools enabled, then the flag for this run was given, or the user was
    asked now, accepted, and that is recorded in the settings (in memory; the file is
    written later), or the user's own settings file
    says so; nothing in the project's settings can stand in for that. *)
Theorem disclosure_gate parsed interactive_ g p trusted choice m' :
  shouldSkipUnsandboxedDisclosure parsed = false → p_noTools parsed = false →
  disclosureGate parsed interactive_ (fromStorage (mkFiles g p) trusted) choice = inr m' →
  p_ackUnsandboxed parsed = true ∨
  (interactive_ = true ∧ choice = Some true ∧ getUnsandboxedDisclosureAcknowledged m' = true) ∨
  ∃ s, parseContent g = Ok s ∧ get s "unsandboxedDisclosureAcknowledged" = Some (TBool true).
Proof.
  intros Hskip Htools. unfold disclosureGate. rewrite Hskip, Htools. unfold decideUnsandboxedDisclosure. cbn [toolsEnabled negb].
  cbn [acknowledged ackThisRun interactive].
  destruct (getUnsandboxedDisclosureAcknowledged (fromStorage (mkFiles g p) trusted)) eqn:Ha.
  { intros _. right. right. by apply ack_from_global in Ha. }
  cbn [orb]. destruct (p_ackUnsandboxed parsed); [by left|]. destruct interactive_; [|done].
  unfold promptUnsandboxedDisclosure. destruct (bool_decide_reflect (choice = Some true)) as [->|]; [|done]. cbn [negb].
  intros [= <-]. right. left. split_and!; [done|done|]. apply ack_set.
Qed.

Lemma disclosure_gate_witness :
  let g := Document (TMap [(js_lit "theme", TText (js_lit "dark"))]) in
  let p := Document (TMap [(js_lit "unsandboxedDisclosureAcknowledged", TBool true)]) in
  let flags := mkParsed false false false false false in
  disclosureGate flags false (fromStorage (mkFiles g p) true) None = inl 1 ∧
  ∃ m', disclosureGate flags true (fromStorage (mkFiles g p) true) (Some true) = inr m' ∧
        (getUnsandboxedDisclosureAcknowledged m' = true ∨
         ∃ s, parseContent g = Ok s ∧ get s "unsandboxedDisclosureAcknowledged" = Some (TBool true)).
Proof.
  cbv zeta. split; [vm_compute; reflexivity|]. eexists. split; [reflexivity|].
  destruct (disclosure_gate (mkParsed false false false false false) true
    (Document (TMap [(js_lit "theme", TText (js_lit "dark"))]))
    (Document (TMap [(js_lit "unsandboxedDisclosureAcknowledged", TBool true)])) true (Some true) _ eq_refl eq_refl eq_refl)
    as [E|[(_ & _ & E)|E]]; [discriminate E|left; exact E|right; exact E].
Defined.

(** ** Keys by reference *)

(** The name of an environment variable. *)
Definition env_name (s : jsstr) : Prop :=
  match s with [] => False | c :: s => is_name_start c = true ∧ forallb is_name_char s = true end.

Lemma env_name_test s : test env_name_regex s = true ↔ env_name s.
Proof.
  rewrite test_spec. unfold env_name_regex. cbn [seq_of]. setoid_rewrite reach_Seq. setoid_rewrite reach_Bol.
  setoid_rewrite reach_Seq. setoid_rewrite reach_Class. setoid_rewrite reach_Seq. setoid_rewrite reach_star_class.
  setoid_rewrite reach_Eol. split.
  - intros (pre & post & s' & -> & s1 & (Hb & ->) & s2 & (c & t & Hc & Hl & ->) & s3 & (w & t' & Hw & Hl' & ->) & He & ->).
    cbn in Hb, Hl, Hl', He. apply bool_decide_eq_true in Hb as ->. subst. rewrite app_nil_r in *. by split.
  - destruct s as [|c s]; [done|]. intros [Hc Hs]. exists [], (c :: s). eexists. split; [done|].
    eexists. split; [by split|]. eexists. split; [by exists c, s|]. eexists. split; [by exists s, []; rewrite app_nil_r|]. by split.
Qed.

Lemma ref_shape `{CaseMap} input v :
  normalizeHostedApiKeyRef input = Ok v →
  ∃ name, v = js_lit "$" ++ name ∧ env_name name ∧ (trim input = name ∨ trim input = js_lit "$" ++ name).
Proof.
  unfold normalizeHostedApiKeyRef. destruct (bool_decide (trim input = [])); [done|]. destruct (_ || _); [done|].
  destruct (test env_name_regex _) eqn:E; [|done]. cbn [negb]. intros [= <-]. apply env_name_test in E.
  eexists. split; [done|]. split; [done|]. unfold startsWith.
  destruct (bool_decide_reflect (js_lit "$" `prefix_of` trim input)) as [[k Hk]|]; [|by left]. right. by rewrite Hk.
Qed.

(** ** The file *)

Lemma write_atomic a path data fs fs' r :
  tmpName path (wa_random a) ≠ path → writeModelsJsonAtomic a path data fs = (fs', r) →
  (∀ q, q ≠ path → q ≠ tmpName path (wa_random a) → fs' !! q = fs !! q) ∧
  match r with Ok _ => fs' !! path = Some data | Err _ => fs' !! path = fs !! path end.
Proof.
  intros Hne. unfold writeModelsJsonAtomic. set (tmp := tmpName _ _) in *.
  destruct (wa_mkdir a), (wa_write a), (wa_rename a), (wa_unlink a); cbn; intros [= <- <-]; split; try done;
    try (intros q H1 H2); by simplify_map_eq.
Qed.

Lemma fold_set_get {A} (m acc : list (jsstr * A)) k :
  NoDup m.*1 →
  map_get (foldl (λ acc kv, map_set acc kv.1 kv.2) acc m) k = match map_get m k with Some v => Some v | None => map_get acc k end.
Proof.
  induction m as [|[k' v] m IH] using rev_ind; intros Hnd; [done|]. rewrite fmap_app, NoDup_app in Hnd.
  destruct Hnd as (Hnd & Hk' & _). rewrite foldl_app. cbn [foldl fst snd]. rewrite map_get_set, IH by done.
  assert (∀ k, map_get (m ++ [(k', v)]) k = match map_get m k with Some w => Some w | None => if bool_decide (k' = k) then Some v else None end) as ->.
  { clear. intros k. induction m as [|[k1 v1] m IH]; [done|]. cbn. rewrite IH. by destruct (bool_decide (k1 = k)). }
  destruct (bool_decide_reflect (k' = k)) as [->|]; [|by destruct (map_get m k)].
  assert (map_get m k = None) as ->; [|done]. apply map_get_None. intros Hin. apply (Hk' k Hin). left.
Qed.

(** The merged provider has the incoming fields. *)
Lemma merge_field existing incoming name v :
  NoDup incoming.*1 → js_lit name ≠ js_lit "models" → get incoming name = Some v →
  get (mergeProviderIntoConfig existing incoming) name = Some v.
Proof.
  intros Hnd Hne Hv. unfold mergeProviderIntoConfig, get, put in *. rewrite assign_get, bool_decide_eq_false_2 by done.
  by rewrite fold_set_get, Hv.
Qed.

Definition provider_in (doc : tree) (id : jsstr) : option tree :=
  match field doc "providers" with Some (TMap ps) => map_get ps id | _ => None end.

Lemma map_get_fmap {A B} (f : A → B) (m : list (jsstr * A)) k : map_get ((λ p, (p.1, f p.2)) <$> m) k = f <$> map_get m k.
Proof. induction m as [|[k' v] m IH]; [done|]. cbn. by case_bool_decide. Qed.

(** A hosted API key is stored by reference only, and nothing else is touched.
    When the hosted preset is applied, models.json is replaced whole by a
    document whose new provider has as key a dollar sign and the name of an
    environment variable, as typed by the user; every other provider stays as it
    was; when it is not applied models.json is unchanged. *)
Theorem hosted_key_by_reference `{CaseMap} parseUrl a loaded path persistSkip u fs fs' r :
  ans_choice u = Some ChooseHosted → tmpName path (wa_random a) ≠ path →
  runModelPresetOnboarding parseUrl a loaded path persistSkip u fs = (fs', r) →
  (∀ q, q ≠ path → q ≠ tmpName path (wa_random a) → fs' !! q = fs !! q) ∧
  match r with
  | Applied providerId _ =>
      providerId = HOSTED_PROVIDER_ID ∧
      ∃ doc provider name providers typed,
        fs' !! path = Some doc ∧ provider_in doc HOSTED_PROVIDER_ID = Some (TMap provider) ∧
        get provider "apiKey" = Some (TText (js_lit "$" ++ name)) ∧ env_name name ∧
        ans_envVar u = Some typed ∧ (trim typed = name ∨ trim typed = js_lit "$" ++ name) ∧
        loaded = Ok providers ∧
        ∀ id, id ≠ HOSTED_PROVIDER_ID → provider_in doc id = TMap <$> map_get providers id
  | _ => fs' !! path = fs !! path
  end.
Proof.
  intros Hc Hne. unfold runModelPresetOnboarding. rewrite Hc. unfold writeHostedPreset.
  destruct (ans_baseUrl u) as [baseRaw|]; [|by intros [= <- <-]].
  destruct (validateHostedBaseUrl parseUrl baseRaw) as [url|]; [|by intros [= <- <-]].
  destruct (ans_envVar u) as [typed|]; [|by intros [= <- <-]].
  destruct (normalizeHostedApiKeyRef typed) as [ref|] eqn:Href; [|by intros [= <- <-]].
  destruct (chosen_model u) as [modelId|]; [|by intros [= <- <-]].
  unfold writePreset, mergeAndWriteModelsJson. destruct loaded as [providers|e]; [|by intros [= <- <-]].
  set (incoming := hostedPresetProvider url ref modelId). set (data := TMap _).
  destruct (writeModelsJsonAtomic a path data fs) as [fs1 r1] eqn:Hw.
  destruct (write_atomic _ _ _ _ _ _ Hne Hw) as [Hother Hpath].
  destruct r1 as [[]|e]; intros [= <- <-]; (split; [done|]); [|done]. split; [done|].
  destruct (ref_shape _ _ Href) as (name & -> & Hname & Htyped).
  set (merged_ := mergeProviderIntoConfig (map_get providers HOSTED_PROVIDER_ID) incoming) in *.
  assert (∀ id, provider_in data id = TMap <$> map_get (map_set providers HOSTED_PROVIDER_ID merged_) id) as Hdoc.
  { intros id. unfold data, provider_in. cbn. apply map_get_fmap. }
  exists data, merged_, name, providers, typed. split_and!; try done.
  - by rewrite Hdoc, map_get_set, bool_decide_eq_true_2.
  - apply merge_field; [|vm_compute; discriminate|done]. decide_now.
  - intros id Hid. by rewrite Hdoc, map_get_set, bool_decide_eq_false_2.
Qed.

Definition hosted_user : Answers :=
  mkUser (Some ChooseHosted) (Some (js_lit "gpt-4o-mini")) (Some (js_lit "https://api.example.com/v1")) (Some (js_lit " OPENAI_API_KEY ")).
Definition https_url (s : jsstr) : option Url :=
  if startsWith s (js_lit "https://") then Some (mkUrl (js_lit "https:") [] []) else None.
Definition all_ok : WriteAnswers := mkAnswers true true true true (js_lit "00").

Lemma hosted_key_witness :
  let run := @runModelPresetOnboarding ascii_case https_url all_ok (Ok []) (js_lit "/c/models.json") true hosted_user ∅ in
  match run.2 with
  | Applied id _ => id = HOSTED_PROVIDER_ID ∧ ∃ doc, run.1 !! js_lit "/c/models.json" = Some doc
  | _ => False
  end.
Proof.
  cbv zeta. destruct (@runModelPresetOnboarding ascii_case https_url all_ok (Ok []) (js_lit "/c/models.json") true hosted_user ∅)
    as [fs' r] eqn:E. cbn [fst snd].
  assert (r = Applied HOSTED_PROVIDER_ID (js_lit "gpt-4o-mini")) as Hr.
  { change r with (fs', r).2. rewrite <- E. vm_compute. reflexivity. }
  destruct (@hosted_key_by_reference ascii_case https_url all_ok (Ok []) (js_lit "/c/models.json") true hosted_user ∅ fs' r
    eq_refl ltac:(vm_compute; discriminate) E) as [_ H].
  rewrite Hr in H |- *. destruct H as (? & doc & _ & _ & _ & _ & Hdoc & _). split; [done|]. exists doc. exact Hdoc.
Defined.

(** ** Probing and merging *)

Lemma drop_while_idem p s : drop_while p (drop_while p s) = drop_while p s.
Proof. induction s as [|c s IH]; [done|]. cbn. destruct (p c) eqn:E; [done|]. cbn. by rewrite E. Qed.

(** Only the local endpoints of the list are ever contacted. *)
Lemma probe_local_only fetch baseUrl url :
  url ∈ (probeLocalModels fetch baseUrl).1 → ∃ b, b ∈ LOCAL_PROBE_BASE_URLS ∧ url = b ++ js_lit "/models".
Proof.
  unfold probeLocalModels, isAllowlistedLocalBaseUrl.
  assert (normalizeLocalBaseUrl (normalizeLocalBaseUrl baseUrl) = normalizeLocalBaseUrl baseUrl) as ->.
  { unfold normalizeLocalBaseUrl. by rewrite reverse_involutive, drop_while_idem. }
  destruct (bool_decide_reflect (normalizeLocalBaseUrl baseUrl ∈ LOCAL_PROBE_BASE_URLS)); cbn [negb fst]; [|by intros ?%elem_of_nil].
  intros ->%list_elem_of_singleton. eauto.
Qed.

Lemma by_id_NoDup ms acc : NoDup acc.*1 → NoDup (by_id ms acc).*1.
Proof.
  unfold by_id. revert acc. induction ms as [|m ms IH]; intros acc Hacc; [done|]. cbn [foldl]. by apply IH, map_set_NoDup.
Qed.

Lemma by_id_get ms acc id :
  map_get (by_id ms acc) id =
    match last (filter (λ m, model_id m = id) ms) with Some m => Some m | None => map_get acc id end.
Proof.
  unfold by_id. induction ms as [|m ms IH] using rev_ind; [done|]. rewrite foldl_app. cbn [foldl].
  rewrite map_get_set, IH, filter_app. destruct (bool_decide_reflect (model_id m = id)).
  - by rewrite filter_cons_True, filter_nil, last_snoc.
  - by rewrite filter_cons_False, filter_nil, app_nil_r.
Qed.

(** Merging a provider keeps every known model, once: for each id the merged
    list has the last incoming model with it, else the last existing one. *)
Theorem merge_models existing incoming id :
  let m := by_id (models_of incoming) (by_id (models_of (default [] existing)) []) in
  get (mergeProviderIntoConfig existing incoming) "models" = Some (TArray m.*2) ∧ NoDup m.*1 ∧
  map_get m id =
    match last (filter (λ t, model_id t = id) (models_of incoming)) with
    | Some t => Some t
    | None => last (filter (λ t, model_id t = id) (models_of (default [] existing)))
    end.
Proof.
  intros m. split_and!.
  - unfold mergeProviderIntoConfig, get, put. by rewrite assign_get, bool_decide_eq_true_2.
  - apply by_id_NoDup, by_id_NoDup. constructor.
  - unfold m. rewrite !by_id_get. cbn. repeat destruct (last _); done.
Qed.
