(* ===== verification/Sandbox.v ===== *)
(** The driver of the sandboxed engine: [coding-agent/src/core/patchcage-sandbox.ts].
    Inputs and target of a run, the engine's output stream, its environment and
    arguments, and the candidate that is shown for approval.  The file system and
    the hash are arguments; JSON, paths and patterns are those of [Json],
    [NodePath] and [Regex]. *)
From S2P Require Import Prelude JsValue Utf8 JsMap Json Regex NodePath.
Open Scope Z_scope.

Definition ENGINE_ENV : jsstr := js_lit "PATCHCAGE_ENGINE".
Definition ENGINE_BIN : jsstr := js_lit "patchcage-engine".
Definition MODEL_API_KEY_ENV : jsstr := js_lit "PATCHCAGE_MODEL_API_KEY".
Definition MODEL_HTTP_HEADERS_ENV : jsstr := js_lit "PATCHCAGE_MODEL_HTTP_HEADERS".
Definition EXPORTS_DIR : jsstr := join_paths [js_lit ".patchcage"; js_lit "exports"].

Definition newline : Z := 0x0a.

(** ** Values the engine sends *)

Notation jobj := (list (jsstr * tree)).

(** [value.name] of a JSON value; no name read here is inherited. *)
Definition prop (v : option tree) (name : string) : option tree :=
  match v with Some (TMap o) => map_get o (js_lit name) | _ => None end.

(** [a ?? b] *)
Definition coalesce (a b : option tree) : option tree :=
  match a with None | Some TNull => b | _ => a end.

Definition undefined_text : jsstr := js_lit "undefined".

Fixpoint all_some {A} (l : list (option A)) : option (list A) :=
  match l with
  | [] => Some []
  | None :: _ => None
  | Some x :: l => cons x <$> all_some l
  end.

(** [String(value)]; [None] is the [TypeError] of an object whose own [toString]
    is not a function, as no JSON value is. *)
Fixpoint js_String (t : tree) : option jsstr :=
  match t with
  | TNull => Some (js_lit "null")
  | TBool true => Some (js_lit "true")
  | TBool false => Some (js_lit "false")
  | TNum n => Some (num_text n)
  | TText s => Some s
  | TBytes bs => Some (join [0x2c] (decimal <$> bs))
  | TArray ts =>
      join [0x2c] <$> all_some ((λ t, match t with TNull => Some [] | _ => js_String t end) <$> ts)
  | TMap o => if map_has o (js_lit "toString") then None else Some (js_lit "[object Object]")
  end.

Definition js_string_of (v : option tree) : option jsstr :=
  match v with None => Some undefined_text | Some t => js_String t end.

Definition truthy (v : option tree) : bool :=
  match v with
  | None | Some TNull | Some (TBool false) | Some (TText []) => false
  | Some (TNum (NInt 0)) | Some (TNum NNegZero) | Some (TNum NNaN) => false
  | _ => true
  end.

(** ** The candidate shown for approval *)

(** A file as [readCandidateForApproval] meets it: what [fstat] says, and what is
    there when it is read. *)
Record CandidateFile := mkCandidate { cf_isFile : bool; cf_size : Z; cf_bytes : list Z }.

Definition MAX_CANDIDATE : Z := 1000000.

Inductive candidate_error := NoDigest | OpenFailed | NotReviewable | CandidateChanged.

Section candidate.
Context (sha256_hex : list Z → jsstr).

(** The digest of an event is any JSON value; only a string can equal a hash. *)
Definition readCandidateForApproval (open_ : jsstr → option CandidateFile) (runDir : jsstr) (digest : option tree) :
    result candidate_error jsstr :=
  if negb (truthy digest) then Err NoDigest else
  match open_ (join_paths [runDir; js_lit "candidate.patch"]) with
  | None => Err OpenFailed
  | Some f =>
      if negb (cf_isFile f) || (MAX_CANDIDATE <? cf_size f) then Err NotReviewable else
      let bytes := take (Z.to_nat (cf_size f + 1)) (cf_bytes f) in
      match digest with
      | Some (TText d) =>
          if negb (bool_decide (sha256_hex bytes = d)) then Err CandidateChanged else Ok (utf8_lossy bytes)
      | _ => Err CandidateChanged
      end
  end.
End candidate.

(** ** Inputs of a run *)

Definition arrow : Z := 0x2192.
Definition em_dash : Z := 0x2014.
Definition SANDBOX_USAGE : jsstr :=
  js_lit "Usage: /sandbox [finding.yml]. The manifest is the sibling file without `.finding` (X.finding.yml " ++ [arrow] ++
  js_lit " X.yml). Without an argument, exactly one manifests/*.finding.yml must exist under the repo root.".

Definition ENGINE_MISSING : jsstr :=
  ENGINE_BIN ++ js_lit " not found. Install the PatchCage engine (pip install -e . in the PatchCage repo) or set " ++
  ENGINE_ENV ++ js_lit " to the executable.".

Definition DOCKER_DOWN_HINT : jsstr :=
  js_lit "Docker is required for /sandbox. Start the daemon and retry; the unsandboxed agent is unaffected.".

(** [ya?ml|json] *)
Definition ext_regex : regex := Alt (seq_of [lit "y"; opt (lit "a"); lit "ml"]) (lit "json").

(** The stem (greedy), [.finding] and the extension, on the whole name. *)
Definition sibling_regex : regex :=
  seq_of [Bol; Group 1 (Star dot); lit ".finding"; Group 2 (Seq (lit ".") ext_regex); Eol].

Definition siblingManifest (finding : jsstr) : option jsstr :=
  match exec sibling_regex (basename finding) with
  | None => None
  | Some cs => Some (join_paths [dirname finding; default undefined_text (group 1 cs) ++ default undefined_text (group 2 cs)])
  end.

(** [/\.finding\.(ya?ml|json)$/] *)
Definition finding_name_regex : regex := seq_of [lit ".finding."; Group 1 ext_regex; Eol].

(** What the command reads of the file system, at one time. *)
Record SandboxIO := mkIO {
  io_readdir : jsstr → list jsstr;                (* [safeReaddir]: [] when it fails *)
  io_exists : jsstr → bool;
  io_readFile : jsstr → option jsstr;
}.

(** The only finding under [manifests/]. *)
Definition autoPickFinding (repoRoot : jsstr) (readdir : jsstr → list jsstr) : result jsstr jsstr :=
  let dir := join_paths [repoRoot; js_lit "manifests"] in
  let none_or_many (which : string) :=
    js_lit which ++ js_lit " manifests/*.finding.yml under " ++ repoRoot ++ js_lit ". " ++ SANDBOX_USAGE in
  match filter (λ name, test finding_name_regex name = true) (readdir dir) with
  | [name] => Ok (join_paths [dir; name])
  | [] => Err (none_or_many "No")
  | _ => Err (none_or_many "Multiple")
  end.

Definition resolveSandboxInputs (cwd repoRoot : jsstr) (findingArg : option jsstr) (readdir : jsstr → list jsstr) :
    result jsstr (jsstr * jsstr) :=
  let* finding :=
    match findingArg with
    | Some arg =>
        if bool_decide (trim arg = []) then autoPickFinding repoRoot readdir
        else Ok (if isAbsolute arg then arg else resolve cwd [repoRoot; trim arg])
    | None => autoPickFinding repoRoot readdir
    end in
  match siblingManifest finding with
  | None => Err (js_lit "Finding must be named X.finding.{yml,yaml,json}: " ++ finding)
  | Some manifest => Ok (finding, manifest)
  end.

(** ** The target of a finding *)

(** [contents.split(/\r?\n/)] *)
Definition drop_cr (line : jsstr) : jsstr :=
  if bool_decide (last line = Some 0x0d) then removelast line else line.
Fixpoint drop_crs (lines : list jsstr) : list jsstr :=
  match lines with
  | [] => []
  | [line] => [line]
  | line :: lines => drop_cr line :: drop_crs lines
  end.
Definition split_crlf (s : jsstr) : list jsstr := drop_crs (split_on newline s).

Definition is_quote (u : Z) : bool := (u =? 0x22) || (u =? 0x27).

(** The pattern of a [file_path:] line: a value in quotes of either kind, or a word,
    and a comment. *)
Definition file_path_regex : regex :=
  seq_of [Bol; Star space; lit "file_path:"; Star space;
    Alt (seq_of [Class_ is_quote; Group 1 (plus (Class_ (λ u, negb (is_quote u)))); Class_ is_quote]) (Group 2 (plus non_space));
    Star space; opt (Seq (lit "#") (Star dot)); Eol].

Definition linePath (line : jsstr) : option jsstr :=
  match exec file_path_regex line with
  | None => None
  | Some cs =>
      let path := trim (default [] (match group 1 cs with Some w => Some w | None => group 2 cs end)) in
      if bool_decide (path = []) || bool_decide (path = js_lit "|") || bool_decide (path = js_lit ">") then None
      else Some path
  end.

Fixpoint firstPath (lines : list jsstr) : option jsstr :=
  match lines with
  | [] => None
  | line :: lines => match linePath line with Some path => Some path | None => firstPath lines end
  end.

Definition findingFilePath (contents : jsstr) : option jsstr :=
  let trimmed := trim contents in
  if startsWith trimmed (js_lit "{") then
    match JSON_parse trimmed with
    | None => None
    | Some parsed =>
        match prop (Some parsed) "file_path" with
        | Some (TText s) => let path := trim s in if bool_decide (path = []) then None else Some path
        | _ => None
        end
    end
  else firstPath (split_crlf contents).

Definition pathUnderRoot (cwd root rel : jsstr) : option jsstr :=
  if bool_decide (rel = []) || isAbsolute rel || bool_decide (0 ∈ rel) then None else
  let rootAbs := resolve cwd [root] in
  let abs := resolve cwd [rootAbs; rel] in
  let prefix := if endsWith rootAbs [slash] then rootAbs else rootAbs ++ [slash] in
  if bool_decide (abs = rootAbs) || startsWith abs prefix then Some abs else None.

Definition assertSandboxTarget (cwd repoRoot finding manifest : jsstr) (io : SandboxIO) : result jsstr unit :=
  if negb (io_exists io finding) then Err (js_lit "Finding not found: " ++ finding) else
  if negb (io_exists io manifest) then Err (js_lit "Manifest not found: " ++ manifest) else
  match io_readFile io finding with
  | None => Err (js_lit "Finding not found: " ++ finding)
  | Some contents =>
      match findingFilePath contents with
      | None => Err (js_lit "Finding has no file_path: " ++ finding)
      | Some rel =>
          match pathUnderRoot cwd repoRoot rel with
          | None => Err (js_lit "Finding file_path " ++ rel ++ js_lit " is outside " ++ repoRoot)
          | Some abs =>
              if negb (io_exists io abs) then
                Err (js_lit "Finding file_path " ++ rel ++ js_lit " is not in " ++ repoRoot ++
                     js_lit ". /sandbox snapshots the current git root. For the Flask demo: python scripts/create_demo_repo.py <dir> && cd <dir>, then /sandbox.")
              else Ok tt
          end
      end
  end.

Definition resolveEngineBinary (env : list (jsstr * jsstr)) : jsstr :=
  let override := trim (default [] (map_get env ENGINE_ENV)) in
  if bool_decide (override = []) then ENGINE_BIN else override.

(** ** The engine's output *)

(** An event is the object of one line. *)
Notation EngineEvent := jobj.

Definition event_type (e : EngineEvent) : option tree := prop (Some (TMap e)) "event_type".
Definition ev (e : EngineEvent) (name : string) : option tree := prop (Some (TMap e)) name.

Definition parseEngineLine (line : jsstr) : option EngineEvent :=
  let trimmed := trim line in
  if negb (startsWith trimmed (js_lit "{")) then None else
  match JSON_parse trimmed with
  | Some (TMap o) => match event_type o with Some (TText _) => Some o | _ => None end
  | _ => None
  end.

Definition is_event (e : EngineEvent) (type : string) : bool :=
  match event_type e with Some (TText s) => bool_decide (s = js_lit type) | _ => false end.

(** The outer [option] is the [TypeError] of a [String] conversion. *)
Definition narrateEvent (e : EngineEvent) : option (option jsstr) :=
  let payload := ev e "payload" in
  if is_event e "phase" then
    phase ← js_string_of (coalesce (prop payload "phase") (coalesce (ev e "phase") (Some (TText (js_lit "?")))));
    Some (Some (js_lit "sandbox: " ++ phase))
  else if is_event e "check_result" then
    name ← js_string_of (prop payload "name"); status ← js_string_of (prop payload "status");
    summary ← js_string_of (coalesce (prop payload "summary") (Some (TText [])));
    Some (Some (trimEnd (js_lit "check " ++ name ++ js_lit ": " ++ status ++ js_lit " " ++ [em_dash] ++ js_lit " " ++ summary)))
  else if is_event e "run_finished" then
    detail ← js_string_of (coalesce (prop payload "detail") (Some (TText [])));
    Some (Some (trimEnd (js_lit "sandbox finished: " ++ detail)))
  else if is_event e "result" then
    status ← js_string_of (ev e "status");
    detail ← (if truthy (ev e "detail")
              then s ← js_string_of (ev e "detail"); Some (js_lit " " ++ [em_dash] ++ js_lit " " ++ s) else Some []);
    Some (Some (js_lit "result: " ++ status ++ detail))
  else Some None.

(** ** A run of the engine *)

Record EngineRunOutcome := mkOutcome {
  o_code : option Z;
  o_signal : option jsstr;
  o_result : option EngineEvent;
  o_stderr : jsstr;
}.

(** The variables of [runEngine], what it did to the child, and its promise. *)
Record EngineRun := mkRun {
  er_buffer : jsstr;
  er_stderr : jsstr;
  er_result : option EngineEvent;
  er_events : list EngineEvent;         (* calls of [onEvent] *)
  er_listening : bool;                  (* the abort listener is registered *)
  er_kills : nat;                       (* [child.kill("SIGINT")] *)
  er_outcome : option EngineRunOutcome; (* the promise, once resolved *)
}.

(** What happens to a spawned child. *)
Inductive child_event :=
| StdoutData (chunk : jsstr)
| StderrData (chunk : jsstr)
| AbortSignal
| ChildError (enoent : bool) (message : jsstr)
| ChildClose (code : option Z) (signal : option jsstr).

(** The body of [feed]'s loop for one line. *)
Definition take_line (r : EngineRun) (line : jsstr) : EngineRun :=
  match parseEngineLine line with
  | None => r
  | Some event =>
      mkRun (er_buffer r) (er_stderr r) (if is_event event "result" then Some event else er_result r)
        (er_events r ++ [event]) (er_listening r) (er_kills r) (er_outcome r)
  end.

Definition set_buffer (b : jsstr) (r : EngineRun) : EngineRun :=
  mkRun b (er_stderr r) (er_result r) (er_events r) (er_listening r) (er_kills r) (er_outcome r).

(** The index of the first newline splits the buffer. *)
Fixpoint cut_line (s : jsstr) : option (jsstr * jsstr) :=
  match s with
  | [] => None
  | c :: s => if c =? newline then Some ([], s) else
              match cut_line s with Some (line, rest) => Some (c :: line, rest) | None => None end
  end.

Fixpoint feedLoop (fuel : nat) (r : EngineRun) : EngineRun :=
  match fuel with
  | O => r
  | S fuel =>
      match cut_line (er_buffer r) with
      | None => r
      | Some (line, rest) => feedLoop fuel (take_line (set_buffer rest r) line)
      end
  end.

(** Each turn removes a newline from the buffer. *)
Definition feed (r : EngineRun) (chunk : jsstr) : EngineRun :=
  let r := set_buffer (er_buffer r ++ chunk) r in feedLoop (S (length (er_buffer r))) r.

Definition add_stderr (s : jsstr) (r : EngineRun) : EngineRun :=
  mkRun (er_buffer r) (er_stderr r ++ s) (er_result r) (er_events r) (er_listening r) (er_kills r) (er_outcome r).
Definition unlisten (r : EngineRun) : EngineRun :=
  mkRun (er_buffer r) (er_stderr r) (er_result r) (er_events r) false (er_kills r) (er_outcome r).
Definition kill (r : EngineRun) : EngineRun :=
  mkRun (er_buffer r) (er_stderr r) (er_result r) (er_events r) (er_listening r) (S (er_kills r)) (er_outcome r).
(** Only the first resolution counts. *)
Definition resolvePromise (o : EngineRunOutcome) (r : EngineRun) : EngineRun :=
  mkRun (er_buffer r) (er_stderr r) (er_result r) (er_events r) (er_listening r) (er_kills r)
    (match er_outcome r with None => Some o | done => done end).

(** Spawning: the listener is registered once, and called when already aborted. *)
Definition startEngine (aborted : bool) : EngineRun :=
  let r := mkRun [] [] None [] (negb aborted) 0 None in if aborted then kill r else r.

Definition onChild (r : EngineRun) (e : child_event) : EngineRun :=
  match e with
  | StdoutData chunk => feed r chunk
  | StderrData chunk => add_stderr chunk r
  | AbortSignal => if er_listening r then kill (unlisten r) else r
  | ChildError enoent message =>
      let r := add_stderr (if enoent then ENGINE_MISSING else message) (unlisten r) in
      resolvePromise (mkOutcome None None None (er_stderr r)) r
  | ChildClose code signal =>
      let r := unlisten r in
      let r := if bool_decide (er_buffer r = []) then r else feed r [newline] in
      resolvePromise (mkOutcome code signal (er_result r) (er_stderr r)) r
  end.

Definition runEngine (aborted : bool) (events : list child_event) : EngineRun :=
  foldl onChild (startEngine aborted) events.

(** ** Arguments and environment *)

Record RunInput := mkRunInput {
  ri_repo : jsstr; ri_manifest : jsstr; ri_finding : jsstr; ri_runDir : jsstr; ri_modelEndpoint : jsstr; ri_modelId : jsstr;
}.

Definition buildRunArgs (i : RunInput) : list jsstr :=
  [js_lit "run"; js_lit "--repo"; ri_repo i; js_lit "--manifest"; ri_manifest i; js_lit "--finding"; ri_finding i;
   js_lit "--run-dir"; ri_runDir i; js_lit "--model-endpoint"; ri_modelEndpoint i; js_lit "--model-id"; ri_modelId i].

Definition buildExportArgs (runDir outDir : jsstr) (digest : option jsstr) : list jsstr :=
  [js_lit "export"; js_lit "--run"; runDir; js_lit "--out"; outDir] ++
  match digest with
  | Some d => if bool_decide (d = []) then [] else [js_lit "--expected-sha256"; d]
  | None => []
  end.

(** [/API[_-]?KEY/] and [/(^|_)(TOKEN|SECRET|PASSWORD|PASSPHRASE)$/] *)
Definition api_key_regex : regex := seq_of [lit "API"; opt (Class_ (one_of "_-")); lit "KEY"].
Definition secret_regex : regex :=
  seq_of [Group 1 (Alt Bol (lit "_")); Group 2 (alts [lit "TOKEN"; lit "SECRET"; lit "PASSWORD"; lit "PASSPHRASE"]); Eol].

Section env.
Context `{CaseMap}.

Definition isCredentialEnvKey (key : jsstr) : bool :=
  let upper := toUpperCase key in
  bool_decide (upper = MODEL_API_KEY_ENV) || bool_decide (upper = MODEL_HTTP_HEADERS_ENV) ||
  bool_decide (upper = js_lit "AWS_SECRET_ACCESS_KEY") || bool_decide (upper = js_lit "AWS_SESSION_TOKEN") ||
  test api_key_regex upper || test secret_regex upper || includes upper (js_lit "_SECRET_").

(** [env[key] = value] on an object: a string assigned to [__proto__] is ignored. *)
Definition env_set (env : list (jsstr * jsstr)) (key value : jsstr) : list (jsstr * jsstr) :=
  if bool_decide (key = js_lit "__proto__") then env else map_set env key value.

Definition inherit (base : list (jsstr * option jsstr)) : list (jsstr * jsstr) :=
  foldl (λ env kv, match kv.2 with
                   | None => env
                   | Some value => if isCredentialEnvKey kv.1 then env else env_set env kv.1 value
                   end) [] base.

Definition engineEnv (base : list (jsstr * option jsstr)) (apiKey : option jsstr)
    (extraHeaders : option (list (jsstr * jsstr))) : list (jsstr * jsstr) :=
  let env := inherit base in
  let env := match apiKey with
             | Some k => if bool_decide (k = []) then env else env_set env MODEL_API_KEY_ENV k
             | None => env
             end in
  match extraHeaders with
  | Some hs => if bool_decide (hs = []) then env
               else env_set env MODEL_HTTP_HEADERS_ENV (JSON_stringify (TMap ((λ h, (h.1, TText h.2)) <$> hs)))
  | None => env
  end.
End env.

(** [/docker (daemon unavailable|error)/i] *)
Definition docker_regex : regex :=
  Seq (lit_i "docker ") (Group 1 (Alt (lit_i "daemon unavailable") (lit_i "error"))).
Definition isDockerDown (stderr : jsstr) : bool := test docker_regex stderr.

Definition slice_last {A} (n : nat) (l : list A) : list A := drop (length l - n) l.

(** [None] is the [TypeError] of converting the result's status. *)
Definition describeFailure (o : EngineRunOutcome) : option jsstr :=
  let tail := join_on [newline] (slice_last 3 (filter (λ l, l ≠ []) (split_on newline (trim (o_stderr o))))) in
  head ← match o_result o with
         | Some e => s ← js_string_of (ev e "status"); Some (js_lit "sandbox run ended: " ++ s)
         | None => Some (ENGINE_BIN ++ js_lit " exited " ++
                     match o_code o with
                     | Some c => num_text (NInt c)
                     | None => default (js_lit "abnormally") (o_signal o)
                     end)
         end;
  let hint := if isDockerDown (o_stderr o) then [newline] ++ DOCKER_DOWN_HINT else [] in
  Some (if bool_decide (tail = []) then head ++ hint else head ++ [newline] ++ tail ++ hint).

(** ** On concrete inputs *)

Example sibling_ex :
  siblingManifest (js_lit "/m/x.finding.yaml") = Some (js_lit "/m/x.yaml") ∧ siblingManifest (js_lit "/m/x.yml") = None ∧
  resolveSandboxInputs (js_lit "/") (js_lit "/repo") None (λ _, [js_lit "a.yml"; js_lit "a.finding.yml"; js_lit "README.md"]) =
    Ok (js_lit "/repo/manifests/a.finding.yml", js_lit "/repo/manifests/a.yml").
Proof. vm_compute. done. Qed.

Example finding_ex :
  findingFilePath (js_lit "file_path: 'src/app.py'  # comment") = Some (js_lit "src/app.py") ∧
  findingFilePath (js_lit "  file_path: src/app.py") = Some (js_lit "src/app.py") ∧
  findingFilePath (js_lit "file_path: |") = None ∧ findingFilePath (js_lit "{}") = None ∧
  pathUnderRoot (js_lit "/") (js_lit "/repo") (js_lit "src/app.py") = Some (js_lit "/repo/src/app.py") ∧
  pathUnderRoot (js_lit "/") (js_lit "/repo") (js_lit "../etc/passwd") = None ∧
  pathUnderRoot (js_lit "/") (js_lit "/repo") (js_lit "../repository/x") = None.
Proof. vm_compute. done. Qed.

Example credential_ex :
  let c := @isCredentialEnvKey ascii_case in
  c (js_lit "OPENAI_API_KEY") = true ∧ c (js_lit "gh_token") = true ∧ c (js_lit "TOKEN") = true ∧ c (js_lit "PATH") = false ∧
  c (js_lit "MY_SECRET_FILE") = true ∧ c (js_lit "TOKENS") = false ∧ c (js_lit "ApiKey2") = true.
Proof. vm_compute. done. Qed.
