(* ===== verification/SandboxSpec.v ===== *)
(** What the sandbox driver guarantees: targets stay under the repository root,
    the child's environment carries no inherited credential, the engine's output
    is read line by line whatever its chunks, every run settles once, and what is
    shown for approval is what was verified. *)
From S2P Require Import Prelude JsValue Utf8 JsMap Json Regex NodePath Sandbox.
Open Scope Z_scope.

(** ** Targets *)

Lemma gather_absolute cwd rargs acc : isAbsolute cwd = true → (gather cwd rargs acc).2 = true.
Proof.
  intros Hc. revert acc. induction rargs as [|p ps IH]; intros acc; [done|]. cbn [gather].
  destruct (bool_decide (p = [])); [apply IH|]. destruct (isAbsolute p); [done|apply IH].
Qed.

Lemma resolve_absolute cwd args : isAbsolute cwd = true → ∃ p, resolve cwd args = abs_path (segs_of p).
Proof.
  intros Hc. unfold resolve. pose proof (gather_absolute cwd (reverse args) [] Hc) as Hg.
  destruct (gather cwd (reverse args) []) as [p abs]. cbn in Hg. subst abs. by exists p.
Qed.

Lemma pathUnderRoot_eq cwd root rel :
  isAbsolute cwd = true →
  let R := segs_of (resolve cwd [root]) in
  let S := segs_of (resolve cwd [resolve cwd [root]; rel]) in
  pathUnderRoot cwd root rel =
    if bool_decide (rel = []) || isAbsolute rel || bool_decide (0 ∈ rel) then None
    else if bool_decide (R `prefix_of` S) then Some (abs_path S) else None.
Proof.
  intros Hc R S. unfold pathUnderRoot. destruct (_ || _ || _); [done|].
  destruct (resolve_absolute cwd [root] Hc) as [p Hp].
  destruct (resolve_absolute cwd [resolve cwd [root]; rel] Hc) as [q Hq].
  assert (R = segs_of p) as HR by (unfold R; rewrite Hp; apply segs_of_abs_path, segs_of_clean).
  assert (S = segs_of q) as HS by (unfold S; rewrite Hq; apply segs_of_abs_path, segs_of_clean).
  rewrite Hq, Hp, <- HR, <- HS. fold (dir_prefix (abs_path R)).
  assert (Forall clean R ∧ Forall clean S) as [HcR HcS] by (rewrite HR, HS; split; apply segs_of_clean).
  pose proof (under_iff R S HcR HcS) as Hu. unfold startsWith.
  destruct (bool_decide_reflect (R `prefix_of` S)) as [Hpre|Hpre].
  - apply Hu in Hpre as [E|E]; [by rewrite bool_decide_eq_true_2|]. rewrite (bool_decide_eq_true_2 (_ `prefix_of` _)) by done.
    by rewrite orb_true_r.
  - rewrite !bool_decide_eq_false_2; [done|tauto|tauto].
Qed.

(** C12: The target of a finding is confined to the repository.  [pathUnderRoot] refuses
    exactly an empty path, an absolute one, one with a NUL, and one that resolves
    outside the root; a path it accepts it resolves to the root's path extended by
    plain segments (no empty one, no dot, no dot-dot). *)
Theorem path_confined cwd root rel :
  isAbsolute cwd = true →
  let R := segs_of (resolve cwd [root]) in
  (pathUnderRoot cwd root rel = None ↔
     rel = [] ∨ isAbsolute rel = true ∨ 0 ∈ rel ∨ ¬ R `prefix_of` segs_of (resolve cwd [resolve cwd [root]; rel])) ∧
  ∀ abs, pathUnderRoot cwd root rel = Some abs →
    abs = resolve cwd [resolve cwd [root]; rel] ∧ ∃ below, abs = abs_path (R ++ below) ∧ Forall clean (R ++ below).
Proof.
  intros Hc R. rewrite pathUnderRoot_eq by done. fold R.
  destruct (bool_decide_reflect (rel = [])); [split; [naive_solver|done]|]. destruct (isAbsolute rel) eqn:Ha; [split; [naive_solver|done]|].
  destruct (bool_decide_reflect (0 ∈ rel)); [split; [naive_solver|done]|]. cbn [orb].
  destruct (bool_decide_reflect (R `prefix_of` segs_of (resolve cwd [resolve cwd [root]; rel]))) as [[below Hb]|]; [|split; [naive_solver|done]].
  split; [split; [done|]; intros [?|[?|[?|Hn]]]; [done..|]; destruct Hn; by exists below|].
  intros abs [= <-]. split.
  - destruct (resolve_absolute cwd [resolve cwd [root]; rel] Hc) as [q Hq]. rewrite Hq. by rewrite segs_of_abs_path by apply segs_of_clean.
  - rewrite Hb. exists below. split; [done|]. rewrite <- Hb. apply segs_of_clean.
Qed.

Lemma path_confined_witness :
  let R := segs_of (resolve (js_lit "/") [js_lit "/repo"]) in
  (∃ below, js_lit "/repo/src/app.py" = abs_path (R ++ below) ∧ Forall clean (R ++ below)) ∧
  pathUnderRoot (js_lit "/") (js_lit "/repo") (js_lit "/etc/passwd") = None.
Proof.
  cbv zeta. split.
  - refine (proj2 (proj2 (path_confined (js_lit "/") (js_lit "/repo") (js_lit "x/../src/./app.py") eq_refl) _ _)). reflexivity.
  - apply (proj1 (path_confined (js_lit "/") (js_lit "/repo") (js_lit "/etc/passwd") eq_refl)). right. left. reflexivity.
Defined.

(** ** The child's environment *)

Section env.
Context `{CaseMap}.

Lemma credential_api_key : isCredentialEnvKey MODEL_API_KEY_ENV = true.
Proof. unfold isCredentialEnvKey. rewrite upper_ascii by done. by vm_compute. Qed.

Lemma credential_headers : isCredentialEnvKey MODEL_HTTP_HEADERS_ENV = true.
Proof. unfold isCredentialEnvKey. rewrite upper_ascii by done. by vm_compute. Qed.

Lemma env_set_get env k v k' :
  k ≠ js_lit "__proto__" → map_get (env_set env k v) k' = if bool_decide (k = k') then Some v else map_get env k'.
Proof. intros Hk. unfold env_set. rewrite bool_decide_eq_false_2 by done. apply map_get_set. Qed.

Lemma inherit_get base k v :
  NoDup base.*1 →
  map_get (inherit base) k = Some v ↔ (k, Some v) ∈ base ∧ isCredentialEnvKey k = false ∧ k ≠ js_lit "__proto__".
Proof.
  unfold inherit. revert v. induction base as [|[k' v'] base IH] using rev_ind; intros v Hnd.
  { split; [done|]. intros [Hin _]. by apply elem_of_nil in Hin. }
  rewrite fmap_app, NoDup_app in Hnd. destruct Hnd as (Hnd & Hk' & _).
  assert (∀ w, (k', w) ∉ base) as Hfresh.
  { intros w Hin. apply (Hk' k'); [|left]. by apply (list_elem_of_fmap_2 fst _ (k', w)). }
  rewrite foldl_app. cbn [foldl fst snd]. rewrite elem_of_app, list_elem_of_singleton.
  set (env := foldl _ [] base) in *. pose proof (λ v, IH v Hnd) as IH'. clear IH.
  destruct v' as [v'|]; [|rewrite IH'; naive_solver].
  destruct (isCredentialEnvKey k') eqn:Hc; [rewrite IH'; naive_solver congruence|].
  destruct (decide (k' = js_lit "__proto__")) as [->|Hp].
  { unfold env_set. rewrite bool_decide_eq_true_2 by done. rewrite IH'. naive_solver. }
  rewrite env_set_get by done. destruct (bool_decide_reflect (k' = k)) as [<-|Hne]; [naive_solver|].
  rewrite IH'. naive_solver.
Qed.

(** C13: No credential of the parent reaches the engine.  A variable of the child's
    environment is the model key handed over for this run, the extra headers, or
    an inherited variable that is not a credential; and every other inherited
    variable is passed on unchanged. *)
Theorem engineEnv_scrubbed base apiKey headers k v :
  NoDup base.*1 →
  map_get (engineEnv base apiKey headers) k = Some v ↔
    (k = MODEL_API_KEY_ENV ∧ apiKey = Some v ∧ v ≠ []) ∨
    (∃ hs, k = MODEL_HTTP_HEADERS_ENV ∧ headers = Some hs ∧ hs ≠ [] ∧
           v = JSON_stringify (TMap ((λ h, (h.1, TText h.2)) <$> hs))) ∨
    ((k, Some v) ∈ base ∧ isCredentialEnvKey k = false ∧ k ≠ js_lit "__proto__").
Proof.
  intros Hnd. pose proof (inherit_get base k v Hnd) as Hi. unfold engineEnv.
  set (e1 := match apiKey with Some key => _ | None => _ end).
  assert (map_get e1 k = Some v ↔ (k = MODEL_API_KEY_ENV ∧ apiKey = Some v ∧ v ≠ []) ∨
    ((k, Some v) ∈ base ∧ isCredentialEnvKey k = false ∧ k ≠ js_lit "__proto__")) as He1.
  { unfold e1. destruct apiKey as [key|]; [|rewrite Hi; naive_solver].
    destruct (bool_decide_reflect (key = [])) as [->|Hkey]; [rewrite Hi; naive_solver|].
    rewrite env_set_get by done. destruct (bool_decide_reflect (MODEL_API_KEY_ENV = k)) as [<-|Hk].
    - split; [intros [= <-]; by left|]. intros [(_ & ? & _)|(_ & Hc & _)]; [congruence|]. by rewrite credential_api_key in Hc.
    - rewrite Hi. naive_solver. }
  destruct headers as [hs|]; [|rewrite He1; naive_solver].
  destruct (bool_decide_reflect (hs = [])) as [->|Hhs]; [rewrite He1; naive_solver|].
  rewrite env_set_get by done. destruct (bool_decide_reflect (MODEL_HTTP_HEADERS_ENV = k)) as [<-|Hk].
  - split; [intros [= <-]; right; left; eauto|].
    intros [([=] & _)|[(hs' & _ & [= <-] & _ & ->)|(_ & Hc & _)]]; [done|]. by rewrite credential_headers in Hc.
  - rewrite He1. naive_solver.
Qed.
End env.

Lemma engineEnv_scrubbed_witness :
  let env := @engineEnv ascii_case [(js_lit "HOME", Some (js_lit "/h")); (js_lit "GH_TOKEN", Some (js_lit "leak"))]
               (Some (js_lit "sk-x")) None in
  map_get env (js_lit "HOME") = Some (js_lit "/h") ∧ map_get env (js_lit "GH_TOKEN") ≠ Some (js_lit "leak").
Proof.
  cbv zeta. split.
  - apply (@engineEnv_scrubbed ascii_case); [decide_now|]. right. right. split; [left|]. by vm_compute.
  - intros E. apply (@engineEnv_scrubbed ascii_case) in E; [|decide_now].
    destruct E as [([=] & _)|[(hs & [=] & _)|(_ & Hc & _)]]. by vm_compute in Hc.
Defined.

(** ** The engine's output *)

#[local] Arguments feed _ _ : simpl never.
#[local] Arguments take_line _ _ : simpl never.
#[local] Arguments parseEngineLine _ : simpl never.

Lemma cut_line_spec s :
  match cut_line s with
  | None => split_on newline s = [s]
  | Some (line, rest) => split_on newline s = line :: split_on newline rest ∧ (length rest < length s)%nat
  end.
Proof.
  induction s as [|c s IH]; [done|]. cbn. destruct (Z.eqb_spec c newline); [cbn; split; [done|lia]|].
  destruct (cut_line s) as [[line rest]|].
  - destruct IH as [-> Hl]. split; [done|lia].
  - by rewrite IH.
Qed.

Lemma take_line_buffer b r l : take_line (set_buffer b r) l = set_buffer b (take_line r l).
Proof. unfold take_line. by destruct (parseEngineLine l). Qed.

Lemma set_buffer_twice b b' r : set_buffer b (set_buffer b' r) = set_buffer b r.
Proof. done. Qed.

Lemma set_buffer_same r : set_buffer (er_buffer r) r = r.
Proof. by destruct r. Qed.

Lemma take_lines_buffer b ls r : foldl take_line (set_buffer b r) ls = set_buffer b (foldl take_line r ls).
Proof. revert r. induction ls as [|l ls IH]; intros r; [done|]. cbn [foldl]. by rewrite take_line_buffer, IH. Qed.

(** The loop handles every complete line and keeps the rest. *)
Lemma feedLoop_spec fuel r ls rest :
  (length (er_buffer r) < fuel)%nat → split_on newline (er_buffer r) = ls ++ [rest] →
  feedLoop fuel r = set_buffer rest (foldl take_line r ls).
Proof.
  revert r ls. induction fuel as [|fuel IH]; intros r ls Hf Hs; [lia|]. cbn [feedLoop].
  pose proof (cut_line_spec (er_buffer r)) as Hc. destruct (cut_line (er_buffer r)) as [[line b]|].
  - destruct Hc as [Hc Hl]. rewrite Hs in Hc. destruct ls as [|l ls].
    { injection Hc as ->. pose proof (split_on_nonempty newline b). congruence. }
    injection Hc as -> Hc. rewrite (IH _ ls).
    + cbn [foldl]. rewrite take_line_buffer, take_lines_buffer, set_buffer_twice. done.
    + assert (er_buffer (take_line (set_buffer b r) line) = b) as -> by (rewrite take_line_buffer; done). lia.
    + rewrite take_line_buffer. cbn. by rewrite <- Hc.
  - rewrite Hs in Hc. destruct ls as [|l ls]; [|by apply app_inj_tail in Hc as [? _] || (destruct ls; discriminate Hc)].
    injection Hc as ->. cbn. by rewrite set_buffer_same.
Qed.

Lemma split_on_last sep s : ∃ ls rest, split_on sep s = ls ++ [rest].
Proof. destruct (exists_last (split_on_nonempty sep s)) as (ls & rest & E). eauto. Qed.

Lemma split_on_more sep a b ls rest : split_on sep a = ls ++ [rest] → split_on sep (a ++ b) = ls ++ split_on sep (rest ++ b).
Proof.
  revert ls rest. induction a as [|c a IH]; intros ls rest Hs.
  - destruct ls as [|l ls]; [by injection Hs as <-|]. injection Hs as _ Hs. by destruct ls.
  - cbn in Hs |- *. destruct (c =? sep) eqn:Hc.
    + destruct ls as [|l ls]; [injection Hs as <- Hs; by apply split_on_nonempty in Hs|].
      injection Hs as <- Hs. by rewrite (IH _ _ Hs).
    + destruct (split_on_last sep a) as (ls' & rest' & E). rewrite (IH _ _ E). rewrite E in Hs.
      destruct ls' as [|l' ls']; cbn in Hs.
      * destruct ls as [|l ls]; [injection Hs as <-|injection Hs as _ Hs; by destruct ls]. cbn. rewrite Hc.
        destruct (split_on sep (rest' ++ b)) eqn:E2; [by apply split_on_nonempty in E2|done].
      * destruct ls as [|l ls]; [injection Hs as _ Hs; by destruct ls'|]. injection Hs as <- Hs.
        apply app_inj_tail in Hs as [<- <-]. done.
Qed.

Definition stdout_of (evs : list child_event) : jsstr := evs ≫= λ e, match e with StdoutData c => c | _ => [] end.
Definition stderr_of (evs : list child_event) : jsstr := evs ≫= λ e, match e with StderrData c => c | _ => [] end.

(** The child has not ended. *)
Definition running (e : child_event) : bool := match e with ChildError _ _ | ChildClose _ _ => false | _ => true end.
Definition is_abort (e : child_event) : bool := match e with AbortSignal => true | _ => false end.

(** The events of an output and the last result among them. *)
Definition events_of (out : jsstr) : list EngineEvent := omap parseEngineLine (split_on newline out).
Definition last_result (es : list EngineEvent) : option EngineEvent := last (filter (λ e, is_event e "result" = true) es).

Lemma last_result_snoc es e :
  last_result (es ++ [e]) = if is_event e "result" then Some e else last_result es.
Proof.
  unfold last_result. rewrite filter_app. destruct (is_event e "result") eqn:E.
  - rewrite filter_cons_True by done. by rewrite filter_nil, last_snoc.
  - rewrite filter_cons_False by congruence. by rewrite filter_nil, app_nil_r.
Qed.

Lemma take_lines_spec ls r :
  let r' := foldl take_line r ls in
  er_events r' = er_events r ++ omap parseEngineLine ls ∧
  er_result r' = match last_result (omap parseEngineLine ls) with Some e => Some e | None => er_result r end ∧
  er_buffer r' = er_buffer r ∧ er_stderr r' = er_stderr r ∧ er_listening r' = er_listening r ∧ er_kills r' = er_kills r ∧
  er_outcome r' = er_outcome r.
Proof.
  cbv zeta. induction ls as [|l ls IH] using rev_ind; [by rewrite app_nil_r|].
  rewrite foldl_app. cbn [foldl]. destruct IH as (He & Hr & Hrest). unfold take_line at 1 3 5 7 9 11 13.
  rewrite omap_app. cbn [omap list_omap]. destruct (parseEngineLine l) as [e|]; cbn.
  - rewrite last_result_snoc, He, Hr, app_assoc. split_and!; try apply Hrest; [done|]. by destruct (is_event e "result").
  - by rewrite app_nil_r.
Qed.

(** The state of a run while the child lives. *)
Definition run_inv (aborted : bool) (evs : list child_event) (r : EngineRun) : Prop :=
  ∃ ls rest, split_on newline (stdout_of evs) = ls ++ [rest] ∧ er_buffer r = rest ∧
    er_events r = omap parseEngineLine ls ∧ er_result r = last_result (omap parseEngineLine ls) ∧
    er_stderr r = stderr_of evs ∧ er_outcome r = None ∧
    er_listening r = negb (aborted || existsb is_abort evs) ∧
    er_kills r = if aborted || existsb is_abort evs then 1%nat else 0%nat.

Lemma last_result_app a b :
  last_result (a ++ b) = match last_result b with Some e => Some e | None => last_result a end.
Proof. unfold last_result. rewrite filter_app, last_app. by destruct (last (filter _ b)). Qed.

(** Feeding more output. *)
Lemma feed_spec r chunk ls rest :
  split_on newline (er_buffer r ++ chunk) = ls ++ [rest] →
  feed r chunk = set_buffer rest (foldl take_line r ls).
Proof.
  intros Hs. unfold feed. rewrite (feedLoop_spec _ _ ls rest); [|cbn; lia|done].
  by rewrite take_lines_buffer, set_buffer_twice.
Qed.

Lemma run_inv_step aborted evs r e : run_inv aborted evs r → running e = true → run_inv aborted (evs ++ [e]) (onChild r e).
Proof.
  intros (ls & rest & Hs & Hb & He & Hres & Herr & Ho & Hl & Hk) Hrun. unfold run_inv, stdout_of, stderr_of in *.
  rewrite !bind_app, existsb_app. cbn [mbind list_bind existsb]. rewrite !app_nil_r.
  destruct e as [chunk|chunk| | |]; try done; cbn [onChild is_abort]; rewrite ?orb_false_r.
  - destruct (split_on_last newline (rest ++ chunk)) as (ls' & rest' & E). rewrite <- Hb in E.
    rewrite (feed_spec _ _ _ _ E). destruct (take_lines_spec ls' r) as (H1 & H2 & H3 & H4 & H5 & H6 & H7).
    exists (ls ++ ls'), rest'. rewrite (split_on_more _ _ _ _ _ Hs), <- Hb, E, app_assoc. cbn.
    rewrite omap_app, H1, H2, H4, H5, H6, H7, last_result_app, He, Hres. by rewrite !app_nil_r.
  - exists ls, rest. cbn. rewrite app_nil_r, Herr. done.
  - exists ls, rest. rewrite !app_nil_r. rewrite !orb_true_r. rewrite Hl.
    destruct (aborted || existsb is_abort evs); cbn; rewrite ?Hk; split_and!; done.
Qed.

Lemma run_inv_running aborted evs : forallb running evs = true → run_inv aborted evs (runEngine aborted evs).
Proof.
  unfold runEngine. induction evs as [|e evs IH] using rev_ind; intros H.
  { exists [], []. destruct aborted; cbn; split_and!; done. }
  rewrite forallb_app in H. apply andb_true_iff in H as [H1 H2]. rewrite foldl_app. cbn. apply run_inv_step; [by apply IH|].
  cbn in H2. by rewrite andb_true_r in H2.
Qed.

(** Nothing changes a settled promise. *)
Lemma settled_once r evs o : er_outcome r = Some o → er_outcome (foldl onChild r evs) = Some o.
Proof.
  revert r. induction evs as [|e evs IH]; intros r Ho; [done|]. cbn [foldl]. apply IH.
  assert (∀ chunk, er_outcome (feed r chunk) = Some o) as Hf.
  { intros chunk. destruct (split_on_last newline (er_buffer r ++ chunk)) as (ls & rest & E).
    rewrite (feed_spec _ _ _ _ E). cbn. by destruct (take_lines_spec ls r) as (_ & _ & _ & _ & _ & _ & ->). }
  destruct e as [chunk|chunk| |enoent msg|code signal]; cbn; [apply Hf|done|by destruct (er_listening r)|by rewrite Ho|].
  assert (er_outcome (unlisten r) = Some o) as Hu by done.
  destruct (bool_decide (er_buffer r = [])); cbn; [by rewrite Ho|].
  destruct (split_on_last newline (er_buffer (unlisten r) ++ [newline])) as (ls & rest & E).
  rewrite (feed_spec _ _ _ _ E). cbn. destruct (take_lines_spec ls (unlisten r)) as (_ & _ & _ & _ & _ & _ & ->). by rewrite Hu.
Qed.

(** Output is read line by line, whatever its chunks.  When the engine ends,
    [onEvent] was called with the events of the lines of its whole output, in
    order, the last line too if it is unterminated, and the outcome holds the last
    result among them. *)
Theorem engine_stream aborted evs code signal :
  forallb running evs = true →
  let r := runEngine aborted (evs ++ [ChildClose code signal]) in
  er_events r = events_of (stdout_of evs) ∧
  er_outcome r = Some (mkOutcome code signal (last_result (events_of (stdout_of evs))) (stderr_of evs)).
Proof.
  intros Hev r. destruct (run_inv_running aborted evs Hev) as (ls & rest & Hs & Hb & He & Hres & Herr & Ho & _).
  unfold r, runEngine. rewrite foldl_app. fold (runEngine aborted evs). cbn [foldl onChild].
  set (r0 := unlisten (runEngine aborted evs)). unfold events_of. rewrite Hs, omap_app. cbn [omap list_omap].
  change (er_buffer (runEngine aborted evs)) with (er_buffer r0) in Hb.
  destruct (bool_decide_reflect (er_buffer r0 = [])) as [E|E].
  - rewrite <- Hb, E. cbn. rewrite Ho, He, Hres, Herr. by rewrite app_nil_r.
  - assert (split_on newline (er_buffer r0 ++ [newline]) = [rest] ++ [[]]) as Hcut.
    { rewrite Hb. change ([newline]) with (newline :: []) at 1. rewrite split_on_app. f_equal.
      assert (newline ∉ rest) as Hn by (eapply (split_on_sep newline (stdout_of evs)); rewrite Hs; apply elem_of_app; right; left).
      apply (split_join newline [rest]); [done|by repeat constructor]. }
    rewrite (feed_spec _ _ _ _ Hcut). cbn [foldl]. destruct (take_lines_spec [rest] r0) as (H1 & H2 & _ & H4 & _ & _ & H7).
    cbn in H1, H2, H4, H7. cbn. rewrite H1, H2, H4, H7, Ho, He, Hres, Herr. split; [done|].
    rewrite last_result_app. cbn. by destruct (parseEngineLine rest).
Qed.

Lemma engine_stream_witness :
  let line := js_lit "{} " ++ [newline] ++ js_lit "x" in
  let evs := [StdoutData (take 2 line); AbortSignal; StdoutData (drop 2 line); StderrData (js_lit "w")] in
  forallb running evs = true ∧
  er_outcome (runEngine false (evs ++ [ChildClose (Some 0) None])) =
    Some (mkOutcome (Some 0) None (last_result (events_of (stdout_of evs))) (stderr_of evs)).
Proof. cbv zeta. split; [done|]. by apply engine_stream. Defined.

Lemma feed_rest r chunk :
  er_listening (feed r chunk) = er_listening r ∧ er_kills (feed r chunk) = er_kills r.
Proof.
  destruct (split_on_last newline (er_buffer r ++ chunk)) as (ls & rest & E). rewrite (feed_spec _ _ _ _ E). cbn.
  destruct (take_lines_spec ls r) as (_ & _ & _ & _ & -> & -> & _). done.
Qed.

(** Once the listener is gone the child is not signalled again. *)
Lemma kills_after r evs : er_listening r = false → er_kills (foldl onChild r evs) = er_kills r.
Proof.
  revert r. induction evs as [|e evs IH]; intros r Hl; [done|]. cbn [foldl].
  assert (er_listening (onChild r e) = false ∧ er_kills (onChild r e) = er_kills r) as [H1 H2].
  { destruct e as [chunk|chunk| |enoent msg|code signal]; cbn; rewrite ?Hl; try done.
    - rewrite <- Hl. apply feed_rest.
    - destruct (bool_decide _); cbn; [done|]. destruct (feed_rest (unlisten r) [newline]) as [-> ->]. done. }
  by rewrite IH.
Qed.

Lemma ended_settles r e : er_outcome r = None → running e = false → is_Some (er_outcome (onChild r e)) ∧ er_listening (onChild r e) = false ∧ er_kills (onChild r e) = er_kills r.
Proof.
  intros Ho He. destruct e as [| | |enoent msg|code signal]; try done; cbn.
  - rewrite Ho. done.
  - assert (er_outcome (unlisten r) = None) as Hu by done. destruct (bool_decide _); cbn; [rewrite Ho; done|].
    destruct (feed_rest (unlisten r) [newline]) as [-> ->]. split_and!; [|done|done]. by destruct (er_outcome (feed _ _)).
Qed.

Lemma settles_eventually aborted evs :
  existsb (λ e, negb (running e)) evs = true → is_Some (er_outcome (runEngine aborted evs)).
Proof.
  unfold runEngine. generalize (startEngine aborted). induction evs as [|e evs IH]; intros r H; [done|].
  cbn [existsb foldl] in *. apply orb_true_iff in H as [H|H]; [|by apply IH].
  apply negb_true_iff in H. destruct (er_outcome r) as [o|] eqn:Ho.
  - exists o. by apply (settled_once r (e :: evs)).
  - destruct (ended_settles _ _ Ho H) as [[o Hs] _]. exists o. by apply settled_once.
Qed.

(** C25: Every run of the engine settles, once.  While the child lives the promise
    is pending; its first error or close settles it, and nothing that happens
    later changes the outcome.  An abort reaches the child as one signal if it
    comes before the end, and none afterwards. *)
Theorem engine_settles aborted pre e post :
  forallb running pre = true → running e = false →
  er_outcome (runEngine aborted pre) = None ∧
  ∃ o, er_outcome (runEngine aborted (pre ++ [e])) = Some o ∧
    let r := runEngine aborted (pre ++ e :: post) in
    er_outcome r = Some o ∧ er_kills r = if aborted || existsb is_abort pre then 1%nat else 0%nat.
Proof.
  intros Hpre He. destruct (run_inv_running aborted pre Hpre) as (ls & rest & _ & _ & _ & _ & _ & Ho & _ & Hk).
  split; [done|]. destruct (ended_settles _ _ Ho He) as ([o Hs] & Hl & Hk').
  exists o. unfold runEngine. rewrite !foldl_app. cbn [foldl]. fold (runEngine aborted pre).
  split; [done|]. split; [by apply settled_once|]. by rewrite kills_after, Hk', Hk.
Qed.

Lemma engine_settles_witness :
  er_outcome (runEngine false [AbortSignal]) = None ∧
  ∃ o, er_outcome (runEngine false [AbortSignal; ChildClose None (Some (js_lit "SIGINT"))]) = Some o ∧
    let r := runEngine false [AbortSignal; ChildClose None (Some (js_lit "SIGINT")); AbortSignal] in
    er_outcome r = Some o ∧ er_kills r = 1%nat.
Proof. exact (engine_settles false [AbortSignal] (ChildClose None (Some (js_lit "SIGINT"))) [AbortSignal] eq_refl eq_refl). Defined.

(** ** The candidate *)

(** What was read, when the candidate is accepted. *)
Lemma candidate_Ok sha256 open_ runDir digest text :
  readCandidateForApproval sha256 open_ runDir digest = Ok text ↔
  ∃ d f, digest = Some (TText d) ∧ d ≠ [] ∧ open_ (join_paths [runDir; js_lit "candidate.patch"]) = Some f ∧
    cf_isFile f = true ∧ cf_size f ≤ MAX_CANDIDATE ∧
    let bytes := take (Z.to_nat (cf_size f + 1)) (cf_bytes f) in sha256 bytes = d ∧ text = utf8_lossy bytes.
Proof.
  unfold readCandidateForApproval. split.
  - destruct (truthy digest) eqn:Ht; [|done]. cbn [negb]. destruct (open_ _) as [f|]; [|done].
    destruct (negb (cf_isFile f) || (MAX_CANDIDATE <? cf_size f)) eqn:E; [done|].
    destruct digest as [[| | |d| | |]|]; try done. case_bool_decide as Hd; [|done].
    cbn [negb]. intros [= <-]. zb. exists d, f. split_and!; try done. by intros ->.
  - intros (d & f & -> & Hd & -> & Hf & Hs & Hh & ->).
    assert (truthy (Some (TText d)) = true) as -> by (by destruct d).
    cbn [negb]. rewrite Hf, (proj2 (Z.ltb_ge _ _)) by done. cbn [negb orb]. by rewrite bool_decide_eq_true_2.
Qed.
