(* ===== verification/SandboxCommand.v ===== *)
(** The command [/sandbox] of the interactive mode: [handleSandboxCommand] of
    [coding-agent/src/modes/interactive/interactive-mode.ts].  The handler is
    split at its awaits: the checks before authorisation, the claim of the slot
    [sandboxAbort], the run, the review and the export.  What the handler does is
    the list of its actions; what it learns from outside is the record [World]. *)
From S2P Require Import Prelude JsValue JsMap Json Regex NodePath Sandbox SandboxSpec.
Open Scope Z_scope.

Record Model := mkModel { m_api : jsstr; m_provider : jsstr; m_baseUrl : jsstr; m_id : jsstr }.

(** A header whose value is not a string has none. *)
Record Auth := mkAuth {
  a_apiKey : option jsstr;
  a_headers : option (list (jsstr * option jsstr));
  a_baseUrl : option jsstr;
}.

(** What the handler is told: by the session, the file system, the engine's child
    processes and the user. *)
Record World := mkWorld {
  w_cwd : jsstr;                                  (* [process.cwd()] *)
  w_repoRoot : jsstr;
  w_isRepoRoot : bool;
  w_findingArg : option jsstr;
  w_io : SandboxIO;
  w_model : option Model;
  w_auth : result jsstr (option Auth);            (* [getAuth], or the message it rejects with *)
  w_runId : jsstr;
  w_env : list (jsstr * option jsstr);            (* [process.env] *)
  w_run : result jsstr (list child_event);        (* the child of [run] until it settles *)
  w_open : jsstr → option CandidateFile;
  w_openError : jsstr;
  w_preview : bool;                               (* the pager ran and exited with 0 *)
  w_choice : result jsstr (option bool);          (* the selector *)
  w_abortedReview : bool;                         (* aborted when the selector returns *)
  w_env_export : list (jsstr * option jsstr);
  w_export : result jsstr (list child_event);
}.

Inductive action :=
| ShowError (m : jsstr)
| ShowStatus (m : jsstr)
| ShowEvent (m : jsstr)
| Uncaught
| SetAbort
| ClearAbort
| Spawn (bin : jsstr) (args : list jsstr) (cwd : jsstr) (env : list (jsstr * jsstr))
| UiStop
| Preview (text : jsstr)
| Ask (title : jsstr)
| UiStart.

(** [/sandbox] with its argument, from the submitted text. *)
Definition sandboxArgument (text : jsstr) : option (option jsstr) :=
  if bool_decide (text = js_lit "/sandbox") then Some None
  else if startsWith text (js_lit "/sandbox ") then Some (Some (trim (drop 9 text)))
  else None.

Definition ALREADY : jsstr := js_lit "a sandbox run is already in progress".
Definition TYPE_ERROR : jsstr := js_lit "Cannot convert object to primitive value".
Definition CANCELLED : jsstr := js_lit "sandbox: cancelled".

(** Up to the first await; what is left is authorised next. *)
Definition sandboxBegin (busy : bool) (w : World) : action + jsstr * jsstr * Model :=
  if busy then inl (ShowError ALREADY) else
  if negb (w_isRepoRoot w) then
    inl (ShowError (js_lit "/sandbox must run from a git repository root. " ++ SANDBOX_USAGE)) else
  match resolveSandboxInputs (w_cwd w) (w_repoRoot w) (w_findingArg w) (io_readdir (w_io w)) with
  | Err e => inl (ShowError e)
  | Ok (finding, manifest) =>
      match assertSandboxTarget (w_cwd w) (w_repoRoot w) finding manifest (w_io w) with
      | Err e => inl (ShowError e)
      | Ok _ =>
          match w_model w with
          | None => inl (ShowError (js_lit "No model selected. Use /model or /setup-model first."))
          | Some model =>
              if negb (bool_decide (m_api model = js_lit "openai-completions")) then
                inl (ShowError (js_lit "/sandbox needs Chat Completions (api: openai-completions). " ++ m_provider model ++
                       js_lit " uses " ++ m_api model ++ js_lit ". Use a preset or models.json with api: " ++ [0x22] ++
                       js_lit "openai-completions" ++ [0x22] ++ js_lit "."))
              else inr (finding, manifest, model)
          end
      end
  end.

(** [Object.entries] of the headers that are non-empty strings. *)
Definition stringHeaders (hs : list (jsstr * option jsstr)) : list (jsstr * jsstr) :=
  foldl (λ acc h, match h.2 with
                  | Some v => if bool_decide (v = []) then acc else env_set acc h.1 v
                  | None => acc
                  end) [] hs.

Record RunPlan := mkPlan { p_apiKey : option jsstr; p_headers : option (list (jsstr * jsstr)); p_endpoint : jsstr }.

Definition truthy_text (s : option jsstr) : bool := match s with Some (_ :: _) => true | _ => false end.

(** After [getAuth]: the key, the headers and the endpoint; the slot is checked again. *)
Definition sandboxAuthorised (busy : bool) (w : World) (model : Model) : action + RunPlan :=
  match w_auth w with
  | Err e => inl (ShowError e)
  | Ok auth =>
      let apiKey := match auth with Some a => a_apiKey a | None => None end in
      let headers :=
        match auth with
        | Some a =>
            match a_headers a with
            | Some hs => let hs := stringHeaders hs in if bool_decide (hs = []) then None else Some hs
            | None => None
            end
        | None => None
        end in
      let endpoint :=
        match auth with
        | Some a => if truthy_text (a_baseUrl a) then default [] (a_baseUrl a) else m_baseUrl model
        | None => m_baseUrl model
        end in
      if busy then inl (ShowError ALREADY) else inr (mkPlan apiKey headers endpoint)
  end.

Definition runDir (w : World) : jsstr := join_paths [w_repoRoot w; js_lit ".patchcage"; js_lit "runs"; w_runId w].
Definition outDir (w : World) : jsstr := join_paths [w_repoRoot w; EXPORTS_DIR; w_runId w].

Definition status_is (o : EngineRunOutcome) (s : string) : bool :=
  match o_result o with
  | Some e => match ev e "status" with Some (TText t) => bool_decide (t = js_lit s) | _ => false end
  | None => false
  end.

Definition narrate (e : EngineEvent) : list action :=
  match narrateEvent e with
  | Some (Some line) => if bool_decide (line = []) then [] else [ShowEvent line]
  | Some None => []
  | None => [Uncaught]
  end.

Definition showFailure (o : EngineRunOutcome) : action := ShowError (default TYPE_ERROR (describeFailure o)).

(** [`${check.name}: ${check.status}`]; reading a property of [null] throws. *)
Definition checkLine (t : tree) : option jsstr :=
  match t with
  | TNull => None
  | _ => name ← js_string_of (prop (Some t) "name"); status ← js_string_of (prop (Some t) "status");
         Some (name ++ js_lit ": " ++ status)
  end.

(** The last four checks; anything but an array has no [map]. *)
Definition checkLines (checks : option tree) : option jsstr :=
  match coalesce checks (Some (TArray [])) with
  | Some (TArray ts) => join_on (js_lit "; ") <$> all_some (checkLine <$> slice_last 4 ts)
  | _ => None
  end.

Definition askTitle (digest checks : option tree) : option jsstr :=
  d ← js_string_of digest; lines ← checkLines checks;
  Some (js_lit "Reviewed candidate " ++ d ++ js_lit "." ++ [newline] ++ lines ++ [newline] ++
        js_lit "Export final.patch + evidence.json?").

Definition candidateMessage (w : World) (e : candidate_error) : jsstr :=
  match e with
  | NoDigest => js_lit "Engine result has no candidate digest"
  | OpenFailed => w_openError w
  | NotReviewable => js_lit "Candidate is not a reviewable patch file"
  | CandidateChanged => js_lit "Candidate changed after verification; refusing approval"
  end.

Section command.
Context `{CaseMap} (sha256_hex : list Z → jsstr).

(** Actions of a stage, and whether it returns: a run that never settles does not. *)
Definition stage : Type := list action * bool.

(** [runEngine] and what follows its outcome. *)
Definition withOutcome (run : result jsstr (list child_event)) (told : EngineRun → list action)
    (k : bool → EngineRunOutcome → stage) : stage :=
  match run with
  | Err e => ([ShowError e], true)
  | Ok evs =>
      let r := runEngine false evs in
      match er_outcome r with
      | None => (told r, false)
      | Some o => let '(acts, fin) := k (existsb is_abort evs) o in (told r ++ acts, fin)
      end
  end.

(** The approved export. *)
Definition sandboxExport (w : World) (bin : jsstr) (digest : option tree) : stage :=
  let d := match digest with Some (TText d) => Some d | _ => None end in
  let '(acts, fin) :=
    withOutcome (w_export w) (λ _, []) (λ aborted o,
      if aborted || status_is o "cancelled" then ([ShowEvent CANCELLED], true)
      else if status_is o "exported" then
        ([ShowStatus (js_lit "sandbox: exported final.patch + evidence.json to " ++ outDir w)], true)
      else ([showFailure o], true)) in
  (Spawn bin (buildExportArgs (runDir w) (outDir w) d) (w_repoRoot w) (engineEnv (w_env_export w) None None) :: acts, fin).

(** After the selector. *)
Definition sandboxDecide (w : World) (bin : jsstr) (digest : option tree) (approve : option bool) : stage :=
  if w_abortedReview w then ([ShowEvent CANCELLED], true)
  else if negb (bool_decide (approve = Some true)) then
    ([ShowStatus (js_lit "sandbox: not exported. Run dir kept at " ++ runDir w)], true)
  else sandboxExport w bin digest.

(** The candidate is read, shown in full and put to the user. *)
Definition sandboxReview (w : World) (bin : jsstr) (result_ : EngineEvent) : stage :=
  let digest := ev result_ "diff_ref" in
  match readCandidateForApproval sha256_hex (w_open w) (runDir w) digest with
  | Err e => ([ShowError (candidateMessage w e)], true)
  | Ok candidate =>
      let '(acts, fin) :=
        if negb (w_preview w) then
          ([UiStart; ShowError (js_lit "Could not display candidate diff. Install less and retry; no export was performed.")], true)
        else
          match askTitle digest (ev result_ "checks") with
          | None => ([UiStart; ShowError TYPE_ERROR], true)
          | Some title =>
              match w_choice w with
              | Err e => ([Ask title; UiStart; ShowError e], true)
              | Ok approve => let '(acts, fin) := sandboxDecide w bin digest approve in (Ask title :: UiStart :: acts, fin)
              end
          end in
      (UiStop :: Preview candidate :: acts, fin)
  end.

(** The body of the [try]. *)
Definition sandboxBody (w : World) (finding manifest : jsstr) (model : Model) (plan : RunPlan) : stage :=
  let bin := resolveEngineBinary (omap (λ kv, v ← kv.2; Some (kv.1, v)) (w_env w)) in
  let input := mkRunInput (w_repoRoot w) manifest finding (runDir w) (p_endpoint plan) (m_id model) in
  let '(acts, fin) :=
    withOutcome (w_run w) (λ r, er_events r ≫= narrate) (λ aborted o,
      if aborted || status_is o "cancelled" then ([ShowEvent CANCELLED], true)
      else match o_result o with
           | Some e => if status_is o "awaiting_approval" then sandboxReview w bin e else ([showFailure o], true)
           | None => ([showFailure o], true)
           end) in
  (ShowStatus (js_lit "sandbox: starting " ++ bin ++ js_lit " (run " ++ w_runId w ++ js_lit "); Esc cancels") ::
   Spawn bin (buildRunArgs input) (w_repoRoot w) (engineEnv (w_env w) (p_apiKey plan) (p_headers plan)) :: acts, fin).

(** The claim, the [try] and its [finally]. *)
Definition sandboxRun (w : World) (finding manifest : jsstr) (model : Model) (plan : RunPlan) : list action :=
  let '(acts, fin) := sandboxBody w finding manifest model plan in
  SetAbort :: acts ++ (if fin then [ClearAbort] else []).

(** The whole handler; the slot is looked at twice. *)
Definition handleSandboxCommand (busy busyAfterAuth : bool) (w : World) : list action :=
  match sandboxBegin busy w with
  | inl a => [a]
  | inr (finding, manifest, model) =>
      match sandboxAuthorised busyAfterAuth w model with
      | inl a => [a]
      | inr plan => sandboxRun w finding manifest model plan
      end
  end.
End command.

(** ** Several handlers

    A handler can be started while another awaits; [sandboxAbort] is the slot
    they share. *)
Inductive phase := Authorising (model : Model) | Running | Finished.

Record Slots := mkSlots {
  sandboxAbort : option nat;            (* the handler whose controller it is *)
  handlers : list (World * phase);
}.

Inductive sandbox_step :=
| HBegin (w : World)
| HAuth (i : nat)       (* [getAuth] settles *)
| HEnd (i : nat).       (* the [finally] of a run *)

Definition is_claimed (s : Slots) : bool := bool_decide (is_Some (sandboxAbort s)).

Definition sandboxStep (s : Slots) (e : sandbox_step) : Slots :=
  match e with
  | HBegin w =>
      let p := match sandboxBegin (is_claimed s) w with inl _ => Finished | inr (_, _, model) => Authorising model end in
      mkSlots (sandboxAbort s) (handlers s ++ [(w, p)])
  | HAuth i =>
      match handlers s !! i with
      | Some (w, Authorising model) =>
          match sandboxAuthorised (is_claimed s) w model with
          | inl _ => mkSlots (sandboxAbort s) (<[i := (w, Finished)]> (handlers s))
          | inr _ => mkSlots (Some i) (<[i := (w, Running)]> (handlers s))
          end
      | _ => s
      end
  | HEnd i =>
      match handlers s !! i with
      | Some (w, Running) => mkSlots None (<[i := (w, Finished)]> (handlers s))
      | _ => s
      end
  end.
