(* ===== verification/SandboxClaims.v ===== *)
(** What the command [/sandbox] guarantees: an export happens only after the
    verified candidate was shown in full and approved, and is pinned to it; the
    slot is claimed by one run at a time and released when the run is over. *)
From S2P Require Import Prelude JsValue Utf8 JsMap Json Regex NodePath Sandbox SandboxSpec SandboxCommand.
Open Scope Z_scope.

Definition is_export (a : action) : bool :=
  match a with Spawn _ (c :: _) _ _ => bool_decide (c = js_lit "export") | _ => false end.
Definition no_export (l : list action) : bool := forallb (λ a, negb (is_export a)) l.

(** An export lies behind any actions that are none. *)
Lemma skip_actions l k pre a post :
  no_export l = true → is_export a = true → l ++ k = pre ++ a :: post → ∃ pre', pre = l ++ pre' ∧ k = pre' ++ a :: post.
Proof.
  revert pre. induction l as [|b l IH]; intros pre Hl Ha E; [by exists pre|].
  cbn in Hl. apply andb_true_iff in Hl as [Hb Hl]. destruct pre as [|c pre].
  - injection E as -> _. by rewrite Ha in Hb.
  - injection E as -> E. destruct (IH _ Hl Ha E) as (pre' & -> & ->). by exists pre'.
Qed.

Lemma no_export_split l pre a post : no_export l = true → is_export a = true → l ≠ pre ++ a :: post.
Proof.
  intros Hl Ha E. rewrite <- (app_nil_r l) in E. destruct (skip_actions _ _ _ _ _ Hl Ha E) as (pre' & _ & E').
  by destruct pre'.
Qed.

Lemma skip_tail l k pre a post :
  no_export k = true → is_export a = true → l ++ k = pre ++ a :: post → ∃ post', l = pre ++ a :: post' ∧ post = post' ++ k.
Proof.
  intros Hk Ha. revert pre. induction l as [|b l IH]; intros pre E.
  - by apply no_export_split in E.
  - destruct pre as [|c pre]; injection E as -> E; [by exists l|]. destruct (IH _ E) as (post' & -> & ->). by exists post'.
Qed.

Lemma no_export_app l k : no_export (l ++ k) = no_export l && no_export k.
Proof. apply forallb_app. Qed.

Lemma narrate_no_export es : no_export (es ≫= narrate) = true.
Proof.
  induction es as [|e es IH]; [done|]. rewrite bind_cons, no_export_app, IH, andb_true_r. unfold narrate.
  destruct (narrateEvent e) as [[line|]|]; try done. by case_bool_decide.
Qed.

(** The stages before the run only report. *)
Lemma begin_shows busy w b : sandboxBegin busy w = inl b → no_export [b] = true.
Proof. unfold sandboxBegin. intros E. repeat case_match; by simplify_eq. Qed.

Lemma authorised_shows busy w model b : sandboxAuthorised busy w model = inl b → no_export [b] = true.
Proof. unfold sandboxAuthorised. intros E. repeat case_match; by simplify_eq. Qed.

Section gated.
Context `{CaseMap} (sha256_hex : list Z → jsstr).
Implicit Types (w : World).

(** What an export presupposes, and how it is called. *)
Record ExportGate w (pre : list action) (a : action) : Prop := {
  gate : ∃ evs o e d f title bin,
    w_run w = Ok evs ∧ er_outcome (runEngine false evs) = Some o ∧ o_result o = Some e ∧
    ev e "status" = Some (TText (js_lit "awaiting_approval")) ∧ existsb is_abort evs = false ∧
    ev e "diff_ref" = Some (TText d) ∧
    w_open w (join_paths [runDir w; js_lit "candidate.patch"]) = Some f ∧ cf_isFile f = true ∧ cf_size f ≤ MAX_CANDIDATE ∧
    let bytes := take (Z.to_nat (cf_size f + 1)) (cf_bytes f) in
    sha256_hex bytes = d ∧
    w_preview w = true ∧ w_choice w = Ok (Some true) ∧ w_abortedReview w = false ∧
    (∃ before, pre = before ++ [Preview (utf8_lossy bytes); Ask title; UiStart]) ∧
    a = Spawn bin [js_lit "export"; js_lit "--run"; runDir w; js_lit "--out"; outDir w; js_lit "--expected-sha256"; d]
          (w_repoRoot w) (engineEnv (w_env_export w) None None)
}.

Lemma export_stage w bin d pre a post :
  d ≠ [] → (sandboxExport w bin (Some (TText d))).1 = pre ++ a :: post → is_export a = true →
  pre = [] ∧ no_export post = true ∧
  a = Spawn bin [js_lit "export"; js_lit "--run"; runDir w; js_lit "--out"; outDir w; js_lit "--expected-sha256"; d]
        (w_repoRoot w) (engineEnv (w_env_export w) None None).
Proof.
  intros Hd E Ha. unfold sandboxExport in E.
  set (st := withOutcome _ _ _) in E. assert (no_export st.1 = true) as Hst.
  { unfold st, withOutcome. destruct (w_export w) as [evs|e]; [|done]. destruct (er_outcome _) as [o|]; [|done].
    destruct (existsb is_abort evs || status_is o "cancelled"); [done|]. by destruct (status_is o "exported"). }
  destruct st as [acts fin]. cbn [fst] in *. destruct pre as [|b pre].
  - injection E as <- <-. split_and!; [done|done|]. unfold buildExportArgs. by rewrite bool_decide_eq_false_2.
  - injection E as _ E. by apply no_export_split in E.
Qed.

Lemma review_stage w bin e pre a post :
  (sandboxReview sha256_hex w bin e).1 = pre ++ a :: post → is_export a = true →
  no_export post = true ∧ ∃ d f title,
    ev e "diff_ref" = Some (TText d) ∧
    w_open w (join_paths [runDir w; js_lit "candidate.patch"]) = Some f ∧ cf_isFile f = true ∧ cf_size f ≤ MAX_CANDIDATE ∧
    let bytes := take (Z.to_nat (cf_size f + 1)) (cf_bytes f) in
    sha256_hex bytes = d ∧ w_preview w = true ∧ w_choice w = Ok (Some true) ∧ w_abortedReview w = false ∧
    pre = [UiStop; Preview (utf8_lossy bytes); Ask title; UiStart] ∧
    a = Spawn bin [js_lit "export"; js_lit "--run"; runDir w; js_lit "--out"; outDir w; js_lit "--expected-sha256"; d]
          (w_repoRoot w) (engineEnv (w_env_export w) None None).
Proof.
  intros E Ha. unfold sandboxReview in E.
  destruct (readCandidateForApproval _ _ _ _) as [candidate|c] eqn:Hc.
  2: { by apply (no_export_split [_]) in E. }
  apply candidate_Ok in Hc as (d & f & Hdig & Hd & Hopen & Hfile & Hsize & Hsha & ->). rewrite Hdig in E.
  destruct (w_preview w) eqn:Hp; cbn [negb] in E.
  2: { by apply (no_export_split [_; _; _; _]) in E. }
  destruct (askTitle (Some (TText d)) (ev e "checks")) as [title|].
  2: { by apply (no_export_split [_; _; _; _]) in E. }
  destruct (w_choice w) as [approve|m].
  2: { by apply (no_export_split [_; _; _; _; _]) in E. }
  unfold sandboxDecide in E. destruct (w_abortedReview w) eqn:Hab.
  { by apply (no_export_split [_; _; _; _; _]) in E. }
  destruct (bool_decide_reflect (approve = Some true)) as [->|]; cbn [negb] in E.
  2: { by apply (no_export_split [_; _; _; _; _]) in E. }
  pose proof (export_stage w bin d) as Hx. destruct (sandboxExport w bin (Some (TText d))) as [acts fin]. cbn [fst] in *.
  apply (skip_actions [UiStop; Preview _; Ask title; UiStart] acts) in E as (pre' & -> & ->); [|done|done].
  destruct (Hx pre' a post Hd eq_refl Ha) as (-> & Hpost & ->). split; [done|].
  exists d, f, title. by split_and!.
Qed.

(** The whole run. *)
Lemma run_stage w finding manifest model plan pre a post :
  sandboxRun sha256_hex w finding manifest model plan = pre ++ a :: post → is_export a = true →
  no_export pre = true ∧ no_export post = true ∧ ExportGate w pre a.
Proof.
  intros E Ha. unfold sandboxRun, sandboxBody in E. set (bin := resolveEngineBinary _) in E.
  destruct (withOutcome _ _ _) as [acts fin] eqn:Hw. cbn [app] in E.
  apply (skip_actions [SetAbort; ShowStatus _; Spawn _ _ _ _]) in E as (pre1 & -> & E); [|done|done].
  assert (∃ k, acts ++ (if fin then [ClearAbort] else []) = acts ++ k ∧ no_export k = true) as (k & Hk & Hno) by (destruct fin; eauto).
  rewrite Hk in E. clear Hk. unfold withOutcome in Hw. destruct (w_run w) as [evs|m] eqn:Hrun.
  2: { injection Hw as <- <-. exfalso. revert E. apply no_export_split; [|done]. by rewrite no_export_app, Hno. }
  set (told := er_events (runEngine false evs) ≫= narrate) in Hw.
  pose proof (narrate_no_export (er_events (runEngine false evs))) as Htold. fold told in Htold.
  destruct (er_outcome (runEngine false evs)) as [o|] eqn:Ho.
  2: { injection Hw as <- <-. exfalso. revert E. apply no_export_split; [|done]. by rewrite no_export_app, Htold, Hno. }
  assert (∀ x, acts = told ++ [x] → is_export x = false → False) as Hone.
  { intros x -> Hx. exfalso. revert E. apply no_export_split; [|done]. rewrite !no_export_app, Htold, Hno. cbn. by rewrite Hx. }
  destruct (existsb is_abort evs || status_is o "cancelled") eqn:Hc.
  { injection Hw as <- <-. by destruct (Hone _ eq_refl). }
  destruct (o_result o) as [e|] eqn:He; [|injection Hw as <- <-; by destruct (Hone _ eq_refl)].
  destruct (status_is o "awaiting_approval") eqn:Hs; [|injection Hw as <- <-; by destruct (Hone _ eq_refl)].
  pose proof (review_stage w bin e) as Hr. destruct (sandboxReview sha256_hex w bin e) as [racts rfin]. injection Hw as <- ->.
  rewrite <- app_assoc in E. apply (skip_actions told) in E as (pre2 & -> & E); [|done|done].
  assert (∃ post', racts = pre2 ++ a :: post' ∧ post = post' ++ k) as (post' & Hracts & ->).
  { by apply skip_tail. }
  destruct (Hr pre2 a post' Hracts Ha) as (Hpost & d & f & title & Hd & Hopen & Hfile & Hsize & Hsha & Hp & Hch & Hab & -> & ->).
  split; [by rewrite !no_export_app, Htold|]. split; [by rewrite no_export_app, Hpost, Hno|]. split. apply orb_false_iff in Hc as [Hc _].
  exists evs, o, e, d, f, title, bin. cbv zeta. split_and!; try done.
  - unfold status_is in Hs. rewrite He in Hs. destruct (ev e "status") as [[| | |t| | |]|]; try done. apply bool_decide_eq_true in Hs. by rewrite Hs.
  - match goal with |- ∃ _, ?x ++ told ++ _ = _ => exists (x ++ told ++ [UiStop]) end. by rewrite <- !app_assoc.
Qed.
End gated.

(** C4: Nothing is exported that was not reviewed.  If the handler calls the
    engine's [export], then the run ended awaiting approval and was not aborted,
    its result names a digest, the candidate file is a regular file within the
    size limit whose bytes have that digest, those bytes were shown in the pager
    directly before the question, the user chose to export, and the call pins
    that digest, with an environment that has no model key; it is the only
    export. *)
Theorem export_gated `{CaseMap} sha256_hex busy busyAfterAuth w pre a post :
  handleSandboxCommand sha256_hex busy busyAfterAuth w = pre ++ a :: post → is_export a = true →
  no_export pre = true ∧ no_export post = true ∧ ExportGate sha256_hex w pre a.
Proof.
  intros E Ha. unfold handleSandboxCommand in E.
  destruct (sandboxBegin busy w) as [b|[[finding manifest] model]] eqn:Hb.
  { exfalso. revert E. apply no_export_split; [|done]. by rewrite (begin_shows _ _ _ Hb). }
  destruct (sandboxAuthorised busyAfterAuth w model) as [b|plan] eqn:Hp.
  { exfalso. revert E. apply no_export_split; [|done]. by rewrite (authorised_shows _ _ _ _ Hp). }
  exact (run_stage _ _ _ _ _ _ _ _ _ E Ha).
Qed.

(** ** A run, concretely *)

Definition demo_finding : jsstr := js_lit "file_path: src/app.py".
Definition demo_io : SandboxIO :=
  mkIO (λ _, [js_lit "a.finding.yml"]) (λ _, true) (λ _, Some demo_finding).
Definition quoted (s : string) : jsstr := [0x22] ++ js_lit s ++ [0x22].
(** The result line of an engine that awaits approval of the candidate [d]. *)
Definition demo_result (d : jsstr) : jsstr :=
  js_lit "{" ++ quoted "event_type" ++ js_lit ":" ++ quoted "result" ++ js_lit "," ++ quoted "status" ++ js_lit ":" ++
  quoted "awaiting_approval" ++ js_lit "," ++ quoted "diff_ref" ++ js_lit ":" ++ [0x22] ++ d ++ [0x22] ++ js_lit "}".
(** A stand-in for the hash. *)
Definition demo_hash (bs : list Z) : jsstr := decimal (foldl (λ acc b, (acc * 31 + b) mod 65521) 7 bs).
Definition demo_patch : list Z := js_lit "--- a/x".
Definition demo_world (patch : list Z) (choice : option bool) : World :=
  mkWorld (js_lit "/") (js_lit "/repo") true None demo_io
    (Some (mkModel (js_lit "openai-completions") (js_lit "ollama") (js_lit "http://127.0.0.1:11434/v1") (js_lit "m")))
    (Ok (Some (mkAuth (Some (js_lit "sk-1")) None None))) (js_lit "r1")
    [(js_lit "PATH", Some (js_lit "/bin")); (js_lit "GH_TOKEN", Some (js_lit "t"))]
    (Ok [StdoutData (demo_result (demo_hash demo_patch)); ChildClose (Some 0) None])
    (λ _, Some (mkCandidate true (Z.of_nat (length patch)) patch)) [] true (Ok choice) false
    [(js_lit "PATH", Some (js_lit "/bin"))] (Ok [ChildClose (Some 0) None]).

Definition demo_run (patch : list Z) (choice : option bool) : list action :=
  @handleSandboxCommand ascii_case demo_hash false false (demo_world patch choice).

Example demo_runs :
  length (filter (λ a, is_export a = true) (demo_run demo_patch (Some true))) = 1%nat ∧
  no_export (demo_run demo_patch (Some false)) = true ∧
  no_export (demo_run (demo_patch ++ [0x0a]) (Some true)) = true.
Proof. vm_compute. done. Qed.

Lemma export_gated_witness :
  let l := demo_run demo_patch (Some true) in
  ∃ a, l !! 8%nat = Some a ∧ is_export a = true ∧
       @ExportGate ascii_case demo_hash (demo_world demo_patch (Some true)) (take 8 l) a.
Proof.
  cbv zeta. destruct (demo_run demo_patch (Some true) !! 8%nat) as [a|] eqn:E; [|vm_compute in E; discriminate E].
  assert (is_export a = true) as Ha.
  { assert (is_export <$> (demo_run demo_patch (Some true) !! 8%nat) = Some true) as Hx by (vm_compute; reflexivity).
    rewrite E in Hx. by injection Hx. }
  exists a. split; [done|]. split; [done|].
  exact (proj2 (proj2 (@export_gated ascii_case demo_hash false false _ _ _ (drop 9 (demo_run demo_patch (Some true)))
    (eq_sym (take_drop_middle _ _ _ E)) Ha))).
Defined.

(** ** One run at a time *)

(** The slot names the handler that runs. *)
Definition slots_ok (s : Slots) : Prop :=
  ∀ i, (∃ w, handlers s !! i = Some (w, Running)) ↔ sandboxAbort s = Some i.

Lemma slots_ok_update s i w p p' :
  slots_ok s → handlers s !! i = Some (w, p) → p ≠ Running → p' ≠ Running →
  slots_ok (mkSlots (sandboxAbort s) (<[i := (w, p')]> (handlers s))).
Proof.
  intros Hok Hi Hp Hp' j. unfold slots_ok in Hok. cbn. rewrite <- Hok. destruct (decide (i = j)) as [<-|Hne].
  - rewrite list_lookup_insert_eq by (by eapply lookup_lt_Some). split; [intros [w' [= _ E]]; congruence|].
    intros [w' E]. congruence.
  - by rewrite list_lookup_insert_ne.
Qed.

Lemma step_slots_ok s e : slots_ok s → slots_ok (sandboxStep s e).
Proof.
  intros Hok. unfold slots_ok in Hok. destruct e as [w|i|i]; cbn [sandboxStep].
  - intros j. cbn. rewrite <- Hok. split.
    + intros (w' & [E|[_ E]]%lookup_app_Some); [eauto|]. destruct (sandboxBegin (is_claimed s) w) as [?|[[? ?] ?]];
        apply list_lookup_singleton_Some in E as [_ E]; congruence.
    + intros (w' & E). exists w'. by apply lookup_app_l_Some.
  - destruct (handlers s !! i) as [[w p]|] eqn:Hi; [|done]. destruct p as [model| |]; [|done|done].
    destruct (sandboxAuthorised (is_claimed s) w model) as [a|plan] eqn:Ha; [by eapply slots_ok_update|].
    assert (sandboxAbort s = None) as Hfree.
    { unfold sandboxAuthorised, is_claimed in Ha. destruct (sandboxAbort s); [|done].
      rewrite bool_decide_eq_true_2 in Ha by done. by destruct (w_auth w). }
    intros j. cbn. destruct (decide (i = j)) as [<-|Hne].
    + rewrite list_lookup_insert_eq by (by eapply lookup_lt_Some). naive_solver.
    + rewrite list_lookup_insert_ne by done. rewrite (Hok j). split; congruence.
  - destruct (handlers s !! i) as [[w p]|] eqn:Hi; [|done]. destruct p; [done| |done].
    assert (sandboxAbort s = Some i) as Hmine by (apply Hok; eauto).
    intros j. cbn. destruct (decide (i = j)) as [<-|Hne].
    + rewrite list_lookup_insert_eq by (by eapply lookup_lt_Some). naive_solver.
    + rewrite list_lookup_insert_ne by done. rewrite (Hok j), Hmine. split; congruence.
Qed.

Lemma slots_ok_run steps : slots_ok (foldl sandboxStep (mkSlots None []) steps).
Proof.
  assert (slots_ok (mkSlots None [])) as H0.
  { intros i. cbn. rewrite lookup_nil. naive_solver. }
  revert H0. generalize (mkSlots None []). induction steps as [|e steps IH]; intros s Hs; [done|]. by apply IH, step_slots_ok.
Qed.

(** C24: One sandbox run at a time.  However handlers are started and their awaits
    interleave, the slot [sandboxAbort] names a handler exactly when that one is
    running: so at most one is, and the slot is free when none is. *)
Theorem sandbox_exclusive steps :
  let s := foldl sandboxStep (mkSlots None []) steps in
  (∀ i, sandboxAbort s = Some i ↔ ∃ w, handlers s !! i = Some (w, Running)) ∧
  (∀ i j w w', handlers s !! i = Some (w, Running) → handlers s !! j = Some (w', Running) → i = j) ∧
  ((∀ i w, handlers s !! i ≠ Some (w, Running)) → sandboxAbort s = None).
Proof.
  intros s. pose proof (slots_ok_run steps) as Hok. fold s in Hok. split_and!.
  - intros i. symmetry. apply Hok.
  - intros i j w w' Hi Hj. assert (sandboxAbort s = Some i) as E by (apply Hok; eauto). assert (sandboxAbort s = Some j) by (apply Hok; eauto). congruence.
  - intros Hnone. destruct (sandboxAbort s) as [i|] eqn:E; [|done]. apply Hok in E as [w Hw]. by apply Hnone in Hw.
Qed.

Lemma sandbox_exclusive_witness :
  let w := demo_world demo_patch None in
  let run := foldl sandboxStep (mkSlots None []) in
  sandboxAbort (run [HBegin w; HBegin w; HAuth 1; HAuth 0]) = Some 1%nat ∧ sandboxAbort (run [HBegin w; HAuth 0; HEnd 0]) = None.
Proof.
  cbv zeta. split.
  - apply (proj1 (sandbox_exclusive [HBegin (demo_world demo_patch None); HBegin (demo_world demo_patch None); HAuth 1; HAuth 0])).
    eexists. reflexivity.
  - apply (proj2 (proj2 (sandbox_exclusive [HBegin (demo_world demo_patch None); HAuth 0; HEnd 0]))).
    intros [|i] w E; vm_compute in E; discriminate E.
Defined.

(** ** The slot is released *)

Lemma begin_reports busy w b : sandboxBegin busy w = inl b → b ≠ SetAbort.
Proof. unfold sandboxBegin. intros E. repeat case_match; by simplify_eq. Qed.

Lemma authorised_reports busy w model b : sandboxAuthorised busy w model = inl b → b ≠ SetAbort.
Proof. unfold sandboxAuthorised. intros E. repeat case_match; by simplify_eq. Qed.

Section released.
Context `{CaseMap} (sha256_hex : list Z → jsstr) (w : World).
Hypothesis Hset : ∀ evs, w_run w = Ok evs ∨ w_export w = Ok evs → existsb (λ e, negb (running e)) evs = true.

Lemma outcome_returns run told k :
  run = w_run w ∨ run = w_export w → (∀ aborted o, (k aborted o).2 = true) → (withOutcome run told k).2 = true.
Proof.
  intros Hrun Hk. unfold withOutcome. destruct run as [evs|e]; [|done].
  destruct (settles_eventually false evs) as [o Ho]; [by apply Hset; destruct Hrun; auto|]. rewrite Ho.
  specialize (Hk (existsb is_abort evs) o). by destruct (k _ o).
Qed.

Lemma export_returns bin digest : (sandboxExport w bin digest).2 = true.
Proof.
  unfold sandboxExport. match goal with |- context [withOutcome ?r ?t ?k] => assert ((withOutcome r t k).2 = true) as Hf end.
  { apply outcome_returns; [by right|]. intros aborted o. by repeat case_match. }
  by destruct (withOutcome _ _ _).
Qed.

Lemma review_returns bin e : (sandboxReview sha256_hex w bin e).2 = true.
Proof.
  unfold sandboxReview. destruct (readCandidateForApproval _ _ _ _); [|done]. destruct (w_preview w); [|done]. cbn [negb].
  destruct (askTitle _ _); [|done]. destruct (w_choice w) as [approve|]; [|done].
  unfold sandboxDecide. destruct (w_abortedReview w); [done|]. destruct (negb _); [done|].
  pose proof (export_returns bin (ev e "diff_ref")) as Hx. by destruct (sandboxExport _ _ _).
Qed.

Lemma body_returns finding manifest model plan : (sandboxBody sha256_hex w finding manifest model plan).2 = true.
Proof.
  unfold sandboxBody. set (bin := resolveEngineBinary _).
  match goal with |- context [withOutcome ?r ?t ?k] => assert ((withOutcome r t k).2 = true) as Hf end.
  { apply outcome_returns; [by left|]. intros aborted o. destruct (aborted || _); [done|]. destruct (o_result o) as [e|]; [|done].
    destruct (status_is o _); [|done]. apply review_returns. }
  by destruct (withOutcome _ _ _).
Qed.
End released.

(** A run that claims the slot gives it back.  When the engine's processes
    settle, whatever else fails on the way (the candidate, the pager, the prompt,
    a failed conversion), the handler's last action is to clear the slot. *)
Theorem slot_released `{CaseMap} sha256_hex busy busyAfterAuth w :
  (∀ evs, w_run w = Ok evs ∨ w_export w = Ok evs → existsb (λ e, negb (running e)) evs = true) →
  let l := handleSandboxCommand sha256_hex busy busyAfterAuth w in
  SetAbort ∈ l → last l = Some ClearAbort ∧ ∃ mid, l = SetAbort :: mid ++ [ClearAbort].
Proof.
  intros Hset. cbv zeta. unfold handleSandboxCommand.
  destruct (sandboxBegin busy w) as [b|[[finding manifest] model]] eqn:Hb.
  { intros E%list_elem_of_singleton. by destruct (begin_reports _ _ _ Hb). }
  destruct (sandboxAuthorised busyAfterAuth w model) as [b|plan] eqn:Hp.
  { intros E%list_elem_of_singleton. by destruct (authorised_reports _ _ _ _ Hp). }
  intros _. unfold sandboxRun. pose proof (body_returns sha256_hex w Hset finding manifest model plan) as Hfin.
  destruct (sandboxBody _ _ _ _ _ _) as [acts fin]. cbn in Hfin. subst fin.
  split; [exact (last_snoc ClearAbort (SetAbort :: acts))|]. by exists acts.
Qed.

Lemma slot_released_witness :
  let l := demo_run demo_patch (Some true) in last l = Some ClearAbort ∧ ∃ mid, l = SetAbort :: mid ++ [ClearAbort].
Proof.
  apply (@slot_released ascii_case).
  - intros evs [[= <-]|[= <-]]; vm_compute; reflexivity.
  - apply head_Some_elem_of. vm_compute. reflexivity.
Defined.
