(* ===== verification/Truncate.v ===== *)
(** Truncation of tool output: [agent/src/harness/utils/truncate.ts].  Limits are
    integers, possibly negative; a runtime without [Buffer] is the parameter
    [runtimeBuffer = false]. *)
From S2P Require Import Prelude JsValue Utf8 Json Regex NodePath.
Open Scope Z_scope.

Definition DEFAULT_MAX_LINES : Z := 2000.
Definition DEFAULT_MAX_BYTES : Z := 50 * 1024.
Definition GREP_MAX_LINE_LENGTH : Z := 500.
Definition LF : Z := 0x0a.

Inductive Limit := ByLines | ByBytes.
#[export] Instance Limit_eq_dec : EqDecision Limit.
Proof. solve_decision. Defined.

Record TruncationResult := mkTruncation {
  tr_content : jsstr; tr_truncated : bool; tr_truncatedBy : option Limit;
  tr_totalLines : Z; tr_totalBytes : Z; tr_outputLines : Z; tr_outputBytes : Z;
  tr_lastLinePartial : bool; tr_firstLineExceedsLimit : bool;
  tr_maxLines : Z; tr_maxBytes : Z }.

Record TruncationOptions := mkTruncationOptions { to_maxLines : option Z; to_maxBytes : option Z }.
Definition no_options : TruncationOptions := mkTruncationOptions None None.

(** ** Sizes *)

(** [Buffer.byteLength(content, "utf8")] *)
Definition Buffer_byteLength (content : jsstr) : Z := Z.of_nat (length (utf8_encode content)).

(** [content.search(nonAsciiPattern)] *)
Fixpoint search_nonAscii (content : jsstr) : option nat :=
  match content with
  | [] => None
  | c :: content => if 0x7f <? c then Some O else S <$> search_nonAscii content
  end.

(** The loop of the fallback, over the code units from [i] on. *)
Fixpoint count_bytes (content : jsstr) : Z :=
  match content with
  | [] => 0
  | code :: rest =>
      if code <=? 0x7f then 1 + count_bytes rest
      else if code <=? 0x7ff then 2 + count_bytes rest
      else
        match is_high_surrogate code, rest with
        | true, next :: rest' =>
            if is_low_surrogate next then 4 + count_bytes rest' else 3 + count_bytes rest
        | _, _ => 3 + count_bytes rest
        end
  end.

Definition utf8ByteLength (runtimeBuffer : bool) (content : jsstr) : Z :=
  if runtimeBuffer then Buffer_byteLength content else
  match search_nonAscii content with
  | None => Z.of_nat (length content)
  | Some firstNonAscii => Z.of_nat firstNonAscii + count_bytes (drop firstNonAscii content)
  end.

Definition splitLinesForCounting (content : jsstr) : list jsstr :=
  if bool_decide (content = []) then [] else
  let lines := split_on LF content in
  if endsWith content [LF] then removelast lines else lines.

Fixpoint replaceUnpairedSurrogates (content : jsstr) : jsstr :=
  match content with
  | [] => []
  | code :: rest =>
      if is_high_surrogate code then
        match rest with
        | next :: rest' =>
            if is_low_surrogate next then code :: next :: replaceUnpairedSurrogates rest'
            else REPLACEMENT :: replaceUnpairedSurrogates rest
        | [] => [REPLACEMENT]
        end
      else if is_low_surrogate code then REPLACEMENT :: replaceUnpairedSurrogates rest
      else code :: replaceUnpairedSurrogates rest
  end.

(** [(bytes / unit).toFixed(1)]: the quotient by a power of two is exact, and ties
    go up. *)
Definition toFixed1 (bytes unit_ : Z) : jsstr :=
  let tenths := (2 * 10 * bytes + unit_) / (2 * unit_) in
  decimal (tenths / 10) ++ js_lit "." ++ decimal (tenths mod 10).

Definition formatSize (bytes : Z) : jsstr :=
  if bytes <? 1024 then decimal bytes ++ js_lit "B"
  else if bytes <? 1024 * 1024 then toFixed1 bytes 1024 ++ js_lit "KB"
  else toFixed1 bytes (1024 * 1024) ++ js_lit "MB".

(** ** Cutting one string from its end *)

(** The character that ends at [i]: where it starts, its bytes, and whether it is a
    surrogate without its partner. *)
Definition character_before (str : jsstr) (characterStart : nat) : nat * Z * bool :=
  let code := str !!! characterStart in
  if is_low_surrogate code && bool_decide (0 < characterStart)%nat then
    let previous := str !!! (characterStart - 1)%nat in
    if is_high_surrogate previous then ((characterStart - 1)%nat, 4, false) else (characterStart, 3, true)
  else if (0xd800 <=? code) && (code <=? 0xdfff) then (characterStart, 3, true)
  else (characterStart, if code <=? 0x7f then 1 else if code <=? 0x7ff then 2 else 3, false).

(** The loop; [i] decreases, so the length is enough fuel. *)
Fixpoint cut_loop (fuel : nat) (str : jsstr) (maxBytes : Z) (i : nat) (outputBytes : Z)
    (start : nat) (needsReplacement : bool) : nat * bool :=
  match fuel, i with
  | S fuel, S characterStart =>
      let '(characterStart, characterBytes, unpairedSurrogate) := character_before str characterStart in
      if maxBytes <? outputBytes + characterBytes then (start, needsReplacement) else
      cut_loop fuel str maxBytes characterStart (outputBytes + characterBytes) characterStart
        (needsReplacement || unpairedSurrogate)
  | _, _ => (start, needsReplacement)
  end.

Definition truncateStringToBytesFromEnd (str : jsstr) (maxBytes : Z) : jsstr :=
  if maxBytes <=? 0 then [] else
  let '(start, needsReplacement) := cut_loop (length str) str maxBytes (length str) 0 (length str) false in
  let output := drop start str in
  if needsReplacement then replaceUnpairedSurrogates output else output.

(** [line.slice(0, maxChars)], counted from the end when [maxChars] is negative. *)
Definition slice_to {A} (l : list A) (end_ : Z) : list A :=
  take (Z.to_nat (if end_ <? 0 then Z.of_nat (length l) + end_ else end_)) l.

Definition truncateLine (line : jsstr) (maxChars : Z) : jsstr * bool :=
  if Z.of_nat (length line) <=? maxChars then (line, false)
  else (slice_to line maxChars ++ js_lit "... [truncated]", true).

(** ** Whole lines *)

Section truncate.
Context (runtimeBuffer : bool).
Notation bytes := (utf8ByteLength runtimeBuffer).

Definition maxLines_of (options : TruncationOptions) : Z := default DEFAULT_MAX_LINES (to_maxLines options).
Definition maxBytes_of (options : TruncationOptions) : Z := default DEFAULT_MAX_BYTES (to_maxBytes options).

Definition untruncated (content : jsstr) (totalLines totalBytes maxLines maxBytes : Z) : TruncationResult :=
  mkTruncation content false None totalLines totalBytes totalLines totalBytes false false maxLines maxBytes.

Fixpoint head_loop (lines : list jsstr) (i maxLines maxBytes : Z) (outputLinesArr : list jsstr)
    (outputBytesCount : Z) : list jsstr * Z * Limit :=
  match lines with
  | [] => (outputLinesArr, outputBytesCount, ByLines)
  | line :: lines =>
      if negb (i <? maxLines) then (outputLinesArr, outputBytesCount, ByLines) else
      let lineBytes := bytes line + (if 0 <? i then 1 else 0) in
      if maxBytes <? outputBytesCount + lineBytes then (outputLinesArr, outputBytesCount, ByBytes) else
      head_loop lines (i + 1) maxLines maxBytes (outputLinesArr ++ [line]) (outputBytesCount + lineBytes)
  end.

Inductive TruncateError := TypeError.

(** With a negative limit and empty content there is no first line to measure. *)
Definition truncateHead (content : jsstr) (options : TruncationOptions) : result TruncateError TruncationResult :=
  let maxLines := maxLines_of options in
  let maxBytes := maxBytes_of options in
  let totalBytes := bytes content in
  let lines := splitLinesForCounting content in
  let totalLines := Z.of_nat (length lines) in
  if (totalLines <=? maxLines) && (totalBytes <=? maxBytes)
  then Ok (untruncated content totalLines totalBytes maxLines maxBytes) else
  match head lines with
  | None => Err TypeError
  | Some line0 =>
      if maxBytes <? bytes line0
      then Ok (mkTruncation [] true (Some ByBytes) totalLines totalBytes 0 0 false true maxLines maxBytes) else
      let '(outputLinesArr, outputBytesCount, truncatedBy) := head_loop lines 0 maxLines maxBytes [] 0 in
      let truncatedBy :=
        if (maxLines <=? Z.of_nat (length outputLinesArr)) && (outputBytesCount <=? maxBytes)
        then ByLines else truncatedBy in
      let outputContent := join_on [LF] outputLinesArr in
      Ok (mkTruncation outputContent true (Some truncatedBy) totalLines totalBytes
            (Z.of_nat (length outputLinesArr)) (bytes outputContent) false false maxLines maxBytes)
  end.

(** The loop of [truncateTail], over the lines from the last one. *)
Fixpoint tail_loop (rlines : list jsstr) (maxLines maxBytes : Z) (outputLinesArr : list jsstr)
    (outputBytesCount : Z) : list jsstr * Z * Limit * bool :=
  match rlines with
  | [] => (outputLinesArr, outputBytesCount, ByLines, false)
  | line :: rlines =>
      if negb (Z.of_nat (length outputLinesArr) <? maxLines)
      then (outputLinesArr, outputBytesCount, ByLines, false) else
      let lineBytes := bytes line + (if 0 <? Z.of_nat (length outputLinesArr) then 1 else 0) in
      if maxBytes <? outputBytesCount + lineBytes then
        match outputLinesArr with
        | [] =>
            let truncatedLine := truncateStringToBytesFromEnd line maxBytes in
            ([truncatedLine], bytes truncatedLine, ByBytes, true)
        | _ => (outputLinesArr, outputBytesCount, ByBytes, false)
        end
      else tail_loop rlines maxLines maxBytes (line :: outputLinesArr) (outputBytesCount + lineBytes)
  end.

Definition truncateTail (content : jsstr) (options : TruncationOptions) : TruncationResult :=
  let maxLines := maxLines_of options in
  let maxBytes := maxBytes_of options in
  let totalBytes := bytes content in
  let lines := splitLinesForCounting content in
  let totalLines := Z.of_nat (length lines) in
  if (totalLines <=? maxLines) && (totalBytes <=? maxBytes)
  then untruncated content totalLines totalBytes maxLines maxBytes else
  let '(outputLinesArr, outputBytesCount, truncatedBy, lastLinePartial) :=
    tail_loop (reverse lines) maxLines maxBytes [] 0 in
  let truncatedBy :=
    if (maxLines <=? Z.of_nat (length outputLinesArr)) && (outputBytesCount <=? maxBytes)
    then ByLines else truncatedBy in
  let outputContent := join_on [LF] outputLinesArr in
  mkTruncation outputContent true (Some truncatedBy) totalLines totalBytes
    (Z.of_nat (length outputLinesArr)) (bytes outputContent) lastLinePartial false maxLines maxBytes.

End truncate.
