(* ===== verification/TruncateSpec.v ===== *)
(** Truncation keeps as many whole lines as fit, and cuts between characters. *)
From S2P Require Import Prelude JsValue Utf8 Json Regex NodePath Truncate.
Open Scope Z_scope.

(** ** Bytes *)

(** Code units of a string. *)
Definition unit_ok (u : Z) : Prop := 0 ≤ u < 0x10000.

Lemma text_ok_Forall s : text_ok s = true ↔ Forall unit_ok s.
Proof.
  induction s as [|u s IH]; [done|]. unfold text_ok in *. cbn [forallb].
  rewrite !andb_true_iff, Z.leb_le, Z.ltb_lt, IH, Forall_cons. unfold unit_ok. tauto.
Qed.

(** A unit and the string after it are a surrogate pair's two halves. *)
Definition paired (u : Z) (s : jsstr) : bool :=
  is_high_surrogate u && match s with w :: _ => is_low_surrogate w | [] => false end.

(** Induction on the characters of a string, from the left. *)
Lemma chars_ind (P : jsstr → Prop) :
  P [] →
  (∀ u w s, is_high_surrogate u = true → is_low_surrogate w = true → P s → P (u :: w :: s)) →
  (∀ u s, paired u s = false → P s → P (u :: s)) →
  ∀ s, P s.
Proof.
  intros H0 H2 H1 s. induction s as [s IH] using (induction_ltof1 _ length). unfold ltof in IH.
  destruct s as [|u s]; [done|]. destruct (paired u s) eqn:E.
  - unfold paired in E. apply andb_true_iff in E as [Hu Hw]. destruct s as [|w s]; [done|].
    apply H2; [done..|]. apply IH. cbn. lia.
  - apply H1; [done|]. apply IH. cbn. lia.
Qed.

(** The scalar of a unit that is not half of a pair. *)
Definition unit_scalar (u : Z) : Z := if is_high_surrogate u || is_low_surrogate u then REPLACEMENT else u.

Lemma scalars_pair u w s :
  is_high_surrogate u = true → is_low_surrogate w = true →
  scalars (u :: w :: s) = 0x10000 + (u - 0xd800) * 0x400 + (w - 0xdc00) :: scalars s.
Proof. intros Hu Hw. cbn [scalars]. by rewrite Hu, Hw. Qed.

Lemma scalars_single u s : paired u s = false → scalars (u :: s) = unit_scalar u :: scalars s.
Proof.
  unfold paired, unit_scalar. cbn [scalars]. destruct (is_high_surrogate u); cbn [andb orb].
  - destruct s as [|w s]; [done|]. by intros ->.
  - by destruct (is_low_surrogate u).
Qed.

(** A string splits between characters where no pair is separated. *)
Definition boundary (a b : jsstr) : Prop :=
  ∀ a' u, a = a' ++ [u] → paired u b = false.

Lemma scalars_cut a b : boundary a b → scalars (a ++ b) = scalars a ++ scalars b.
Proof.
  revert b. induction a as [|u w s Hu Hw IH|u s Hp IH] using chars_ind; intros b Hb; [done| |].
  - cbn [app]. rewrite !scalars_pair by done. cbn [app]. f_equal. apply IH.
    intros a' x ->. by apply (Hb (u :: w :: a')).
  - cbn [app]. assert (paired u (s ++ b) = false) as Hp'.
    { destruct s as [|w s]; [|done]. by apply (Hb []). }
    rewrite !scalars_single by done. cbn [app]. f_equal. apply IH. intros a' x ->. by apply (Hb (u :: a')).
Qed.

Lemma encode_cut a b : boundary a b → utf8_encode (a ++ b) = utf8_encode a ++ utf8_encode b.
Proof. intros H. unfold utf8_encode. by rewrite scalars_cut, bind_app. Qed.

(** A line feed is never half of a pair. *)
Lemma boundary_head a u b : is_low_surrogate u = false → boundary a (u :: b).
Proof. intros H a' x _. unfold paired. rewrite H. apply andb_false_r. Qed.

Lemma encode_newline a b : utf8_encode (a ++ LF :: b) = utf8_encode a ++ LF :: utf8_encode b.
Proof. by rewrite encode_cut by by apply boundary_head. Qed.

Lemma length_utf8_unit u :
  unit_ok u → Z.of_nat (length (utf8_scalar (unit_scalar u))) = if u <=? 0x7f then 1 else if u <=? 0x7ff then 2 else 3.
Proof.
  unfold unit_ok, utf8_scalar, unit_scalar, is_high_surrogate, is_low_surrogate, REPLACEMENT. intros H.
  repeat first [progress cbn [andb orb length]|
    match goal with |- context [?a <=? ?b] => destruct (Z.leb_spec a b); try lia
                  | |- context [?a <? ?b] => destruct (Z.ltb_spec a b); try lia end].
  all: done.
Qed.

Lemma length_utf8_pair u w :
  is_high_surrogate u = true → is_low_surrogate w = true →
  length (utf8_scalar (0x10000 + (u - 0xd800) * 0x400 + (w - 0xdc00))) = 4%nat.
Proof.
  unfold is_high_surrogate, is_low_surrogate. rewrite !andb_true_iff, !Z.leb_le. intros Hu Hw.
  unfold utf8_scalar. range_cases. done.
Qed.

Lemma count_bytes_spec s : text_ok s = true → count_bytes s = Buffer_byteLength s.
Proof.
  rewrite text_ok_Forall. unfold Buffer_byteLength, utf8_encode.
  induction s as [|u w s Hu Hw IH|u s Hp IH] using chars_ind; intros Hok; [done| |].
  - apply Forall_cons in Hok as [_ Hok]. apply Forall_cons in Hok as [_ Hok].
    rewrite scalars_pair by done. rewrite bind_cons, length_app, length_utf8_pair, Nat2Z.inj_add, <- IH by done.
    cbn [count_bytes]. rewrite Hu, Hw. unfold is_high_surrogate in Hu. zb. range_cases.
  - apply Forall_cons in Hok as [Hu Hok].
    rewrite scalars_single by done. rewrite bind_cons, length_app, Nat2Z.inj_add, <- IH, length_utf8_unit by done.
    cbn [count_bytes]. unfold paired in Hp. range_cases.
    destruct (is_high_surrogate u); [|done]. destruct s as [|w s]; [done|]. cbn [andb] in Hp. by rewrite Hp.
Qed.

Lemma search_None s : search_nonAscii s = None → count_bytes s = Z.of_nat (length s).
Proof.
  induction s as [|c s IH]; [done|]. cbn [search_nonAscii count_bytes length].
  destruct (Z.ltb_spec 0x7f c); [done|]. intros E%fmap_None. rewrite (IH E). range_cases.
Qed.

Lemma search_Some s n : search_nonAscii s = Some n → count_bytes s = Z.of_nat n + count_bytes (drop n s).
Proof.
  revert n. induction s as [|c s IH]; intros n; [done|]. cbn [search_nonAscii].
  destruct (Z.ltb_spec 0x7f c); [by intros [= <-]|]. intros (m & Hm & ->)%fmap_Some.
  cbn [count_bytes drop]. rewrite (IH _ Hm). range_cases.
Qed.

(** The fallback counts what [Buffer.byteLength] counts. *)
Lemma utf8ByteLength_spec b s : text_ok s = true → utf8ByteLength b s = Buffer_byteLength s.
Proof.
  intros Hs. unfold utf8ByteLength. destruct b; [done|].
  destruct (search_nonAscii s) as [n|] eqn:E.
  - rewrite <- (search_Some _ _ E). by apply count_bytes_spec.
  - rewrite <- (search_None _ E). by apply count_bytes_spec.
Qed.

(** ** Lines *)

(** The bytes of lines joined by line feeds. *)
Definition size (lines : list jsstr) : Z := Buffer_byteLength (join_on [LF] lines).

Lemma byteLength_newline a b : Buffer_byteLength (a ++ LF :: b) = Buffer_byteLength a + 1 + Buffer_byteLength b.
Proof. unfold Buffer_byteLength. rewrite encode_newline, length_app. cbn [length]. lia. Qed.

Lemma byteLength_nonneg s : 0 ≤ Buffer_byteLength s.
Proof. unfold Buffer_byteLength. lia. Qed.

Lemma size_app a b : a ≠ [] → b ≠ [] → size (a ++ b) = size a + 1 + size b.
Proof. intros Ha Hb. unfold size. rewrite join_on_app by done. apply byteLength_newline. Qed.

Lemma size_nonneg a : 0 ≤ size a.
Proof. apply byteLength_nonneg. Qed.

Lemma size_nil : size [] = 0.
Proof. done. Qed.

Lemma size_one l : size [l] = Buffer_byteLength l.
Proof. done. Qed.

Lemma size_prefix a b : size a ≤ size (a ++ b).
Proof.
  destruct a as [|x a]; [apply size_nonneg|]. destruct b as [|y b]; [by rewrite app_nil_r|].
  rewrite size_app by done. pose proof (size_nonneg (y :: b)). lia.
Qed.

Lemma size_suffix a b : size b ≤ size (a ++ b).
Proof.
  destruct b as [|y b]; [apply size_nonneg|]. destruct a as [|x a]; [done|].
  rewrite size_app by done. pose proof (size_nonneg (x :: a)). lia.
Qed.

(** The separator that precedes a line which is not the first. *)
Definition sep (out : list jsstr) : Z := if 0 <? Z.of_nat (length out) then 1 else 0.

Lemma size_snoc out line : size (out ++ [line]) = size out + (Buffer_byteLength line + sep out).
Proof.
  destruct out as [|x out]; [change (size [line] = 0 + (size [line] + 0)); lia|].
  rewrite size_app by done. rewrite size_one. unfold sep. cbn [length].
  destruct (Z.ltb_spec 0 (Z.of_nat (S (length out)))); lia.
Qed.

Lemma size_cons line out : size (line :: out) = size out + (Buffer_byteLength line + sep out).
Proof.
  destruct out as [|x out]; [change (size [line] = 0 + (size [line] + 0)); lia|].
  change (line :: x :: out) with ([line] ++ x :: out). rewrite size_app by done. rewrite size_one. unfold sep. cbn [length].
  destruct (Z.ltb_spec 0 (Z.of_nat (S (length out)))); lia.
Qed.

(** ** The loops *)

(** [n] leading lines are within both limits, and no more are. *)
Definition fits (maxLines maxBytes : Z) (lines : list jsstr) : Prop :=
  Z.of_nat (length lines) ≤ maxLines ∧ size lines ≤ maxBytes.

#[export] Instance fits_dec maxLines maxBytes lines : Decision (fits maxLines maxBytes lines).
Proof. unfold fits. apply _. Defined.

Definition longest_head (maxLines maxBytes : Z) (lines kept : list jsstr) : Prop :=
  kept `prefix_of` lines ∧ fits maxLines maxBytes kept ∧
  ∀ other, other `prefix_of` lines → fits maxLines maxBytes other → (length other ≤ length kept)%nat.

Definition longest_tail (maxLines maxBytes : Z) (lines kept : list jsstr) : Prop :=
  kept `suffix_of` lines ∧ fits maxLines maxBytes kept ∧
  ∀ other, other `suffix_of` lines → fits maxLines maxBytes other → (length other ≤ length kept)%nat.

(** A prefix at which a loop stops: nothing is left, the lines are used up, or the
    next line is too much. *)
Lemma longest_head_stop maxLines maxBytes lines kept rest :
  lines = kept ++ rest → fits maxLines maxBytes kept →
  (rest = [] ∨ maxLines ≤ Z.of_nat (length kept) ∨ ∃ line, head rest = Some line ∧ maxBytes < size (kept ++ [line])) →
  longest_head maxLines maxBytes lines kept.
Proof.
  intros -> Hfit Hstop. split_and!; [by apply prefix_app_r|done|]. intros other [more Ho] [Hl Hb].
  destruct Hstop as [-> | [Hm | (line & Hline & Hover)]].
  - rewrite app_nil_r in Ho. subst. rewrite length_app. lia.
  - lia.
  - destruct rest as [|? rest]; simplify_eq/=. destruct (decide (length other ≤ length kept)%nat); [done|].
    apply (f_equal (take (length other))) in Ho. rewrite take_app_length in Ho. rewrite take_app_ge in Ho by lia.
    destruct (length other - length kept)%nat as [|k] eqn:E; [lia|]. rewrite <- Ho in Hb.
    cbn [take] in Hb. rewrite (cons_middle _ kept), app_assoc in Hb.
    pose proof (size_prefix (kept ++ [line]) (take k rest)). lia.
Qed.

Lemma longest_tail_stop maxLines maxBytes lines rest kept :
  lines = rest ++ kept → fits maxLines maxBytes kept →
  (rest = [] ∨ maxLines ≤ Z.of_nat (length kept) ∨ ∃ line, last rest = Some line ∧ maxBytes < size (line :: kept)) →
  longest_tail maxLines maxBytes lines kept.
Proof.
  intros -> Hfit Hstop. split_and!; [by apply suffix_app_r|done|]. intros other [more Ho] [Hl Hb].
  destruct Hstop as [-> | [Hm | (line & Hline & Hover)]].
  - cbn in Ho. subst. rewrite length_app. lia.
  - lia.
  - apply last_Some in Hline as [rest' ->]. destruct (decide (length other ≤ length kept)%nat); [done|].
    rewrite <- app_assoc in Ho. cbn [app] in Ho.
    assert (∃ k, other = k ++ line :: kept) as [k ->].
    { destruct (app_eq_inv _ _ _ _ Ho) as [(k & Hk & Hk')|(k & Hk & Hk')]; [by exists k|].
      exists []. destruct k as [|y k]; [done|]. apply (f_equal length) in Hk'.
      rewrite length_app in Hk'. cbn in Hk'. lia. }
    pose proof (size_suffix k (line :: kept)). lia.
Qed.

Lemma head_loop_spec lines out maxLines maxBytes :
  fits maxLines maxBytes out →
  let '(kept, count, by_) := head_loop true lines (Z.of_nat (length out)) maxLines maxBytes out (size out) in
  longest_head maxLines maxBytes (out ++ lines) kept ∧ count = size kept ∧
  (by_ = ByBytes ↔ kept ≠ out ++ lines ∧ Z.of_nat (length kept) < maxLines).
Proof.
  revert out. induction lines as [|line lines IH]; intros out Hfit; cbn [head_loop].
  { rewrite app_nil_r. split_and!; [apply (longest_head_stop _ _ _ _ []); [by rewrite app_nil_r|done|by left]|done|naive_solver]. }
  destruct (Z.ltb_spec (Z.of_nat (length out)) maxLines); cbn [negb].
  2:{ split_and!; [eapply longest_head_stop; [done|done|by right; left]|done|]. split; [done|lia]. }
  change (utf8ByteLength true line + _) with (Buffer_byteLength line + sep out). rewrite <- size_snoc.
  destruct (Z.ltb_spec maxBytes (size (out ++ [line]))).
  { split_and!; [eapply longest_head_stop; [done|done|right; right; by exists line]|done|].
    split; [|done]. intros _. split; [|done]. rewrite <- (app_nil_r out) at 1. by intros ?%app_inv_head. }
  rewrite (cons_middle line out lines), app_assoc. specialize (IH (out ++ [line])).
  rewrite length_app, Nat2Z.inj_add in IH. apply IH. unfold fits. rewrite length_app. cbn. lia.
Qed.

Lemma tail_loop_spec rlines out maxLines maxBytes :
  fits maxLines maxBytes out →
  let '(kept, count, by_, partial) := tail_loop true rlines maxLines maxBytes out (size out) in
  (partial = false → longest_tail maxLines maxBytes (reverse rlines ++ out) kept ∧
    (by_ = ByBytes ↔ kept ≠ reverse rlines ++ out ∧ Z.of_nat (length kept) < maxLines)) ∧
  (partial = true ↔ out = [] ∧ 0 < maxLines ∧ ∃ line, head rlines = Some line ∧ maxBytes < Buffer_byteLength line) ∧
  (partial = true → ∀ line, head rlines = Some line →
    kept = [truncateStringToBytesFromEnd line maxBytes] ∧ by_ = ByBytes) ∧
  count = size kept.
Proof.
  revert out. induction rlines as [|line rlines IH]; intros out Hfit; cbn [tail_loop].
  { split_and!; [|naive_solver|done|done]. intros _. split; [|naive_solver].
    apply (longest_tail_stop _ _ _ []); [done|done|by left]. }
  destruct (Z.ltb_spec (Z.of_nat (length out)) maxLines); cbn [negb].
  2:{ split_and!; [|split; [done|intros (-> & ? & _); cbn in *; lia]|done|done]. intros _. split; [|split; [done|lia]].
      eapply longest_tail_stop; [done|done|by right; left]. }
  change (utf8ByteLength true line + _) with (Buffer_byteLength line + sep out). rewrite <- size_cons.
  destruct (Z.ltb_spec maxBytes (size (line :: out))).
  - destruct out as [|x out].
    + split_and!; [done|naive_solver|intros _ ? [= <-]; done|done].
    + split_and!; [|naive_solver|done|done]. intros _. split.
      * eapply longest_tail_stop; [done|done|]. right; right. exists line. rewrite reverse_cons, last_snoc. done.
      * split; [|done]. intros _. split; [|done]. rewrite reverse_cons. intros E.
        apply (f_equal length) in E. rewrite !length_app in E. cbn in E. lia.
  - specialize (IH (line :: out)). destruct (tail_loop true rlines _ _ _ _) as [[[kept count] by_] partial].
    destruct IH as (H1 & H2 & H3 & H4); [unfold fits; cbn [length]; lia|]. rewrite reverse_cons, <- app_assoc.
    destruct partial; [by destruct (proj1 H2 eq_refl)|]. split_and!; [done| |done|done].
    split; [done|]. intros (-> & _ & l & [= <-] & Hl). rewrite size_one in *. lia.
Qed.

(** ** Cutting a line *)

(** [i] is between two characters of [str]. *)
Definition cut (str : jsstr) (i : nat) : Prop := boundary (take i str) (drop i str).

(** No surrogate is without its partner. *)
Definition well_formed (s : jsstr) : Prop := scalars s ≫= utf16_scalar = s.
#[export] Instance well_formed_dec s : Decision (well_formed s).
Proof. unfold well_formed. apply _. Defined.

Lemma cut_0 str : cut str 0.
Proof. intros [|??] u H; cbn in H; done. Qed.

Lemma cut_S str i u : str !! i = Some u → cut str (S i) ↔ paired u (drop (S i) str) = false.
Proof.
  intros Hu. unfold cut, boundary. rewrite (take_S_r _ _ _ Hu). split; [by intros H; eapply H|].
  intros H a' x [_ <-]%app_inj_tail. done.
Qed.

Lemma cut_length str : cut str (length str).
Proof.
  intros a' u _. unfold paired. rewrite drop_all. apply andb_false_r.
Qed.

Lemma scalars_at str i : cut str i → scalars str = scalars (take i str) ++ scalars (drop i str).
Proof. intros H. by rewrite <- scalars_cut, take_drop. Qed.

Lemma well_formed_single u s : paired u s = false → unit_scalar u = u → unit_ok u → well_formed s → well_formed (u :: s).
Proof.
  intros Hp Hu Hok Hs. unfold well_formed. rewrite scalars_single, Hu, bind_cons by done. rewrite Hs.
  unfold utf16_scalar, unit_ok in *. range_cases. done.
Qed.

Lemma utf16_pair u w :
  is_high_surrogate u = true → is_low_surrogate w = true →
  utf16_scalar (0x10000 + (u - 0xd800) * 0x400 + (w - 0xdc00)) = [u; w].
Proof.
  unfold is_high_surrogate, is_low_surrogate. rewrite !andb_true_iff, !Z.leb_le. intros Hu Hw.
  unfold utf16_scalar. range_cases. repeat f_equal; Z.div_mod_to_equations; lia.
Qed.

Lemma well_formed_pair u w s :
  is_high_surrogate u = true → is_low_surrogate w = true → well_formed s → well_formed (u :: w :: s).
Proof. intros Hu Hw Hs. unfold well_formed. rewrite scalars_pair, bind_cons, utf16_pair by done. by rewrite Hs. Qed.

(** A low surrogate is not a high one. *)
Lemma low_not_high w : is_low_surrogate w = true → is_high_surrogate w = false.
Proof. unfold is_low_surrogate, is_high_surrogate. intros H. zb. range_cases; done. Qed.

(** The character before a cut: it starts at a cut, and its size is the one counted. *)
Lemma character_before_spec str c :
  Forall unit_ok str → (c < length str)%nat → cut str (S c) →
  let '(start, characterBytes, unpaired) := character_before str c in
  (start ≤ c)%nat ∧ cut str start ∧
  ∃ x, scalars (drop start str) = x :: scalars (drop (S c) str) ∧
    characterBytes = Z.of_nat (length (utf8_scalar x)) ∧
    (unpaired = false → well_formed (drop (S c) str) → well_formed (drop start str)).
Proof.
  intros Hok Hc Hcut. destruct (lookup_lt_is_Some_2 str c Hc) as [u Hu].
  pose proof (proj1 (Forall_lookup _ _) Hok _ _ Hu) as Hu_ok.
  pose proof (drop_S _ _ _ Hu) as Hd. rewrite (cut_S _ _ _ Hu) in Hcut. unfold character_before.
  rewrite (list_lookup_total_correct _ _ _ Hu).
  destruct (is_low_surrogate u) eqn:Hlow; cbn [andb].
  - assert (unit_scalar u = REPLACEMENT) as Hr by (unfold unit_scalar; by rewrite Hlow, orb_true_r).
    assert (cut str c → (c ≤ c)%nat ∧ cut str c ∧
      ∃ x, scalars (drop c str) = x :: scalars (drop (S c) str) ∧ 3 = Z.of_nat (length (utf8_scalar x)) ∧
        (true = false → well_formed (drop (S c) str) → well_formed (drop c str))) as Hlone.
    { intros Hcc. split_and!; [done|done|]. exists REPLACEMENT. by rewrite Hd, scalars_single, Hr. }
    destruct c as [|c]; cbn [Nat.ltb bool_decide].
    + rewrite bool_decide_false by lia. rewrite (proj2 (andb_true_iff _ _)) by (unfold is_low_surrogate in Hlow; zb; lia).
      apply Hlone, cut_0.
    + rewrite bool_decide_true by lia. cbn [Nat.sub]. rewrite Nat.sub_0_r.
      destruct (lookup_lt_is_Some_2 str c) as [v Hv]; [lia|]. rewrite (list_lookup_total_correct _ _ _ Hv).
      destruct (is_high_surrogate v) eqn:Hhigh.
      * split_and!; [lia| |].
        { destruct c as [|c']; [apply cut_0|]. destruct (lookup_lt_is_Some_2 str c') as [t Ht]; [lia|].
          apply (cut_S _ _ _ Ht). rewrite (drop_S _ _ _ Hv). unfold paired.
          destruct (is_low_surrogate v) eqn:E; [|apply andb_false_r]. apply low_not_high in E. congruence. }
        eexists. rewrite (drop_S _ _ _ Hv), Hd, scalars_pair by done. split_and!; [done| |].
        { by rewrite length_utf8_pair. }
        intros _ Hw. by apply well_formed_pair.
      * apply Hlone, (cut_S _ _ _ Hv). unfold paired. by rewrite Hhigh.
  - assert (cut str c) as Hcc.
    { destruct c as [|c']; [apply cut_0|]. destruct (lookup_lt_is_Some_2 str c') as [t Ht]; [lia|].
      apply (cut_S _ _ _ Ht). rewrite Hd. unfold paired. rewrite Hlow. apply andb_false_r. }
    destruct ((0xd800 <=? u) && (u <=? 0xdfff)) eqn:E.
    + assert (is_high_surrogate u = true) as Hh by (unfold is_low_surrogate, is_high_surrogate in *; zb; lia).
      split_and!; [done|done|]. exists REPLACEMENT. rewrite Hd, scalars_single by done.
      unfold unit_scalar. rewrite Hh. done.
    + assert (is_high_surrogate u = false) as Hh by (unfold is_low_surrogate, is_high_surrogate in *; zb; lia).
      assert (unit_scalar u = u) as Hr by (unfold unit_scalar; by rewrite Hh, Hlow).
      split_and!; [done|done|]. exists u. rewrite Hd, scalars_single, Hr by done. split_and!; [done| |].
      * rewrite <- (length_utf8_unit u Hu_ok), Hr. done.
      * intros _. by apply well_formed_single.
Qed.

(** The loop stops at a cut whose suffix fits, at the start or before a character
    that does not fit. *)
Lemma cut_loop_spec fuel str maxBytes i needs :
  Forall unit_ok str → (i ≤ fuel)%nat → (i ≤ length str)%nat → cut str i →
  Buffer_byteLength (drop i str) ≤ maxBytes → (needs = false → well_formed (drop i str)) →
  let '(start, needs') := cut_loop fuel str maxBytes i (Buffer_byteLength (drop i str)) i needs in
  cut str start ∧ Buffer_byteLength (drop start str) ≤ maxBytes ∧
  (needs' = false → well_formed (drop start str)) ∧
  (start = O ∨ ∃ pre x, scalars (take start str) = pre ++ [x] ∧
    maxBytes < Z.of_nat (length (utf8_scalar x)) + Buffer_byteLength (drop start str)).
Proof.
  revert i needs. induction fuel as [|fuel IH]; intros i needs Hok Hf Hl Hcut Hb Hw; cbn [cut_loop].
  { split_and!; [done..|left; lia]. }
  destruct i as [|c]; [split_and!; [done..|by left]|].
  pose proof (character_before_spec str c Hok ltac:(lia) Hcut) as Hchar.
  destruct (character_before str c) as [[start n] unpaired]. destruct Hchar as (Hle & Hcut' & x & Hx & -> & Hwf).
  assert (Buffer_byteLength (drop start str) = Buffer_byteLength (drop (S c) str) + Z.of_nat (length (utf8_scalar x))) as Hsize.
  { unfold Buffer_byteLength, utf8_encode. rewrite Hx, bind_cons, length_app. lia. }
  rewrite <- Hsize. destruct (Z.ltb_spec maxBytes (Buffer_byteLength (drop start str))).
  - split_and!; [done..|right]. pose proof (scalars_at _ _ Hcut) as H1. rewrite (scalars_at _ _ Hcut'), Hx in H1.
    exists (scalars (take start str)), x. split; [|lia].
    apply (app_inv_tail (scalars (drop (S c) str))). rewrite <- H1, <- app_assoc. done.
  - apply IH; [done|lia|lia|done|lia|]. intros [-> ->]%orb_false_iff. auto.
Qed.

Lemma replace_scalars s : scalars (replaceUnpairedSurrogates s) = scalars s.
Proof.
  assert (∀ t, scalars (REPLACEMENT :: t) = REPLACEMENT :: scalars t) as Hrep by done.
  induction s as [|u w s Hu Hw IH|u s Hp IH] using chars_ind; [done| |].
  - cbn [replaceUnpairedSurrogates]. rewrite Hu, Hw. by rewrite !scalars_pair, IH.
  - rewrite scalars_single by done. unfold paired in Hp. unfold unit_scalar. cbn [replaceUnpairedSurrogates].
    destruct (is_high_surrogate u) eqn:Hu; cbn [andb orb] in *.
    + destruct s as [|w s]; [done|]. rewrite Hp. by rewrite Hrep, IH.
    + destruct (is_low_surrogate u) eqn:Hlow; [by rewrite Hrep, IH|].
      cbn [scalars]. by rewrite Hu, Hlow, IH.
Qed.

Lemma replace_well_formed s : Forall unit_ok s → well_formed (replaceUnpairedSurrogates s).
Proof.
  unfold well_formed. rewrite replace_scalars.
  induction s as [|u w s Hu Hw IH|u s Hp IH] using chars_ind; intros Hok; [done| |].
  - do 2 apply Forall_cons in Hok as [_ Hok]. rewrite scalars_pair, bind_cons, utf16_pair, IH by done.
    cbn [replaceUnpairedSurrogates]. by rewrite Hu, Hw.
  - apply Forall_cons in Hok as [Hok' Hok]. rewrite scalars_single, bind_cons, IH by done.
    unfold paired, unit_scalar, unit_ok in *. cbn [replaceUnpairedSurrogates].
    destruct (is_high_surrogate u) eqn:Hu; cbn [andb orb] in *.
    + destruct s as [|w s]; [done|]. by rewrite Hp.
    + destruct (is_low_surrogate u) eqn:Hlow; [done|]. unfold utf16_scalar. range_cases. done.
Qed.

(** What is kept of a line that is too long: [out] is its longest end of whole
    characters within the limit, as bytes, with no half of a pair in it. *)
Definition longest_end (maxBytes : Z) (line out : jsstr) : Prop :=
  well_formed out ∧ Buffer_byteLength out ≤ maxBytes ∧
  ∃ pre, scalars line = pre ++ scalars out ∧
    (pre = [] ∨ ∃ pre' x, pre = pre' ++ [x] ∧ maxBytes < Z.of_nat (length (utf8_scalar x)) + Buffer_byteLength out).

Lemma length_utf8_scalar_pos x : (0 < length (utf8_scalar x))%nat.
Proof. unfold utf8_scalar. repeat case_match; cbn; lia. Qed.

Lemma truncateString_spec line maxBytes :
  text_ok line = true → 0 ≤ maxBytes → longest_end maxBytes line (truncateStringToBytesFromEnd line maxBytes).
Proof.
  rewrite text_ok_Forall. intros Hok Hm. unfold truncateStringToBytesFromEnd, longest_end.
  destruct (Z.leb_spec maxBytes 0).
  { split_and!; [done|done|]. exists (scalars line). rewrite app_nil_r. split; [done|].
    destruct (scalars line) as [|x pre _] using rev_ind; [by left|]. right. exists pre, x.
    split; [done|]. pose proof (length_utf8_scalar_pos x). unfold Buffer_byteLength. cbn. lia. }
  pose proof (cut_loop_spec (length line) line maxBytes (length line) false Hok (le_n _) (le_n _) (cut_length _)) as H'.
  rewrite drop_all in H'. specialize (H' ltac:(done) (λ _, eq_refl)).
  change (Buffer_byteLength []) with 0 in H'.
  destruct (cut_loop _ _ _ _ _ _ _) as [start needs]. destruct H' as (Hcut & Hb & Hw & Hstop).
  assert (∀ out, scalars out = scalars (drop start line) → well_formed out →
    well_formed out ∧ Buffer_byteLength out ≤ maxBytes ∧ ∃ pre, scalars line = pre ++ scalars out ∧
    (pre = [] ∨ ∃ pre' x, pre = pre' ++ [x] ∧ maxBytes < Z.of_nat (length (utf8_scalar x)) + Buffer_byteLength out)) as Hout.
  { intros out Hs Hwf. assert (Buffer_byteLength out = Buffer_byteLength (drop start line)) as ->.
    { unfold Buffer_byteLength, utf8_encode. by rewrite Hs. }
    split_and!; [done..|]. exists (scalars (take start line)). rewrite Hs. split; [by apply scalars_at|].
    destruct Hstop as [-> | (pre' & x & Hx)]; [by left|]. right. by exists pre', x. }
  destruct needs; apply Hout; auto using replace_scalars. by apply replace_well_formed, Forall_drop.
Qed.

(** ** Any runtime *)

Notation texts_ok := (Forall (λ l, text_ok l = true)).

Lemma text_ok_elem s : text_ok s = true ↔ ∀ u, u ∈ s → unit_ok u.
Proof. by rewrite text_ok_Forall, Forall_forall. Qed.

Lemma split_on_elem c s w u : w ∈ split_on c s → u ∈ w → u ∈ s.
Proof.
  revert w. induction s as [|x s IH]; intros w; cbn [split_on].
  { intros ->%list_elem_of_singleton. by intros ?%elem_of_nil. }
  destruct (x =? c).
  { rewrite elem_of_cons. intros [-> | Hw] Hu; [by apply elem_of_nil in Hu|]. right. eauto. }
  destruct (split_on c s) as [|v vs]; rewrite elem_of_cons.
  - rewrite elem_of_nil. intros [-> | []]. rewrite !elem_of_cons, elem_of_nil. tauto.
  - intros [-> | Hw] Hu; [|right; eapply IH; [by right|done]].
    apply elem_of_cons in Hu as [-> | Hu]; [by left|]. right. eapply IH; [by left|done].
Qed.

Lemma removelast_snoc {A} (l : list A) x : removelast (l ++ [x]) = l.
Proof. rewrite removelast_app by done. apply app_nil_r. Qed.

Lemma lines_ok content : text_ok content = true → texts_ok (splitLinesForCounting content).
Proof.
  intros H. rewrite text_ok_elem in H. unfold splitLinesForCounting. case_bool_decide; [done|].
  assert (texts_ok (split_on LF content)) as Hall.
  { apply Forall_forall. intros w Hw. apply text_ok_elem. intros u Hu. eauto using split_on_elem. }
  case_match; [|done]. destruct (split_on LF content) as [|l ls _] using rev_ind; [done|].
  rewrite removelast_snoc. by apply Forall_app in Hall as [? _].
Qed.

Lemma join_ok lines : texts_ok lines → text_ok (join_on [LF] lines) = true.
Proof.
  setoid_rewrite text_ok_Forall. induction 1 as [|l ls Hl Hls IH]; [done|]. destruct ls as [|l' ls]; [done|].
  cbn [join_on] in *. apply Forall_app; split; [done|]. apply Forall_app; split; [|done].
  apply Forall_singleton. unfold unit_ok, LF. lia.
Qed.

Lemma replace_ok s : Forall unit_ok s → Forall unit_ok (replaceUnpairedSurrogates s).
Proof.
  assert (unit_ok REPLACEMENT) as Hr by done.
  induction s as [|u w s Hu Hw IH|u s Hp IH] using chars_ind; intros Hok; [done| |]; cbn [replaceUnpairedSurrogates].
  - rewrite Hu, Hw. decompose_Forall_hyps. eauto.
  - apply Forall_cons in Hok as [Hu Hok]. specialize (IH Hok). unfold paired in Hp.
    destruct (is_high_surrogate u); [|by destruct (is_low_surrogate u); constructor].
    destruct s as [|w s]; [by repeat constructor|]. cbn [andb] in Hp. rewrite Hp. by constructor.
Qed.

Lemma truncateString_ok line maxBytes : text_ok line = true → text_ok (truncateStringToBytesFromEnd line maxBytes) = true.
Proof.
  rewrite !text_ok_Forall. intros H. unfold truncateStringToBytesFromEnd. destruct (maxBytes <=? 0); [done|].
  destruct (cut_loop _ _ _ _ _ _ _) as [start []]; [apply replace_ok|]; by apply Forall_drop.
Qed.

Lemma head_loop_runtime b lines i maxLines maxBytes out count :
  texts_ok lines → texts_ok out →
  head_loop b lines i maxLines maxBytes out count = head_loop true lines i maxLines maxBytes out count ∧
  texts_ok (head_loop true lines i maxLines maxBytes out count).1.1.
Proof.
  intros Hl. revert i out count. induction Hl as [|l ls Hl Hls IH]; intros i out count Hout; cbn [head_loop]; [done|].
  destruct (negb _); [done|]. rewrite !utf8ByteLength_spec by done. destruct (maxBytes <? _); [done|].
  apply IH. by apply Forall_app; split; [|constructor].
Qed.

Lemma tail_loop_runtime b lines maxLines maxBytes out count :
  texts_ok lines → texts_ok out →
  tail_loop b lines maxLines maxBytes out count = tail_loop true lines maxLines maxBytes out count ∧
  texts_ok (tail_loop true lines maxLines maxBytes out count).1.1.1.
Proof.
  intros Hl. revert out count. induction Hl as [|l ls Hl Hls IH]; intros out count Hout; cbn [tail_loop]; [done|].
  destruct (negb _); [done|]. rewrite !utf8ByteLength_spec by done. destruct (maxBytes <? _); [|by apply IH; constructor].
  destruct out; [|done]. pose proof (truncateString_ok l maxBytes Hl).
  rewrite !utf8ByteLength_spec by done. split; [done|]. cbn. by constructor.
Qed.

(** Results do not depend on whether the runtime has [Buffer]. *)
Lemma truncate_runtime b content options :
  text_ok content = true →
  truncateHead b content options = truncateHead true content options ∧
  truncateTail b content options = truncateTail true content options.
Proof.
  intros Hc. pose proof (lines_ok _ Hc) as Hl. unfold truncateHead, truncateTail.
  rewrite !(utf8ByteLength_spec _ content) by done. destruct (_ && _); [done|]. split.
  - destruct (head (splitLinesForCounting content)) as [l|] eqn:Eh; [|done].
    assert (text_ok l = true) by (destruct Hl; simplify_eq/=; done). rewrite !(utf8ByteLength_spec _ l) by done.
    destruct (maxBytes_of options <? _); [done|].
    destruct (head_loop_runtime b (splitLinesForCounting content) 0 (maxLines_of options) (maxBytes_of options) [] 0 Hl
      (Forall_nil_2 _)) as [-> Hok].
    destruct (head_loop true _ _ _ _ _ _) as [[out count] by_]. by rewrite !utf8ByteLength_spec by by apply join_ok.
  - destruct (tail_loop_runtime b (reverse (splitLinesForCounting content)) (maxLines_of options) (maxBytes_of options) [] 0)
      as [-> Hok]; [by apply Forall_reverse|done|].
    destruct (tail_loop true _ _ _ _ _) as [[[out count] by_] partial]. by rewrite !utf8ByteLength_spec by by apply join_ok.
Qed.

(** ** Head and tail *)

Definition within (content : jsstr) (options : TruncationOptions) : Prop :=
  Z.of_nat (length (splitLinesForCounting content)) ≤ maxLines_of options ∧
  Buffer_byteLength content ≤ maxBytes_of options.

(** What the limits of [options] leave of [content], read from the head: all of it,
    or as many whole leading lines as fit. *)
Definition head_of (content : jsstr) (options : TruncationOptions) (r : TruncationResult) : Prop :=
  let lines := splitLinesForCounting content in
  if tr_truncated r then
    ¬ within content options ∧
    ∃ kept, longest_head (maxLines_of options) (maxBytes_of options) lines kept ∧
      tr_content r = join_on [LF] kept ∧ tr_outputLines r = Z.of_nat (length kept) ∧
      (tr_firstLineExceedsLimit r = true ↔ ∃ line, head lines = Some line ∧ maxBytes_of options < Buffer_byteLength line)
  else within content options ∧ tr_content r = content ∧ tr_firstLineExceedsLimit r = false.

(** Read from the tail: whole lines, or the end of a last line that is too long. *)
Definition tail_of (content : jsstr) (options : TruncationOptions) (r : TruncationResult) : Prop :=
  let lines := splitLinesForCounting content in
  let too_long line := last lines = Some line ∧ 0 < maxLines_of options ∧ maxBytes_of options < Buffer_byteLength line in
  if tr_truncated r then
    ¬ within content options ∧
    (tr_lastLinePartial r = true ↔ ∃ line, too_long line) ∧
    (∀ line, too_long line → longest_end (maxBytes_of options) line (tr_content r)) ∧
    (tr_lastLinePartial r = false →
      ∃ kept, longest_tail (maxLines_of options) (maxBytes_of options) lines kept ∧
        tr_content r = join_on [LF] kept ∧ tr_outputLines r = Z.of_nat (length kept))
  else within content options ∧ tr_content r = content ∧ tr_lastLinePartial r = false.

Definition totals_of (content : jsstr) (r : TruncationResult) : Prop :=
  tr_totalLines r = Z.of_nat (length (splitLinesForCounting content)) ∧
  tr_totalBytes r = Buffer_byteLength content ∧
  tr_outputBytes r = Buffer_byteLength (tr_content r).

Lemma within_test content options :
  (Z.of_nat (length (splitLinesForCounting content)) <=? maxLines_of options) &&
    (Buffer_byteLength content <=? maxBytes_of options) = bool_decide (within content options).
Proof. apply eq_bool_prop_intro. unfold within. rewrite bool_decide_spec, andb_True, !Is_true_true, !Z.leb_le. done. Qed.

Lemma fits_nil maxLines maxBytes : 0 ≤ maxLines → 0 ≤ maxBytes → fits maxLines maxBytes [].
Proof. done. Qed.

Lemma longest_end_size maxBytes line out : longest_end maxBytes line out → Buffer_byteLength out ≤ maxBytes.
Proof. by intros (_ & ? & _). Qed.

Lemma first_line_none maxLines maxBytes line lines :
  0 ≤ maxLines → 0 ≤ maxBytes → maxBytes < Buffer_byteLength line → longest_head maxLines maxBytes (line :: lines) [].
Proof. intros ? ? ?. eapply longest_head_stop; [done|by apply fits_nil|]. right; right. by exists line. Qed.

Lemma truncateHead_longest b content options :
  text_ok content = true → 0 ≤ maxLines_of options → 0 ≤ maxBytes_of options →
  ∃ r, truncateHead b content options = Ok r ∧ totals_of content r ∧ head_of content options r ∧
    tr_outputLines r ≤ maxLines_of options ∧ tr_outputBytes r ≤ maxBytes_of options.
Proof.
  intros Hc Hl Hb. rewrite (proj1 (truncate_runtime b content options Hc)).
  unfold truncateHead. change (utf8ByteLength true content) with (Buffer_byteLength content).
  rewrite within_test. case_bool_decide as Hw.
  { eexists. split_and!; [done|done|by unfold head_of; cbn|by destruct Hw..]. }
  destruct (splitLinesForCounting content) as [|line0 lines] eqn:El; cbn [head].
  { exfalso. apply Hw. unfold within. rewrite El. split; [done|]. unfold splitLinesForCounting in El.
    case_bool_decide; [by subst|]. exfalso. revert El. case_match eqn:Ee; [|apply split_on_nonempty].
    apply bool_decide_eq_true in Ee as [c ->]. rewrite split_on_app. cbn [split_on].
    rewrite removelast_snoc. apply split_on_nonempty. }
  destruct (Z.ltb_spec (maxBytes_of options) (utf8ByteLength true line0)) as [H|H].
  { eexists. split_and!; [done|by unfold totals_of; cbn; rewrite El| |done|done]. unfold head_of; cbn. split; [done|].
    exists []. rewrite El. split_and!; [by apply first_line_none|done|done|]. split; [by exists line0|done]. }
  pose proof (head_loop_spec (line0 :: lines) [] (maxLines_of options) (maxBytes_of options) (fits_nil _ _ Hl Hb)) as Hloop.
  change (Z.of_nat (length [])) with 0 in Hloop. change (size []) with 0 in Hloop.
  destruct (head_loop true _ _ _ _ _ _) as [[kept count] by_]. destruct Hloop as (Hk & -> & _).
  eexists. split_and!; [done|by unfold totals_of; cbn; rewrite El| |cbn; apply Hk|cbn; apply Hk].
  unfold head_of; cbn. split; [done|]. exists kept. rewrite El. split_and!; [done..|].
  split; [done|]. intros (? & [= <-] & ?). change (utf8ByteLength true line0) with (Buffer_byteLength line0) in H. lia.
Qed.

Lemma truncateTail_longest b content options :
  text_ok content = true → 0 ≤ maxLines_of options → 0 ≤ maxBytes_of options →
  let r := truncateTail b content options in
  totals_of content r ∧ tail_of content options r ∧
  tr_outputLines r ≤ maxLines_of options ∧ tr_outputBytes r ≤ maxBytes_of options.
Proof.
  intros Hc Hl Hb. cbn zeta. rewrite (proj2 (truncate_runtime b content options Hc)).
  unfold truncateTail. change (utf8ByteLength true content) with (Buffer_byteLength content).
  rewrite within_test. case_bool_decide as Hw; [by split_and!; [done|by unfold tail_of; cbn|destruct Hw..]|].
  pose proof (tail_loop_spec (reverse (splitLinesForCounting content)) [] (maxLines_of options) (maxBytes_of options)
    (fits_nil _ _ Hl Hb)) as Hloop. change (size []) with 0 in Hloop.
  assert (∀ l, head (reverse (splitLinesForCounting content)) = Some l ↔ last (splitLinesForCounting content) = Some l) as Hlast
    by (intros l; by rewrite head_reverse).
  destruct (tail_loop true _ _ _ _ _) as [[[kept count] by_] partial]. rewrite reverse_involutive, app_nil_r in Hloop.
  destruct Hloop as (H1 & H2 & H3 & ->). setoid_rewrite Hlast in H2. setoid_rewrite Hlast in H3.
  assert (∀ line, last (splitLinesForCounting content) = Some line → text_ok line = true) as Hline.
  { intros line Hin. apply last_Some_elem_of in Hin. pose proof (lines_ok _ Hc) as Hall. rewrite Forall_forall in Hall. auto. }
  unfold totals_of, tail_of; cbn. destruct partial.
  - destruct (proj1 H2 eq_refl) as (_ & Hm & line & Hin & Hover). destruct (H3 eq_refl line Hin) as [-> ->].
    pose proof (truncateString_spec line (maxBytes_of options) (Hline _ Hin) Hb) as Hend.
    split_and!; [done..| | |done|cbn; lia|by eapply longest_end_size].
    + split; [by exists line|done].
    + intros l (Hin' & _). rewrite Hin in Hin'. by simplify_eq.
  - destruct (H1 eq_refl) as [Hk _]. assert (∀ line, ¬ (last (splitLinesForCounting content) = Some line ∧
      0 < maxLines_of options ∧ maxBytes_of options < Buffer_byteLength line)) as Hno.
    { intros line (? & ? & ?). discriminate (proj2 H2). split_and!; eauto. }
    split_and!; [done..| | | |apply Hk|apply Hk].
    + split; [done|]. intros [line Hx]. by apply Hno in Hx.
    + intros line Hx. by apply Hno in Hx.
    + intros _. exists kept. done.
Qed.

(** ** The limit that is reported *)

Lemma join_split c s : join_on [c] (split_on c s) = s.
Proof.
  induction s as [|x s IH]; [done|]. cbn [split_on]. destruct (Z.eqb_spec x c) as [-> |].
  - destruct (split_on c s) as [|w ws] eqn:E; [by apply split_on_nonempty in E|].
    change (c :: join_on [c] (w :: ws) = c :: s). by rewrite IH.
  - destruct (split_on c s) as [|w ws] eqn:E; [by apply split_on_nonempty in E|].
    rewrite <- IH. by destruct ws.
Qed.

Lemma split_lines_trailing body : splitLinesForCounting (body ++ [LF]) = split_on LF body.
Proof.
  unfold splitLinesForCounting, endsWith. rewrite bool_decide_false by (by intros [_ ?]%app_nil).
  rewrite bool_decide_true by by apply suffix_app_r.
  rewrite split_on_app. apply removelast_snoc.
Qed.

(** When only the final line feed is over the byte limit, every line is kept, the
    lines are within their limit, and yet the line limit is named as the one hit. *)
Lemma final_newline_blamed_on_lines b body options :
  text_ok body = true →
  Z.of_nat (length (split_on LF body)) ≤ maxLines_of options → maxBytes_of options = Buffer_byteLength body →
  ∃ r, truncateHead b (body ++ [LF]) options = Ok r ∧ tr_truncated r = true ∧ tr_truncatedBy r = Some ByLines ∧
    tr_outputLines r = tr_totalLines r ∧ tr_totalLines r ≤ tr_maxLines r ∧ tr_maxBytes r < tr_totalBytes r.
Proof.
  intros Hc Hl Hb. assert (text_ok (body ++ [LF]) = true) as Hc'.
  { rewrite text_ok_Forall in *. apply Forall_app; split; [done|]. by apply Forall_singleton. }
  assert (Buffer_byteLength (body ++ [LF]) = Buffer_byteLength body + 1) as Hsize
    by (rewrite byteLength_newline; change (Buffer_byteLength []) with 0; lia).
  assert (size (split_on LF body) = Buffer_byteLength body) as Hs by (unfold size; by rewrite join_split).
  rewrite (proj1 (truncate_runtime b _ options Hc')). unfold truncateHead. rewrite split_lines_trailing.
  change (utf8ByteLength true (body ++ [LF])) with (Buffer_byteLength (body ++ [LF])).
  rewrite (proj2 (Z.leb_le _ _) Hl), Hsize, Hb, (proj2 (Z.leb_gt _ _)) by lia. cbn [andb].
  assert (fits (maxLines_of options) (Buffer_byteLength body) (split_on LF body)) as Hfit by (split; lia).
  assert (fits (maxLines_of options) (Buffer_byteLength body) []) as Hnil by (split; [cbn; lia|apply byteLength_nonneg]).
  pose proof (head_loop_spec (split_on LF body) [] _ _ Hnil) as Hloop. change (size []) with 0 in Hloop.
  change (Z.of_nat (length [])) with 0 in Hloop.
  destruct (split_on LF body) as [|line lines] eqn:E; [by apply split_on_nonempty in E|]. cbn [head].
  pose proof (size_prefix [line] lines) as Hfirst. cbn [app] in Hfirst. rewrite size_one in Hfirst.
  rewrite (proj2 (Z.ltb_ge _ _)) by (change (utf8ByteLength true line) with (Buffer_byteLength line); lia).
  destruct (head_loop true _ _ _ _ _ _) as [[kept count] by_]. destruct Hloop as ((Hpre & _ & Hmax) & -> & Hby).
  assert (kept = line :: lines) as ->.
  { specialize (Hmax _ (reflexivity _) Hfit). destruct Hpre as [k Hk]. cbn [app] in Hk. rewrite Hk in Hmax.
    rewrite !length_app in Hmax. destruct k; [by rewrite app_nil_r in Hk|cbn in Hmax; lia]. }
  eexists. split_and!; [done|done| |done|cbn in *; lia|cbn; lia]. cbn [tr_truncatedBy]. f_equal.
  destruct by_; [by case_match|]. by destruct (proj1 Hby eq_refl) as [[] _].
Qed.

(** ** What is reported *)

(** The limits and the counts of lines, and which limit cut the text: [bytes] says when
    it was the limit of bytes. *)
Definition reported (options : TruncationOptions) (bytes : bool) (r : TruncationResult) : Prop :=
  tr_maxLines r = maxLines_of options ∧ tr_maxBytes r = maxBytes_of options ∧
  if tr_truncated r then tr_truncatedBy r = Some (if bytes then ByBytes else ByLines)
  else tr_truncatedBy r = None ∧ tr_outputLines r = tr_totalLines r.

(** Bytes are named when the first line does not fit, or when a line was left out
    though the lines were not used up. *)
Definition head_reported (options : TruncationOptions) (r : TruncationResult) : Prop :=
  tr_lastLinePartial r = false ∧
  reported options (tr_firstLineExceedsLimit r || (tr_outputLines r <? tr_totalLines r) && (tr_outputLines r <? maxLines_of options)) r.

(** As for the head; a part of the last line counts as a line. *)
Definition tail_reported (options : TruncationOptions) (r : TruncationResult) : Prop :=
  tr_firstLineExceedsLimit r = false ∧ (tr_lastLinePartial r = true → tr_outputLines r = 1) ∧
  reported options ((tr_lastLinePartial r || (tr_outputLines r <? tr_totalLines r)) && (tr_outputLines r <? maxLines_of options)) r.

(** The limit that the code names after the loop. *)
Lemma named_limit (maxLines maxBytes n size_ total : Z) (by_ : Limit) :
  size_ ≤ maxBytes → (by_ = ByBytes ↔ n < total ∧ n < maxLines) →
  (if (maxLines <=? n) && (size_ <=? maxBytes) then ByLines else by_) = if (n <? total) && (n <? maxLines) then ByBytes else ByLines.
Proof.
  intros Hs Hby. rewrite (proj2 (Z.leb_le size_ maxBytes) Hs), andb_true_r.
  destruct (Z.leb_spec maxLines n), (Z.ltb_spec n total), (Z.ltb_spec n maxLines); cbn; try lia; try done.
  - by apply Hby.
  - destruct by_; [done|]. destruct (proj1 Hby eq_refl). lia.
Qed.

Lemma prefix_short {A} (l k : list A) : l `prefix_of` k → l ≠ k ↔ Z.of_nat (length l) < Z.of_nat (length k).
Proof. intros [t ->]. rewrite length_app. destruct t; [rewrite app_nil_r; cbn; split; [done|lia]|]. split; [cbn; lia|]. intros _ E. apply (f_equal length) in E. rewrite length_app in E. cbn in E. lia. Qed.

Lemma suffix_short {A} (l k : list A) : l `suffix_of` k → l ≠ k ↔ Z.of_nat (length l) < Z.of_nat (length k).
Proof. intros [t ->]. rewrite length_app. destruct t; [cbn; split; [done|lia]|]. split; [cbn; lia|]. intros _ E. apply (f_equal length) in E. rewrite length_app in E. cbn in E. lia. Qed.

Lemma truncateHead_reported b content options r :
  text_ok content = true → 0 ≤ maxLines_of options → 0 ≤ maxBytes_of options →
  truncateHead b content options = Ok r → head_reported options r.
Proof.
  intros Hc Hl Hb. rewrite (proj1 (truncate_runtime b content options Hc)). unfold truncateHead. destruct (_ && _); [by intros [= <-]|].
  destruct (head (splitLinesForCounting content)) as [line0|]; [|done]. destruct (maxBytes_of options <? _); [by intros [= <-]|].
  pose proof (head_loop_spec (splitLinesForCounting content) [] (maxLines_of options) (maxBytes_of options) (fits_nil _ _ Hl Hb)) as Hloop.
  change (Z.of_nat (length [])) with 0 in Hloop. change (size []) with 0 in Hloop. cbn [app] in Hloop.
  destruct (head_loop true _ _ _ _ _ _) as [[kept count] by_]. destruct Hloop as ((Hpre & [_ Hfit] & _) & -> & Hby). intros [= <-].
  split; [done|]. unfold reported; cbn. split_and!; [done..|]. f_equal. apply named_limit; [done|]. by rewrite <- prefix_short.
Qed.

Lemma truncateTail_reported b content options :
  text_ok content = true → 0 ≤ maxLines_of options → 0 ≤ maxBytes_of options → tail_reported options (truncateTail b content options).
Proof.
  intros Hc Hl Hb. rewrite (proj2 (truncate_runtime b content options Hc)). unfold truncateTail. destruct (_ && _); [by unfold tail_reported, reported|].
  pose proof (tail_loop_spec (reverse (splitLinesForCounting content)) [] (maxLines_of options) (maxBytes_of options)
    (fits_nil _ _ Hl Hb)) as Hloop. change (size []) with 0 in Hloop.
  destruct (tail_loop true _ _ _ _ _) as [[[kept count] by_] partial]. rewrite reverse_involutive, app_nil_r in Hloop.
  destruct Hloop as (H1 & H2 & H3 & ->). unfold tail_reported, reported; cbn. destruct partial.
  - destruct (proj1 H2 eq_refl) as (_ & Hm & line & Hin & _). destruct (H3 eq_refl line Hin) as [-> ->]. cbn.
    split_and!; [done..|]. rewrite size_one, (proj2 (Z.leb_le (Buffer_byteLength _) _)), andb_true_r.
    { f_equal. destruct (Z.leb_spec (maxLines_of options) (Z.of_nat 1)), (Z.ltb_spec (Z.of_nat 1) (maxLines_of options)); (lia || done). }
    eapply longest_end_size, truncateString_spec; [|done]. pose proof (lines_ok _ Hc) as Hall. rewrite Forall_forall in Hall. apply Hall.
    apply last_Some_elem_of. by rewrite <- head_reverse.
  - destruct (H1 eq_refl) as [(Hsuf & [_ Hfit] & _) Hby]. split_and!; [done..|]. f_equal. apply named_limit; [done|]. by rewrite <- suffix_short.
Qed.

(** C39: for limits that are not negative, a text within the limits is not cut.  Otherwise
    [truncateHead] keeps as many leading lines as the limits allow, and [truncateTail] as
    many trailing lines, or, when the last line alone is too long, its longest end that is whole characters.
    The totals and sizes reported are those of the text and of what is kept, the limit
    named is that of bytes when a line was left out though the lines were not used up,
    and the result does not depend on whether the runtime has [Buffer]. *)
Theorem truncation_longest b content options :
  text_ok content = true → 0 ≤ maxLines_of options → 0 ≤ maxBytes_of options →
  (∃ r, (∀ b', truncateHead b' content options = Ok r) ∧ totals_of content r ∧ head_of content options r ∧ head_reported options r ∧
     tr_outputLines r ≤ maxLines_of options ∧ tr_outputBytes r ≤ maxBytes_of options) ∧
  let r := truncateTail b content options in
  (∀ b', truncateTail b' content options = r) ∧ totals_of content r ∧ tail_of content options r ∧ tail_reported options r ∧
  tr_outputLines r ≤ maxLines_of options ∧ tr_outputBytes r ≤ maxBytes_of options.
Proof.
  intros H1 H2 H3. split.
  - destruct (truncateHead_longest b content options H1 H2 H3) as (r & E & Ht & Hh & ? & ?). exists r.
    split_and!; [|done|done|by eapply truncateHead_reported|done|done].
    intros b'. rewrite (proj1 (truncate_runtime b' content options H1)). by rewrite <- (proj1 (truncate_runtime b content options H1)).
  - destruct (truncateTail_longest b content options H1 H2 H3) as (Ht & Hh & ? & ?). split_and!; [|done|done|by apply truncateTail_reported|done|done].
    intros b'. by rewrite (proj2 (truncate_runtime b' content options H1)), (proj2 (truncate_runtime b content options H1)).
Qed.

Lemma truncation_longest_witness :
  let content := js_lit "one" ++ [LF] ++ js_lit "two" in
  let options := mkTruncationOptions (Some 1) (Some 2) in
  tr_content (truncateTail false content options) = js_lit "wo" ∧ tail_of content options (truncateTail false content options) ∧
  truncateTail true content options = truncateTail false content options.
Proof.
  destruct (truncation_longest false (js_lit "one" ++ [LF] ++ js_lit "two") (mkTruncationOptions (Some 1) (Some 2))) as [_ (Hr & _ & H & _)];
    [reflexivity|cbn; lia|cbn; lia|]. split; [reflexivity|]. split; [exact H|exact (Hr true)].
Defined.
