(* ===== verification/ShellOutput.v ===== *)
(** Running a command and capturing its output: [agent/src/harness/utils/
    shell-output.ts].  The output is kept as a window of bounded size, with counts,
    and once it is too long the whole of it goes to a file, through a chain of
    writes that runs beside the chunks.

    The closure's variables are the record [Capture]; the promise [writeChain] is
    its settled value so far and the jobs still to run.  A command's run is a
    sequence of steps: chunks, jobs, the end of the command, and whatever else
    happens to the file system in between.  An [ExecutionError] is its code. *)
From S2P Require Import Prelude JsValue Utf8 Json Regex NodePath FileSystem Truncate.
Open Scope Z_scope.

Inductive ExecutionErrorCode :=
| ee_aborted | ee_timeout | ee_shell_unavailable | ee_spawn_error | ee_callback_error | ee_unknown.
#[export] Instance ExecutionErrorCode_eq_dec : EqDecision ExecutionErrorCode.
Proof. solve_decision. Defined.

(** What may be thrown: an [ExecutionError] or something else. *)
Inductive Thrown := ThrownExecution (e : ExecutionErrorCode) | ThrownOther.

Definition toExecutionError (error : Thrown) : ExecutionErrorCode :=
  match error with ThrownExecution e => e | ThrownOther => ee_unknown end.

(** ** Text *)

(** [Array.from(str)]: the characters, as strings of one or two units. *)
Fixpoint Array_from (str : jsstr) : list jsstr :=
  match str with
  | [] => []
  | u :: rest =>
      match rest with
      | w :: rest' =>
          if is_high_surrogate u && is_low_surrogate w then [u; w] :: Array_from rest' else [u] :: Array_from rest
      | [] => [[u]]
      end
  end.

(** [char.codePointAt(0)] *)
Definition codePointAt0 (char : jsstr) : option Z :=
  match char with
  | u :: w :: _ =>
      if is_high_surrogate u && is_low_surrogate w
      then Some (0x10000 + (u - 0xd800) * 0x400 + (w - 0xdc00)) else Some u
  | [u] => Some u
  | [] => None
  end.

Definition printable (char : jsstr) : bool :=
  match codePointAt0 char with
  | None => false
  | Some code =>
      if (code =? 0x09) || (code =? 0x0a) || (code =? 0x0d) then true
      else if code <=? 0x1f then false
      else if (0xfff9 <=? code) && (code <=? 0xfffb) then false
      else true
  end.

Definition sanitizeBinaryOutput (str : jsstr) : jsstr := concat (filter printable (Array_from str)).

(** [new TextDecoder().decode(bytes)]: a byte order mark is dropped. *)
Definition TextDecoder_decode (bytes : list Z) : jsstr :=
  match utf8_lossy bytes with
  | c :: s => if c =? 0xfeff then s else c :: s
  | [] => []
  end.

(** Continuation bytes at [start] are skipped. *)
Fixpoint skip_continuation (bytes : list Z) : list Z :=
  match bytes with
  | b :: rest => if Z.land b 0xc0 =? 0x80 then skip_continuation rest else bytes
  | [] => []
  end.

Definition trimToLastUtf8Bytes (text : jsstr) (maxBytes : Z) : jsstr :=
  let bytes := utf8_encode text in
  let byteLength := Z.of_nat (length bytes) in
  if byteLength <=? maxBytes then text else
  TextDecoder_decode (skip_continuation (drop (Z.to_nat (byteLength - maxBytes)) bytes)).

(** [text.lastIndexOf("\n")] *)
Fixpoint lastNewline (text : jsstr) : option nat :=
  match text with
  | [] => None
  | c :: text =>
      match lastNewline text with
      | Some i => Some (S i)
      | None => if c =? LF then Some O else None
      end
  end.

(** ** The capture *)

Inductive WriteJob :=
| CreateLog (initialContent : jsstr)
| WriteInitial (tempFile : path) (initialContent : jsstr)
| AppendLog (text : jsstr).

Record Capture := mkCapture {
  tailOutput : jsstr; totalBytes : Z; completedLines : Z; hasOpenLine : bool; currentLineBytes : Z;
  fullOutputPath : option path; fullOutputRequested : bool; acceptingOutput : bool;
  chain : result ExecutionErrorCode unit; jobs : list WriteJob;
  captureError : option ExecutionErrorCode }.

Definition capture_start : Capture := mkCapture [] 0 0 false 0 None false true (Ok tt) [] None.

Definition with_jobs (c : Capture) (requested : bool) (path_ : option path) (r : result ExecutionErrorCode unit)
    (js : list WriteJob) : Capture :=
  mkCapture (tailOutput c) (totalBytes c) (completedLines c) (hasOpenLine c) (currentLineBytes c) path_ requested
    (acceptingOutput c) r js (captureError c).

Definition failing (c : Capture) : bool := bool_decide (is_Some (captureError c)).

Definition appendFullOutput (c : Capture) (text : jsstr) : Capture :=
  if negb (fullOutputRequested c) || failing c then c
  else with_jobs c (fullOutputRequested c) (fullOutputPath c) (chain c) (jobs c ++ [AppendLog text]).

Definition ensureFullOutputFile (c : Capture) (initialContent : jsstr) : Capture :=
  if fullOutputRequested c || failing c then c
  else with_jobs c true (fullOutputPath c) (chain c) (jobs c ++ [CreateLog initialContent]).

Record ShellCaptureProgress := mkProgress {
  sp_output : jsstr; sp_truncation : TruncationResult; sp_fullOutputPath : option path; sp_lastLineBytes : Z }.

Definition maxOutputBytes : Z := DEFAULT_MAX_BYTES * 2.

Definition totalLines (c : Capture) : Z := completedLines c + (if hasOpenLine c then 1 else 0).

Section capture.
Context (runtimeBuffer : bool).

Definition createProgress (c : Capture) : ShellCaptureProgress :=
  let tailTruncation := truncateTail runtimeBuffer (tailOutput c) no_options in
  let truncated := (DEFAULT_MAX_LINES <? totalLines c) || (DEFAULT_MAX_BYTES <? totalBytes c) in
  let truncatedBy :=
    if truncated then
      match tr_truncatedBy tailTruncation with
      | Some l => Some l
      | None => Some (if DEFAULT_MAX_BYTES <? totalBytes c then ByBytes else ByLines)
      end
    else None in
  let truncation :=
    mkTruncation (tr_content tailTruncation) truncated truncatedBy (totalLines c) (totalBytes c)
      (tr_outputLines tailTruncation) (tr_outputBytes tailTruncation) (tr_lastLinePartial tailTruncation)
      (tr_firstLineExceedsLimit tailTruncation) (tr_maxLines tailTruncation) (tr_maxBytes tailTruncation) in
  mkProgress (if truncated then tr_content truncation else tailOutput c) truncation (fullOutputPath c) (currentLineBytes c).

(** [sanitizeBinaryOutput(chunk).replace(/\r/g, "")] *)
Definition clean_chunk (chunk : jsstr) : jsstr := filter (λ u, u ≠ 0x0d) (sanitizeBinaryOutput chunk).

(** The counts after a chunk's text. *)
Definition count_text (c : Capture) (text : jsstr) : Capture :=
  let textBytes := Z.of_nat (length (utf8_encode text)) in
  let newlineCount := Z.of_nat (length (split_on LF text)) - 1 in
  let '(openLine, lineBytes) :=
    match lastNewline text with
    | Some i =>
        let trailingText := drop (S i) text in
        (negb (bool_decide (trailingText = [])), Z.of_nat (length (utf8_encode trailingText)))
    | None => if bool_decide (text = []) then (hasOpenLine c, currentLineBytes c) else (true, currentLineBytes c + textBytes)
    end in
  mkCapture (tailOutput c ++ text) (totalBytes c + textBytes) (completedLines c + newlineCount) openLine lineBytes
    (fullOutputPath c) (fullOutputRequested c) (acceptingOutput c) (chain c) (jobs c) (captureError c).

Definition with_tail (c : Capture) (tail_ : jsstr) (e : option ExecutionErrorCode) : Capture :=
  mkCapture tail_ (totalBytes c) (completedLines c) (hasOpenLine c) (currentLineBytes c) (fullOutputPath c)
    (fullOutputRequested c) (acceptingOutput c) (chain c) (jobs c) e.

(** A chunk; [thrown] is what the caller's [onChunk] throws, if it does. *)
Definition onChunk (c : Capture) (chunk : jsstr) (thrown : option Thrown) : Capture :=
  if negb (acceptingOutput c) then c else
  let text := clean_chunk chunk in
  let c := count_text c text in
  let c :=
    if ((DEFAULT_MAX_BYTES <? totalBytes c) || (DEFAULT_MAX_LINES <? totalLines c)) && negb (fullOutputRequested c)
    then ensureFullOutputFile c (tailOutput c)
    else if fullOutputRequested c then appendFullOutput c text else c in
  with_tail c (trimToLastUtf8Bytes (tailOutput c) maxOutputBytes)
    (match thrown with Some t => Some (toExecutionError t) | None => captureError c end).

(** One job of the write chain, up to its next await. *)
Definition run_job {F} `{FileSystem F} `{ToolFiles F} (c : Capture) (f : F) : Capture * F :=
  match jobs c with
  | [] => (c, f)
  | job :: rest =>
      match chain c with
      | Err _ => (with_jobs c (fullOutputRequested c) (fullOutputPath c) (chain c) rest, f)
      | Ok _ =>
          let settle path_ (r : fs_result unit) :=
            with_jobs c (fullOutputRequested c) path_ (match r with Ok _ => Ok tt | Err _ => Err ee_unknown end) rest in
          match job with
          | CreateLog initial =>
              match createTempFile (js_lit "bash-") (js_lit ".log") f with
              | (f, Ok p) =>
                  (with_jobs c (fullOutputRequested c) (Some p) (chain c) (WriteInitial p initial :: rest), f)
              | (f, Err e) => (settle (fullOutputPath c) (Err e), f)
              end
          | WriteInitial p initial =>
              let '(f, r) := appendFile p initial f in (settle (fullOutputPath c) r, f)
          | AppendLog text =>
              match fullOutputPath c with
              | None => (settle None (Err fe_unknown), f)
              | Some p => let '(f, r) := appendFile p text f in (settle (Some p) r, f)
              end
          end
      end
  end.

(** What [env.exec] resolves to, or is rejected with. *)
Inductive ExecOutcome := ExecResolved (r : result ExecutionErrorCode Z) | ExecRejected (error : Thrown).

Definition stop_accepting (c : Capture) : Capture :=
  mkCapture (tailOutput c) (totalBytes c) (completedLines c) (hasOpenLine c) (currentLineBytes c)
    (fullOutputPath c) (fullOutputRequested c) false (chain c) (jobs c) (captureError c).

(** The command ended: no more output, and the file is there if anything was left out. *)
Definition exec_done (c : Capture) (outcome : ExecOutcome) : Capture :=
  let c := stop_accepting c in
  match outcome with
  | ExecRejected _ => c
  | ExecResolved _ =>
      if tr_truncated (sp_truncation (createProgress c)) && negb (fullOutputRequested c)
      then ensureFullOutputFile c (tailOutput c) else c
  end.

Record ShellCaptureResult := mkShellResult {
  sr_progress : ShellCaptureProgress; sr_exitCode : option Z; sr_cancelled : bool; sr_truncated : bool;
  sr_executionError : option ExecutionErrorCode }.

(** After the chain has settled. *)
Definition capture_result (c : Capture) (outcome : result ExecutionErrorCode Z) (aborted returnExecutionErrors : bool) :
    result ExecutionErrorCode ShellCaptureResult :=
  match chain c, captureError c with
  | Err e, _ => Err e
  | Ok _, Some e => Err e
  | Ok _, None =>
      let progress := createProgress c in
      let truncated := tr_truncated (sp_truncation progress) in
      match outcome with
      | Err e =>
          if bool_decide (e = ee_aborted) || aborted then Ok (mkShellResult progress None true truncated None)
          else if returnExecutionErrors then Ok (mkShellResult progress None false truncated (Some e))
          else Err e
      | Ok exitCode => Ok (mkShellResult progress (if aborted then None else Some exitCode) aborted truncated None)
      end
  end.

(** ** A run *)

(** [sh_done]: [env.exec] has resolved. *)
Record Run (F : Type) := mkRun { sh_capture : Capture; sh_files : F; sh_done : option ExecOutcome }.
Arguments mkRun {F}.
Arguments sh_capture {F}.
Arguments sh_files {F}.
Arguments sh_done {F}.

(** The steps of [executeShellWithCapture] and of its surroundings, with the chunks
    they take in.  A chunk is decoded text; other code leaves the capture's own file
    alone. *)
Inductive step {F} `{FsLaws F} `{ToolFiles F} : Run F → list jsstr → Run F → Prop :=
| StepChunk c f d chunk thrown :
    text_ok chunk = true → scalars chunk ≫= utf16_scalar = chunk →
    step (mkRun c f d) (if acceptingOutput c then [chunk] else []) (mkRun (onChunk c chunk thrown) f d)
| StepJob c f d c' f' : run_job c f = (c', f') → step (mkRun c f d) [] (mkRun c' f' d)
| StepDone c f outcome : step (mkRun c f None) [] (mkRun (exec_done c outcome) f (Some outcome))
| StepOther c f d f' :
    (∀ p, fullOutputPath c = Some p → files f' !! p = files f !! p) → step (mkRun c f d) [] (mkRun c f' d).

(** The runs of the function, with all the chunks taken in. *)
Inductive runs {F} `{FsLaws F} `{ToolFiles F} (f : F) : list jsstr → Run F → Prop :=
| runs_start : runs f [] (mkRun capture_start f None)
| runs_step h r l r' : runs f h r → step r l r' → runs f (h ++ l) r'.

(** What the call returns: at once if [env.exec] was rejected, otherwise once the
    chain has run. *)
Definition returned {F} (r : Run F) (aborted returnExecutionErrors : bool) :
    option (result ExecutionErrorCode ShellCaptureResult) :=
  match sh_done r, jobs (sh_capture r) with
  | Some (ExecRejected error), _ => Some (Err (toExecutionError error))
  | Some (ExecResolved outcome), [] =>
      Some (capture_result (sh_capture r) outcome aborted returnExecutionErrors)
  | _, _ => None
  end.

End capture.

Arguments mkRun {F}.
Arguments sh_capture {F}.
Arguments sh_files {F}.
Arguments sh_done {F}.
