(* ===== verification/ShellOutputSpec.v ===== *)
(** The capture of a command's output: the bounded window shows what truncating the
    whole output would show, and the file holds the whole output. *)
From S2P Require Import Prelude JsValue Utf8 Json Regex NodePath FileSystem Truncate TruncateSpec ShellOutput.
Open Scope Z_scope.

(** ** Text as scalar values *)

Notation utf16 cs := (cs ≫= utf16_scalar).
Notation utf8 cs := (cs ≫= utf8_scalar).

Lemma scalars_utf16 cs : Forall scalar cs → scalars (utf16 cs) = cs.
Proof. induction 1 as [|c cs Hc _ IH]; [done|]. rewrite bind_cons, scalars_app, IH by done. done. Qed.

Lemma encode_utf16 cs : Forall scalar cs → utf8_encode (utf16 cs) = utf8 cs.
Proof. intros H. unfold utf8_encode. by rewrite scalars_utf16. Qed.

Lemma scalars_scalar s : text_ok s = true → Forall scalar (scalars s).
Proof.
  rewrite text_ok_Forall. induction s as [|u w s Hu Hw IH|u s Hp IH] using chars_ind; intros Hok; [done| |].
  - do 2 apply Forall_cons in Hok as [? Hok]. rewrite scalars_pair by done. constructor; [|auto].
    unfold is_high_surrogate, is_low_surrogate, scalar in *. zb. lia.
  - apply Forall_cons in Hok as [? Hok]. rewrite scalars_single by done. constructor; [|auto].
    unfold unit_scalar, is_high_surrogate, is_low_surrogate, scalar, unit_ok, REPLACEMENT in *. case_match; zb; lia.
Qed.

(** Text without unpaired surrogates is the text of its scalar values. *)
Lemma text_scalars s : text_ok s = true → well_formed s → ∃ cs, Forall scalar cs ∧ s = utf16 cs.
Proof. intros Hok Hw. exists (scalars s). split; [by apply scalars_scalar|done]. Qed.

Lemma utf16_ok cs : Forall scalar cs → text_ok (utf16 cs) = true.
Proof.
  rewrite text_ok_Forall. induction 1 as [|c cs Hc _ IH]; [done|]. rewrite bind_cons. apply Forall_app; split; [|done].
  unfold utf16_scalar, scalar, unit_ok in *. range_cases; repeat constructor; Z.div_mod_to_equations; lia.
Qed.

Lemma utf16_well_formed cs : Forall scalar cs → well_formed (utf16 cs).
Proof. intros H. unfold well_formed. by rewrite scalars_utf16. Qed.

Lemma byteLength_utf16 cs : Forall scalar cs → Buffer_byteLength (utf16 cs) = Z.of_nat (length (utf8 cs)).
Proof. intros H. unfold Buffer_byteLength. by rewrite encode_utf16. Qed.

(** Decides the tests of the decoder on bytes whose ranges are known. *)
Ltac decode_tests :=
  unfold is_cont;
  repeat match goal with
  | |- context [?a <? ?b] => first [rewrite (proj2 (Z.ltb_lt a b)) by lia|rewrite (proj2 (Z.ltb_ge a b)) by lia]
  | |- context [?a <=? ?b] => first [rewrite (proj2 (Z.leb_le a b)) by lia|rewrite (proj2 (Z.leb_gt a b)) by lia]
  | |- context [?a =? ?b] => destruct (Z.eqb_spec a b); try lia
  | |- _ => progress cbn [andb]
  end.

(** Decoding one scalar. *)
Lemma utf8_decode_scalar c bs : scalar c → utf8_decode (utf8_scalar c ++ bs) = app (utf16_scalar c) <$> utf8_decode bs.
Proof.
  intros Hc. unfold scalar in Hc. unfold utf8_scalar.
  destruct (Z.ltb_spec c 0x80); [|destruct (Z.ltb_spec c 0x800); [|destruct (Z.ltb_spec c 0x10000)]].
  - cbn [app utf8_decode]. unfold utf16_scalar. range_cases. done.
  - remember (0xc0 + c / 0x40) as b eqn:Eb. remember (0x80 + c mod 0x40) as c1 eqn:E1.
    assert (0xc2 ≤ b ≤ 0xdf ∧ 0x80 ≤ c1 ≤ 0xbf ∧ (b - 0xc0) * 0x40 + (c1 - 0x80) = c) as (? & ? & Hv).
    { subst. Z.div_mod_to_equations. lia. }
    cbn [app utf8_decode]. rewrite Hv. decode_tests. done.
  - remember (0xe0 + c / 0x1000) as b eqn:Eb. remember (0x80 + (c / 0x40) mod 0x40) as c1 eqn:E1.
    remember (0x80 + c mod 0x40) as c2 eqn:E2.
    assert (0xe0 ≤ b ≤ 0xef ∧ 0x80 ≤ c1 ≤ 0xbf ∧ 0x80 ≤ c2 ≤ 0xbf ∧ (b = 0xe0 → 0xa0 ≤ c1) ∧ (b = 0xed → c1 ≤ 0x9f) ∧
      (b - 0xe0) * 0x1000 + (c1 - 0x80) * 0x40 + (c2 - 0x80) = c) as (? & ? & ? & ? & ? & Hv).
    { subst. Z.div_mod_to_equations. lia. }
    cbn [app utf8_decode]. rewrite Hv. decode_tests; done.
  - remember (0xf0 + c / 0x40000) as b eqn:Eb. remember (0x80 + (c / 0x1000) mod 0x40) as c1 eqn:E1.
    remember (0x80 + (c / 0x40) mod 0x40) as c2 eqn:E2. remember (0x80 + c mod 0x40) as c3 eqn:E3.
    assert (0xf0 ≤ b ≤ 0xf4 ∧ 0x80 ≤ c1 ≤ 0xbf ∧ 0x80 ≤ c2 ≤ 0xbf ∧ 0x80 ≤ c3 ≤ 0xbf ∧
      (b = 0xf0 → 0x90 ≤ c1) ∧ (b = 0xf4 → c1 ≤ 0x8f) ∧
      (b - 0xf0) * 0x40000 + (c1 - 0x80) * 0x1000 + (c2 - 0x80) * 0x40 + (c3 - 0x80) = c)
      as (? & ? & ? & ? & ? & ? & Hv).
    { subst. Z.div_mod_to_equations. lia. }
    cbn [app utf8_decode]. rewrite Hv. decode_tests; done.
Qed.

Lemma utf8_decode_scalars cs : Forall scalar cs → utf8_decode (utf8 cs) = Some (utf16 cs).
Proof.
  induction 1 as [|c cs Hc _ IH]; [done|]. by rewrite !bind_cons, utf8_decode_scalar, IH.
Qed.

(** The text decoder gives the scalars back, but for a byte order mark. *)
Lemma TextDecoder_scalars cs :
  Forall scalar cs → TextDecoder_decode (utf8 cs) = utf16 (match cs with c :: cs' => if c =? 0xfeff then cs' else cs | [] => [] end).
Proof.
  intros H. unfold TextDecoder_decode. rewrite (utf8_lossy_valid _ _ (utf8_decode_scalars _ H)).
  destruct cs as [|c cs]; [done|]. apply Forall_cons in H as [Hc _]. rewrite bind_cons.
  destruct (Z.eqb_spec c 0xfeff) as [-> |Hne]; [done|]. rewrite bind_cons. unfold utf16_scalar, scalar in *.
  destruct (Z.ltb_spec c 0x10000); cbn [app].
  - by rewrite (proj2 (Z.eqb_neq c 0xfeff)).
  - destruct (Z.eqb_spec (0xd800 + (c - 0x10000) / 0x400) 0xfeff); [Z.div_mod_to_equations; lia|done].
Qed.

(** ** Cleaning a chunk *)

(** The characters that are kept. *)
Definition kept_scalar (c : Z) : bool := printable (utf16_scalar c) && negb (c =? 0x0d).

Lemma Array_from_scalar c s : scalar c → Array_from (utf16_scalar c ++ s) = utf16_scalar c :: Array_from s.
Proof.
  intros Hc. unfold utf16_scalar, scalar in *. destruct (Z.ltb_spec c 0x10000); cbn [app Array_from].
  - destruct s as [|w s]; [done|]. assert (is_high_surrogate c = false) as -> by (unfold is_high_surrogate; zb; lia). done.
  - assert (is_high_surrogate (0xd800 + (c - 0x10000) / 0x400) = true) as ->
      by (unfold is_high_surrogate; zb; Z.div_mod_to_equations; lia).
    assert (is_low_surrogate (0xdc00 + (c - 0x10000) mod 0x400) = true) as ->
      by (unfold is_low_surrogate; zb; Z.div_mod_to_equations; lia). done.
Qed.

Lemma clean_chunk_scalars cs :
  Forall scalar cs → clean_chunk (utf16 cs) = utf16 (filter kept_scalar cs).
Proof.
  unfold clean_chunk, sanitizeBinaryOutput. induction 1 as [|c cs Hc _ IH]; [done|].
  rewrite bind_cons, Array_from_scalar by done.
  destruct (printable (utf16_scalar c)) eqn:Ep.
  2:{ rewrite !filter_cons_False; [done|unfold kept_scalar|]; by rewrite Ep; intros []. }
  rewrite (filter_cons_True (λ char, printable char)) by (by rewrite Ep). cbn [concat]. rewrite filter_app, IH.
  destruct (Z.eqb_spec c 0x0d) as [-> |Hne]; [done|].
  rewrite filter_cons_True by (unfold kept_scalar; rewrite Ep; by apply Is_true_true, negb_true_iff, Z.eqb_neq).
  rewrite bind_cons. f_equal.
  apply filter_all. unfold utf16_scalar, scalar in *. destruct (Z.ltb_spec c 0x10000); [by constructor|].
  repeat constructor; Z.div_mod_to_equations; lia.
Qed.

(** ** The window *)

(** The test for a continuation byte. *)
Lemma continuation_byte b : 0 ≤ b < 0x100 → (Z.land b 0xc0 =? 0x80) = (0x80 <=? b) && (b <? 0xc0).
Proof.
  intros Hb. assert (Forall (λ b, (Z.land b 0xc0 =? 0x80) = (0x80 <=? b) && (b <? 0xc0)) (seqZ 0 0x100)) as H by by vm_compute; repeat constructor.
  rewrite Forall_forall in H. apply H, elem_of_seqZ. lia.
Qed.

(** The bytes of a scalar: one that is no continuation, then up to three that are. *)
Lemma scalar_bytes c :
  scalar c → ∃ b t, utf8_scalar c = b :: t ∧ (0 ≤ b < 0x80 ∨ 0xc0 ≤ b < 0x100) ∧ Forall (λ x, 0x80 ≤ x < 0xc0) t ∧
    (length t ≤ 3)%nat.
Proof.
  intros Hc. unfold utf8_scalar, scalar in *.
  range_cases; eexists _, _; (split; [done|]); split_and!; try (cbn; lia); repeat constructor; Z.div_mod_to_equations; lia.
Qed.

Lemma skip_lead cs : Forall scalar cs → skip_continuation (utf8 cs) = utf8 cs.
Proof.
  destruct 1 as [|c cs Hc _]; [done|]. rewrite bind_cons. destruct (scalar_bytes c Hc) as (b & t & -> & Hb & _).
  cbn [app skip_continuation]. rewrite continuation_byte by lia.
  rewrite (proj2 (andb_false_iff _ _)); [done|]. rewrite Z.leb_gt, Z.ltb_ge. lia.
Qed.

Lemma skip_all t bs : Forall (λ x, 0x80 ≤ x < 0xc0) t → skip_continuation (t ++ bs) = skip_continuation bs.
Proof.
  induction 1 as [|x t Hx _ IH]; [done|]. cbn [app skip_continuation]. rewrite continuation_byte by lia.
  by rewrite (proj2 (Z.leb_le _ _)), (proj2 (Z.ltb_lt _ _)) by lia.
Qed.

(** Skipping to the next character loses at most three bytes. *)
Lemma skip_spec cs k :
  Forall scalar cs → (k ≤ length (utf8 cs))%nat →
  ∃ pre post, cs = pre ++ post ∧ skip_continuation (drop k (utf8 cs)) = utf8 post ∧
    (length (utf8 cs) - k - 3 ≤ length (utf8 post) ≤ length (utf8 cs) - k)%nat.
Proof.
  intros H. revert k. induction H as [|c cs Hc Hcs IH]; intros k Hk; [exists [], []; cbn in *; by rewrite drop_nil|].
  rewrite bind_cons, length_app in *. destruct (scalar_bytes c Hc) as (b & t & Hu & _ & Ht & Hl).
  destruct k as [|k].
  { exists [], (c :: cs). rewrite drop_0. split_and!; [done| |rewrite bind_cons, length_app; lia..].
    rewrite <- bind_cons. apply skip_lead. by constructor. }
  destruct (decide (S k ≤ length (utf8_scalar c))%nat) as [Hle|Hgt].
  - exists [c], cs. rewrite drop_app_le by done. split_and!; [done| |rewrite Hu in *; cbn in *; lia..].
    rewrite skip_all; [by apply skip_lead|]. rewrite Hu in *. cbn [drop]. by apply Forall_drop.
  - destruct (IH (S k - length (utf8_scalar c))%nat) as (pre & post & -> & Hs & Hlen); [lia|].
    exists (c :: pre), post. rewrite drop_app_ge by lia. split_and!; [done|done|lia..].
Qed.

Lemma trim_spec cs maxBytes :
  Forall scalar cs → 0 ≤ maxBytes →
  ∃ pre post, cs = pre ++ post ∧ trimToLastUtf8Bytes (utf16 cs) maxBytes = utf16 post ∧
    Z.of_nat (length (utf8 post)) ≤ maxBytes ∧ (pre = [] ∨ maxBytes - 6 ≤ Z.of_nat (length (utf8 post))).
Proof.
  intros H Hm. unfold trimToLastUtf8Bytes. rewrite encode_utf16 by done.
  destruct (Z.leb_spec (Z.of_nat (length (utf8 cs))) maxBytes) as [Hle|Hgt].
  { exists [], cs. split_and!; [done..|by left]. }
  destruct (skip_spec cs (Z.to_nat (Z.of_nat (length (utf8 cs)) - maxBytes)) H) as (pre & post & -> & -> & Hlen); [lia|].
  apply Forall_app in H as [Hpre Hpost]. rewrite TextDecoder_scalars by done.
  destruct post as [|c post]; [exists pre, []; split_and!; [done|done|cbn; lia|right; cbn in *; lia]|].
  destruct (Z.eqb_spec c 0xfeff) as [-> |Hne].
  - exists (pre ++ [0xfeff]), post. rewrite <- app_assoc. rewrite bind_cons, length_app in Hlen. cbn in Hlen.
    split_and!; [done|done|lia|right; lia].
  - exists pre, (c :: post). split_and!; [done|done|lia|right; lia].
Qed.

(** ** Truncating a window *)

(** Splitting a concatenation: the last piece of one and the first of the other join. *)
Lemma split_on_concat c a b :
  ∃ init l f rest, split_on c a = init ++ [l] ∧ split_on c b = f :: rest ∧ split_on c (a ++ b) = init ++ (l ++ f) :: rest.
Proof.
  destruct (split_on c b) as [|f rest] eqn:Eb; [by apply split_on_nonempty in Eb|].
  induction a as [|x a (init & l & f' & rest' & Ha & [= <- <-] & Hab)].
  { by exists [], [], f, rest. }
  cbn [app split_on]. rewrite Hab, Ha. destruct (x =? c).
  - by exists ([] :: init), l, f, rest.
  - destruct init as [|i init]; cbn [app]; [by exists [], (x :: l), f, rest|by exists ((x :: i) :: init), l, f, rest].
Qed.

Lemma endsWith_app a b : b ≠ [] → endsWith (a ++ b) [LF] = endsWith b [LF].
Proof.
  intros Hb. destruct b as [|x b _] using rev_ind; [done|]. unfold endsWith. rewrite app_assoc.
  assert (∀ s, [LF] `suffix_of` s ++ [x] ↔ x = LF) as H.
  { intros s. split; [|intros ->; by apply suffix_app_r]. intros [k Hk]. by apply app_inj_tail in Hk as [_ ?]. }
  by apply bool_decide_ext; rewrite !H.
Qed.

Lemma endsWith_split s : s ≠ [] → endsWith s [LF] = bool_decide (last (split_on LF s) = Some []).
Proof.
  intros Hs. destruct s as [|x s _] using rev_ind; [done|]. destruct (split_on_concat LF s [x]) as (init & l & f & rest & _ & Hx & ->).
  rewrite endsWith_app by done. unfold endsWith. cbn [split_on] in Hx. destruct (Z.eqb_spec x LF) as [-> |Hne]; simplify_eq.
  - rewrite !bool_decide_true; [done|by rewrite cons_middle, app_assoc, last_snoc|done].
  - rewrite !bool_decide_false; [done|rewrite last_snoc; by destruct l|].
    intros [k Hk]. destruct k as [|? [|??]]; simplify_eq/=.
Qed.

(** The lines of a concatenation, when the second part has a unit. *)
Lemma lines_concat a b :
  b ≠ [] → ∃ init l f rest, split_on LF a = init ++ [l] ∧ splitLinesForCounting b = f :: rest ∧
    splitLinesForCounting (a ++ b) = init ++ (l ++ f) :: rest.
Proof.
  intros Hb. destruct (split_on_concat LF a b) as (init & l & f & rest & Ha & Eb & Hab).
  unfold splitLinesForCounting. rewrite !bool_decide_false by (by intros [_ ?]%app_nil || done).
  rewrite endsWith_app by done. rewrite endsWith_split, Hab, Eb by done. case_bool_decide as Hlast.
  - destruct rest as [|x rest _] using rev_ind.
    { exfalso. cbn in Hlast. injection Hlast as ->. apply Hb. by rewrite <- (join_split LF b), Eb. }
    exists init, l, f, rest. split; [done|]. rewrite app_comm_cons, removelast_snoc. split; [done|].
    by rewrite app_comm_cons, app_assoc, removelast_snoc.
  - by exists init, l, f, rest.
Qed.

(** The lines of a text account for its bytes, but for a final line feed. *)
Lemma size_lines s : Buffer_byteLength s - 1 ≤ size (splitLinesForCounting s).
Proof.
  unfold splitLinesForCounting. case_bool_decide; [by subst|]. case_match eqn:E.
  - apply bool_decide_eq_true in E as [k ->]. rewrite split_on_app. cbn [split_on]. rewrite removelast_snoc.
    unfold size. rewrite join_split, byteLength_newline. change (Buffer_byteLength []) with 0. lia.
  - unfold size. rewrite join_split. lia.
Qed.

(** Both loops stop on or before the line the two texts share the end of. *)
Lemma tail_loop_window shared f g more maxLines maxBytes out :
  maxBytes < size (f :: reverse shared ++ out) → Buffer_byteLength f ≤ Buffer_byteLength g →
  (shared = [] → out = [] → truncateStringToBytesFromEnd g maxBytes = truncateStringToBytesFromEnd f maxBytes) →
  tail_loop true (shared ++ g :: more) maxLines maxBytes out (size out) =
  tail_loop true (shared ++ [f]) maxLines maxBytes out (size out).
Proof.
  revert out. induction shared as [|x shared IH]; intros out Hsize Hfg Hcut; cbn [app tail_loop].
  all: destruct (negb _); [done|].
  all: change (utf8ByteLength true) with Buffer_byteLength; change (if 0 <? _ then 1 else 0) with (sep out).
  all: rewrite <- ?size_cons.
  - cbn in Hsize. assert (maxBytes < size (g :: out)) by (rewrite size_cons in *; lia).
    rewrite !(proj2 (Z.ltb_lt _ _)) by done. destruct out; [|done]. by rewrite Hcut.
  - destruct (maxBytes <? size (x :: out)).
    + destruct out; done.
    + apply IH; [|done|done]. by rewrite reverse_cons, <- app_assoc in Hsize.
Qed.

(** The longest end of a list of characters is unique. *)
Lemma end_longer maxBytes q1 q2 s1 s2 :
  (∃ q x, q1 = q ++ [x] ∧ maxBytes < Z.of_nat (length (utf8_scalar x)) + Z.of_nat (length (utf8 s1))) →
  Z.of_nat (length (utf8 s2)) ≤ maxBytes → (∃ k, q1 = q2 ++ k ∧ s2 = k ++ s1) → s1 = s2.
Proof.
  intros (q & x & -> & Hover) Hfit (k & Hk & ->). destruct k as [|y k _] using rev_ind; [done|].
  rewrite app_assoc in Hk. apply app_inj_tail in Hk as [_ <-].
  rewrite <- app_assoc, bind_app, !length_app in Hfit. cbn [app] in Hfit. rewrite bind_cons, length_app in Hfit. lia.
Qed.

Lemma longest_end_unique maxBytes f g pre out1 out2 :
  scalars g = pre ++ scalars f → maxBytes < Buffer_byteLength f →
  longest_end maxBytes f out1 → longest_end maxBytes g out2 → out1 = out2.
Proof.
  intros Hg Hf (Hw1 & Hb1 & p1 & Hp1 & Hs1) (Hw2 & Hb2 & p2 & Hp2 & Hs2).
  unfold Buffer_byteLength, utf8_encode in *.
  destruct Hs1 as [-> | (p1' & x & -> & Hx)]; [rewrite Hp1 in Hf; cbn in Hf; lia|].
  destruct Hs2 as [-> | (p2' & y & -> & Hy)].
  { cbn in Hp2. rewrite <- Hp2, Hg, bind_app, length_app in Hb2. lia. }
  assert (scalars out1 = scalars out2) as Heq; [|rewrite <- Hw1, <- Hw2; by rewrite Heq].
  rewrite Hp2, Hp1, app_assoc in Hg.
  destruct (app_eq_inv _ _ _ _ (eq_sym Hg)) as [(k & Hk & Hk')|(k & Hk & Hk')].
  - eapply end_longer; [exists (pre ++ p1'), x; rewrite <- app_assoc; done|done|]. exists k. by rewrite <- app_assoc in Hk.
  - symmetry. eapply end_longer; [exists p2', y; done|done|]. by exists k.
Qed.

(** The last piece of a text is an end of it. *)
Lemma split_last c s init l : split_on c s = init ++ [l] → ∃ k, s = k ++ l.
Proof.
  intros H. rewrite <- (join_split c s), H. destruct init as [|i init]; [by exists []|].
  rewrite join_on_app by done. exists (join_on [c] (i :: init) ++ [c]). by rewrite <- app_assoc.
Qed.

Lemma boundary_suffix k a b : boundary (k ++ a) b → boundary a b.
Proof. intros H a' u ->. apply (H (k ++ a')). by rewrite app_assoc. Qed.

Lemma boundary_prefix a b b' : boundary a (b ++ b') → boundary a b.
Proof. intros H a' u Ha. specialize (H a' u Ha). unfold paired in *. destruct b; [apply andb_false_r|done]. Qed.

Lemma boundary_utf16 cs s : Forall scalar cs → boundary (utf16 cs) s.
Proof.
  intros H a' u Ha. destruct cs as [|c cs _] using rev_ind; [by destruct a'|].
  rewrite bind_app in Ha. cbn in Ha. rewrite app_nil_r in Ha. apply Forall_app in H as [_ [Hc _]%Forall_cons].
  assert (is_high_surrogate u = false) as Hu; [|unfold paired; by rewrite Hu].
  unfold utf16_scalar, scalar, is_high_surrogate in *. destruct (Z.ltb_spec c 0x10000).
  - apply app_inj_tail in Ha as [_ <-]. zb. lia.
  - apply (f_equal last) in Ha. rewrite last_app, last_snoc in Ha. cbn in Ha. injection Ha as <-. zb. Z.div_mod_to_equations. lia.
Qed.

(** The first line is a beginning. *)
Lemma lines_first w f rest : splitLinesForCounting w = f :: rest → ∃ t, w = f ++ t.
Proof.
  intros Hw. unfold splitLinesForCounting in Hw. case_bool_decide; [done|].
  assert (∃ ls, split_on LF w = f :: ls) as [ls Els].
  { case_match; [|by eexists]. destruct (split_on LF w) as [|x ls _] using rev_ind; [done|].
    rewrite removelast_snoc in Hw. subst. by eexists. }
  rewrite <- (join_split LF w), Els. destruct ls; [exists []; by rewrite app_nil_r|by eexists].
Qed.

Lemma boundary_pieces pre w init l f rest :
  boundary pre w → split_on LF pre = init ++ [l] → splitLinesForCounting w = f :: rest → boundary l f.
Proof.
  intros H Hpre Hw. destruct (split_last _ _ _ _ Hpre) as [k ->]. destruct (lines_first _ _ _ Hw) as [t ->].
  by eapply boundary_prefix, boundary_suffix.
Qed.

(** Truncating the end of a text from the tail is truncating the text, when the end
    is over the byte limit by more than a line feed. *)
Lemma truncateTail_window pre w options :
  boundary pre w → text_ok pre = true → text_ok w = true →
  0 ≤ maxBytes_of options → maxBytes_of options + 1 < Buffer_byteLength w →
  let r := truncateTail true w options in
  truncateTail true (pre ++ w) options =
    mkTruncation (tr_content r) (tr_truncated r) (tr_truncatedBy r)
      (Z.of_nat (length (splitLinesForCounting (pre ++ w)))) (Buffer_byteLength (pre ++ w))
      (tr_outputLines r) (tr_outputBytes r) (tr_lastLinePartial r) (tr_firstLineExceedsLimit r)
      (tr_maxLines r) (tr_maxBytes r).
Proof.
  intros Hbd Hpre Hok Hmb Hw. cbn zeta. assert (w ≠ []) as Hne by (intros ->; change (Buffer_byteLength []) with 0 in Hw; lia).
  assert (Buffer_byteLength (pre ++ w) = Buffer_byteLength pre + Buffer_byteLength w) as Hadd.
  { unfold Buffer_byteLength. rewrite encode_cut, length_app by done. lia. }
  pose proof (byteLength_nonneg pre). pose proof (size_lines w) as Hsize.
  destruct (lines_concat pre w Hne) as (init & l & f & rest & Hsp & Hwl & Hall).
  pose proof (boundary_pieces _ _ _ _ _ _ Hbd Hsp Hwl) as Hlf.
  unfold truncateTail. change (utf8ByteLength true) with Buffer_byteLength.
  rewrite !(proj2 (Z.leb_gt (Buffer_byteLength _) _)) by lia. rewrite !andb_false_r, Hall, Hwl.
  rewrite reverse_app, !reverse_cons, <- app_assoc. cbn [app].
  rewrite Hwl in Hsize. change 0 with (size []) at 1 3.
  rewrite (tail_loop_window (reverse rest) f (l ++ f)).
  - by destruct (tail_loop true _ _ _ _ _) as [[[out count] by_] partial].
  - rewrite reverse_involutive, app_nil_r. lia.
  - unfold Buffer_byteLength. rewrite encode_cut, length_app by done. lia.
  - intros Hrest _. assert (rest = []) as -> by (by apply (f_equal reverse) in Hrest; rewrite reverse_involutive in Hrest).
    rewrite size_one in Hsize. symmetry. eapply (longest_end_unique (maxBytes_of options) f (l ++ f) (scalars l)).
    + by apply scalars_cut.
    + lia.
    + apply truncateString_spec; [|done]. apply lines_ok in Hok. rewrite Hwl in Hok. by apply Forall_cons in Hok as [? _].
    + apply truncateString_spec; [|done].
      assert (text_ok (pre ++ w) = true) as Hok' by (rewrite text_ok_Forall in *; by apply Forall_app).
      apply lines_ok in Hok'. rewrite Hall in Hok'. by apply Forall_app in Hok' as [_ [? _]%Forall_cons].
Qed.

(** ** What the capture tracks *)

(** The capture has taken in the text of [cs]. *)
Record Tracks (c : Capture) (cs : list Z) : Prop := {
  tracks_scalar : Forall scalar cs;
  tracks_window : ∃ pre post, cs = pre ++ post ∧ tailOutput c = utf16 post ∧
    Z.of_nat (length (utf8 post)) ≤ maxOutputBytes ∧ (pre = [] ∨ maxOutputBytes - 6 ≤ Z.of_nat (length (utf8 post)));
  tracks_bytes : totalBytes c = Z.of_nat (length (utf8 cs));
  tracks_lines : ∃ init l, split_on LF (utf16 cs) = init ++ [l] ∧ completedLines c = Z.of_nat (length init) ∧
    hasOpenLine c = negb (bool_decide (l = [])) ∧ currentLineBytes c = Buffer_byteLength l;
}.

Lemma lastNewline_split s :
  match lastNewline s with
  | None => split_on LF s = [s]
  | Some i => ∃ first init, split_on LF s = first :: init ++ [drop (S i) s]
  end.
Proof.
  induction s as [|c s IH]; [done|]. cbn [lastNewline split_on]. destruct (lastNewline s) as [i|].
  - destruct IH as (first & init & ->). destruct (c =? LF); [by exists [], (first :: init)|by exists (c :: first), init].
  - rewrite IH. destruct (c =? LF); [by exists [], []|done].
Qed.

Lemma totalLines_spec c cs : Tracks c cs → totalLines c = Z.of_nat (length (splitLinesForCounting (utf16 cs))).
Proof.
  intros [_ _ _ (init & l & Hs & Hn & Ho & _)]. unfold totalLines, splitLinesForCounting. rewrite Hn, Ho.
  destruct (decide (utf16 cs = [])) as [E|E].
  { rewrite E in *. cbn in Hs. destruct init as [|? [|??]]; simplify_eq/=. done. }
  rewrite (bool_decide_false _ E), endsWith_split, Hs, last_snoc by done.
  case_bool_decide; case_bool_decide; simplify_eq; rewrite ?removelast_snoc, ?length_app; cbn; lia.
Qed.

Lemma count_text_lines c cs ts :
  Forall scalar ts → Tracks c cs →
  let c' := count_text c (utf16 ts) in
  ∃ init l, split_on LF (utf16 (cs ++ ts)) = init ++ [l] ∧ completedLines c' = Z.of_nat (length init) ∧
    hasOpenLine c' = negb (bool_decide (l = [])) ∧ currentLineBytes c' = Buffer_byteLength l.
Proof.
  intros Hts [Hcs _ _ (init & l & Hs & Hn & Ho & Hb)]. rewrite bind_app.
  destruct (split_on_concat LF (utf16 cs) (utf16 ts)) as (init' & l' & f & rest & Ha & Ht & ->).
  rewrite Hs in Ha. apply app_inj_tail in Ha as [<- <-]. unfold count_text.
  pose proof (lastNewline_split (utf16 ts)) as Hlast. destruct (lastNewline (utf16 ts)) as [i|].
  - destruct Hlast as (first & mid & Hmid). rewrite Hmid in *. simplify_eq. cbn -[Z.of_nat].
    exists (init ++ (l ++ f) :: mid), (drop (S i) (utf16 ts)). rewrite <- app_assoc. split; [done|].
    split; [|done]. repeat (rewrite length_app || cbn [length]). lia.
  - rewrite Hlast in *. simplify_eq. assert (boundary l (utf16 ts)) as Hbd.
    { destruct (split_last _ _ _ _ Hs) as [k Hk]. eapply (boundary_suffix k). rewrite <- Hk. by apply boundary_utf16. }
    exists init, (l ++ utf16 ts). split; [done|]. destruct (decide (utf16 ts = [])) as [E|E].
    + rewrite (bool_decide_true _ E), E, !app_nil_r. cbn [completedLines hasOpenLine currentLineBytes length].
      split_and!; [lia|done|done].
    + rewrite (bool_decide_false _ E). cbn -[Z.of_nat]. split_and!; [lia| |].
      * rewrite bool_decide_false; [done|]. by intros [_ ?]%app_nil.
      * unfold Buffer_byteLength in *. rewrite encode_cut, length_app by done. lia.
Qed.

Lemma onChunk_tracks c cs ds thrown :
  acceptingOutput c = true → Forall scalar ds → Tracks c cs →
  Tracks (onChunk c (utf16 ds) thrown) (cs ++ filter kept_scalar ds).
Proof.
  intros Hacc Hds Ht. assert (Forall scalar (filter kept_scalar ds)) as Hts.
  { apply Forall_forall. intros x [_ Hx]%list_elem_of_filter. rewrite Forall_forall in Hds. auto. }
  pose proof (count_text_lines c cs _ Hts Ht) as Hlines. destruct Ht as [Hcs (pre & post & -> & Htail & Hle & Hor) Hb _].
  unfold onChunk. rewrite Hacc. cbn [negb]. rewrite clean_chunk_scalars by done.
  set (ts := filter kept_scalar ds) in *. set (c1 := count_text c (utf16 ts)) in *.
  assert (tailOutput c1 = utf16 (post ++ ts)) as Htail1.
  { subst c1. unfold count_text. destruct (match lastNewline _ with Some _ => _ | None => _ end). cbn. by rewrite Htail, bind_app. }
  assert (totalBytes c1 = Z.of_nat (length (utf8 ((pre ++ post) ++ ts)))) as Hbytes1.
  { subst c1. unfold count_text. destruct (match lastNewline _ with Some _ => _ | None => _ end). cbn [totalBytes].
    rewrite Hb, encode_utf16, (bind_app _ _ ts), length_app by done. lia. }
  match goal with |- Tracks (with_tail ?c2 _ _) _ => assert (∃ a q r js, c2 = with_jobs c1 a q r js) as (a & q & r & js & ->) end.
  { unfold ensureFullOutputFile, appendFullOutput. repeat case_match; eauto; by exists (fullOutputRequested c1), (fullOutputPath c1), (chain c1), (jobs c1); destruct c1. }
  assert (Forall scalar (post ++ ts)) as Hpost.
  { apply Forall_app in Hcs as [_ ?]. by apply Forall_app. }
  constructor; cbn.
  - by apply Forall_app.
  - rewrite Htail1. destruct (trim_spec (post ++ ts) maxOutputBytes Hpost ltac:(done)) as (pre' & post' & Hsplit & Htrim & Hle' & Hor').
    exists (pre ++ pre'), post'. split_and!; [by rewrite <- !app_assoc, Hsplit|done|done|].
    destruct Hor as [-> |Hbig]; [destruct Hor' as [-> |]; [by left|by right]|].
    destruct Hor' as [-> |]; [|by right]. right. cbn in Hsplit. subst post'. rewrite bind_app, length_app. lia.
  - done.
  - done.
Qed.

(** The result for a text over a limit names the limit. *)
Lemma truncateTail_shape s options :
  let r := truncateTail true s options in
  tr_truncated r = negb (bool_decide (within s options)) ∧ (tr_truncated r = true → is_Some (tr_truncatedBy r)) ∧
  (tr_truncated r = false → r = untruncated s (Z.of_nat (length (splitLinesForCounting s))) (Buffer_byteLength s)
    (maxLines_of options) (maxBytes_of options)) ∧
  tr_totalLines r = Z.of_nat (length (splitLinesForCounting s)) ∧ tr_totalBytes r = Buffer_byteLength s.
Proof.
  cbn zeta. unfold truncateTail. change (utf8ByteLength true s) with (Buffer_byteLength s). rewrite within_test.
  case_bool_decide; [done|]. destruct (tail_loop true _ _ _ _ _) as [[[out count] by_] partial]. cbn. by eauto.
Qed.

(** What the window gives, with the totals of the whole. *)
Lemma window_truncation pre post :
  Forall scalar pre → Forall scalar post →
  (pre = [] ∨ maxOutputBytes - 6 ≤ Z.of_nat (length (utf8 post))) →
  let w := truncateTail true (utf16 post) no_options in
  let whole := utf16 (pre ++ post) in
  tr_truncated w = negb (bool_decide (within whole no_options)) ∧
  truncateTail true whole no_options =
    mkTruncation (tr_content w) (tr_truncated w) (tr_truncatedBy w)
      (Z.of_nat (length (splitLinesForCounting whole))) (Buffer_byteLength whole)
      (tr_outputLines w) (tr_outputBytes w) (tr_lastLinePartial w) (tr_firstLineExceedsLimit w)
      (tr_maxLines w) (tr_maxBytes w).
Proof.
  intros Hpre Hpost Hor. cbn zeta. destruct (truncateTail_shape (utf16 post) no_options) as (Hw & _ & _ & Hl & Hb).
  destruct Hor as [-> |Hbig].
  { cbn [app]. split; [done|]. rewrite <- Hl, <- Hb. by destruct (truncateTail true _ _). }
  rewrite <- byteLength_utf16 in Hbig by done.
  assert (maxBytes_of no_options + 1 < Buffer_byteLength (utf16 post)) as Hover.
  { change (maxBytes_of no_options) with 51200. change maxOutputBytes with 102400 in Hbig. lia. }
  assert (Buffer_byteLength (utf16 (pre ++ post)) = Buffer_byteLength (utf16 pre) + Buffer_byteLength (utf16 post)) as Hadd.
  { rewrite !byteLength_utf16, bind_app, length_app by (done || by apply Forall_app). lia. }
  pose proof (byteLength_nonneg (utf16 pre)).
  split.
  - rewrite Hw. f_equal. rewrite !bool_decide_false; [done|unfold within; lia..].
  - rewrite bind_app. apply truncateTail_window; [by apply boundary_utf16|by apply utf16_ok..|done|done].
Qed.

Lemma over_limits s :
  (DEFAULT_MAX_LINES <? Z.of_nat (length (splitLinesForCounting s))) || (DEFAULT_MAX_BYTES <? Buffer_byteLength s) =
  negb (bool_decide (within s no_options)).
Proof.
  unfold within. change (maxLines_of no_options) with DEFAULT_MAX_LINES. change (maxBytes_of no_options) with DEFAULT_MAX_BYTES.
  case_bool_decide; cbn [negb]; [apply orb_false_iff|apply orb_true_iff]; rewrite ?Z.ltb_ge, ?Z.ltb_lt; [done|lia].
Qed.

(** What is shown, from what is tracked. *)
Lemma createProgress_spec b c cs :
  Tracks c cs →
  let r := truncateTail b (utf16 cs) no_options in
  sp_truncation (createProgress b c) = r ∧ sp_output (createProgress b c) = tr_content r.
Proof.
  intros Ht. pose proof (totalLines_spec c cs Ht) as Htl.
  destruct Ht as [Hcs (pre & post & -> & Htail & Hle & Hor) Hb _].
  rewrite <- byteLength_utf16 in Hb by done. pose proof (utf16_ok _ Hcs) as Hok.
  apply Forall_app in Hcs as [Hpre Hpost]. pose proof (utf16_ok _ Hpost) as Hok'.
  cbn zeta. unfold createProgress. rewrite Htail, Htl, Hb.
  rewrite (proj2 (truncate_runtime b _ no_options Hok)), (proj2 (truncate_runtime b _ no_options Hok')).
  destruct (window_truncation pre post Hpre Hpost Hor) as [Hflag Hwhole].
  destruct (truncateTail_shape (utf16 post) no_options) as (_ & Hby & Hsame & _).
  rewrite over_limits, Hwhole, <- Hflag. set (w := truncateTail true (utf16 post) no_options) in *. cbn.
  destruct (tr_truncated w) eqn:Ew.
  - destruct (Hby eq_refl) as [l ->]. done.
  - rewrite (Hsame eq_refl). done.
Qed.

(** ** Runs *)

Section runs.
Context (b : bool) {F : Type} `{HF : FileSystem F, HL : !FsLaws F, HT : !ToolFiles F, !ToolLaws F}.

(** Only a chunk changes what is tracked. *)
Lemma tracks_same c c' cs :
  Tracks c cs → tailOutput c' = tailOutput c → totalBytes c' = totalBytes c → completedLines c' = completedLines c →
  hasOpenLine c' = hasOpenLine c → currentLineBytes c' = currentLineBytes c → Tracks c' cs.
Proof. intros [H1 H2 H3 H4] E1 E2 E3 E4 E5. constructor; rewrite ?E1, ?E2, ?E3, ?E4, ?E5; done. Qed.

Lemma run_job_with_jobs c (f : F) c' f' :
  run_job c f = (c', f') → ∃ a q r js, c' = with_jobs c a q r js.
Proof.
  unfold run_job. intros H. repeat case_match; simplify_eq; eauto.
  by exists (fullOutputRequested c'), (fullOutputPath c'), (chain c'), (jobs c'); destruct c'.
Qed.

Lemma exec_done_with_jobs c outcome : ∃ a q r js, exec_done b c outcome = with_jobs (stop_accepting c) a q r js.
Proof.
  unfold exec_done, ensureFullOutputFile. repeat case_match; eauto;
    by exists (fullOutputRequested c), (fullOutputPath c), (chain c), (jobs c); destruct c.
Qed.

(** The text taken in. *)
Notation whole h := (h ≫= clean_chunk).

(** The file and the writes still to run make up the text. *)
Definition log_ok (c : Capture) (f : F) (text : jsstr) : Prop :=
  chain c = Ok tt → captureError c = None →
  if fullOutputRequested c then
    ∃ ts, match fullOutputPath c with
          | None => ∃ t, jobs c = CreateLog t :: (AppendLog <$> ts) ∧ t ++ concat ts = text
          | Some p =>
              ∃ t, (jobs c = WriteInitial p t :: (AppendLog <$> ts) ∧ files f !! p = Some [] ∨
                    jobs c = (AppendLog <$> ts) ∧ files f !! p = Some t) ∧ t ++ concat ts = text
          end
  else fullOutputPath c = None ∧ jobs c = [] ∧ tailOutput c = text ∧ within text no_options.

Lemma log_ok_job c f text c' f' : run_job c f = (c', f') → log_ok c f text → log_ok c' f' text.
Proof.
  unfold run_job. intros H Hlog.
  destruct (jobs c) as [|job rest] eqn:Ej; [by simplify_eq|].
  destruct (chain c) as [[]|e] eqn:Ec; [|simplify_eq; intros Hc; cbn in Hc; congruence].
  specialize (Hlog Ec). unfold log_ok. intros Hc' He'.
  assert (captureError c = None) as He by (clear -H He'; repeat case_match; simplify_eq; done).
  specialize (Hlog He). destruct (fullOutputRequested c) eqn:Er; [|by destruct Hlog as (_ & Hnil & _); rewrite Ej in Hnil].
  destruct Hlog as [ts Hlog]. destruct (fullOutputPath c) as [p|] eqn:Ep.
  - destruct Hlog as (t & [[Hj Hf]|[Hj Hf]] & Htext); rewrite Ej in Hj.
    + injection Hj as -> ->. destruct (appendFile p t f) as [f1 r] eqn:Ea. simplify_eq. cbn in Hc'.
      destruct r as [[]|]; [|done]. apply append_law in Ea as [Ea _]. specialize (Ea eq_refl). cbn. rewrite ?Er.
      exists ts, t. split; [right|done]. split; [done|]. rewrite Ea, lookup_insert_eq, Hf. done.
    + destruct ts as [|t1 ts]; [done|]. injection Hj as -> ->. destruct (appendFile p t1 f) as [f1 r] eqn:Ea. simplify_eq.
      cbn in Hc'. destruct r as [[]|]; [|done]. apply append_law in Ea as [Ea _]. specialize (Ea eq_refl). cbn. rewrite ?Er.
      exists ts, (t ++ t1). split; [right|by rewrite <- app_assoc]. split; [done|].
      by rewrite Ea, lookup_insert_eq, Hf.
  - destruct Hlog as (t & Hj & Htext). rewrite Ej in Hj. injection Hj as -> ->.
    destruct (createTempFile _ _ f) as [f1 [p|e]] eqn:Et; simplify_eq.
    apply temp_law in Et as [Et _]. destruct (Et p eq_refl) as [_ Hf1]. cbn. rewrite ?Er.
    exists ts, t. split; [left|done]. split; [done|]. by rewrite Hf1, lookup_insert_eq.
Qed.
(** The counts leave the other variables alone. *)
Lemma count_text_rest c text :
  let c' := count_text c text in
  tailOutput c' = tailOutput c ++ text ∧ fullOutputPath c' = fullOutputPath c ∧
  fullOutputRequested c' = fullOutputRequested c ∧ chain c' = chain c ∧ jobs c' = jobs c ∧ captureError c' = captureError c.
Proof. cbn zeta. unfold count_text. by destruct (match lastNewline text with Some _ => _ | None => _ end). Qed.

(** An error, once there, stays. *)
Lemma onChunk_error c chunk thrown :
  captureError (onChunk c chunk thrown) = None → acceptingOutput c = true → captureError c = None ∧ thrown = None.
Proof.
  intros H Ha. unfold onChunk in H. rewrite Ha in H. cbn [negb] in H. destruct thrown; [done|]. split; [|done].
  destruct (count_text_rest c (clean_chunk chunk)) as (_ & _ & _ & _ & _ & Herr). cbn in H. rewrite <- Herr.
  unfold ensureFullOutputFile, appendFullOutput in H. by repeat case_match.
Qed.

(** A chunk without an error: the text goes to the file if there is one, and
    everything so far does if the text is the first to be over a limit. *)
Lemma onChunk_jobs c chunk :
  acceptingOutput c = true → captureError c = None →
  let text := clean_chunk chunk in
  let c' := onChunk c chunk None in
  chain c' = chain c ∧ fullOutputPath c' = fullOutputPath c ∧
  if fullOutputRequested c then fullOutputRequested c' = true ∧ jobs c' = jobs c ++ [AppendLog text]
  else if (DEFAULT_MAX_LINES <? totalLines c') || (DEFAULT_MAX_BYTES <? totalBytes c')
  then fullOutputRequested c' = true ∧ jobs c' = jobs c ++ [CreateLog (tailOutput c ++ text)]
  else fullOutputRequested c' = false ∧ jobs c' = jobs c ∧
    tailOutput c' = trimToLastUtf8Bytes (tailOutput c ++ text) maxOutputBytes.
Proof.
  intros Ha He. cbn zeta. unfold onChunk. rewrite Ha. cbn [negb].
  destruct (count_text_rest c (clean_chunk chunk)) as (Ht & Hp & Hr & Hc & Hj & Herr).
  set (c1 := count_text c (clean_chunk chunk)) in *. unfold ensureFullOutputFile, appendFullOutput, failing.
  rewrite Hr, Herr, He. rewrite (bool_decide_false (is_Some None)) by by intros [].
  destruct (fullOutputRequested c); cbn [negb orb].
  - rewrite andb_false_r. cbn. rewrite Hc, Hp, Hj. done.
  - rewrite andb_true_r, orb_comm. destruct (_ || _) eqn:E.
    + cbn. unfold totalLines in *. cbn. rewrite E, Hc, Hp, Hj, Ht. done.
    + cbn. unfold totalLines in *. cbn. rewrite E, Hc, Hp, Hj, Ht. done.
Qed.

(** A chunk: nothing more than the text it brings. *)
Lemma log_ok_chunk c f cs ds thrown :
  acceptingOutput c = true → Forall scalar ds → Tracks c cs → log_ok c f (utf16 cs) →
  log_ok (onChunk c (utf16 ds) thrown) f (utf16 (cs ++ filter kept_scalar ds)).
Proof.
  intros Ha Hds Ht Hlog Hc He. destruct (onChunk_error _ _ _ He Ha) as [He0 ->].
  pose proof (onChunk_tracks c cs ds None Ha Hds Ht) as Ht'.
  destruct (onChunk_jobs c (utf16 ds) Ha He0) as (Hc' & Hp & Hrest). rewrite Hc' in Hc. specialize (Hlog Hc He0).
  rewrite (totalLines_spec _ _ Ht'), (tracks_bytes _ _ Ht') in Hrest.
  rewrite <- byteLength_utf16, over_limits in Hrest by apply Ht'.
  rewrite clean_chunk_scalars in Hrest by done. rewrite bind_app in *.
  set (text := utf16 (filter kept_scalar ds)) in *.
  destruct (fullOutputRequested c).
  - destruct Hrest as [-> ->], Hlog as [ts Hlog]. rewrite Hp. exists (ts ++ [text]). rewrite fmap_app, concat_app. cbn.
    rewrite app_nil_r. destruct (fullOutputPath c) as [p|].
    + destruct Hlog as (t & Hj & Htext). exists t. rewrite app_assoc, Htext. split; [|done].
      destruct Hj as [[-> Hf]|[-> Hf]]; [by left|by right].
    + destruct Hlog as (t & -> & Htext). exists t. rewrite app_assoc, Htext. done.
  - destruct Hlog as (Hnone & Hj & Htail & Hin). rewrite Hj, Htail in Hrest. case_bool_decide as Hw; cbn [negb] in Hrest.
    + destruct Hrest as (-> & -> & ->). rewrite Hp. split_and!; [done|done| |done]. unfold trimToLastUtf8Bytes.
      rewrite (proj2 (Z.leb_le _ _)); [done|]. destruct Hw as [_ Hb].
      change (maxBytes_of no_options) with 51200 in Hb. change maxOutputBytes with 102400. unfold Buffer_byteLength in Hb. lia.
    + destruct Hrest as [-> ->]. exists []. rewrite Hp, Hnone. exists (utf16 cs ++ text). by rewrite app_nil_r.
Qed.

Lemma log_ok_done c f cs outcome : Tracks c cs → log_ok c f (utf16 cs) → log_ok (exec_done b c outcome) f (utf16 cs).
Proof.
  intros Ht Hlog. assert (log_ok (stop_accepting c) f (utf16 cs)) as Hstop by exact Hlog.
  unfold exec_done. destruct outcome as [r|]; [|done]. destruct (_ && negb _) eqn:E; [|done].
  apply andb_true_iff in E as [Htr Hreq%negb_true_iff]. unfold ensureFullOutputFile.
  intros Hc He. rewrite Hreq in *. unfold failing in *.
  assert (captureError (stop_accepting c) = None) as He0 by (revert He; by case_match).
  rewrite He0 in *. rewrite bool_decide_false in * by by intros []. cbn [orb] in *.
  specialize (Hstop Hc He0). rewrite Hreq in Hstop. destruct Hstop as (_ & _ & _ & Hin). exfalso.
  assert (Tracks (stop_accepting c) cs) as Ht' by by eapply tracks_same.
  destruct (createProgress_spec b _ _ Ht') as [Hp _]. rewrite Hp in Htr.
  rewrite (proj2 (truncate_runtime b _ no_options (utf16_ok _ (tracks_scalar _ _ Ht)))) in Htr.
  destruct (truncateTail_shape (utf16 cs) no_options) as [Hs _]. by rewrite Hs, bool_decide_true in Htr.
Qed.

Lemma runs_log (f : F) h r :
  runs b f h r → ∃ cs, utf16 cs = whole h ∧ Tracks (sh_capture r) cs ∧ log_ok (sh_capture r) (sh_files r) (utf16 cs).
Proof.
  induction 1 as [|h r l r' Hr (cs & Hcs & Ht & Hlog) Hstep].
  { exists []. split; [done|]. split; [|by intros _ _].
    constructor; [done|by exists [], []; split_and!; [..|left]|done|by exists [], []]. }
  destruct Hstep as [c f0 d chunk thrown Hok Hw|c f0 d c' f' Hjob|c f0 outcome|c f0 d f' Hsame]; cbn [sh_capture sh_files] in *.
  - destruct (acceptingOutput c) eqn:Ha.
    + destruct (text_scalars chunk Hok Hw) as (ds & Hds & ->). exists (cs ++ filter kept_scalar ds).
      split_and!; [|by apply onChunk_tracks|by apply log_ok_chunk]. rewrite !bind_app, Hcs. cbn. by rewrite app_nil_r, clean_chunk_scalars.
    + exists cs. rewrite app_nil_r. unfold onChunk. rewrite Ha. done.
  - exists cs. rewrite app_nil_r. split_and!; [done| |by eapply log_ok_job].
    destruct (run_job_with_jobs _ _ _ _ Hjob) as (? & ? & ? & ? & ->). by eapply tracks_same.
  - exists cs. rewrite app_nil_r. split_and!; [done| |by apply log_ok_done].
    destruct (exec_done_with_jobs c outcome) as (? & ? & ? & ? & ->). by eapply tracks_same.
  - exists cs. rewrite app_nil_r. split_and!; [done..|]. intros Hc He. specialize (Hlog Hc He). destruct (fullOutputRequested c); [|done].
    destruct Hlog as [ts Hlog]. exists ts. destruct (fullOutputPath c) as [p|]; [|done]. by rewrite (Hsame p eq_refl).
Qed.

(** ** Settling *)

(** The awaits left of the chain. *)
Definition job_awaits (j : WriteJob) : nat := match j with CreateLog _ => 2 | _ => 1 end.

Lemma run_job_less c (f : F) :
  jobs c ≠ [] → (sum_list_with job_awaits (jobs (run_job c f).1) < sum_list_with job_awaits (jobs c))%nat.
Proof.
  unfold run_job. intros Hne. destruct (jobs c) as [|job rest]; [done|].
  destruct (chain c); [|destruct job; cbn; lia]. destruct job as [t|p t|t].
  - destruct (createTempFile _ _ f) as [f' [p|e]]; cbn; lia.
  - destruct (appendFile p t f); cbn; lia.
  - destruct (fullOutputPath c) as [p|]; [destruct (appendFile p t f)|]; cbn; lia.
Qed.

Definition run_jobs (n : nat) (c : Capture) (f : F) : Capture * F := Nat.iter n (λ s, run_job s.1 s.2) (c, f).

(** The chain runs dry. *)
Lemma run_jobs_dry n c (f : F) : (sum_list_with job_awaits (jobs c) ≤ n)%nat → jobs (run_jobs n c f).1 = [].
Proof.
  assert (∀ n c f, run_jobs (S n) c f = let '(c', f') := run_job c f in run_jobs n c' f') as Hiter.
  { intros m x g. unfold run_jobs. rewrite Nat.iter_succ_r. cbn [fst snd]. by destruct (run_job x g). }
  revert c f. induction n as [|n IH]; intros c f Hn.
  - destruct (jobs c) as [|[] rest] eqn:E; cbn in *; [done|lia..].
  - rewrite Hiter. destruct (decide (jobs c = [])) as [E|E].
    + unfold run_job. rewrite E. apply IH. rewrite E. cbn. lia.
    + pose proof (run_job_less c f E). destruct (run_job c f) as [c' f']. apply IH. cbn in *. lia.
Qed.

(** After the end of the command no chunk is taken in. *)
Lemma runs_done (f : F) h r outcome : runs b f h r → sh_done r = Some outcome → acceptingOutput (sh_capture r) = false.
Proof.
  intros H. revert outcome. induction H as [|h r l r' _ IH Hstep]; intros outcome Hd; [done|].
  destruct Hstep as [c f0 d chunk thrown _ _|c f0 d c' f' Hjob|c f0 o|c f0 d f' _]; cbn in *; [| | |by eapply IH].
  - unfold onChunk. rewrite (IH _ Hd). by eapply IH.
  - destruct (run_job_with_jobs _ _ _ _ Hjob) as (? & ? & ? & ? & ->). by eapply IH.
  - by destruct (exec_done_with_jobs c o) as (? & ? & ? & ? & ->).
Qed.
End runs.
