(* ===== verification/EditDiff.v ===== *)
(** Applying edits to a text: [agent/src/harness/tools/edit-diff.ts].  Unicode
    normalization ([NFKC]) and the line diff of the [diff] package are arguments. *)
From S2P Require Import Prelude JsValue Json Regex NodePath Truncate.
Open Scope Z_scope.

Definition CR : Z := 0x0d.

(** ** Strings *)

(** [content.indexOf(sub)] *)
Fixpoint indexOf (content sub : jsstr) : option nat :=
  if startsWith content sub then Some O else
  match content with
  | [] => None
  | _ :: content => S <$> indexOf content sub
  end.

(** [content.split(sub).length] for a separator that is not empty; [skip] units of
    an occurrence are still to be passed. *)
Fixpoint count_splits (content sub : jsstr) (skip : nat) : nat :=
  match content with
  | [] => 1
  | _ :: content' =>
      match skip with
      | S skip => count_splits content' sub skip
      | O => if startsWith content sub then S (count_splits content' sub (length sub - 1)) else count_splits content' sub 0
      end
  end.

(** [content.split(sub).length]; splitting by the empty string gives the units. *)
Definition split_length (content sub : jsstr) : Z :=
  Z.of_nat (if bool_decide (sub = []) then length content else count_splits content sub 0).

(** ** Line endings *)

Inductive Ending := EndingLF | EndingCRLF.

Definition detectLineEnding (content : jsstr) : Ending :=
  match indexOf content [LF], indexOf content [CR; LF] with
  | None, _ => EndingLF
  | _, None => EndingLF
  | Some lfIdx, Some crlfIdx => if bool_decide (crlfIdx < lfIdx)%nat then EndingCRLF else EndingLF
  end.

(** [text.replace(/\r\n/g, "\n")] *)
Fixpoint replace_crlf (text : jsstr) : jsstr :=
  match text with
  | [] => []
  | c :: rest =>
      match rest with
      | d :: rest' => if (c =? CR) && (d =? LF) then LF :: replace_crlf rest' else c :: replace_crlf rest
      | [] => [c]
      end
  end.

Definition normalizeToLF (text : jsstr) : jsstr := (λ c, if c =? CR then LF else c) <$> replace_crlf text.

Definition restoreLineEndings (text : jsstr) (ending : Ending) : jsstr :=
  match ending with
  | EndingCRLF => text ≫= λ c, if c =? LF then [CR; LF] else [c]
  | EndingLF => text
  end.

(** ** Lines *)

(** [content.match(/[^\n]*\n|[^\n]+/g) ?? []] *)
Fixpoint splitLinesWithEndings (content : jsstr) : list jsstr :=
  match content with
  | [] => []
  | c :: content =>
      if c =? LF then [LF] :: splitLinesWithEndings content else
      match splitLinesWithEndings content with
      | line :: lines => (c :: line) :: lines
      | [] => [[c]]
      end
  end.

Record LineSpan := mkSpan { ls_start : Z; ls_end : Z }.
Record TextReplacement := mkReplacement { matchIndex : Z; matchLength : Z; newText : jsstr }.
Record MatchedEdit := mkMatched { editIndex : nat; me_replacement : TextReplacement }.

Fixpoint spans_from (offset : Z) (lines : list jsstr) : list LineSpan :=
  match lines with
  | [] => []
  | line :: lines => let end_ := offset + Z.of_nat (length line) in mkSpan offset end_ :: spans_from end_ lines
  end.

Definition getLineSpans (content : jsstr) : list LineSpan := spans_from 0 (splitLinesWithEndings content).

(** What can be thrown, with the data of its message. *)
Inductive EditError :=
| OutsideBase | LineCountDiffers
| NotFound (editIndex totalEdits : nat) | Duplicate (editIndex totalEdits : nat) (occurrences : Z)
| EmptyOldText (editIndex totalEdits : nat) | NoChange (totalEdits : nat) | Overlap (first second : nat).

(** The first line that contains an offset. *)
Fixpoint find_line (lines : list LineSpan) (offset : Z) : option nat :=
  match lines with
  | [] => None
  | l :: lines => if (ls_start l <=? offset) && (offset <? ls_end l) then Some O else S <$> find_line lines offset
  end.

(** [while (endLine < lines.length && lines[endLine].end < replacementEnd) endLine++], over the lines from [endLine] on. *)
Fixpoint advance_line (lines : list LineSpan) (endLine : nat) (replacementEnd : Z) : option nat :=
  match lines with
  | [] => None
  | l :: lines => if ls_end l <? replacementEnd then advance_line lines (S endLine) replacementEnd else Some endLine
  end.

Definition getReplacementLineRange (lines : list LineSpan) (replacement : TextReplacement) : result EditError (nat * nat) :=
  let replacementEnd := matchIndex replacement + matchLength replacement in
  match find_line lines (matchIndex replacement) with
  | None => Err OutsideBase
  | Some startLine =>
      match advance_line (drop startLine lines) startLine replacementEnd with
      | None => Err OutsideBase
      | Some endLine => Ok (startLine, S endLine)
      end
  end.

(** [result.substring(0, i)] and [result.substring(i)] *)
Definition substring_to (s : jsstr) (i : Z) : jsstr := take (Z.to_nat i) s.
Definition substring_from (s : jsstr) (i : Z) : jsstr := drop (Z.to_nat i) s.

(** The loop runs from the last replacement to the first. *)
Definition applyReplacements (content : jsstr) (replacements : list TextReplacement) (offset : Z) : jsstr :=
  foldr (λ r result_,
    let i := matchIndex r - offset in
    substring_to result_ i ++ newText r ++ substring_from result_ (i + matchLength r)) content replacements.

(** A block of touched lines and the replacements in it. *)
Record Group := mkGroup { g_startLine : nat; g_endLine : nat; g_replacements : list TextReplacement }.

(** One turn of the grouping loop; the last group is first. *)
Definition add_to_groups (baseLines : list LineSpan) (groups : list Group) (replacement : TextReplacement) :
    result EditError (list Group) :=
  let* range := getReplacementLineRange baseLines replacement in
  let '(startLine, endLine) := range in
  match groups with
  | current :: earlier =>
      if bool_decide (startLine < g_endLine current)%nat
      then Ok (mkGroup (g_startLine current) (Nat.max (g_endLine current) endLine)
                 (g_replacements current ++ [replacement]) :: earlier)
      else Ok (mkGroup startLine endLine [replacement] :: groups)
  | [] => Ok [mkGroup startLine endLine [replacement]]
  end.

(** [lines.slice(from, to)] *)
Definition slice {A} (l : list A) (from to : nat) : list A := drop from (take to l).

(** [baseLines[i].start] and [baseLines[i].end] of a line that is there. *)
Definition start_of (lines : list LineSpan) (i : nat) : Z := match lines !! i with Some l => ls_start l | None => 0 end.
Definition end_of (lines : list LineSpan) (i : nat) : Z := match lines !! i with Some l => ls_end l | None => 0 end.

Definition add_group (originalLines : list jsstr) (baseContent : jsstr) (baseLines : list LineSpan)
    (acc : jsstr * nat) (group : Group) : jsstr * nat :=
  let '(result_, originalLineIndex) := acc in
  let groupStartOffset := start_of baseLines (g_startLine group) in
  let groupEndOffset := end_of baseLines (g_endLine group - 1) in
  (result_ ++ concat (slice originalLines originalLineIndex (g_startLine group)) ++
     applyReplacements (slice baseContent (Z.to_nat groupStartOffset) (Z.to_nat groupEndOffset))
       (g_replacements group) groupStartOffset,
   g_endLine group).

Definition applyReplacementsPreservingUnchangedLines (originalContent baseContent : jsstr)
    (replacements : list TextReplacement) : result EditError jsstr :=
  let originalLines := splitLinesWithEndings originalContent in
  let baseLines := getLineSpans baseContent in
  if negb (bool_decide (length originalLines = length baseLines)) then Err LineCountDiffers else
  let sortedReplacements := sort_by matchIndex replacements in
  let* groups := rfold (add_to_groups baseLines) [] sortedReplacements in
  let '(result_, originalLineIndex) :=
    foldl (add_group originalLines baseContent baseLines) ([], O) (reverse groups) in
  Ok (result_ ++ concat (drop originalLineIndex originalLines)).

(** ** Matching *)

Record FuzzyMatchResult := mkMatch {
  fm_found : bool; fm_index : Z; fm_matchLength : Z; fm_usedFuzzyMatch : bool; fm_contentForReplacement : jsstr }.

Record Edit := mkEdit { oldText : jsstr; ed_newText : jsstr }.
Record AppliedEditsResult := mkApplied { baseContent : jsstr; newContent : jsstr }.

Definition is_single_quote (c : Z) : bool := (0x2018 <=? c) && (c <=? 0x201b).
Definition is_double_quote (c : Z) : bool := (0x201c <=? c) && (c <=? 0x201f).
Definition is_dash (c : Z) : bool := (0x2010 <=? c) && (c <=? 0x2015) || (c =? 0x2212).
Definition is_special_space (c : Z) : bool :=
  (c =? 0xa0) || (0x2002 <=? c) && (c <=? 0x200a) || (c =? 0x202f) || (c =? 0x205f) || (c =? 0x3000).

(** The four replacements, one after the other. *)
Definition normalize_unit (c : Z) : Z :=
  let c := if is_single_quote c then 0x27 else c in
  let c := if is_double_quote c then 0x22 else c in
  let c := if is_dash c then 0x2d else c in
  if is_special_space c then 0x20 else c.

Definition stripBom (content : jsstr) : jsstr * jsstr :=
  if startsWith content [0xfeff] then ([0xfeff], drop 1 content) else ([], content).

Section edit.
Context (NFKC : jsstr → jsstr).

Definition normalizeForFuzzyMatch (text : jsstr) : jsstr :=
  normalize_unit <$> join_on [LF] (trimEnd <$> split_on LF (NFKC text)).

Definition fuzzyFindText (content oldText : jsstr) : FuzzyMatchResult :=
  match indexOf content oldText with
  | Some exactIndex => mkMatch true (Z.of_nat exactIndex) (Z.of_nat (length oldText)) false content
  | None =>
      let fuzzyContent := normalizeForFuzzyMatch content in
      let fuzzyOldText := normalizeForFuzzyMatch oldText in
      match indexOf fuzzyContent fuzzyOldText with
      | None => mkMatch false (-1) 0 false content
      | Some fuzzyIndex => mkMatch true (Z.of_nat fuzzyIndex) (Z.of_nat (length fuzzyOldText)) true fuzzyContent
      end
  end.

Definition countOccurrences (content oldText : jsstr) : Z :=
  split_length (normalizeForFuzzyMatch content) (normalizeForFuzzyMatch oldText) - 1.

(** The matching loop: [i] is the index of the edit. *)
Definition match_edit (replacementBaseContent : jsstr) (total : nat) (i : nat) (edit : Edit) : result EditError MatchedEdit :=
  let matchResult := fuzzyFindText replacementBaseContent (oldText edit) in
  if negb (fm_found matchResult) then Err (NotFound i total) else
  let occurrences := countOccurrences replacementBaseContent (oldText edit) in
  if 1 <? occurrences then Err (Duplicate i total occurrences) else
  Ok (mkMatched i (mkReplacement (fm_index matchResult) (fm_matchLength matchResult) (ed_newText edit))).

Fixpoint match_edits (replacementBaseContent : jsstr) (total i : nat) (edits : list Edit) : result EditError (list MatchedEdit) :=
  match edits with
  | [] => Ok []
  | edit :: edits =>
      let* m := match_edit replacementBaseContent total i edit in
      let* ms := match_edits replacementBaseContent total (S i) edits in
      Ok (m :: ms)
  end.

(** [me.matchIndex] *)
Definition me_index (m : MatchedEdit) : Z := matchIndex (me_replacement m).
Definition me_end (m : MatchedEdit) : Z := matchIndex (me_replacement m) + matchLength (me_replacement m).

(** The first two neighbours that overlap. *)
Fixpoint find_overlap (sorted : list MatchedEdit) : option (nat * nat) :=
  match sorted with
  | previous :: rest =>
      match rest with
      | current :: _ => if me_index current <? me_end previous then Some (editIndex previous, editIndex current) else find_overlap rest
      | [] => None
      end
  | [] => None
  end.

(** The first edit whose old text is empty. *)
Fixpoint find_empty (i : nat) (edits : list Edit) : option nat :=
  match edits with
  | [] => None
  | e :: edits => if bool_decide (oldText e = []) then Some i else find_empty (S i) edits
  end.

Definition normalize_edit (e : Edit) : Edit := mkEdit (normalizeToLF (oldText e)) (normalizeToLF (ed_newText e)).

Definition applyEditsToNormalizedContent (normalizedContent : jsstr) (edits : list Edit) : result EditError AppliedEditsResult :=
  let normalizedEdits := normalize_edit <$> edits in
  let total := length normalizedEdits in
  match find_empty 0 normalizedEdits with
  | Some i => Err (EmptyOldText i total)
  | None =>
      let initialMatches := (λ e, fuzzyFindText normalizedContent (oldText e)) <$> normalizedEdits in
      let usedFuzzyMatch := existsb fm_usedFuzzyMatch initialMatches in
      let replacementBaseContent := if usedFuzzyMatch then normalizeForFuzzyMatch normalizedContent else normalizedContent in
      let* matched := match_edits replacementBaseContent total 0 normalizedEdits in
      let matchedEdits := sort_by me_index matched in
      match find_overlap matchedEdits with
      | Some (a, b) => Err (Overlap a b)
      | None =>
          let replacements := me_replacement <$> matchedEdits in
          let* newContent :=
            if usedFuzzyMatch
            then applyReplacementsPreservingUnchangedLines normalizedContent replacementBaseContent replacements
            else Ok (applyReplacements replacementBaseContent replacements 0) in
          if bool_decide (normalizedContent = newContent) then Err (NoChange total)
          else Ok (mkApplied normalizedContent newContent)
      end
  end.

End edit.

(** ** The diff that is shown *)

(** A part of [Diff.diffLines(oldContent, newContent)]. *)
Record DiffPart := mkPart { dp_value : jsstr; dp_added : bool; dp_removed : bool }.

(** A line of the output, before it is written out. *)
Inductive Shown :=
| Added (lineNum : Z) (line : jsstr)
| Removed (lineNum : Z) (line : jsstr)
| ContextLine (lineNum : Z) (line : jsstr)
| Skipped.

Definition pad_left (width : nat) (s : jsstr) : jsstr := replicate (width - length s) 0x20 ++ s.

Definition show_line (lineNumWidth : nat) (s : Shown) : jsstr :=
  let numbered mark n line := mark ++ pad_left lineNumWidth (decimal n) ++ js_lit " " ++ line in
  match s with
  | Added n line => numbered (js_lit "+") n line
  | Removed n line => numbered (js_lit "-") n line
  | ContextLine n line => numbered (js_lit " ") n line
  | Skipped => js_lit " " ++ pad_left lineNumWidth [] ++ js_lit " ..."
  end.

(** The loop's variables. *)
Record DiffState := mkDiff {
  ds_output : list Shown; oldLineNum : Z; newLineNum : Z; lastWasChange : bool; firstChangedLine : option Z }.

(** [part.value.split("\n")] without a last empty line. *)
Definition part_lines (value : jsstr) : list jsstr :=
  let raw := split_on LF value in
  if bool_decide (last raw = Some []) then removelast raw else raw.

Definition show_context (s : DiffState) (lines : list jsstr) : DiffState :=
  foldl (λ s line,
    mkDiff (ds_output s ++ [ContextLine (oldLineNum s) line]) (oldLineNum s + 1) (newLineNum s + 1)
      (lastWasChange s) (firstChangedLine s)) s lines.

Definition skip_lines (s : DiffState) (shown : bool) (n : nat) : DiffState :=
  mkDiff (ds_output s ++ (if shown then [Skipped] else [])) (oldLineNum s + Z.of_nat n) (newLineNum s + Z.of_nat n)
    (lastWasChange s) (firstChangedLine s).

Definition show_change (added : bool) (s : DiffState) (lines : list jsstr) : DiffState :=
  foldl (λ s line,
    if added
    then mkDiff (ds_output s ++ [Added (newLineNum s) line]) (oldLineNum s) (newLineNum s + 1) (lastWasChange s) (firstChangedLine s)
    else mkDiff (ds_output s ++ [Removed (oldLineNum s) line]) (oldLineNum s + 1) (newLineNum s) (lastWasChange s) (firstChangedLine s))
    s lines.

Definition with_change (s : DiffState) (change : bool) (first : option Z) : DiffState :=
  mkDiff (ds_output s) (oldLineNum s) (newLineNum s) change first.

Definition is_change (p : DiffPart) : bool := dp_added p || dp_removed p.

(** Context between changes, before one, after one, or away from any. *)
Definition context_part (contextLines : nat) (s : DiffState) (raw : list jsstr) (hasLeadingChange hasTrailingChange : bool) : DiffState :=
  match hasLeadingChange, hasTrailingChange with
  | true, true =>
      if bool_decide (length raw ≤ contextLines * 2)%nat then show_context s raw else
      let leadingLines := take contextLines raw in
      let trailingLines := drop (length raw - contextLines) raw in
      let skippedLines := (length raw - length leadingLines - length trailingLines)%nat in
      show_context (skip_lines (show_context s leadingLines) true skippedLines) trailingLines
  | true, false =>
      let shownLines := take contextLines raw in
      let skippedLines := (length raw - length shownLines)%nat in
      let s := show_context s shownLines in
      if bool_decide (0 < skippedLines)%nat then skip_lines s true skippedLines else s
  | false, true =>
      let skippedLines := (length raw - contextLines)%nat in
      let s := if bool_decide (0 < skippedLines)%nat then skip_lines s true skippedLines else s in
      show_context s (drop skippedLines raw)
  | false, false => skip_lines s false (length raw)
  end.

(** One part; [next] is the part after it. *)
Definition diff_part (contextLines : nat) (s : DiffState) (part : DiffPart) (next : option DiffPart) : DiffState :=
  let raw := part_lines (dp_value part) in
  if is_change part then
    let first := match firstChangedLine s with None => Some (newLineNum s) | Some n => Some n end in
    with_change (show_change (dp_added part) (with_change s (lastWasChange s) first) raw) true first
  else
    let nextPartIsChange := match next with Some p => is_change p | None => false end in
    let s := context_part contextLines s raw (lastWasChange s) nextPartIsChange in
    with_change s false (firstChangedLine s).

Fixpoint diff_parts (contextLines : nat) (s : DiffState) (parts : list DiffPart) : DiffState :=
  match parts with
  | [] => s
  | part :: rest => diff_parts contextLines (diff_part contextLines s part (head rest)) rest
  end.

Definition diff_start : DiffState := mkDiff [] 1 1 false None.

Definition generateDiffString (diffLines : jsstr → jsstr → list DiffPart) (oldContent newContent : jsstr) (contextLines : nat) :
    jsstr * option Z :=
  let parts := diffLines oldContent newContent in
  let maxLineNum := Nat.max (length (split_on LF oldContent)) (length (split_on LF newContent)) in
  let lineNumWidth := length (decimal (Z.of_nat maxLineNum)) in
  let s := diff_parts contextLines diff_start parts in
  (join_on [LF] (show_line lineNumWidth <$> ds_output s), firstChangedLine s).
