(* ===== verification/EditDiffSpec.v ===== *)
(** Edits are applied all at once: the loop that replaces from the end computes the
    simultaneous replacement, untouched lines keep their text, line endings come
    back, and the diff shows the lines it numbers. *)
From S2P Require Import Prelude JsValue Json Regex NodePath Truncate TruncateSpec EditDiff.
Open Scope Z_scope.

(** ** Simultaneous replacement *)

Definition r_end (r : TextReplacement) : Z := matchIndex r + matchLength r.

(** From [pos] on, the text between the replaced ranges and the new texts in turn. *)
Fixpoint splice (content : jsstr) (pos : Z) (rs : list TextReplacement) : jsstr :=
  match rs with
  | [] => substring_from content pos
  | r :: rs => slice content (Z.to_nat pos) (Z.to_nat (matchIndex r)) ++ newText r ++ splice content (r_end r) rs
  end.

(** Ranges within [pos] and [limit], in order and disjoint. *)
Fixpoint ordered (pos limit : Z) (rs : list TextReplacement) : Prop :=
  match rs with
  | [] => pos ≤ limit
  | r :: rs => pos ≤ matchIndex r ∧ 0 ≤ matchLength r ∧ ordered (r_end r) limit rs
  end.

Lemma ordered_le pos limit rs : ordered pos limit rs → pos ≤ limit.
Proof. revert pos. induction rs as [|r rs IH]; intros pos H; [done|]. destruct H as (? & ? & ?%IH). unfold r_end in *. lia. Qed.

Lemma ordered_weaken pos pos' limit rs : pos' ≤ pos → ordered pos limit rs → ordered pos' limit rs.
Proof. intros Hp. destruct rs as [|r rs]; cbn; [lia|]. intros (? & ? & ?). split_and!; [lia|done|done]. Qed.

Lemma ordered_app pos limit rs r rs' :
  ordered pos limit (rs ++ r :: rs') ↔ ordered pos (matchIndex r) rs ∧ 0 ≤ matchLength r ∧ ordered (r_end r) limit rs'.
Proof.
  revert pos. induction rs as [|x rs IH]; intros pos; cbn [app ordered]; [done|]. rewrite IH. naive_solver.
Qed.

(** [i] units, then the units from [i] to [j]. *)
Lemma take_slice {A} (l : list A) i j : (i ≤ j)%nat → take i l ++ slice l i j = take j l.
Proof. intros H. unfold slice. rewrite <- (take_drop i (take j l)) at 2. by rewrite take_take, Nat.min_l. Qed.

(** The loop leaves what precedes the ranges alone. *)
Lemma replace_splice content pos rs :
  0 ≤ pos → ordered pos (Z.of_nat (length content)) rs →
  applyReplacements content rs 0 = substring_to content pos ++ splice content pos rs.
Proof.
  revert pos. induction rs as [|r rs IH]; intros pos Hpos H.
  { unfold substring_to, splice, substring_from. by rewrite take_drop. }
  destruct H as (Hi & Hl & H). pose proof (ordered_le _ _ _ H) as Hle. unfold r_end in Hle.
  change (applyReplacements content (r :: rs) 0) with
    (let i := matchIndex r - 0 in
     substring_to (applyReplacements content rs 0) i ++ newText r ++
       substring_from (applyReplacements content rs 0) (i + matchLength r)).
  cbn zeta. rewrite Z.sub_0_r, (IH (r_end r)) by (done || unfold r_end; lia). fold (r_end r).
  unfold substring_to, substring_from. cbn [splice]. rewrite (app_assoc (take (Z.to_nat pos) content)), take_slice by lia.
  rewrite take_app_le by (rewrite length_take; unfold r_end; lia).
  rewrite take_take, Nat.min_l by (unfold r_end; lia).
  rewrite drop_app_length' by (rewrite length_take; unfold r_end; lia). done.
Qed.

Lemma applyReplacements_splice content rs :
  ordered 0 (Z.of_nat (length content)) rs → applyReplacements content rs 0 = splice content 0 rs.
Proof. intros H. rewrite (replace_splice content 0) by done. done. Qed.

(** Replacing in a part that starts at [offset]. *)
Definition shift (offset : Z) (r : TextReplacement) : TextReplacement :=
  mkReplacement (matchIndex r - offset) (matchLength r) (newText r).

Lemma applyReplacements_shift content rs offset :
  applyReplacements content rs offset = applyReplacements content (shift offset <$> rs) 0.
Proof. unfold applyReplacements. rewrite foldr_fmap. cbn. induction rs as [|r rs IH]; [done|]. cbn. rewrite IH, Z.sub_0_r. done. Qed.

Lemma ordered_shift offset pos limit rs : ordered pos limit rs → ordered (pos - offset) (limit - offset) (shift offset <$> rs).
Proof.
  revert pos. induction rs as [|r rs IH]; intros pos; cbn; [lia|]. intros (? & ? & H%IH). unfold r_end in *. cbn.
  split_and!; [lia|done|]. by replace (matchIndex r - offset + matchLength r) with (matchIndex r + matchLength r - offset) by lia.
Qed.

(** ** Finding *)

Lemma startsWith_spec s p : startsWith s p = true ↔ p `prefix_of` s.
Proof. unfold startsWith. apply bool_decide_eq_true. Qed.

(** The first place where a text occurs. *)
Lemma indexOf_Some content sub i :
  indexOf content sub = Some i ↔
  sub `prefix_of` drop i content ∧ (i ≤ length content)%nat ∧ ∀ j, (j < i)%nat → ¬ sub `prefix_of` drop j content.
Proof.
  revert i. induction content as [|c content IH]; intros i; cbn [indexOf].
  - destruct (startsWith [] sub) eqn:E.
    + apply startsWith_spec in E. split; [intros [= <-]; by split_and!; [|cbn; lia|lia]|]. intros (_ & Hi & _). cbn in Hi. f_equal. lia.
    + split; [done|]. intros (H & _). rewrite drop_nil in H. apply startsWith_spec in H. congruence.
  - destruct (startsWith (c :: content) sub) eqn:E.
    + apply startsWith_spec in E. split; [intros [= <-]; by split_and!; [|lia|lia]|].
      intros (_ & _ & Hfirst). destruct i as [|i]; [done|]. destruct (Hfirst 0%nat); [lia|done].
    + assert (¬ sub `prefix_of` c :: content) as Hn by (rewrite <- startsWith_spec; congruence).
      rewrite fmap_Some. setoid_rewrite IH. split.
      * intros (k & (Hp & Hk & Hf) & ->). split_and!; [done|cbn; lia|]. intros [|j] Hj; [done|]. apply Hf. lia.
      * destruct i as [|i]; [by intros (? & _)|]. intros (Hp & Hk & Hf). exists i. split; [|done].
        split_and!; [done|cbn in Hk; lia|]. intros j Hj. apply (Hf (S j)). lia.
Qed.

Lemma indexOf_end content sub i : indexOf content sub = Some i → (i + length sub ≤ length content)%nat.
Proof.
  intros (Hp%prefix_length & Hi & _)%indexOf_Some. rewrite length_drop in Hp. lia.
Qed.

(** ** Edits whose old text is there *)

(** [r] replaces the first occurrence of the old text of [e]. *)
Definition placed (content : jsstr) (e : Edit) (r : TextReplacement) : Prop :=
  ∃ i, indexOf content (oldText e) = Some i ∧ r = mkReplacement (Z.of_nat i) (Z.of_nat (length (oldText e))) (ed_newText e).

Lemma placed_det content e r r' : placed content e r → placed content e r' → r = r'.
Proof. intros (i & Hi & ->) (j & Hj & ->). congruence. Qed.

(** Without a neighbour that overlaps, the ranges are in order. *)
Lemma find_overlap_ordered pos limit ms :
  pos ≤ limit → Forall (λ r, 0 ≤ matchLength r ∧ r_end r ≤ limit) (me_replacement <$> ms) →
  (∀ m, head ms = Some m → pos ≤ me_index m) →
  find_overlap ms = None ↔ ordered pos limit (me_replacement <$> ms).
Proof.
  revert pos. induction ms as [|m ms IH]; intros pos Hpos Hall Hhead; [done|].
  cbn in Hall. apply Forall_cons in Hall as [[Hl He] Hall]. specialize (Hhead m eq_refl). cbn [find_overlap fmap list_fmap ordered].
  fold (me_index m). destruct ms as [|m' ms].
  { split; [|done]. intros _. by split_and!. }
  destruct (Z.ltb_spec (me_index m') (me_end m)) as [Hov|Hok].
  - split; [done|]. intros (_ & _ & H). cbn in H. destruct H as [H _]. unfold me_end, me_index, r_end in *. lia.
  - rewrite (IH (r_end (me_replacement m))); [|done|done|by intros ? [= <-]]. tauto.
Qed.

(** *** How often a text occurs *)

Definition occurs_at (content sub : jsstr) (i : nat) : Prop := (i ≤ length content)%nat ∧ sub `prefix_of` drop i content.

(** No two occurrences that do not overlap. *)
Definition occurs_once (content sub : jsstr) : Prop :=
  ∀ i j, occurs_at content sub i → occurs_at content sub j → (i + length sub ≤ j)%nat → False.

Lemma occurs_end content sub i : occurs_at content sub i → (i + length sub ≤ length content)%nat.
Proof. intros [Hi Hp%prefix_length]. rewrite length_drop in Hp. lia. Qed.

Lemma occurs_drop content sub k i : (k ≤ length content)%nat → occurs_at (drop k content) sub i ↔ occurs_at content sub (k + i).
Proof. intros Hk. unfold occurs_at. rewrite length_drop, drop_drop. split; intros [? ?]; (split; [lia|done]). Qed.

Lemma occurs_shift c content sub i : occurs_at (c :: content) sub (S i) ↔ occurs_at content sub i.
Proof. unfold occurs_at. cbn. split; intros [? ?]; (split; [lia|done]). Qed.

Lemma count_splits_pos content sub skip : (1 ≤ count_splits content sub skip)%nat.
Proof. revert skip. induction content as [|x content IH]; intros n; cbn; [done|]. destruct n; [case_match; [lia|apply IH]|apply IH]. Qed.

(** [split] by a text that is not empty: one more part for every occurrence after the
    one before; [skip] characters belong to the last one. *)
Lemma count_splits_none content sub skip :
  sub ≠ [] → (count_splits content sub skip ≤ 1)%nat ↔ ∀ i, occurs_at content sub i → (i < skip)%nat.
Proof.
  intros Hne. revert skip. induction content as [|c content IH]; intros skip; cbn [count_splits].
  { split; [|lia]. intros _ i [_ H]. rewrite drop_nil in H. by apply prefix_nil_inv in H. }
  destruct skip as [|skip].
  - destruct (startsWith (c :: content) sub) eqn:E.
    + split; [pose proof (count_splits_pos content sub (length sub - 1)); lia|].
      intros H. exfalso. apply startsWith_spec in E. destruct (Nat.lt_irrefl 0). apply H. split; [cbn; lia|done].
    + rewrite IH. split.
      * intros H [|i] Hi; [|apply occurs_shift, H in Hi; lia]. destruct Hi as [_ Hi]. apply startsWith_spec in Hi. cbn in Hi. congruence.
      * intros H i Hi%(occurs_shift c). apply H in Hi. lia.
  - rewrite IH. split.
    + intros H [|i] Hi; [lia|]. apply occurs_shift, H in Hi. lia.
    + intros H i Hi%(occurs_shift c). apply H in Hi. lia.
Qed.

Lemma count_splits_once content sub : sub ≠ [] → (count_splits content sub 0 ≤ 2)%nat ↔ occurs_once content sub.
Proof.
  intros Hne. assert (0 < length sub)%nat as Hl by (destruct sub; [done|cbn; lia]).
  induction content as [|c content IH]; cbn [count_splits].
  { split; [|lia]. intros _ i j [_ H]. rewrite drop_nil in H. by apply prefix_nil_inv in H. }
  destruct (startsWith (c :: content) sub) eqn:E.
  - apply startsWith_spec in E. assert (occurs_at (c :: content) sub 0) as H0 by (split; [cbn; lia|done]).
    transitivity (count_splits content sub (length sub - 1) ≤ 1)%nat; [lia|]. rewrite count_splits_none by done. split.
    + intros H i [|j] Hi Hj Hd; [lia|]. apply occurs_shift, H in Hj. lia.
    + intros H i Hi%(occurs_shift c). destruct (decide (i < length sub - 1)%nat); [done|]. destruct (H 0%nat (S i) H0 Hi). lia.
  - rewrite IH. assert (¬ occurs_at (c :: content) sub 0) as H0.
    { intros [_ H]. apply startsWith_spec in H. cbn in H. congruence. }
    split.
    + intros H [|i] [|j] Hi Hj Hd; [done|done|lia|]. apply occurs_shift in Hi, Hj. apply (H i j); [done..|lia].
    + intros H i j Hi%(occurs_shift c) Hj%(occurs_shift c) Hd. apply (H _ _ Hi Hj). lia.
Qed.

Section matching.
Context (NFKC : jsstr → jsstr) (content : jsstr).

(** The old text is unique as the code compares texts, after normalization: no two
    occurrences that do not overlap.  A text that normalizes to nothing counts as
    occurring between any two characters. *)
Definition unique_match (e : Edit) : Prop :=
  let fuzzyContent := normalizeForFuzzyMatch NFKC content in
  let fuzzyOldText := normalizeForFuzzyMatch NFKC (oldText e) in
  if decide (fuzzyOldText = []) then (length fuzzyContent ≤ 2)%nat else occurs_once fuzzyContent fuzzyOldText.

Lemma countOccurrences_unique e : countOccurrences NFKC content (oldText e) ≤ 1 ↔ unique_match e.
Proof.
  unfold countOccurrences, split_length, unique_match. case_bool_decide as E; destruct (decide _); try done; [lia|].
  rewrite <- count_splits_once by done. lia.
Qed.

Lemma match_edits_Ok total i es :
  (∀ e, e ∈ es → is_Some (indexOf content (oldText e))) →
  (∃ ms, match_edits NFKC content total i es = Ok ms) ↔ Forall unique_match es.
Proof.
  revert i. induction es as [|e es IH]; intros i Hin; cbn [match_edits]; [split; [done|by eexists]|].
  rewrite Forall_cons, <- (IH (S i)) by (intros x Hx; apply Hin; by right).
  destruct (Hin e) as [k Hk]; [by left|]. unfold match_edit, fuzzyFindText. rewrite <- countOccurrences_unique, Hk. cbn [fm_found negb].
  destruct (Z.ltb_spec 1 (countOccurrences NFKC content (oldText e))); cbn [rbind].
  - split; [by intros [? ?]|]. lia.
  - destruct (match_edits NFKC content total (S i) es) as [ms|]; cbn; naive_solver.
Qed.

Lemma match_edits_placed total i es ms :
  (∀ e, e ∈ es → is_Some (indexOf content (oldText e))) →
  match_edits NFKC content total i es = Ok ms → Forall2 (placed content) es (me_replacement <$> ms).
Proof.
  revert i ms. induction es as [|e es IH]; intros i ms Hin H; cbn [match_edits] in H; [by injection H as <-; constructor|].
  apply rbind_Ok in H as (m & Hm & H). apply rbind_Ok in H as (ms' & Hms & [= <-]). cbn. constructor.
  - destruct (Hin e) as [k Hk]; [by left|]. unfold match_edit, fuzzyFindText in Hm. rewrite Hk in Hm. cbn in Hm.
    case_match; [done|]. injection Hm as <-. by exists k.
  - eapply IH; [|done]. intros x Hx. apply Hin. by right.
Qed.

Lemma placed_range e r : placed content e r → 0 ≤ matchIndex r ∧ 0 ≤ matchLength r ∧ r_end r ≤ Z.of_nat (length content).
Proof. intros (i & Hi%indexOf_end & ->). unfold r_end. cbn. lia. Qed.

End matching.

Notation key_le := (λ x y : TextReplacement, matchIndex x ≤ matchIndex y).

Lemma ordered_bound pos limit rs : ordered pos limit rs → Forall (λ x, pos ≤ matchIndex x) rs.
Proof.
  revert pos. induction rs as [|r rs IH]; intros pos; [done|]. intros (Hp & Hl & H%IH). constructor; [done|].
  eapply Forall_impl; [done|]. unfold r_end. cbn. lia.
Qed.

Lemma ranges_sorted pos limit rs : ordered pos limit rs → StronglySorted key_le rs.
Proof.
  revert pos. induction rs as [|r rs IH]; intros pos; [constructor|]. intros (Hp & Hl & H). constructor; [eauto|].
  eapply Forall_impl; [by eapply ordered_bound|]. unfold r_end. cbn. lia.
Qed.

Lemma ordered_inj pos limit rs x y :
  ordered pos limit rs → Forall (λ r, 0 < matchLength r) rs → x ∈ rs → y ∈ rs → matchIndex x = matchIndex y → x = y.
Proof.
  revert pos. induction rs as [|r rs IH]; intros pos H Hpos; [by intros ?%elem_of_nil|].
  destruct H as (_ & _ & H). apply Forall_cons in Hpos as [Hr Hpos].
  pose proof (ordered_bound _ _ _ H) as Hb. rewrite Forall_forall in Hb. unfold r_end in Hb.
  intros [-> | Hx]%elem_of_cons [-> | Hy]%elem_of_cons E; [done| | |by eapply IH].
  - specialize (Hb _ Hy). lia.
  - specialize (Hb _ Hx). lia.
Qed.

Lemma sorted_fmap {A} (f : A → TextReplacement) l :
  StronglySorted (λ x y, matchIndex (f x) ≤ matchIndex (f y)) l → StronglySorted key_le (f <$> l).
Proof. induction 1 as [|x l _ IH Hx]; cbn; constructor; [done|]. by apply Forall_fmap. Qed.

Lemma find_empty_None i es : find_empty i es = None ↔ Forall (λ e, oldText e ≠ []) es.
Proof.
  revert i. induction es as [|e es IH]; intros i; cbn [find_empty]; [done|].
  rewrite Forall_cons, <- (IH (S i)). case_bool_decide; naive_solver.
Qed.

(** Only one order of the matches is free of overlaps, and sorting finds it. *)
Lemma placed_sorted content es ms es' rs :
  Forall (λ e, oldText e ≠ []) es → Forall2 (placed content) es (me_replacement <$> ms) →
  es' ≡ₚ es → Forall2 (placed content) es' rs → ordered 0 (Z.of_nat (length content)) rs →
  me_replacement <$> sort_by me_index ms = rs.
Proof.
  intros Hne Hplaced Hes Hrs Ho. symmetry in Hes. destruct (Permutation_Forall2 Hes Hplaced) as (rs' & Hp & Hrs').
  destruct (sort_by_spec me_index ms) as [Hperm Hsorted]. assert (rs' = rs) as ->.
  { eapply Forall2_det; [|exact Hrs'|exact Hrs]. apply Forall_forall. intros r _ e r' He He'. by eapply placed_det. }
  apply (StronglySorted_unique_strong key_le); [|by apply sorted_fmap|by eapply ranges_sorted|by rewrite Hperm].
  intros x y Hx Hy Hxy Hyx. rewrite Hperm, Hp in Hx. eapply ordered_inj; [done| |done|done|lia].
  apply Forall_forall. intros r Hr. apply list_elem_of_lookup in Hr as [k Hk].
  destruct (Forall2_lookup_r _ _ _ _ _ Hrs Hk) as (e & He & (i & _ & ->)). cbn.
  assert (oldText e ≠ []) as Hne'; [|destruct (oldText e); cbn; [done|lia]].
  rewrite Forall_forall in Hne. apply Hne. rewrite Hes. by eapply list_elem_of_lookup_2.
Qed.

(** C34: when every old text is in the content, edits are applied exactly if none is
    empty, none has two disjoint occurrences once content and text are normalized (a
    text that normalizes to nothing is accepted only in content of at most two
    characters), they do not overlap and they change something; and then the new
    content is the simultaneous replacement of their first occurrences. *)
Theorem edits_exact NFKC content edits new :
  let es := normalize_edit <$> edits in
  (∀ e, e ∈ es → is_Some (indexOf content (oldText e))) →
  applyEditsToNormalizedContent NFKC content edits = Ok (mkApplied content new) ↔
  Forall (λ e, oldText e ≠ [] ∧ unique_match NFKC content e) es ∧
  ∃ es' rs, es' ≡ₚ es ∧ Forall2 (placed content) es' rs ∧ ordered 0 (Z.of_nat (length content)) rs ∧
    new = splice content 0 rs ∧ new ≠ content.
Proof.
  intros es Hin. unfold applyEditsToNormalizedContent. fold es.
  assert (existsb fm_usedFuzzyMatch ((λ e, fuzzyFindText NFKC content (oldText e)) <$> es) = false) as ->.
  { apply not_true_iff_false. rewrite existsb_exists. intros (m & Hm & Hf). apply list_elem_of_In, list_elem_of_fmap in Hm as (e & -> & He).
    destruct (Hin e He) as [i Hi]. unfold fuzzyFindText in Hf. by rewrite Hi in Hf. }
  rewrite Forall_and, <- (find_empty_None 0). destruct (find_empty 0 es) as [i|] eqn:Eempty; [naive_solver|].
  rewrite <- (match_edits_Ok NFKC content (length es) 0) by done. apply find_empty_None in Eempty.
  destruct (match_edits NFKC content (length es) 0 es) as [ms|e] eqn:Em; cbn [rbind]; [|naive_solver].
  pose proof (match_edits_placed _ _ _ _ _ _ Hin Em) as Hplaced.
  destruct (sort_by_spec me_index ms) as [Hperm Hsorted]. set (sorted := sort_by me_index ms) in *.
  assert (Forall (λ r, 0 ≤ matchIndex r ∧ 0 ≤ matchLength r ∧ r_end r ≤ Z.of_nat (length content)) (me_replacement <$> sorted)) as Hrange.
  { rewrite Hperm. eapply Forall_forall. intros r Hr. apply list_elem_of_lookup in Hr as [k Hk].
    destruct (Forall2_lookup_r _ _ _ _ _ Hplaced Hk) as (e & _ & He). by eapply placed_range. }
  assert (find_overlap sorted = None ↔ ordered 0 (Z.of_nat (length content)) (me_replacement <$> sorted)) as Hover.
  { apply (find_overlap_ordered 0); [lia| |].
    - eapply Forall_impl; [exact Hrange|]. by intros r (_ & ? & ?).
    - intros m Hm. destruct sorted as [|m' ms']; simplify_eq/=. by apply Forall_cons in Hrange as [[? _] _]. }
  pose proof (λ es' rs, placed_sorted content es ms es' rs Eempty Hplaced) as Hunique. fold sorted in Hunique.
  destruct (find_overlap sorted) as [[x y]|] eqn:Eo.
  { split; [done|]. intros (_ & es' & rs & Hes & Hrs & Ho & _). rewrite <- (Hunique _ _ Hes Hrs Ho) in Ho. apply Hover in Ho. done. }
  pose proof (proj1 Hover eq_refl) as Ho. cbn [rbind]. rewrite applyReplacements_splice by done. case_bool_decide as E.
  - split; [done|]. intros (_ & es' & rs & Hes & Hrs & Hord & -> & Hne). rewrite (Hunique _ _ Hes Hrs Hord) in E. congruence.
  - split.
    + intros [= <-]. split; [by split; [|eexists]|].
      assert (me_replacement <$> ms ≡ₚ me_replacement <$> sorted) as Hp by by rewrite Hperm.
      destruct (Permutation_Forall2 Hp (proj1 (Forall2_flip _ _ _) Hplaced)) as (es' & Hes & Hrs). apply Forall2_flip in Hrs.
      exists es', (me_replacement <$> sorted). split_and!; [done..|]. congruence.
    + intros (_ & es' & rs & Hes & Hrs & Hord & -> & Hne). by rewrite (Hunique _ _ Hes Hrs Hord).
Qed.

Lemma edits_exact_witness :
  let content := js_lit "one two" in
  let edits := [mkEdit (js_lit "two") (js_lit "one"); mkEdit (js_lit "one") (js_lit "two")] in
  applyEditsToNormalizedContent id content edits = Ok (mkApplied content (js_lit "two one")) ∧
  ∃ es' rs, es' ≡ₚ normalize_edit <$> edits ∧ Forall2 (placed content) es' rs ∧ ordered 0 7 rs ∧ js_lit "two one" = splice content 0 rs.
Proof.
  intros content edits. assert (applyEditsToNormalizedContent id content edits = Ok (mkApplied content (js_lit "two one"))) as H by reflexivity.
  split; [exact H|]. apply (edits_exact id content edits (js_lit "two one")) in H as (_ & es' & rs & H1 & H2 & H3 & H4 & _);
    [by exists es', rs|]. intros e He. apply elem_of_cons in He as [-> |He]; [eexists; reflexivity|].
  apply list_elem_of_singleton in He as ->. eexists. reflexivity.
Defined.

(** ** Lines of the base *)

Lemma concat_lines s : concat (splitLinesWithEndings s) = s.
Proof.
  induction s as [|c s IH]; [done|]. cbn [splitLinesWithEndings]. destruct (Z.eqb_spec c LF) as [-> |Hne].
  - cbn. by rewrite IH.
  - destruct (splitLinesWithEndings s) as [|l ls]; cbn in *; by rewrite <- IH.
Qed.

(** Where line [i] starts. *)
Definition pos_of (lines : list jsstr) (i : nat) : Z := Z.of_nat (length (concat (take i lines))).

Lemma pos_S lines i l : lines !! i = Some l → pos_of lines (S i) = pos_of lines i + Z.of_nat (length l).
Proof. intros H. unfold pos_of. rewrite (take_S_r _ _ _ H), concat_app, length_app. cbn. rewrite app_nil_r. lia. Qed.

Lemma pos_mono lines i j : (i ≤ j)%nat → pos_of lines i ≤ pos_of lines j.
Proof.
  intros H. unfold pos_of. rewrite <- (take_drop i (take j lines)), take_take, Nat.min_l by done.
  rewrite concat_app, length_app. lia.
Qed.

Lemma pos_all lines i : (length lines ≤ i)%nat → pos_of lines i = Z.of_nat (length (concat lines)).
Proof. intros H. unfold pos_of. by rewrite take_ge. Qed.

Lemma spans_lookup offset lines i :
  spans_from offset lines !! i = (λ l, mkSpan (offset + pos_of lines i) (offset + pos_of lines i + Z.of_nat (length l))) <$> lines !! i.
Proof.
  revert offset i. induction lines as [|l lines IH]; intros offset i; [done|]. destruct i as [|i]; cbn.
  - by rewrite Z.add_0_r.
  - rewrite IH. destruct (lines !! i); [|done]. cbn. unfold pos_of. cbn [take concat]. rewrite length_app.
    f_equal. f_equal; lia.
Qed.

Lemma length_spans offset lines : length (spans_from offset lines) = length lines.
Proof. revert offset. induction lines as [|l lines IH]; intros offset; cbn; [done|]. by rewrite IH. Qed.

(** A replacement touches a line: it starts in it, or runs into it. *)
Definition touches (lines : list jsstr) (r : TextReplacement) (i : nat) : Prop :=
  matchIndex r < pos_of lines (S i) ∧ (pos_of lines i ≤ matchIndex r ∨ pos_of lines i < r_end r).

Lemma find_line_Some lines offset i :
  find_line (spans_from 0 lines) offset = Some i → (i < length lines)%nat ∧ pos_of lines i ≤ offset < pos_of lines (S i).
Proof.
  assert (∀ sp i, find_line sp offset = Some i → ∃ l, sp !! i = Some l ∧ ls_start l ≤ offset < ls_end l) as Hfind.
  { clear i. induction sp as [|l sp IH]; intros i; [done|]. cbn. destruct (_ && _) eqn:E.
    - intros [= <-]. exists l. split; [done|]. zb. lia.
    - intros (j & Hj & ->)%fmap_Some. eauto. }
  intros (l & Hl & Ho)%Hfind. rewrite spans_lookup in Hl. apply fmap_Some in Hl as (line & Hline & ->). cbn in Ho.
  split; [by eapply lookup_lt_Some|]. rewrite (pos_S _ _ _ Hline). lia.
Qed.

Lemma find_line_total lines offset :
  0 ≤ offset < Z.of_nat (length (concat lines)) → is_Some (find_line (spans_from 0 lines) offset).
Proof.
  assert (∀ o, o ≤ offset < o + Z.of_nat (length (concat lines)) → is_Some (find_line (spans_from o lines) offset)) as H;
    [|by apply H].
  induction lines as [|l lines IH]; intros o Ho; cbn in *; [lia|]. destruct (_ && _) eqn:E; [by eexists|].
  rewrite length_app in Ho. apply fmap_is_Some, IH. zb. lia.
Qed.

Lemma advance_line_Some lines start r_end_ j :
  (start < length lines)%nat → advance_line (drop start (spans_from 0 lines)) start r_end_ = Some j →
  (start ≤ j < length lines)%nat ∧ r_end_ ≤ pos_of lines (S j) ∧ ∀ k, (start ≤ k < j)%nat → pos_of lines (S k) < r_end_.
Proof.
  intros Hs. remember (drop start (spans_from 0 lines)) as rest eqn:Erest. revert start Hs Erest.
  induction rest as [|l rest IH]; intros start Hs Erest H; [done|]. cbn in H.
  assert (spans_from 0 lines !! start = Some l) as Hl by (rewrite <- (Nat.add_0_r start), <- lookup_drop, <- Erest; done).
  rewrite spans_lookup in Hl. apply fmap_Some in Hl as (line & Hline & ->). cbn [ls_end] in H. rewrite Z.add_0_l, <- (pos_S _ _ _ Hline) in H.
  destruct (Z.ltb_spec (pos_of lines (S start)) r_end_).
  - assert (rest = drop (S start) (spans_from 0 lines)) as Hrest by (rewrite <- (Nat.add_1_r start), <- drop_drop, <- Erest; done).
    destruct (decide (S start < length lines)%nat).
    + destruct (IH (S start) ltac:(done) Hrest H) as (Hj & He & Hk). split_and!; [lia|lia|done|].
      intros k Hk'. destruct (decide (k = start)) as [-> |]; [done|]. apply Hk. lia.
    + rewrite drop_ge in Hrest by (rewrite length_spans; lia). by rewrite Hrest in H.
  - injection H as <-. split_and!; [lia|lia|lia|]. intros k Hk. lia.
Qed.

(** ** Overlaying touched lines *)

Section overlay.
Context (lines : list jsstr).
Notation pos := (pos_of lines).
Notation total := (Z.of_nat (length (concat lines))).

Lemma range_Ok r s e :
  getReplacementLineRange (spans_from 0 lines) r = Ok (s, e) →
  (s < e ≤ length lines)%nat ∧ pos s ≤ matchIndex r ∧ r_end r ≤ pos e ∧
  ∀ k, (s ≤ k < e)%nat → touches lines r k.
Proof.
  unfold getReplacementLineRange. fold (r_end r). destruct (find_line _ _) as [i|] eqn:Ef; [|done].
  destruct (advance_line _ _ _) as [j|] eqn:Ea; [|done]. intros [= <- <-].
  apply find_line_Some in Ef as [Hi Hoff]. apply advance_line_Some in Ea as (Hj & He & Hk); [|done].
  split_and!; [lia|lia|lia|lia|]. intros k Hk'. unfold touches.
  destruct (decide (k = i)) as [-> |Hne]; [lia|].
  pose proof (pos_mono lines (S i) (S k) ltac:(lia)). split; [lia|right].
  destruct k as [|k]; [lia|]. apply Hk. lia.
Qed.

(** A replacement of some text within the base is in range. *)
Lemma range_total r :
  0 ≤ matchIndex r → 0 < matchLength r → r_end r ≤ total → ∃ s e, getReplacementLineRange (spans_from 0 lines) r = Ok (s, e).
Proof.
  intros Hi Hl He. unfold getReplacementLineRange. fold (r_end r).
  destruct (find_line_total lines (matchIndex r)) as [i Hf]; [unfold r_end in He; lia|]. rewrite Hf.
  apply find_line_Some in Hf as [Hlt Hoff].
  assert (∀ st, (st ≤ length lines)%nat → pos st < r_end r → is_Some (advance_line (drop st (spans_from 0 lines)) st (r_end r))) as Hadv.
  { intros st Hst. remember (length lines - st)%nat as n eqn:En. revert st Hst En. induction n as [|n IH]; intros st Hst En Hpos.
    - rewrite pos_all in Hpos by lia. lia.
    - destruct (lookup_lt_is_Some_2 lines st) as [l Hl']; [lia|].
      rewrite (drop_S _ (mkSpan (0 + pos st) (0 + pos st + Z.of_nat (length l)))) by (by rewrite spans_lookup, Hl').
      cbn [advance_line ls_end]. rewrite Z.add_0_l, <- (pos_S _ _ _ Hl'). destruct (Z.ltb_spec (pos (S st)) (r_end r)); [|by eexists].
      apply IH; lia. }
  destruct (Hadv i) as [j ->]; [lia|unfold r_end; lia|]. by eexists _, _.
Qed.

(** Blocks of lines from [from] on: in order, disjoint, each with the replacements
    within it, each line touched by one of them. *)
Fixpoint blocks (from : nat) (gs : list Group) : Prop :=
  match gs with
  | [] => True
  | g :: gs =>
      (from ≤ g_startLine g < g_endLine g)%nat ∧ (g_endLine g ≤ length lines)%nat ∧
      ordered (pos (g_startLine g)) (pos (g_endLine g)) (g_replacements g) ∧
      (∀ k, (g_startLine g ≤ k < g_endLine g)%nat → ∃ r, r ∈ g_replacements g ∧ touches lines r k) ∧
      blocks (g_endLine g) gs
  end.

Lemma blocks_snoc from gs g :
  blocks from (gs ++ [g]) ↔ blocks from gs ∧ blocks (default from (g_endLine <$> last gs)) [g].
Proof.
  revert from. induction gs as [|x gs IH]; intros from; [cbn; tauto|]. cbn [app blocks]. rewrite IH.
  rewrite last_cons. destruct (last gs); cbn; tauto.
Qed.

Lemma ordered_snoc p limit rs r :
  ordered p limit (rs ++ [r]) ↔ ordered p (matchIndex r) rs ∧ 0 ≤ matchLength r ∧ r_end r ≤ limit.
Proof. rewrite ordered_app. cbn. done. Qed.

Lemma ordered_limit p limit limit' rs : limit ≤ limit' → ordered p limit rs → ordered p limit' rs.
Proof. intros Hl. revert p. induction rs as [|r rs IH]; intros p; cbn; [lia|]. intros (? & ? & ?). auto. Qed.

(** Grouping keeps the blocks, as long as the replacements come in order. *)
Lemma add_to_groups_ok gs r gs' :
  blocks 0 (reverse gs) → ordered 0 (matchIndex r) (concat (g_replacements <$> reverse gs)) → 0 ≤ matchLength r →
  Forall (λ g, g_replacements g ≠ []) gs →
  add_to_groups (spans_from 0 lines) gs r = Ok gs' →
  blocks 0 (reverse gs') ∧ concat (g_replacements <$> reverse gs') = concat (g_replacements <$> reverse gs) ++ [r] ∧
  Forall (λ g, g_replacements g ≠ []) gs'.
Proof.
  intros Hb Ho Hl Hne H. unfold add_to_groups in H. apply rbind_Ok in H as ([s e] & Hr & H).
  apply range_Ok in Hr as (Hse & Hs & He & Ht).
  assert (∀ from, (from ≤ s)%nat → blocks from [mkGroup s e [r]]) as Hnew.
  { intros from Hf. cbn. split_and!; [lia|lia|lia|done|done|done| |done]. intros k Hk. exists r. split; [by left|by apply Ht]. }
  destruct gs as [|g gs].
  { injection H as <-. split; [apply Hnew; lia|]. split; [done|by repeat constructor]. }
  rewrite reverse_cons in Hb, Ho |- *. rewrite fmap_app, concat_app in Ho |- *. cbn in Ho |- *. rewrite app_nil_r in Ho |- *.
  apply Forall_cons in Hne as [Hg Hne]. case_bool_decide as Hlt; injection H as <-.
  - apply blocks_snoc in Hb as [Hb Hlast]. rewrite reverse_cons, fmap_app, concat_app, <- app_assoc. cbn. rewrite app_nil_r.
    split_and!; [|done|constructor; [by intros [_ ?]%app_nil|done]].
    apply blocks_snoc. split; [done|]. cbn in Hlast. destruct Hlast as (Hfrom & Hend & Hord & Htouch & _).
    assert (ordered (pos (g_startLine g)) (matchIndex r) (g_replacements g)) as Hord'.
    { destruct (g_replacements g) as [|r0 rs0 _] using rev_ind; [done|]. apply ordered_snoc in Hord as (Hord & Hlen & _).
      rewrite app_assoc in Ho. apply ordered_snoc in Ho as (_ & _ & Hend0). by apply ordered_snoc. }
    pose proof (ordered_le _ _ _ Hord') as Hstart.
    assert (g_startLine g ≤ s)%nat as Hgs.
    { destruct (decide (g_startLine g ≤ s)%nat); [done|]. exfalso. destruct (Ht s ltac:(lia)) as [Hs' _].
      pose proof (pos_mono lines (S s) (g_startLine g) ltac:(lia)). lia. }
    cbn. split_and!; [lia|lia|lia| | |done].
    + apply ordered_snoc. split_and!; [done|done|]. pose proof (pos_mono lines e (g_endLine g `max` e) ltac:(lia)). lia.
    + intros k Hk. destruct (decide (k < g_endLine g)%nat).
      * destruct (Htouch k) as (x & Hx & Hxt); [lia|]. exists x. split; [|done]. apply elem_of_app. by left.
      * exists r. split; [apply elem_of_app; right; by left|]. apply Ht. lia.
  - split_and!; [|by rewrite reverse_cons, reverse_cons, !fmap_app, !concat_app; cbn; rewrite !app_nil_r|by repeat constructor].
    rewrite reverse_cons, reverse_cons. apply blocks_snoc. split; [done|]. rewrite last_snoc. cbn. apply Hnew. lia.
Qed.

(** All the replacements are grouped. *)
Lemma grouping_ok rs gs :
  ordered 0 total rs → rfold (add_to_groups (spans_from 0 lines)) [] rs = Ok gs →
  blocks 0 (reverse gs) ∧ concat (g_replacements <$> reverse gs) = rs.
Proof.
  intros Ho H.
  apply (rfold_prefix (add_to_groups (spans_from 0 lines)) (λ pre gs,
    blocks 0 (reverse gs) ∧ concat (g_replacements <$> reverse gs) = pre ∧ Forall (λ g, g_replacements g ≠ []) gs)) in H.
  - tauto.
  - done.
  - intros pre r post t t' -> (Hb & Hc & Hne) Hstep. apply ordered_app in Ho as (Hpre & Hlen & _). rewrite <- Hc in Hpre |- *.
    by apply (add_to_groups_ok t r t').
Qed.

Lemma grouping_total rs gs :
  Forall (λ r, 0 ≤ matchIndex r ∧ 0 < matchLength r ∧ r_end r ≤ total) rs →
  ∃ gs', rfold (add_to_groups (spans_from 0 lines)) gs rs = Ok gs'.
Proof.
  intros H. revert gs. induction H as [|r rs (Hi & Hl & He) _ IH]; intros gs; cbn; [by eexists|].
  destruct (range_total r Hi Hl He) as (s & e & Hr). unfold add_to_groups at 1. rewrite Hr. cbn.
  destruct gs as [|g gs]; cbn; [apply IH|]. case_bool_decide; apply IH.
Qed.

(** The original lines outside the blocks, and in each block the simultaneous
    replacement in the base's lines. *)
Fixpoint weave (original : list jsstr) (from : nat) (gs : list Group) : jsstr :=
  match gs with
  | [] => concat (drop from original)
  | g :: gs =>
      concat (slice original from (g_startLine g)) ++
      splice (concat (slice lines (g_startLine g) (g_endLine g))) 0 (shift (pos (g_startLine g)) <$> g_replacements g) ++
      weave original (g_endLine g) gs
  end.

Lemma slice_concat i j : (i ≤ j)%nat → slice (concat lines) (Z.to_nat (pos i)) (Z.to_nat (pos j)) = concat (slice lines i j).
Proof.
  intros H. unfold pos_of, slice. rewrite !Nat2Z.id.
  assert (take (length (concat (take j lines))) (concat lines) = concat (take j lines)) as ->.
  { rewrite <- (take_drop j lines) at 2. by rewrite concat_app, take_app_length. }
  rewrite <- (take_drop i (take j lines)) at 1. rewrite take_take, Nat.min_l by done.
  by rewrite concat_app, drop_app_length.
Qed.

Lemma length_slice_concat i j : (i ≤ j)%nat → Z.of_nat (length (concat (slice lines i j))) = pos j - pos i.
Proof.
  intros H. unfold slice, pos_of. rewrite <- (take_drop i (take j lines)) at 2.
  rewrite take_take, Nat.min_l by done. rewrite concat_app, length_app. lia.
Qed.

Lemma offsets_of i : (i < length lines)%nat → start_of (spans_from 0 lines) i = pos i ∧ end_of (spans_from 0 lines) i = pos (S i).
Proof.
  intros H. destruct (lookup_lt_is_Some_2 lines i H) as [l Hl]. unfold start_of, end_of.
  rewrite spans_lookup, Hl. cbn [fmap option_fmap option_map ls_start ls_end]. rewrite (pos_S _ _ _ Hl). lia.
Qed.

(** The output loop weaves. *)
Lemma add_groups_weave original gs out from :
  blocks from gs →
  let '(result_, i) := foldl (add_group original (concat lines) (spans_from 0 lines)) (out, from) gs in
  result_ ++ concat (drop i original) = out ++ weave original from gs.
Proof.
  revert out from. induction gs as [|g gs IH]; intros out from H; [done|]. destruct H as (Hfrom & Hend & Hord & _ & Hb).
  cbn [foldl weave]. unfold add_group at 2. destruct (offsets_of (g_startLine g)) as [-> _]; [lia|].
  destruct (offsets_of (g_endLine g - 1)) as [_ ->]; [lia|]. replace (S (g_endLine g - 1)) with (g_endLine g) by lia.
  rewrite slice_concat by lia. rewrite applyReplacements_shift, applyReplacements_splice.
  - specialize (IH (out ++ concat (slice original from (g_startLine g)) ++
      splice (concat (slice lines (g_startLine g) (g_endLine g))) 0 (shift (pos (g_startLine g)) <$> g_replacements g)) _ Hb).
    destruct (foldl _ _ _) as [result_ i]. rewrite IH, <- !app_assoc. done.
  - rewrite length_slice_concat by lia. apply (ordered_shift (pos (g_startLine g))) in Hord. by rewrite Z.sub_diag in Hord.
Qed.
End overlay.

(** Splicing up to [q], then from [q] on. *)
Lemma splice_block content p q rs rs' :
  0 ≤ p → ordered p q rs → ordered q (Z.of_nat (length content)) rs' →
  splice content p (rs ++ rs') =
  splice (slice content (Z.to_nat p) (Z.to_nat q)) 0 (shift p <$> rs) ++ splice content q rs'.
Proof.
  intros Hp Hrs Hrs'.
  assert (∀ p0, p ≤ p0 → ordered p0 q rs →
    splice content p0 (rs ++ rs') = splice (slice content (Z.to_nat p) (Z.to_nat q)) (p0 - p) (shift p <$> rs) ++ splice content q rs') as H.
  { clear Hrs. pose proof (ordered_le _ _ _ Hrs') as Hq. induction rs as [|r rs IH]; intros p0 Hp0 Hrs.
    - cbn in Hrs. cbn [app fmap list_fmap splice]. unfold substring_from, slice. rewrite drop_drop.
      replace (Z.to_nat p + Z.to_nat (p0 - p))%nat with (Z.to_nat p0) by lia.
      destruct rs' as [|r' rs']; cbn [splice].
      + unfold substring_from. rewrite <- (take_drop (Z.to_nat q) content) at 1.
        rewrite drop_app_le by (rewrite length_take; lia). done.
      + destruct Hrs' as [Hr' _]. unfold slice. rewrite !app_assoc. f_equal. f_equal.
        rewrite <- (take_drop (Z.to_nat q) (take (Z.to_nat (matchIndex r')) content)) at 1.
        rewrite take_take, Nat.min_l by lia. rewrite drop_app_le by (rewrite length_take; lia). done.
    - destruct Hrs as (Hi & Hl & Hrest). cbn [app fmap list_fmap splice]. change (r_end (shift p r)) with (matchIndex r - p + matchLength r).
      pose proof (ordered_le _ _ _ Hrest) as Hle. unfold r_end in *.
      rewrite (IH (matchIndex r + matchLength r)) by (done || lia).
      replace (matchIndex r - p + matchLength r) with (matchIndex r + matchLength r - p) by lia.
      rewrite <- !app_assoc. f_equal. cbn [shift matchIndex]. unfold slice.
      rewrite take_drop_commute, take_take, drop_drop. f_equal; [lia|]. f_equal. lia. }
  by rewrite (H p (Z.le_refl _) Hrs), Z.sub_diag.
Qed.

Lemma ordered_concat p q limit rs rs' : ordered p q rs → ordered q limit rs' → ordered p limit (rs ++ rs').
Proof.
  revert p. induction rs as [|r rs IH]; intros p H H'; cbn in *; [by eapply ordered_weaken|].
  destruct H as (? & ? & ?). auto.
Qed.

Lemma blocks_ordered lines from gs :
  blocks lines from gs → ordered (pos_of lines from) (Z.of_nat (length (concat lines))) (concat (g_replacements <$> gs)).
Proof.
  revert from. induction gs as [|g gs IH]; intros from H; cbn.
  - rewrite <- (pos_all lines (from `max` length lines)) by lia. apply pos_mono. lia.
  - destruct H as (Hfrom & Hend & Hord & _ & Hb). eapply ordered_concat; [|by apply IH].
    eapply ordered_weaken; [|done]. apply pos_mono. lia.
Qed.

(** Laid over the base itself, the replacements are the simultaneous replacement. *)
Lemma weave_same lines gs from :
  blocks lines from gs →
  weave lines lines from gs = splice (concat lines) (pos_of lines from) (concat (g_replacements <$> gs)).
Proof.
  revert from. induction gs as [|g gs IH]; intros from H; cbn [weave fmap list_fmap concat].
  - cbn [splice]. unfold substring_from, pos_of. rewrite Nat2Z.id.
    rewrite <- (take_drop from lines) at 3. rewrite concat_app, drop_app_length. done.
  - destruct H as (Hfrom & Hend & Hord & _ & Hb). rewrite (IH _ Hb). pose proof (blocks_ordered _ _ _ Hb) as Hrest.
    rewrite <- !slice_concat by lia.
    rewrite <- splice_block by (done || unfold pos_of; lia).
    rewrite <- (app_nil_l (g_replacements g ++ _)), (splice_block _ (pos_of lines from) (pos_of lines (g_startLine g)) []).
    + done.
    + unfold pos_of. lia.
    + cbn. apply pos_mono. lia.
    + by eapply ordered_concat.
Qed.

Lemma overlay_Ok original base rs out :
  let lines := splitLinesWithEndings base in
  ordered 0 (Z.of_nat (length base)) rs → applyReplacementsPreservingUnchangedLines original base rs = Ok out →
  length (splitLinesWithEndings original) = length lines ∧
  ∃ gs, out = weave lines (splitLinesWithEndings original) 0 gs ∧ blocks lines 0 gs ∧ concat (g_replacements <$> gs) = rs.
Proof.
  intros lines Ho. unfold applyReplacementsPreservingUnchangedLines, getLineSpans. fold lines.
  rewrite length_spans. case_bool_decide as Hlen; cbn [negb]; [|done].
  rewrite sort_by_sorted by by eapply ranges_sorted. rewrite <- (concat_lines base) in Ho. fold lines in Ho.
  intros H. apply rbind_Ok in H as (gs & Hgs & H). destruct (grouping_ok lines rs gs Ho Hgs) as [Hb Hc].
  pose proof (add_groups_weave lines (splitLinesWithEndings original) (reverse gs) [] 0 Hb) as Hw.
  unfold lines in Hw at 1. rewrite concat_lines in Hw. destruct (foldl _ _ _) as [result_ i].
  rewrite Hw in H. injection H as <-. split; [done|]. by exists (reverse gs).
Qed.

(** Replacements matched in the base are laid over the original: it succeeds when
    the line counts agree, and then the original keeps every line that no
    replacement touches. *)
Lemma overlay_spec original base rs :
  let lines := splitLinesWithEndings base in
  ordered 0 (Z.of_nat (length base)) rs → Forall (λ r, 0 < matchLength r) rs →
  if bool_decide (length (splitLinesWithEndings original) = length lines) then
    ∃ gs, applyReplacementsPreservingUnchangedLines original base rs = Ok (weave lines (splitLinesWithEndings original) 0 gs) ∧
      blocks lines 0 gs ∧ concat (g_replacements <$> gs) = rs
  else applyReplacementsPreservingUnchangedLines original base rs = Err LineCountDiffers.
Proof.
  intros lines Ho Hpos. pose proof (overlay_Ok original base rs) as Hok. cbn zeta in Hok. fold lines in Hok. revert Hok.
  unfold applyReplacementsPreservingUnchangedLines, getLineSpans. fold lines.
  rewrite length_spans. case_bool_decide as Hlen; cbn [negb]; [|done]. intros Hok.
  destruct (grouping_total lines rs []) as [gs Hgs].
  { rewrite <- (concat_lines base) in Ho. fold lines in Ho. apply Forall_forall. intros r Hr.
    rewrite Forall_forall in Hpos. specialize (Hpos r Hr).
    apply list_elem_of_split in Hr as (a & c & ->). apply ordered_app in Ho as (H1 & _ & H2). apply ordered_le in H1, H2. done. }
  rewrite sort_by_sorted in * by by eapply ranges_sorted. rewrite Hgs in *. cbn [rbind] in *.
  destruct (foldl _ _ _) as [result_ i]. destruct (Hok _ Ho eq_refl) as (_ & gs' & -> & Hb & Hc). by exists gs'.
Qed.

(** Over the base itself the overlay is the plain replacement. *)
Lemma overlay_same base rs :
  ordered 0 (Z.of_nat (length base)) rs → Forall (λ r, 0 < matchLength r) rs →
  applyReplacementsPreservingUnchangedLines base base rs = Ok (applyReplacements base rs 0).
Proof.
  intros Ho Hpos. pose proof (overlay_spec base base rs Ho Hpos) as H. cbn zeta in H. rewrite bool_decide_true in H by done.
  destruct H as (gs & -> & Hb & <-). f_equal. rewrite weave_same, concat_lines by done.
  by rewrite applyReplacements_splice.
Qed.

(** ** Edits that need the normalized text *)

(** Each unit goes through at most one of the replacements. *)
Lemma normalize_unit_cases c :
  is_single_quote c = true ∧ normalize_unit c = 0x27 ∨ is_double_quote c = true ∧ normalize_unit c = 0x22 ∨
  is_dash c = true ∧ normalize_unit c = 0x2d ∨ is_special_space c = true ∧ normalize_unit c = 0x20 ∨
  is_single_quote c = false ∧ is_double_quote c = false ∧ is_dash c = false ∧ is_special_space c = false ∧ normalize_unit c = c.
Proof.
  unfold normalize_unit. destruct (is_single_quote c) eqn:E1; [by left|]. destruct (is_double_quote c) eqn:E2; [by right; left|].
  destruct (is_dash c) eqn:E3; [by do 2 right; left|]. destruct (is_special_space c) eqn:E4; [by do 3 right; left|].
  by do 4 right.
Qed.

Ltac unit_cases c :=
  destruct (normalize_unit_cases c) as [[H ->]|[[H ->]|[[H ->]|[[H ->]|(_ & _ & _ & _ & ->)]]]]; [..|done];
  unfold is_single_quote, is_double_quote, is_dash, is_special_space in H; unfold is_space, LF; zb; lia.

Lemma normalize_unit_LF c : (normalize_unit c =? LF) = (c =? LF).
Proof. unit_cases c. Qed.

(** Normalization keeps a unit a space, or not one. *)
Lemma normalize_unit_space c : is_space (normalize_unit c) = is_space c.
Proof. unit_cases c. Qed.

Lemma normalize_unit_idem c : normalize_unit (normalize_unit c) = normalize_unit c.
Proof.
  destruct (normalize_unit_cases c) as [[H ->]|[[H ->]|[[H ->]|[[H ->]|(? & ? & ? & ? & ->)]]]]; [done..|].
  destruct (normalize_unit_cases c) as [[H' E]|[[H' E]|[[H' E]|[[H' E]|(? & ? & ? & ? & E)]]]]; congruence.
Qed.

Notation norm s := (fmap (M:=list) normalize_unit s).

Lemma split_fmap s : split_on LF (norm s) = (λ l, norm l) <$> split_on LF s.
Proof.
  induction s as [|c s IH]; [done|]. cbn [fmap list_fmap split_on]. rewrite normalize_unit_LF, IH.
  destruct (c =? LF); [done|]. by destruct (split_on LF s).
Qed.

Lemma join_fmap ws : norm (join_on [LF] ws) = join_on [LF] ((λ l, norm l) <$> ws).
Proof.
  induction ws as [|w ws IH]; [done|]. destruct ws as [|w' ws]; [done|].
  change (join_on [LF] (w :: w' :: ws)) with (w ++ [LF] ++ join_on [LF] (w' :: ws)). rewrite !fmap_app, IH. done.
Qed.

Lemma trimStart_fmap s : trimStart (norm s) = norm (trimStart s).
Proof. induction s as [|c s IH]; [done|]. cbn. rewrite normalize_unit_space. by destruct (is_space c). Qed.

Lemma trimStart_idem s : trimStart (trimStart s) = trimStart s.
Proof. induction s as [|c s IH]; [done|]. cbn. destruct (is_space c) eqn:E; [done|]. cbn. by rewrite E. Qed.

Lemma trimEnd_fmap_idem s : trimEnd (norm (trimEnd s)) = norm (trimEnd s).
Proof.
  unfold trimEnd. rewrite <- fmap_reverse, reverse_involutive, trimStart_fmap, trimStart_idem. by rewrite fmap_reverse.
Qed.

Lemma trimStart_suffix s : ∃ k, s = k ++ trimStart s.
Proof.
  induction s as [|c s [k IH]]; [by exists []|]. cbn. destruct (is_space c); [|by exists []]. exists (c :: k). cbn. by rewrite <- IH.
Qed.

Lemma trimEnd_elem s u : u ∈ trimEnd s → u ∈ s.
Proof.
  unfold trimEnd. destruct (trimStart_suffix (reverse s)) as [k Hk]. rewrite elem_of_reverse.
  intros Hu. rewrite <- elem_of_reverse, Hk. apply elem_of_app. by right.
Qed.

(** Normalizing twice is normalizing once, if [NFKC] has nothing left to do. *)
Lemma normalize_idem NFKC s :
  NFKC (normalizeForFuzzyMatch NFKC s) = normalizeForFuzzyMatch NFKC s →
  normalizeForFuzzyMatch NFKC (normalizeForFuzzyMatch NFKC s) = normalizeForFuzzyMatch NFKC s.
Proof.
  intros H. unfold normalizeForFuzzyMatch at 1. rewrite H. unfold normalizeForFuzzyMatch.
  set (ws := trimEnd <$> split_on LF (NFKC s)). rewrite split_fmap, split_join.
  - rewrite join_fmap, <- !list_fmap_compose. subst ws. rewrite join_fmap, <- !list_fmap_compose.
    f_equal. apply list_fmap_ext. intros i w _.
    change (norm (trimEnd (norm (trimEnd w))) = norm (trimEnd w)). rewrite trimEnd_fmap_idem, <- list_fmap_compose.
    apply list_fmap_ext. intros j c _. cbn. apply normalize_unit_idem.
  - subst ws. intros E%fmap_nil_inv. by apply split_on_nonempty in E.
  - subst ws. apply Forall_fmap, Forall_forall. intros w Hw Hin. cbn in Hin. apply trimEnd_elem in Hin.
    by eapply split_on_sep in Hw.
Qed.

(** [r] replaces what was found for the old text of [e] in the base. *)
Definition located (NFKC : jsstr → jsstr) (base : jsstr) (e : Edit) (r : TextReplacement) : Prop :=
  let m := fuzzyFindText NFKC base (oldText e) in
  fm_found m = true ∧ r = mkReplacement (fm_index m) (fm_matchLength m) (ed_newText e).

Lemma located_range NFKC base e r :
  normalizeForFuzzyMatch NFKC base = base → located NFKC base e r →
  0 ≤ matchIndex r ∧ 0 ≤ matchLength r ∧ r_end r ≤ Z.of_nat (length base).
Proof.
  intros Hidem [Hf ->]. unfold fuzzyFindText, r_end in *. rewrite Hidem in *.
  destruct (indexOf base (oldText e)) as [i|] eqn:E; [apply indexOf_end in E; cbn; lia|].
  destruct (indexOf base (normalizeForFuzzyMatch NFKC (oldText e))) as [i|] eqn:E'; [|done]. apply indexOf_end in E'. cbn. lia.
Qed.

Lemma match_edits_located NFKC base total i es ms :
  match_edits NFKC base total i es = Ok ms → Forall2 (located NFKC base) es (me_replacement <$> ms).
Proof.
  revert i ms. induction es as [|e es IH]; intros i ms H; cbn [match_edits] in H; [by injection H as <-; constructor|].
  apply rbind_Ok in H as (m & Hm & H). apply rbind_Ok in H as (ms' & Hms & [= <-]). cbn. constructor; [|by eapply IH].
  unfold match_edit in Hm. destruct (fm_found (fuzzyFindText NFKC base (oldText e))) eqn:Ef; [|done]. cbn in Hm.
  case_match; [done|]. by injection Hm as <-.
Qed.

(** The matches, sorted and free of overlaps, are in order. *)
Lemma sorted_matches (P : Edit → TextReplacement → Prop) limit es ms :
  (∀ e r, P e r → 0 ≤ matchIndex r ∧ 0 ≤ matchLength r ∧ r_end r ≤ limit) → 0 ≤ limit →
  Forall2 P es (me_replacement <$> ms) →
  find_overlap (sort_by me_index ms) = None →
  ∃ es', es' ≡ₚ es ∧ Forall2 P es' (me_replacement <$> sort_by me_index ms) ∧
    ordered 0 limit (me_replacement <$> sort_by me_index ms).
Proof.
  intros Hrange Hlim Hall Ho. destruct (sort_by_spec me_index ms) as [Hperm _]. set (sorted := sort_by me_index ms) in *.
  assert (me_replacement <$> ms ≡ₚ me_replacement <$> sorted) as Hp by by rewrite Hperm.
  destruct (Permutation_Forall2 Hp (proj1 (Forall2_flip _ _ _) Hall)) as (es' & Hes & Hrs). apply Forall2_flip in Hrs.
  exists es'. split_and!; [done|done|].
  assert (Forall (λ r, 0 ≤ matchIndex r ∧ 0 ≤ matchLength r ∧ r_end r ≤ limit) (me_replacement <$> sorted)) as Hr.
  { apply Forall_forall. intros r Hr. apply list_elem_of_lookup in Hr as [k Hk].
    destruct (Forall2_lookup_r _ _ _ _ _ Hrs Hk) as (e & _ & He). eauto. }
  apply (find_overlap_ordered 0); [done| | |done].
  - eapply Forall_impl; [exact Hr|]. by intros r (_ & ? & ?).
  - intros m Hm. destruct sorted as [|m' ms']; simplify_eq/=. by apply Forall_cons in Hr as [[? _] _].
Qed.

(** when some old text is only in the normalized content, the edits are found there,
    in order and disjoint, and laid over the content: every line that no edit
    touches keeps its text, and the lines of each touched block are the normalized
    ones with the replacements made. *)
Theorem edits_fuzzy NFKC content edits r :
  let es := normalize_edit <$> edits in
  let base := normalizeForFuzzyMatch NFKC content in
  let lines := splitLinesWithEndings base in
  NFKC base = base → (∃ e, e ∈ es ∧ indexOf content (oldText e) = None) →
  applyEditsToNormalizedContent NFKC content edits = Ok r →
  baseContent r = content ∧ newContent r ≠ content ∧ length (splitLinesWithEndings content) = length lines ∧
  ∃ es' gs, es' ≡ₚ es ∧ Forall2 (located NFKC base) es' (concat (g_replacements <$> gs)) ∧ blocks lines 0 gs ∧
    newContent r = weave lines (splitLinesWithEndings content) 0 gs.
Proof.
  intros es base lines Hnf (e & He & Hnone) H. unfold applyEditsToNormalizedContent in H. fold es base in H.
  destruct (find_empty 0 es) as [?|]; [done|]. destruct (existsb _ _) eqn:Ex.
  - apply rbind_Ok in H as (ms & Hms & H). destruct (find_overlap _) as [[]|] eqn:Eo; [done|].
    apply rbind_Ok in H as (new & Hnew & H). case_bool_decide as Hne; [done|]. injection H as <-.
    assert (normalizeForFuzzyMatch NFKC base = base) as Hidem by by apply normalize_idem.
    destruct (sorted_matches (located NFKC base) (Z.of_nat (length base)) es ms) as (es' & Hes & Hrs & Hord);
      [by eauto using located_range|lia|by eapply match_edits_located|done|].
    destruct (overlay_Ok _ _ _ _ Hord Hnew) as (Hlen & gs & -> & Hb & Hc). cbn. split_and!; [done|congruence|done|].
    exists es', gs. by rewrite Hc.
  - exfalso. apply rbind_Ok in H as (ms & Hms & _). apply match_edits_located in Hms.
    apply list_elem_of_lookup in He as [k Hk]. destruct (Forall2_lookup_l _ _ _ _ _ Hms Hk) as (r0 & _ & [Hf _]).
    apply not_true_iff_false in Ex. apply Ex. apply existsb_exists.
    exists (fuzzyFindText NFKC content (oldText e)). split.
    + apply list_elem_of_In, list_elem_of_fmap. exists e. split; [done|]. by eapply list_elem_of_lookup_2.
    + unfold fuzzyFindText in *. rewrite Hnone in *. by destruct (indexOf (normalizeForFuzzyMatch NFKC content) _).
Qed.

(** A quoted word found by its plain quotes; the trailing spaces of the line that is
    not edited stay. *)
Lemma edits_fuzzy_witness :
  let content := [0x201c] ++ js_lit "x" ++ [0x201d; LF] ++ js_lit "keep  " ++ [LF] in
  let edits := [mkEdit [0x22; 0x78; 0x22] (js_lit "y")] in
  let base := normalizeForFuzzyMatch id content in
  ∃ r, applyEditsToNormalizedContent id content edits = Ok r ∧ newContent r = js_lit "y" ++ [LF] ++ js_lit "keep  " ++ [LF] ∧
    ∃ gs, blocks (splitLinesWithEndings base) 0 gs ∧ newContent r = weave (splitLinesWithEndings base) (splitLinesWithEndings content) 0 gs.
Proof.
  intros content edits base. destruct (applyEditsToNormalizedContent id content edits) as [r|] eqn:E; [|vm_compute in E; discriminate E].
  exists r. split; [reflexivity|]. split; [vm_compute in E; injection E as <-; reflexivity|].
  destruct (edits_fuzzy id content edits r eq_refl) as (_ & _ & _ & es' & gs & _ & _ & H1 & H2); [|exact E|by exists gs].
  eexists. split; [by left|reflexivity].
Defined.

(** ** Line endings *)

Lemma normalize_no_CR c : CR ∉ normalizeToLF c.
Proof.
  unfold normalizeToLF. intros (x & Hx & _)%list_elem_of_fmap. unfold CR, LF in *. destruct (Z.eqb_spec x 13); lia.
Qed.

Lemma replace_crlf_skip x c : x ≠ CR → replace_crlf (x :: c) = x :: replace_crlf c.
Proof. intros H. destruct c as [|y c]; [done|]. cbn [replace_crlf]. by rewrite (proj2 (Z.eqb_neq x CR)). Qed.

Lemma replace_crlf_id c : CR ∉ c → replace_crlf c = c.
Proof.
  induction c as [|x c IH]; [done|]. rewrite not_elem_of_cons. intros [Hx Hc]. by rewrite replace_crlf_skip, IH.
Qed.

Lemma units_id (c : jsstr) : CR ∉ c → (λ x, if x =? CR then LF else x) <$> c = c.
Proof.
  induction c as [|x c IH]; [done|]. rewrite not_elem_of_cons. intros [Hx Hc]. cbn.
  rewrite (proj2 (Z.eqb_neq x CR)) by done. by rewrite IH.
Qed.

Lemma normalize_id c : CR ∉ c → normalizeToLF c = c.
Proof. intros H. unfold normalizeToLF. by rewrite replace_crlf_id, units_id. Qed.

Lemma normalize_restore t : CR ∉ t → normalizeToLF (restoreLineEndings t EndingCRLF) = t.
Proof.
  intros H. unfold normalizeToLF. assert (replace_crlf (restoreLineEndings t EndingCRLF) = t) as ->; [|by apply units_id].
  cbn [restoreLineEndings]. induction t as [|x t IH]; [done|]. apply not_elem_of_cons in H as [Hx Ht].
  rewrite bind_cons. destruct (Z.eqb_spec x LF) as [-> |Hne].
  - cbn [app replace_crlf]. by rewrite IH.
  - cbn [app]. by rewrite replace_crlf_skip, IH.
Qed.

Lemma indexOf_skip x s y sub : x ≠ y → indexOf (x :: s) (y :: sub) = S <$> indexOf s (y :: sub).
Proof.
  intros H. cbn [indexOf]. assert (startsWith (x :: s) (y :: sub) = false) as ->; [|done].
  apply bool_decide_eq_false. intros [k Hk]. by injection Hk.
Qed.

Lemma indexOf_here s sub : sub `prefix_of` s → indexOf s sub = Some O.
Proof. intros H%startsWith_spec. destruct s; cbn [indexOf]; by rewrite H. Qed.

Lemma detect_plain c : CR ∉ c → detectLineEnding c = EndingLF.
Proof.
  intros H. assert (indexOf c [CR; LF] = None) as Hn.
  { induction c as [|x c IH]; [done|]. apply not_elem_of_cons in H as [Hx Hc]. rewrite indexOf_skip by done. by rewrite IH. }
  unfold detectLineEnding. rewrite Hn. by destruct (indexOf c [LF]).
Qed.

Lemma detect_restored t : CR ∉ t → LF ∈ t → detectLineEnding (restoreLineEndings t EndingCRLF) = EndingCRLF.
Proof.
  intros Hcr Hlf. assert (∃ i, indexOf (restoreLineEndings t EndingCRLF) [LF] = Some (S i) ∧
    indexOf (restoreLineEndings t EndingCRLF) [CR; LF] = Some i) as (i & H1 & H2).
  2:{ unfold detectLineEnding. rewrite H1, H2, bool_decide_true by lia. done. }
  cbn [restoreLineEndings]. induction t as [|x t IH]; [by apply elem_of_nil in Hlf|].
  apply not_elem_of_cons in Hcr as [Hx Hcr]. rewrite bind_cons. destruct (Z.eqb_spec x LF) as [-> |Hne]; cbn [app].
  - exists O. rewrite indexOf_skip by done. rewrite !indexOf_here; [done|by eexists|by eexists].
  - apply elem_of_cons in Hlf as [? |Hlf]; [done|]. destruct (IH Hcr Hlf) as (i & H1 & H2). exists (S i).
    rewrite !indexOf_skip by done. by rewrite H1, H2.
Qed.

(** A text with line endings of one kind: line feeds only, or one carriage return
    before each line feed and no other. *)
Definition uniform (c : jsstr) : Prop := CR ∉ c ∨ ∃ t, CR ∉ t ∧ c = restoreLineEndings t EndingCRLF.

Lemma no_LF_restore t : LF ∉ t → restoreLineEndings t EndingCRLF = t.
Proof.
  cbn. induction t as [|x t IH]; [done|]. rewrite not_elem_of_cons. intros [Hx Ht]. rewrite bind_cons.
  rewrite (proj2 (Z.eqb_neq x LF)) by done. cbn. by rewrite IH.
Qed.

(** reading and writing a text without a change gives it back exactly when its line
    endings are of one kind. *)
Theorem endings_roundtrip c : restoreLineEndings (normalizeToLF c) (detectLineEnding c) = c ↔ uniform c.
Proof.
  split.
  - intros H. destruct (detectLineEnding c); [left|right].
    + cbn in H. rewrite <- H. apply normalize_no_CR.
    + exists (normalizeToLF c). split; [apply normalize_no_CR|done].
  - intros [H|(t & Ht & ->)]; [by rewrite detect_plain, normalize_id|].
    rewrite normalize_restore by done. destruct (decide (LF ∈ t)); [by rewrite detect_restored|].
    rewrite no_LF_restore by done. by rewrite detect_plain.
Qed.

(** ** Corners *)

(** A line feed among carriage returns is rewritten, though no edit touches its line. *)
Example mixed_endings_rewritten :
  let c := js_lit "a" ++ [CR; LF] ++ js_lit "b" ++ [LF] in
  restoreLineEndings (normalizeToLF c) (detectLineEnding c) = js_lit "a" ++ [CR; LF] ++ js_lit "b" ++ [CR; LF].
Proof. reflexivity. Qed.

(** With a last line of spaces and no line feed after it, an edit that needs the
    normalized content is refused, wherever it is. *)
Example blank_tail_refused :
  applyEditsToNormalizedContent id ([0x201c; 0x78; 0x201d; LF] ++ js_lit "  ") [mkEdit [0x22; 0x78; 0x22] (js_lit "y")] = Err LineCountDiffers.
Proof. reflexivity. Qed.

(** An old text of spaces is said to occur once between any two characters of the
    file. *)
Example blank_old_text_counted :
  applyEditsToNormalizedContent id (js_lit "ab  cd") [mkEdit (js_lit "  ") (js_lit " ")] = Err (Duplicate 0 1 5).
Proof. reflexivity. Qed.
