(* ===== verification/DiffDisplaySpec.v ===== *)
(** The diff shown after an edit: every line is shown under its own number, all the
    changed lines are shown, and the first changed line is where the texts part. *)
From S2P Require Import Prelude JsValue Json Regex NodePath Truncate EditDiff.
Open Scope Z_scope.

(** A diff of the two texts in whole lines, as the [diff] package documents it: the
    parts that are not added make up the old lines, those not removed the new ones. *)
Definition lines_of (keep : DiffPart → bool) (parts : list DiffPart) : list jsstr :=
  parts ≫= λ p, if keep p then part_lines (dp_value p) else [].
Definition in_old (p : DiffPart) : bool := negb (dp_added p).
Definition in_new (p : DiffPart) : bool := negb (dp_removed p).

Definition diff_of (old new : list jsstr) (parts : list DiffPart) : Prop :=
  Forall (λ p, dp_added p && dp_removed p = false) parts ∧ lines_of in_old parts = old ∧ lines_of in_new parts = new.

(** Line [n], counted from 1. *)
Definition line_at (lines : list jsstr) (n : Z) (line : jsstr) : Prop := 1 ≤ n ∧ lines !! Z.to_nat (n - 1) = Some line.

Definition truthful (old new : list jsstr) (s : Shown) : Prop :=
  match s with
  | Added n line => line_at new n line
  | Removed n line | ContextLine n line => line_at old n line
  | Skipped => True
  end.

Definition added_of (s : Shown) : option jsstr := match s with Added _ line => Some line | _ => None end.
Definition removed_of (s : Shown) : option jsstr := match s with Removed _ line => Some line | _ => None end.

Lemma line_at_mid pre line post : line_at (pre ++ line :: post) (Z.of_nat (length pre) + 1) line.
Proof.
  split; [lia|]. replace (Z.to_nat _) with (length pre) by lia. by apply list_lookup_middle.
Qed.

Section shown.
Context (old new : list jsstr).

(** [s'] comes after [s] by [k] lines that are in both texts. *)
Definition passed (s s' : DiffState) (k : nat) : Prop :=
  oldLineNum s' = oldLineNum s + Z.of_nat k ∧ newLineNum s' = newLineNum s + Z.of_nat k ∧
  lastWasChange s' = lastWasChange s ∧ firstChangedLine s' = firstChangedLine s ∧
  ∃ shown, ds_output s' = ds_output s ++ shown ∧ Forall (truthful old new) shown ∧
    omap added_of shown = [] ∧ omap removed_of shown = [].

Lemma passed_trans s s' s'' k k' : passed s s' k → passed s' s'' k' → passed s s'' (k + k').
Proof.
  intros (A1 & A2 & A3 & A4 & sh & A5 & A6 & A7 & A8) (B1 & B2 & B3 & B4 & sh' & B5 & B6 & B7 & B8).
  split_and!; [lia|lia|congruence|congruence|]. exists (sh ++ sh'). rewrite B5, A5, <- app_assoc, !omap_app, A7, A8, B7, B8.
  split_and!; [done|by apply Forall_app|done|done].
Qed.

Lemma passed_skip s b k : passed s (skip_lines s b k) k.
Proof. split_and!; [done..|]. exists (if b then [Skipped] else []). destruct b; split_and!; by repeat constructor. Qed.

Lemma passed_context s lines pre post :
  oldLineNum s = Z.of_nat (length pre) + 1 → old = pre ++ lines ++ post → passed s (show_context s lines) (length lines).
Proof.
  revert s pre. induction lines as [|line lines IH]; intros s pre Hn Hold.
  { split_and!; [cbn; lia|cbn; lia|done|done|]. exists []. by rewrite app_nil_r. }
  change (show_context s (line :: lines)) with (show_context (show_context s [line]) lines).
  change (length (line :: lines)) with (1 + length lines)%nat. eapply passed_trans; [|apply (IH _ (pre ++ [line]))].
  - split_and!; [done..|]. exists [ContextLine (oldLineNum s) line]. split_and!; [done| |done|done].
    constructor; [|done]. cbn. rewrite Hn, Hold. apply line_at_mid.
  - cbn. rewrite length_app, Hn. cbn. lia.
  - by rewrite Hold, <- app_assoc.
Qed.

(** Context passes over all its lines, however many are shown. *)
Lemma passed_part n s raw lead trail pre post :
  oldLineNum s = Z.of_nat (length pre) + 1 → old = pre ++ raw ++ post → passed s (context_part n s raw lead trail) (length raw).
Proof.
  intros Hn Hold. unfold context_part.
  assert (∀ k, (k ≤ length raw)%nat → passed s (show_context s (take k raw)) k) as Htake.
  { intros k Hk. rewrite <- (length_take_le raw k) at 2 by done. apply (passed_context _ _ pre (drop k raw ++ post)); [done|].
    by rewrite (app_assoc (take k raw)), take_drop. }
  assert (∀ s' k, (k ≤ length raw)%nat → passed s s' k → passed s (show_context s' (drop k raw)) (length raw)) as Hdrop.
  { intros s' k Hk Hs'. replace (length raw) with (k + length (drop k raw))%nat by (rewrite length_drop; lia).
    eapply passed_trans; [done|]. destruct Hs' as (H1 & _). apply (passed_context _ _ (pre ++ take k raw) post).
    - rewrite H1, Hn, length_app, length_take_le by done. lia.
    - by rewrite <- app_assoc, (app_assoc (take k raw)), take_drop. }
  destruct lead, trail.
  - case_bool_decide as Hle; [by apply (passed_context _ _ pre post)|].
    apply Hdrop; [lia|]. rewrite length_drop, length_take_le by lia.
    pose proof (passed_trans _ _ _ _ _ (Htake n ltac:(lia)) (passed_skip _ true (length raw - n - (length raw - (length raw - n))))) as H.
    by replace (n + (length raw - n - (length raw - (length raw - n))))%nat with (length raw - n)%nat in H by lia.
  - rewrite length_take. case_bool_decide as Hle.
    + pose proof (passed_trans _ _ _ _ _ (Htake n ltac:(lia)) (passed_skip _ true (length raw - n `min` length raw))) as H.
      by replace (n + (length raw - n `min` length raw))%nat with (length raw) in H by lia.
    + rewrite take_ge by lia. by apply (passed_context _ _ pre post).
  - case_bool_decide as Hle; [apply Hdrop; [lia|apply passed_skip]|].
    replace (length raw - n)%nat with 0%nat by lia. rewrite drop_0. by apply (passed_context _ _ pre post).
  - apply passed_skip.
Qed.

(** Changed lines, all of them, under their numbers in their own text. *)
Lemma added_shown s lines pre post :
  newLineNum s = Z.of_nat (length pre) + 1 → new = pre ++ lines ++ post →
  let s' := show_change true s lines in
  oldLineNum s' = oldLineNum s ∧ newLineNum s' = newLineNum s + Z.of_nat (length lines) ∧
  firstChangedLine s' = firstChangedLine s ∧
  ∃ shown, ds_output s' = ds_output s ++ shown ∧ Forall (truthful old new) shown ∧
    omap added_of shown = lines ∧ omap removed_of shown = [].
Proof.
  revert s pre. induction lines as [|line lines IH]; intros s pre Hn Hnew.
  { split_and!; [done|cbn; lia|done|]. exists []. by rewrite app_nil_r. }
  destruct (IH (show_change true s [line]) (pre ++ [line])) as (H1 & H2 & H3 & shown & H4 & H5 & H6 & H7).
  { cbn. rewrite length_app, Hn. cbn. lia. }
  { by rewrite Hnew, <- app_assoc. }
  change (show_change true s (line :: lines)) with (show_change true (show_change true s [line]) lines). cbn zeta.
  rewrite H1, H2, H3, H4. split_and!; [done|cbn; lia|done|]. exists (Added (newLineNum s) line :: shown).
  split_and!; [by cbn; rewrite <- app_assoc| |by cbn; rewrite H6|done].
  constructor; [|done]. cbn. rewrite Hn, Hnew. apply line_at_mid.
Qed.

Lemma removed_shown s lines pre post :
  oldLineNum s = Z.of_nat (length pre) + 1 → old = pre ++ lines ++ post →
  let s' := show_change false s lines in
  oldLineNum s' = oldLineNum s + Z.of_nat (length lines) ∧ newLineNum s' = newLineNum s ∧
  firstChangedLine s' = firstChangedLine s ∧
  ∃ shown, ds_output s' = ds_output s ++ shown ∧ Forall (truthful old new) shown ∧
    omap added_of shown = [] ∧ omap removed_of shown = lines.
Proof.
  revert s pre. induction lines as [|line lines IH]; intros s pre Hn Hold.
  { split_and!; [cbn; lia|done|done|]. exists []. by rewrite app_nil_r. }
  destruct (IH (show_change false s [line]) (pre ++ [line])) as (H1 & H2 & H3 & shown & H4 & H5 & H6 & H7).
  { cbn. rewrite length_app, Hn. cbn. lia. }
  { by rewrite Hold, <- app_assoc. }
  change (show_change false s (line :: lines)) with (show_change false (show_change false s [line]) lines). cbn zeta.
  rewrite H1, H2, H3, H4. split_and!; [cbn; lia|done|done|]. exists (Removed (oldLineNum s) line :: shown).
  split_and!; [by cbn; rewrite <- app_assoc| |done|by cbn; rewrite H7].
  constructor; [|done]. cbn. rewrite Hn, Hold. apply line_at_mid.
Qed.

(** After the parts whose old lines are [o] and new lines [n]. *)
Record shown_so_far (s : DiffState) (done : list DiffPart) : Prop := {
  sf_old : oldLineNum s = Z.of_nat (length (lines_of in_old done)) + 1;
  sf_new : newLineNum s = Z.of_nat (length (lines_of in_new done)) + 1;
  sf_truthful : Forall (truthful old new) (ds_output s);
  sf_added : omap added_of (ds_output s) = lines_of dp_added done;
  sf_removed : omap removed_of (ds_output s) = lines_of dp_removed done;
  sf_first : match firstChangedLine s with
             | None => lines_of in_old done = lines_of in_new done
             | Some k => ∃ c, c `prefix_of` lines_of in_old done ∧ c `prefix_of` lines_of in_new done ∧ k = Z.of_nat (length c) + 1
             end;
}.

Lemma lines_of_snoc keep done p : lines_of keep (done ++ [p]) = lines_of keep done ++ (if keep p then part_lines (dp_value p) else []).
Proof. unfold lines_of. rewrite bind_app. cbn. by rewrite app_nil_r. Qed.

(** Where the first change is, once there is one. *)
Lemma first_change s done :
  shown_so_far s done →
  ∃ c k, match firstChangedLine s with None => Some (newLineNum s) | Some n => Some n end = Some k ∧
    c `prefix_of` lines_of in_old done ∧ c `prefix_of` lines_of in_new done ∧ k = Z.of_nat (length c) + 1.
Proof.
  intros [Ho Hn _ _ _ Hf]. destruct (firstChangedLine s) as [k|].
  - destruct Hf as (c & ? & ? & ?). by exists c, k.
  - exists (lines_of in_new done), (newLineNum s). rewrite Hf. done.
Qed.

Lemma part_shown ctx s done p next rest :
  dp_added p && dp_removed p = false →
  lines_of in_old (done ++ p :: rest) = old → lines_of in_new (done ++ p :: rest) = new →
  shown_so_far s done → shown_so_far (diff_part ctx s p next) (done ++ [p]).
Proof.
  intros Hx Hold Hnew Hs. rewrite cons_middle, app_assoc in Hold, Hnew. unfold lines_of in Hold, Hnew.
  rewrite bind_app in Hold, Hnew. fold (lines_of in_old (done ++ [p])) in Hold. fold (lines_of in_new (done ++ [p])) in Hnew.
  rewrite lines_of_snoc in Hold, Hnew. destruct (first_change s done Hs) as (c & k & Hk & Hco & Hcn & Hkc).
  destruct Hs as [Ho Hn Ht Ha Hr Hf]. unfold diff_part, is_change.
  assert (in_old p = negb (dp_added p)) as Hio by done. assert (in_new p = negb (dp_removed p)) as Hin by done.
  destruct (dp_added p) eqn:Ea, (dp_removed p) eqn:Er; cbn [orb]; cbn [negb] in Hio, Hin; rewrite Hio, Hin in *; [done| | |].
  - rewrite <- app_assoc in Hnew.
    destruct (added_shown (with_change s (lastWasChange s) (match firstChangedLine s with None => Some (newLineNum s) | Some n => Some n end))
      _ _ _ Hn (eq_sym Hnew)) as (H1 & H2 & H3 & shown & H4 & H5 & H6 & H7).
    constructor; cbn; rewrite ?lines_of_snoc, ?Hio, ?Hin, ?Ea, ?Er, ?app_nil_r.
    + by rewrite H1.
    + rewrite H2, length_app. unfold with_change; cbn [newLineNum]. lia.
    + rewrite H4. by apply Forall_app.
    + rewrite H4, omap_app. cbn. by rewrite Ha, H6.
    + rewrite H4, omap_app. cbn. by rewrite Hr, H7, app_nil_r.
    + rewrite Hk. exists c. split_and!; [done|by apply prefix_app_r|done].
  - rewrite <- app_assoc in Hold.
    destruct (removed_shown (with_change s (lastWasChange s) (match firstChangedLine s with None => Some (newLineNum s) | Some n => Some n end))
      _ _ _ Ho (eq_sym Hold)) as (H1 & H2 & H3 & shown & H4 & H5 & H6 & H7).
    constructor; cbn; rewrite ?lines_of_snoc, ?Hio, ?Hin, ?Ea, ?Er, ?app_nil_r.
    + rewrite H1, length_app. unfold with_change; cbn [oldLineNum newLineNum]. lia.
    + by rewrite H2.
    + rewrite H4. by apply Forall_app.
    + rewrite H4, omap_app. cbn. by rewrite Ha, H6, app_nil_r.
    + rewrite H4, omap_app. cbn. by rewrite Hr, H7.
    + rewrite Hk. exists c. split_and!; [by apply prefix_app_r|done|done].
  - rewrite <- app_assoc in Hold.
    set (trail := match next with Some _ => _ | None => _ end).
    destruct (passed_part ctx s _ (lastWasChange s) trail _ _ Ho (eq_sym Hold)) as (H1 & H2 & H3 & H4 & shown & H5 & H6 & H7 & H8).
    constructor; cbn; rewrite ?lines_of_snoc, ?Hio, ?Hin, ?Ea, ?Er, ?app_nil_r.
    + rewrite H1, length_app. lia.
    + rewrite H2, length_app. lia.
    + rewrite H5. by apply Forall_app.
    + by rewrite H5, omap_app, Ha, H7, app_nil_r.
    + by rewrite H5, omap_app, Hr, H8, app_nil_r.
    + rewrite H4. destruct (firstChangedLine s) as [k'|]; [|by rewrite Hf].
      destruct Hf as (c' & ? & ? & ?). exists c'. split_and!; [by apply prefix_app_r|by apply prefix_app_r|done].
Qed.

Lemma parts_shown ctx s done rest :
  Forall (λ p, dp_added p && dp_removed p = false) rest →
  lines_of in_old (done ++ rest) = old → lines_of in_new (done ++ rest) = new →
  shown_so_far s done → shown_so_far (diff_parts ctx s rest) (done ++ rest).
Proof.
  intros Hx. revert s done. induction Hx as [|p rest Hp Hx IH]; intros s done Ho Hn Hs; cbn [diff_parts]; [by rewrite app_nil_r|].
  rewrite cons_middle, app_assoc. apply IH; [by rewrite <- app_assoc..|]. by eapply part_shown.
Qed.
End shown.

(** for any parts that make up the two texts, each line the diff prints with a
    number is the line of the new text, or of the old one, with that number; the added
    and the removed lines are all printed, in order; and the first changed line is
    where the texts stop being the same, or there is none when they are the same. *)
Theorem diff_shown old new parts ctx :
  diff_of old new parts →
  let s := diff_parts ctx diff_start parts in
  Forall (truthful old new) (ds_output s) ∧
  omap added_of (ds_output s) = lines_of dp_added parts ∧ omap removed_of (ds_output s) = lines_of dp_removed parts ∧
  match firstChangedLine s with
  | None => old = new
  | Some k => ∃ c, c `prefix_of` old ∧ c `prefix_of` new ∧ k = Z.of_nat (length c) + 1
  end.
Proof.
  intros (Hx & Ho & Hn). destruct (parts_shown old new ctx diff_start [] parts Hx Ho Hn) as [_ _ Ht Ha Hr Hf]; [by constructor|].
  cbn [app] in *. rewrite Ho, Hn in Hf. done.
Qed.

Lemma diff_shown_witness :
  let parts := [mkPart (js_lit "a" ++ [LF]) false false; mkPart (js_lit "b" ++ [LF]) false true; mkPart (js_lit "c" ++ [LF]) true false] in
  ds_output (diff_parts 4 diff_start parts) = [ContextLine 1 (js_lit "a"); Removed 2 (js_lit "b"); Added 2 (js_lit "c")] ∧
  Forall (truthful [js_lit "a"; js_lit "b"] [js_lit "a"; js_lit "c"]) (ds_output (diff_parts 4 diff_start parts)).
Proof.
  intros parts. split; [reflexivity|]. apply (diff_shown [js_lit "a"; js_lit "b"] [js_lit "a"; js_lit "c"] parts 4).
  split; [|split; reflexivity]. repeat constructor.
Defined.
