(* ===== verification/FileQueue.v ===== *)
(** Serializing changes to a file: [agent/src/harness/tools/file-mutation-queue.ts],
    with the tools that change files as its callers.

    A call is an operation with an index.  The promise chain [registration] is the
    list of operations that have not registered, in the order of the calls; the
    promise [chainedQueue] of an operation is named by its index, and [queues] holds
    the last one per key.  What an operation does to its file is a function of the
    content it reads: nothing ([None]), or a new content. *)
From S2P Require Import Prelude JsValue JsMap FileSystem.

(** [getMutationQueueKey], from what the environment answers. *)
Definition getMutationQueueKey (absolutePath_ canonicalPath_ : fs_result path) : fs_result path :=
  let* absolutePath_ := absolutePath_ in
  match canonicalPath_ with
  | Ok canonical => Ok canonical
  | Err fe_not_found | Err fe_not_supported => Ok absolutePath_
  | Err e => Err e
  end.

(** Where an operation is: before its registration, rejected by it, awaiting
    [currentQueue], and in [fn]: started, having read, done; and after [finally]. *)
Inductive Phase :=
| Registering
| RegistrationFailed
| Waiting (key : path) (currentQueue : option nat)
| Running (key : path)
| HasRead (key : path) (content : option jsstr)
| Ended (key : path)
| Finished (key : path).

Record Operation := mkOperation { op_change : option jsstr → option jsstr; op_phase : Phase }.

Record Queue := mkQueue {
  q_ops : list Operation; q_registration : list nat; q_queues : list (path * nat); q_files : gmap path jsstr }.

Definition queue_start (fs : gmap path jsstr) : Queue := mkQueue [] [] [] fs.

Definition set_phase (q : Queue) (i : nat) (p : Phase) : list Operation :=
  alter (λ o, mkOperation (op_change o) p) i (q_ops q).

Definition phase_of (q : Queue) (i : nat) : option Phase := op_phase <$> q_ops q !! i.

(** Whether the promise [currentQueue] has resolved: [Promise.resolve()], or the
    queue of an operation, which resolves with its release. *)
Definition resolved (q : Queue) (current : option nat) : bool :=
  match current with
  | None => true
  | Some i => match phase_of q i with Some (Finished _) => true | _ => false end
  end.

Inductive Event :=
| Call (change : option jsstr → option jsstr)
| Register (absolutePath_ canonicalPath_ : fs_result path)
| Start (i : nat)
| Read (i : nat)
| Write (i : nat)
| WriteFails (i : nat) (left_ : option jsstr)
| Throw (i : nat)
| Finish (i : nat).

(** One step; [None] when the event cannot happen. *)
Definition step (q : Queue) (e : Event) : option Queue :=
  match e with
  | Call change =>
      Some (mkQueue (q_ops q ++ [mkOperation change Registering]) (q_registration q ++ [length (q_ops q)]) (q_queues q) (q_files q))
  | Register abs canon =>
      match q_registration q with
      | [] => None
      | i :: rest =>
          match getMutationQueueKey abs canon with
          | Err _ => Some (mkQueue (set_phase q i RegistrationFailed) rest (q_queues q) (q_files q))
          | Ok key =>
              let currentQueue := map_get (q_queues q) key in
              Some (mkQueue (set_phase q i (Waiting key currentQueue)) rest (map_set (q_queues q) key i) (q_files q))
          end
      end
  | Start i =>
      match phase_of q i with
      | Some (Waiting key currentQueue) =>
          if resolved q currentQueue
          then Some (mkQueue (set_phase q i (Running key)) (q_registration q) (q_queues q) (q_files q)) else None
      | _ => None
      end
  | Read i =>
      match phase_of q i with
      | Some (Running key) =>
          Some (mkQueue (set_phase q i (HasRead key (q_files q !! key))) (q_registration q) (q_queues q) (q_files q))
      | _ => None
      end
  | Write i =>
      match q_ops q !! i with
      | Some (mkOperation change (HasRead key content)) =>
          let fs := match change content with Some t => <[key := t]> (q_files q) | None => q_files q end in
          Some (mkQueue (set_phase q i (Ended key)) (q_registration q) (q_queues q) fs)
      | _ => None
      end
  | WriteFails i left_ =>
      match phase_of q i with
      | Some (HasRead key _) =>
          Some (mkQueue (set_phase q i (Ended key)) (q_registration q) (q_queues q) (partial_alter (λ _, left_) key (q_files q)))
      | _ => None
      end
  | Throw i =>
      match phase_of q i with
      | Some (Running key) | Some (HasRead key _) =>
          Some (mkQueue (set_phase q i (Ended key)) (q_registration q) (q_queues q) (q_files q))
      | _ => None
      end
  | Finish i =>
      match phase_of q i with
      | Some (Ended key) =>
          let queues := if bool_decide (map_get (q_queues q) key = Some i) then map_delete (q_queues q) key else q_queues q in
          Some (mkQueue (set_phase q i (Finished key)) (q_registration q) queues (q_files q))
      | _ => None
      end
  end.

Inductive reachable (fs : gmap path jsstr) : Queue → Prop :=
| reachable_start : reachable fs (queue_start fs)
| reachable_step q e q' : reachable fs q → step q e = Some q' → reachable fs q'.

Definition run_events (q : Queue) (es : list Event) : option Queue :=
  foldl (λ q e, match q with Some q => step q e | None => None end) (Some q) es.
