(* ===== verification/FileQueueSpec.v ===== *)
(** Changes to one file are serialized: one at a time, in the order of the calls,
    each on the content its predecessor left; every call ends, and the table of
    queues is empty again. *)
From S2P Require Import Prelude JsValue JsMap FileSystem FileQueue.

Definition key_of (p : Phase) : option path :=
  match p with
  | Waiting k _ | Running k | HasRead k _ | Ended k | Finished k => Some k
  | Registering | RegistrationFailed => None
  end.

Definition waiting (p : Phase) : bool := match p with Waiting _ _ => true | _ => false end.
Definition finished (p : Phase) : bool := match p with Finished _ => true | _ => false end.

(** In [fn]: from its start to its release. *)
Definition active (p : Phase) : bool := match p with Running _ | HasRead _ _ | Ended _ => true | _ => false end.

(** Operation [i] has registered under [k]. *)
Definition keyed (q : Queue) (i : nat) (k : path) : Prop := ∃ p, phase_of q i = Some p ∧ key_of p = Some k.
Definition is_finished (q : Queue) (i : nat) : Prop := ∃ k, phase_of q i = Some (Finished k).

(** What [queues] says of a key: its last operation, unless all have finished. *)
Definition entry_ok (q : Queue) (k : path) (entry : option nat) : Prop :=
  match entry with
  | None => ∀ i, keyed q i k → is_finished q i
  | Some j => keyed q j k ∧ ¬ is_finished q j ∧ ∀ i, keyed q i k → (i ≤ j)%nat
  end.

(** The operations that have not registered are the last ones called. *)
Definition registering (q : Queue) : Prop :=
  ∃ n, q_registration q = seq n (length (q_ops q) - n) ∧ (n ≤ length (q_ops q))%nat ∧
    ∀ i p, phase_of q i = Some p → (p = Registering ↔ (n ≤ i)%nat).

Record queue_ok (q : Queue) : Prop := {
  ok_order i j k p : (i < j)%nat → keyed q i k → phase_of q j = Some p → key_of p = Some k → waiting p = false → is_finished q i;
  ok_waiting j k cur : phase_of q j = Some (Waiting k cur) →
    match cur with
    | None => ∀ i, (i < j)%nat → keyed q i k → is_finished q i
    | Some c => (c < j)%nat ∧ keyed q c k ∧ ∀ i, (i < j)%nat → keyed q i k → (i ≤ c)%nat
    end;
  ok_queues k : entry_ok q k (map_get (q_queues q) k);
  ok_registration : registering q;
}.

Lemma phase_set q i p rest qs fs j :
  phase_of (mkQueue (set_phase q i p) rest qs fs) j =
  if bool_decide (i = j) then (λ _, p) <$> phase_of q i else phase_of q j.
Proof.
  unfold phase_of, set_phase. cbn. case_bool_decide as E.
  - subst. rewrite list_lookup_alter_eq. by destruct (q_ops q !! j).
  - by rewrite list_lookup_alter_ne.
Qed.

Lemma length_set q i p : length (set_phase q i p) = length (q_ops q).
Proof. apply length_alter. Qed.

(** ** A step of one operation *)

(** [q'] is [q] with operation [i] taken from [p] to [p'] under the same key. *)
Definition moves (q q' : Queue) (i : nat) (p p' : Phase) : Prop :=
  phase_of q i = Some p ∧ (∀ j, phase_of q' j = if bool_decide (i = j) then Some p' else phase_of q j) ∧
  length (q_ops q') = length (q_ops q) ∧ q_registration q' = q_registration q ∧
  ∃ k, key_of p = Some k ∧ key_of p' = Some k ∧ finished p = false ∧ waiting p' = false.

Lemma moves_keyed q q' i p p' j k : moves q q' i p p' → keyed q' j k ↔ keyed q j k.
Proof.
  intros (Hp & Hq' & _ & _ & k0 & Hk & Hk' & _). unfold keyed. rewrite Hq'. case_bool_decide as E; [subst|done].
  rewrite Hp. split; intros (x & [= <-] & Hx); eexists; (split; [done|]); congruence.
Qed.

Lemma moves_finished q q' i p p' j : moves q q' i p p' → is_finished q j → is_finished q' j.
Proof.
  intros (Hp & Hq' & _ & _ & k0 & _ & _ & Hf & _) [k Hj]. exists k. rewrite Hq'. case_bool_decide as E; [subst|done].
  rewrite Hp in Hj. by injection Hj as ->.
Qed.

(** It stays true, unless it is the entry's own operation that finishes. *)
Lemma moves_entry q q' i p p' k entry :
  moves q q' i p p' → (finished p' = true → entry ≠ Some i) → entry_ok q k entry → entry_ok q' k entry.
Proof.
  intros Hm Hne. pose proof (λ j, moves_keyed _ _ _ _ _ j k Hm) as Hkeyed.
  pose proof (λ j, moves_finished _ _ _ _ _ j Hm) as Hfin. destruct Hm as (_ & Hphase & _).
  destruct entry as [j|]; cbn.
  - intros (Hj & Hnf & Hmax). rewrite Hkeyed. split_and!; [done| |intros x; rewrite Hkeyed; auto].
    intros [k1 Hx]. rewrite Hphase in Hx. case_bool_decide; [|apply Hnf; by exists k1]. subst.
    destruct p'; try done. by apply Hne.
  - intros H j Hj. rewrite Hkeyed in Hj. auto.
Qed.

(** A step within an operation that is not waiting, or that may start, keeps the
    order; [q_queues] changes only when the operation finishes. *)
Lemma moves_ok q q' i p p' :
  queue_ok q → moves q q' i p p' →
  (waiting p = true → ∀ j k, key_of p = Some k → (j < i)%nat → keyed q j k → is_finished q j) →
  (if finished p' then
     ∀ k, key_of p = Some k → q_queues q' = if bool_decide (map_get (q_queues q) k = Some i) then map_delete (q_queues q) k else q_queues q
   else q_queues q' = q_queues q) →
  queue_ok q'.
Proof.
  intros [Ho Hw Hq Hr] Hm Hstart Hqueues. pose proof (λ j k, moves_keyed _ _ _ _ _ j k Hm) as Hkeyed.
  pose proof (λ j, moves_finished _ _ _ _ _ j Hm) as Hfin.
  pose proof (λ k, moves_entry _ _ _ _ _ k (map_get (q_queues q) k) Hm) as Hentry.
  destruct Hm as (Hp & Hphase & Hlen & Hreg & k0 & Hk & Hk' & Hf & Hw').
  assert (∀ j k, (j < i)%nat → key_of p = Some k → keyed q j k → is_finished q j) as Hbefore.
  { intros j k Hj Hpk Hkj. destruct (waiting p) eqn:Ew; [by eapply Hstart|]. by eapply Ho. }
  split.
  - intros j1 j2 k x Hlt Hj1 Hj2 Hx Hnw. apply Hfin. rewrite Hkeyed in Hj1. rewrite Hphase in Hj2. case_bool_decide as E.
    + subst. injection Hj2 as <-. eapply (Hbefore j1 k); [done|congruence|done].
    + by eapply Ho.
  - intros j k cur Hj. rewrite Hphase in Hj. case_bool_decide as E; [by injection Hj as ->|]. specialize (Hw j k cur Hj).
    destruct cur as [c|].
    + destruct Hw as (? & ? & Hmax). rewrite Hkeyed. split_and!; [done..|]. intros i'. rewrite Hkeyed. auto.
    + intros i' Hi'. rewrite Hkeyed. auto.
  - intros k. specialize (Hq k). pose proof (Hentry k) as He.
    destruct (finished p') eqn:Ef; [|rewrite Hqueues; by apply He]. rewrite (Hqueues k0 Hk).
    assert (map_get (q_queues q) k = Some i → k = k0) as Hown.
    { intros E. rewrite E in Hq. destruct Hq as ((x & Hx & Hxk) & _). congruence. }
    case_bool_decide as Ei; [|apply He; [|done]; intros _ E; rewrite (Hown E) in E; done].
    rewrite map_get_delete. case_bool_decide as Ek; [|apply He; [|done]; intros _ E; apply Ek; symmetry; by apply Hown].
    subst k0. rewrite Ei in Hq. destruct Hq as (_ & _ & Hmax). intros j Hj. rewrite Hkeyed in Hj. specialize (Hmax j Hj).
    destruct (decide (j = i)) as [-> |].
    + destruct p'; try done. eexists. rewrite Hphase, bool_decide_true; done.
    + apply Hfin. apply (Hbefore j k); [lia|done|done].
  - destruct Hr as (n & Hreg' & Hn & Hphases). exists n. rewrite Hreg, Hlen. split_and!; [done|done|].
    intros j x Hj. rewrite Hphase in Hj. case_bool_decide as E; [|by apply Hphases]. subst. injection Hj as <-.
    specialize (Hphases j p Hp). destruct p, p'; try done; rewrite <- Hphases; done.
Qed.

(** ** Calls and registrations *)

(** Operations without a key do not count. *)
Lemma unkeyed_ok q q' :
  queue_ok q → (∀ j p k, key_of p = Some k → phase_of q' j = Some p ↔ phase_of q j = Some p) →
  q_queues q' = q_queues q → registering q' → queue_ok q'.
Proof.
  intros [Ho Hw Hq _] Hsame Hqs Hr.
  assert (∀ i k, keyed q' i k ↔ keyed q i k) as Hk.
  { intros i k. unfold keyed. split; intros (p & Hp & Hpk); exists p; (split; [|done]); by eapply Hsame. }
  assert (∀ i, is_finished q' i ↔ is_finished q i) as Hf.
  { intros i. unfold is_finished. split; intros (k & Hp); exists k; by eapply Hsame. }
  split; [| | |done].
  - intros i j k p Hlt Hi Hj Hpk Hnw. rewrite Hk in Hi. rewrite Hf. eapply Ho; [done|done|by eapply Hsame|done|done].
  - intros j k cur Hj. rewrite Hsame in Hj by done. specialize (Hw j k cur Hj). destruct cur as [c|].
    + destruct Hw as (? & ? & Hmax). rewrite Hk. split_and!; [done..|]. intros i. rewrite Hk. auto.
    + intros i. rewrite Hk, Hf. auto.
  - intros k. rewrite Hqs. specialize (Hq k). destruct (map_get (q_queues q) k) as [j|]; cbn in *.
    + rewrite Hk, Hf. destruct Hq as (? & ? & Hmax). split_and!; [done..|]. intros i. rewrite Hk. auto.
    + intros i. rewrite Hk, Hf. auto.
Qed.

Lemma phase_of_call q change j :
  phase_of (mkQueue (q_ops q ++ [mkOperation change Registering]) (q_registration q ++ [length (q_ops q)]) (q_queues q) (q_files q)) j =
  if bool_decide (j = length (q_ops q)) then Some Registering else phase_of q j.
Proof.
  unfold phase_of. cbn. case_bool_decide as E.
  - subst. by rewrite lookup_app_r, Nat.sub_diag.
  - destruct (decide (j < length (q_ops q))%nat).
    + by rewrite lookup_app_l.
    + rewrite !(lookup_ge_None_2 _ j); [done|lia|rewrite length_app; cbn; lia].
Qed.

Lemma phase_of_lt q i p : phase_of q i = Some p → (i < length (q_ops q))%nat.
Proof. intros (o & Ho & _)%fmap_Some. by eapply lookup_lt_Some. Qed.

Lemma call_ok q change q' : queue_ok q → step q (Call change) = Some q' → queue_ok q'.
Proof.
  intros Hok [= <-]. pose proof (phase_of_call q change) as Hphase. set (q' := mkQueue _ _ _ _) in *.
  apply (unkeyed_ok q); [done| |done|].
  - intros j p k Hpk. rewrite Hphase. case_bool_decide; [subst|done]. split; [by intros [= <-]|].
    intros Hp%phase_of_lt. lia.
  - destruct Hok as [_ _ _ (n & Hreg & Hn & Hphases)]. exists n.
    assert (length (q_ops q') = S (length (q_ops q))) as -> by (subst q'; cbn [q_ops]; rewrite length_app; cbn; lia).
    change (q_registration q') with (q_registration q ++ [length (q_ops q)]). rewrite Hreg. split_and!.
    + replace (S (length (q_ops q)) - n)%nat with (S (length (q_ops q) - n)) by lia. rewrite seq_S. repeat f_equal. lia.
    + lia.
    + intros i p Hi. rewrite Hphase in Hi. case_bool_decide; [|by apply Hphases]. subst. injection Hi as <-. split; [lia|done].
Qed.

(** The operation at the head of the registrations is the first without a key. *)
Lemma registration_head q i rest :
  queue_ok q → q_registration q = i :: rest →
  phase_of q i = Some Registering ∧ rest = seq (S i) (length (q_ops q) - S i) ∧
  (∀ j p, phase_of q j = Some p → p ≠ Registering ↔ (j < i)%nat).
Proof.
  intros [_ _ _ (n & Hreg & Hn & Hphases)] E. rewrite E in Hreg.
  destruct (length (q_ops q) - n)%nat as [|m] eqn:Em; [done|]. cbn in Hreg. injection Hreg as -> ->.
  destruct (lookup_lt_is_Some_2 (q_ops q) n) as [o Ho]; [lia|].
  assert (phase_of q n = Some (op_phase o)) as Hp by (unfold phase_of; by rewrite Ho).
  split_and!.
  - rewrite Hp. f_equal. by apply (Hphases n).
  - f_equal. lia.
  - intros j p Hj. specialize (Hphases j p Hj). split.
    + intros Hne. destruct (decide (j < n)%nat); [done|]. destruct Hne. apply Hphases. lia.
    + intros Hlt ->. destruct Hphases as [H _]. specialize (H eq_refl). lia.
Qed.

(** Taking the head of the registrations out of them. *)
Lemma registering_next q i p qs fs :
  queue_ok q → q_registration q = i :: seq (S i) (length (q_ops q) - S i) → p ≠ Registering →
  registering (mkQueue (set_phase q i p) (seq (S i) (length (q_ops q) - S i)) qs fs).
Proof.
  intros Hok Er Hp. destruct (registration_head q i _ Hok Er) as (Hi & _ & Hlt). pose proof (phase_of_lt _ _ _ Hi).
  exists (S i). cbn [q_registration q_ops]. rewrite length_set. split_and!; [done|lia|].
  intros j x Hj. rewrite phase_set, Hi in Hj. case_bool_decide; [subst; injection Hj as <-; split; [done|lia]|].
  specialize (Hlt j x Hj). split.
  - intros ->. destruct (decide (j < i)%nat) as [Hd|]; [by apply Hlt in Hd|lia].
  - intros Hle. destruct x; try done; destruct Hlt as [Hl _]; specialize (Hl ltac:(done)); lia.
Qed.

Lemma register_ok q abs canon q' : queue_ok q → step q (Register abs canon) = Some q' → queue_ok q'.
Proof.
  intros Hok H. cbn [step] in H. destruct (q_registration q) as [|i rest] eqn:Er; [done|].
  destruct (registration_head q i rest Hok Er) as (Hi & -> & Hlt).
  pose proof (λ p qs fs, registering_next q i p qs fs Hok Er) as Hreg. set (rest := seq (S i) _) in *.
  assert (∀ p qs fs j, phase_of (mkQueue (set_phase q i p) rest qs fs) j = if bool_decide (i = j) then Some p else phase_of q j) as Hphase.
  { intros p qs fs j. by rewrite phase_set, Hi. }
  destruct (getMutationQueueKey abs canon) as [key|e]; injection H as <-.
  2:{ apply (unkeyed_ok q); [done| |done|by apply Hreg]. intros j p k Hpk. rewrite Hphase.
      case_bool_decide; [subst|done]. rewrite Hi. split; by intros [= <-]. }
  destruct Hok as [Ho Hw Hq _].
  assert (∀ j k, keyed q j k → (j < i)%nat) as Hbefore.
  { intros j k (p & Hp & Hpk). apply (Hlt j p Hp). by destruct p. }
  pose proof (Hphase (Waiting key (map_get (q_queues q) key)) (map_set (q_queues q) key i) (q_files q)) as Hp.
  pose proof (Hreg (Waiting key (map_get (q_queues q) key)) (map_set (q_queues q) key i) (q_files q) ltac:(done)) as Hr.
  clear Hphase Hreg. set (q' := mkQueue _ _ _ _) in *.
  assert (∀ j k, keyed q' j k ↔ keyed q j k ∨ j = i ∧ k = key) as Hk.
  { intros j k. unfold keyed. rewrite Hp. case_bool_decide; [subst|naive_solver]. rewrite Hi.
    split; [intros (p & [= <-] & [= ->]); by right|]. intros [(p & [= <-] & ?)|[_ ->]]; [done|]. by eexists. }
  assert (∀ j, is_finished q' j ↔ is_finished q j) as Hf.
  { intros j. unfold is_finished. rewrite Hp. case_bool_decide; [subst|done]. rewrite Hi. naive_solver. }
  split; [| | |done].
  - intros j1 j2 k p Hj Hj1 Hj2 Hpk Hnw. rewrite Hf. rewrite Hp in Hj2.
    case_bool_decide; [subst; by injection Hj2 as <-|]. rewrite Hk in Hj1. destruct Hj1 as [Hj1|[-> ->]]; [by eapply Ho|].
    assert (keyed q j2 key) as Hk2 by by exists p. apply Hbefore in Hk2. lia.
  - intros j k cur Hj. rewrite Hp in Hj. case_bool_decide as E.
    + subst j. injection Hj as <- <-. specialize (Hq key). destruct (map_get (q_queues q) key) as [c|].
      * destruct Hq as (Hc & _ & Hmax). rewrite Hk. split_and!; [by eapply Hbefore|by left|].
        intros x Hx. rewrite Hk. intros [?|[-> _]]; [auto|lia].
      * intros x Hx. rewrite Hk, Hf. intros [?|[-> _]]; [auto|lia].
    + assert (j < i)%nat as Hji by (eapply Hbefore; by eexists). specialize (Hw j k cur Hj). destruct cur as [c|].
      * destruct Hw as (? & ? & Hmax). rewrite Hk. split_and!; [done|by left|]. intros x Hx. rewrite Hk. intros [?|[-> _]]; [auto|lia].
      * intros x Hx. rewrite Hk, Hf. intros [?|[-> _]]; [auto|lia].
  - intros k. change (q_queues q') with (map_set (q_queues q) key i). rewrite map_get_set. case_bool_decide as E.
    + subst k. cbn. rewrite Hk, Hf. split_and!; [by right| |].
      * intros [k' Hx]. rewrite Hi in Hx. done.
      * intros j. rewrite Hk. intros [Hj%Hbefore|[-> _]]; lia.
    + specialize (Hq k). destruct (map_get (q_queues q) k) as [c|]; cbn in *.
      * destruct Hq as (Hc & Hnf & Hmax). rewrite Hk, Hf. split_and!; [by left|done|]. intros j. rewrite Hk. intros [?|[-> ->]]; [auto|done].
      * intros j. rewrite Hk, Hf. intros [?|[-> ->]]; [auto|done].
Qed.

(** ** Steps of an operation *)

(** What a step of operation [i], from [p] to [p'] under [k], does to the files. *)
Inductive acts (q : Queue) (i : nat) (k : path) : Phase → Phase → gmap path jsstr → Prop :=
| acts_start cur : resolved q cur = true → acts q i k (Waiting k cur) (Running k) (q_files q)
| acts_read : acts q i k (Running k) (HasRead k (q_files q !! k)) (q_files q)
| acts_write change c :
    op_change <$> q_ops q !! i = Some change →
    acts q i k (HasRead k c) (Ended k) (match change c with Some t => <[k := t]> (q_files q) | None => q_files q end)
| acts_fail c t : acts q i k (HasRead k c) (Ended k) (partial_alter (λ _, t) k (q_files q))
| acts_throw p : p = Running k ∨ (∃ c, p = HasRead k c) → acts q i k p (Ended k) (q_files q)
| acts_finish : acts q i k (Ended k) (Finished k) (q_files q).

Lemma change_set q i p rest qs fs j :
  op_change <$> q_ops (mkQueue (set_phase q i p) rest qs fs) !! j = op_change <$> q_ops q !! j.
Proof. unfold set_phase. cbn. rewrite list_lookup_alter. case_decide; [subst|done]. by destruct (q_ops q !! j). Qed.

(** The events with which [fn] of an operation ends: a write, a failed write that leaves
    some content, or an error before any write. *)
Definition ending (e : Event) : option nat :=
  match e with Write i | WriteFails i _ | Throw i => Some i | _ => None end.

(** A step is a call, a registration or a step of one operation. *)
Lemma step_cases q e q' :
  step q e = Some q' →
  (∃ change, e = Call change) ∨ (∃ abs canon, e = Register abs canon) ∨
  ∃ i k p p', phase_of q i = Some p ∧ acts q i k p p' (q_files q') ∧
    q_ops q' = set_phase q i p' ∧ q_registration q' = q_registration q ∧
    (q_queues q' = if finished p' && bool_decide (map_get (q_queues q) k = Some i) then map_delete (q_queues q) k else q_queues q) ∧
    (p' = Ended k → ending e = Some i).
Proof.
  intros H. destruct e as [change|abs canon|i|i|i|i t|i|i]; [left; by eexists|right; left; by eexists _, _|..]; right; right; cbn [step] in H.
  - destruct (phase_of q i) as [[]|] eqn:Ep; try done. destruct (resolved q currentQueue) eqn:Er; [|done]. injection H as <-.
    eexists i, key, _, _. split_and!; [done|cbn [q_files]; by apply acts_start|done..].
  - destruct (phase_of q i) as [[]|] eqn:Ep; try done. injection H as <-.
    eexists i, key, _, _. split_and!; [done|cbn [q_files]; apply acts_read|done..].
  - destruct (q_ops q !! i) as [[change []]|] eqn:Eo; try done. injection H as <-.
    eexists i, key, _, _. split_and!; [by unfold phase_of; rewrite Eo|cbn [q_files]; apply acts_write; by rewrite Eo|done..].
  - destruct (phase_of q i) as [[]|] eqn:Ep; try done. injection H as <-.
    eexists i, key, _, _. split_and!; [done|cbn [q_files]; apply acts_fail|done..].
  - destruct (phase_of q i) as [[]|] eqn:Ep; try done; injection H as <-;
      eexists i, key, _, _; (split_and!; [done|cbn [q_files]; apply acts_throw; by eauto|done..]).
  - destruct (phase_of q i) as [[]|] eqn:Ep; try done. injection H as <-.
    eexists i, key, _, _. split_and!; [done|cbn [q_files]; apply acts_finish|done..].
Qed.

Lemma acts_keys q i k p p' fs :
  acts q i k p p' fs → key_of p = Some k ∧ key_of p' = Some k ∧ finished p = false ∧ waiting p' = false.
Proof. destruct 1 as [| | | |p [->|[c ->]]|]; done. Qed.

Lemma acts_moves q q' i k p p' :
  phase_of q i = Some p → acts q i k p p' (q_files q') → q_ops q' = set_phase q i p' → q_registration q' = q_registration q →
  moves q q' i p p'.
Proof.
  intros Hp Ha Hops Hreg. destruct (acts_keys _ _ _ _ _ _ Ha) as (? & ? & ? & ?). split_and!; [done| |by rewrite Hops; apply length_set|done|].
  - intros j. destruct q' as [ops rest qs fs]. cbn in Hops. subst ops. by rewrite phase_set, Hp.
  - by exists k.
Qed.

(** An operation that may start comes after all those before it. *)
Lemma resolved_before q i k cur j :
  queue_ok q → phase_of q i = Some (Waiting k cur) → resolved q cur = true → (j < i)%nat → keyed q j k → is_finished q j.
Proof.
  intros Hok Hi Hres Hj Hkj. pose proof (ok_waiting _ Hok _ _ _ Hi) as Hw. destruct cur as [c|]; [|by apply Hw].
  destruct Hw as (Hc & (pc & Hpc & Hpck) & Hmax). specialize (Hmax j Hj Hkj). cbn in Hres. rewrite Hpc in Hres.
  destruct pc; try done. destruct (decide (j = c)) as [-> |]; [by eexists|].
  eapply (ok_order _ Hok j c k); [lia|done|done|done|done].
Qed.

Lemma queue_step_ok q e q' : queue_ok q → step q e = Some q' → queue_ok q'.
Proof.
  intros Hok H. destruct (step_cases q e q' H) as [[change ->]|[(abs & canon & ->)|(i & k & p & p' & Hp & Ha & Hops & Hreg & Hqs & _)]];
    [by eapply call_ok|by eapply register_ok|].
  pose proof (acts_moves _ _ _ _ _ _ Hp Ha Hops Hreg) as Hm. destruct (acts_keys _ _ _ _ _ _ Ha) as (Hk & _ & _ & _).
  apply (moves_ok q q' i p p' Hok Hm).
  - intros Hw j k' Hk' Hj Hkj. destruct Ha as [cur Hres| | | |? [->|[? ->]]|]; try done. injection Hk' as <-.
    by eapply resolved_before.
  - destruct (finished p'); [|done]. intros k' Hk'. assert (k' = k) as -> by congruence. done.
Qed.

Lemma queue_start_ok fs : queue_ok (queue_start fs).
Proof. split; [done|done|by intros k i (p & ? & _)|by exists 0%nat]. Qed.

Lemma reachable_ok fs q : reachable fs q → queue_ok q.
Proof. induction 1; [apply queue_start_ok|by eapply queue_step_ok]. Qed.

(** One at a time. *)
Lemma active_unique q i j k p p' :
  queue_ok q → phase_of q i = Some p → phase_of q j = Some p' → key_of p = Some k → key_of p' = Some k →
  active p = true → active p' = true → i = j.
Proof.
  intros Hok Hi Hj Hk Hk' Ha Ha'. assert (∀ x y px py, phase_of q x = Some px → phase_of q y = Some py → key_of px = Some k →
    key_of py = Some k → active px = true → active py = true → ¬ (x < y)%nat) as H.
  { intros x y px py Hx Hy Hkx Hky Hax Hay Hlt. destruct (ok_order _ Hok x y k py) as [k' Hf]; [done|by exists px|done|done|by destruct py|].
    rewrite Hx in Hf. by injection Hf as ->. }
  pose proof (H i j p p' Hi Hj Hk Hk' Ha Ha'). pose proof (H j i p' p Hj Hi Hk' Hk Ha' Ha). lia.
Qed.

(** ** What happens to a file *)

(** Event [e] ends an operation that is registered under [k]. *)
Definition ends_under (q : Queue) (k : path) (e : Event) : bool :=
  match ending e with Some i => bool_decide (phase_of q i ≫= key_of = Some k) | None => false end.

(** The ends under [k] in a run from [q]. *)
Fixpoint endings (q : Queue) (k : path) (es : list Event) : list Event :=
  match es with
  | [] => []
  | e :: es => (if ends_under q k e then [e] else []) ++ match step q e with Some q' => endings q' k es | None => [] end
  end.

(** What an end makes of the content [c]: a write stores what the operation's change
    gives for [c], if anything; a failed write leaves what it left; an error nothing. *)
Definition outcome (q : Queue) (c : option jsstr) (e : Event) : option jsstr :=
  match e with
  | Write i => match op_change <$> q_ops q !! i with Some f => match f c with Some t => Some t | None => c end | None => c end
  | WriteFails _ left_ => left_
  | _ => c
  end.

(** Operation [i] has made its change to [k], if any. *)
Definition changed (q : Queue) (i : nat) (k : path) : Prop :=
  phase_of q i = Some (Ended k) ∨ phase_of q i = Some (Finished k).

Definition known (q : Queue) (e : Event) : Prop := ∃ i f, ending e = Some i ∧ op_change <$> q_ops q !! i = Some f.

(** The file [k], which held [before], went through the ends [h]. *)
Record history (q : Queue) (k : path) (before : option jsstr) (h : list Event) : Prop := {
  hi_content : q_files q !! k = foldl (outcome q) before h;
  hi_order : StronglySorted lt (omap ending h);
  hi_ops i : i ∈ omap ending h ↔ changed q i k;
  hi_known : Forall (known q) h;
  hi_read i c : phase_of q i = Some (HasRead k c) → c = q_files q !! k;
}.

Lemma sorted_snoc (l : list nat) i : StronglySorted lt l → Forall (λ j, (j < i)%nat) l → StronglySorted lt (l ++ [i]).
Proof.
  induction 1 as [|x l Hs IH Hx]; intros Hi; cbn; [by repeat constructor|]. apply Forall_cons in Hi as [? Hi].
  constructor; [auto|]. apply Forall_app; split; [done|by constructor].
Qed.

(** Operations keep their changes, so what the ends made of the file stays the same. *)
Lemma outcome_kept q q' before h :
  Forall (known q) h → (∀ i f, op_change <$> q_ops q !! i = Some f → op_change <$> q_ops q' !! i = Some f) →
  foldl (outcome q') before h = foldl (outcome q) before h.
Proof.
  intros Hk Hc. revert before. induction Hk as [|e h (i & f & He & Hf) _ IH]; intros before; [done|]. cbn. rewrite IH. f_equal.
  destruct e; try done. cbn in He. injection He as ->. unfold outcome. by rewrite Hf, (Hc _ _ Hf).
Qed.

Lemma known_kept q q' h :
  Forall (known q) h → (∀ i f, op_change <$> q_ops q !! i = Some f → op_change <$> q_ops q' !! i = Some f) → Forall (known q') h.
Proof. intros Hk Hc. eapply Forall_impl; [done|]. intros e (i & f & He & Hf). exists i, f. auto. Qed.

(** Steps that leave the file alone. *)
Lemma history_same q q' k before h :
  history q k before h → q_files q' !! k = q_files q !! k →
  (∀ i, changed q' i k ↔ changed q i k) → (∀ i c, phase_of q' i = Some (HasRead k c) → c = q_files q !! k) →
  (∀ i f, op_change <$> q_ops q !! i = Some f → op_change <$> q_ops q' !! i = Some f) → history q' k before h.
Proof.
  intros [H1 H2 H3 H4 _] Hf Hp Hr Hc. split; [by rewrite Hf, (outcome_kept q)|done| |by eapply known_kept|].
  - intros i. by rewrite H3, Hp.
  - intros i c Hi. rewrite Hf. by eapply Hr.
Qed.

(** The operation that ends makes the next change. *)
Lemma history_end q q' i k p before h e :
  queue_ok q → moves q q' i p (Ended k) → key_of p = Some k → active p = true → p ≠ Ended k → ending e = Some i → history q k before h →
  q_files q' !! k = outcome q' (q_files q !! k) e → known q' e →
  (∀ i f, op_change <$> q_ops q !! i = Some f → op_change <$> q_ops q' !! i = Some f) → history q' k before (h ++ [e]).
Proof.
  intros Hok Hm Hk Hact Hne He [H1 H2 H3 H4 H5] Ha Hc Hch. destruct Hm as (Hp & Hphase & _).
  assert (∀ j p', phase_of q j = Some p' → key_of p' = Some k → active p' = true → j = i) as Hun.
  { intros j p' Hj Hk' Ha'. by eapply (active_unique q j i k p' p). }
  assert (omap ending (h ++ [e]) = omap ending h ++ [i]) as Eh by (rewrite omap_app; cbn; by rewrite He).
  split.
  - rewrite foldl_snoc, Ha. by rewrite (outcome_kept q q'), H1.
  - rewrite Eh. apply sorted_snoc; [done|]. apply Forall_forall. intros j Hj. apply H3 in Hj.
    destruct (decide (j < i)%nat) as [|Hge]; [done|]. exfalso. destruct Hj as [Hj|Hj].
    + pose proof (Hun _ _ Hj eq_refl eq_refl) as ->. congruence.
    + destruct (decide (j = i)) as [-> |Hx]; [rewrite Hp in Hj; by injection Hj as ->|].
      destruct (ok_order _ Hok i j k (Finished k)) as [k' Hf]; [lia|by exists p|done|done|done|].
      rewrite Hp in Hf. by injection Hf as ->.
  - intros j. rewrite Eh, elem_of_app, H3, list_elem_of_singleton. unfold changed. rewrite Hphase.
    case_bool_decide; [subst; naive_solver|]. naive_solver.
  - apply Forall_app; split; [by eapply known_kept|by constructor].
  - intros j x Hj. rewrite Hphase in Hj. case_bool_decide as E; [done|]. exfalso. apply E. symmetry. by eapply Hun.
Qed.

Lemma step_changes q e q' i f : step q e = Some q' → op_change <$> q_ops q !! i = Some f → op_change <$> q_ops q' !! i = Some f.
Proof.
  intros H Hf. destruct (step_cases q e q' H) as [[change ->]|[(abs & canon & ->)|(j & k & p & p' & _ & _ & Hops & _)]].
  - injection H as <-. apply fmap_Some in Hf as (o & Ho & ->). cbn. by rewrite (lookup_app_l_Some _ _ _ _ Ho).
  - cbn [step] in H. destruct (q_registration q); [done|]. destruct (getMutationQueueKey abs canon); injection H as <-; by rewrite change_set.
  - destruct q' as [ops rest qs fs]. cbn in Hops. subst ops. by rewrite change_set.
Qed.

Lemma unkeyed_history q q' k before h e :
  history q k before h → step q e = Some q' → q_files q' = q_files q →
  (∀ i p, waiting p = false → key_of p = Some k → phase_of q' i = Some p → phase_of q i = Some p) →
  (∀ i p, key_of p = Some k → phase_of q i = Some p → phase_of q' i = Some p) → history q' k before h.
Proof.
  intros Hh Hs Hf H1 H2. apply (history_same q); [done|by rewrite Hf| | |].
  - intros i. unfold changed. split; intros [Hx|Hx]; [left; by apply H1|right; by apply H1|left; by apply H2|right; by apply H2].
  - intros i c Hi. by eapply (hi_read _ _ _ _ Hh i), H1.
  - intros i f. by apply step_changes with e.
Qed.

Lemma run_events_None es : foldl (λ q e, match q with Some q => step q e | None => None end) None es = None.
Proof. by induction es. Qed.

(** Steps that end nothing under [k]. *)
Lemma other_history q e q' k before h :
  queue_ok q → history q k before h → step q e = Some q' → ends_under q k e = false → history q' k before h.
Proof.
  intros Hok Hh H Hend. destruct (step_cases q e q' H) as [[change ->]|[(abs & canon & ->)|(i & k' & p & p' & Hp & Ha & Hops & Hreg & _ & Hlast)]].
  - pose proof H as Hs. injection H as <-. eapply unkeyed_history; [done|exact Hs|done|..]; intros i p.
    + rewrite phase_of_call. case_bool_decide; [|done]. intros _ ? [= <-]. done.
    + rewrite phase_of_call. case_bool_decide; [|done]. subst. intros _ Hx%phase_of_lt. lia.
  - pose proof H as Hs. cbn [step] in H. destruct (q_registration q) as [|i rest] eqn:Er; [done|].
    destruct (registration_head q i rest Hok Er) as (Hi & _ & _).
    assert (∀ p' qs, (∀ p, p' = p → waiting p = false → key_of p = None) →
      step q (Register abs canon) = Some (mkQueue (set_phase q i p') rest qs (q_files q)) →
      history (mkQueue (set_phase q i p') rest qs (q_files q)) k before h) as Hkey.
    { intros p' qs Hp' Hs'. eapply unkeyed_history; [done|exact Hs'|done|..]; intros j p; rewrite phase_set, Hi; case_bool_decide; [subst|done|subst|done].
      - intros Hw Hk [= ->]. rewrite (Hp' p) in Hk; done.
      - rewrite Hi. by intros Hk [= <-]. }
    destruct (getMutationQueueKey abs canon) as [key|]; injection H as <-; apply Hkey; try done; by intros p <-.
  - pose proof (acts_moves _ _ _ _ _ _ Hp Ha Hops Hreg) as Hm. pose proof (λ i f, step_changes q e q' i f H) as Hch.
    pose proof Hm as (_ & Hphase & _). destruct (acts_keys _ _ _ _ _ _ Ha) as (Hk & Hk' & _ & _). destruct (decide (k = k')) as [-> |Hne].
    + assert (p' ≠ Ended k') as Hne'.
      { intros E. unfold ends_under in Hend. rewrite (Hlast E), Hp in Hend. cbn in Hend. by rewrite bool_decide_true in Hend. }
      assert (q_files q' = q_files q) as Hf by (by destruct Ha).
      apply (history_same q); [done|by rewrite Hf| | |done]; intros j.
      * unfold changed. rewrite Hphase. case_bool_decide; [subst|done]. rewrite Hp. remember (q_files q') as fs' eqn:Efs. destruct Ha; naive_solver.
      * intros x. rewrite Hphase. case_bool_decide; [|apply Hh]. remember (q_files q') as fs' eqn:Efs. destruct Ha; naive_solver.
    + apply (history_same q); [done| | | |done].
      * remember (q_files q') as fs' eqn:Efs. destruct Ha; try done; [destruct (change c); [by rewrite lookup_insert_ne|done]|].
        by rewrite lookup_partial_alter_ne.
      * intros j. unfold changed. rewrite Hphase. case_bool_decide; [subst|done]. rewrite Hp.
        split; intros [E|E]; injection E as ->; cbn in Hk, Hk'; congruence.
      * intros j x. rewrite Hphase. case_bool_decide; [|apply Hh]. intros [= ->]. cbn in Hk'. congruence.
Qed.

Lemma step_history q e q' k before h :
  queue_ok q → history q k before h → step q e = Some q' → history q' k before (h ++ if ends_under q k e then [e] else []).
Proof.
  intros Hok Hh H. pose proof (λ i f, step_changes q e q' i f H) as Hch.
  destruct (ends_under q k e) eqn:Ek.
  - unfold ends_under in Ek. destruct (ending e) as [i|] eqn:Ei; [|done]. apply bool_decide_eq_true, bind_Some in Ek as (p & Hp & Hk).
    apply fmap_Some in Hp as (o & Ho & ->). assert (Hp : phase_of q i = Some (op_phase o)) by (unfold phase_of; by rewrite Ho).
    assert (Hknown : known q' e) by (exists i, (op_change o); split; [done|apply Hch; by rewrite Ho]).
    assert (Hend : ∀ qs fs, q' = mkQueue (set_phase q i (Ended k)) (q_registration q) qs fs → active (op_phase o) = true → op_phase o ≠ Ended k →
      q_files q' !! k = outcome q' (q_files q !! k) e → history q' k before (h ++ [e])).
    { intros qs fs -> Ha Hne Hf. eapply (history_end q _ i k (op_phase o)); try done. split_and!; [done| |apply length_set|done|].
      - intros j. rewrite phase_set, Hp. by case_bool_decide.
      - exists k. split_and!; [done|done|by destruct (op_phase o)|done]. }
    destruct o as [change ph]. cbn in Hk, Hp, Hend. destruct e as [| | | |i'|i' l|i'|]; try done; cbn in Ei; injection Ei as ->; cbn [step] in H.
    + rewrite Ho in H. destruct ph as [| | | |k1 c| |]; try done. cbn in Hk. injection Hk as ->. injection H as <-.
      eapply Hend; try done. unfold outcome. rewrite (Hch i change) by (by rewrite Ho). cbn. pose proof (hi_read _ _ _ _ Hh i c Hp) as ->.
      destruct (change (q_files q !! k)); [by rewrite lookup_insert_eq|done].
    + rewrite Hp in H. destruct ph as [| | | |k1 c| |]; try done. cbn in Hk. injection Hk as ->. injection H as <-.
      eapply Hend; try done. cbn. by rewrite lookup_partial_alter_eq.
    + rewrite Hp in H. destruct ph as [| | |k1|k1 c| |]; try done; cbn in Hk; injection Hk as ->; injection H as <-; by eapply Hend.
  - rewrite app_nil_r. by eapply (other_history q e q').
Qed.

(** The content of every file after a run. *)
Lemma run_history q es q' k before h :
  queue_ok q → history q k before h → run_events q es = Some q' → history q' k before (h ++ endings q k es).
Proof.
  revert q h. induction es as [|e es IH]; intros q h Hok Hh H; cbn in *; [injection H as <-; by rewrite app_nil_r|].
  destruct (step q e) as [q1|] eqn:Es; [|by rewrite run_events_None in H]. rewrite app_assoc.
  apply (IH q1); [by eapply queue_step_ok|by apply step_history|done].
Qed.

Lemma start_history fs k : history (queue_start fs) k (fs !! k) [].
Proof. split; [done|constructor|intros i; split; [by intros ?%elem_of_nil|by intros [?|?]]|done|done]. Qed.

(** ** Every call ends *)

(** The steps an operation has left. *)
Definition remaining (p : Phase) : nat :=
  match p with
  | Registering => 5
  | Waiting _ _ => 4
  | Running _ => 3
  | HasRead _ _ => 2
  | Ended _ => 1
  | RegistrationFailed | Finished _ => 0
  end.

Definition pending (q : Queue) : nat := sum_list_with (λ o, remaining (op_phase o)) (q_ops q).

Definition is_call (e : Event) : bool := match e with Call _ => true | _ => false end.

(** Every promise [withFileMutationQueue] returned has settled. *)
Definition settled (q : Queue) : Prop := ∀ i p, phase_of q i = Some p → remaining p = 0%nat.

Lemma sum_alter {A} (f : A → nat) (g : A → A) l i x :
  l !! i = Some x → (sum_list_with f (alter g i l) + f x = sum_list_with f l + f (g x))%nat.
Proof.
  revert i. induction l as [|y l IH]; intros [|i]; cbn; [done..| |].
  - intros [= ->]. lia.
  - intros H. specialize (IH i H). lia.
Qed.

Lemma pending_set q i p p' rest qs fs :
  phase_of q i = Some p → (pending (mkQueue (set_phase q i p') rest qs fs) + remaining p = pending q + remaining p')%nat.
Proof.
  intros H. apply fmap_Some in H as (o & Ho & ->). unfold pending, set_phase. cbn.
  exact (sum_alter (λ o, remaining (op_phase o)) (λ o, mkOperation (op_change o) p') _ _ _ Ho).
Qed.

Lemma step_pending q e q' : queue_ok q → step q e = Some q' → is_call e = false → (pending q' < pending q)%nat.
Proof.
  intros Hok H Hc. assert (∀ i p p' rest qs fs, phase_of q i = Some p → (remaining p' < remaining p)%nat →
    q' = mkQueue (set_phase q i p') rest qs fs → (pending q' < pending q)%nat) as Hlt.
  { intros i p p' rest qs fs Hp Hr ->. pose proof (pending_set q i p p' rest qs fs Hp). lia. }
  destruct e as [| abs canon|i|i|i|i l|i|i]; [done|..]; cbn [step] in H.
  - destruct (q_registration q) as [|i rest] eqn:Er; [done|]. destruct (registration_head q i rest Hok Er) as (Hi & _).
    destruct (getMutationQueueKey abs canon); injection H as <-; (eapply Hlt; [exact Hi| |reflexivity]); cbn; lia.
  - destruct (phase_of q i) as [[]|] eqn:Ep; try done. destruct (resolved _ _); [|done].
    injection H as <-. eapply Hlt; [exact Ep| |reflexivity]; cbn; lia.
  - destruct (phase_of q i) as [[]|] eqn:Ep; try done. injection H as <-. eapply Hlt; [exact Ep| |reflexivity]; cbn; lia.
  - destruct (q_ops q !! i) as [[f []]|] eqn:Ep; try done. injection H as <-.
    eapply (Hlt i); [unfold phase_of; by rewrite Ep| |reflexivity]; cbn; lia.
  - destruct (phase_of q i) as [[]|] eqn:Ep; try done. injection H as <-. eapply Hlt; [exact Ep| |reflexivity]; cbn; lia.
  - destruct (phase_of q i) as [[]|] eqn:Ep; try done; injection H as <-; (eapply Hlt; [exact Ep| |reflexivity]); cbn; lia.
  - destruct (phase_of q i) as [[]|] eqn:Ep; try done. injection H as <-. eapply Hlt; [exact Ep| |reflexivity]; cbn; lia.
Qed.

(** The first call that has not settled can go on. *)
Lemma first_goes_on q i p :
  queue_ok q → phase_of q i = Some p → remaining p ≠ 0%nat →
  (∀ j p', (j < i)%nat → phase_of q j = Some p' → remaining p' = 0%nat) → ∃ e q', is_call e = false ∧ step q e = Some q'.
Proof.
  intros Hok Hp Hr Hbefore. destruct p as [| |k cur|k|k c|k|k]; try done.
  - destruct (ok_registration _ Hok) as (n & Hreg & Hn & Hphases). pose proof (proj1 (Hphases i _ Hp) eq_refl) as Hni.
    pose proof (phase_of_lt _ _ _ Hp) as Hlt. exists (Register (Err fe_unknown) (Err fe_unknown)). cbn [step].
    rewrite Hreg. destruct (length (q_ops q) - n)%nat eqn:E; [lia|]. cbn. eauto.
  - exists (Start i). cbn [step]. rewrite Hp. assert (resolved q cur = true) as ->; [|eauto].
    destruct cur as [c|]; [|done]. destruct (ok_waiting _ Hok i k (Some c) Hp) as (Hc & (x & Hx & Hkx) & _).
    cbn. rewrite Hx. pose proof (Hbefore c x Hc Hx). by destruct x.
  - exists (Read i). cbn [step]. rewrite Hp. eauto.
  - exists (Throw i). cbn [step]. rewrite Hp. eauto.
  - exists (Finish i). cbn [step]. rewrite Hp. eauto.
Qed.

Lemma goes_on q : queue_ok q → settled q ∨ ∃ e q', is_call e = false ∧ step q e = Some q'.
Proof.
  intros Hok. assert (∀ n, (∀ j p', (j < n)%nat → phase_of q j = Some p' → remaining p' = 0%nat) ∨
    ∃ e q', is_call e = false ∧ step q e = Some q') as H.
  { induction n as [|n [IH|IH]]; [left; intros; lia| |by right]. destruct (phase_of q n) as [p|] eqn:Ep.
    - destruct (decide (remaining p = 0%nat)) as [E|E]; [|right; by eapply first_goes_on]. left. intros j p' Hj Hp'.
      destruct (decide (j = n)) as [-> |]; [congruence|]. apply (IH j); [lia|done].
    - left. intros j p' Hj Hp'. destruct (decide (j = n)) as [-> |]; [congruence|]. apply (IH j); [lia|done]. }
  destruct (H (length (q_ops q))) as [Hall|]; [left|by right]. intros i p Hp. eapply Hall; [|done]. by eapply phase_of_lt.
Qed.

(** Nothing is left behind in the table. *)
Lemma settled_queues q : queue_ok q → settled q → q_queues q = [].
Proof.
  intros Hok Hs. destruct (q_queues q) as [|[k j] l] eqn:E; [done|]. exfalso. pose proof (ok_queues _ Hok k) as Hk.
  rewrite E in Hk. unfold map_get in Hk. cbn in Hk. rewrite bool_decide_true in Hk by done. cbn in Hk.
  destruct Hk as ((p & Hp & Hkp) & Hnf & _). apply Hnf. pose proof (Hs j p Hp). destruct p; try done. by eexists.
Qed.

Lemma run_reachable fs q es q' : reachable fs q → run_events q es = Some q' → reachable fs q'.
Proof.
  unfold run_events. revert q. induction es as [|e es IH]; intros q Hr; cbn; [by intros [= <-]|].
  destruct (step q e) as [q1|] eqn:E; [by apply IH; econstructor|].
  intros H. exfalso. clear -H. by induction es.
Qed.

(** ** Properties *)

(** C35: mutations under one key are serialized: at most one runs at a time, and the
    content of a file is what the ends of the operations under its key, in the order of
    the calls, make of the content it had: a write stores the operation's change of the
    content the one before left, a failed write leaves whatever it left, an error before
    the write changes nothing.  Every operation that has ended counts once. *)
Theorem updates_serialized fs es q :
  run_events (queue_start fs) es = Some q →
  (∀ i j k p p', phase_of q i = Some p → phase_of q j = Some p' → key_of p = Some k → key_of p' = Some k →
     active p = true → active p' = true → i = j) ∧
  ∀ k, let ends := endings (queue_start fs) k es in
    q_files q !! k = foldl (outcome q) (fs !! k) ends ∧ StronglySorted lt (omap ending ends) ∧
    ∀ i, i ∈ omap ending ends ↔ phase_of q i = Some (Ended k) ∨ phase_of q i = Some (Finished k).
Proof.
  intros Hr. pose proof (run_reachable fs (queue_start fs) es q (reachable_start fs) Hr) as Hq. split.
  - intros i j k p p' H1 H2 H3 H4 H5 H6. by eapply (active_unique q i j k p p'); [eapply reachable_ok|..].
  - intros k. destruct (run_history _ es q k (fs !! k) [] (queue_start_ok fs) (start_history fs k) Hr) as [H1 H2 H3 _ _]. done.
Qed.

(** every call settles: each step other than a new call brings the calls made so
    far nearer to their end, as long as one has not settled there is such a step, and
    when all have, the table of queues is empty. *)
Theorem queue_drains fs q :
  reachable fs q →
  (∀ e q', step q e = Some q' → is_call e = false → (pending q' < pending q)%nat) ∧
  (settled q ∨ ∃ e q', is_call e = false ∧ step q e = Some q') ∧ (settled q → q_queues q = []).
Proof.
  intros Hr. pose proof (reachable_ok fs q Hr) as Hok. split_and!; [intros e q'; by apply step_pending|by apply goes_on|by apply settled_queues].
Qed.

(** two mutations of one file can run at the same time: the key of a file that
    does not exist is its absolute path, and once the first mutation has created it,
    the key is the canonical path, which differs when a directory of the path is a
    symbolic link. *)
Theorem created_file_unserialized absolute canonical fs f g :
  absolute ≠ canonical →
  ∃ q, run_events (queue_start fs)
         [Call f; Register (Ok absolute) (Err fe_not_found); Start 0; Read 0; Call g; Register (Ok absolute) (Ok canonical); Start 1; Read 1] = Some q ∧
    active <$> phase_of q 0 = Some true ∧ active <$> phase_of q 1 = Some true.
Proof.
  intros Hne. eexists. unfold run_events. cbn -[bool_decide]. rewrite (bool_decide_false (absolute = canonical)) by done. done.
Qed.

(** ** Instances *)

Definition appends (t : jsstr) : option jsstr → option jsstr := λ c, Some (default [] c ++ t).

(** Two calls for one file, the second made while the first runs. *)
Definition two_calls : list Event :=
  [Call (appends [1%Z]); Register (Ok [0%Z]) (Ok [0%Z]); Start 0; Call (appends [2%Z]); Register (Ok [0%Z]) (Ok [0%Z]); Read 0; Write 0; Finish 0;
   Start 1; Read 1; Write 1; Finish 1].

Lemma updates_serialized_witness :
  ∃ q, run_events (queue_start ∅) two_calls = Some q ∧
    q_files q !! [0%Z] = foldl (outcome q) None [Write 0; Write 1] ∧ q_files q !! [0%Z] = Some [1%Z; 2%Z].
Proof.
  destruct (run_events (queue_start ∅) two_calls) as [q|] eqn:E; [|vm_compute in E; discriminate E].
  destruct (updates_serialized ∅ two_calls q E) as [_ H]. destruct (H [0%Z]) as [Hc _].
  exists q. split; [reflexivity|]. split; [exact Hc|]. vm_compute in E. injection E as <-. reflexivity.
Defined.

Lemma queue_drains_witness :
  ∃ q, run_events (queue_start ∅) two_calls = Some q ∧ settled q ∧ q_queues q = [].
Proof.
  destruct (run_events (queue_start ∅) two_calls) as [q|] eqn:E; [|vm_compute in E; discriminate E].
  exists q. split; [reflexivity|].
  destruct (queue_drains ∅ q (run_reachable _ _ _ _ (reachable_start ∅) E)) as (_ & [Hs|(e & q' & Hc & Hs)] & Hq); [by split; [|apply Hq]|].
  exfalso. vm_compute in E. injection E as <-. destruct e as [|abs canon|i|i|i|i l|i|i]; try discriminate Hc; cbn in Hs; try discriminate Hs;
    destruct i as [|[|i]]; discriminate Hs.
Defined.

Lemma created_file_unserialized_witness :
  ∃ q, run_events (queue_start ∅)
         [Call (appends [1%Z]); Register (Ok [1%Z]) (Err fe_not_found); Start 0; Read 0; Call (appends [2%Z]); Register (Ok [1%Z]) (Ok [2%Z]); Start 1; Read 1]
       = Some q ∧ active <$> phase_of q 0 = Some true ∧ active <$> phase_of q 1 = Some true.
Proof. apply (created_file_unserialized [1%Z] [2%Z] ∅ (appends [1%Z]) (appends [2%Z])). discriminate. Defined.
