(* ===== verification/Image.v ===== *)
(** Recognizing images by their first bytes and sending them as text:
    [agent/src/harness/tools/image.ts]. *)
From S2P Require Import Prelude Bytes JsValue.
Open Scope Z_scope.

Module Image.

Definition PNG_SIGNATURE : list Z := [0x89; 0x50; 0x4e; 0x47; 0x0d; 0x0a; 0x1a; 0x0a].

(** [buffer[offset] ?? 0] *)
Definition byte_or_0 (buffer : list Z) (offset : nat) : Z := default 0 (buffer !! offset).

Definition readUint16LE (buffer : list Z) (offset : nat) : Z :=
  byte_or_0 buffer offset + Z.shiftl (byte_or_0 buffer (offset + 1)) 8.

Definition readUint32BE (buffer : list Z) (offset : nat) : Z :=
  byte_or_0 buffer offset * 0x1000000 + Z.shiftl (byte_or_0 buffer (offset + 1)) 16
  + Z.shiftl (byte_or_0 buffer (offset + 2)) 8 + byte_or_0 buffer (offset + 3).

Definition readUint32LE (buffer : list Z) (offset : nat) : Z :=
  byte_or_0 buffer offset + Z.shiftl (byte_or_0 buffer (offset + 1)) 8
  + Z.shiftl (byte_or_0 buffer (offset + 2)) 16 + byte_or_0 buffer (offset + 3) * 0x1000000.

(** Whether [bytes] are at [offset]. *)
Definition bytes_at (buffer : list Z) (offset : nat) (bytes : list Z) : bool :=
  if (length buffer <? offset + length bytes)%nat then false
  else forallb id (imap (λ index byte, bool_decide (buffer !! (offset + index)%nat = Some byte)) bytes).

Definition startsWith (buffer bytes : list Z) : bool := bytes_at buffer 0 bytes.

Definition startsWithAscii (buffer : list Z) (offset : nat) (text : string) : bool := bytes_at buffer offset (js_lit text).

Definition isPng (buffer : list Z) : bool :=
  (16 <=? length buffer)%nat && (readUint32BE buffer (length PNG_SIGNATURE) =? 13) && startsWithAscii buffer 12 "IHDR".

(** The chunks from [offset]; each is at least twelve bytes, so that the buffer's
    length is fuel enough. *)
Fixpoint animated_from (fuel : nat) (buffer : list Z) (offset : nat) : bool :=
  match fuel with
  | O => false
  | S fuel =>
      if (offset + 8 <=? length buffer)%nat then
        let chunkLength := readUint32BE buffer offset in
        let chunkTypeOffset := (offset + 4)%nat in
        if startsWithAscii buffer chunkTypeOffset "acTL" then true
        else if startsWithAscii buffer chunkTypeOffset "IDAT" then false
        else
          let nextOffset := Z.of_nat offset + 8 + chunkLength + 4 in
          if (nextOffset <=? Z.of_nat offset) || (Z.of_nat (length buffer) <? nextOffset) then false
          else animated_from fuel buffer (Z.to_nat nextOffset)
      else false
  end.

Definition isAnimatedPng (buffer : list Z) : bool := animated_from (length buffer) buffer (length PNG_SIGNATURE).

Definition isBmp (buffer : list Z) : bool :=
  if (length buffer <? 26)%nat then false else
  let declaredFileSize := readUint32LE buffer 2 in
  let pixelDataOffset := readUint32LE buffer 10 in
  let dibHeaderSize := readUint32LE buffer 14 in
  if negb (declaredFileSize =? 0) && (declaredFileSize <? 26) then false
  else if pixelDataOffset <? 14 + dibHeaderSize then false
  else if negb (declaredFileSize =? 0) && (declaredFileSize <=? pixelDataOffset) then false
  else
    let pixels colorPlanes bitsPerPixel :=
      (colorPlanes =? 1) && bool_decide (bitsPerPixel ∈ [1; 4; 8; 16; 24; 32]) in
    if dibHeaderSize =? 12 then pixels (readUint16LE buffer 22) (readUint16LE buffer 24)
    else if (40 <=? dibHeaderSize) && (dibHeaderSize <=? 124) then
      if (length buffer <? 30)%nat then false else pixels (readUint16LE buffer 26) (readUint16LE buffer 28)
    else false.

Inductive MimeType := jpeg | png | gif | webp | bmp.

#[export] Instance MimeType_eq_dec : EqDecision MimeType.
Proof. solve_decision. Defined.

Definition mime_text (m : MimeType) : jsstr :=
  js_lit (match m with jpeg => "image/jpeg" | png => "image/png" | gif => "image/gif" | webp => "image/webp" | bmp => "image/bmp" end).

Definition detectSupportedImageMimeType (buffer : list Z) : option MimeType :=
  if startsWith buffer [0xff; 0xd8; 0xff] then if bool_decide (buffer !! 3%nat = Some 0xf7) then None else Some jpeg
  else if startsWith buffer PNG_SIGNATURE then if isPng buffer && negb (isAnimatedPng buffer) then Some png else None
  else if startsWithAscii buffer 0 "GIF" then Some gif
  else if startsWithAscii buffer 0 "RIFF" && startsWithAscii buffer 8 "WEBP" then Some webp
  else if startsWithAscii buffer 0 "BM" && isBmp buffer then Some bmp
  else None.

(** ** Base 64 *)

Definition alphabet : jsstr := js_lit "ABCDEFGHIJKLMNOPQRSTUVWXYZabcdefghijklmnopqrstuvwxyz0123456789+/".

(** [alphabet[i]]; the index is always below 64. *)
Definition letter (i : Z) : Z := default 0 (alphabet !! Z.to_nat i).

Definition EQUALS : Z := 0x3d.

(** One turn of the loop. *)
Definition group (first : Z) (second third : option Z) : jsstr :=
  [letter (Z.shiftr first 2);
   letter (Z.lor (Z.shiftl (Z.land first 0x03) 4) (Z.shiftr (default 0 second) 4));
   match second with
   | None => EQUALS
   | Some second => letter (Z.lor (Z.shiftl (Z.land second 0x0f) 2) (Z.shiftr (default 0 third) 6))
   end;
   match third with None => EQUALS | Some third => letter (Z.land third 0x3f) end].

Fixpoint encodeBase64 (bytes : list Z) : jsstr :=
  match bytes with
  | [] => []
  | [a] => group a None None
  | [a; b] => group a (Some b) None
  | a :: b :: c :: rest => group a (Some b) (Some c) ++ encodeBase64 rest
  end.

End Image.

(** * Properties

    What the image helpers compute: base 64 can be decoded again, and a PNG file is
    animated when an [acTL] chunk comes before its image data. *)

Module ImageSpec.
Import Image.

(** ** Base 64 *)

(** The reference decoder (RFC 4648): groups of four letters, the last one padded. *)
Definition value (c : Z) : option Z := Z.of_nat <$> (fst <$> list_find (c =.) alphabet).

Fixpoint decode64 (s : jsstr) : option (list Z) :=
  match s with
  | [] => Some []
  | a :: b :: c :: d :: rest =>
      va ← value a; vb ← value b;
      let first := va * 4 + vb / 16 in
      if bool_decide (c = EQUALS) then
        if bool_decide (d = EQUALS ∧ rest = []) && (vb mod 16 =? 0) then Some [first] else None
      else
        vc ← value c;
        let second := vb mod 16 * 16 + vc / 4 in
        if bool_decide (d = EQUALS) then
          if bool_decide (rest = []) && (vc mod 4 =? 0) then Some [first; second] else None
        else
          vd ← value d; tail_ ← decode64 rest;
          Some (first :: second :: (vc mod 4 * 64 + vd) :: tail_)
  | _ => None
  end.

Lemma letter_value i : 0 ≤ i < 64 → value (letter i) = Some i ∧ letter i ≠ EQUALS.
Proof.
  intros Hi. assert (Forall (λ i, value (letter i) = Some i ∧ letter i ≠ EQUALS) (seqZ 0 64)) as H.
  { apply (bool_decide_unpack _). by vm_compute. }
  rewrite Forall_forall in H. apply H. apply elem_of_seqZ. lia.
Qed.

(** Two fields side by side. *)
Lemma lor_fields m k x y :
  forallb (λ x, forallb (λ y, Z.lor (Z.shiftl x k) y =? x * 2 ^ k + y) (seqZ 0 (2 ^ k))) (seqZ 0 m) = true →
  0 ≤ x < m → 0 ≤ y < 2 ^ k → Z.lor (Z.shiftl x k) y = x * 2 ^ k + y.
Proof.
  rewrite forallb_forall. intros H Hx Hy. specialize (H x). rewrite <- list_elem_of_In, elem_of_seqZ in H.
  specialize (H ltac:(lia)). rewrite forallb_forall in H. specialize (H y). rewrite <- list_elem_of_In, elem_of_seqZ in H.
  apply Z.eqb_eq, H. lia.
Qed.

Lemma group_value a b c :
  is_byte a → is_byte b → is_byte c →
  Z.shiftr a 2 = a / 4 ∧
  Z.lor (Z.shiftl (Z.land a 0x03) 4) (Z.shiftr b 4) = a mod 4 * 16 + b / 16 ∧
  Z.lor (Z.shiftl (Z.land b 0x0f) 2) (Z.shiftr c 6) = b mod 16 * 4 + c / 64 ∧ Z.land c 0x3f = c mod 64.
Proof.
  intros Ha Hb Hc. unfold is_byte in *. change 0x03 with (Z.ones 2). change 0x0f with (Z.ones 4). change 0x3f with (Z.ones 6).
  rewrite !Z.land_ones, !Z.shiftr_div_pow2 by lia. split_and!; [done| | |done].
  - apply (lor_fields 4 4); [by vm_compute|..]; Z.div_mod_to_equations; lia.
  - apply (lor_fields 16 2); [by vm_compute|..]; Z.div_mod_to_equations; lia.
Qed.

(** The letters of a group are those of four numbers below 64, from which the bytes
    can be computed. *)
Lemma group_letters a b c :
  is_byte a → is_byte b → is_byte c →
  ∃ i1 i2 i3 i4, (0 ≤ i1 < 64 ∧ 0 ≤ i2 < 64 ∧ 0 ≤ i3 < 64 ∧ 0 ≤ i4 < 64) ∧
    group a (Some b) (Some c) = [letter i1; letter i2; letter i3; letter i4] ∧
    i1 * 4 + i2 / 16 = a ∧ i2 mod 16 * 16 + i3 / 4 = b ∧ i3 mod 4 * 64 + i4 = c.
Proof.
  intros Ha Hb Hc. destruct (group_value a b c Ha Hb Hc) as (H1 & H2 & H3 & H4). unfold group. cbn [from_option id].
  rewrite H1, H2, H3, H4. unfold is_byte in *. do 4 eexists. split; [|split; [reflexivity|]]; Z.div_mod_to_equations; lia.
Qed.

Ltac digit i :=
  let H := fresh in destruct (letter_value i) as [H _]; [lia|]; rewrite H; clear H; cbn [mbind option_bind].

(** The short groups are full ones with zero bytes, and [=] for the letters that are
    not needed. *)
Lemma decode_short a b c :
  is_byte a → is_byte b → b = 0 →
  decode64 (group a None None) = Some [a] ∧
  (is_byte c → decode64 (group a (Some c) None) = Some [a; c]).
Proof.
  intros Ha Hb ->. assert (is_byte 0) as H0 by (unfold is_byte; lia). split.
  - destruct (group_letters a 0 0 Ha H0 H0) as (i1 & i2 & i3 & i4 & (? & ? & ? & ?) & Hg & E1 & E2 & E3).
    unfold group in *. cbn [from_option id] in *. injection Hg as -> -> _ _. cbn [decode64].
    digit i1. digit i2.
    rewrite !bool_decide_true by done. assert (i2 mod 16 = 0) as -> by (Z.div_mod_to_equations; lia). cbn. by rewrite E1.
  - intros Hc. destruct (group_letters a c 0 Ha Hc H0) as (i1 & i2 & i3 & i4 & (? & ? & ? & ?) & Hg & E1 & E2 & E3).
    unfold group in *. cbn [from_option id] in *. injection Hg as -> -> -> _. cbn [decode64].
    digit i1. digit i2. rewrite bool_decide_false by (apply letter_value; lia). digit i3. rewrite !bool_decide_true by done.
    assert (i3 mod 4 = 0) as -> by (Z.div_mod_to_equations; lia). cbn. by rewrite E1, E2.
Qed.

Lemma decode_group a b c rest bs :
  is_byte a → is_byte b → is_byte c → decode64 rest = Some bs →
  decode64 (group a (Some b) (Some c) ++ rest) = Some (a :: b :: c :: bs).
Proof.
  intros Ha Hb Hc Hr. destruct (group_letters a b c Ha Hb Hc) as (i1 & i2 & i3 & i4 & (? & ? & ? & ?) & -> & E1 & E2 & E3).
  cbn [decode64 app]. digit i1. digit i2. rewrite bool_decide_false by (apply letter_value; lia).
  digit i3. rewrite bool_decide_false by (apply letter_value; lia). digit i4. rewrite Hr. cbn. by rewrite E1, E2, E3.
Qed.

(** ** Animated PNG files *)

(** A chunk: the length of its data, its type, its data and a checksum. *)
Record Chunk := mkChunk { ch_type : list Z; ch_data : list Z; ch_crc : list Z }.

Definition chunk_ok (c : Chunk) : Prop :=
  length (ch_type c) = 4%nat ∧ length (ch_crc c) = 4%nat ∧ Z.of_nat (length (ch_data c)) < 2 ^ 32.

Definition chunk_bytes (c : Chunk) : list Z := be32 (Z.of_nat (length (ch_data c))) ++ ch_type c ++ ch_data c ++ ch_crc c.

Definition png_file (cs : list Chunk) : list Z := PNG_SIGNATURE ++ (cs ≫= chunk_bytes).

(** The animation control chunk comes before the image data. *)
Fixpoint animated (cs : list Chunk) : bool :=
  match cs with
  | [] => false
  | c :: cs =>
      if bool_decide (ch_type c = js_lit "acTL") then true
      else if bool_decide (ch_type c = js_lit "IDAT") then false else animated cs
  end.

Lemma bytes_at_app pre mid post bs :
  length mid = length bs → bytes_at (pre ++ mid ++ post) (length pre) bs = bool_decide (mid = bs).
Proof.
  intros Hl. unfold bytes_at. rewrite !length_app, Hl.
  destruct (length pre + (length bs + length post) <? length pre + length bs)%nat eqn:E; [apply Nat.ltb_lt in E; lia|]. clear E.
  rewrite (imap_ext _ (λ i b, bool_decide ((mid ++ post) !! i = Some b)) bs).
  2: { intros i b _. rewrite lookup_app_r by lia. by replace (length pre + i - length pre)%nat with i by lia. }
  revert mid Hl. induction bs as [|b bs IH]; intros [|m mid] Hl; try done. injection Hl as Hl. cbn. specialize (IH mid Hl).
  change (forallb id (imap (λ i b, bool_decide ((mid ++ post) !! i = Some b)) bs) = bool_decide (mid = bs)) in IH.
  rewrite (imap_ext _ (λ i b, bool_decide ((mid ++ post) !! i = Some b)) bs) by done. rewrite IH.
  repeat case_bool_decide; naive_solver.
Qed.

Lemma read32_at pre v post : 0 ≤ v < 2 ^ 32 → readUint32BE (pre ++ be32 v ++ post) (length pre) = v.
Proof.
  intros Hv. rewrite <- (read_be32_be32 v Hv) at 2. unfold readUint32BE, byte_or_0.
  assert (∀ i, (pre ++ be32 v ++ post) !! (length pre + i)%nat = (be32 v ++ post) !! i) as Hi.
  { intros i. rewrite lookup_app_r by lia. f_equal. lia. }
  rewrite <- (Nat.add_0_r (length pre)) at 1. rewrite !Hi. cbn [be32 lookup list_lookup app]. cbn [from_option id]. unfold read_be32. by rewrite !Z.shiftl_mul_pow2 by lia.
Qed.

Lemma length_chunk c : chunk_ok c → length (chunk_bytes c) = (12 + length (ch_data c))%nat.
Proof. intros (H1 & H2 & _). unfold chunk_bytes. rewrite !length_app, length_be32. lia. Qed.

Lemma animated_from_spec cs pre fuel :
  Forall chunk_ok cs → (length cs < fuel)%nat →
  animated_from fuel (pre ++ (cs ≫= chunk_bytes)) (length pre) = animated cs.
Proof.
  intros Hok. revert pre fuel. induction Hok as [|c cs Hc Hcs IH]; intros pre [|fuel] Hf; cbn in Hf; try lia.
  - cbn. rewrite app_nil_r. destruct (length pre + 8 <=? length pre)%nat eqn:E; [apply Nat.leb_le in E; lia|done].
  - pose proof (length_chunk c Hc) as Hlen. pose proof Hc as (H1 & H2 & H3). rewrite bind_cons. cbn [animated animated_from].
    rewrite !length_app, Hlen. destruct (length pre + 8 <=? _)%nat eqn:E; [clear E|apply Nat.leb_gt in E; lia].
    unfold startsWithAscii. assert (∀ t, length t = 4%nat →
      bytes_at (pre ++ chunk_bytes c ++ (cs ≫= chunk_bytes)) (length pre + 4) t = bool_decide (ch_type c = t)) as Ht.
    { intros t Ht. unfold chunk_bytes at 1. rewrite <- !app_assoc, (app_assoc pre).
      rewrite <- (length_be32 (Z.of_nat (length (ch_data c)))), <- length_app. apply bytes_at_app. congruence. }
    rewrite !Ht by done. case_bool_decide; [done|]. case_bool_decide; [done|].
    assert (readUint32BE (pre ++ chunk_bytes c ++ (cs ≫= chunk_bytes)) (length pre) = Z.of_nat (length (ch_data c))) as ->.
    { unfold chunk_bytes at 1. rewrite <- !app_assoc. apply read32_at. lia. }
    rewrite (proj2 (Z.leb_gt _ _)), (proj2 (Z.ltb_ge _ _)) by lia. cbn [orb]. rewrite app_assoc.
    rewrite <- (IH (pre ++ chunk_bytes c) fuel) by lia. f_equal. rewrite length_app, Hlen. lia.
Qed.

Lemma chunks_length cs : Forall chunk_ok cs → (length cs ≤ length (cs ≫= chunk_bytes))%nat.
Proof.
  induction 1 as [|c cs Hc _ IH]; [done|]. rewrite bind_cons, length_app, (length_chunk c Hc). cbn. lia.
Qed.

(** the base 64 text of any bytes is decoded by the standard to those bytes. *)
Theorem base64_roundtrip bytes : bytes_ok bytes → decode64 (encodeBase64 bytes) = Some bytes.
Proof.
  remember (length bytes) as n eqn:Hn. revert bytes Hn. induction (lt_wf n) as [n _ IH]. intros bytes -> Hb.
  destruct bytes as [|a [|b [|c rest]]]; [done|..]; repeat (apply Forall_cons in Hb as [? Hb]); cbn [encodeBase64].
  - by apply (decode_short a 0 0).
  - by apply (decode_short a 0 b).
  - apply decode_group; try done. by eapply IH; [|reflexivity|]; [cbn; lia|].
Qed.

Lemma base64_roundtrip_witness : decode64 (encodeBase64 [0x89; 0x50; 0x4e; 0x47]) = Some [0x89; 0x50; 0x4e; 0x47].
Proof. apply base64_roundtrip. repeat constructor; unfold is_byte; lia. Defined.

(** a file of PNG chunks is told to be animated exactly when an [acTL] chunk comes
    before the first [IDAT] chunk. *)
Theorem png_animated cs : Forall chunk_ok cs → isAnimatedPng (png_file cs) = animated cs.
Proof.
  intros Hok. unfold isAnimatedPng, png_file. apply animated_from_spec; [done|].
  rewrite length_app. pose proof (chunks_length cs Hok). cbn [PNG_SIGNATURE length]. lia.
Qed.

Lemma png_animated_witness :
  isAnimatedPng (png_file [mkChunk (js_lit "IHDR") [0] [0; 0; 0; 0]; mkChunk (js_lit "acTL") [] [0; 0; 0; 0]]) = true.
Proof. rewrite png_animated; [reflexivity|]. repeat constructor. Defined.

End ImageSpec.
