(* ===== verification/Tools.v ===== *)
(** The tools that read and change files: [agent/src/harness/tools/edit.ts],
    [write.ts], [read.ts] and [path-utils.ts].

    A tool's [execute] is a computation on the environment's state that returns a
    result or throws; what it throws is data, from which its message is written.
    [aborted n] is what the [n]th look at [signal?.aborted] finds.  Parameters: the
    Unicode normal forms, the functions of the diff package, and the image processor
    a caller may configure.  [offset] and [limit] are integers. *)
From S2P Require Import Prelude Bytes JsValue Json Utf8 Regex NodePath FileSystem Truncate ShellOutput EditDiff FileQueue Image.
Open Scope Z_scope.

Inductive ToolError :=
| InvalidEdits                               (* edits must contain at least one replacement *)
| OperationAborted
| EditAccessError (code : FileErrorCode)     (* Could not edit file *)
| NotAFile
| EditFailed (error : EditError)
| Failed (error : FileErrorCode)             (* getOrThrow *)
| BeyondEnd (offset : option Z) (lines : Z)  (* Offset is beyond end of file *)
| Threw (error : TruncateError).

Definition task (F A : Type) : Type := F → F * result ToolError A.

Definition done {F A} (a : A) : task F A := λ f, (f, Ok a).
Definition throw {F A} (e : ToolError) : task F A := λ f, (f, Err e).
Definition of_result {F A E} (wrap : E → ToolError) (r : result E A) : task F A :=
  λ f, (f, match r with Ok a => Ok a | Err e => Err (wrap e) end).
Definition and_then {F A B} (m : task F A) (k : A → task F B) : task F B :=
  λ f, match m f with (f, Ok a) => k a f | (f, Err e) => (f, Err e) end.
Definition call {F A} (wrap : FileErrorCode → ToolError) (m : F → F * fs_result A) : task F A :=
  λ f, let '(f, r) := m f in of_result wrap r f.

Notation "'await' x := m 'in' k" := (and_then m (λ x, k))
  (at level 200, x binder, m at level 100, k at level 200, right associativity).

(** [if (signal?.aborted) throw new Error("Operation aborted")] *)
Definition check_aborted {F} (b : bool) : task F unit := if b then throw OperationAborted else done tt.

Inductive ToolContent := TextContent (text : jsstr) | ImageContent (data mimeType : jsstr).

(** ** Paths *)

Definition UNICODE_SPACES (u : Z) : bool :=
  (u =? 0x00a0) || ((0x2000 <=? u) && (u <=? 0x200a)) || (u =? 0x202f) || (u =? 0x205f) || (u =? 0x3000).
Definition NARROW_NO_BREAK_SPACE : Z := 0x202f.

Definition normalizeToolPath (path_ : jsstr) : jsstr :=
  let normalized := (λ u, if UNICODE_SPACES u then 0x20 else u) <$> path_ in
  match normalized with
  | 0x40 :: rest => rest
  | _ => normalized
  end.

(** [/ (AM|PM)\./gi], replaced by the same with a narrow space in front. *)
Fixpoint narrow_before_am_pm (s : jsstr) : jsstr :=
  match s with
  | [] => []
  | c :: rest =>
      match rest with
      | a :: m :: dot :: rest' =>
          if (c =? 0x20) && (bool_decide (upper_unit a ∈ js_lit "AP") && (upper_unit m =? 0x4d) && (dot =? 0x2e))
          then NARROW_NO_BREAK_SPACE :: a :: m :: dot :: narrow_before_am_pm rest'
          else c :: narrow_before_am_pm rest
      | _ => c :: narrow_before_am_pm rest
      end
  end.

(** [replace(/'/g, "\u2019")] *)
Definition curly_quotes (s : jsstr) : jsstr := (λ u, if u =? 0x27 then 0x2019 else u) <$> s.

(** [new Set(variants)], in the order of their insertion. *)
Fixpoint distinct (seen l : list jsstr) : list jsstr :=
  match l with
  | [] => []
  | x :: l => if bool_decide (x ∈ seen) then distinct seen l else x :: distinct (x :: seen) l
  end.

Section tools.
Context {F : Type} `{FileSystem F} `{ToolFiles F}.

Definition resolveToolPath (path_ : jsstr) : task F path := call Failed (absolutePath (normalizeToolPath path_)).

(** The first variant that exists, or [resolved]. *)
Fixpoint first_existing (variants : list path) (resolved : path) : task F path :=
  match variants with
  | [] => done resolved
  | variant :: variants =>
      await found := call Failed (exists_ variant) in
      if (found : bool) then done variant else first_existing variants resolved
  end.

Definition resolveReadToolPath (NFD : jsstr → jsstr) (path_ : jsstr) : task F path :=
  await resolved := resolveToolPath path_ in
  first_existing
    (distinct [] [resolved; narrow_before_am_pm resolved; NFD resolved; curly_quotes resolved; curly_quotes (NFD resolved)])
    resolved.

(** [withFileMutationQueue], for a call that finds the queue empty: the key is
    looked up, then [fn] runs. *)
Definition queued {A} (filePath : path) (fn : task F A) : task F A :=
  await _ := (λ f,
    let '(f, abs) := absolutePath filePath f in
    match abs with
    | Err e => (f, Err (Failed e))
    | Ok p => let '(f, canon) := canonicalPath p f in of_result Failed (getMutationQueueKey (Ok p) canon) f
    end) in
  fn.

(** ** Editing *)

Record EditToolDetails := mkEditDetails { et_diff : jsstr; et_patch : jsstr; et_firstChangedLine : option Z }.

Section edit_tool.
Context (NFKC : jsstr → jsstr) (diffLines : jsstr → jsstr → list DiffPart)
  (createTwoFilesPatch : jsstr → jsstr → jsstr → jsstr → nat → jsstr).

Definition generateUnifiedPatch (path_ oldContent newContent : jsstr) (contextLines : nat) : jsstr :=
  createTwoFilesPatch path_ path_ oldContent newContent contextLines.

Definition validateEditInput (edits : list Edit) : result ToolError (list Edit) :=
  match edits with [] => Err InvalidEdits | _ => Ok edits end.

(** What is written for the content read: the text before, the text after, and the
    bytes of the file. *)
Definition edited_content (edits : list Edit) (raw : jsstr) : result EditError (AppliedEditsResult * jsstr) :=
  let '(bom, content) := stripBom raw in
  let originalEnding := detectLineEnding content in
  let normalizedContent := normalizeToLF content in
  let* applied := applyEditsToNormalizedContent NFKC normalizedContent edits in
  Ok (applied, bom ++ restoreLineEndings (newContent applied) originalEnding).

(** The function given to the queue. *)
Definition edit_fn (aborted : nat → bool) (path_ : jsstr) (absolutePath_ : path) (edits : list Edit) :
    task F (list ToolContent * EditToolDetails) :=
  await _ := check_aborted (aborted 0%nat) in
  await info := call EditAccessError (fileInfo absolutePath_) in
  if bool_decide (fi_kind info = directory) then throw NotAFile else
  await raw := call EditAccessError (readTextFile absolutePath_) in
  await _ := check_aborted (aborted 1%nat) in
  await r := of_result EditFailed (edited_content edits raw) in
  let '(applied, finalContent) := r in
  await _ := check_aborted (aborted 2%nat) in
  await _ := call EditAccessError (writeFile absolutePath_ finalContent) in
  await _ := check_aborted (aborted 3%nat) in
  let '(diff, firstChanged) := generateDiffString diffLines (baseContent applied) (newContent applied) 4 in
  done ([TextContent (js_lit "Successfully replaced " ++ decimal (Z.of_nat (length edits)) ++ js_lit " block(s) in " ++ path_ ++ js_lit ".")],
        mkEditDetails diff (generateUnifiedPatch path_ (baseContent applied) (newContent applied) 4) firstChanged).

Definition edit_execute (aborted : nat → bool) (path_ : jsstr) (edits : list Edit) : task F (list ToolContent * EditToolDetails) :=
  await edits := of_result id (validateEditInput edits) in
  await absolutePath_ := resolveToolPath path_ in
  queued absolutePath_ (edit_fn aborted path_ absolutePath_ edits).

End edit_tool.

(** ** Writing *)

Definition write_fn (aborted : nat → bool) (path_ content : jsstr) (absolutePath_ : path) : task F (list ToolContent) :=
  await _ := check_aborted (aborted 0%nat) in
  await _ := call Failed (writeFile absolutePath_ content) in
  await _ := check_aborted (aborted 1%nat) in
  done [TextContent (js_lit "Successfully wrote " ++ decimal (Z.of_nat (length content)) ++ js_lit " bytes to " ++ path_)].

Definition write_execute (aborted : nat → bool) (path_ content : jsstr) : task F (list ToolContent) :=
  await absolutePath_ := resolveToolPath path_ in
  queued absolutePath_ (write_fn aborted path_ content absolutePath_).

End tools.

(** ** The arguments of an edit *)

(** [args[k]], for a name that is on no prototype. *)
Definition prop (k : string) (es : list (jsstr * tree)) : option tree :=
  snd <$> (snd <$> list_find (λ e, e.1 = js_lit k) es).

Definition isSingleEditInput (value : tree) : bool :=
  match value with
  | TMap es => match prop "oldText" es, prop "newText" es with Some (TText _), Some (TText _) => true | _, _ => false end
  | _ => false
  end.

(** [const { oldText: _, newText: _, ...rest } = legacy] *)
Definition without_texts (es : list (jsstr * tree)) : list (jsstr * tree) :=
  filter (λ e, e.1 ≠ js_lit "oldText" ∧ e.1 ≠ js_lit "newText") es.

Definition prepareEditArguments (input : tree) : tree :=
  match input with
  | TMap args =>
      let args :=
        match prop "edits" args with
        | Some (TText s) =>
            match JSON_parse s with
            | Some (TArray parsed) => set_prop (js_lit "edits") (TArray parsed) args
            | Some parsed => if isSingleEditInput parsed then set_prop (js_lit "edits") (TArray [parsed]) args else args
            | None => args
            end
        | Some edits => if isSingleEditInput edits then set_prop (js_lit "edits") (TArray [edits]) args else args
        | None => args
        end in
      match prop "oldText" args, prop "newText" args with
      | Some (TText old), Some (TText new) =>
          let edits := match prop "edits" args with Some (TArray edits) => edits | _ => [] end in
          let edits := edits ++ [TMap [(js_lit "oldText", TText old); (js_lit "newText", TText new)]] in
          TMap (set_prop (js_lit "edits") (TArray edits) (without_texts args))
      | _, _ => TMap args
      end
  | _ => input
  end.

(** * Properties

    What the tools do to the file system: an edit replaces the content of one file,
    or leaves everything alone, unless the write itself fails. *)

Section tools.
Context {F : Type} `{HF : FileSystem F, HL : !FsLaws F, HT : !ToolFiles F, HTL : !ToolLaws F}.

(** A computation that changes no file. *)
Definition quiet {A} (m : task F A) : Prop := ∀ f f' r, m f = (f', r) → files f' = files f.

Lemma and_then_inv {A B} (m : task F A) (k : A → task F B) f f' r :
  and_then m k f = (f', r) → ∃ f1 r1, m f = (f1, r1) ∧ match r1 with Ok a => k a f1 = (f', r) | Err e => f' = f1 ∧ r = Err e end.
Proof. unfold and_then. destruct (m f) as [f1 [a|e]]; intros H; eexists _, _; (split; [done|]); [done|by simplify_eq]. Qed.

Lemma quiet_then {A B} (m : task F A) (k : A → task F B) f f' r :
  quiet m → and_then m k f = (f', r) → (files f' = files f ∧ ∃ e, r = Err e) ∨ ∃ f1 a, m f = (f1, Ok a) ∧ files f1 = files f ∧ k a f1 = (f', r).
Proof.
  intros Hq H. apply and_then_inv in H as (f1 & [a|e] & Hm & Hk); [right; exists f1, a; eauto|]. destruct Hk as [-> ->]. left. eauto.
Qed.

Lemma quiet_call {A} wrap (m : F → F * fs_result A) : (∀ f f' r, m f = (f', r) → files f' = files f) → quiet (call wrap m).
Proof. intros Hm f f' r. unfold call, of_result. destruct (m f) as [f1 r1] eqn:E. intros [= <- _]. by eapply Hm. Qed.

Lemma quiet_check b : quiet (check_aborted b).
Proof. intros f f' r. by destruct b; intros [= <- _]. Qed.

Lemma quiet_result {A E} wrap (x : result E A) : quiet (of_result wrap x).
Proof. by intros f f' r [= <- _]. Qed.

Lemma quiet_info wrap p : quiet (call wrap (fileInfo p)).
Proof. apply quiet_call. intros. by eapply info_law. Qed.

Lemma quiet_read wrap p : quiet (call wrap (readTextFile p)).
Proof. apply quiet_call. intros. by eapply read_law. Qed.

Lemma quiet_resolve p : quiet (resolveToolPath p).
Proof. apply quiet_call. intros. by eapply absolute_law. Qed.

Lemma quiet_lookup p : quiet (λ f : F,
  let '(f, abs) := absolutePath p f in
  match abs with
  | Err e => (f, Err (Failed e))
  | Ok p => let '(f, canon) := canonicalPath p f in of_result Failed (getMutationQueueKey (Ok p) canon) f
  end).
Proof.
  intros f f' r. destruct (absolutePath p f) as [f1 [q|e]] eqn:Ea; [|intros [= <- _]; by eapply absolute_law].
  destruct (canonicalPath q f1) as [f2 canon] eqn:Ec. intros [= <- _]. by rewrite (canonical_law _ _ _ _ Ec), (absolute_law _ _ _ _ Ea).
Qed.

Hint Resolve quiet_check quiet_result quiet_info quiet_read quiet_resolve quiet_lookup : core.

(** The file system after a call that wrote [final] to [p], or tried to. *)
Definition wrote {A} (p : path) (final : jsstr) (f f' : F) (r : result ToolError A) : Prop :=
  match r with
  | Ok _ => files f' = <[p := final]> (files f)
  | Err _ => ∀ q, q ≠ p → files f' !! q = files f !! q
  end.

Lemma write_then {B} wrap p t (k : unit → task F B) f f' r :
  (∀ u f1 f2 r, k u f1 = (f2, r) → files f2 = files f1) → and_then (call wrap (writeFile p t)) k f = (f', r) → wrote p t f f' r.
Proof.
  intros Hk H. apply and_then_inv in H as (f1 & r1 & Hw & Hr). unfold call, of_result in Hw.
  destruct (writeFile p t f) as [f2 w] eqn:Ew. injection Hw as <- <-. destruct (write_law _ _ _ _ _ Ew) as [Hothers Hdone].
  destruct w as [[]|e].
  - pose proof (Hk _ _ _ _ Hr) as Hsame. unfold wrote. rewrite Hsame, Hdone by done. destruct r; [done|]. intros q Hq. by rewrite lookup_insert_ne.
  - destruct Hr as [-> ->]. done.
Qed.

Section edit.
Context (NFKC : jsstr → jsstr) (diffLines : jsstr → jsstr → list DiffPart)
  (createTwoFilesPatch : jsstr → jsstr → jsstr → jsstr → nat → jsstr).

(** What [edit] does to [p]: nothing and an error, or the edited content. *)
Definition edit_effect {A} (p : path) (edits : list Edit) (f f' : F) (r : result ToolError A) : Prop :=
  (files f' = files f ∧ ∃ e, r = Err e) ∨
  ∃ raw applied final, files f !! p = Some raw ∧ edited_content NFKC edits raw = Ok (applied, final) ∧ wrote p final f f' r.

Lemma edit_fn_spec aborted path_ p edits f f' r :
  edit_fn NFKC diffLines createTwoFilesPatch aborted path_ p edits f = (f', r) → edit_effect p edits f f' r.
Proof.
  unfold edit_fn. intros H. apply quiet_then in H as [H|(f1 & _ & _ & E1 & H)]; [by left| |done].
  apply quiet_then in H as [[H ?]|(f2 & info & _ & E2 & H)]; [left; by rewrite H, E1| |done].
  case_bool_decide; [left; injection H as <- <-; rewrite E2, E1; eauto|].
  apply quiet_then in H as [[H ?]|(f3 & raw & Hread & E3 & H)]; [left; by rewrite H, E2, E1| |done].
  apply quiet_then in H as [[H ?]|(f4 & _ & _ & E4 & H)]; [left; by rewrite H, E3, E2, E1| |done].
  apply quiet_then in H as [[H ?]|(f5 & [applied final] & He & E5 & H)]; [left; by rewrite H, E4, E3, E2, E1| |done].
  apply quiet_then in H as [[H ?]|(f6 & _ & _ & E6 & H)]; [left; by rewrite H, E5, E4, E3, E2, E1| |done].
  right. exists raw, applied, final. split_and!.
  - unfold call, of_result in Hread. destruct (readTextFile p f2) as [f2' [t|]] eqn:Er; [|done]. injection Hread as <- <-.
    rewrite <- E1, <- E2. by apply (read_law _ _ _ _ Er).
  - unfold of_result in He. destruct (edited_content NFKC edits raw); by simplify_eq.
  - assert (files f6 = files f) as Hf by congruence. unfold wrote. rewrite <- Hf. eapply write_then; [|exact H].
    intros [] g g' r' Hg. apply quiet_then in Hg as [[Hg _]|(g1 & _ & _ & Hg1 & Hg)]; [done| |done].
    destruct (generateDiffString _ _ _ _). by injection Hg as <- _.
Qed.

(** The whole call: the path is resolved once, and everything happens to that file. *)
Lemma edit_execute_spec aborted path_ edits f f' r :
  edit_execute NFKC diffLines createTwoFilesPatch aborted path_ edits f = (f', r) →
  (files f' = files f ∧ ∃ e, r = Err e) ∨
  ∃ f1 p, absolutePath (normalizeToolPath path_) f = (f1, Ok p) ∧ edits ≠ [] ∧ edit_effect p edits f f' r.
Proof.
  unfold edit_execute. intros H. apply quiet_then in H as [H|(f1 & edits' & He & E1 & H)]; [by left| |done].
  assert (edits ≠ [] ∧ edits' = edits ∧ f1 = f) as (Hne & -> & ->).
  { unfold of_result, validateEditInput in He. destruct edits; [done|]. by simplify_eq. }
  apply quiet_then in H as [H|(f2 & p & Hp & E2 & H)]; [by left| |done].
  unfold queued in H. apply quiet_then in H as [[H ?]|(f3 & _ & _ & E3 & H)]; [left; by rewrite H, E2| |done].
  apply edit_fn_spec in H. right. exists f2, p. split_and!; [|done|].
  - unfold resolveToolPath, call, of_result in Hp. destruct (absolutePath _ f) as [g [q|]]; by simplify_eq.
  - assert (files f3 = files f) as Hf by congruence. unfold edit_effect, wrote in *. by rewrite Hf in H.
Qed.
End edit.

Lemma write_execute_spec aborted path_ content f f' r :
  write_execute aborted path_ content f = (f', r) →
  (files f' = files f ∧ ∃ e, r = Err e) ∨
  ∃ f1 p, absolutePath (normalizeToolPath path_) f = (f1, Ok p) ∧ wrote p content f f' r.
Proof.
  unfold write_execute. intros H. apply quiet_then in H as [H|(f2 & p & Hp & E2 & H)]; [by left| |done].
  unfold queued in H. apply quiet_then in H as [[H ?]|(f3 & _ & _ & E3 & H)]; [left; by rewrite H, E2| |done].
  unfold write_fn in H. apply quiet_then in H as [[H ?]|(f4 & _ & _ & E4 & H)]; [left; by rewrite H, E3, E2| |done].
  right. exists f2, p. split.
  - unfold resolveToolPath, call, of_result in Hp. destruct (absolutePath _ f) as [g [q|]]; by simplify_eq.
  - assert (files f4 = files f) as Hf by congruence. unfold wrote. rewrite <- Hf. eapply write_then; [|exact H].
    intros [] g g' r' Hg. apply quiet_then in Hg as [[Hg _]|(g1 & _ & _ & Hg1 & Hg)]; [done| |done]. by injection Hg as <- _.
Qed.

End tools.
