(* ===== verification/ReadTool.v ===== *)
(** The tool that reads files: [agent/src/harness/tools/read.ts].  The notice at the
    end of a page is data, from which its text is written. *)
From S2P Require Import Prelude Bytes JsValue Json Utf8 Regex NodePath FileSystem Truncate TruncateSpec ShellOutput ShellOutputSpec EditDiff FileQueue Image Tools.
Open Scope Z_scope.

(** What a configured image processor answers. *)
Inductive ReadImageProcessorResult :=
| Processed (data mimeType : jsstr) (hints : list jsstr)
| ProcessFailed (message : jsstr).

Record ReadToolOptions := mkReadOptions {
  autoResizeImages : option bool;
  imageProcessor : option (list Z → Image.MimeType → bool → ReadImageProcessorResult) }.

(** [l.slice(from, to)] for a [from] that is not negative. *)
Definition js_slice {A} (l : list A) (from to : Z) : list A :=
  let len := Z.of_nat (length l) in
  let final := if to <? 0 then Z.max (len + to) 0 else Z.min to len in
  take (Z.to_nat (final - from)) (drop (Z.to_nat from) l).

(** What follows the text. *)
Inductive Notice :=
| Complete
| LineTooLong (line : Z) (size : jsstr)
| ShowingLines (by_ : Limit) (first last total next : Z)
| MoreLines (remaining next : Z).

(** The content shown, the notice, and the truncation among the details. *)
Record Page := mkPage { pg_content : jsstr; pg_notice : Notice; pg_truncation : option TruncationResult }.

Definition startLine_of (offset : option Z) : Z :=
  match offset with Some o => if o =? 0 then 0 else Z.max 0 (o - 1) | None => 0 end.

Section read.
Context (runtimeBuffer : bool).

(** The lines asked for, and how many a limit let through. *)
Definition select_lines (allLines : list jsstr) (startLine : Z) (limit : option Z) : jsstr * option Z :=
  match limit with
  | Some limit =>
      let endLine := Z.min (startLine + limit) (Z.of_nat (length allLines)) in
      (join_on [LF] (js_slice allLines startLine endLine), Some (endLine - startLine))
  | None => (join_on [LF] (drop (Z.to_nat startLine) allLines), None)
  end.

(** The page of a text file; the default limits are positive, so that [truncateHead]
    does not throw. *)
Definition read_page (textContent : jsstr) (offset limit : option Z) : result ToolError Page :=
  let allLines := split_on LF textContent in
  let totalFileLines := Z.of_nat (length allLines) in
  let startLine := startLine_of offset in
  let startLineDisplay := startLine + 1 in
  if totalFileLines <=? startLine then Err (BeyondEnd offset totalFileLines) else
  let '(selectedContent, userLimitedLines) := select_lines allLines startLine limit in
  match truncateHead runtimeBuffer selectedContent no_options with
  | Err e => Err (Threw e)
  | Ok truncation =>
      Ok (if tr_firstLineExceedsLimit truncation then
            let line := default [] (allLines !! Z.to_nat startLine) in
            mkPage [] (LineTooLong startLineDisplay (formatSize (Z.of_nat (length (utf8_encode line))))) (Some truncation)
          else if tr_truncated truncation then
            let endLineDisplay := startLineDisplay + tr_outputLines truncation - 1 in
            let by_ := match tr_truncatedBy truncation with Some ByLines => ByLines | _ => ByBytes end in
            mkPage (tr_content truncation) (ShowingLines by_ startLineDisplay endLineDisplay totalFileLines (endLineDisplay + 1))
              (Some truncation)
          else
            match userLimitedLines with
            | Some n =>
                if startLine + n <? totalFileLines
                then mkPage (tr_content truncation) (MoreLines (totalFileLines - (startLine + n)) (startLine + n + 1)) None
                else mkPage (tr_content truncation) Complete None
            | None => mkPage (tr_content truncation) Complete None
            end)
  end.

Definition notice_text (path_ : jsstr) (n : Notice) : jsstr :=
  let limit := formatSize DEFAULT_MAX_BYTES in
  let blank := [LF; LF] in
  match n with
  | Complete => []
  | LineTooLong line size =>
      js_lit "[Line " ++ decimal line ++ js_lit " is " ++ size ++ js_lit ", exceeds " ++ limit ++
      js_lit " limit. Use bash: sed -n '" ++ decimal line ++ js_lit "p' " ++ path_ ++ js_lit " | head -c " ++
      decimal DEFAULT_MAX_BYTES ++ js_lit "]"
  | ShowingLines by_ first last_ total next =>
      blank ++ js_lit "[Showing lines " ++ decimal first ++ js_lit "-" ++ decimal last_ ++ js_lit " of " ++ decimal total ++
      match by_ with ByLines => [] | ByBytes => js_lit " (" ++ limit ++ js_lit " limit)" end ++
      js_lit ". Use offset=" ++ decimal next ++ js_lit " to continue.]"
  | MoreLines remaining_ next =>
      blank ++ js_lit "[" ++ num_text (NInt remaining_) ++ js_lit " more lines in file. Use offset=" ++ num_text (NInt next) ++
      js_lit " to continue.]"
  end.

(** The answer for an image. *)
Definition read_image (options : ReadToolOptions) (bytes : list Z) (mimeType : Image.MimeType) : list ToolContent :=
  let label m := js_lit "Read image file [" ++ m ++ js_lit "]" in
  match imageProcessor options with
  | Some processor =>
      match processor bytes mimeType (default true (autoResizeImages options)) with
      | ProcessFailed message => [TextContent (label (Image.mime_text mimeType) ++ [LF] ++ message)]
      | Processed data mime hints =>
          let hints := match hints with [] => [] | _ => [LF] ++ join_on [LF] hints end in
          [TextContent (label mime ++ hints); ImageContent data mime]
      end
  | None =>
      match mimeType with
      | Image.bmp =>
          [TextContent (label (Image.mime_text Image.bmp) ++ [LF] ++
            js_lit "[Image omitted: configure an imageProcessor to convert BMP images.]")]
      | _ =>
          [TextContent (label (Image.mime_text mimeType)); ImageContent (Image.encodeBase64 bytes) (Image.mime_text mimeType)]
      end
  end.

Definition read_bytes (options : ReadToolOptions) (path_ : jsstr) (offset limit : option Z) (bytes : list Z) :
    result ToolError (list ToolContent * option TruncationResult) :=
  match Image.detectSupportedImageMimeType bytes with
  | Some mimeType => Ok (read_image options bytes mimeType, None)
  | None =>
      let* page := read_page (TextDecoder_decode bytes) offset limit in
      Ok ([TextContent (pg_content page ++ notice_text path_ (pg_notice page))], pg_truncation page)
  end.

Definition read_execute {F} `{FileSystem F} `{ToolFiles F} (NFD : jsstr → jsstr) (options : ReadToolOptions) (path_ : jsstr)
    (offset limit : option Z) : task F (list ToolContent * option TruncationResult) :=
  await absolutePath_ := resolveReadToolPath NFD path_ in
  await bytes := call Failed (readBinaryFile absolutePath_) in
  of_result id (read_bytes options path_ offset limit bytes).

End read.

(** * Properties

   Reading a file page by page: what a page shows, and that following the offsets
    of the notices shows every line once, in order. *)

Notation lines_of := (split_on LF).
Notation texts := (join_on [LF]).

(** The lines counted are those of the text, less an empty last one. *)
Lemma counted_lines ws :
  ws ≠ [] → Forall (λ w, LF ∉ w) ws →
  ∃ extra, ws = splitLinesForCounting (texts ws) ++ extra ∧ (extra = [] ∨ extra = [[]]).
Proof.
  intros Hne Hws. unfold splitLinesForCounting. case_bool_decide as E.
  { exists [[]]. split; [|by right]. rewrite <- (split_join LF ws), E by done. done. }
  rewrite endsWith_split, split_join by done. case_bool_decide as El; [|exists []; rewrite app_nil_r; by auto].
  exists [[]]. split; [|by right]. apply last_Some in El as [l' ->]. by rewrite removelast_snoc.
Qed.

(** What one call of [truncateHead] leaves of some lines: all, none because the first
    is too long, or the first [k]. *)
Definition head_page (ws : list jsstr) (r : TruncationResult) : Prop :=
  (tr_truncated r = false ∧ tr_firstLineExceedsLimit r = false ∧ tr_content r = texts ws) ∨
  (tr_truncated r = true ∧ tr_firstLineExceedsLimit r = true ∧ ∃ line, head ws = Some line ∧ DEFAULT_MAX_BYTES < Buffer_byteLength line) ∨
  (tr_truncated r = true ∧ tr_firstLineExceedsLimit r = false ∧
   ∃ k, (0 < k < length ws)%nat ∧ tr_content r = texts (take k ws) ∧ tr_outputLines r = Z.of_nat k).

Lemma head_page_ok b ws :
  ws ≠ [] → Forall (λ w, LF ∉ w) ws → texts_ok ws →
  ∃ r, truncateHead b (texts ws) no_options = Ok r ∧ head_page ws r.
Proof.
  intros Hne Hws Hok. destruct (truncateHead_longest b (texts ws) no_options) as (r & Hr & _ & Hh & _); [by apply join_ok|done..|].
  exists r. split; [done|]. unfold head_page. unfold head_of in Hh. destruct (tr_truncated r) eqn:Et; [right|left; by destruct Hh as (_ & -> & ->)].
  destruct Hh as (Hnw & kept & ([more Hpre] & Hfits & Hmax) & Hc & Ho & Hfirst).
  destruct (counted_lines ws Hne Hws) as (extra & Hcount & Hextra). remember (splitLinesForCounting (texts ws)) as counted eqn:Ec.
  assert (counted ≠ []) as Hcne.
  { intros ->. apply Hnw. destruct Hextra as [-> | ->]; cbn in Hcount; [done|]. subst ws. by vm_compute. }
  destruct (tr_firstLineExceedsLimit r); [left|right].
  - destruct (proj1 Hfirst eq_refl) as (line & Hline & Hlong). split_and!; [done..|]. exists line. split; [|done].
    rewrite Hcount. by destruct counted.
  - split_and!; [done..|]. exists (length kept).
    assert (take (length kept) ws = kept) as Htake by (rewrite Hcount, Hpre, <- app_assoc; by rewrite take_app_length).
    rewrite Htake. split_and!; [| |done|done].
    + destruct counted as [|line counted]; [done|]. specialize (Hmax [line]).
      assert ([line] `prefix_of` line :: counted) as Hp by by exists counted. cbn in Hmax. apply Hmax in Hp; [lia|].
      split; [done|]. rewrite size_one. destruct (Z.ltb_spec DEFAULT_MAX_BYTES (Buffer_byteLength line)); [|done].
      discriminate (proj2 Hfirst). by exists line.
    + rewrite Hcount, Hpre, !length_app. destruct (decide (more = [])) as [-> |]; [|destruct more; [done|cbn; lia]].
      rewrite app_nil_r in Hpre. subst kept. destruct Hextra as [-> | ->]; [|cbn; lia]. exfalso. apply Hnw.
      rewrite app_nil_r in Hcount. unfold within. rewrite <- Ec. subst counted. destruct Hfits as [Hf1 Hf2]. split; [done|].
      unfold size in Hf2. by rewrite <- Hcount in Hf2.
Qed.

(** The lines a page can show: from [start], at most [limit]. *)
Definition asked (text : jsstr) (start : nat) (limit : option Z) : list jsstr :=
  let rest := drop start (lines_of text) in
  match limit with Some n => take (Z.to_nat n) rest | None => rest end.
Arguments asked : simpl never.

Lemma select_asked text start limit :
  (start < length (lines_of text))%nat → (∀ n, limit = Some n → 1 ≤ n) →
  select_lines (lines_of text) (Z.of_nat start) limit =
  (texts (asked text start limit),
   match limit with Some _ => Some (Z.of_nat (length (asked text start limit))) | None => None end).
Proof.
  intros Hs Hl. unfold select_lines, asked. destruct limit as [n|]; [|by rewrite Nat2Z.id]. specialize (Hl n eq_refl).
  rewrite length_take, length_drop. set (L := lines_of text) in *. f_equal; [|f_equal; lia]. f_equal. unfold js_slice.
  destruct (Z.ltb_spec (Z.min (Z.of_nat start + n) (Z.of_nat (length L))) 0); [lia|]. rewrite Nat2Z.id.
  destruct (decide (Z.of_nat start + n ≤ Z.of_nat (length L))) as [Hn|Hn].
  - f_equal. lia.
  - rewrite !take_ge; [done|rewrite length_drop; lia..].
Qed.

(** What the page from line [start] shows, by its notice. *)
Definition page_ok (text : jsstr) (start : nat) (limit : option Z) (pg : Page) : Prop :=
  let ws := asked text start limit in
  let total := Z.of_nat (length (lines_of text)) in
  match pg_notice pg with
  | Complete => pg_content pg = texts ws ∧ (start + length ws = length (lines_of text))%nat
  | MoreLines remaining_ next =>
      pg_content pg = texts ws ∧ next = Z.of_nat (start + length ws) + 1 ∧ remaining_ = total - Z.of_nat (start + length ws) ∧ 0 < remaining_
  | ShowingLines _ first last_ total' next =>
      ∃ k, (0 < k < length ws)%nat ∧ pg_content pg = texts (take k ws) ∧
        first = Z.of_nat start + 1 ∧ last_ = Z.of_nat (start + k) ∧ total' = total ∧ next = last_ + 1
  | LineTooLong l size_ =>
      pg_content pg = [] ∧ l = Z.of_nat start + 1 ∧
      ∃ line, lines_of text !! start = Some line ∧ DEFAULT_MAX_BYTES < Buffer_byteLength line ∧ size_ = formatSize (Buffer_byteLength line)
  end.

Lemma asked_lines text start limit :
  (start < length (lines_of text))%nat → (∀ n, limit = Some n → 1 ≤ n) → text_ok text = true →
  asked text start limit ≠ [] ∧ Forall (λ w, LF ∉ w) (asked text start limit) ∧ texts_ok (asked text start limit) ∧
  head (asked text start limit) = lines_of text !! start ∧ (start + length (asked text start limit) ≤ length (lines_of text))%nat.
Proof.
  intros Hs Hl Ht.
  assert (∀ w, w ∈ asked text start limit → w ∈ lines_of text) as Hin.
  { intros w Hw. assert (w ∈ drop start (lines_of text)) as Hd.
    { unfold asked in Hw. destruct limit as [n|]; [|done]. apply elem_of_take in Hw as (i & Hi & _). by eapply list_elem_of_lookup_2. }
    apply list_elem_of_lookup in Hd as [i Hi]. rewrite lookup_drop in Hi. by eapply list_elem_of_lookup_2. }
  assert (head (asked text start limit) = lines_of text !! start) as Hhead.
  { replace (lines_of text !! start) with (drop start (lines_of text) !! 0%nat) by (by rewrite lookup_drop, Nat.add_0_r).
    unfold asked.
    destruct limit as [n|]; [|by destruct (drop start (lines_of text))]. specialize (Hl n eq_refl).
    destruct (Z.to_nat n) eqn:En; [lia|]. by destruct (drop start (lines_of text)). }
  split_and!; [| | |done|].
  - intros E. rewrite E in Hhead. symmetry in Hhead. apply lookup_ge_None in Hhead. lia.
  - apply Forall_forall. intros w Hw. by eapply split_on_sep, Hin.
  - apply Forall_forall. intros w Hw. apply text_ok_elem. intros u Hu. rewrite text_ok_elem in Ht.
    by eapply Ht, split_on_elem, Hu; apply Hin.
  - unfold asked. destruct limit; rewrite ?length_take, length_drop; lia.
Qed.

Lemma read_page_ok b text start limit :
  (start < length (lines_of text))%nat → (∀ n, limit = Some n → 1 ≤ n) → text_ok text = true →
  ∃ pg, read_page b text (Some (Z.of_nat start + 1)) limit = Ok pg ∧ page_ok text start limit pg.
Proof.
  intros Hs Hl Ht. destruct (asked_lines text start limit Hs Hl Ht) as (Hne & Hws & Hok & Hhead & Hlen).
  destruct (head_page_ok b _ Hne Hws Hok) as (r & Hr & Hpage).
  unfold read_page. assert (startLine_of (Some (Z.of_nat start + 1)) = Z.of_nat start) as ->.
  { unfold startLine_of. destruct (Z.eqb_spec (Z.of_nat start + 1) 0); lia. }
  rewrite (proj2 (Z.leb_gt _ _)) by lia. rewrite (select_asked text start limit Hs Hl), Hr. eexists. split; [reflexivity|].
  destruct Hpage as [(Et & Ef & Hc)|[(Et & Ef & line & Hline & Hlong)|(Et & Ef & k & Hk & Hc & Ho)]]; rewrite Ef, ?Et; unfold page_ok; cbn.
  - destruct limit as [n|]; [|split; [done|]; unfold asked; rewrite length_drop; lia].
    destruct (Z.ltb_spec (Z.of_nat start + Z.of_nat (length (asked text start (Some n)))) (Z.of_nat (length (lines_of text)))); cbn;
      split_and!; try done; lia.
  - rewrite Nat2Z.id, <- Hhead, Hline. cbn. split_and!; [done..|]. exists line. split_and!; [done|done|]. done.
  - exists k. rewrite Ho. split_and!; try done; try lia.
Qed.

(** ** Following the notices *)

(** The lines [page] of [text] stands for: those it shows, or the one it names. *)
Definition shown (text : jsstr) (pg : Page) : jsstr :=
  match pg_notice pg with
  | LineTooLong l _ => default [] (lines_of text !! Z.to_nat (l - 1))
  | _ => pg_content pg
  end.

(** Where a reader goes on: at the offset named, or after the line that is too long. *)
Definition continue_at (text : jsstr) (pg : Page) : option Z :=
  match pg_notice pg with
  | Complete => None
  | LineTooLong l _ => if l <? Z.of_nat (length (lines_of text)) then Some (l + 1) else None
  | ShowingLines _ _ _ _ next | MoreLines _ next => Some next
  end.

Fixpoint read_all (fuel : nat) (b : bool) (text : jsstr) (limit : option Z) (offset : Z) : option (list Page) :=
  match fuel with
  | O => None
  | S fuel =>
      match read_page b text (Some offset) limit with
      | Err _ => None
      | Ok pg =>
          match continue_at text pg with
          | None => Some [pg]
          | Some next => pages ← read_all fuel b text limit next; Some (pg :: pages)
          end
      end
  end.

(** A page stands for the lines up to where the reader goes on. *)
Lemma page_continues text start limit pg :
  (start < length (lines_of text))%nat → (∀ n, limit = Some n → 1 ≤ n) → text_ok text = true → page_ok text start limit pg →
  match continue_at text pg with
  | None => shown text pg = texts (drop start (lines_of text))
  | Some next =>
      ∃ k, (0 < k)%nat ∧ (start + k < length (lines_of text))%nat ∧ next = Z.of_nat (start + k) + 1 ∧
        shown text pg = texts (take k (drop start (lines_of text)))
  end.
Proof.
  intros Hs Hl Ht Hpg. destruct (asked_lines text start limit Hs Hl Ht) as (Hne & _ & _ & _ & Hlen).
  assert (∀ k, (k ≤ length (asked text start limit))%nat → take k (asked text start limit) = take k (drop start (lines_of text))) as Htake.
  { intros k. unfold asked. destruct limit as [n|]; [|done]. rewrite length_take. intros Hk. rewrite take_take. f_equal. lia. }
  assert (0 < length (asked text start limit))%nat as Hpos by (destruct (asked text start limit); [done|cbn; lia]).
  unfold page_ok in Hpg. unfold continue_at, shown. destruct (pg_notice pg) as [|l sz|by_ first last_ total next|remaining_ next].
  - destruct Hpg as [-> Hall]. rewrite <- (take_ge (asked text start limit) (length (asked text start limit))), Htake by lia.
    rewrite take_ge; [done|]. rewrite length_drop. lia.
  - destruct Hpg as (_ & -> & line & Hline & _). replace (Z.to_nat (Z.of_nat start + 1 - 1)) with start by lia. rewrite Hline.
    cbn [from_option id]. rewrite (drop_S _ line start Hline). destruct (Z.ltb_spec (Z.of_nat start + 1) (Z.of_nat (length (lines_of text)))).
    + exists 1%nat. split_and!; try lia. done.
    + rewrite drop_ge by lia. done.
  - destruct Hpg as (k & Hk & -> & _ & -> & _ & ->). exists k. split_and!; [lia..|]. rewrite Htake by lia. done.
  - destruct Hpg as (-> & -> & -> & Hrem). exists (length (asked text start limit)). split_and!; [lia..|].
    rewrite <- Htake, take_ge by lia. done.
Qed.

Lemma read_all_ok b text limit start fuel :
  (start < length (lines_of text))%nat → (∀ n, limit = Some n → 1 ≤ n) → text_ok text = true →
  (length (lines_of text) - start ≤ fuel)%nat →
  ∃ pg pages, read_all fuel b text limit (Z.of_nat start + 1) = Some (pg :: pages) ∧
    texts (shown text <$> pg :: pages) = texts (drop start (lines_of text)).
Proof.
  intros Hs Hl Ht. revert start Hs. induction fuel as [|fuel IH]; intros start Hs Hf; [lia|]. cbn [read_all].
  destruct (read_page_ok b text start limit Hs Hl Ht) as (pg & -> & Hpg).
  pose proof (page_continues text start limit pg Hs Hl Ht Hpg) as Hc. destruct (continue_at text pg) as [next|].
  - destruct Hc as (k & Hk & Hlt & -> & Hsh). destruct (IH (start + k)%nat Hlt) as (pg' & pages & -> & Hpages); [lia|].
    exists pg, (pg' :: pages). split; [done|]. rewrite fmap_cons. change (shown text pg :: ?l) with ([shown text pg] ++ l).
    rewrite <- (take_drop k (drop start (lines_of text))), drop_drop.
    rewrite (join_on_app [LF] [shown text pg]), (join_on_app [LF] (take k _)), <- Hpages by (first [done | intros E; apply (f_equal length) in E; rewrite ?length_take, ?length_drop in E; cbn in E; lia]).
    by rewrite <- Hsh.
  - exists pg, []. split; [done|]. done.
Qed.

(** reading a text file from its first line, following the offset each notice
    gives and going on after a line that is too long to show, ends after at most as
    many calls as there are lines; and the lines shown, with those named as too long,
    are the file's lines, each once and in order. *)
Theorem read_complete b text limit :
  text_ok text = true → (∀ n, limit = Some n → 1 ≤ n) →
  ∃ pages, read_all (length (lines_of text)) b text limit 1 = Some pages ∧ texts (shown text <$> pages) = text.
Proof.
  intros Ht Hl. assert (0 < length (lines_of text))%nat as Hpos.
  { pose proof (split_on_nonempty LF text). destruct (lines_of text); [done|cbn; lia]. }
  destruct (read_all_ok b text limit 0 (length (lines_of text)) Hpos Hl Ht) as (pg & pages & Hall & Hshown); [lia|].
  exists (pg :: pages). split; [exact Hall|]. rewrite Hshown, drop_0. apply join_split.
Qed.

Lemma read_complete_witness :
  ∃ pages, read_all 3 true (js_lit "a" ++ [LF] ++ js_lit "b" ++ [LF]) (Some 1) 1 = Some pages ∧ length pages = 3%nat ∧
    texts (shown (js_lit "a" ++ [LF] ++ js_lit "b" ++ [LF]) <$> pages) = js_lit "a" ++ [LF] ++ js_lit "b" ++ [LF].
Proof.
  destruct (read_complete true (js_lit "a" ++ [LF] ++ js_lit "b" ++ [LF]) (Some 1) eq_refl ltac:(intros n [= <-]; lia)) as (pages & H1 & H2).
  exists pages. split; [exact H1|]. split; [|exact H2]. vm_compute in H1. injection H1 as <-. reflexivity.
Defined.
