(* ===== verification/BashTool.v ===== *)
(** The tool that runs commands: [agent/src/harness/tools/bash.ts].  The updates it
    sends while the command runs are throttled by a timer; [Throttle] holds the
    closure's variables and the updates sent, with the times of the clock.  A run of
    the tool is a run of [executeShellWithCapture] with those updates beside it. *)
From S2P Require Import Prelude JsValue Json Utf8 NodePath FileSystem Truncate TruncateSpec ShellOutput ShellOutputSpec.
Open Scope Z_scope.

Definition BASH_UPDATE_THROTTLE_MS : Z := 100.

(** ** The timeout *)

(** A finite number as [m / 2^j]. *)
Definition ratio (n : jsnum) : option (Z * Z) :=
  match n with
  | NInt z => Some (z, 0)
  | NNegZero => Some (0, 0)
  | NFrac bits => Some ((if frac_negative bits then - frac_mant bits else frac_mant bits), frac_shift bits)
  | NInf _ | NNaN => None
  end.

(** [a <= b] for finite numbers. *)
Definition num_le (a b : jsnum) : bool :=
  match ratio a, ratio b with
  | Some (m, j), Some (m', j') => m * 2 ^ j' <=? m' * 2 ^ j
  | _, _ => false
  end.

(** [2_147_483_647 / 1000] *)
Definition MAX_TIMEOUT_SECONDS : jsnum := round_ratio false 2147483647 1000.

Inductive TimeoutError := NotFinite | TooLong.

Definition validateTimeout (timeout : option jsnum) : result TimeoutError unit :=
  match timeout with
  | None => Ok tt
  | Some t =>
      if negb (isFinite t) || num_le t (NInt 0) then Err NotFinite
      else if negb (num_le t MAX_TIMEOUT_SECONDS) then Err TooLong else Ok tt
  end.

(** ** The command *)

Record BashExecution := mkExecution {
  be_command : jsstr; be_cwd : path; be_env : list (jsstr * jsstr); be_inheritEnv : bool }.

(** The execution, before and after a configured [prepare]. *)
Definition bash_execution (commandPrefix : option jsstr) (prepare : option (BashExecution → BashExecution))
    (cwd : path) (command : jsstr) : BashExecution :=
  let command :=
    match commandPrefix with
    | Some (c :: prefix) => (c :: prefix) ++ [LF] ++ command
    | _ => command
    end in
  let execution := mkExecution command cwd [] true in
  match prepare with Some prepare => prepare execution | None => execution end.

(** ** The updates *)

Record Throttle := mkThrottle {
  hasProgress : bool;                     (* getLatestProgress is set *)
  updateTimer : option Z;                 (* when it fires *)
  updateDirty : bool; lastUpdateAt : Z;
  updates : list (Z * ShellCaptureProgress) }.

Definition throttle_start : Throttle := mkThrottle false None false 0 [].

Section updates.
Context (onUpdate : bool).    (* whether the caller wants updates *)

(** [progress] is what [getLatestProgress()] returns. *)
Definition emitOutputUpdate (now : Z) (progress : ShellCaptureProgress) (t : Throttle) : Throttle :=
  if negb onUpdate || negb (updateDirty t) || negb (hasProgress t) then t
  else mkThrottle (hasProgress t) (updateTimer t) false now (updates t ++ [(now, progress)]).

Definition clearUpdateTimer (t : Throttle) : Throttle :=
  mkThrottle (hasProgress t) None (updateDirty t) (lastUpdateAt t) (updates t).

Definition scheduleOutputUpdate (now : Z) (progress : ShellCaptureProgress) (t : Throttle) : Throttle :=
  if negb onUpdate then t else
  let t := mkThrottle (hasProgress t) (updateTimer t) true (lastUpdateAt t) (updates t) in
  let delay := BASH_UPDATE_THROTTLE_MS - (now - lastUpdateAt t) in
  if delay <=? 0 then emitOutputUpdate now progress (clearUpdateTimer t)
  else
    mkThrottle (hasProgress t) (match updateTimer t with Some d => Some d | None => Some (now + delay) end)
      (updateDirty t) (lastUpdateAt t) (updates t).

(** The chunk callback. *)
Definition chunk_update (now : Z) (progress : ShellCaptureProgress) (t : Throttle) : Throttle :=
  scheduleOutputUpdate now progress (mkThrottle true (updateTimer t) (updateDirty t) (lastUpdateAt t) (updates t)).

(** The timer's callback. *)
Definition timer_update (now : Z) (progress : ShellCaptureProgress) (t : Throttle) : Throttle :=
  emitOutputUpdate now progress (clearUpdateTimer t).

(** After the command. *)
Definition final_update (now : Z) (progress : ShellCaptureProgress) (t : Throttle) : Throttle :=
  let t := clearUpdateTimer t in
  emitOutputUpdate now progress (mkThrottle true (updateTimer t) true (lastUpdateAt t) (updates t)).

(** ** A run *)

Record BashRun (F : Type) := mkBash { b_run : Run F; b_throttle : Throttle; b_now : Z }.
#[global] Arguments mkBash {F}.
#[global] Arguments b_run {F}.
#[global] Arguments b_throttle {F}.
#[global] Arguments b_now {F}.

Context (runtimeBuffer : bool).

(** The steps while the command runs: a chunk and its callback, the timer once it is
    due, the other steps of the capture, and time. *)
Inductive bash_step {F} `{FsLaws F} `{ToolFiles F} : BashRun F → list jsstr → BashRun F → Prop :=
| BashChunk c f d t now chunk :
    acceptingOutput c = true → text_ok chunk = true → scalars chunk ≫= utf16_scalar = chunk →
    bash_step (mkBash (mkRun c f d) t now) [chunk]
      (mkBash (mkRun (onChunk c chunk None) f d) (chunk_update now (createProgress runtimeBuffer (onChunk c chunk None)) t) now)
| BashTimer c f d t due now :
    updateTimer t = Some due → due ≤ now →
    bash_step (mkBash (mkRun c f d) t now) [] (mkBash (mkRun c f d) (timer_update now (createProgress runtimeBuffer c) t) now)
| BashOther r t now r' : step runtimeBuffer r [] r' → bash_step (mkBash r t now) [] (mkBash r' t now)
| BashTime r t now now' : now ≤ now' → bash_step (mkBash r t now) [] (mkBash r t now').

Inductive bash_runs {F} `{FsLaws F} `{ToolFiles F} (f : F) : list jsstr → BashRun F → Prop :=
| bash_runs_start now : 0 ≤ now → bash_runs f [] (mkBash (mkRun capture_start f None) throttle_start now)
| bash_runs_step h r l r' : bash_runs f h r → bash_step r l r' → bash_runs f (h ++ l) r'.

End updates.

(** ** The answer *)

Inductive BashError :=
| BashAborted (message : jsstr)
| BashTimedOut (message : jsstr)
| BashExecution_ (code : ExecutionErrorCode)
| BashExited (message : jsstr).

(** [details]: the truncation and the path of the log. *)
Definition BashDetails : Type := option (TruncationResult * option path).

(** [`${capture.fullOutputPath}`] *)
Definition path_text (p : option path) : jsstr := match p with Some p => p | None => js_lit "undefined" end.

(** The notice under output that was cut. *)
Definition bash_notice (progress : ShellCaptureProgress) : jsstr :=
  let tr := sp_truncation progress in
  let full := js_lit ". Full output: " ++ path_text (sp_fullOutputPath progress) ++ js_lit "]" in
  let startLine := tr_totalLines tr - tr_outputLines tr + 1 in
  let endLine := tr_totalLines tr in
  if tr_lastLinePartial tr then
    js_lit "[Showing last " ++ formatSize (tr_outputBytes tr) ++ js_lit " of line " ++ decimal endLine ++ js_lit " (line is " ++
    formatSize (sp_lastLineBytes progress) ++ js_lit ")" ++ full
  else
    let lines := js_lit "[Showing lines " ++ decimal startLine ++ js_lit "-" ++ decimal endLine ++ js_lit " of " ++ decimal (tr_totalLines tr) in
    match tr_truncatedBy tr with
    | Some ByLines => lines ++ full
    | _ => lines ++ js_lit " (" ++ formatSize DEFAULT_MAX_BYTES ++ js_lit " limit)" ++ full
    end.

Definition bash_output (progress : ShellCaptureProgress) : jsstr * BashDetails :=
  if tr_truncated (sp_truncation progress)
  then (sp_output progress ++ [LF; LF] ++ bash_notice progress, Some (sp_truncation progress, sp_fullOutputPath progress))
  else (sp_output progress, None).

Definition appendStatus (outputText status : jsstr) : jsstr :=
  (if bool_decide (outputText = []) then [] else outputText ++ [LF; LF]) ++ status.

Definition bash_result (timeout : option jsnum) (capture : ShellCaptureResult) : result BashError (jsstr * BashDetails) :=
  let '(outputText, details) := bash_output (sr_progress capture) in
  if sr_cancelled capture then Err (BashAborted (appendStatus outputText (js_lit "Command aborted"))) else
  match sr_executionError capture with
  | Some ee_timeout =>
      let seconds := match timeout with Some t => num_text t | None => js_lit "undefined" end in
      Err (BashTimedOut (appendStatus outputText (js_lit "Command timed out after " ++ seconds ++ js_lit " seconds")))
  | Some e => Err (BashExecution_ e)
  | None =>
      match sr_exitCode capture with
      | Some code =>
          if code =? 0 then Ok (if bool_decide (outputText = []) then js_lit "(no output)" else outputText, details)
          else Err (BashExited (appendStatus outputText (js_lit "Command exited with code " ++ num_text (NInt code))))
      | None => Ok (if bool_decide (outputText = []) then js_lit "(no output)" else outputText, details)
      end
  end.

(** What the call settles to once the capture has returned, and the updates sent. *)
Definition bash_returned {F} (onUpdate runtimeBuffer : bool) (timeout : option jsnum) (r : BashRun F) (aborted : bool) :
    option (result BashError (jsstr * BashDetails) * Throttle) :=
  match returned runtimeBuffer (b_run r) aborted true with
  | None => None
  | Some (Err e) => Some (Err (BashExecution_ e), clearUpdateTimer (b_throttle r))
  | Some (Ok capture) => Some (bash_result timeout capture, clearUpdateTimer (final_update onUpdate (b_now r) (sr_progress capture) (b_throttle r)))
  end.

(** * Properties

    What the bash tool tells: its updates are spaced and end with the whole output,
    and its answer is the end of the output, with the rest in a file. *)

(** The text of the chunks taken in. *)
Notation whole h := (h ≫= clean_chunk).

(** [p] is the progress of [text]: its last lines. *)
Definition shows (b : bool) (text : jsstr) (p : ShellCaptureProgress) : Prop :=
  let r := truncateTail b text no_options in sp_truncation p = r ∧ sp_output p = tr_content r.

Section bash.
Context (b : bool) {F : Type} `{HF : FileSystem F, HL : !FsLaws F, HT : !ToolFiles F, !ToolLaws F}.

Lemma runs_shows (f : F) h r : runs b f h r → shows b (whole h) (createProgress b (sh_capture r)).
Proof. intros H. destruct (runs_log b f h r H) as (cs & <- & Ht & _). by apply createProgress_spec. Qed.

(** ** What a capture returns *)

(** Once the chain has run, the file holds the whole text; without one, nothing was
    left out. *)
Lemma returned_spec (f : F) h r aborted returnErrors res :
  runs b f h r → returned b r aborted returnErrors = Some (Ok res) →
  shows b (whole h) (sr_progress res) ∧
  match sp_fullOutputPath (sr_progress res) with
  | Some p => files (sh_files r) !! p = Some (whole h)
  | None => within (whole h) no_options
  end.
Proof.
  intros Hr Hret. pose proof (runs_shows f h r Hr) as Hs. destruct (runs_log b f h r Hr) as (cs & Hcs & _ & Hlog).
  rewrite <- Hcs in *.
  unfold returned in Hret. destruct (sh_done r) as [[outcome|error]|]; [|done..].
  destruct (jobs (sh_capture r)) as [|] eqn:Ej; [|done]. injection Hret as Hret.
  unfold capture_result in Hret. revert Hlog. destruct (chain (sh_capture r)) as [[]|] eqn:Ec; [|done]. destruct (captureError (sh_capture r)) eqn:Ee; [done|].
  intros Hlog. specialize (Hlog Ec Ee). assert (sr_progress res = createProgress b (sh_capture r)) as ->.
  { destruct outcome; repeat case_match; by simplify_eq. }
  split; [done|]. cbn [createProgress sp_fullOutputPath]. destruct (fullOutputRequested (sh_capture r)).
  - destruct Hlog as [ts Hlog]. destruct (fullOutputPath (sh_capture r)) as [p|].
    + destruct Hlog as (t & [[? _]|[Hj Hf]] & Htext); [by rewrite Ej in *|]. rewrite Ej in Hj. destruct ts; [|done].
      rewrite Hf, <- Htext. by rewrite app_nil_r.
    + destruct Hlog as (t & ? & _). by rewrite Ej in *.
  - destruct Hlog as (-> & _ & _ & ?). done.
Qed.

(** The call returns: when the command has ended, once the writes that are left have
    run. *)
Lemma returned_settles (f : F) h c g outcome aborted returnErrors :
  runs b f h (mkRun c g (Some outcome)) →
  let s := run_jobs (sum_list_with job_awaits (jobs c)) c g in
  runs b f h (mkRun s.1 s.2 (Some outcome)) ∧ is_Some (returned b (mkRun s.1 s.2 (Some outcome)) aborted returnErrors).
Proof.
  intros Hr. cbn zeta. split.
  - generalize (sum_list_with job_awaits (jobs c)) as n. induction n as [|n IH]; [done|]. unfold run_jobs in *. rewrite !Nat.iter_succ.
    destruct (Nat.iter n _ _) as [c' g'] eqn:E. cbn [fst snd] in *. destruct (run_job c' g') as [c2 g2] eqn:Ej.
    rewrite <- (app_nil_r h). eapply runs_step; [done|]. by apply StepJob.
  - unfold returned. cbn. destruct outcome; [|by eexists]. rewrite run_jobs_dry by done. by eexists.
Qed.

(** ** The updates *)

Lemma bash_runs_runs onUpdate (f : F) h r : bash_runs onUpdate b f h r → runs b f h (b_run r).
Proof.
  induction 1 as [now _|h r l r' _ IH Hs]; [constructor|]. eapply runs_step in IH; [exact IH|].
  destruct Hs as [c g d t now chunk Ha Hok Hw|c g d t due now _ _|r t now r' Hs|r t now now' _]; cbn [b_run] in *.
  - rewrite <- (app_nil_r [chunk]). pose proof (StepChunk b c g d chunk None Hok Hw) as Hs. by rewrite Ha in Hs.
  - apply (StepOther b c g d g). done.
  - done.
  - destruct r as [c g d]. apply (StepOther b c g d g). done.
Qed.
(** Consecutive times are at least [n] apart. *)
Fixpoint spaced (n : Z) (ts : list Z) : Prop :=
  match ts with
  | t :: ((t' :: _) as rest) => t + n ≤ t' ∧ spaced n rest
  | _ => True
  end.

Lemma spaced_snoc n ts t : spaced n ts → (∀ u, last ts = Some u → u + n ≤ t) → spaced n (ts ++ [t]).
Proof.
  induction ts as [|x [|y ts] IH]; [done| |].
  - intros _ H. cbn. split; [by apply H|done].
  - intros [Hx Hs] H. cbn [app spaced]. split; [done|]. apply IH; [done|]. intros u Hu. apply H. done.
Qed.

(** The updates so far, for the chunks [h]: spaced, each the progress of some of the
    chunks, and a pending timer when the last one is not up to date. *)
Record updates_ok (h : list jsstr) (t : Throttle) (now : Z) : Prop := {
  uo_spaced : spaced BASH_UPDATE_THROTTLE_MS (updates t).*1;
  uo_last : match last (updates t) with Some u => u.1 = lastUpdateAt t | None => lastUpdateAt t = 0 end;
  uo_now : lastUpdateAt t ≤ now;
  uo_shows : Forall (λ u, ∃ h', h' `prefix_of` h ∧ shows b (whole h') u.2) (updates t);
  uo_timer : match updateTimer t with
             | Some due => due = lastUpdateAt t + BASH_UPDATE_THROTTLE_MS ∧ updateDirty t = true ∧ hasProgress t = true
             | None => updateDirty t = false ∧ (h = [] ∧ updates t = [] ∨ ∃ u, last (updates t) = Some u ∧ shows b (whole h) u.2)
             end;
}.

(** An update of everything, when it is time for it. *)
Lemma emit_ok h t now p :
  updates_ok h t now → lastUpdateAt t + BASH_UPDATE_THROTTLE_MS ≤ now →
  ∀ h', h `prefix_of` h' → shows b (whole h') p →
  updates_ok h' (mkThrottle true None false now (updates t ++ [(now, p)])) now.
Proof.
  intros [H1 H2 H3 H4 H5] Hlate h' Hpre Hp. split; cbn [updates lastUpdateAt updateTimer updateDirty].
  - rewrite fmap_app. apply spaced_snoc; [done|]. intros u Hu. rewrite fmap_last in Hu.
    destruct (last (updates t)) as [v|]; [|done]. injection Hu as <-. rewrite H2. done.
  - by rewrite last_snoc.
  - done.
  - apply Forall_app; split; [|apply Forall_singleton; by exists h'].
    eapply Forall_impl; [done|]. intros u (h0 & Hh0 & Hs). exists h0. split; [by etrans|done].
  - split; [done|]. right. exists (now, p). by rewrite last_snoc.
Qed.

Lemma chunk_update_ok h t now p chunk :
  updates_ok h t now → shows b (whole (h ++ [chunk])) p → updates_ok (h ++ [chunk]) (chunk_update true now p t) now.
Proof.
  intros Hok Hp. unfold chunk_update, scheduleOutputUpdate. cbn.
  assert (h `prefix_of` h ++ [chunk]) as Hpre by by apply prefix_app_r.
  destruct (Z.leb_spec (BASH_UPDATE_THROTTLE_MS - (now - lastUpdateAt t)) 0) as [Hlate|Hsoon].
  - unfold emitOutputUpdate, clearUpdateTimer. cbn. eapply emit_ok; try done. lia.
  - destruct Hok as [H1 H2 H3 H4 H5]. split; cbn; [done..| |].
    + eapply Forall_impl; [done|]. intros u (h0 & Hh0 & Hs). exists h0. split; [by etrans|done].
    + destruct (updateTimer t) as [due|]; [naive_solver|]. split_and!; [lia|done|done].
Qed.

Lemma timer_update_ok h t now p due :
  updates_ok h t now → updateTimer t = Some due → due ≤ now → shows b (whole h) p → updates_ok h (timer_update true now p t) now.
Proof.
  intros Hok Et Hdue Hp. unfold timer_update, emitOutputUpdate, clearUpdateTimer. cbn.
  pose proof (uo_timer _ _ _ Hok) as Ht. rewrite Et in Ht. destruct Ht as (-> & Hd & Hh). rewrite Hd, Hh. cbn.
  by eapply emit_ok.
Qed.

Lemma updates_time h t now now' : updates_ok h t now → now ≤ now' → updates_ok h t now'.
Proof. intros [H1 H2 H3 H4 H5] Hn. split; try done. lia. Qed.

Lemma bash_updates_ok (f : F) h r : bash_runs true b f h r → updates_ok h (b_throttle r) (b_now r).
Proof.
  induction 1 as [now Hn|h r l r' Hr IH Hs]; [split; cbn; try done; by auto|].
  pose proof (runs_shows f _ _ (bash_runs_runs true f _ _ (bash_runs_step _ _ _ _ _ _ _ Hr Hs))) as Hshow.
  destruct Hs as [c g d t now chunk Ha Hok Hw|c g d t due now Ht Hdue|r t now r' Hs|r t now now' Hn]; cbn [b_throttle b_now b_run sh_capture] in *.
  - by apply chunk_update_ok.
  - rewrite app_nil_r in *. by eapply timer_update_ok.
  - by rewrite app_nil_r.
  - rewrite app_nil_r. by eapply updates_time.
Qed.
End bash.
