(* ===== verification/JsonlCodec.v ===== *)
(** The line format of session files: [harness/session/jsonl/codec.ts] and
    [errors.ts].

    A line is decoded to JavaScript objects the codec only inspects in part, so
    entries and records are their property lists here; SessionView.v reads them
    as the session's data types.  [None] is the value [undefined] of an absent
    property. *)
From S2P Require Import Prelude JsValue JsMap Json.
Open Scope Z_scope.

Notation obj := (list (jsstr * tree)).

#[global] Arguments js_lit _ : simpl never.

Inductive decode_kind := syntax | schema.

#[export] Instance decode_kind_eq_dec : EqDecision decode_kind.
Proof. solve_decision. Defined.

(** [JsonlDecodeError]: its kind and the words of its message. *)
Inductive JsonlDecodeError := DecodeError (kind : decode_kind) (message : string).

Notation decoded := (result JsonlDecodeError).
Notation bad message := (Err (DecodeError schema message)).

(** Reading [value.name]. *)
Definition field (o : obj) (name : string) : option tree := map_get o (js_lit name).

Definition ENTRY_TYPES : list string :=
  ["message"; "model_change"; "thinking_level_change"; "active_tools_change"; "compaction"; "branch_summary"; "custom"].
Definition RECORD_TYPES : list string :=
  ["operation_started"; "abort_requested"; "operation_finished"; "step_attempt"; "tool_started"; "queue_enqueued";
   "queue_cancelled"; "write_deferred"; "usage"].
Definition OPERATION_KINDS : list string := ["run"; "compaction"; "navigation"].

Definition has (names : list string) (s : jsstr) : bool := bool_decide (s ∈ js_lit <$> names).

Definition isObject (v : option tree) : option obj :=
  match v with Some (TMap o) => Some o | _ => None end.

Definition parseObject (line : jsstr) : decoded obj :=
  match JSON_parse line with
  | None => Err (DecodeError syntax "is not valid JSON")
  | Some value =>
      match isObject (Some value) with
      | None => bad "is not a JSON object"
      | Some o => Ok o
      end
  end.

Definition requireString (v : option tree) (name : string) : decoded jsstr :=
  match v with Some (TText s) => Ok s | _ => bad name end.

(** The comparison [(value as number) <= 0] of a safe integer. *)
Definition requireSequence (v : option tree) : decoded Z :=
  match v with
  | Some (TNum n) =>
      if negb (isSafeInteger n) then bad "seq" else
      match n with NInt z => if z <=? 0 then bad "seq" else Ok z | _ => bad "seq" end
  | _ => bad "seq"
  end.

(** [-0] is a safe integer that is not less than 0. *)
Definition requireTimestamp (v : option tree) : decoded jsnum :=
  match v with
  | Some (TNum n) =>
      if negb (isSafeInteger n) then bad "timestamp" else
      match n with NInt z => if z <? 0 then bad "timestamp" else Ok n | _ => Ok n end
  | _ => bad "timestamp"
  end.

Definition requireNullableId (v : option tree) (name : string) : decoded (option jsstr) :=
  match v with
  | Some TNull => Ok None
  | Some (TText s) => Ok (Some s)
  | _ => bad name
  end.

(** A property that is a string or absent. *)
Definition optionalString (v : option tree) (name : string) : decoded (option jsstr) :=
  match v with
  | None => Ok None
  | Some (TText s) => Ok (Some s)
  | Some _ => bad name
  end.

(** ** The header *)

Record JsonlV4Header := mkHeader {
  h_id : jsstr;
  h_createdAt : jsnum;
  h_cwd : jsstr;
  h_parentSessionId : option jsstr;
  h_legacyParentSessionPath : option jsstr;
  h_metadata : option obj;
}.

Definition is_text (v : option tree) (s : string) : bool :=
  match v with Some (TText t) => bool_decide (t = js_lit s) | _ => false end.

Definition decodeHeader (line : jsstr) : decoded JsonlV4Header :=
  let* value := parseObject line in
  if negb (is_text (field value "kind") "header") then bad "is not a header" else
  if negb (match field value "version" with Some (TNum n) => bool_decide (n = NInt 4) | _ => false end)
  then bad "has unsupported session version" else
  let* parentSessionId := optionalString (field value "parentSessionId") "parentSessionId" in
  let* legacy := optionalString (field value "legacyParentSessionPath") "legacyParentSessionPath" in
  if bool_decide (parentSessionId ≠ None) && bool_decide (legacy ≠ None)
  then bad "has both parentSessionId and legacyParentSessionPath" else
  let* metadata :=
    match field value "metadata" with
    | None => Ok None
    | Some v => match isObject (Some v) with Some o => Ok (Some o) | None => bad "metadata" end
    end in
  let* id := requireString (field value "id") "id" in
  let* createdAt := requireTimestamp (field value "createdAt") in
  let* cwd := requireString (field value "cwd") "cwd" in
  Ok (mkHeader id createdAt cwd parentSessionId legacy metadata).

(** The [Result] of the decoder: it throws nothing but [JsonlDecodeError]. *)
Definition parseHeader (line : jsstr) : decoded JsonlV4Header := decodeHeader line.

(** A property written only when it is defined. *)
Definition opt_prop {A} (name : string) (f : A → tree) (v : option A) : obj :=
  match v with None => [] | Some a => [(js_lit name, f a)] end.

Definition header_object (h : JsonlV4Header) : obj :=
  [(js_lit "kind", TText (js_lit "header")); (js_lit "version", TNum (NInt 4)); (js_lit "id", TText (h_id h));
   (js_lit "createdAt", TNum (h_createdAt h)); (js_lit "cwd", TText (h_cwd h))] ++
  opt_prop "parentSessionId" TText (h_parentSessionId h) ++
  opt_prop "legacyParentSessionPath" TText (h_legacyParentSessionPath h) ++
  opt_prop "metadata" TMap (h_metadata h).

Definition newline : Z := 0x0a.

Definition encodeHeader (h : JsonlV4Header) : jsstr := JSON_stringify (TMap (header_object h)) ++ [newline].

Record JsonlSessionMetadata := mkJsonlMetadata {
  jm_id : jsstr;
  jm_createdAt : jsnum;
  jm_cwd : jsstr;
  jm_path : jsstr;
  jm_modifiedAt : Z;
  jm_sourceFormat : Z;
  jm_parentSessionId : option jsstr;
  jm_legacyParentSessionPath : option jsstr;
  jm_metadata : option obj;
}.

Definition metadataFromHeader (h : JsonlV4Header) (path : jsstr) (modifiedAt : Z) : JsonlSessionMetadata :=
  mkJsonlMetadata (h_id h) (h_createdAt h) (h_cwd h) path modifiedAt 4 (h_parentSessionId h)
    (h_legacyParentSessionPath h) (h_metadata h).

(** ** Mutations *)

(** A [SessionMutation] whose entry or record is a JavaScript object. *)
Inductive LineMutation :=
| LineEntry (lane : option jsstr) (entry : obj)
| LineRecord (record : obj)
| LineLane (seq : Z) (lane : jsstr) (leafId : option jsstr)
| LineName (seq : Z) (name : option jsstr)
| LineLabel (seq : Z) (targetId : jsstr) (label : option jsstr).

(** Object rest and spread: [{ a, b, ...rest } = value] and [{ ...base, ...o }]. *)
Definition omit (names : list string) (o : obj) : obj := filter (λ e, e.1 ∉ js_lit <$> names) o.
Definition spread (base o : obj) : obj := foldl (λ acc e, set_prop e.1 e.2 acc) base o.

Definition nullable (id : option jsstr) : tree := match id with None => TNull | Some s => TText s end.

Definition parseEntryMutation (value : obj) (seq : Z) : decoded LineMutation :=
  let* lane :=
    match field value "lane" with
    | None => Ok None
    | Some v => let* s := requireString (Some v) "lane" in Ok (Some s)
    end in
  let* id := requireString (field value "id") "id" in
  let* type := requireString (field value "type") "entry type" in
  if negb (has ENTRY_TYPES type) then bad "has unknown entry type" else
  let* parentId := requireNullableId (field value "parentId") "parentId" in
  let* timestamp := requireTimestamp (field value "timestamp") in
  let* _ := if bool_decide (type = js_lit "custom")
            then let* _ := requireString (field value "customType") "customType" in Ok tt else Ok tt in
  Ok (LineEntry lane
        (spread (omit ["kind"; "lane"] value)
           [(js_lit "id", TText id); (js_lit "type", TText type); (js_lit "parentId", nullable parentId);
            (js_lit "seq", TNum (NInt seq)); (js_lit "timestamp", TNum timestamp)])).

Definition checkIntent (value : obj) : decoded unit :=
  match isObject (field value "intent") with
  | None => bad "intent"
  | Some intent =>
      let* operationKind := requireString (field intent "kind") "operation kind" in
      if negb (has OPERATION_KINDS operationKind) then bad "has unknown operation kind" else Ok tt
  end.

Definition parseRecordMutation (value : obj) (seq : Z) : decoded LineMutation :=
  let* id := requireString (field value "id") "id" in
  let* lane := requireString (field value "lane") "lane" in
  let* type := requireString (field value "type") "record type" in
  if negb (has RECORD_TYPES type) then bad "has unknown record type" else
  let* timestamp := requireTimestamp (field value "timestamp") in
  let* _ := if bool_decide (type = js_lit "operation_started") then checkIntent value else Ok tt in
  let* _ := if bool_decide (type = js_lit "operation_finished")
            then let* _ := requireString (field value "runId") "runId" in Ok tt else Ok tt in
  Ok (LineRecord
        (spread (omit ["kind"] value)
           [(js_lit "id", TText id); (js_lit "lane", TText lane); (js_lit "type", TText type);
            (js_lit "seq", TNum (NInt seq)); (js_lit "timestamp", TNum timestamp)])).

Definition parseLaneMutation (value : obj) (seq : Z) : decoded LineMutation :=
  let* lane := requireString (field value "lane") "lane" in
  let* leafId := requireNullableId (field value "leafId") "leafId" in
  Ok (LineLane seq lane leafId).

Definition parseFactMutation (value : obj) (seq : Z) : decoded LineMutation :=
  if is_text (field value "fact") "name" then
    let* name := optionalString (field value "name") "name" in Ok (LineName seq name)
  else if is_text (field value "fact") "label" then
    let* label := optionalString (field value "label") "label" in
    let* targetId := requireString (field value "targetId") "targetId" in
    Ok (LineLabel seq targetId label)
  else bad "has unknown fact type".

Definition decodeMutation (line : jsstr) : decoded LineMutation :=
  let* value := parseObject line in
  let* seq := requireSequence (field value "seq") in
  if is_text (field value "kind") "entry" then parseEntryMutation value seq
  else if is_text (field value "kind") "record" then parseRecordMutation value seq
  else if is_text (field value "kind") "lane" then parseLaneMutation value seq
  else if is_text (field value "kind") "fact" then parseFactMutation value seq
  else bad "has unknown mutation kind".

Definition parseMutation (line : jsstr) : decoded LineMutation := decodeMutation line.

(** The object a mutation is written as. *)
Definition mutation_object (m : LineMutation) : obj :=
  match m with
  | LineEntry lane entry => spread ((js_lit "kind", TText (js_lit "entry")) :: opt_prop "lane" TText lane) entry
  | LineRecord record => spread [(js_lit "kind", TText (js_lit "record"))] record
  | LineLane seq lane leafId =>
      [(js_lit "kind", TText (js_lit "lane")); (js_lit "seq", TNum (NInt seq)); (js_lit "lane", TText lane);
       (js_lit "leafId", nullable leafId)]
  | LineName seq name =>
      [(js_lit "kind", TText (js_lit "fact")); (js_lit "seq", TNum (NInt seq)); (js_lit "fact", TText (js_lit "name"))] ++
      opt_prop "name" TText name
  | LineLabel seq targetId label =>
      [(js_lit "kind", TText (js_lit "fact")); (js_lit "seq", TNum (NInt seq)); (js_lit "fact", TText (js_lit "label"));
       (js_lit "targetId", TText targetId)] ++
      opt_prop "label" TText label
  end.

Definition encodeMutation (m : LineMutation) : jsstr := JSON_stringify (TMap (mutation_object m)) ++ [newline].
