(* ===== verification/JsonlCodecSpec.v ===== *)
(** Session lines: what the codec accepts is well typed, and what it writes it
    reads back. *)
From S2P Require Import Prelude JsValue JsMap Json JsonSpec JsonlCodec.
Open Scope Z_scope.

(** ** Properties of objects *)

(** Decides that two literal property names differ. *)
Ltac name_ne := let H := fresh in intros H; vm_compute in H; discriminate H.

Lemma field_cons_eq n v o : field ((js_lit n, v) :: o) n = Some v.
Proof. unfold field. cbn [map_get]. by rewrite bool_decide_eq_true_2. Qed.

Lemma field_cons_ne n n' v o : js_lit n' ≠ js_lit n → field ((js_lit n', v) :: o) n = field o n.
Proof. intros H. unfold field. cbn [map_get]. by rewrite bool_decide_eq_false_2. Qed.

(** Evaluates [field] on an object whose first names are literals. *)
Ltac fields := repeat first [rewrite field_cons_eq | rewrite field_cons_ne by name_ne].

Lemma map_get_define k (v : tree) o k' :
  k ∉ o.*1 → map_get (define_prop k v o) k' = if bool_decide (k = k') then Some v else map_get o k'.
Proof.
  induction o as [|[k1 v1] o IH]; [done|]. rewrite fmap_cons. intros [Hne Hk]%not_elem_of_cons.
  cbn [define_prop]. destruct (key_before k k1); [done|]. cbn [map_get]. rewrite IH by done.
  cbn [fst] in Hne. repeat case_bool_decide; congruence.
Qed.

Lemma map_get_overwrite k (v : tree) (o : obj) k' :
  map_get ((λ e, if bool_decide (e.1 = k) then (k, v) else e) <$> o) k' =
  if bool_decide (k = k') then (if bool_decide (k ∈ o.*1) then Some v else None) else map_get o k'.
Proof.
  induction o as [|[k1 v1] o IH]; [by case_bool_decide|]. rewrite !fmap_cons. cbn [fst map_get].
  destruct (decide (k1 = k)) as [->|Hne].
  - rewrite (bool_decide_eq_true_2 (k = k)), (bool_decide_eq_true_2 (k ∈ k :: _)) by (done || left).
    cbn [map_get]. rewrite IH. by case_bool_decide.
  - rewrite (bool_decide_eq_false_2 (k1 = k)) by done. cbn [map_get]. rewrite IH.
    destruct (decide (k = k')) as [->|Hne'].
    + rewrite !(bool_decide_eq_false_2 (k1 = k')) by done. rewrite !(bool_decide_eq_true_2 (k' = k')) by done.
      erewrite bool_decide_ext; [done|]. rewrite elem_of_cons. naive_solver.
    + by rewrite !(bool_decide_eq_false_2 (k = k')) by done.
Qed.

Lemma map_get_set_prop k v (o : obj) k' :
  map_get (set_prop k v o) k' = if bool_decide (k = k') then Some v else map_get o k'.
Proof.
  unfold set_prop. destruct (decide (k ∈ o.*1)) as [Hin|Hin].
  - rewrite bool_decide_eq_true_2, map_get_overwrite by done. by rewrite (bool_decide_eq_true_2 (k ∈ o.*1)).
  - rewrite bool_decide_eq_false_2 by done. by apply map_get_define.
Qed.

Lemma field_set_prop k v o n :
  field (set_prop (js_lit k) v o) n = if bool_decide (js_lit k = js_lit n) then Some v else field o n.
Proof. apply map_get_set_prop. Qed.

(** Writing the value a property has changes nothing. *)
Lemma set_prop_same k v o : NoDup o.*1 → map_get o k = Some v → set_prop k v o = o.
Proof.
  intros Hnd Hk. unfold set_prop. rewrite bool_decide_eq_true_2.
  - apply map_get_Some_elem in Hk. rewrite <- (list_fmap_id o) at 2. apply list_fmap_ext.
    intros i [k' v'] Hi. cbn. case_bool_decide as E; [|done]. subst.
    apply list_elem_of_lookup_2 in Hi. apply (map_get_elem o k v) in Hk; [|done].
    apply (map_get_elem o k v') in Hi; [|done]. congruence.
  - apply map_get_Some_elem in Hk. apply list_elem_of_fmap. by exists (k, v).
Qed.

Lemma spread_same o props :
  NoDup o.*1 → Forall (λ e, map_get o e.1 = Some e.2) props → spread o props = o.
Proof.
  intros Hnd H. unfold spread. induction H as [|e props He _ IH]; [done|]. cbn. by rewrite set_prop_same.
Qed.

(** Names that are not array indices keep their order of creation. *)
Definition plain (k : jsstr) : bool := bool_decide (array_index k = None).

Lemma keys_ok_plain ks : NoDup ks → forallb plain ks = true → keys_ok ks = true.
Proof.
  induction 1 as [|k ks Hk _ IH]; [done|]. cbn [forallb]. intros [_ Hp]%andb_true_iff.
  apply keys_ok_cons. split; [|auto]. intros k' Hk'. split; [|by intros ->].
  rewrite forallb_forall in Hp. specialize (Hp k'). unfold plain in Hp. rewrite bool_decide_eq_true in Hp.
  unfold key_before. rewrite Hp by (by apply list_elem_of_In). done.
Qed.

Lemma spread_plain base o :
  NoDup (base ++ o).*1 → forallb plain (base ++ o).*1 = true → spread base o = base ++ o.
Proof.
  revert base. induction o as [|[k v] o IH]; intros base Hnd Hp; [by rewrite app_nil_r|].
  unfold spread in *. cbn [foldl fst snd].
  rewrite set_prop_new.
  - replace (base ++ (k, v) :: o) with ((base ++ [(k, v)]) ++ o) in * by (by rewrite <- app_assoc). by apply IH.
  - pose proof (keys_ok_plain _ Hnd Hp) as Hk. rewrite fmap_app in Hk. apply keys_ok_app in Hk as (_ & _ & Hk).
    intros k' Hk'. apply Hk; [done|]. left.
Qed.

(** ** Typing *)

Definition is_string (v : option tree) : bool := match v with Some (TText _) => true | _ => false end.
Definition is_nullable (v : option tree) : bool := match v with Some (TText _) | Some TNull => true | _ => false end.

(** A timestamp: a safe integer that is not negative. *)
Definition timestamp_ok (n : jsnum) : bool :=
  match n with NInt z => (0 <=? z) && (z <=? MAX_SAFE) | NNegZero => true | _ => false end.
Definition is_timestamp (v : option tree) : bool := match v with Some (TNum n) => timestamp_ok n | _ => false end.
Definition seq_ok (z : Z) : bool := (0 <? z) && (z <=? MAX_SAFE).
Definition is_seq (v : option tree) (z : Z) : bool :=
  match v with Some (TNum (NInt z')) => (z' =? z) && seq_ok z | _ => false end.
Definition one_of (v : option tree) (names : list string) : bool :=
  match v with Some (TText s) => has names s | _ => false end.

(** The envelope the code relies on after the cast to [Entry]. *)
Definition entry_typed (seq : Z) (e : obj) : bool :=
  is_string (field e "id") && one_of (field e "type") ENTRY_TYPES && is_nullable (field e "parentId") &&
  is_seq (field e "seq") seq && is_timestamp (field e "timestamp") &&
  implb (is_text (field e "type") "custom") (is_string (field e "customType")).

Definition intent_typed (r : obj) : bool :=
  match field r "intent" with Some (TMap i) => one_of (field i "kind") OPERATION_KINDS | _ => false end.

Definition record_typed (seq : Z) (r : obj) : bool :=
  is_string (field r "id") && is_string (field r "lane") && one_of (field r "type") RECORD_TYPES &&
  is_seq (field r "seq") seq && is_timestamp (field r "timestamp") &&
  implb (is_text (field r "type") "operation_started") (intent_typed r) &&
  implb (is_text (field r "type") "operation_finished") (is_string (field r "runId")).

Definition obj_seq (o : obj) : Z := match field o "seq" with Some (TNum (NInt z)) => z | _ => 0 end.

Definition line_seq (m : LineMutation) : Z :=
  match m with
  | LineEntry _ e => obj_seq e
  | LineRecord r => obj_seq r
  | LineLane seq _ _ | LineName seq _ | LineLabel seq _ _ => seq
  end.

Definition line_typed (m : LineMutation) : bool :=
  seq_ok (line_seq m) &&
  match m with
  | LineEntry _ e => entry_typed (line_seq m) e
  | LineRecord r => record_typed (line_seq m) r
  | LineLane _ _ _ | LineName _ _ | LineLabel _ _ _ => true
  end.

Lemma requireString_Ok v n s : requireString v n = Ok s → v = Some (TText s).
Proof. destruct v as [[]|]; cbn; congruence. Qed.

Lemma requireNullableId_Ok v n s : requireNullableId v n = Ok s → v = Some (nullable s).
Proof. destruct v as [[]|]; cbn; try done; by intros [= <-]. Qed.

Lemma requireTimestamp_Ok v n : requireTimestamp v = Ok n → v = Some (TNum n) ∧ timestamp_ok n = true.
Proof.
  unfold requireTimestamp. destruct v as [[]|]; try done.
  destruct (isSafeInteger n0) eqn:E; [|done]. cbn [negb]. destruct n0; try done.
  - cbn in E. destruct (Z.ltb_spec z 0); [done|]. intros [= <-]. cbn. split; [done|]. lia.
  - by intros [= <-].
Qed.

Lemma requireSequence_Ok v z : requireSequence v = Ok z → v = Some (TNum (NInt z)) ∧ seq_ok z = true.
Proof.
  unfold requireSequence. destruct v as [[]|]; try done.
  destruct (isSafeInteger n) eqn:E; [|done]. cbn [negb]. destruct n; try done.
  cbn in E. destruct (Z.leb_spec z0 0); [done|]. intros [= <-]. split; [done|]. unfold seq_ok. lia.
Qed.

Lemma checkIntent_Ok o u : checkIntent o = Ok u → intent_typed o = true.
Proof.
  unfold checkIntent, intent_typed, isObject. destruct (field o "intent") as [[]|]; try done.
  intros (k & ->%requireString_Ok & H)%rbind_Ok. cbn. by destruct (has OPERATION_KINDS k).
Qed.

(** The fields an object has after the final overwrite. *)
Ltac spread_fields :=
  unfold spread; cbn [foldl fst snd]; rewrite !field_set_prop;
  repeat match goal with |- context [bool_decide (js_lit ?a = js_lit ?b)] =>
    first [rewrite (bool_decide_eq_true_2 (js_lit a = js_lit b)) by reflexivity
          |rewrite (bool_decide_eq_false_2 (js_lit a = js_lit b)) by name_ne] end.

Lemma field_omit names o n : js_lit n ∉ js_lit <$> names → field (omit names o) n = field o n.
Proof.
  intros Hn. unfold field, omit. induction o as [|[k v] o IH]; [done|]. rewrite filter_cons. cbn [fst].
  case_decide as Hk; cbn [map_get]; rewrite IH; [done|].
  rewrite bool_decide_eq_false_2; [done|]. by intros ->.
Qed.

Lemma parseEntry_typed o seq m :
  parseEntryMutation o seq = Ok m → field o "seq" = Some (TNum (NInt seq)) → seq_ok seq = true → line_typed m = true.
Proof.
  unfold parseEntryMutation. intros H Hseq Hok.
  apply rbind_Ok in H as (lane & _ & H). apply rbind_Ok in H as (id & Hid%requireString_Ok & H).
  apply rbind_Ok in H as (type & Htype%requireString_Ok & H). destruct (has ENTRY_TYPES type) eqn:Et; [|done].
  cbn [negb] in H. apply rbind_Ok in H as (parent & Hparent & H).
  apply rbind_Ok in H as (ts & [Hts Htso]%requireTimestamp_Ok & H). apply rbind_Ok in H as (u & Hc & [= <-]).
  unfold line_typed, line_seq, entry_typed, obj_seq. spread_fields.
  rewrite field_omit by decide_now. cbn. rewrite Z.eqb_refl, Hok, Et, Htso.
  assert (is_nullable (Some (nullable parent)) = true) as Hn by (by destruct parent).
  cbn in Hn. rewrite Hn. cbn.
  case_bool_decide as Ec; [|done]. apply rbind_Ok in Hc as (ct & ->%requireString_Ok & _). done.
Qed.

Lemma parseRecord_typed o seq m :
  parseRecordMutation o seq = Ok m → seq_ok seq = true → line_typed m = true.
Proof.
  unfold parseRecordMutation. intros H Hok.
  apply rbind_Ok in H as (id & Hid%requireString_Ok & H). apply rbind_Ok in H as (lane & Hlane%requireString_Ok & H).
  apply rbind_Ok in H as (type & Htype%requireString_Ok & H). destruct (has RECORD_TYPES type) eqn:Et; [|done].
  cbn [negb] in H. apply rbind_Ok in H as (ts & [Hts Htso]%requireTimestamp_Ok & H).
  apply rbind_Ok in H as (u & Hi & H). apply rbind_Ok in H as (u' & Hf & [= <-]).
  unfold line_typed, line_seq, record_typed, obj_seq, intent_typed. spread_fields.
  rewrite !field_omit by decide_now. cbn. rewrite Z.eqb_refl, Hok, Et, Htso. cbn.
  apply andb_true_iff. split.
  - destruct (bool_decide (type = js_lit "operation_started")); [|done]. apply checkIntent_Ok in Hi. exact Hi.
  - destruct (bool_decide (type = js_lit "operation_finished")); [|done]. apply rbind_Ok in Hf as (r & ->%requireString_Ok & _). done.
Qed.

(** Every line the codec accepts has the envelope the session state relies on. *)
Lemma parseMutation_typed line m : parseMutation line = Ok m → line_typed m = true.
Proof.
  unfold parseMutation, decodeMutation. intros H. apply rbind_Ok in H as (o & _ & H).
  apply rbind_Ok in H as (seq & [Hseq Hok]%requireSequence_Ok & H).
  destruct (is_text _ "entry"); [by eapply parseEntry_typed|].
  destruct (is_text _ "record"); [by eapply parseRecord_typed|].
  assert (∀ m, line_seq m = seq → match m with LineEntry _ _ | LineRecord _ => False | _ => True end →
    line_typed m = true) as Hrest.
  { intros m' <- Hm. unfold line_typed. rewrite Hok. by destruct m'. }
  destruct (is_text _ "lane").
  { apply rbind_Ok in H as (lane & _ & H). apply rbind_Ok in H as (leaf & _ & [= <-]). by apply Hrest. }
  destruct (is_text _ "fact"); [|done]. unfold parseFactMutation in H.
  destruct (is_text _ "name"); [by apply rbind_Ok in H as (n & _ & [= <-]); apply Hrest|].
  destruct (is_text _ "label"); [|done].
  apply rbind_Ok in H as (l & _ & H). apply rbind_Ok in H as (t & _ & [= <-]). by apply Hrest.
Qed.

(** *** Which lines are accepted *)

Definition is_optional (v : option tree) : bool := match v with None | Some (TText _) => true | _ => false end.

(** What the codec asks of the object of a line, by its kind. *)
Definition accepted (o : obj) : bool :=
  is_seq (field o "seq") (obj_seq o) &&
  (if is_text (field o "kind") "entry" then is_optional (field o "lane") && entry_typed (obj_seq o) o
   else if is_text (field o "kind") "record" then record_typed (obj_seq o) o
   else if is_text (field o "kind") "lane" then is_string (field o "lane") && is_nullable (field o "leafId")
   else if is_text (field o "kind") "fact" then
     if is_text (field o "fact") "name" then is_optional (field o "name")
     else is_text (field o "fact") "label" && is_optional (field o "label") && is_string (field o "targetId")
   else false).

Definition ok {E A} (r : result E A) : bool := match r with Ok _ => true | Err _ => false end.

Lemma ok_bind {E A B} (r : result E A) (k : A → result E B) : ok (let* x := r in k x) = match r with Ok x => ok (k x) | Err _ => false end.
Proof. by destruct r. Qed.

Lemma ok_string v n : ok (requireString v n) = is_string v.
Proof. by destruct v as [[]|]. Qed.
Lemma ok_nullable v n : ok (requireNullableId v n) = is_nullable v.
Proof. by destruct v as [[]|]. Qed.
Lemma ok_optional v n : ok (optionalString v n) = is_optional v.
Proof. by destruct v as [[]|]. Qed.
Lemma ok_timestamp v : ok (requireTimestamp v) = is_timestamp v.
Proof.
  unfold requireTimestamp, is_timestamp. destruct v as [[| |n| | | |]|]; try done. destruct n; try done. unfold timestamp_ok, isSafeInteger.
  destruct (Z.leb_spec (Z.abs z) MAX_SAFE), (Z.ltb_spec z 0), (Z.leb_spec 0 z), (Z.leb_spec z MAX_SAFE); cbn; try done; try lia.
  all: destruct (Z.ltb_spec z 0); cbn; (done || lia).
Qed.
Lemma ok_seq v : ok (requireSequence v) = match v with Some (TNum (NInt z)) => seq_ok z | _ => false end.
Proof.
  unfold requireSequence. destruct v as [[| |n| | | |]|]; try done. destruct n; try done. unfold seq_ok, isSafeInteger.
  destruct (Z.leb_spec (Z.abs z) MAX_SAFE), (Z.ltb_spec 0 z), (Z.leb_spec z MAX_SAFE); cbn; try done; try lia.
  all: destruct (Z.leb_spec z 0); cbn; (done || lia).
Qed.

(** A step of a decoder that goes on whatever it read. *)
Lemma ok_then {E A} (r : result E A) (b : A → bool) (c : bool) :
  (∀ x, r = Ok x → b x = c) → match r with Ok x => b x | Err _ => false end = ok r && c.
Proof. intros H. destruct r; [by rewrite (H a)|done]. Qed.

Lemma ok_entry o seq : ok (parseEntryMutation o seq) =
  is_optional (field o "lane") && (is_string (field o "id") && one_of (field o "type") ENTRY_TYPES && is_nullable (field o "parentId") &&
    is_timestamp (field o "timestamp") && implb (is_text (field o "type") "custom") (is_string (field o "customType"))).
Proof.
  unfold parseEntryMutation. rewrite ok_bind.
  assert (ok (match field o "lane" with None => Ok None | Some v => let* s := requireString (Some v) "lane" in Ok (Some s) end) = is_optional (field o "lane"))
    as <- by (by destruct (field o "lane") as [[]|]).
  apply ok_then. intros lane _. rewrite ok_bind, <- ok_string with (n := "id"), <- !andb_assoc. apply ok_then. intros id _.
  rewrite ok_bind. destruct (field o "type") as [[| | |type| | |]|]; try done. cbn [requireString one_of is_text]. destruct (has ENTRY_TYPES type); [|done]. cbn [negb andb].
  rewrite ok_bind, <- ok_nullable with (n := "parentId"). apply ok_then. intros parent _. rewrite ok_bind, <- ok_timestamp. apply ok_then. intros ts _.
  rewrite ok_bind. case_bool_decide; [|done]. cbn [implb]. by destruct (field o "customType") as [[]|].
Qed.

Lemma ok_intent o : ok (checkIntent o) = intent_typed o.
Proof.
  unfold checkIntent, intent_typed, isObject. destruct (field o "intent") as [[| | | | | |i]|]; try done. rewrite ok_bind.
  destruct (field i "kind") as [[]|]; try done. cbn. by destruct (has OPERATION_KINDS _).
Qed.

Lemma ok_record o seq : ok (parseRecordMutation o seq) =
  is_string (field o "id") && is_string (field o "lane") && one_of (field o "type") RECORD_TYPES && is_timestamp (field o "timestamp") &&
  implb (is_text (field o "type") "operation_started") (intent_typed o) && implb (is_text (field o "type") "operation_finished") (is_string (field o "runId")).
Proof.
  unfold parseRecordMutation. rewrite ok_bind, <- ok_string with (n := "id"), <- !andb_assoc. apply ok_then. intros id _.
  rewrite ok_bind, <- ok_string with (n := "lane"). apply ok_then. intros lane _.
  rewrite ok_bind. destruct (field o "type") as [[| | |type| | |]|]; try done. cbn [requireString one_of is_text]. destruct (has RECORD_TYPES type); [|done]. cbn [negb andb].
  rewrite ok_bind, <- ok_timestamp. apply ok_then. intros ts _. rewrite ok_bind.
  assert (ok (if bool_decide (type = js_lit "operation_started") then checkIntent o else Ok tt) = implb (bool_decide (type = js_lit "operation_started")) (intent_typed o))
    as <- by (case_bool_decide; cbn [implb]; [apply ok_intent|done]).
  apply ok_then. intros _ _. rewrite ok_bind. case_bool_decide; [|done]. cbn [implb]. by destruct (field o "runId") as [[]|].
Qed.

Lemma parse_accepts line : ok (parseMutation line) = match JSON_parse line with Some (TMap o) => accepted o | _ => false end.
Proof.
  unfold parseMutation, decodeMutation, parseObject. destruct (JSON_parse line) as [[| | | | | |o]|]; try done. cbn [isObject rbind]. unfold accepted.
  assert (Hseq : ∀ z, field o "seq" = Some (TNum (NInt z)) → obj_seq o = z) by (intros z E; unfold obj_seq; by rewrite E).
  assert (ok (requireSequence (field o "seq")) = is_seq (field o "seq") (obj_seq o)) as <-.
  { rewrite ok_seq. unfold is_seq, obj_seq. destruct (field o "seq") as [[| |n| | | |]|]; try done. destruct n; try done. by rewrite Z.eqb_refl. }
  rewrite ok_bind. apply ok_then. intros seq [Hf Hs]%requireSequence_Ok. rewrite (Hseq _ Hf).
  assert (is_seq (field o "seq") seq = true) as Hok by (rewrite Hf; cbn; by rewrite Z.eqb_refl).
  destruct (is_text (field o "kind") "entry"); [rewrite ok_entry; unfold entry_typed; by rewrite Hok, andb_true_r|].
  destruct (is_text (field o "kind") "record"); [rewrite ok_record; unfold record_typed; by rewrite Hok, andb_true_r|].
  destruct (is_text (field o "kind") "lane").
  { unfold parseLaneMutation. rewrite ok_bind, <- ok_string with (n := "lane"). apply ok_then. intros l _. rewrite ok_bind, <- ok_nullable with (n := "leafId").
    by destruct (requireNullableId _ _). }
  destruct (is_text (field o "kind") "fact"); [|done]. unfold parseFactMutation.
  destruct (is_text (field o "fact") "name"); [rewrite ok_bind, <- ok_optional with (n := "name"); by destruct (optionalString _ _)|].
  destruct (is_text (field o "fact") "label"); [|done]. cbn [andb]. rewrite ok_bind, <- ok_optional with (n := "label"). apply ok_then. intros l _.
  rewrite ok_bind, <- ok_string with (n := "targetId"). by destruct (requireString _ _).
Qed.

(** ** What is written is read back *)

Definition lacks (names : list string) (o : obj) : bool := forallb (λ e, negb (has names e.1)) o.
Definition text_opt (s : option jsstr) : bool := match s with None => true | Some s => text_ok s end.

(** Data that JSON keeps, with property names that are not indices; [kind] and,
    on an entry, [lane] are the envelope's. *)
Definition body_ok (reserved : list string) (o : obj) : bool :=
  json_ok (TMap o) && forallb plain o.*1 && lacks reserved o.

Definition line_ok (m : LineMutation) : bool :=
  line_typed m &&
  match m with
  | LineEntry lane e => body_ok ["kind"; "lane"] e && text_opt lane
  | LineRecord r => body_ok ["kind"] r
  | LineLane _ lane leafId => text_ok lane && text_opt leafId
  | LineName _ name => text_opt name
  | LineLabel _ targetId label => text_ok targetId && text_opt label
  end.

Lemma lacks_spec names o k : lacks names o = true → k ∈ o.*1 → k ∉ js_lit <$> names.
Proof.
  unfold lacks. rewrite forallb_forall. intros H ([k' v] & -> & Hin)%list_elem_of_fmap.
  apply list_elem_of_In, H in Hin. unfold has in Hin. rewrite negb_true_iff, bool_decide_eq_false in Hin. done.
Qed.

Lemma omit_lacks names o : lacks names o = true → omit names o = o.
Proof.
  intros H. apply filter_all, Forall_forall. intros e He. eapply lacks_spec; [done|]. by apply list_elem_of_fmap_2.
Qed.

Lemma omit_app names a b : omit names (a ++ b) = omit names a ++ omit names b.
Proof. apply filter_app. Qed.

Lemma json_ok_map o : json_ok (TMap o) = keys_ok o.*1 && forallb (λ e, text_ok e.1 && json_ok e.2) o.
Proof. done. Qed.

(** An envelope in front of a body. *)
Lemma prefixed reserved base o :
  keys_ok base.*1 = true → forallb plain base.*1 = true → forallb (λ e, text_ok e.1 && json_ok e.2) base = true →
  base.*1 ⊆ js_lit <$> reserved → body_ok reserved o = true →
  spread base o = base ++ o ∧ json_ok (TMap (base ++ o)) = true ∧ omit reserved (base ++ o) = o ∧ NoDup o.*1.
Proof.
  intros Hk Hp Hj Hsub Hb. unfold body_ok in Hb. rewrite !andb_true_iff, json_ok_map, andb_true_iff in Hb.
  destruct Hb as (((Hko & Hjo) & Hpo) & Hl).
  assert (NoDup (base ++ o).*1) as Hnd.
  { rewrite fmap_app. apply NoDup_app. split_and!; [by apply keys_ok_NoDup| |by apply keys_ok_NoDup].
    intros k Hkb Hko'. eapply lacks_spec; [exact Hl|exact Hko'|]. by apply Hsub. }
  assert (forallb plain (base ++ o).*1 = true) as Hpl by (by rewrite fmap_app, forallb_app, Hp).
  split_and!; [by apply spread_plain| |..].
  - rewrite json_ok_map, keys_ok_plain, forallb_app, Hj by done. done.
  - rewrite omit_app, (omit_lacks _ o) by done. rewrite <- (app_nil_l o) at 2. f_equal.
    unfold omit.
    destruct (filter _ base) as [|e l] eqn:E; [done|].
    assert (e ∈ filter (λ e, e.1 ∉ js_lit <$> reserved) base) as He by (rewrite E; left).
    apply list_elem_of_filter in He as [Hne He]. destruct Hne. apply Hsub. by apply list_elem_of_fmap_2.
  - by apply keys_ok_NoDup.
Qed.

Lemma parseObject_stringify o : json_ok (TMap o) = true → parseObject (JSON_stringify (TMap o)) = Ok o.
Proof. intros H. unfold parseObject. by rewrite JSON_roundtrip. Qed.

Lemma is_string_inv v : is_string v = true → ∃ s, v = Some (TText s).
Proof. destruct v as [[]|]; try done. eauto. Qed.
Lemma is_nullable_inv v n : is_nullable v = true → ∃ s, v = Some (nullable s) ∧ requireNullableId v n = Ok s.
Proof. destruct v as [[]|]; try done; intros _; [by exists None|by exists (Some s)]. Qed.
Lemma is_timestamp_inv v : is_timestamp v = true → ∃ n, v = Some (TNum n) ∧ requireTimestamp v = Ok n.
Proof.
  destruct v as [[]|]; try done. cbn. intros H. exists n. split; [done|]. destruct n; try done; cbn in H |- *.
  rewrite (proj2 (Z.leb_le _ _)) by lia. cbn. by rewrite (proj2 (Z.ltb_ge _ _)) by lia.
Qed.
Lemma is_seq_inv v z : is_seq v z = true → v = Some (TNum (NInt z)) ∧ requireSequence v = Ok z.
Proof.
  destruct v as [[| |[]| | | |]|]; try done. cbn. unfold seq_ok. intros [->%Z.eqb_eq H]%andb_true_iff.
  split; [done|]. rewrite (proj2 (Z.leb_le _ _)) by lia. cbn. by rewrite (proj2 (Z.leb_gt _ _)) by lia.
Qed.
Lemma one_of_inv v names : one_of v names = true → ∃ s, v = Some (TText s) ∧ has names s = true.
Proof. destruct v as [[]|]; try done. cbn. eauto. Qed.

(** The envelope of a line: the object it is written as, and that it is data. *)
Lemma entry_object lane e :
  body_ok ["kind"; "lane"] e = true → text_opt lane = true →
  let base := (js_lit "kind", TText (js_lit "entry")) :: opt_prop "lane" TText lane in
  mutation_object (LineEntry lane e) = base ++ e ∧ json_ok (TMap (base ++ e)) = true ∧
  omit ["kind"; "lane"] (base ++ e) = e ∧ NoDup e.*1.
Proof.
  intros Hb Hl base. apply prefixed; [..|done].
  - by destruct lane; vm_compute.
  - by destruct lane; vm_compute.
  - destruct lane as [l|]; [|by vm_compute]. cbn in Hl. subst base. cbn [opt_prop forallb fst snd json_ok].
    by rewrite Hl.
  - destruct lane; decide_now || (intros k; cbn; set_solver).
Qed.

Lemma record_object r :
  body_ok ["kind"] r = true →
  let base := [(js_lit "kind", TText (js_lit "record"))] in
  mutation_object (LineRecord r) = base ++ r ∧ json_ok (TMap (base ++ r)) = true ∧
  omit ["kind"] (base ++ r) = r ∧ NoDup r.*1.
Proof. intros Hb base. apply prefixed; [by vm_compute..|set_solver|done]. Qed.

Lemma field_lane lane n e :
  js_lit "kind" ≠ js_lit n → js_lit "lane" ≠ js_lit n →
  field (((js_lit "kind", TText (js_lit "entry")) :: opt_prop "lane" TText lane) ++ e) n = field e n.
Proof. intros H1 H2. destruct lane; cbn [opt_prop app]; by rewrite !field_cons_ne. Qed.

Lemma read_lane lane e :
  body_ok ["kind"; "lane"] e = true →
  match field (((js_lit "kind", TText (js_lit "entry")) :: opt_prop "lane" TText lane) ++ e) "lane" with
  | Some v => let* s := requireString (Some v) "lane" in Ok (Some s)
  | None => Ok None
  end = Ok lane :> decoded (option jsstr).
Proof.
  intros Hb. cbn [app]. rewrite field_cons_ne by name_ne. destruct lane as [l|]; cbn [opt_prop app].
  - by rewrite field_cons_eq.
  - assert (field e "lane" = None) as ->; [|done]. apply map_get_None.
    intros Hin. unfold body_ok in Hb. rewrite !andb_true_iff in Hb. destruct Hb as [_ Hlk].
    eapply lacks_spec; [exact Hlk|exact Hin|]. decide_now.
Qed.

Lemma requireString_reads v n b :
  implb b (is_string v) = true → (if b then let* _ := requireString v n in Ok tt else Ok tt) = Ok tt :> decoded unit.
Proof. destruct b; [|done]. cbn [implb]. by intros [s ->]%is_string_inv. Qed.

Lemma entry_reads lane e :
  line_ok (LineEntry lane e) = true →
  parseMutation (JSON_stringify (TMap (mutation_object (LineEntry lane e)))) = Ok (LineEntry lane e).
Proof.
  unfold line_ok, line_typed. rewrite !andb_true_iff. intros ((Hs & Ht) & Hb & Hl). cbn [line_seq] in *.
  destruct (entry_object lane e Hb Hl) as (-> & Hj & Hom & Hnd).
  unfold parseMutation, decodeMutation. rewrite parseObject_stringify by done. cbn [rbind].
  unfold entry_typed in Ht. rewrite !andb_true_iff in Ht. destruct Ht as (((((Hid & Hty) & Hpa) & Hse) & Hti) & Hcu).
  apply is_string_inv in Hid as [id Hid]. apply one_of_inv in Hty as (ty & Hty & Hhas).
  apply (is_nullable_inv _ "parentId") in Hpa as (pa & Hpa & Hpa'). apply is_seq_inv in Hse as [Hse Hse'].
  apply is_timestamp_inv in Hti as (ti & Hti & Hti').
  rewrite field_lane by name_ne. rewrite Hse'. cbn [rbind].
  assert (is_text (field (((js_lit "kind", TText (js_lit "entry")) :: opt_prop "lane" TText lane) ++ e) "kind") "entry"
    = true) as ->.
  { cbn [app]. rewrite field_cons_eq. by vm_compute. }
  unfold parseEntryMutation. rewrite read_lane by done. cbn [rbind]. rewrite !field_lane by name_ne.
  rewrite Hpa', Hti', Hid, Hty. cbn [requireString rbind]. rewrite Hhas. cbn [negb].
  rewrite Hty in Hcu. rewrite requireString_reads by exact Hcu.
  cbn [rbind]. rewrite Hom. do 2 f_equal. apply spread_same; [done|]. by repeat (constructor; [done|]).
Qed.

Lemma checkIntent_reads v r b :
  implb b (intent_typed r) = true → (if b then checkIntent ((js_lit "kind", v) :: r) else Ok tt) = Ok tt.
Proof.
  destruct b; [|done]. cbn [implb]. unfold checkIntent, intent_typed. fields.
  destruct (field r "intent") as [[]|]; try done.
  intros (k & Hk & Hkh)%one_of_inv. cbn [isObject]. rewrite Hk. cbn. by rewrite Hkh.
Qed.

Lemma record_reads r :
  line_ok (LineRecord r) = true →
  parseMutation (JSON_stringify (TMap (mutation_object (LineRecord r)))) = Ok (LineRecord r).
Proof.
  unfold line_ok, line_typed. rewrite !andb_true_iff. intros ((Hs & Ht) & Hb). cbn [line_seq] in *.
  destruct (record_object r Hb) as (-> & Hj & Hom & Hnd).
  unfold parseMutation, decodeMutation. rewrite parseObject_stringify by done. cbn [rbind app].
  unfold record_typed in Ht. rewrite !andb_true_iff in Ht.
  destruct Ht as ((((((Hid & Hla) & Hty) & Hse) & Hti) & Hin) & Hfi).
  apply is_string_inv in Hid as [id Hid]. apply is_string_inv in Hla as [la Hla].
  apply one_of_inv in Hty as (ty & Hty & Hhas). apply is_seq_inv in Hse as [Hse Hse'].
  apply is_timestamp_inv in Hti as (ti & Hti & Hti').
  fields. rewrite Hse'. cbn [rbind].
  change (is_text (Some (TText (js_lit "record"))) "entry") with false.
  change (is_text (Some (TText (js_lit "record"))) "record") with true. cbn iota.
  unfold parseRecordMutation. fields.
  rewrite Hti', Hid, Hla, Hty. cbn [requireString rbind]. rewrite Hhas. cbn [negb]. rewrite Hty in Hin, Hfi.
  rewrite checkIntent_reads by exact Hin. cbn [rbind]. rewrite requireString_reads by exact Hfi.
  cbn [rbind app] in *. rewrite Hom. do 2 f_equal. apply spread_same; [done|]. by repeat (constructor; [done|]).
Qed.

Lemma seq_reads seq : seq_ok seq = true → requireSequence (Some (TNum (NInt seq))) = Ok seq.
Proof.
  unfold seq_ok. intros H. cbn. rewrite (proj2 (Z.leb_le _ _)) by lia. cbn. by rewrite (proj2 (Z.leb_gt _ _)) by lia.
Qed.

Lemma seq_json seq : seq_ok seq = true → num_json (NInt seq) = true.
Proof. unfold seq_ok. cbn. lia. Qed.

Lemma text_opt_json o : text_opt o = true → json_ok (nullable o) = true.
Proof. by destruct o. Qed.

Lemma line_object_ok m : line_ok m = true → json_ok (TMap (mutation_object m)) = true.
Proof.
  intros Hm. pose proof Hm as Hm'. unfold line_ok, line_typed in Hm.
  rewrite !andb_true_iff in Hm. destruct Hm as ((Hs & _) & Hm).
  destruct m as [lane e|r|seq lane leaf|seq name|seq target label]; cbn [line_seq] in *.
  - apply andb_true_iff in Hm as [Hb Hl]. by destruct (entry_object lane e Hb Hl) as (-> & Hj & _).
  - by destruct (record_object r Hm) as (-> & Hj & _).
  - apply andb_true_iff in Hm as [Hl Hn]. rewrite json_ok_map. cbn [mutation_object forallb fst snd json_ok].
    rewrite Hl, (text_opt_json _ Hn), (seq_json _ Hs). by vm_compute.
  - rewrite json_ok_map. destruct name; cbn in Hm; cbn [mutation_object opt_prop app forallb fst snd json_ok];
      rewrite ?Hm, (seq_json _ Hs); by vm_compute.
  - apply andb_true_iff in Hm as [Ht Hl]. rewrite json_ok_map.
    destruct label; cbn in Hl; cbn [mutation_object opt_prop app forallb fst snd json_ok];
      rewrite ?Hl, Ht, (seq_json _ Hs); by vm_compute.
Qed.

Lemma nullable_reads o n : requireNullableId (Some (nullable o)) n = Ok o.
Proof. by destruct o. Qed.

(** A written line is read back as the mutation it was written for. *)
Lemma line_reads m : line_ok m = true → parseMutation (JSON_stringify (TMap (mutation_object m))) = Ok m.
Proof.
  intros Hm. destruct m as [lane e|r|seq lane leaf|seq name|seq target label];
    [by apply entry_reads|by apply record_reads|..].
  all: pose proof (line_object_ok _ Hm) as Hj.
  all: unfold line_ok, line_typed in Hm; rewrite !andb_true_iff in Hm; destruct Hm as [[Hs _] _]; cbn [line_seq] in Hs.
  all: unfold parseMutation, decodeMutation; rewrite parseObject_stringify by done.
  all: cbn [rbind mutation_object app]; fields; rewrite seq_reads by done; cbn [rbind].
  - change (is_text (Some (TText (js_lit "lane"))) "entry") with false.
    change (is_text (Some (TText (js_lit "lane"))) "record") with false.
    change (is_text (Some (TText (js_lit "lane"))) "lane") with true. cbn iota.
    unfold parseLaneMutation. fields. rewrite nullable_reads. done.
  - change (is_text (Some (TText (js_lit "fact"))) "entry") with false.
    change (is_text (Some (TText (js_lit "fact"))) "record") with false.
    change (is_text (Some (TText (js_lit "fact"))) "lane") with false.
    change (is_text (Some (TText (js_lit "fact"))) "fact") with true. cbn iota.
    unfold parseFactMutation. fields. change (is_text (Some (TText (js_lit "name"))) "name") with true.
    cbn iota. destruct name; cbn [opt_prop]; fields; done.
  - change (is_text (Some (TText (js_lit "fact"))) "entry") with false.
    change (is_text (Some (TText (js_lit "fact"))) "record") with false.
    change (is_text (Some (TText (js_lit "fact"))) "lane") with false.
    change (is_text (Some (TText (js_lit "fact"))) "fact") with true. cbn iota.
    unfold parseFactMutation. fields. change (is_text (Some (TText (js_lit "label"))) "name") with false.
    change (is_text (Some (TText (js_lit "label"))) "label") with true.
    cbn iota. destruct label; cbn [opt_prop]; fields; done.
Qed.

(** ** The header *)

Definition header_ok (h : JsonlV4Header) : bool :=
  text_ok (h_id h) && timestamp_ok (h_createdAt h) && num_json (h_createdAt h) && text_ok (h_cwd h) &&
  text_opt (h_parentSessionId h) && text_opt (h_legacyParentSessionPath h) &&
  match h_metadata h with None => true | Some o => json_ok (TMap o) end &&
  match h_parentSessionId h, h_legacyParentSessionPath h with Some _, Some _ => false | _, _ => true end.

Lemma header_object_ok h : header_ok h = true → json_ok (TMap (header_object h)) = true.
Proof.
  unfold header_ok. rewrite !andb_true_iff. intros (((((((Hid & Ht) & Hn) & Hc) & Hp) & Hl) & Hm) & Hx).
  rewrite json_ok_map. destruct h as [id ts cwd p l m]. cbn [h_id h_createdAt h_cwd h_parentSessionId
    h_legacyParentSessionPath h_metadata] in *.
  destruct p, l, m; try done; cbn in Hp, Hl; unfold header_object; cbn [h_id h_createdAt h_cwd h_parentSessionId
    h_legacyParentSessionPath h_metadata opt_prop app forallb fst snd json_ok]; rewrite ?Hid, ?Hn, ?Hc, ?Hp, ?Hl.
  all: try (rewrite json_ok_map in Hm; rewrite Hm); by vm_compute.
Qed.

Lemma header_reads h : header_ok h = true → parseHeader (JSON_stringify (TMap (header_object h))) = Ok h.
Proof.
  intros Hh. pose proof (header_object_ok _ Hh) as Hj. unfold parseHeader, decodeHeader.
  rewrite parseObject_stringify by done. cbn [rbind].
  unfold header_ok in Hh. rewrite !andb_true_iff in Hh. destruct Hh as (((((((Hid & Ht) & Hn) & Hc) & Hp) & Hl) & Hm) & Hx).
  destruct h as [id ts cwd p l m]. cbn [h_id h_createdAt h_cwd h_parentSessionId
    h_legacyParentSessionPath h_metadata] in *.
  assert (requireTimestamp (Some (TNum ts)) = Ok ts) as Hts.
  { destruct (is_timestamp_inv (Some (TNum ts))) as (n & [= <-] & H); done. }
  unfold header_object. cbn [h_id h_createdAt h_cwd h_parentSessionId h_legacyParentSessionPath h_metadata].
  cbn [app]. fields. change (is_text (Some (TText (js_lit "header"))) "header") with true.
  rewrite bool_decide_eq_true_2 by done. cbn [negb].
  destruct p, l, m; try done; cbn [opt_prop app]; fields; rewrite Hts; reflexivity.
Qed.

(** Neither a header nor a mutation contains a line break before its end. *)
Lemma encode_line o : json_ok (TMap o) = true → newline ∉ JSON_stringify (TMap o).
Proof.
  intros H Hin. pose proof (stringify_printable _ H) as Hp. unfold printable in Hp. rewrite Forall_forall in Hp.
  specialize (Hp _ Hin). unfold newline in Hp. lia.
Qed.
