(* ===== verification/SessionTypes.v ===== *)
(** The durable data of a session: [cli/packages/agent/src/harness/session/types.ts],
    the messages of [harness/messages.ts] and the parts of [ai/src/types.ts] they
    use.  Parts of a message or record that the code only stores and copies are
    carried as JSON data ([tree]).  Texts, which the code of the session compares, joins
    and stores, are strings of 8-bit characters: an injective encoding of their UTF-16
    code units ([SessionView] gives it). *)
From Stdlib Require Import SpecFloat.
From S2P Require Import Prelude JsValue.
Open Scope Z_scope.

Notation json := tree.

(** IEEE-754 binary64 addition, the [+=] of the statistics. *)
Notation double := spec_float.
Definition double_add : double → double → double := SFadd 53 1024.
Definition double_zero : double := S754_zero false.

Inductive StopReason := pending | stop | length_ | toolUse | error_ | aborted | deferred.

#[export] Instance StopReason_eq_dec : EqDecision StopReason.
Proof. solve_decision. Defined.

Record Usage := mkUsage {
  u_input : double;
  u_output : double;
  u_cacheRead : double;
  u_cacheWrite : double;
  u_totalTokens : double;
  u_cost_total : double;
}.

(** ** Messages *)

Record AgentToolCall := mkToolCall {
  tc_id : string;
  tc_name : string;
  tc_arguments : json;
}.

Inductive Content :=
| ContentText (text : string)
| ContentThinking (body : json)
| ContentImage (body : json)
| ContentToolCall (call : AgentToolCall).

Record AssistantMessage := mkAssistant {
  am_content : list Content;
  am_provider : string;
  am_model : string;
  am_stopReason : StopReason;
  am_deferred : option json;            (* the DeferredHandle *)
  am_rest : json;                       (* api, usage, diagnostics, ... *)
}.

Record BashExecutionMessage := mkBash {
  be_command : string;
  be_output : string;
  be_exitCode : option Z;
  be_cancelled : bool;
  be_truncated : bool;
  be_fullOutputPath : option string;
  be_timestamp : Z;
  be_excludeFromContext : bool;
}.

Inductive TextOrContent :=
| PlainText (text : string)
| Parts (content : list Content).

Inductive AgentMessage :=
| UserMessage (content : TextOrContent) (timestamp : Z)
| AssistantMsg (message : AssistantMessage)
| ToolResultMessage (toolCallId toolName : string) (rest : json)
| BashExecution (message : BashExecutionMessage)
| CustomMessage (customType : string) (content : TextOrContent) (display : bool) (details : option json) (timestamp : Z)
| BranchSummaryMessage (summary fromId : string) (timestamp : Z)
| CompactionSummaryMessage (summary : string) (tokensBefore timestamp : Z).

Inductive Role := RUser | RAssistant | RToolResult | RBashExecution | RCustom | RBranchSummary | RCompactionSummary.

#[export] Instance Role_eq_dec : EqDecision Role.
Proof. solve_decision. Defined.

Definition role (m : AgentMessage) : Role :=
  match m with
  | UserMessage _ _ => RUser
  | AssistantMsg _ => RAssistant
  | ToolResultMessage _ _ _ => RToolResult
  | BashExecution _ => RBashExecution
  | CustomMessage _ _ _ _ _ => RCustom
  | BranchSummaryMessage _ _ _ => RBranchSummary
  | CompactionSummaryMessage _ _ _ => RCompactionSummary
  end.

(** ** Entries *)

Inductive EntryBody :=
| MessageEntry (message : AgentMessage) (terminate : bool)
| ModelChangeEntry (provider modelId : string)
| ThinkingLevelEntry (thinkingLevel : string)
| ActiveToolsEntry (activeToolNames : list string)
| CompactionEntry (summary : string) (retainedTail : list AgentMessage) (tokensBefore : Z)
    (details : option json) (usage : option Usage)
| BranchSummaryEntry (fromId summary : string) (details : option json) (usage : option Usage)
| CustomEntry (customType : string) (data : option json).

Inductive EntryType :=
| message | model_change | thinking_level_change | active_tools_change | compaction | branch_summary | custom.

#[export] Instance EntryType_eq_dec : EqDecision EntryType.
Proof. solve_decision. Defined.

Definition body_type (b : EntryBody) : EntryType :=
  match b with
  | MessageEntry _ _ => message
  | ModelChangeEntry _ _ => model_change
  | ThinkingLevelEntry _ => thinking_level_change
  | ActiveToolsEntry _ => active_tools_change
  | CompactionEntry _ _ _ _ _ => compaction
  | BranchSummaryEntry _ _ _ _ => branch_summary
  | CustomEntry _ _ => custom
  end.

Record Entry := mkEntry {
  e_id : string;
  e_seq : Z;
  e_parentId : option string;
  e_timestamp : Z;
  e_body : EntryBody;
}.

Definition e_type (e : Entry) : EntryType := body_type (e_body e).

(** An entry before storage assigns its parent, sequence and timestamp. *)
Record ProvisionedEntry := mkProvisioned {
  pe_id : string;
  pe_body : EntryBody;
}.

(** ** Records *)

Inductive Intent :=
| RunIntent (originalPrompt : list AgentMessage) (initialMessages : list ProvisionedEntry)
    (systemPromptOverride : option string) (resumeData : option json)
| CompactionIntent (customInstructions : option string) (resultEntryId : string)
| NavigationIntent (targetId : option string) (summarize : bool) (customInstructions label summaryEntryId : option string).

Inductive OperationKind := KRun | KCompaction | KNavigation.

#[export] Instance OperationKind_eq_dec : EqDecision OperationKind.
Proof. solve_decision. Defined.

Definition intent_kind (i : Intent) : OperationKind :=
  match i with
  | RunIntent _ _ _ _ => KRun
  | CompactionIntent _ _ => KCompaction
  | NavigationIntent _ _ _ _ _ => KNavigation
  end.

Inductive Outcome := completed | outcome_aborted | outcome_failed | declined.
Inductive Step := StepAssistant | StepCompaction | StepBranchSummary.
Inductive Queue := QSteer | QFollowUp | QNextRun.
Inductive UsageCause :=
  CAssistant | CCompaction | CBranchSummary | CDeferredFetch | CTool | CHook | CAdjustment.

#[export] Instance Step_eq_dec : EqDecision Step.
Proof. solve_decision. Defined.
#[export] Instance Queue_eq_dec : EqDecision Queue.
Proof. solve_decision. Defined.
#[export] Instance UsageCause_eq_dec : EqDecision UsageCause.
Proof. solve_decision. Defined.

(** A step attempt's compaction reason is read back as an arbitrary string. *)
Inductive RecordBody :=
| OperationStarted (sourceLeafId : option string) (intent : Intent)
| AbortRequested (runId : string)
| OperationFinished (runId : string) (outcome : Outcome) (error : option (string * string))
| StepAttempt (runId : string) (step : Step) (attempt : Z) (resultEntryId : string)
    (compactionReason : option string)
| ToolStarted (runId assistantEntryId : string) (toolIndex : Z) (toolCallId toolName : string)
    (effectiveArgs : json) (resultEntryId : string) (replaySafe : bool)
| QueueEnqueued (queue : Queue) (runId : option string) (target : ProvisionedEntry)
| QueueCancelled (runId : option string) (entryId : string)
| WriteDeferred (runId : string) (target : ProvisionedEntry)
| UsageRecord (cause : UsageCause) (usage : Usage) (runId entryId : option string) (rest : json).

Inductive RecordType :=
| operation_started | abort_requested | operation_finished | step_attempt | tool_started
| queue_enqueued | queue_cancelled | write_deferred | usage_.

#[export] Instance RecordType_eq_dec : EqDecision RecordType.
Proof. solve_decision. Defined.

Definition record_body_type (b : RecordBody) : RecordType :=
  match b with
  | OperationStarted _ _ => operation_started
  | AbortRequested _ => abort_requested
  | OperationFinished _ _ _ => operation_finished
  | StepAttempt _ _ _ _ _ => step_attempt
  | ToolStarted _ _ _ _ _ _ _ _ => tool_started
  | QueueEnqueued _ _ _ => queue_enqueued
  | QueueCancelled _ _ => queue_cancelled
  | WriteDeferred _ _ => write_deferred
  | UsageRecord _ _ _ _ _ => usage_
  end.

Record LaneRecord := mkRecord {
  r_id : string;
  r_seq : Z;
  r_lane : string;
  r_timestamp : Z;
  r_body : RecordBody;
}.

Definition r_type (r : LaneRecord) : RecordType := record_body_type (r_body r).

(** [record.runId] where it is a string. *)
Definition r_runId (r : LaneRecord) : option string :=
  match r_body r with
  | OperationStarted _ _ => None
  | AbortRequested runId | OperationFinished runId _ _ | StepAttempt runId _ _ _ _
  | ToolStarted runId _ _ _ _ _ _ _ | WriteDeferred runId _ => Some runId
  | QueueEnqueued _ runId _ | QueueCancelled runId _ | UsageRecord _ _ runId _ _ => runId
  end.

(** A record before storage assigns its sequence and timestamp. *)
Record NewRecord := mkNewRecord {
  nr_id : string;
  nr_lane : string;
  nr_body : RecordBody;
}.

(** ** Queries, log and statistics *)

Inductive EntryOrder := newestFirst | oldestFirst.

#[export] Instance EntryOrder_eq_dec : EqDecision EntryOrder.
Proof. solve_decision. Defined.

Record EntryQuery := mkEntryQuery {
  q_type : option EntryType;
  q_customType : option string;
  q_order : option EntryOrder;
  q_limit : option jsnum;
  q_afterSeq : option jsnum;          (* cursor?.afterSeq *)
}.

Record BranchBounds := mkBounds {
  b_stopAtType : option EntryType;
  b_stopAtId : option string;
}.

Record RecordQuery := mkRecordQuery {
  rq_lane : option string;
  rq_type : option RecordType;
  rq_runId : option string;
  rq_operationKind : option OperationKind;
  rq_afterSeq : option jsnum;
  rq_order : option EntryOrder;
  rq_limit : option jsnum;
}.

Record SessionMetadata := mkMetadata {
  m_id : string;
  m_createdAt : Z;
  m_parentSessionId : option string;
}.

Record SessionStats := mkStats {
  messageCount : Z;
  cachedTokens : double;
  uncachedTokens : double;
  totalTokens : double;
  costTotal : double;
}.

Inductive LogItem :=
| LogEntry (seq : Z) (entry : Entry)
| LogRecord (seq : Z) (record : LaneRecord)
| LogLane (seq : Z) (lane : string) (leafId : option string)
| LogName (seq : Z) (name : option string)
| LogLabel (seq : Z) (targetId : string) (label : option string).

Definition log_seq (i : LogItem) : Z :=
  match i with
  | LogEntry seq _ | LogRecord seq _ | LogLane seq _ _ | LogName seq _ | LogLabel seq _ _ => seq
  end.

Inductive ForkOptions :=
| ForkBranch (entryId : option string) (position_at : option bool)   (* position: "at" or "before" *)
| ForkTree.

Inductive SessionErrorCode :=
| not_found | already_exists | invalid_entry | invalid_payload | invalid_lane | invalid_query
| invalid_fork_target | storage.

#[export] Instance SessionErrorCode_eq_dec : EqDecision SessionErrorCode.
Proof. solve_decision. Defined.

(** A [SessionError]: its code, and the identifier or reason its message names. *)
Inductive session_error :=
| SessionError (code : SessionErrorCode) (detail : string)
| WalkFuel.
