(* ===== verification/SessionState.v ===== *)
(** The session state: [harness/session/state.ts].

    [SessionState] is the class's fields; every method that throws before it
    changes anything returns a [result].  [entriesById], [usedIds] and [labels]
    are maps and sets whose order is never observed; [lanes] and the open
    operations of a lane are JavaScript maps whose order is.  [walkToRoot] is a
    generator: it is modelled by the entries it yields and the error it throws
    when asked for more, so that a consumer that stops early never sees the
    error. *)
From S2P Require Import Prelude JsValue JsMap SessionTypes.
Open Scope Z_scope.

Inductive SessionMutation :=
| MutEntry (lane : option string) (entry : Entry)
| MutRecord (record : LaneRecord)
| MutLane (seq : Z) (lane : string) (leafId : option string)
| MutName (seq : Z) (name : option string)
| MutLabel (seq : Z) (targetId : string) (label : option string).

Definition mut_seq (m : SessionMutation) : Z :=
  match m with
  | MutEntry _ entry => e_seq entry
  | MutRecord record => r_seq record
  | MutLane seq _ _ | MutName seq _ | MutLabel seq _ _ => seq
  end.

Record SessionState := mkState {
  sequence : Z;
  usedIds : gset string;
  entries : list Entry;
  entriesById : gmap string Entry;
  records : list LaneRecord;
  openOperationsByLane : gmap string (jsmap LaneRecord);
  lanes : jsmap (option string);
  log : list LogItem;
  stats : SessionStats;
  name : option string;
  labels : gmap string string;
}.

Definition new_SessionState : SessionState :=
  mkState 0 ∅ [] ∅ [] ∅ [("main", None)] []
    (mkStats 0 double_zero double_zero double_zero double_zero) None ∅.

Definition invalidMutation {A} (reason : string) : result session_error A :=
  Err (SessionError invalid_entry reason).

Definition assertValidLimit (limit : option jsnum) : result session_error unit :=
  match limit with
  | None => Ok tt
  | Some (NInt z) => if z <=? 0 then Err (SessionError invalid_query "limit") else Ok tt
  | Some _ => Err (SessionError invalid_query "limit")
  end.

Definition assertValidCursor (afterSeq : option jsnum) : result session_error unit :=
  match afterSeq with
  | None => Ok tt
  | Some (NInt z) => if z <? 0 then Err (SessionError invalid_query "cursor") else Ok tt
  | Some NNegZero => Ok tt
  | Some _ => Err (SessionError invalid_query "cursor")
  end.

(** The value of a validated limit or cursor. *)
Definition num_value (n : jsnum) : Z := match n with NInt z => z | _ => 0 end.

Definition ordered {A} (items : list A) (order : option EntryOrder) : list A :=
  match order with
  | Some oldestFirst => items
  | _ => reverse items
  end.

Section state.
Implicit Types s : SessionState.

Definition nextSequence s : Z := sequence s + 1.

Definition getLanes s : list (string * option string) := lanes s.

Definition requireLane s (lane : string) : result session_error (option string) :=
  match map_get (lanes s) lane with
  | None => Err (SessionError invalid_lane lane)
  | Some leafId => Ok leafId
  end.

Definition validateNewLane s (lane : string) : result session_error unit :=
  if map_has (lanes s) lane then Err (SessionError already_exists lane) else Ok tt.

Definition has_entry s (id : string) : bool := bool_decide (is_Some (entriesById s !! id)).

Definition validateTarget s (targetId : option string) : result session_error unit :=
  match targetId with
  | None => Ok tt
  | Some id => if has_entry s id then Ok tt else Err (SessionError not_found id)
  end.

Definition validateUnusedId s (id : string) : result session_error unit :=
  if bool_decide (id ∈ usedIds s) then Err (SessionError already_exists id) else Ok tt.

(** The [case "entry"] of [applyMutation]. *)
Definition applyEntry s (lane : option string) (entry : Entry) : result session_error SessionState :=
  if bool_decide (e_id entry ∈ usedIds s) then invalidMutation "duplicate id" else
  let* _ :=
    match lane with
    | None => Ok tt
    | Some lane =>
        match map_get (lanes s) lane with
        | None => invalidMutation "missing lane"
        | Some leafId =>
            if negb (bool_decide (e_parentId entry = leafId))
            then invalidMutation "does not chain to the lane leaf" else Ok tt
        end
    end in
  let* _ :=
    match e_parentId entry with
    | None => Ok tt
    | Some parentId => if has_entry s parentId then Ok tt else invalidMutation "missing parent"
    end in
  Ok (mkState (e_seq entry) ({[ e_id entry ]} ∪ usedIds s) (entries s ++ [entry])
        (<[e_id entry := entry]> (entriesById s)) (records s) (openOperationsByLane s)
        (match lane with None => lanes s | Some lane => map_set (lanes s) lane (Some (e_id entry)) end)
        (log s ++ [LogEntry (e_seq entry) entry])
        (if bool_decide (e_type entry = message)
         then mkStats (messageCount (stats s) + 1) (cachedTokens (stats s)) (uncachedTokens (stats s))
                (totalTokens (stats s)) (costTotal (stats s))
         else stats s)
        (name s) (labels s)).

(** The updates of [openOperationsByLane] for a record. *)
Definition trackOperation (ops : gmap string (jsmap LaneRecord)) (record : LaneRecord) :
    gmap string (jsmap LaneRecord) :=
  match r_body record with
  | OperationStarted _ _ =>
      <[r_lane record := map_set (default [] (ops !! r_lane record)) (r_id record) record]> ops
  | OperationFinished runId _ _ =>
      match ops !! r_lane record with
      | None => ops
      | Some m => <[r_lane record := map_delete m runId]> ops
      end
  | _ => ops
  end.

Definition countUsage (st : SessionStats) (record : LaneRecord) : SessionStats :=
  match r_body record with
  | UsageRecord _ u _ _ _ =>
      mkStats (messageCount st)
        (double_add (cachedTokens st) (u_cacheRead u))
        (double_add (uncachedTokens st) (double_add (u_input u) (u_cacheWrite u)))
        (double_add (totalTokens st) (u_totalTokens u))
        (double_add (costTotal st) (u_cost_total u))
  | _ => st
  end.

Definition applyRecord s (record : LaneRecord) : result session_error SessionState :=
  if negb (map_has (lanes s) (r_lane record)) then invalidMutation "missing lane" else
  if bool_decide (r_id record ∈ usedIds s) then invalidMutation "duplicate id" else
  Ok (mkState (r_seq record) ({[ r_id record ]} ∪ usedIds s) (entries s) (entriesById s)
        (records s ++ [record]) (trackOperation (openOperationsByLane s) record) (lanes s)
        (log s ++ [LogRecord (r_seq record) record]) (countUsage (stats s) record)
        (name s) (labels s)).

Definition applyLane s (seq : Z) (lane : string) (leafId : option string) : result session_error SessionState :=
  let* _ :=
    match leafId with
    | None => Ok tt
    | Some id => if has_entry s id then Ok tt else invalidMutation "missing lane target"
    end in
  Ok (mkState seq (usedIds s) (entries s) (entriesById s) (records s) (openOperationsByLane s)
        (map_set (lanes s) lane leafId) (log s ++ [LogLane seq lane leafId]) (stats s) (name s) (labels s)).

Definition applyName s (seq : Z) (n : option string) : result session_error SessionState :=
  Ok (mkState seq (usedIds s) (entries s) (entriesById s) (records s) (openOperationsByLane s)
        (lanes s) (log s ++ [LogName seq n]) (stats s) n (labels s)).

Definition applyLabel s (seq : Z) (targetId : string) (label : option string) : result session_error SessionState :=
  if negb (has_entry s targetId) then invalidMutation "missing label target" else
  Ok (mkState seq (usedIds s) (entries s) (entriesById s) (records s) (openOperationsByLane s)
        (lanes s) (log s ++ [LogLabel seq targetId label]) (stats s) (name s)
        (match label with None => delete targetId (labels s) | Some l => <[targetId := l]> (labels s) end)).

Definition applyMutation s (mutation : SessionMutation) : result session_error SessionState :=
  if negb (mut_seq mutation =? sequence s + 1) then invalidMutation "non-consecutive seq" else
  match mutation with
  | MutEntry lane entry => applyEntry s lane entry
  | MutRecord record => applyRecord s record
  | MutLane seq lane leafId => applyLane s seq lane leafId
  | MutName seq n => applyName s seq n
  | MutLabel seq targetId label => applyLabel s seq targetId label
  end.

(** ** Reads *)

Definition getEntry s (id : string) : option Entry := entriesById s !! id.
Definition getName s : option string := name s.
Definition getLabel s (id : string) : option string := labels s !! id.
Definition getStats s : SessionStats := stats s.

Definition matchesEntryQuery (entry : Entry) (query : EntryQuery) : bool :=
  match q_type query with None => true | Some t => bool_decide (e_type entry = t) end &&
  match q_customType query with
  | None => true
  | Some c => match e_body entry with CustomEntry c' _ => bool_decide (c' = c) | _ => false end
  end &&
  match q_afterSeq query with
  | None => true
  | Some after =>
      match q_order query with
      | Some oldestFirst => num_value after <? e_seq entry
      | _ => e_seq entry <? num_value after
      end
  end.

Definition matchesRecordQuery (record : LaneRecord) (query : RecordQuery) : bool :=
  match rq_lane query with None => true | Some l => bool_decide (r_lane record = l) end &&
  match rq_type query with None => true | Some t => bool_decide (r_type record = t) end &&
  match rq_runId query with
  | None => true
  | Some runId =>
      match r_body record with
      | OperationStarted _ _ => bool_decide (r_id record = runId)
      | _ => bool_decide (r_runId record = Some runId)
      end
  end &&
  match rq_operationKind query with
  | None => true
  | Some k => match r_body record with OperationStarted _ i => bool_decide (intent_kind i = k) | _ => false end
  end &&
  match rq_afterSeq query with None => true | Some after => num_value after <? r_seq record end.

(** [results.length === limit] *)
Definition reached {A} (results : list A) (limit : option jsnum) : bool :=
  match limit with None => false | Some n => Z.of_nat (length results) =? num_value n end.

(** The loop of [findEntries], [findRecords] and [getLog]: skip what does not
    match, push, and break at the limit. *)
Fixpoint collect {A} (keep : A → bool) (limit : option jsnum) (results items : list A) : list A :=
  match items with
  | [] => results
  | item :: items =>
      if negb (keep item) then collect keep limit results items else
      let results := results ++ [item] in
      if reached results limit then results else collect keep limit results items
  end.

Definition findEntries s (query : EntryQuery) : result session_error (list Entry) :=
  let* _ := assertValidLimit (q_limit query) in
  let* _ := assertValidCursor (q_afterSeq query) in
  Ok (collect (λ e, matchesEntryQuery e query) (q_limit query) [] (ordered (entries s) (q_order query))).

Definition findRecords s (query : RecordQuery) : result session_error (list LaneRecord) :=
  let* _ := assertValidLimit (rq_limit query) in
  let* _ := assertValidCursor (rq_afterSeq query) in
  Ok (collect (λ r, matchesRecordQuery r query) (rq_limit query) [] (ordered (records s) (rq_order query))).

Definition findOpenOperations s (lane : string) (limit : option jsnum) : result session_error (list LaneRecord) :=
  let* _ := assertValidLimit limit in
  let openOperations := reverse ((default [] (openOperationsByLane s !! lane)).*2) in
  Ok (match limit with None => openOperations | Some n => take (Z.to_nat (num_value n)) openOperations end).

Definition getLog s (afterSeq limit : option jsnum) : result session_error (list LogItem) :=
  let* _ := assertValidLimit limit in
  let* _ := assertValidCursor afterSeq in
  Ok (collect (λ i, match afterSeq with None => true | Some n => negb (log_seq i <=? num_value n) end)
        limit [] (log s)).

(** ** The walk to the root *)

Definition at_bound (bounds : BranchBounds) (entry : Entry) : bool :=
  bool_decide (Some (e_id entry) = b_stopAtId bounds) ||
  bool_decide (Some (e_type entry) = b_stopAtType bounds).

(** The [while (current)] loop: what is yielded, and what is thrown at the end. *)
Fixpoint walkLoop (fuel : nat) s (bounds : BranchBounds) (visited : gset string) (current : Entry) :
    list Entry * option session_error :=
  match fuel with
  | O => ([], Some WalkFuel)
  | S fuel =>
      if bool_decide (e_id current ∈ visited) then ([], Some (SessionError invalid_entry (e_id current))) else
      let visited := {[ e_id current ]} ∪ visited in
      match e_parentId current with
      | None => ([current], None)
      | Some parentId =>
          if at_bound bounds current then ([current], None) else
          match entriesById s !! parentId with
          | None => ([current], Some (SessionError invalid_entry parentId))
          | Some parent =>
              let '(rest, e) := walkLoop fuel s bounds visited parent in (current :: rest, e)
          end
      end
  end.

(** One iteration per entry, and one that finds a cycle. *)
Definition walk_fuel s : nat := S (S (length (entries s))).

Definition walkToRoot s (start : string) (bounds : BranchBounds) : list Entry * option session_error :=
  match entriesById s !! start with
  | None => ([], Some (SessionError not_found start))
  | Some current => walkLoop (walk_fuel s) s bounds ∅ current
  end.

(** The loop over the walk: push what matches, break at [stop] or at the limit. *)
Fixpoint scan (keep stop : Entry → bool) (limit : option jsnum) (results items : list Entry) : list Entry * bool :=
  match items with
  | [] => (results, false)
  | item :: items =>
      let results := if keep item then results ++ [item] else results in
      if stop item || reached results limit then (results, true) else scan keep stop limit results items
  end.

Definition no_bounds : BranchBounds := mkBounds None None.

Definition findEntriesOnBranch s (start : string) (bounds : BranchBounds) (query : EntryQuery) :
    result session_error (list Entry) :=
  let* _ := assertValidLimit (q_limit query) in
  let* _ := assertValidCursor (q_afterSeq query) in
  match q_order query with
  | Some oldestFirst =>
      match walkToRoot s start no_bounds with
      | (_, Some e) => Err e
      | (path, None) =>
          Ok (scan (λ e, matchesEntryQuery e query) (at_bound bounds) (q_limit query) [] (reverse path)).1
      end
  | _ =>
      let '(path, e) := walkToRoot s start bounds in
      match scan (λ e, matchesEntryQuery e query) (λ _, false) (q_limit query) [] path, e with
      | (results, true), _ | (results, false), None => Ok results
      | (_, false), Some e => Err e
      end
  end.

(** ** Forking *)

Definition with_seq (e : Entry) (seq : Z) : Entry := mkEntry (e_id e) seq (e_parentId e) (e_timestamp e) (e_body e).

Definition no_query (order : EntryOrder) : EntryQuery := mkEntryQuery None None (Some order) None None.

(** The new leaf of a branch fork: the selected message, or its parent. *)
Definition forkTarget s (entryId : option string) (position_at : option bool) (selected : option string) :
    result session_error (option string) :=
  match selected with
  | None => Ok None
  | Some id =>
      match getEntry s id with
      | Some entry =>
          if negb (bool_decide (e_type entry = message)) then Err (SessionError invalid_fork_target id) else
          let at_ := default (bool_decide (entryId = None)) position_at in
          Ok (if at_ then Some (e_id entry) else e_parentId entry)
      | None => Err (SessionError invalid_fork_target id)
      end
  end.

(** What is copied: the entries and the lane pointers of the fork. *)
Definition forkSelection s (options : ForkOptions) :
    result session_error (list Entry * list (string * option string)) :=
  match options with
  | ForkTree =>
      let* copied := findEntries s (no_query oldestFirst) in Ok (copied, getLanes s)
  | ForkBranch entryId position_at =>
      let* selected := match entryId with Some id => Ok (Some id) | None => requireLane s "main" end in
      let* targetId := forkTarget s entryId position_at selected in
      let* copied :=
        match targetId with
        | None => Ok []
        | Some t => findEntriesOnBranch s t no_bounds (no_query oldestFirst)
        end in
      Ok (copied, [("main", targetId)])
  end.

Fixpoint entryMutations (seq : Z) (copied : list Entry) : list SessionMutation :=
  match copied with
  | [] => []
  | e :: copied => MutEntry None (with_seq e seq) :: entryMutations (seq + 1) copied
  end.

Fixpoint laneMutations (seq : Z) (pointers : list (string * option string)) : list SessionMutation :=
  match pointers with
  | [] => []
  | (lane, leafId) :: pointers => MutLane seq lane leafId :: laneMutations (seq + 1) pointers
  end.

Fixpoint labelMutations s (seq : Z) (copied : list Entry) : list SessionMutation :=
  match copied with
  | [] => []
  | e :: copied =>
      match labels s !! e_id e with
      | None => labelMutations s seq copied
      | Some l => MutLabel seq (e_id e) (Some l) :: labelMutations s (seq + 1) copied
      end
  end.

Definition createForkMutations s (options : ForkOptions) : result session_error (list SessionMutation) :=
  let* (copied, pointers) := forkSelection s options in
  let n := Z.of_nat (length copied) in
  let k := Z.of_nat (length pointers) in
  Ok (entryMutations 1 copied ++ laneMutations (1 + n) pointers ++
      match name s with
      | Some nm => MutName (1 + n + k) (Some nm) :: labelMutations s (1 + n + k + 1) copied
      | None => labelMutations s (1 + n + k) copied
      end).
End state.
