(* ===== verification/SessionView.v ===== *)
(** JavaScript objects as the session's data types: what the casts
    [as unknown as Entry] and [as unknown as LaneRecord] of
    [jsonl/codec.ts] assume of a line, field by field after the interfaces of
    [harness/session/types.ts], [harness/messages.ts] and [ai/src/types.ts].

    A JavaScript string is read as the string of its code units in the
    three-byte-limited form of UTF-8 (CESU-8), which is total, keeps ASCII and
    keeps distinct strings distinct.  An object that does not have its declared
    type has no view ([None]): the code would carry it along untyped. *)
From S2P Require Import Prelude JsValue JsMap Json JsonlCodec SessionTypes SessionState.
From Stdlib Require Import SpecFloat.
Open Scope Z_scope.

(** ** Strings *)

Definition unit_bytes (u : Z) : list Z :=
  if u <? 0x80 then [u]
  else if u <? 0x800 then [0xc0 + u / 0x40; 0x80 + u mod 0x40]
  else [0xe0 + u / 0x1000; 0x80 + u / 0x40 mod 0x40; 0x80 + u mod 0x40].

Definition ascii_of_byte (b : Z) : Ascii.ascii := Ascii.ascii_of_N (Z.to_N b).
Definition byte_of_ascii (a : Ascii.ascii) : Z := Z.of_N (Ascii.N_of_ascii a).

Definition str_of_js (s : jsstr) : string :=
  String.string_of_list_ascii (ascii_of_byte <$> (s ≫= unit_bytes)).

Fixpoint units_of_bytes (bs : list Z) : jsstr :=
  match bs with
  | [] => []
  | b :: bs1 =>
      if b <? 0x80 then b :: units_of_bytes bs1 else
      match bs1 with
      | c :: bs2 =>
          if b <? 0xe0 then (b - 0xc0) * 0x40 + (c - 0x80) :: units_of_bytes bs2 else
          match bs2 with
          | d :: bs3 => (b - 0xe0) * 0x1000 + (c - 0x80) * 0x40 + (d - 0x80) :: units_of_bytes bs3
          | [] => []
          end
      | [] => []
      end
  end.

Definition js_of_str (s : string) : jsstr := units_of_bytes (byte_of_ascii <$> String.list_ascii_of_string s).

(** ** Fields *)

Definition f_text (o : obj) (n : string) : option string :=
  match field o n with Some (TText s) => Some (str_of_js s) | _ => None end.
Definition f_text_opt (o : obj) (n : string) : option (option string) :=
  match field o n with None => Some None | Some (TText s) => Some (Some (str_of_js s)) | _ => None end.
Definition f_text_null (o : obj) (n : string) : option (option string) :=
  match field o n with Some TNull => Some None | Some (TText s) => Some (Some (str_of_js s)) | _ => None end.
Definition num_int (n : jsnum) : option Z := match n with NInt z => Some z | NNegZero => Some 0 | _ => None end.
Definition f_int (o : obj) (n : string) : option Z :=
  match field o n with Some (TNum n) => num_int n | _ => None end.
Definition f_int_opt (o : obj) (n : string) : option (option Z) :=
  match field o n with None => Some None | Some (TNum n) => Some <$> num_int n | _ => None end.
Definition f_bool (o : obj) (n : string) : option bool :=
  match field o n with Some (TBool b) => Some b | _ => None end.
(** An optional flag, absent for false. *)
Definition f_flag (o : obj) (n : string) : option bool :=
  match field o n with None => Some false | Some (TBool b) => Some b | _ => None end.
Definition f_list {A} (view : tree → option A) (o : obj) (n : string) : option (list A) :=
  match field o n with Some (TArray ts) => mapM view ts | _ => None end.
Definition f_obj (o : obj) (n : string) : option obj :=
  match field o n with Some (TMap m) => Some m | _ => None end.

Definition double_of_num (n : jsnum) : double :=
  match n with
  | NInt z => binary_normalize 53 1024 z 0 false
  | NNegZero => S754_zero true
  | NFrac bits =>
      binary_normalize 53 1024 (if frac_negative bits then - frac_mant bits else frac_mant bits) (- frac_shift bits) false
  | NInf negative => S754_infinity negative
  | NNaN => S754_nan
  end.
Definition f_double (o : obj) (n : string) : option double :=
  match field o n with Some (TNum n) => Some (double_of_num n) | _ => None end.

(** A closed set of string values. *)
Definition f_enum {A} (o : obj) (n : string) (values : list (string * A)) : option A :=
  match field o n with Some (TText s) => map_get ((λ p, (js_lit p.1, p.2)) <$> values) s | _ => None end.

(** ** Usage and messages *)

Definition usageView (o : obj) : option Usage :=
  input ← f_double o "input"; output ← f_double o "output"; cacheRead ← f_double o "cacheRead";
  cacheWrite ← f_double o "cacheWrite"; total ← f_double o "totalTokens"; cost ← f_obj o "cost";
  costTotal ← f_double cost "total";
  Some (mkUsage input output cacheRead cacheWrite total costTotal).

Definition f_usage_opt (o : obj) (n : string) : option (option Usage) :=
  match field o n with None => Some None | Some (TMap m) => Some <$> usageView m | _ => None end.

Definition contentView (t : tree) : option Content :=
  match t with
  | TMap o =>
      if is_text (field o "type") "text" then text ← f_text o "text"; Some (ContentText text)
      else if is_text (field o "type") "thinking" then _ ← f_text o "thinking"; Some (ContentThinking t)
      else if is_text (field o "type") "image" then
        _ ← f_text o "data"; _ ← f_text o "mimeType"; Some (ContentImage t)
      else if is_text (field o "type") "toolCall" then
        id ← f_text o "id"; name ← f_text o "name"; args ← f_obj o "arguments";
        Some (ContentToolCall (mkToolCall id name (TMap args)))
      else None
  | _ => None
  end.

Definition textOrContentView (v : option tree) : option TextOrContent :=
  match v with
  | Some (TText s) => Some (PlainText (str_of_js s))
  | Some (TArray ts) => Parts <$> mapM contentView ts
  | _ => None
  end.

Definition STOP_REASONS : list (string * StopReason) :=
  [("pending", pending); ("stop", stop); ("length", length_); ("toolUse", toolUse); ("error", error_);
   ("aborted", aborted); ("deferred", deferred)].

Definition assistantView (o : obj) : option AssistantMessage :=
  content ← f_list contentView o "content"; provider ← f_text o "provider"; model ← f_text o "model";
  stopReason ← f_enum o "stopReason" STOP_REASONS; _ ← f_text o "api"; _ ← f_int o "timestamp";
  usage ← f_obj o "usage"; _ ← usageView usage;
  Some (mkAssistant content provider model stopReason (field o "deferred")
          (TMap (omit ["role"; "content"; "provider"; "model"; "stopReason"; "deferred"] o))).

Definition bashView (o : obj) : option BashExecutionMessage :=
  command ← f_text o "command"; output ← f_text o "output"; exitCode ← f_int_opt o "exitCode";
  cancelled ← f_bool o "cancelled"; truncated ← f_bool o "truncated"; path ← f_text_opt o "fullOutputPath";
  timestamp ← f_int o "timestamp"; exclude ← f_flag o "excludeFromContext";
  Some (mkBash command output exitCode cancelled truncated path timestamp exclude).

Definition messageView (t : tree) : option AgentMessage :=
  match t with
  | TMap o =>
      if is_text (field o "role") "user" then
        content ← textOrContentView (field o "content"); ts ← f_int o "timestamp"; Some (UserMessage content ts)
      else if is_text (field o "role") "assistant" then AssistantMsg <$> assistantView o
      else if is_text (field o "role") "toolResult" then
        id ← f_text o "toolCallId"; name ← f_text o "toolName"; _ ← f_list contentView o "content";
        _ ← f_bool o "isError"; _ ← f_int o "timestamp";
        Some (ToolResultMessage id name (TMap (omit ["role"; "toolCallId"; "toolName"] o)))
      else if is_text (field o "role") "bashExecution" then BashExecution <$> bashView o
      else if is_text (field o "role") "custom" then
        ct ← f_text o "customType"; content ← textOrContentView (field o "content"); display ← f_bool o "display";
        ts ← f_int o "timestamp"; Some (CustomMessage ct content display (field o "details") ts)
      else if is_text (field o "role") "branchSummary" then
        summary ← f_text o "summary"; from ← f_text o "fromId"; ts ← f_int o "timestamp";
        Some (BranchSummaryMessage summary from ts)
      else if is_text (field o "role") "compactionSummary" then
        summary ← f_text o "summary"; tokens ← f_int o "tokensBefore"; ts ← f_int o "timestamp";
        Some (CompactionSummaryMessage summary tokens ts)
      else None
  | _ => None
  end.

(** ** Entries *)

Definition ENTRY_TYPE_NAMES : list (string * EntryType) :=
  [("message", message); ("model_change", model_change); ("thinking_level_change", thinking_level_change);
   ("active_tools_change", active_tools_change); ("compaction", compaction); ("branch_summary", branch_summary);
   ("custom", custom)].

Definition textView (t : tree) : option string := match t with TText s => Some (str_of_js s) | _ => None end.

Definition entryBodyView (o : obj) : option EntryBody :=
  type ← f_enum o "type" ENTRY_TYPE_NAMES;
  match type with
  | message =>
      m ← field o "message"; m ← messageView m; terminate ← f_flag o "terminate"; Some (MessageEntry m terminate)
  | model_change => provider ← f_text o "provider"; model ← f_text o "modelId"; Some (ModelChangeEntry provider model)
  | thinking_level_change => level ← f_text o "thinkingLevel"; Some (ThinkingLevelEntry level)
  | active_tools_change => names ← f_list textView o "activeToolNames"; Some (ActiveToolsEntry names)
  | compaction =>
      summary ← f_text o "summary"; tail ← f_list messageView o "retainedTail"; tokens ← f_int o "tokensBefore";
      usage ← f_usage_opt o "usage"; Some (CompactionEntry summary tail tokens (field o "details") usage)
  | branch_summary =>
      from ← f_text o "fromId"; summary ← f_text o "summary"; usage ← f_usage_opt o "usage";
      Some (BranchSummaryEntry from summary (field o "details") usage)
  | custom => ct ← f_text o "customType"; Some (CustomEntry ct (field o "data"))
  end.

Definition provisionedView (t : tree) : option ProvisionedEntry :=
  match t with
  | TMap o => id ← f_text o "id"; body ← entryBodyView o; Some (mkProvisioned id body)
  | _ => None
  end.

Definition entryView (o : obj) : option Entry :=
  id ← f_text o "id"; seq ← f_int o "seq"; parent ← f_text_null o "parentId"; ts ← f_int o "timestamp";
  body ← entryBodyView o; Some (mkEntry id seq parent ts body).

(** ** Records *)

Definition RECORD_TYPE_NAMES : list (string * RecordType) :=
  [("operation_started", operation_started); ("abort_requested", abort_requested);
   ("operation_finished", operation_finished); ("step_attempt", step_attempt); ("tool_started", tool_started);
   ("queue_enqueued", queue_enqueued); ("queue_cancelled", queue_cancelled); ("write_deferred", write_deferred);
   ("usage", usage_)].
Definition OPERATION_KIND_NAMES : list (string * OperationKind) :=
  [("run", KRun); ("compaction", KCompaction); ("navigation", KNavigation)].
Definition OUTCOMES : list (string * Outcome) :=
  [("completed", completed); ("aborted", outcome_aborted); ("failed", outcome_failed); ("declined", declined)].
Definition STEPS : list (string * Step) :=
  [("assistant", StepAssistant); ("compaction", StepCompaction); ("branch_summary", StepBranchSummary)].
Definition QUEUES : list (string * Queue) := [("steer", QSteer); ("followUp", QFollowUp); ("nextRun", QNextRun)].
Definition CAUSES : list (string * UsageCause) :=
  [("assistant", CAssistant); ("compaction", CCompaction); ("branch_summary", CBranchSummary);
   ("deferred_fetch", CDeferredFetch); ("tool", CTool); ("hook", CHook); ("adjustment", CAdjustment)].

Definition intentView (o : obj) : option Intent :=
  kind ← f_enum o "kind" OPERATION_KIND_NAMES;
  match kind with
  | KRun =>
      prompt ← f_list messageView o "originalPrompt"; initial ← f_list provisionedView o "initialMessages";
      override ← f_text_opt o "systemPromptOverride"; Some (RunIntent prompt initial override (field o "resumeData"))
  | KCompaction =>
      custom ← f_text_opt o "customInstructions"; result ← f_text o "resultEntryId"; Some (CompactionIntent custom result)
  | KNavigation =>
      target ← f_text_null o "targetId"; summarize ← f_bool o "summarize"; custom ← f_text_opt o "customInstructions";
      label ← f_text_opt o "label"; summary ← f_text_opt o "summaryEntryId";
      Some (NavigationIntent target summarize custom label summary)
  end.

Definition finishErrorView (o : obj) : option (option (string * string)) :=
  match field o "error" with
  | None => Some None
  | Some (TMap e) => code ← f_text e "code"; msg ← f_text e "message"; Some (Some (code, msg))
  | _ => None
  end.

Definition recordBodyView (o : obj) : option RecordBody :=
  type ← f_enum o "type" RECORD_TYPE_NAMES;
  match type with
  | operation_started =>
      leaf ← f_text_null o "sourceLeafId"; i ← f_obj o "intent"; i ← intentView i; Some (OperationStarted leaf i)
  | abort_requested => run ← f_text o "runId"; Some (AbortRequested run)
  | operation_finished =>
      run ← f_text o "runId"; outcome ← f_enum o "outcome" OUTCOMES; e ← finishErrorView o;
      Some (OperationFinished run outcome e)
  | step_attempt =>
      run ← f_text o "runId"; step ← f_enum o "step" STEPS; attempt ← f_int o "attempt";
      result ← f_text o "resultEntryId"; reason ← f_text_opt o "compactionReason";
      Some (StepAttempt run step attempt result reason)
  | tool_started =>
      run ← f_text o "runId"; assistant ← f_text o "assistantEntryId"; index ← f_int o "toolIndex";
      call ← f_text o "toolCallId"; name ← f_text o "toolName"; args ← f_obj o "effectiveArgs";
      result ← f_text o "resultEntryId"; safe ← f_enum o "replay" [("never", false); ("safe", true)];
      Some (ToolStarted run assistant index call name (TMap args) result safe)
  | queue_enqueued =>
      queue ← f_enum o "queue" QUEUES; run ← f_text_opt o "runId"; t ← field o "target"; t ← provisionedView t;
      Some (QueueEnqueued queue run t)
  | queue_cancelled => run ← f_text_opt o "runId"; entry ← f_text o "entryId"; Some (QueueCancelled run entry)
  | write_deferred =>
      run ← f_text o "runId"; t ← field o "target"; t ← provisionedView t; Some (WriteDeferred run t)
  | usage_ =>
      cause ← f_enum o "cause" CAUSES; u ← f_obj o "usage"; u ← usageView u; run ← f_text_opt o "runId";
      entry ← f_text_opt o "entryId";
      Some (UsageRecord cause u run entry (TMap (omit ["id"; "seq"; "lane"; "timestamp"; "type"; "cause"; "usage"; "runId"; "entryId"] o)))
  end.

Definition recordView (o : obj) : option LaneRecord :=
  id ← f_text o "id"; seq ← f_int o "seq"; lane ← f_text o "lane"; ts ← f_int o "timestamp";
  body ← recordBodyView o; Some (mkRecord id seq lane ts body).

(** ** Mutations *)

Definition mutationView (m : LineMutation) : option SessionMutation :=
  match m with
  | LineEntry lane e => MutEntry (str_of_js <$> lane) <$> entryView e
  | LineRecord r => MutRecord <$> recordView r
  | LineLane seq lane leafId => Some (MutLane seq (str_of_js lane) (str_of_js <$> leafId))
  | LineName seq name => Some (MutName seq (str_of_js <$> name))
  | LineLabel seq targetId label => Some (MutLabel seq (str_of_js targetId) (str_of_js <$> label))
  end.
