(* ===== verification/JsonlStorage.v ===== *)
(** The JSON-lines session storage: [harness/session/jsonl/storage.ts] with
    [errors.ts].

    The file system is a class of operations on a state [F]; its laws are in
    FileSystem.v.  A method is a function from the file system to the file
    system and a result: an error does not undo what was written.  The methods
    run one at a time, in the order of the calls ([enqueue]).

    The class's [SessionState] holds the entry objects themselves; here [js_state]
    is their view as data types and [js_lines] the applied mutations with the
    objects, in order. *)
From S2P Require Import Prelude JsValue JsMap Json JsonlCodec SessionTypes SessionState SessionView FileSystem.
Open Scope Z_scope.

(** ** Methods *)

(** What a method throws: a [SessionError], or [Untyped] when a payload is not of
    its declared type, where the code goes on with a value outside its types. *)
Inductive jsonl_error := Thrown (e : session_error) | Untyped.

Definition io (F A : Type) : Type := F → F * result jsonl_error A.

Definition io_ret {F A} (a : A) : io F A := λ f, (f, Ok a).
Definition io_throw {F A} (e : jsonl_error) : io F A := λ f, (f, Err e).
Definition io_bind {F A B} (m : io F A) (k : A → io F B) : io F B :=
  λ f, match m f with (f', Ok a) => k a f' | (f', Err e) => (f', Err e) end.
Definition io_lift {F A} (r : result session_error A) : io F A :=
  λ f, (f, match r with Ok a => Ok a | Err e => Err (Thrown e) end).
Definition io_typed {F A} (v : option A) : io F A :=
  match v with Some a => io_ret a | None => io_throw Untyped end.

Notation "'let!' x := m 'in' k" := (io_bind m (λ x, k))
  (at level 10, x pattern, m at level 100, k at level 200).

(** A loop [for (const x of l) st = await f(st, x)]. *)
Fixpoint io_fold {F A S} (f : S → A → io F S) (s : S) (l : list A) : io F S :=
  match l with
  | [] => io_ret s
  | a :: l => let! s := f s a in io_fold f s l
  end.

(** [fileResult(await fs.op(...), message)] *)
Definition fileResult {F A} (op : F → F * fs_result A) (what : string) : io F A :=
  λ f, match op f with
       | (f', Ok a) => (f', Ok a)
       | (f', Err code) =>
           (f', Err (Thrown (SessionError (if bool_decide (code = fe_not_found) then not_found else storage) what)))
       end.

Definition invalidFile (cause : string) : jsonl_error := Thrown (SessionError invalid_entry cause).

(** [content.split("\n")] *)
Fixpoint split_lines (s : jsstr) : list jsstr :=
  match s with
  | [] => [[]]
  | c :: s =>
      if c =? newline then [] :: split_lines s else
      match split_lines s with
      | line :: lines => (c :: line) :: lines
      | [] => [[c]]
      end
  end.

(** [lines.join("\n")] *)
Definition join_lines (lines : list jsstr) : jsstr := join [newline] lines.

Definition ends_with_newline (s : jsstr) : bool := bool_decide (last s = Some newline).

Record JsonlSessionStorage := mkJsonl {
  js_metadata : JsonlSessionMetadata;
  js_state : SessionState;
  js_lines : list LineMutation;
}.

Definition new_JsonlSessionStorage (m : JsonlSessionMetadata) : JsonlSessionStorage :=
  mkJsonl m new_SessionState [].

(** [this.state.applyMutation(mutation)] *)
Definition applyLine (st : JsonlSessionStorage) (m : LineMutation) : result jsonl_error JsonlSessionStorage :=
  match mutationView m with
  | None => Err Untyped
  | Some mutation =>
      match applyMutation (js_state st) mutation with
      | Ok s => Ok (mkJsonl (js_metadata st) s (js_lines st ++ [m]))
      | Err e => Err (Thrown e)
      end
  end.

(** The loop of [load]: every line applied, the last one torn, or an error. *)
Inductive replayed :=
| Replayed (st : JsonlSessionStorage)
| TornTail (st : JsonlSessionStorage)
| Rejected (e : jsonl_error).

Fixpoint replayLines (st : JsonlSessionStorage) (lines : list jsstr) : replayed :=
  match lines with
  | [] => Replayed st
  | line :: rest =>
      match parseMutation line with
      | Err (DecodeError kind why) =>
          if bool_decide (rest = []) && bool_decide (kind = syntax) then TornTail st
          else Rejected (invalidFile why)
      | Ok m =>
          match applyLine st m with
          | Ok st => replayLines st rest
          | Err (Thrown (SessionError invalid_entry cause)) => Rejected (invalidFile cause)
          | Err e => Rejected e
          end
      end
  end.

Section storage.
Context {F : Type} `{FileSystem F}.
Implicit Types (st : JsonlSessionStorage) (p : path).

Definition tempPath p : path := p ++ js_lit ".tmp".

(** [try] with a best-effort removal of the staged file before rethrowing. *)
Definition publishFileAtomically (destinationPath : path) (populate : path → io F unit) : io F unit :=
  λ f,
    let tmp := tempPath destinationPath in
    let staged := (let! _ := populate tmp in fileResult (renameFile tmp destinationPath) "publish") f in
    match staged with
    | (f, Ok _) => (f, Ok tt)
    | (f, Err e) => ((remove tmp f).1, Err e)
    end.

Definition create p (header : JsonlV4Header) : io F JsonlSessionStorage :=
  let! _ := fileResult (writeFile p (encodeHeader header)) "initialize" in
  let! info := fileResult (fileInfo p) "metadata" in
  io_ret (new_JsonlSessionStorage (metadataFromHeader header p (fi_mtimeMs info))).

Definition physicalLines (content : jsstr) : list jsstr :=
  let lines := split_lines content in
  if bool_decide (last lines = Some []) then removelast lines else lines.

Definition load p : io F JsonlSessionStorage :=
  let! content := fileResult (readTextFile p) "read" in
  let lines := physicalLines content in
  match lines with
  | [] => io_throw (invalidFile "missing header")
  | first :: rest =>
      if bool_decide (first = []) then io_throw (invalidFile "missing header") else
      match parseHeader first with
      | Err (DecodeError _ why) => io_throw (invalidFile why)
      | Ok header =>
          let! info := fileResult (fileInfo p) "metadata" in
          let st := new_JsonlSessionStorage (metadataFromHeader header p (fi_mtimeMs info)) in
          match replayLines st rest with
          | Rejected e => io_throw e
          | TornTail st =>
              let validPrefix := join_lines (removelast lines) ++ [newline] in
              let! _ := publishFileAtomically p (λ tmp, fileResult (writeFile tmp validPrefix) "stage repair") in
              io_ret st
          | Replayed st =>
              if ends_with_newline content then io_ret st else
              let! _ := fileResult (appendFile p [newline]) "repair tail" in io_ret st
          end
      end
  end.

Definition appendMutation st (m : LineMutation) : io F unit :=
  fileResult (appendFile (jm_path (js_metadata st)) (encodeMutation m)) "append".

(** [await this.appendMutation(mutation); this.applyMutation(mutation)] *)
Definition commit st (m : LineMutation) : io F JsonlSessionStorage :=
  let! _ := appendMutation st m in λ f, (f, applyLine st m).

Definition jsonl_getLanes st : list (string * option string) := getLanes (js_state st).

Definition jsonl_createLane st (lane : jsstr) (at_ : option jsstr) : io F JsonlSessionStorage :=
  let! _ := io_lift (validateNewLane (js_state st) (str_of_js lane)) in
  let! _ := io_lift (validateTarget (js_state st) (str_of_js <$> at_)) in
  commit st (LineLane (nextSequence (js_state st)) lane at_).

Definition jsonl_moveLane st (lane : jsstr) (to : option jsstr) : io F JsonlSessionStorage :=
  let! _ := io_lift (requireLane (js_state st) (str_of_js lane)) in
  let! _ := io_lift (validateTarget (js_state st) (str_of_js <$> to)) in
  commit st (LineLane (nextSequence (js_state st)) lane to).

(** [now] is [Date.now()]; the result is the appended object. *)
Definition jsonl_appendEntry st (now : Z) (newEntry : obj) (lane : jsstr) : io F (JsonlSessionStorage * obj) :=
  let! parentId := io_lift (requireLane (js_state st) (str_of_js lane)) in
  let! id := io_typed (f_text newEntry "id") in
  let! _ := io_lift (validateUnusedId (js_state st) id) in
  let entry := spread newEntry [(js_lit "parentId", nullable (js_of_str <$> parentId));
                                (js_lit "seq", TNum (NInt (nextSequence (js_state st))));
                                (js_lit "timestamp", TNum (NInt now))] in
  let! st := commit st (LineEntry (Some lane) entry) in io_ret (st, entry).

Definition jsonl_appendRecord st (now : Z) (newRecord : obj) : io F (JsonlSessionStorage * obj) :=
  let! lane := io_typed (f_text newRecord "lane") in
  let! id := io_typed (f_text newRecord "id") in
  let! _ := io_lift (requireLane (js_state st) lane) in
  let! _ := io_lift (validateUnusedId (js_state st) id) in
  let! current := io_lift (findOpenOperations (js_state st) lane (Some (NInt 1))) in
  if is_text (field newRecord "type") "operation_started" && negb (bool_decide (head current = None))
  then io_throw (Thrown (SessionError storage lane)) else
  let record := spread newRecord [(js_lit "seq", TNum (NInt (nextSequence (js_state st))));
                                  (js_lit "timestamp", TNum (NInt now))] in
  let! st := commit st (LineRecord record) in io_ret (st, record).

Definition jsonl_setName st (name : option jsstr) : io F JsonlSessionStorage :=
  commit st (LineName (nextSequence (js_state st)) name).

Definition jsonl_setLabel st (id : jsstr) (label : option jsstr) : io F JsonlSessionStorage :=
  let! _ := io_lift (validateTarget (js_state st) (Some (str_of_js id))) in
  commit st (LineLabel (nextSequence (js_state st)) id label).

(** ** Forking *)

(** The object of an entry the state holds. *)
Definition entry_objects (lines : list LineMutation) (id : string) : option obj :=
  head (omap (λ m, match m with
                   | LineEntry _ e => if bool_decide (f_text e "id" = Some id) then Some e else None
                   | _ => None
                   end) lines).

(** A mutation of [createForkMutations] with its object: [{ ...entry, seq }]. *)
Definition fork_line (lines : list LineMutation) (m : SessionMutation) : option LineMutation :=
  match m with
  | MutEntry lane e =>
      o ← entry_objects lines (e_id e);
      Some (LineEntry (js_of_str <$> lane) (set_prop (js_lit "seq") (TNum (NInt (e_seq e))) o))
  | MutRecord _ => None
  | MutLane seq lane leafId => Some (LineLane seq (js_of_str lane) (js_of_str <$> leafId))
  | MutName seq name => Some (LineName seq (js_of_str <$> name))
  | MutLabel seq targetId label => Some (LineLabel seq (js_of_str targetId) (js_of_str <$> label))
  end.

Definition jsonl_fork st p (header : JsonlV4Header) (options : ForkOptions) : io F JsonlSessionStorage :=
  let! mutations := io_lift (createForkMutations (js_state st) options) in
  let! lines := io_typed (mapM (fork_line (js_lines st)) mutations) in
  let! _ := publishFileAtomically p (λ tmp,
         let! target := create tmp header in
         let! _ := io_fold commit target lines in io_ret tt) in
  load p.
End storage.
