(* ===== verification/JsonlStorageSpec.v ===== *)
(** The JSON-lines storage against its file: the file always is the header and
    the applied mutations, loading replays them, and an append cut anywhere
    leaves the session before it or after it. *)
From S2P Require Import Prelude JsValue JsMap Json JsonSpec JsonlCodec JsonlCodecSpec SessionTypes SessionState SessionView FileSystem JsonlStorage.
Open Scope Z_scope.

(** ** Strings *)

Lemma byte_ascii b : 0 ≤ b < 256 → byte_of_ascii (ascii_of_byte b) = b.
Proof.
  intros Hb. unfold byte_of_ascii, ascii_of_byte. rewrite Ascii.N_ascii_embedding, Z2N.id; [done|lia|].
  apply N2Z.inj_lt. rewrite Z2N.id by lia. change (Z.of_N 256) with 256. lia.
Qed.

Lemma unit_bytes_byte u : 0 ≤ u < 0x10000 → Forall (λ b, 0 ≤ b < 256) (unit_bytes u).
Proof.
  intros Hu. unfold unit_bytes. destruct (Z.ltb_spec u 0x80); [repeat constructor; lia|].
  destruct (Z.ltb_spec u 0x800); repeat constructor; Z.div_mod_to_equations; lia.
Qed.

Lemma units_of_unit u bs : 0 ≤ u < 0x10000 → units_of_bytes (unit_bytes u ++ bs) = u :: units_of_bytes bs.
Proof.
  intros Hu. unfold unit_bytes. destruct (Z.ltb_spec u 0x80) as [H1|H1].
  { cbn [app units_of_bytes]. by rewrite (proj2 (Z.ltb_lt u 0x80)). }
  destruct (Z.ltb_spec u 0x800) as [H2|H2]; cbn [app units_of_bytes].
  - rewrite (proj2 (Z.ltb_ge _ 0x80)) by (Z.div_mod_to_equations; lia).
    rewrite (proj2 (Z.ltb_lt _ 0xe0)) by (Z.div_mod_to_equations; lia). f_equal. Z.div_mod_to_equations. lia.
  - rewrite (proj2 (Z.ltb_ge _ 0x80)) by (Z.div_mod_to_equations; lia).
    rewrite (proj2 (Z.ltb_ge _ 0xe0)) by (Z.div_mod_to_equations; lia). f_equal. Z.div_mod_to_equations. lia.
Qed.

(** Reading a string and writing it again. *)
Lemma js_of_str_of_js s : text_ok s = true → js_of_str (str_of_js s) = s.
Proof.
  intros Hs. unfold js_of_str, str_of_js. rewrite String.list_ascii_of_string_of_list_ascii, <- list_fmap_compose.
  assert (Forall (λ u, 0 ≤ u < 0x10000) s) as Hf.
  { apply Forall_forall. intros u Hu. unfold text_ok in Hs. rewrite forallb_forall in Hs.
    apply list_elem_of_In, Hs in Hu. lia. }
  assert (byte_of_ascii ∘ ascii_of_byte <$> (s ≫= unit_bytes) = s ≫= unit_bytes) as ->.
  { clear Hs. induction Hf as [|u s Hu _ IH]; [done|]. rewrite bind_cons, fmap_app, IH. f_equal.
    rewrite <- (list_fmap_id (unit_bytes u)) at 2. apply list_fmap_ext. intros i b Hb. apply byte_ascii.
    pose proof (unit_bytes_byte u Hu) as Hbs. rewrite Forall_forall in Hbs.
    by eapply Hbs, list_elem_of_lookup_2. }
  clear Hs. induction Hf as [|u s Hu _ IH]; [done|]. rewrite bind_cons, units_of_unit by done. by rewrite IH.
Qed.

(** ** Lines of a file *)

Definition line_text (m : LineMutation) : jsstr := JSON_stringify (TMap (mutation_object m)).
Definition header_text (h : JsonlV4Header) : jsstr := JSON_stringify (TMap (header_object h)).

(** The file of a session: its header and its mutations, one per line. *)
Definition file_text (h : JsonlV4Header) (ms : list LineMutation) : jsstr :=
  encodeHeader h ++ concat (encodeMutation <$> ms).

Lemma encodeMutation_line m : encodeMutation m = line_text m ++ [newline].
Proof. done. Qed.

Lemma line_text_newline m : line_ok m = true → newline ∉ line_text m.
Proof. intros H. by apply encode_line, line_object_ok. Qed.

Lemma header_text_newline h : header_ok h = true → newline ∉ header_text h.
Proof. intros H. by apply encode_line, header_object_ok. Qed.

Lemma line_text_nonempty m : line_text m ≠ [].
Proof. done. Qed.

Lemma split_lines_nonempty s : split_lines s ≠ [].
Proof. induction s as [|c s IH]; [done|]. cbn. case_match; [done|]. by destruct (split_lines s). Qed.

Lemma split_lines_line a s : newline ∉ a → split_lines (a ++ newline :: s) = a :: split_lines s.
Proof.
  induction a as [|c a IH]; intros Ha; cbn [app split_lines]; [by rewrite Z.eqb_refl|].
  apply not_elem_of_cons in Ha as [Hc Ha]. destruct (Z.eqb_spec c newline); [congruence|]. by rewrite IH.
Qed.

Lemma split_lines_last a : newline ∉ a → split_lines a = [a].
Proof.
  induction a as [|c a IH]; intros Ha; [done|]. apply not_elem_of_cons in Ha as [Hc Ha]. cbn.
  destruct (Z.eqb_spec c newline); [congruence|]. by rewrite IH.
Qed.

Lemma split_lines_file h ms s :
  header_ok h = true → Forall (λ m, line_ok m = true) ms →
  split_lines (file_text h ms ++ s) = header_text h :: (line_text <$> ms) ++ split_lines s.
Proof.
  intros Hh Hms. unfold file_text, encodeHeader. fold (header_text h). rewrite <- !app_assoc. cbn [app].
  rewrite split_lines_line by (by apply header_text_newline). f_equal.
  induction Hms as [|m ms Hm _ IH]; [done|]. rewrite !fmap_cons. cbn [concat].
  rewrite encodeMutation_line, <- !app_assoc. cbn [app].
  rewrite split_lines_line by (by apply line_text_newline). by rewrite IH.
Qed.

(** What [load] takes for the lines: the empty piece after a final break is dropped. *)
Lemma physicalLines_file h ms k :
  header_ok h = true → Forall (λ m, line_ok m = true) ms → newline ∉ k →
  physicalLines (file_text h ms ++ k) =
  header_text h :: (line_text <$> ms) ++ (if bool_decide (k = []) then [] else [k]).
Proof.
  intros Hh Hms Hk. unfold physicalLines. rewrite split_lines_file by done.
  rewrite (split_lines_last k Hk), app_comm_cons, last_snoc.
  destruct (decide (k = [])) as [->|Hne].
  - rewrite !bool_decide_eq_true_2 by done. by rewrite removelast_last, app_nil_r.
  - rewrite (bool_decide_eq_false_2 (k = [])) by done.
    by rewrite (bool_decide_eq_false_2 (Some k = Some [])) by congruence.
Qed.

Lemma file_text_snoc h ms m : file_text h (ms ++ [m]) = file_text h ms ++ encodeMutation m.
Proof. unfold file_text. rewrite fmap_app, concat_app. cbn [fmap list_fmap concat]. by rewrite app_nil_r, <- app_assoc. Qed.

Lemma file_ends h ms : ends_with_newline (file_text h ms) = true.
Proof.
  unfold ends_with_newline. apply bool_decide_eq_true_2. destruct ms as [|m ms _] using rev_ind.
  - unfold file_text. cbn [fmap list_fmap concat]. rewrite app_nil_r. apply last_snoc.
  - rewrite file_text_snoc, encodeMutation_line, app_assoc. apply last_snoc.
Qed.

(** The text that publishing a torn file's valid lines writes. *)
Lemma join_lines_file h ms :
  join_lines (header_text h :: (line_text <$> ms)) ++ [newline] = file_text h ms.
Proof.
  unfold join_lines, file_text, encodeHeader. fold (header_text h).
  generalize (header_text h) as t. induction ms as [|m ms IH]; intros t.
  - cbn. by rewrite app_nil_r.
  - rewrite fmap_cons, join_cons by done. rewrite <- !app_assoc, IH. rewrite fmap_cons. cbn [concat].
    rewrite encodeMutation_line. by rewrite <- !app_assoc.
Qed.

(** ** Replaying *)

(** The storage a list of mutations leads to. *)
Definition replay (md : JsonlSessionMetadata) (ms : list LineMutation) : result jsonl_error JsonlSessionStorage :=
  rfold applyLine (new_JsonlSessionStorage md) ms.

Lemma applyLine_Ok st m st' :
  applyLine st m = Ok st' →
  js_metadata st' = js_metadata st ∧ js_lines st' = js_lines st ++ [m] ∧
  ∃ mu, mutationView m = Some mu ∧ applyMutation (js_state st) mu = Ok (js_state st').
Proof.
  unfold applyLine. destruct (mutationView m) as [mu|]; [|done].
  destruct (applyMutation (js_state st) mu) as [s|e] eqn:E; [|done]. intros [= <-]. cbn. eauto.
Qed.

Lemma replayLines_app st ms st' rest :
  Forall (λ m, line_ok m = true) ms → rfold applyLine st ms = Ok st' →
  replayLines st ((line_text <$> ms) ++ rest) = replayLines st' rest.
Proof.
  intros Hms. revert st. induction Hms as [|m ms Hm _ IH]; intros st Hr; cbn in Hr; [by injection Hr as ->|].
  apply rbind_Ok in Hr as (st1 & Ha & Hr). rewrite fmap_cons. cbn [app replayLines].
  unfold line_text at 1. rewrite line_reads by done. rewrite Ha. by apply IH.
Qed.

Lemma rfold_lines ms st st' :
  rfold applyLine st ms = Ok st' → js_metadata st' = js_metadata st ∧ js_lines st' = js_lines st ++ ms.
Proof.
  revert st. induction ms as [|m ms IH]; intros st Hr; cbn in Hr.
  - injection Hr as ->. by rewrite app_nil_r.
  - apply rbind_Ok in Hr as (st1 & (Hm & Hl & _)%applyLine_Ok & (Hm' & Hl')%IH).
    rewrite Hm', Hl', Hm, Hl, <- app_assoc. done.
Qed.

(** A cut line is a syntax error. *)
Lemma parse_cut m k q :
  line_ok m = true → line_text m = k ++ q → q ≠ [] → ∃ msg, parseMutation k = Err (DecodeError syntax msg).
Proof.
  intros Hm Hk Hq. unfold parseMutation, decodeMutation, parseObject.
  rewrite (JSON_cut _ k q (line_object_ok m Hm) Hk Hq). eauto.
Qed.

(** A prefix of an encoded mutation: the whole line, the line without its break,
    nothing, or a cut line. *)
Lemma encode_prefix m k :
  k `prefix_of` encodeMutation m →
  k = encodeMutation m ∨ k = line_text m ∨ ∃ q, line_text m = k ++ q ∧ q ≠ [].
Proof.
  intros [q Hq]. rewrite encodeMutation_line in Hq. apply app_eq_inv in Hq as [(r & Hr & Hq)|(r & -> & Hq)].
  - destruct r as [|c r]; [right; left; by rewrite app_nil_r in Hr|]. right. right. exists (c :: r). done.
  - destruct r as [|c r]; [right; left; by rewrite app_nil_r|]. left. injection Hq as <- Hq.
    by destruct r, q.
Qed.

(** [ms] is a history that leads to the state [s]. *)
Definition history (ms : list LineMutation) (s : SessionState) : Prop :=
  Forall (λ m, line_ok m = true) ms ∧ ∀ md, replay md ms = Ok (mkJsonl md s ms).

Lemma applyLine_metadata st m st' md :
  applyLine st m = Ok st' →
  applyLine (mkJsonl md (js_state st) (js_lines st)) m = Ok (mkJsonl md (js_state st') (js_lines st')).
Proof.
  unfold applyLine. destruct (mutationView m) as [mu|]; [|done]. cbn [js_state].
  destruct (applyMutation (js_state st) mu); [|done]. by intros [= <-].
Qed.

Lemma replay_metadata md ms st md' :
  replay md ms = Ok st → replay md' ms = Ok (mkJsonl md' (js_state st) (js_lines st)).
Proof.
  unfold replay. revert st. induction ms as [|m ms IH] using rev_ind; intros st.
  - cbn. by intros [= <-].
  - rewrite !rfold_app. intros (st0 & H0 & H1)%rbind_Ok. rewrite (IH _ H0). cbn [rbind rfold] in *.
    apply rbind_Ok in H1 as (st1 & Ha & [= ->]). by rewrite (applyLine_metadata _ _ _ md' Ha).
Qed.

Lemma history_nil : history [] new_SessionState.
Proof. by split; [constructor|]. Qed.

Lemma history_snoc ms s m st' md :
  history ms s → line_ok m = true → applyLine (mkJsonl md s ms) m = Ok st' → history (ms ++ [m]) (js_state st').
Proof.
  intros [Hms Hr] Hm Ha. split; [apply Forall_app; by auto|].
  intros md'. unfold replay in *. rewrite rfold_app, Hr. cbn [rbind rfold].
  pose proof (applyLine_metadata _ _ _ md' Ha) as Ha'. cbn [js_state js_lines] in Ha'.
  apply applyLine_Ok in Ha as (_ & Hl & _). cbn [js_lines] in Hl. rewrite Ha', Hl. done.
Qed.

(** An error that a file operation caused. *)
Definition io_failure (e : jsonl_error) : Prop :=
  ∃ c w, e = Thrown (SessionError c w) ∧ (c = not_found ∨ c = storage).

(** ** Running methods *)

Lemma bind_Ok {F A B} (m : io F A) (k : A → io F B) f f' b :
  io_bind m k f = (f', Ok b) → ∃ f1 a, m f = (f1, Ok a) ∧ k a f1 = (f', Ok b).
Proof. unfold io_bind. destruct (m f) as [f1 [a|e]]; [eauto|done]. Qed.

Lemma bind_Err {F A B} (m : io F A) (k : A → io F B) f f' e :
  io_bind m k f = (f', Err e) → m f = (f', Err e) ∨ ∃ f1 a, m f = (f1, Ok a) ∧ k a f1 = (f', Err e).
Proof. unfold io_bind. destruct (m f) as [f1 [a|e']]; [eauto|]. intros [= -> ->]. by left. Qed.

Lemma lift_Ok {F A} (r : result session_error A) (f f' : F) a : io_lift r f = (f', Ok a) → f' = f ∧ r = Ok a.
Proof. unfold io_lift. destruct r; [|done]. by intros [= -> ->]. Qed.

Lemma lift_Err {F A} (r : result session_error A) (f f' : F) e :
  io_lift r f = (f', Err e) → f' = f ∧ ∃ e', r = Err e' ∧ e = Thrown e'.
Proof. unfold io_lift. destruct r; [done|]. intros [= -> <-]. eauto. Qed.

Lemma typed_Ok {F A} (v : option A) (f f' : F) a : io_typed v f = (f', Ok a) → f' = f ∧ v = Some a.
Proof. destruct v; [|done]. by intros [= -> ->]. Qed.

Lemma typed_Err {F A} (v : option A) (f f' : F) e : io_typed v f = (f', Err e) → f' = f ∧ v = None ∧ e = Untyped.
Proof. destruct v; [done|]. by intros [= -> <-]. Qed.

Lemma fileResult_Ok {F A} (op : F → F * fs_result A) w f f' a :
  fileResult op w f = (f', Ok a) → op f = (f', Ok a).
Proof. unfold fileResult. destruct (op f) as [f1 [b|c]]; [by intros [= -> ->]|done]. Qed.

Lemma fileResult_Err {F A} (op : F → F * fs_result A) w f f' e :
  fileResult op w f = (f', Err e) → (∃ c, op f = (f', Err c)) ∧ io_failure e.
Proof.
  unfold fileResult. destruct (op f) as [f1 [b|c]]; [done|]. intros [= -> <-]. split; [eauto|].
  unfold io_failure. destruct (bool_decide (c = fe_not_found)); eauto 10.
Qed.

Section laws.
Context {F : Type} `{FsLaws F}.
Implicit Types f : F.

Lemma tempPath_ne p : tempPath p ≠ p.
Proof. unfold tempPath. intros E%(f_equal length). rewrite length_app in E. change (length (js_lit ".tmp")) with 4%nat in E. lia. Qed.

(** Publishing: the destination is the staged text, or untouched. *)
Lemma publish_spec p populate f f' r :
  publishFileAtomically p populate f = (f', r) →
  (∀ f1 r1, populate (tempPath p) f = (f1, r1) → ∀ q, q ≠ tempPath p → files f1 !! q = files f !! q) →
  (∀ q, q ≠ p → q ≠ tempPath p → files f' !! q = files f !! q) ∧
  match r with
  | Ok _ => ∃ f1 t, populate (tempPath p) f = (f1, Ok tt) ∧ files f1 !! tempPath p = Some t ∧ files f' !! p = Some t
  | Err e => files f' !! p = files f !! p ∧ (io_failure e ∨ ∃ f1, populate (tempPath p) f = (f1, Err e))
  end.
Proof.
  unfold publishFileAtomically. intros Hp Hpop.
  destruct ((let! _ := _ in _) f) as [f1 [[]|e]] eqn:E.
  - injection Hp as <- <-. apply bind_Ok in E as (f2 & [] & E1 & E2%fileResult_Ok).
    apply rename_law in E2 as [E2 _]. destruct (E2 eq_refl) as (t & Ht & Hf).
    specialize (Hpop _ _ E1). split.
    + intros q Hq Hqt. rewrite Hf, lookup_insert_ne, lookup_delete_ne by done. by apply Hpop.
    + exists f2, t. split; [done|]. split; [done|]. rewrite Hf. by rewrite lookup_insert_eq.
  - destruct (remove (tempPath p) f1) as [f3 r3] eqn:Er. injection Hp as <- <-.
    pose proof (remove_law _ _ _ _ Er) as Hrm. cbn [fst].
    assert (∀ q, q ≠ tempPath p → files f1 !! q = files f !! q) as Hsame.
    { apply bind_Err in E as [E|(f2 & [] & E1 & E2)]; [by eapply Hpop|].
      apply fileResult_Err in E2 as [[c E2] _]. apply rename_law in E2 as [_ E2]. intros q Hq.
      rewrite (E2 c eq_refl). by eapply Hpop. }
    split; [intros q Hq Hqt; rewrite Hrm by done; by apply Hsame|]. split.
    + rewrite Hrm by (intros Eq; by apply (tempPath_ne p)). apply Hsame. intros Eq. by apply (tempPath_ne p).
    + apply bind_Err in E as [E|(f2 & [] & E1 & E2)]; [right; eauto|].
      left. by apply fileResult_Err in E2 as [_ ?].
Qed.

(** [load] after the read: the header is there and the history replays. *)
Lemma load_unfold p f f1 f2 h ms s k info :
  header_ok h = true → history ms s → newline ∉ k →
  readTextFile p f = (f1, Ok (file_text h ms ++ k)) → fileInfo p f1 = (f2, Ok info) →
  let st := mkJsonl (metadataFromHeader h p (fi_mtimeMs info)) s ms in
  load p f =
  match replayLines st (if bool_decide (k = []) then [] else [k]) with
  | Rejected e => (f2, Err e)
  | TornTail st' =>
      (let! _ := publishFileAtomically p (λ tmp,
         fileResult (writeFile tmp (join_lines (removelast (header_text h :: (line_text <$> ms) ++
           (if bool_decide (k = []) then [] else [k]))) ++ [newline])) "stage repair") in io_ret st') f2
  | Replayed st' =>
      (if ends_with_newline (file_text h ms ++ k) then io_ret st' else
       let! _ := fileResult (appendFile p [newline]) "repair tail" in io_ret st') f2
  end.
Proof.
  intros Hh [Hms Hr] Hk Hread Hinfo st. unfold load, io_bind at 1, fileResult at 1. rewrite Hread.
  rewrite physicalLines_file by done. cbn zeta beta.
  rewrite (bool_decide_eq_false_2 (header_text h = [])) by done.
  unfold header_text at 1. rewrite header_reads by done.
  unfold io_bind at 1, fileResult at 1. rewrite Hinfo. cbn zeta beta.
  rewrite (replayLines_app _ _ _ _ Hms (Hr _)). fold st. by destruct (replayLines st _).
Qed.

(** Removing the torn line. *)
Lemma removelast_lines h ms k :
  removelast (header_text h :: (line_text <$> ms) ++ [k]) = header_text h :: (line_text <$> ms).
Proof. rewrite app_comm_cons. apply removelast_last. Qed.

Lemma load_whole p f f1 f2 h ms s info :
  header_ok h = true → history ms s →
  readTextFile p f = (f1, Ok (file_text h ms)) → fileInfo p f1 = (f2, Ok info) →
  load p f = (f2, Ok (mkJsonl (metadataFromHeader h p (fi_mtimeMs info)) s ms)).
Proof.
  intros Hh Hms Hread Hinfo. rewrite <- (app_nil_r (file_text h ms)) in Hread.
  rewrite (load_unfold p f f1 f2 h ms s [] info) by (done || apply not_elem_of_nil).
  rewrite bool_decide_eq_true_2 by done. cbn [replayLines]. by rewrite app_nil_r, file_ends.
Qed.

(** The tail of a file whose last append was cut. *)
Definition cut_tail (m : LineMutation) (k : jsstr) : Prop := k `prefix_of` encodeMutation m.

Lemma load_torn p f f1 f2 f' r h ms s m k q info :
  header_ok h = true → history ms s → line_ok m = true → line_text m = k ++ q → q ≠ [] → k ≠ [] →
  readTextFile p f = (f1, Ok (file_text h ms ++ k)) → fileInfo p f1 = (f2, Ok info) → load p f = (f', r) →
  match r with
  | Ok st => st = mkJsonl (metadataFromHeader h p (fi_mtimeMs info)) s ms ∧ files f' !! p = Some (file_text h ms)
  | Err e => io_failure e ∧ files f' !! p = files f2 !! p
  end.
Proof.
  intros Hh Hms Hm Hk Hq Hne Hread Hinfo Hload.
  assert (newline ∉ k) as Hnl.
  { intros Hin. apply (line_text_newline m Hm). rewrite Hk. apply elem_of_app. by left. }
  rewrite (load_unfold p f f1 f2 h ms s k info) in Hload by done.
  rewrite (bool_decide_eq_false_2 (k = [])) in Hload by done. cbn [replayLines] in Hload.
  destruct (parse_cut m k q Hm Hk Hq) as [msg Hp]. rewrite Hp in Hload.
  rewrite !bool_decide_eq_true_2 in Hload by done. cbn [andb] in Hload.
  rewrite removelast_lines, join_lines_file in Hload.
  assert (∀ f3 r3, fileResult (writeFile (tempPath p) (file_text h ms)) "stage repair" f2 = (f3, r3) →
    ∀ q, q ≠ tempPath p → files f3 !! q = files f2 !! q) as Hst.
  { intros f3 [[]|e] E q' Hq'.
    - apply fileResult_Ok, write_law in E as [E _]. by apply E.
    - apply fileResult_Err in E as [[c E] _]. apply write_law in E as [E _]. by apply E. }
  destruct r as [st|e].
  - apply bind_Ok in Hload as (f3 & [] & Hpub & [= -> <-]). split; [done|].
    destruct (publish_spec _ _ _ _ _ Hpub Hst) as (_ & f4 & t & Hw & Ht & Hf).
    apply fileResult_Ok, write_law in Hw as [_ Hw]. rewrite Hw, lookup_insert_eq in Ht by done. congruence.
  - apply bind_Err in Hload as [Hpub|(f3 & [] & _ & [=])].
    destruct (publish_spec _ _ _ _ _ Hpub Hst) as (_ & Hsame & He). split; [|done].
    destruct He as [He|[f3 Hw]]; [done|]. by apply fileResult_Err in Hw as [_ ?].
Qed.

Lemma load_unterminated p f f1 f2 f' r h ms s m s' info :
  header_ok h = true → history ms s → history (ms ++ [m]) s' → line_ok m = true →
  files f2 !! p = Some (file_text h ms ++ line_text m) →
  readTextFile p f = (f1, Ok (file_text h ms ++ line_text m)) → fileInfo p f1 = (f2, Ok info) → load p f = (f', r) →
  match r with
  | Ok st => st = mkJsonl (metadataFromHeader h p (fi_mtimeMs info)) s' (ms ++ [m]) ∧
             files f' !! p = Some (file_text h (ms ++ [m]))
  | Err e => io_failure e ∧ ∃ k, cut_tail m k ∧ files f' !! p = Some (file_text h ms ++ k)
  end.
Proof.
  intros Hh [Hms Hr] [Hms' Hr'] Hm Hfile Hread Hinfo Hload.
  pose proof (line_text_newline m Hm) as Hnl.
  rewrite (load_unfold p f f1 f2 h ms s (line_text m) info) in Hload by done.
  rewrite (bool_decide_eq_false_2 (line_text m = [])) in Hload by done. cbn [replayLines] in Hload.
  assert (parseMutation (line_text m) = Ok m) as Hp by (by apply line_reads). rewrite Hp in Hload.
  assert (applyLine (mkJsonl (metadataFromHeader h p (fi_mtimeMs info)) s ms) m =
    Ok (mkJsonl (metadataFromHeader h p (fi_mtimeMs info)) s' (ms ++ [m]))) as Ha.
  { specialize (Hr' (metadataFromHeader h p (fi_mtimeMs info))). unfold replay in *.
    rewrite rfold_app, Hr in Hr'. cbn [rbind rfold] in Hr'. by destruct (applyLine _ m). }
  rewrite Ha in Hload. cbn [replayLines] in Hload.
  assert (ends_with_newline (file_text h ms ++ line_text m) = false) as Hend.
  { unfold ends_with_newline. apply bool_decide_eq_false_2. intros Hl. apply Hnl.
    rewrite last_app in Hl. destruct (last (line_text m)) as [c|] eqn:E.
    - injection Hl as ->. by apply last_Some_elem_of in E.
    - by apply last_None in E. }
  rewrite Hend in Hload.
  destruct r as [st|e].
  - apply bind_Ok in Hload as (f3 & [] & Happ%fileResult_Ok & [= -> <-]). split; [done|].
    apply append_law in Happ as [Happ _]. rewrite Happ, lookup_insert_eq, Hfile by done. cbn [default].
    by rewrite file_text_snoc, encodeMutation_line, app_assoc.
  - apply bind_Err in Hload as [Happ|(f3 & [] & _ & [=])].
    apply fileResult_Err in Happ as [[c Happ] He]. split; [done|]. apply append_law in Happ as [_ Happ].
    destruct (Happ c eq_refl) as [Hs|(k & Hk & Hs)]; rewrite Hs.
    + exists (line_text m). split; [|done]. unfold cut_tail. rewrite encodeMutation_line. by exists [newline].
    + rewrite lookup_insert_eq, Hfile. cbn [default]. exists (line_text m ++ k).
      split; [|by rewrite app_assoc]. unfold cut_tail. rewrite encodeMutation_line. by apply prefix_app.
Qed.

Lemma failure_of c w : io_failure (Thrown (SessionError (if bool_decide (c = fe_not_found) then not_found else storage) w)).
Proof. unfold io_failure. destruct (bool_decide (c = fe_not_found)); eauto 10. Qed.

(** The file of a history, whole or cut, starts with its header's line. *)
Lemma cut_lines h ms m k s' :
  header_ok h = true → history (ms ++ [m]) s' → cut_tail m k →
  ∃ rest, physicalLines (file_text h ms ++ k) = header_text h :: rest.
Proof.
  intros Hh [Hms _] Hk. pose proof Hms as [Hms0 Hm]%Forall_app. apply Forall_cons in Hm as [Hm _].
  apply encode_prefix in Hk as [-> |[-> |(q & Hq & Hne)]].
  - rewrite <- file_text_snoc, <- (app_nil_r (file_text _ _)).
    rewrite physicalLines_file; [eauto|done|done|apply not_elem_of_nil].
  - rewrite physicalLines_file; [eauto|done|done|by apply line_text_newline].
  - rewrite physicalLines_file; [eauto|done|done|]. intros Hin.
    apply (line_text_newline m Hm). rewrite Hq. apply elem_of_app. by left.
Qed.

Lemma load_no_info p f f1 f2 h t rest c :
  header_ok h = true → physicalLines t = header_text h :: rest →
  readTextFile p f = (f1, Ok t) → fileInfo p f1 = (f2, Err c) → ∃ e, load p f = (f2, Err e) ∧ io_failure e.
Proof.
  intros Hh Hl Hread Hinfo. unfold load, io_bind at 1, fileResult at 1. rewrite Hread. cbn zeta beta.
  rewrite Hl, (bool_decide_eq_false_2 (header_text h = [])) by done.
  unfold header_text. rewrite header_reads by done. unfold io_bind at 1, fileResult at 1. rewrite Hinfo.
  eexists. split; [done|apply failure_of].
Qed.

Lemma load_no_read p f f1 c : readTextFile p f = (f1, Err c) → ∃ e, load p f = (f1, Err e) ∧ io_failure e.
Proof.
  intros Hread. unfold load, io_bind at 1, fileResult at 1. rewrite Hread. eexists. split; [done|apply failure_of].
Qed.

(** Reading a session whose last append was cut anywhere gives the session before
    or after that append, and repairs the file; a failing file operation leaves
    a file that can be loaded again. *)
Lemma load_cut p f f' r h ms s m s' k :
  header_ok h = true → history ms s → line_ok m = true → history (ms ++ [m]) s' → cut_tail m k →
  files f !! p = Some (file_text h ms ++ k) → load p f = (f', r) →
  match r with
  | Ok st => ∃ mt, (st = mkJsonl (metadataFromHeader h p mt) s ms ∨
                    st = mkJsonl (metadataFromHeader h p mt) s' (ms ++ [m])) ∧
                   files f' !! p = Some (file_text h (js_lines st))
  | Err e => io_failure e ∧ ∃ k', cut_tail m k' ∧ files f' !! p = Some (file_text h ms ++ k')
  end.
Proof.
  intros Hh Hms Hm Hms' Hk Hfile Hload.
  destruct (readTextFile p f) as [f1 [t|c]] eqn:Hread.
  2: { apply load_no_read in Hread as Hl. destruct Hl as (e & Hl & He). rewrite Hl in Hload. injection Hload as <- <-.
       apply read_law in Hread as [Hread _]. rewrite Hread. eauto. }
  pose proof (read_law _ _ _ _ Hread) as [Hf1 Ht]. specialize (Ht t eq_refl). rewrite Hfile in Ht.
  assert (t = file_text h ms ++ k) as -> by congruence. clear Ht.
  destruct (fileInfo p f1) as [f2 [info|c]] eqn:Hinfo; pose proof (info_law _ _ _ _ Hinfo) as Hf2.
  2: { destruct (cut_lines h ms m k s') as [rest Hrest]; [done..|].
       destruct (load_no_info p f f1 f2 h (file_text h ms ++ k) rest c) as (e & Hl & He); [done..|]. rewrite Hl in Hload.
       injection Hload as <- <-. rewrite Hf2, Hf1. eauto. }
  assert (files f2 !! p = Some (file_text h ms ++ k)) as Hfile2 by (by rewrite Hf2, Hf1).
  assert (k = [] ∨ k ≠ []) as [-> |Hne]; [destruct k; auto|..].
  { rewrite app_nil_r in *. rewrite (load_whole p f f1 f2 h ms s info) in Hload by done.
    injection Hload as <- <-. eauto. }
  apply encode_prefix in Hk as [-> |[-> |(q & Hq & Hqne)]].
  - rewrite <- file_text_snoc in *. rewrite (load_whole p f f1 f2 h (ms ++ [m]) s' info) in Hload by done.
    injection Hload as <- <-. eauto.
  - pose proof (load_unterminated _ _ _ _ _ _ _ _ _ _ _ _ Hh Hms Hms' Hm Hfile2 Hread Hinfo Hload) as Hu.
    destruct r as [st|e]; [|done]. destruct Hu as [-> Hu]. eauto.
  - pose proof (load_torn _ _ _ _ _ _ _ _ _ _ _ _ _ Hh Hms Hm Hq Hqne Hne Hread Hinfo Hload) as Hu.
    destruct r as [st|e]; destruct Hu as [Hu1 Hu2]; [subst; eauto|]. split; [done|]. exists k.
    split; [|by rewrite Hu2]. unfold cut_tail. rewrite encodeMutation_line, Hq, <- app_assoc. by eexists.
Qed.
End laws.
