(* ===== verification/Disk.v ===== *)
(** A file system for the JSON-lines storage: text files by path, and a schedule
    of faults.  Every operation takes the next fault of the schedule: none, or an
    error code and how many code units a failing write or append got through.
    Directories exist by the files under them.  It shows that the laws assumed of
    [FileSystem] can hold, with failures. *)
From S2P Require Import Prelude JsValue JsMap Json JsonlCodec SessionTypes SessionState SessionView FileSystem JsonlStorage JsonlStorageSpec.
Open Scope Z_scope.

Record disk := mkDisk {
  d_files : gmap path jsstr;
  d_faults : list (option (FileErrorCode * nat));
}.

(** Runs an operation under the next fault. *)
Definition faulty {A : Type} (d : disk) (fail : nat → gmap path jsstr) (ok : gmap path jsstr * fs_result A) :
    disk * fs_result A :=
  match d_faults d with
  | Some (code, n) :: rest => (mkDisk (fail n) rest, Err code)
  | None :: rest => (mkDisk ok.1 rest, ok.2)
  | [] => (mkDisk ok.1 [], ok.2)
  end.

(** An operation that changes no file. *)
Definition query {A : Type} (d : disk) (r : fs_result A) : disk * fs_result A :=
  faulty d (λ _, d_files d) (d_files d, r).

Definition slash : Z := 0x2f.

(** The first segment of the path below a directory, and whether more follow. *)
Definition below (dir p : path) : option (jsstr * bool) :=
  match strip (dir ++ [slash]) p with
  | None => None
  | Some rest => let '(name, more) := span (λ c, negb (c =? slash)) rest in Some (name, negb (bool_decide (more = [])))
  end.

Definition children (d : disk) (dir : path) : list FileInfo :=
  (λ c : jsstr * bool, mkInfo c.1 (dir ++ [slash] ++ c.1) (if c.2 then directory else file_) 0 0) <$>
    remove_dups (omap (λ e, below dir e.1) (map_to_list (d_files d))).

Definition disk_read (d : disk) (p : path) : fs_result jsstr :=
  match d_files d !! p with Some t => Ok t | None => Err fe_not_found end.

#[export] Instance disk_fs : FileSystem disk := {
  absolutePath p d := query d (Ok (if bool_decide (head p = Some slash) then p else slash :: p));
  joinPath ps d := query d (Ok (join [slash] ps));
  readTextFile p d := query d (disk_read d p);
  readTextLines p n d := query d (rmap (λ t, take n (physicalLines t)) (disk_read d p));
  writeFile p t d := faulty d (λ n, <[p := take n t]> (d_files d)) (<[p := t]> (d_files d), Ok tt);
  appendFile p t d :=
    faulty d (λ n, <[p := default [] (d_files d !! p) ++ take n t]> (d_files d))
      (<[p := default [] (d_files d !! p) ++ t]> (d_files d), Ok tt);
  renameFile s p d :=
    faulty d (λ _, d_files d)
      (match d_files d !! s with
       | Some t => (<[p := t]> (delete s (d_files d)), Ok tt)
       | None => (d_files d, Err fe_not_found)
       end);
  fileInfo p d :=
    query d (match d_files d !! p with Some t => Ok (mkInfo p p file_ (Z.of_nat (length t)) 0) | None => Err fe_not_found end);
  listDir p d := query d (Ok (children d p));
  exists_ p d := query d (Ok (bool_decide (is_Some (d_files d !! p)) || negb (bool_decide (children d p = []))));
  createDir p d := query d (Ok tt);
  remove p d := faulty d (λ _, d_files d) (delete p (d_files d), Ok tt);
}.

Lemma query_files {A : Type} d (r : fs_result A) d' r' : query d r = (d', r') → d_files d' = d_files d.
Proof. unfold query, faulty. destruct (d_faults d) as [|[[c n]|] rest]; cbn; intros E; by simplify_eq/=. Qed.

Lemma query_Ok {A : Type} d (r : fs_result A) d' a : query d r = (d', Ok a) → r = Ok a.
Proof. unfold query, faulty. destruct (d_faults d) as [|[[c n]|] rest]; cbn; intros E; by simplify_eq/=. Qed.

#[export] Program Instance disk_laws : FsLaws disk := {| files := d_files |}.
Next Obligation.
  intros p d d' r E. change (query d (disk_read d p) = (d', r)) in E.
  split; [by eapply query_files|]. intros t ->. apply query_Ok in E.
  unfold disk_read in E. by destruct (d_files d !! p); simplify_eq.
Qed.
Next Obligation. intros p d d' r E. eapply query_files. exact E. Qed.
Next Obligation.
  intros p t d d' r E. cbn in E. unfold faulty in E. repeat case_match; injection E as <- <-; cbn; split;
    try done; intros q Hq; by rewrite lookup_insert_ne.
Qed.
Next Obligation.
  intros p t d d' r E. cbn in E. unfold faulty in E. repeat case_match; injection E as <- <-; cbn; split; try done.
  intros e [= <-]. right. eexists. split; [|reflexivity]. apply prefix_take.
Qed.
Next Obligation.
  intros s p d d' r E. cbn in E. unfold faulty in E.
  destruct (d_faults d) as [|[[code n]|] rest]; destruct (d_files d !! s) as [t|] eqn:Es; injection E as <- <-; cbn;
    split; try done; intros; eexists; by split.
Qed.
Next Obligation.
  intros p d d' r E q Hq. cbn in E. unfold faulty in E. repeat case_match; injection E as <- _; cbn; try done;
    by rewrite lookup_delete_ne.
Qed.
