(* ===== verification/ToolClaims.v ===== *)
(** The properties of the tools that depend on a file system, with the in-memory
    disk of [Disk] as an instance. *)
From S2P Require Import Prelude Bytes JsValue Json Utf8 Regex NodePath FileSystem Truncate TruncateSpec ShellOutput ShellOutputSpec EditDiff EditDiffSpec FileQueue Image Tools BashTool Disk.
Open Scope Z_scope.

(** ** An instance *)

#[export] Instance disk_tools : ToolFiles disk := {
  readBinaryFile p d := query d (match d_files d !! p with Some t => Ok (utf8_encode t) | None => Err fe_not_found end);
  canonicalPath p d := query d (if bool_decide (is_Some (d_files d !! p)) then Ok p else Err fe_not_found);
  createTempFile pre suf d :=
    let p := fresh (elements (dom (d_files d))) in faulty d (λ _, d_files d) (<[p := []]> (d_files d), Ok p);
}.

#[export] Program Instance disk_tool_laws : ToolLaws disk.
Next Obligation.
  intros pre suf d d' r E. cbn in E. unfold faulty in E.
  assert (d_files d !! fresh (elements (dom (d_files d))) = None) as Hfresh.
  { apply not_elem_of_dom. rewrite <- elem_of_elements. apply infinite_is_fresh. }
  repeat case_match; injection E as <- <-; cbn; split; try done; intros p [= <-]; done.
Qed.
Next Obligation. intros p d d' r E. eapply query_files. exact E. Qed.
Next Obligation. intros p d d' r E. eapply query_files. exact E. Qed.
Next Obligation. intros p d d' r E. eapply query_files. exact E. Qed.
Next Obligation. intros p d d' r E. eapply query_files. exact E. Qed.

(** ** Editing *)

(** The line ending of the first line: [CR LF] if it ends so, else [LF]. *)
Definition first_ending (content eol : jsstr) : Prop :=
  (eol = [CR; LF] ∧ ∃ line rest, content = line ++ [CR; LF] ++ rest ∧ LF ∉ line) ∨
  (eol = [LF] ∧ ¬ ∃ line rest, content = line ++ [CR; LF] ++ rest ∧ LF ∉ line).

Lemma indexOf_absent content sub i : indexOf content sub = None → (i ≤ length content)%nat → ¬ sub `prefix_of` drop i content.
Proof.
  revert i. induction content as [|c content IH]; intros i; cbn [indexOf]; (destruct (startsWith _ sub) eqn:E; [done|]); intros H Hi Hp.
  - destruct i; [|cbn in Hi; lia]. apply startsWith_spec in Hp. cbn in Hp. congruence.
  - destruct i as [|i]; [apply startsWith_spec in Hp; cbn in Hp; congruence|]. destruct (indexOf content sub) eqn:En; [done|].
    apply (IH i); [done|cbn in Hi; lia|done].
Qed.

Lemma first_crlf content :
  detectLineEnding content = EndingCRLF ↔ ∃ line rest, content = line ++ [CR; LF] ++ rest ∧ LF ∉ line.
Proof.
  assert (∀ (l : jsstr) u, [u] `prefix_of` l ↔ head l = Some u) as Hone by (intros [|x l] u; split; [by intros [? E]|done|intros [? E]; by injection E as ->|intros [= ->]; by exists l]).
  unfold detectLineEnding. split.
  - destruct (indexOf content [LF]) as [l|] eqn:El; [|done]. destruct (indexOf content [CR; LF]) as [c|] eqn:Ec; [|done]. case_bool_decide as Hlt; [|done].
    intros _. apply indexOf_Some in El as (_ & _ & Hno), Ec as ([rest Hc] & Hlen & _). exists (take c content), rest. split; [by rewrite <- (take_drop c content) at 1; rewrite Hc|].
    intros (k & Hk)%list_elem_of_lookup. apply lookup_take_Some in Hk as [Hk Hkc]. apply (Hno k); [lia|]. apply Hone. by rewrite (drop_S _ _ _ Hk).
  - intros (line & rest & -> & Hlf).
    assert (∀ k, (k < length line)%nat → ∃ u, (line ++ [CR; LF] ++ rest) !! k = Some u ∧ u ≠ LF) as Hin.
    { intros k Hk. destruct (lookup_lt_is_Some_2 line k Hk) as [u Hu]. exists u. split; [by apply lookup_app_l_Some|]. intros ->. by apply Hlf, (list_elem_of_lookup_2 _ k). }
    assert (indexOf (line ++ [CR; LF] ++ rest) [LF] = Some (S (length line))) as ->.
    { apply indexOf_Some. split_and!.
      - replace (S (length line)) with (length line + 1)%nat by lia. rewrite <- drop_drop, drop_app_length. by exists rest.
      - rewrite !length_app. cbn. lia.
      - intros k Hk Hp. apply Hone in Hp. destruct (decide (k = length line)) as [->|]; [by rewrite drop_app_length in Hp|].
        destruct (Hin k) as (u & Hu & Hne); [lia|]. rewrite (drop_S _ _ _ Hu) in Hp. cbn in Hp. congruence. }
    destruct (indexOf (line ++ [CR; LF] ++ rest) [CR; LF]) as [c|] eqn:Ec.
    + apply indexOf_Some in Ec as (_ & _ & Hno). rewrite bool_decide_true; [done|]. destruct (decide (c < S (length line))%nat); [done|].
      exfalso. apply (Hno (length line)); [lia|]. rewrite drop_app_length. by exists rest.
    + exfalso. apply (indexOf_absent _ _ (length line) Ec); [rewrite length_app; lia|]. rewrite drop_app_length. by exists rest.
Qed.

Lemma restored content text :
  ∃ eol, first_ending content eol ∧ restoreLineEndings text (detectLineEnding content) = text ≫= λ u, if u =? LF then eol else [u].
Proof.
  pose proof (first_crlf content) as Hc. destruct (detectLineEnding content); [exists [LF]|exists [CR; LF]]; (split; [|try done]).
  - right. split; [done|]. rewrite <- Hc. done.
  - cbn. induction text as [|u text IH]; [done|]. rewrite bind_cons, <- IH. by destruct (Z.eqb_spec u LF) as [->|].
  - left. split; [done|]. by apply Hc.
Qed.

(** C33: a call of the edit tool changes at most the file its path resolves to.  It
    answers only after writing the edits applied to the content the file had, with
    the byte order mark it had and every line ending as its first line had it (so that
    mixed endings become one); an error leaves every file as it was, unless the error
    came with or after the write, which only ever concerns that file.  Files are those
    of the environment's laws, where a file has one path. *)
Theorem edit_writes {F} `{HF : FileSystem F, HL : !FsLaws F, HT : !ToolFiles F, HTL : !ToolLaws F}
    NFKC diffLines patch aborted path_ edits (f f' : F) r :
  edit_execute NFKC diffLines patch aborted path_ edits f = (f', r) →
  (files f' = files f ∧ ∃ e, r = Err e) ∨
  ∃ f1 p raw applied, absolutePath (normalizeToolPath path_) f = (f1, Ok p) ∧ edits ≠ [] ∧ files f !! p = Some raw ∧
    let bom := (stripBom raw).1 in let content := (stripBom raw).2 in
    applyEditsToNormalizedContent NFKC (normalizeToLF content) edits = Ok applied ∧
    match r with
    | Ok _ => ∃ eol, first_ending content eol ∧
        files f' = <[p := bom ++ (newContent applied ≫= λ u, if u =? LF then eol else [u])]> (files f)
    | Err _ => ∀ q, q ≠ p → files f' !! q = files f !! q
    end.
Proof.
  intros H. destruct (edit_execute_spec _ _ _ _ _ _ _ _ _ H) as [?|(f1 & p & Hp & Hne & [?|(raw & applied & final & Hraw & He & Hw)])];
    [by left..|right].
  exists f1, p, raw, applied. split_and!; [done..|]. unfold edited_content in He. destruct (stripBom raw) as [bom content]. cbn.
  apply rbind_Ok in He as (a & Ha & He). injection He as <- <-. split; [done|]. destruct r as [x|e]; [|done].
  destruct (restored content (newContent a)) as (eol & Heol & E). exists eol. split; [done|]. by rewrite <- E.
Qed.

Definition sample_edits : list Edit := [mkEdit (js_lit "one") (js_lit "two")].
Definition sample_disk : disk := mkDisk {[ js_lit "/a" := js_lit "one line" ]} [].

Lemma edit_writes_witness :
  ∃ d' r, edit_execute id (λ _ _, []) (λ _ _ _ _ _, []) (λ _, false) (js_lit "@a") sample_edits sample_disk = (d', Ok r) ∧
    d_files d' !! js_lit "/a" = Some (js_lit "two line").
Proof.
  destruct (edit_execute id (λ _ _, []) (λ _ _ _ _ _, []) (λ _, false) (js_lit "@a") sample_edits sample_disk) as [d' r] eqn:E.
  assert (∃ x, r = Ok x) as [x ->] by (vm_compute in E; injection E as _ <-; eexists; reflexivity).
  exists d', x. split; [reflexivity|].
  destruct (edit_writes _ _ _ _ _ _ _ _ _ E) as [[_ [e He]]|(f1 & p & raw & applied & Hp & _ & Hraw & Ha & Hf)]; [discriminate He|].
  assert (p = js_lit "/a") as -> by (vm_compute in Hp; injection Hp as _ <-; reflexivity).
  assert (raw = js_lit "one line") as -> by (vm_compute in Hraw; injection Hraw as <-; reflexivity).
  assert (newContent applied = js_lit "two line") as Hn by (vm_compute in Ha; injection Ha as <-; reflexivity).
  destruct Hf as (eol & _ & Hf). change (d_files d') with (files d'). rewrite Hf, Hn. vm_compute. reflexivity.
Defined.

(** ** Running commands *)

Section bash.
Context {F : Type} `{HF : FileSystem F, HL : !FsLaws F, HT : !ToolFiles F, HTL : !ToolLaws F}.

(** What the model is told of the output [out]: all of it, or its last lines with a
    notice that names a file with all of it. *)
Definition tells (b : bool) (out : jsstr) (f : F) (outputText : jsstr) (details : BashDetails) : Prop :=
  let tr := truncateTail b out no_options in
  if tr_truncated tr then
    ∃ p progress, shows b out progress ∧ sp_fullOutputPath progress = Some p ∧ files f !! p = Some out ∧
      outputText = tr_content tr ++ [LF; LF] ++ bash_notice progress ∧ details = Some (tr, Some p)
  else outputText = out ∧ details = None.

(** A truncated output is not within the limits, so that there is a file. *)
Lemma progress_tells b out (f : F) progress :
  text_ok out = true → shows b out progress →
  match sp_fullOutputPath progress with Some p => files f !! p = Some out | None => within out no_options end →
  tells b out f (bash_output progress).1 (bash_output progress).2.
Proof.
  intros Hok [Htr Hout] Hfile. unfold tells, bash_output. rewrite Htr, Hout.
  pose proof (truncateTail_longest b out no_options Hok ltac:(done) ltac:(done)) as (_ & Htail & _).
  unfold tail_of in Htail. destruct (tr_truncated (truncateTail b out no_options)).
  - destruct Htail as [Hnw _]. destruct (sp_fullOutputPath progress) as [p|] eqn:Ep; [|done].
    exists p, progress. cbn. by rewrite Ep.
  - destruct Htail as (_ & -> & _). done.
Qed.

Lemma runs_text_ok b (f : F) h r : runs b f h r → text_ok (whole h) = true.
Proof. intros H. destruct (runs_log b f h r H) as (cs & <- & Ht & _). apply utf16_ok, Ht. Qed.

(** C36: when a command has run, the tool's answer, or the message of the error it
    throws for an exit code, a timeout or an abort, is the command's output, cleaned
    of control characters: all of it if it is within the limits, or else its last
    lines, computed as if the whole output had been kept, and the path of a file that
    holds the whole output. *)
Theorem bash_answer onUpdate b (f : F) h r timeout aborted res t :
  bash_runs onUpdate b f h r → bash_returned onUpdate b timeout r aborted = Some (res, t) →
  (∃ e, res = Err (BashExecution_ e)) ∨
  ∃ outputText details, tells b (whole h) (sh_files (b_run r)) outputText details ∧
    match res with
    | Ok (text, d) => text = (if bool_decide (outputText = []) then js_lit "(no output)" else outputText) ∧ d = details
    | Err (BashAborted m | BashTimedOut m | BashExited m) => ∃ status, m = appendStatus outputText status
    | Err (BashExecution_ _) => False
    end.
Proof.
  intros Hruns Hret. pose proof (bash_runs_runs b onUpdate f h r Hruns) as Hr. unfold bash_returned in Hret.
  destruct (returned b (b_run r) aborted true) as [[capture|e]|] eqn:Er; [|injection Hret as <- _; left; by eexists|done].
  injection Hret as <- _. destruct (returned_spec b f h (b_run r) aborted true capture Hr Er) as [Hs Hf].
  pose proof (progress_tells b _ _ _ (runs_text_ok b f h _ Hr) Hs Hf) as Ht. unfold bash_result.
  destruct (bash_output (sr_progress capture)) as [text details]. cbn in Ht.
  destruct (sr_cancelled capture); [right; exists text, details; split; [done|]; by eexists|].
  destruct (sr_executionError capture) as [e|].
  - destruct e; try (left; by eexists). right. exists text, details. split; [done|]. by eexists.
  - right. exists text, details. split; [done|]. destruct (sr_exitCode capture) as [code|]; [|done].
    destruct (code =? 0); [done|]. by eexists.
Qed.

(** while a command runs the updates are at least 100 ms apart, each is the
    progress of the output at some point, and a timer is pending, due 100 ms after the
    last update, whenever output has come that no update showed.  When the command has
    run the timer is gone, and the last update is of the whole output. *)
Theorem bash_updates b (f : F) h r :
  bash_runs true b f h r →
  updates_ok b h (b_throttle r) (b_now r) ∧
  ∀ timeout aborted res t, bash_returned true b timeout r aborted = Some (res, t) →
    updateTimer t = None ∧
    ((∃ e, res = Err (BashExecution_ e)) ∨
     ∃ progress, updates t = updates (b_throttle r) ++ [(b_now r, progress)] ∧ shows b (whole h) progress).
Proof.
  intros Hruns. split; [by apply (bash_updates_ok b f)|]. intros timeout aborted res t Hret. unfold bash_returned in Hret.
  destruct (returned b (b_run r) aborted true) as [[capture|e]|] eqn:Er; [|injection Hret as <- <-; eauto|done].
  injection Hret as <- <-. split; [done|]. right. exists (sr_progress capture). split; [done|].
  by apply (returned_spec b f h (b_run r) aborted true capture (bash_runs_runs b true f h r Hruns) Er).
Qed.

(** a call of [executeShellWithCapture] returns: when the command has ended, the
    writes of the log that are left run, whether they succeed or fail, and there is a
    result, or the error of a write or of a callback. *)
Theorem capture_settles b (f : F) h c g outcome aborted returnErrors :
  runs b f h (mkRun c g (Some outcome)) →
  ∃ c' g', runs b f h (mkRun c' g' (Some outcome)) ∧ is_Some (returned b (mkRun c' g' (Some outcome)) aborted returnErrors).
Proof.
  intros Hr. destruct (returned_settles b f h c g outcome aborted returnErrors Hr) as [H1 H2]. by eexists _, _.
Qed.

(** when the output is one line over the byte limit and its line feed, the notice
    says that the line it shows the end of is 0 bytes long. *)
Theorem long_line_reported_empty b (f : F) h r body :
  runs b f h r → whole h = body ++ [LF] → LF ∉ body → DEFAULT_MAX_BYTES < Buffer_byteLength body →
  let progress := createProgress b (sh_capture r) in
  tr_truncated (sp_truncation progress) = true ∧ tr_lastLinePartial (sp_truncation progress) = true ∧ sp_lastLineBytes progress = 0.
Proof.
  intros Hr Hout Hlf Hlong. cbn zeta. destruct (runs_shows b f h r Hr) as [-> _]. pose proof (runs_text_ok b f h r Hr) as Hok.
  destruct (runs_log b f h r Hr) as (cs & Hcs & Ht & _). rewrite Hout in *.
  destruct (truncateTail_longest b (body ++ [LF]) no_options Hok) as (_ & Htail & _); [done..|]. unfold tail_of in Htail.
  rewrite split_lines_trailing, split_on_free in Htail by done.
  destruct (tr_truncated _).
  - destruct Htail as (_ & Hpartial & _). split_and!; [done|by apply Hpartial; exists body|].
    destruct (tracks_lines _ _ Ht) as (init & l & Hsplit & _ & _ & Hl). cbn [createProgress sp_lastLineBytes].
    rewrite Hcs, split_on_app in Hsplit. cbn [split_on] in Hsplit. apply app_inj_tail in Hsplit as [_ <-]. by rewrite Hl.
  - destruct Htail as ([_ Hbytes] & _). rewrite byteLength_newline in Hbytes. exfalso.
    change (maxBytes_of no_options) with DEFAULT_MAX_BYTES in Hbytes. pose proof (byteLength_nonneg []). lia.
Qed.
End bash.

(** ** Instances *)

Definition hello : jsstr := js_lit "hello".
Definition no_files : disk := mkDisk ∅ [].

(** A command that prints one line and exits. *)
Definition hello_capture : Capture := onChunk capture_start hello None.
Definition hello_run : Run disk := mkRun (exec_done true hello_capture (ExecResolved (Ok 0))) no_files (Some (ExecResolved (Ok 0))).
Definition hello_bash : BashRun disk :=
  mkBash hello_run (chunk_update true 5 (createProgress true hello_capture) throttle_start) 5.

Lemma hello_runs : bash_runs true true no_files [hello] hello_bash.
Proof.
  change [hello] with (([] ++ [hello]) ++ []). eapply bash_runs_step.
  - eapply bash_runs_step; [apply (bash_runs_start true true no_files 5); lia|]. apply BashChunk; by vm_compute.
  - apply BashOther. apply StepDone.
Qed.

Lemma bash_answer_witness :
  ∃ t, bash_returned true true None hello_bash false = Some (Ok (hello, None), t) ∧
    ∃ outputText details, tells true hello no_files outputText details ∧ hello = outputText.
Proof.
  destruct (bash_returned true true None hello_bash false) as [[res t]|] eqn:E; [|vm_compute in E; discriminate E].
  assert (res = Ok (hello, None)) as -> by (vm_compute in E; injection E as <- _; reflexivity).
  exists t. split; [reflexivity|]. destruct (bash_answer true true no_files [hello] hello_bash None false _ t hello_runs E) as [[e He]|(o & d & Ht & Hr)];
    [discriminate He|]. exists o, d. split; [exact Ht|]. destruct Hr as [Hr _]. rewrite Hr.
  destruct (decide (o = [])) as [-> |Hne]; [discriminate Hr|]. by rewrite bool_decide_false by exact Hne.
Defined.

Lemma bash_updates_witness :
  updates_ok true [hello] (b_throttle hello_bash) 5 ∧ updateTimer (b_throttle hello_bash) = Some 100 ∧
  ∃ res t, bash_returned true true None hello_bash false = Some (res, t) ∧ updateTimer t = None.
Proof.
  destruct (bash_updates true no_files [hello] hello_bash hello_runs) as [H1 H2]. split; [exact H1|]. split; [reflexivity|].
  destruct (bash_returned true true None hello_bash false) as [[res t]|] eqn:E; [|vm_compute in E; discriminate E].
  exists res, t. split; [reflexivity|]. by apply (H2 None false res t E).
Defined.

Lemma capture_settles_witness :
  ∃ c g, runs true no_files [hello] (mkRun c g (Some (ExecResolved (Ok 0)))) ∧
    is_Some (returned true (mkRun c g (Some (ExecResolved (Ok 0)))) false true).
Proof. exact (capture_settles true no_files [hello] _ _ _ false true (bash_runs_runs true true no_files _ _ hello_runs)). Defined.

(** A line of 51201 letters. *)
Definition long_line : jsstr := replicate (Z.to_nat 51201) 0x61.
Definition long_run : Run disk := mkRun (onChunk capture_start (long_line ++ [LF]) None) no_files None.

Lemma long_runs : runs true no_files [long_line ++ [LF]] long_run.
Proof.
  change [long_line ++ [LF]] with ([] ++ [long_line ++ [LF]]). eapply runs_step; [apply runs_start|].
  assert (bool_decide (scalars (long_line ++ [LF]) ≫= utf16_scalar = long_line ++ [LF]) = true) as H%bool_decide_eq_true by (vm_compute; reflexivity).
  exact (StepChunk true capture_start no_files None (long_line ++ [LF]) None ltac:(vm_compute; reflexivity) H).
Qed.

Lemma long_line_reported_empty_witness :
  tr_lastLinePartial (sp_truncation (createProgress true (sh_capture long_run))) = true ∧
  sp_lastLineBytes (createProgress true (sh_capture long_run)) = 0.
Proof.
  assert (bool_decide ([long_line ++ [LF]] ≫= clean_chunk = long_line ++ [LF]) = true) as H1%bool_decide_eq_true by (vm_compute; reflexivity).
  assert (bool_decide (LF ∈ long_line) = false) as H2%bool_decide_eq_false by (vm_compute; reflexivity).
  assert (DEFAULT_MAX_BYTES < Buffer_byteLength long_line) as H3 by (vm_compute; reflexivity).
  destruct (long_line_reported_empty true no_files [long_line ++ [LF]] long_run long_line long_runs H1 H2 H3) as (_ & H4 & H5).
  exact (conj H4 H5).
Defined.
