(* ===== verification/SessionSpec.v ===== *)
(** The session state's invariant and the correctness of its reads.

    [WF] is the type invariant: consecutive sequence numbers, unique ids, parents
    before children, lanes and labels that point at entries, open operations and
    statistics that are functions of the history.  Every accepted mutation
    preserves it, so every state reachable from an empty one satisfies it, and in
    such a state the walk to the root is the entry's ancestor chain: it never
    throws and always ends. *)
From S2P Require Import Prelude JsValue JsMap SessionTypes SessionState.
Open Scope Z_scope.

(** ** The invariant *)

Definition countItem (st : SessionStats) (i : LogItem) : SessionStats :=
  match i with
  | LogEntry _ e =>
      if bool_decide (e_type e = message)
      then mkStats (messageCount st + 1) (cachedTokens st) (uncachedTokens st) (totalTokens st) (costTotal st)
      else st
  | LogRecord _ r => countUsage st r
  | _ => st
  end.

Definition log_entry (i : LogItem) : option Entry := match i with LogEntry _ e => Some e | _ => None end.
Definition log_record (i : LogItem) : option LaneRecord := match i with LogRecord _ r => Some r | _ => None end.

Definition zero_stats : SessionStats := mkStats 0 double_zero double_zero double_zero double_zero.

Record WF (s : SessionState) : Prop := {
  wf_seq : sequence s = Z.of_nat (length (log s));
  wf_log : ∀ i item, log s !! i = Some item → log_seq item = Z.of_nat i + 1;
  wf_log_entry : ∀ q e, LogEntry q e ∈ log s → q = e_seq e;
  wf_entries : entries s = omap log_entry (log s);
  wf_records : records s = omap log_record (log s);
  wf_ids : NoDup ((e_id <$> entries s) ++ (r_id <$> records s));
  wf_used : ∀ id, id ∈ usedIds s ↔ id ∈ (e_id <$> entries s) ++ (r_id <$> records s);
  wf_byId : ∀ id e, entriesById s !! id = Some e ↔ e ∈ entries s ∧ e_id e = id;
  wf_parent : ∀ i e p, entries s !! i = Some e → e_parentId e = Some p →
    ∃ j q, (j < i)%nat ∧ entries s !! j = Some q ∧ e_id q = p;
  wf_main : "main" ∈ (lanes s).*1;
  wf_lanes_nodup : NoDup ((lanes s).*1);
  wf_lanes : ∀ lane id, (lane, Some id) ∈ lanes s → is_Some (entriesById s !! id);
  wf_labels : ∀ id l, labels s !! id = Some l → is_Some (entriesById s !! id);
  wf_open : openOperationsByLane s = foldl trackOperation ∅ (records s);
  wf_stats : stats s = foldl countItem zero_stats (log s);
}.

Lemma new_SessionState_WF : WF new_SessionState.
Proof.
  split; simpl; try done; try set_solver.
  - constructor.
  - apply NoDup_singleton.
Qed.

(** The parts of the invariant on the log alone, for an appended item. *)
Lemma log_snoc (l : list LogItem) item :
  (∀ i it, l !! i = Some it → log_seq it = Z.of_nat i + 1) →
  log_seq item = Z.of_nat (length l) + 1 →
  ∀ i it, (l ++ [item]) !! i = Some it → log_seq it = Z.of_nat i + 1.
Proof.
  intros Hl Hi i it H. apply lookup_app_Some in H as [H|[Hle H]]; [by apply Hl|].
  apply list_lookup_singleton_Some in H as [Hz <-]. rewrite Hi. lia.
Qed.

Lemma has_entry_true s id : has_entry s id = true ↔ is_Some (entriesById s !! id).
Proof. apply bool_decide_eq_true. Qed.

(** A set of a lane keeps the lanes well formed. *)
Lemma lanes_set (m : jsmap (option string)) lane leaf :
  NoDup (m.*1) → ∀ l id, (l, Some id) ∈ map_set m lane leaf → (l, Some id) ∈ m ∨ leaf = Some id.
Proof.
  intros Hnd l id Hin. apply map_get_elem in Hin; [|by apply map_set_NoDup].
  rewrite map_get_set in Hin. case_bool_decide; [naive_solver|]. left. by apply map_get_Some_elem.
Qed.

Lemma map_set_has_key {A} (m : jsmap A) k v k' : k' ∈ m.*1 → k' ∈ (map_set m k v).*1.
Proof. rewrite map_set_keys. case_bool_decide; set_solver. Qed.

Section preservation.
Context (s : SessionState) (Hs : WF s).

Lemma entries_lookup_id i e : entries s !! i = Some e → entriesById s !! e_id e = Some e.
Proof. intros H. apply (wf_byId s Hs). split; [by eapply list_elem_of_lookup_2|done]. Qed.

Lemma applyEntry_WF lane e s' :
  e_seq e = sequence s + 1 → applyEntry s lane e = Ok s' → WF s'.
Proof.
  intros Hseq H. unfold applyEntry in H. destruct (bool_decide (e_id e ∈ usedIds s)) eqn:Hu; [done|].
  apply rbind_Ok in H as ([] & Hlane & H). apply rbind_Ok in H as ([] & Hpar & [= <-]).
  apply bool_decide_eq_false in Hu. rewrite (wf_used s Hs), not_elem_of_app in Hu. destruct Hu as [Hue Hur].
  assert (entriesById s !! e_id e = None) as Hnone.
  { destruct (entriesById s !! e_id e) as [e'|] eqn:E; [|done]. apply (wf_byId s Hs) in E as [E1 E2].
    destruct Hue. rewrite <- E2. by apply list_elem_of_fmap_2. }
  split; cbn [sequence usedIds entries entriesById records openOperationsByLane lanes log stats name labels].
  - rewrite length_app, Hseq, (wf_seq s Hs). simpl. lia.
  - apply log_snoc; [apply (wf_log s Hs)|]. simpl. rewrite <- (wf_seq s Hs). done.
  - intros q e' [H|H]%elem_of_app; [by eapply (wf_log_entry s Hs)|]. apply list_elem_of_singleton in H. naive_solver.
  - rewrite omap_app, (wf_entries s Hs). done.
  - rewrite omap_app, <- (wf_records s Hs). simpl. by rewrite app_nil_r.
  - rewrite fmap_app. pose proof (wf_ids s Hs) as Hnd. rewrite <- app_assoc. simpl.
    rewrite <- Permutation_middle. constructor; [|done]. by rewrite not_elem_of_app.
  - intros id. rewrite elem_of_union, elem_of_singleton, (wf_used s Hs), !elem_of_app, fmap_app, elem_of_app.
    simpl. rewrite list_elem_of_singleton. naive_solver.
  - intros id e'. rewrite elem_of_app, list_elem_of_singleton.
    destruct (decide (e_id e = id)) as [<-|Hne].
    + rewrite lookup_insert_eq. split; [naive_solver|]. intros [[He'| ->] Hid]; [|done].
      exfalso. apply Hue. rewrite <- Hid. by apply list_elem_of_fmap_2.
    + rewrite lookup_insert_ne by done. rewrite (wf_byId s Hs). naive_solver.
  - intros i e' p Hi Hp. apply lookup_app_Some in Hi as [Hi|[Hle Hi]].
    + destruct (wf_parent s Hs i e' p Hi Hp) as (j & q & Hj & Hq & Hid). exists j, q.
      split_and!; [done| |done]. by apply lookup_app_l_Some.
    + apply list_lookup_singleton_Some in Hi as [Hz <-]. rewrite Hp in Hpar.
      destruct (has_entry s p) eqn:Hh; [|done]. apply has_entry_true in Hh as [q Hq].
      apply (wf_byId s Hs) in Hq as [Hq Hid]. apply list_elem_of_lookup in Hq as [j Hj].
      pose proof (lookup_lt_Some _ _ _ Hj). exists j, q. split_and!; [lia| |done]. by apply lookup_app_l_Some.
  - destruct lane; [apply map_set_has_key|]; apply (wf_main s Hs).
  - destruct lane; [apply map_set_NoDup|]; apply (wf_lanes_nodup s Hs).
  - intros l id Hin. destruct (decide (e_id e = id)) as [<-|Hne]; [rewrite lookup_insert_eq; eauto|].
    rewrite lookup_insert_ne by done. destruct lane as [lane|]; [|by apply (wf_lanes s Hs _ _ Hin)].
    apply lanes_set in Hin as [Hin|[= ?]]; [by apply (wf_lanes s Hs _ _ Hin)|done|apply (wf_lanes_nodup s Hs)].
  - intros id l Hl. destruct (decide (e_id e = id)) as [<-|Hne]; [rewrite lookup_insert_eq; eauto|].
    rewrite lookup_insert_ne by done. by apply (wf_labels s Hs id l).
  - apply (wf_open s Hs).
  - rewrite foldl_app, <- (wf_stats s Hs). done.
Qed.

(** The fields an entry-free mutation leaves alone, with the log extended. *)
Lemma applyRecord_WF r s' : r_seq r = sequence s + 1 → applyRecord s r = Ok s' → WF s'.
Proof.
  intros Hseq H. unfold applyRecord in H.
  destruct (map_has (lanes s) (r_lane r)); [|done]. simpl in H.
  destruct (bool_decide (r_id r ∈ usedIds s)) eqn:Hu; [done|]. injection H as <-.
  apply bool_decide_eq_false in Hu. rewrite (wf_used s Hs) in Hu.
  split; cbn [sequence usedIds entries entriesById records openOperationsByLane lanes log stats name labels];
    try apply Hs.
  - rewrite length_app, Hseq, (wf_seq s Hs). simpl. lia.
  - apply log_snoc; [apply (wf_log s Hs)|]. simpl. rewrite <- (wf_seq s Hs). done.
  - intros q e' [H|H]%elem_of_app; [by eapply (wf_log_entry s Hs)|]. apply list_elem_of_singleton in H. naive_solver.
  - rewrite omap_app, (wf_entries s Hs). simpl. by rewrite app_nil_r.
  - rewrite omap_app, (wf_records s Hs). done.
  - rewrite fmap_app, app_assoc. apply NoDup_app. split_and!; [apply (wf_ids s Hs)| |apply NoDup_singleton].
    intros id Hid. simpl. rewrite list_elem_of_singleton. intros ->. done.
  - intros id. rewrite elem_of_union, elem_of_singleton, (wf_used s Hs), !elem_of_app, fmap_app, elem_of_app.
    simpl. rewrite list_elem_of_singleton. naive_solver.
  - rewrite foldl_app, <- (wf_open s Hs). done.
  - rewrite foldl_app, <- (wf_stats s Hs). done.
Qed.

(** Lane and fact mutations share everything but one field. *)
Lemma no_entry_item_WF item (lanes' : jsmap (option string)) name' labels' :
  log_entry item = None → log_record item = None →
  (∀ st, countItem st item = st) →
  log_seq item = sequence s + 1 →
  "main" ∈ lanes'.*1 → NoDup (lanes'.*1) →
  (∀ lane id, (lane, Some id) ∈ lanes' → is_Some (entriesById s !! id)) →
  (∀ id l, labels' !! id = Some l → is_Some (entriesById s !! id)) →
  WF (mkState (log_seq item) (usedIds s) (entries s) (entriesById s) (records s) (openOperationsByLane s)
        lanes' (log s ++ [item]) (stats s) name' labels').
Proof.
  intros He Hr Hc Hseq Hm Hnd Hl Hlab.
  split; cbn [sequence usedIds entries entriesById records openOperationsByLane lanes log stats name labels];
    try done; try apply Hs.
  - rewrite length_app, Hseq, (wf_seq s Hs). simpl. lia.
  - apply log_snoc; [apply (wf_log s Hs)|]. rewrite <- (wf_seq s Hs). done.
  - intros q e' [H|H]%elem_of_app; [by eapply (wf_log_entry s Hs)|]. apply list_elem_of_singleton in H.
    by subst item.
  - rewrite omap_app, (wf_entries s Hs). simpl. rewrite He. by rewrite app_nil_r.
  - rewrite omap_app, (wf_records s Hs). simpl. rewrite Hr. by rewrite app_nil_r.
  - rewrite foldl_app, <- (wf_stats s Hs). simpl. by rewrite Hc.
Qed.

Lemma applyMutation_WF m s' : applyMutation s m = Ok s' → WF s'.
Proof.
  unfold applyMutation. intros H. destruct (mut_seq m =? sequence s + 1) eqn:Hq; [|done].
  simpl in H. apply Z.eqb_eq in Hq.
  destruct m as [lane e|r|seq lane leaf|seq n|seq target label]; simpl in Hq.
  - by eapply applyEntry_WF.
  - by eapply applyRecord_WF.
  - unfold applyLane in H. apply rbind_Ok in H as ([] & Ht & [= <-]).
    apply (no_entry_item_WF (LogLane seq lane leaf)); try done; try apply Hs.
    + apply map_set_has_key, Hs.
    + apply map_set_NoDup, Hs.
    + intros l id Hin. apply lanes_set in Hin as [Hin| ->]; [by eapply (wf_lanes s Hs)| |apply Hs].
      destruct (has_entry s id) eqn:E; [|done]. by apply has_entry_true.
  - injection H as <-. apply (no_entry_item_WF (LogName seq n)); try done; apply Hs.
  - unfold applyLabel in H. destruct (has_entry s target) eqn:E; [|done]. simpl in H. injection H as <-.
    apply (no_entry_item_WF (LogLabel seq target label)); try done; try apply Hs.
    intros id l. destruct label as [lb|].
    + destruct (decide (target = id)) as [<-|Hne]; [intros _; by apply has_entry_true|].
      rewrite lookup_insert_ne by done. apply (wf_labels s Hs).
    + intros [_ Hl]%lookup_delete_Some. by eapply (wf_labels s Hs).
Qed.
End preservation.

(** States a session can be in. *)
Inductive reachable : SessionState → Prop :=
| reach_new : reachable new_SessionState
| reach_step s m s' : reachable s → applyMutation s m = Ok s' → reachable s'.

Lemma reachable_WF s : reachable s → WF s.
Proof. induction 1; [apply new_SessionState_WF|by eapply applyMutation_WF]. Qed.

(** ** Bounded scans *)

Definition limit_ok (limit : option jsnum) : Prop :=
  match limit with None => True | Some n => ∃ z, n = NInt z ∧ 0 < z end.

Definition take_limit {A} (limit : option jsnum) (l : list A) : list A :=
  match limit with None => l | Some n => take (Z.to_nat (num_value n)) l end.

Definition below {A} (limit : option jsnum) (l : list A) : Prop :=
  match limit with None => True | Some n => Z.of_nat (length l) < num_value n end.

Lemma assertValidLimit_ok limit : assertValidLimit limit = Ok tt ↔ limit_ok limit.
Proof.
  unfold assertValidLimit, limit_ok. destruct limit as [[z| | | |]|]; try naive_solver.
  destruct (Z.leb_spec z 0); split; try naive_solver lia.
Qed.

Lemma take_limit_below {A} limit (acc l : list A) : below limit acc → take_limit limit (acc ++ l) = acc ++ 
  match limit with None => l | Some n => take (Z.to_nat (num_value n) - length acc) l end.
Proof. destruct limit as [n|]; simpl; [|done]. intros H. rewrite take_app_ge by lia. done. Qed.

Lemma reached_spec {A} limit (acc : list A) x rest :
  below limit acc →
  (reached (acc ++ [x]) limit = true ∧ take_limit limit (acc ++ x :: rest) = acc ++ [x]) ∨
  (reached (acc ++ [x]) limit = false ∧ below limit (acc ++ [x])).
Proof.
  unfold reached, below, take_limit. destruct limit as [n|]; [|auto]. rewrite length_app. simpl. intros H.
  destruct (Z.eqb_spec (Z.of_nat (length acc + 1)) (num_value n)) as [E|E].
  - left. split; [done|]. rewrite cons_middle, app_assoc, take_app_le by (rewrite length_app; simpl; lia).
    apply take_ge. rewrite length_app. simpl. lia.
  - right. split; [done|lia].
Qed.

Lemma collect_acc {A} keep limit (acc items : list A) :
  below limit acc →
  collect keep limit acc items = take_limit limit (acc ++ List.filter keep items).
Proof.
  revert acc. induction items as [|x items IH]; intros acc H; simpl.
  { rewrite app_nil_r. destruct limit as [n|]; simpl in *; [|done]. rewrite take_ge; [done|lia]. }
  destruct (keep x); simpl; [|by apply IH].
  destruct (reached_spec limit acc x (List.filter keep items) H) as [[-> ->]|[-> Hb]]; [done|].
  rewrite IH by done. by rewrite <- app_assoc.
Qed.

Lemma below_nil {A} limit : limit_ok limit → below limit (@nil A).
Proof. destruct limit as [n|]; [|done]. intros (z & -> & Hz). simpl. lia. Qed.

(** The loop is a filter cut at the limit. *)
Lemma collect_spec {A} keep limit (items : list A) :
  limit_ok limit → collect keep limit [] items = take_limit limit (List.filter keep items).
Proof. intros H. by rewrite collect_acc by by apply below_nil. Qed.

(** The items up to the first one at the bound, inclusive. *)
Fixpoint upto {A} (stop : A → bool) (l : list A) : list A :=
  match l with
  | [] => []
  | x :: l => if stop x then [x] else x :: upto stop l
  end.

Lemma upto_false {A} (l : list A) : upto (λ _, false) l = l.
Proof. induction l as [|x l IH]; simpl; [done|by rewrite IH]. Qed.

Lemma scan_acc keep stop limit acc items :
  below limit acc →
  (scan keep stop limit acc items).1 = take_limit limit (acc ++ List.filter keep (upto stop items)).
Proof.
  assert (∀ a : list Entry, below limit a → take_limit limit a = a) as Hall.
  { intros a Ha. destruct limit as [n|]; simpl in *; [|done]. rewrite take_ge; [done|lia]. }
  revert acc. induction items as [|x items IH]; intros acc H; simpl; [by rewrite app_nil_r, Hall|].
  assert (∀ a : list Entry, below limit a → reached a limit = false) as Hnr.
  { intros a Ha. unfold reached, below in *. destruct limit; [|done]. apply Z.eqb_neq. lia. }
  destruct (keep x) eqn:Hk.
  - destruct (stop x); simpl; rewrite ?Hk; simpl.
    + destruct (reached_spec limit acc x [] H) as [[_ ->]|[_ Hb]]; [done|by rewrite Hall].
    + destruct (reached_spec limit acc x (List.filter keep (upto stop items)) H) as [[-> ->]|[-> Hb]]; [done|].
      rewrite IH by done. by rewrite <- app_assoc.
  - destruct (stop x); simpl; rewrite ?Hk; simpl; [by rewrite app_nil_r, Hall|].
    rewrite Hnr by done. by apply IH.
Qed.

(** ** The walk to the root *)

(** [path] is [e] and its ancestors up to the root. *)
Inductive chain (s : SessionState) : Entry → list Entry → Prop :=
| chain_root e : e_parentId e = None → chain s e [e]
| chain_up e p q path :
    e_parentId e = Some p → entriesById s !! p = Some q → chain s q path → chain s e (e :: path).

Lemma chain_exists s i e :
  WF s → entries s !! i = Some e →
  ∃ path, chain s e path ∧ (length path ≤ i + 1)%nat ∧ NoDup (e_id <$> path) ∧
    ∀ x, x ∈ path → ∃ j, (j ≤ i)%nat ∧ entries s !! j = Some x.
Proof.
  intros Hs. revert e. induction i as [i IH] using lt_wf_ind. intros e He.
  destruct (e_parentId e) as [p|] eqn:Hp.
  - destruct (wf_parent s Hs i e p He Hp) as (j & q & Hj & Hq & <-).
    destruct (IH j Hj q Hq) as (path & Hc & Hl & Hnd & Hin). exists (e :: path).
    split; [econstructor; [done|by eapply entries_lookup_id|done]|]. split; [simpl; lia|]. split.
    + simpl. constructor; [|done]. intros (x & Hid & Hx)%list_elem_of_fmap.
      destruct (Hin x Hx) as (k & Hk & Hkx).
      pose proof (entries_lookup_id s Hs i e He) as H1. pose proof (entries_lookup_id s Hs k x Hkx) as H2.
      rewrite Hid, H2 in H1. injection H1 as ->.
      pose proof (wf_ids s Hs) as Hnde. apply NoDup_app in Hnde as [Hnde _].
      assert (i = k); [|lia].
      eapply (NoDup_lookup (e_id <$> entries s)); [done| |]; rewrite list_lookup_fmap; [rewrite He|rewrite Hkx]; done.
    + intros x [->|Hx]%elem_of_cons; [eauto|]. destruct (Hin x Hx) as (k & ? & ?). exists k. split; [lia|done].
  - exists [e]. split; [by constructor|]. split; [simpl; lia|]. split; [apply NoDup_singleton|].
    intros x ->%list_elem_of_singleton. eauto.
Qed.

Lemma chain_det s e p1 p2 : chain s e p1 → chain s e p2 → p1 = p2.
Proof.
  intros H. revert p2. induction H as [e Hp|e p q path Hp Hq _ IH]; intros p2 H2; inversion H2; subst; try congruence.
  f_equal. apply IH. congruence.
Qed.

Lemma walkLoop_chain s bounds e path fuel visited :
  chain s e path → (length path ≤ fuel)%nat → NoDup (e_id <$> path) →
  (∀ x, x ∈ path → e_id x ∉ visited) →
  walkLoop fuel s bounds visited e = (upto (at_bound bounds) path, None).
Proof.
  intros H. revert fuel visited. induction H as [e Hp|e p q path Hp Hq _ IH]; intros fuel visited Hf Hnd Hv;
    (destruct fuel as [|fuel]; [simpl in Hf; lia|]); cbn [walkLoop];
    rewrite bool_decide_eq_false_2 by (apply Hv; left); rewrite Hp; cbn [upto].
  - by destruct (at_bound bounds e).
  - destruct (at_bound bounds e); [done|]. rewrite Hq.
    simpl in Hnd. apply NoDup_cons in Hnd as [Hni Hnd].
    rewrite IH; [done|simpl in Hf; lia|done|].
    intros x Hx [Hxe%elem_of_singleton|Hxv]%elem_of_union.
    + apply Hni. rewrite <- Hxe. by apply list_elem_of_fmap_2.
    + by apply (Hv x); [right|].
Qed.

(** In a well-formed state the walk from an entry is its ancestor chain. *)
Lemma walkToRoot_chain s start e bounds :
  WF s → entriesById s !! start = Some e →
  ∃ path, chain s e path ∧ NoDup (e_id <$> path) ∧ (∀ x, x ∈ path → x ∈ entries s) ∧
    walkToRoot s start bounds = (upto (at_bound bounds) path, None).
Proof.
  intros Hs He. pose proof He as [[i Hi]%list_elem_of_lookup _]%(wf_byId s Hs).
  destruct (chain_exists s i e Hs Hi) as (path & Hc & Hl & Hnd & Hin). exists path.
  split_and!; [done|done| |].
  - intros x Hx. destruct (Hin x Hx) as (j & _ & Hj). by eapply list_elem_of_lookup_2.
  - unfold walkToRoot. rewrite He. apply walkLoop_chain; [done| |done|set_solver].
    unfold walk_fuel. apply lookup_lt_Some in Hi. lia.
Qed.
