(* ===== verification/SessionQueries.v ===== *)
(** Correctness of the session's reads: branch queries return the bounded
    ancestor chain, paging with a cursor returns every match exactly once, and
    the open operations of a lane are its starts without a later finish. *)
From S2P Require Import Prelude JsValue JsMap SessionTypes SessionState SessionSpec.
Open Scope Z_scope.

(** C14: The session invariant.  Every state reachable from an empty session by
    accepted mutations has consecutive sequence numbers, unique ids, parents that
    precede their children, lanes and labels that point at existing entries, and
    open operations and statistics that are those of its history. *)
Theorem session_invariant s : reachable s → WF s.
Proof. apply reachable_WF. Qed.

Definition ex_entry (id : string) (seq : Z) (parent : option string) : Entry :=
  mkEntry id seq parent 0 (MessageEntry (UserMessage (PlainText "hi") 0) false).

Definition ex_mutations : list SessionMutation := [
  MutEntry (Some "main") (ex_entry "a" 1 None);
  MutEntry (Some "main") (ex_entry "b" 2 (Some "a"));
  MutLane 3 "side" (Some "a");
  MutEntry (Some "side") (ex_entry "c" 4 (Some "a"));
  MutLabel 5 "b" (Some "mark")].

Definition ex_state : SessionState :=
  match rfold applyMutation new_SessionState ex_mutations with Ok s => s | Err _ => new_SessionState end.

Lemma rfold_reachable s ms s' : reachable s → rfold applyMutation s ms = Ok s' → reachable s'.
Proof. intros Hs. apply rfold_inv; [done|]. intros s1 m s2 _ H1 H2. by econstructor. Qed.

Lemma ex_state_reachable : reachable ex_state.
Proof. apply (rfold_reachable new_SessionState ex_mutations); [constructor|vm_compute; reflexivity]. Qed.

Lemma session_invariant_witness : WF ex_state ∧ sequence ex_state = 5.
Proof. split; [apply (session_invariant _ ex_state_reachable)|reflexivity]. Defined.

(** ** Branch queries *)

Definition cursor_ok (afterSeq : option jsnum) : Prop := assertValidCursor afterSeq = Ok tt.

Definition branch_order (order : option EntryOrder) (path : list Entry) : list Entry :=
  match order with Some oldestFirst => reverse path | _ => path end.

Lemma scan_stopped keep limit acc items :
  ∃ b, scan keep (λ _, false) limit acc items = ((scan keep (λ _, false) limit acc items).1, b).
Proof. eexists. apply surjective_pairing. Qed.

(** Branch queries.  From any existing entry of a reachable session, a branch
    query never throws: its result is the entry's ancestor chain in the requested
    order, cut after the first entry at the bound, filtered, and cut at the limit. *)
Theorem findEntriesOnBranch_spec s start e bounds query :
  reachable s → entriesById s !! start = Some e → limit_ok (q_limit query) → cursor_ok (q_afterSeq query) →
  ∃ path, chain s e path ∧
    findEntriesOnBranch s start bounds query =
      Ok (take_limit (q_limit query) (List.filter (λ e, matchesEntryQuery e query)
           (upto (at_bound bounds) (branch_order (q_order query) path)))).
Proof.
  intros Hs%reachable_WF He Hl Hc. unfold findEntriesOnBranch.
  rewrite (proj2 (assertValidLimit_ok _) Hl), Hc. cbn [rbind].
  destruct (walkToRoot_chain s start e bounds Hs He) as (path & Hch & _ & _ & Hw).
  destruct (walkToRoot_chain s start e no_bounds Hs He) as (path' & Hch' & _ & _ & Hw').
  rewrite (chain_det _ _ _ _ Hch' Hch) in Hw'. exists path. split; [done|].
  assert (∀ l, upto (at_bound no_bounds) l = l) as Hnb.
  { intros l. induction l as [|x l IH]; [done|]. cbn. by rewrite IH. }
  destruct (q_order query) as [[]|]; cbn [branch_order].
  1,3: rewrite Hw; destruct (scan_stopped (λ e, matchesEntryQuery e query) (q_limit query) [] (upto (at_bound bounds) path))
    as [b Hb]; rewrite Hb; rewrite scan_acc by (by apply below_nil); rewrite upto_false; by destruct b.
  rewrite Hw', Hnb. by rewrite scan_acc by by apply below_nil.
Qed.

Lemma findEntriesOnBranch_witness :
  ∃ path, chain ex_state (ex_entry "c" 4 (Some "a")) path ∧
    findEntriesOnBranch ex_state "c" (mkBounds None (Some "a")) (no_query newestFirst) =
      Ok (take_limit None (List.filter (λ e, matchesEntryQuery e (no_query newestFirst))
        (upto (at_bound (mkBounds None (Some "a"))) (branch_order (Some newestFirst) path)))).
Proof.
  apply (findEntriesOnBranch_spec ex_state "c" (ex_entry "c" 4 (Some "a")) _ (no_query newestFirst)).
  - exact ex_state_reachable.
  - vm_compute. reflexivity.
  - exact I.
  - reflexivity.
Defined.

(** ** Sequence order *)

Definition seq_sorted (lt : Z → Z → Prop) (l : list Entry) : Prop :=
  StronglySorted (λ a b, lt (e_seq a) (e_seq b)) l.

Lemma entries_sorted_from (l : list LogItem) k :
  (∀ i it, l !! i = Some it → log_seq it = Z.of_nat i + k) →
  (∀ q e, LogEntry q e ∈ l → q = e_seq e) →
  seq_sorted Z.lt (omap log_entry l) ∧ Forall (λ e, k ≤ e_seq e) (omap log_entry l).
Proof.
  revert k. induction l as [|it l IH]; intros k Hl He; [split; constructor|].
  destruct (IH (k + 1)) as [IH1 IH2].
  { intros i it' Hi. rewrite (Hl (S i) it' Hi). lia. }
  { intros q e Hin. apply He. by right. }
  assert (Forall (λ e, k ≤ e_seq e) (omap log_entry l)) as IH3 by (eapply Forall_impl; [done|]; simpl; lia).
  destruct it as [q e|q r|q ln lf|q n|q t lb]; simpl; try done.
  assert (e_seq e = k) as Hk.
  { rewrite <- (He q e) by left. rewrite <- (Z.add_0_l k). apply (Hl 0%nat (LogEntry q e) eq_refl). }
  split; constructor; try done; [|lia]. eapply Forall_impl; [exact IH2|]. simpl. intros. lia.
Qed.

Lemma entries_sorted s : WF s → seq_sorted Z.lt (entries s).
Proof.
  intros Hs. rewrite (wf_entries s Hs). apply (entries_sorted_from _ 1); [apply (wf_log s Hs)|apply (wf_log_entry s Hs)].
Qed.

Lemma seq_sorted_app lt l1 l2 :
  seq_sorted lt l1 → seq_sorted lt l2 → (∀ a b, a ∈ l1 → b ∈ l2 → lt (e_seq a) (e_seq b)) →
  seq_sorted lt (l1 ++ l2).
Proof.
  intros H1 H2 H. induction H1 as [|a l1 H1 IH Ha]; simpl; [done|]. constructor.
  - apply IH. intros x y Hx Hy. apply H; [by right|done].
  - apply Forall_app. split; [done|]. apply Forall_forall. intros y Hy. apply H; [left|done].
Qed.

Lemma seq_sorted_reverse lt l : seq_sorted lt l → seq_sorted (flip lt) (reverse l).
Proof.
  induction 1 as [|a l H IH Ha]; [constructor|]. rewrite reverse_cons. apply seq_sorted_app; [done|by repeat constructor|].
  intros x y Hx Hy%list_elem_of_singleton. subst y. rewrite elem_of_reverse in Hx. rewrite Forall_forall in Ha. by apply Ha.
Qed.

Lemma seq_sorted_filter lt keep l : seq_sorted lt l → seq_sorted lt (List.filter keep l).
Proof.
  induction 1 as [|a l H IH Ha]; simpl; [constructor|]. destruct (keep a); [|done]. constructor; [done|].
  rewrite Forall_forall in *. intros x Hx. apply Ha. apply list_elem_of_In, filter_In in Hx as [Hx _]. by apply list_elem_of_In.
Qed.

(** ** Paging *)

Definition with_cursor (q : EntryQuery) (after : option jsnum) : EntryQuery :=
  mkEntryQuery (q_type q) (q_customType q) (q_order q) (q_limit q) after.

Definition unlimited (q : EntryQuery) : EntryQuery :=
  mkEntryQuery (q_type q) (q_customType q) (q_order q) None None.

(** Reading page after page, each from the last sequence number of the one before. *)
Fixpoint pages (fuel : nat) (s : SessionState) (q : EntryQuery) (after : option jsnum) : option (list Entry) :=
  match fuel with
  | O => None
  | S fuel =>
      match findEntries s (with_cursor q after) with
      | Err _ => None
      | Ok page =>
          match last page with
          | None => Some []
          | Some e => rest ← pages fuel s q (Some (NInt (e_seq e))); Some (page ++ rest)
          end
      end
  end.

Definition order_lt (order : option EntryOrder) : Z → Z → Prop :=
  match order with Some oldestFirst => Z.lt | _ => flip Z.lt end.

Definition beyond (order : option EntryOrder) (c : Z) (e : Entry) : bool :=
  match order with Some oldestFirst => c <? e_seq e | _ => e_seq e <? c end.

Lemma ordered_sorted s order : WF s → seq_sorted (order_lt order) (ordered (entries s) order).
Proof.
  intros Hs%entries_sorted. destruct order as [[]|]; simpl; [by apply seq_sorted_reverse|done|by apply seq_sorted_reverse].
Qed.

Lemma filter_nothing {A} (f : A → bool) l : (∀ x, x ∈ l → f x = false) → List.filter f l = [].
Proof.
  induction l as [|x l IH]; intros H; simpl; [done|]. rewrite (H x) by left. apply IH. intros y Hy. apply H. by right.
Qed.

Lemma list_filter_all {A} (f : A → bool) l : (∀ x, x ∈ l → f x = true) → List.filter f l = l.
Proof.
  induction l as [|x l IH]; intros H; simpl; [done|]. rewrite (H x) by left. f_equal. apply IH. intros y Hy. apply H. by right.
Qed.

Lemma seq_sorted_split lt l1 x l2 :
  seq_sorted lt (l1 ++ x :: l2) →
  (∀ a, a ∈ l1 → lt (e_seq a) (e_seq x)) ∧ (∀ b, b ∈ l2 → lt (e_seq x) (e_seq b)).
Proof.
  induction l1 as [|a l1 IH]; simpl; intros H; inversion H as [|? ? Hs Ha]; subst.
  - split; [set_solver|]. rewrite Forall_forall in Ha. done.
  - destruct (IH Hs) as [I1 I2]. split; [|done]. intros b [->|Hb]%elem_of_cons; [|auto].
    rewrite Forall_forall in Ha. apply Ha. apply elem_of_app. right. left.
Qed.

Lemma beyond_split order l1 x l2 :
  seq_sorted (order_lt order) (l1 ++ x :: l2) → List.filter (beyond order (e_seq x)) (l1 ++ x :: l2) = l2.
Proof.
  intros [H1 H2]%seq_sorted_split. rewrite List.filter_app. simpl.
  rewrite filter_nothing.
  2:{ intros a Ha. specialize (H1 a Ha). destruct order as [[]|]; simpl in *; apply Z.ltb_ge; lia. }
  assert (beyond order (e_seq x) x = false) as -> by (destruct order as [[]|]; simpl; apply Z.ltb_irrefl).
  apply list_filter_all. intros b Hb. specialize (H2 b Hb). destruct order as [[]|]; simpl in *; by apply Z.ltb_lt.
Qed.

Lemma matches_cursor e q c :
  matchesEntryQuery e (with_cursor q (Some (NInt c))) =
  matchesEntryQuery e (unlimited q) && beyond (q_order q) c e.
Proof. unfold matchesEntryQuery, beyond. simpl. rewrite andb_true_r. by destruct (q_order q) as [[]|]. Qed.

Lemma matches_no_cursor e q : matchesEntryQuery e (with_cursor q None) = matchesEntryQuery e (unlimited q).
Proof. done. Qed.

Lemma filter_andb {A} (f g : A → bool) l : List.filter (λ x, f x && g x) l = List.filter g (List.filter f l).
Proof.
  induction l as [|x l IH]; simpl; [done|]. destruct (f x); simpl; [|done]. destruct (g x); by rewrite IH.
Qed.

Definition matching (s : SessionState) (q : EntryQuery) : list Entry :=
  List.filter (λ e, matchesEntryQuery e (unlimited q)) (ordered (entries s) (q_order q)).

Lemma findEntries_page s q n after rest :
  q_limit q = Some (NInt n) → 0 < n → cursor_ok after →
  List.filter (λ e, matchesEntryQuery e (with_cursor q after)) (ordered (entries s) (q_order q)) = rest →
  findEntries s (with_cursor q after) = Ok (take (Z.to_nat n) rest).
Proof.
  intros Hl Hn Hc <-. unfold findEntries. cbn [q_limit q_afterSeq q_order with_cursor].
  assert (limit_ok (q_limit q)) as Hlok by (rewrite Hl; simpl; eauto).
  rewrite (proj2 (assertValidLimit_ok _) Hlok), Hc. cbn [rbind]. by rewrite collect_spec, Hl.
Qed.

Lemma matching_sorted s q : WF s → seq_sorted (order_lt (q_order q)) (matching s q).
Proof. intros. by apply seq_sorted_filter, ordered_sorted. Qed.

Lemma pages_from s q n fuel after done_ rest :
  WF s → q_limit q = Some (NInt n) → 0 < n → cursor_ok after →
  matching s q = done_ ++ rest →
  List.filter (λ e, matchesEntryQuery e (with_cursor q after)) (ordered (entries s) (q_order q)) = rest →
  (length rest < fuel)%nat → pages fuel s q after = Some rest.
Proof.
  intros Hs Hl Hn. revert after done_ rest. induction fuel as [|fuel IH]; intros after done_ rest Hc Hm Hf Hfuel; [lia|].
  cbn [pages]. rewrite (findEntries_page s q n after rest Hl Hn Hc Hf).
  destruct rest as [|e0 rest0] eqn:Hr; [by rewrite take_nil|]. rewrite <- Hr in *.
  destruct (last (take (Z.to_nat n) rest)) as [e|] eqn:Hlast.
  2:{ apply last_None in Hlast. rewrite Hr in Hlast. destruct (Z.to_nat n) eqn:En; [lia|done]. }
  apply last_Some in Hlast as [front Hfront].
  pose proof (take_drop (Z.to_nat n) rest) as Htd. rewrite Hfront, <- app_assoc in Htd. simpl in Htd.
  assert (0 ≤ e_seq e) as Hpos.
  { assert (e ∈ entries s) as [i Hi]%list_elem_of_lookup.
    { assert (e ∈ matching s q) as He by (rewrite Hm, <- Htd; set_solver).
      apply list_elem_of_In, filter_In in He as [He%list_elem_of_In _].
      destruct (q_order q) as [[]|]; simpl in He; by rewrite ?elem_of_reverse in He. }
    pose proof (entries_sorted_from (log s) 1 (wf_log s Hs) (wf_log_entry s Hs)) as [_ Hall].
    rewrite <- (wf_entries s Hs), Forall_forall in Hall. specialize (Hall e ltac:(by eapply list_elem_of_lookup_2)). lia. }
  rewrite (IH (Some (NInt (e_seq e))) (done_ ++ front ++ [e]) (drop (Z.to_nat n) rest)).
  - simpl. rewrite Hfront, <- app_assoc. simpl. by rewrite Htd.
  - unfold cursor_ok. simpl. by rewrite (proj2 (Z.ltb_ge _ _) Hpos).
  - rewrite Hm, <- Htd at 1. by rewrite <- !app_assoc.
  - erewrite filter_ext; [|intros a; apply matches_cursor]. rewrite filter_andb.
    change (List.filter (λ e, matchesEntryQuery e (unlimited q)) (ordered (entries s) (q_order q))) with (matching s q).
    pose proof (matching_sorted s q Hs) as Hsort. rewrite Hm in Hsort |- *.
    remember (drop (Z.to_nat n) rest) as tail. rewrite <- Htd, app_assoc in Hsort |- *. by apply beyond_split.
  - assert (length rest = length (front ++ e :: drop (Z.to_nat n) rest)) as Hlen by by rewrite Htd.
    rewrite length_app in Hlen. simpl in Hlen. lia.
Qed.

(** Paging is complete and repeats nothing.  Reading with any page size, each
    page from the last sequence number of the one before, yields exactly the
    result of the unlimited query, in order, and ends. *)
Theorem pages_complete s q n :
  reachable s → q_limit q = Some (NInt n) → 0 < n →
  ∃ all, findEntries s (unlimited q) = Ok all ∧ pages (S (length (entries s))) s q None = Some all.
Proof.
  intros Hs%reachable_WF Hl Hn. exists (matching s q). split.
  - unfold findEntries. cbn. by rewrite collect_spec.
  - apply (pages_from s q n _ None []); try done.
    unfold matching. pose proof (filter_length_le (λ e, matchesEntryQuery e (unlimited q)) (ordered (entries s) (q_order q))) as Hle.
    assert (length (ordered (entries s) (q_order q)) = length (entries s)) as Hlen
      by (destruct (q_order q) as [[]|]; simpl; rewrite ?length_reverse; done).
    lia.
Qed.

Lemma pages_complete_witness :
  ∃ all, findEntries ex_state (unlimited (mkEntryQuery (Some message) None None (Some (NInt 2)) None)) = Ok all ∧
    pages (S (length (entries ex_state))) ex_state (mkEntryQuery (Some message) None None (Some (NInt 2)) None) None = Some all.
Proof.
  apply (pages_complete ex_state (mkEntryQuery (Some message) None None (Some (NInt 2)) None) 2);
    [exact ex_state_reachable|reflexivity|lia].
Defined.

(** ** Open operations *)

(** The starts of [lane] that no later record of the lane finishes, oldest first. *)
Definition starts_in (lane : string) (r : LaneRecord) : bool :=
  match r_body r with OperationStarted _ _ => bool_decide (r_lane r = lane) | _ => false end.

Definition finishes (lane id : string) (r : LaneRecord) : bool :=
  match r_body r with OperationFinished runId _ _ => bool_decide (r_lane r = lane) && bool_decide (runId = id) | _ => false end.

Fixpoint still_open (lane : string) (rs : list LaneRecord) : list LaneRecord :=
  match rs with
  | [] => []
  | r :: rs =>
      if starts_in lane r && negb (existsb (finishes lane (r_id r)) rs)
      then r :: still_open lane rs else still_open lane rs
  end.

Lemma still_open_snoc lane rs x :
  still_open lane (rs ++ [x]) =
  List.filter (λ r, negb (finishes lane (r_id r) x)) (still_open lane rs) ++ (if starts_in lane x then [x] else []).
Proof.
  induction rs as [|r rs IH]; simpl; [by destruct (starts_in lane x)|].
  rewrite existsb_app. simpl. rewrite orb_false_r, negb_orb.
  destruct (starts_in lane r); simpl; [|done].
  destruct (existsb (finishes lane (r_id r)) rs); simpl; [done|].
  destruct (finishes lane (r_id r) x); simpl; by rewrite IH.
Qed.

Lemma still_open_elem lane rs r : r ∈ still_open lane rs → r ∈ rs ∧ starts_in lane r = true.
Proof.
  induction rs as [|r' rs IH]; simpl; [set_solver|].
  destruct (starts_in lane r') eqn:E; simpl; [|set_solver].
  destruct (negb _); [|set_solver]. intros [->|H]%elem_of_cons; set_solver.
Qed.

Lemma fmap_filter_keys (rs : list LaneRecord) runId :
  map_delete ((λ r, (r_id r, r)) <$> rs) runId = (λ r, (r_id r, r)) <$> List.filter (λ r, negb (bool_decide (runId = r_id r))) rs.
Proof.
  unfold map_delete. induction rs as [|r rs IH]; [done|]. rewrite fmap_cons, filter_cons. simpl.
  destruct (decide (r_id r ≠ runId)) as [E|E].
  - rewrite bool_decide_eq_false_2 by done. simpl. by rewrite IH.
  - rewrite bool_decide_eq_true_2; [simpl; done|]. symmetry. by apply dec_stable.
Qed.

Lemma open_operations_fold rs lane :
  NoDup (r_id <$> rs) →
  default [] (foldl trackOperation ∅ rs !! lane) = (λ r, (r_id r, r)) <$> still_open lane rs.
Proof.
  induction rs as [|x rs IH] using rev_ind; intros Hnd; [done|].
  rewrite fmap_app in Hnd. apply NoDup_app in Hnd as (Hnd & Hx & _). specialize (IH Hnd).
  rewrite foldl_app, still_open_snoc. cbn [foldl]. set (ops := foldl trackOperation ∅ rs) in *.
  unfold trackOperation, starts_in, finishes.
  destruct (r_body x) eqn:Hb; simpl; try (by rewrite list_filter_all, app_nil_r).
  - destruct (decide (r_lane x = lane)) as [<-|Hne].
    + rewrite lookup_insert_eq, IH, list_filter_all, bool_decide_eq_true_2 by done. simpl. rewrite fmap_app.
      apply map_set_fresh. rewrite <- list_fmap_compose. intros (r & Hr & [Hin _]%still_open_elem)%list_elem_of_fmap.
      simpl in Hr. apply (Hx (r_id x)); [|simpl; left]. rewrite Hr. by apply list_elem_of_fmap_2.
    + rewrite lookup_insert_ne, list_filter_all, bool_decide_eq_false_2, app_nil_r by done. done.
  - rewrite app_nil_r. destruct (decide (r_lane x = lane)) as [<-|Hne].
    + rewrite bool_decide_eq_true_2 by done. cbn [andb].
      destruct (ops !! r_lane x) as [m|] eqn:E.
      * rewrite lookup_insert_eq. simpl in IH |- *. rewrite IH. apply fmap_filter_keys.
      * rewrite E. simpl in IH |- *. symmetry in IH. apply fmap_nil_inv in IH. by rewrite IH.
    + rewrite bool_decide_eq_false_2 by done. simpl. rewrite list_filter_all by done.
      destruct (ops !! r_lane x) as [m|]; [|done]. by rewrite lookup_insert_ne.
Qed.

(** The open operations of a reachable state, without a limit. *)
Lemma findOpenOperations_eq s lane limit :
  WF s → limit_ok limit →
  findOpenOperations s lane limit = Ok (take_limit limit (reverse (still_open lane (records s)))).
Proof.
  intros Hs Hl. unfold findOpenOperations. rewrite (proj2 (assertValidLimit_ok _) Hl). cbn [rbind].
  pose proof (wf_ids s Hs) as (_ & _ & Hnd)%NoDup_app.
  rewrite (wf_open s Hs), open_operations_fold by done.
  rewrite <- list_fmap_compose.
  change (snd ∘ (λ r : LaneRecord, (r_id r, r))) with (@id LaneRecord). rewrite list_fmap_id. by destruct limit.
Qed.

(** Open operations.  In every reachable state, [findOpenOperations] returns
    the operation starts of the lane that no later record of that lane finishes,
    newest first, cut at the limit. *)
Theorem findOpenOperations_spec s lane limit :
  reachable s → limit_ok limit →
  findOpenOperations s lane limit = Ok (take_limit limit (reverse (still_open lane (records s)))).
Proof. intros Hs%reachable_WF Hl. by apply findOpenOperations_eq. Qed.

Definition ex_start (id : string) (seq : Z) : LaneRecord :=
  mkRecord id seq "main" 0 (OperationStarted None (CompactionIntent None "x")).

Definition ex_op_mutations : list SessionMutation := [
  MutRecord (ex_start "o1" 1);
  MutRecord (mkRecord "f1" 2 "main" 0 (OperationFinished "o1" completed None));
  MutRecord (ex_start "o2" 3)].

Definition ex_ops : SessionState :=
  match rfold applyMutation new_SessionState ex_op_mutations with Ok s => s | Err _ => new_SessionState end.

Lemma ex_ops_reachable : reachable ex_ops.
Proof. apply (rfold_reachable new_SessionState ex_op_mutations); [constructor|vm_compute; reflexivity]. Qed.

Lemma findOpenOperations_witness :
  findOpenOperations ex_ops "main" (Some (NInt 1)) =
    Ok (take_limit (Some (NInt 1)) (reverse (still_open "main" (records ex_ops)))) ∧
  still_open "main" (records ex_ops) = [ex_start "o2" 3].
Proof.
  split; [|vm_compute; reflexivity].
  apply (findOpenOperations_spec ex_ops "main" (Some (NInt 1))); [exact ex_ops_reachable|].
  exists 1. split; [reflexivity|lia].
Defined.
