(* ===== verification/SessionFork.v ===== *)
(** Forking: the mutations [createForkMutations] builds always apply to an empty
    session, and the fork holds the selected entries, lanes, name and labels. *)
From S2P Require Import Prelude JsValue JsMap SessionTypes SessionState SessionSpec SessionQueries.
Open Scope Z_scope.

(** Entries in an order in which every parent precedes its children. *)
Definition closed (copied : list Entry) : Prop :=
  NoDup (e_id <$> copied) ∧
  ∀ i e p, copied !! i = Some e → e_parentId e = Some p →
    ∃ j q, (j < i)%nat ∧ copied !! j = Some q ∧ e_id q = p.

Definition renumber (copied : list Entry) : list Entry :=
  imap (λ i e, with_seq e (Z.of_nat i + 1)) copied.

Lemma renumber_ids copied : e_id <$> renumber copied = e_id <$> copied.
Proof. unfold renumber. rewrite fmap_imap. rewrite <- imap_const. by apply imap_ext. Qed.

Lemma closed_snoc l e : closed (l ++ [e]) → closed l ∧ e_id e ∉ e_id <$> l ∧
  ∀ p, e_parentId e = Some p → p ∈ e_id <$> l.
Proof.
  intros [Hnd Hp]. rewrite fmap_app in Hnd. apply NoDup_app in Hnd as (Hnd & Hx & _). split_and!.
  - split; [done|]. intros i e' p Hi Hpar. destruct (Hp i e' p) as (j & q & Hj & Hq & Hid);
      [by apply lookup_app_l_Some|done|]. exists j, q. split_and!; [done| |done].
    apply lookup_lt_Some in Hi. by rewrite lookup_app_l in Hq by lia.
  - intros Hin. apply (Hx _ Hin). left.
  - intros p Hpar. destruct (Hp (length l) e p) as (j & q & Hj & Hq & Hid); [|done|].
    { rewrite lookup_app_r, Nat.sub_diag by lia. done. }
    rewrite lookup_app_l in Hq by lia. rewrite <- Hid. apply list_elem_of_fmap_2. by eapply list_elem_of_lookup_2.
Qed.

Lemma entryMutations_snoc seq l e :
  entryMutations seq (l ++ [e]) = entryMutations seq l ++ [MutEntry None (with_seq e (seq + Z.of_nat (length l)))].
Proof.
  revert seq. induction l as [|x l IH]; intros seq; simpl; [by rewrite Z.add_0_r|].
  rewrite IH. by replace (seq + 1 + Z.of_nat (length l)) with (seq + Z.of_nat (S (length l))) by lia.
Qed.

(** Whether an id is an entry of a reachable state. *)
Lemma has_entry_elem s id : WF s → has_entry s id = true ↔ id ∈ e_id <$> entries s.
Proof.
  intros Hs. rewrite has_entry_true. split.
  - intros [e [He <-]%(wf_byId s Hs)]. by apply list_elem_of_fmap_2.
  - intros (e & -> & He)%list_elem_of_fmap. exists e. by apply (wf_byId s Hs).
Qed.

(** What the fork must contain once its entries are copied. *)
Record copied_state (copied : list Entry) (f : SessionState) : Prop := {
  cs_reachable : reachable f;
  cs_entries : entries f = renumber copied;
  cs_records : records f = [];
}.

Lemma copied_has copied f id : copied_state copied f → id ∈ e_id <$> copied → has_entry f id = true.
Proof.
  intros [Hr He _] Hid. apply has_entry_elem; [by apply reachable_WF|]. by rewrite He, renumber_ids.
Qed.

Lemma apply_entries copied :
  closed copied →
  ∃ f, rfold applyMutation new_SessionState (entryMutations 1 copied) = Ok f ∧ copied_state copied f ∧
    sequence f = Z.of_nat (length copied) ∧ lanes f = [("main", None)] ∧ name f = None ∧ labels f = ∅.
Proof.
  induction copied as [|e l IH] using rev_ind; intros Hc.
  { exists new_SessionState. split_and!; try done. split; [constructor|done|done]. }
  apply closed_snoc in Hc as (Hc & Hid & Hpar). destruct (IH Hc) as (f & Hf & Hcs & Hseq & Hl & Hn & Hlab).
  pose proof Hcs as [Hr He Hrec]. pose proof (reachable_WF _ Hr) as Hwf.
  rewrite entryMutations_snoc, rfold_app, Hf. cbn [rbind rfold].
  assert (applyMutation f (MutEntry None (with_seq e (1 + Z.of_nat (length l)))) =
    Ok (mkState (1 + Z.of_nat (length l)) ({[ e_id e ]} ∪ usedIds f)
          (entries f ++ [with_seq e (1 + Z.of_nat (length l))])
          (<[e_id e := with_seq e (1 + Z.of_nat (length l))]> (entriesById f)) (records f) (openOperationsByLane f) (lanes f)
          (log f ++ [LogEntry (1 + Z.of_nat (length l)) (with_seq e (1 + Z.of_nat (length l)))])
          (if bool_decide (e_type (with_seq e (1 + Z.of_nat (length l))) = message)
           then mkStats (messageCount (stats f) + 1) (cachedTokens (stats f)) (uncachedTokens (stats f))
                  (totalTokens (stats f)) (costTotal (stats f))
           else stats f) (name f) (labels f))) as Happ.
  { unfold applyMutation. cbn [mut_seq e_seq with_seq]. rewrite Hseq.
    rewrite (proj2 (Z.eqb_eq _ _)) by lia. cbn [negb]. unfold applyEntry. cbn [e_id e_parentId e_seq with_seq].
    rewrite bool_decide_eq_false_2.
    2:{ rewrite (wf_used f Hwf), He, Hrec, renumber_ids, app_nil_r. done. }
    cbn [rbind]. destruct (e_parentId e) as [p|]; [|done].
    rewrite (copied_has l f p Hcs) by by apply Hpar. done. }
  rewrite Happ. cbn [rbind]. eexists. split; [done|]. cbn. rewrite length_app. simpl.
  split_and!; try done; [|lia]. split; cbn; [by econstructor| |done].
  rewrite He. unfold renumber. rewrite imap_app. cbn. by rewrite Nat.add_0_r, Z.add_comm.
Qed.

Lemma apply_lanes copied pointers f seq :
  copied_state copied f → sequence f = seq - 1 →
  Forall (λ p, match p.2 with Some id => id ∈ e_id <$> copied | None => True end) pointers →
  ∃ f', rfold applyMutation f (laneMutations seq pointers) = Ok f' ∧ copied_state copied f' ∧
    sequence f' = seq - 1 + Z.of_nat (length pointers) ∧
    lanes f' = foldl (λ m p, map_set m p.1 p.2) (lanes f) pointers ∧ name f' = name f ∧ labels f' = labels f.
Proof.
  revert f seq. induction pointers as [|[lane leaf] pointers IH]; intros f seq Hcs Hseq Hall; simpl.
  { exists f. split_and!; try done. lia. }
  apply Forall_cons in Hall as [Hleaf Hall]. simpl in Hleaf.
  assert (applyMutation f (MutLane seq lane leaf) =
    Ok (mkState seq (usedIds f) (entries f) (entriesById f) (records f) (openOperationsByLane f)
          (map_set (lanes f) lane leaf) (log f ++ [LogLane seq lane leaf]) (stats f) (name f) (labels f))) as Happ.
  { unfold applyMutation. cbn [mut_seq]. rewrite (proj2 (Z.eqb_eq _ _)) by lia. cbn [negb]. unfold applyLane.
    destruct leaf as [id|]; [|done]. by rewrite (copied_has copied f id Hcs Hleaf). }
  rewrite Happ. cbn [rbind].
  match type of Happ with _ = Ok ?g =>
    destruct (IH g (seq + 1)) as (f' & Hf' & Hcs' & Hs' & Hl' & Hn' & Hlab'); [| |exact Hall|] end.
  - destruct Hcs as [Hr He Hrec]. split; [by econstructor|exact He|exact Hrec].
  - simpl. lia.
  - exists f'. simpl in *. split_and!; try done. lia.
Qed.

Lemma apply_labels s copied l f seq :
  copied_state copied f → sequence f = seq - 1 → (∀ e, e ∈ l → e_id e ∈ e_id <$> copied) →
  ∃ f', rfold applyMutation f (labelMutations s seq l) = Ok f' ∧ copied_state copied f' ∧
    lanes f' = lanes f ∧ name f' = name f ∧
    (∀ id, id ∈ e_id <$> l → is_Some (labels s !! id) → labels f' !! id = labels s !! id) ∧
    (∀ id, id ∉ e_id <$> l ∨ labels s !! id = None → labels f' !! id = labels f !! id).
Proof.
  revert f seq. induction l as [|e l IH]; intros f seq Hcs Hseq Hin; cbn [labelMutations].
  { exists f. split_and!; try done. set_solver. }
  destruct (labels s !! e_id e) as [lb|] eqn:Hlb.
  - assert (applyMutation f (MutLabel seq (e_id e) (Some lb)) =
      Ok (mkState seq (usedIds f) (entries f) (entriesById f) (records f) (openOperationsByLane f)
            (lanes f) (log f ++ [LogLabel seq (e_id e) (Some lb)]) (stats f) (name f)
            (<[e_id e := lb]> (labels f)))) as Happ.
    { unfold applyMutation. cbn [mut_seq]. rewrite (proj2 (Z.eqb_eq _ _)) by lia. cbn [negb]. unfold applyLabel.
      rewrite (copied_has copied f (e_id e) Hcs) by (apply Hin; left). done. }
    cbn [rfold]. rewrite Happ. cbn [rbind].
    match type of Happ with _ = Ok ?g =>
      destruct (IH g (seq + 1)) as (f' & Hf' & Hcs' & Hl' & Hn' & Hlab' & Hlab2) end.
    + destruct Hcs as [Hr He Hrec]. split; [by econstructor|exact He|exact Hrec].
    + simpl. lia.
    + intros x Hx. apply Hin. by right.
    + simpl in *. exists f'. split_and!; try done.
      * intros id Hid Hsome. destruct (decide (id ∈ e_id <$> l)) as [Hl|Hl]; [by apply Hlab'|].
        rewrite Hlab2 by (by left). apply elem_of_cons in Hid as [->|?]; [|done]. by rewrite lookup_insert_eq, Hlb.
      * intros id Hid. rewrite Hlab2; [|rewrite not_elem_of_cons in Hid; naive_solver].
        rewrite lookup_insert_ne; [done|]. intros <-. rewrite not_elem_of_cons in Hid. naive_solver.
  - destruct (IH f seq Hcs Hseq) as (f' & Hf' & Hcs' & Hl' & Hn' & Hlab' & Hlab2); [intros x Hx; apply Hin; by right|].
    simpl in *. exists f'. split_and!; try done.
    + intros id [->|Hid]%elem_of_cons [? Hsome]; [congruence|]. apply Hlab'; [done|by eexists].
    + intros id Hid. apply Hlab2. rewrite not_elem_of_cons in Hid. naive_solver.
Qed.

(** ** What a fork selects *)

Lemma closed_snoc_intro l e :
  closed l → e_id e ∉ e_id <$> l → (∀ p, e_parentId e = Some p → p ∈ e_id <$> l) → closed (l ++ [e]).
Proof.
  intros [Hnd Hp] Hid Hpar. split.
  - rewrite fmap_app. apply NoDup_app. split_and!; [done|set_solver|apply NoDup_singleton].
  - intros i x p Hi Hx. apply lookup_app_Some in Hi as [Hi|[Hle Hi]].
    + destruct (Hp i x p Hi Hx) as (j & q & Hj & Hq & Hidq). exists j, q. split_and!; [done|by apply lookup_app_l_Some|done].
    + apply list_lookup_singleton_Some in Hi as [Hz <-]. apply Hpar, list_elem_of_fmap in Hx as (q & -> & [j Hj]%list_elem_of_lookup).
      pose proof (lookup_lt_Some _ _ _ Hj). exists j, q. split_and!; [lia|by apply lookup_app_l_Some|done].
Qed.

Lemma chain_head s e path : chain s e path → e ∈ path.
Proof. inversion 1; left. Qed.

Lemma chain_closed s e path :
  WF s → chain s e path → NoDup (e_id <$> path) → closed (reverse path).
Proof.
  intros Hs. induction 1 as [e Hp|e p q path Hp Hq Hc IH]; intros Hnd; rewrite reverse_cons; simpl in Hnd;
    apply NoDup_cons in Hnd as [Hni Hnd].
  - apply closed_snoc_intro; [|set_solver|congruence]. split; [constructor|done].
  - apply closed_snoc_intro; [by apply IH| |].
    + rewrite fmap_reverse, elem_of_reverse. done.
    + intros p' Hp'. assert (p' = p) as -> by congruence. rewrite fmap_reverse, elem_of_reverse.
      apply (wf_byId s Hs) in Hq as [_ <-]. apply list_elem_of_fmap_2. by eapply chain_head.
Qed.

Definition selection (s : SessionState) (options : ForkOptions) (copied : list Entry)
    (pointers : list (string * option string)) : Prop :=
  match options with
  | ForkTree => copied = entries s ∧ pointers = lanes s
  | ForkBranch _ _ =>
      ∃ target, pointers = [("main", target)] ∧
        match target with
        | None => copied = []
        | Some t => ∃ e path, entriesById s !! t = Some e ∧ chain s e path ∧ copied = reverse path
        end
  end.

Lemma findEntries_all s : findEntries s (no_query oldestFirst) = Ok (entries s).
Proof. unfold findEntries. cbn. rewrite collect_spec by done. simpl. by rewrite list_filter_all. Qed.

Lemma findEntriesOnBranch_all s t e :
  WF s → entriesById s !! t = Some e →
  ∃ path, chain s e path ∧ NoDup (e_id <$> path) ∧
    findEntriesOnBranch s t no_bounds (no_query oldestFirst) = Ok (reverse path).
Proof.
  intros Hs He. destruct (walkToRoot_chain s t e no_bounds Hs He) as (path & Hc & Hnd & _ & Hw).
  exists path. split_and!; [done|done|]. unfold findEntriesOnBranch. cbn. rewrite Hw.
  assert (∀ l, upto (at_bound no_bounds) l = l) as Hnb.
  { intros l. induction l as [|x l IH]; [done|]. cbn. by rewrite IH. }
  rewrite Hnb, scan_acc, Hnb by done. simpl. by rewrite list_filter_all.
Qed.

Lemma forkTarget_spec s entryId pos sel :
  WF s →
  (∃ id, forkTarget s entryId pos sel = Err (SessionError invalid_fork_target id)) ∨
  ∃ target, forkTarget s entryId pos sel = Ok target ∧ ∀ t, target = Some t → is_Some (entriesById s !! t).
Proof.
  intros Hs. unfold forkTarget. destruct sel as [id|]; [|right; exists None; done].
  destruct (getEntry s id) as [entry|] eqn:E; [|left; by exists id].
  destruct (bool_decide (e_type entry = message)); cbn [negb]; [|left; by exists id].
  right. eexists. split; [done|].
  apply (wf_byId s Hs) in E as [[i Hi]%list_elem_of_lookup _]. intros t. destruct (default _ pos).
  - intros [= <-]. eexists. by eapply entries_lookup_id.
  - intros Hp. destruct (wf_parent s Hs i entry t Hi Hp) as (j & q & _ & Hq & <-). eexists. by eapply entries_lookup_id.
Qed.

(** A selection of a reachable state: its entries are closed under parents, and its
    lanes point into it; the only error is a target that is not a message. *)
Lemma forkSelection_spec s options :
  WF s →
  (∃ id, forkSelection s options = Err (SessionError invalid_fork_target id)) ∨
  ∃ copied pointers, forkSelection s options = Ok (copied, pointers) ∧ selection s options copied pointers ∧
    closed copied ∧ NoDup (pointers.*1) ∧
    Forall (λ p, match p.2 with Some id => id ∈ e_id <$> copied | None => True end) pointers.
Proof.
  intros Hs. destruct options as [entryId pos|]; unfold forkSelection.
  2:{ right. exists (entries s), (lanes s). rewrite findEntries_all. cbn [rbind].
      split_and!; [done|done| |apply Hs|].
      - split; [|apply (wf_parent s Hs)]. by pose proof (wf_ids s Hs) as (? & _)%NoDup_app.
      - apply Forall_forall. intros [lane [id|]] Hin; simpl; [|done]. apply has_entry_elem; [done|].
        apply has_entry_true. by eapply (wf_lanes s Hs). }
  assert (∃ sel, (match entryId with Some id => Ok (Some id) | None => requireLane s "main" end) = Ok sel) as [sel Hsel].
  { destruct entryId as [id|]; [eauto|]. unfold requireLane.
    destruct (map_get (lanes s) "main") eqn:E; [eauto|]. apply map_get_None in E. by destruct E; apply (wf_main s Hs). }
  rewrite Hsel. cbn [rbind].
  destruct (forkTarget_spec s entryId pos sel Hs) as [[id ->]|(target & -> & Ht)]; [left; by exists id|].
  right. cbn [rbind]. destruct target as [t|].
  - destruct (Ht t eq_refl) as [e He]. destruct (findEntriesOnBranch_all s t e Hs He) as (path & Hc & Hnd & ->).
    cbn [rbind]. exists (reverse path), [("main", Some t)]. split_and!; [done| | |apply NoDup_singleton|].
    + exists (Some t). split; [done|]. eauto 10.
    + by eapply chain_closed.
    + constructor; [|done]. simpl. rewrite fmap_reverse, elem_of_reverse. apply (wf_byId s Hs) in He as [_ <-].
      apply list_elem_of_fmap_2. by eapply chain_head.
  - exists [], [("main", None)]. split_and!; [done| | |apply NoDup_singleton|by constructor].
    + by exists None.
    + split; [constructor|done].
Qed.

Lemma foldl_set_get {A} (pairs m : jsmap A) k v :
  NoDup (pairs.*1) → (k, v) ∈ pairs → map_get (foldl (λ m p, map_set m p.1 p.2) m pairs) k = Some v.
Proof.
  assert (∀ (pairs m : jsmap A) k, k ∉ pairs.*1 → map_get (foldl (λ m p, map_set m p.1 p.2) m pairs) k = map_get m k) as Hskip.
  { intros ps. induction ps as [|[k1 v1] ps IH]; intros m' k' Hk; simpl; [done|].
    simpl in Hk. apply not_elem_of_cons in Hk as [Hne Hk]. rewrite IH by done. rewrite map_get_set.
    by rewrite bool_decide_eq_false_2. }
  revert m. induction pairs as [|[k1 v1] pairs IH]; intros m Hnd Hin; [set_solver|].
  simpl in Hnd. apply NoDup_cons in Hnd as [Hk Hnd]. apply elem_of_cons in Hin as [[= -> ->]|Hin]; [|by apply IH].
  simpl. rewrite Hskip by done. rewrite map_get_set. by rewrite bool_decide_eq_true_2.
Qed.

(** What the fork's mutations build. *)
Lemma fork_applies s options :
  reachable s →
  (∃ id, createForkMutations s options = Err (SessionError invalid_fork_target id)) ∨
  ∃ copied pointers ms f,
    selection s options copied pointers ∧
    createForkMutations s options = Ok ms ∧ rfold applyMutation new_SessionState ms = Ok f ∧
    reachable f ∧ entries f = renumber copied ∧ records f = [] ∧
    (∀ lane leaf, (lane, leaf) ∈ pointers → map_get (lanes f) lane = Some leaf) ∧
    name f = name s ∧ (∀ e, e ∈ copied → labels f !! e_id e = labels s !! e_id e).
Proof.
  intros Hs%reachable_WF. unfold createForkMutations.
  destruct (forkSelection_spec s options Hs) as [[id ->]|(copied & pointers & -> & Hsel & Hc & Hnd & Hall)]; [left; by exists id|].
  right. cbn [rbind]. exists copied, pointers.
  destruct (apply_entries copied Hc) as (f1 & H1 & Hcs1 & Hs1 & Hl1 & Hn1 & Hlab1).
  destruct (apply_lanes copied pointers f1 (1 + Z.of_nat (length copied)) Hcs1 ltac:(lia) Hall)
    as (f2 & H2 & Hcs2 & Hs2 & Hl2 & Hn2 & Hlab2).
  assert (∃ f3 k, rfold applyMutation f2 (match name s with
      | Some nm => [MutName (1 + Z.of_nat (length copied) + Z.of_nat (length pointers)) (Some nm)] | None => [] end) = Ok f3 ∧
    copied_state copied f3 ∧ lanes f3 = lanes f2 ∧ name f3 = name s ∧ labels f3 = ∅ ∧ sequence f3 = k - 1 ∧
    match name s with
    | Some nm => MutName (1 + Z.of_nat (length copied) + Z.of_nat (length pointers)) (Some nm) ::
        labelMutations s (1 + Z.of_nat (length copied) + Z.of_nat (length pointers) + 1) copied
    | None => labelMutations s (1 + Z.of_nat (length copied) + Z.of_nat (length pointers)) copied
    end = match name s with
      | Some nm => [MutName (1 + Z.of_nat (length copied) + Z.of_nat (length pointers)) (Some nm)] | None => [] end
      ++ labelMutations s k copied) as (f3 & k & H3 & Hcs3 & Hl3 & Hn3 & Hlab3 & Hs3 & ->).
  { destruct (name s) as [nm|]; cbn [rfold].
    - assert (applyMutation f2 (MutName (1 + Z.of_nat (length copied) + Z.of_nat (length pointers)) (Some nm)) =
        applyName f2 (1 + Z.of_nat (length copied) + Z.of_nat (length pointers)) (Some nm)) as Ha.
      { unfold applyMutation. cbn [mut_seq]. by rewrite (proj2 (Z.eqb_eq _ _)) by lia. }
      rewrite Ha. cbn [applyName rbind]. eexists _, _. split; [done|]. cbn.
      split_and!; [|done|done|congruence| |done]; [|lia]. destruct Hcs2. split; [by econstructor|done|done].
    - exists f2, (1 + Z.of_nat (length copied) + Z.of_nat (length pointers)). split_and!; try done; [congruence|congruence|lia]. }
  destruct (apply_labels s copied copied f3 k Hcs3 Hs3) as (f4 & H4 & [Hr4 He4 Hrec4] & Hl4 & Hn4 & Ha & Hb).
  { intros e He. by apply list_elem_of_fmap_2. }
  eexists _, f4. split; [done|]. split; [done|]. rewrite rfold_app, H1. cbn [rbind].
  rewrite rfold_app, H2. cbn [rbind]. rewrite rfold_app, H3. cbn [rbind].
  split_and!; [done..| | |].
  - intros lane leaf Hin. rewrite Hl4, Hl3, Hl2. by apply foldl_set_get.
  - congruence.
  - intros e He. destruct (labels s !! e_id e) as [lb|] eqn:Hlb.
    + rewrite <- Hlb. apply Ha; [by apply list_elem_of_fmap_2|by eexists].
    + rewrite Hb by by right. by rewrite Hlab3, lookup_empty.
Qed.

(** Forking.  From every reachable session a fork either has a target that is
    not a message and throws, or builds mutations that an empty session accepts
    one after the other; the fork then holds exactly the selected entries, with
    consecutive sequence numbers, the selected lanes, the name and the labels of
    the copied entries, and no records. *)
Theorem fork_spec s options :
  reachable s →
  (∃ id, createForkMutations s options = Err (SessionError invalid_fork_target id)) ∨
  ∃ copied pointers ms f,
    selection s options copied pointers ∧
    createForkMutations s options = Ok ms ∧ rfold applyMutation new_SessionState ms = Ok f ∧
    reachable f ∧ entries f = renumber copied ∧ records f = [] ∧
    (∀ lane leaf, (lane, leaf) ∈ pointers → map_get (lanes f) lane = Some leaf) ∧
    name f = name s ∧ (∀ e, e ∈ copied → labels f !! e_id e = labels s !! e_id e).
Proof. apply fork_applies. Qed.

Lemma fork_spec_witness :
  ∃ f, (let* ms := createForkMutations ex_state (ForkBranch (Some "b") (Some true)) in
        rfold applyMutation new_SessionState ms) = Ok f ∧
    labels f !! "b" = Some "mark" ∧ map_get (lanes f) "main" = Some (Some "b").
Proof.
  destruct (fork_spec ex_state (ForkBranch (Some "b") (Some true)) ex_state_reachable)
    as [[id H]|(copied & pointers & ms & f & Hsel & H1 & H2 & _)].
  - vm_compute in H. discriminate H.
  - exists f. rewrite H1. cbn [rbind]. split; [exact H2|]. vm_compute in H1. injection H1 as <-.
    vm_compute in H2. injection H2 as <-. split; reflexivity.
Defined.
