(* ===== verification/JsonPayload.v ===== *)
(** Payload validation: [assertJsonSerializable] of [harness/session/session.ts].

    The source walks the value with an explicit stack of frames and a set of the
    objects on the current path.  [assertJsonSerializable] is that loop, one
    iteration per unit of fuel; [checkJson] is the recursive reading of it.  The
    loop with enough fuel gives the result of the recursion, the same error
    included, on every heap. *)
From S2P Require Import Prelude JsValue SessionTypes Codec CodecSpec.
Open Scope Z_scope.

Inductive JsonValidationFrame :=
| FrameValue (value : jsval)
| FrameExit (object : loc).

Definition invalidPayload {A} (reason : string) : result session_error A :=
  Err (SessionError invalid_payload reason).

Definition type_of (v : jsval) : string :=
  match v with JUndefined => "undefined" | JOther type => type | _ => "object" end.

(** The own names of an array: its elements, [length], and any others. *)
Definition own_name_count (slots : list slot) (extra : nat) : nat := length (present slots) + 1 + extra.

(** [for (index = length - 1; index >= 0; index--)]: the checks run from the last
    element down, and the frames end up with the first element on top. *)
Fixpoint pushSlots (slots_rev : list slot) (stack : list JsonValidationFrame) :
    result session_error (list JsonValidationFrame) :=
  match slots_rev with
  | [] => Ok stack
  | Hole :: _ => invalidPayload "sparse array"
  | Slot accessor v :: slots_rev =>
      if accessor then invalidPayload "array accessor" else pushSlots slots_rev (FrameValue v :: stack)
  end.

Fixpoint pushProps (props_rev : list property) (stack : list JsonValidationFrame) :
    result session_error (list JsonValidationFrame) :=
  match props_rev with
  | [] => Ok stack
  | p :: props_rev =>
      if p_accessor p then invalidPayload "accessor" else pushProps props_rev (FrameValue (p_value p) :: stack)
  end.

(** What is checked of an object before its children are pushed. *)
Definition expandObject (o : jsobj) (stack : list JsonValidationFrame) : result session_error (list JsonValidationFrame) :=
  match o with
  | OBytes _ => invalidPayload "non-plain object"
  | OArray standard symbols extra slots =>
      if negb standard then invalidPayload "non-standard array" else
      if (0 <? symbols)%nat || negb (own_name_count slots extra =? length slots + 1)%nat
      then invalidPayload "array with unsupported properties" else
      pushSlots (reverse slots) stack
  | OObject proto symbols props =>
      if negb (bool_decide (proto = ObjectPrototype)) && negb (bool_decide (proto = NullPrototype))
      then invalidPayload "non-plain object" else
      if (0 <? length symbols)%nat then invalidPayload "symbol-keyed property" else
      let keys := filter (λ p, p_enumerable p = true) props in
      if negb (length props =? length keys)%nat then invalidPayload "non-enumerable property" else
      pushProps (reverse keys) stack
  end.

(** The [while (stack.length > 0)] loop; [None] is out of fuel. *)
Fixpoint validateLoop (fuel : nat) (h : heap) (active : gset loc) (stack : list JsonValidationFrame) :
    option (result session_error unit) :=
  match stack with
  | [] => Some (Ok tt)
  | frame :: stack =>
    match fuel with
    | O => None
    | S fuel =>
      match frame with
      | FrameExit l => validateLoop fuel h (active ∖ {[ l ]}) stack
      | FrameValue (JNull | JString _ | JBool _) => validateLoop fuel h active stack
      | FrameValue (JNumber n) =>
          if isFinite n then validateLoop fuel h active stack else Some (invalidPayload "non-finite number")
      | FrameValue (JRef l) =>
          if bool_decide (l ∈ active) then Some (invalidPayload "cycle") else
          match h !! l with
          | None => Some (invalidPayload "dangling")
          | Some o =>
              match expandObject o (FrameExit l :: stack) with
              | Err e => Some (Err e)
              | Ok stack => validateLoop fuel h ({[ l ]} ∪ active) stack
              end
          end
      | FrameValue v => Some (invalidPayload (type_of v))
      end
    end
  end.

Definition assertJsonSerializable (fuel : nat) (h : heap) (value : jsval) : option (result session_error unit) :=
  validateLoop fuel h ∅ [FrameValue value].

(** ** The recursive reading *)

Definition frame_value (f : JsonValidationFrame) : option jsval :=
  match f with FrameValue v => Some v | FrameExit _ => None end.

(** The children of an object, in order, after its own checks. *)
Definition children (o : jsobj) : result session_error (list jsval) :=
  let* frames := expandObject o [] in
  Ok (omap frame_value frames).

Fixpoint checkAll (check : jsval → result session_error unit) (vs : list jsval) : result session_error unit :=
  match vs with
  | [] => Ok tt
  | v :: vs => let* _ := check v in checkAll check vs
  end.

Fixpoint checkJson (fuel : nat) (h : heap) (path : gset loc) (v : jsval) : result session_error unit :=
  match v with
  | JNull | JString _ | JBool _ => Ok tt
  | JNumber n => if isFinite n then Ok tt else invalidPayload "non-finite number"
  | JRef l =>
      if bool_decide (l ∈ path) then invalidPayload "cycle" else
      match h !! l with
      | None => invalidPayload "dangling"
      | Some o =>
          let* vs := children o in
          match fuel with
          | O => Err WalkFuel
          | S fuel => checkAll (checkJson fuel h ({[ l ]} ∪ path)) vs
          end
      end
  | v => invalidPayload (type_of v)
  end.

(** ** Their equivalence *)

Lemma pushSlots_frames slots stack :
  pushSlots slots stack = (let* fs := pushSlots slots [] in Ok (fs ++ stack)) ∧
  (∀ fs, pushSlots slots [] = Ok fs → ∃ vs, fs = FrameValue <$> vs).
Proof.
  assert (∀ acc, pushSlots slots (acc ++ stack) = (let* fs := pushSlots slots acc in Ok (fs ++ stack))) as H1.
  { induction slots as [|[|[] v] slots IH]; intros acc; simpl; try done. apply (IH (FrameValue v :: acc)). }
  assert (∀ acc fs, (∃ vs, acc = FrameValue <$> vs) → pushSlots slots acc = Ok fs → ∃ vs, fs = FrameValue <$> vs) as H2.
  { clear. induction slots as [|[|[] v] slots IH]; intros acc fs Hacc H; simpl in H; try done; [naive_solver|].
    apply (IH _ _) in H; [done|]. destruct Hacc as [vs ->]. by exists (v :: vs). }
  split; [apply (H1 [])|]. intros fs. apply H2. by exists [].
Qed.

Lemma pushProps_frames props stack :
  pushProps props stack = (let* fs := pushProps props [] in Ok (fs ++ stack)) ∧
  (∀ fs, pushProps props [] = Ok fs → ∃ vs, fs = FrameValue <$> vs).
Proof.
  assert (∀ acc, pushProps props (acc ++ stack) = (let* fs := pushProps props acc in Ok (fs ++ stack))) as H1.
  { induction props as [|p props IH]; intros acc; simpl; [done|]. destruct (p_accessor p); [done|].
    apply (IH (FrameValue (p_value p) :: acc)). }
  assert (∀ acc fs, (∃ vs, acc = FrameValue <$> vs) → pushProps props acc = Ok fs → ∃ vs, fs = FrameValue <$> vs) as H2.
  { clear. induction props as [|p props IH]; intros acc fs Hacc H; simpl in H; [naive_solver|].
    destruct (p_accessor p); [done|]. apply (IH _ _) in H; [done|]. destruct Hacc as [vs ->]. by exists (p_value p :: vs). }
  split; [apply (H1 [])|]. intros fs. apply H2. by exists [].
Qed.

(** Expanding an object pushes its children on top of the stack. *)
Lemma expandObject_children o stack :
  expandObject o stack = (let* vs := children o in Ok ((FrameValue <$> vs) ++ stack)).
Proof.
  unfold children.
  assert (∀ vs : list jsval, omap frame_value (FrameValue <$> vs) = vs) as Hom.
  { induction vs as [|v vs IH]; [done|]. cbn. f_equal. exact IH. }
  destruct o as [bs|std syms extra slots|proto syms props]; cbn [expandObject]; [done|..].
  - do 2 (case_match; [done|]). destruct (pushSlots_frames (reverse slots) stack) as [-> Hv].
    destruct (pushSlots (reverse slots) []) as [fs|]; [|done]. destruct (Hv fs eq_refl) as [vs ->]. cbn [rbind]. by rewrite Hom.
  - do 3 (case_match; [done|]). match goal with |- context [pushProps ?ps stack] => destruct (pushProps_frames ps stack) as [-> Hv] end.
    destruct (pushProps _ []) as [fs|]; [|done]. destruct (Hv fs eq_refl) as [vs ->]. cbn [rbind]. by rewrite Hom.
Qed.

(** Running the loop on one more value: it either throws what the recursion throws
    or goes on with the rest of the stack and the same path. *)
Definition loop_runs (h : heap) (path : gset loc) (todo : list jsval) (r : result session_error unit) : Prop :=
  ∀ stack, ∃ k, ∀ fuel,
    validateLoop (k + fuel) h path ((FrameValue <$> todo) ++ stack) =
    match r with Ok _ => validateLoop fuel h path stack | Err e => Some (Err e) end.

Lemma loop_runs_all h path vs check :
  (∀ v, v ∈ vs → loop_runs h path [v] (check v)) → loop_runs h path vs (checkAll check vs).
Proof.
  intros H stack. induction vs as [|v vs IH]; [by exists 0%nat|].
  destruct (IH ltac:(intros; apply H; by right)) as [k2 Hk2].
  destruct (H v ltac:(left) ((FrameValue <$> vs) ++ stack)) as [k1 Hk1].
  exists (k1 + k2)%nat. intros fuel. rewrite <- Nat.add_assoc. simpl in Hk1 |- *. rewrite Hk1.
  destruct (check v) as [[]|e]; simpl; [|done]. by rewrite Hk2.
Qed.

Lemma loop_runs_value fuel h path v :
  (unvisited h path < fuel)%nat → loop_runs h path [v] (checkJson fuel h path v).
Proof.
  revert path v. induction fuel as [|fuel IH]; intros path v Hf stack; [lia|].
  destruct v as [| |b|n|s|l|ty]; simpl; try (exists 1%nat; intros; simpl; done).
  - exists 1%nat. intros. simpl. by destruct (isFinite n).
  - case_bool_decide as Hl.
    { exists 1%nat. intros. simpl. by rewrite bool_decide_eq_true_2. }
    destruct (h !! l) as [o|] eqn:Ho.
    2:{ exists 1%nat. intros. simpl. by rewrite bool_decide_eq_false_2, Ho. }
    pose proof (expandObject_children o (FrameExit l :: stack)) as Hexp.
    destruct (children o) as [vs|e]; simpl in Hexp |- *.
    2:{ exists 1%nat. intros. simpl. rewrite bool_decide_eq_false_2, Ho by done. by rewrite Hexp. }
    pose proof (unvisited_lt h path l o Ho Hl).
    destruct (loop_runs_all h ({[l]} ∪ path) vs (checkJson fuel h ({[l]} ∪ path))) with (FrameExit l :: stack) as [k Hk].
    { intros v _. apply IH. lia. }
    exists (S (k + 1)). intros f. simpl. rewrite bool_decide_eq_false_2, Ho by done. rewrite Hexp.
    rewrite <- Nat.add_assoc, Hk. destruct (checkAll _ vs) as [u|e]; [|done]. simpl. f_equal. set_solver.
Qed.

Lemma validateLoop_mono fuel fuel' h path stack r :
  validateLoop fuel h path stack = Some r → (fuel ≤ fuel')%nat → validateLoop fuel' h path stack = Some r.
Proof.
  revert fuel' path stack. induction fuel as [|fuel IH]; intros fuel' path stack H Hle.
  { destruct stack; [|done]. by destruct fuel'. }
  destruct fuel' as [|fuel']; [lia|]. destruct stack as [|frame stack]; [done|]. cbn [validateLoop] in *.
  repeat case_match; try done; eapply IH; try done; lia.
Qed.

(** The recursion's fuel: no path visits an object twice. *)
Lemma checkJson_no_fuel fuel h path v : (unvisited h path < fuel)%nat → checkJson fuel h path v ≠ Err WalkFuel.
Proof.
  revert path v. induction fuel as [|fuel IH]; intros path v Hf; [lia|].
  destruct v as [| |b|n|s|l|ty]; simpl; try done; [by destruct (isFinite n)|].
  case_bool_decide as Hl; [done|]. destruct (h !! l) as [o|] eqn:Ho; [|done].
  assert (∀ e, children o = Err e → e ≠ WalkFuel) as Hch.
  { assert (∀ l acc e, pushSlots l acc = Err e → e ≠ WalkFuel) as HS.
    { induction l0 as [|[|[] v] l0 IHl]; intros acc e; simpl; [done|by intros [= <-]|by intros [= <-]|apply IHl]. }
    assert (∀ l acc e, pushProps l acc = Err e → e ≠ WalkFuel) as HP.
    { induction l0 as [|p l0 IHl]; intros acc e; simpl; [done|]. destruct (p_accessor p); [by intros [= <-]|apply IHl]. }
    intros e. unfold children. intros [He|(? & _ & He)]%rbind_Err; [|done]. revert He. unfold expandObject, invalidPayload.
    repeat case_match; naive_solver. }
  destruct (children o) as [vs|e]; simpl; [|naive_solver].
  pose proof (unvisited_lt h path l o Ho Hl) as Hlt.
  clear Hch. induction vs as [|v vs IHv]; simpl; [done|].
  destruct (checkJson fuel h ({[l]} ∪ path) v) as [[]|e] eqn:E; simpl; [by apply IHv|].
  intros [= ->]. by apply (IH ({[l]} ∪ path) v ltac:(lia)).
Qed.

(** Payload validation terminates on every value, cyclic ones included, and
    the explicit stack computes the recursive check: for all large enough fuel
    the loop returns what the recursion returns, the same error included, and
    the recursion itself never runs out of its bound. *)
Theorem assertJsonSerializable_spec h v :
  checkJson (protocol_fuel h) h ∅ v ≠ Err WalkFuel ∧
  ∃ k, ∀ fuel, (k ≤ fuel)%nat → assertJsonSerializable fuel h v = Some (checkJson (protocol_fuel h) h ∅ v).
Proof.
  split; [apply checkJson_no_fuel, protocol_fuel_enough|].
  destruct (loop_runs_value (protocol_fuel h) h ∅ v (protocol_fuel_enough h) []) as [k Hk].
  exists k. intros fuel Hle. eapply validateLoop_mono; [|exact Hle].
  unfold assertJsonSerializable. specialize (Hk 0%nat). simpl in Hk. rewrite Nat.add_0_r in Hk. rewrite Hk.
  by destruct (checkJson _ _ _ _) as [[]|e].
Qed.

Example json_cycle_ex :
  assertJsonSerializable 10 {[ 1%positive := OArray true 0 0 [Slot false JNull; Slot false (JRef 1)] ]} (JRef 1)
  = Some (invalidPayload "cycle").
Proof. vm_compute. reflexivity. Qed.

(** A shared object is visited twice and accepted. *)
Example json_shared_ex :
  assertJsonSerializable 20 {[ 1%positive := OArray true 0 0 [Slot false (JRef 2); Slot false (JRef 2)];
    2%positive := OObject NullPrototype [] [mkProp (js_lit "k") true false (JBool true)] ]} (JRef 1) = Some (Ok tt).
Proof. vm_compute. reflexivity. Qed.
