(* ===== verification/SessionStore.v ===== *)
(** Session storage and the session facade: the [SessionStorage] interface of
    [harness/session/types.ts], its in-memory implementation and repository
    ([harness/session/memory.ts]), and the [Session] class over any storage
    ([harness/session/session.ts]).

    A storage operation is atomic: the in-memory methods contain no [await].  An
    operation that throws leaves the storage as it was.  The clock is the
    argument [now], a fresh id an argument as well.  [Session] is written against
    the class [SessionStorage]; its theorems are proved against [StorageSpec],
    which the in-memory storage implements. *)
From S2P Require Import Prelude JsValue JsMap SessionTypes SessionState SessionSpec SessionQueries SessionFork Codec CodecSpec JsonPayload.
Open Scope Z_scope.

(** ** The interface *)

Class SessionStorage (S : Type) := {
  st_getMetadata : S → SessionMetadata;
  st_getLanes : S → list (string * option string);
  st_createLane : S → string → option string → result session_error S;
  st_moveLane : S → string → option string → result session_error S;
  st_appendEntry : S → Z → ProvisionedEntry → string → result session_error (S * Entry);
  st_appendRecord : S → Z → NewRecord → result session_error (S * LaneRecord);
  st_getEntry : S → string → option Entry;
  st_findEntries : S → EntryQuery → result session_error (list Entry);
  st_findEntriesOnBranch : S → string → BranchBounds → EntryQuery → result session_error (list Entry);
  st_findRecords : S → RecordQuery → result session_error (list LaneRecord);
  st_findOpenOperations : S → string → option jsnum → result session_error (list LaneRecord);
  st_getLog : S → option jsnum → option jsnum → result session_error (list LogItem);
  st_getName : S → option string;
  st_setName : S → option string → result session_error S;
  st_getLabel : S → string → option string;
  st_setLabel : S → string → option string → result session_error S;
  st_getStats : S → SessionStats;
}.

(** ** The in-memory storage *)

Record InMemorySessionStorage := mkMemory {
  metadata : SessionMetadata;
  state : SessionState;
}.

Definition new_InMemorySessionStorage (m : SessionMetadata) : InMemorySessionStorage :=
  mkMemory m new_SessionState.

Section memory.
Implicit Types st : InMemorySessionStorage.

Definition mutate st (m : SessionMutation) : result session_error InMemorySessionStorage :=
  let* s := applyMutation (state st) m in Ok (mkMemory (metadata st) s).

Definition fork st (m : SessionMetadata) (options : ForkOptions) : result session_error InMemorySessionStorage :=
  let* ms := createForkMutations (state st) options in
  rfold mutate (new_InMemorySessionStorage m) ms.

Definition createLane st (lane : string) (at_ : option string) : result session_error InMemorySessionStorage :=
  let* _ := validateNewLane (state st) lane in
  let* _ := validateTarget (state st) at_ in
  mutate st (MutLane (nextSequence (state st)) lane at_).

Definition moveLane st (lane : string) (to : option string) : result session_error InMemorySessionStorage :=
  let* _ := requireLane (state st) lane in
  let* _ := validateTarget (state st) to in
  mutate st (MutLane (nextSequence (state st)) lane to).

Definition appendEntry st (now : Z) (newEntry : ProvisionedEntry) (lane : string) :
    result session_error (InMemorySessionStorage * Entry) :=
  let* parentId := requireLane (state st) lane in
  let* _ := validateUnusedId (state st) (pe_id newEntry) in
  let entry := mkEntry (pe_id newEntry) (nextSequence (state st)) parentId now (pe_body newEntry) in
  let* st := mutate st (MutEntry (Some lane) entry) in
  Ok (st, entry).

Definition is_start (b : RecordBody) : bool := match b with OperationStarted _ _ => true | _ => false end.

Definition appendRecord st (now : Z) (newRecord : NewRecord) :
    result session_error (InMemorySessionStorage * LaneRecord) :=
  let* _ := requireLane (state st) (nr_lane newRecord) in
  let* _ := validateUnusedId (state st) (nr_id newRecord) in
  let* current := findOpenOperations (state st) (nr_lane newRecord) (Some (NInt 1)) in
  if is_start (nr_body newRecord) && negb (bool_decide (head current = None))
  then Err (SessionError storage (nr_lane newRecord)) else
  let record := mkRecord (nr_id newRecord) (nextSequence (state st)) (nr_lane newRecord) now (nr_body newRecord) in
  let* st := mutate st (MutRecord record) in
  Ok (st, record).

Definition setName st (n : option string) : result session_error InMemorySessionStorage :=
  mutate st (MutName (nextSequence (state st)) n).

Definition setLabel st (id : string) (label : option string) : result session_error InMemorySessionStorage :=
  let* _ := validateTarget (state st) (Some id) in
  mutate st (MutLabel (nextSequence (state st)) id label).
End memory.

#[export] Instance memory_storage : SessionStorage InMemorySessionStorage := {
  st_getMetadata := metadata;
  st_getLanes st := getLanes (state st);
  st_createLane := createLane;
  st_moveLane := moveLane;
  st_appendEntry := appendEntry;
  st_appendRecord := appendRecord;
  st_getEntry st := getEntry (state st);
  st_findEntries st := findEntries (state st);
  st_findEntriesOnBranch st := findEntriesOnBranch (state st);
  st_findRecords st := findRecords (state st);
  st_findOpenOperations st := findOpenOperations (state st);
  st_getLog st := getLog (state st);
  st_getName st := getName (state st);
  st_setName := setName;
  st_getLabel st := getLabel (state st);
  st_setLabel := setLabel;
  st_getStats st := getStats (state st);
}.

(** ** The repository

    Sessions hold their storage by reference: the map of the repository names
    locations, and the storages live in [stores]. *)

Record InMemorySessionRepo := mkRepo {
  sessions : jsmap loc;
  stores : gmap loc InMemorySessionStorage;
}.

Definition new_InMemorySessionRepo : InMemorySessionRepo := mkRepo [] ∅.

Section repo.
Implicit Types r : InMemorySessionRepo.

Definition addSession r (id : string) (st : InMemorySessionStorage) : InMemorySessionRepo * loc :=
  let l := fresh (dom (stores r)) in (mkRepo (map_set (sessions r) id l) (<[l := st]> (stores r)), l).

(** [id] is [options.id ?? uuidv7()]. *)
Definition create r (now : Z) (id : string) (parentSessionId : option string) :
    result session_error (InMemorySessionRepo * loc) :=
  if map_has (sessions r) id then Err (SessionError already_exists id) else
  Ok (addSession r id (new_InMemorySessionStorage (mkMetadata id now parentSessionId))).

Definition requireStorage r (id : string) : result session_error loc :=
  match map_get (sessions r) id with
  | None => Err (SessionError not_found id)
  | Some l => Ok l
  end.

Definition open r (m : SessionMetadata) : result session_error loc := requireStorage r (m_id m).

Definition list_ r : list SessionMetadata :=
  omap (λ il, metadata <$> stores r !! il.2) (sessions r).

Definition delete_ r (m : SessionMetadata) : InMemorySessionRepo :=
  mkRepo (map_delete (sessions r) (m_id m)) (stores r).

Definition forkSession r (now : Z) (source : SessionMetadata) (options : ForkOptions) (id : string)
    (parentSessionId : option string) : result session_error (InMemorySessionRepo * loc) :=
  let* l := requireStorage r (m_id source) in
  if map_has (sessions r) id then Err (SessionError already_exists id) else
  match stores r !! l with
  | None => Err (SessionError not_found (m_id source))
  | Some st =>
      let* st := fork st (mkMetadata id now (Some (default (m_id source) parentSessionId))) options in
      Ok (addSession r id st)
  end.
End repo.

(** ** The facade *)

Section session.
Context {S : Type} `{SessionStorage S}.
Implicit Types st : S.

Definition getLeafIdForLane st (lane : string) : result session_error (option string) :=
  match list_find (λ p, p.1 = lane) (st_getLanes st) with
  | None => Err (SessionError invalid_lane lane)
  | Some (_, (_, leafId)) => Ok leafId
  end.

Definition with_limit (q : EntryQuery) (limit : option jsnum) : EntryQuery :=
  mkEntryQuery (q_type q) (q_customType q) (q_order q) limit (q_afterSeq q).

(** [resultLimit] defaults to the query's limit; a query object with the same
    limit is passed on as it is. *)
Definition queryEntries st (query : EntryQuery) (resultLimit : option jsnum) : result session_error (list Entry) :=
  let* _ := assertValidLimit (q_limit query) in
  let* _ := assertValidCursor (q_afterSeq query) in
  st_findEntries st (with_limit query resultLimit).

Definition queryBranchEntries st (defaultLane : string) (start : option string) (bounds : BranchBounds)
    (query : EntryQuery) (resultLimit : option jsnum) : result session_error (list Entry) :=
  let* _ := assertValidLimit (q_limit query) in
  let* _ := assertValidCursor (q_afterSeq query) in
  let* start := match start with Some id => Ok (Some id) | None => getLeafIdForLane st defaultLane end in
  match start with
  | None => Ok []
  | Some start => st_findEntriesOnBranch st start bounds (with_limit query resultLimit)
  end.

Definition queryRecords st (query : RecordQuery) : result session_error (list LaneRecord) :=
  let* _ := assertValidLimit (rq_limit query) in
  let* _ := assertValidCursor (rq_afterSeq query) in
  if bool_decide (rq_operationKind query ≠ None) && negb (bool_decide (rq_type query = Some operation_started))
  then Err (SessionError invalid_query "operationKind") else
  st_findRecords st query.

Definition queryLog st (afterSeq limit : option jsnum) : result session_error (list LogItem) :=
  let* _ := assertValidLimit limit in
  let* _ := assertValidCursor afterSeq in
  st_getLog st afterSeq limit.

Definition sessionFindOpenOperations st (lane : string) (limit : option jsnum) :
    result session_error (list LaneRecord) :=
  let* _ := assertValidLimit limit in st_findOpenOperations st lane limit.

(** [findEntries], [findEntry], [findEntriesOnBranch], [findEntryOnBranch] of a lane's view. *)
Definition viewFindEntries st (query : EntryQuery) := queryEntries st query (q_limit query).
Definition viewFindEntry st (query : EntryQuery) : result session_error (option Entry) :=
  rmap head (queryEntries st query (Some (NInt 1))).
Definition viewFindEntriesOnBranch st (lane : string) (start : option string) (bounds : BranchBounds)
    (query : EntryQuery) := queryBranchEntries st lane start bounds query (q_limit query).
Definition viewFindEntryOnBranch st (lane : string) (start : option string) (bounds : BranchBounds)
    (query : EntryQuery) : result session_error (option Entry) :=
  rmap head (queryBranchEntries st lane start bounds query (Some (NInt 1))).

(** The caller's object [v] in the heap [h] is validated; [entry] is its content. *)
Definition assertPayload (h : heap) (v : jsval) : result session_error unit :=
  checkJson (protocol_fuel h) h ∅ v.

Definition commitEntry (h : heap) (v : jsval) st (now : Z) (entry : ProvisionedEntry) (lane : string) :
    result session_error (S * Entry) :=
  let* _ := assertPayload h v in st_appendEntry st now entry lane.

Definition commitRecord (h : heap) (v : jsval) st (now : Z) (record : NewRecord) :
    result session_error (S * LaneRecord) :=
  let* _ := assertPayload h v in st_appendRecord st now record.

Definition appendMessageToLane (h : heap) (v : jsval) st (now : Z) (id lane : string) (m : AgentMessage) :
    result session_error (S * string) :=
  let* (st, entry) := commitEntry h v st now (mkProvisioned id (MessageEntry m false)) lane in
  Ok (st, e_id entry).

Definition appendCustomEntryToLane (h : heap) (v : jsval) st (now : Z) (id lane customType : string)
    (data : option json) : result session_error (S * string) :=
  let* (st, entry) := commitEntry h v st now (mkProvisioned id (CustomEntry customType data)) lane in
  Ok (st, e_id entry).
End session.
