(* ===== verification/SessionStoreSpec.v ===== *)
(** What a session storage promises, that the in-memory storage keeps it, and what
    the facade makes of it. *)
From S2P Require Import Prelude JsValue JsMap SessionTypes SessionState SessionSpec SessionQueries SessionFork Codec CodecSpec JsonPayload SessionStore.
Open Scope Z_scope.

(** ** The storage contract *)

(** A storage is a well-formed session state behind its methods: reads are those
    of the state, and appending an entry is one accepted mutation that extends the
    lane, or an error because the lane is missing or the id is used. *)
Class StorageSpec (S : Type) `{SessionStorage S} := {
  abs : S → SessionState;
  st_inv : S → Prop;
  sp_reachable : ∀ st, st_inv st → reachable (abs st);
  sp_lanes : ∀ st, st_getLanes st = lanes (abs st);
  sp_branch : ∀ st, st_findEntriesOnBranch st = findEntriesOnBranch (abs st);
  sp_append : ∀ st now pe lane, st_inv st →
    (∃ st' leaf, map_get (lanes (abs st)) lane = Some leaf ∧ pe_id pe ∉ usedIds (abs st) ∧
       let e := mkEntry (pe_id pe) (nextSequence (abs st)) leaf now (pe_body pe) in
       st_appendEntry st now pe lane = Ok (st', e) ∧ st_inv st' ∧
       applyMutation (abs st) (MutEntry (Some lane) e) = Ok (abs st')) ∨
    (∃ err, st_appendEntry st now pe lane = Err err ∧
       (map_get (lanes (abs st)) lane = None ∨ pe_id pe ∈ usedIds (abs st)));
}.

(** ** The in-memory storage's operations *)

Inductive StorageOp :=
| OpCreateLane (lane : string) (at_ : option string)
| OpMoveLane (lane : string) (to : option string)
| OpAppendEntry (now : Z) (entry : ProvisionedEntry) (lane : string)
| OpAppendRecord (now : Z) (record : NewRecord)
| OpSetName (name : option string)
| OpSetLabel (id : string) (label : option string).

Definition run_op (st : InMemorySessionStorage) (op : StorageOp) : result session_error InMemorySessionStorage :=
  match op with
  | OpCreateLane lane at_ => createLane st lane at_
  | OpMoveLane lane to => moveLane st lane to
  | OpAppendEntry now entry lane => rmap fst (appendEntry st now entry lane)
  | OpAppendRecord now record => rmap fst (appendRecord st now record)
  | OpSetName n => setName st n
  | OpSetLabel id label => setLabel st id label
  end.

(** Any interleaving of callers: the operations one after the other, those that
    throw having no effect. *)
Definition exec (st : InMemorySessionStorage) (ops : list StorageOp) : InMemorySessionStorage :=
  foldl (λ st op, match run_op st op with Ok st' => st' | Err _ => st end) st ops.

Definition is_start_op (op : StorageOp) : bool :=
  match op with OpAppendRecord _ r => is_start (nr_body r) | _ => false end.

(** An accepted operation is one accepted mutation; a new start found no open one. *)
Lemma run_op_mutation st op st' :
  run_op st op = Ok st' →
  metadata st' = metadata st ∧
  ∃ m, applyMutation (state st) m = Ok (state st') ∧
    match m with
    | MutRecord r => is_start (r_body r) = true → findOpenOperations (state st) (r_lane r) (Some (NInt 1)) = Ok []
    | _ => True
    end.
Proof.
  assert (∀ m st', mutate st m = Ok st' → metadata st' = metadata st ∧ applyMutation (state st) m = Ok (state st')) as Hm.
  { unfold mutate. intros m st1 (s & Hs & [= <-])%rbind_Ok. done. }
  destruct op as [lane at_|lane to|now e lane|now r|n|id label]; simpl; intros H.
  - unfold createLane in H. invert_ok. match goal with H : mutate _ _ = Ok _ |- _ => apply Hm in H as [? ?] end. split; [done|]. by eexists.
  - unfold moveLane in H. invert_ok. match goal with H : mutate _ _ = Ok _ |- _ => apply Hm in H as [? ?] end. split; [done|]. by eexists.
  - unfold rmap in H. invert_ok. unfold appendEntry in H0. invert_ok. destruct a as [st1 e1]. simplify_eq/=.
    match goal with H : mutate _ _ = Ok _ |- _ => apply Hm in H as [? ?] end. split; [done|]. by eexists.
  - unfold rmap in H. invert_ok. unfold appendRecord in H0. invert_ok. destruct a as [st1 r1]. simplify_eq/=.
    match goal with H : mutate _ _ = Ok _ |- _ => apply Hm in H as [? ?] end. split; [done|]. eexists. split; [done|]. cbn [r_body r_lane].
    intros Hst. rewrite Hst in E. simpl in E. apply negb_false_iff, bool_decide_eq_true in E.
    match goal with H : findOpenOperations _ _ _ = Ok ?c |- _ => rewrite H; by destruct c end.
  - unfold setName in H. match goal with H : mutate _ _ = Ok _ |- _ => apply Hm in H as [? ?] end. split; [done|]. by eexists.
  - unfold setLabel in H. invert_ok. match goal with H : mutate _ _ = Ok _ |- _ => apply Hm in H as [? ?] end. split; [done|]. by eexists.
Qed.

(** Reachable, and at most one operation open in each lane. *)
Definition memory_inv (st : InMemorySessionStorage) : Prop :=
  reachable (state st) ∧ ∀ lane, (length (still_open lane (records (state st))) ≤ 1)%nat.

Lemma applyMutation_records s m s' :
  applyMutation s m = Ok s' → records s' = records s ++ match m with MutRecord r => [r] | _ => [] end.
Proof.
  unfold applyMutation. destruct (negb _); [done|]. destruct m; simpl; intros H.
  - unfold applyEntry, invalidMutation in H. invert_ok. subst. simpl. by rewrite app_nil_r.
  - unfold applyRecord, invalidMutation in H. invert_ok. by subst.
  - unfold applyLane in H. invert_ok. subst. simpl. by rewrite app_nil_r.
  - injection H as <-. simpl. by rewrite app_nil_r.
  - unfold applyLabel, invalidMutation in H. invert_ok. subst. simpl. by rewrite app_nil_r.
Qed.

Lemma still_open_snoc_le lane rs r :
  (starts_in lane r = true → still_open lane rs = []) →
  (length (still_open lane rs) ≤ 1)%nat → (length (still_open lane (rs ++ [r])) ≤ 1)%nat.
Proof.
  intros Hst Hle. rewrite still_open_snoc, length_app.
  pose proof (filter_length_le (λ x, negb (finishes lane (r_id x) r)) (still_open lane rs)).
  destruct (starts_in lane r); simpl; [|lia]. rewrite Hst in * by done. simpl in *. lia.
Qed.

Lemma run_op_inv st op st' : memory_inv st → run_op st op = Ok st' → memory_inv st'.
Proof.
  intros [Hr Ho] (_ & m & Hm & Hstart)%run_op_mutation. split; [by econstructor|].
  intros lane. rewrite (applyMutation_records _ _ _ Hm). destruct m; rewrite ?app_nil_r; try apply Ho.
  apply still_open_snoc_le; [|apply Ho]. intros Hin. unfold starts_in in Hin.
  destruct (r_body record) eqn:Hb; try done. apply bool_decide_eq_true in Hin. subst lane.
  specialize (Hstart eq_refl). rewrite findOpenOperations_eq in Hstart;
    [|by apply reachable_WF|by exists 1]. simpl in Hstart. injection Hstart as Hnil.
  destruct (still_open (r_lane record) (records (state st))) as [|x l]; [done|].
  rewrite reverse_cons in Hnil. destruct (reverse l); done.
Qed.

Lemma exec_inv st ops : memory_inv st → memory_inv (exec st ops).
Proof.
  unfold exec. revert st. induction ops as [|op ops IH]; intros st Hst; simpl; [done|].
  apply IH. destruct (run_op st op) as [st'|] eqn:E; [by eapply run_op_inv|done].
Qed.

Lemma new_memory_inv m : memory_inv (new_InMemorySessionStorage m).
Proof. split; [constructor|]. simpl. lia. Qed.

(** C21: One operation at a time.  However the callers of a new in-memory session
    interleave, no lane ever has two open operations: recovery's corrupt case
    cannot arise. *)
Theorem single_open_operation m ops lane :
  ∃ open_, findOpenOperations (state (exec (new_InMemorySessionStorage m) ops)) lane (Some (NInt 2)) = Ok open_ ∧
    (length open_ ≤ 1)%nat.
Proof.
  destruct (exec_inv _ ops (new_memory_inv m)) as [Hr Ho]. eexists. split.
  - apply findOpenOperations_eq; [by apply reachable_WF|by exists 2].
  - simpl. rewrite length_take, length_reverse. specialize (Ho lane). lia.
Qed.

(** ** Validation before mutation is complete *)

Lemma applyMutation_lane s lane leaf :
  validateTarget s leaf = Ok tt → is_Ok (applyMutation s (MutLane (nextSequence s) lane leaf)) = true.
Proof.
  unfold applyMutation, nextSequence, validateTarget, applyLane. cbn [mut_seq]. rewrite Z.eqb_refl. cbn [negb].
  destruct leaf as [id|]; [|done]. by destruct (has_entry s id).
Qed.

Lemma applyMutation_entry s lane leaf now id body :
  WF s → map_get (lanes s) lane = Some leaf → id ∉ usedIds s →
  is_Ok (applyMutation s (MutEntry (Some lane) (mkEntry id (nextSequence s) leaf now body))) = true.
Proof.
  intros Hs Hl Hid. unfold applyMutation, nextSequence. cbn [mut_seq e_seq]. rewrite Z.eqb_refl. cbn [negb].
  unfold applyEntry. cbn [e_id e_parentId e_seq]. rewrite bool_decide_eq_false_2, Hl, bool_decide_eq_true_2 by done.
  cbn [negb rbind]. destruct leaf as [p|]; [|done].
  rewrite (proj2 (has_entry_true s p)); [done|]. eapply (wf_lanes s Hs lane). by apply map_get_Some_elem.
Qed.

Lemma applyMutation_record s now id lane body leaf :
  map_get (lanes s) lane = Some leaf → id ∉ usedIds s →
  is_Ok (applyMutation s (MutRecord (mkRecord id (nextSequence s) lane now body))) = true.
Proof.
  intros Hl Hid. unfold applyMutation, nextSequence. cbn [mut_seq r_seq]. rewrite Z.eqb_refl. cbn [negb].
  unfold applyRecord. cbn [r_id r_lane r_seq]. rewrite map_has_get, Hl, bool_decide_eq_true_2 by eauto.
  cbn [negb]. by rewrite bool_decide_eq_false_2.
Qed.

Definition error_code (e : session_error) : option SessionErrorCode :=
  match e with SessionError code _ => Some code | WalkFuel => None end.

Lemma mutate_Ok st m : is_Ok (applyMutation (state st) m) = true → is_Ok (mutate st m) = true.
Proof. unfold mutate. by destruct (applyMutation _ _). Qed.

(** An operation's error is one its own validation throws. *)
Lemma run_op_codes st op e :
  memory_inv st → run_op st op = Err e →
  error_code e ∈ [Some not_found; Some already_exists; Some invalid_lane; Some storage].
Proof.
  intros [Hr _]. pose proof (reachable_WF _ Hr) as Hs.
  assert (∀ m e, is_Ok (mutate st m) = true → mutate st m ≠ Err e) as Hno by (intros m e' HO He; by rewrite He in HO).
  destruct op as [lane at_|lane to|now pe lane|now r|n|id label]; simpl.
  - unfold createLane, validateNewLane. destruct (map_has _ _); simpl; [intros [= <-]; set_solver|].
    destruct (validateTarget (state st) at_) as [[]|e'] eqn:Et; simpl.
    + intros H. exfalso. eapply Hno; [|done]. by apply mutate_Ok, applyMutation_lane.
    + intros [= <-]. unfold validateTarget in Et. destruct at_; [|done]. case_match; [done|]. injection Et as <-. set_solver.
  - unfold moveLane, requireLane. destruct (map_get _ _); simpl; [|intros [= <-]; set_solver].
    destruct (validateTarget (state st) to) as [[]|e'] eqn:Et; simpl.
    + intros H. exfalso. eapply Hno; [|done]. by apply mutate_Ok, applyMutation_lane.
    + intros [= <-]. unfold validateTarget in Et. destruct to; [|done]. case_match; [done|]. injection Et as <-. set_solver.
  - unfold rmap, appendEntry, requireLane. destruct (map_get (lanes (state st)) lane) as [leaf|] eqn:El; simpl; [|intros [= <-]; set_solver].
    unfold validateUnusedId. case_bool_decide; simpl; [intros [= <-]; set_solver|].
    pose proof (mutate_Ok st _ (applyMutation_entry (state st) lane leaf now (pe_id pe) (pe_body pe) Hs El ltac:(done))) as Hok.
    by destruct (mutate st _).
  - unfold rmap, appendRecord, requireLane. destruct (map_get (lanes (state st)) (nr_lane r)) as [leaf|] eqn:El; cbn [rbind]; [|intros [= <-]; set_solver].
    unfold validateUnusedId. case_bool_decide; cbn [rbind]; [intros [= <-]; set_solver|].
    rewrite findOpenOperations_eq by (done || by exists 1). cbn [rbind]. case_match; [intros [= <-]; set_solver|].
    pose proof (mutate_Ok st _ (applyMutation_record (state st) now (nr_id r) (nr_lane r) (nr_body r) leaf El ltac:(done))) as Hok.
    by destruct (mutate st _).
  - unfold setName. intros H. exfalso. eapply Hno; [|done]. apply mutate_Ok. unfold applyMutation, nextSequence. cbn [mut_seq].
    by rewrite Z.eqb_refl.
  - unfold setLabel, validateTarget. destruct (has_entry (state st) id) eqn:Eh; simpl; [|intros [= <-]; set_solver].
    intros H. exfalso. eapply Hno; [|done]. apply mutate_Ok. unfold applyMutation, nextSequence, applyLabel. cbn [mut_seq].
    by rewrite Z.eqb_refl, Eh.
Qed.

(** The storage validates before it mutates.  In every state callers can bring
    an in-memory session to, an operation that throws does so from its own
    checks (missing target, used id, missing lane, open operation); the mutation
    it then applies is never invalid. *)
Theorem storage_prevalidates m ops op e :
  run_op (exec (new_InMemorySessionStorage m) ops) op = Err e →
  error_code e ∈ [Some not_found; Some already_exists; Some invalid_lane; Some storage].
Proof. apply run_op_codes, exec_inv, new_memory_inv. Qed.

Lemma storage_prevalidates_witness :
  run_op (exec (new_InMemorySessionStorage (mkMetadata "s" 0 None)) [OpSetName (Some "n")])
    (OpMoveLane "side" None) = Err (SessionError invalid_lane "side") ∧
  error_code (SessionError invalid_lane "side") ∈ [Some not_found; Some already_exists; Some invalid_lane; Some storage].
Proof.
  split; [vm_compute; reflexivity|].
  apply (storage_prevalidates (mkMetadata "s" 0 None) [OpSetName (Some "n")] (OpMoveLane "side" None)).
  vm_compute. reflexivity.
Defined.

(** ** The in-memory storage meets the contract *)

#[export] Instance memory_spec : StorageSpec InMemorySessionStorage.
Proof.
  refine {| abs := state; st_inv := memory_inv |}; try done.
  - by intros st [Hr _].
  - intros st now pe lane Hinv. pose proof Hinv as [Hr _]. simpl.
    unfold appendEntry, requireLane, validateUnusedId.
    destruct (map_get (lanes (state st)) lane) as [leaf|] eqn:El; cbn [rbind]; [|right; eauto].
    case_bool_decide as Hid; cbn [rbind]; [right; eauto|]. left.
    pose proof (applyMutation_entry (state st) lane leaf now (pe_id pe) (pe_body pe) (reachable_WF _ Hr) El Hid) as Hok.
    unfold mutate. destruct (applyMutation (state st) _) as [s'|] eqn:Ha; [|done]. cbn [rbind].
    exists (mkMemory (metadata st) s'), leaf. split_and!; try done.
    eapply (run_op_inv st (OpAppendEntry now pe lane)); [done|]. simpl. unfold rmap, appendEntry, requireLane, validateUnusedId.
    rewrite El. cbn [rbind]. rewrite bool_decide_eq_false_2 by done. cbn [rbind]. unfold mutate. by rewrite Ha.
Defined.

(** ** The facade over any storage *)

Section facade.
Context {S : Type} `{StorageSpec S}.

Lemma getLeafIdForLane_eq (st : S) lane :
  getLeafIdForLane st lane =
  match map_get (lanes (abs st)) lane with None => Err (SessionError invalid_lane lane) | Some leaf => Ok leaf end.
Proof.
  unfold getLeafIdForLane. rewrite sp_lanes. induction (lanes (abs st)) as [|[k v] m IH]; [done|]. simpl.
  destruct (decide (k = lane)) as [->|Hne].
  - by rewrite bool_decide_eq_true_2.
  - rewrite bool_decide_eq_false_2 by done. rewrite <- IH. by destruct (list_find _ m) as [[? []]|].
Qed.

Lemma append_lanes s lane e s' :
  applyMutation s (MutEntry (Some lane) e) = Ok s' →
  (∀ l, map_get (lanes s') l = if bool_decide (lane = l) then Some (Some (e_id e)) else map_get (lanes s) l) ∧
  entriesById s' !! e_id e = Some e.
Proof.
  unfold applyMutation. destruct (negb _); [done|]. unfold applyEntry, invalidMutation. intros H1.
  invert_ok. subst s'. simpl. split; [intros l; apply map_get_set|by rewrite lookup_insert_eq].
Qed.

(** What one append through the facade does, for any body. *)
Lemma commitEntry_spec h v (st : S) now pe lane st' e :
  st_inv st → commitEntry h v st now pe lane = Ok (st', e) →
  e_id e = pe_id pe ∧ e_body e = pe_body pe ∧ st_inv st' ∧ assertPayload h v = Ok tt ∧
  getLeafIdForLane st lane = Ok (e_parentId e) ∧ getLeafIdForLane st' lane = Ok (Some (e_id e)) ∧
  (∀ l, l ≠ lane → getLeafIdForLane st' l = getLeafIdForLane st l) ∧
  entriesById (abs st') !! e_id e = Some e.
Proof.
  intros Hinv Hc. unfold commitEntry in Hc. apply rbind_Ok in Hc as ([] & Hp & Hc).
  destruct (sp_append st now pe lane Hinv) as [(st1 & leaf & Hl & Hid & Hap & Hinv1 & Hm)|(err & He & _)]; [|congruence].
  rewrite Hap in Hc. injection Hc as <- <-. destruct (append_lanes _ _ _ _ Hm) as [Hlanes Hby].
  split_and!; try done.
  - rewrite getLeafIdForLane_eq, Hl. done.
  - rewrite getLeafIdForLane_eq, Hlanes. by rewrite bool_decide_eq_true_2.
  - intros l Hne. rewrite !getLeafIdForLane_eq, Hlanes. by rewrite bool_decide_eq_false_2.
Qed.
End facade.

(** Appending through a session.  Over any storage that keeps the contract, a
    message appended to a lane gets the caller's id, becomes the lane's leaf with
    the old leaf as its parent, leaves the other lanes alone, and is what the
    lane's view finds first on its branch. *)
Theorem appendMessage_spec {S} `{StorageSpec S} h v (st : S) now id lane m st' id' :
  st_inv st → appendMessageToLane h v st now id lane m = Ok (st', id') →
  id' = id ∧ getLeafIdForLane st' lane = Ok (Some id) ∧
  (∀ l, l ≠ lane → getLeafIdForLane st' l = getLeafIdForLane st l) ∧
  ∃ e, viewFindEntryOnBranch st' lane None no_bounds (no_query newestFirst) = Ok (Some e) ∧
    e_id e = id ∧ e_body e = MessageEntry m false ∧ getLeafIdForLane st lane = Ok (e_parentId e).
Proof.
  intros Hinv Ha. unfold appendMessageToLane in Ha. apply rbind_Ok in Ha as ([st1 e] & Hc & [= <- <-]).
  destruct (commitEntry_spec h v st now _ lane st1 e Hinv Hc) as (Hid & Hbody & Hinv1 & _ & Hpar & Hleaf & Hother & Hby).
  simpl in Hid, Hbody. rewrite Hid in *. split_and!; try done. exists e. split_and!; try done.
  unfold viewFindEntryOnBranch, queryBranchEntries. cbn [no_query q_limit q_afterSeq assertValidLimit assertValidCursor rbind].
  rewrite Hleaf. cbn [rbind]. rewrite sp_branch. unfold findEntriesOnBranch. cbn.
  destruct (walkToRoot_chain (abs st1) id e no_bounds (reachable_WF _ (sp_reachable _ Hinv1)) Hby) as (path & Hch & _ & _ & ->).
  assert (∃ rest, upto (at_bound no_bounds) path = e :: rest) as [rest ->].
  { inversion Hch; subst; eexists; cbn; done. }
  cbn. done.
Qed.

Definition ex_payload_heap : heap :=
  {[ 1%positive := OObject ObjectPrototype [] [mkProp (js_lit "role") true false (JString (js_lit "user"))] ]}.

Lemma appendMessage_witness :
  ∃ st', appendMessageToLane ex_payload_heap (JRef 1) (new_InMemorySessionStorage (mkMetadata "s" 0 None)) 7 "m1" "main"
      (UserMessage (PlainText "hi") 7) = Ok (st', "m1") ∧
    getLeafIdForLane st' "main" = Ok (Some "m1").
Proof.
  eexists. split; [vm_compute; reflexivity|].
  eapply (appendMessage_spec ex_payload_heap (JRef 1) (new_InMemorySessionStorage (mkMetadata "s" 0 None)) 7 "m1" "main"
    (UserMessage (PlainText "hi") 7)); [exact (new_memory_inv _)|vm_compute; reflexivity].
Defined.
