(* ===== verification/JsonlTheorems.v ===== *)
(** The JSON-lines storage does what the in-memory storage does, and its file
    follows: operations, crashes between them, reloading and forking. *)
From S2P Require Import Prelude JsValue JsMap Json JsonSpec JsonlCodec JsonlCodecSpec SessionTypes SessionState SessionSpec SessionView SessionStore SessionStoreSpec FileSystem JsonlStorage JsonlStorageSpec.
Open Scope Z_scope.

(** ** Operations *)

(** A call of one of the storage's mutating methods. *)
Inductive JsonlOp :=
| JCreateLane (lane : jsstr) (at_ : option jsstr)
| JMoveLane (lane : jsstr) (to : option jsstr)
| JAppendEntry (now : Z) (entry : obj) (lane : jsstr)
| JAppendRecord (now : Z) (record : obj)
| JSetName (name : option jsstr)
| JSetLabel (id : jsstr) (label : option jsstr).

Definition io_fst {F A B} (m : io F (A * B)) : io F A := let! r := m in io_ret r.1.

Definition run_jsonl {F} `{FileSystem F} (st : JsonlSessionStorage) (op : JsonlOp) : io F JsonlSessionStorage :=
  match op with
  | JCreateLane lane at_ => jsonl_createLane st lane at_
  | JMoveLane lane to => jsonl_moveLane st lane to
  | JAppendEntry now entry lane => io_fst (jsonl_appendEntry st now entry lane)
  | JAppendRecord now record => io_fst (jsonl_appendRecord st now record)
  | JSetName name => jsonl_setName st name
  | JSetLabel id label => jsonl_setLabel st id label
  end.

Definition newRecordView (o : obj) : option NewRecord :=
  id ← f_text o "id"; lane ← f_text o "lane"; body ← recordBodyView o; Some (mkNewRecord id lane body).

(** The same call on typed values. *)
Definition opView (op : JsonlOp) : option StorageOp :=
  match op with
  | JCreateLane lane at_ => Some (OpCreateLane (str_of_js lane) (str_of_js <$> at_))
  | JMoveLane lane to => Some (OpMoveLane (str_of_js lane) (str_of_js <$> to))
  | JAppendEntry now entry lane => e ← provisionedView (TMap entry); Some (OpAppendEntry now e (str_of_js lane))
  | JAppendRecord now record => r ← newRecordView record; Some (OpAppendRecord now r)
  | JSetName name => Some (OpSetName (str_of_js <$> name))
  | JSetLabel id label => Some (OpSetLabel (str_of_js id) (str_of_js <$> label))
  end.

Definition now_ok (now : Z) : bool := (0 <=? now) && (now <=? MAX_SAFE).

(** Arguments that are JSON data; the fields storage assigns are not the caller's. *)
Definition op_ok (op : JsonlOp) : bool :=
  match op with
  | JCreateLane lane at_ => text_ok lane && text_opt at_
  | JMoveLane lane to => text_ok lane && text_opt to
  | JAppendEntry now entry lane =>
      now_ok now && body_ok ["kind"; "lane"; "parentId"; "seq"; "timestamp"] entry && text_ok lane
  | JAppendRecord now record => now_ok now && body_ok ["kind"; "seq"; "timestamp"] record
  | JSetName name => text_opt name
  | JSetLabel id label => text_ok id && text_opt label
  end.

(** The line a validated call writes. *)
Definition op_line (s : SessionState) (op : JsonlOp) : result session_error LineMutation :=
  match op with
  | JCreateLane lane at_ =>
      let* _ := validateNewLane s (str_of_js lane) in
      let* _ := validateTarget s (str_of_js <$> at_) in Ok (LineLane (nextSequence s) lane at_)
  | JMoveLane lane to =>
      let* _ := requireLane s (str_of_js lane) in
      let* _ := validateTarget s (str_of_js <$> to) in Ok (LineLane (nextSequence s) lane to)
  | JAppendEntry now entry lane =>
      let* parentId := requireLane s (str_of_js lane) in
      let* _ := validateUnusedId s (default EmptyString (f_text entry "id")) in
      Ok (LineEntry (Some lane)
            (spread entry [(js_lit "parentId", nullable (js_of_str <$> parentId));
                           (js_lit "seq", TNum (NInt (nextSequence s))); (js_lit "timestamp", TNum (NInt now))]))
  | JAppendRecord now record =>
      let* _ := requireLane s (default EmptyString (f_text record "lane")) in
      let* _ := validateUnusedId s (default EmptyString (f_text record "id")) in
      let* current := findOpenOperations s (default EmptyString (f_text record "lane")) (Some (NInt 1)) in
      if is_text (field record "type") "operation_started" && negb (bool_decide (head current = None))
      then Err (SessionError storage (default EmptyString (f_text record "lane"))) else
      Ok (LineRecord (spread record [(js_lit "seq", TNum (NInt (nextSequence s))); (js_lit "timestamp", TNum (NInt now))]))
  | JSetName name => Ok (LineName (nextSequence s) name)
  | JSetLabel id label =>
      let* _ := validateTarget s (Some (str_of_js id)) in Ok (LineLabel (nextSequence s) id label)
  end.

(** A method validates, then commits that line. *)
Lemma run_jsonl_line {F} `{FileSystem F} st op sop (f : F) :
  opView op = Some sop → run_jsonl st op f = (let! m := io_lift (op_line (js_state st) op) in commit st m) f.
Proof.
  destruct op as [lane at_|lane to|now e lane|now r|n|id label]; cbn [opView run_jsonl op_line]; intros Hv.
  - unfold jsonl_createLane, io_bind, io_lift. destruct (validateNewLane _ _); [|done]. cbn [rbind].
    by destruct (validateTarget _ _).
  - unfold jsonl_moveLane, io_bind, io_lift. destruct (requireLane _ _); [|done]. cbn [rbind].
    by destruct (validateTarget _ _).
  - apply bind_Some in Hv as (pe & Hv & _). cbn [provisionedView] in Hv. apply bind_Some in Hv as (id & Hid & _).
    unfold io_fst, jsonl_appendEntry. rewrite Hid. unfold io_bind, io_lift, io_typed, io_ret.
    destruct (requireLane _ _); [|done]. cbn [rbind default].
    change (default EmptyString (Some id)) with id. destruct (validateUnusedId _ _); [|done]. cbn [rbind].
    destruct (commit _ _ _) as [f' [st'|e']]; done.
  - apply bind_Some in Hv as (nr & Hv & _). unfold newRecordView in Hv. apply bind_Some in Hv as (id & Hid & Hv).
    apply bind_Some in Hv as (lane & Hlane & _).
    unfold io_fst, jsonl_appendRecord. rewrite Hid, Hlane. unfold io_bind, io_lift, io_typed, io_ret.
    change (default EmptyString (Some id)) with id. change (default EmptyString (Some lane)) with lane.
    destruct (requireLane _ _); [|done]. cbn [rbind]. destruct (validateUnusedId _ _); [|done]. cbn [rbind].
    destruct (findOpenOperations _ _ _); [|done]. cbn [rbind]. destruct (_ && _); [done|].
    destruct (commit _ _ _) as [f' [st'|e']]; done.
  - done.
  - unfold jsonl_setLabel, io_bind, io_lift. by destruct (validateTarget _ _).
Qed.

(** ** Stamped objects *)

Lemma field_app_other o props n : js_lit n ∉ props.*1 → field (o ++ props) n = field o n.
Proof.
  intros Hn. unfold field. induction o as [|[k v] o IH]; cbn [app map_get]; [by apply map_get_None|].
  by rewrite IH.
Qed.

Lemma field_app_new o props n : js_lit n ∉ o.*1 → field (o ++ props) n = field props n.
Proof.
  intros Hn. unfold field. induction o as [|[k v] o IH]; [done|]. rewrite fmap_cons in Hn.
  apply not_elem_of_cons in Hn as [Hk Hn]. cbn [app map_get fst] in *.
  rewrite bool_decide_eq_false_2 by congruence. by apply IH.
Qed.

Lemma omit_stamped names o props : props.*1 ⊆ js_lit <$> names → omit names (o ++ props) = omit names o.
Proof.
  intros Hsub. rewrite omit_app. rewrite <- (app_nil_r (omit names o)) at 2. f_equal.
  unfold omit. destruct (filter _ props) as [|e l] eqn:E; [done|].
  assert (e ∈ filter (λ e, e.1 ∉ js_lit <$> names) props) as He by (rewrite E; left).
  apply list_elem_of_filter in He as [Hne He]. destruct Hne. apply Hsub. by apply list_elem_of_fmap_2.
Qed.

Section stamped.
Context (o : obj) (parent : tree) (seq ts : tree).

Notation entry_stamp := [(js_lit "parentId", parent); (js_lit "seq", seq); (js_lit "timestamp", ts)].
Notation record_stamp := [(js_lit "seq", seq); (js_lit "timestamp", ts)].

Lemma entryBodyView_stamp : entryBodyView (o ++ entry_stamp) = entryBodyView o.
Proof.
  unfold entryBodyView, f_enum, f_flag, f_text, f_list, f_int, f_usage_opt.
  rewrite !field_app_other by decide_now. done.
Qed.

Lemma recordBodyView_stamp : recordBodyView (o ++ record_stamp) = recordBodyView o.
Proof.
  unfold recordBodyView, finishErrorView, f_enum, f_obj, f_text, f_text_null, f_text_opt, f_int.
  rewrite !field_app_other by decide_now. rewrite omit_stamped; [done|].
  rewrite !fmap_cons, fmap_nil. cbn [fst].
  assert (js_lit "seq" ∈ js_lit <$> ["id"; "seq"; "lane"; "timestamp"; "type"; "cause"; "usage"; "runId"; "entryId"]) by decide_now.
  assert (js_lit "timestamp" ∈ js_lit <$> ["id"; "seq"; "lane"; "timestamp"; "type"; "cause"; "usage"; "runId"; "entryId"]) by decide_now.
  set_solver.
Qed.
End stamped.

(** A body with fresh storage fields behind it. *)
Lemma stamped_body reserved o props :
  body_ok reserved o = true → props.*1 ⊆ js_lit <$> reserved → NoDup props.*1 → forallb plain props.*1 = true →
  forallb (λ e, text_ok e.1 && json_ok e.2) props = true →
  spread o props = o ++ props ∧ json_ok (TMap (o ++ props)) = true ∧ forallb plain (o ++ props).*1 = true.
Proof.
  intros Hb Hsub Hnd Hp Hj. unfold body_ok in Hb. rewrite !andb_true_iff, json_ok_map, andb_true_iff in Hb.
  destruct Hb as (((Hko & Hjo) & Hpo) & Hl).
  assert (NoDup (o ++ props).*1) as Hnd'.
  { rewrite fmap_app. apply NoDup_app. split_and!; [by apply keys_ok_NoDup| |done].
    intros k Hk Hkp. eapply lacks_spec; [exact Hl|exact Hk|]. by apply Hsub. }
  assert (forallb plain (o ++ props).*1 = true) as Hpl by (by rewrite fmap_app, forallb_app, Hpo).
  split_and!; [by apply spread_plain| |done].
  rewrite json_ok_map, keys_ok_plain, forallb_app, Hjo by done. done.
Qed.

Lemma lacks_app names a b : lacks names (a ++ b) = lacks names a && lacks names b.
Proof. apply forallb_app. Qed.

Lemma lacks_sub names names' o :
  (js_lit <$> names) ⊆ js_lit <$> names' → lacks names' o = true → lacks names o = true.
Proof.
  intros Hsub H. unfold lacks in *. rewrite forallb_forall in *. intros e He. specialize (H e He).
  unfold has in *. rewrite negb_true_iff, bool_decide_eq_false in *. naive_solver.
Qed.

Lemma lacks_field names o n : lacks names o = true → js_lit n ∈ js_lit <$> names → js_lit n ∉ o.*1.
Proof. intros Hl Hn Hin. by eapply lacks_spec. Qed.

(** ** The envelope of a typed object *)

Lemma f_enum_one_of {A} o n (values : list (string * A)) v :
  f_enum o n values = Some v → one_of (field o n) values.*1 = true.
Proof.
  unfold f_enum. destruct (field o n) as [[]|]; try done. intros H%map_get_Some_elem. cbn.
  unfold has. apply bool_decide_eq_true_2.
  apply list_elem_of_fmap in H as ([k a] & [= -> ->] & Hin). apply list_elem_of_fmap.
  exists k. split; [done|]. by apply (list_elem_of_fmap_2 fst) in Hin.
Qed.

Lemma f_text_is_string o n s : f_text o n = Some s → is_string (field o n) = true.
Proof. unfold f_text. by destruct (field o n) as [[]|]. Qed.

Lemma is_text_eq v n : is_text v n = true → v = Some (TText (js_lit n)).
Proof. destruct v as [[]|]; try done. cbn. intros H%bool_decide_eq_true. by subst. Qed.

Lemma entry_envelope o b :
  entryBodyView o = Some b →
  one_of (field o "type") ENTRY_TYPES = true ∧
  implb (is_text (field o "type") "custom") (is_string (field o "customType")) = true.
Proof.
  unfold entryBodyView. intros (ty & Hty & H)%bind_Some. split; [by apply f_enum_one_of in Hty|].
  destruct (is_text (field o "type") "custom") eqn:E; [|done]. apply is_text_eq in E. cbn [implb].
  unfold f_enum in Hty. rewrite E in Hty. vm_compute in Hty. injection Hty as <-.
  apply bind_Some in H as (ct & Hct & _). by eapply f_text_is_string.
Qed.

Lemma record_envelope o b :
  recordBodyView o = Some b →
  one_of (field o "type") RECORD_TYPES = true ∧
  implb (is_text (field o "type") "operation_started") (intent_typed o) = true ∧
  implb (is_text (field o "type") "operation_finished") (is_string (field o "runId")) = true ∧
  is_text (field o "type") "operation_started" = is_start b.
Proof.
  unfold recordBodyView. intros (ty & Hty & H)%bind_Some. pose proof (f_enum_one_of _ _ _ _ Hty) as Hone.
  split; [done|].
  assert (is_text (field o "type") "operation_started" = is_start b) as Hstart.
  { unfold f_enum in Hty. destruct (field o "type") as [[]|] eqn:E; try done. cbn [is_text].
    apply map_get_Some_elem in Hty. unfold RECORD_TYPE_NAMES in Hty. rewrite !fmap_cons, fmap_nil in Hty.
    repeat (apply elem_of_cons in Hty as [Hty|Hty]; [injection Hty as -> ->|]); [..|by apply elem_of_nil in Hty].
    all: repeat (apply bind_Some in H as (? & _ & H)); injection H as <-; by vm_compute. }
  split_and!; [| |done].
  - destruct (is_text (field o "type") "operation_started") eqn:E; [|done]. apply is_text_eq in E. cbn [implb].
    unfold f_enum in Hty. rewrite E in Hty. vm_compute in Hty. injection Hty as <-.
    apply bind_Some in H as (leaf & _ & H). apply bind_Some in H as (i & Hi & H).
    apply bind_Some in H as (i' & Hi' & _). unfold f_obj in Hi. unfold intent_typed.
    destruct (field o "intent") as [[]|]; try done. injection Hi as ->.
    apply bind_Some in Hi' as (k & Hk & _). by apply f_enum_one_of in Hk.
  - destruct (is_text (field o "type") "operation_finished") eqn:E; [|done]. apply is_text_eq in E. cbn [implb].
    unfold f_enum in Hty. rewrite E in Hty. vm_compute in Hty. injection Hty as <-.
    apply bind_Some in H as (run & Hrun & _). by eapply f_text_is_string.
Qed.

(** ** Leaves are strings of the file *)

Definition leaf_ok (s : SessionState) : Prop :=
  ∀ lane leaf, (lane, Some leaf) ∈ lanes s → ∃ t, text_ok t = true ∧ leaf = str_of_js t.

Lemma text_of_field o n s : json_ok (TMap o) = true → f_text o n = Some s → ∃ t, text_ok t = true ∧ s = str_of_js t.
Proof.
  intros Hj. unfold f_text, field. destruct (map_get o (js_lit n)) as [[]|] eqn:E; try done. intros [= <-].
  apply map_get_Some_elem in E. rewrite json_ok_map, andb_true_iff, forallb_forall in Hj. destruct Hj as [_ Hj].
  apply list_elem_of_In, Hj, andb_true_iff in E as [_ E]. cbn in E. eauto.
Qed.

Lemma leaf_ok_step s m mu s' :
  WF s → leaf_ok s → line_ok m = true → mutationView m = Some mu → applyMutation s mu = Ok s' → leaf_ok s'.
Proof.
  intros Hwf Hs Hm Hv Ha. unfold applyMutation in Ha. destruct (negb _); [done|].
  unfold line_ok in Hm. apply andb_true_iff in Hm as [_ Hm].
  assert (∀ lane leaf, (∀ id, leaf = Some id → ∃ t, text_ok t = true ∧ id = str_of_js t) →
    lanes s' = map_set (lanes s) lane leaf → leaf_ok s') as Hset.
  { intros lane leaf Hleaf Hl lane' id Hin. rewrite Hl in Hin.
    apply lanes_set in Hin as [Hin| ->]; [by eapply Hs|by apply Hleaf|apply (wf_lanes_nodup s Hwf)]. }
  assert (lanes s' = lanes s → leaf_ok s') as Hsame.
  { intros Hl lane id Hin. rewrite Hl in Hin. by eapply Hs. }
  destruct m as [lane e|r|seq lane leaf|seq name|seq target label]; cbn [mutationView] in Hv.
  - apply fmap_Some in Hv as (te & He & ->). unfold applyEntry, invalidMutation in Ha. invert_ok. subst s'.
    apply andb_true_iff in Hm as [Hb _]. unfold body_ok in Hb. rewrite !andb_true_iff in Hb. destruct Hb as [[Hj _] _].
    unfold entryView in He. apply bind_Some in He as (id & Hid & He).
    do 4 (apply bind_Some in He as (? & _ & He)). injection He as <-.
    destruct lane as [lane|]; [|by apply Hsame]. eapply Hset; [|reflexivity].
    intros id' [= <-]. by eapply text_of_field.
  - apply fmap_Some in Hv as (tr & Hr & ->). unfold applyRecord, invalidMutation in Ha. invert_ok. subst s'. by apply Hsame.
  - injection Hv as <-. unfold applyLane, invalidMutation in Ha. invert_ok. subst s'. eapply Hset; [|reflexivity].
    apply andb_true_iff in Hm as [_ Hm]. destruct leaf as [l|]; [|done]. intros id [= <-]. eauto.
  - injection Hv as <-. injection Ha as <-. by apply Hsame.
  - injection Hv as <-. unfold applyLabel, invalidMutation in Ha. invert_ok. subst s'. by apply Hsame.
Qed.

(** A history's state is one the session can reach, with such leaves. *)
Lemma history_reachable ms s : history ms s → reachable s ∧ leaf_ok s.
Proof.
  intros [Hms Hr]. specialize (Hr (mkJsonlMetadata [] (NInt 0) [] [] 0 4 None None None)).
  revert s Hms Hr. induction ms as [|m ms IH] using rev_ind; intros s Hms Hr.
  - injection Hr as <-. split; [constructor|]. intros lane leaf. cbn. set_solver.
  - apply Forall_app in Hms as [Hms Hm]. apply Forall_cons in Hm as [Hm _]. unfold replay in *.
    rewrite rfold_app in Hr. apply rbind_Ok in Hr as (st & Hst & Hr). cbn [rfold] in Hr.
    apply rbind_Ok in Hr as (st' & Ha & [= ->]).
    pose proof (rfold_lines _ _ _ Hst) as [Hmd Hl]. destruct st as [md s0 l0]. cbn in Hmd, Hl. subst.
    destruct (IH s0 Hms Hst) as [Hre Hle].
    apply applyLine_Ok in Ha as (_ & _ & mu & Hv & Ha). cbn [js_state] in Ha. split; [by econstructor|].
    eapply leaf_ok_step; [by apply reachable_WF|done..].
Qed.

(** ** A validated call writes a line that applies *)

(** What is to show of a call: the in-memory storage rejects it for the same
    reason, or the line is sound and its mutation is the in-memory one. *)
Definition line_refines (md : SessionMetadata) (s : SessionState) (sop : StorageOp) (r : result session_error LineMutation) : Prop :=
  match r with
  | Err e => run_op (mkMemory md s) sop = Err e
  | Ok m => line_ok m = true ∧ ∃ mu s', mutationView m = Some mu ∧ applyMutation s mu = Ok s' ∧
      run_op (mkMemory md s) sop = Ok (mkMemory md s')
  end.

Lemma is_Ok_inv {E A} (r : result E A) : is_Ok r = true → ∃ a, r = Ok a.
Proof. destruct r; [eauto|done]. Qed.

Lemma seq_ok_next s : WF s → sequence s < MAX_SAFE → seq_ok (nextSequence s) = true.
Proof. intros Hs Hlt. unfold seq_ok, nextSequence. rewrite (wf_seq s Hs) in *. lia. Qed.

Lemma lane_refines md s sop seq lane leaf :
  seq = nextSequence s → seq_ok seq = true → text_ok lane = true → text_opt leaf = true →
  validateTarget s (str_of_js <$> leaf) = Ok tt →
  run_op (mkMemory md s) sop = mutate (mkMemory md s) (MutLane seq (str_of_js lane) (str_of_js <$> leaf)) →
  line_refines md s sop (Ok (LineLane seq lane leaf)).
Proof.
  intros -> Hseq Hl Ht Hv Hrun. cbn. split; [unfold line_ok, line_typed; cbn; by rewrite Hseq, Hl, Ht|].
  destruct (is_Ok_inv _ (applyMutation_lane s (str_of_js lane) (str_of_js <$> leaf) Hv)) as [s' Ha].
  eexists _, s'. split; [done|]. split; [done|]. rewrite Hrun. unfold mutate. cbn [state metadata]. by rewrite Ha.
Qed.

Lemma parent_view s lane leaf :
  leaf_ok s → map_get (lanes s) lane = Some leaf →
  str_of_js <$> (js_of_str <$> leaf) = leaf ∧ json_ok (nullable (js_of_str <$> leaf)) = true.
Proof.
  intros Hs Hl. destruct leaf as [id|]; [|done]. apply map_get_Some_elem in Hl.
  destruct (Hs _ _ Hl) as (t & Ht & ->). cbn. by rewrite js_of_str_of_js.
Qed.

(** A field storage has assigned. *)
Lemma field_stamped reserved o props n v :
  lacks reserved o = true → js_lit n ∈ js_lit <$> reserved → field props n = Some v → field (o ++ props) n = Some v.
Proof. intros Hl Hn Hv. rewrite field_app_new; [done|]. by eapply lacks_field. Qed.

Lemma nullable_ok p : is_nullable (Some (nullable p)) = true.
Proof. by destruct p. Qed.

Lemma entry_refines s now e lane pe parent :
  WF s → leaf_ok s → sequence s < MAX_SAFE → op_ok (JAppendEntry now e lane) = true →
  provisionedView (TMap e) = Some pe → map_get (lanes s) (str_of_js lane) = Some parent → pe_id pe ∉ usedIds s →
  let entry := spread e [(js_lit "parentId", nullable (js_of_str <$> parent));
                         (js_lit "seq", TNum (NInt (nextSequence s))); (js_lit "timestamp", TNum (NInt now))] in
  line_ok (LineEntry (Some lane) entry) = true ∧
  entryView entry = Some (mkEntry (pe_id pe) (nextSequence s) parent now (pe_body pe)).
Proof.
  intros Hwf Hle Hlt Hok Hv Hl Hid entry. cbn [op_ok] in Hok. rewrite !andb_true_iff in Hok.
  destruct Hok as ((Hnow & Hb) & Hlane). pose proof (seq_ok_next s Hwf Hlt) as Hseq.
  destruct (parent_view s _ parent Hle Hl) as [Hpv Hpj].
  set (props := [(js_lit "parentId", nullable (js_of_str <$> parent));
                 (js_lit "seq", TNum (NInt (nextSequence s))); (js_lit "timestamp", TNum (NInt now))]) in *.
  destruct (stamped_body _ e props Hb) as (Hsp & Hj & Hpl); [decide_now|decide_now|by vm_compute|..].
  { subst props. cbn [forallb fst snd json_ok]. rewrite Hpj, (seq_json _ Hseq). unfold now_ok in Hnow.
    cbn [num_json]. rewrite (proj2 (Z.leb_le _ _)) by lia. by vm_compute. }
  unfold entry. rewrite Hsp. cbn [provisionedView] in Hv. apply bind_Some in Hv as (id & Hfid & Hv).
  apply bind_Some in Hv as (body & Hbody & [= <-]). cbn [pe_id pe_body] in *.
  pose proof (entry_envelope _ _ Hbody) as [Hty Hcu].
  unfold body_ok in Hb. rewrite !andb_true_iff in Hb. destruct Hb as [_ Hlk].
  assert (∀ n, js_lit n ∉ props.*1 → field (e ++ props) n = field e n) as Ho by (intros; by apply field_app_other).
  assert (field (e ++ props) "parentId" = Some (nullable (js_of_str <$> parent))) as Fp
    by (eapply field_stamped; [exact Hlk|decide_now|by subst props; fields]).
  assert (field (e ++ props) "seq" = Some (TNum (NInt (nextSequence s)))) as Fs
    by (eapply field_stamped; [exact Hlk|decide_now|by subst props; fields]).
  assert (field (e ++ props) "timestamp" = Some (TNum (NInt now))) as Ft
    by (eapply field_stamped; [exact Hlk|decide_now|by subst props; fields]).
  split.
  - unfold line_ok, line_typed, entry_typed, body_ok, line_seq, obj_seq. rewrite Fp, Fs, Ft.
    rewrite !Ho by decide_now. rewrite (f_text_is_string _ _ _ Hfid), Hty, Hcu, Hj, Hpl, lacks_app.
    assert (lacks ["kind"; "lane"] e = true) as -> by (eapply lacks_sub; [|exact Hlk]; decide_now). cbn [text_opt]. rewrite Hlane, Hseq.
    cbn [is_seq is_timestamp timestamp_ok]. rewrite Z.eqb_refl, Hseq, nullable_ok. unfold now_ok in Hnow. rewrite Hnow.
    by vm_compute.
  - unfold entryView, f_text, f_int, f_text_null. rewrite Fp, Fs, Ft, Ho by decide_now.
    unfold f_text in Hfid. rewrite Hfid. cbn [mbind option_bind num_int].
    assert (match nullable (js_of_str <$> parent) with
      | TNull => Some None | TText s0 => Some (Some (str_of_js s0)) | _ => None end = Some parent) as ->.
    { rewrite <- Hpv at 2. by destruct parent. }
    cbn [mbind option_bind]. unfold props. rewrite (entryBodyView_stamp e). by rewrite Hbody.
Qed.

Lemma record_refines s now r nr :
  WF s → sequence s < MAX_SAFE → op_ok (JAppendRecord now r) = true → newRecordView r = Some nr →
  let record := spread r [(js_lit "seq", TNum (NInt (nextSequence s))); (js_lit "timestamp", TNum (NInt now))] in
  line_ok (LineRecord record) = true ∧
  recordView record = Some (mkRecord (nr_id nr) (nextSequence s) (nr_lane nr) now (nr_body nr)) ∧
  f_text r "id" = Some (nr_id nr) ∧ f_text r "lane" = Some (nr_lane nr) ∧
  is_text (field r "type") "operation_started" = is_start (nr_body nr).
Proof.
  intros Hwf Hlt Hok Hv record. cbn [op_ok] in Hok. rewrite !andb_true_iff in Hok.
  destruct Hok as (Hnow & Hb). pose proof (seq_ok_next s Hwf Hlt) as Hseq.
  set (props := [(js_lit "seq", TNum (NInt (nextSequence s))); (js_lit "timestamp", TNum (NInt now))]) in *.
  destruct (stamped_body _ r props Hb) as (Hsp & Hj & Hpl); [decide_now|decide_now|by vm_compute|..].
  { subst props. cbn [forallb fst snd json_ok]. rewrite (seq_json _ Hseq). unfold now_ok in Hnow.
    cbn [num_json]. rewrite (proj2 (Z.leb_le _ _)) by lia. by vm_compute. }
  unfold record. rewrite Hsp. unfold newRecordView in Hv. apply bind_Some in Hv as (id & Hfid & Hv).
  apply bind_Some in Hv as (lane & Hfl & Hv). apply bind_Some in Hv as (body & Hbody & [= <-]).
  cbn [nr_id nr_lane nr_body] in *. pose proof (record_envelope _ _ Hbody) as (Hty & Hin & Hfi & Hst).
  unfold body_ok in Hb. rewrite !andb_true_iff in Hb. destruct Hb as [_ Hlk].
  assert (∀ n, js_lit n ∉ props.*1 → field (r ++ props) n = field r n) as Ho by (intros; by apply field_app_other).
  assert (field (r ++ props) "seq" = Some (TNum (NInt (nextSequence s)))) as Fs
    by (eapply field_stamped; [exact Hlk|decide_now|by subst props; fields]).
  assert (field (r ++ props) "timestamp" = Some (TNum (NInt now))) as Ft
    by (eapply field_stamped; [exact Hlk|decide_now|by subst props; fields]).
  split_and!; [..|done|done|done].
  - unfold line_ok, line_typed, record_typed, body_ok, line_seq, obj_seq, intent_typed. rewrite Fs, Ft.
    rewrite !Ho by decide_now. fold (intent_typed r).
    rewrite (f_text_is_string _ _ _ Hfid), (f_text_is_string _ _ _ Hfl), Hty, Hin, Hfi, Hj, Hpl, lacks_app.
    assert (lacks ["kind"] r = true) as -> by (eapply lacks_sub; [|exact Hlk]; decide_now). rewrite Hseq.
    cbn [is_seq is_timestamp timestamp_ok]. rewrite Z.eqb_refl, Hseq. unfold now_ok in Hnow. rewrite Hnow.
    by vm_compute.
  - unfold recordView, f_text, f_int. rewrite Fs, Ft, !Ho by decide_now.
    unfold f_text in Hfid, Hfl. rewrite Hfid. cbn [mbind option_bind num_int]. rewrite Hfl. cbn [mbind option_bind].
    unfold props. rewrite (recordBodyView_stamp r). by rewrite Hbody.
Qed.

Lemma entry_line_spec md s now e lane sop :
  reachable s → leaf_ok s → sequence s < MAX_SAFE → op_ok (JAppendEntry now e lane) = true →
  opView (JAppendEntry now e lane) = Some sop → line_refines md s sop (op_line s (JAppendEntry now e lane)).
Proof.
  intros Hre Hle Hlt Hok Hv. cbn [opView] in Hv. pose proof (reachable_WF s Hre) as Hwf.
  apply bind_Some in Hv as (pe & Hpe & [= <-]). cbn [op_line].
  assert (f_text e "id" = Some (pe_id pe)) as Hid.
  { cbn [provisionedView] in Hpe. apply bind_Some in Hpe as (id & Hid & Hpe).
    by apply bind_Some in Hpe as (b & _ & [= <-]). }
  rewrite Hid. change (default EmptyString (Some (pe_id pe))) with (pe_id pe).
  unfold line_refines. cbn [run_op]. unfold appendEntry. cbn [state]. unfold requireLane.
  destruct (map_get (lanes s) (str_of_js lane)) as [parent|] eqn:El; cbn [rbind rmap]; [|done].
  unfold validateUnusedId. case_bool_decide as Hu; cbn [rbind rmap]; [done|].
  destruct (entry_refines s now e lane pe parent) as [Hlo Hev]; try done. split; [done|].
  destruct (is_Ok_inv _ (applyMutation_entry s (str_of_js lane) parent now (pe_id pe) (pe_body pe) Hwf El Hu)) as [s' Ha].
  eexists _, s'. split; [cbn [mutationView]; by rewrite Hev|]. split; [exact Ha|].
  unfold mutate. cbn [state metadata]. by rewrite Ha.
Qed.

Lemma record_line_spec md s now r sop :
  reachable s → leaf_ok s → sequence s < MAX_SAFE → op_ok (JAppendRecord now r) = true →
  opView (JAppendRecord now r) = Some sop → line_refines md s sop (op_line s (JAppendRecord now r)).
Proof.
  intros Hre Hle Hlt Hok Hv. cbn [opView] in Hv. pose proof (reachable_WF s Hre) as Hwf.
  apply bind_Some in Hv as (nr & Hnr & [= <-]). cbn [op_line].
  destruct (record_refines s now r nr) as (Hlo & Hrv & Hid & Hla & Hst); try done.
  rewrite Hid, Hla, Hst. change (default EmptyString (Some (nr_id nr))) with (nr_id nr).
  change (default EmptyString (Some (nr_lane nr))) with (nr_lane nr).
  unfold line_refines. cbn [run_op]. unfold appendRecord. cbn [state]. unfold requireLane.
  destruct (map_get (lanes s) (nr_lane nr)) as [parent|] eqn:El; cbn [rbind rmap]; [|done].
  unfold validateUnusedId. case_bool_decide as Hu; cbn [rbind rmap]; [done|].
  destruct (findOpenOperations s (nr_lane nr) (Some (NInt 1))) as [cur|e]; cbn [rbind]; [|done].
  destruct (is_start (nr_body nr) && negb (bool_decide (head cur = None))); [done|]. split; [done|].
  destruct (is_Ok_inv _ (applyMutation_record s now (nr_id nr) (nr_lane nr) (nr_body nr) parent El Hu)) as [s' Ha].
  eexists _, s'. split; [cbn [mutationView]; by rewrite Hrv|]. split; [exact Ha|].
  unfold mutate. cbn [state metadata]. by rewrite Ha.
Qed.

Lemma op_line_spec md s op sop :
  reachable s → leaf_ok s → sequence s < MAX_SAFE → op_ok op = true → opView op = Some sop →
  line_refines md s sop (op_line s op).
Proof.
  intros Hre Hle Hlt Hok Hv. pose proof (reachable_WF s Hre) as Hwf. pose proof (seq_ok_next s Hwf Hlt) as Hseq.
  destruct op as [lane at_|lane to|now e lane|now r|n|id label]; cbn [opView] in Hv.
  - injection Hv as <-. cbn [op_ok] in Hok. apply andb_true_iff in Hok as [Hl Ha]. cbn [op_line].
    destruct (validateNewLane s (str_of_js lane)) as [[]|e] eqn:E1; cbn [rbind].
    2: { cbn. unfold createLane. cbn [state]. by rewrite E1. }
    destruct (validateTarget s (str_of_js <$> at_)) as [[]|e] eqn:E2; cbn [rbind].
    2: { cbn. unfold createLane. cbn [state]. by rewrite E1, E2. }
    apply lane_refines; try done. cbn [run_op]. unfold createLane. cbn [state]. by rewrite E1, E2.
  - injection Hv as <-. cbn [op_ok] in Hok. apply andb_true_iff in Hok as [Hl Ha]. cbn [op_line].
    destruct (requireLane s (str_of_js lane)) as [leaf|e] eqn:E1; cbn [rbind].
    2: { cbn. unfold moveLane. cbn [state]. by rewrite E1. }
    destruct (validateTarget s (str_of_js <$> to)) as [[]|e] eqn:E2; cbn [rbind].
    2: { cbn. unfold moveLane. cbn [state]. by rewrite E1, E2. }
    apply lane_refines; try done. cbn [run_op]. unfold moveLane. cbn [state]. by rewrite E1, E2.
  - by apply entry_line_spec.
  - by apply record_line_spec.
  - injection Hv as <-. cbn [op_ok op_line] in *. split; [unfold line_ok, line_typed; cbn; by rewrite Hseq, Hok|].
    eexists _, _. split; [done|]. unfold applyMutation, nextSequence. cbn [mut_seq]. rewrite Z.eqb_refl. split; [done|].
    cbn [run_op]. unfold setName, mutate, applyMutation, nextSequence. cbn [mut_seq state]. by rewrite Z.eqb_refl.
  - injection Hv as <-. cbn [op_ok op_line] in *. apply andb_true_iff in Hok as [Hi Hl].
    unfold validateTarget. destruct (has_entry s (str_of_js id)) eqn:Eh; cbn [rbind].
    2: { cbn. unfold setLabel, validateTarget. cbn [state]. by rewrite Eh. }
    split; [unfold line_ok, line_typed; cbn; by rewrite Hseq, Hi, Hl|].
    eexists _, _. split; [done|]. unfold applyMutation, nextSequence, applyLabel. cbn [mut_seq].
    rewrite Z.eqb_refl, Eh. split; [done|].
    cbn [run_op]. unfold setLabel, validateTarget, mutate, applyMutation, nextSequence, applyLabel.
    cbn [mut_seq state rbind]. rewrite Eh. cbn [rbind]. by rewrite Z.eqb_refl.
Qed.

(** ** The storage and its file *)

Definition js_path (st : JsonlSessionStorage) : path := jm_path (js_metadata st).

(** The file is the header and the lines that lead to the state. *)
Definition durable {F} `{FsLaws F} (f : F) (h : JsonlV4Header) (st : JsonlSessionStorage) : Prop :=
  header_ok h = true ∧ history (js_lines st) (js_state st) ∧
  files f !! js_path st = Some (file_text h (js_lines st)).

(** The append of [m] was cut: the file ends in a prefix of its line. *)
Definition interrupted {F} `{FsLaws F} (f : F) (h : JsonlV4Header) (st : JsonlSessionStorage) (m : LineMutation)
    (s' : SessionState) : Prop :=
  header_ok h = true ∧ history (js_lines st) (js_state st) ∧ line_ok m = true ∧ history (js_lines st ++ [m]) s' ∧
  ∃ k, cut_tail m k ∧ files f !! js_path st = Some (file_text h (js_lines st) ++ k).

Section durable.
Context {F : Type} `{FsLaws F}.
Implicit Types f : F.

Lemma durable_interrupted f h st m st' :
  durable f h st → line_ok m = true → applyLine st m = Ok st' → interrupted f h st m (js_state st').
Proof.
  intros (Hh & Hist & Hf) Hm Ha. split_and!; try done.
  - eapply (history_snoc _ _ _ _ (js_metadata st)); [done..|]. by destruct st.
  - exists []. split; [apply prefix_nil|]. by rewrite app_nil_r.
Qed.

Lemma commit_spec f h st m f' r :
  durable f h st → line_ok m = true → commit st m f = (f', r) →
  ∀ st1, applyLine st m = Ok st1 →
  (∀ q, q ≠ js_path st → files f' !! q = files f !! q) ∧
  match r with
  | Ok st' => st' = st1 ∧ durable f' h st'
  | Err e => io_failure e ∧ interrupted f' h st m (js_state st1)
  end.
Proof.
  intros (Hh & Hist & Hf) Hm Hc st1 Ha. unfold commit, io_bind, appendMutation in Hc.
  destruct (fileResult _ _ f) as [f1 [[]|e]] eqn:E.
  - injection Hc as <- <-. rewrite Ha. apply fileResult_Ok, append_law in E as [E _]. specialize (E eq_refl).
    split; [intros q Hq; rewrite E; by rewrite lookup_insert_ne|].
    split; [done|]. pose proof (applyLine_Ok _ _ _ Ha) as (Hmd & Hl & _). split; [done|]. split.
    + rewrite Hl. eapply (history_snoc _ _ _ _ (js_metadata st)); [done..|]. by destruct st.
    + unfold js_path in *. rewrite Hmd, Hl, E, lookup_insert_eq, Hf, file_text_snoc. done.
  - injection Hc as <- <-. apply fileResult_Err in E as [[c E] He]. apply append_law in E as [_ E].
    assert (history (js_lines st ++ [m]) (js_state st1)) as Hnext.
    { eapply (history_snoc _ _ _ _ (js_metadata st)); [done..|]. by destruct st. }
    destruct (E c eq_refl) as [Hs|(k & Hk & Hs)].
    + split; [by intros; rewrite Hs|]. split; [done|]. split_and!; try done. exists [].
      split; [apply prefix_nil|]. by rewrite Hs, app_nil_r.
    + split; [intros q Hq; rewrite Hs; by rewrite lookup_insert_ne|]. split; [done|]. split_and!; try done. exists k.
      split; [done|]. unfold js_path in *. rewrite Hs, lookup_insert_eq, Hf. done.
Qed.

Definition memory_of (md : SessionMetadata) (st : JsonlSessionStorage) : InMemorySessionStorage :=
  mkMemory md (js_state st).

(** One call, compared with the same call of the in-memory storage. *)
Lemma jsonl_step md f h st op sop f' r :
  durable f h st → sequence (js_state st) < MAX_SAFE → op_ok op = true → opView op = Some sop →
  run_jsonl st op f = (f', r) →
  match run_op (memory_of md st) sop with
  | Err e => r = Err (Thrown e) ∧ f' = f
  | Ok mem =>
      (∀ q, q ≠ js_path st → files f' !! q = files f !! q) ∧
      match r with
      | Ok st' => memory_of md st' = mem ∧ js_metadata st' = js_metadata st ∧ durable f' h st'
      | Err e => io_failure e ∧ ∃ m, interrupted f' h st m (state mem)
      end
  end.
Proof.
  intros Hd Hlt Hok Hv Hrun. pose proof Hd as (Hh & Hist & Hf).
  destruct (history_reachable _ _ Hist) as [Hre Hle].
  pose proof (op_line_spec md _ _ _ Hre Hle Hlt Hok Hv) as Hline.
  rewrite (run_jsonl_line st op sop f Hv) in Hrun. unfold io_bind, io_lift in Hrun. unfold memory_of.
  destruct (op_line (js_state st) op) as [m|e]; cbn [line_refines] in Hline.
  - destruct Hline as (Hm & mu & s' & Hmv & Ha & ->).
    assert (applyLine st m = Ok (mkJsonl (js_metadata st) s' (js_lines st ++ [m]))) as Hal.
    { unfold applyLine. by rewrite Hmv, Ha. }
    destruct (commit_spec _ _ _ _ _ _ Hd Hm Hrun _ Hal) as [Ho Hr]. split; [done|].
    destruct r as [st'|e]; [|destruct Hr as [He Hi]; split; [done|by exists m]].
    destruct Hr as [-> Hr]. done.
  - rewrite Hline. by injection Hrun as <- <-.
Qed.

(** Loading what an interrupted append left. *)
Lemma load_interrupted f h st m s' f' r :
  interrupted f h st m s' → load (js_path st) f = (f', r) →
  match r with
  | Ok st' => (js_state st' = js_state st ∨ js_state st' = s') ∧ js_path st' = js_path st ∧ durable f' h st'
  | Err e => io_failure e ∧ interrupted f' h st m s'
  end.
Proof.
  intros (Hh & Hist & Hm & Hist' & k & Hk & Hf) Hload.
  pose proof (load_cut _ _ _ _ _ _ _ _ _ _ Hh Hist Hm Hist' Hk Hf Hload) as Hl.
  destruct r as [st'|e].
  - destruct Hl as (mt & Hst & Hf'). unfold durable, js_path in *.
    destruct Hst as [-> | ->]; cbn [js_state js_metadata js_lines jm_path metadataFromHeader] in *; auto.
  - destruct Hl as (He & k' & Hk' & Hf'). split; [done|]. split_and!; eauto.
Qed.

(** Reopening a session that was not interrupted. *)
Lemma load_durable f h st f' r :
  durable f h st → load (js_path st) f = (f', r) →
  files f' = files f ∧
  match r with
  | Ok st' => js_state st' = js_state st ∧ js_lines st' = js_lines st ∧ js_path st' = js_path st ∧ durable f' h st'
  | Err e => io_failure e
  end.
Proof.
  intros (Hh & Hist & Hf) Hload. unfold durable, js_path in *.
  destruct (readTextFile (jm_path (js_metadata st)) f) as [f1 [t|c]] eqn:Hread.
  2: { destruct (load_no_read _ _ _ _ Hread) as (e & Hl & He). rewrite Hl in Hload. injection Hload as <- <-.
       by apply read_law in Hread as [Hread _]. }
  pose proof (read_law _ _ _ _ Hread) as [Hf1 Ht]. specialize (Ht t eq_refl). rewrite Hf in Ht.
  assert (t = file_text h (js_lines st)) as -> by congruence. clear Ht.
  destruct (fileInfo (jm_path (js_metadata st)) f1) as [f2 [info|c]] eqn:Hinfo; pose proof (info_law _ _ _ _ Hinfo) as Hf2.
  - rewrite (load_whole _ _ _ _ _ _ _ _ Hh Hist Hread Hinfo) in Hload. injection Hload as <- <-.
    cbn [js_state js_metadata js_lines jm_path metadataFromHeader]. rewrite Hf2, Hf1. done.
  - pose proof (physicalLines_file h (js_lines st) [] Hh (proj1 Hist) ltac:(apply not_elem_of_nil)) as Hpl.
    rewrite !app_nil_r in Hpl.
    destruct (load_no_info _ _ _ _ _ _ _ _ Hh Hpl Hread Hinfo) as (e & Hl & He). rewrite Hl in Hload.
    injection Hload as <- <-. rewrite Hf2, Hf1. done.
Qed.
End durable.

(** ** Runs *)

Lemma applyMutation_sequence s m s' : applyMutation s m = Ok s' → sequence s' = sequence s + 1.
Proof.
  unfold applyMutation. destruct (Z.eqb_spec (mut_seq m) (sequence s + 1)) as [E|]; [|done]. cbn [negb].
  destruct m; cbn [mut_seq] in E; intros Ha.
  - unfold applyEntry, invalidMutation in Ha. invert_ok. by subst.
  - unfold applyRecord, invalidMutation in Ha. invert_ok. by subst.
  - unfold applyLane, invalidMutation in Ha. invert_ok. by subst.
  - injection Ha as <-. done.
  - unfold applyLabel, invalidMutation in Ha. invert_ok. by subst.
Qed.

(** The calls one after the other, those that throw having no effect. *)
Definition exec_jsonl {F} `{FileSystem F} (fs : F * JsonlSessionStorage) (ops : list JsonlOp) : F * JsonlSessionStorage :=
  foldl (λ fs op, match run_jsonl fs.2 op fs.1 with (f', Ok st') => (f', st') | (f', Err _) => (f', fs.2) end) fs ops.

(** Conditions under which a file system serves a session without faults. *)
Record Steady {F} `{FsLaws F} (steady : F → Prop) : Prop := {
  steady_append p t f f' r : steady f → appendFile p t f = (f', r) → r = Ok tt ∧ steady f';
  steady_read p t f f' r : steady f → files f !! p = Some t → readTextFile p f = (f', r) → r = Ok t ∧ steady f';
  steady_info p f f' r : steady f → is_Some (files f !! p) → fileInfo p f = (f', r) → is_Ok r = true;
}.

Section run.
Context {F : Type} `{FsLaws F} (steady : F → Prop).
Hypothesis Hsteady : Steady steady.

(** Without faults, a commit succeeds. *)
Lemma commit_steady st m st1 f f' r :
  steady f → applyLine st m = Ok st1 → commit st m f = (f', r) → steady f' ∧ r = Ok st1.
Proof.
  intros Hf Ha Hc. unfold commit, io_bind, appendMutation in Hc. destruct (fileResult _ _ f) as [f1 [[]|e]] eqn:E.
  - injection Hc as <- <-. apply fileResult_Ok, (steady_append _ Hsteady) in E as [_ Hs]; [|done]. by rewrite Ha.
  - apply fileResult_Err in E as [[c E] _]. apply (steady_append _ Hsteady) in E as [[=] _]. done.
Qed.

Lemma step_steady md f h st op sop f' r :
  steady f → durable f h st → sequence (js_state st) < MAX_SAFE → op_ok op = true → opView op = Some sop →
  run_jsonl st op f = (f', r) →
  steady f' ∧ is_Ok r = is_Ok (run_op (memory_of md st) sop).
Proof.
  intros Hf Hd Hlt Hok Hv Hrun. pose proof Hd as (Hh & Hist & _).
  destruct (history_reachable _ _ Hist) as [Hre Hle].
  pose proof (op_line_spec md _ _ _ Hre Hle Hlt Hok Hv) as Hline.
  rewrite (run_jsonl_line st op sop f Hv) in Hrun. unfold io_bind, io_lift in Hrun. unfold memory_of.
  destruct (op_line (js_state st) op) as [m|e]; cbn [line_refines] in Hline.
  - destruct Hline as (Hm & mu & s' & Hmv & Ha & ->).
    destruct (commit_steady st m (mkJsonl (js_metadata st) s' (js_lines st ++ [m])) f f' r) as [Hs ->]; try done.
    unfold applyLine. by rewrite Hmv, Ha.
  - rewrite Hline. injection Hrun as <- <-. auto.
Qed.

Lemma exec_jsonl_refines md h ops sops f st :
  steady f → durable f h st → mapM opView ops = Some sops → Forall (λ op, op_ok op = true) ops →
  sequence (js_state st) + Z.of_nat (length ops) ≤ MAX_SAFE →
  let fs := exec_jsonl (f, st) ops in
  steady fs.1 ∧ durable fs.1 h fs.2 ∧ memory_of md fs.2 = exec (memory_of md st) sops.
Proof.
  revert sops f st. induction ops as [|op ops IH]; intros sops f st Hf Hd Hv Hok Hle.
  { injection Hv as <-. done. }
  cbn [mapM] in Hv. apply bind_Some in Hv as (sop & Hop & Hv). apply bind_Some in Hv as (sops' & Hsops & [= <-]).
  apply Forall_cons in Hok as [Hok1 Hok]. cbn [length] in Hle. unfold exec_jsonl. cbn [foldl fst snd].
  destruct (run_jsonl st op f) as [f' r] eqn:Hrun.
  destruct (step_steady md _ _ _ _ _ _ _ Hf Hd ltac:(lia) Hok1 Hop Hrun) as [Hf' Hr].
  pose proof (jsonl_step md _ _ _ _ _ _ _ Hd ltac:(lia) Hok1 Hop Hrun) as Hstep.
  unfold exec. cbn [foldl]. destruct (run_op (memory_of md st) sop) as [mem|e] eqn:Hmem.
  - destruct Hstep as [_ Hstep]. destruct r as [st'|e]; [|done].
    destruct Hstep as (Hm & _ & Hd'). rewrite <- Hm. apply IH; try done.
    destruct (run_op_mutation _ _ _ Hmem) as (_ & mu & Ha & _). rewrite <- Hm in Ha. cbn [memory_of state] in Ha.
    apply applyMutation_sequence in Ha. lia.
  - destruct Hstep as [-> ->]. apply IH; try done. lia.
Qed.

(** Without faults, a session reopens. *)
Lemma load_steady f h st :
  steady f → durable f h st →
  ∃ f' st', load (js_path st) f = (f', Ok st') ∧ files f' = files f ∧ js_state st' = js_state st.
Proof.
  intros Hf (Hh & Hist & Hfile).
  destruct (readTextFile (js_path st) f) as [f1 r1] eqn:Hread.
  destruct (steady_read _ Hsteady _ _ _ _ _ Hf Hfile Hread) as [-> Hf1].
  pose proof (proj1 (read_law _ _ _ _ Hread)) as Hfiles.
  destruct (fileInfo (js_path st) f1) as [f2 r2] eqn:Hinfo.
  assert (is_Ok r2 = true) as Hr by (eapply (steady_info _ Hsteady); [done| |done]; rewrite Hfiles, Hfile; eauto).
  apply is_Ok_spec in Hr as [info ->]. apply info_law in Hinfo as Hf2.
  rewrite (load_whole _ _ _ _ _ _ _ _ Hh Hist Hread Hinfo). eexists _, _. split; [done|]. by rewrite Hf2.
Qed.
End run.
