(* ===== verification/JsonlFork.v ===== *)
(** Forking a session file: [JsonlSessionStorage.fork] builds the fork's file
    beside its destination and renames it into place. *)
From S2P Require Import Prelude JsValue JsMap Json JsonSpec JsonlCodec JsonlCodecSpec SessionTypes SessionState SessionSpec SessionFork SessionView SessionStore SessionStoreSpec FileSystem JsonlStorage JsonlStorageSpec JsonlTheorems.
Open Scope Z_scope.

(** ** The strings of a session come from its file *)

Definition image (x : string) : Prop := ∃ t, text_ok t = true ∧ x = str_of_js t.

Lemma image_back x : image x → str_of_js (js_of_str x) = x ∧ text_ok (js_of_str x) = true.
Proof. intros (t & Ht & ->). by rewrite js_of_str_of_js. Qed.

Lemma image_main : image "main".
Proof. by exists (js_lit "main"). Qed.

Lemma image_opt (o : option string) :
  (∀ x, o = Some x → image x) → str_of_js <$> (js_of_str <$> o) = o ∧ text_opt (js_of_str <$> o) = true.
Proof. intros H. destruct o as [x|]; [|done]. destruct (image_back x (H x eq_refl)) as [Hx Ht]. cbn. by rewrite Hx, Ht. Qed.

Definition line_entry (m : LineMutation) : option Entry := match m with LineEntry _ o => entryView o | _ => None end.

(** What a history says of its state, beyond reachability. *)
Record recorded (ms : list LineMutation) (s : SessionState) : Prop := {
  rec_entries : entries s = omap line_entry ms;
  rec_views : Forall (λ m, is_Some (mutationView m)) ms;
  rec_lanes : ∀ lane leaf, (lane, leaf) ∈ lanes s → image lane ∧ ∀ id, leaf = Some id → image id;
  rec_name : ∀ n, name s = Some n → image n;
  rec_labels : ∀ id l, labels s !! id = Some l → image id ∧ image l;
}.

Lemma map_set_elem {A} (m : jsmap A) k v k' v' :
  NoDup m.*1 → (k', v') ∈ map_set m k v → (k', v') ∈ m ∨ k' = k ∧ v' = v.
Proof.
  intros Hnd Hin. apply map_get_elem in Hin; [|by apply map_set_NoDup].
  rewrite map_get_set in Hin. case_bool_decide; [naive_solver|]. left. by apply map_get_Some_elem.
Qed.

Lemma image_of t : text_ok t = true → image (str_of_js t).
Proof. by exists t. Qed.

Lemma recorded_step ms s m mu s' :
  WF s → recorded ms s → line_ok m = true → mutationView m = Some mu → applyMutation s mu = Ok s' →
  recorded (ms ++ [m]) s'.
Proof.
  intros Hwf Hrec Hm Hv Ha. unfold applyMutation in Ha. destruct (negb _); [done|].
  unfold line_ok in Hm. apply andb_true_iff in Hm as [_ Hm].
  assert (Forall (λ m, is_Some (mutationView m)) (ms ++ [m])) as Hviews.
  { apply Forall_app. split; [apply Hrec|]. constructor; [by eexists|done]. }
  assert (omap line_entry (ms ++ [m]) = entries s ++ omap line_entry [m]) as Hom
    by (by rewrite omap_app, (rec_entries _ _ Hrec)).
  pose proof (wf_lanes_nodup s Hwf) as Hnd.
  destruct m as [lane e|r|seq lane leaf|seq nm|seq target label]; cbn [mutationView] in Hv.
  - apply fmap_Some in Hv as (te & He & ->). unfold applyEntry, invalidMutation in Ha. invert_ok. subst s'.
    apply andb_true_iff in Hm as [Hb Hlt]. unfold body_ok in Hb. rewrite !andb_true_iff in Hb. destruct Hb as [[Hj _] _].
    assert (image (e_id te)) as Hid.
    { unfold entryView in He. apply bind_Some in He as (id & Hid & He).
      do 4 (apply bind_Some in He as (? & _ & He)). injection He as <-. by eapply text_of_field. }
    split; cbn [entries lanes name labels]; try apply Hrec; [|done|].
    + rewrite Hom. cbn. by rewrite He.
    + destruct lane as [lane|]; cbn [fmap option_fmap option_map]; [|apply Hrec].
      intros l lf [Hin|[-> ->]]%map_set_elem; [by apply (rec_lanes _ _ Hrec)| |done].
      split; [by apply image_of|]. by intros id [= <-].
  - apply fmap_Some in Hv as (tr & Hr & ->). unfold applyRecord, invalidMutation in Ha. invert_ok. subst s'.
    split; cbn [entries lanes name labels]; try apply Hrec; [|done]. by rewrite Hom, app_nil_r.
  - injection Hv as <-. unfold applyLane, invalidMutation in Ha. invert_ok. subst s'.
    apply andb_true_iff in Hm as [Hl Hm].
    split; cbn [entries lanes name labels]; try apply Hrec; [by rewrite Hom, app_nil_r|done|].
    intros l lf [Hin|[-> ->]]%map_set_elem; [by apply (rec_lanes _ _ Hrec)| |done].
    split; [by apply image_of|]. destruct leaf as [x|]; [|done]. intros id [= <-]. by apply image_of.
  - injection Hv as <-. injection Ha as <-.
    split; cbn [entries lanes name labels]; try apply Hrec; [by rewrite Hom, app_nil_r|done|].
    destruct nm as [x|]; [|done]. intros n [= <-]. by apply image_of.
  - injection Hv as <-. unfold applyLabel, invalidMutation in Ha. invert_ok. subst s'.
    apply andb_true_iff in Hm as [Ht Hl].
    split; cbn [entries lanes name labels]; try apply Hrec; [by rewrite Hom, app_nil_r|done|].
    intros id l. destruct label as [x|]; cbn [fmap option_fmap option_map].
    + intros [[<- <-]|[_ Hlk]]%lookup_insert_Some; [|by eapply (rec_labels _ _ Hrec)]. split; by apply image_of.
    + intros [_ Hlk]%lookup_delete_Some. by eapply (rec_labels _ _ Hrec).
Qed.

Lemma recorded_new : recorded [] new_SessionState.
Proof.
  split; cbn; try done. intros lane leaf Hin. apply list_elem_of_singleton in Hin as [= -> ->].
  split; [apply image_main|done].
Qed.

Lemma history_recorded ms s : history ms s → recorded ms s.
Proof.
  intros Hist. pose proof Hist as [Hms Hr]. specialize (Hr (mkJsonlMetadata [] (NInt 0) [] [] 0 4 None None None)).
  clear Hist. revert s Hms Hr. induction ms as [|m ms IH] using rev_ind; intros s Hms Hr.
  - injection Hr as <-. apply recorded_new.
  - apply Forall_app in Hms as [Hms Hm]. apply Forall_cons in Hm as [Hm _]. unfold replay in *.
    rewrite rfold_app in Hr. apply rbind_Ok in Hr as (st & Hst & Hr). cbn [rfold] in Hr.
    apply rbind_Ok in Hr as (st' & Ha & [= ->]).
    pose proof (rfold_lines _ _ _ Hst) as [Hmd Hl]. destruct st as [md s0 l0]. cbn in Hmd, Hl. subst.
    apply applyLine_Ok in Ha as (_ & _ & mu & Hv & Ha). cbn [js_state] in Ha.
    eapply recorded_step; [|by apply IH|done..].
    apply reachable_WF. eapply (history_reachable ms). split; [done|]. intros md.
    pose proof (replay_metadata _ _ _ md Hst) as Hrm. exact Hrm.
Qed.

(** ** Renumbered objects *)

Lemma set_prop_keys k v o : k ∈ o.*1 → (set_prop k v o).*1 = o.*1.
Proof.
  intros Hk. unfold set_prop. rewrite bool_decide_eq_true_2 by done. rewrite <- list_fmap_compose.
  apply list_fmap_ext. intros i e _. cbn. by case_bool_decide.
Qed.

Lemma set_prop_ok k v o reserved :
  k ∈ o.*1 → json_ok v = true → body_ok reserved o = true → body_ok reserved (set_prop k v o) = true.
Proof.
  intros Hk Hv. unfold body_ok. rewrite !andb_true_iff, !json_ok_map, !andb_true_iff, set_prop_keys by done.
  intros (((Hko & Hj) & Hp) & Hl). split_and!; try done.
  - rewrite forallb_forall in *. intros e He. apply list_elem_of_In in He. unfold set_prop in He.
    rewrite bool_decide_eq_true_2 in He by done. apply list_elem_of_fmap in He as (e' & -> & He').
    apply list_elem_of_In, Hj, andb_true_iff in He' as [Ht Hje]. case_bool_decide as Ek; [|by rewrite Ht, Hje].
    cbn [fst snd]. by rewrite <- Ek, Ht, Hv.
  - unfold lacks in *. rewrite forallb_forall in *. intros e He. apply list_elem_of_In in He. unfold set_prop in He.
    rewrite bool_decide_eq_true_2 in He by done. apply list_elem_of_fmap in He as (e' & -> & He').
    apply list_elem_of_In, Hl in He'. case_bool_decide as Ek; [|done]. cbn [fst]. by rewrite <- Ek.
Qed.

Lemma field_set_other k v o n : js_lit k ≠ js_lit n → field (set_prop (js_lit k) v o) n = field o n.
Proof. intros H. rewrite field_set_prop. by rewrite bool_decide_eq_false_2. Qed.

Lemma entryBodyView_seq v o : entryBodyView (set_prop (js_lit "seq") v o) = entryBodyView o.
Proof.
  unfold entryBodyView, f_enum, f_flag, f_text, f_list, f_int, f_usage_opt.
  rewrite !field_set_other by name_ne. done.
Qed.

Lemma entryView_seq seq o e :
  entryView o = Some e → entryView (set_prop (js_lit "seq") (TNum (NInt seq)) o) = Some (with_seq e seq).
Proof.
  unfold entryView. intros (id & Hid & H)%bind_Some. apply bind_Some in H as (sq & Hsq & H).
  apply bind_Some in H as (pa & Hpa & H). apply bind_Some in H as (ts & Hts & H).
  apply bind_Some in H as (b & Hb & [= <-]).
  rewrite entryBodyView_seq. unfold f_text, f_int, f_text_null in *.
  rewrite !(field_set_other "seq" _ _ "id"), !(field_set_other "seq" _ _ "parentId"), !(field_set_other "seq" _ _ "timestamp") by name_ne.
  rewrite field_set_prop, bool_decide_eq_true_2 by done.
  rewrite Hid. cbn [mbind option_bind num_int]. rewrite Hpa. cbn [mbind option_bind]. rewrite Hts. cbn [mbind option_bind].
  by rewrite Hb.
Qed.

Lemma entry_typed_seq seq seq' o :
  seq_ok seq' = true → entry_typed seq o = true →
  entry_typed seq' (set_prop (js_lit "seq") (TNum (NInt seq')) o) = true.
Proof.
  intros Hs. unfold entry_typed. rewrite !field_set_prop.
  rewrite (bool_decide_eq_true_2 (js_lit "seq" = js_lit "seq")) by done.
  repeat (rewrite (bool_decide_eq_false_2 (js_lit "seq" = js_lit _)) by name_ne).
  rewrite !andb_true_iff. intros (((((? & ?) & ?) & _) & ?) & ?). split_and!; try done.
  cbn [is_seq]. by rewrite Z.eqb_refl, Hs.
Qed.

Lemma seq_field_key seq o : entry_typed seq o = true → js_lit "seq" ∈ o.*1.
Proof.
  unfold entry_typed. rewrite !andb_true_iff. intros (((_ & Hs) & _) & _). apply is_seq_inv in Hs as [Hs _].
  unfold field in Hs. apply map_get_Some_elem in Hs. apply (list_elem_of_fmap_2 fst) in Hs. exact Hs.
Qed.

(** ** The fork's lines *)

(** The object the state keeps for an entry. *)
Lemma entry_object_of ms s e :
  WF s → recorded ms s → Forall (λ m, line_ok m = true) ms → e ∈ entries s →
  ∃ lane o, entry_objects ms (e_id e) = Some o ∧ entryView o = Some e ∧ line_ok (LineEntry lane o) = true.
Proof.
  intros Hwf Hrec Hok He.
  assert (∀ lane o, LineEntry lane o ∈ ms → f_text o "id" = Some (e_id e) → entryView o = Some e) as Huniq.
  { intros lane o Hin Hid. pose proof (rec_views _ _ Hrec) as Hv. rewrite Forall_forall in Hv.
    destruct (Hv _ Hin) as [mu Hmu]. cbn in Hmu. apply fmap_Some in Hmu as (e' & He' & _).
    assert (e' ∈ entries s) as Hin'. { rewrite (rec_entries _ _ Hrec). apply list_elem_of_omap. eauto. }
    assert (e_id e' = e_id e) as Heq.
    { unfold entryView in He'. apply bind_Some in He' as (id & Hid' & He').
      do 4 (apply bind_Some in He' as (? & _ & He')). injection He' as <-. cbn. congruence. }
    pose proof (wf_ids s Hwf) as (Hnd & _ & _)%NoDup_app.
    by rewrite <- (NoDup_fmap_eq e_id (entries s) e' e Hnd Hin' He Heq). }
  pose proof He as He2. rewrite (rec_entries _ _ Hrec) in He2. apply list_elem_of_omap in He2 as (m & Hin & Hm).
  destruct m as [lane o| | | |]; try done. cbn in Hm.
  assert (f_text o "id" = Some (e_id e)) as Hid.
  { unfold entryView in Hm. apply bind_Some in Hm as (id & Hid & Hm).
    do 4 (apply bind_Some in Hm as (? & _ & Hm)). by injection Hm as <-. }
  unfold entry_objects. destruct (omap _ ms) as [|o' l] eqn:E.
  - exfalso. assert (o ∈ omap (λ m, match m with
      | LineEntry _ e0 => if bool_decide (f_text e0 "id" = Some (e_id e)) then Some e0 else None | _ => None end) ms) as Hino.
    { apply list_elem_of_omap. exists (LineEntry lane o). split; [done|]. by rewrite bool_decide_eq_true_2. }
    rewrite E in Hino. by apply elem_of_nil in Hino.
  - assert (o' ∈ o' :: l) as Ho' by left. rewrite <- E in Ho'. apply list_elem_of_omap in Ho' as (m' & Hin' & Hm').
    destruct m' as [lane' o2| | | |]; try done. case_bool_decide as Hid'; [|done]. injection Hm' as ->.
    exists lane', o'. split; [done|]. split; [by eapply Huniq|]. rewrite Forall_forall in Hok. by apply Hok.
Qed.

(** A line for a fork's mutation: it exists, it is sound and it means the mutation. *)
Definition line_for (ms : list LineMutation) (mu : SessionMutation) : Prop :=
  ∃ l, fork_line ms mu = Some l ∧ mutationView l = Some mu ∧ line_ok l = true.

Lemma line_for_entry ms s e seq :
  WF s → recorded ms s → Forall (λ m, line_ok m = true) ms → e ∈ entries s → seq_ok seq = true →
  line_for ms (MutEntry None (with_seq e seq)).
Proof.
  intros Hwf Hrec Hok He Hs. destruct (entry_object_of ms s e Hwf Hrec Hok He) as (lane & o & Ho & Hv & Hl).
  eexists. split; [cbn; by rewrite Ho|]. split; [cbn; by rewrite (entryView_seq seq o e Hv)|].
  unfold line_ok, line_typed in Hl. rewrite !andb_true_iff in Hl. destruct Hl as ((_ & Ht) & Hb & _).
  pose proof (seq_field_key _ _ Ht) as Hk.
  unfold line_ok, line_typed. cbn [line_seq]. unfold obj_seq.
  rewrite field_set_prop, bool_decide_eq_true_2 by done. rewrite Hs, (entry_typed_seq _ _ _ Hs Ht).
  rewrite set_prop_ok; [done|done|by apply seq_json|done].
Qed.

Lemma line_for_lane ms seq lane leaf :
  seq_ok seq = true → image lane → (∀ id, leaf = Some id → image id) → line_for ms (MutLane seq lane leaf).
Proof.
  intros Hs Hl Hi. destruct (image_back lane Hl) as [Hb Ht]. destruct (image_opt leaf Hi) as [Hb' Ht'].
  eexists. split; [done|]. cbn [mutationView]. rewrite Hb, Hb'. split; [done|].
  unfold line_ok, line_typed. cbn. by rewrite Hs, Ht, Ht'.
Qed.

Lemma line_for_name ms seq n : seq_ok seq = true → image n → line_for ms (MutName seq (Some n)).
Proof.
  intros Hs Hn. destruct (image_back n Hn) as [Hb Ht]. eexists. split; [done|]. cbn. rewrite Hb. split; [done|].
  unfold line_ok, line_typed. cbn. by rewrite Hs, Ht.
Qed.

Lemma line_for_label ms seq t l :
  seq_ok seq = true → image t → image l → line_for ms (MutLabel seq t (Some l)).
Proof.
  intros Hs Hi Hl. destruct (image_back t Hi) as [Hb Ht]. destruct (image_back l Hl) as [Hb' Ht'].
  eexists. split; [done|]. cbn. rewrite Hb, Hb'. split; [done|]. unfold line_ok, line_typed. cbn. by rewrite Hs, Ht, Ht'.
Qed.

Lemma entryMutations_elem seq copied m :
  m ∈ entryMutations seq copied → ∃ e i, e ∈ copied ∧ m = MutEntry None (with_seq e i).
Proof.
  revert seq. induction copied as [|e copied IH]; intros seq; cbn; [by intros ?%elem_of_nil|].
  intros [->|Hin]%elem_of_cons; [exists e, seq; split; [left|done]|].
  destruct (IH _ Hin) as (e' & i & He & ->). exists e', i. split; [by right|done].
Qed.

Lemma laneMutations_elem seq pointers m :
  m ∈ laneMutations seq pointers → ∃ lane leaf i, (lane, leaf) ∈ pointers ∧ m = MutLane i lane leaf.
Proof.
  revert seq. induction pointers as [|[lane leaf] pointers IH]; intros seq; cbn; [by intros ?%elem_of_nil|].
  intros [->|Hin]%elem_of_cons; [exists lane, leaf, seq; split; [left|done]|].
  destruct (IH _ Hin) as (l & lf & i & He & ->). exists l, lf, i. split; [by right|done].
Qed.

Lemma labelMutations_elem s seq copied m :
  m ∈ labelMutations s seq copied → ∃ e l i, labels s !! e_id e = Some l ∧ m = MutLabel i (e_id e) (Some l).
Proof.
  revert seq. induction copied as [|e copied IH]; intros seq; cbn; [by intros ?%elem_of_nil|].
  destruct (labels s !! e_id e) as [l|] eqn:El; [|apply IH].
  intros [->|Hin]%elem_of_cons; [by exists e, l, seq|]. by eapply IH.
Qed.

(** Accepted mutations are numbered consecutively. *)
Lemma rfold_sequence mus s s' :
  rfold applyMutation s mus = Ok s' →
  Forall (λ m, sequence s < mut_seq m ≤ sequence s + Z.of_nat (length mus)) mus.
Proof.
  revert s. induction mus as [|m mus IH]; intros s; [constructor|]. cbn [rfold].
  intros (s1 & Ha & Hr)%rbind_Ok. pose proof (applyMutation_sequence _ _ _ Ha) as Hs.
  unfold applyMutation in Ha. destruct (Z.eqb_spec (mut_seq m) (sequence s + 1)) as [E|]; [|done].
  constructor; [cbn [length]; lia|]. specialize (IH _ Hr). rewrite Forall_forall in IH |- *.
  intros m' Hm'. specialize (IH m' Hm'). cbn [length]. lia.
Qed.

(** Every copied entry is one of the session's. *)
Lemma selection_entries s options copied pointers :
  WF s → selection s options copied pointers → ∀ e, e ∈ copied → e ∈ entries s.
Proof.
  intros Hwf Hsel e He. destruct options as [entryId pos|]; cbn in Hsel; [|destruct Hsel; by subst].
  destruct Hsel as (target & _ & Hc). destruct target as [t|]; [|by subst; apply elem_of_nil in He].
  destruct Hc as (e0 & path & He0 & Hch & ->). rewrite elem_of_reverse in He.
  apply (wf_byId s Hwf) in He0 as [Hin _]. clear -Hwf Hch He Hin.
  induction Hch as [e0 Hp|e0 p q path Hp Hq Hch IH].
  - apply list_elem_of_singleton in He. by subst.
  - apply elem_of_cons in He as [->|He]; [done|]. apply IH; [|done]. by apply (wf_byId s Hwf) in Hq as [? _].
Qed.

Lemma selection_images ms s options copied pointers lane leaf :
  WF s → recorded ms s → Forall (λ m, line_ok m = true) ms →
  selection s options copied pointers → (lane, leaf) ∈ pointers →
  image lane ∧ ∀ id, leaf = Some id → image id.
Proof.
  intros Hwf Hrec Hok Hsel Hin. destruct options as [entryId pos|]; cbn in Hsel.
  - destruct Hsel as (target & -> & Hc). apply list_elem_of_singleton in Hin as [= -> ->]. split; [apply image_main|].
    intros id ->. destruct Hc as (e & path & He & _). apply (wf_byId s Hwf) in He as [He <-].
    destruct (entry_object_of ms s e Hwf Hrec Hok He) as (l & o & _ & Hv & Hl).
    unfold line_ok in Hl. rewrite !andb_true_iff in Hl. destruct Hl as (_ & Hb & _). unfold body_ok in Hb.
    rewrite !andb_true_iff in Hb. destruct Hb as [[Hj _] _].
    unfold entryView in Hv. apply bind_Some in Hv as (i & Hi & Hv).
    do 4 (apply bind_Some in Hv as (? & _ & Hv)). injection Hv as <-. by eapply text_of_field.
  - destruct Hsel as [_ ->]. by apply (rec_lanes _ _ Hrec).
Qed.

Lemma fork_lines_for ms s options copied pointers mus f :
  WF s → recorded ms s → Forall (λ m, line_ok m = true) ms →
  selection s options copied pointers → forkSelection s options = Ok (copied, pointers) →
  createForkMutations s options = Ok mus → rfold applyMutation new_SessionState mus = Ok f →
  Z.of_nat (length mus) ≤ MAX_SAFE → Forall (line_for ms) mus.
Proof.
  intros Hwf Hrec Hok Hsel Hfs Hc Hr Hle. pose proof (rfold_sequence _ _ _ Hr) as Hseq.
  unfold createForkMutations in Hc. rewrite Hfs in Hc. cbn [rbind] in Hc. injection Hc as <-.
  rewrite Forall_forall in Hseq |- *. intros m Hm.
  assert (seq_ok (mut_seq m) = true) as Hs by (specialize (Hseq m Hm); cbn in Hseq; unfold seq_ok; lia).
  clear Hseq. apply elem_of_app in Hm as [Hm|Hm].
  { apply entryMutations_elem in Hm as (e & i & He & ->). eapply line_for_entry; [done..| |done].
    by eapply selection_entries. }
  apply elem_of_app in Hm as [Hm|Hm].
  { apply laneMutations_elem in Hm as (lane & leaf & i & Hin & ->).
    destruct (selection_images _ _ _ _ _ _ _ Hwf Hrec Hok Hsel Hin). by apply line_for_lane. }
  assert (∀ k, m ∈ labelMutations s k copied → line_for ms m) as Hlab.
  { intros k (e & l & i & Hl & ->)%labelMutations_elem. destruct (rec_labels _ _ Hrec _ _ Hl). by apply line_for_label. }
  destruct (name s) as [nm|] eqn:En; [|by eapply Hlab].
  apply elem_of_cons in Hm as [->|Hm]; [|by eapply Hlab]. apply line_for_name; [done|].
  by apply (rec_name _ _ Hrec).
Qed.

Lemma lines_replay ms mus s f md :
  Forall (line_for ms) mus → rfold applyMutation s mus = Ok f →
  ∃ lines, mapM (fork_line ms) mus = Some lines ∧ Forall (λ m, line_ok m = true) lines ∧
    ∀ acc, rfold applyLine (mkJsonl md s acc) lines = Ok (mkJsonl md f (acc ++ lines)).
Proof.
  intros Hfor. revert s. induction Hfor as [|mu mus (l & Hl & Hv & Hok) _ IH]; intros s; cbn [rfold].
  - intros [= <-]. exists []. split; [done|]. split; [constructor|]. intros acc. cbn. by rewrite app_nil_r.
  - intros (s1 & Ha & Hr)%rbind_Ok. destruct (IH _ Hr) as (lines & Hm & Hoks & Hrep).
    exists (l :: lines). split; [cbn; by rewrite Hl, Hm|]. split; [by constructor|].
    intros acc. cbn [rfold]. unfold applyLine at 1. cbn [js_state js_metadata js_lines]. rewrite Hv, Ha. cbn [rbind].
    rewrite Hrep. by rewrite <- app_assoc.
Qed.

(** ** Writing the fork *)

Section fork.
Context {F : Type} `{FsLaws F}.
Implicit Types f : F.

Lemma create_spec p h f f' r :
  header_ok h = true → create p h f = (f', r) →
  (∀ q, q ≠ p → files f' !! q = files f !! q) ∧
  match r with
  | Ok st => ∃ mt, st = new_JsonlSessionStorage (metadataFromHeader h p mt) ∧ durable f' h st
  | Err e => io_failure e
  end.
Proof.
  intros Hh Hc. unfold create in Hc.
  destruct (fileResult (writeFile p (encodeHeader h)) "initialize" f) as [f1 [[]|e]] eqn:Ew.
  - unfold io_bind at 1 in Hc. rewrite Ew in Hc. apply fileResult_Ok, write_law in Ew as [Ho Hw].
    specialize (Hw eq_refl). unfold io_bind in Hc.
    destruct (fileResult (fileInfo p) "metadata" f1) as [f2 [info|e]] eqn:Ei.
    + injection Hc as <- <-. apply fileResult_Ok, info_law in Ei. rewrite Ei. split; [done|].
      exists (fi_mtimeMs info). split; [done|]. split; [done|]. split; [apply history_nil|].
      unfold js_path. cbn [js_metadata new_JsonlSessionStorage jm_path metadataFromHeader js_lines].
      rewrite Ei, Hw, lookup_insert_eq. unfold file_text. by rewrite app_nil_r.
    + injection Hc as <- <-. apply fileResult_Err in Ei as [[c Ei] He]. apply info_law in Ei. rewrite Ei. done.
  - unfold io_bind at 1 in Hc. rewrite Ew in Hc. injection Hc as <- <-.
    apply fileResult_Err in Ew as [[c Ew] He]. by apply write_law in Ew as [Ho _].
Qed.

Lemma fold_commit_spec h lines f st f' r st1 :
  durable f h st → Forall (λ m, line_ok m = true) lines → rfold applyLine st lines = Ok st1 →
  io_fold commit st lines f = (f', r) →
  (∀ q, q ≠ js_path st → files f' !! q = files f !! q) ∧
  match r with Ok st' => st' = st1 ∧ durable f' h st' | Err e => io_failure e end.
Proof.
  intros Hd Hls. revert f st Hd. induction Hls as [|m lines Hm _ IH]; intros f st Hd Hr Hf; cbn in Hr, Hf.
  - injection Hr as <-. injection Hf as <- <-. done.
  - apply rbind_Ok in Hr as (st0 & Ha & Hr). unfold io_bind in Hf. destruct (commit st m f) as [f0 r0] eqn:Ec.
    destruct (commit_spec _ _ _ _ _ _ Hd Hm Ec _ Ha) as [Ho Hs]. destruct r0 as [st'|e].
    + destruct Hs as [-> Hd0]. destruct (IH _ _ Hd0 Hr Hf) as [Ho' Hs']. split; [|done].
      apply applyLine_Ok in Ha as (Hmd & _). unfold js_path in *. rewrite Hmd in Ho'.
      intros q Hq. rewrite Ho' by done. by apply Ho.
    + injection Hf as <- <-. by destruct Hs.
Qed.

(** Populating the staged file. *)
Definition populate (h : JsonlV4Header) (lines : list LineMutation) (tmp : path) : io F unit :=
  let! target := create tmp h in let! _ := io_fold commit target lines in io_ret tt.

Lemma populate_spec h lines s tmp f f' r :
  header_ok h = true → history lines s → populate h lines tmp f = (f', r) →
  (∀ q, q ≠ tmp → files f' !! q = files f !! q) ∧
  match r with Ok _ => files f' !! tmp = Some (file_text h lines) | Err e => io_failure e end.
Proof.
  intros Hh [Hls Hrep] Hp. unfold populate in Hp. unfold io_bind at 1 in Hp.
  destruct (create tmp h f) as [f1 r1] eqn:Ec. destruct (create_spec _ _ _ _ _ Hh Ec) as [Ho Hs].
  destruct r1 as [st|e]; [|by injection Hp as <- <-]. destruct Hs as (mt & -> & Hd).
  unfold io_bind in Hp. destruct (io_fold commit _ lines f1) as [f2 r2] eqn:Ef.
  destruct (fold_commit_spec _ _ _ _ _ _ _ Hd Hls (Hrep _) Ef) as [Ho' Hs'].
  assert (∀ q, q ≠ tmp → files f2 !! q = files f !! q) as Hoth.
  { intros q Hq. rewrite Ho' by done. by apply Ho. }
  destruct r2 as [st'|e]; injection Hp as <- <-; [|done]. destruct Hs' as [-> (_ & _ & Hf)]. split; [done|].
  exact Hf.
Qed.

End fork.

(** The lines of a fork, the session they lead to, and the in-memory fork. *)
Lemma fork_history ms s md md' options mus :
  history ms s → createForkMutations s options = Ok mus → Z.of_nat (length mus) ≤ MAX_SAFE →
  ∃ lines s', mapM (fork_line ms) mus = Some lines ∧ history lines s' ∧
    SessionStore.fork (mkMemory md s) md' options = Ok (mkMemory md' s').
Proof.
  intros Hist Hc Hbound. destruct (history_reachable _ _ Hist) as [Hre _]. pose proof (reachable_WF _ Hre) as Hwf.
  destruct (fork_applies _ options Hre) as [[id Hid]|(cp & pt & ms1 & s' & _ & Hm1 & Hr & _)]; [congruence|].
  assert (ms1 = mus) as -> by congruence.
  destruct (forkSelection_spec _ options Hwf) as [[id Hid]|(copied & pointers & Hfs & Hsel & _)].
  { unfold createForkMutations in Hc. by rewrite Hid in Hc. }
  pose proof (fork_lines_for _ _ _ _ _ _ _ Hwf (history_recorded _ _ Hist) (proj1 Hist) Hsel Hfs Hc Hr Hbound) as Hfor.
  destruct (lines_replay _ _ _ _ (mkJsonlMetadata [] (NInt 0) [] [] 0 4 None None None) Hfor Hr) as (lines & Hm & Hls & Hrep).
  exists lines, s'. split; [done|]. split.
  - split; [done|]. intros md0. specialize (Hrep []). apply (replay_metadata _ _ _ md0) in Hrep. exact Hrep.
  - unfold SessionStore.fork. cbn [state]. rewrite Hc. cbn [rbind]. revert Hr. clear.
    unfold new_InMemorySessionStorage. generalize new_SessionState as s0.
    induction mus as [|m mus IH]; intros s0; cbn; [by intros [= <-]|]. intros (s1 & Ha & Hr)%rbind_Ok.
    unfold mutate at 1. cbn [state metadata]. rewrite Ha. cbn [rbind]. by apply IH.
Qed.

(** The fork, its file and the files it leaves alone. *)
Lemma fork_publishes {F} `{FsLaws F} md md' (f : F) h st p h' options f' r :
  durable f h st → header_ok h' = true →
  (∀ mus, createForkMutations (js_state st) options = Ok mus → Z.of_nat (length mus) ≤ MAX_SAFE) →
  jsonl_fork st p h' options f = (f', r) →
  (∀ q, q ≠ p → q ≠ tempPath p → files f' !! q = files f !! q) ∧
  match SessionStore.fork (memory_of md st) md' options with
  | Err e => r = Err (Thrown e) ∧ f' = f
  | Ok mem =>
      match r with
      | Ok st' => js_state st' = state mem ∧ js_path st' = p ∧ durable f' h' st'
      | Err e => io_failure e ∧ (files f' !! p = files f !! p ∨
          ∃ lines, history lines (state mem) ∧ files f' !! p = Some (file_text h' lines))
      end
  end.
Proof.
  intros (Hh & Hist & Hfile) Hh' Hbound Hfork. unfold memory_of. unfold jsonl_fork in Hfork. unfold io_bind at 1, io_lift at 1 in Hfork.
  destruct (createForkMutations (js_state st) options) as [mus|e] eqn:Hc.
  2: { injection Hfork as <- <-. unfold SessionStore.fork. cbn [state]. by rewrite Hc. }
  destruct (fork_history _ _ md md' options mus Hist Hc (Hbound _ eq_refl)) as (lines & s' & Hm & Hl & ->). cbn [state].
  unfold io_bind at 1, io_typed at 1 in Hfork. rewrite Hm in Hfork. cbn [io_ret] in Hfork.
  unfold io_bind at 1 in Hfork. fold (populate (F:=F) h' lines) in Hfork.
  change (λ tmp, let! target := create tmp h' in let! _ := io_fold commit target lines in io_ret tt) with (populate (F:=F) h' lines) in Hfork.
  destruct (publishFileAtomically p (populate h' lines) f) as [f1 r1] eqn:Hp.
  assert (∀ f2 r2, populate h' lines (tempPath p) f = (f2, r2) → ∀ q, q ≠ tempPath p → files f2 !! q = files f !! q) as Hpop.
  { intros f2 r2 Hpo. by destruct (populate_spec _ _ _ _ _ _ _ Hh' Hl Hpo). }
  destruct (publish_spec _ _ _ _ _ Hp Hpop) as [Ho Hpub]. destruct r1 as [[]|e].
  - destruct Hpub as (f2 & t & Hpo & Ht & Hpf). destruct (populate_spec _ _ _ _ _ _ _ Hh' Hl Hpo) as [_ Htmp].
    assert (t = file_text h' lines) as -> by congruence.
    assert (durable f1 h' (mkJsonl (metadataFromHeader h' p 0) s' lines)) as Hd by (split_and!; done).
    destruct (load_durable f1 h' _ f' r Hd Hfork) as [Hsame Hload]. rewrite Hsame. split; [done|].
    destruct r as [st'|e]; [by destruct Hload as (? & _ & ? & ?)|]. split; [done|]. right. eauto.
  - injection Hfork as <- <-. destruct Hpub as [Hsame He]. split; [done|]. split; [|by left].
    destruct He as [He|[f2 Hpo]]; [done|]. by destruct (populate_spec _ _ _ _ _ _ _ Hh' Hl Hpo) as [_ ?].
Qed.
