(* ===== verification/JsonlClaims.v ===== *)
(** The JSON-lines storage: what its callers and its users can rely on. *)
From S2P Require Import Prelude JsValue JsMap Json JsonSpec JsonlCodec JsonlCodecSpec SessionTypes SessionState SessionSpec SessionView SessionStore SessionStoreSpec FileSystem JsonlStorage JsonlStorageSpec Disk JsonlTheorems JsonlFork.
Open Scope Z_scope.

(** ** Concrete sessions for the witnesses *)

Definition demo_header : JsonlV4Header := mkHeader (js_lit "s1") (NInt 1700000000000) (js_lit "/repo") None None None.
Definition demo_path : path := js_lit "/sessions/s1.jsonl".
Definition demo_entry (id : string) : obj :=
  [(js_lit "type", TText (js_lit "custom")); (js_lit "id", TText (js_lit id)); (js_lit "customType", TText (js_lit "note"));
   (js_lit "data", TMap [(js_lit "n", TNum (NInt 7))])].
Definition demo_disk (faults : list (option (FileErrorCode * nat))) : disk :=
  mkDisk {[ demo_path := encodeHeader demo_header ]} faults.
Definition demo_storage : JsonlSessionStorage :=
  new_JsonlSessionStorage (metadataFromHeader demo_header demo_path 0).
Definition demo_md : SessionMetadata := mkMetadata "s1" 0 None.

Lemma demo_durable faults : durable (demo_disk faults) demo_header demo_storage.
Proof.
  split; [by vm_compute|]. split; [apply history_nil|].
  change (files (demo_disk faults)) with (d_files (demo_disk faults)).
  unfold demo_disk, js_path. cbn [d_files]. rewrite lookup_singleton_eq. unfold file_text. by rewrite app_nil_r.
Qed.

(** ** The codec *)

(** C26: The codec accepts exactly the lines that are JSON objects with the envelope of a
    mutation: a safe positive sequence number and, by kind, for an entry a string id, a
    known type, a parent that is a string or null, a non-negative timestamp and perhaps a
    lane; for a record a string id and lane, a known type and a timestamp; for the others
    their strings.  Of the fields of a type it asks for the customType of a custom entry,
    for an intent of a known kind and for the runId of a finished operation, and for no
    other.  The mutation it gives has this envelope. *)
Theorem decoded_lines_typed line :
  ((∃ m, parseMutation line = Ok m) ↔ ∃ o, JSON_parse line = Some (TMap o) ∧ accepted o = true) ∧
  ∀ m, parseMutation line = Ok m → line_typed m = true.
Proof.
  split; [|apply parseMutation_typed]. pose proof (parse_accepts line) as H.
  destruct (parseMutation line) as [m|e]; cbn in H; destruct (JSON_parse line) as [[| | | | | |o]|]; try done.
  all: split; [intros [m' Hm']|intros (o' & E & Ho)]; try done; simplify_eq; eauto; congruence.
Qed.

Lemma decoded_lines_typed_witness :
  parseMutation (line_text (LineLane 3 (js_lit "side") None)) = Ok (LineLane 3 (js_lit "side") None) ∧
  line_typed (LineLane 3 (js_lit "side") None) = true.
Proof.
  assert (parseMutation (line_text (LineLane 3 (js_lit "side") None)) = Ok (LineLane 3 (js_lit "side") None)) as E
    by (vm_compute; reflexivity).
  split; [exact E|]. exact (proj2 (decoded_lines_typed _) _ E).
Defined.

(** A message entry without a message is accepted as an entry. *)
Definition empty_message : obj :=
  [(js_lit "kind", TText (js_lit "entry")); (js_lit "seq", TNum (NInt 1)); (js_lit "id", TText (js_lit "e")); (js_lit "type", TText (js_lit "message"));
   (js_lit "parentId", TNull); (js_lit "timestamp", TNum (NInt 0))].

Theorem message_unchecked :
  ∃ e, parseMutation (JSON_stringify (TMap empty_message)) = Ok (LineEntry None e) ∧ field e "message" = None.
Proof. eexists. split; [vm_compute; reflexivity|]. vm_compute. reflexivity. Qed.

(** Lines round trip, and a cut line is recognised.  What [encodeMutation]
    writes is one line that [parseMutation] reads back as the same mutation, and
    no strict prefix of it is JSON. *)
Theorem line_roundtrip m :
  line_ok m = true →
  ∃ text, encodeMutation m = text ++ [newline] ∧ newline ∉ text ∧ parseMutation text = Ok m ∧
    ∀ k q, text = k ++ q → q ≠ [] → ∃ msg, parseMutation k = Err (DecodeError syntax msg).
Proof.
  intros Hm. exists (line_text m). split_and!; [done|by apply line_text_newline|by apply line_reads|].
  intros k q Hk Hq. by eapply parse_cut.
Qed.

Lemma line_roundtrip_witness :
  let m := LineEntry (Some (js_lit "main")) (spread (demo_entry "e1") [(js_lit "parentId", TNull); (js_lit "seq", TNum (NInt 1)); (js_lit "timestamp", TNum (NInt 5))]) in
  line_ok m = true ∧
  ∃ text, encodeMutation m = text ++ [newline] ∧ newline ∉ text ∧ parseMutation text = Ok m ∧
    ∀ k q, text = k ++ q → q ≠ [] → ∃ msg, parseMutation k = Err (DecodeError syntax msg).
Proof.
  cbv zeta. assert (line_ok (LineEntry (Some (js_lit "main")) (spread (demo_entry "e1") [(js_lit "parentId", TNull); (js_lit "seq", TNum (NInt 1)); (js_lit "timestamp", TNum (NInt 5))])) = true) as E
    by (vm_compute; reflexivity).
  split; [exact E|]. exact (line_roundtrip _ E).
Defined.

(** C15: The file storage refines the in-memory storage.  On a session whose file
    is its history, and whose sequence is a safe integer that can grow, a call with
    arguments of their declared types that the in-memory storage rejects is rejected
    with the same error and writes nothing; a call it accepts leads to the same session
    state with the file extended by that mutation, or, when the append fails, to
    an unchanged session with a prefix of the line on disk.  No other file is
    touched. *)
Theorem jsonl_simulates {F} `{FsLaws F} md (f : F) h st op sop f' r :
  durable f h st → sequence (js_state st) < MAX_SAFE → op_ok op = true → opView op = Some sop →
  run_jsonl st op f = (f', r) →
  match run_op (memory_of md st) sop with
  | Err e => r = Err (Thrown e) ∧ f' = f
  | Ok mem =>
      (∀ q, q ≠ js_path st → files f' !! q = files f !! q) ∧
      match r with
      | Ok st' => memory_of md st' = mem ∧ js_metadata st' = js_metadata st ∧ durable f' h st'
      | Err e => io_failure e ∧ ∃ m, interrupted f' h st m (state mem)
      end
  end.
Proof. apply jsonl_step. Qed.

Lemma jsonl_simulates_witness :
  let '(f', r) := run_jsonl demo_storage (JAppendEntry 5 (demo_entry "e1") (js_lit "main")) (demo_disk []) in
  match r with Ok st' => durable f' demo_header st' | Err _ => False end.
Proof.
  destruct (run_jsonl demo_storage (JAppendEntry 5 (demo_entry "e1") (js_lit "main")) (demo_disk [])) as [f' r] eqn:E.
  pose proof (jsonl_simulates demo_md (demo_disk []) demo_header demo_storage
    (JAppendEntry 5 (demo_entry "e1") (js_lit "main"))
    (OpAppendEntry 5 (mkProvisioned "e1" (CustomEntry "note" (Some (TMap [(js_lit "n", TNum (NInt 7))])))) "main")
    f' r (demo_durable []) ltac:(vm_compute; reflexivity) ltac:(vm_compute; reflexivity) ltac:(vm_compute; reflexivity) E) as Hs.
  assert (is_Ok r = true) as Hr.
  { replace r with ((run_jsonl demo_storage (JAppendEntry 5 (demo_entry "e1") (js_lit "main")) (demo_disk [])).2)
      by (by rewrite E). vm_compute. reflexivity. }
  destruct r as [st'|e]; [|discriminate Hr].
  destruct (run_op (memory_of demo_md demo_storage) _) as [mem|e]; [by destruct Hs as (_ & _ & _ & ?)|by destruct Hs].
Defined.

(** C20: Appends are atomic across a crash.  If a call's append fails after any
    part of its line was written, reopening the file gives the session as it was
    before the call or as the call would have left it, with the file again exactly
    that session's history; reopening fails only when the file system does, and
    can then be repeated with the same outcome. *)
Theorem crash_atomic {F} `{FsLaws F} md (f : F) h st op sop mem f1 e f2 r :
  durable f h st → sequence (js_state st) < MAX_SAFE → op_ok op = true → opView op = Some sop →
  run_op (memory_of md st) sop = Ok mem →
  run_jsonl st op f = (f1, Err e) → load (js_path st) f1 = (f2, r) →
  match r with
  | Ok st2 => (js_state st2 = js_state st ∨ js_state st2 = state mem) ∧ durable f2 h st2
  | Err e2 => io_failure e2 ∧ ∃ m, interrupted f2 h st m (state mem)
  end.
Proof.
  intros Hd Hlt Hok Hv Hmem Hrun Hload.
  pose proof (jsonl_step md _ _ _ _ _ _ _ Hd Hlt Hok Hv Hrun) as Hs. rewrite Hmem in Hs.
  destruct Hs as (_ & _ & m & Hi). pose proof (load_interrupted _ _ _ _ _ _ _ Hi Hload) as Hl.
  destruct r as [st2|e2]; naive_solver.
Qed.

Lemma crash_atomic_witness :
  let run := run_jsonl demo_storage (JSetName (Some (js_lit "alpha"))) (demo_disk [Some (fe_unknown, 9%nat)]) in
  match (load demo_path run.1).2 with
  | Ok st2 => (js_state st2 = js_state demo_storage ∨ name (js_state st2) = Some "alpha") ∧
              durable (load demo_path run.1).1 demo_header st2
  | Err _ => False
  end.
Proof.
  cbv zeta.
  destruct (run_jsonl demo_storage (JSetName (Some (js_lit "alpha"))) (demo_disk [Some (fe_unknown, 9%nat)])) as [f1 r] eqn:E.
  cbn [fst]. destruct (load demo_path f1) as [f2 r2] eqn:E2. cbn [fst snd].
  assert (is_Ok r = false ∧ is_Ok r2 = true) as [Hr Hr2].
  { replace r2 with ((load demo_path ((run_jsonl demo_storage (JSetName (Some (js_lit "alpha"))) (demo_disk [Some (fe_unknown, 9%nat)])).1)).2)
      by (rewrite E; cbn [fst]; by rewrite E2).
    replace r with ((run_jsonl demo_storage (JSetName (Some (js_lit "alpha"))) (demo_disk [Some (fe_unknown, 9%nat)])).2)
      by (by rewrite E). split; vm_compute; reflexivity. }
  destruct r as [st'|e]; [discriminate Hr|]. destruct r2 as [st2|]; [|discriminate Hr2].
  destruct (crash_atomic demo_md (demo_disk [Some (fe_unknown, 9%nat)]) demo_header demo_storage
    (JSetName (Some (js_lit "alpha"))) (OpSetName (Some "alpha")) (mkMemory demo_md
    (match applyName new_SessionState 1 (Some "alpha") with Ok s => s | Err _ => new_SessionState end)) f1 e f2 (Ok st2)
    (demo_durable _) ltac:(vm_compute; reflexivity) ltac:(vm_compute; reflexivity) ltac:(vm_compute; reflexivity)
    ltac:(reflexivity) E E2) as [Hs Hd].
  split; [|exact Hd]. destruct Hs as [Hs|Hs]; [by left|right]. rewrite Hs. reflexivity.
Defined.

(** A whole session on disk is the session in memory.  On a file system
    without faults, any sequence of calls, rejected ones included, brings the
    file storage to the state the in-memory storage reaches, and opening the file
    afresh succeeds, gives that state again and changes no file. *)
Theorem jsonl_run {F} `{FsLaws F} (steady : F → Prop) md h ops sops (f : F) st :
  Steady steady →
  steady f → durable f h st → mapM opView ops = Some sops → Forall (λ op, op_ok op = true) ops →
  sequence (js_state st) + Z.of_nat (length ops) ≤ MAX_SAFE →
  let fs := exec_jsonl (f, st) ops in
  js_state fs.2 = state (exec (mkMemory md (js_state st)) sops) ∧
  ∃ f' st', load (js_path fs.2) fs.1 = (f', Ok st') ∧ files f' = files fs.1 ∧ js_state st' = js_state fs.2.
Proof.
  intros Hs Hf Hd Hv Hok Hle fs.
  destruct (exec_jsonl_refines steady Hs md h ops sops f st Hf Hd Hv Hok Hle) as (Hf' & Hd' & Hm).
  fold fs in Hf', Hd', Hm. split.
  - unfold memory_of in Hm. by rewrite <- Hm.
  - by apply (load_steady steady Hs _ h).
Qed.

Definition demo_ops : list JsonlOp :=
  [JAppendEntry 5 (demo_entry "e1") (js_lit "main"); JCreateLane (js_lit "main") None; JSetLabel (js_lit "e1") (Some (js_lit "mark"))].

Lemma jsonl_run_witness :
  js_state (exec_jsonl (demo_disk [], demo_storage) demo_ops).2 =
    state (exec (mkMemory demo_md new_SessionState)
      [OpAppendEntry 5 (mkProvisioned "e1" (CustomEntry "note" (Some (TMap [(js_lit "n", TNum (NInt 7))])))) "main";
       OpCreateLane "main" None; OpSetLabel "e1" (Some "mark")]).
Proof.
  refine (proj1 (jsonl_run (λ d : disk, d_faults d = []) demo_md demo_header demo_ops _ (demo_disk []) demo_storage
    _ eq_refl (demo_durable []) _ _ _)).
  - split.
    + intros p t d d' r Hd E. cbn in E. unfold faulty in E. rewrite Hd in E. injection E as <- <-. done.
    + intros p t d d' r Hd Ht E. cbn in E, Ht. unfold query, faulty, disk_read in E. rewrite Hd, Ht in E. injection E as <- <-. done.
    + intros p d d' r Hd [t Ht] E. cbn in E, Ht. unfold query, faulty in E. rewrite Hd, Ht in E. injection E as <- <-. done.
  - vm_compute. reflexivity.
  - repeat constructor.
  - vm_compute. discriminate.
Defined.

(** Forking publishes atomically.  A fork ends with the state of the in-memory
    fork and a file that is its history, or fails with the destination untouched
    or complete; the source and every other file but the staging file stay as
    they were. *)
Theorem fork_atomic {F} `{FsLaws F} md md' (f : F) h st p h' options f' r :
  durable f h st → header_ok h' = true →
  (∀ mus, createForkMutations (js_state st) options = Ok mus → Z.of_nat (length mus) ≤ MAX_SAFE) →
  jsonl_fork st p h' options f = (f', r) →
  (∀ q, q ≠ p → q ≠ tempPath p → files f' !! q = files f !! q) ∧
  match SessionStore.fork (memory_of md st) md' options with
  | Err e => r = Err (Thrown e) ∧ f' = f
  | Ok mem =>
      match r with
      | Ok st' => js_state st' = state mem ∧ js_path st' = p ∧ durable f' h' st'
      | Err e => io_failure e ∧ (files f' !! p = files f !! p ∨
          ∃ lines, history lines (state mem) ∧ files f' !! p = Some (file_text h' lines))
      end
  end.
Proof. apply fork_publishes. Qed.

Definition fork_header : JsonlV4Header :=
  mkHeader (js_lit "s2") (NInt 1700000000001) (js_lit "/repo") (Some (js_lit "s1")) None None.

Lemma fork_atomic_witness :
  let '(f', r) := jsonl_fork demo_storage (js_lit "/sessions/s2.jsonl") fork_header ForkTree (demo_disk [None; Some (fe_unknown, 3%nat)]) in
  is_Ok r = false ∧ files f' !! demo_path = files (demo_disk []) !! demo_path.
Proof.
  destruct (jsonl_fork demo_storage (js_lit "/sessions/s2.jsonl") fork_header ForkTree (demo_disk [None; Some (fe_unknown, 3%nat)]))
    as [f' r] eqn:E.
  destruct (fork_atomic demo_md demo_md (demo_disk [None; Some (fe_unknown, 3%nat)]) demo_header demo_storage (js_lit "/sessions/s2.jsonl")
    fork_header ForkTree f' r (demo_durable _)) as [Ho _]; [vm_compute; reflexivity| |exact E|].
  - intros mus [= <-]. vm_compute. discriminate.
  - split; [|apply Ho; intros H; vm_compute in H; discriminate H].
    replace r with ((jsonl_fork demo_storage (js_lit "/sessions/s2.jsonl") fork_header ForkTree (demo_disk [None; Some (fe_unknown, 3%nat)])).2)
      by (by rewrite E). vm_compute. reflexivity.
Defined.

(** ** A failed append is not repaired in the open session *)

(** A call whose append was cut at the ninth character, then a call that succeeds. *)
Definition torn_run : disk * JsonlSessionStorage :=
  exec_jsonl (demo_disk [Some (fe_unknown, 9%nat)], demo_storage) [JSetName (Some (js_lit "alpha")); JSetName (Some (js_lit "beta"))].

(** After an append that failed part-way the session stays usable, and the next
    call is acknowledged, but its line continues the partial one: reopening the
    file takes the merged line for a torn tail and drops the acknowledged call;
    after a further call the file no longer opens. *)
Theorem torn_append_loses_next :
  name (js_state torn_run.2) = Some "beta" ∧
  match (load demo_path torn_run.1).2 with Ok st => name (js_state st) = None | Err _ => False end ∧
  let third := exec_jsonl torn_run [JSetName (Some (js_lit "gamma"))] in
  name (js_state third.2) = Some "gamma" ∧
  match (load demo_path third.1).2 with Err (Thrown (SessionError invalid_entry _)) => True | _ => False end.
Proof. vm_compute. done. Qed.
