(* ===== verification/JsonlRepo.v ===== *)
(** The repository of session files: [harness/session/jsonl/repo.ts].

    Listing, opening and deleting are methods on the file system, as in
    [JsonlStorage].  Calls of [create] and [fork] may overlap, so they are state
    machines: a step runs a call from one await on the file system to the next, on the
    set of claimed destinations that the calls share.  Joining paths and the resolved
    root do not depend on the files.  [uuidv7] is an argument, and metadata is JSON
    data, which [assertJsonSerializable] accepts. *)
From S2P Require Import Prelude JsValue JsMap Json Regex JsonlCodec SessionTypes SessionState SessionView FileSystem JsonSpec JsonlStorage JsonlStorageSpec Disk.
Open Scope Z_scope.

(** ** Names *)

Definition alphanumeric (u : Z) : bool := is_digit u || is_upper u || is_lower u.
Definition id_unit (u : Z) : bool := alphanumeric u || one_of "._-" u.

Definition SESSION_ID_PATTERN : regex :=
  seq_of [Bol; Class_ alphanumeric; opt (Seq (Star (Class_ id_unit)) (Class_ alphanumeric)); Eol].

Definition validateSessionId (id : jsstr) : result jsonl_error unit :=
  if test SESSION_ID_PATTERN id then Ok tt else Err (Thrown (SessionError invalid_payload "Session id")).

Definition is_separator (u : Z) : bool := (u =? 0x2f) || (u =? 0x5c).

Definition jsonlSessionDirectoryName (cwd : path) : jsstr :=
  let relative := match cwd with u :: rest => if is_separator u then rest else cwd | [] => [] end in
  js_lit "--" ++ ((λ u, if is_separator u || (u =? 0x3a) then 0x2d else u) <$> relative) ++ js_lit "--".

(** *** [Date.prototype.toISOString], for the years 0 to 9999 *)

Fixpoint padded (digits : nat) (z : Z) : jsstr :=
  match digits with O => [] | S digits => padded digits (z / 10) ++ [0x30 + z mod 10] end.

(** The year, month and day of a number of days since 1970-01-01. *)
Definition civil_from_days (days : Z) : Z * Z * Z :=
  let z := days + 719468 in
  let era := z / 146097 in
  let doe := z - era * 146097 in
  let yoe := (doe - doe / 1460 + doe / 36524 - doe / 146096) / 365 in
  let doy := doe - (365 * yoe + yoe / 4 - yoe / 100) in
  let mp := (5 * doy + 2) / 153 in
  let day := doy - (153 * mp + 2) / 5 + 1 in
  let month := if mp <? 10 then mp + 3 else mp - 9 in
  (yoe + era * 400 + (if month <=? 2 then 1 else 0), month, day).

Definition toISOString (ms : Z) : jsstr :=
  let '(year, month, day) := civil_from_days (ms / 86400000) in
  let t := ms mod 86400000 in
  padded 4 year ++ js_lit "-" ++ padded 2 month ++ js_lit "-" ++ padded 2 day ++ js_lit "T" ++
  padded 2 (t / 3600000) ++ js_lit ":" ++ padded 2 (t / 60000 mod 60) ++ js_lit ":" ++ padded 2 (t / 1000 mod 60) ++ js_lit "." ++
  padded 3 (t mod 1000) ++ js_lit "Z".

Definition sessionFileName (createdAt : Z) (id : jsstr) : jsstr :=
  let timestamp := (λ u, if (u =? 0x3a) || (u =? 0x2e) then 0x2d else u) <$> toISOString createdAt in
  timestamp ++ js_lit "_" ++ id ++ js_lit ".jsonl".

Example file_name : sessionFileName 1700000000123 (js_lit "abc") = js_lit "2023-11-14T22-13-20-123Z_abc.jsonl".
Proof. vm_compute. reflexivity. Qed.

(** ** Reading *)

Section repo.
Context {F : Type} `{FileSystem F}.

Definition jsonlSessionsRoot (sessionsRoot : path) : io F path := fileResult (absolutePath sessionsRoot) "Failed to resolve sessions root".

Definition jsonlSessionDirectory (sessionsRoot cwd : path) : io F path :=
  fileResult (joinPath [sessionsRoot; jsonlSessionDirectoryName cwd]) "Failed to resolve sessions directory".

Definition jsonlSessionDirectories (root : path) (cwd : option path) : io F (list path) :=
  let! sessionsRoot := jsonlSessionsRoot root in
  match cwd with
  | Some cwd =>
      let! resolvedCwd := fileResult (absolutePath cwd) "Failed to resolve session cwd" in
      let! dir := jsonlSessionDirectory sessionsRoot resolvedCwd in
      let! there := fileResult (exists_ dir) "Failed to check sessions directory" in
      io_ret (if there : bool then [dir] else [])
  | None =>
      let! there := fileResult (exists_ sessionsRoot) "Failed to check sessions directory" in
      if negb there then io_ret [] else
      let! infos := fileResult (listDir sessionsRoot) "Failed to list sessions directory" in
      io_ret (fi_path <$> filter (λ e, fi_kind e = directory ∨ fi_kind e = symlink) infos)
  end.

(** The header of a file, if it has one. *)
Definition file_metadata (info : FileInfo) : io F (option JsonlSessionMetadata) :=
  let! lines := fileResult (readTextLines (fi_path info) 1) "Failed to read session header" in
  match lines with
  | [] | [] :: _ => io_ret None
  | firstLine :: _ =>
      match parseHeader firstLine with
      | Err _ => io_ret None
      | Ok header => io_ret (Some (metadataFromHeader header (fi_path info) (fi_mtimeMs info)))
      end
  end.

Definition directory_metadata (metadata : list JsonlSessionMetadata) (dir : path) : io F (list JsonlSessionMetadata) :=
  let! infos := fileResult (listDir dir) "Failed to list sessions directory" in
  io_fold (λ metadata info, let! m := file_metadata info in io_ret (metadata ++ option_list m)) metadata
    (filter (λ e, fi_kind e ≠ FileSystem.directory ∧ endsWith (fi_name e) (js_lit ".jsonl") = true) infos).

Definition listJsonlSessionMetadata (root : path) (cwd : option path) : io F (list JsonlSessionMetadata) :=
  let! directories := jsonlSessionDirectories root cwd in
  let! metadata := io_fold directory_metadata [] directories in
  io_ret (sort_by (λ m, - jm_modifiedAt m) metadata).

Definition loadJsonlSessionStorage (metadata : JsonlSessionMetadata) : io F JsonlSessionStorage :=
  let! there := fileResult (exists_ (jm_path metadata)) "Failed to check session" in
  if negb there then io_throw (Thrown (SessionError not_found "Session not found")) else
  let! st := load (jm_path metadata) in
  if bool_decide (jm_id (js_metadata st) = jm_id metadata) then io_ret st
  else io_throw (Thrown (SessionError invalid_entry "Session id does not match header")).

Definition repo_delete (metadata : JsonlSessionMetadata) : io F unit := fileResult (remove (jm_path metadata)) "Failed to delete session".

(** ** Creating *)

(** The options of [create], and for [fork] the source with the part to take. *)
Record CreateOptions := mkCreate {
  co_id : jsstr; co_cwd : path; co_parentSessionId : option jsstr; co_metadata : option obj;
  co_source : option (JsonlSessionMetadata * ForkOptions) }.

(** Where a call is; [Finished] has the destination and the result. *)
Inductive Phase :=
| Loading
| Resolving (source : option (JsonlSessionStorage * ForkOptions))
| Checking (cwd : path) (source : option (JsonlSessionStorage * ForkOptions))
| Listing (cwd dir : path) (source : option (JsonlSessionStorage * ForkOptions))
| Preparing (cwd : path) (source : option (JsonlSessionStorage * ForkOptions))
| Publishing (cwd : path) (header : JsonlV4Header) (p : path) (source : option (JsonlSessionStorage * ForkOptions))
| Finished (cwd : option path) (r : result jsonl_error JsonlSessionStorage).

Record Call := mkCall { c_options : CreateOptions; c_phase : Phase }.

Definition start_call (options : CreateOptions) : Call :=
  mkCall options (match co_source options with Some _ => Loading | None => Resolving None end).

Definition already_exists_error : jsonl_error := Thrown (SessionError already_exists "Session already exists").

(** [parentSessionId: options.parentSessionId ?? source.id] *)
Definition parent_of (o : CreateOptions) : option jsstr :=
  match co_parentSessionId o with
  | Some id => Some id
  | None => match co_source o with Some (source, _) => Some (jm_id source) | None => None end
  end.

Definition new_header (o : CreateOptions) (createdAt : Z) (cwd : path) : JsonlV4Header :=
  mkHeader (co_id o) (NInt createdAt) cwd (parent_of o) None (co_metadata o).

Definition publish (p : path) (header : JsonlV4Header) (source : option (JsonlSessionStorage * ForkOptions)) : io F JsonlSessionStorage :=
  match source with
  | None => create p header
  | Some (st, options) => jsonl_fork st p header options
  end.

(** [files.some((entry) => entry.kind !== "directory" && entry.name.endsWith(suffix))] *)
Definition has_session (infos : list FileInfo) (id : jsstr) : bool :=
  existsb (λ e, negb (bool_decide (fi_kind e = directory)) && endsWith (fi_name e) (js_lit "_" ++ id ++ js_lit ".jsonl")) infos.

(** A step of a call: the next phase, and what it does to its claim. *)
Inductive Claim := Keep | Take (key : path * jsstr) | Drop (key : path * jsstr).

Definition call_step (root : path) (active : list (path * jsstr)) (now : Z) (c : Call) (f : F) : F * Phase * Claim :=
  let o := c_options c in
  let fail cwd e := (Finished (Some cwd) (Err e), Drop (cwd, co_id o)) in
  match c_phase c with
  | Loading =>
      match co_source o with
      | None => (f, Resolving None, Keep)
      | Some (source, options) =>
          match loadJsonlSessionStorage source f with
          | (f, Ok st) => (f, Resolving (Some (st, options)), Keep)
          | (f, Err e) => (f, Finished None (Err e), Keep)
          end
      end
  | Resolving source =>
      match validateSessionId (co_id o) with
      | Err e => (f, Finished None (Err e), Keep)
      | Ok _ =>
          match fileResult (absolutePath (co_cwd o)) "Failed to resolve session cwd" f with
          | (f, Err e) => (f, Finished None (Err e), Keep)
          | (f, Ok cwd) =>
              if bool_decide ((cwd, co_id o) ∈ active) then (f, Finished None (Err already_exists_error), Keep)
              else (f, Checking cwd source, Take (cwd, co_id o))
          end
      end
  | Checking cwd source =>
      match jsonlSessionDirectory root cwd f with
      | (f, Err e) => let '(p, k) := fail cwd e in (f, p, k)
      | (f, Ok dir) =>
          match fileResult (exists_ dir) "Failed to check sessions directory" f with
          | (f, Err e) => let '(p, k) := fail cwd e in (f, p, k)
          | (f, Ok there) => (f, if there : bool then Listing cwd dir source else Preparing cwd source, Keep)
          end
      end
  | Listing cwd dir source =>
      match fileResult (listDir dir) "Failed to list sessions directory" f with
      | (f, Err e) => let '(p, k) := fail cwd e in (f, p, k)
      | (f, Ok infos) =>
          if has_session infos (co_id o) then let '(p, k) := fail cwd already_exists_error in (f, p, k)
          else (f, Preparing cwd source, Keep)
      end
  | Preparing cwd source =>
      let prepared :=
        (let! dir := jsonlSessionDirectory root cwd in
         let! p := fileResult (joinPath [dir; sessionFileName now (co_id o)]) "Failed to resolve path" in
         let! _ := fileResult (createDir dir) "Failed to create sessions directory" in
         io_ret p) f in
      match prepared with
      | (f, Err e) => let '(p, k) := fail cwd e in (f, p, k)
      | (f, Ok p) => (f, Publishing cwd (new_header o now cwd) p source, Keep)
      end
  | Publishing cwd header p source =>
      let '(f, r) := publish p header source f in (f, Finished (Some cwd) r, Drop (cwd, co_id o))
  | Finished cwd r => (f, Finished cwd r, Keep)
  end.

(** ** The repository's calls *)

Record Repo := mkRepo { activeCreateDestinations : list (path * jsstr); rp_calls : list Call }.

Definition apply_claim (active : list (path * jsstr)) (claim : Claim) : list (path * jsstr) :=
  match claim with
  | Keep => active
  | Take key => active ++ [key]
  | Drop key => filter (λ k, k ≠ key) active
  end.

Definition repo_step (root : path) (now : Z) (i : nat) (r : Repo) (f : F) : option (Repo * F) :=
  match rp_calls r !! i with
  | None => None
  | Some c =>
      let '(f, phase, claim) := call_step root (activeCreateDestinations r) now c f in
      Some (mkRepo (apply_claim (activeCreateDestinations r) claim) (<[i := mkCall (c_options c) phase]> (rp_calls r)), f)
  end.

Definition repo_call (o : CreateOptions) (r : Repo) : Repo := mkRepo (activeCreateDestinations r) (rp_calls r ++ [start_call o]).
End repo.

(** * Properties *)

(** What the documentation of [FileSystem] says of directories: joining is a function of
    the segments, a directory's files are among its listed children, and what does not
    exist has none. *)
Class DirLaws (F : Type) `{FsLaws F} := {
  join_of : list path → path;
  join_law ps f f' r : joinPath ps f = (f', r) → files f' = files f ∧ ∀ p, r = Ok p → p = join_of ps;
  exists_dir_law dir f f' : exists_ dir f = (f', Ok false) → ∀ n, 0x2f ∉ n → n ≠ [] → files f !! join_of [dir; n] = None;
  list_dir_law dir f f' infos : listDir dir f = (f', Ok infos) → ∀ n, 0x2f ∉ n → n ≠ [] → is_Some (files f !! join_of [dir; n]) →
    ∃ i, i ∈ infos ∧ fi_name i = n ∧ fi_kind i ≠ directory;
}.

(** ** Names *)

Lemma id_no_slash id : test SESSION_ID_PATTERN id = true → 0x2f ∉ id.
Proof.
  intros (pre & post & s' & -> & Hr)%test_spec. unfold SESSION_ID_PATTERN in Hr. cbn [seq_of] in Hr.
  apply reach_Seq in Hr as (s1 & H1 & Hr). apply reach_Bol in H1 as [Hb ->]. cbn in Hb. apply bool_decide_eq_true in Hb as ->. cbn [app].
  assert (∀ u, alphanumeric u = true → u ≠ 0x2f) as Ha by (intros u Hu ->; discriminate Hu).
  assert (∀ u, id_unit u = true → u ≠ 0x2f) as Hi by (intros u Hu ->; vm_compute in Hu; discriminate Hu).
  apply reach_Seq in Hr as (s1 & H1 & Hr). apply reach_Class in H1 as (c & t & Hc & Hl & ->). cbn in Hl. subst post.
  apply reach_Seq in Hr as (s2 & H2 & H3). apply reach_Eol in H3 as [Hl ->]. unfold opt in H2. apply reach_Alt in H2 as [H2|H2].
  - apply reach_Seq in H2 as (s3 & H3 & H4). apply reach_star_class in H3 as (w & t' & Hw & Hl1 & ->). apply reach_Class in H4 as (d & t'' & Hd & Hl2 & ->).
    cbn in *. subst. rewrite elem_of_cons, elem_of_app. intros [E|[Hin|Hin]].
    + by apply (Ha c Hc).
    + rewrite forallb_forall in Hw. apply (Hi 0x2f); [|done]. apply Hw. by apply list_elem_of_In.
    + apply list_elem_of_singleton in Hin. by apply (Ha d Hd).
  - apply reach_Eps in H2 as ->. cbn in Hl. subst t. intros Hin%list_elem_of_singleton. by apply (Ha c Hc).
Qed.

Lemma padded_no_slash n z : 0x2f ∉ padded n z.
Proof.
  revert z. induction n as [|n IH]; intros z; cbn [padded]; [apply not_elem_of_nil|]. rewrite elem_of_app. intros [Hin|Hin%list_elem_of_singleton]; [by eapply IH|].
  pose proof (Z.mod_pos_bound z 10). lia.
Qed.

(** A literal without slashes. *)
Ltac no_slash Hin := match type of Hin with 0x2f ∈ ?l => refine (bool_decide_eq_true_1 (0x2f ∉ l) _ Hin); vm_compute; reflexivity end.

Lemma file_name_ok now id : 0x2f ∉ id → 0x2f ∉ sessionFileName now id ∧ sessionFileName now id ≠ [].
Proof.
  intros Hid. split; [|unfold sessionFileName; intros E%(f_equal length); rewrite !length_app in E; cbn in E; lia].
  unfold sessionFileName, toISOString. destruct (civil_from_days _) as [[y m] d].
  assert (∀ s : jsstr, 0x2f ∉ s → 0x2f ∉ (λ u, if (u =? 0x3a) || (u =? 0x2e) then 0x2d else u : Z) <$> s) as Hmap.
  { intros s Hs (u & Hu & Hin)%list_elem_of_fmap. destruct (_ || _); [done|]. by subst. }
  rewrite !elem_of_app. intros [Hin|[Hin|[Hin|Hin]]]; [revert Hin; apply Hmap|no_slash Hin|by apply Hid|no_slash Hin].
  rewrite !elem_of_app. pose proof padded_no_slash as Hp. intros Hin.
  repeat match type of Hin with _ ∨ _ => destruct Hin as [Hin|Hin] end; first [by eapply Hp|no_slash Hin].
Qed.

Lemma file_name_suffix now id : endsWith (sessionFileName now id) (js_lit "_" ++ id ++ js_lit ".jsonl") = true.
Proof. unfold endsWith, sessionFileName. apply bool_decide_eq_true. by apply suffix_app_r. Qed.

(** ** Publishing *)

Section exclusion.
Context {F : Type} `{DirLaws F}.
Implicit Types f : F.

(** A loaded file is there, repaired or not. *)
Lemma load_there p f f' st : load p f = (f', Ok st) → is_Some (files f' !! p).
Proof.
  unfold load. intros (f1 & t & E1%fileResult_Ok & E)%bind_Ok. apply read_law in E1 as [Ef1 Ht]. specialize (Ht t eq_refl).
  destruct (physicalLines t) as [|first rest]; [done|]. case_bool_decide; [done|]. destruct (parseHeader first) as [h|[kind why]]; [|done].
  apply bind_Ok in E as (f2 & info & E2%fileResult_Ok%info_law & E). rewrite <- Ef1, <- E2 in Ht.
  destruct (replayLines _ rest) as [st'|st'|e]; [| |done].
  - destruct (ends_with_newline t); [injection E as <- _; by rewrite Ht|]. apply bind_Ok in E as (f3 & [] & E3%fileResult_Ok & [= <- _]).
    apply append_law in E3 as [E3 _]. rewrite (E3 eq_refl), lookup_insert_eq. done.
  - apply bind_Ok in E as (f3 & [] & E3 & [= <- _]). apply publish_spec in E3 as [_ (f4 & t' & _ & _ & Hp)]; [by rewrite Hp|].
    intros f4 [[]|e] E4; [apply fileResult_Ok in E4|apply fileResult_Err in E4 as [[c E4] _]]; by apply write_law in E4 as [? _].
Qed.

Lemma publish_there p h source f f' st : publish p h source f = (f', Ok st) → is_Some (files f' !! p).
Proof.
  destruct source as [[src o]|]; cbn [publish].
  - unfold jsonl_fork. intros (f1 & ms & _ & E)%bind_Ok. apply bind_Ok in E as (f2 & ls & _ & E). apply bind_Ok in E as (f3 & [] & _ & E). by eapply load_there.
  - unfold create. intros (f1 & [] & E1%fileResult_Ok & E)%bind_Ok. apply bind_Ok in E as (f2 & info & E2%fileResult_Ok%info_law & [= <- _]).
    apply write_law in E1 as [_ E1]. rewrite E2, (E1 eq_refl), lookup_insert_eq. done.
Qed.
(** ** Destinations *)

(** The destination a call has claimed, has found free, and has made. *)
Definition held (c : Call) : option (path * jsstr) :=
  match c_phase c with
  | Checking cwd _ | Listing cwd _ _ | Preparing cwd _ | Publishing cwd _ _ _ => Some (cwd, co_id (c_options c))
  | _ => None
  end.

Definition checked (c : Call) : option (path * jsstr) :=
  match c_phase c with Preparing cwd _ | Publishing cwd _ _ _ => Some (cwd, co_id (c_options c)) | _ => None end.

Definition made (c : Call) : option (path * jsstr) :=
  match c_phase c with Finished (Some cwd) (Ok _) => Some (cwd, co_id (c_options c)) | _ => None end.

Definition directory_of (root cwd : path) : path := join_of [root; jsonlSessionDirectoryName cwd].

(** A session file of the destination. *)
Definition session_file (root : path) (key : path * jsstr) (p : path) : Prop := ∃ now, p = join_of [directory_of root key.1; sessionFileName now key.2].

Record call_ok (root : path) (f : F) (c : Call) : Prop := {
  ok_id k : held c = Some k ∨ made c = Some k → 0x2f ∉ k.2;
  ok_dir cwd dir source : c_phase c = Listing cwd dir source → dir = directory_of root cwd;
  ok_path cwd h p source : c_phase c = Publishing cwd h p source → session_file root (cwd, co_id (c_options c)) p;
  ok_made k : made c = Some k → ∃ p, session_file root k p ∧ is_Some (files f !! p);
}.

(** No session file disappears. *)
Definition kept (f f' : F) : Prop := ∀ root key p, session_file root key p → is_Some (files f !! p) → is_Some (files f' !! p).

Lemma call_ok_kept root f f' c : call_ok root f c → kept f f' → call_ok root f' c.
Proof. intros [? ? ? Hm] Hk. split; try done. intros k (p & Hp & Hf)%Hm. exists p. split; [done|]. by eapply Hk. Qed.

(** An unlisted destination has not been made. *)
Lemma unlisted root f f' c k infos :
  call_ok root f c → listDir (directory_of root k.1) f = (f', Ok infos) → has_session infos k.2 = false → made c ≠ Some k.
Proof.
  intros Hc El Hn Hm. destruct (ok_made _ _ _ Hc _ Hm) as (p & [now ->] & Hp). destruct (file_name_ok now k.2) as [Hs He]; [eapply ok_id; eauto|].
  destruct (list_dir_law _ _ _ _ El _ Hs He Hp) as (i & Hi & Hname & Hkind). apply not_true_iff_false in Hn. apply Hn. unfold has_session.
  apply existsb_exists. exists i. split; [by apply list_elem_of_In|]. rewrite (bool_decide_eq_false_2 _ Hkind), Hname. apply file_name_suffix.
Qed.

Lemma absent root f f' c k : call_ok root f c → exists_ (directory_of root k.1) f = (f', Ok false) → made c ≠ Some k.
Proof.
  intros Hc El Hm. destruct (ok_made _ _ _ Hc _ Hm) as (p & [now ->] & Hp). destruct (file_name_ok now k.2) as [Hs He]; [eapply ok_id; eauto|].
  rewrite (exists_dir_law _ _ _ El _ Hs He) in Hp. by apply is_Some_None in Hp.
Qed.

(** What a step does to the claims, and to what the call knows. *)
Inductive step_effect (root : path) (f : F) (active : list (path * jsstr)) (c c' : Call) : Claim → Prop :=
| Took k : k ∉ active → held c' = Some k → checked c' = None → made c' = None → step_effect root f active c c' (Take k)
| Kept : held c' = held c → made c' = made c →
    (∀ k, checked c' = Some k → checked c = Some k ∨ ∀ d, call_ok root f d → made d ≠ Some k) → step_effect root f active c c' Keep
| Dropped k : held c = Some k → held c' = None → checked c' = None →
    (∀ k', made c' = Some k' → k' = k ∧ checked c = Some k) → step_effect root f active c c' (Drop k).

Lemma directory_spec root cwd f f' dir : jsonlSessionDirectory root cwd f = (f', Ok dir) → files f' = files f ∧ dir = directory_of root cwd.
Proof. unfold jsonlSessionDirectory. intros E%fileResult_Ok. apply join_law in E as [? E]. split; [done|]. by apply E. Qed.

Lemma call_ok_files root f f' c : files f' = files f → call_ok root f c → call_ok root f' c.
Proof. intros Ef. intros [? ? ? Hm]. split; try done. by rewrite Ef. Qed.

Lemma failed_ok root f o cwd e : call_ok root f (mkCall o (Finished cwd (Err e))).
Proof. split; cbn; [intros k [|]|..]; try done; intros; by destruct cwd. Qed.

Lemma failed_made o cwd e : made (mkCall o (Finished cwd (Err e))) = None.
Proof. by destruct cwd. Qed.

Lemma failed_effect root f active c cwd e k :
  held c = Some k → step_effect root f active c (mkCall (c_options c) (Finished cwd (Err e))) (Drop k).
Proof. intros Hk. apply Dropped; try done. intros k'. by rewrite failed_made. Qed.

(** A call that holds nothing and fails. *)
Lemma refused_effect root f active c e :
  held c = None → made c = None → step_effect root f active c (mkCall (c_options c) (Finished None (Err e))) Keep.
Proof. intros Hh Hm. by apply Kept. Qed.

(** A call that goes on has an identifier without slashes, which is all that is asked
    of it before it has a directory. *)
Lemma waiting_ok root f o ph :
  (∀ k, held (mkCall o ph) = Some k → 0x2f ∉ k.2) → (∀ cwd dir source, ph = Listing cwd dir source → dir = directory_of root cwd) →
  (∀ cwd h p source, ph = Publishing cwd h p source → session_file root (cwd, co_id o) p) → made (mkCall o ph) = None →
  call_ok root f (mkCall o ph).
Proof. intros Hid Hd Hp Hm. split; try done; rewrite Hm; [|done]. intros k [Hk|Hk]; [by apply Hid|done]. Qed.

Lemma loading_step root active now o f f' ph claim :
  call_step root active now (mkCall o Loading) f = (f', ph, claim) →
  call_ok root f' (mkCall o ph) ∧ step_effect root f active (mkCall o Loading) (mkCall o ph) claim.
Proof.
  cbn. destruct (co_source o) as [[source options]|]; [destruct (loadJsonlSessionStorage source f) as [f1 [st|e]]|]; intros [= <- <- <-].
  - split; [by apply waiting_ok|by apply Kept].
  - split; [apply failed_ok|by apply (refused_effect _ _ _ (mkCall o Loading))].
  - split; [by apply waiting_ok|by apply Kept].
Qed.

Lemma resolving_step root active now o source f f' ph claim :
  call_step root active now (mkCall o (Resolving source)) f = (f', ph, claim) →
  call_ok root f' (mkCall o ph) ∧ step_effect root f active (mkCall o (Resolving source)) (mkCall o ph) claim.
Proof.
  cbn [call_step c_options c_phase]. unfold validateSessionId. destruct (test SESSION_ID_PATTERN (co_id o)) eqn:Et.
  2: { intros [= <- <- <-]. split; [apply failed_ok|by apply (refused_effect _ _ _ (mkCall o (Resolving source)))]. }
  destruct (fileResult _ _ f) as [f1 [cwd|e]].
  2: { intros [= <- <- <-]. split; [apply failed_ok|by apply (refused_effect _ _ _ (mkCall o (Resolving source)))]. }
  case_bool_decide as Ha; intros [= <- <- <-].
  - split; [apply failed_ok|by apply (refused_effect _ _ _ (mkCall o (Resolving source)))].
  - split; [|by apply Took]. apply waiting_ok; try done. intros k [= <-]. by apply id_no_slash.
Qed.

Lemma checking_step root active now o cwd source f f' ph claim :
  call_ok root f (mkCall o (Checking cwd source)) → call_step root active now (mkCall o (Checking cwd source)) f = (f', ph, claim) →
  call_ok root f' (mkCall o ph) ∧ step_effect root f active (mkCall o (Checking cwd source)) (mkCall o ph) claim.
Proof.
  intros Hc. cbn [call_step c_options c_phase]. destruct (jsonlSessionDirectory root cwd f) as [f1 [dir|e]] eqn:Ed.
  2: { intros [= <- <- <-]. split; [apply failed_ok|by apply (failed_effect _ _ _ (mkCall o (Checking cwd source)))]. }
  apply directory_spec in Ed as [Ef ->]. destruct (fileResult _ _ f1) as [f2 [there|e]] eqn:Ex; intros [= <- <- <-].
  2: { split; [apply failed_ok|by apply (failed_effect _ _ _ (mkCall o (Checking cwd source)))]. }
  apply fileResult_Ok in Ex. assert (∀ k, Some (cwd, co_id o) = Some k → 0x2f ∉ k.2) as Hid by (intros k [= <-]; apply (ok_id _ _ _ Hc (cwd, co_id o)); by left).
  destruct there; (split; [apply waiting_ok; try done; by intros ??? [= -> <- ->]|]); apply Kept; try done.
  intros k [= <-]. right. intros d Hd. eapply (absent _ f1); [by eapply call_ok_files|exact Ex].
Qed.

Lemma listing_step root active now o cwd dir source f f' ph claim :
  call_ok root f (mkCall o (Listing cwd dir source)) → call_step root active now (mkCall o (Listing cwd dir source)) f = (f', ph, claim) →
  call_ok root f' (mkCall o ph) ∧ step_effect root f active (mkCall o (Listing cwd dir source)) (mkCall o ph) claim.
Proof.
  intros Hc. cbn [call_step c_options c_phase]. pose proof (ok_dir _ _ _ Hc cwd dir source eq_refl) as ->.
  destruct (fileResult _ _ f) as [f1 [infos|e]] eqn:Ex; [destruct (has_session infos (co_id o)) eqn:Es|]; intros [= <- <- <-].
  1, 3: split; [apply failed_ok|by apply (failed_effect _ _ _ (mkCall o (Listing cwd _ source)))].
  apply fileResult_Ok in Ex. split; [apply waiting_ok; try done; intros k [= <-]; apply (ok_id _ _ _ Hc (cwd, co_id o)); by left|].
  apply Kept; try done. intros k [= <-]. right. intros d Hd. by eapply (unlisted _ f).
Qed.

Lemma preparing_step root active now o cwd source f f' ph claim :
  call_ok root f (mkCall o (Preparing cwd source)) → call_step root active now (mkCall o (Preparing cwd source)) f = (f', ph, claim) →
  call_ok root f' (mkCall o ph) ∧ step_effect root f active (mkCall o (Preparing cwd source)) (mkCall o ph) claim.
Proof.
  intros Hc. cbn [call_step c_options c_phase]. destruct ((let! dir := _ in _) f) as [f1 [p|e]] eqn:Ep; intros [= <- <- <-].
  2: { split; [apply failed_ok|by apply (failed_effect _ _ _ (mkCall o (Preparing cwd source)))]. }
  apply bind_Ok in Ep as (f2 & dir & [_ ->]%directory_spec & Ep). apply bind_Ok in Ep as (f3 & q & Ej%fileResult_Ok & Ep).
  apply bind_Ok in Ep as (f4 & [] & _ & [= -> ->]). apply join_law in Ej as [_ Ej]. specialize (Ej p eq_refl).
  split; [apply waiting_ok; try done|].
  - intros k [= <-]. apply (ok_id _ _ _ Hc (cwd, co_id o)). by left.
  - intros cwd' h p' source' [= <- <- <- <-]. exists now. exact Ej.
  - apply Kept; try done. intros k Hk. by left.
Qed.

Lemma publishing_step root active now o cwd h p source f f' ph claim :
  call_ok root f (mkCall o (Publishing cwd h p source)) → call_step root active now (mkCall o (Publishing cwd h p source)) f = (f', ph, claim) →
  call_ok root f' (mkCall o ph) ∧ step_effect root f active (mkCall o (Publishing cwd h p source)) (mkCall o ph) claim.
Proof.
  intros Hc. cbn [call_step c_options c_phase]. destruct (publish p h source f) as [f1 [st|e]] eqn:Ep; intros [= <- <- <-].
  2: { split; [apply failed_ok|by apply (failed_effect _ _ _ (mkCall o (Publishing cwd h p source)))]. }
  split; [split; try done|].
  - intros k [Hk|[= <-]]; [done|]. apply (ok_id _ _ _ Hc (cwd, co_id o)). by left.
  - intros k [= <-]. exists p. split; [by apply (ok_path _ _ _ Hc cwd h p source)|by eapply publish_there].
  - apply Dropped; try done. intros k' [= <-]. done.
Qed.

Lemma call_step_effect root active now c f f' ph claim :
  call_ok root f c → call_step root active now c f = (f', ph, claim) →
  call_ok root f' (mkCall (c_options c) ph) ∧ step_effect root f active c (mkCall (c_options c) ph) claim.
Proof.
  destruct c as [o ph0]. intros Hc. destruct ph0; cbn [c_options]; intros E;
    [by eapply loading_step|by eapply resolving_step|by eapply checking_step|by eapply listing_step|by eapply preparing_step|by eapply publishing_step|].
  injection E as <- <- <-. split; [done|]. by apply Kept; try left.
Qed.

(** ** The invariant *)

Record repo_ok (root : path) (r : Repo) (f : F) : Prop := {
  ok_calls : Forall (call_ok root f) (rp_calls r);
  ok_active i c k : rp_calls r !! i = Some c → held c = Some k → k ∈ activeCreateDestinations r;
  ok_claims i j c d k : rp_calls r !! i = Some c → rp_calls r !! j = Some d → held c = Some k → held d = Some k → i = j;
  ok_free i j c d k : rp_calls r !! i = Some c → rp_calls r !! j = Some d → checked c = Some k → made d ≠ Some k;
  ok_unique i j c d k : rp_calls r !! i = Some c → rp_calls r !! j = Some d → made c = Some k → made d = Some k → i = j;
}.

Lemma checked_held c k : checked c = Some k → held c = Some k.
Proof. unfold checked, held. by destruct (c_phase c). Qed.

Lemma checked_unmade c k k' : checked c = Some k → made c ≠ Some k'.
Proof. unfold checked, made. by destruct (c_phase c). Qed.

Section step.
Context (root : path) (r : Repo) (f f' : F) (i : nat) (c c' : Call) (claim : Claim).
Hypothesis Hr : repo_ok root r f.
Hypothesis Hi : rp_calls r !! i = Some c.
Hypothesis He : step_effect root f (activeCreateDestinations r) c c' claim.

Lemma step_lookup j d : <[i := c']> (rp_calls r) !! j = Some d → (j = i ∧ d = c') ∨ (j ≠ i ∧ rp_calls r !! j = Some d).
Proof. intros [(-> & -> & _)|[? ?]]%list_lookup_insert_Some; [by left|right; by split]. Qed.

Lemma step_active j d k : <[i := c']> (rp_calls r) !! j = Some d → held d = Some k → k ∈ apply_claim (activeCreateDestinations r) claim.
Proof.
  intros [[-> ->]|[Hj Hd]]%step_lookup Hk.
  - destruct He as [k' _ Hh _ _|Hh _ _|k' _ Hh _ _]; cbn; rewrite Hh in Hk; [|by eapply ok_active|done].
    injection Hk as <-. apply elem_of_app. right. by apply list_elem_of_singleton.
  - pose proof (ok_active _ _ _ Hr _ _ _ Hd Hk) as Ha. destruct He as [k' _ _ _ _|_ _ _|k' Hh _ _ _]; cbn; [by apply elem_of_app; left|done|].
    apply list_elem_of_filter. split; [|done]. intros ->. apply Hj. by eapply (ok_claims _ _ _ Hr j i).
Qed.

Lemma step_claim j d k : j ≠ i → rp_calls r !! j = Some d → held c' = Some k → held d ≠ Some k.
Proof.
  intros Hj Hd Hk Hk'. destruct He as [k' Ha Hh _ _|Hh _ _|k' _ Hh _ _]; rewrite Hh in Hk; [|apply Hj; by eapply (ok_claims _ _ _ Hr j i)|done].
  injection Hk as <-. apply Ha. by eapply ok_active.
Qed.

Lemma step_free j d k : rp_calls r !! j = Some d → checked c' = Some k → made d ≠ Some k.
Proof.
  intros Hd Hk. destruct He as [k' _ _ Hc _|_ _ Hc|k' _ _ Hc _]; [by rewrite Hc in Hk| |by rewrite Hc in Hk].
  destruct (Hc k Hk) as [Hck|Hfree]; [by eapply (ok_free _ _ _ Hr i j)|]. apply Hfree. pose proof (ok_calls _ _ _ Hr) as Hall. rewrite Forall_lookup in Hall. by eapply Hall.
Qed.

Lemma step_unfree j d k : j ≠ i → rp_calls r !! j = Some d → checked d = Some k → made c' ≠ Some k.
Proof.
  intros Hj Hd Hk Hm. destruct He as [k' _ _ _ Hn|_ Hn _|k' Hh _ _ Hn].
  - by rewrite Hn in Hm.
  - rewrite Hn in Hm. by apply (ok_free _ _ _ Hr j i d c k).
  - apply Hn in Hm as [-> _]. apply Hj. apply checked_held in Hk. by eapply (ok_claims _ _ _ Hr j i).
Qed.

Lemma step_unique j d k : j ≠ i → rp_calls r !! j = Some d → made d = Some k → made c' ≠ Some k.
Proof.
  intros Hj Hd Hk Hm. destruct He as [k' _ _ _ Hn|_ Hn _|k' _ _ _ Hn].
  - by rewrite Hn in Hm.
  - rewrite Hn in Hm. apply Hj. by eapply (ok_unique _ _ _ Hr j i).
  - apply Hn in Hm as [-> Hc]. by apply (ok_free _ _ _ Hr i j c d k').
Qed.

Lemma repo_step_ok : call_ok root f' c' → kept f f' → repo_ok root (mkRepo (apply_claim (activeCreateDestinations r) claim) (<[i := c']> (rp_calls r))) f'.
Proof.
  intros Hc' Hkept. split; cbn [rp_calls activeCreateDestinations].
  - apply Forall_insert; [|done]. eapply Forall_impl; [by apply Hr|]. intros d Hd. by eapply call_ok_kept.
  - apply step_active.
  - intros j j' d d' k [[-> ->]|[Hj Hd]]%step_lookup [[-> ->]|[Hj' Hd']]%step_lookup Hk Hk'; [done| | |by eapply ok_claims].
    + by apply (step_claim j' d' k) in Hk'.
    + by apply (step_claim j d k) in Hk.
  - intros j j' d d' k [[-> ->]|[Hj Hd]]%step_lookup [[-> ->]|[Hj' Hd']]%step_lookup Hk;
      [by eapply checked_unmade|by eapply step_free|by apply (step_unfree j d)|by apply (ok_free _ _ _ Hr j j' d d')].
  - intros j j' d d' k [[-> ->]|[Hj Hd]]%step_lookup [[-> ->]|[Hj' Hd']]%step_lookup Hk Hk'; [done| | |by eapply ok_unique].
    + by apply (step_unique j' d' k) in Hk'.
    + by apply (step_unique j d k) in Hk.
Qed.
End step.

(** A run of the repository: calls are made, and the calls and the rest of the world
    take steps in any order, without removing a session. *)
Inductive repo_runs (root : path) : Repo → F → Prop :=
| run_start f : repo_runs root (mkRepo [] []) f
| run_call r f o : repo_runs root r f → repo_runs root (repo_call o r) f
| run_step r f now i r' f' : repo_runs root r f → repo_step root now i r f = Some (r', f') → kept f f' → repo_runs root r' f'
| run_world r f f' : repo_runs root r f → kept f f' → repo_runs root r f'.

Lemma start_spec o : held (start_call o) = None ∧ checked (start_call o) = None ∧ made (start_call o) = None.
Proof. unfold start_call. by destruct (co_source o). Qed.

Lemma call_runs_ok root r f o : repo_ok root r f → repo_ok root (repo_call o r) f.
Proof.
  intros Hr. destruct (start_spec o) as (Hh & Hc & Hm).
  assert (∀ j d, (rp_calls r ++ [start_call o]) !! j = Some d → rp_calls r !! j = Some d ∨ d = start_call o) as Hl.
  { intros j d [Hd|[_ Hd]]%lookup_app_Some; [by left|right]. by apply list_lookup_singleton_Some in Hd as [_ <-]. }
  split; cbn [rp_calls activeCreateDestinations repo_call].
  - apply Forall_app_2; [apply Hr|]. apply Forall_singleton. unfold start_call in *. apply waiting_ok; [by rewrite Hh|..]; try done; by destruct (co_source o).
  - intros j d k [Hd| ->]%Hl Hk; [by eapply ok_active|congruence].
  - intros j j' d d' k [Hd| ->]%Hl [Hd'| ->]%Hl Hk Hk'; [by eapply ok_claims|congruence..].
  - intros j j' d d' k [Hd| ->]%Hl [Hd'| ->]%Hl Hk; [by apply (ok_free _ _ _ Hr j j' d d')|rewrite Hm; discriminate|congruence..].
  - intros j j' d d' k [Hd| ->]%Hl [Hd'| ->]%Hl Hk Hk'; [by eapply ok_unique|congruence..].
Qed.

Lemma runs_ok root r f : repo_runs root r f → repo_ok root r f.
Proof.
  induction 1 as [f|r f o _ IH|r f now i r' f' _ IH Hs Hk|r f f' _ IH Hk].
  - split; cbn; [done|..]; intros; exfalso; eapply lookup_nil_Some || idtac; by rewrite lookup_nil in *.
  - by apply call_runs_ok.
  - unfold repo_step in Hs. destruct (rp_calls r !! i) as [c|] eqn:Hi; [|done]. destruct (call_step _ _ _ _ _) as [[f1 ph] claim] eqn:Ec. injection Hs as <- <-.
    pose proof (ok_calls _ _ _ IH) as Hall. rewrite Forall_lookup in Hall. apply call_step_effect in Ec as [Hc He]; [|by eapply Hall].
    by apply (repo_step_ok root r f f1 i c).
  - destruct IH. split; try done. eapply Forall_impl; [done|]. intros d Hd. by eapply call_ok_kept.
Qed.
End exclusion.

(** ** On the disk of [Disk] *)

Lemma strip_self a b : strip a (a ++ b) = Some b.
Proof. induction a as [|u a IH]; cbn; [done|]. by rewrite Z.eqb_refl. Qed.

Lemma children_file d dir n : 0x2f ∉ n → is_Some (d_files d !! join [slash] [dir; n]) → mkInfo n (dir ++ [slash] ++ n) file_ 0 0 ∈ children d dir.
Proof.
  intros Hn [t Ht]. unfold children. apply list_elem_of_fmap. exists (n, false). split; [done|]. apply elem_of_remove_dups, list_elem_of_omap.
  exists (join [slash] [dir; n], t). split; [by apply elem_of_map_to_list|]. cbn [fst]. change (join [slash] [dir; n]) with (dir ++ [slash] ++ n).
  unfold below. rewrite (assoc_L (++)), strip_self, span_all; [done|]. apply forallb_forall. intros u Hu%list_elem_of_In. apply negb_true_iff, Z.eqb_neq. by intros ->.
Qed.

#[export] Program Instance disk_dirs : DirLaws disk := {| join_of := join [slash] |}.
Next Obligation. intros ps d d' r E. change (query d (Ok (join [slash] ps)) = (d', r)) in E. split; [by eapply query_files|]. intros p ->. by apply query_Ok in E as [= <-]. Qed.
Next Obligation.
  intros dir d d' E n Hn _. apply query_Ok in E. injection E as E. apply orb_false_iff in E as [_ E]. apply negb_false_iff, bool_decide_eq_true in E.
  apply eq_None_not_Some. intros Hs. pose proof (children_file d dir n Hn Hs) as Hc. rewrite E in Hc. by apply not_elem_of_nil in Hc.
Qed.
Next Obligation. intros dir d d' infos E n Hn _ Hs. apply query_Ok in E as [= <-]. eexists. split; [by apply children_file|]. by split. Qed.

(** Steps of the calls in an order, on a disk from which no file goes. *)
Fixpoint drive (root : path) (order : list (Z * nat)) (r : Repo) (d : disk) : option (Repo * disk) :=
  match order with
  | [] => Some (r, d)
  | (now, i) :: order =>
      match repo_step root now i r d with
      | Some (r', d') => if bool_decide (dom (d_files d) ⊆ dom (d_files d')) then drive root order r' d' else None
      | None => None
      end
  end.

Lemma drive_runs root order r d r' d' : repo_runs root r d → drive root order r d = Some (r', d') → repo_runs root r' d'.
Proof.
  revert r d. induction order as [|[now i] order IH]; cbn [drive]; intros r d Hr E; [by injection E as <- <-|].
  destruct (repo_step _ _ _ _ _) as [[r1 d1]|] eqn:Es; [|done]. case_bool_decide as Hd; [|done]. eapply IH; [|exact E]. eapply run_step; [done..|].
  intros ? ? p _ Hp. apply elem_of_dom, Hd. by apply elem_of_dom.
Qed.

Definition demo_create (id cwd : string) : CreateOptions := mkCreate (js_lit id) (js_lit cwd) None None None.
Definition demo_repo : Repo := repo_call (demo_create "s1" "/w") (repo_call (demo_create "s1" "/w") (mkRepo [] [])).
Definition demo_root : path := js_lit "/sessions".

(** The second call starts while the first has the destination. *)
Definition demo_order : list (Z * nat) := [(1700000000000, 0%nat); (1700000000000, 0%nat); (1700000000001, 1%nat); (1700000000001, 0%nat); (1700000000002, 0%nat)].

Definition outcome (c : Call) : option (path * jsstr) * option jsonl_error :=
  (made c, match c_phase c with Finished _ (Err e) => Some e | _ => None end).

Example demo_outcome :
  (λ x : Repo * disk, (outcome <$> rp_calls x.1, activeCreateDestinations x.1)) <$> drive demo_root demo_order demo_repo (mkDisk ∅ []) =
  Some ([(Some (js_lit "/w", js_lit "s1"), None); (None, Some already_exists_error)], []).
Proof. vm_compute. reflexivity. Qed.

(** C19: Whatever calls of [create] and [fork] overlap, and however their file operations
    interleave with each other and with other changes of the file system that remove no
    session file, no two of them succeed for the same working directory and identifier. *)
Theorem create_exclusive {F} `{DirLaws F} root r (f : F) i j c d key :
  repo_runs root r f → rp_calls r !! i = Some c → rp_calls r !! j = Some d → made c = Some key → made d = Some key → i = j.
Proof. intros Hr. apply ok_unique with (1 := runs_ok _ _ _ Hr). Qed.

(** The calls of [demo_order] made the session once. *)
Lemma create_exclusive_witness :
  ∃ r d, repo_runs demo_root r d ∧ made <$> rp_calls r !! 0%nat = Some (Some (js_lit "/w", js_lit "s1")) ∧
    ∀ c, rp_calls r !! 1%nat = Some c → made c ≠ Some (js_lit "/w", js_lit "s1").
Proof.
  destruct (drive demo_root demo_order demo_repo (mkDisk ∅ [])) as [[r d]|] eqn:E; [|exfalso; pose proof demo_outcome as Ho; rewrite E in Ho; discriminate Ho].
  assert (repo_runs demo_root r d) as Hr by (eapply drive_runs; [|exact E]; do 2 apply run_call; apply run_start).
  pose proof demo_outcome as Ho. rewrite E in Ho. injection Ho as Ho _. destruct (rp_calls r) as [|c cs] eqn:Ec; [discriminate Ho|]. injection Ho as Hm _ _.
  exists r, d. split; [exact Hr|]. rewrite Ec. split; [cbn; by rewrite Hm|]. intros c' Hc' Hm'.
  assert (0%nat = 1%nat) as Hij by (refine (create_exclusive _ _ _ 0 1 c c' _ Hr _ _ Hm Hm'); by rewrite Ec). discriminate Hij.
Defined.

(** ** Names that collide *)

(** The check for an identifier looks at the end of the file name only, so a session
    whose identifier ends with ["_" ++ id] hides the free identifier [id]. *)
Theorem suffix_refused :
  (λ x : Repo * disk, outcome <$> rp_calls x.1) <$>
    drive demo_root [(1, 0%nat); (1, 0%nat); (1, 0%nat); (1, 0%nat); (2, 1%nat); (2, 1%nat); (2, 1%nat)]
      (repo_call (demo_create "b" "/w") (repo_call (demo_create "a_b" "/w") (mkRepo [] []))) (mkDisk ∅ []) =
  Some [(Some (js_lit "/w", js_lit "a_b"), None); (None, Some already_exists_error)].
Proof. vm_compute. reflexivity. Qed.

(** The name of a directory does not determine the working directory: listing the
    sessions of one shows those of another. *)
Theorem listed_elsewhere :
  match drive demo_root [(1, 0%nat); (1, 0%nat); (1, 0%nat); (1, 0%nat)] (repo_call (demo_create "s1" "/a/b") (mkRepo [] [])) (mkDisk ∅ []) with
  | Some (_, d) => rmap (map jm_cwd) (listJsonlSessionMetadata demo_root (Some (js_lit "/a-b")) d).2
  | None => Err Untyped
  end = Ok [js_lit "/a/b"].
Proof. vm_compute. reflexivity. Qed.
