(* ===== verification/Context.v ===== *)
(** The model's context of a branch: [harness/session/context.ts] and the message
    conversions of [harness/messages.ts].  The entry projectors and transforms are
    callbacks of extensions, arguments here as there. *)
From stdpp Require Import pretty.
From S2P Require Import Prelude JsValue SessionTypes SessionState SessionSpec SessionQueries.
Open Scope Z_scope.

(** ** Messages *)

Notation nl := (String (Ascii.ascii_of_nat 10) EmptyString).
Notation backtick := (String (Ascii.ascii_of_nat 96) EmptyString).

Definition concat_strings (ss : list string) : string := foldr String.append EmptyString ss.

Definition COMPACTION_SUMMARY_PREFIX : string :=
  concat_strings ["The conversation history before this point was compacted into the following summary:"; nl; nl; "<summary>"; nl].
Definition COMPACTION_SUMMARY_SUFFIX : string := concat_strings [nl; "</summary>"].
Definition BRANCH_SUMMARY_PREFIX : string :=
  concat_strings ["The following is a summary of a branch that this conversation came back from:"; nl; nl; "<summary>"; nl].
Definition BRANCH_SUMMARY_SUFFIX : string := "</summary>".

Definition bashExecutionToText (msg : BashExecutionMessage) : string :=
  let text := concat_strings ["Ran "; backtick; be_command msg; backtick; nl] in
  let text :=
    if negb (bool_decide (be_output msg = EmptyString))
    then concat_strings [text; backtick; backtick; backtick; nl; be_output msg; nl; backtick; backtick; backtick]
    else concat_strings [text; "(no output)"] in
  let text :=
    if be_cancelled msg then concat_strings [text; nl; nl; "(command cancelled)"] else
    match be_exitCode msg with
    | Some code =>
        if negb (code =? 0) then concat_strings [text; nl; nl; "Command exited with code "; pretty code] else text
    | None => text
    end in
  match be_truncated msg, be_fullOutputPath msg with
  | true, Some path =>
      if negb (bool_decide (path = EmptyString))
      then concat_strings [text; nl; nl; "[Output truncated. Full output: "; path; "]"] else text
  | _, _ => text
  end.

Definition createBranchSummaryMessage (summary fromId : string) (timestamp : Z) : AgentMessage :=
  BranchSummaryMessage summary fromId timestamp.

Definition createCompactionSummaryMessage (summary : string) (tokensBefore timestamp : Z) : AgentMessage :=
  CompactionSummaryMessage summary tokensBefore timestamp.

Definition createCustomMessage (customType : string) (content : TextOrContent) (display : bool)
    (details : option json) (timestamp : Z) : AgentMessage :=
  CustomMessage customType content display details timestamp.

Definition userText (text : string) (timestamp : Z) : AgentMessage := UserMessage (Parts [ContentText text]) timestamp.

Definition messageToLlm (m : AgentMessage) : option AgentMessage :=
  match m with
  | BashExecution b =>
      if be_excludeFromContext b then None else Some (userText (bashExecutionToText b) (be_timestamp b))
  | CustomMessage _ content _ _ timestamp =>
      Some (UserMessage (match content with PlainText text => Parts [ContentText text] | Parts c => Parts c end) timestamp)
  | BranchSummaryMessage summary _ timestamp =>
      Some (userText (concat_strings [BRANCH_SUMMARY_PREFIX; summary; BRANCH_SUMMARY_SUFFIX]) timestamp)
  | CompactionSummaryMessage summary _ timestamp =>
      Some (userText (concat_strings [COMPACTION_SUMMARY_PREFIX; summary; COMPACTION_SUMMARY_SUFFIX]) timestamp)
  | UserMessage _ _ | AssistantMsg _ | ToolResultMessage _ _ _ => Some m
  end.

Definition convertToLlm (messages : list AgentMessage) : list AgentMessage := omap messageToLlm messages.

(** ** The context *)

Record ContextState := mkContextState {
  c_thinkingLevel : string;
  c_model : option (string * string);            (* provider, modelId *)
  c_activeToolNames : option (list string);
}.

Definition deriveStep (c : ContextState) (e : Entry) : ContextState :=
  match e_body e with
  | ThinkingLevelEntry level => mkContextState level (c_model c) (c_activeToolNames c)
  | ModelChangeEntry provider modelId => mkContextState (c_thinkingLevel c) (Some (provider, modelId)) (c_activeToolNames c)
  | MessageEntry (AssistantMsg a) _ =>
      mkContextState (c_thinkingLevel c) (Some (am_provider a, am_model a)) (c_activeToolNames c)
  | ActiveToolsEntry names => mkContextState (c_thinkingLevel c) (c_model c) (Some names)
  | _ => c
  end.

Definition deriveSessionContextState (pathEntries : list Entry) : ContextState :=
  foldl deriveStep (mkContextState "off" None None) pathEntries.

(** [for (index = length - 1; index >= 0; index--)]: the newest compaction. *)
Fixpoint findCompaction (pathEntries : list Entry) (index : nat) : option (Entry * nat) :=
  match index with
  | O => None
  | S index =>
      match pathEntries !! index with
      | Some e => if bool_decide (e_type e = compaction) then Some (e, index) else findCompaction pathEntries index
      | None => findCompaction pathEntries index
      end
  end.

Definition defaultContextEntryTransform (pathEntries : list Entry) : list Entry :=
  match findCompaction pathEntries (length pathEntries) with
  | None => pathEntries
  | Some (e, index) => e :: drop (index + 1) pathEntries
  end.

Notation ContextEntryTransform := (list Entry → list Entry).
Notation Projector := (Entry → nat → list Entry → option (list AgentMessage)).

Record SessionContextBuildOptions := mkBuildOptions {
  entryTransforms : list ContextEntryTransform;
  entryProjectors : string → option Projector;
}.

Definition buildContextEntries (pathEntries : list Entry) (options : SessionContextBuildOptions) : list Entry :=
  foldl (λ entries transform, transform entries) (defaultContextEntryTransform pathEntries) (entryTransforms options).

Definition sessionEntryToContextMessages (entry : Entry) (index : nat) (entries : list Entry)
    (options : SessionContextBuildOptions) : list AgentMessage :=
  match e_body entry with
  | MessageEntry (AssistantMsg a) _ =>
      if bool_decide (am_stopReason a = deferred) then [] else [AssistantMsg a]
  | MessageEntry m _ => [m]
  | CompactionEntry summary retainedTail tokensBefore _ _ =>
      createCompactionSummaryMessage summary tokensBefore (e_timestamp entry) :: retainedTail
  | BranchSummaryEntry fromId summary _ _ =>
      if negb (bool_decide (summary = EmptyString))
      then [createBranchSummaryMessage summary fromId (e_timestamp entry)] else []
  | CustomEntry customType _ =>
      match entryProjectors options customType with
      | Some project => default [] (project entry index entries)
      | None => []
      end
  | _ => []
  end.

Definition contextMessages (entries : list Entry) (options : SessionContextBuildOptions) : list AgentMessage :=
  concat (imap (λ index entry, sessionEntryToContextMessages entry index entries options) entries).

Definition buildSessionContext (pathEntries : list Entry) (options : SessionContextBuildOptions) :
    ContextState * list AgentMessage :=
  (deriveSessionContextState pathEntries, contextMessages (buildContextEntries pathEntries options) options).

(** ** Properties *)

Lemma findCompaction_last pre e post n :
  e_type e = compaction → Forall (λ e, e_type e ≠ compaction) post → (n ≤ length post)%nat →
  findCompaction (pre ++ e :: post) (length pre + 1 + n) = Some (e, length pre).
Proof.
  intros He Hpost. induction n as [|n IH]; intros Hn.
  - rewrite Nat.add_0_r, Nat.add_1_r. cbn [findCompaction]. rewrite lookup_app_r, Nat.sub_diag by lia. cbn [lookup list_lookup].
    by rewrite bool_decide_eq_true_2.
  - replace (length pre + 1 + S n)%nat with (S (length pre + 1 + n)) by lia. cbn [findCompaction].
    destruct (lookup_lt_is_Some_2 post n) as [x Hx]; [lia|].
    rewrite lookup_app_r by lia. replace (length pre + 1 + n - length pre)%nat with (S n) by lia.
    change ((e :: post) !! S n) with (post !! n). rewrite Hx.
    rewrite Forall_forall in Hpost. rewrite bool_decide_eq_false_2 by (by apply Hpost; eapply list_elem_of_lookup_2).
    apply IH. lia.
Qed.

Lemma defaultTransform_compaction pre e post :
  e_type e = compaction → Forall (λ e, e_type e ≠ compaction) post →
  defaultContextEntryTransform (pre ++ e :: post) = e :: post.
Proof.
  intros He Hpost. unfold defaultContextEntryTransform.
  replace (length (pre ++ e :: post)) with (length pre + 1 + length post)%nat by (rewrite length_app; simpl; lia).
  rewrite (findCompaction_last pre e post (length post) He Hpost) by lia.
  rewrite cons_middle, app_assoc, drop_app_length'; [done|]. rewrite length_app. simpl. lia.
Qed.

Definition no_options : SessionContextBuildOptions := mkBuildOptions [] (λ _, None).

(** Compaction cuts the context.  The messages of a branch whose newest
    compaction entry is [e] are the compaction's summary, its retained tail, and
    the messages of the entries after it, whatever the history before it was. *)
Theorem context_compaction pre id seq parent ts summary retained before details usage post options :
  Forall (λ e, e_type e ≠ compaction) post →
  entryTransforms options = [] →
  let e := mkEntry id seq parent ts (CompactionEntry summary retained before details usage) in
  (buildSessionContext (pre ++ e :: post) options).2 =
    CompactionSummaryMessage summary before ts :: retained ++
    concat (imap (λ i x, sessionEntryToContextMessages x (S i) (e :: post) options) post).
Proof.
  intros Hpost Ht e. unfold buildSessionContext, buildContextEntries. cbn [snd]. rewrite Ht. cbn [foldl].
  rewrite defaultTransform_compaction by done. unfold contextMessages. rewrite imap_cons. cbn [concat].
  unfold e at 1. cbn. done.
Qed.

Lemma context_compaction_witness :
  (buildSessionContext ([ex_entry "a" 1 None] ++
      mkEntry "k" 2 (Some "a") 9 (CompactionEntry "sum" [] 100 None None) :: [ex_entry "b" 3 (Some "k")]) no_options).2 =
    CompactionSummaryMessage "sum" 100 9 :: [] ++
    concat (imap (λ i x, sessionEntryToContextMessages x (S i)
      (mkEntry "k" 2 (Some "a") 9 (CompactionEntry "sum" [] 100 None None) :: [ex_entry "b" 3 (Some "k")]) no_options)
      [ex_entry "b" 3 (Some "k")]).
Proof.
  apply (context_compaction [ex_entry "a" 1 None] "k" 2 (Some "a") 9 "sum" [] 100 None None [ex_entry "b" 3 (Some "k")] no_options).
  - repeat constructor. discriminate.
  - reflexivity.
Defined.

(** Where a setting comes from: the last entry that carries one. *)
Definition latest {A} (f : Entry → option A) (path : list Entry) : option A :=
  foldl (λ acc e, match f e with Some a => Some a | None => acc end) None path.

Definition sets_thinking (e : Entry) : option string :=
  match e_body e with ThinkingLevelEntry level => Some level | _ => None end.
Definition sets_model (e : Entry) : option (string * string) :=
  match e_body e with
  | ModelChangeEntry p m => Some (p, m)
  | MessageEntry (AssistantMsg a) _ => Some (am_provider a, am_model a)
  | _ => None
  end.
Definition sets_tools (e : Entry) : option (list string) :=
  match e_body e with ActiveToolsEntry names => Some names | _ => None end.

Lemma deriveSessionContextState_eq path :
  deriveSessionContextState path =
  mkContextState (default "off" (latest sets_thinking path)) (latest sets_model path) (latest sets_tools path).
Proof.
  induction path as [|e path IH] using rev_ind; [done|].
  unfold deriveSessionContextState, latest in *. rewrite !foldl_app, IH. cbn [foldl]. unfold deriveStep, sets_thinking, sets_model, sets_tools.
  destruct (e_body e) as [[]| | | | | |]; done.
Qed.

(** The settings of a branch are last-wins over the whole path, compactions
    notwithstanding: the newest thinking level, tool set and model (a model change
    or an assistant message), with "off" and none as defaults. *)
Theorem context_settings path options :
  (buildSessionContext path options).1 =
  mkContextState (default "off" (latest sets_thinking path)) (latest sets_model path) (latest sets_tools path).
Proof. apply deriveSessionContextState_eq. Qed.

(** What reaches the model: only user, assistant and tool-result messages, in
    order; every message but a bash execution excluded from the context is kept. *)
Theorem convertToLlm_spec messages :
  Forall (λ m, role m ∈ [RUser; RAssistant; RToolResult]) (convertToLlm messages) ∧
  length (convertToLlm messages) =
    length (List.filter (λ m, match m with BashExecution b => negb (be_excludeFromContext b) | _ => true end) messages).
Proof.
  unfold convertToLlm. induction messages as [|m messages [IH1 IH2]]; [done|].
  assert (∀ m', messageToLlm m = Some m' → role m' ∈ [RUser; RAssistant; RToolResult]) as Hr.
  { intros m'. destruct m; simpl; try (intros [= <-]; set_solver). case_match; [done|]. intros [= <-]. set_solver. }
  cbn [omap list_omap]. destruct (messageToLlm m) as [m'|] eqn:E.
  - split; [constructor; auto|].
    assert (match m with BashExecution b => negb (be_excludeFromContext b) | _ => true end = true) as Hk.
    { destruct m as [| | |b| | |]; try done. simpl in E. by destruct (be_excludeFromContext b). }
    cbn [List.filter length]. rewrite Hk. cbn [length]. f_equal. exact IH2.
  - split; [done|]. destruct m as [| | |b| | |]; simpl in *; try done. by destruct (be_excludeFromContext b).
Qed.
