(* ===== verification/Retry.v ===== *)
(** Retries of a model call: [cli/packages/ai/src/utils/retry.ts], with the parts of an
    assistant message that [SessionTypes] keeps as JSON data.

    The responses of successive calls and the outcomes of the sleeps between them are
    arguments: [produce n] is what the call number [n] gives ([Err] when it throws),
    [slept n] whether the sleep before retry [n] ends by itself.  Numbers of attempts
    and delays are integers. *)
From S2P Require Import Prelude JsValue JsMap Json Regex SessionTypes.
Open Scope Z_scope.

(** ** The other properties of an assistant message *)

Definition rest_field (m : AssistantMessage) (name : string) : option json :=
  match am_rest m with TMap o => map_get o (js_lit name) | _ => None end.

Definition errorMessage (m : AssistantMessage) : option jsstr :=
  match rest_field m "errorMessage" with Some (TText s) => Some s | _ => None end.

Definition truthy_text (s : option jsstr) : option jsstr := match s with Some [] => None | _ => s end.

(** ** The classification of errors *)

(** Words with [.?] between them, both cases of each letter. *)
Fixpoint gaps (words : list string) : regex :=
  match words with
  | [] => Eps
  | [w] => lit_i w
  | w :: words => Seq (lit_i w) (Seq (opt dot) (gaps words))
  end.

Definition buildProviderErrorPattern (patterns : list regex) : regex := alts patterns.

Definition NON_RETRYABLE_PROVIDER_LIMIT_ERROR_PATTERN : regex := buildProviderErrorPattern (lit_i <$>
  ["GoUsageLimitError"; "FreeUsageLimitError"; "Monthly usage limit reached"; "available balance"; "insufficient_quota";
   "out of budget"; "quota exceeded"; "billing"]).

Definition RETRYABLE_PROVIDER_ERROR_PATTERN : regex := buildProviderErrorPattern
  [gaps ["overloaded"]; gaps ["rate"; "limit"]; gaps ["too many requests"]; gaps ["429"]; gaps ["500"]; gaps ["502"];
   gaps ["503"]; gaps ["504"]; gaps ["524"]; gaps ["service"; "unavailable"]; gaps ["server"; "error"];
   gaps ["internal"; "error"]; gaps ["provider"; "returned"; "error"];
   gaps ["exceeded request buffer limit while retrying upstream"]; gaps ["network"; "error"]; gaps ["connection"; "error"];
   gaps ["connection"; "refused"]; gaps ["connection"; "lost"]; gaps ["other side closed"]; gaps ["fetch failed"];
   gaps ["getaddrinfo"]; gaps ["ENOTFOUND"]; gaps ["EAI_AGAIN"]; gaps ["upstream"; "connect"]; gaps ["reset before headers"];
   gaps ["socket hang up"]; gaps ["socket connection was closed"]; seq_of [lit_i "time"; opt (lit_i "d"); lit_i " out"];
   gaps ["timeout"]; gaps ["terminated"]; gaps ["websocket"; "closed"]; gaps ["websocket"; "error"]; gaps ["ended without"];
   gaps ["stream ended before message_stop"]; gaps ["stream ended before a terminal response event"];
   gaps ["http2 request did not get a response"]; gaps ["retry delay"]; gaps ["you can retry your request"];
   gaps ["try your request again"]; gaps ["please retry your request"]; gaps ["ResourceExhausted"]].

Definition isRetryableAssistantError (message : AssistantMessage) : bool :=
  if negb (bool_decide (am_stopReason message = error_)) then false else
  match truthy_text (errorMessage message) with
  | None => false
  | Some errorMessage =>
      if test NON_RETRYABLE_PROVIDER_LIMIT_ERROR_PATTERN errorMessage then false
      else test RETRYABLE_PROVIDER_ERROR_PATTERN errorMessage
  end.

(** ** The loop *)

Record RetryPolicy := mkPolicy { rp_enabled : bool; rp_maxRetries : Z; rp_baseDelayMs : Z }.

(** What the callbacks are told, and the calls of [produce]. *)
Inductive RetryEvent :=
| Produced
| onRetryScheduled (attempt maxAttempts delayMs : Z) (errorMessage : jsstr)
| onRetryAttemptStart
| onRetryFinished (success : bool) (attempt : Z) (finalError : option jsstr).

(** [{ ...response, stopReason: "aborted", errorMessage: undefined }] *)
Definition as_aborted (response : AssistantMessage) : AssistantMessage :=
  mkAssistant (am_content response) (am_provider response) (am_model response) aborted (am_deferred response)
    (match am_rest response with TMap o => TMap (map_delete o (js_lit "errorMessage")) | r => r end).

Section retry.
Context (produce : nat → result string AssistantMessage) (slept : Z → bool).

Definition finished (lastRetry : option (Z * jsstr)) (success : bool) (finalError : option jsstr) : list RetryEvent :=
  match lastRetry with Some (attempt, _) => [onRetryFinished success attempt finalError] | None => [] end.

Fixpoint retry_loop (fuel : nat) (policy : option RetryPolicy) (maxAttempts attempt : Z) (lastRetry : option (Z * jsstr)) (calls : nat)
    (trace : list RetryEvent) : option (result string AssistantMessage * list RetryEvent) :=
  match fuel with
  | O => None
  | S fuel =>
      let trace := trace ++ [Produced] in
      match produce calls with
      | Err e => Some (Err e, trace)
      | Ok response =>
          if bool_decide (am_stopReason response = aborted) then Some (Ok response, trace ++ finished lastRetry false None) else
          if negb (bool_decide (am_stopReason response = error_)) then Some (Ok response, trace ++ finished lastRetry true None) else
          if (maxAttempts <=? attempt) || negb (isRetryableAssistantError response)
          then Some (Ok response, trace ++ finished lastRetry false (errorMessage response)) else
          let attempt := attempt + 1 in
          let message := default (js_lit "Unknown error") (truthy_text (errorMessage response)) in
          let delayMs := (match policy with Some p => rp_baseDelayMs p | None => 0 end) * 2 ^ (attempt - 1) in
          let trace := trace ++ [onRetryScheduled attempt maxAttempts delayMs message] in
          if slept attempt then
            retry_loop fuel policy maxAttempts attempt (Some (attempt, message)) (S calls) (trace ++ [onRetryAttemptStart])
          else Some (Ok (as_aborted response), trace ++ [onRetryFinished false attempt (Some message)])
      end
  end.

Definition maxAttempts_of (policy : option RetryPolicy) : Z :=
  match policy with Some p => if rp_enabled p then rp_maxRetries p else 0 | None => 0 end.

(** One call more than retries is enough. *)
Definition retry_fuel (policy : option RetryPolicy) : nat := S (Z.to_nat (maxAttempts_of policy)).

Definition retryAssistantCall (policy : option RetryPolicy) : option (result string AssistantMessage * list RetryEvent) :=
  retry_loop (retry_fuel policy) policy (maxAttempts_of policy) 0 None 0 [].

(** ** What the loop does *)

Definition transient (r : result string AssistantMessage) : bool :=
  match r with Ok response => isRetryableAssistantError response | Err _ => false end.

Definition calls_in_trace (trace : list RetryEvent) : nat := length (List.filter (λ e, match e with Produced => true | _ => false end) trace).
Definition finishes (trace : list RetryEvent) : nat :=
  length (List.filter (λ e, match e with onRetryFinished _ _ _ => true | _ => false end) trace).

Lemma calls_in_app t1 t2 : calls_in_trace (t1 ++ t2) = (calls_in_trace t1 + calls_in_trace t2)%nat.
Proof. unfold calls_in_trace. by rewrite List.filter_app, length_app. Qed.

Lemma finishes_app t1 t2 : finishes (t1 ++ t2) = (finishes t1 + finishes t2)%nat.
Proof. unfold finishes. by rewrite List.filter_app, length_app. Qed.

Lemma retryable_error r : isRetryableAssistantError r = true → am_stopReason r = error_.
Proof. unfold isRetryableAssistantError. by case_bool_decide. Qed.

(** The outcome after [n] more calls. *)
Record outcome (policy : option RetryPolicy) (calls n : nat) (answer : result string AssistantMessage) : Prop := {
  oc_before i : (calls ≤ i < calls + n)%nat → transient (produce i) = true ∧ slept (Z.of_nat i + 1) = true;
  oc_answer :
    (answer = produce (calls + n)%nat ∧
       (transient (produce (calls + n)%nat) = false ∨ maxAttempts_of policy ≤ Z.of_nat (calls + n))) ∨
    (∃ response, produce (calls + n)%nat = Ok response ∧ transient (produce (calls + n)%nat) = true ∧
       slept (Z.of_nat (calls + n) + 1) = false ∧ answer = Ok (as_aborted response));
}.

Lemma retry_loop_spec policy fuel calls lastRetry trace :
  (Z.to_nat (maxAttempts_of policy - Z.of_nat calls) < fuel)%nat →
  ∃ n answer events, retry_loop fuel policy (maxAttempts_of policy) (Z.of_nat calls) lastRetry calls trace = Some (answer, trace ++ events) ∧
    outcome policy calls n answer ∧ calls_in_trace events = S n ∧ (finishes events ≤ 1)%nat ∧
    (Z.of_nat (calls + n) ≤ Z.max (Z.of_nat calls) (maxAttempts_of policy)).
Proof.
  revert calls lastRetry trace. induction fuel as [|fuel IH]; intros calls lastRetry trace Hf; [lia|]. cbn [retry_loop].
  assert (∀ ok f, calls_in_trace ([Produced] ++ finished lastRetry ok f) = 1%nat ∧ finishes ([Produced] ++ finished lastRetry ok f) ≤ 1)%nat
    as Hone by (intros; destruct lastRetry as [[]|]; cbn; lia).
  assert (∀ answer f ok, answer = produce calls → (transient (produce calls) = false ∨ maxAttempts_of policy ≤ Z.of_nat calls) →
    ∃ n ans events, Some (answer, (trace ++ [Produced]) ++ finished lastRetry ok f) = Some (ans, trace ++ events) ∧
      outcome policy calls n ans ∧ calls_in_trace events = S n ∧ (finishes events ≤ 1)%nat ∧
      (Z.of_nat (calls + n) ≤ Z.max (Z.of_nat calls) (maxAttempts_of policy))) as Hstop.
  { intros answer f ok -> Hst. exists 0%nat, (produce calls), ([Produced] ++ finished lastRetry ok f). rewrite app_assoc. split; [done|].
    split; [split; [lia|]; left; by rewrite Nat.add_0_r|]. destruct (Hone ok f). split_and!; [done|done|lia]. }
  destruct (produce calls) as [response|e] eqn:Ep; cbn [transient] in Hstop.
  2: { exists 0%nat, (Err e), [Produced]. split; [done|]. split; [|split_and!; [done|cbn; lia|lia]].
       split; [lia|]. left. rewrite Nat.add_0_r, Ep. split; [done|]. by left. }
  assert (am_stopReason response ≠ error_ → isRetryableAssistantError response = false) as Hne.
  { intros H. destruct (isRetryableAssistantError response) eqn:E; [|done]. by apply retryable_error in E. }
  case_bool_decide as Ha; [apply Hstop; [done|]; left; apply Hne; congruence|].
  case_bool_decide as He; cbn [negb]; [|apply Hstop; auto].
  destruct ((maxAttempts_of policy <=? Z.of_nat calls) || negb (isRetryableAssistantError response)) eqn:Eb.
  { apply Hstop; [done|]. apply orb_true_iff in Eb as [Hle|Hn]; [right; lia|left; by apply negb_true_iff]. }
  apply orb_false_iff in Eb as [Hle Hr]. apply negb_false_iff in Hr.
  set (message := default _ _). set (scheduled := onRetryScheduled _ _ _ _).
  destruct (slept (Z.of_nat calls + 1)) eqn:Es.
  - replace (Z.of_nat calls + 1) with (Z.of_nat (S calls)) by lia.
    destruct (IH (S calls) (Some (Z.of_nat (S calls), message)) (((trace ++ [Produced]) ++ [scheduled]) ++ [onRetryAttemptStart]))
      as (n & answer & events & -> & [H1 H2] & H3 & H4 & H5); [lia|].
    exists (S n), answer, ([Produced; scheduled; onRetryAttemptStart] ++ events). split; [by rewrite <- !app_assoc|].
    replace (calls + S n)%nat with (S calls + n)%nat by lia. split; [split|split_and!].
    + intros i Hi. destruct (decide (i = calls)) as [-> |]; [by rewrite Ep|]. apply H1. lia.
    + by replace (calls + S n)%nat with (S calls + n)%nat by lia.
    + rewrite calls_in_app, H3. done.
    + rewrite finishes_app. done.
    + lia.
  - exists 0%nat, (Ok (as_aborted response)), [Produced; scheduled; onRetryFinished false (Z.of_nat calls + 1) (Some message)].
    split; [by rewrite <- !app_assoc|]. split; [|split_and!; [done|cbn; lia|lia]].
    split; [lia|]. right. rewrite Nat.add_0_r. exists response. by rewrite Ep.
Qed.

(** a call is retried a bounded number of times and always ends: with the first
    response that is not a transient error, with the last one when the retries are
    used up, or as aborted when a sleep is; the callbacks hear of the end at most
    once. *)
Theorem retry_bounded policy :
  ∃ n answer trace, retryAssistantCall policy = Some (answer, trace) ∧ outcome policy 0 n answer ∧
    calls_in_trace trace = S n ∧ Z.of_nat n ≤ Z.max 0 (maxAttempts_of policy) ∧ (finishes trace ≤ 1)%nat.
Proof.
  destruct (retry_loop_spec policy (retry_fuel policy) 0 None []) as (n & answer & events & H1 & H2 & H3 & H4 & H5); [unfold retry_fuel; lia|].
  exists n, answer, events. auto.
Qed.
End retry.

(** Examples of both patterns. *)
Definition failed (message : string) : AssistantMessage :=
  mkAssistant [] "p" "m" error_ None (TMap [(js_lit "errorMessage", TText (js_lit message))]).

Example transient_errors : isRetryableAssistantError <$> (failed <$> ["Rate-Limit hit"; "request timed out"; "429 quota exceeded"; "bad request"; ""]) =
  [true; true; false; false; false].
Proof. vm_compute. reflexivity. Qed.
