(* ===== verification/Compaction.v ===== *)
(** Compaction of a session: [harness/compaction/utils.ts] and
    [harness/compaction/compaction.ts], with [contentText] of [ai/src/utils/text.ts].

    Texts that the session holds are read as UTF-16 strings where their length or
    their words count.  Estimates, indices and limits are integers (the products with
    0.8 and 0.5 are exact below 2^50); what a provider reports as usage is in
    double precision.  The calls of the model are the arguments of [Retry]. *)
From Stdlib Require Import SpecFloat.
From stdpp Require Import pretty sorting.
From S2P Require Import Prelude JsValue JsMap Json Regex SessionTypes SessionState SessionSpec SessionQueries Context Retry.
Open Scope Z_scope.

(** ** Texts *)

Definition units (s : jsstr) : Z := Z.of_nat (length s).
Definition text_units (s : string) : Z := units (js_lit s).
Definition nl_ : jsstr := [0x0a].

Definition prop (v : json) (name : string) : option json := match v with TMap o => map_get o (js_lit name) | _ => None end.
Definition text_prop (v : json) (name : string) : option jsstr := match prop v name with Some (TText s) => Some s | _ => None end.

(** [block.type === name], of a block kept as data. *)
Definition block_is (v : json) (name : string) : bool := bool_decide (text_prop v "type" = Some (js_lit name)).

(** The blocks of a tool result. *)
Definition result_blocks (rest : json) : list json := match prop rest "content" with Some (TArray blocks) => blocks | _ => [] end.

(** [contentText] *)
Definition contentText (content : TextOrContent) (separator : jsstr) : jsstr :=
  match content with
  | PlainText text => js_lit text
  | Parts content => join separator (omap (λ c, match c with ContentText text => Some (js_lit text) | _ => None end) content)
  end.

Definition blocksText (blocks : list json) (separator : jsstr) : jsstr :=
  join separator (omap (λ b, if block_is b "text" then Some (default [] (text_prop b "text")) else None) blocks).

(** ** utils.ts: the files of a conversation *)

Record FileOperations := mkFileOps { fo_read : list jsstr; fo_written : list jsstr; fo_edited : list jsstr }.

Definition createFileOps : FileOperations := mkFileOps [] [] [].

(** [Set.add] *)
Definition set_add (f : jsstr) (s : list jsstr) : list jsstr := if bool_decide (f ∈ s) then s else s ++ [f].

Definition add_read (ops : FileOperations) (f : jsstr) : FileOperations := mkFileOps (set_add f (fo_read ops)) (fo_written ops) (fo_edited ops).
Definition add_written (ops : FileOperations) (f : jsstr) : FileOperations := mkFileOps (fo_read ops) (set_add f (fo_written ops)) (fo_edited ops).
Definition add_edited (ops : FileOperations) (f : jsstr) : FileOperations := mkFileOps (fo_read ops) (fo_written ops) (set_add f (fo_edited ops)).

(** The path of a call, when it is a string that is not empty. *)
Definition call_path (call : AgentToolCall) : option jsstr := truthy_text (text_prop (tc_arguments call) "path").

Definition add_call (ops : FileOperations) (call : AgentToolCall) : FileOperations :=
  match call_path call with
  | None => ops
  | Some path =>
      if bool_decide (tc_name call = "read") then add_read ops path else
      if bool_decide (tc_name call = "write") then add_written ops path else
      if bool_decide (tc_name call = "edit") then add_edited ops path else ops
  end.

Definition extractFileOpsFromMessage (ops : FileOperations) (message : AgentMessage) : FileOperations :=
  match message with
  | AssistantMsg a => foldl (λ ops block, match block with ContentToolCall call => add_call ops call | _ => ops end) ops (am_content a)
  | _ => ops
  end.

(** The order of strings by code units, which [sort] uses. *)
Fixpoint units_leb (a b : jsstr) : bool :=
  match a, b with
  | [], _ => true
  | _ :: _, [] => false
  | x :: a, y :: b => if x <? y then true else if y <? x then false else units_leb a b
  end.
Definition units_le (a b : jsstr) : Prop := units_leb a b = true.

#[export] Instance units_le_dec : RelDecision units_le.
Proof. intros a b. unfold units_le. apply _. Defined.

Definition computeFileLists (ops : FileOperations) : list jsstr * list jsstr :=
  let modified := foldl (λ s f, set_add f s) [] (fo_edited ops ++ fo_written ops) in
  let readOnly := merge_sort units_le (filter (λ f, f ∉ modified) (fo_read ops)) in
  (readOnly, merge_sort units_le modified).

Definition tagged (tag : string) (files : list jsstr) : list jsstr :=
  match files with
  | [] => []
  | _ => [js_lit ("<" +:+ tag +:+ ">") ++ nl_ ++ join nl_ files ++ nl_ ++ js_lit ("</" +:+ tag +:+ ">")]
  end.

Definition formatFileOperations (readFiles modifiedFiles : list jsstr) : jsstr :=
  match tagged "read-files" readFiles ++ tagged "modified-files" modifiedFiles with
  | [] => []
  | sections => nl_ ++ nl_ ++ join (nl_ ++ nl_) sections
  end.

(** ** utils.ts: a conversation as text *)

Definition TOOL_RESULT_MAX_CHARS : Z := 2000.

Definition truncateForSummary (text : jsstr) (maxChars : Z) : jsstr :=
  if units text <=? maxChars then text else
  let truncatedChars := units text - maxChars in
  take (Z.to_nat maxChars) text ++ nl_ ++ nl_ ++ js_lit ("[... " +:+ pretty truncatedChars +:+ " more characters truncated]").

Definition call_text (call : AgentToolCall) : jsstr :=
  let args := match tc_arguments call with TMap o => o | _ => [] end in
  js_lit (tc_name call) ++ js_lit "(" ++ join (js_lit ", ") ((λ kv, kv.1 ++ js_lit "=" ++ JSON_stringify kv.2) <$> args) ++ js_lit ")".

Definition message_parts (msg : AgentMessage) : list jsstr :=
  match msg with
  | UserMessage content _ =>
      match contentText content [] with [] => [] | text => [js_lit "[User]: " ++ text] end
  | AssistantMsg a =>
      let thinking := omap (λ c, match c with ContentThinking body => Some (default [] (text_prop body "thinking")) | _ => None end) (am_content a) in
      let calls := omap (λ c, match c with ContentToolCall call => Some (call_text call) | _ => None end) (am_content a) in
      (if bool_decide (thinking = []) then [] else [js_lit "[Assistant thinking]: " ++ join nl_ thinking]) ++
      (if existsb (λ c, match c with ContentText _ => true | _ => false end) (am_content a)
       then [js_lit "[Assistant]: " ++ contentText (Parts (am_content a)) nl_] else []) ++
      (if bool_decide (calls = []) then [] else [js_lit "[Assistant tool calls]: " ++ join (js_lit "; ") calls])
  | ToolResultMessage _ _ rest =>
      match blocksText (result_blocks rest) [] with
      | [] => []
      | text => [js_lit "[Tool result]: " ++ truncateForSummary text TOOL_RESULT_MAX_CHARS]
      end
  | _ => []
  end.

Definition serializeConversation (messages : list AgentMessage) : jsstr := join (nl_ ++ nl_) (messages ≫= message_parts).

(** ** compaction.ts: usage and estimates *)

(** [Usage], in full. *)
Record TokenUsage := mkTokenUsage {
  tu_input : double; tu_output : double; tu_cacheRead : double; tu_cacheWrite : double;
  tu_cacheWrite1h : option double; tu_reasoning : option double; tu_totalTokens : double;
  tu_cost_input : double; tu_cost_output : double; tu_cost_cacheRead : double; tu_cost_cacheWrite : double; tu_cost_total : double }.

Definition double_of_Z (z : Z) : double := binary_normalize 53 1024 z 0 false.

Definition double_of_num (n : jsnum) : double :=
  match n with
  | NInt z => double_of_Z z
  | NNegZero => S754_zero true
  | NFrac bits => binary_normalize 53 1024 (if frac_negative bits then - frac_mant bits else frac_mant bits) (- frac_shift bits) false
  | NInf negative => S754_infinity negative
  | NNaN => S754_nan
  end.

Definition num_prop (v : json) (name : string) : option double :=
  match prop v name with Some (TNum n) => Some (double_of_num n) | _ => None end.

Definition usage_of_json (u : json) : TokenUsage :=
  let num name := default S754_nan (num_prop u name) in
  let cost name := default S754_nan (match prop u "cost" with Some c => num_prop c name | None => None end) in
  mkTokenUsage (num "input") (num "output") (num "cacheRead") (num "cacheWrite") (num_prop u "cacheWrite1h") (num_prop u "reasoning")
    (num "totalTokens") (cost "input") (cost "output") (cost "cacheRead") (cost "cacheWrite") (cost "total").

(** [message.usage], when there is one. *)
Definition message_usage (a : AssistantMessage) : option TokenUsage :=
  match rest_field a "usage" with Some (TMap o) => Some (usage_of_json (TMap o)) | _ => None end.

Definition add_optional (a b : option double) : option double :=
  match a, b with None, None => None | _, _ => Some (double_add (default double_zero a) (default double_zero b)) end.

Definition combineUsage (first second : TokenUsage) : TokenUsage :=
  mkTokenUsage (double_add (tu_input first) (tu_input second)) (double_add (tu_output first) (tu_output second))
    (double_add (tu_cacheRead first) (tu_cacheRead second)) (double_add (tu_cacheWrite first) (tu_cacheWrite second))
    (add_optional (tu_cacheWrite1h first) (tu_cacheWrite1h second)) (add_optional (tu_reasoning first) (tu_reasoning second))
    (double_add (tu_totalTokens first) (tu_totalTokens second))
    (double_add (tu_cost_input first) (tu_cost_input second)) (double_add (tu_cost_output first) (tu_cost_output second))
    (double_add (tu_cost_cacheRead first) (tu_cost_cacheRead second)) (double_add (tu_cost_cacheWrite first) (tu_cost_cacheWrite second))
    (double_add (tu_cost_total first) (tu_cost_total second)).

Record CompactionSettings := mkCompactionSettings { cs_enabled : bool; cs_reserveTokens : Z; cs_keepRecentTokens : Z }.

Definition DEFAULT_COMPACTION_SETTINGS : CompactionSettings := mkCompactionSettings true 16384 20000.

Definition falsy_double (d : double) : bool := match d with S754_zero _ | S754_nan => true | _ => false end.

Definition calculateContextTokens (u : TokenUsage) : double :=
  if falsy_double (tu_totalTokens u)
  then double_add (double_add (double_add (tu_input u) (tu_output u)) (tu_cacheRead u)) (tu_cacheWrite u)
  else tu_totalTokens u.

Definition getAssistantUsage (msg : AgentMessage) : option TokenUsage :=
  match msg with
  | AssistantMsg a =>
      match message_usage a with
      | Some u =>
          if negb (bool_decide (am_stopReason a = aborted)) && negb (bool_decide (am_stopReason a = error_)) &&
             SFltb double_zero (calculateContextTokens u) then Some u else None
      | None => None
      end
  | _ => None
  end.

(** Both from the end. *)
Fixpoint last_usage (messages : list AgentMessage) : option (TokenUsage * nat) :=
  match messages with
  | [] => None
  | m :: messages =>
      match last_usage messages with
      | Some (u, i) => Some (u, S i)
      | None => (λ u, (u, O)) <$> getAssistantUsage m
      end
  end.

Definition getLastAssistantUsageInfo : list AgentMessage → option (TokenUsage * nat) := last_usage.

Definition getLastAssistantUsage (entries : list Entry) : option TokenUsage :=
  fst <$> last_usage (omap (λ e, match e_body e with MessageEntry m _ => Some m | _ => None end) entries).

Definition ESTIMATED_IMAGE_CHARS : Z := 4800.

Definition sum_Z (l : list Z) : Z := foldr Z.add 0 l.

Definition estimateTextAndImageContentChars (content : TextOrContent) : Z :=
  match content with
  | PlainText text => text_units text
  | Parts blocks => sum_Z ((λ c, match c with ContentText text => text_units text | ContentImage _ => ESTIMATED_IMAGE_CHARS | _ => 0 end) <$> blocks)
  end.

Definition estimateBlocksChars (blocks : list json) : Z :=
  sum_Z ((λ b, if block_is b "text" then units (default [] (text_prop b "text"))
               else if block_is b "image" then ESTIMATED_IMAGE_CHARS else 0) <$> blocks).

Definition content_chars (c : Content) : Z :=
  match c with
  | ContentText text => text_units text
  | ContentThinking body => units (default [] (text_prop body "thinking"))
  | ContentToolCall call => text_units (tc_name call) + units (JSON_stringify (tc_arguments call))
  | ContentImage _ => 0
  end.

Definition message_chars (message : AgentMessage) : Z :=
  match message with
  | UserMessage content _ | CustomMessage _ content _ _ _ => estimateTextAndImageContentChars content
  | AssistantMsg a => sum_Z (content_chars <$> am_content a)
  | ToolResultMessage _ _ rest => estimateBlocksChars (result_blocks rest)
  | BashExecution b => text_units (be_command b) + text_units (be_output b)
  | BranchSummaryMessage summary _ _ | CompactionSummaryMessage summary _ _ => text_units summary
  end.

(** [Math.ceil(chars / 4)] *)
Definition estimateTokens (message : AgentMessage) : Z := (message_chars message + 3) / 4.

Record ContextUsageEstimate := mkEstimate { ce_tokens : double; ce_usageTokens : double; ce_trailingTokens : Z; ce_lastUsageIndex : option nat }.

Definition estimateContextTokens (messages : list AgentMessage) : ContextUsageEstimate :=
  match getLastAssistantUsageInfo messages with
  | None =>
      let estimated := sum_Z (estimateTokens <$> messages) in
      mkEstimate (double_of_Z estimated) double_zero estimated None
  | Some (u, index) =>
      let usageTokens := calculateContextTokens u in
      let trailingTokens := sum_Z (estimateTokens <$> drop (S index) messages) in
      mkEstimate (double_add usageTokens (double_of_Z trailingTokens)) usageTokens trailingTokens (Some index)
  end.

Definition shouldCompact (contextTokens : double) (contextWindow : Z) (settings : CompactionSettings) : bool :=
  if negb (cs_enabled settings) then false
  else SFltb (double_of_Z (contextWindow - cs_reserveTokens settings)) contextTokens.

(** ** compaction.ts: the cut *)

Definition getMessageFromEntry (entry : Entry) : option AgentMessage :=
  match e_body entry with
  | MessageEntry m _ => Some m
  | BranchSummaryEntry fromId summary _ _ => Some (createBranchSummaryMessage summary fromId (e_timestamp entry))
  | CompactionEntry summary _ tokensBefore _ _ => Some (createCompactionSummaryMessage summary tokensBefore (e_timestamp entry))
  | _ => None
  end.

Definition getMessageFromEntryForCompaction (entry : Entry) : option AgentMessage :=
  if bool_decide (e_type entry = compaction) then None else getMessageFromEntry entry.

(** An entry the retained part may begin with. *)
Definition cut_entry (entry : Entry) : bool :=
  match e_body entry with
  | MessageEntry m _ => negb (bool_decide (role m = RToolResult))
  | BranchSummaryEntry _ _ _ _ => true
  | _ => false
  end.

Definition findValidCutPoints (entries : list Entry) (startIndex endIndex : nat) : list nat :=
  filter (λ i, match entries !! i with Some e => cut_entry e | None => false end = true) (seq startIndex (endIndex - startIndex)).

(** The entry that begins a turn. *)
Definition turn_entry (entry : Entry) : bool :=
  match e_body entry with
  | BranchSummaryEntry _ _ _ _ => true
  | MessageEntry m _ => bool_decide (role m = RUser ∨ role m = RBashExecution)
  | _ => false
  end.

(** From [startIndex + n - 1] down to [startIndex]; [None] is -1. *)
Fixpoint turn_scan (entries : list Entry) (startIndex n : nat) : option nat :=
  match n with
  | O => None
  | S n =>
      match entries !! (startIndex + n)%nat with
      | Some e => if turn_entry e then Some (startIndex + n)%nat else turn_scan entries startIndex n
      | None => turn_scan entries startIndex n
      end
  end.

Definition findTurnStartIndex (entries : list Entry) (entryIndex startIndex : nat) : option nat :=
  turn_scan entries startIndex (S entryIndex - startIndex).

Record CutPointResult := mkCut { firstKeptEntryIndex : nat; turnStartIndex : option nat; isSplitTurn : bool }.

Definition entry_tokens (e : Entry) : option Z :=
  match e_body e with MessageEntry m _ => Some (estimateTokens m) | _ => None end.

(** The loop that adds up tokens from the end, and the choice of the cut point. *)
Fixpoint cut_scan (entries : list Entry) (cutPoints : list nat) (keepRecentTokens : Z) (cutIndex startIndex n : nat) (accumulated : Z) : nat :=
  match n with
  | O => cutIndex
  | S n =>
      let i := (startIndex + n)%nat in
      match (entries !! i ≫= entry_tokens) with
      | None => cut_scan entries cutPoints keepRecentTokens cutIndex startIndex n accumulated
      | Some tokens =>
          let accumulated := accumulated + tokens in
          if keepRecentTokens <=? accumulated
          then default cutIndex (head (filter (λ c, (i ≤ c)%nat) cutPoints))
          else cut_scan entries cutPoints keepRecentTokens cutIndex startIndex n accumulated
      end
  end.

(** The loop that takes in the entries before the cut that are no messages. *)
Fixpoint cut_back (entries : list Entry) (startIndex cutIndex : nat) : nat :=
  match cutIndex with
  | O => O
  | S prev =>
      if (startIndex <? cutIndex)%nat then
        match entries !! prev with
        | Some e =>
            match e_body e with
            | CompactionEntry _ _ _ _ _ | MessageEntry _ _ => cutIndex
            | _ => cut_back entries startIndex prev
            end
        | None => cut_back entries startIndex prev
        end
      else cutIndex
  end.

Definition findCutPoint (entries : list Entry) (startIndex endIndex : nat) (keepRecentTokens : Z) : CutPointResult :=
  match findValidCutPoints entries startIndex endIndex with
  | [] => mkCut startIndex None false
  | first :: rest =>
      let cutIndex := cut_scan entries (first :: rest) keepRecentTokens first startIndex (endIndex - startIndex) 0 in
      let cutIndex := cut_back entries startIndex cutIndex in
      let isUserMessage :=
        match entries !! cutIndex with
        | Some e => match e_body e with MessageEntry m _ => bool_decide (role m = RUser) | _ => false end
        | None => false
        end in
      let turnStartIndex := if isUserMessage then None else findTurnStartIndex entries cutIndex startIndex in
      mkCut cutIndex turnStartIndex (negb isUserMessage && bool_decide (is_Some turnStartIndex))
  end.

(** ** compaction.ts: what is summarized *)

Record CompactionPreparation := mkPreparation {
  cp_messagesToSummarize : list AgentMessage;
  cp_turnPrefixMessages : list AgentMessage;
  cp_retainedTail : list AgentMessage;
  cp_isSplitTurn : bool;
  cp_tokensBefore : double;
  cp_previousSummary : option string;
  cp_fileOps : FileOperations;
  cp_settings : CompactionSettings }.

(** The strings of a property that is an array. *)
Definition string_list (details : option json) (name : string) : list jsstr :=
  match details with
  | Some d => match prop d name with Some (TArray ts) => omap (λ t, match t with TText s => Some s | _ => None end) ts | _ => [] end
  | None => []
  end.

Definition extractFileOperations (messages : list AgentMessage) (prevCompaction : option Entry) : FileOperations :=
  let details := match prevCompaction with Some e => match e_body e with CompactionEntry _ _ _ details _ => details | _ => None end | None => None end in
  let ops := foldl add_read createFileOps (string_list details "readFiles") in
  let ops := foldl add_edited ops (string_list details "modifiedFiles") in
  foldl extractFileOpsFromMessage ops messages.

(** [message.timestamp] *)
Definition message_timestamp (m : AgentMessage) : Z :=
  match m with
  | UserMessage _ timestamp | CustomMessage _ _ _ _ timestamp | BranchSummaryMessage _ _ timestamp | CompactionSummaryMessage _ _ timestamp => timestamp
  | BashExecution b => be_timestamp b
  | AssistantMsg a => match rest_field a "timestamp" with Some (TNum (NInt z)) => z | _ => 0 end
  | ToolResultMessage _ _ rest => match prop rest "timestamp" with Some (TNum (NInt z)) => z | _ => 0 end
  end.

Definition retained_id (id : string) (index : nat) : string := id +:+ ":retained:" +:+ pretty index.

Definition virtualRetainedEntries (prev : Entry) (retainedTail : list AgentMessage) : list Entry :=
  imap (λ index message,
    mkEntry (retained_id (e_id prev) index) (e_seq prev)
      (Some (match index with O => e_id prev | S i => retained_id (e_id prev) i end))
      (message_timestamp message) (MessageEntry message false)) retainedTail.

(** The previous compaction's summary, and the entries to choose from. *)
Definition compactable (pathEntries : list Entry) : option string * list Entry :=
  match findCompaction pathEntries (length pathEntries) with
  | Some (prev, index) =>
      match e_body prev with
      | CompactionEntry summary retainedTail _ _ _ =>
          (Some summary, virtualRetainedEntries prev retainedTail ++ drop (index + 1) pathEntries)
      | _ => (None, pathEntries)
      end
  | None => (None, pathEntries)
  end.

Definition slice_messages (entries : list Entry) (from to : nat) : list AgentMessage :=
  omap getMessageFromEntryForCompaction (take (to - from) (drop from entries)).

Definition prepareCompaction (pathEntries : list Entry) (settings : CompactionSettings) : option CompactionPreparation :=
  match last pathEntries with
  | None => None
  | Some newest =>
      if bool_decide (e_type newest = compaction) then None else
      let '(previousSummary, entries) := compactable pathEntries in
      let boundaryEnd := length entries in
      let tokensBefore := ce_tokens (estimateContextTokens (buildSessionContext pathEntries no_options).2) in
      let cutPoint := findCutPoint entries 0 boundaryEnd (cs_keepRecentTokens settings) in
      let firstKept := firstKeptEntryIndex cutPoint in
      let historyEnd := if isSplitTurn cutPoint then default 0%nat (turnStartIndex cutPoint) else firstKept in
      let messagesToSummarize := slice_messages entries 0 historyEnd in
      let turnPrefixMessages := if isSplitTurn cutPoint then slice_messages entries historyEnd firstKept else [] in
      let retainedTail := slice_messages entries firstKept boundaryEnd in
      let fileOps := extractFileOperations messagesToSummarize (fst <$> findCompaction pathEntries (length pathEntries)) in
      let fileOps := if isSplitTurn cutPoint then foldl extractFileOpsFromMessage fileOps turnPrefixMessages else fileOps in
      Some (mkPreparation messagesToSummarize turnPrefixMessages retainedTail (isSplitTurn cutPoint) tokensBefore previousSummary fileOps settings)
  end.

(** ** compaction.ts: the summary *)

Definition dq : string := String (Ascii.ascii_of_nat 34) EmptyString.
Definition text_lines (lines : list string) : jsstr := join nl_ (js_lit <$> lines).

Definition SUMMARIZATION_SYSTEM_PROMPT : jsstr := text_lines
  ["You are a context summarization assistant. Your task is to read a conversation between a user and an AI assistant, then produce a structured summary following the exact format specified.";
   "";
   "Do NOT continue the conversation. Do NOT respond to any questions in the conversation. ONLY output the structured summary."].

Definition SUMMARIZATION_PROMPT : jsstr := text_lines
  ["The messages above are a conversation to summarize. Create a structured context checkpoint summary that another LLM will use to continue the work.";
   "";
   "Use this EXACT format:";
   "";
   "## Goal";
   "[What is the user trying to accomplish? Can be multiple items if the session covers different tasks.]";
   "";
   "## Constraints & Preferences";
   "- [Any constraints, preferences, or requirements mentioned by user]";
   "- [Or " +:+ dq +:+ "(none)" +:+ dq +:+ " if none were mentioned]";
   "";
   "## Progress";
   "### Done";
   "- [x] [Completed tasks/changes]";
   "";
   "### In Progress";
   "- [ ] [Current work]";
   "";
   "### Blocked";
   "- [Issues preventing progress, if any]";
   "";
   "## Key Decisions";
   "- **[Decision]**: [Brief rationale]";
   "";
   "## Next Steps";
   "1. [Ordered list of what should happen next]";
   "";
   "## Critical Context";
   "- [Any data, examples, or references needed to continue]";
   "- [Or " +:+ dq +:+ "(none)" +:+ dq +:+ " if not applicable]";
   "";
   "Keep each section concise. Preserve exact file paths, function names, and error messages."].

Definition UPDATE_SUMMARIZATION_PROMPT : jsstr := text_lines
  ["The messages above are NEW conversation messages to incorporate into the existing summary provided in <previous-summary> tags.";
   "";
   "Update the existing structured summary with new information. RULES:";
   "- PRESERVE all existing information from the previous summary";
   "- ADD new progress, decisions, and context from the new messages";
   "- UPDATE the Progress section: move items from " +:+ dq +:+ "In Progress" +:+ dq +:+ " to " +:+ dq +:+ "Done" +:+ dq +:+ " when completed";
   "- UPDATE " +:+ dq +:+ "Next Steps" +:+ dq +:+ " based on what was accomplished";
   "- PRESERVE exact file paths, function names, and error messages";
   "- If something is no longer relevant, you may remove it";
   "";
   "Use this EXACT format:";
   "";
   "## Goal";
   "[Preserve existing goals, add new ones if the task expanded]";
   "";
   "## Constraints & Preferences";
   "- [Preserve existing, add new ones discovered]";
   "";
   "## Progress";
   "### Done";
   "- [x] [Include previously done items AND newly completed items]";
   "";
   "### In Progress";
   "- [ ] [Current work - update based on progress]";
   "";
   "### Blocked";
   "- [Current blockers - remove if resolved]";
   "";
   "## Key Decisions";
   "- **[Decision]**: [Brief rationale] (preserve all previous, add new)";
   "";
   "## Next Steps";
   "1. [Update based on current state]";
   "";
   "## Critical Context";
   "- [Preserve important context, add new if needed]";
   "";
   "Keep each section concise. Preserve exact file paths, function names, and error messages."].

Definition TURN_PREFIX_SUMMARIZATION_PROMPT : jsstr := text_lines
  ["This is the PREFIX of a turn that was too large to keep. The SUFFIX (recent work) is retained.";
   "";
   "Summarize the prefix to provide context for the retained suffix:";
   "";
   "## Original Request";
   "[What did the user ask for in this turn?]";
   "";
   "## Early Progress";
   "- [Key decisions and work done in the prefix]";
   "";
   "## Context for Suffix";
   "- [Information needed to understand the retained recent work]";
   "";
   "Be concise. Focus on what's needed to understand the kept suffix."].

(** What is asked of the model; the session id of the request is a fresh one, its
    cache retention none. *)
Record SummaryRequest := mkRequest {
  rq_systemPrompt : jsstr; rq_prompt : jsstr; rq_maxTokens : Z; rq_reasoning : option string }.

Record Model := mkModel { md_maxTokens : Z; md_reasoning : bool; md_contextWindow : Z }.

Inductive CompactionError :=
| CompactionAborted (message : jsstr)
| SummarizationFailed (message : jsstr)
| Rejected_ (e : string)                         (* the call of the model throws *)
| OutOfRetries.                                  (* not reached: [summary_answered] *)

Record CompactResult := mkCompactResult {
  cr_summary : jsstr; cr_tokensBefore : double; cr_usage : option TokenUsage; cr_retainedTail : list AgentMessage;
  cr_readFiles : list jsstr; cr_modifiedFiles : list jsstr }.

(** Options of a run, and the model behind them: what each call of a request gives,
    and which sleeps between calls are not aborted. *)
Record SummaryOptions := mkSummaryOptions {
  so_model : Model;
  so_customInstructions : option string;
  so_thinkingLevel : option string;
  so_retry : option RetryPolicy;
  so_complete : SummaryRequest → nat → result string AssistantMessage;
  so_slept : Z → bool }.

Definition truthy_string (s : option string) : option string := match s with Some EmptyString => None | _ => s end.

Definition max_tokens (model : Model) (share : Z) : Z :=
  if 0 <? md_maxTokens model then Z.min share (md_maxTokens model) else share.

Definition reasoning_of (model : Model) (thinkingLevel : option string) : option string :=
  match truthy_string thinkingLevel with
  | Some level => if md_reasoning model && negb (bool_decide (level = "off")) then Some level else None
  | None => None
  end.

Definition completeSimpleWithRetries (o : SummaryOptions) (request : SummaryRequest) : option (result string AssistantMessage) :=
  fst <$> retryAssistantCall (so_complete o request) (so_slept o) (so_retry o).

(** The text and usage of a response, or its failure. *)
Definition summary_of (response : option (result string AssistantMessage)) (abortedText failedText : string) :
    result CompactionError (jsstr * option TokenUsage) :=
  match response with
  | None => Err OutOfRetries
  | Some (Err e) => Err (Rejected_ e)
  | Some (Ok response) =>
      if bool_decide (am_stopReason response = aborted)
      then Err (CompactionAborted (default (js_lit abortedText) (truthy_text (errorMessage response)))) else
      if bool_decide (am_stopReason response = error_)
      then Err (SummarizationFailed (js_lit failedText ++ default (js_lit "Unknown error") (truthy_text (errorMessage response))))
      else Ok (contentText (Parts (am_content response)) nl_, message_usage response)
  end.

Definition conversation_text (messages : list AgentMessage) : jsstr :=
  js_lit "<conversation>" ++ nl_ ++ serializeConversation (convertToLlm messages) ++ nl_ ++ js_lit "</conversation>" ++ nl_ ++ nl_.

Definition summary_prompt (messages : list AgentMessage) (customInstructions previousSummary : option string) : jsstr :=
  let base := match truthy_string previousSummary with Some _ => UPDATE_SUMMARIZATION_PROMPT | None => SUMMARIZATION_PROMPT end in
  let base := match truthy_string customInstructions with
              | Some text => base ++ nl_ ++ nl_ ++ js_lit "Additional focus: " ++ js_lit text | None => base end in
  let previous := match truthy_string previousSummary with
                  | Some text => js_lit "<previous-summary>" ++ nl_ ++ js_lit text ++ nl_ ++ js_lit "</previous-summary>" ++ nl_ ++ nl_
                  | None => [] end in
  conversation_text messages ++ previous ++ base.

Definition generateSummaryWithUsage (o : SummaryOptions) (messages : list AgentMessage) (reserveTokens : Z) (previousSummary : option string) :
    result CompactionError (jsstr * option TokenUsage) :=
  let maxTokens := max_tokens (so_model o) (4 * reserveTokens / 5) in
  summary_of
    (completeSimpleWithRetries o
       (mkRequest SUMMARIZATION_SYSTEM_PROMPT (summary_prompt messages (so_customInstructions o) previousSummary) maxTokens
          (reasoning_of (so_model o) (so_thinkingLevel o))))
    "Summarization aborted" "Summarization failed: ".

Definition generateSummary (o : SummaryOptions) (messages : list AgentMessage) (reserveTokens : Z) (previousSummary : option string) :
    result CompactionError jsstr :=
  rmap fst (generateSummaryWithUsage o messages reserveTokens previousSummary).

Definition generateTurnPrefixSummary (o : SummaryOptions) (messages : list AgentMessage) (reserveTokens : Z) :
    result CompactionError (jsstr * option TokenUsage) :=
  let maxTokens := max_tokens (so_model o) (reserveTokens / 2) in
  summary_of
    (completeSimpleWithRetries o
       (mkRequest SUMMARIZATION_SYSTEM_PROMPT (conversation_text messages ++ TURN_PREFIX_SUMMARIZATION_PROMPT) maxTokens
          (reasoning_of (so_model o) (so_thinkingLevel o))))
    "Turn prefix summarization aborted" "Turn prefix summarization failed: ".

Definition combine_optional (history : option TokenUsage) (prefix : option TokenUsage) : option TokenUsage :=
  match history with
  | Some h => match prefix with Some p => Some (combineUsage h p) | None => None end
  | None => prefix
  end.

Definition split_summary (historyText prefixText : jsstr) : jsstr :=
  historyText ++ nl_ ++ nl_ ++ js_lit "---" ++ nl_ ++ nl_ ++ js_lit "**Turn Context (split turn):**" ++ nl_ ++ nl_ ++ prefixText.

Definition compact (o : SummaryOptions) (p : CompactionPreparation) : result CompactionError CompactResult :=
  let reserve := cs_reserveTokens (cp_settings p) in
  let* summarized :=
    if cp_isSplitTurn p && negb (bool_decide (length (cp_turnPrefixMessages p) = 0%nat)) then
      let* history :=
        if bool_decide (length (cp_messagesToSummarize p) = 0%nat) then Ok (js_lit "No prior history.", None)
        else generateSummaryWithUsage o (cp_messagesToSummarize p) reserve (cp_previousSummary p) in
      let* prefix := generateTurnPrefixSummary o (cp_turnPrefixMessages p) reserve in
      Ok (split_summary history.1 prefix.1, combine_optional history.2 prefix.2)
    else generateSummaryWithUsage o (cp_messagesToSummarize p) reserve (cp_previousSummary p) in
  let '(readFiles, modifiedFiles) := computeFileLists (cp_fileOps p) in
  Ok (mkCompactResult (summarized.1 ++ formatFileOperations readFiles modifiedFiles) (cp_tokensBefore p) summarized.2 (cp_retainedTail p)
        readFiles modifiedFiles).
