(* ===== verification/CompactionSpec.v ===== *)
(** What compaction keeps and what it summarizes. *)
From Stdlib Require Import SpecFloat.
From stdpp Require Import sorting.
From S2P Require Import Prelude JsValue JsMap Json Regex SessionTypes SessionState SessionSpec SessionQueries Context Retry Compaction.
Open Scope Z_scope.

(** ** The cut *)

(** The tokens of the messages from [i] on. *)
Definition recent (entries : list Entry) (i : nat) : Z := sum_Z (omap entry_tokens (drop i entries)).

(** An entry that is carried along with the message after it. *)
Definition quiet_entry (e : Entry) : bool :=
  match e_body e with CompactionEntry _ _ _ _ _ | MessageEntry _ _ => false | _ => true end.

Lemma sum_Z_nonneg {A} (f : A → Z) l : (∀ x, 0 ≤ f x) → 0 ≤ sum_Z (f <$> l).
Proof. intros H. induction l as [|x l IH]; [done|]. cbn [fmap list_fmap sum_Z foldr] in *. specialize (H x). fold (sum_Z (f <$> l)). lia. Qed.

Lemma units_nonneg s : 0 ≤ units s.
Proof. unfold units. lia. Qed.

Lemma estimateTokens_nonneg m : 0 ≤ estimateTokens m.
Proof.
  assert (0 ≤ message_chars m) as H; [|unfold estimateTokens; apply Z.div_pos; lia].
  assert (∀ content, 0 ≤ estimateTextAndImageContentChars content) as Ht.
  { intros []; [apply units_nonneg|]. apply sum_Z_nonneg. intros []; unfold ESTIMATED_IMAGE_CHARS, text_units; pose proof units_nonneg; auto; lia. }
  pose proof units_nonneg as Hu. unfold message_chars, text_units in *. destruct m; auto.
  - apply sum_Z_nonneg. intros []; cbn; unfold text_units; auto; [lia|]. pose proof (Hu (js_lit (tc_name call))).
    pose proof (Hu (JSON_stringify (tc_arguments call))). lia.
  - apply sum_Z_nonneg. intros b. case_match; [auto|]. case_match; unfold ESTIMATED_IMAGE_CHARS; lia.
  - pose proof (Hu (js_lit (be_command message))). pose proof (Hu (js_lit (be_output message))). lia.
Qed.

Lemma entry_tokens_nonneg e t : entry_tokens e = Some t → 0 ≤ t.
Proof. unfold entry_tokens. destruct (e_body e); try done. intros [= <-]. apply estimateTokens_nonneg. Qed.

Lemma recent_step entries i e :
  entries !! i = Some e → recent entries i = default 0 (entry_tokens e) + recent entries (S i).
Proof. intros H. unfold recent. rewrite (drop_S _ _ _ H). cbn [omap list_omap]. by destruct (entry_tokens e). Qed.

Lemma recent_over entries i : (length entries ≤ i)%nat → recent entries i = 0.
Proof. intros H. unfold recent. by rewrite drop_ge. Qed.

Lemma recent_mono entries i j : (i ≤ j)%nat → recent entries j ≤ recent entries i.
Proof.
  induction 1 as [|j Hj IH]; [done|]. destruct (decide (j < length entries)%nat) as [Hlt|Hge].
  - destruct (lookup_lt_is_Some_2 _ _ Hlt) as [e He]. rewrite (recent_step _ _ _ He) in IH.
    destruct (entry_tokens e) as [t|] eqn:Et; cbn in IH; [apply entry_tokens_nonneg in Et|]; lia.
  - rewrite recent_over in IH by lia. rewrite recent_over by lia. lia.
Qed.

Definition first_cut (P : nat → Prop) `{∀ n, Decision (P n)} (first : nat) (cuts : list nat) : nat := default first (head (filter P cuts)).

Lemma first_cut_ext (P Q : nat → Prop) `{∀ n, Decision (P n)} `{∀ n, Decision (Q n)} first cuts :
  (∀ c, c ∈ cuts → P c ↔ Q c) → first_cut P first cuts = first_cut Q first cuts.
Proof.
  intros HPQ. unfold first_cut. induction cuts as [|c cuts IH]; [done|]. rewrite !filter_cons.
  assert (P c ↔ Q c) as Hc by (apply HPQ; by left).
  destruct (decide (P c)), (decide (Q c)); [done|tauto|tauto|]. apply IH. intros x Hx. apply HPQ. by right.
Qed.

Lemma cut_scan_spec entries cuts keep first n :
  0 < keep → (n ≤ length entries)%nat → recent entries n < keep → head cuts = Some first → Forall (λ c, (c < length entries)%nat) cuts →
  cut_scan entries cuts keep first 0 n (recent entries n) = first_cut (λ c, recent entries (S c) < keep) first cuts.
Proof.
  intros Hk. induction n as [|n IH]; intros Hn Hlt Hh Hall; cbn [cut_scan].
  - unfold first_cut. destruct cuts as [|c cuts]; [done|]. cbn in Hh. injection Hh as ->. rewrite filter_cons, decide_True; [done|].
    eapply Z.le_lt_trans; [|exact Hlt]. apply recent_mono. lia.
  - destruct (lookup_lt_is_Some_2 entries n) as [e He]; [lia|]. cbn [Nat.add]. rewrite He. cbn [mbind option_bind].
    pose proof (recent_step _ _ _ He) as Hs. destruct (entry_tokens e) as [t|] eqn:Et; cbn [from_option id] in Hs.
    + replace (recent entries (S n) + t) with (recent entries n) by lia.
      destruct (keep <=? recent entries n) eqn:Eb; [|apply IH; [lia|lia|done|done]].
      change (default first (head (filter (λ c, (n ≤ c)%nat) cuts))) with (first_cut (λ c, (n ≤ c)%nat) first cuts).
      apply first_cut_ext. intros c Hc. split; intros Hx.
      * eapply Z.le_lt_trans; [|exact Hlt]. apply recent_mono. lia.
      * destruct (decide (n ≤ c)%nat) as [|Hnc]; [done|]. pose proof (recent_mono entries (S c) n). lia.
    + replace (recent entries (S n)) with (recent entries n) by lia. apply IH; [lia|lia|done|done].
Qed.

Lemma cut_points_spec entries c :
  c ∈ findValidCutPoints entries 0 (length entries) ↔ ∃ e, entries !! c = Some e ∧ cut_entry e = true.
Proof.
  unfold findValidCutPoints. rewrite list_elem_of_filter, elem_of_seq. split.
  - intros [Hc _]. destruct (entries !! c) as [e|]; [|done]. by exists e.
  - intros (e & He & Hc). rewrite He. split; [done|]. apply lookup_lt_Some in He. lia.
Qed.

Lemma cut_back_spec entries start c :
  (start ≤ c)%nat → (start ≤ cut_back entries start c ≤ c)%nat ∧
  ∀ j e, (cut_back entries start c ≤ j < c)%nat → entries !! j = Some e → quiet_entry e = true.
Proof.
  induction c as [|c IH]; intros Hs; cbn [cut_back]; [split; [lia|intros; lia]|].
  destruct (start <? S c)%nat eqn:Eb; [|split; [lia|intros; lia]]. apply Nat.ltb_lt in Eb.
  assert (∀ e, entries !! c = Some e → quiet_entry e = false → (start ≤ S c ≤ S c)%nat ∧
    ∀ j e, (S c ≤ j < S c)%nat → entries !! j = Some e → quiet_entry e = true) as Hstop by (intros; split; [lia|intros; lia]).
  assert (((start ≤ cut_back entries start c ≤ c)%nat ∧ ∀ j e, (cut_back entries start c ≤ j < c)%nat → entries !! j = Some e → quiet_entry e = true) →
    (∀ e, entries !! c = Some e → quiet_entry e = true) →
    (start ≤ cut_back entries start c ≤ S c)%nat ∧ ∀ j e, (cut_back entries start c ≤ j < S c)%nat → entries !! j = Some e → quiet_entry e = true) as Hgo.
  { intros [H1 H2] Hq. split; [lia|]. intros j e Hj He. destruct (decide (j = c)) as [-> |]; [by apply Hq|]. eapply H2; [|done]. lia. }
  destruct (entries !! c) as [e|] eqn:He; [|apply Hgo; [apply IH; lia|done]].
  unfold quiet_entry in Hgo. destruct (e_body e) eqn:Eb'; try (split; [lia|intros; lia]);
    (apply Hgo; [apply IH; lia|intros x [= <-]; by rewrite Eb']).
Qed.

Lemma turn_scan_spec entries n t :
  turn_scan entries 0 n = Some t →
  (t < n)%nat ∧ (∃ e, entries !! t = Some e ∧ turn_entry e = true) ∧ ∀ j e, (t < j < n)%nat → entries !! j = Some e → turn_entry e = false.
Proof.
  induction n as [|n IH]; cbn [turn_scan Nat.add]; [done|]. destruct (entries !! n) as [e|] eqn:He.
  - destruct (turn_entry e) eqn:Et.
    + intros [= <-]. split; [lia|]. split; [by exists e|]. intros; lia.
    + intros H. destruct (IH H) as (H1 & H2 & H3). split; [lia|]. split; [done|]. intros j x Hj Hx.
      destruct (decide (j = n)) as [-> |]; [congruence|]. eapply H3; [|done]. lia.
  - intros H. destruct (IH H) as (H1 & H2 & H3). split; [lia|]. split; [done|]. intros j x Hj Hx.
    destruct (decide (j = n)) as [-> |]; [congruence|]. eapply H3; [|done]. lia.
Qed.

(** The cut point that is chosen: the first after which fewer tokens than the limit
    remain, or, if there is none, the first of all. *)
Definition chosen_cut (entries : list Entry) (keep : Z) (first : nat) (cuts : list nat) : nat :=
  first_cut (λ c, recent entries (S c) < keep) first cuts.

(** The shape of a cut at [c]: the entries before [c] that hold no message come with
    it, and a turn that is split begins at its last turn entry. *)
Record cut_ok (entries : list Entry) (c : nat) (r : CutPointResult) : Prop := {
  ck_kept : (firstKeptEntryIndex r ≤ c < length entries)%nat;
  ck_cut : ∃ e, entries !! c = Some e ∧ cut_entry e = true;
  ck_quiet j e : (firstKeptEntryIndex r ≤ j < c)%nat → entries !! j = Some e → quiet_entry e = true;
  ck_split : isSplitTurn r = true → ∃ t, turnStartIndex r = Some t ∧ (t ≤ firstKeptEntryIndex r)%nat ∧
    (∃ e, entries !! t = Some e ∧ turn_entry e = true) ∧
    (∀ j e, (t < j ≤ firstKeptEntryIndex r)%nat → entries !! j = Some e → turn_entry e = false);
}.

Lemma first_cut_elem (P : nat → Prop) `{∀ n, Decision (P n)} d cuts : d ∈ cuts → first_cut P d cuts ∈ cuts.
Proof.
  intros Hd. unfold first_cut. destruct (head (filter P cuts)) as [c|] eqn:E; cbn; [|done].
  apply head_Some_elem_of in E. by apply list_elem_of_filter in E as [_ ?].
Qed.

Lemma cut_scan_elem entries cuts keep d start n acc : d ∈ cuts → cut_scan entries cuts keep d start n acc ∈ cuts.
Proof.
  intros Hd. revert acc. induction n as [|n IH]; intros acc; cbn [cut_scan]; [done|].
  destruct (_ ≫= _); [|done]. case_match; [|done]. by apply (first_cut_elem _ d).
Qed.

Lemma findCutPoint_spec entries keep first rest :
  findValidCutPoints entries 0 (length entries) = first :: rest →
  ∃ c, cut_ok entries c (findCutPoint entries 0 (length entries) keep) ∧ (0 < keep → c = chosen_cut entries keep first (first :: rest)).
Proof.
  intros Ec. unfold findCutPoint. rewrite Ec, Nat.sub_0_r.
  assert (∀ c, c ∈ first :: rest → ∃ e, entries !! c = Some e ∧ cut_entry e = true) as Hcuts
    by (intros c Hc; rewrite <- Ec in Hc; by apply cut_points_spec).
  set (c := cut_scan _ _ _ _ _ _ _). assert (c ∈ first :: rest) as Hc by (apply cut_scan_elem; by left). exists c. split.
  - destruct (Hcuts c Hc) as (e & He & Hce). destruct (cut_back_spec entries 0 c ltac:(lia)) as [Hb Hq]. set (b := cut_back entries 0 c) in *.
    split; cbn [firstKeptEntryIndex isSplitTurn turnStartIndex].
    + apply lookup_lt_Some in He. lia.
    + by exists e.
    + apply Hq.
    + set (user := match entries !! b with Some _ => _ | None => _ end). intros [Hu Hs]%andb_true_iff. apply negb_true_iff in Hu. rewrite Hu in *.
      apply bool_decide_eq_true in Hs as [t Ht]. unfold findTurnStartIndex in *. rewrite Ht. exists t. split; [done|].
      destruct (turn_scan_spec entries _ _ Ht) as (H1 & H2 & H3). split; [lia|]. split; [done|]. intros j x Hj. apply H3. lia.
  - intros Hk. unfold c. rewrite <- (recent_over entries (length entries) ltac:(lia)) at 1. apply cut_scan_spec; [done|lia| |done|].
    + by rewrite recent_over.
    + apply Forall_forall. intros x Hx. destruct (Hcuts x Hx) as (e & He & _). by apply lookup_lt_Some in He.
Qed.

(** ** The messages of a slice *)

Lemma slice_all entries : slice_messages entries 0 (length entries) = omap getMessageFromEntryForCompaction entries.
Proof. unfold slice_messages. by rewrite Nat.sub_0_r, drop_0, firstn_all. Qed.

Lemma slice_app entries i j k : (i ≤ j ≤ k)%nat → slice_messages entries i j ++ slice_messages entries j k = slice_messages entries i k.
Proof.
  intros H. unfold slice_messages. rewrite <- omap_app. f_equal.
  replace (drop j entries) with (drop (j - i) (drop i entries)) by (rewrite drop_drop; f_equal; lia).
  rewrite take_take_drop. f_equal. lia.
Qed.

(** ** The context *)

(** Not one of the entries that context building leaves out although they hold a message:
    deferred responses and empty branch summaries. *)
Definition visible (e : Entry) : Prop :=
  match e_body e with
  | MessageEntry (AssistantMsg a) _ => am_stopReason a ≠ deferred
  | BranchSummaryEntry _ summary _ _ => summary ≠ EmptyString
  | _ => True
  end.

Lemma context_messages entries all :
  Forall visible entries → Forall (λ e, e_type e ≠ compaction) entries → ∀ k,
  concat (imap (λ i e, sessionEntryToContextMessages e (k + i) all no_options) entries) = omap getMessageFromEntryForCompaction entries.
Proof.
  induction entries as [|e entries IH]; intros Hv Hc k; [done|]. rewrite imap_cons. cbn [concat omap list_omap].
  apply Forall_cons in Hv as [Hv Hvs]. apply Forall_cons in Hc as [Hc Hcs].
  replace (imap ((λ i e, sessionEntryToContextMessages e (k + i) all no_options) ∘ S) entries)
    with (imap (λ i e, sessionEntryToContextMessages e (S k + i) all no_options) entries)
    by (apply imap_ext; intros i x _; unfold compose; f_equal; lia).
  rewrite IH by done. unfold getMessageFromEntryForCompaction at 2. rewrite bool_decide_eq_false_2 by done.
  unfold e_type, visible, sessionEntryToContextMessages, getMessageFromEntry in *. destruct (e_body e) as [m t| | | | |from text d u|]; try done.
  - destruct m; try done. by rewrite bool_decide_eq_false_2.
  - by rewrite bool_decide_eq_false_2.
Qed.

(** Whatever the entries, the context has no other messages. *)
Lemma context_messages_sublist entries all :
  Forall (λ e, e_type e ≠ compaction) entries → ∀ k,
  concat (imap (λ i e, sessionEntryToContextMessages e (k + i) all no_options) entries) `sublist_of` omap getMessageFromEntryForCompaction entries.
Proof.
  induction entries as [|e entries IH]; intros Hc k; [done|]. rewrite imap_cons. cbn [concat omap list_omap]. apply Forall_cons in Hc as [Hc Hcs].
  replace (imap ((λ i e, sessionEntryToContextMessages e (k + i) all no_options) ∘ S) entries)
    with (imap (λ i e, sessionEntryToContextMessages e (S k + i) all no_options) entries)
    by (apply imap_ext; intros i x _; unfold compose; f_equal; lia).
  specialize (IH Hcs (S k)). unfold getMessageFromEntryForCompaction at 1. rewrite bool_decide_eq_false_2 by done.
  unfold e_type, sessionEntryToContextMessages, getMessageFromEntry in *. destruct (e_body e) as [m t| | | | |from text d u|]; try done.
  - destruct m; cbn [app]; try (by apply sublist_skip). case_bool_decide; cbn [app]; [by apply sublist_cons|by apply sublist_skip].
  - case_bool_decide; cbn [app]; [by apply sublist_cons|by apply sublist_skip].
Qed.

Lemma findCompaction_None entries n :
  (n ≤ length entries)%nat → findCompaction entries n = None → Forall (λ e, e_type e ≠ compaction) (take n entries).
Proof.
  induction n as [|n IH]; intros Hn; cbn [findCompaction]; [intros _; by rewrite take_0|].
  destruct (lookup_lt_is_Some_2 entries n) as [e He]; [lia|]. rewrite He. case_bool_decide as Hc; [done|]. intros H.
  rewrite (take_S_r _ _ _ He), Forall_app. split; [apply IH; [lia|done]|]. by constructor.
Qed.

Lemma findCompaction_Some entries n e i :
  (n ≤ length entries)%nat → findCompaction entries n = Some (e, i) →
  entries !! i = Some e ∧ (i < n)%nat ∧ e_type e = compaction ∧ Forall (λ e, e_type e ≠ compaction) (drop (i + 1) (take n entries)).
Proof.
  induction n as [|n IH]; intros Hn; cbn [findCompaction]; [done|].
  destruct (lookup_lt_is_Some_2 entries n) as [x Hx]; [lia|]. rewrite Hx. case_bool_decide as Hc.
  - intros [= <- <-]. split_and!; [done|lia|done|]. rewrite drop_ge; [constructor|]. rewrite length_take. lia.
  - intros H. destruct (IH ltac:(lia) H) as (H1 & H2 & H3 & H4). split_and!; [done|lia|done|].
    rewrite (take_S_r _ _ _ Hx). rewrite drop_app_le by (rewrite length_take; lia). rewrite Forall_app. split; [done|by constructor].
Qed.

(** The summary that stands for what was compacted before. *)
Definition before_messages (path : list Entry) : list AgentMessage :=
  match findCompaction path (length path) with
  | Some (e, _) =>
      match e_body e with
      | CompactionEntry summary _ tokensBefore _ _ => [CompactionSummaryMessage summary tokensBefore (e_timestamp e)]
      | _ => []
      end
  | None => []
  end.

Lemma virtual_messages e tail : omap getMessageFromEntryForCompaction (virtualRetainedEntries e tail) = tail.
Proof.
  unfold virtualRetainedEntries. generalize 0%nat. intros _.
  assert (∀ f : nat → AgentMessage → Entry, (∀ i m, e_body (f i m) = MessageEntry m false) → omap getMessageFromEntryForCompaction (imap f tail) = tail) as H.
  { induction tail as [|m tail IH]; intros f Hf; [done|]. rewrite imap_cons. cbn [omap list_omap].
    unfold getMessageFromEntryForCompaction at 1, e_type, getMessageFromEntry. rewrite Hf. cbn. f_equal. apply IH. intros i x. apply Hf. }
  by apply H.
Qed.

Lemma context_split path :
  Forall visible path →
  (buildSessionContext path no_options).2 = before_messages path ++ omap getMessageFromEntryForCompaction (compactable path).2.
Proof.
  intros Hv. unfold buildSessionContext, buildContextEntries, before_messages, compactable. cbn [snd foldl entryTransforms no_options].
  unfold defaultContextEntryTransform, contextMessages. destruct (findCompaction path (length path)) as [[e i]|] eqn:Ef.
  - destruct (findCompaction_Some _ _ _ _ (le_n _) Ef) as (He & Hi & Ht & Hrest). rewrite firstn_all in Hrest.
    unfold e_type in Ht. destruct (e_body e) as [| | | |summary tail tb d u| |] eqn:Eb; try done. cbn [snd].
    rewrite imap_cons. cbn [concat]. unfold sessionEntryToContextMessages at 1. rewrite Eb.
    rewrite omap_app, virtual_messages. cbn [app]. f_equal. f_equal.
    rewrite <- (context_messages (drop (i + 1) path) (e :: drop (i + 1) path) ltac:(by apply Forall_drop) Hrest 1). done.
  - cbn [snd app]. apply findCompaction_None in Ef; [|done]. rewrite firstn_all in Ef. by apply (context_messages path path Hv Ef 0).
Qed.

Lemma context_split_sublist path :
  (buildSessionContext path no_options).2 `sublist_of` before_messages path ++ omap getMessageFromEntryForCompaction (compactable path).2.
Proof.
  unfold buildSessionContext, buildContextEntries, before_messages, compactable. cbn [snd foldl entryTransforms no_options].
  unfold defaultContextEntryTransform, contextMessages. destruct (findCompaction path (length path)) as [[e i]|] eqn:Ef.
  - destruct (findCompaction_Some _ _ _ _ (le_n _) Ef) as (He & Hi & Ht & Hrest). rewrite firstn_all in Hrest.
    unfold e_type in Ht. destruct (e_body e) as [| | | |summary tail tb d u| |] eqn:Eb; try done. cbn [snd].
    rewrite imap_cons. cbn [concat]. unfold sessionEntryToContextMessages at 1. rewrite Eb.
    rewrite omap_app, virtual_messages. cbn [app]. apply sublist_skip, sublist_app; [done|].
    exact (context_messages_sublist (drop (i + 1) path) (e :: drop (i + 1) path) Hrest 1).
  - cbn [snd app]. apply findCompaction_None in Ef; [|done]. rewrite firstn_all in Ef. by apply (context_messages_sublist path path Ef 0).
Qed.

(** ** A prepared compaction *)

(** The parts of a preparation, by the cut. *)
Lemma prepare_parts path settings p :
  prepareCompaction path settings = Some p →
  let entries := (compactable path).2 in
  let cut := findCutPoint entries 0 (length entries) (cs_keepRecentTokens settings) in
  let kept := firstKeptEntryIndex cut in
  let start := if isSplitTurn cut then default 0%nat (turnStartIndex cut) else kept in
  (start ≤ kept ≤ length entries)%nat ∧
  cp_messagesToSummarize p = slice_messages entries 0 start ∧
  cp_turnPrefixMessages p = slice_messages entries start kept ∧
  cp_retainedTail p = slice_messages entries kept (length entries) ∧
  cp_previousSummary p = (compactable path).1 ∧ cp_isSplitTurn p = isSplitTurn cut.
Proof.
  unfold prepareCompaction. destruct (last path) as [newest|]; [|done]. case_bool_decide; [done|].
  destruct (compactable path) as [previous entries]. intros [= <-]. cbn [fst snd cp_messagesToSummarize cp_turnPrefixMessages cp_retainedTail cp_previousSummary cp_isSplitTurn].
  set (cut := findCutPoint _ _ _ _).
  assert ((if isSplitTurn cut then default 0%nat (turnStartIndex cut) else firstKeptEntryIndex cut) ≤ firstKeptEntryIndex cut ≤ length entries)%nat as Hle.
  { destruct (findValidCutPoints entries 0 (length entries)) as [|first rest] eqn:Ec.
    - unfold cut, findCutPoint. rewrite Ec. cbn. lia.
    - destruct (findCutPoint_spec entries (cs_keepRecentTokens settings) first rest Ec) as (c & [H1 _ _ H4] & _). fold cut in H1, H4.
      destruct (isSplitTurn cut); [destruct (H4 eq_refl) as (t & -> & Ht & _); cbn; lia|lia]. }
  split_and!; try done; [lia|lia|]. destruct (isSplitTurn cut); [done|]. unfold slice_messages. by rewrite Nat.sub_diag.
Qed.

Lemma prepare_partition path settings p :
  prepareCompaction path settings = Some p →
  cp_messagesToSummarize p ++ cp_turnPrefixMessages p ++ cp_retainedTail p = omap getMessageFromEntryForCompaction (compactable path).2.
Proof.
  intros H. destruct (prepare_parts _ _ _ H) as (Hle & -> & -> & -> & _). rewrite app_assoc, slice_app, slice_app, slice_all; [done|lia..].
Qed.

Lemma previous_summary path settings p :
  prepareCompaction path settings = Some p →
  match cp_previousSummary p with
  | None => before_messages path = []
  | Some summary => ∃ tokensBefore timestamp, before_messages path = [CompactionSummaryMessage summary tokensBefore timestamp]
  end.
Proof.
  intros H. destruct (prepare_parts _ _ _ H) as (_ & _ & _ & _ & -> & _). unfold compactable, before_messages.
  destruct (findCompaction path (length path)) as [[e i]|] eqn:Ef; [|done].
  destruct (findCompaction_Some _ _ _ _ (le_n _) Ef) as (_ & _ & Ht & _). unfold e_type in Ht. destruct (e_body e); try done. by eexists _, _.
Qed.

(** C10: compaction replaces the beginning of the context and leaves the rest as it is.
    What is taken apart is the earlier summary, the messages to summarize, the prefix of
    a split turn and the retained tail, in this order: the model saw exactly these
    messages, or, when the path holds entries that are not shown (a deferred response, an
    empty branch summary), a subsequence of them.  Once the compaction is on the path,
    the model sees its summary and the retained tail. *)
Theorem compaction_context path settings p id seq parent timestamp summary tokensBefore details usage :
  prepareCompaction path settings = Some p →
  (∃ earlier, let parts := earlier ++ cp_messagesToSummarize p ++ cp_turnPrefixMessages p ++ cp_retainedTail p in
     (buildSessionContext path no_options).2 `sublist_of` parts ∧
     (Forall visible path → (buildSessionContext path no_options).2 = parts) ∧
     match cp_previousSummary p with
     | None => earlier = []
     | Some s => ∃ tokens at_, earlier = [CompactionSummaryMessage s tokens at_]
     end) ∧
  (buildSessionContext (path ++ [mkEntry id seq parent timestamp (CompactionEntry summary (cp_retainedTail p) tokensBefore details usage)]) no_options).2 =
    CompactionSummaryMessage summary tokensBefore timestamp :: cp_retainedTail p.
Proof.
  intros H. split.
  - exists (before_messages path). cbn zeta. rewrite (prepare_partition _ _ _ H). split_and!; [apply context_split_sublist|apply context_split|by eapply previous_summary].
  - unfold buildSessionContext, buildContextEntries. cbn [snd foldl entryTransforms no_options].
    rewrite defaultTransform_compaction by done. unfold contextMessages. cbn. by rewrite app_nil_r.
Qed.

(** ** Tool calls and their results *)

Definition call_ids (a : AssistantMessage) : list string :=
  omap (λ c, match c with ContentToolCall call => Some (tc_id call) | _ => None end) (am_content a).

(** Every tool result answers a call of the assistant message before it, with only
    tool results between them; [ids] are the calls that may still be answered. *)
Fixpoint paired (ids : list string) (messages : list AgentMessage) : bool :=
  match messages with
  | [] => true
  | AssistantMsg a :: messages => paired (call_ids a) messages
  | ToolResultMessage id _ _ :: messages => bool_decide (id ∈ ids) && paired ids messages
  | _ :: messages => paired [] messages
  end.

Definition starts_fresh (messages : list AgentMessage) : Prop :=
  match messages with ToolResultMessage _ _ _ :: _ => False | _ => True end.

Lemma paired_fresh ids ids' messages : starts_fresh messages → paired ids messages = paired ids' messages.
Proof. by destruct messages as [|[] messages]. Qed.

Lemma paired_suffix ids before messages : paired ids (before ++ messages) = true → starts_fresh messages → paired [] messages = true.
Proof.
  intros H Hf. revert ids H. induction before as [|m before IH]; intros ids; cbn [app]; [by rewrite (paired_fresh ids [])|].
  destruct m; cbn [paired]; eauto. intros [_ H]%andb_true_iff. eauto.
Qed.

Lemma fresh_cons e entries :
  cut_entry e = true ∨ (quiet_entry e = true ∧ starts_fresh (omap getMessageFromEntryForCompaction entries)) →
  starts_fresh (omap getMessageFromEntryForCompaction (e :: entries)).
Proof.
  cbn [omap list_omap]. intros H.
  destruct (getMessageFromEntryForCompaction e) as [m|] eqn:Em; unfold getMessageFromEntryForCompaction, e_type, getMessageFromEntry, cut_entry, quiet_entry in *;
    destruct (e_body e) as [[]| | | | | |]; cbn in Em; try discriminate Em; try injection Em as <-; cbn; naive_solver.
Qed.

Lemma kept_fresh entries c k :
  (k ≤ c)%nat → (∃ e, entries !! c = Some e ∧ cut_entry e = true) →
  (∀ j e, (k ≤ j < c)%nat → entries !! j = Some e → quiet_entry e = true) →
  starts_fresh (omap getMessageFromEntryForCompaction (drop k entries)).
Proof.
  intros Hk (e & He & Hc). revert k Hk. induction c as [|c IH] in entries, He |- *; intros k Hk Hq;
    (destruct entries as [|x entries]; [done|]).
  - replace k with 0%nat by lia. cbn in He. injection He as ->. apply fresh_cons. by left.
  - assert (∀ k, (k ≤ c)%nat → (∀ j e, (k ≤ j < c)%nat → entries !! j = Some e → quiet_entry e = true) →
      starts_fresh (omap getMessageFromEntryForCompaction (drop k entries))) as IH' by (by apply IH).
    destruct k as [|k]; [|cbn [drop]; apply IH'; [lia|]; intros j y Hj Hy; apply (Hq (S j)); [lia|done]].
    rewrite drop_0. apply fresh_cons. right. split; [apply (Hq 0%nat); [lia|done]|].
    rewrite <- (drop_0 entries). apply IH'; [lia|]. intros j y Hj Hy. apply (Hq (S j)); [lia|done].
Qed.

Lemma retained_fresh path settings p :
  prepareCompaction path settings = Some p → starts_fresh (cp_retainedTail p) ∨ cp_messagesToSummarize p ++ cp_turnPrefixMessages p = [].
Proof.
  intros H. destruct (prepare_parts _ _ _ H) as (Hle & -> & -> & -> & _). rewrite slice_app by lia. set (entries := (compactable path).2) in *.
  destruct (findValidCutPoints entries 0 (length entries)) as [|first rest] eqn:Ec.
  - right. unfold findCutPoint. by rewrite Ec.
  - left. destruct (findCutPoint_spec entries (cs_keepRecentTokens settings) first rest Ec) as (c & [H1 H2 H3 _] & _).
    unfold slice_messages. rewrite take_ge by (rewrite length_drop; lia). by eapply kept_fresh; [|exact H2|]; [lia|].
Qed.

(** C11: compaction does not tear a tool result from its call: on a path without deferred
    responses and empty branch summaries, if every tool result the model saw answers a
    call of the assistant message before it, so does every one it sees after the
    compaction. *)
Theorem compaction_paired path settings p id seq parent timestamp summary tokensBefore details usage :
  Forall visible path → prepareCompaction path settings = Some p → paired [] (buildSessionContext path no_options).2 = true →
  paired [] (buildSessionContext (path ++ [mkEntry id seq parent timestamp (CompactionEntry summary (cp_retainedTail p) tokensBefore details usage)]) no_options).2 = true.
Proof.
  intros Hv H Hp. unfold buildSessionContext at 1, buildContextEntries. cbn [snd foldl entryTransforms no_options].
  rewrite defaultTransform_compaction by done. unfold contextMessages. cbn. rewrite app_nil_r.
  rewrite context_split, <- (prepare_partition _ _ _ H) in Hp by done. rewrite (app_assoc (cp_messagesToSummarize p)) in Hp.
  destruct (retained_fresh _ _ _ H) as [Hf|E]; [rewrite !app_assoc in Hp; by eapply paired_suffix|].
  rewrite E in Hp. cbn [app] in Hp. pose proof (previous_summary _ _ _ H) as Hprev.
  destruct (cp_previousSummary p); [destruct Hprev as (? & ? & Hb)|]; [|rewrite Hprev in Hp; exact Hp]. rewrite Hb in Hp. exact Hp.
Qed.

(** ** How much is kept *)

Lemma sorted_filter {A} (R : relation A) (P : A → Prop) `{∀ x, Decision (P x)} l : StronglySorted R l → StronglySorted R (filter P l).
Proof.
  induction 1 as [|x l Hs IH Hall]; [constructor|]. rewrite filter_cons. case_decide; [|done]. constructor; [done|].
  apply Forall_forall. intros y [_ Hy]%list_elem_of_filter. rewrite Forall_forall in Hall. auto.
Qed.

Lemma seq_strongly_sorted k n : StronglySorted lt (seq k n).
Proof. revert k. induction n as [|n IH]; intros k; cbn; constructor; [apply IH|]. apply Forall_seq. lia. Qed.

Lemma cuts_sorted entries : StronglySorted lt (findValidCutPoints entries 0 (length entries)).
Proof. unfold findValidCutPoints. apply sorted_filter, seq_strongly_sorted. Qed.

Lemma first_cut_least (P : nat → Prop) `{∀ n, Decision (P n)} cuts c :
  StronglySorted lt cuts → head (filter P cuts) = Some c → P c ∧ ∀ c', c' ∈ cuts → (c' < c)%nat → ¬ P c'.
Proof.
  induction 1 as [|x cuts Hs IH Hall]; [done|]. rewrite filter_cons. destruct (decide (P x)) as [Hx|Hx].
  - intros [= <-]. split; [done|]. intros c' Hc' Hlt. apply elem_of_cons in Hc' as [-> |Hc']; [lia|].
    rewrite Forall_forall in Hall. specialize (Hall _ Hc'). lia.
  - intros Hh. destruct (IH Hh) as [H1 H2]. split; [done|]. intros c' Hc' Hlt. apply elem_of_cons in Hc' as [-> |Hc']; auto.
Qed.

(** where the cut is: at the first possible point after which fewer tokens than the
    limit remain, with the entries right before it that hold no message; if after
    every possible point there remain as many as the limit, at the first of all. *)
Theorem cut_point_choice entries keep :
  0 < keep → findValidCutPoints entries 0 (length entries) ≠ [] →
  ∃ c, cut_ok entries c (findCutPoint entries 0 (length entries) keep) ∧
    ((recent entries (S c) < keep ∧ ∀ c' e, entries !! c' = Some e → cut_entry e = true → (c' < c)%nat → keep ≤ recent entries (S c')) ∨
     (∀ c' e, entries !! c' = Some e → cut_entry e = true → keep ≤ recent entries (S c') ∧ (c ≤ c')%nat)).
Proof.
  intros Hk Hne. pose proof (cuts_sorted entries) as Hs. pose proof (cut_points_spec entries) as Hsp.
  destruct (findValidCutPoints entries 0 (length entries)) as [|first rest] eqn:Ec; [done|].
  destruct (findCutPoint_spec entries keep first rest Ec) as (c & Hok & Hc). exists c. split; [done|]. specialize (Hc Hk).
  unfold chosen_cut, first_cut in Hc. set (P := λ c, recent entries (S c) < keep) in Hc.
  destruct (head (filter P (first :: rest))) as [x|] eqn:Eh; cbn in Hc; subst c.
  - left. destruct (first_cut_least P _ _ Hs Eh) as [H1 H2]. split; [done|]. intros c' e He Hce Hlt.
    assert (c' ∈ first :: rest) as Hin by (apply Hsp; by exists e). specialize (H2 _ Hin Hlt). unfold P in H2. lia.
  - right. intros c' e He Hce. assert (c' ∈ first :: rest) as Hin by (apply Hsp; by exists e).
    assert (filter P (first :: rest) = []) as Hf by (by destruct (filter P (first :: rest))).
    assert (¬ P c') as Hn by (intros HP; assert (c' ∈ filter P (first :: rest)) as Hx by (by apply list_elem_of_filter); rewrite Hf in Hx; by apply elem_of_nil in Hx).
    unfold P in Hn. split; [lia|]. apply elem_of_cons in Hin as [-> |Hin]; [done|]. inversion Hs as [|? ? _ Hall]; subst.
    rewrite Forall_forall in Hall. specialize (Hall _ Hin). lia.
Qed.

(** tool results that alone are as many tokens as the limit defeat compaction: when
    after every possible cut point as many tokens as the limit remain, nothing is
    summarized and everything is retained. *)
Theorem oversized_results_keep_all path settings p e :
  0 < cs_keepRecentTokens settings → prepareCompaction path settings = Some p →
  head (compactable path).2 = Some e → cut_entry e = true →
  (∀ c e, (compactable path).2 !! c = Some e → cut_entry e = true → cs_keepRecentTokens settings ≤ recent (compactable path).2 (S c)) →
  cp_messagesToSummarize p = [] ∧ cp_turnPrefixMessages p = [] ∧
  cp_retainedTail p = omap getMessageFromEntryForCompaction (compactable path).2.
Proof.
  intros Hk H Hh He Hall. destruct (prepare_parts _ _ _ H) as (Hle & H1 & H2 & H3 & _). set (entries := (compactable path).2) in *.
  rewrite head_lookup in Hh. assert (0%nat ∈ findValidCutPoints entries 0 (length entries)) as Hin by (apply cut_points_spec; by exists e).
  destruct (findValidCutPoints entries 0 (length entries)) as [|first rest] eqn:Ec; [by apply elem_of_nil in Hin|].
  destruct (findCutPoint_spec entries (cs_keepRecentTokens settings) first rest Ec) as (c & [H4 _ _ _] & Hc). specialize (Hc Hk).
  assert (c = 0%nat) as ->.
  { subst c. assert (∃ x, entries !! chosen_cut entries (cs_keepRecentTokens settings) first (first :: rest) = Some x ∧ cut_entry x = true) as (x & Hx & Hcx).
    { apply cut_points_spec. rewrite Ec. apply first_cut_elem. by left. }
    unfold chosen_cut, first_cut in *. destruct (head (filter _ (first :: rest))) as [y|] eqn:Eh; cbn [from_option id] in *.
    - apply head_Some_elem_of, list_elem_of_filter in Eh as [Hy _]. specialize (Hall _ _ Hx Hcx). lia.
    - pose proof (cuts_sorted entries) as Hs. rewrite Ec in Hs. apply elem_of_cons in Hin as [<-|Hin]; [done|].
      inversion Hs as [|? ? _ Hf]; subst. rewrite Forall_forall in Hf. specialize (Hf _ Hin). lia. }
  assert (firstKeptEntryIndex (findCutPoint entries 0 (length entries) (cs_keepRecentTokens settings)) = 0%nat) as E by lia.
  rewrite E in *. replace (if isSplitTurn _ then _ else _) with 0%nat in * by lia. split_and!; [done|done|]. rewrite H3. apply slice_all.
Qed.

(** ** Files *)

(** A call of the tool [name] on the file [f]. *)
Definition calls_file (name : string) (f : jsstr) (messages : list AgentMessage) : Prop :=
  ∃ a call, AssistantMsg a ∈ messages ∧ ContentToolCall call ∈ am_content a ∧ tc_name call = name ∧ call_path call = Some f.

Lemma set_add_elem f g s : f ∈ set_add g s ↔ f = g ∨ f ∈ s.
Proof. unfold set_add. case_bool_decide; [|rewrite elem_of_app, list_elem_of_singleton]; naive_solver. Qed.

Lemma set_add_nodup f s : NoDup s → NoDup (set_add f s).
Proof.
  intros H. unfold set_add. case_bool_decide; [done|]. apply NoDup_app. split_and!; [done| |apply NoDup_singleton].
  intros x Hx ->%list_elem_of_singleton. done.
Qed.

(** What a field of the accumulated operations holds. *)
Record collects (field : FileOperations → list jsstr) (name : string) : Prop := {
  co_call ops call f : f ∈ field (add_call ops call) ↔ f ∈ field ops ∨ (tc_name call = name ∧ call_path call = Some f);
  co_nodup ops call : NoDup (field ops) → NoDup (field (add_call ops call));
}.

Ltac solve_collects :=
  split; [intros ops call f; unfold add_call; destruct (call_path call) as [path|]; [|naive_solver];
          repeat (case_bool_decide; [cbn; rewrite ?set_add_elem; naive_solver congruence|]); naive_solver
         |intros ops call H; unfold add_call; destruct (call_path call) as [path|]; [|done];
          repeat (case_bool_decide; [cbn; first [by apply set_add_nodup|done]|]); done].

Lemma collects_read : collects fo_read "read".
Proof. solve_collects. Qed.
Lemma collects_written : collects fo_written "write".
Proof. solve_collects. Qed.
Lemma collects_edited : collects fo_edited "edit".
Proof. solve_collects. Qed.

Lemma collect_message field name ops m f : collects field name →
  f ∈ field (extractFileOpsFromMessage ops m) ↔ f ∈ field ops ∨ calls_file name f [m].
Proof.
  intros Hf. destruct m as [|a| | | | |];
    try (split; [by left|]; intros [?|(a & call & Hin & _)]; [done|]; apply list_elem_of_singleton in Hin; discriminate Hin).
  assert (calls_file name f [AssistantMsg a] ↔ ∃ call, ContentToolCall call ∈ am_content a ∧ tc_name call = name ∧ call_path call = Some f) as ->.
  { split; [intros (a' & call & Ha & H); apply list_elem_of_singleton in Ha; injection Ha as ->; by exists call|].
    intros (call & H). exists a, call. split; [by left|done]. }
  cbn [extractFileOpsFromMessage]. generalize (am_content a). intros blocks. revert ops.
  induction blocks as [|b blocks IH]; intros ops; cbn [foldl].
  - split; [by left|]. intros [?|(call & Hin & _)]; [done|]. by apply elem_of_nil in Hin.
  - rewrite IH. split.
    + intros [H|(call & Hin & H)]; [|right; exists call; split; [by right|done]]. destruct b as [| | |call]; try (by left).
      apply (co_call _ _ Hf) in H as [H|H]; [by left|]. right. exists call. split; [by left|done].
    + intros [H|(call & Hin & H)].
      * left. destruct b; try done. apply (co_call _ _ Hf). by left.
      * apply elem_of_cons in Hin as [<-|Hin]; [|right; by exists call]. left. apply (co_call _ _ Hf). by right.
Qed.

Lemma collect_messages field name ops ms f : collects field name →
  f ∈ field (foldl extractFileOpsFromMessage ops ms) ↔ f ∈ field ops ∨ calls_file name f ms.
Proof.
  intros Hf. revert ops. induction ms as [|m ms IH]; intros ops; cbn [foldl].
  - split; [by left|]. intros [?|(a & call & Hin & _)]; [done|]. by apply elem_of_nil in Hin.
  - rewrite IH, (collect_message field name) by done. unfold calls_file. split.
    + intros [[?|(a & call & Hin & H)]|(a & call & Hin & H)]; [by left|right..]; exists a, call; (split; [|done]); [|by right].
      apply list_elem_of_singleton in Hin as <-. by left.
    + intros [?|(a & call & Hin & H)]; [by left; left|]. apply elem_of_cons in Hin as [<-|Hin]; [left; right|right]; exists a, call; (split; [|done]); [by left|done].
Qed.

Lemma collect_nodup field name ops ms : collects field name → NoDup (field ops) → NoDup (field (foldl extractFileOpsFromMessage ops ms)).
Proof.
  intros Hf. revert ops. induction ms as [|m ms IH]; intros ops H; cbn [foldl]; [done|]. apply IH.
  destruct m as [|a| | | | |]; try done. cbn [extractFileOpsFromMessage]. revert ops H.
  induction (am_content a) as [|b blocks IHb]; intros ops H; cbn [foldl]; [done|]. apply IHb. destruct b; try done. by apply (co_nodup _ _ Hf).
Qed.

(** *** Sorted lists *)

#[export] Instance units_le_trans : Transitive units_le.
Proof.
  unfold units_le. intros a. induction a as [|x a IH]; intros [|y b] [|z c]; cbn; try done.
  destruct (x <? y) eqn:E1, (y <? x) eqn:E2, (y <? z) eqn:E3, (z <? y) eqn:E4, (x <? z) eqn:E5, (z <? x) eqn:E6; try done; try lia; intros; eauto.
Qed.

#[export] Instance units_le_total : Total units_le.
Proof.
  unfold units_le. intros a. induction a as [|x a IH]; intros [|y b]; cbn; auto.
  destruct (x <? y) eqn:E1, (y <? x) eqn:E2; auto. 
Qed.

Lemma merge_sorted l : StronglySorted units_le (merge_sort units_le l) ∧ merge_sort units_le l ≡ₚ l.
Proof. split; [apply (StronglySorted_merge_sort units_le)|apply merge_sort_Permutation]. Qed.

Lemma fold_set_add l s f : f ∈ foldl (λ s f, set_add f s) s l ↔ f ∈ s ∨ f ∈ l.
Proof.
  revert s. induction l as [|x l IH]; intros s; cbn [foldl]; [set_solver|]. rewrite IH, set_add_elem, elem_of_cons. naive_solver.
Qed.

Lemma fold_set_nodup l s : NoDup s → NoDup (foldl (λ s f, set_add f s) s l).
Proof. revert s. induction l as [|x l IH]; intros s H; cbn [foldl]; [done|]. apply IH. by apply set_add_nodup. Qed.

(** A list of files as [sort] leaves it. *)
Definition file_list (l : list jsstr) : Prop := NoDup l ∧ StronglySorted units_le l.

Lemma computeFileLists_spec ops :
  NoDup (fo_read ops) →
  let '(readFiles, modifiedFiles) := computeFileLists ops in
  file_list readFiles ∧ file_list modifiedFiles ∧
  (∀ f, f ∈ modifiedFiles ↔ f ∈ fo_edited ops ∨ f ∈ fo_written ops) ∧
  (∀ f, f ∈ readFiles ↔ f ∈ fo_read ops ∧ f ∉ modifiedFiles).
Proof.
  intros Hr. unfold computeFileLists. set (modified := foldl _ _ _). set (readOnly := filter _ _).
  destruct (merge_sorted readOnly) as [Hs1 Hp1], (merge_sorted modified) as [Hs2 Hp2].
  assert (∀ f, f ∈ merge_sort units_le modified ↔ f ∈ fo_edited ops ∨ f ∈ fo_written ops) as Hm.
  { intros f. rewrite Hp2. unfold modified. rewrite fold_set_add, elem_of_app. split; [intros [H|H]; [by apply elem_of_nil in H|done]|by right]. }
  split_and!; try done.
  - split; [|done]. rewrite Hp1. unfold readOnly. by apply NoDup_filter.
  - split; [|done]. rewrite Hp2. apply fold_set_nodup. constructor.
  - intros f. rewrite Hp1. unfold readOnly. rewrite list_elem_of_filter, Hp2. tauto.
Qed.

Definition previous_details (path : list Entry) : option json :=
  match findCompaction path (length path) with
  | Some (e, _) => match e_body e with CompactionEntry _ _ _ details _ => details | _ => None end
  | None => None
  end.

Lemma fold_read_fields l ops :
  fo_read (foldl add_read ops l) = foldl (λ s f, set_add f s) (fo_read ops) l ∧
  fo_written (foldl add_read ops l) = fo_written ops ∧ fo_edited (foldl add_read ops l) = fo_edited ops.
Proof. revert ops. induction l as [|x l IH]; intros ops; cbn [foldl]; [done|]. destruct (IH (add_read ops x)) as (-> & -> & ->). done. Qed.

Lemma fold_edited_fields l ops :
  fo_edited (foldl add_edited ops l) = foldl (λ s f, set_add f s) (fo_edited ops) l ∧
  fo_written (foldl add_edited ops l) = fo_written ops ∧ fo_read (foldl add_edited ops l) = fo_read ops.
Proof. revert ops. induction l as [|x l IH]; intros ops; cbn [foldl]; [done|]. destruct (IH (add_edited ops x)) as (-> & -> & ->). done. Qed.

(** The operations a compaction starts from. *)
Definition initial_ops (details : option json) : FileOperations :=
  foldl add_edited (foldl add_read createFileOps (string_list details "readFiles")) (string_list details "modifiedFiles").

Lemma initial_ops_spec details :
  NoDup (fo_read (initial_ops details)) ∧ (∀ f, f ∈ fo_read (initial_ops details) ↔ f ∈ string_list details "readFiles") ∧
  fo_written (initial_ops details) = [] ∧ (∀ f, f ∈ fo_edited (initial_ops details) ↔ f ∈ string_list details "modifiedFiles").
Proof.
  unfold initial_ops. destruct (fold_edited_fields (string_list details "modifiedFiles") (foldl add_read createFileOps (string_list details "readFiles"))) as (-> & -> & ->).
  destruct (fold_read_fields (string_list details "readFiles") createFileOps) as (-> & -> & ->). cbn [createFileOps fo_read fo_written fo_edited].
  split_and!; [apply fold_set_nodup; constructor| |done|]; intros f; rewrite fold_set_add; (split; [intros [H|H]; [by apply elem_of_nil in H|done]|by right]).
Qed.

Lemma prepare_files path settings p :
  prepareCompaction path settings = Some p →
  cp_fileOps p = foldl extractFileOpsFromMessage (initial_ops (previous_details path)) (cp_messagesToSummarize p ++ cp_turnPrefixMessages p).
Proof.
  unfold prepareCompaction. destruct (last path) as [newest|]; [|done]. case_bool_decide; [done|].
  destruct (compactable path) as [previous entries]. intros [= <-]. cbn [cp_fileOps cp_messagesToSummarize cp_turnPrefixMessages].
  assert (∀ ms, extractFileOperations ms (fst <$> findCompaction path (length path)) = foldl extractFileOpsFromMessage (initial_ops (previous_details path)) ms) as Hx.
  { intros ms. unfold extractFileOperations, initial_ops, previous_details. by destruct (findCompaction path (length path)) as [[]|]. }
  rewrite foldl_app, Hx. by destruct (isSplitTurn _).
Qed.

Lemma compact_files o p r : compact o p = Ok r → (cr_readFiles r, cr_modifiedFiles r) = computeFileLists (cp_fileOps p).
Proof.
  unfold compact. intros H. destruct (if _ && _ then _ else _) as [summarized|]; [|done]. cbn [rbind] in H.
  destruct (computeFileLists (cp_fileOps p)) as [readFiles modifiedFiles]. by injection H as <-.
Qed.

(** the file lists of a compaction are complete: the modified files are those the
    previous compaction lists and those that the calls of [edit] and [write] in the
    summarized messages name; the read files are the others that were read; both are
    sorted and without repetition. *)
Theorem compaction_files path settings p o r :
  prepareCompaction path settings = Some p → compact o p = Ok r →
  let summarized := cp_messagesToSummarize p ++ cp_turnPrefixMessages p in
  (∀ f, f ∈ cr_modifiedFiles r ↔
     f ∈ string_list (previous_details path) "modifiedFiles" ∨ calls_file "edit" f summarized ∨ calls_file "write" f summarized) ∧
  (∀ f, f ∈ cr_readFiles r ↔
     (f ∈ string_list (previous_details path) "readFiles" ∨ calls_file "read" f summarized) ∧ f ∉ cr_modifiedFiles r) ∧
  file_list (cr_readFiles r) ∧ file_list (cr_modifiedFiles r).
Proof.
  intros Hp Hr summarized. pose proof (compact_files _ _ _ Hr) as Hf. pose proof (prepare_files _ _ _ Hp) as Ho. fold summarized in Ho.
  destruct (initial_ops_spec (previous_details path)) as (Hn & Hi1 & Hi2 & Hi3).
  pose proof (computeFileLists_spec (cp_fileOps p)) as Hc. rewrite <- Hf in Hc.
  destruct Hc as (H1 & H2 & H3 & H4); [rewrite Ho; by apply (collect_nodup _ _ _ _ collects_read)|].
  split_and!; [| |done|done].
  - intros f. rewrite H3, Ho, (collect_messages _ _ _ _ _ collects_edited), (collect_messages _ _ _ _ _ collects_written), Hi2, Hi3.
    split; [intros [[?|?]|[Hx|?]]; [..|by apply elem_of_nil in Hx|]; auto|intros [?|[?|?]]; auto].
  - intros f. by rewrite H4, Ho, (collect_messages _ _ _ _ _ collects_read), Hi1.
Qed.

(** ** The summary *)

Lemma completion_answers o request : ∃ response, completeSimpleWithRetries o request = Some response.
Proof.
  unfold completeSimpleWithRetries. destruct (retry_loop_spec (so_complete o request) (so_slept o) (so_retry o) (retry_fuel (so_retry o)) 0 None [])
    as (n & answer & events & H & _); [unfold retry_fuel; lia|]. exists answer. unfold retryAssistantCall. change (Z.of_nat 0) with 0 in H. by rewrite H.
Qed.

(** The retries never run out of fuel. *)
Lemma summary_answered o ms reserve previous :
  generateSummaryWithUsage o ms reserve previous ≠ Err OutOfRetries ∧ generateTurnPrefixSummary o ms reserve ≠ Err OutOfRetries.
Proof.
  unfold generateSummaryWithUsage, generateTurnPrefixSummary.
  split; match goal with |- summary_of (completeSimpleWithRetries o ?r) _ _ ≠ _ => destruct (completion_answers o r) as [[response|] ->] end; cbn;
    repeat case_bool_decide; discriminate.
Qed.

(** [p] with another summary of what was compacted before. *)
Definition with_previous (p : CompactionPreparation) (previous : option string) : CompactionPreparation :=
  mkPreparation (cp_messagesToSummarize p) (cp_turnPrefixMessages p) (cp_retainedTail p) (cp_isSplitTurn p) (cp_tokensBefore p) previous
    (cp_fileOps p) (cp_settings p).


(** ** Instances *)

Definition text_entry (id : string) (m : AgentMessage) : Entry := mkEntry id 1 None 0 (MessageEntry m false).
Definition user_says (text : string) : AgentMessage := UserMessage (PlainText text) 0.
Definition path_call (id name path : string) : AgentToolCall := mkToolCall id name (TMap [(js_lit "path", TText (js_lit path))]).
Definition calling_ (id name path : string) : AssistantMessage := mkAssistant [ContentToolCall (path_call id name path)] "p" "m" toolUse None TNull.
Definition calling (id name path : string) : AgentMessage := AssistantMsg (calling_ id name path).
Definition result_says (id text : string) : AgentMessage :=
  ToolResultMessage id "read" (TMap [(js_lit "content", TArray [TMap [(js_lit "type", TText (js_lit "text")); (js_lit "text", TText (js_lit text))]])]).

(** Two turns; the second reads one file and edits another. *)
Definition sample_path : list Entry :=
  [text_entry "1" (user_says "the first question"); text_entry "2" (calling "a" "read" "x.ts"); text_entry "3" (result_says "a" "contents");
   text_entry "4" (user_says "the second question"); text_entry "5" (calling "b" "edit" "y.ts"); text_entry "6" (result_says "b" "done")].

Definition keep_tokens (n : Z) : CompactionSettings := mkCompactionSettings true 1000 n.

Definition sample_preparation : CompactionPreparation :=
  default (mkPreparation [] [] [] false S754_nan None createFileOps DEFAULT_COMPACTION_SETTINGS) (prepareCompaction sample_path (keep_tokens 5)).

Lemma sample_prepared : prepareCompaction sample_path (keep_tokens 5) = Some sample_preparation.
Proof. vm_compute. reflexivity. Qed.

Lemma sample_visible : Forall visible sample_path.
Proof. repeat constructor; discriminate. Qed.

(** The cut splits the second turn. *)
Lemma sample_shape :
  length (cp_messagesToSummarize sample_preparation) = 3%nat ∧ length (cp_turnPrefixMessages sample_preparation) = 1%nat ∧
  length (cp_retainedTail sample_preparation) = 2%nat ∧ cp_isSplitTurn sample_preparation = true.
Proof. vm_compute. auto. Qed.

Lemma compaction_context_witness :
  (buildSessionContext sample_path no_options).2 =
    cp_messagesToSummarize sample_preparation ++ cp_turnPrefixMessages sample_preparation ++ cp_retainedTail sample_preparation.
Proof.
  destruct (compaction_context sample_path (keep_tokens 5) sample_preparation "7" 7 (Some "6") 0 "s" 100 None None sample_prepared)
    as [(earlier & _ & H & He) _]. specialize (H sample_visible).
  assert (cp_previousSummary sample_preparation = None) as E by (vm_compute; reflexivity). rewrite E in He. rewrite He in H. exact H.
Defined.

Lemma compaction_paired_witness :
  paired [] (buildSessionContext sample_path no_options).2 = true ∧
  paired [] (buildSessionContext (sample_path ++ [mkEntry "7" 7 (Some "6") 0 (CompactionEntry "s" (cp_retainedTail sample_preparation) 100 None None)]) no_options).2 = true.
Proof.
  assert (paired [] (buildSessionContext sample_path no_options).2 = true) as Hp by (vm_compute; reflexivity). split; [exact Hp|].
  exact (compaction_paired sample_path (keep_tokens 5) sample_preparation "7" 7 (Some "6") 0 "s" 100 None None sample_visible sample_prepared Hp).
Defined.

Lemma cut_point_choice_witness :
  ∃ c, cut_ok sample_path c (findCutPoint sample_path 0 (length sample_path) 5).
Proof.
  destruct (cut_point_choice sample_path 5) as (c & H & _); [lia|vm_compute; discriminate|]. exists c. exact H.
Defined.

(** One question, and a result larger than the limit. *)
Definition oversized_path : list Entry :=
  [text_entry "1" (user_says "the first question"); text_entry "2" (calling "a" "read" "x.ts");
   text_entry "3" (result_says "a" "a long result that does not fit at all")].

Definition oversized_preparation : CompactionPreparation := default sample_preparation (prepareCompaction oversized_path (keep_tokens 5)).

Lemma oversized_results_keep_all_witness :
  cp_messagesToSummarize oversized_preparation = [] ∧ length (cp_retainedTail oversized_preparation) = 3%nat.
Proof.
  assert (∀ c e, (compactable oversized_path).2 !! c = Some e → cut_entry e = true → cs_keepRecentTokens (keep_tokens 5) ≤ recent (compactable oversized_path).2 (S c)) as Hall.
  { intros c e He Hc. assert (c < 2)%nat as Hlt.
    { apply lookup_lt_Some in He as Hl. change (length (compactable oversized_path).2) with 3%nat in Hl.
      destruct (decide (c = 2%nat)) as [-> |]; [|lia]. vm_compute in He. injection He as <-. discriminate Hc. }
    transitivity (recent (compactable oversized_path).2 2); [vm_compute; discriminate|]. apply recent_mono. lia. }
  destruct (oversized_results_keep_all oversized_path (keep_tokens 5) oversized_preparation (text_entry "1" (user_says "the first question"))
    ltac:(done) ltac:(vm_compute; reflexivity) eq_refl eq_refl Hall) as (H1 & _ & H2).
  split; [exact H1|]. rewrite H2. reflexivity.
Defined.

(** A model that answers with a fixed text. *)
Definition answering (text : string) : SummaryOptions :=
  mkSummaryOptions (mkModel 0 false 0) None None None
    (λ _ _, Ok (mkAssistant [ContentText text] "p" "m" stop None (TMap []))) (λ _, true).

Definition sample_compacted : result CompactionError CompactResult := compact (answering "sum") sample_preparation.

Lemma compaction_files_witness :
  ∃ r, sample_compacted = Ok r ∧ (js_lit "x.ts" ∈ cr_readFiles r) ∧ ¬ (js_lit "y.ts" ∈ cr_modifiedFiles r).
Proof.
  destruct sample_compacted as [r|] eqn:E; [|vm_compute in E; discriminate E]. exists r. split; [reflexivity|].
  destruct (compaction_files sample_path (keep_tokens 5) sample_preparation (answering "sum") r sample_prepared E) as (H1 & H2 & _).
  assert (js_lit "y.ts" ∉ cr_modifiedFiles r) as Hy.
  { vm_compute in E. injection E as <-. apply not_elem_of_nil. }
  assert (js_lit "x.ts" ∉ cr_modifiedFiles r) as Hx.
  { vm_compute in E. injection E as <-. apply not_elem_of_nil. }
  split; [|exact Hy]. apply H2. split; [|exact Hx]. right. exists (calling_ "a" "read" "x.ts"), (path_call "a" "read" "x.ts").
  split; [apply (list_elem_of_lookup_2 _ 1); vm_compute; reflexivity|]. split; [left|]. split; [reflexivity|vm_compute; reflexivity].
Defined.

(** A compaction, and a turn after it that is cut in the middle. *)
Definition split_path : list Entry :=
  [mkEntry "0" 1 None 0 (CompactionEntry "the whole story" [] 100 None None);
   text_entry "4" (user_says "the second question"); text_entry "5" (calling "b" "edit" "y.ts"); text_entry "6" (result_says "b" "done")].

Definition split_preparation : CompactionPreparation := default sample_preparation (prepareCompaction split_path (keep_tokens 5)).


(** A deferred response, and the one that came for it. *)
Definition deferred_path : list Entry :=
  [text_entry "1" (user_says "q"); text_entry "2" (AssistantMsg (mkAssistant [] "p" "m" deferred None TNull));
   text_entry "3" (AssistantMsg (mkAssistant [ContentText "answer"] "p" "m" stop None TNull))].

(** Compaction retains a deferred response, which the context leaves out: after it the
    model sees the response that it did not see before. *)
Example deferred_retained :
  length (buildSessionContext deferred_path no_options).2 = 2%nat ∧
  (λ p, length (cp_retainedTail p)) <$> prepareCompaction deferred_path (keep_tokens 100) = Some 3%nat.
Proof. vm_compute. split; reflexivity. Qed.
