(* ===== verification/BranchSummary.v ===== *)
(** Summaries of abandoned branches: [harness/compaction/branch-summarization.ts].

    The session's queries are those of [SessionState], which [Session] passes on.  An
    empty identifier is falsy, as in the code; 0.9 times the budget is exact below
    2^50. *)
From S2P Require Import Prelude JsValue JsMap Json Regex SessionTypes SessionState SessionSpec SessionQueries Context Retry Compaction CompactionSpec.
Open Scope Z_scope.

(** ** Collecting the entries *)

Record CollectEntriesResult := mkCollected { ce_entries : list Entry; ce_commonAncestorId : option string }.

Definition all_query : EntryQuery := mkEntryQuery None None None None None.

(** [while (current && current !== commonAncestorId)] *)
Fixpoint collect_loop (fuel : nat) (s : SessionState) (commonAncestorId : option string) (current : option string) (entries : list Entry) :
    result session_error (list Entry) :=
  match truthy_string current with
  | None => Ok entries
  | Some id =>
      if bool_decide (Some id = commonAncestorId) then Ok entries else
      match fuel with
      | O => Err WalkFuel
      | S fuel =>
          match getEntry s id with
          | None => Err (SessionError invalid_entry id)
          | Some entry => collect_loop fuel s commonAncestorId (e_parentId entry) (entries ++ [entry])
          end
      end
  end.

Definition collectEntriesForBranchSummary (s : SessionState) (oldLeafId : option string) (targetId : string) :
    result session_error CollectEntriesResult :=
  match truthy_string oldLeafId with
  | None => Ok (mkCollected [] None)
  | Some oldLeaf =>
      let* oldEntries := findEntriesOnBranch s oldLeaf no_bounds all_query in
      let oldPath := e_id <$> oldEntries in
      let* targetPath := findEntriesOnBranch s targetId no_bounds all_query in
      let commonAncestorId := e_id <$> head (filter (λ e, e_id e ∈ oldPath) targetPath) in
      let* entries := collect_loop (walk_fuel s) s commonAncestorId (Some oldLeaf) [] in
      Ok (mkCollected (reverse entries) commonAncestorId)
  end.

(** ** Choosing the messages *)

Record BranchPreparation := mkBranch { bp_messages : list AgentMessage; bp_fileOps : FileOperations; bp_totalTokens : Z }.

Definition branch_message (entry : Entry) : option AgentMessage :=
  match e_body entry with
  | MessageEntry m _ => if bool_decide (role m = RToolResult) then None else Some m
  | BranchSummaryEntry fromId summary _ _ => Some (createBranchSummaryMessage summary fromId (e_timestamp entry))
  | CompactionEntry summary _ tokensBefore _ _ => Some (createCompactionSummaryMessage summary tokensBefore (e_timestamp entry))
  | _ => None
  end.

(** The files that earlier branch summaries list. *)
Definition add_details (ops : FileOperations) (entry : Entry) : FileOperations :=
  match e_body entry with
  | BranchSummaryEntry _ _ details _ =>
      foldl add_edited (foldl add_read ops (string_list details "readFiles")) (string_list details "modifiedFiles")
  | _ => ops
  end.

(** The loop from the last entry to the first. *)
Fixpoint branch_loop (tokenBudget : Z) (newestFirst : list Entry) (messages : list AgentMessage) (ops : FileOperations) (totalTokens : Z) : BranchPreparation :=
  match newestFirst with
  | [] => mkBranch messages ops totalTokens
  | entry :: older =>
      match branch_message entry with
      | None => branch_loop tokenBudget older messages ops totalTokens
      | Some m =>
          let ops := extractFileOpsFromMessage ops m in
          let tokens := estimateTokens m in
          if (0 <? tokenBudget) && (tokenBudget <? totalTokens + tokens) then
            if bool_decide (e_type entry = compaction ∨ e_type entry = branch_summary) && (10 * totalTokens <? 9 * tokenBudget)
            then mkBranch (m :: messages) ops (totalTokens + tokens)
            else mkBranch messages ops totalTokens
          else branch_loop tokenBudget older (m :: messages) ops (totalTokens + tokens)
      end
  end.

Definition prepareBranchEntries (entries : list Entry) (tokenBudget : Z) : BranchPreparation :=
  branch_loop tokenBudget (reverse entries) [] (foldl add_details createFileOps entries) 0.

(** ** The summary *)

Definition BRANCH_SUMMARY_PREAMBLE : jsstr := text_lines
  ["The user explored a different conversation branch before returning here.";
   "Summary of that exploration:";
   "";
   ""].

Definition BRANCH_SUMMARY_PROMPT : jsstr := text_lines
  ["Create a structured summary of this conversation branch for context when returning later.";
   "";
   "Use this EXACT format:";
   "";
   "## Goal";
   "[What was the user trying to accomplish in this branch?]";
   "";
   "## Constraints & Preferences";
   "- [Any constraints, preferences, or requirements mentioned]";
   "- [Or " +:+ dq +:+ "(none)" +:+ dq +:+ " if none were mentioned]";
   "";
   "## Progress";
   "### Done";
   "- [x] [Completed tasks/changes]";
   "";
   "### In Progress";
   "- [ ] [Work that was started but not finished]";
   "";
   "### Blocked";
   "- [Issues preventing progress, if any]";
   "";
   "## Key Decisions";
   "- **[Decision]**: [Brief rationale]";
   "";
   "## Next Steps";
   "1. [What should happen next to continue this work]";
   "";
   "Keep each section concise. Preserve exact file paths, function names, and error messages."].

Record BranchSummaryResult := mkBranchSummary {
  bs_summary : jsstr; bs_usage : option TokenUsage; bs_readFiles : list jsstr; bs_modifiedFiles : list jsstr }.

Definition branch_instructions (customInstructions : option string) (replaceInstructions : bool) : jsstr :=
  match truthy_string customInstructions with
  | Some text =>
      if replaceInstructions then js_lit text
      else BRANCH_SUMMARY_PROMPT ++ nl_ ++ nl_ ++ js_lit "Additional focus: " ++ js_lit text
  | None => BRANCH_SUMMARY_PROMPT
  end.

(** The errors are those of compaction, [BranchSummaryError] having the same codes. *)
Definition generateBranchSummary (o : SummaryOptions) (entries : list Entry) (replaceInstructions : bool) (reserveTokens : option Z) :
    result CompactionError BranchSummaryResult :=
  let contextWindow := if md_contextWindow (so_model o) =? 0 then 128000 else md_contextWindow (so_model o) in
  let tokenBudget := contextWindow - default 16384 reserveTokens in
  let prepared := prepareBranchEntries entries tokenBudget in
  match bp_messages prepared with
  | [] => Ok (mkBranchSummary (js_lit "No content to summarize") None [] [])
  | messages =>
      let promptText := conversation_text messages ++ branch_instructions (so_customInstructions o) replaceInstructions in
      let* response :=
        summary_of (completeSimpleWithRetries o (mkRequest SUMMARIZATION_SYSTEM_PROMPT promptText 2048 None))
          "Branch summary aborted" "Branch summary failed: " in
      let '(readFiles, modifiedFiles) := computeFileLists (bp_fileOps prepared) in
      let summary := BRANCH_SUMMARY_PREAMBLE ++ response.1 ++ formatFileOperations readFiles modifiedFiles in
      Ok (mkBranchSummary summary response.2 readFiles modifiedFiles)
  end.

(** ** What is collected *)

Lemma filter_every {A} (f : A → bool) l : (∀ x, f x = true) → List.filter f l = l.
Proof. intros H. induction l as [|x l IH]; [done|]. cbn. by rewrite H, IH. Qed.

Lemma upto_none {A} (l : list A) : upto (λ _, false) l = l.
Proof. induction l as [|x l IH]; [done|]. cbn. by rewrite IH. Qed.

Lemma branch_path s id e :
  reachable s → entriesById s !! id = Some e → ∃ path, chain s e path ∧ NoDup (e_id <$> path) ∧ findEntriesOnBranch s id no_bounds all_query = Ok path.
Proof.
  intros Hs He. destruct (findEntriesOnBranch_spec s id e no_bounds all_query Hs He) as (path & Hc & ->); [done|done|].
  exists path. split; [done|]. split.
  - destruct (walkToRoot_chain s id e no_bounds (reachable_WF _ Hs) He) as (path' & Hc' & Hn & _). by rewrite (chain_det _ _ _ _ Hc Hc').
  - cbn. rewrite upto_none, filter_every; done.
Qed.

(** A common entry of two paths is followed by the same ancestors. *)
Lemma chain_suffix s e path pre x post : chain s e path → path = pre ++ x :: post → chain s x (x :: post).
Proof.
  intros H. revert pre. induction H as [e Hp|e p q path Hp Hq Hc IH]; intros pre Heq.
  - destruct pre as [|y pre]; [injection Heq as <- <-; by constructor|]. by destruct pre.
  - destruct pre as [|y pre]; injection Heq as <- Heq; [subst; by econstructor|]. by eapply IH.
Qed.

Lemma chain_ids s e path x : WF s → chain s e path → entriesById s !! e_id e = Some e → x ∈ path → entriesById s !! e_id x = Some x.
Proof.
  intros Hw. induction 1 as [e Hp|e p q path Hp Hq Hc IH]; intros He; [by intros ->%list_elem_of_singleton|].
  intros [-> |Hx]%elem_of_cons; [done|]. apply IH; [|done]. pose proof Hq as [_ Hid]%(wf_byId s Hw). by rewrite Hid.
Qed.

(** The part of a path before the entry [anc]. *)
Fixpoint until (anc : option string) (path : list Entry) : list Entry :=
  match path with
  | [] => []
  | e :: path => if bool_decide (Some (e_id e) = anc) then [] else e :: until anc path
  end.

Lemma collect_chain s e path anc fuel acc :
  WF s → chain s e path → entriesById s !! e_id e = Some e → (∀ x, x ∈ path → e_id x ≠ EmptyString) → (length path ≤ fuel)%nat →
  collect_loop fuel s anc (Some (e_id e)) acc = Ok (acc ++ until anc path).
Proof.
  intros Hw H. revert fuel acc. induction H as [e Hp|e p q path Hp Hq Hc IH]; intros fuel acc He Hne Hf;
    (destruct fuel as [|fuel]; [cbn in Hf; lia|]); cbn [collect_loop until];
    (assert (truthy_string (Some (e_id e)) = Some (e_id e)) as -> by (destruct (e_id e) eqn:E; [by destruct (Hne e ltac:(by left))|done]));
    (case_bool_decide; [by rewrite app_nil_r|]); unfold getEntry; rewrite He, Hp.
  - by destruct fuel.
  - pose proof Hq as [_ Hid]%(wf_byId s Hw). rewrite <- Hid in Hq |- *.
    rewrite IH; [by rewrite <- app_assoc|done|intros x Hx; apply Hne; by right|cbn in Hf; lia].
Qed.

Lemma until_app anc pre x post : NoDup (e_id <$> pre ++ x :: post) → anc = Some (e_id x) → until anc (pre ++ x :: post) = pre.
Proof.
  intros Hn ->. induction pre as [|y pre IH]; cbn [app until]; [by rewrite bool_decide_eq_true_2|].
  cbn in Hn. apply NoDup_cons in Hn as [Hy Hn]. rewrite bool_decide_eq_false_2; [by rewrite IH|].
  intros [= E]. apply Hy. rewrite E. apply list_elem_of_fmap_2. apply elem_of_app. right. by left.
Qed.

Lemma until_none path : until None path = path.
Proof. induction path as [|e path IH]; [done|]. cbn. by rewrite IH. Qed.

Lemma head_filter_split {A} (P : A → Prop) `{∀ x, Decision (P x)} l x :
  head (filter P l) = Some x → ∃ pre post, l = pre ++ x :: post ∧ P x ∧ Forall (λ y, ¬ P y) pre.
Proof.
  induction l as [|y l IH]; [done|]. rewrite filter_cons. case_decide; [intros [= ->]; by exists [], l|].
  intros Hh. destruct (IH Hh) as (pre & post & -> & Hx & Hall). exists (y :: pre), post. split_and!; [done..|]. by constructor.
Qed.

Lemma walk_fuel_path s e path : WF s → chain s e path → e ∈ entries s → (length path ≤ walk_fuel s)%nat.
Proof.
  intros Hw Hc [i Hi]%list_elem_of_lookup. destruct (chain_exists s i e Hw Hi) as (path' & Hc' & Hl & _).
  rewrite (chain_det _ _ _ _ Hc Hc'). unfold walk_fuel. apply lookup_lt_Some in Hi. lia.
Qed.

(** what is summarized when another entry is navigated to: the paths of both entries
    end in the same ancestors, the abandoned ones are exactly the entries of the old
    path that the new one does not have, oldest first, and the common ancestor is
    the deepest. *)
Theorem branch_collected s oldLeaf targetId e t :
  reachable s → entriesById s !! oldLeaf = Some e → entriesById s !! targetId = Some t →
  (∀ x, x ∈ entries s → e_id x ≠ EmptyString) →
  ∃ left_ new common r, chain s e (left_ ++ common) ∧ chain s t (new ++ common) ∧
    collectEntriesForBranchSummary s (Some oldLeaf) targetId = Ok r ∧
    ce_entries r = reverse left_ ∧ ce_commonAncestorId r = e_id <$> head common ∧ (∀ x, x ∈ left_ → x ∉ new ++ common).
Proof.
  intros Hs He Ht Hne. pose proof (reachable_WF _ Hs) as Hw.
  destruct (branch_path s oldLeaf e Hs He) as (old & Hco & Hno & Ho), (branch_path s targetId t Hs Ht) as (target & Hct & Hnt & Htg).
  pose proof He as [Hein Heid]%(wf_byId s Hw). pose proof Ht as [Htin Htid]%(wf_byId s Hw).
  assert (∀ x, x ∈ old → entriesById s !! e_id x = Some x) as Hold by (intros x; eapply chain_ids; [done|done|congruence]).
  assert (∀ x, x ∈ target → entriesById s !! e_id x = Some x) as Htar by (intros x; eapply chain_ids; [done|done|congruence]).
  assert (∀ anc, collect_loop (walk_fuel s) s anc (Some oldLeaf) [] = Ok (until anc old)) as Hloop.
  { intros anc. rewrite <- Heid. apply (collect_chain s e old anc (walk_fuel s) []); try done; [congruence| |by eapply walk_fuel_path].
    intros x Hx. apply Hne. by apply Hold, (wf_byId s Hw) in Hx as [? _]. }
  unfold collectEntriesForBranchSummary.
  assert (truthy_string (Some oldLeaf) = Some oldLeaf) as -> by (destruct oldLeaf; [by destruct (Hne _ Hein)|done]).
  rewrite Ho, Htg. cbn [rbind]. destruct (head (filter (λ x, e_id x ∈ e_id <$> old) target)) as [x|] eqn:Eh.
  - destruct (head_filter_split _ _ _ Eh) as (new & post & -> & Hx & Hall). apply list_elem_of_fmap in Hx as (y & Hid & Hy).
    assert (y = x) as -> by (pose proof (Hold y Hy) as H1; pose proof (Htar x ltac:(apply elem_of_app; right; by left)) as H2; congruence).
    apply list_elem_of_split in Hy as (left_ & post' & ->).
    assert (post' = post) as -> by (pose proof (chain_suffix _ _ _ _ _ _ Hco eq_refl) as H1; pose proof (chain_suffix _ _ _ _ _ _ Hct eq_refl) as H2;
      pose proof (chain_det _ _ _ _ H1 H2) as H3; by injection H3).
    eexists left_, new, (x :: post), _. split; [done|]. split; [done|]. cbn [fmap option_fmap option_map]. rewrite Hloop. cbn [rbind].
    split; [done|]. cbn [ce_entries ce_commonAncestorId head fmap option_fmap option_map]. rewrite (until_app _ _ x) by done. split_and!; [done|done|].
    intros z Hz Hin. apply elem_of_app in Hin as [Hin|Hin].
    + rewrite Forall_forall in Hall. apply (Hall z Hin). apply list_elem_of_fmap_2, elem_of_app. by left.
    + rewrite fmap_app in Hno. apply NoDup_app in Hno as (_ & Hd & _). apply (Hd (e_id z)); by apply list_elem_of_fmap_2.
  - eexists old, target, [], _. rewrite !app_nil_r. split; [done|]. split; [done|]. cbn [fmap option_fmap option_map]. rewrite Hloop. cbn [rbind].
    split; [done|]. cbn [ce_entries ce_commonAncestorId head]. rewrite until_none. split_and!; [done|done|].
    intros z Hz Hin. assert (z ∈ filter (λ x, e_id x ∈ e_id <$> old) target) as Hf by (apply list_elem_of_filter; split; [by apply list_elem_of_fmap_2|done]).
    destruct (filter (λ x, e_id x ∈ e_id <$> old) target); [by apply elem_of_nil in Hf|done].
Qed.

(** ** What fits the budget *)

Definition tokens_of (messages : list AgentMessage) : Z := sum_Z (estimateTokens <$> messages).

Lemma tokens_cons m ms : tokens_of (m :: ms) = estimateTokens m + tokens_of ms.
Proof. done. Qed.

(** The choice of [chosen] with [older] messages left out. *)
Record fits (budget : Z) (older chosen : list AgentMessage) : Prop := {
  ft_all : budget ≤ 0 → older = [];
  ft_budget : 0 < budget → tokens_of chosen ≤ budget ∨
    ∃ m rest, chosen = m :: rest ∧ (role m = RBranchSummary ∨ role m = RCompactionSummary) ∧ 10 * tokens_of rest < 9 * budget;
  ft_longest m : last older = Some m → budget < tokens_of chosen + estimateTokens m;
}.

Lemma branch_loop_spec budget newest messages ops total :
  total = tokens_of messages → (0 < budget → tokens_of messages ≤ budget) →
  ∃ older, omap branch_message (reverse newest) ++ messages = older ++ bp_messages (branch_loop budget newest messages ops total) ∧
    bp_totalTokens (branch_loop budget newest messages ops total) = tokens_of (bp_messages (branch_loop budget newest messages ops total)) ∧
    fits budget older (bp_messages (branch_loop budget newest messages ops total)).
Proof.
  revert messages ops total. induction newest as [|e newest IH]; intros messages ops total Ht Hb; cbn [branch_loop].
  - exists []. split_and!; [done|done|]. split; [done|auto|done].
  - rewrite reverse_cons, omap_app. cbn [omap list_omap]. destruct (branch_message e) as [m|] eqn:Em; [|rewrite app_nil_r; by apply IH].
    rewrite <- app_assoc. cbn [app]. destruct ((0 <? budget) && (budget <? total + estimateTokens m)) eqn:Eb.
    + apply andb_true_iff in Eb as [Hpos Hover]. apply Z.ltb_lt in Hpos, Hover. case_match eqn:Ek; cbn [bp_messages bp_totalTokens].
      * apply andb_true_iff in Ek as [Hty Hlt]. apply bool_decide_eq_true in Hty. apply Z.ltb_lt in Hlt.
        exists (omap branch_message (reverse newest)). split_and!; [done|rewrite tokens_cons; lia|]. split; [lia| |].
        -- intros _. right. exists m, messages. split; [done|]. split; [|lia]. unfold branch_message, e_type in *.
           destruct (e_body e); cbn in Hty; destruct Hty; try done; injection Em as <-; auto.
        -- intros x _. rewrite tokens_cons. pose proof (estimateTokens_nonneg x). lia.
      * exists (omap branch_message (reverse newest) ++ [m]). split_and!; [by rewrite <- app_assoc|done|]. split; [lia|left; auto|].
        intros x. rewrite last_snoc. intros [= <-]. lia.
    + apply andb_false_iff in Eb. apply IH; [rewrite tokens_cons; lia|]. intros Hpos. rewrite tokens_cons.
      destruct Eb as [Eb|Eb]; [apply Z.ltb_ge in Eb; lia|apply Z.ltb_ge in Eb; lia].
Qed.

(** the messages of a branch that are summarized are its last ones, as many as fit
    the budget, all of them when there is none; only a summary may exceed it, and
    only when the messages after it use less than nine tenths. *)
Theorem branch_budget entries budget :
  let r := prepareBranchEntries entries budget in
  ∃ older, omap branch_message entries = older ++ bp_messages r ∧ bp_totalTokens r = tokens_of (bp_messages r) ∧ fits budget older (bp_messages r).
Proof.
  intros r. destruct (branch_loop_spec budget (reverse entries) [] (foldl add_details createFileOps entries) 0 eq_refl) as (older & H1 & H2 & H3).
  { cbn. lia. }
  exists older. rewrite reverse_involutive, app_nil_r in H1. done.
Qed.

(** ** Instances *)

Lemma branch_collected_witness :
  ∃ left_ new common r, chain ex_state (ex_entry "b" 2 (Some "a")) (left_ ++ common) ∧ chain ex_state (ex_entry "c" 4 (Some "a")) (new ++ common) ∧
    collectEntriesForBranchSummary ex_state (Some "b") "c" = Ok r ∧ ce_entries r = reverse left_ ∧ ce_commonAncestorId r = Some "a".
Proof.
  destruct (branch_collected ex_state "b" "c" (ex_entry "b" 2 (Some "a")) (ex_entry "c" 4 (Some "a"))) as (left_ & new & common & r & H1 & H2 & H3 & H4 & _);
    [exact ex_state_reachable|vm_compute; reflexivity|vm_compute; reflexivity| |].
  { assert (Forall (λ x, e_id x ≠ EmptyString) (entries ex_state)) as Hall by (vm_compute; repeat constructor; discriminate).
    rewrite Forall_forall in Hall. exact Hall. }
  exists left_, new, common, r. split_and!; [exact H1|exact H2|exact H3|exact H4|]. vm_compute in H3. injection H3 as <-. reflexivity.
Defined.
