(* ===== verification/SessionManager.v ===== *)
(** The session manager of the coding agent: [coding-agent/src/core/session-manager.ts].

    A session is a tree of entries in a JSON-lines file, with a leaf.  Entries are the
    property lists of their objects, as the code reads them from a file without
    validation; a line that is JSON but not an object with the fields of its type is
    [Untyped] here.  The file operations are Node's synchronous ones, which may throw.
    Paths are resolved by the caller; identifiers and times are arguments. *)
From Stdlib Require Import SpecFloat.
From S2P Require Import Prelude JsValue JsMap Json Regex NodePath JsonSpec JsonlCodec JsonlCodecSpec FileSystem JsonlStorage JsonlStorageSpec JsonlRepo Compaction.
Open Scope Z_scope.

(** ** Entries *)

Notation FileEntry := obj.

Definition str_field (e : obj) (name : string) : option jsstr := match field e name with Some (TText s) => Some s | _ => None end.
Definition type_is (e : obj) (name : string) : bool := bool_decide (str_field e "type" = Some (js_lit name)).
Definition entry_id (e : obj) : jsstr := default [] (str_field e "id").
Definition parent_id (e : obj) : option jsstr := str_field e "parentId".
Definition timestamp_of (e : obj) : jsstr := default [] (str_field e "timestamp").
Definition is_session (e : obj) : bool := type_is e "session".

(** [{ ...e, [name]: v }], and an assignment. *)
Definition put (e : obj) (name : string) (v : tree) : obj := map_set e (js_lit name) v.

Definition nullable (v : option jsstr) : tree := match v with Some s => TText s | None => TNull end.

(** A property that is absent from the file when it is undefined. *)
Definition optional (name : string) (v : option tree) : obj := match v with Some t => [(js_lit name, t)] | None => [] end.

Definition message_of (e : obj) : obj := match field e "message" with Some (TMap m) => m | _ => [] end.
Definition is_assistant (e : obj) : bool := type_is e "message" && bool_decide (str_field (message_of e) "role" = Some (js_lit "assistant")).
Definition has_assistant (entries : list obj) : bool := existsb is_assistant entries.

(** What the static types say of an entry, as far as the code relies on it. *)
Definition typed_entry (e : obj) : bool :=
  bool_decide (is_Some (str_field e "type")) && bool_decide (is_Some (str_field e "id")) && bool_decide (is_Some (str_field e "timestamp")) &&
  (is_session e || match field e "parentId" with Some TNull | Some (TText _) => true | _ => false end) &&
  (negb (type_is e "message") || bool_decide (is_Some (isObject (field e "message")))) &&
  (negb (type_is e "label") || bool_decide (is_Some (str_field e "targetId"))).

(** ** Identifiers *)

Definition CURRENT_SESSION_VERSION : Z := 3.

(** The candidates are the results of [randomUUID], in order. *)
Fixpoint generate_loop (taken : list jsstr) (uuid : nat → jsstr) (n i : nat) : option jsstr :=
  match n with
  | O => None
  | S n => let id := take 8 (uuid i) in if bool_decide (id ∈ taken) then generate_loop taken uuid n (S i) else Some id
  end.

Definition generateId (taken : list jsstr) (uuid : nat → jsstr) : jsstr :=
  match generate_loop taken uuid 100 0 with Some id => id | None => uuid 100%nat end.

Definition assertValidSessionId (id : jsstr) : bool := test SESSION_ID_PATTERN id.

(** ** Migration *)

(** [migrateV1ToV2]'s loop: [done] are the entries before, [rest] those from here on,
    which have no identifiers yet. *)
Definition first_kept_field (entries : list obj) (e : obj) : obj :=
  if type_is e "compaction" then
    match field e "firstKeptEntryIndex" with
    | Some (TNum n) =>
        let target := match n with NInt z => if z <? 0 then None else entries !! Z.to_nat z | NNegZero => entries !! 0%nat | _ => None end in
        let e := match target with
                 | Some t => if is_session t then e else
                     match field t "id" with Some id => put e "firstKeptEntryId" id | None => map_delete e (js_lit "firstKeptEntryId") end
                 | None => e
                 end in
        map_delete e (js_lit "firstKeptEntryIndex")
    | _ => e
    end
  else e.

Fixpoint migrate_v1_loop (uuid : nat → nat → jsstr) (ids : list jsstr) (prevId : option jsstr) (done rest : list obj) : list obj :=
  match rest with
  | [] => done
  | e :: rest =>
      if is_session e then migrate_v1_loop uuid ids prevId (done ++ [put e "version" (TNum (NInt 2))]) rest else
      let id := generateId ids (uuid (length done)) in
      let e := put (put e "id" (TText id)) "parentId" (nullable prevId) in
      migrate_v1_loop uuid ids (Some id) (done ++ [first_kept_field (done ++ e :: rest) e]) rest
  end.

Definition migrateV1ToV2 (uuid : nat → nat → jsstr) (entries : list obj) : list obj := migrate_v1_loop uuid [] None [] entries.

Definition migrateV2ToV3 (entries : list obj) : list obj :=
  (λ e, if is_session e then put e "version" (TNum (NInt 3)) else
        if type_is e "message" && bool_decide (str_field (message_of e) "role" = Some (js_lit "hookMessage"))
        then put e "message" (TMap (put (message_of e) "role" (TText (js_lit "custom")))) else e) <$> entries.

(** [header?.version ?? 1] *)
Definition version_of (entries : list obj) : option jsnum :=
  match List.find is_session entries with
  | Some h => match field h "version" with Some (TNum n) => Some n | None | Some TNull => Some (NInt 1) | Some _ => None end
  | None => Some (NInt 1)
  end.

Definition num_lt (n : jsnum) (k : Z) : bool := SFltb (double_of_num n) (double_of_Z k).
Definition num_ge (n : jsnum) (k : Z) : bool := SFleb (double_of_Z k) (double_of_num n).

(** The entries after the migrations, and whether there were any. *)
Definition migrateToCurrentVersion (uuid : nat → nat → jsstr) (entries : list obj) : option (list obj * bool) :=
  match version_of entries with
  | None => None
  | Some version =>
      if num_ge version CURRENT_SESSION_VERSION then Some (entries, false) else
      let entries := if num_lt version 2 then migrateV1ToV2 uuid entries else entries in
      let entries := if num_lt version 3 then migrateV2ToV3 entries else entries in
      Some (entries, true)
  end.

(** ** The path to the root and the context *)

Definition index_of (entries : list obj) : list (jsstr * obj) := foldl (λ index e, map_set index (entry_id e) e) [] entries.

(** [current.parentId ? index.get(current.parentId) : undefined] *)
Definition parent_in (index : list (jsstr * obj)) (e : obj) : option obj :=
  match parent_id e with Some p => if bool_decide (p = []) then None else map_get index p | None => None end.

(** The loop of [buildSessionPath] and [getBranch]; [None] when it has not ended. *)
Fixpoint path_loop (fuel : nat) (index : list (jsstr * obj)) (current : option obj) (path : list obj) : option (list obj) :=
  match current with
  | None => Some path
  | Some e => match fuel with O => None | S fuel => path_loop fuel index (parent_in index e) (e :: path) end
  end.

(** The fuel: a path without repetitions is no longer than the index. *)
Definition path_fuel (index : list (jsstr * obj)) : nat := S (length index).

(** [leafId] is a string, null or undefined. *)
Inductive LeafArg := NoLeaf | NullLeaf | AtLeaf (id : jsstr).

Definition buildSessionPath (entries : list obj) (leafId : LeafArg) (byId : option (list (jsstr * obj))) : option (list obj) :=
  let index := default (index_of entries) byId in
  match leafId with
  | NullLeaf => Some []
  | _ =>
      let leaf := match leafId with AtLeaf id => if bool_decide (id = []) then None else map_get index id | _ => None end in
      match (match leaf with Some e => Some e | None => last entries end) with
      | None => Some []
      | Some leaf => path_loop (path_fuel index) index (Some leaf) []
      end
  end.

Definition Settings := (jsstr * option (option tree * option tree))%type.

Definition settings_step (s : Settings) (e : obj) : Settings :=
  if type_is e "thinking_level_change" then (default [] (str_field e "thinkingLevel"), s.2)
  else if type_is e "model_change" then (s.1, Some (field e "provider", field e "modelId"))
  else if is_assistant e then (s.1, Some (field (message_of e) "provider", field (message_of e) "model"))
  else s.

Definition getSessionContextSettings (path : list obj) : Settings := foldl settings_step (js_lit "off", None) path.

(** [new Date(timestamp).getTime()]: the times are written by [toISOString]; NaN for any
    other text. *)
Definition days_from_civil (y m d : Z) : Z :=
  let y := if m <=? 2 then y - 1 else y in
  let era := y / 400 in
  let yoe := y - era * 400 in
  let doy := (153 * (if 2 <? m then m - 3 else m + 9) + 2) / 5 + d - 1 in
  era * 146097 + (yoe * 365 + yoe / 4 - yoe / 100 + doy) - 719468.

Definition number_at (s : jsstr) (from len : nat) : option Z :=
  let ds := take len (drop from s) in
  if bool_decide (length ds = len) && forallb is_digit ds then Some (digits_value ds) else None.

Definition Date_parse (s : jsstr) : jsnum :=
  if negb (bool_decide ((λ i, s !! i) <$> [4; 7; 10; 13; 16; 19; 23]%nat = Some <$> js_lit "--T::.Z" ∧ length s = 24%nat)) then NNaN else
  match number_at s 0 4, number_at s 5 2, number_at s 8 2, number_at s 11 2, number_at s 14 2, number_at s 17 2, number_at s 20 3 with
  | Some y, Some mo, Some d, Some h, Some mi, Some sec, Some ms =>
      NInt (days_from_civil y mo d * 86400000 + h * 3600000 + mi * 60000 + sec * 1000 + ms)
  | _, _, _, _, _, _, _ => NNaN
  end.

Example date_example : Date_parse (toISOString 1700000000123) = NInt 1700000000123 ∧ Date_parse (js_lit "tomorrow") = NNaN.
Proof. vm_compute. done. Qed.

Definition time_field (e : obj) : obj := [(js_lit "timestamp", TNum (Date_parse (timestamp_of e)))].

Definition copied (e : obj) (name : string) : obj := optional name (field e name).

(** [content == null] *)
Definition no_content (m : obj) : bool := match field m "content" with None | Some TNull => true | Some _ => false end.

Definition role_in (m : obj) (roles : list string) : bool := match str_field m "role" with Some r => has roles r | None => false end.

Definition sessionEntryToContextMessages (e : obj) : list obj :=
  if type_is e "message" then
    let m := message_of e in
    if role_in m ["user"; "assistant"; "toolResult"] && no_content m then [put m "content" (TArray [])] else [m]
  else if type_is e "custom_message" then
    [(js_lit "role", TText (js_lit "custom")) :: copied e "customType" ++
      [(js_lit "content", match field e "content" with Some TNull | None => TArray [] | Some c => c end)] ++
      copied e "display" ++ copied e "details" ++ time_field e]
  else if type_is e "branch_summary" && bool_decide (default [] (str_field e "summary") ≠ []) then
    [(js_lit "role", TText (js_lit "branchSummary")) :: copied e "summary" ++ copied e "fromId" ++ time_field e]
  else if type_is e "compaction" then
    [(js_lit "role", TText (js_lit "compactionSummary")) :: copied e "summary" ++ copied e "tokensBefore" ++ time_field e]
  else [].

(** The entries from the first kept one on. *)
Fixpoint from_kept (firstKept : option jsstr) (found : bool) (entries : list obj) : list obj :=
  match entries with
  | [] => []
  | e :: entries =>
      let found := found || bool_decide (Some (entry_id e) = firstKept) in
      (if found then [e] else []) ++ from_kept firstKept found entries
  end.

Definition context_entries (path : list obj) : list obj :=
  match last (filter (λ e, type_is e "compaction" = true) path) with
  | None => path
  | Some comp =>
      match list_find (λ e, entry_id e = entry_id comp) path with
      | None => path
      | Some (i, _) => comp :: from_kept (str_field comp "firstKeptEntryId") false (take i path) ++ drop (S i) path
      end
  end.

Definition buildContextEntries (entries : list obj) (leafId : LeafArg) (byId : option (list (jsstr * obj))) : option (list obj) :=
  context_entries <$> buildSessionPath entries leafId byId.

Definition SessionContext := (list obj * Settings)%type.

Definition context_of_path (path : list obj) : SessionContext := (context_entries path ≫= sessionEntryToContextMessages, getSessionContextSettings path).

Definition buildSessionContext (entries : list obj) (leafId : LeafArg) (byId : option (list (jsstr * obj))) : option SessionContext :=
  context_of_path <$> buildSessionPath entries leafId byId.

(** ** Files *)

(** Node's synchronous file operations on text files, with a schedule of failures: the
    next operation fails after writing that many code units. *)
Record nodefs := mkFs { nf_files : gmap path jsstr; nf_faults : list (option nat) }.

Inductive error := Untyped | Thrown (message : string).

Definition existsSync (p : path) (fs : nodefs) : bool := bool_decide (is_Some (nf_files fs !! p)).

(** [openSync(p, "w")], and with [exclusive] [openSync(p, "wx")]. *)
Definition openWrite (exclusive : bool) (p : path) (fs : nodefs) : nodefs * result error unit :=
  match nf_faults fs with
  | Some _ :: rest => (mkFs (nf_files fs) rest, Err (Thrown "open"))
  | faults =>
      if exclusive && existsSync p fs then (mkFs (nf_files fs) (tail faults), Err (Thrown "EEXIST"))
      else (mkFs (<[p := []]> (nf_files fs)) (tail faults), Ok tt)
  end.

(** [appendFileSync], and [writeFileSync] to the end of an open file. *)
Definition appendText (p : path) (t : jsstr) (fs : nodefs) : nodefs * result error unit :=
  let written k := <[p := default [] (nf_files fs !! p) ++ k]> (nf_files fs) in
  match nf_faults fs with
  | Some n :: rest => (mkFs (written (take n t)) rest, Err (Thrown "write"))
  | faults => (mkFs (written t) (tail faults), Ok tt)
  end.

Definition line_of (e : obj) : jsstr := JSON_stringify (TMap e) ++ [newline].

Fixpoint write_lines (p : path) (entries : list obj) (fs : nodefs) : nodefs * result error unit :=
  match entries with
  | [] => (fs, Ok tt)
  | e :: entries =>
      match appendText p (line_of e) fs with
      | (fs, Ok _) => write_lines p entries fs
      | (fs, Err e) => (fs, Err e)
      end
  end.

Definition write_file (exclusive : bool) (p : path) (entries : list obj) (fs : nodefs) : nodefs * result error unit :=
  match openWrite exclusive p fs with
  | (fs, Ok _) => write_lines p entries fs
  | (fs, Err e) => (fs, Err e)
  end.

(** [parseSessionEntryLine]: no entry, an entry, or JSON that is not an object. *)
Definition parseSessionEntryLine (line : jsstr) : result error (option obj) :=
  if bool_decide (trim line = []) then Ok None else
  match JSON_parse line with
  | None | Some TNull | Some (TBool false) | Some (TNum (NInt 0)) | Some (TNum NNegZero) | Some (TText []) => Ok None
  | Some (TMap e) => Ok (Some e)
  | Some _ => Err Untyped
  end.

(** A chunk that was read: the complete lines are taken off the pending text. *)
Fixpoint take_complete (lines : list jsstr) (entries : list obj) : result error (list obj * jsstr) :=
  match lines with
  | [] => Ok (entries, [])
  | [pending] => Ok (entries, pending)
  | line :: lines =>
      match parseSessionEntryLine line with
      | Err e => Err e
      | Ok e => take_complete lines (entries ++ option_list e)
      end
  end.

Fixpoint read_chunks (chunks : list jsstr) (entries : list obj) (pending : jsstr) : result error (list obj * jsstr) :=
  match chunks with
  | [] => Ok (entries, pending)
  | chunk :: chunks =>
      match take_complete (split_lines (pending ++ chunk)) entries with
      | Err e => Err e
      | Ok (entries, pending) => read_chunks chunks entries pending
      end
  end.

(** [chunks] is how the reads cut the text of the file. *)
Definition loadEntriesFromFile (chunks : jsstr → list jsstr) (p : path) (fs : nodefs) : nodefs * result error (list obj) :=
  match nf_files fs !! p with
  | None => (fs, Ok [])
  | Some content =>
      match read_chunks (chunks content) [] [] with
      | Err e => (fs, Err e)
      | Ok (entries, pending) =>
          match parseSessionEntryLine pending with
          | Err e => (fs, Err e)
          | Ok e =>
              match entries ++ option_list e with
              | [] => (fs, Ok [])
              | header :: entries =>
                  if negb (is_session header) || bool_decide (str_field header "id" = None) then (fs, Ok []) else
                  if bool_decide (pending = []) then (fs, Ok (header :: entries)) else
                  match appendText p [newline] fs with
                  | (fs, Ok _) => (fs, Ok (header :: entries))
                  | (fs, Err e) => (fs, Err e)
                  end
              end
          end
      end
  end.

(** ** The manager *)

Record SessionManager := mkManager {
  sm_sessionId : jsstr; sm_sessionFile : option path; sm_sessionDir : path; sm_cwd : path; sm_persist : bool; sm_flushed : bool;
  sm_fileEntries : list obj; sm_byId : list (jsstr * obj); sm_labelsById : list (jsstr * jsstr); sm_labelTimestampsById : list (jsstr * jsstr);
  sm_leafId : option jsstr }.

Definition set_file (m : SessionManager) (p : option path) : SessionManager :=
  mkManager (sm_sessionId m) p (sm_sessionDir m) (sm_cwd m) (sm_persist m) (sm_flushed m) (sm_fileEntries m) (sm_byId m) (sm_labelsById m) (sm_labelTimestampsById m) (sm_leafId m).
Definition set_flushed (m : SessionManager) (b : bool) : SessionManager :=
  mkManager (sm_sessionId m) (sm_sessionFile m) (sm_sessionDir m) (sm_cwd m) (sm_persist m) b (sm_fileEntries m) (sm_byId m) (sm_labelsById m) (sm_labelTimestampsById m) (sm_leafId m).
Definition set_session (m : SessionManager) (id : jsstr) (entries : list obj) : SessionManager :=
  mkManager id (sm_sessionFile m) (sm_sessionDir m) (sm_cwd m) (sm_persist m) (sm_flushed m) entries (sm_byId m) (sm_labelsById m) (sm_labelTimestampsById m) (sm_leafId m).
Definition set_leaf (m : SessionManager) (leaf : option jsstr) : SessionManager :=
  mkManager (sm_sessionId m) (sm_sessionFile m) (sm_sessionDir m) (sm_cwd m) (sm_persist m) (sm_flushed m) (sm_fileEntries m) (sm_byId m) (sm_labelsById m) (sm_labelTimestampsById m) leaf.
Definition set_index (m : SessionManager) (byId : list (jsstr * obj)) (labels stamps : list (jsstr * jsstr)) (leaf : option jsstr) : SessionManager :=
  mkManager (sm_sessionId m) (sm_sessionFile m) (sm_sessionDir m) (sm_cwd m) (sm_persist m) (sm_flushed m) (sm_fileEntries m) byId labels stamps leaf.

Definition getEntries (m : SessionManager) : list obj := filter (λ e, is_session e = false) (sm_fileEntries m).
Definition leaf_arg (m : SessionManager) : LeafArg := match sm_leafId m with Some id => AtLeaf id | None => NullLeaf end.

(** A label that is set, or cleared by an empty or absent text. *)
Definition set_label (m : list (jsstr * jsstr)) (target : jsstr) (label : option jsstr) (v : jsstr) : list (jsstr * jsstr) :=
  match label with Some (_ :: _) => map_set m target v | _ => map_delete m target end.

(** The four fields that [_buildIndex] computes. *)
Record Index := mkIndex { ix_byId : list (jsstr * obj); ix_labels : list (jsstr * jsstr); ix_stamps : list (jsstr * jsstr); ix_leaf : option jsstr }.

Definition index_step (ix : Index) (e : obj) : Index :=
  if is_session e then ix else
  let byId := map_set (ix_byId ix) (entry_id e) e in
  if type_is e "label" then
    let target := default [] (str_field e "targetId") in
    let label := str_field e "label" in
    mkIndex byId (set_label (ix_labels ix) target label (default [] label)) (set_label (ix_stamps ix) target label (timestamp_of e)) (Some (entry_id e))
  else mkIndex byId (ix_labels ix) (ix_stamps ix) (Some (entry_id e)).

Definition index_entries (entries : list obj) : Index := foldl index_step (mkIndex [] [] [] None) entries.

Definition buildIndex (m : SessionManager) : SessionManager :=
  let ix := index_entries (sm_fileEntries m) in set_index m (ix_byId ix) (ix_labels ix) (ix_stamps ix) (ix_leaf ix).

Definition rewriteFile (m : SessionManager) (fs : nodefs) : nodefs * result error unit :=
  match sm_persist m, sm_sessionFile m with
  | true, Some p => write_file false p (sm_fileEntries m) fs
  | _, _ => (fs, Ok tt)
  end.

(** [_persist] *)
Definition persist_entry (m : SessionManager) (e : obj) (fs : nodefs) : SessionManager * nodefs * result error unit :=
  match sm_persist m, sm_sessionFile m with
  | true, Some p =>
      if negb (has_assistant (sm_fileEntries m)) then
        if sm_flushed m then let '(fs, r) := appendText p (line_of e) fs in (m, fs, r) else (m, fs, Ok tt)
      else if negb (sm_flushed m) then
        match write_file true p (sm_fileEntries m) fs with
        | (fs, Ok _) => (set_flushed m true, fs, Ok tt)
        | (fs, Err e) => (m, fs, Err e)
        end
      else let '(fs, r) := appendText p (line_of e) fs in (m, fs, r)
  | _, _ => (m, fs, Ok tt)
  end.

(** [_appendEntry]; a failure leaves the entry in memory. *)
Definition appendEntry (m : SessionManager) (e : obj) (fs : nodefs) : SessionManager * nodefs * result error jsstr :=
  let m := mkManager (sm_sessionId m) (sm_sessionFile m) (sm_sessionDir m) (sm_cwd m) (sm_persist m) (sm_flushed m) (sm_fileEntries m ++ [e])
             (map_set (sm_byId m) (entry_id e) e) (sm_labelsById m) (sm_labelTimestampsById m) (Some (entry_id e)) in
  let '(m, fs, r) := persist_entry m e fs in
  (m, fs, rmap (λ _, entry_id e) r).

(** The results of [randomUUID], of [createSessionId] and of [new Date().toISOString()]. *)
Record Fresh := mkFresh { fr_uuid : nat → nat → jsstr; fr_session : jsstr; fr_now : jsstr }.

Definition new_id (m : SessionManager) (r : Fresh) : jsstr := generateId ((sm_byId m).*1) (fr_uuid r 0%nat).

Definition base_fields (m : SessionManager) (r : Fresh) : obj :=
  [(js_lit "id", TText (new_id m r)); (js_lit "parentId", nullable (sm_leafId m)); (js_lit "timestamp", TText (fr_now r))].
Definition typed_as (name : string) : obj := [(js_lit "type", TText (js_lit name))].
Definition text_as (name : string) (s : jsstr) : obj := [(js_lit name, TText s)].

Definition appendMessage (message : obj) (r : Fresh) (m : SessionManager) (fs : nodefs) :=
  appendEntry m (typed_as "message" ++ base_fields m r ++ [(js_lit "message", TMap message)]) fs.
Definition appendThinkingLevelChange (level : jsstr) (r : Fresh) (m : SessionManager) (fs : nodefs) :=
  appendEntry m (typed_as "thinking_level_change" ++ base_fields m r ++ text_as "thinkingLevel" level) fs.
Definition appendModelChange (provider modelId : jsstr) (r : Fresh) (m : SessionManager) (fs : nodefs) :=
  appendEntry m (typed_as "model_change" ++ base_fields m r ++ text_as "provider" provider ++ text_as "modelId" modelId) fs.
Definition appendCompaction (summary firstKeptEntryId : jsstr) (tokensBefore : jsnum) (details : option tree) (fromHook : option bool) (usage : option tree) (r : Fresh) (m : SessionManager) (fs : nodefs) :=
  appendEntry m (typed_as "compaction" ++ base_fields m r ++ text_as "summary" summary ++ text_as "firstKeptEntryId" firstKeptEntryId ++
    [(js_lit "tokensBefore", TNum tokensBefore)] ++ optional "details" details ++ optional "usage" usage ++ optional "fromHook" (TBool <$> fromHook)) fs.
Definition appendCustomEntry (customType : jsstr) (data : option tree) (r : Fresh) (m : SessionManager) (fs : nodefs) :=
  appendEntry m (typed_as "custom" ++ text_as "customType" customType ++ optional "data" data ++ base_fields m r) fs.
Definition appendCustomMessageEntry (customType : jsstr) (content : tree) (display : bool) (details : option tree) (r : Fresh) (m : SessionManager) (fs : nodefs) :=
  appendEntry m (typed_as "custom_message" ++ text_as "customType" customType ++ [(js_lit "content", content); (js_lit "display", TBool display)] ++ optional "details" details ++ base_fields m r) fs.

(** [name.replace(/[\r\n]+/g, " ").trim()] *)
Definition line_break (u : Z) : bool := (u =? 0x0a) || (u =? 0x0d).
Fixpoint one_line (in_break : bool) (s : jsstr) : jsstr :=
  match s with
  | [] => []
  | u :: s => if line_break u then (if in_break then [] else [0x20]) ++ one_line true s else u :: one_line false s
  end.

Definition appendSessionInfo (name : jsstr) (r : Fresh) (m : SessionManager) (fs : nodefs) :=
  appendEntry m (typed_as "session_info" ++ base_fields m r ++ text_as "name" (trim (one_line false name))) fs.

Definition getSessionName (m : SessionManager) : option jsstr :=
  match last (filter (λ e, type_is e "session_info" = true) (getEntries m)) with
  | Some e => match trim <$> str_field e "name" with Some [] => None | name => name end
  | None => None
  end.

(** *** Traversal *)

Definition getEntry (m : SessionManager) (id : jsstr) : option obj := map_get (sm_byId m) id.
Definition getLeafEntry (m : SessionManager) : option obj := match sm_leafId m with Some ((_ :: _) as id) => getEntry m id | _ => None end.
Definition getChildren (m : SessionManager) (parentId : jsstr) : list obj := filter (λ e, parent_id e = Some parentId) (sm_byId m).*2.
Definition getLabel (m : SessionManager) (id : jsstr) : option jsstr := map_get (sm_labelsById m) id.
Definition getHeader (m : SessionManager) : option obj := List.find is_session (sm_fileEntries m).

(** [startId ? this.byId.get(startId) : undefined], then up to the root. *)
Definition getBranch (m : SessionManager) (fromId : option jsstr) : option (list obj) :=
  let startId := match fromId with Some id => Some id | None => sm_leafId m end in
  let start := match startId with Some ((_ :: _) as id) => map_get (sm_byId m) id | _ => None end in
  path_loop (path_fuel (sm_byId m)) (sm_byId m) start [].

Definition manager_context (m : SessionManager) : option SessionContext := buildSessionContext (getEntries m) (leaf_arg m) (Some (sm_byId m)).
Definition manager_entries (m : SessionManager) : option (list obj) := buildContextEntries (getEntries m) (leaf_arg m) (Some (sm_byId m)).

Definition appendLabelChange (targetId : jsstr) (label : option jsstr) (r : Fresh) (m : SessionManager) (fs : nodefs) : SessionManager * nodefs * result error jsstr :=
  if negb (map_has (sm_byId m) targetId) then (m, fs, Err (Thrown "Entry not found")) else
  let e := typed_as "label" ++ base_fields m r ++ text_as "targetId" targetId ++ optional "label" (TText <$> label) in
  match appendEntry m e fs with
  | (m, fs, Ok id) =>
      (set_index m (sm_byId m) (set_label (sm_labelsById m) targetId label (default [] label)) (set_label (sm_labelTimestampsById m) targetId label (fr_now r)) (sm_leafId m), fs, Ok id)
  | (m, fs, Err e) => (m, fs, Err e)
  end.

(** *** Branching *)

Definition branch (id : jsstr) (m : SessionManager) : SessionManager * result error unit :=
  if map_has (sm_byId m) id then (set_leaf m (Some id), Ok tt) else (m, Err (Thrown "Entry not found")).

Definition resetLeaf (m : SessionManager) : SessionManager := set_leaf m None.

Definition branchWithSummary (branchFromId : option jsstr) (summary : jsstr) (details : option tree) (fromHook : option bool) (usage : option tree) (r : Fresh) (m : SessionManager) (fs : nodefs) :
    SessionManager * nodefs * result error jsstr :=
  if match branchFromId with Some id => negb (map_has (sm_byId m) id) | None => false end then (m, fs, Err (Thrown "Entry not found")) else
  let fromId := default (js_lit "root") (sm_leafId m) in
  let m := set_leaf m branchFromId in
  appendEntry m (typed_as "branch_summary" ++ base_fields m r ++ text_as "fromId" fromId ++ text_as "summary" summary ++
    optional "details" details ++ optional "usage" usage ++ optional "fromHook" (TBool <$> fromHook)) fs.

(** [pathWithoutLabels]: each entry is chained to the one kept before it. *)
Fixpoint rechain (parent : option jsstr) (path : list obj) : list obj :=
  match path with
  | [] => []
  | e :: path => if type_is e "label" then rechain parent path else put e "parentId" (nullable parent) :: rechain (Some (entry_id e)) path
  end.

Definition new_header_entry (id now cwd : jsstr) (parentSession : option path) : obj :=
  typed_as "session" ++ [(js_lit "version", TNum (NInt CURRENT_SESSION_VERSION))] ++ text_as "id" id ++ text_as "timestamp" now ++ text_as "cwd" cwd ++
  optional "parentSession" (TText <$> parentSession).

(** The label entries of a branched session: [n] counts them. *)
Fixpoint label_entries (uuid : nat → nat → jsstr) (n : nat) (taken : list jsstr) (parent : option jsstr) (labels : list (jsstr * jsstr * jsstr)) : list obj :=
  match labels with
  | [] => []
  | (target, label, stamp) :: labels =>
      let id := generateId taken (uuid n) in
      (typed_as "label" ++ text_as "id" id ++ [(js_lit "parentId", nullable parent)] ++ text_as "timestamp" stamp ++ text_as "targetId" target ++ text_as "label" label) ::
      label_entries uuid (S n) (taken ++ [id]) (Some id) labels
  end.

Definition file_in (dir now id : jsstr) : path :=
  join_paths [dir; ((λ u, if (u =? 0x3a) || (u =? 0x2e) then 0x2d else u) <$> now) ++ js_lit "_" ++ id ++ js_lit ".jsonl"].

Definition labels_to_write (m : SessionManager) (ids : list jsstr) : list (jsstr * jsstr * jsstr) :=
  (λ kv, (kv, default [] (map_get (sm_labelTimestampsById m) kv.1))) <$> filter (λ kv, kv.1 ∈ ids) (sm_labelsById m).

(** [x?.id || null] *)
Definition last_id (entries : list obj) : option jsstr := match entry_id <$> last entries with Some [] => None | id => id end.

Definition createBranchedSession (leafId : jsstr) (r : Fresh) (m : SessionManager) (fs : nodefs) : option (SessionManager * nodefs * result error (option path)) :=
  match getBranch m (Some leafId) with
  | None => None
  | Some [] => Some (m, fs, Err (Thrown "Entry not found"))
  | Some path =>
      let pathWithoutLabels := rechain None path in
      let ids := entry_id <$> pathWithoutLabels in
      let header := new_header_entry (fr_session r) (fr_now r) (sm_cwd m) (if sm_persist m then sm_sessionFile m else None) in
      let labels := label_entries (fr_uuid r) 0 ids (last_id pathWithoutLabels) (labels_to_write m ids) in
      let m' := set_session m (fr_session r) (header :: pathWithoutLabels ++ labels) in
      if sm_persist m then
        let p := file_in (sm_sessionDir m) (fr_now r) (fr_session r) in
        let m' := buildIndex (set_file m' (Some p)) in
        if has_assistant (sm_fileEntries m') then
          match rewriteFile m' fs with
          | (fs, Ok _) => Some (set_flushed m' true, fs, Ok (Some p))
          | (fs, Err e) => Some (m', fs, Err e)
          end
        else Some (set_flushed m' false, fs, Ok (Some p))
      else Some (buildIndex m', fs, Ok None)
  end.

(** *** Opening *)

Definition newSession (id : option jsstr) (parentSession : option path) (r : Fresh) (m : SessionManager) : SessionManager * result error (option path) :=
  if match id with Some id => negb (assertValidSessionId id) | None => false end then (m, Err (Thrown "Session id")) else
  let sessionId := default (fr_session r) id in
  let m := set_index (set_flushed (set_session m sessionId [new_header_entry sessionId (fr_now r) (sm_cwd m) parentSession]) false) [] [] [] None in
  let m := if sm_persist m then set_file m (Some (file_in (sm_sessionDir m) (fr_now r) sessionId)) else m in
  (m, Ok (sm_sessionFile m)).

(** [_setSessionFile], without preloaded entries. *)
Definition setSessionFile (chunks : jsstr → list jsstr) (p : path) (r : Fresh) (m : SessionManager) (fs : nodefs) : SessionManager * nodefs * result error unit :=
  let m := set_file m (Some p) in
  match nf_files fs !! p with
  | None => (set_file (newSession None None r m).1 (Some p), fs, Ok tt)
  | Some content =>
      match loadEntriesFromFile chunks p fs with
      | (fs, Err e) => (m, fs, Err e)
      | (fs, Ok []) =>
          if bool_decide (content ≠ []) then (set_session m (sm_sessionId m) [], fs, Err (Thrown "Session file is not a valid session")) else
          let m := set_file (newSession None None r m).1 (Some p) in
          match rewriteFile m fs with
          | (fs, Ok _) => (set_flushed m true, fs, Ok tt)
          | (fs, Err e) => (m, fs, Err e)
          end
      | (fs, Ok entries) =>
          let sessionId := match List.find is_session entries with Some h => entry_id h | None => fr_session r end in
          match migrateToCurrentVersion (fr_uuid r) entries with
          | None => (m, fs, Err Untyped)
          | Some (entries', migrated) =>
              if negb (forallb typed_entry entries') then (m, fs, Err Untyped) else
              let m := set_session m sessionId entries' in
              match (if migrated : bool then rewriteFile m fs else (fs, Ok tt)) with
              | (fs, Ok _) => (set_flushed (buildIndex m) true, fs, Ok tt)
              | (fs, Err e) => (m, fs, Err e)
              end
          end
      end
  end.

(** The fields before the constructor has chosen the session. *)
Definition blank (cwd dir : path) (persist : bool) : SessionManager := mkManager [] None dir cwd persist false [] [] [] [] None.

(** [SessionManager.create] and [SessionManager.inMemory]. *)
Definition create_session (cwd dir : path) (persist : bool) (id : option jsstr) (r : Fresh) : SessionManager * result error (option path) :=
  newSession id None r (blank cwd dir persist).

(** [SessionManager.forkFrom] *)
Definition forkFrom (chunks : jsstr → list jsstr) (source cwd dir : path) (id : option jsstr) (r : Fresh) (fs : nodefs) : nodefs * result error SessionManager :=
  match loadEntriesFromFile chunks source fs with
  | (fs, Err e) => (fs, Err e)
  | (fs, Ok []) => (fs, Err (Thrown "Cannot fork: source session file is empty or invalid"))
  | (fs, Ok entries) =>
      if negb (existsb is_session entries) then (fs, Err (Thrown "Cannot fork: source session has no header")) else
      if match id with Some id => negb (assertValidSessionId id) | None => false end then (fs, Err (Thrown "Session id")) else
      let sessionId := default (fr_session r) id in
      let p := file_in dir (fr_now r) sessionId in
      match write_file true p (new_header_entry sessionId (fr_now r) cwd (Some source) :: filter (λ e, is_session e = false) entries) fs with
      | (fs, Err e) => (fs, Err e)
      | (fs, Ok _) =>
          match setSessionFile chunks p r (blank cwd dir true) fs with
          | (m, fs, Ok _) => (fs, Ok m)
          | (_, fs, Err e) => (fs, Err e)
          end
      end
  end.

(** ** Operations in sequence *)

Inductive op :=
| OpMessage (message : obj)
| OpThinking (level : jsstr)
| OpModel (provider modelId : jsstr)
| OpCompaction (summary firstKept : jsstr) (tokensBefore : jsnum) (details : option tree) (fromHook : option bool) (usage : option tree)
| OpCustom (customType : jsstr) (data : option tree)
| OpCustomMessage (customType : jsstr) (content : tree) (display : bool) (details : option tree)
| OpInfo (name : jsstr)
| OpLabel (target : jsstr) (label : option jsstr)
| OpBranch (id : jsstr)
| OpReset
| OpBranchSummary (from : option jsstr) (summary : jsstr) (details : option tree) (fromHook : option bool) (usage : option tree)
| OpNew (id : option jsstr) (parentSession : option path)
| OpBranched (leafId : jsstr).

(** What is left of a call once its result is dropped. *)
Definition state_of {A} (x : SessionManager * nodefs * result error A) : SessionManager * nodefs := x.1.

Definition op_run (o : op) (r : Fresh) (m : SessionManager) (fs : nodefs) : option (SessionManager * nodefs) :=
  match o with
  | OpMessage message => Some (state_of (appendMessage message r m fs))
  | OpThinking level => Some (state_of (appendThinkingLevelChange level r m fs))
  | OpModel provider modelId => Some (state_of (appendModelChange provider modelId r m fs))
  | OpCompaction summary firstKept tokensBefore details fromHook usage => Some (state_of (appendCompaction summary firstKept tokensBefore details fromHook usage r m fs))
  | OpCustom customType data => Some (state_of (appendCustomEntry customType data r m fs))
  | OpCustomMessage customType content display details => Some (state_of (appendCustomMessageEntry customType content display details r m fs))
  | OpInfo name => Some (state_of (appendSessionInfo name r m fs))
  | OpLabel target label => Some (state_of (appendLabelChange target label r m fs))
  | OpBranch id => Some ((branch id m).1, fs)
  | OpReset => Some (resetLeaf m, fs)
  | OpBranchSummary from summary details fromHook usage => Some (state_of (branchWithSummary from summary details fromHook usage r m fs))
  | OpNew id parentSession => Some ((newSession id parentSession r m).1, fs)
  | OpBranched leafId => state_of <$> createBranchedSession leafId r m fs
  end.

(** * Properties *)

(** ** Fields *)

Lemma put_field e name name' v : field (put e name v) name' = if bool_decide (js_lit name = js_lit name') then Some v else field e name'.
Proof. apply map_get_set. Qed.

Lemma put_other e name name' v : js_lit name ≠ js_lit name' → str_field (put e name v) name' = str_field e name'.
Proof. intros Hne. unfold str_field. by rewrite put_field, bool_decide_eq_false_2. Qed.

(** Two names that differ. *)
Ltac names_differ := vm_compute; congruence.

(** ** Files *)

Definition text_of (entries : list obj) : jsstr := concat (line_of <$> entries).

Definition good_entry (e : obj) : Prop := json_ok (TMap e) = true ∧ typed_entry e = true.

Lemma write_lines_spec p entries fs t :
  nf_faults fs = [] → nf_files fs !! p = Some t → write_lines p entries fs = (mkFs (<[p := t ++ text_of entries]> (nf_files fs)) [], Ok tt).
Proof.
  revert fs t. induction entries as [|e entries IH]; intros fs t Hn Hp.
  - cbn. rewrite app_nil_r, insert_id by done. destruct fs; cbn in *. by subst.
  - cbn [write_lines]. unfold appendText. rewrite Hn, Hp. cbn [tail default]. erewrite IH; [|done|by apply lookup_insert_eq]. cbn [nf_files].
    rewrite insert_insert_eq. unfold text_of. by rewrite fmap_cons, <- app_assoc.
Qed.

Lemma write_file_spec exclusive p entries fs :
  nf_faults fs = [] → (exclusive = true → nf_files fs !! p = None) →
  write_file exclusive p entries fs = (mkFs (<[p := text_of entries]> (nf_files fs)) [], Ok tt).
Proof.
  intros Hn Hx. unfold write_file, openWrite. rewrite Hn. replace (exclusive && existsSync p fs) with false.
  2: { destruct exclusive; [|done]. unfold existsSync. by rewrite Hx. }
  cbn [tail]. erewrite write_lines_spec; [|done|by apply lookup_insert_eq]. cbn [nf_files]. by rewrite insert_insert_eq.
Qed.

Lemma append_spec p t fs old :
  nf_faults fs = [] → nf_files fs !! p = Some old → appendText p t fs = (mkFs (<[p := old ++ t]> (nf_files fs)) [], Ok tt).
Proof. intros Hn Hp. unfold appendText. by rewrite Hn, Hp. Qed.

(** ** Reading a file back *)

Lemma trimStart_keeps u s : u ∈ s → is_space u = false → u ∈ trimStart s.
Proof.
  intros Hin Hu. induction s as [|c s IH]; cbn; [done|]. destruct (is_space c) eqn:Hc; [|done].
  apply elem_of_cons in Hin as [->|Hin]; [congruence|by apply IH].
Qed.

Lemma trim_keeps u s : u ∈ s → is_space u = false → trim s ≠ [].
Proof.
  intros Hin Hu E. apply (trimStart_keeps u s) in Hin; [|done]. apply elem_of_reverse in Hin. apply (trimStart_keeps u) in Hin; [|done].
  apply elem_of_reverse in Hin. unfold trim, trimEnd in E. rewrite E in Hin. by apply not_elem_of_nil in Hin.
Qed.

Lemma parse_line e : json_ok (TMap e) = true → parseSessionEntryLine (JSON_stringify (TMap e)) = Ok (Some e).
Proof.
  intros Hok. unfold parseSessionEntryLine. rewrite bool_decide_eq_false_2, JSON_roundtrip by done || (apply (trim_keeps 0x7b); [by left|done]). done.
Qed.

Lemma take_complete_cons l k entries :
  k ≠ [] → take_complete (l :: k) entries = match parseSessionEntryLine l with Err e => Err e | Ok e => take_complete k (entries ++ option_list e) end.
Proof. by destruct k. Qed.

Lemma take_complete_app ls rest entries :
  rest ≠ [] → take_complete (ls ++ rest) entries =
  match take_complete (ls ++ [[]]) entries with Ok (entries, _) => take_complete rest entries | Err e => Err e end.
Proof.
  intros Hrest. revert entries. induction ls as [|l ls IH]; intros entries; [done|]. cbn [app].
  rewrite !take_complete_cons by (intros [? ?]%app_eq_nil; done). destruct (parseSessionEntryLine l); [|done]. apply IH.
Qed.

Lemma split_lines_app a b : ∃ ls l, split_lines a = ls ++ [l] ∧ split_lines (a ++ b) = ls ++ split_lines (l ++ b).
Proof.
  induction a as [|c a (ls & l & E1 & E2)]; [by exists [], []|]. cbn [split_lines app]. destruct (c =? newline) eqn:Ec.
  - exists ([] :: ls), l. by rewrite E1, E2.
  - rewrite E1, E2. destruct ls as [|l0 ls]; [|by exists ((c :: l0) :: ls), l]. exists [], (c :: l). split; [done|]. cbn [app split_lines]. rewrite Ec.
    destruct (split_lines (l ++ b)) eqn:E; [by apply split_lines_nonempty in E|done].
Qed.

Lemma split_lines_clean a : Forall (λ l, newline ∉ l) (split_lines a).
Proof.
  induction a as [|c a IH]; cbn; [by constructor; [apply not_elem_of_nil|]|]. destruct (Z.eqb_spec c newline) as [|Hc]; [by constructor; [apply not_elem_of_nil|]|].
  destruct (split_lines a) as [|l ls]; [by constructor; [apply not_elem_of_cons; split; [congruence|apply not_elem_of_nil]|]|].
  apply Forall_cons in IH as [Hl IH]. constructor; [|done]. apply not_elem_of_cons. split; [congruence|done].
Qed.

Lemma take_complete_last ls l entries :
  take_complete (ls ++ [l]) entries = match take_complete (ls ++ [[]]) entries with Ok (entries, _) => Ok (entries, l) | Err e => Err e end.
Proof. by rewrite take_complete_app. Qed.

(** Where the reads cut the text makes no difference. *)
Lemma read_chunks_spec chunks entries k : newline ∉ k → read_chunks chunks entries k = take_complete (split_lines (k ++ concat chunks)) entries.
Proof.
  revert entries k. induction chunks as [|c chunks IH]; intros entries k Hk; cbn [read_chunks concat].
  - by rewrite app_nil_r, (split_lines_last k Hk).
  - destruct (split_lines_app (k ++ c) (concat chunks)) as (ls & l & E1 & E2). rewrite <- app_assoc in E2. rewrite E1, E2, take_complete_last, (take_complete_app ls (split_lines _)) by apply split_lines_nonempty.
    destruct (take_complete (ls ++ [[]]) entries) as [[entries' ?]|e]; [|done]. apply IH.
    pose proof (split_lines_clean (k ++ c)) as Hc. rewrite E1 in Hc. apply Forall_app in Hc as [_ Hc]. by apply Forall_cons in Hc as [Hc _].
Qed.

Lemma take_complete_text es entries :
  Forall (λ e, json_ok (TMap e) = true) es → take_complete (split_lines (text_of es)) entries = Ok (entries ++ es, []).
Proof.
  revert entries. induction es as [|e es IH]; intros entries Hes; [by rewrite app_nil_r|]. apply Forall_cons in Hes as [He Hes].
  unfold text_of. rewrite fmap_cons. cbn [concat]. unfold line_of at 1. rewrite <- app_assoc. cbn [app]. rewrite split_lines_line by (by apply encode_line).
  fold (text_of es). rewrite take_complete_cons, parse_line, IH by done || apply split_lines_nonempty. cbn [option_list]. by rewrite <- app_assoc.
Qed.

Lemma load_text chunks p fs h es :
  (∀ t, concat (chunks t) = t) → nf_files fs !! p = Some (text_of (h :: es)) → is_session h = true → is_Some (str_field h "id") →
  Forall (λ e, json_ok (TMap e) = true) (h :: es) → loadEntriesFromFile chunks p fs = (fs, Ok (h :: es)).
Proof.
  intros Hch Hp Hh [id Hid] Hall. unfold loadEntriesFromFile. rewrite Hp, read_chunks_spec by apply not_elem_of_nil. cbn [app]. rewrite Hch, take_complete_text by done.
  cbn. by rewrite Hh, Hid, app_nil_r.
Qed.

(** ** The invariant *)

Definition ids (entries : list obj) : list jsstr := entry_id <$> entries.

(** Every entry has an identifier of its own and hangs on an entry before it, if any. *)
Inductive forest : list obj → Prop :=
| forest_nil : forest []
| forest_snoc es e :
    forest es → entry_id e ∉ ids es → entry_id e ≠ [] → (∀ p, parent_id e = Some p → p ∈ ids es) → forest (es ++ [e]).

Definition entry_ok (e : obj) : Prop := good_entry e ∧ is_session e = false.

Definition header_ok_ (h : obj) (id : jsstr) : Prop :=
  good_entry h ∧ is_session h = true ∧ str_field h "id" = Some id ∧ field h "version" = Some (TNum (NInt 3)).

(** What is on disk: everything once it is written, nothing before the first answer. *)
Definition stored (m : SessionManager) (fs : nodefs) : Prop :=
  sm_persist m = true → ∃ p, sm_sessionFile m = Some p ∧
    if sm_flushed m then nf_files fs !! p = Some (text_of (sm_fileEntries m)) else nf_files fs !! p = None ∧ has_assistant (sm_fileEntries m) = false.

Record sm_ok (m : SessionManager) (fs : nodefs) (h : obj) (es : list obj) : Prop := {
  ok_entries : sm_fileEntries m = h :: es;
  ok_header : header_ok_ h (sm_sessionId m);
  ok_each : Forall entry_ok es;
  ok_forest : forest es;
  ok_byId : sm_byId m = ix_byId (index_entries es);
  ok_labels : sm_labelsById m = ix_labels (index_entries es);
  ok_stamps : sm_labelTimestampsById m = ix_stamps (index_entries es);
  ok_leaf id : sm_leafId m = Some id → id ∈ ids es;
  ok_stored : stored m fs;
}.

Lemma forest_NoDup es : forest es → NoDup (ids es).
Proof. induction 1 as [|es e _ IH Hn _ _]; [constructor|]. unfold ids. rewrite fmap_app. apply NoDup_app. split; [done|]. split; [|apply NoDup_singleton]. intros x Hx Hx'%list_elem_of_singleton. by subst. Qed.

Lemma index_snoc es e : index_entries (es ++ [e]) = index_step (index_entries es) e.
Proof. unfold index_entries. by rewrite foldl_app. Qed.

Lemma index_step_byId ix e : is_session e = false → ix_byId (index_step ix e) = map_set (ix_byId ix) (entry_id e) e.
Proof. intros He. unfold index_step. rewrite He. by destruct (type_is e "label"). Qed.

Lemma forest_byId es : forest es → Forall entry_ok es → ix_byId (index_entries es) = (λ e, (entry_id e, e)) <$> es.
Proof.
  induction 1 as [|es e _ IH Hn _ _]; intros Hall; [done|]. apply Forall_app in Hall as [Hes He]. apply Forall_cons in He as [[_ He] _].
  rewrite index_snoc, index_step_byId, IH by done. rewrite map_set_fresh; [by rewrite fmap_app|]. by rewrite <- list_fmap_compose.
Qed.

Lemma byId_keys es : forest es → Forall entry_ok es → (ix_byId (index_entries es)).*1 = ids es.
Proof. intros Hf He. rewrite forest_byId by done. by rewrite <- list_fmap_compose. Qed.

Lemma header_index ix h id : header_ok_ h id → index_step ix h = ix.
Proof. intros (_ & Hh & _). unfold index_step. by rewrite Hh. Qed.

Lemma index_header h es id : header_ok_ h id → index_entries (h :: es) = index_entries es.
Proof. intros Hh. unfold index_entries. cbn [foldl]. by rewrite (header_index _ _ _ Hh). Qed.

Lemma filter_entries es : Forall entry_ok es → filter (λ e, is_session e = false) es = es.
Proof. intros He. apply filter_all. eapply Forall_impl; [done|]. by intros e [_ ?]. Qed.

Lemma getEntries_ok m fs h es : sm_ok m fs h es → getEntries m = es.
Proof.
  intros Hm. unfold getEntries. rewrite (ok_entries _ _ _ _ Hm). destruct (ok_header _ _ _ _ Hm) as (_ & Hh & _).
  rewrite filter_cons_False by congruence. apply filter_entries, Hm.
Qed.

(** ** Identifiers *)

(** The candidates of one identifier: texts, not empty, and the last one is new. *)
Definition uuid_ok (taken : list jsstr) (uuid : nat → jsstr) : Prop := (∀ i, uuid i ≠ [] ∧ text_ok (uuid i) = true) ∧ uuid 100%nat ∉ taken.

Lemma generate_loop_spec taken uuid n i id : (∀ i, uuid i ≠ []) → generate_loop taken uuid n i = Some id → id ∉ taken ∧ ∃ j, id = take 8 (uuid j).
Proof.
  intros Hu. revert i. induction n as [|n IH]; intros i; cbn; [done|]. case_bool_decide as Hin; [apply IH|]. intros [= <-]. split; [done|]. by exists i.
Qed.

Lemma generateId_new taken uuid : uuid_ok taken uuid → generateId taken uuid ∉ taken ∧ generateId taken uuid ≠ [] ∧ text_ok (generateId taken uuid) = true.
Proof.
  intros [Hu Hl]. unfold generateId. destruct (generate_loop taken uuid 100 0) as [id|] eqn:E; [|split; [done|apply Hu]].
  apply generate_loop_spec in E as [Hid [j ->]]; [|intros i; apply Hu]. destruct (Hu j) as [Hne Htx]. split; [done|]. split; [by destruct (uuid j)|].
  unfold text_ok in *. rewrite forallb_forall in Htx |- *. intros u Hu'. apply Htx. rewrite <- (take_drop 8 (uuid j)). apply in_or_app. by left.
Qed.

(** ** Appending *)

Lemma text_snoc es e : text_of (es ++ [e]) = text_of es ++ line_of e.
Proof. unfold text_of. rewrite fmap_app, concat_app. cbn. by rewrite app_nil_r. Qed.

Lemma set_flushed_same m : set_flushed m (sm_flushed m) = m.
Proof. by destruct m. Qed.

Lemma persist_spec m e old fs :
  sm_fileEntries m = old ++ [e] → nf_faults fs = [] →
  (sm_persist m = true → ∃ p, sm_sessionFile m = Some p ∧ if sm_flushed m then nf_files fs !! p = Some (text_of old) else nf_files fs !! p = None) →
  ∃ b fs', persist_entry m e fs = (set_flushed m b, fs', Ok tt) ∧ nf_faults fs' = [] ∧ stored (set_flushed m b) fs'.
Proof.
  intros Hes Hn Hst. unfold persist_entry. destruct (sm_persist m) eqn:Hp.
  2: { exists (sm_flushed m), fs. rewrite set_flushed_same. split; [done|]. split; [done|]. unfold stored. by rewrite Hp. }
  destruct (Hst eq_refl) as (p & Hf & Hd). rewrite Hf.
  assert (∀ fs', nf_files fs' !! p = Some (text_of (old ++ [e])) → stored (set_flushed m true) fs') as Hdone by (intros fs' E _; exists p; by rewrite <- Hes in E).
  destruct (sm_flushed m) eqn:Hfl; cbn [negb].
  - exists true. assert (set_flushed m true = m) as Hm by (rewrite <- Hfl; apply set_flushed_same). rewrite Hm in Hdone |- *. destruct (has_assistant _); cbn [negb];
      rewrite (append_spec _ _ _ _ Hn Hd); (eexists; split; [reflexivity|]; split; [done|]; apply Hdone; cbn; by rewrite lookup_insert_eq, text_snoc).
  - destruct (has_assistant (sm_fileEntries m)) eqn:Ha; cbn [negb].
    + exists true. rewrite write_file_spec by done. eexists. split; [reflexivity|]. split; [done|]. apply Hdone. cbn. by rewrite lookup_insert_eq, Hes.
    + exists false, fs. assert (set_flushed m false = m) as Hm by (rewrite <- Hfl; apply set_flushed_same). rewrite Hm. split; [done|]. split; [done|].
      intros _. exists p. split; [done|]. by rewrite Hfl.
Qed.

(** The maps of labels once an entry is there. *)
Definition relabelled (m : SessionManager) (ix : Index) : SessionManager := set_index m (sm_byId m) (ix_labels ix) (ix_stamps ix) (sm_leafId m).

Lemma append_ok m fs h es e :
  sm_ok m fs h es → nf_faults fs = [] → entry_ok e → entry_id e ∉ ids es → entry_id e ≠ [] → parent_id e = sm_leafId m →
  ∃ m' fs', appendEntry m e fs = (m', fs', Ok (entry_id e)) ∧ nf_faults fs' = [] ∧ sm_leafId m' = Some (entry_id e) ∧
    sm_labelsById m' = sm_labelsById m ∧ sm_labelTimestampsById m' = sm_labelTimestampsById m ∧
    sm_ok (relabelled m' (index_entries (es ++ [e]))) fs' h (es ++ [e]).
Proof.
  intros Hm Hn He Hid Hne Hpar. unfold appendEntry. pose proof (ok_entries _ _ _ _ Hm) as Hes. set (m1 := mkManager _ _ _ _ _ _ _ _ _ _ _).
  destruct (persist_spec m1 e (h :: es) fs) as (b & fs' & Ep & Hn' & Hst); [cbn; by rewrite Hes|done| |].
  { intros Hp. destruct (ok_stored _ _ _ _ Hm Hp) as (p & Hf & Hd). exists p. split; [done|]. rewrite Hes in Hd. cbn. by destruct (sm_flushed m); [|destruct Hd]. }
  rewrite Ep. exists (set_flushed m1 b), fs'. split; [done|]. split; [done|]. do 3 (split; [done|]).
  split; cbn; [by rewrite Hes|apply Hm| |by apply forest_snoc; [apply Hm|..| rewrite Hpar; apply Hm]| |done|done| |exact Hst].
  - apply Forall_app_2; [apply Hm|]. by apply Forall_singleton.
  - rewrite index_snoc, index_step_byId by apply He. by rewrite (ok_byId _ _ _ _ Hm).
  - intros id [= <-]. unfold ids. rewrite fmap_app. apply elem_of_app. right. by apply list_elem_of_singleton.
Qed.

Lemma relabelled_same m ix : sm_labelsById m = ix_labels ix → sm_labelTimestampsById m = ix_stamps ix → relabelled m ix = m.
Proof. destruct m; cbn. by intros -> ->. Qed.

(** An entry that is not a label. *)
Lemma append_plain m fs h es e :
  sm_ok m fs h es → nf_faults fs = [] → entry_ok e → entry_id e ∉ ids es → entry_id e ≠ [] → parent_id e = sm_leafId m → type_is e "label" = false →
  ∃ m' fs', appendEntry m e fs = (m', fs', Ok (entry_id e)) ∧ nf_faults fs' = [] ∧ sm_leafId m' = Some (entry_id e) ∧ sm_ok m' fs' h (es ++ [e]).
Proof.
  intros Hm Hn He Hid Hne Hpar Hl. destruct (append_ok m fs h es e) as (m' & fs' & E & Hn' & Hlf & Hlb & Hst & Hok); try done.
  exists m', fs'. do 3 (split; [done|]). rewrite relabelled_same in Hok; [done|..]; rewrite index_snoc; unfold index_step; rewrite (proj2 He), Hl; cbn.
  - by rewrite Hlb, (ok_labels _ _ _ _ Hm).
  - by rewrite Hst, (ok_stamps _ _ _ _ Hm).
Qed.

(** ** The entries that the methods make *)

(** What is known of the results of [randomUUID], the new session's identifier and the
    clock: texts, and no result of [randomUUID] comes twice, as long as a session has
    entries. *)
Record fresh_ok (r : Fresh) (used : list jsstr) : Prop := {
  fresh_length n i : length (fr_uuid r n i) = 36%nat;
  fresh_text n i : text_ok (fr_uuid r n i) = true;
  fresh_new n : fr_uuid r n 100%nat ∉ used;
  fresh_distinct n n' : (n < n' ≤ length used)%nat → fr_uuid r n 100%nat ≠ fr_uuid r n' 100%nat;
  fresh_session : text_ok (fr_session r) = true;
  fresh_now : text_ok (fr_now r) = true;
}.

Lemma fresh_uuid r used n : fresh_ok r used → uuid_ok used (fr_uuid r n).
Proof.
  intros Hr. split; [|apply Hr]. intros i. split; [|apply Hr]. intros E%(f_equal length). by rewrite (fresh_length _ _ Hr) in E.
Qed.

(** The texts a manager writes. *)
Definition texts_ok (m : SessionManager) : Prop := text_ok (sm_cwd m) = true ∧ ∀ p, sm_sessionFile m = Some p → text_ok p = true.

Definition opt_json (v : option tree) : Prop := ∀ t, v = Some t → json_ok t = true.

Definition args_ok (o : op) : Prop :=
  match o with
  | OpMessage message => json_ok (TMap message) = true
  | OpThinking level => text_ok level = true
  | OpModel provider modelId => text_ok provider = true ∧ text_ok modelId = true
  | OpCompaction summary firstKept tokensBefore details _ usage => text_ok summary = true ∧ text_ok firstKept = true ∧ num_json tokensBefore = true ∧ opt_json details ∧ opt_json usage
  | OpCustom customType data => text_ok customType = true ∧ opt_json data
  | OpCustomMessage customType content _ details => text_ok customType = true ∧ json_ok content = true ∧ opt_json details
  | OpInfo name => text_ok name = true
  | OpLabel target label => ∀ l, label = Some l → text_ok l = true
  | OpBranch _ | OpReset | OpBranched _ => True
  | OpBranchSummary _ summary details _ usage => text_ok summary = true ∧ opt_json details ∧ opt_json usage
  | OpNew id parentSession => (∀ i, id = Some i → text_ok i = true) ∧ ∀ p, parentSession = Some p → text_ok p = true
  end.

Lemma json_map o : keys_ok o.*1 = true → Forall (λ kv : jsstr * tree, text_ok kv.1 = true ∧ json_ok kv.2 = true) o → json_ok (TMap o) = true.
Proof.
  intros Hk Ho. cbn [json_ok]. apply andb_true_iff. split; [done|]. apply forallb_forall. intros kv Hkv%list_elem_of_In. rewrite Forall_forall in Ho.
  destruct (Ho _ Hkv). by apply andb_true_iff.
Qed.

Lemma json_field e name t : json_ok (TMap e) = true → field e name = Some t → json_ok t = true.
Proof.
  cbn [json_ok]. intros [_ Ho]%andb_true_iff Hf. unfold field in Hf. apply map_get_Some_elem in Hf. rewrite forallb_forall in Ho.
  by apply list_elem_of_In, Ho, andb_true_iff in Hf as [_ ?].
Qed.

Lemma id_text e : json_ok (TMap e) = true → text_ok (entry_id e) = true.
Proof.
  intros He. unfold entry_id, str_field. destruct (field e "id") as [[]|] eqn:Ef; try done. by apply (json_field _ _ _ He) in Ef.
Qed.

Lemma ids_text es id : Forall entry_ok es → id ∈ ids es → text_ok id = true.
Proof. intros He (e & -> & Hin)%list_elem_of_fmap. rewrite Forall_forall in He. apply id_text, (He e Hin). Qed.

(** The fields of an entry whose keys are literals. *)
Ltac entry_fields :=
  repeat match goal with v : option _ |- _ => destruct v end;
  match goal with
  | |- json_ok _ = true =>
      apply json_map; [vm_compute; reflexivity|repeat first [apply Forall_nil_2 | apply Forall_cons_2; [split; [vm_compute; reflexivity|cbn [snd json_ok nullable]; unfold opt_json in *; eauto]|]]]
  | |- _ => vm_compute; reflexivity
  end.

(** A new entry below the leaf. *)
Definition made_entry (m : SessionManager) (r : Fresh) (e : obj) : Prop := entry_ok e ∧ entry_id e = new_id m r ∧ parent_id e = sm_leafId m.

Ltac made_entry :=
  unfold made_entry, entry_ok, good_entry, base_fields;
  match goal with |- context [new_id ?m ?r] => generalize dependent (new_id m r) end;
  match goal with |- context [nullable (sm_leafId ?m)] => generalize dependent (sm_leafId m) end;
  match goal with |- context [fr_now ?r] => generalize dependent (fr_now r) end;
  intros; split_and!; entry_fields.

Section made.
Context (m : SessionManager) (r : Fresh).
Hypothesis Hid : text_ok (new_id m r) = true.
Hypothesis Hleaf : ∀ l, sm_leafId m = Some l → text_ok l = true.
Hypothesis Hnow : text_ok (fr_now r) = true.

Lemma message_made msg : json_ok (TMap msg) = true → made_entry m r (typed_as "message" ++ base_fields m r ++ [(js_lit "message", TMap msg)]).
Proof using All. intros. made_entry. Qed.

Lemma thinking_made level : text_ok level = true → made_entry m r (typed_as "thinking_level_change" ++ base_fields m r ++ text_as "thinkingLevel" level).
Proof using All. intros. made_entry. Qed.

Lemma model_made provider modelId :
  text_ok provider = true → text_ok modelId = true → made_entry m r (typed_as "model_change" ++ base_fields m r ++ text_as "provider" provider ++ text_as "modelId" modelId).
Proof using All. intros. made_entry. Qed.

Lemma compaction_made summary firstKept tokens details (fromHook : option bool) usage :
  text_ok summary = true → text_ok firstKept = true → num_json tokens = true → opt_json details → opt_json usage →
  made_entry m r (typed_as "compaction" ++ base_fields m r ++ text_as "summary" summary ++ text_as "firstKeptEntryId" firstKept ++
    [(js_lit "tokensBefore", TNum tokens)] ++ optional "details" details ++ optional "usage" usage ++ optional "fromHook" (TBool <$> fromHook)).
Proof using All. intros. made_entry. Qed.

Lemma custom_made customType data :
  text_ok customType = true → opt_json data → made_entry m r (typed_as "custom" ++ text_as "customType" customType ++ optional "data" data ++ base_fields m r).
Proof using All. intros. made_entry. Qed.

Lemma custom_message_made customType content (display : bool) details :
  text_ok customType = true → json_ok content = true → opt_json details →
  made_entry m r (typed_as "custom_message" ++ text_as "customType" customType ++ [(js_lit "content", content); (js_lit "display", TBool display)] ++ optional "details" details ++ base_fields m r).
Proof using All. intros. made_entry. Qed.

Lemma info_made name : text_ok name = true → made_entry m r (typed_as "session_info" ++ base_fields m r ++ text_as "name" name).
Proof using All. intros. made_entry. Qed.

Lemma label_made target label :
  text_ok target = true → (∀ l, label = Some l → text_ok l = true) →
  made_entry m r (typed_as "label" ++ base_fields m r ++ text_as "targetId" target ++ optional "label" (TText <$> label)).
Proof using All. intros. made_entry. Qed.

Lemma summary_made fromId summary details (fromHook : option bool) usage :
  text_ok fromId = true → text_ok summary = true → opt_json details → opt_json usage →
  made_entry m r (typed_as "branch_summary" ++ base_fields m r ++ text_as "fromId" fromId ++ text_as "summary" summary ++
    optional "details" details ++ optional "usage" usage ++ optional "fromHook" (TBool <$> fromHook)).
Proof using All. intros. made_entry. Qed.
End made.

(** ** Every operation keeps the invariant *)

Definition session_ok (m : SessionManager) (fs : nodefs) : Prop := nf_faults fs = [] ∧ ∃ h es, sm_ok m fs h es.

Lemma keys_ids m fs h es : sm_ok m fs h es → (sm_byId m).*1 = ids es.
Proof. intros Hm. rewrite (ok_byId _ _ _ _ Hm). by apply byId_keys; apply Hm. Qed.

Lemma new_id_ok m fs h es r : sm_ok m fs h es → fresh_ok r (ids es) → new_id m r ∉ ids es ∧ new_id m r ≠ [] ∧ text_ok (new_id m r) = true.
Proof. intros Hm Hr. unfold new_id. rewrite (keys_ids _ _ _ _ Hm). by apply generateId_new, fresh_uuid. Qed.

Lemma leaf_text m fs h es l : sm_ok m fs h es → sm_leafId m = Some l → text_ok l = true.
Proof. intros Hm Hl. eapply ids_text; [apply Hm|]. by apply (ok_leaf _ _ _ _ Hm). Qed.

Lemma plain_ok m fs h es r e :
  sm_ok m fs h es → nf_faults fs = [] → fresh_ok r (ids es) → made_entry m r e → type_is e "label" = false →
  session_ok (state_of (appendEntry m e fs)).1 (state_of (appendEntry m e fs)).2.
Proof.
  intros Hm Hn Hr (He & Hid & Hpar) Hl. destruct (new_id_ok _ _ _ _ _ Hm Hr) as (H1 & H2 & _). rewrite <- Hid in H1, H2.
  destruct (append_plain m fs h es e) as (m' & fs' & E & Hn' & _ & Hok); try done. unfold state_of. rewrite E. split; [done|]. by exists h, (es ++ [e]).
Qed.

Lemma set_leaf_ok m fs h es leaf : sm_ok m fs h es → (∀ id, leaf = Some id → id ∈ ids es) → sm_ok (set_leaf m leaf) fs h es.
Proof. intros [] Hl. by split. Qed.

Lemma has_id m fs h es id : sm_ok m fs h es → map_has (sm_byId m) id = true → id ∈ ids es.
Proof. intros Hm Hh. unfold map_has in Hh. apply bool_decide_eq_true in Hh. by rewrite (keys_ids _ _ _ _ Hm) in Hh. Qed.

Lemma trim_text s : text_ok s = true → text_ok (trim s) = true.
Proof.
  assert (∀ s, text_ok s = true → text_ok (trimStart s) = true) as Hs by (induction s0 as [|u s0 IH]; cbn; [done|]; intros [? ?]%andb_true_iff; destruct (is_space u); [by apply IH|by apply andb_true_iff]).
  assert (∀ s, text_ok s = true → text_ok (reverse s) = true) as Hr.
  { intros s0. unfold text_ok. rewrite !forallb_forall. intros Hf u Hu. apply Hf. apply list_elem_of_In, elem_of_reverse, list_elem_of_In, Hu. }
  intros H. by apply Hr, Hs, Hr, Hs.
Qed.

Lemma one_line_text b s : text_ok s = true → text_ok (one_line b s) = true.
Proof.
  revert b. induction s as [|u s IH]; intros b; [done|]. cbn [text_ok forallb]. intros [Hu Hs]%andb_true_iff. cbn [one_line]. destruct (line_break u).
  - destruct b; cbn [app text_ok forallb]; by apply IH.
  - cbn [text_ok forallb]. rewrite Hu. by apply IH.
Qed.

Lemma label_fields m r target label :
  let e := typed_as "label" ++ base_fields m r ++ text_as "targetId" target ++ optional "label" (TText <$> label) in
  type_is e "label" = true ∧ str_field e "targetId" = Some target ∧ str_field e "label" = label ∧ timestamp_of e = fr_now r.
Proof. cbn zeta. unfold base_fields. generalize (new_id m r), (sm_leafId m), (fr_now r). intros. split_and!; entry_fields. Qed.

Lemma label_ok m fs h es r target label :
  sm_ok m fs h es → nf_faults fs = [] → fresh_ok r (ids es) → (∀ l, label = Some l → text_ok l = true) →
  session_ok (state_of (appendLabelChange target label r m fs)).1 (state_of (appendLabelChange target label r m fs)).2.
Proof.
  intros Hm Hn Hr Hl. unfold appendLabelChange. destruct (map_has (sm_byId m) target) eqn:Ht; cbn [negb]; [|split; [done|by exists h, es]].
  destruct (new_id_ok _ _ _ _ _ Hm Hr) as (H1 & H2 & H3). pose proof (label_fields m r target label) as (Ety & Etg & Elb & Ets).
  destruct (label_made m r H3 (λ l, leaf_text _ _ _ _ l Hm) (fresh_now _ _ Hr) target label) as (He & Hid & Hpar); [|done|].
  { eapply ids_text; [apply Hm|]. by eapply has_id. }
  set (e := typed_as "label" ++ _) in *. rewrite <- Hid in H1, H2. destruct (append_ok m fs h es e) as (m' & fs' & E & Hn' & _ & Hlb & Hst & Hok); try done.
  rewrite E. split; [done|]. exists h, (es ++ [e]). unfold relabelled in Hok. rewrite index_snoc in Hok. unfold index_step in Hok.
  rewrite (proj2 He), Ety, Etg, Elb, Ets in Hok. cbn [ix_labels ix_stamps default] in Hok. rewrite Hlb, Hst, (ok_labels _ _ _ _ Hm), (ok_stamps _ _ _ _ Hm). exact Hok.
Qed.

Lemma header_made id now cwd parent : text_ok id = true → text_ok now = true → text_ok cwd = true → (∀ p, parent = Some p → text_ok p = true) →
  header_ok_ (new_header_entry id now cwd parent) id.
Proof. intros. unfold header_ok_, good_entry. split_and!; entry_fields. Qed.

(** A session that has only its header. *)
Lemma new_ok m fs id parent r p :
  text_ok (sm_cwd m) = true → (∀ i, id = Some i → text_ok i = true) → (∀ q, parent = Some q → text_ok q = true) → fresh_ok r [] → nf_faults fs = [] →
  (sm_persist m = true → p = Some (file_in (sm_sessionDir m) (fr_now r) (default (fr_session r) id)) ∧ ∀ q, p = Some q → nf_files fs !! q = None) →
  match newSession id parent r m with
  | (m', Ok _) => session_ok m' fs ∧ (sm_persist m = true → sm_sessionFile m' = p)
  | (m', Err _) => m' = m
  end.
Proof.
  intros Hc Hid Hpar Hr Hn Hp. unfold newSession. destruct (match id with Some _ => _ | None => _ end); [done|].
  assert (text_ok (default (fr_session r) id) = true) as Hi by (destruct id; [by apply Hid|apply Hr]). cbn [sm_persist set_index set_flushed set_session].
  destruct (sm_persist m) eqn:Ep.
  - destruct (Hp eq_refl) as [-> Hfree]. split; [|done]. split; [done|]. eexists _, []. split; try done; cbn; [by apply header_made; try apply Hr|constructor|].
    intros _. eexists. split; [done|]. cbn. split; [by apply Hfree|done].
  - split; [|done]. split; [done|]. eexists _, []. split; try done; cbn; [by apply header_made; try apply Hr|constructor|]. unfold stored. cbn. by rewrite Ep.
Qed.

(** ** The way to the root *)

(** A list of entries in which each is the parent of the next. *)
Fixpoint chain (parent : option jsstr) (path : list obj) : Prop :=
  match path with [] => True | e :: path => parent_id e = parent ∧ chain (Some (entry_id e)) path end.

Definition end_id (parent : option jsstr) (path : list obj) : option jsstr := match last path with Some e => Some (entry_id e) | None => parent end.

Lemma end_snoc parent path e : end_id parent (path ++ [e]) = Some (entry_id e).
Proof. unfold end_id. by rewrite last_snoc. Qed.

Lemma end_cons parent e path : end_id parent (e :: path) = end_id (Some (entry_id e)) path.
Proof. unfold end_id. rewrite last_cons. by destruct (last path). Qed.

Lemma chain_app parent path path' : chain parent (path ++ path') ↔ chain parent path ∧ chain (end_id parent path) path'.
Proof.
  revert parent. induction path as [|e path IH]; intros parent; cbn [app chain]; [naive_solver|]. rewrite IH, end_cons. naive_solver.
Qed.

(** The loop goes back along a chain whose entries the index knows. *)
Lemma path_loop_chain index path : (∀ e, e ∈ path → entry_id e ≠ [] ∧ map_get index (entry_id e) = Some e) → chain None path →
  ∀ fuel rest, (length path ≤ fuel)%nat → path_loop fuel index (last path) rest = Some (path ++ rest).
Proof.
  intros Hix. induction path as [|e path IH] using rev_ind; intros Hc fuel rest Hf; [by destruct fuel|]. rewrite last_snoc, length_app in *. cbn in Hf.
  apply chain_app in Hc as [Hc [Hp _]]. destruct fuel as [|fuel]; [lia|]. cbn [path_loop]. replace (parent_in index e) with (last path).
  - rewrite IH, <- app_assoc; [done| |done|lia]. intros x Hx. apply Hix, elem_of_app. by left.
  - unfold parent_in. rewrite Hp. unfold end_id. destruct (last path) as [x|] eqn:El; [|done]. destruct (Hix x) as [Hne Hg]; [apply elem_of_app; left; by apply last_Some_elem_of|].
    by rewrite bool_decide_eq_false_2.
Qed.

Lemma forest_prefix es es' : forest (es ++ es') → forest es.
Proof.
  induction es' as [|e es' IH] using rev_ind; [by rewrite app_nil_r|]. rewrite (assoc_L (++)). intros Hf. apply IH. inversion Hf as [E|es0 e0 Hes ? ? ? E].
  - by apply (f_equal length) in E; rewrite !length_app in E; cbn in E; lia.
  - by apply app_inj_tail in E as [-> _].
Qed.

Lemma forest_last es e : forest (es ++ [e]) → forest es ∧ entry_id e ∉ ids es ∧ entry_id e ≠ [] ∧ ∀ p, parent_id e = Some p → p ∈ ids es.
Proof. intros Hf. inversion Hf as [E|es0 e0 ? ? ? ? E]; [by apply app_cons_not_nil in E|]. by apply app_inj_tail in E as [-> ->]. Qed.

Lemma forest_nonempty es e : forest es → e ∈ es → entry_id e ≠ [].
Proof. induction 1 as [|es x _ IH _ Hne _]; [by intros ?%not_elem_of_nil|]. intros [?|Hin%list_elem_of_singleton]%elem_of_app; [by apply IH|by subst]. Qed.

(** Every entry has a path, made of entries of the session in their order. *)
Lemma forest_path es : forest es → ∀ e, e ∈ es → ∃ path, path `sublist_of` es ∧ last path = Some e ∧ chain None path.
Proof.
  induction 1 as [|es x Hf IH Hn Hne Hpar]; [by intros ? ?%not_elem_of_nil|]. intros e [Hin|Hin%list_elem_of_singleton]%elem_of_app.
  - destruct (IH e Hin) as (path & Hs & Hl & Hc). exists path. split; [by apply sublist_inserts_r|done].
  - subst e. destruct (parent_id x) as [p|] eqn:Ep.
    + pose proof (Hpar p eq_refl) as Hp. apply list_elem_of_fmap in Hp as (y & -> & Hy). destruct (IH y Hy) as (path & Hs & Hl & Hc). exists (path ++ [x]).
      split; [by apply sublist_app|]. rewrite last_snoc. split; [done|]. apply chain_app. split; [done|]. unfold end_id. by rewrite Hl.
    + exists [x]. split; [by apply sublist_inserts_l|]. done.
Qed.

Lemma index_get es e : forest es → Forall entry_ok es → e ∈ es → map_get (ix_byId (index_entries es)) (entry_id e) = Some e.
Proof.
  intros Hf Hes He. apply map_get_elem; [rewrite byId_keys by done; by apply forest_NoDup|]. rewrite forest_byId by done. apply list_elem_of_fmap. by exists e.
Qed.

Lemma index_length es : forest es → Forall entry_ok es → length (ix_byId (index_entries es)) = length es.
Proof. intros Hf Hes. by rewrite forest_byId, length_fmap. Qed.

(** The loop ends with the path. *)
Lemma walk_path es path : forest es → Forall entry_ok es → path `sublist_of` es → chain None path →
  path_loop (path_fuel (ix_byId (index_entries es))) (ix_byId (index_entries es)) (last path) [] = Some path.
Proof.
  intros Hf Hes Hs Hc. rewrite <- (app_nil_r path) at 2. apply path_loop_chain; [|done|].
  - intros e He. assert (e ∈ es) as Hin by (by eapply elem_of_sublist). split; [by eapply forest_nonempty|by apply index_get].
  - unfold path_fuel. rewrite index_length by done. apply sublist_length in Hs. lia.
Qed.

Lemma getBranch_path m fs h es e : sm_ok m fs h es → e ∈ es →
  ∃ path, getBranch m (Some (entry_id e)) = Some path ∧ path `sublist_of` es ∧ last path = Some e ∧ chain None path.
Proof.
  intros Hm He. destruct (forest_path es (ok_forest _ _ _ _ Hm) e He) as (path & Hs & Hl & Hc). exists path. split; [|done].
  unfold getBranch. pose proof (forest_nonempty es e (ok_forest _ _ _ _ Hm) He) as Hne. rewrite (ok_byId _ _ _ _ Hm).
  destruct (entry_id e) as [|u id] eqn:Eid; [done|]. rewrite <- Eid, (index_get es e), <- Hl by (apply Hm || done). apply walk_path; try done; apply Hm.
Qed.

(** The context at an entry is that of its path. *)
Lemma context_path m fs h es path e :
  sm_ok m fs h es → path `sublist_of` es → last path = Some e → chain None path → sm_leafId m = Some (entry_id e) → manager_context m = Some (context_of_path path).
Proof.
  intros Hm Hs Hl Hc Hleaf. unfold manager_context, leaf_arg, buildSessionContext, buildSessionPath. rewrite Hleaf. cbn [default]. unfold id.
  assert (e ∈ es) as He by (eapply elem_of_sublist; [by apply last_Some_elem_of|done]).
  rewrite bool_decide_eq_false_2 by (eapply forest_nonempty; [apply Hm|done]). rewrite (ok_byId _ _ _ _ Hm), (index_get es e) by (apply Hm || done).
  rewrite <- Hl, walk_path; try done; apply Hm.
Qed.

(** ** A branched session *)

Definition is_label (e : obj) : Prop := type_is e "label" = true.

Lemma map_set_either {A : Type} (m : list (jsstr * A)) k v kv : kv ∈ map_set m k v → kv = (k, v) ∨ kv ∈ m.
Proof.
  induction m as [|[k' v'] m IH]; cbn [map_set]; [intros ?%list_elem_of_singleton; by left|]. case_bool_decide; rewrite !elem_of_cons; naive_solver.
Qed.

(** Replacing a property that is there. *)
Lemma json_put e name v : json_ok (TMap e) = true → is_Some (field e name) → text_ok (js_lit name) = true → json_ok v = true → json_ok (TMap (put e name v)) = true.
Proof.
  cbn [json_ok]. intros [Hk He]%andb_true_iff Hf Hn Hv. apply json_map.
  - unfold put. rewrite map_set_keys, bool_decide_eq_true_2; [done|]. apply dec_stable. intros Hno%map_get_None. unfold field in Hf. rewrite Hno in Hf. by apply is_Some_None in Hf.
  - apply Forall_forall. intros kv [->|Hin]%map_set_either; [done|]. rewrite forallb_forall in He. by apply list_elem_of_In, He, andb_true_iff in Hin.
Qed.

Section rechained.
Context (e : obj) (parent : option jsstr).
Let e' := put e "parentId" (nullable parent).

Lemma rechained_field name : js_lit "parentId" ≠ js_lit name → field e' name = field e name.
Proof using Type. intros Hne. unfold e'. by rewrite put_field, bool_decide_eq_false_2. Qed.

Lemma rechained_str name : js_lit "parentId" ≠ js_lit name → str_field e' name = str_field e name.
Proof using Type. intros Hne. unfold str_field. by rewrite rechained_field. Qed.

Lemma rechained_type name : type_is e' name = type_is e name.
Proof using Type. unfold type_is. rewrite rechained_str; [done|names_differ]. Qed.

Lemma rechained_id : entry_id e' = entry_id e.
Proof using Type. unfold entry_id. rewrite rechained_str; [done|names_differ]. Qed.

Lemma rechained_parent_field : field e' "parentId" = Some (nullable parent).
Proof using Type. unfold e'. by rewrite put_field, bool_decide_eq_true_2. Qed.

Lemma rechained_parent : parent_id e' = parent.
Proof using Type. unfold parent_id, str_field. rewrite rechained_parent_field. by destruct parent. Qed.

Lemma rechained_ok : entry_ok e → (∀ p, parent = Some p → text_ok p = true) → entry_ok e'.
Proof using Type.
  intros [[Hj Ht] Hs] Hp. assert (is_session e' = false) as Hs' by (unfold is_session in *; by rewrite rechained_type). split; [split|done].
  - assert (is_Some (field e "parentId")) as Hf by (unfold typed_entry in Ht; rewrite Hs in Ht; destruct (field e "parentId"); [done|by rewrite !andb_false_r in Ht]).
    unfold e'. apply json_put; [done..|vm_compute; reflexivity|]. destruct parent; [by apply Hp|done].
  - unfold typed_entry in *. rewrite Hs' , rechained_parent_field, !rechained_type, !rechained_str, !rechained_field by names_differ. rewrite Hs in Ht.
    destruct (field e "parentId") as [[]|]; try (by rewrite !andb_false_r in Ht); by destruct parent.
Qed.

Lemma rechained_message : message_of e' = message_of e.
Proof using Type. unfold message_of. rewrite rechained_field; [done|names_differ]. Qed.

Lemma rechained_settings s : settings_step s e' = settings_step s e.
Proof using Type. unfold settings_step, is_assistant. by rewrite !rechained_type, rechained_message, rechained_str, !rechained_field by names_differ. Qed.

Lemma rechained_messages : sessionEntryToContextMessages e' = sessionEntryToContextMessages e.
Proof using Type.
  unfold sessionEntryToContextMessages, copied, time_field, timestamp_of.
  by rewrite !rechained_type, rechained_message, !rechained_str, !rechained_field by names_differ.
Qed.
End rechained.

Lemma set_label_NoDup m target label v : NoDup m.*1 → NoDup (set_label m target label v).*1.
Proof. intros Hm. unfold set_label. destruct label as [[|]|]; first [by apply map_delete_NoDup|by apply map_set_NoDup]. Qed.

Lemma index_labels_NoDup es : NoDup (ix_labels (index_entries es)).*1.
Proof.
  induction es as [|e es IH] using rev_ind; [constructor|]. rewrite index_snoc. unfold index_step. destruct (is_session e); [done|]. destruct (type_is e "label"); [|done].
  by apply set_label_NoDup.
Qed.

Lemma labels_count m taken : NoDup (sm_labelsById m).*1 → (length (labels_to_write m taken) ≤ length taken)%nat.
Proof.
  intros Hnd. unfold labels_to_write. rewrite length_fmap. set (f := filter _ _). rewrite <- (length_fmap fst f). apply submseteq_length, NoDup_submseteq.
  - eapply sublist_NoDup; [exact Hnd|]. apply fmap_sublist, sublist_filter.
  - intros k (kv & -> & Hkv)%list_elem_of_fmap. by apply list_elem_of_filter in Hkv as [? _].
Qed.

Definition unlabelled (path : list obj) : list obj := filter (λ e, type_is e "label" = false) path.

Lemma ids_app es es' : ids (es ++ es') = ids es ++ ids es'.
Proof. apply fmap_app. Qed.

Lemma ids_snoc es e : ids (es ++ [e]) = ids es ++ [entry_id e].
Proof. apply ids_app. Qed.

Lemma rechain_spec pre parent path :
  forest pre → Forall entry_ok pre → Forall entry_ok path → NoDup (ids pre ++ ids path) → Forall (λ e, entry_id e ≠ []) path → (∀ p, parent = Some p → p ∈ ids pre) →
  forest (pre ++ rechain parent path) ∧ Forall entry_ok (rechain parent path) ∧ chain parent (rechain parent path) ∧ ids (rechain parent path) = ids (unlabelled path).
Proof.
  revert pre parent. induction path as [|e path IH]; intros pre parent Hf Hpre Hpath Hnd Hne Hpar; [cbn; by rewrite app_nil_r|].
  apply Forall_cons in Hpath as [He Hpath]. apply Forall_cons in Hne as [Hn Hne]. cbn [rechain]. unfold unlabelled. rewrite filter_cons.
  destruct (type_is e "label") eqn:El; destruct (decide _) as [Hd|Hd]; try congruence.
  - apply IH; try done. eapply sublist_NoDup; [exact Hnd|]. apply sublist_app; [done|]. by apply sublist_cons.
  - set (e' := put e _ _). pose proof (rechained_id e parent) as Hid. fold e' in Hid. cbn in Hnd. apply NoDup_app in Hnd as (Hnd1 & Hdis & [Hni Hnd2]%NoDup_cons).
    assert (entry_ok e') as He' by (apply rechained_ok; [done|]; intros p Hp; eapply ids_text; [exact Hpre|by apply Hpar]).
    destruct (IH (pre ++ [e']) (Some (entry_id e))) as (H1 & H2 & H3 & H4); try done.
    + apply forest_snoc; [done|rewrite Hid..|]; [|done|unfold e'; rewrite rechained_parent; exact Hpar]. intros Hin. apply (Hdis _ Hin). by left.
    + apply Forall_app_2; [done|]. by apply Forall_singleton.
    + rewrite ids_snoc, Hid, <- app_assoc. apply NoDup_app. split; [done|]. split; [done|]. by constructor.
    + intros p [= <-]. rewrite ids_snoc, Hid. apply elem_of_app. right. by apply list_elem_of_singleton.
    + rewrite <- app_assoc in H1. split; [exact H1|]. split; [by constructor|]. split; [cbn; split; [apply rechained_parent|by rewrite Hid]|].
      cbn. rewrite Hid. f_equal. exact H4.
Qed.

(** The labels of an index are texts of its entries. *)
Definition texts (m : list (jsstr * jsstr)) : Prop := Forall (λ kv, text_ok kv.1 = true ∧ text_ok kv.2 = true) m.

Lemma set_label_texts m target label v : texts m → text_ok target = true → text_ok v = true → texts (set_label m target label v).
Proof.
  unfold texts. rewrite !Forall_forall. intros Hm Ht Hv kv. unfold set_label, map_delete.
  destruct label as [[|]|]; rewrite ?list_elem_of_filter; [naive_solver| |naive_solver]. intros [->|Hin]%map_set_either; [done|by apply Hm].
Qed.

Lemma str_text e name : json_ok (TMap e) = true → text_ok (default [] (str_field e name)) = true.
Proof. intros He. unfold str_field. destruct (field e name) as [[]|] eqn:Ef; try done. by apply (json_field _ _ _ He) in Ef. Qed.

Lemma index_texts es : Forall entry_ok es → texts (ix_labels (index_entries es)) ∧ texts (ix_stamps (index_entries es)).
Proof.
  induction es as [|e es IH] using rev_ind; [by split; constructor|]. intros Hall. apply Forall_app in Hall as [Hes He]. apply Forall_cons in He as [[[He _] _] _].
  destruct (IH Hes) as [H1 H2]. rewrite index_snoc. unfold index_step. destruct (is_session e); [done|]. destruct (type_is e "label"); [|done]. cbn [ix_labels ix_stamps].
  split; apply set_label_texts; try done; by apply str_text.
Qed.

Lemma label_entry_spec id parent stamp target label :
  text_ok id = true → (∀ p, parent = Some p → text_ok p = true) → text_ok stamp = true → text_ok target = true → text_ok label = true →
  let e := typed_as "label" ++ text_as "id" id ++ [(js_lit "parentId", nullable parent)] ++ text_as "timestamp" stamp ++ text_as "targetId" target ++ text_as "label" label in
  entry_ok e ∧ entry_id e = id ∧ parent_id e = parent ∧ is_label e.
Proof. intros. unfold entry_ok, good_entry, is_label. cbn zeta in *. split_and!; entry_fields. Qed.

(** An identifier is short, or the last candidate. *)
Lemma generateId_later r used n n' taken : fresh_ok r used → (n < n' ≤ length used)%nat → generateId taken (fr_uuid r n) ≠ fr_uuid r n' 100%nat.
Proof.
  intros Hr Hn. unfold generateId. destruct (generate_loop taken (fr_uuid r n) 100 0) as [id|] eqn:E; [|by apply (fresh_distinct _ _ Hr)].
  apply generate_loop_spec in E as [_ [j ->]]; [|intros i Ei%(f_equal length); by rewrite (fresh_length _ _ Hr) in Ei].
  intros Eq%(f_equal length). rewrite length_take, !(fresh_length _ _ Hr) in Eq. done.
Qed.

Lemma labels_spec r used n pre parent labels :
  fresh_ok r used → forest pre → Forall entry_ok pre → (∀ p, parent = Some p → p ∈ ids pre) → (∀ n', fr_uuid r n' 100%nat ∈ ids pre → (n' < n)%nat ∨ (length used < n')%nat) → (n + length labels ≤ S (length used))%nat →
  Forall (λ l : jsstr * jsstr * jsstr, text_ok l.1.1 = true ∧ text_ok l.1.2 = true ∧ text_ok l.2 = true) labels →
  let ls := label_entries (fr_uuid r) n (ids pre) parent labels in
  forest (pre ++ ls) ∧ Forall entry_ok ls ∧ chain parent ls ∧ Forall is_label ls.
Proof.
  intros Hr. revert n pre parent. induction labels as [|[[target label] stamp] labels IH]; intros n pre parent Hf Hpre Hpar Hu Hlen Hl; cbn zeta; cbn [length] in Hlen.
  { cbn. rewrite app_nil_r. by repeat split. }
  apply Forall_cons in Hl as [(Ht & Hlb & Hst) Hl]. cbn [label_entries fst snd] in *. set (id := generateId (ids pre) (fr_uuid r n)).
  destruct (generateId_new (ids pre) (fr_uuid r n)) as (Hn & Hne & Htx); [split; [|intros Hin%Hu; lia]; intros i; split; [|apply Hr]; intros E%(f_equal length); by rewrite (fresh_length _ _ Hr) in E|].
  fold id in Hn, Hne, Htx. destruct (label_entry_spec id parent stamp target label) as (He & Hid & Hp & Hlab); try done; [intros p Hp; eapply ids_text; [exact Hpre|by apply Hpar]|].
  set (e := typed_as "label" ++ _) in *. rewrite <- Hid in Hn, Hne |- *. rewrite <- ids_snoc.
  destruct (IH (S n) (pre ++ [e]) (Some (entry_id e))) as (H1 & H2 & H3 & H4); try done.
  - apply forest_snoc; try done. by rewrite Hp.
  - apply Forall_app_2; [done|]. by apply Forall_singleton.
  - intros p [= <-]. rewrite ids_snoc. apply elem_of_app. right. by apply list_elem_of_singleton.
  - intros n'. rewrite ids_snoc, elem_of_app. intros [Hin%Hu|Hin%list_elem_of_singleton]; [lia|]. rewrite Hid in Hin.
    destruct (decide (n < n' ≤ length used)%nat) as [Hd|Hd]; [by apply (generateId_later r used n n' (ids pre)) in Hd|lia].
  - lia.
  - rewrite <- app_assoc in H1. split; [exact H1|]. split; [by constructor|]. split; [by split|by constructor].
Qed.

Lemma index_leaf es : Forall entry_ok es → ix_leaf (index_entries es) = end_id None es.
Proof.
  destruct es as [|e es _] using rev_ind; [done|]. intros Hall. apply Forall_app in Hall as [_ He]. apply Forall_cons in He as [[_ He] _].
  rewrite index_snoc, end_snoc. unfold index_step. rewrite He. by destruct (type_is e "label").
Qed.

Lemma last_id_end es : Forall (λ e, entry_id e ≠ []) es → last_id es = end_id None es.
Proof.
  unfold last_id, end_id. destruct (last es) as [e|] eqn:El; [|done]. intros Hne. rewrite Forall_forall in Hne. cbn.
  destruct (entry_id e) eqn:Ei; [|done]. by apply Hne in Ei; [|apply last_Some_elem_of].
Qed.

Lemma end_in es p : end_id None es = Some p → p ∈ ids es.
Proof. unfold end_id. destruct (last es) as [e|] eqn:El; [|done]. intros [= <-]. apply list_elem_of_fmap. exists e. split; [done|]. by apply last_Some_elem_of. Qed.

(** The entries of the new session, from a path of the old one. *)
Lemma branched_entries m fs h es r path :
  sm_ok m fs h es → fresh_ok r (ids es) → path `sublist_of` es →
  let kept := rechain None path in
  let ls := label_entries (fr_uuid r) 0 (ids kept) (last_id kept) (labels_to_write m (ids kept)) in
  forest (kept ++ ls) ∧ Forall entry_ok (kept ++ ls) ∧ chain None (kept ++ ls) ∧ Forall is_label ls.
Proof.
  intros Hm Hr Hs kept ls. assert (Forall entry_ok path) as Hpath by (pose proof (ok_each _ _ _ _ Hm) as Hes; rewrite Forall_forall in Hes |- *; intros e He; by eapply Hes, elem_of_sublist).
  assert (Forall (λ e, entry_id e ≠ []) path) as Hne by (apply Forall_forall; intros e He; eapply forest_nonempty; [apply Hm|by eapply elem_of_sublist]).
  destruct (rechain_spec [] None path) as (Hf & Hok & Hc & Hids); try done; [constructor|eapply sublist_NoDup; [apply forest_NoDup, Hm|by apply fmap_sublist]|].
  fold kept in Hf, Hok, Hc, Hids. cbn [app] in Hf.
  assert (last_id kept = end_id None kept) as Hend by (apply last_id_end, Forall_forall; intros e He; by eapply forest_nonempty).
  destruct (labels_spec r (ids es) 0 kept (last_id kept) (labels_to_write m (ids kept))) as (H1 & H2 & H3 & H4); try done.
  - rewrite Hend. apply end_in.
  - intros n' Hin. destruct (fresh_new _ _ Hr n'). rewrite Hids in Hin. eapply elem_of_sublist; [exact Hin|]. apply fmap_sublist. etrans; [apply sublist_filter|done].
  - cbn. apply le_S. etrans; [apply labels_count; rewrite (ok_labels _ _ _ _ Hm); apply index_labels_NoDup|]. rewrite Hids. apply sublist_length, fmap_sublist. etrans; [apply sublist_filter|done].
  - apply Forall_forall. intros l (kv & -> & Hkv)%list_elem_of_fmap. apply list_elem_of_filter in Hkv as [_ Hkv]. cbn. destruct (index_texts es) as [Hl Hst]; [apply Hm|].
    rewrite <- (ok_labels _ _ _ _ Hm) in Hl. rewrite <- (ok_stamps _ _ _ _ Hm) in Hst. unfold texts in Hl, Hst. rewrite Forall_forall in Hl, Hst. destruct (Hl _ Hkv). split; [done|]. split; [done|].
    destruct (map_get _ kv.1) as [st|] eqn:Eg; [|done]. by apply map_get_Some_elem, Hst in Eg as [_ ?].
  - split; [exact H1|]. split; [by apply Forall_app_2|]. split; [|done]. apply chain_app. rewrite <- Hend. by split.
Qed.

#[local] Arguments index_entries : simpl never.

(** A manager whose entries were replaced and indexed. *)
Lemma rebuilt_ok m id p b fs h es :
  header_ok_ h id → Forall entry_ok es → forest es → stored (set_flushed (set_file (set_session m id (h :: es)) p) b) fs →
  let m' := set_flushed (buildIndex (set_file (set_session m id (h :: es)) p)) b in sm_ok m' fs h es ∧ sm_leafId m' = end_id None es.
Proof.
  intros Hh Hes Hf Hst m'. assert (sm_leafId m' = end_id None es) as Hl by (cbn; rewrite (index_header _ _ _ Hh); by apply index_leaf). split; [|done].
  split; try done; cbn; try (by rewrite (index_header _ _ _ Hh)). intros i Hi. apply end_in. by rewrite <- Hl.
Qed.

Lemma branched_ok m fs h es r e path :
  sm_ok m fs h es → nf_faults fs = [] → fresh_ok r (ids es) → texts_ok m → (sm_persist m = true → nf_files fs !! file_in (sm_sessionDir m) (fr_now r) (fr_session r) = None) →
  getBranch m (Some (entry_id e)) = Some path → path `sublist_of` es → last path = Some e → chain None path →
  ∃ m' fs' res h' ls, createBranchedSession (entry_id e) r m fs = Some (m', fs', Ok res) ∧ nf_faults fs' = [] ∧ sm_ok m' fs' h' (rechain None path ++ ls) ∧
    chain None (rechain None path ++ ls) ∧ Forall is_label ls ∧ sm_leafId m' = end_id None (rechain None path ++ ls).
Proof.
  intros Hm Hn Hr Htx Hfree Hb Hs Hl Hc. destruct (branched_entries m fs h es r path Hm Hr Hs) as (Hf & Hok & Hch & Hlab).
  unfold createBranchedSession. rewrite Hb. destruct path as [|e0 path0] eqn:Epath; [done|]. rewrite <- Epath in *. clear Epath e0 path0.
  fold (ids (rechain None path)). set (kept := rechain None path) in *. set (ls := label_entries _ _ _ _ _) in *.
  set (h' := new_header_entry _ _ _ _). assert (header_ok_ h' (fr_session r)) as Hh.
  { apply header_made; [apply Hr|apply Hr|apply (proj1 Htx)|]. intros p. destruct (sm_persist m); [apply (proj2 Htx)|done]. }
  destruct (sm_persist m) eqn:Hp.
  - set (p := file_in _ _ _) in *. set (m1 := set_file (set_session m _ _) (Some p)). cbn zeta. change (sm_fileEntries (buildIndex m1)) with (h' :: kept ++ ls).
    destruct (has_assistant (h' :: kept ++ ls)) eqn:Ha.
    + unfold rewriteFile. cbn [sm_persist sm_sessionFile buildIndex set_index m1 set_file set_session]. rewrite Hp, write_file_spec by done.
      eexists _, _, _, h', ls. split; [reflexivity|]. split; [done|]. destruct (rebuilt_ok m (fr_session r) (Some p) true (mkFs (<[p := text_of (h' :: kept ++ ls)]> (nf_files fs)) []) h' (kept ++ ls)) as [H1 H2]; try done.
      intros _. exists p. split; [done|]. cbn. by rewrite lookup_insert_eq.
    + eexists _, _, _, h', ls. split; [reflexivity|]. split; [done|]. destruct (rebuilt_ok m (fr_session r) (Some p) false fs h' (kept ++ ls)) as [H1 H2]; try done.
      intros _. exists p. split; [done|]. cbn. split; [by apply Hfree|exact Ha].
  - eexists _, _, _, h', ls. split; [reflexivity|]. split; [done|]. destruct (rebuilt_ok m (fr_session r) (sm_sessionFile m) (sm_flushed m) fs h' (kept ++ ls)) as [H1 H2]; try done.
    unfold stored. cbn. by rewrite Hp.
Qed.

(** ** Runs *)

Definition op_pre (o : op) (r : Fresh) (m : SessionManager) (fs : nodefs) : Prop :=
  args_ok o ∧ fresh_ok r (ids (getEntries m)) ∧ texts_ok m ∧
  (sm_persist m = true →
   match o with
   | OpNew id _ => nf_files fs !! file_in (sm_sessionDir m) (fr_now r) (default (fr_session r) id) = None
   | OpBranched _ => nf_files fs !! file_in (sm_sessionDir m) (fr_now r) (fr_session r) = None
   | _ => True
   end).

Lemma fresh_nil r used : fresh_ok r used → fresh_ok r [].
Proof. intros []. split; try done; [intros n; apply not_elem_of_nil|cbn; lia]. Qed.

Lemma unknown_branch m id : map_get (sm_byId m) id = None → getBranch m (Some id) = Some [].
Proof. intros Hg. unfold getBranch. destruct id; [done|]. by rewrite Hg. Qed.

Lemma branched_run m fs h es r id :
  sm_ok m fs h es → nf_faults fs = [] → fresh_ok r (ids es) → texts_ok m → (sm_persist m = true → nf_files fs !! file_in (sm_sessionDir m) (fr_now r) (fr_session r) = None) →
  ∃ m' fs', state_of <$> createBranchedSession id r m fs = Some (m', fs') ∧ session_ok m' fs'.
Proof.
  intros Hm Hn Hr Htx Hfree. destruct (map_get (sm_byId m) id) as [e|] eqn:Eg.
  - assert (e ∈ es ∧ id = entry_id e) as [He ->].
    { rewrite (ok_byId _ _ _ _ Hm), forest_byId in Eg by apply Hm. apply map_get_Some_elem, list_elem_of_fmap in Eg as (x & [= -> ->] & Hx). done. }
    destruct (getBranch_path m fs h es e Hm He) as (path & Hb & Hs & Hl & Hc).
    destruct (branched_ok m fs h es r e path) as (m' & fs' & res & h' & ls & E & Hn' & Hok & _); try done.
    exists m', fs'. rewrite E. split; [done|]. split; [done|]. by eexists _, _.
  - unfold createBranchedSession. rewrite unknown_branch by done. exists m, fs. split; [done|]. split; [done|]. by exists h, es.
Qed.

Lemma summary_ok m fs h es r from summary details fromHook usage :
  sm_ok m fs h es → nf_faults fs = [] → fresh_ok r (ids es) → text_ok summary = true → opt_json details → opt_json usage →
  session_ok (state_of (branchWithSummary from summary details fromHook usage r m fs)).1 (state_of (branchWithSummary from summary details fromHook usage r m fs)).2.
Proof.
  intros Hm Hn Hr Hs Hd Hu. unfold branchWithSummary. destruct (match from with Some _ => _ | None => _ end) eqn:Ef; [split; [done|by exists h, es]|].
  assert (sm_ok (set_leaf m from) fs h es) as Hm'. { apply set_leaf_ok; [done|]. intros id ->. eapply has_id; [done|]. by apply negb_false_iff. }
  destruct (new_id_ok _ _ _ _ _ Hm' Hr) as (_ & _ & H3). apply (plain_ok (set_leaf m from) fs h es r); try done.
  apply summary_made; try done; [intros l; by apply (leaf_text (set_leaf m from) fs h es)|apply Hr|]. destruct (sm_leafId m) as [l|] eqn:El; [by apply (leaf_text m fs h es)|vm_compute; reflexivity].
Qed.

(** An entry that is made and is not a label. *)
Ltac plain_case m r lemma :=
  eapply (plain_ok m) with (r := r); [eassumption|assumption|assumption|apply lemma; auto|reflexivity].

Lemma op_ok o r m fs : session_ok m fs → op_pre o r m fs → ∃ m' fs', op_run o r m fs = Some (m', fs') ∧ session_ok m' fs'.
Proof.
  intros [Hn (h & es & Hm)] (Ha & Hr & Htx & Hfree). rewrite (getEntries_ok _ _ _ _ Hm) in Hr. destruct (new_id_ok _ _ _ _ _ Hm Hr) as (_ & _ & Hid).
  pose proof (λ l, leaf_text _ _ _ _ l Hm) as Hleaf. pose proof (fresh_now _ _ Hr) as Hnow.
  assert (∀ x : SessionManager * nodefs, session_ok x.1 x.2 → ∃ m' fs', Some x = Some (m', fs') ∧ session_ok m' fs') as Hx by (intros [m' fs'] ?; eauto).
  destruct o; cbn [op_run args_ok] in *; try (apply Hx).
  - plain_case m r message_made.
  - plain_case m r thinking_made.
  - destruct Ha. plain_case m r model_made.
  - destruct Ha as (? & ? & ? & ? & ?). plain_case m r compaction_made.
  - destruct Ha. plain_case m r custom_made.
  - destruct Ha as (? & ? & ?). plain_case m r custom_message_made.
  - apply one_line_text with (b := false), trim_text in Ha. plain_case m r info_made.
  - by eapply label_ok.
  - unfold branch. destruct (map_has (sm_byId m) id) eqn:Eh; split; try done; exists h, es; [|done]. apply set_leaf_ok; [done|]. intros i [= <-]. by eapply has_id.
  - split; [done|]. exists h, es. by apply set_leaf_ok.
  - destruct Ha as (? & ? & ?). by eapply summary_ok.
  - destruct Ha as [Hi Hp]. pose proof (new_ok m fs id parentSession r (Some (file_in (sm_sessionDir m) (fr_now r) (default (fr_session r) id)))) as Hnew.
    destruct (newSession id parentSession r m) as [m' [q|e]]; cbn [fst snd].
    + apply Hnew; try done; [apply (proj1 Htx)|by apply (fresh_nil _ (ids es))|]. intros Hps. split; [done|]. intros x [= <-]. by apply Hfree.
    + rewrite Hnew; try done; [split; [done|by exists h, es]|apply (proj1 Htx)|by apply (fresh_nil _ (ids es))|].
      intros Hps. split; [done|]. intros x [= <-]. by apply Hfree.
  - by eapply branched_run.
Qed.

(** ** The context of a branched session *)

Definition not_compaction (e : obj) : Prop := type_is e "compaction" = false.

Lemma label_types e name : is_label e → js_lit "label" ≠ js_lit name → type_is e name = false.
Proof. unfold is_label, type_is. intros E%bool_decide_eq_true Hne. rewrite E. apply bool_decide_eq_false. congruence. Qed.

Lemma label_messages e : is_label e → sessionEntryToContextMessages e = [].
Proof. intros He. unfold sessionEntryToContextMessages. by rewrite !(label_types e) by (done || names_differ). Qed.

Lemma label_settings s e : is_label e → settings_step s e = s.
Proof. intros He. unfold settings_step, is_assistant. by rewrite !(label_types e) by (done || names_differ). Qed.

Lemma context_none path : Forall not_compaction path → context_entries path = path.
Proof.
  intros Hp. unfold context_entries. replace (filter _ path) with (@nil obj); [done|]. symmetry.
  induction Hp as [|e path He _ IH]; [done|]. rewrite filter_cons_False; [done|]. unfold not_compaction in He. congruence.
Qed.

Lemma context_at a c b :
  NoDup (ids (a ++ c :: b)) → type_is c "compaction" = true → Forall not_compaction b →
  context_entries (a ++ c :: b) = c :: from_kept (str_field c "firstKeptEntryId") false a ++ b.
Proof.
  intros Hnd Hc Hb. unfold context_entries. assert (filter (λ e, type_is e "compaction" = true) b = []) as Ef.
  { induction Hb as [|e b He _ IH]; [done|]. rewrite filter_cons_False; [apply IH|unfold not_compaction in He; congruence].
    rewrite ids_app in Hnd |- *. cbn in Hnd |- *. eapply sublist_NoDup; [exact Hnd|]. apply sublist_app; [done|]. apply sublist_skip. by apply sublist_cons. }
  rewrite filter_app, filter_cons_True, Ef, last_snoc by done.
  assert (list_find (λ e, entry_id e = entry_id c) (a ++ c :: b) = Some (length a, c)) as ->.
  { apply list_find_Some. split; [by apply list_lookup_middle|]. split; [done|]. intros j y Hj Hlt Hy. rewrite lookup_app_l in Hj by done.
    rewrite ids_app in Hnd. apply NoDup_app in Hnd as (_ & Hdis & _). apply (Hdis (entry_id y)); [|cbn; rewrite Hy; by left].
    apply list_elem_of_fmap. exists y. split; [done|]. by eapply list_elem_of_lookup_2. }
  rewrite take_app_length. replace (S (length a)) with (length (a ++ [c])) by (rewrite length_app; cbn; lia).
  change (a ++ c :: b) with (a ++ [c] ++ b). by rewrite (assoc_L (++) a [c] b), drop_app_length.
Qed.

Lemma last_compaction path : Forall not_compaction path ∨ ∃ a c b, path = a ++ c :: b ∧ type_is c "compaction" = true ∧ Forall not_compaction b.
Proof.
  induction path as [|e path IH] using rev_ind; [by left|]. destruct (type_is e "compaction") eqn:Ee; [right; by exists path, e, []|].
  destruct IH as [IH|(a & c & b & -> & Hc & Hb)]; [left; apply Forall_app_2; [done|by apply Forall_singleton]|].
  right. exists a, c, (b ++ [e]). rewrite <- app_assoc. split; [done|]. split; [done|]. apply Forall_app_2; [done|by apply Forall_singleton].
Qed.

Lemma rechain_app parent a b : ∃ parent', rechain parent (a ++ b) = rechain parent a ++ rechain parent' b.
Proof.
  revert parent. induction a as [|e a IH]; intros parent; [by exists parent|]. cbn [app rechain]. destruct (type_is e "label"); [apply IH|].
  destruct (IH (Some (entry_id e))) as [parent' ->]. by exists parent'.
Qed.

Lemma rechain_plain parent path : Forall not_compaction path → Forall not_compaction (rechain parent path).
Proof.
  intros Hp. revert parent. induction Hp as [|e path He _ IH]; intros parent; cbn [rechain]; [done|]. destruct (type_is e "label"); [apply IH|].
  constructor; [|apply IH]. unfold not_compaction. by rewrite rechained_type.
Qed.

Lemma rechain_settings s parent path : foldl settings_step s (rechain parent path) = foldl settings_step s path.
Proof.
  revert s parent. induction path as [|e path IH]; intros s parent; cbn [rechain foldl]; [done|]. destruct (type_is e "label") eqn:El.
  - by rewrite (label_settings s e).
  - cbn [foldl]. by rewrite rechained_settings.
Qed.

Lemma labels_settings s ls : Forall is_label ls → foldl settings_step s ls = s.
Proof. induction 1 as [|e ls He _ IH] in s |- *; cbn [foldl]; [done|]. by rewrite label_settings. Qed.

Lemma labels_messages ls : Forall is_label ls → ls ≫= sessionEntryToContextMessages = [].
Proof. induction 1 as [|e ls He _ IH]; [done|]. rewrite bind_cons, label_messages by done. exact IH. Qed.

Lemma kept_messages firstKept found parent a :
  (∀ l, l ∈ a → is_label l → firstKept ≠ Some (entry_id l)) →
  from_kept firstKept found (rechain parent a) ≫= sessionEntryToContextMessages = from_kept firstKept found a ≫= sessionEntryToContextMessages.
Proof.
  revert found parent. induction a as [|e a IH]; intros found parent Hl; [done|]. assert (∀ l, l ∈ a → is_label l → firstKept ≠ Some (entry_id l)) as Hl' by (intros l Hin; apply Hl; by right).
  cbn [rechain]. destruct (type_is e "label") eqn:El; cbn [from_kept].
  - rewrite (bool_decide_eq_false_2 (Some (entry_id e) = firstKept)) by (intros Eq; apply (Hl e); [by left|done|done]). rewrite orb_false_r, bind_app.
    replace ((if found then [e] else []) ≫= sessionEntryToContextMessages) with (@nil obj); [by apply IH|]. destruct found; [|done]. by rewrite bind_cons, label_messages.
  - rewrite !bind_app, rechained_id, IH by done. f_equal. destruct (found || _); [|done]. by rewrite !bind_cons, rechained_messages.
Qed.

Lemma from_all firstKept a : from_kept firstKept true a = a.
Proof. induction a as [|e a IH]; [done|]. cbn. by rewrite IH. Qed.

Lemma rechain_messages parent a : rechain parent a ≫= sessionEntryToContextMessages = a ≫= sessionEntryToContextMessages.
Proof. rewrite <- (from_all None (rechain parent a)), (kept_messages None true parent a) by done. by rewrite from_all. Qed.

(** No compaction of the path keeps entries from a label on. *)
Definition keeps_no_label (path : list obj) : Prop :=
  ∀ c l, c ∈ path → l ∈ path → type_is c "compaction" = true → is_label l → str_field c "firstKeptEntryId" ≠ Some (entry_id l).

Lemma rechained_context path ls :
  NoDup (ids path) → NoDup (ids (rechain None path ++ ls)) → Forall is_label ls → keeps_no_label path → context_of_path (rechain None path ++ ls) = context_of_path path.
Proof.
  intros Hnd Hnd' Hls Hk. unfold context_of_path. f_equal.
  2: { unfold getSessionContextSettings. by rewrite foldl_app, rechain_settings, labels_settings. }
  assert (Forall not_compaction ls) as Hpl by (eapply Forall_impl; [done|]; intros e He; apply label_types; [done|names_differ]).
  destruct (last_compaction path) as [Hn|(a & c & b & -> & Hc & Hb)].
  - rewrite (context_none path), context_none by (done || (apply Forall_app_2; [by apply rechain_plain|done])). by rewrite bind_app, rechain_messages, (labels_messages ls), app_nil_r.
  - destruct (rechain_app None a (c :: b)) as [parent E]. assert (type_is c "label" = false) as Hcl.
    { destruct (type_is c "label") eqn:El; [|done]. rewrite (label_types c "compaction") in Hc by (done || names_differ). done. }
    cbn [rechain] in E. rewrite Hcl in E. rewrite E, <- app_assoc in Hnd' |- *. cbn [app] in Hnd' |- *.
    rewrite !context_at; try done; [|by rewrite rechained_type|apply Forall_app_2; [by apply rechain_plain|done]].
    rewrite rechained_str by names_differ. rewrite !bind_cons, !bind_app, rechained_messages, rechain_messages, (labels_messages ls), app_nil_r by done. f_equal. f_equal.
    apply kept_messages. intros l Hl Hlab. apply Hk; try done; rewrite elem_of_app; [right; by left|by left].
Qed.

(** ** What the manager promises *)

(** A session that was created and used without failures of the file system. *)
Inductive recorded : SessionManager → nodefs → Prop :=
| rec_create cwd dir persist id r m p fs :
    create_session cwd dir persist id r = (m, Ok p) → text_ok cwd = true → (∀ i, id = Some i → text_ok i = true) → fresh_ok r [] → nf_faults fs = [] →
    (persist = true → nf_files fs !! file_in dir (fr_now r) (default (fr_session r) id) = None) → recorded m fs
| rec_op m fs o r m' fs' : recorded m fs → op_pre o r m fs → op_run o r m fs = Some (m', fs') → recorded m' fs'.

Lemma recorded_ok m fs : recorded m fs → session_ok m fs.
Proof.
  induction 1 as [cwd dir persist id r m p fs E Hc Hi Hr Hn Hfree|m fs o r m' fs' _ IH Hpre E].
  - pose proof (new_ok (blank cwd dir persist) fs id None r (Some (file_in dir (fr_now r) (default (fr_session r) id)))) as Hnew.
    unfold create_session in E. rewrite E in Hnew. apply Hnew; try done. intros Hp. split; [done|]. intros q [= <-]. by apply Hfree.
  - destruct (op_ok o r m fs IH Hpre) as (m1 & fs1 & E1 & Hok). rewrite E in E1. by injection E1 as -> ->.
Qed.

Lemma same_context m fs h es m' fs' h' :
  sm_ok m fs h es → sm_ok m' fs' h' es → sm_leafId m' = sm_leafId m → manager_context m' = manager_context m.
Proof.
  intros Hm Hm' Hl. unfold manager_context, leaf_arg. rewrite Hl, (getEntries_ok _ _ _ _ Hm), (getEntries_ok _ _ _ _ Hm'). by rewrite (ok_byId _ _ _ _ Hm), (ok_byId _ _ _ _ Hm').
Qed.

Lemma reopen_ok m fs h es chunks r cwd dir p :
  sm_ok m fs h es → (∀ t, concat (chunks t) = t) → nf_files fs !! p = Some (text_of (h :: es)) →
  ∃ m', setSessionFile chunks p r (blank cwd dir true) fs = (m', fs, Ok tt) ∧ sm_ok m' fs h es ∧ sm_sessionId m' = sm_sessionId m ∧ sm_leafId m' = end_id None es.
Proof.
  intros Hm Hch Hp. destruct (ok_header _ _ _ _ Hm) as ((Hj & Ht) & Hs & Hid & Hv).
  assert (Forall (λ e, json_ok (TMap e) = true) (h :: es)) as Hjs by (constructor; [done|]; eapply Forall_impl; [apply Hm|]; by intros e [[? _] _]).
  assert (forallb typed_entry (h :: es) = true) as Hty.
  { cbn [forallb]. rewrite Ht. apply forallb_forall. intros e He%list_elem_of_In. pose proof (ok_each _ _ _ _ Hm) as Hall. rewrite Forall_forall in Hall. by destruct (Hall e He) as [[_ ?] _]. }
  unfold setSessionFile. rewrite Hp, (load_text chunks p fs h es Hch Hp Hs) by (done || by eexists). cbn [List.find]. rewrite Hs.
  unfold migrateToCurrentVersion, version_of. cbn [List.find]. rewrite Hs, Hv. change (num_ge (NInt 3) CURRENT_SESSION_VERSION) with true. cbn iota. rewrite Hty. cbn [negb].
  assert (entry_id h = sm_sessionId m) as Hsid by (unfold entry_id; by rewrite Hid). rewrite Hsid.
  destruct (rebuilt_ok (blank cwd dir true) (sm_sessionId m) (Some p) true fs h es) as [H1 H2]; [done|apply Hm|apply Hm|intros _; exists p; by split|].
  eexists. split; [reflexivity|]. by split_and!.
Qed.

(** The context when the session is one path and the leaf its end. *)
Lemma whole_context m fs h es : sm_ok m fs h es → chain None es → sm_leafId m = end_id None es → manager_context m = Some (context_of_path es).
Proof.
  intros Hm Hc Hl. destruct (last es) as [e|] eqn:El; [eapply context_path; try done; unfold end_id in Hl; by rewrite El in Hl|].
  apply last_None in El as ->. unfold manager_context, leaf_arg. by rewrite Hl.
Qed.

(** C16: A recorded session survives: once it has an answer of the model, its file holds
    it, and opening the file (however the reads cut it) gives the same entries, index,
    labels and identifier, with the leaf at the entry appended last; if the leaf was
    there, the context is the same. *)
Theorem session_reopens m fs chunks r cwd dir :
  recorded m fs → sm_persist m = true → has_assistant (sm_fileEntries m) = true → (∀ t, concat (chunks t) = t) →
  ∃ p m', sm_sessionFile m = Some p ∧ setSessionFile chunks p r (blank cwd dir true) fs = (m', fs, Ok tt) ∧
    sm_fileEntries m' = sm_fileEntries m ∧ sm_byId m' = sm_byId m ∧ sm_labelsById m' = sm_labelsById m ∧ sm_labelTimestampsById m' = sm_labelTimestampsById m ∧
    sm_sessionId m' = sm_sessionId m ∧ sm_leafId m' = end_id None (getEntries m) ∧
    (sm_leafId m = end_id None (getEntries m) → manager_context m' = manager_context m).
Proof.
  intros [Hn (h & es & Hm)]%recorded_ok Hp Ha Hch. destruct (ok_stored _ _ _ _ Hm Hp) as (p & Hf & Hd). pose proof (ok_entries _ _ _ _ Hm) as He.
  destruct (sm_flushed m); [|destruct Hd; congruence]. rewrite He in Hd. destruct (reopen_ok m fs h es chunks r cwd dir p Hm Hch Hd) as (m' & E & Hm' & Hsid & Hl).
  exists p, m'. rewrite (getEntries_ok _ _ _ _ Hm). split_and!; try done.
  - by rewrite He, (ok_entries _ _ _ _ Hm').
  - by rewrite (ok_byId _ _ _ _ Hm), (ok_byId _ _ _ _ Hm').
  - by rewrite (ok_labels _ _ _ _ Hm), (ok_labels _ _ _ _ Hm').
  - by rewrite (ok_stamps _ _ _ _ Hm), (ok_stamps _ _ _ _ Hm').
  - intros El. eapply same_context; [done..|]. by rewrite El.
Qed.

(** C18: The entries of a recorded session are a forest in which [getBranch] ends: it
    returns the way from a root to the entry, each the parent of the next, in the
    order of the session, and identifiers are not used twice. *)
Theorem session_tree m fs e :
  recorded m fs → e ∈ getEntries m →
  NoDup (ids (getEntries m)) ∧ ∃ path, getBranch m (Some (entry_id e)) = Some path ∧ path `sublist_of` getEntries m ∧ last path = Some e ∧ chain None path.
Proof.
  intros [Hn (h & es & Hm)]%recorded_ok. rewrite (getEntries_ok _ _ _ _ Hm). intros He. split; [apply forest_NoDup, Hm|]. by eapply getBranch_path.
Qed.

(** C17: A branched session has the context of the entry it was made at, though labels
    are taken out of the path and the rest is chained anew, unless a compaction keeps
    entries from a label on. *)
Theorem branched_context m fs e r :
  recorded m fs → op_pre (OpBranched (entry_id e)) r m fs → e ∈ getEntries m →
  (∀ path, getBranch m (Some (entry_id e)) = Some path → keeps_no_label path) →
  ∃ m' fs' file, createBranchedSession (entry_id e) r m fs = Some (m', fs', Ok file) ∧ manager_context m' = manager_context (set_leaf m (Some (entry_id e))).
Proof.
  intros [Hn (h & es & Hm)]%recorded_ok (_ & Hr & Htx & Hfree). rewrite (getEntries_ok _ _ _ _ Hm) in Hr |- *. intros He Hk.
  destruct (getBranch_path m fs h es e Hm He) as (path & Hb & Hs & Hl & Hc).
  destruct (branched_ok m fs h es r e path) as (m' & fs' & file & h' & ls & E & Hn' & Hm' & Hc' & Hls & Hlf); try done.
  exists m', fs', file. split; [done|]. assert (sm_ok (set_leaf m (Some (entry_id e))) fs h es) as Hleaf.
  { apply set_leaf_ok; [done|]. intros i [= <-]. apply list_elem_of_fmap. by exists e. }
  rewrite (context_path _ _ _ _ path e Hleaf) by done. rewrite (whole_context m' fs' h' _ Hm' Hc' Hlf). f_equal.
  apply rechained_context; [eapply sublist_NoDup; [apply forest_NoDup, Hm|by apply fmap_sublist]|apply forest_NoDup, Hm'|done|by apply Hk].
Qed.

(** ** Sample sessions *)

Definition demo_fresh (k : Z) : Fresh :=
  mkFresh (λ n i, padded 8 k ++ [Z.of_nat n mod 0x10000; Z.of_nat i mod 0x10000] ++ replicate 26 0x30) (js_lit "s" ++ padded 4 k) (toISOString (1700000000000 + k)).

Lemma padded_spec n z : length (padded n z) = n ∧ text_ok (padded n z) = true.
Proof.
  revert z. induction n as [|n IH]; intros z; [done|]. cbn [padded]. rewrite length_app. destruct (IH (z / 10)) as [Hl Ht]. split; [cbn; lia|].
  unfold text_ok in *. rewrite forallb_app, Ht. cbn. pose proof (Z.mod_pos_bound z 10). lia.
Qed.

Definition fresh_okb (k : Z) (used : list jsstr) : bool :=
  forallb (λ id, bool_decide (length id = 8%nat)) used && bool_decide (length used < 1000)%nat && text_ok (fr_now (demo_fresh k)).

Lemma demo_fresh_ok k used : fresh_okb k used = true → fresh_ok (demo_fresh k) used.
Proof.
  unfold fresh_okb. rewrite !andb_true_iff, bool_decide_eq_true, forallb_forall. intros [[Hu Hl] Hn]. destruct (padded_spec 8 k) as [Hl8 Ht8].
  split; cbn [demo_fresh fr_uuid fr_session]; try done.
  - intros n i. unfold text_ok in *. rewrite forallb_app, Ht8. cbn [app forallb andb]. pose proof (Z.mod_pos_bound (Z.of_nat n) 0x10000). pose proof (Z.mod_pos_bound (Z.of_nat i) 0x10000).
    rewrite !andb_true_iff. split_and!; try lia. vm_compute. reflexivity.
  - intros n Hin%list_elem_of_In%Hu. apply bool_decide_eq_true in Hin. rewrite length_app, Hl8 in Hin. done.
  - intros n n' Hn' E%app_inv_head. injection E as E. rewrite !Z.mod_small in E by lia. lia.
  - unfold text_ok. rewrite forallb_app. apply andb_true_iff. split; [vm_compute; reflexivity|apply padded_spec].
Qed.

(** The operations of the samples. *)
Definition argsb (o : op) : bool :=
  match o with
  | OpMessage message => json_ok (TMap message)
  | OpThinking level => text_ok level
  | OpCompaction summary firstKept tokensBefore None _ None => text_ok summary && text_ok firstKept && num_json tokensBefore
  | OpLabel _ (Some label) => text_ok label
  | OpBranch _ | OpBranched _ => true
  | _ => false
  end.

Definition preb (o : op) (k : Z) (m : SessionManager) (fs : nodefs) : bool :=
  argsb o && fresh_okb k (ids (getEntries m)) && text_ok (sm_cwd m) && match sm_sessionFile m with Some p => text_ok p | None => true end &&
  bool_decide (nf_files fs !! file_in (sm_sessionDir m) (fr_now (demo_fresh k)) (fr_session (demo_fresh k)) = None).

Lemma preb_pre o k m fs : preb o k m fs = true → op_pre o (demo_fresh k) m fs.
Proof.
  unfold preb. rewrite !andb_true_iff, bool_decide_eq_true. intros [[[[Ha Hf] Hc] Hp] Hd]. split_and!.
  - destruct o as [| | |summary firstKept tokensBefore [] fromHook []| | | |target []| | | | |]; cbn [argsb args_ok] in Ha |- *; rewrite ?andb_true_iff in Ha; try done; [destruct Ha as [[? ?] ?]; split_and!; try done|]; by intros ? [= <-].
  - by apply demo_fresh_ok.
  - split; [done|]. intros p E. by rewrite E in Hp.
  - intros _. destruct o; try done.
Qed.

Fixpoint drive_session (ops : list op) (k : Z) (m : SessionManager) (fs : nodefs) : option (SessionManager * nodefs) :=
  match ops with
  | [] => Some (m, fs)
  | o :: ops =>
      if preb o k m fs then match op_run o (demo_fresh k) m fs with Some (m, fs) => drive_session ops (k + 1) m fs | None => None end else None
  end.

Lemma drive_recorded ops k m fs m' fs' : recorded m fs → drive_session ops k m fs = Some (m', fs') → recorded m' fs'.
Proof.
  revert k m fs. induction ops as [|o ops IH]; intros k m fs Hr; cbn [drive_session]; [by intros [= <- <-]|]. destruct (preb o k m fs) eqn:Ep; [|done].
  destruct (op_run o (demo_fresh k) m fs) as [[m1 fs1]|] eqn:Eo; [|done]. apply IH. eapply rec_op; [done| |done]. by apply preb_pre.
Qed.

Definition says (role text : string) : obj := [(js_lit "role", TText (js_lit role)); (js_lit "content", TText (js_lit text))].
Definition demo_manager : SessionManager := (create_session (js_lit "/w") (js_lit "/s") true None (demo_fresh 0)).1.
Definition empty_fs (faults : list (option nat)) : nodefs := mkFs ∅ faults.

Lemma demo_recorded : recorded demo_manager (empty_fs []).
Proof. eapply (rec_create (js_lit "/w") (js_lit "/s") true None (demo_fresh 0)); try done. apply demo_fresh_ok. vm_compute. reflexivity. Qed.

Definition demo_ops : list op :=
  [OpMessage (says "user" "one"); OpMessage (says "assistant" "two"); OpLabel (js_lit "00000001") (Some (js_lit "start")); OpThinking (js_lit "high");
   OpMessage (says "user" "three"); OpBranch (js_lit "00000002"); OpMessage (says "user" "four"); OpMessage (says "assistant" "five")].

Lemma demo_session :
  match drive_session demo_ops 1 demo_manager (empty_fs []) with
  | Some (m, fs) => sm_persist m = true ∧ has_assistant (sm_fileEntries m) = true ∧ sm_leafId m = end_id None (getEntries m) ∧ length (getEntries m) = 7%nat ∧
      (λ c : SessionContext, length c.1) <$> manager_context m = Some 4%nat
  | None => False
  end.
Proof. vm_compute. repeat split. Qed.

Lemma session_reopens_witness :
  ∃ m fs p m', recorded m fs ∧ length (getEntries m) = 7%nat ∧ setSessionFile (λ t, [take 100 t; drop 100 t]) p (demo_fresh 99) (blank (js_lit "/w") (js_lit "/s") true) fs = (m', fs, Ok tt) ∧
    sm_fileEntries m' = sm_fileEntries m ∧ manager_context m' = manager_context m.
Proof.
  pose proof demo_session as Hd. destruct (drive_session demo_ops 1 demo_manager (empty_fs [])) as [[m fs]|] eqn:E; [|destruct Hd].
  destruct Hd as (Hp & Ha & Hl & Hlen & _). assert (recorded m fs) as Hr by (eapply drive_recorded; [apply demo_recorded|exact E]).
  destruct (session_reopens m fs (λ t, [take 100 t; drop 100 t]) (demo_fresh 99) (js_lit "/w") (js_lit "/s") Hr Hp Ha) as (p & m' & _ & Es & He & _ & _ & _ & _ & _ & Hc).
  { intros t. cbn. by rewrite app_nil_r, take_drop. }
  exists m, fs, p, m'. split; [exact Hr|]. split; [exact Hlen|]. split; [exact Es|]. split; [exact He|exact (Hc Hl)].
Defined.

(** The entry of an identifier in the sample. *)
Lemma demo_found :
  match drive_session demo_ops 1 demo_manager (empty_fs []) with
  | Some (m, fs) => match List.find (λ e, bool_decide (entry_id e = js_lit "00000005")) (getEntries m) with
      | Some e => preb (OpBranched (entry_id e)) 20 m fs = true ∧
          match getBranch m (Some (entry_id e)) with Some path => length path = 5%nat ∧ forallb (λ e, negb (type_is e "compaction")) path = true | None => False end
      | None => False end
  | None => False
  end.
Proof. vm_compute. repeat split. Qed.

Lemma session_tree_witness :
  ∃ m fs e path, recorded m fs ∧ e ∈ getEntries m ∧ getBranch m (Some (entry_id e)) = Some path ∧ length path = 5%nat ∧ last path = Some e ∧ chain None path.
Proof.
  pose proof demo_found as Hd. destruct (drive_session demo_ops 1 demo_manager (empty_fs [])) as [[m fs]|] eqn:E; [|destruct Hd].
  destruct (List.find _ (getEntries m)) as [e|] eqn:Ef; [|destruct Hd]. destruct Hd as [_ Hb]. apply List.find_some in Ef as [Hin _]. apply list_elem_of_In in Hin.
  assert (recorded m fs) as Hr by (eapply drive_recorded; [apply demo_recorded|exact E]). destruct (session_tree m fs e Hr Hin) as (_ & path & Hp & _ & Hl & Hc).
  rewrite Hp in Hb. destruct Hb as [Hlen _]. exists m, fs, e, path. split; [exact Hr|]. split; [exact Hin|]. split; [exact Hp|]. split; [exact Hlen|]. split; [exact Hl|exact Hc].
Defined.

Lemma branched_context_witness :
  ∃ m fs e m' fs' file, recorded m fs ∧ e ∈ getEntries m ∧ createBranchedSession (entry_id e) (demo_fresh 20) m fs = Some (m', fs', Ok file) ∧
    manager_context m' = manager_context (set_leaf m (Some (entry_id e))).
Proof.
  pose proof demo_found as Hd. destruct (drive_session demo_ops 1 demo_manager (empty_fs [])) as [[m fs]|] eqn:E; [|destruct Hd].
  destruct (List.find _ (getEntries m)) as [e|] eqn:Ef; [|destruct Hd]. destruct Hd as [Hpre Hb]. apply List.find_some in Ef as [Hin _]. apply list_elem_of_In in Hin.
  assert (recorded m fs) as Hr by (eapply drive_recorded; [apply demo_recorded|exact E]).
  destruct (branched_context m fs e (demo_fresh 20) Hr (preb_pre _ _ _ _ Hpre) Hin) as (m' & fs' & file & Ec & Hc).
  - intros path Hp c l Hcin _ Hcc _. rewrite Hp in Hb. destruct Hb as [_ Hno]. rewrite forallb_forall in Hno. apply list_elem_of_In in Hcin. apply Hno in Hcin. rewrite Hcc in Hcin. discriminate Hcin.
  - exists m, fs, e, m', fs', file. split; [exact Hr|]. split; [exact Hin|]. split; [exact Ec|exact Hc].
Defined.

(** ** Defects *)

(** The texts of a context. *)
Definition context_texts (m : SessionManager) : option (list (option jsstr)) := (λ c : SessionContext, (λ e, str_field e "content") <$> c.1) <$> manager_context m.

(** A compaction may keep entries from a label on, since labels next to the cut are kept
    with it.  A branched session has no such label, and loses the entries. *)
Theorem label_kept_lost :
  match drive_session [OpMessage (says "user" "one"); OpMessage (says "assistant" "two"); OpLabel (js_lit "00000001") (Some (js_lit "x")); OpMessage (says "user" "three");
      OpCompaction (js_lit "summary") (js_lit "00000003") (NInt 10) None None None; OpMessage (says "assistant" "four")] 1 demo_manager (empty_fs []) with
  | Some (m, fs) =>
      context_texts m = Some [None; Some (js_lit "three"); Some (js_lit "four")] ∧
      (state_of <$> createBranchedSession (js_lit "00000006") (demo_fresh 20) m fs) ≫= (λ x, context_texts x.1) = Some [None; Some (js_lit "four")]
  | None => False
  end.
Proof. vm_compute. done. Qed.

(** Appends in sequence on a file system with failures. *)
Definition says_all (messages : list obj) (m : SessionManager) (fs : nodefs) : SessionManager * nodefs * list (option error) :=
  foldl (λ x message, let '(m, fs, log) := x in
    match appendMessage message (demo_fresh (Z.of_nat (length log) + 1)) m fs with
    | (m, fs, Ok _) => (m, fs, log ++ [None])
    | (m, fs, Err e) => (m, fs, log ++ [Some e])
    end) (m, fs, []) messages.

(** An entry that could not be written stays the leaf, so that the next entry hangs on
    an entry the file lacks: on reopening, everything before is out of the context. *)
Theorem failed_append_orphans :
  let '(m, fs, log) := says_all [says "user" "one"; says "assistant" "two"; says "user" "three"; says "assistant" "four"] demo_manager (empty_fs [None; None; None; None; Some 0%nat]) in
  log = [None; None; Some (Thrown "write"); None] ∧
  context_texts m = Some [Some (js_lit "one"); Some (js_lit "two"); Some (js_lit "three"); Some (js_lit "four")] ∧
  match sm_sessionFile m with
  | Some p => context_texts (setSessionFile (λ t, [t]) p (demo_fresh 99) (blank (js_lit "/w") (js_lit "/s") true) fs).1.1 = Some [Some (js_lit "four")]
  | None => False
  end.
Proof. vm_compute. done. Qed.

(** When the first write of a session fails, the file exists and the session does not
    count as written, so every later append fails too. *)
Theorem failed_flush_repeats :
  let '(m, fs, log) := says_all [says "user" "one"; says "assistant" "two"; says "user" "three"; says "assistant" "four"] demo_manager (empty_fs [None; Some 5%nat]) in
  log = [None; Some (Thrown "write"); Some (Thrown "EEXIST"); Some (Thrown "EEXIST")].
Proof. vm_compute. done. Qed.

Definition header_v (version : Z) : obj :=
  typed_as "session" ++ [(js_lit "version", TNum (NInt version))] ++ text_as "id" (js_lit "old") ++ text_as "timestamp" (js_lit "2023-11-14T22:13:20.000Z") ++ text_as "cwd" (js_lit "/w").

(** The set of used identifiers stays empty during the migration of a session of
    version 1, so that a repeated identifier goes unnoticed. *)
Theorem migration_unchecked uuid e :
  is_session e = false → type_is e "compaction" = false → (∀ n, uuid n 0%nat = uuid 1%nat 0%nat) →
  ids (migrateV1ToV2 uuid [header_v 1; e; e]) = [js_lit "old"; take 8 (uuid 1%nat 0%nat); take 8 (uuid 1%nat 0%nat)].
Proof.
  intros He Hc Hu. unfold migrateV1ToV2, ids. cbn [migrate_v1_loop]. change (is_session (header_v 1)) with true. cbn iota. rewrite He. cbn [length app].
  unfold first_kept_field, type_is in *. rewrite !put_other by names_differ. rewrite Hc. cbn [fmap list_fmap]. unfold generateId. cbn [generate_loop]. rewrite !bool_decide_eq_false_2 by apply not_elem_of_nil.
  unfold entry_id at 2 3. rewrite !put_other by names_differ. unfold str_field. rewrite !put_field, !bool_decide_eq_true_2 by done. cbn [default]. by rewrite (Hu 2%nat).
Qed.

(** An entry that is its own parent, which [getTree] shows as a root, is walked forever. *)
Theorem self_parent_hangs index e : parent_in index e = Some e → ∀ fuel path, path_loop fuel index (Some e) path = None.
Proof. intros Hp fuel. induction fuel as [|fuel IH]; intros path; cbn [path_loop]; [done|]. rewrite Hp. apply IH. Qed.

(** A fork copies the entries of an older version under a header of the current one, so
    that they are never migrated. *)
Theorem fork_skips_migration :
  let message := typed_as "message" ++ text_as "id" (js_lit "a1") ++ [(js_lit "parentId", TNull)] ++ text_as "timestamp" (js_lit "2023-11-14T22:13:20.000Z") ++ [(js_lit "message", TMap (says "hookMessage" "hi"))] in
  let fs := mkFs {[ js_lit "/s/old.jsonl" := text_of [header_v 2; message] ]} [] in
  let roles m := (λ e, str_field (message_of e) "role") <$> getEntries m in
  roles (setSessionFile (λ t, [t]) (js_lit "/s/old.jsonl") (demo_fresh 1) (blank (js_lit "/w") (js_lit "/s") true) fs).1.1 = [Some (js_lit "custom")] ∧
  rmap roles (forkFrom (λ t, [t]) (js_lit "/s/old.jsonl") (js_lit "/w") (js_lit "/s") None (demo_fresh 1) fs).2 = Ok [Some (js_lit "hookMessage")].
Proof. vm_compute. done. Qed.
