(* ===== verification/AgentLoop.v ===== *)
(** The agent loop: [cli/packages/agent/src/agent-loop.ts], with the types of
    [agent/src/types.ts] it uses.

    The loop is a state machine.  Its control points are the awaits of the code; an
    [Answer] is what the awaited party does: a queue that is polled, a hook, the
    stream of the model, a tool.  [step] runs the code from an answer to the next
    await, and is [None] when the loop does not wait for that answer.  Tools that run
    in parallel answer in any order.  [Abort] may come at any time, and [Continue] is
    the return of an event's listeners, after which the code looks at the signal.
    A tool's progress counts until it has settled; later calls are ignored.
    [Rejects] is a hook or a stream that throws against its contract.
    [AtStream None] is the wait for a response from the moment it is asked for, with
    the hooks [transformContext] and [convertToLlm] that come before the stream: they
    only make the request from the context ([llmContext]), and nothing is announced
    until the stream answers.

    [validate] is [validateToolArguments] and [clock] the times of tool results. *)
From S2P Require Import Prelude JsValue SessionTypes.

(** ** Messages and tools *)

Record AgentToolResult := mkResult {
  res_content : option json; res_details : option json; res_usage : option json;
  res_addedToolNames : list string; res_terminate : option bool }.

Record ToolResult := mkToolResult {
  trm_toolCallId : string; trm_toolName : string; trm_content : json; trm_details : option json; trm_usage : option json;
  trm_addedToolNames : list string; trm_isError : bool; trm_timestamp : Z }.

(** Assistant messages, tool results, and all others. *)
Inductive Message :=
| MAssistant (message : AssistantMessage)
| MToolResult (message : ToolResult)
| MOther (message : AgentMessage).

Record AgentTool := mkTool {
  t_name : string; t_sequential : bool; t_prepareArguments : option (json → result string json) }.

Record AgentContext := mkContext { cx_systemPrompt : string; cx_messages : list Message; cx_tools : list AgentTool }.

Inductive AgentEvent :=
| agent_start
| agent_end (messages : list Message)
| turn_start
| turn_end (message : AssistantMessage) (toolResults : list ToolResult)
| message_start (message : Message)
| message_update (message : AssistantMessage)
| message_end (message : Message)
| tool_execution_start (call : AgentToolCall)
| tool_execution_update (call : AgentToolCall) (partialResult : AgentToolResult)
| tool_execution_end (call : AgentToolCall) (result_ : AgentToolResult) (isError : bool).

Record BeforeToolCallResult := mkBefore { bf_block : bool; bf_reason : option string; bf_terminate : option bool }.

Record AfterToolCallResult := mkAfter {
  af_content : option json; af_details : option json; af_isError : option bool; af_usage : option json;
  af_terminate : option bool }.

Record AgentLoopTurnUpdate := mkUpdate {
  up_context : option AgentContext; up_model : option json; up_thinkingLevel : option string }.

Record AgentLoopConfig := mkConfig {
  cf_model : json; cf_reasoning : option string; cf_sequential : bool; cf_beforeToolCall : bool; cf_afterToolCall : bool }.

(** ** Tool calls *)

Record PreparedToolCall := mkPrepared { pr_call : AgentToolCall; pr_args : json }.

Record Finalized := mkFinalized { fin_call : AgentToolCall; fin_result : AgentToolResult; fin_isError : bool }.

Definition createErrorToolResult (message : string) : AgentToolResult :=
  mkResult (Some (TArray [TMap [(js_lit "type", TText (js_lit "text")); (js_lit "text", TText (js_lit message))]]))
    (Some (TMap [])) None [] None.

Definition shouldTerminateToolBatch (finalizedCalls : list Finalized) : bool :=
  match finalizedCalls with
  | [] => false
  | _ => forallb (λ f, bool_decide (res_terminate (fin_result f) = Some true)) finalizedCalls
  end.

Definition prepareToolCallArguments (tool : AgentTool) (call : AgentToolCall) : result string AgentToolCall :=
  match t_prepareArguments tool with
  | None => Ok call
  | Some prepare => let* args := prepare (tc_arguments call) in Ok (mkToolCall (tc_id call) (tc_name call) args)
  end.

Definition find_tool (tools : list AgentTool) (name : string) : option AgentTool :=
  snd <$> list_find (λ t, t_name t = name) tools.

(** How far [prepareToolCall] comes at once. *)
Inductive Preparation :=
| Immediate (result_ : AgentToolResult)        (* always with [isError] *)
| AwaitBefore (prepared : PreparedToolCall)
| Prepared (prepared : PreparedToolCall).

Definition aborted_result : AgentToolResult := createErrorToolResult "Operation aborted".

(** The result of a tool, or of what it threw. *)
Definition executed_outcome (r : result string AgentToolResult) : AgentToolResult * bool :=
  match r with Ok a => (a, false) | Err e => (createErrorToolResult e, true) end.

Definition or_else {A} (a b : option A) : option A := match a with Some _ => a | None => b end.

(** [finalizeExecutedToolCall], from what [afterToolCall] answers. *)
Definition finalizeExecuted (prepared : PreparedToolCall) (executed : AgentToolResult * bool)
    (after : result string (option AfterToolCallResult)) : Finalized :=
  let '(result_, isError) := executed in
  match after with
  | Err e => mkFinalized (pr_call prepared) (createErrorToolResult e) true
  | Ok None => mkFinalized (pr_call prepared) result_ isError
  | Ok (Some a) =>
      mkFinalized (pr_call prepared)
        (mkResult (or_else (af_content a) (res_content result_)) (or_else (af_details a) (res_details result_))
           (or_else (af_usage a) (res_usage result_)) (res_addedToolNames result_)
           (or_else (af_terminate a) (res_terminate result_)))
        (default isError (af_isError a))
  end.

Definition createToolResultMessage (f : Finalized) (now : Z) : ToolResult :=
  mkToolResult (tc_id (fin_call f)) (tc_name (fin_call f)) (default (TArray []) (res_content (fin_result f)))
    (res_details (fin_result f)) (res_usage (fin_result f)) (res_addedToolNames (fin_result f)) (fin_isError f) now.

(** ** The state *)

(** A call of a parallel batch: decided at once, or a task that runs, awaits
    [afterToolCall], or is done. *)
Inductive Entry_ :=
| EDone (f : Finalized)
| EReady (prepared : PreparedToolCall)
| ERunning (prepared : PreparedToolCall)
| EFinalizing (prepared : PreparedToolCall) (executed : AgentToolResult * bool).

(** Where the current call of a sequential batch is. *)
Inductive SeqStage :=
| SStarted (call : AgentToolCall)
| SBefore (prepared : PreparedToolCall)
| SExecuting (prepared : PreparedToolCall)
| SAfter (prepared : PreparedToolCall) (executed : AgentToolResult * bool)
| SEnded.

(** Where the current call of a parallel batch's preflight is. *)
Inductive PreStage :=
| PStarted (call : AgentToolCall)
| PBefore (prepared : PreparedToolCall)
| PEnded.

Inductive Control :=
| AtSteeringFirst
| AtPrepare
| AtSteeringAgain
| AtStream (partialMessage : option AssistantMessage)
| AtSequential (message : AssistantMessage) (rest : list AgentToolCall) (finalizedCalls : list Finalized)
    (messages : list ToolResult) (stage : SeqStage)
| AtPreflight (message : AssistantMessage) (rest : list AgentToolCall) (entries : list Entry_) (stage : PreStage)
| AtParallel (message : AssistantMessage) (entries : list Entry_)
| AtShouldStop
| AtSteering
| AtFollowUp
| Returned
| Rejected.

(** What [streamAssistantResponse] is called for. *)
Record Request := mkRequest { rq_model : json; rq_reasoning : option string; rq_context : AgentContext }.

(** The [Context] of a request, of messages as the model takes them. *)
Record LlmContext := mkLlmContext { lc_systemPrompt : string; lc_messages : list json; lc_tools : list AgentTool }.

(** The context that [streamAssistantResponse] makes; the arguments are what the two
    hooks answer, which may differ from one request to the next. *)
Definition llmContext (transformContext : option (list Message → list Message)) (convertToLlm : list Message → list json)
    (context : AgentContext) : LlmContext :=
  let messages := cx_messages context in
  let messages := match transformContext with Some transform => transform messages | None => messages end in
  mkLlmContext (cx_systemPrompt context) (convertToLlm messages) (cx_tools context).

Record State := mkState {
  control : Control;
  st_context : AgentContext;
  st_config : AgentLoopConfig;
  newMessages : list Message;
  pendingMessages : list Message;
  hasMoreToolCalls : bool;
  completedTurn : bool;                       (* lastCompletedTurn is set *)
  signal_aborted : bool;
  events : list AgentEvent;
  requests : list Request;                     (* the responses asked for *)
  executions : list PreparedToolCall }.       (* the calls of [tool.execute] *)

Inductive Answer :=
| Abort
| Continue
| Rejects
| Messages (messages : list Message)            (* getSteeringMessages, getFollowUpMessages *)
| TurnUpdate (update : option AgentLoopTurnUpdate)
| StreamStart (partial : AssistantMessage)
| StreamDelta (partial : AssistantMessage)
| StreamEnd (final : AssistantMessage)
| Before (r : result string (option BeforeToolCallResult))
| Progress (i : nat) (partialResult : AgentToolResult)
| Executed (i : nat) (r : result string AgentToolResult)
| After (i : nat) (r : result string (option AfterToolCallResult))
| Stop (stop : bool).

Definition with_control (s : State) (c : Control) : State :=
  mkState c (st_context s) (st_config s) (newMessages s) (pendingMessages s) (hasMoreToolCalls s) (completedTurn s)
    (signal_aborted s) (events s) (requests s) (executions s).

Definition emit (s : State) (es : list AgentEvent) : State :=
  mkState (control s) (st_context s) (st_config s) (newMessages s) (pendingMessages s) (hasMoreToolCalls s) (completedTurn s)
    (signal_aborted s) (events s ++ es) (requests s) (executions s).

Definition set_messages (s : State) (ms : list Message) : State :=
  mkState (control s) (mkContext (cx_systemPrompt (st_context s)) ms (cx_tools (st_context s))) (st_config s) (newMessages s)
    (pendingMessages s) (hasMoreToolCalls s) (completedTurn s) (signal_aborted s) (events s) (requests s) (executions s).

Definition push_new (s : State) (ms : list Message) : State :=
  mkState (control s) (st_context s) (st_config s) (newMessages s ++ ms) (pendingMessages s) (hasMoreToolCalls s) (completedTurn s)
    (signal_aborted s) (events s) (requests s) (executions s).

Definition set_pending (s : State) (ms : list Message) (more : bool) : State :=
  mkState (control s) (st_context s) (st_config s) (newMessages s) ms more (completedTurn s)
    (signal_aborted s) (events s) (requests s) (executions s).

Definition execute_tools (s : State) (ps : list PreparedToolCall) : State :=
  mkState (control s) (st_context s) (st_config s) (newMessages s) (pendingMessages s) (hasMoreToolCalls s) (completedTurn s)
    (signal_aborted s) (events s) (requests s) (executions s ++ ps).

(** [context.messages[context.messages.length - 1] = m] *)
Definition replace_last (ms : list Message) (m : Message) : list Message := removelast ms ++ [m].

Definition announce (m : Message) : list AgentEvent := [message_start m; message_end m].

(** ** The loop *)

Section loop.
Context (validate : AgentTool → AgentToolCall → result string json) (clock : nat → Z).

(** The assistant's response is asked for, with everything pending put before it. *)
Definition inject (s : State) : State :=
  let ms := pendingMessages s in
  let s := emit s (ms ≫= announce) in
  let s := set_messages s (cx_messages (st_context s) ++ ms) in
  let s := push_new s ms in
  let s := set_pending s [] (hasMoreToolCalls s) in
  mkState (AtStream None) (st_context s) (st_config s) (newMessages s) (pendingMessages s) (hasMoreToolCalls s) (completedTurn s)
    (signal_aborted s) (events s)
    (requests s ++ [mkRequest (cf_model (st_config s)) (cf_reasoning (st_config s)) (st_context s)]) (executions s).

(** The condition of the inner loop, and the start of its body. *)
Definition loop_head (s : State) : State :=
  if hasMoreToolCalls s || negb (match pendingMessages s with [] => true | _ => false end) then
    if completedTurn s then with_control s AtPrepare else inject s
  else with_control s AtFollowUp.

Definition apply_update (s : State) (u : option AgentLoopTurnUpdate) : State :=
  match u with
  | None => s
  | Some u =>
      let config := st_config s in
      let reasoning :=
        match up_thinkingLevel u with
        | None => cf_reasoning config
        | Some level => if bool_decide (level = "off") then None else Some level
        end in
      mkState (control s) (default (st_context s) (up_context u))
        (mkConfig (default (cf_model config) (up_model u)) reasoning (cf_sequential config) (cf_beforeToolCall config)
           (cf_afterToolCall config))
        (newMessages s) (pendingMessages s) (hasMoreToolCalls s) (completedTurn s) (signal_aborted s) (events s) (requests s)
        (executions s)
  end.

Definition finish (s : State) : State := with_control (emit s [agent_end (newMessages s)]) Returned.

Definition finish_turn (s : State) (m : AssistantMessage) (results : list ToolResult) : State :=
  let s := emit s [turn_end m results] in
  mkState AtShouldStop (st_context s) (st_config s) (newMessages s) (pendingMessages s) (hasMoreToolCalls s) true
    (signal_aborted s) (events s) (requests s) (executions s).

Definition batch_done (s : State) (m : AssistantMessage) (results : list ToolResult) (terminate : bool) : State :=
  let s := set_pending s (pendingMessages s) (negb terminate) in
  let s := set_messages s (cx_messages (st_context s) ++ (MToolResult <$> results)) in
  finish_turn (push_new s (MToolResult <$> results)) m results.

(** *** Preparing a call *)

Definition prepare_begin (s : State) (call : AgentToolCall) : Preparation :=
  match find_tool (cx_tools (st_context s)) (tc_name call) with
  | None => Immediate (createErrorToolResult ("Tool " +:+ tc_name call +:+ " not found"))
  | Some tool =>
      match (let* call' := prepareToolCallArguments tool call in validate tool call') with
      | Err e => Immediate (createErrorToolResult e)
      | Ok args =>
          let prepared := mkPrepared call args in
          if cf_beforeToolCall (st_config s) then AwaitBefore prepared
          else if signal_aborted s then Immediate aborted_result else Prepared prepared
      end
  end.

(** After [beforeToolCall]. *)
Definition prepare_end (s : State) (prepared : PreparedToolCall) (r : result string (option BeforeToolCallResult)) : Preparation :=
  match r with
  | Err e => Immediate (createErrorToolResult e)
  | Ok before =>
      if signal_aborted s then Immediate aborted_result else
      match before with
      | Some b =>
          if bf_block b then
            let reason := match bf_reason b with Some (String c r) => String c r | _ => "Tool execution was blocked" end in
            let e := createErrorToolResult reason in
            Immediate (if bool_decide (bf_terminate b = Some true)
                       then mkResult (res_content e) (res_details e) (res_usage e) (res_addedToolNames e) (Some true) else e)
          else Prepared prepared
      | None => Prepared prepared
      end
  end.

(** *** One call after the other *)

(** A call's outcome and its message. *)
Definition seq_finalized (s : State) (m : AssistantMessage) (rest : list AgentToolCall) (fins : list Finalized) (msgs : list ToolResult)
    (f : Finalized) : State :=
  let s := emit s [tool_execution_end (fin_call f) (fin_result f) (fin_isError f)] in
  let msg := createToolResultMessage f (clock (length (events s))) in
  with_control (emit s (announce (MToolResult msg))) (AtSequential m rest (fins ++ [f]) (msgs ++ [msg]) SEnded).

Definition seq_prepared (s : State) (m : AssistantMessage) (call : AgentToolCall) (rest : list AgentToolCall) (fins : list Finalized)
    (msgs : list ToolResult) (p : Preparation) : State :=
  match p with
  | Immediate r => seq_finalized s m rest fins msgs (mkFinalized call r true)
  | AwaitBefore prepared => with_control s (AtSequential m rest fins msgs (SBefore prepared))
  | Prepared prepared => with_control (execute_tools s [prepared]) (AtSequential m rest fins msgs (SExecuting prepared))
  end.

(** The loop over the calls, from its head. *)
Definition seq_next (s : State) (m : AssistantMessage) (calls : list AgentToolCall) (fins : list Finalized) (msgs : list ToolResult) : State :=
  match calls with
  | [] => batch_done s m msgs (shouldTerminateToolBatch fins)
  | call :: rest => with_control (emit s [tool_execution_start call]) (AtSequential m rest fins msgs (SStarted call))
  end.

(** *** In parallel *)

(** Promise.all: the messages in the order of the calls. *)
Fixpoint result_messages (fins : list Finalized) (n : nat) : list ToolResult :=
  match fins with
  | [] => []
  | f :: fins => createToolResultMessage f (clock n) :: result_messages fins (n + 2)
  end.

Definition entry_result (e : Entry_) : option Finalized := match e with EDone f => Some f | _ => None end.

Definition par_check (s : State) (m : AssistantMessage) (entries : list Entry_) : State :=
  match mapM entry_result entries with
  | None => with_control s (AtParallel m entries)
  | Some fins =>
      let msgs := result_messages fins (length (events s)) in
      let s := emit s ((MToolResult <$> msgs) ≫= announce) in
      batch_done s m msgs (shouldTerminateToolBatch fins)
  end.

Definition ended_event (f : Finalized) : AgentEvent := tool_execution_end (fin_call f) (fin_result f) (fin_isError f).

(** The tasks start in order, each up to its first await. *)
Definition start_entry (aborted : bool) (e : Entry_) : Entry_ * list AgentEvent * list PreparedToolCall :=
  match e with
  | EReady p =>
      if aborted then
        let f := mkFinalized (pr_call p) aborted_result true in (EDone f, [ended_event f], [])
      else (ERunning p, [], [p])
  | _ => (e, [], [])
  end.

Definition par_start (s : State) (m : AssistantMessage) (entries : list Entry_) : State :=
  let started := start_entry (signal_aborted s) <$> entries in
  let s := emit s (started ≫= λ x, x.1.2) in
  let s := execute_tools s (started ≫= λ x, x.2) in
  par_check s m (started.*1.*1).

Definition preflight_prepared (s : State) (m : AssistantMessage) (call : AgentToolCall) (rest : list AgentToolCall)
    (entries : list Entry_) (p : Preparation) : State :=
  match p with
  | Immediate r =>
      let f := mkFinalized call r true in
      with_control (emit s [ended_event f]) (AtPreflight m rest (entries ++ [EDone f]) PEnded)
  | AwaitBefore prepared => with_control s (AtPreflight m rest entries (PBefore prepared))
  | Prepared prepared => with_control s (AtPreflight m rest (entries ++ [EReady prepared]) PEnded)
  end.

Definition preflight_next (s : State) (m : AssistantMessage) (calls : list AgentToolCall) (entries : list Entry_) : State :=
  match calls with
  | [] => par_start s m entries
  | call :: rest => with_control (emit s [tool_execution_start call]) (AtPreflight m rest entries (PStarted call))
  end.

Definition set_entry (s : State) (m : AssistantMessage) (entries : list Entry_) (i : nat) (e : Entry_) : State :=
  par_check s m (<[i := e]> entries).

(** A task's outcome is announced when it is there. *)
Definition par_finalized (s : State) (m : AssistantMessage) (entries : list Entry_) (i : nat) (f : Finalized) : State :=
  set_entry (emit s [ended_event f]) m entries i (EDone f).

(** *** The assistant's message *)

Definition toolCalls_of (m : AssistantMessage) : list AgentToolCall :=
  omap (λ c, match c with ContentToolCall call => Some call | _ => None end) (am_content m).

Definition quote_mark : string := String (Ascii.ascii_of_nat 34) EmptyString.

Definition truncated_result (call : AgentToolCall) : Finalized :=
  mkFinalized call
    (createErrorToolResult ("Tool call " +:+ quote_mark +:+ tc_name call +:+ quote_mark +:+ " was not executed: the response hit the output token limit, so its arguments may be truncated. Re-issue the tool call with complete arguments.")) true.

(** [failToolCallsFromTruncatedMessage] *)
Fixpoint fail_truncated (s : State) (calls : list AgentToolCall) (msgs : list ToolResult) : State * list ToolResult :=
  match calls with
  | [] => (s, msgs)
  | call :: calls =>
      let f := truncated_result call in
      let s := emit s [tool_execution_start call; ended_event f] in
      let msg := createToolResultMessage f (clock (length (events s))) in
      fail_truncated (emit s (announce (MToolResult msg))) calls (msgs ++ [msg])
  end.

Definition executeToolCalls (s : State) (m : AssistantMessage) (calls : list AgentToolCall) : State :=
  let hasSequentialToolCall :=
    existsb (λ call, match find_tool (cx_tools (st_context s)) (tc_name call) with Some t => t_sequential t | None => false end) calls in
  if cf_sequential (st_config s) || hasSequentialToolCall then seq_next s m calls [] [] else preflight_next s m calls [].

Definition stopped (m : AssistantMessage) : bool :=
  match am_stopReason m with error_ | aborted => true | _ => false end.

(** The response is complete. *)
Definition response_done (s : State) (m : AssistantMessage) : State :=
  let s := push_new s [MAssistant m] in
  if stopped m then finish (emit s [turn_end m []]) else
  let calls := toolCalls_of m in
  let s := set_pending s (pendingMessages s) false in
  match calls with
  | [] => finish_turn s m []
  | _ =>
      if bool_decide (am_stopReason m = length_) then
        let '(s, msgs) := fail_truncated s calls [] in batch_done s m msgs false
      else executeToolCalls s m calls
  end.

(** The end of the stream; [partial] is what was shown before. *)
Definition stream_end (s : State) (partial : option AssistantMessage) (final : AssistantMessage) : State :=
  let ms := cx_messages (st_context s) in
  match partial with
  | Some _ => response_done (emit (set_messages s (replace_last ms (MAssistant final))) [message_end (MAssistant final)]) final
  | None => response_done (emit (set_messages s (ms ++ [MAssistant final])) (announce (MAssistant final))) final
  end.

(** *** Steps *)

Definition set_aborted (s : State) : State :=
  mkState (control s) (st_context s) (st_config s) (newMessages s) (pendingMessages s) (hasMoreToolCalls s) (completedTurn s)
    true (events s) (requests s) (executions s).

Definition seq_step (s : State) (m : AssistantMessage) (rest : list AgentToolCall) (fins : list Finalized) (msgs : list ToolResult)
    (stage : SeqStage) (a : Answer) : option State :=
  match stage, a with
  | SStarted call, Continue => Some (seq_prepared s m call rest fins msgs (prepare_begin s call))
  | SBefore p, Before r => Some (seq_prepared s m (pr_call p) rest fins msgs (prepare_end s p r))
  | SExecuting p, Progress _ partial => Some (emit s [tool_execution_update (pr_call p) partial])
  | SExecuting p, Executed _ r =>
      if cf_afterToolCall (st_config s) then Some (with_control s (AtSequential m rest fins msgs (SAfter p (executed_outcome r))))
      else Some (seq_finalized s m rest fins msgs (finalizeExecuted p (executed_outcome r) (Ok None)))
  | SAfter p executed, After _ r => Some (seq_finalized s m rest fins msgs (finalizeExecuted p executed r))
  | SEnded, Continue =>
      if signal_aborted s then Some (batch_done s m msgs (shouldTerminateToolBatch fins)) else Some (seq_next s m rest fins msgs)
  | _, _ => None
  end.

Definition preflight_step (s : State) (m : AssistantMessage) (rest : list AgentToolCall) (entries : list Entry_)
    (stage : PreStage) (a : Answer) : option State :=
  match stage, a with
  | PStarted call, Continue => Some (preflight_prepared s m call rest entries (prepare_begin s call))
  | PBefore p, Before r => Some (preflight_prepared s m (pr_call p) rest entries (prepare_end s p r))
  | PEnded, Continue => if signal_aborted s then Some (par_start s m entries) else Some (preflight_next s m rest entries)
  | _, _ => None
  end.

Definition parallel_step (s : State) (m : AssistantMessage) (entries : list Entry_) (a : Answer) : option State :=
  match a with
  | Progress i partial =>
      match entries !! i with
      | Some (ERunning p) => Some (emit s [tool_execution_update (pr_call p) partial])
      | _ => None
      end
  | Executed i r =>
      match entries !! i with
      | Some (ERunning p) =>
          if cf_afterToolCall (st_config s) then Some (set_entry s m entries i (EFinalizing p (executed_outcome r)))
          else Some (par_finalized s m entries i (finalizeExecuted p (executed_outcome r) (Ok None)))
      | _ => None
      end
  | After i r =>
      match entries !! i with
      | Some (EFinalizing p executed) => Some (par_finalized s m entries i (finalizeExecuted p executed r))
      | _ => None
      end
  | _ => None
  end.

Definition step (s : State) (a : Answer) : option State :=
  match control s, a with
  | Returned, _ | Rejected, _ => None
  | _, Abort => Some (set_aborted s)
  | AtSequential m rest fins msgs stage, _ => seq_step s m rest fins msgs stage a
  | AtPreflight m rest entries stage, _ => preflight_step s m rest entries stage a
  | AtParallel m entries, _ => parallel_step s m entries a
  | _, Rejects => Some (with_control s Rejected)
  | AtSteeringFirst, Messages ms => Some (loop_head (set_pending s ms true))
  | AtPrepare, TurnUpdate u =>
      let s := apply_update s u in
      match pendingMessages s with
      | [] => Some (with_control s AtSteeringAgain)
      | _ => Some (inject (emit s [turn_start]))
      end
  | AtSteeringAgain, Messages ms => Some (inject (emit (set_pending s ms (hasMoreToolCalls s)) [turn_start]))
  | AtStream _, StreamStart p =>
      let s := set_messages s (cx_messages (st_context s) ++ [MAssistant p]) in
      Some (with_control (emit s [message_start (MAssistant p)]) (AtStream (Some p)))
  | AtStream (Some _), StreamDelta p =>
      let s := set_messages s (replace_last (cx_messages (st_context s)) (MAssistant p)) in
      Some (with_control (emit s [message_update p]) (AtStream (Some p)))
  | AtStream None, StreamDelta _ => Some s
  | AtStream partial, StreamEnd final => Some (stream_end s partial final)
  | AtShouldStop, Stop b => Some (if b : bool then finish s else with_control s AtSteering)
  | AtSteering, Messages ms => Some (loop_head (set_pending s ms (hasMoreToolCalls s)))
  | AtFollowUp, Messages [] => Some (finish s)
  | AtFollowUp, Messages ms => Some (loop_head (set_pending s ms true))
  | _, _ => None
  end.

(** ** Starting *)

(** [runAgentLoop] *)
Definition runAgentLoop (prompts : list Message) (context : AgentContext) (config : AgentLoopConfig) (aborted : bool) : State :=
  mkState AtSteeringFirst (mkContext (cx_systemPrompt context) (cx_messages context ++ prompts) (cx_tools context)) config prompts []
    true false aborted ([agent_start; turn_start] ++ (prompts ≫= announce)) [] [].

Inductive ContinueError := NoMessages | LastIsAssistant.

(** [runAgentLoopContinue] *)
Definition runAgentLoopContinue (context : AgentContext) (config : AgentLoopConfig) (aborted : bool) : result ContinueError State :=
  match last (cx_messages context) with
  | None => Err NoMessages
  | Some (MAssistant _) => Err LastIsAssistant
  | Some _ => Ok (mkState AtSteeringFirst context config [] [] true false aborted [agent_start; turn_start] [] [])
  end.

(** A run from [s0], with the answers so far; [contract] is what the other parties
    keep to. *)
Inductive runs (contract : State → Answer → Prop) (s0 : State) : list Answer → State → Prop :=
| runs_start : runs contract s0 [] s0
| runs_step h s a s' : runs contract s0 h s → contract s a → step s a = Some s' → runs contract s0 (h ++ [a]) s'.

Definition run_answers (s : State) (answers : list Answer) : option State :=
  foldl (λ s a, match s with Some s => step s a | None => None end) (Some s) answers.

End loop.
