(* ===== verification/AgentLoopSpec.v ===== *)
(** The agent loop, for every behaviour of the model, the tools and the hooks in which
    the stream of a response starts at most once: its events are well bracketed, it
    returns the messages it announced, every tool call gets one result in order, only
    approved calls run, and queued messages are delivered once. *)
From S2P Require Import Prelude JsValue SessionTypes AgentLoop.

(** ** Well-bracketed events *)

(** Where a listener is in the sequence: before the run, between turns, in a turn with
    some tool calls running and perhaps in a message, and after the end. *)
Inductive Check := CFresh | CBetween | CTurn (running : list string) (inMessage : bool) | COver.

Fixpoint remove_id (id : string) (ids : list string) : option (list string) :=
  match ids with
  | [] => None
  | x :: ids => if bool_decide (x = id) then Some ids else (x ::.) <$> remove_id id ids
  end.

Definition check (k : Check) (e : AgentEvent) : option Check :=
  match e, k with
  | agent_start, CFresh => Some CBetween
  | agent_end _, CBetween => Some COver
  | turn_start, CBetween => Some (CTurn [] false)
  | turn_end _ _, CTurn [] false => Some CBetween
  | message_start _, CTurn o false => Some (CTurn o true)
  | message_update _, CTurn o true => Some (CTurn o true)
  | message_end _, CTurn o true => Some (CTurn o false)
  | tool_execution_start c, CTurn o false => Some (CTurn (tc_id c :: o) false)
  | tool_execution_update c _, CTurn o false => if bool_decide (tc_id c ∈ o) then Some (CTurn o false) else None
  | tool_execution_end c _ _, CTurn o false => (λ o', CTurn o' false) <$> remove_id (tc_id c) o
  | _, _ => None
  end.

Definition check_all (k : option Check) (es : list AgentEvent) : option Check :=
  foldl (λ k e, match k with Some k => check k e | None => None end) k es.

Definition checked (es : list AgentEvent) (k : Check) : Prop := check_all (Some CFresh) es = Some k.

Lemma checked_app es es' k k' : checked es k → check_all (Some k) es' = Some k' → checked (es ++ es') k'.
Proof. unfold checked, check_all. intros H. rewrite foldl_app, H. done. Qed.

Lemma check_announces ms o : check_all (Some (CTurn o false)) (ms ≫= announce) = Some (CTurn o false).
Proof. induction ms as [|m ms IH]; [done|]. exact IH. Qed.

Lemma remove_id_perm id o ids : o ≡ₚ id :: ids → ∃ o', remove_id id o = Some o' ∧ o' ≡ₚ ids.
Proof.
  revert ids. induction o as [|x o IH]; intros ids H; [by apply Permutation_nil_cons in H|]. cbn.
  case_bool_decide as E; [subst; exists o; split; [done|]; by eapply Permutation_cons_inv|].
  assert (x ∈ ids) as Hx.
  { assert (x ∈ id :: ids) as Hx by (rewrite <- H; by left). apply elem_of_cons in Hx as [? |]; [congruence|done]. }
  apply list_elem_of_split in Hx as (l1 & l2 & ->). destruct (IH (l1 ++ l2)) as (o' & Ho & Hp).
  - apply (Permutation_cons_inv (a := x)). rewrite H. rewrite <- Permutation_middle. apply perm_swap.
  - rewrite Ho. exists (x :: o'). split; [done|]. by rewrite Hp, Permutation_middle.
Qed.

(** The messages announced as complete. *)
Definition ended (es : list AgentEvent) : list Message :=
  omap (λ e, match e with message_end m => Some m | _ => None end) es.

Lemma ended_announces ms : ended (ms ≫= announce) = ms.
Proof. unfold ended. induction ms as [|m ms IH]; [done|]. cbn. f_equal. exact IH. Qed.

(** ** Tool calls *)

(** The message's calls are run at all. *)
Definition runnable (m : AssistantMessage) : bool := negb (stopped m) && negb (bool_decide (am_stopReason m = length_)).

Definition calls_in (ms : list Message) : list AgentToolCall :=
  ms ≫= λ m, match m with MAssistant a => if runnable a then toolCalls_of a else [] | _ => [] end.

Definition entry_call (e : Entry_) : AgentToolCall :=
  match e with EDone f => fin_call f | EReady p | ERunning p | EFinalizing p _ => pr_call p end.

Definition entry_open (e : Entry_) : bool := match e with EDone _ => false | _ => true end.

(** The ids of the calls that are under way. *)
Definition open_ids (es : list Entry_) : list string := es ≫= λ e, if entry_open e then [tc_id (entry_call e)] else [].

#[export] Instance open_ids_perm : Proper ((≡ₚ) ==> (≡ₚ)) open_ids.
Proof. intros a b H. unfold open_ids. by apply bind_Permutation. Qed.

(** What a turn's results are to its calls. *)
Definition results_ok (aborted : bool) (m : AssistantMessage) (rs : list ToolResult) : Prop :=
  trm_toolCallId <$> rs `prefix_of` tc_id <$> toolCalls_of m ∧
  ((length rs < length (toolCalls_of m))%nat → aborted = true ∨ stopped m = true).

Lemma results_ok_abort m rs b : results_ok b m rs → results_ok true m rs.
Proof. intros [H1 H2]. split; [done|]. auto. Qed.

(** ** The invariant *)

Section invariant.
Context (validate : AgentTool → AgentToolCall → result string json) (clock : nat → Z)
  (policy : PreparedToolCall → Prop)      (* what [beforeToolCall] lets pass *)
  (known : AgentTool → Prop)              (* the tools of the contexts *)
  (hook : bool).                          (* whether there is a [beforeToolCall] *)

(** The call names a tool, which accepts its arguments. *)
Definition good (p : PreparedToolCall) : Prop :=
  ∃ tool, known tool ∧ t_name tool = tc_name (pr_call p) ∧
    (let* call := prepareToolCallArguments tool (pr_call p) in validate tool call) = Ok (pr_args p).

Definition approved (p : PreparedToolCall) : Prop := good p ∧ (hook = true → policy p).

Definition passes (r : result string (option BeforeToolCallResult)) : bool :=
  match r with Ok None => true | Ok (Some b) => negb (bf_block b) | Err _ => false end.

(** A stream starts once, the hook keeps to its policy, and no other tools come in. *)
Definition contract (s : State) (a : Answer) : Prop :=
  match control s, a with
  | AtStream (Some _), StreamStart _ => False
  | AtPrepare, TurnUpdate (Some u) => ∀ c, up_context u = Some c → Forall known (cx_tools c)
  | AtSequential _ _ _ _ (SBefore p), Before r | AtPreflight _ _ _ (PBefore p), Before r => passes r = true → policy p
  | _, _ => True
  end.

Record common (s : State) : Prop := {
  co_tools : Forall known (cx_tools (st_context s));
  co_hook : cf_beforeToolCall (st_config s) = hook;
  co_turns m rs : turn_end m rs ∈ events s → results_ok (signal_aborted s) m rs;
  co_exec : Forall approved (executions s);
}.

(** Between messages and batches. *)
Record quiet (s : State) (k : Check) : Prop := {
  q_checked : checked (events s) k;
  q_ended : ended (events s) = newMessages s;
  q_exec : pr_call <$> executions s `sublist_of` calls_in (newMessages s);
}.

(** In the batch of [m]: the calls with the ids [open] are under way, the results
    [inflight] have been announced, and only calls of [scope] have run. *)
Record batch (s : State) (m : AssistantMessage) (open_ : list string) (inflight : list ToolResult) (scope : list AgentToolCall) : Prop := {
  b_checked : ∃ o, checked (events s) (CTurn o false) ∧ o ≡ₚ open_;
  b_ended : ended (events s) = newMessages s ++ (MToolResult <$> inflight);
  b_exec : ∃ old, newMessages s = old ++ [MAssistant m] ∧ pr_call <$> executions s `sublist_of` calls_in old ++ scope;
  b_runnable : stopped m = false;
  b_length : scope = [] ∨ runnable m = true;
  b_pending : pendingMessages s = [];
}.

(** The call a sequential batch is at. *)
Definition stage_call (stage : SeqStage) : list AgentToolCall :=
  match stage with SStarted call => [call] | SBefore p | SExecuting p | SAfter p _ => [pr_call p] | SEnded => [] end.

(** The call a preflight is at. *)
Definition pre_call (stage : PreStage) : list AgentToolCall :=
  match stage with PStarted call => [call] | PBefore p => [pr_call p] | PEnded => [] end.

(** Of these only the calls that began to run. *)
Definition stage_run (stage : SeqStage) : list AgentToolCall :=
  match stage with SExecuting p | SAfter p _ => [pr_call p] | _ => [] end.

Definition at_control (s : State) : Prop :=
  match control s with
  | AtSteeringFirst => quiet s (CTurn [] false) ∧ completedTurn s = false ∧ hasMoreToolCalls s = true ∧ pendingMessages s = []
  | AtPrepare => quiet s CBetween
  | AtSteeringAgain => quiet s CBetween ∧ pendingMessages s = []
  | AtShouldStop | AtSteering | AtFollowUp => quiet s CBetween ∧ completedTurn s = true ∧ pendingMessages s = []
  | AtStream p => quiet s (CTurn [] (bool_decide (is_Some p))) ∧ pendingMessages s = []
  | AtSequential m rest fins msgs stage =>
      batch s m (tc_id <$> stage_call stage) msgs ((fin_call <$> fins) ++ stage_run stage) ∧ runnable m = true ∧
      toolCalls_of m = (fin_call <$> fins) ++ stage_call stage ++ rest ∧
      trm_toolCallId <$> msgs = tc_id ∘ fin_call <$> fins ∧
      match stage with SBefore p => good p ∧ hook = true | _ => True end
  | AtPreflight m rest entries stage =>
      batch s m (open_ids entries ++ (tc_id <$> pre_call stage)) [] [] ∧ runnable m = true ∧
      toolCalls_of m = (entry_call <$> entries) ++ pre_call stage ++ rest ∧
      Forall (λ e, match e with EReady p => approved p | EDone _ => True | _ => False end) entries ∧
      match stage with PBefore p => good p ∧ hook = true | _ => True end
  | AtParallel m entries =>
      batch s m (open_ids entries) [] (entry_call <$> entries) ∧
      (entry_call <$> entries `prefix_of` toolCalls_of m) ∧
      (length entries = length (toolCalls_of m) ∨ signal_aborted s = true) ∧
      Forall (λ e, match e with EReady _ => False | _ => True end) entries
  | Returned =>
      ∃ es, events s = es ++ [agent_end (newMessages s)] ∧ checked es CBetween ∧ ended es = newMessages s ∧
        pr_call <$> executions s `sublist_of` calls_in (newMessages s) ∧ pendingMessages s = []
  | Rejected => ∃ k, quiet s k
  end.

Definition inv (s : State) : Prop := common s ∧ at_control s.

(** *** Parts of the state that do not matter *)

Lemma common_same s s' :
  common s → Forall known (cx_tools (st_context s')) → cf_beforeToolCall (st_config s') = cf_beforeToolCall (st_config s) →
  (signal_aborted s = true → signal_aborted s' = true) → executions s' = executions s →
  (∀ m rs, turn_end m rs ∈ events s' → turn_end m rs ∈ events s ∨ results_ok (signal_aborted s') m rs) → common s'.
Proof.
  intros [H1 H2 H3 H4] Ht Hh Ha He Hev. split; [done|congruence| |by rewrite He].
  intros m rs Hin. destruct (Hev m rs Hin) as [Hin'|Hok]; [|done]. specialize (H3 m rs Hin').
  destruct (signal_aborted s) eqn:E; [rewrite (Ha eq_refl); done|]. destruct (signal_aborted s'); [by eapply results_ok_abort|done].
Qed.

(** Events that end no turn. *)
Definition no_turn_end (es : list AgentEvent) : Prop := existsb (λ e, match e with turn_end _ _ => true | _ => false end) es = false.

Lemma no_turn_end_elem es m rs : no_turn_end es → turn_end m rs ∉ es.
Proof.
  unfold no_turn_end. induction es as [|e es IH]; cbn; intros H; [apply not_elem_of_nil|]. apply orb_false_iff in H as [He H].
  rewrite not_elem_of_cons. split; [by intros <-|by apply IH].
Qed.

Lemma no_turn_end_announces ms : no_turn_end (ms ≫= announce).
Proof. unfold no_turn_end. induction ms as [|x ms IH]; [done|]. exact IH. Qed.

Lemma common_emit s es c : common s → no_turn_end es → common (with_control (emit s es) c).
Proof.
  intros H Hes. eapply common_same; try done; [apply H|]. intros m rs. cbn. rewrite elem_of_app. intros [?|Hin]; [by left|].
  by eapply no_turn_end_elem in Hin.
Qed.

Lemma runnable_sublist old m (scope : list AgentToolCall) (l : list AgentToolCall) :
  l `sublist_of` calls_in old ++ scope → scope `sublist_of` (if runnable m then toolCalls_of m else []) →
  l `sublist_of` calls_in (old ++ [MAssistant m]).
Proof.
  intros H Hs. unfold calls_in in *. rewrite bind_app. cbn. rewrite app_nil_r. etrans; [done|]. by apply sublist_app.
Qed.

(** *** Turns *)

Lemma batch_done_ok s m msgs scope t :
  common s → batch s m [] msgs scope → scope `sublist_of` toolCalls_of m → results_ok (signal_aborted s) m msgs →
  inv (batch_done s m msgs t).
Proof.
  intros Hc [(o & Hk & Ho) He (old & Hnew & Hx) Hst Hlen Hp] Hscope Hr. apply Permutation_nil_r in Ho as ->.
  split.
  - eapply common_same; [exact Hc|apply Hc|done|done|done|]. cbn. intros m' rs'. rewrite elem_of_app, list_elem_of_singleton.
    intros [?|[= -> ->]]; [by left|by right].
  - unfold at_control. cbn. split; [|done]. split; cbn.
    + by eapply checked_app.
    + unfold ended. rewrite omap_app. cbn. rewrite app_nil_r. exact He.
    + rewrite Hnew. unfold calls_in. rewrite bind_app.
      assert (∀ rs : list ToolResult, (MToolResult <$> rs) ≫= (λ m0, match m0 with MAssistant a => if runnable a then toolCalls_of a else [] | _ => [] end) = []) as Hnil.
      { intros rs. induction rs; [done|]. cbn. done. }
      rewrite Hnil, app_nil_r. eapply runnable_sublist; [done|].
      destruct Hlen as [-> | ->]; [apply sublist_nil_l|done].
Qed.

Lemma batch_emit s c m o infl scope es o' infl' :
  batch s m o infl scope →
  (∀ x, x ≡ₚ o → ∃ x', check_all (Some (CTurn x false)) es = Some (CTurn x' false) ∧ x' ≡ₚ o') →
  (MToolResult <$> infl) ++ ended es = MToolResult <$> infl' → batch (with_control (emit s es) c) m o' infl' scope.
Proof.
  intros [(x & Hk & Ho) He Hx Hst Hlen Hp] Hes Hend. destruct (Hes x Ho) as (x' & Hx' & Ho'). split; cbn; try done.
  - exists x'. split; [|done]. by eapply checked_app.
  - unfold ended in *. rewrite omap_app, He, <- app_assoc. f_equal. exact Hend.
Qed.

(** A batch whose scope grows by calls that have not run. *)
Lemma batch_scope s m o infl scope scope' :
  batch s m o infl scope → scope `sublist_of` scope' → runnable m = true → batch s m o infl scope'.
Proof.
  intros [Hk He (old & Hn & Hx) Hst Hlen Hp] Hs Hr. split; try done; [|by right]. exists old. split; [done|].
  etrans; [done|]. by apply sublist_app.
Qed.

Lemma check_tool_end x id o c r e :
  tc_id c = id → x ≡ₚ id :: o → ∃ x', check_all (Some (CTurn x false)) [tool_execution_end c r e] = Some (CTurn x' false) ∧ x' ≡ₚ o.
Proof.
  intros <- Hx. destruct (remove_id_perm _ _ _ Hx) as (x' & Hr & Hp). exists x'. split; [|done]. cbn. by rewrite Hr.
Qed.

Lemma check_all_app k es es' : check_all k (es ++ es') = check_all (check_all k es) es'.
Proof. apply foldl_app. Qed.

(** *** Sequential batches *)

Lemma seq_finalized_ok s m rest fins msgs f scope :
  common s → batch s m [tc_id (fin_call f)] msgs scope → scope `sublist_of` (fin_call <$> fins) ++ [fin_call f] → runnable m = true →
  toolCalls_of m = (fin_call <$> fins) ++ fin_call f :: rest → trm_toolCallId <$> msgs = tc_id ∘ fin_call <$> fins →
  inv (seq_finalized clock s m rest fins msgs f).
Proof.
  intros Hc Hb Hscope Hr Hcalls Hids. unfold seq_finalized. set (msg := createToolResultMessage _ _).
  assert (emit (emit s [tool_execution_end (fin_call f) (fin_result f) (fin_isError f)]) (announce (MToolResult msg)) =
    emit s ([tool_execution_end (fin_call f) (fin_result f) (fin_isError f)] ++ announce (MToolResult msg))) as ->
    by (unfold emit; cbn; by rewrite <- app_assoc).
  split.
  - by apply common_emit.
  - unfold at_control. cbn [control with_control stage_call stage_run]. rewrite app_nil_r. split_and!; [|done|..].
    + eapply batch_emit.
      * eapply batch_scope; [exact Hb|..]; [|done]. rewrite fmap_app. exact Hscope.
      * intros x Hx. destruct (check_tool_end x _ [] (fin_call f) (fin_result f) (fin_isError f) eq_refl Hx) as (x' & Hx' & Hp).
        exists x'. split; [|done]. rewrite check_all_app, Hx'. done.
      * cbn. by rewrite fmap_app.
    + by rewrite fmap_app, Hcalls, <- app_assoc.
    + rewrite !fmap_app, Hids. done.
    + done.
Qed.

Definition prep_ok (call : AgentToolCall) (p : Preparation) : Prop :=
  match p with
  | Immediate _ => True
  | AwaitBefore q => pr_call q = call ∧ good q ∧ hook = true
  | Prepared q => pr_call q = call ∧ approved q
  end.

Lemma find_tool_Some tools name tool : find_tool tools name = Some tool → tool ∈ tools ∧ t_name tool = name.
Proof.
  unfold find_tool. intros H. apply fmap_Some in H as ([i t] & H & ->). apply list_find_Some in H as (H1 & H2 & _).
  split; [by eapply list_elem_of_lookup_2|done].
Qed.

Lemma prepare_begin_ok s call : common s → prep_ok call (prepare_begin validate s call).
Proof.
  intros Hc. unfold prepare_begin. destruct (find_tool _ _) as [tool|] eqn:Ef; [|done].
  destruct (rbind _ _) as [args|] eqn:Ev; [|done].
  assert (good (mkPrepared call args)) as Hg.
  { apply find_tool_Some in Ef as [Hin Hn]. exists tool. split_and!; [|done|done]. pose proof (co_tools _ Hc) as Ht.
    rewrite Forall_forall in Ht. auto. }
  rewrite (co_hook _ Hc). destruct hook eqn:Eh; [done|]. destruct (signal_aborted s); [done|]. split; [done|]. split; [done|].
  congruence.
Qed.

Lemma prepare_end_ok s p r : good p → (passes r = true → policy p) → prep_ok (pr_call p) (prepare_end s p r).
Proof.
  intros Hg Hr. unfold prepare_end. destruct r as [before|]; [|done]. destruct (signal_aborted s); [done|].
  destruct before as [b|]; [|by split; [|split; auto]]. cbn in Hr. destruct (bf_block b); [done|]. split; [done|]. split; auto.
Qed.

Lemma seq_prepared_ok s m call rest fins msgs p :
  common s → batch s m [tc_id call] msgs (fin_call <$> fins) → runnable m = true →
  toolCalls_of m = (fin_call <$> fins) ++ call :: rest → trm_toolCallId <$> msgs = tc_id ∘ fin_call <$> fins →
  prep_ok call p → inv (seq_prepared clock s m call rest fins msgs p).
Proof.
  intros Hc Hb Hr Hcalls Hids Hp. destruct p as [r|q|q]; cbn [seq_prepared].
  - eapply seq_finalized_ok; try done. cbn. by apply sublist_inserts_r.
  - destruct Hp as (<- & Hg & Hh). split; [by destruct Hc; split|]. unfold at_control. cbn. rewrite app_nil_r.
    split_and!; try done. by destruct Hb; split.
  - destruct Hp as (<- & Ha). split.
    + destruct Hc as [H1 H2 H3 H4]. split; [done..|]. cbn. apply Forall_app; split; [done|by constructor].
    + unfold at_control. cbn. split_and!; try done. destruct Hb as [Hk He (old & Hn & Hx) Hst Hlen Hpd]. split; try done; [|by right].
      exists old. split; [done|]. cbn. rewrite fmap_app, app_assoc. by apply sublist_app.
Qed.

Lemma seq_next_ok s m calls fins msgs :
  common s → batch s m [] msgs (fin_call <$> fins) → runnable m = true →
  toolCalls_of m = (fin_call <$> fins) ++ calls → trm_toolCallId <$> msgs = tc_id ∘ fin_call <$> fins →
  inv (seq_next s m calls fins msgs).
Proof.
  intros Hc Hb Hr Hcalls Hids. destruct calls as [|call rest]; cbn [seq_next].
  - rewrite app_nil_r in Hcalls. eapply batch_done_ok; [done|done|by rewrite Hcalls|]. split.
    + rewrite Hids, Hcalls, list_fmap_compose. done.
    + intros Hlt. apply (f_equal length) in Hids. rewrite !length_fmap in Hids. rewrite Hcalls, length_fmap in Hlt. lia.
  - split; [by apply common_emit|]. unfold at_control. cbn. rewrite app_nil_r. split_and!; try done.
    eapply batch_emit; [exact Hb| |by cbn; rewrite app_nil_r]. intros x Hx. exists (tc_id call :: x). split; [done|]. by rewrite Hx.
Qed.

(** *** Parallel batches *)

Lemma emit_control s es : with_control (emit s es) (control s) = emit s es.
Proof. by destruct s. Qed.

Lemma common_emit' s es : common s → no_turn_end es → common (emit s es).
Proof. intros Hc Hes. rewrite <- emit_control. by apply common_emit. Qed.

Lemma batch_emit' s m o infl scope es o' infl' :
  batch s m o infl scope →
  (∀ x, x ≡ₚ o → ∃ x', check_all (Some (CTurn x false)) es = Some (CTurn x' false) ∧ x' ≡ₚ o') →
  (MToolResult <$> infl) ++ ended es = MToolResult <$> infl' → batch (emit s es) m o' infl' scope.
Proof. intros. rewrite <- emit_control. by eapply batch_emit. Qed.

Lemma mapM_results entries fins :
  mapM entry_result entries = Some fins → open_ids entries = [] ∧ entry_call <$> entries = fin_call <$> fins.
Proof.
  revert fins. induction entries as [|e entries IH]; intros fins H; cbn in H; [by injection H as <-|].
  destruct e as [f|p|p|p x]; try done. cbn in H. destruct (mapM entry_result entries) as [fs|]; [|done]. injection H as <-.
  destruct (IH fs eq_refl) as [H1 H2]. split; [exact H1|]. cbn. by rewrite <- H2.
Qed.

Lemma result_messages_ids fins n : trm_toolCallId <$> result_messages clock fins n = tc_id ∘ fin_call <$> fins.
Proof. revert n. induction fins as [|f fins IH]; intros n; [done|]. cbn. f_equal. apply IH. Qed.

Lemma par_check_ok s m entries :
  common s → batch s m (open_ids entries) [] (entry_call <$> entries) → entry_call <$> entries `prefix_of` toolCalls_of m →
  (length entries = length (toolCalls_of m) ∨ signal_aborted s = true) →
  Forall (λ e, match e with EReady _ => False | _ => True end) entries → inv (par_check clock s m entries).
Proof.
  intros Hc Hb Hpre Hlen Hno. unfold par_check. destruct (mapM entry_result entries) as [fins|] eqn:E.
  - apply mapM_results in E as [Hopen Hcalls]. rewrite Hopen in Hb. set (msgs := result_messages _ _ _).
    eapply batch_done_ok; [apply common_emit'; [done|apply no_turn_end_announces]| | |].
    + eapply batch_emit'; [exact Hb| |cbn; by rewrite ended_announces]. intros x ->%Permutation_nil_r. exists []. by rewrite check_announces.
    + destruct Hpre as [k ->]. by apply sublist_inserts_r.
    + split.
      * unfold msgs. rewrite result_messages_ids, list_fmap_compose, <- Hcalls. destruct Hpre as [k ->]. rewrite fmap_app. by exists (tc_id <$> k).
      * intros Hlt. left. destruct Hlen as [Hlen|]; [|done]. exfalso.
        assert (length msgs = length entries) as Hm; [|lia].
        pose proof (result_messages_ids fins (length (events s))) as H. apply (f_equal length) in H. rewrite !length_fmap in H.
        apply (f_equal length) in Hcalls. rewrite !length_fmap in Hcalls. unfold msgs. lia.
  - split; [by destruct Hc; split|]. unfold at_control. cbn. split_and!; try done. by destruct Hb; split.
Qed.

Lemma open_ids_app a b : open_ids (a ++ b) = open_ids a ++ open_ids b.
Proof. apply bind_app. Qed.

(** Starting the tasks: aborted ones end, the others run. *)
Lemma start_entries_ok (aborted : bool) entries :
  let started := start_entry aborted <$> entries in
  Forall (λ e, match e with EReady p => approved p | EDone _ => True | _ => False end) entries →
  (entry_call <$> started.*1.*1) = (entry_call <$> entries) ∧
  Forall (λ e, match e with EReady _ => False | _ => True end) started.*1.*1 ∧
  Forall approved (started ≫= λ x, x.2) ∧ (pr_call <$> (started ≫= λ x, x.2)) `sublist_of` (entry_call <$> entries) ∧
  no_turn_end (started ≫= λ x, x.1.2) ∧ ended (started ≫= λ x, x.1.2) = [] ∧
  ∀ x more, x ≡ₚ open_ids entries ++ more → ∃ x', check_all (Some (CTurn x false)) (started ≫= λ x, x.1.2) = Some (CTurn x' false) ∧
    x' ≡ₚ open_ids started.*1.*1 ++ more.
Proof.
  cbn zeta. induction entries as [|e entries IH]; intros H.
  { split_and!; try done. intros x more Hx. exists x. done. }
  apply Forall_cons in H as [He H]. destruct (IH H) as (H1 & H2 & H3 & H4 & H5 & H6 & H7). destruct e as [f|p|p|p y]; try done.
  - cbn. split_and!; try done; [by f_equal|by constructor|by apply sublist_cons].
  - destruct aborted; cbn.
    + split_and!; try done; [by f_equal|by constructor|by apply sublist_cons|].
      intros x more Hx. destruct (remove_id_perm _ _ _ Hx) as (x1 & Hr & Hp). rewrite Hr. cbn. by apply H7.
    + split_and!; try done; [by f_equal|by constructor|by constructor|by apply sublist_skip|].
      intros x more Hx. destruct (H7 x (tc_id (pr_call p) :: more)) as (x' & Hx' & Hp).
      { rewrite Hx. cbn. by rewrite <- Permutation_middle. }
      exists x'. split; [done|]. rewrite Hp. cbn. by rewrite <- Permutation_middle.
Qed.

Lemma par_start_ok s m rest entries :
  common s → batch s m (open_ids entries) [] [] → runnable m = true → toolCalls_of m = (entry_call <$> entries) ++ rest →
  (rest = [] ∨ signal_aborted s = true) →
  Forall (λ e, match e with EReady p => approved p | EDone _ => True | _ => False end) entries → inv (par_start clock s m entries).
Proof.
  intros Hc Hb Hr Hcalls Hrest Hall. unfold par_start.
  destruct (start_entries_ok (signal_aborted s) entries Hall) as (H1 & H2 & H3 & H4 & H5 & H6 & H7).
  set (started := start_entry (signal_aborted s) <$> entries) in *.
  assert (common (execute_tools (emit s (started ≫= λ x, x.1.2)) (started ≫= λ x, x.2))) as Hc'.
  { destruct (common_emit' s _ Hc H5) as [A1 A2 A3 A4]. split; [done..|]. cbn. apply Forall_app; split; [exact A4|done]. }
  apply par_check_ok; [done| |by rewrite H1, Hcalls; apply prefix_app_r| |done].
  - assert (batch (emit s (started ≫= λ x, x.1.2)) m (open_ids started.*1.*1) [] []) as [Hk He (old & Hn & Hx) Hst Hlen Hp].
    { eapply batch_emit'; [exact Hb| |by rewrite H6]. intros x Hx. destruct (H7 x []) as (x' & Hx' & Hp); [by rewrite app_nil_r|].
      exists x'. split; [done|]. by rewrite app_nil_r in Hp. }
    split; try done; [|by right]. exists old. split; [done|]. cbn. rewrite fmap_app, H1. rewrite app_nil_r in Hx.
    by apply sublist_app.
  - cbn. destruct Hrest as [-> |]; [|by right]. left. rewrite Hcalls, app_nil_r, <- H1. by rewrite !length_fmap.
Qed.

Lemma preflight_prepared_ok s m call rest entries p :
  common s → batch s m (tc_id call :: open_ids entries) [] [] → runnable m = true →
  toolCalls_of m = (entry_call <$> entries) ++ call :: rest →
  Forall (λ e, match e with EReady p => approved p | EDone _ => True | _ => False end) entries →
  prep_ok call p → inv (preflight_prepared s m call rest entries p).
Proof.
  intros Hc Hb Hr Hcalls Hall Hp. destruct p as [r|q|q]; cbn [preflight_prepared].
  - split; [by apply common_emit|]. unfold at_control. cbn. rewrite open_ids_app, fmap_app, !app_nil_r. split_and!; try done.
    + eapply batch_emit; [exact Hb| |done]. intros x Hx. by apply (check_tool_end x (tc_id call)).
    + by rewrite Hcalls, <- app_assoc.
    + apply Forall_app; split; [done|by constructor].
  - destruct Hp as (<- & Hg & Hh). split; [by destruct Hc; split|]. unfold at_control. cbn. split_and!; try done.
    destruct Hb as [(o & Hk & Ho) He Hx Hst Hlen Hpd]. split; try done. exists o. split; [done|]. rewrite Ho. by rewrite Permutation_cons_append.
  - destruct Hp as (<- & Ha). split; [by destruct Hc; split|]. unfold at_control. cbn. rewrite open_ids_app, fmap_app, !app_nil_r.
    split_and!; try done.
    + destruct Hb as [(o & Hk & Ho) He Hx Hst Hlen Hpd]. split; try done. exists o. split; [done|]. rewrite Ho. by rewrite Permutation_cons_append.
    + by rewrite Hcalls, <- app_assoc.
    + apply Forall_app; split; [done|by constructor].
Qed.

Lemma preflight_next_ok s m calls entries :
  common s → batch s m (open_ids entries) [] [] → runnable m = true → toolCalls_of m = (entry_call <$> entries) ++ calls →
  Forall (λ e, match e with EReady p => approved p | EDone _ => True | _ => False end) entries →
  inv (preflight_next clock s m calls entries).
Proof.
  intros Hc Hb Hr Hcalls Hall. destruct calls as [|call rest]; cbn [preflight_next]; [by eapply par_start_ok; eauto|].
  split; [by apply common_emit|]. unfold at_control. cbn. split_and!; try done.
  eapply batch_emit; [exact Hb| |done]. intros x Hx. exists (tc_id call :: x). split; [done|]. by rewrite Hx, Permutation_cons_append.
Qed.

(** A task of the batch moves on. *)
Lemma set_entry_ok s m entries i e e' es :
  common s → batch s m (open_ids entries) [] (entry_call <$> entries) → entry_call <$> entries `prefix_of` toolCalls_of m →
  (length entries = length (toolCalls_of m) ∨ signal_aborted s = true) →
  Forall (λ e, match e with EReady _ => False | _ => True end) entries →
  entries !! i = Some e → entry_open e = true → entry_call e' = entry_call e → (match e' with EReady _ => False | _ => True end) →
  (if entry_open e' then es = [] else ∃ f, es = [ended_event f] ∧ fin_call f = entry_call e) →
  inv (set_entry clock (emit s es) m entries i e').
Proof.
  intros Hc Hb Hpre Hlen Hno Hi Ho Hcall Hready Hes. unfold set_entry.
  assert (entry_call <$> <[i:=e']> entries = entry_call <$> entries) as Hcalls.
  { rewrite list_fmap_insert, Hcall. apply list_insert_id. by rewrite list_lookup_fmap, Hi. }
  assert (open_ids entries ≡ₚ tc_id (entry_call e) :: open_ids (delete i entries)) as Hopen.
  { rewrite (delete_Permutation entries i e Hi) at 1. cbn. by rewrite Ho. }
  assert (open_ids (<[i:=e']> entries) ≡ₚ (if entry_open e' then [tc_id (entry_call e)] else []) ++ open_ids (delete i entries)) as Hopen'.
  { rewrite (delete_Permutation (<[i:=e']> entries) i e') at 1 by (apply list_lookup_insert_eq; by eapply lookup_lt_Some).
    cbn. rewrite Hcall. f_equiv. rewrite !delete_take_drop, take_insert_ge, drop_insert_lt by lia. done. }
  assert (no_turn_end es ∧ ended es = [] ∧ ∀ x, x ≡ₚ open_ids entries →
    ∃ x', check_all (Some (CTurn x false)) es = Some (CTurn x' false) ∧ x' ≡ₚ open_ids (<[i:=e']> entries)) as (He1 & He2 & He3).
  { revert Hes Hopen'. destruct (entry_open e').
    - intros -> Hopen'. split_and!; [done|done|]. intros x Hx. exists x. split; [done|]. by rewrite Hx, Hopen, Hopen'.
    - intros (f & -> & Hf) Hopen'. split_and!; [done|done|]. intros x Hx. rewrite Hopen in Hx. setoid_rewrite Hopen'.
      apply (check_tool_end x (tc_id (entry_call e))); [|done]. by rewrite <- Hf. }
  apply par_check_ok.
  - by apply common_emit'.
  - rewrite Hcalls. eapply batch_emit'; [exact Hb|done|by rewrite He2].
  - by rewrite Hcalls.
  - by rewrite length_insert.
  - by apply Forall_insert.
Qed.

(** *** The response and the next turn *)

(** The failed calls of a cut response, one by one. *)
Lemma fail_truncated_ok s m calls msgs s' msgs' :
  common s → batch s m [] msgs [] → fail_truncated clock s calls msgs = (s', msgs') →
  common s' ∧ batch s' m [] msgs' [] ∧ signal_aborted s' = signal_aborted s ∧
  trm_toolCallId <$> msgs' = (trm_toolCallId <$> msgs) ++ (tc_id <$> calls).
Proof.
  revert s msgs. induction calls as [|call calls IH]; intros s msgs Hc Hb H; cbn [fail_truncated] in H.
  { injection H as <- <-. by rewrite app_nil_r. }
  set (msg := createToolResultMessage _ _) in H. apply IH in H as (H1 & H2 & H3 & H4).
  - split_and!; [done|done|by rewrite H3|]. rewrite H4, fmap_app, <- app_assoc. done.
  - apply common_emit'; [by apply common_emit'|done].
  - assert (batch (emit s [tool_execution_start call; ended_event (truncated_result call)]) m [] msgs []) as Hb1.
    { eapply batch_emit'; [exact Hb| |by rewrite app_nil_r]. intros x ->%Permutation_nil_r. exists []. cbn.
      by rewrite bool_decide_true. }
    eapply batch_emit'; [exact Hb1| |by rewrite fmap_app]. intros x Hx. exists x. done.
Qed.

Lemma finish_ok s : common s → quiet s CBetween → pendingMessages s = [] → inv (finish s).
Proof.
  intros Hc [H1 H2 H3] Hp. split; [by apply common_emit|]. unfold at_control. cbn. by exists (events s).
Qed.

(** A response just announced; its message is not yet among the new ones. *)
Lemma response_done_ok s m :
  common s → checked (events s) (CTurn [] false) → ended (events s) = newMessages s ++ [MAssistant m] →
  pr_call <$> executions s `sublist_of` calls_in (newMessages s) → pendingMessages s = [] → inv (response_done clock s m).
Proof.
  intros Hc Hk He Hx Hp. unfold response_done.
  assert (pr_call <$> executions s `sublist_of` calls_in (newMessages s ++ [MAssistant m])) as Hx'.
  { unfold calls_in in *. rewrite bind_app. by apply sublist_inserts_r. }
  destruct (stopped m) eqn:Est.
  - apply finish_ok; [|split|done]; cbn; [|by eapply checked_app|unfold ended in *; rewrite omap_app, He; by rewrite app_nil_r|done].
    eapply common_same; [exact Hc|apply Hc|done|done|done|]. cbn. intros m' rs'. rewrite elem_of_app, list_elem_of_singleton.
    intros [?|[= -> ->]]; [by left|right]. split; [by apply prefix_nil|by right].
  - set (s1 := set_pending _ _ _).
    assert (common s1) as Hc1 by (destruct Hc; split; done).
    destruct (toolCalls_of m) as [|call calls] eqn:Ecalls.
    + split.
      * eapply common_same; [exact Hc1|apply Hc1|done|done|done|]. cbn. intros m' rs'. rewrite elem_of_app, list_elem_of_singleton.
        intros [?|[= -> ->]]; [by left|right]. split; [by apply prefix_nil|]. rewrite Ecalls. cbn. lia.
      * unfold at_control. cbn. split; [|done]. split; cbn; [by eapply checked_app|unfold ended in *; rewrite omap_app, He; by rewrite app_nil_r|done].
    + assert (∀ scope, scope = [] ∨ runnable m = true → batch s1 m [] [] scope) as Hb.
      { intros scope Hs. split; try done; [by exists []|by rewrite app_nil_r|]. exists (newMessages s). split; [done|]. by apply sublist_inserts_r. }
      case_bool_decide as El.
      * destruct (fail_truncated clock s1 (call :: calls) []) as [s2 msgs] eqn:Ef.
        destruct (fail_truncated_ok _ _ _ _ _ _ Hc1 (Hb [] (or_introl eq_refl)) Ef) as (Hc2 & Hb2 & _ & Hids).
        eapply batch_done_ok; [done|done|apply sublist_nil_l|]. cbn [app fmap list_fmap] in Hids. unfold results_ok. rewrite Ecalls. split; [by rewrite Hids|].
        intros Hlt. apply (f_equal length) in Hids. rewrite !length_fmap in Hids. cbn in *. rewrite length_fmap in Hids. lia.
      * assert (runnable m = true) as Hr by (unfold runnable; by rewrite Est, bool_decide_false).
        unfold executeToolCalls. case_match; [apply seq_next_ok|apply preflight_next_ok]; try done; [apply Hb; by right|apply Hb; by left].
Qed.

Lemma inject_ok s : common s → quiet s (CTurn [] false) → inv (inject s).
Proof.
  intros Hc [H1 H2 H3]. split.
  - eapply common_same; [exact Hc|apply Hc|done|done|done|]. cbn. intros m rs. rewrite elem_of_app. intros [?|Hin]; [by left|].
    by eapply no_turn_end_elem in Hin; [|apply no_turn_end_announces].
  - unfold at_control. cbn. split; [|done]. split; cbn.
    + eapply checked_app; [done|]. apply check_announces.
    + unfold ended. rewrite omap_app. fold (ended (events s)). fold (ended (pendingMessages s ≫= announce)). by rewrite ended_announces, H2.
    + unfold calls_in in *. rewrite bind_app. by apply sublist_inserts_r.
Qed.

Lemma loop_head_ok s : common s → quiet s CBetween → completedTurn s = true → inv (loop_head s).
Proof.
  intros Hc Hq Hd. unfold loop_head. rewrite Hd. destruct (_ || _) eqn:E.
  - split; [by destruct Hc; split|]. unfold at_control. cbn. by destruct Hq; split.
  - split; [by destruct Hc; split|]. unfold at_control. cbn. split; [by destruct Hq; split|]. split; [done|].
    apply orb_false_iff in E as [_ E]. by destruct (pendingMessages s).
Qed.

(** *** Every step *)

Lemma inv_same s s' :
  inv s → control s' = control s → st_context s' = st_context s → st_config s' = st_config s → newMessages s' = newMessages s →
  pendingMessages s' = pendingMessages s → hasMoreToolCalls s' = hasMoreToolCalls s → completedTurn s' = completedTurn s →
  events s' = events s → executions s' = executions s → (signal_aborted s = true → signal_aborted s' = true) → inv s'.
Proof.
  intros [Hc Ha] E1 E2 E3 E4 E5 E6 E7 E8 E9 E10. split.
  - eapply common_same; [exact Hc|by rewrite E2; apply Hc|by rewrite E3|done|done|]. rewrite E8. by left.
  - assert (∀ k, quiet s k → quiet s' k) as Hq by (intros k [? ? ?]; split; congruence).
    assert (∀ m o i sc, batch s m o i sc → batch s' m o i sc) as Hb
      by (intros m o i sc [? ? ? ? ? ?]; split; rewrite ?E8, ?E4, ?E9, ?E5; done).
    unfold at_control in *. rewrite E1. destruct (control s); rewrite ?E4, ?E5, ?E6, ?E7, ?E8, ?E9; try naive_solver.
Qed.

Lemma seq_step_ok s m rest fins msgs stage a s' :
  inv s → control s = AtSequential m rest fins msgs stage → contract s a →
  seq_step validate clock s m rest fins msgs stage a = Some s' → inv s'.
Proof.
  intros [Hc Hat] Ec Hk H. unfold at_control in Hat. rewrite Ec in Hat. destruct Hat as (Hb & Hr & Hcalls & Hids & Hst).
  unfold contract in Hk. rewrite Ec in Hk.
  destruct stage as [c|p|p|p x|], a; try done; cbn [seq_step] in H; cbn [stage_call stage_run app fmap list_fmap] in *.
  - injection H as <-. rewrite app_nil_r in Hb. apply seq_prepared_ok; try done. by apply prepare_begin_ok.
  - injection H as <-. destruct Hst as [Hg Hh]. rewrite app_nil_r in Hb. apply seq_prepared_ok; try done. by apply prepare_end_ok.
  - injection H as <-. pose proof (common_emit' s [tool_execution_update (pr_call p) partialResult] Hc eq_refl) as Hc'.
    split; [done|]. unfold at_control. cbn [emit control]. rewrite Ec. split_and!; try done.
    eapply batch_emit'; [exact Hb| |by cbn; rewrite app_nil_r]. intros x Hx. exists x. split; [|done]. cbn.
    rewrite bool_decide_true; [done|]. rewrite Hx. by left.
  - assert (fin_call (finalizeExecuted p (executed_outcome r) (Ok None)) = pr_call p) as Hf by (by destruct r).
    destruct (cf_afterToolCall (st_config s)); injection H as <-.
    + split; [by destruct Hc; split|]. unfold at_control. cbn. split_and!; try done. by destruct Hb; split.
    + eapply seq_finalized_ok; rewrite ?Hf; try done.
  - assert (fin_call (finalizeExecuted p x r) = pr_call p) as Hf by (destruct x, r as [[]|]; done).
    injection H as <-. eapply seq_finalized_ok; rewrite ?Hf; try done.
  - rewrite app_nil_r in Hb. destruct (signal_aborted s) eqn:Eab; injection H as <-; [|by apply seq_next_ok].
    eapply batch_done_ok; [done|done|rewrite Hcalls; by apply sublist_inserts_r|]. split; [|by left].
    rewrite Hids, list_fmap_compose, Hcalls, fmap_app. by apply prefix_app_r.
Qed.

Lemma preflight_step_ok s m rest entries stage a s' :
  inv s → control s = AtPreflight m rest entries stage → contract s a →
  preflight_step validate clock s m rest entries stage a = Some s' → inv s'.
Proof.
  intros [Hc Hat] Ec Hk H. unfold at_control in Hat. rewrite Ec in Hat. destruct Hat as (Hb & Hr & Hcalls & Hall & Hst).
  unfold contract in Hk. rewrite Ec in Hk. destruct stage as [c|p|], a; try done; cbn [preflight_step] in H; cbn in Hb, Hcalls.
  - injection H as <-. apply preflight_prepared_ok; try done; [|by apply prepare_begin_ok].
    destruct Hb as [(o & Hk' & Ho) He Hx Hs Hlen Hp]. split; try done. exists o. split; [done|]. rewrite Ho. by rewrite <- Permutation_cons_append.
  - injection H as <-. destruct Hst as [Hg Hh]. apply preflight_prepared_ok; try done; [|by apply prepare_end_ok].
    destruct Hb as [(o & Hk' & Ho) He Hx Hs Hlen Hp]. split; try done. exists o. split; [done|]. rewrite Ho. by rewrite <- Permutation_cons_append.
  - rewrite app_nil_r in Hb. destruct (signal_aborted s) eqn:Ea; injection H as <-; [|by apply preflight_next_ok].
    eapply par_start_ok; eauto.
Qed.

Lemma parallel_step_ok s m entries a s' :
  inv s → control s = AtParallel m entries → parallel_step clock s m entries a = Some s' → inv s'.
Proof.
  intros [Hc Hat] Ec H. unfold at_control in Hat. rewrite Ec in Hat. destruct Hat as (Hb & Hpre & Hlen & Hall).
  assert (∀ i e e' es, entries !! i = Some e → entry_open e = true → entry_call e' = entry_call e →
    (match e' with EReady _ => False | _ => True end) →
    (if entry_open e' then es = [] else ∃ f, es = [ended_event f] ∧ fin_call f = entry_call e) →
    inv (set_entry clock (emit s es) m entries i e')) as Hset by (intros; by eapply set_entry_ok).
  assert (emit s [] = s) as Hnil by (destruct s; unfold emit; cbn; by rewrite app_nil_r).
  destruct a as [| | | | | | | | |i partial|i r|i r|]; try done; cbn [parallel_step] in H;
    destruct (entries !! i) as [[f|p|p|p x]|] eqn:Ei; try done.
  - injection H as <-. pose proof (common_emit' s [tool_execution_update (pr_call p) partial] Hc eq_refl) as Hc'.
    split; [done|]. unfold at_control. cbn [emit control]. rewrite Ec. split_and!; try done.
    eapply batch_emit'; [exact Hb| |done]. intros x Hx. exists x. split; [|done]. cbn.
    rewrite bool_decide_true; [done|]. rewrite Hx. rewrite (delete_Permutation entries i _ Ei). cbn. by left.
  - destruct (cf_afterToolCall (st_config s)); injection H as <-.
    + rewrite <- Hnil. by eapply Hset.
    + unfold par_finalized. eapply Hset; [exact Ei|done|by destruct r|done|]. eexists. split; [done|]. by destruct r.
  - injection H as <-. unfold par_finalized. eapply Hset; [exact Ei|done|destruct x, r as [[]|]; done|done|].
    eexists. split; [done|]. destruct x, r as [[]|]; done.
Qed.

Lemma apply_update_parts s u :
  events (apply_update s u) = events s ∧ newMessages (apply_update s u) = newMessages s ∧ executions (apply_update s u) = executions s ∧
  pendingMessages (apply_update s u) = pendingMessages s ∧ signal_aborted (apply_update s u) = signal_aborted s ∧
  cf_beforeToolCall (st_config (apply_update s u)) = cf_beforeToolCall (st_config s) ∧
  st_context (apply_update s u) = match u with Some u => default (st_context s) (up_context u) | None => st_context s end.
Proof. destruct u; done. Qed.

Lemma stream_ok s partial a s' :
  inv s → control s = AtStream partial → contract s a → step validate clock s a = Some s' → inv s'.
Proof.
  intros [Hc Hat] Ec Hk H. pose proof Hat as Hat'. unfold at_control in Hat'. rewrite Ec in Hat'. destruct Hat' as [[H1 H2 H3] Hp].
  unfold contract in Hk. rewrite Ec in Hk. unfold step in H. rewrite Ec in H.
  assert (∀ ms es c, no_turn_end es → common (with_control (emit (set_messages s ms) es) c)) as Hcm.
  { intros ms es c Hes. apply common_emit; [|done]. by destruct Hc; split. }
  destruct partial as [q|], a as [| | |ms|u|p|p|final| | | | |]; try done; cbn [bool_decide] in H1.
  - injection H as <-. by eapply inv_same.
  - injection H as <-. split; [by destruct Hc; split|]. unfold at_control. cbn. by eexists; split.
  - injection H as <-. split; [by apply Hcm|]. unfold at_control. cbn. rewrite bool_decide_true in * by by eexists. split; [|done].
    split; cbn; [by eapply checked_app|unfold ended in *; rewrite omap_app; by rewrite app_nil_r|done].
  - injection H as <-. cbn [stream_end]. rewrite bool_decide_true in H1 by by eexists.
    apply response_done_ok; [rewrite <- emit_control; by apply Hcm|by eapply checked_app|unfold ended in *; cbn; by rewrite omap_app, H2|done|done].
  - injection H as <-. by eapply inv_same.
  - injection H as <-. split; [by destruct Hc; split|]. unfold at_control. cbn. by eexists; split.
  - injection H as <-. rewrite bool_decide_false in H1 by by intros []. split; [by apply Hcm|]. unfold at_control. cbn. split; [|done].
    split; cbn; [by eapply checked_app|unfold ended in *; rewrite omap_app; by rewrite app_nil_r|done].
  - injection H as <-. done.
  - injection H as <-. cbn [stream_end]. rewrite bool_decide_false in H1 by by intros [].
    apply response_done_ok; [rewrite <- emit_control; by apply Hcm|by eapply checked_app|unfold ended in *; cbn; by rewrite omap_app, H2|done|done].
Qed.

Lemma quiet_turn_start s : common s → quiet s CBetween → inv (inject (emit s [turn_start])).
Proof.
  intros Hc [H1 H2 H3]. apply inject_ok; [by apply common_emit'|]. split; cbn; [by eapply checked_app| |done].
  unfold ended in *. rewrite omap_app. by rewrite app_nil_r.
Qed.

Lemma step_ok s a s' : inv s → contract s a → step validate clock s a = Some s' → inv s'.
Proof.
  intros Hi Hk H. assert (inv (set_aborted s)) as Habort by by eapply inv_same.
  destruct (control s) as [| | |partial|m rest fins msgs stage|m rest entries before|m entries| | | | |] eqn:Ec;
    [..|by unfold step in H; rewrite Ec in H|by unfold step in H; rewrite Ec in H].
  4: by apply (stream_ok s partial a).
  all: pose proof Hi as [Hc Hat]; unfold step in H; rewrite Ec in H; unfold at_control in Hat; rewrite Ec in Hat.
  4: destruct a; try (by eapply (seq_step_ok s)); by injection H as <-.
  4: destruct a; try (by eapply (preflight_step_ok s)); by injection H as <-.
  4: destruct a; try (by eapply (parallel_step_ok s)); by injection H as <-.
  all: destruct a as [| | |ms|u|p|p|final| | | | |b]; try done; try (by injection H as <-);
    try (injection H as <-; split; [by destruct Hc; split|]; unfold at_control; cbn;
         (destruct Hat as [[H1 H2 H3] _] || destruct Hat as [H1 H2 H3]); by eexists; split).
  - destruct Hat as (Hq & Hd & Hm & Hp). injection H as <-. unfold loop_head. cbn. rewrite Hd. apply inject_ok.
    + by destruct Hc; split.
    + by destruct Hq; split.
  - destruct (apply_update_parts s u) as (E1 & E2 & E3 & E4 & E5 & E6 & E7). set (s1 := apply_update s u) in *.
    assert (common s1) as Hc1.
    { eapply common_same; [exact Hc| |done|by rewrite E5|done|rewrite E1; by left]. rewrite E7.
      destruct u as [u|]; [|apply Hc]. unfold contract in Hk. rewrite Ec in Hk. destruct (up_context u) as [c|] eqn:Eu; [|apply Hc].
      by apply Hk. }
    assert (quiet s1 CBetween) as Hq1 by (destruct Hat as [? ? ?]; split; congruence).
    cbn zeta in H. destruct (pendingMessages s1) eqn:Ep; injection H as <-; [|by apply quiet_turn_start].
    split; [by destruct Hc1; split|]. unfold at_control. cbn. split; [by destruct Hq1; split|done].
  - destruct Hat as [Hq Hp]. injection H as <-. apply quiet_turn_start; [by destruct Hc; split|by destruct Hq; split].
  - destruct Hat as (Hq & Hd & Hp). injection H as <-. destruct b; [by apply finish_ok|].
    split; [by destruct Hc; split|]. unfold at_control. cbn. split_and!; try done. by destruct Hq; split.
  - destruct Hat as (Hq & Hd & Hp). injection H as <-. apply loop_head_ok; [by destruct Hc; split|by destruct Hq; split|done].
  - destruct Hat as (Hq & Hd & Hp). destruct ms as [|x ms]; injection H as <-; [by apply finish_ok|].
    apply loop_head_ok; [by destruct Hc; split|by destruct Hq; split|done].
Qed.

Lemma runs_inv s0 h s : inv s0 → runs validate clock contract s0 h s → inv s.
Proof. intros H0. induction 1 as [|h s a s' _ IH Hk Hs]; [done|]. by eapply step_ok. Qed.

End invariant.

(** ** Contexts and queues *)

(** User and application messages. *)
Definition others (ms : list Message) : list AgentMessage := omap (λ m, match m with MOther m => Some m | _ => None end) ms.

Definition partial_of (c : Control) : list Message := match c with AtStream (Some q) => [MAssistant q] | _ => [] end.

(** From [s] to [s'] the new messages [l] are added to the context too, none of them a
    queued one. *)
Record grows (s s' : State) (l : list Message) : Prop := {
  g_new : newMessages s' = newMessages s ++ l;
  g_context : cx_messages (st_context s') = cx_messages (st_context s) ++ l;
  g_requests : requests s' = requests s;
  g_pending : pendingMessages s' = pendingMessages s;
  g_others : others l = [];
  g_control : partial_of (control s') = [];
}.

Lemma others_results (rs : list ToolResult) : others (MToolResult <$> rs) = [].
Proof. unfold others. induction rs; done. Qed.

Lemma others_app a b : others (a ++ b) = others a ++ others b.
Proof. apply omap_app. Qed.

Section growth.
Context (validate : AgentTool → AgentToolCall → result string json) (clock : nat → Z).

Lemma grows_batch_done s m rs t : grows s (batch_done s m rs t) (MToolResult <$> rs).
Proof. split; try done. apply others_results. Qed.

(** Leaving messages, context and queue alone. *)
Lemma grows_still s s' :
  newMessages s' = newMessages s → st_context s' = st_context s → requests s' = requests s → pendingMessages s' = pendingMessages s →
  partial_of (control s') = [] → grows s s' [].
Proof. intros E1 E2 E3 E4 E5. split; rewrite ?app_nil_r; first [done|congruence]. Qed.

Lemma grows_after s s1 s' l : newMessages s1 = newMessages s → st_context s1 = st_context s → requests s1 = requests s →
  pendingMessages s1 = pendingMessages s → grows s1 s' l → grows s s' l.
Proof. intros E1 E2 E3 E4 [H1 H2 H3 H4 H5 H6]. split; congruence. Qed.

Lemma grows_seq_prepared s m call rest fins msgs p : grows s (seq_prepared clock s m call rest fins msgs p) [].
Proof. destruct p; by apply grows_still. Qed.

Lemma grows_seq_next s m calls fins msgs : ∃ l, grows s (seq_next s m calls fins msgs) l.
Proof.
  destruct calls; cbn [seq_next]; [eexists; apply grows_batch_done|]. exists []. by apply grows_still.
Qed.

Lemma grows_par_check s m entries : ∃ l, grows s (par_check clock s m entries) l.
Proof.
  unfold par_check. destruct (mapM _ _); [|eexists; by apply grows_still]. eexists. eapply grows_after; [..|apply grows_batch_done]; done.
Qed.

Lemma grows_par_start s m entries : ∃ l, grows s (par_start clock s m entries) l.
Proof.
  unfold par_start. set (s1 := execute_tools _ _). destruct (grows_par_check s1 m ((start_entry (signal_aborted s) <$> entries).*1.*1)) as [l Hl].
  exists l. by eapply grows_after; [..|exact Hl].
Qed.

Lemma grows_preflight_prepared s m call rest entries p : grows s (preflight_prepared s m call rest entries p) [].
Proof. destruct p; by apply grows_still. Qed.

Lemma grows_preflight_next s m calls entries : ∃ l, grows s (preflight_next clock s m calls entries) l.
Proof.
  destruct calls; cbn [preflight_next]; [apply grows_par_start|]. exists []. by apply grows_still.
Qed.

Lemma grows_set_entry s es m entries i e : ∃ l, grows s (set_entry clock (emit s es) m entries i e) l.
Proof. destruct (grows_par_check (emit s es) m (<[i:=e]> entries)) as [l Hl]. exists l. by eapply grows_after; [..|exact Hl]. Qed.

Lemma fail_truncated_still s calls msgs : let s' := (fail_truncated clock s calls msgs).1 in
  newMessages s' = newMessages s ∧ st_context s' = st_context s ∧ requests s' = requests s ∧ pendingMessages s' = pendingMessages s.
Proof.
  revert s msgs. induction calls as [|call calls IH]; intros s msgs; [done|]. cbn [fail_truncated].
  destruct (IH (emit (emit s [tool_execution_start call; ended_event (truncated_result call)])
    (announce (MToolResult (createToolResultMessage (truncated_result call)
      (clock (length (events (emit s [tool_execution_start call; ended_event (truncated_result call)]))))))))
    (msgs ++ [createToolResultMessage (truncated_result call)
      (clock (length (events (emit s [tool_execution_start call; ended_event (truncated_result call)]))))])) as (H1 & H2 & H3 & H4).
  split_and!; [exact H1|exact H2|exact H3|exact H4].
Qed.

(** After the response: its message, and the results of its calls. *)
Lemma grows_response s m : ∃ l, newMessages (response_done clock s m) = newMessages s ++ [MAssistant m] ++ l ∧
  cx_messages (st_context (response_done clock s m)) = cx_messages (st_context s) ++ l ∧
  requests (response_done clock s m) = requests s ∧ pendingMessages (response_done clock s m) = pendingMessages s ∧
  others l = [] ∧ partial_of (control (response_done clock s m)) = [].
Proof.
  unfold response_done. destruct (stopped m); [exists []; split_and!; rewrite ?app_nil_r; done|].
  set (s1 := set_pending _ _ _).
  assert (∀ s', (∃ l, grows s1 s' l) → ∃ l, newMessages s' = newMessages s ++ [MAssistant m] ++ l ∧
    cx_messages (st_context s') = cx_messages (st_context s) ++ l ∧ requests s' = requests s ∧ pendingMessages s' = pendingMessages s ∧
    others l = [] ∧ partial_of (control s') = []) as Hg.
  { intros s' [l [H1 H2 H3 H4 H5 H6]]. exists l. cbn in *. split_and!; try done. by rewrite H1, <- app_assoc. }
  destruct (toolCalls_of m) as [|c cs]; [apply Hg; exists []; by apply grows_still|]. case_bool_decide.
  - pose proof (fail_truncated_still s1 (c :: cs) []) as (E1 & E2 & E3 & E4). destruct (fail_truncated clock s1 (c :: cs) []) as [s2 msgs].
    apply Hg. eexists. by eapply grows_after; [..|apply grows_batch_done].
  - unfold executeToolCalls. apply Hg. case_match; [apply grows_seq_next|apply grows_preflight_next].
Qed.

(** What a poll of the queues returned. *)
Definition polled_by (a : Answer) : list Message := match a with Messages ms => ms | _ => [] end.

Definition keeps_context (a : Answer) : Prop := match a with TurnUpdate (Some u) => up_context u = None | _ => True end.

(** A step: queued messages move from the queue to the new ones, the context follows
    the new messages, and a request is for the whole context. *)
Record delta (s : State) (a : Answer) (s' : State) : Prop := {
  d_others : others (newMessages s' ++ pendingMessages s') = others (newMessages s ++ pendingMessages s) ++ others (polled_by a);
  d_prefix : newMessages s `prefix_of` newMessages s';
  d_context base : keeps_context a → control s' ≠ Rejected → cx_messages (st_context s) = base ++ newMessages s ++ partial_of (control s) →
    cx_messages (st_context s') = base ++ newMessages s' ++ partial_of (control s');
  d_requests : requests s' = requests s ∨
    ∃ r, requests s' = requests s ++ [r] ∧ rq_context r = st_context s' ∧ control s' = AtStream None ∧ pendingMessages s' = [];
}.

Lemma delta_grows s a s' l : polled_by a = [] → partial_of (control s) = [] → grows s s' l → delta s a s'.
Proof.
  intros Ha Hp [H1 H2 H3 H4 H5 H6]. split.
  - rewrite Ha, H1, H4, !others_app, H5. cbn. by rewrite !app_nil_r.
  - rewrite H1. by apply prefix_app_r.
  - intros base _ _. rewrite Hp, H6, H1, H2, !app_nil_r. intros ->. by rewrite app_assoc.
  - by left.
Qed.

(** [s1] is [s] with the queue answered, about to ask the model. *)
Lemma delta_inject s a s1 :
  newMessages s1 = newMessages s → others (pendingMessages s1) = others (pendingMessages s) ++ others (polled_by a) →
  (keeps_context a → st_context s1 = st_context s) → requests s1 = requests s → partial_of (control s) = [] → delta s a (inject s1).
Proof.
  intros E1 E2 E3 E4 Hp. split.
  - cbn. rewrite app_nil_r, E1, !others_app, E2. by rewrite app_assoc.
  - cbn. rewrite E1. by apply prefix_app_r.
  - intros base Ha _. cbn. rewrite Hp, E1, (E3 Ha), !app_nil_r. intros ->. by rewrite app_assoc.
  - right. eexists. split; [cbn; by rewrite E4|]. done.
Qed.

(** No message moves. *)
Lemma delta_still s a s' :
  newMessages s' = newMessages s → others (pendingMessages s') = others (pendingMessages s) ++ others (polled_by a) →
  (keeps_context a → st_context s' = st_context s) → requests s' = requests s → partial_of (control s) = [] → partial_of (control s') = [] →
  delta s a s'.
Proof.
  intros E1 E2 E3 E4 Hp Hp'. split; [| | |by left].
  - by rewrite E1, !others_app, E2, app_assoc.
  - by rewrite E1.
  - intros base Ha _. by rewrite Hp, Hp', E1, (E3 Ha).
Qed.

Lemma replace_last_snoc l x y : replace_last (l ++ [x]) y = l ++ [y].
Proof. unfold replace_last. by rewrite removelast_last. Qed.

Lemma delta_stream_end s partial final :
  control s = AtStream partial → delta s (StreamEnd final) (stream_end clock s partial final).
Proof.
  intros Ec. assert (∀ s1, newMessages s1 = newMessages s → pendingMessages s1 = pendingMessages s → requests s1 = requests s →
    (∀ base, cx_messages (st_context s) = base ++ newMessages s ++ partial_of (control s) →
       cx_messages (st_context s1) = base ++ newMessages s ++ [MAssistant final]) →
    delta s (StreamEnd final) (response_done clock s1 final)) as H.
  { intros s1 E1 E2 E3 E4. destruct (grows_response s1 final) as (l & H1 & H2 & H3 & H4 & H5 & H6). split.
    - rewrite H1, H4, E1, E2, !others_app, H5. cbn. by rewrite !app_nil_r.
    - rewrite H1, E1. by apply prefix_app_r.
    - intros base _ _ Hb. rewrite H2, (E4 base Hb), H6, H1, E1, !app_nil_r, <- !app_assoc. done.
    - left. by rewrite H3. }
  unfold stream_end. destruct partial as [q|]; apply H; try done; intros base; rewrite Ec; cbn [partial_of].
  - intros Hb. cbn. rewrite Hb, !app_assoc, replace_last_snoc. done.
  - rewrite app_nil_r. intros Hb. cbn. by rewrite Hb, app_assoc.
Qed.

Lemma delta_batch s a s' : polled_by a = [] → partial_of (control s) = [] → (∃ l, grows s s' l) → delta s a s'.
Proof. intros Ha Hp [l Hl]. by eapply delta_grows. Qed.

Lemma still_batch s a s' :
  polled_by a = [] → partial_of (control s) = [] → newMessages s' = newMessages s → st_context s' = st_context s → requests s' = requests s →
  pendingMessages s' = pendingMessages s → partial_of (control s') = [] → delta s a s'.
Proof. intros. eapply delta_batch; [done..|]. exists []. by apply grows_still. Qed.

Lemma seq_step_delta s m rest fins msgs stage a s' :
  control s = AtSequential m rest fins msgs stage → seq_step validate clock s m rest fins msgs stage a = Some s' → delta s a s'.
Proof.
  intros Ec H. assert (partial_of (control s) = []) as Hp by by rewrite Ec.
  destruct stage, a; try done; cbn [seq_step] in H; repeat case_match; simplify_eq; (apply delta_batch; [done|done|]);
    try (eexists; apply grows_seq_prepared); try (exists []; by apply grows_still); try (eexists; apply grows_batch_done);
    apply grows_seq_next.
Qed.

Lemma preflight_step_delta s m rest entries stage a s' :
  control s = AtPreflight m rest entries stage → preflight_step validate clock s m rest entries stage a = Some s' → delta s a s'.
Proof.
  intros Ec H. assert (partial_of (control s) = []) as Hp by by rewrite Ec.
  destruct stage, a; try done; cbn [preflight_step] in H; repeat case_match; simplify_eq; (apply delta_batch; [done|done|]);
    first [by eexists; apply grows_preflight_prepared|apply grows_par_start|apply grows_preflight_next].
Qed.

Lemma parallel_step_delta s m entries a s' :
  control s = AtParallel m entries → parallel_step clock s m entries a = Some s' → delta s a s'.
Proof.
  intros Ec H. assert (partial_of (control s) = []) as Hp by by rewrite Ec.
  destruct a; try done; cbn [parallel_step] in H; repeat case_match; simplify_eq; (apply delta_batch; [done|done|]);
    first [apply grows_set_entry|apply grows_par_check|exists []; apply grows_still; try done; cbn; by rewrite Ec].
Qed.

(** [s] waits for a queue only when the last answer has been used up. *)
Definition queue_used (s : State) : Prop :=
  match control s with AtSteeringFirst | AtSteeringAgain | AtSteering | AtFollowUp => pendingMessages s = [] | _ => True end.

(** The stream of a response starts at most once, as those of the providers do. *)
Definition starts_once (s : State) (a : Answer) : Prop :=
  match control s, a with AtStream (Some _), StreamStart _ => False | _, _ => True end.

Lemma stream_step_delta s partial a s' :
  control s = AtStream partial → starts_once s a → step validate clock s a = Some s' → delta s a s'.
Proof.
  intros Ec Ho H. unfold starts_once in Ho. rewrite Ec in Ho. unfold step in H. rewrite Ec in H.
  destruct a as [| | |ms|u|p|p|final| | | | |]; try (destruct partial; discriminate H).
  - assert (s' = set_aborted s) as -> by (destruct partial; by injection H). split; [by rewrite app_nil_r|done|done|by left].
  - assert (s' = with_control s Rejected) as -> by (destruct partial; by injection H).
    split; [by rewrite app_nil_r|done| |by left]. intros base _ Hne. by destruct Hne.
  - destruct partial; [done|]. injection H as <-. split; [by rewrite app_nil_r|done| |by left].
    intros base _ _. rewrite Ec. cbn. rewrite app_nil_r. intros ->. by rewrite app_assoc.
  - destruct partial as [q|]; injection H as <-; [|split; [by rewrite app_nil_r|done|done|by left]].
    split; [by rewrite app_nil_r|done| |by left]. intros base _ _. rewrite Ec. cbn. intros ->. by rewrite !app_assoc, replace_last_snoc.
  - assert (s' = stream_end clock s partial final) as -> by (destruct partial; by injection H).
    by apply delta_stream_end.
Qed.

Lemma delta_head s a s1 :
  newMessages s1 = newMessages s → others (pendingMessages s1) = others (pendingMessages s) ++ others (polled_by a) →
  (keeps_context a → st_context s1 = st_context s) → requests s1 = requests s → partial_of (control s) = [] → delta s a (loop_head s1).
Proof.
  intros E1 E2 E3 E4 E5. unfold loop_head. destruct (_ || _); [destruct (completedTurn s1); [|by apply delta_inject]|]; by apply delta_still.
Qed.

Lemma step_delta s a s' : queue_used s → starts_once s a → step validate clock s a = Some s' → delta s a s'.
Proof.
  intros Hq Ho H.
  destruct (control s) as [| | |partial|m rest fins msgs stage|m rest entries before|m entries| | | | |] eqn:Ec;
    [..|by unfold step in H; rewrite Ec in H|by unfold step in H; rewrite Ec in H].
  4: by apply (stream_step_delta s partial a).
  all: assert (partial_of (control s) = []) as Hp by (by rewrite Ec); unfold step in H; rewrite Ec in H; unfold queue_used in Hq; rewrite Ec in Hq.
  4: destruct a; try (by eapply (seq_step_delta s)); injection H as <-; by apply still_batch.
  4: destruct a; try (by eapply (preflight_step_delta s)); injection H as <-; by apply still_batch.
  4: destruct a; try (by eapply (parallel_step_delta s)); injection H as <-; by apply still_batch.
  all: destruct a as [| | |ms|u|p|p|final| | | | |b]; try done; try (by injection H as <-; apply still_batch).
  - injection H as <-. apply delta_head; try done. cbn. by rewrite Hq.
  - destruct (apply_update_parts s u) as (E1 & E2 & E3 & E4 & E5 & E6 & E7). set (s1 := apply_update s u) in *.
    assert (requests s1 = requests s) as E8 by by destruct u.
    assert (keeps_context (TurnUpdate u) → st_context s1 = st_context s) as E9.
    { rewrite E7. destruct u as [u|]; [|done]. cbn. by intros ->. }
    cbn zeta in H. destruct (pendingMessages s1) eqn:Ep; injection H as <-.
    + apply delta_still; try done. cbn. by rewrite Ep, <- E4, app_nil_r.
    + apply delta_inject; try done. cbn. by rewrite Ep, <- E4, app_nil_r.
  - injection H as <-. apply delta_inject; try done. cbn. by rewrite Hq.
  - injection H as <-. destruct b; by apply still_batch.
  - injection H as <-. apply delta_head; try done. cbn. by rewrite Hq.
  - destruct ms as [|x ms]; injection H as <-; [by apply still_batch|]. apply delta_head; try done. cbn. by rewrite Hq.
Qed.

End growth.

(** ** The prompt and the tools of a context *)

Section frame.
Context (validate : AgentTool → AgentToolCall → result string json) (clock : nat → Z).

Definition frame (s : State) : string * list AgentTool := (cx_systemPrompt (st_context s), cx_tools (st_context s)).

Lemma frame_fail_truncated s calls msgs : frame (fail_truncated clock s calls msgs).1 = frame s.
Proof. revert s msgs. induction calls as [|c calls IH]; intros s msgs; cbn [fail_truncated]; [done|]. by rewrite IH. Qed.
Lemma frame_loop_head s : frame (loop_head s) = frame s.
Proof. unfold loop_head. destruct (_ || _); [by destruct (completedTurn s)|done]. Qed.
Lemma frame_seq_prepared s m c rest fins msgs q : frame (seq_prepared clock s m c rest fins msgs q) = frame s.
Proof. by destruct q. Qed.
Lemma frame_seq_next s m calls fins msgs : frame (seq_next s m calls fins msgs) = frame s.
Proof. by destruct calls. Qed.
Lemma frame_par_check s m entries : frame (par_check clock s m entries) = frame s.
Proof. unfold par_check. by case_match. Qed.
Lemma frame_preflight_prepared s m c rest entries q : frame (preflight_prepared s m c rest entries q) = frame s.
Proof. by destruct q. Qed.
Lemma frame_preflight_next s m calls entries : frame (preflight_next clock s m calls entries) = frame s.
Proof. destruct calls; [|done]. unfold preflight_next, par_start. by rewrite frame_par_check. Qed.
Lemma frame_set_entry s es m entries i e : frame (set_entry clock (emit s es) m entries i e) = frame s.
Proof. unfold set_entry. by rewrite frame_par_check. Qed.
Lemma frame_stream_end s partial final : frame (stream_end clock s partial final) = frame s.
Proof.
  assert (∀ s1, frame s1 = frame s → frame (response_done clock s1 final) = frame s) as H; [|by destruct partial; apply H].
  intros s1 <-. unfold response_done. destruct (stopped final); [done|]. destruct (toolCalls_of final) as [|c cs]; [done|]. case_match.
  - set (s2 := set_pending _ _ _). pose proof (frame_fail_truncated s2 (c :: cs) []) as E. by destruct (fail_truncated clock s2 (c :: cs) []).
  - unfold executeToolCalls. case_match; [by rewrite frame_seq_next|by rewrite frame_preflight_next].
Qed.

Create HintDb frame_db.
Hint Resolve frame_loop_head frame_seq_prepared frame_seq_next frame_par_check frame_preflight_prepared frame_preflight_next frame_set_entry
  frame_stream_end : frame_db.

Lemma seq_step_frame s m rest fins msgs stage a s' : seq_step validate clock s m rest fins msgs stage a = Some s' → frame s' = frame s.
Proof. intros H. destruct stage, a; try done; cbn [seq_step] in H; repeat case_match; simplify_eq; auto with frame_db. Qed.
Lemma preflight_step_frame s m rest entries stage a s' : preflight_step validate clock s m rest entries stage a = Some s' → frame s' = frame s.
Proof.
  intros H. destruct stage, a; try done; cbn [preflight_step] in H; repeat case_match; simplify_eq; auto with frame_db.
  unfold par_start. by rewrite frame_par_check.
Qed.
Lemma parallel_step_frame s m entries a s' : parallel_step clock s m entries a = Some s' → frame s' = frame s.
Proof.
  intros H. destruct a; try done; cbn [parallel_step] in H; repeat case_match; simplify_eq; try done; unfold par_finalized; auto with frame_db.
  unfold set_entry. auto with frame_db.
Qed.

(** Only a context that [prepareNextTurn] gives has others. *)
Lemma step_frame s a s' : keeps_context a → step validate clock s a = Some s' → frame s' = frame s.
Proof.
  intros Hk H. unfold step in H. destruct (control s) as [| | |partial|m rest fins msgs stage|m rest entries stage|m entries| | | | |] eqn:Ec.
  5: destruct a; first [by injection H as <-|by eapply seq_step_frame].
  5: destruct a; first [by injection H as <-|by eapply preflight_step_frame].
  5: destruct a; first [by injection H as <-|by eapply parallel_step_frame].
  all: destruct a; try done; try (by injection H as <-); try (destruct partial; first [done|injection H as <-; first [done|apply frame_stream_end]]).
  - injection H as <-. apply (frame_loop_head (set_pending s messages true)).
  - assert (frame (apply_update s update) = frame s) as <- by (destruct update as [u|]; [|done]; cbn in Hk; unfold frame; cbn; by rewrite Hk).
    by destruct (pendingMessages (apply_update s update)); injection H as <-.
  - assert (s' = stream_end clock s partial final) as -> by (by destruct partial; injection H). apply frame_stream_end.
  - injection H as <-. by destruct stop.
  - injection H as <-. apply (frame_loop_head (set_pending s messages (hasMoreToolCalls s))).
  - destruct messages; injection H as <-; [done|apply (frame_loop_head (set_pending s _ true))].
Qed.

Lemma runs_frame prompts context config ab h s :
  runs validate clock (λ _ a, keeps_context a) (runAgentLoop prompts context config ab) h s → frame s = (cx_systemPrompt context, cx_tools context).
Proof. induction 1 as [|h s a s' _ <- Hk Hs]; [done|]. by eapply step_frame. Qed.
End frame.

(** ** Properties *)

Section properties.
Context (validate : AgentTool → AgentToolCall → result string json) (clock : nat → Z).

(** Continuing is running without a prompt. *)
Lemma continue_is_run context config ab s :
  runAgentLoopContinue context config ab = Ok s → s = runAgentLoop [] context config ab.
Proof.
  unfold runAgentLoopContinue, runAgentLoop. destruct context as [sys ms tools]. cbn. rewrite app_nil_r.
  destruct (last ms) as [[]|]; by intros [= <-].
Qed.

Lemma start_inv policy known prompts context config ab :
  Forall known (cx_tools context) → inv validate policy known (cf_beforeToolCall config) (runAgentLoop prompts context config ab).
Proof.
  intros Hk. split.
  - split; [done|done| |constructor]. cbn. intros m rs. rewrite !elem_of_cons. intros [?|[?|Hin]]; [done..|].
    by eapply no_turn_end_elem in Hin; [|apply no_turn_end_announces].
  - unfold at_control. cbn. split_and!; try done. split; cbn; [|apply ended_announces|apply sublist_nil_l].
    unfold checked. cbn. apply check_announces.
Qed.

Lemma runs_weaken (P Q : State → Answer → Prop) s0 h s :
  (∀ s a, P s a → Q s a) → runs validate clock P s0 h s → runs validate clock Q s0 h s.
Proof. intros HPQ. induction 1; [constructor|]. econstructor; eauto. Qed.

Lemma run_inv prompts context config ab h s :
  runs validate clock starts_once (runAgentLoop prompts context config ab) h s →
  inv validate (λ _, True) (λ _, True) (cf_beforeToolCall config) s.
Proof.
  intros H. eapply runs_inv; [by apply start_inv, Forall_true|]. eapply runs_weaken; [|exact H].
  intros s1 a. unfold starts_once, contract. destruct (control s1) as [| | |[]| ? ? ? ? []|? ? ? []| | | | | |], a as [| | | |[u|]| | | | | | | |]; try done.
  intros _ c _. by apply Forall_true.
Qed.

Lemma executed_calls policy known hook s :
  inv validate policy known hook s → pr_call <$> executions s `sublist_of` calls_in (newMessages s).
Proof.
  intros [_ Hat]. unfold at_control in Hat.
  assert (∀ m o i sc, batch s m o i sc → sc `sublist_of` toolCalls_of m → pr_call <$> executions s `sublist_of` calls_in (newMessages s)) as Hb.
  { intros m o i sc [_ _ (old & -> & Hx) _ Hl _] Hsc. eapply runnable_sublist; [done|]. destruct Hl as [-> | ->]; [apply sublist_nil_l|done]. }
  destruct (control s) as [| | |partial|m rest fins msgs stage|m rest entries before|m entries| | | | |].
  5: { destruct Hat as (H & _ & Hcalls & _). eapply Hb; [exact H|]. rewrite Hcalls, app_assoc. apply sublist_inserts_r.
       apply sublist_app; [done|]. destruct stage; first [done|apply sublist_nil_l]. }
  5: { destruct Hat as (H & _). eapply Hb; [exact H|apply sublist_nil_l]. }
  5: { destruct Hat as (H & [k Hk] & _). eapply Hb; [exact H|]. rewrite Hk. by apply sublist_inserts_r. }
  all: try (by destruct Hat as [[] _]); try (by destruct Hat as []); try (by destruct Hat as [? []]); naive_solver.
Qed.


(** C7: when a turn ends (in a run whose streams start at most once each), its
    tool results are those of the calls of its message, one
    for each and in the order of the calls, in whatever order the tools finished; if
    some are missing, the run was aborted or the response itself failed. *)
Theorem tool_results_paired prompts context config ab h s m rs :
  runs validate clock starts_once (runAgentLoop prompts context config ab) h s → turn_end m rs ∈ events s →
  trm_toolCallId <$> rs `prefix_of` tc_id <$> toolCalls_of m ∧
  (length rs = length (toolCalls_of m) ∨ signal_aborted s = true ∨ stopped m = true).
Proof.
  intros H Hin. destruct (run_inv _ _ _ _ _ _ H) as [Hc _]. destruct (co_turns _ _ _ _ _ Hc m rs Hin) as [H1 H2]. split; [done|].
  destruct (decide (length rs < length (toolCalls_of m))%nat) as [Hlt|Hge]; [right; auto|left].
  apply prefix_length in H1. rewrite !length_fmap in H1. lia.
Qed.


Definition polled (h : list Answer) : list Message := h ≫= polled_by.

Lemma inv_queue policy known hook s : inv validate policy known hook s → queue_used s.
Proof. intros [_ Hat]. unfold at_control in Hat. unfold queue_used. destruct (control s); naive_solver. Qed.

Lemma prompts_first prompts context config ab h s :
  runs validate clock starts_once (runAgentLoop prompts context config ab) h s → prompts `prefix_of` newMessages s.
Proof.
  induction 1 as [|h s a s' Hr IH Ho Hs]; [done|]. etrans; [exact IH|].
  exact (d_prefix _ _ _ (step_delta validate clock s a s' (inv_queue _ _ _ _ (run_inv _ _ _ _ _ _ Hr)) Ho Hs)).
Qed.

Lemma queue_delivery prompts context config ab h s :
  runs validate clock starts_once (runAgentLoop prompts context config ab) h s →
  others (newMessages s ++ pendingMessages s) = others (prompts ++ polled h) ∧ (control s = Returned → pendingMessages s = []).
Proof.
  intros H. split.
  - induction H as [|h s a s' Hr IH Ho Hs]; [cbn; by rewrite !app_nil_r|].
    pose proof (step_delta validate clock s a s' (inv_queue _ _ _ _ (run_inv _ _ _ _ _ _ Hr)) Ho Hs) as Hd.
    rewrite (d_others _ _ _ Hd), IH. unfold polled. rewrite bind_app, !others_app. cbn. by rewrite app_nil_r, app_assoc.
  - intros Ec. destruct (run_inv _ _ _ _ _ _ H) as [_ Hat]. unfold at_control in Hat. rewrite Ec in Hat.
    by destruct Hat as (es & _ & _ & _ & _ & Hp).
Qed.

(** the messages taken from the queues are delivered once and in order: they and
    the prompts are the user and application messages of the run, those that are not
    being the ones taken and not yet sent; when the run returns none is left. *)
Theorem queued_delivered prompts context config ab h s :
  runs validate clock starts_once (runAgentLoop prompts context config ab) h s →
  others (newMessages s ++ pendingMessages s) = others (prompts ++ polled h) ∧ (control s = Returned → pendingMessages s = []).
Proof. apply queue_delivery. Qed.

Lemma context_kept prompts context config ab h s :
  runs validate clock (λ s a, starts_once s a ∧ keeps_context a) (runAgentLoop prompts context config ab) h s →
  (control s ≠ Rejected → cx_messages (st_context s) = cx_messages context ++ newMessages s ++ partial_of (control s)) ∧
  ∀ r, r ∈ requests s → ∃ sent, sent `prefix_of` newMessages s ∧ cx_messages (rq_context r) = cx_messages context ++ sent.
Proof.
  intros H. induction H as [|h s a s' Hr [IH1 IH2] [Ho Hk] Hs].
  { split; [intros _; cbn; by rewrite app_nil_r|]. intros r Hin. by apply elem_of_nil in Hin. }
  assert (control s ≠ Rejected) as Hne by (intros E; unfold step in Hs; by rewrite E in Hs).
  assert (runs validate clock starts_once (runAgentLoop prompts context config ab) h s) as Hr' by (eapply runs_weaken; [|exact Hr]; by intros ? ? []).
  pose proof (step_delta validate clock s a s' (inv_queue _ _ _ _ (run_inv _ _ _ _ _ _ Hr')) Ho Hs) as [_ Hpre Hctx Hreq].
  assert (control s' ≠ Rejected → cx_messages (st_context s') = cx_messages context ++ newMessages s' ++ partial_of (control s')) as Hc'.
  { intros Hn. apply Hctx; auto. }
  split; [done|]. intros r Hin. assert (r ∈ requests s → ∃ sent, sent `prefix_of` newMessages s' ∧ cx_messages (rq_context r) = cx_messages context ++ sent) as Hold.
  { intros Hold. destruct (IH2 r Hold) as (sent & Hp & Hs'). exists sent. split; [by etrans|done]. }
  destruct Hreq as [E|(x & E & Hx & Hp & Hq)]; rewrite E in Hin; [by apply Hold|]. apply elem_of_app in Hin as [?|Hin]; [by apply Hold|].
  apply list_elem_of_singleton in Hin as ->. exists (newMessages s'). split; [done|]. rewrite Hx, Hc', Hp; [by rewrite app_nil_r|].
  by rewrite Hp.
Qed.

(** unless [prepareNextTurn] replaces the context, the context is the one given and
    the run's messages so far, and each request to the model was for such a context:
    nothing is lost, repeated or reordered on its way to the model. *)
Theorem context_follows prompts context config ab h s :
  runs validate clock (λ s a, starts_once s a ∧ keeps_context a) (runAgentLoop prompts context config ab) h s →
  (control s ≠ Rejected → cx_messages (st_context s) = cx_messages context ++ newMessages s ++ partial_of (control s)) ∧
  ∀ r, r ∈ requests s → ∃ sent, sent `prefix_of` newMessages s ∧ cx_messages (rq_context r) = cx_messages context ++ sent.
Proof. apply context_kept. Qed.
End properties.

(** ** Instances *)

(** A run given by its answers. *)
Fixpoint follow (validate : AgentTool → AgentToolCall → result string json) (clock : nat → Z) (P : State → Answer → Prop)
    (s : State) (answers : list Answer) : Prop :=
  match answers with
  | [] => True
  | a :: answers =>
      P s a ∧ match step validate clock s a with Some s' => follow validate clock P s' answers | None => False end
  end.

Lemma follow_runs validate clock P s0 h s answers :
  runs validate clock P s0 h s → follow validate clock P s answers →
  ∃ s', run_answers validate clock s answers = Some s' ∧ runs validate clock P s0 (h ++ answers) s'.
Proof.
  unfold run_answers. revert h s. induction answers as [|a answers IH]; intros h s Hr Hf; [exists s; by rewrite app_nil_r|].
  destruct Hf as [HP Hf]. destruct (step validate clock s a) as [s1|] eqn:E; [|done].
  destruct (IH (h ++ [a]) s1) as (s' & H1 & H2); [by econstructor|done|]. exists s'. cbn. rewrite E. split; [done|].
  by rewrite <- app_assoc in H2.
Qed.

Definition sample_call (id : string) : AgentToolCall := mkToolCall id "echo" TNull.
Definition sample_message (stop : StopReason) (calls : list AgentToolCall) : AssistantMessage :=
  mkAssistant (ContentToolCall <$> calls) "p" "m" stop None TNull.
Definition sample_result : AgentToolResult := mkResult (Some (TArray [])) None None [] None.
Definition sample_user (n : Z) : Message := MOther (UserMessage (PlainText "hi") n).
Definition sample_config : AgentLoopConfig := mkConfig TNull None false true false.
Definition sample_context : AgentContext := mkContext "" [] [mkTool "echo" false None].
Definition accept (t : AgentTool) (c : AgentToolCall) : result string json := Ok (tc_arguments c).
Definition sample_start : State := runAgentLoop [sample_user 0] sample_context sample_config false.

(** Two calls that run in parallel and finish in the other order, a steering message,
    and a last answer. *)
Definition sample_answers : list Answer :=
  let m := sample_message toolUse [sample_call "a"; sample_call "b"] in
  [Messages []; StreamStart m; StreamEnd m; Continue; Before (Ok None); Continue; Continue; Before (Ok None); Continue;
   Executed 1 (Ok sample_result); Executed 0 (Err "failed"); Stop false; Messages [sample_user 1]; TurnUpdate None;
   StreamEnd (sample_message stop []); Stop false; Messages []; Messages []].

Definition sample_policy (p : PreparedToolCall) : Prop := tc_name (pr_call p) = "echo".
Definition sample_contract (s : State) (a : Answer) : Prop :=
  (starts_once s a ∧ keeps_context a) ∧ contract sample_policy (λ t, t_name t = "echo") s a.

Definition sample_clock (n : nat) : Z := 0.

Lemma sample_follows : follow accept sample_clock sample_contract sample_start sample_answers.
Proof.
  unfold sample_answers, sample_message.
  repeat (split; [split; [split; exact I|first [exact I|intros _; exact eq_refl]]|]; vm_compute step).
  exact I.
Qed.

Definition sample_final : State := default sample_start (run_answers accept sample_clock sample_start sample_answers).

Lemma sample_runs (P : State → Answer → Prop) :
  (∀ s a, sample_contract s a → P s a) → runs accept sample_clock P sample_start sample_answers sample_final.
Proof.
  intros HP. destruct (follow_runs accept sample_clock sample_contract sample_start [] sample_start sample_answers) as (s & H1 & H2);
    [constructor|apply sample_follows|]. unfold sample_final. rewrite H1. by eapply runs_weaken.
Qed.


Lemma sample_turn : ∃ rs, turn_end (sample_message toolUse [sample_call "a"; sample_call "b"]) rs ∈ events sample_final ∧ length rs = 2%nat.
Proof. eexists. split; [eapply (list_elem_of_lookup_2 _ 14); vm_compute; reflexivity|reflexivity]. Qed.

Lemma tool_results_paired_witness :
  ∃ m rs, turn_end m rs ∈ events sample_final ∧ trm_toolCallId <$> rs `prefix_of` ["a"; "b"] ∧ length rs = 2%nat.
Proof.
  destruct sample_turn as (rs & Hin & Hl). eexists _, rs. split; [exact Hin|]. split; [|exact Hl].
  exact (proj1 (tool_results_paired accept sample_clock _ _ _ _ _ _ _ rs (sample_runs starts_once (λ s a H, proj1 (proj1 H))) Hin)).
Defined.


Lemma queued_delivered_witness :
  control sample_final = Returned ∧ others (newMessages sample_final) = [UserMessage (PlainText "hi") 0; UserMessage (PlainText "hi") 1].
Proof.
  destruct (queued_delivered accept sample_clock _ _ _ _ _ _ (sample_runs starts_once (λ s a H, proj1 (proj1 H)))) as [H1 H2].
  split; [reflexivity|]. rewrite (H2 eq_refl), app_nil_r in H1. rewrite H1. reflexivity.
Defined.

Lemma sample_returned : control sample_final = Returned.
Proof. vm_compute. reflexivity. Qed.

Lemma sample_requests : length (requests sample_final) = 2%nat.
Proof. vm_compute. reflexivity. Qed.

Lemma app_none {A} (l base l' : list A) : l = base ++ l' ++ [] → l = base ++ l'.
Proof. by rewrite app_nil_r. Qed.

Lemma context_follows_witness :
  cx_messages (st_context sample_final) = cx_messages sample_context ++ newMessages sample_final ∧ length (requests sample_final) = 2%nat ∧
  ∀ r, r ∈ requests sample_final → ∃ sent, sent `prefix_of` newMessages sample_final ∧ cx_messages (rq_context r) = cx_messages sample_context ++ sent.
Proof.
  destruct (context_follows accept sample_clock [sample_user 0] sample_context sample_config false sample_answers sample_final
    (sample_runs (λ s a, starts_once s a ∧ keeps_context a) (λ s a H, proj1 H))) as [H1 H2].
  split; [|split; [exact sample_requests|exact H2]]. rewrite sample_returned in H1. exact (app_none _ _ _ (H1 ltac:(discriminate))).
Defined.
