(* ===== verification/Agent.v ===== *)
(** The stateful agent: [cli/packages/agent/src/agent.ts], over the loop of [AgentLoop].

    An agent with a run in progress holds the state of its loop.  [advance] answers what
    the loop waits for: from the queues where the loop polls them, from the
    environment otherwise; then it reduces the new events as [processEvents] does, and
    ends the run when the loop has.  Listeners only observe: their promises are the
    awaits of the loop, and they do not throw. *)
From S2P Require Import Prelude JsValue JsMap Json SessionTypes Regex Retry AgentLoop.
Open Scope Z_scope.

(** ** Queues *)

Inductive QueueMode := all_ | one_at_a_time.

Record PendingMessageQueue := mkQueue { pq_messages : list Message; pq_mode : QueueMode }.

Definition enqueue (q : PendingMessageQueue) (m : Message) : PendingMessageQueue := mkQueue (pq_messages q ++ [m]) (pq_mode q).

Definition hasItems (q : PendingMessageQueue) : bool := match pq_messages q with [] => false | _ => true end.

Definition drain (q : PendingMessageQueue) : list Message * PendingMessageQueue :=
  match pq_mode q with
  | all_ => (pq_messages q, mkQueue [] all_)
  | one_at_a_time =>
      match pq_messages q with
      | [] => ([], q)
      | first :: rest => ([first], mkQueue rest one_at_a_time)
      end
  end.

Definition clear (q : PendingMessageQueue) : PendingMessageQueue := mkQueue [] (pq_mode q).

(** ** The agent *)

(** A run: its loop, and whether the next poll for steering is skipped. *)
Record ActiveRun := mkRun { run_loop : State; run_skip : bool }.

Record Agent := mkAgent {
  ag_systemPrompt : string;
  ag_model : json;
  ag_thinkingLevel : string;
  ag_tools : list AgentTool;
  ag_messages : list Message;
  ag_isStreaming : bool;
  ag_streamingMessage : option Message;
  ag_pendingToolCalls : list string;
  ag_errorMessage : option jsstr;
  ag_steering : PendingMessageQueue;
  ag_followUp : PendingMessageQueue;
  ag_activeRun : option ActiveRun;
  ag_sequential : bool;                  (* toolExecution *)
  ag_before : bool;                      (* beforeToolCall is set *)
  ag_after : bool }.

Definition DEFAULT_MODEL : json :=
  let zero := TNum (NInt 0) in
  let unknown := TText (js_lit "unknown") in
  TMap [(js_lit "id", unknown); (js_lit "name", unknown); (js_lit "api", unknown); (js_lit "provider", unknown); (js_lit "baseUrl", TText []);
        (js_lit "reasoning", TBool false); (js_lit "input", TArray []);
        (js_lit "cost", TMap [(js_lit "input", zero); (js_lit "output", zero); (js_lit "cacheRead", zero); (js_lit "cacheWrite", zero)]);
        (js_lit "contextWindow", zero); (js_lit "maxTokens", zero)].

Definition defaultConvertToLlm (messages : list Message) : list Message :=
  List.filter (λ m, match m with MAssistant _ | MToolResult _ => true | MOther m => bool_decide (role m = RUser ∨ role m = RAssistant ∨ role m = RToolResult) end) messages.

(** [createMutableAgentState] and the constructor. *)
Definition new_Agent (systemPrompt : option string) (model : option json) (thinkingLevel : option string) (tools : list AgentTool) (messages : list Message)
    (steeringMode followUpMode : option QueueMode) (sequential before after : bool) : Agent :=
  mkAgent (default EmptyString systemPrompt) (default DEFAULT_MODEL model) (default "off" thinkingLevel) tools messages false None [] None
    (mkQueue [] (default one_at_a_time steeringMode)) (mkQueue [] (default one_at_a_time followUpMode)) None sequential before after.

Definition with_runtime (a : Agent) (messages : list Message) (streaming : bool) (streamingMessage : option Message) (pending : list string)
    (error : option jsstr) (run : option ActiveRun) : Agent :=
  mkAgent (ag_systemPrompt a) (ag_model a) (ag_thinkingLevel a) (ag_tools a) messages streaming streamingMessage pending error
    (ag_steering a) (ag_followUp a) run (ag_sequential a) (ag_before a) (ag_after a).

Definition with_queues (a : Agent) (steering followUp : PendingMessageQueue) : Agent :=
  mkAgent (ag_systemPrompt a) (ag_model a) (ag_thinkingLevel a) (ag_tools a) (ag_messages a) (ag_isStreaming a) (ag_streamingMessage a)
    (ag_pendingToolCalls a) (ag_errorMessage a) steering followUp (ag_activeRun a) (ag_sequential a) (ag_before a) (ag_after a).

Definition with_run (a : Agent) (run : option ActiveRun) : Agent :=
  with_runtime a (ag_messages a) (ag_isStreaming a) (ag_streamingMessage a) (ag_pendingToolCalls a) (ag_errorMessage a) run.

(** The setters of [state] and of the queue modes. *)
Definition set_state (a : Agent) (systemPrompt : string) (model : json) (thinkingLevel : string) (tools : list AgentTool) (messages : list Message) : Agent :=
  mkAgent systemPrompt model thinkingLevel tools messages (ag_isStreaming a) (ag_streamingMessage a) (ag_pendingToolCalls a) (ag_errorMessage a)
    (ag_steering a) (ag_followUp a) (ag_activeRun a) (ag_sequential a) (ag_before a) (ag_after a).

Definition set_modes (a : Agent) (steeringMode followUpMode : QueueMode) : Agent :=
  with_queues a (mkQueue (pq_messages (ag_steering a)) steeringMode) (mkQueue (pq_messages (ag_followUp a)) followUpMode).

Definition steer (a : Agent) (m : Message) : Agent := with_queues a (enqueue (ag_steering a) m) (ag_followUp a).
Definition followUp (a : Agent) (m : Message) : Agent := with_queues a (ag_steering a) (enqueue (ag_followUp a) m).
Definition clearSteeringQueue (a : Agent) : Agent := with_queues a (clear (ag_steering a)) (ag_followUp a).
Definition clearFollowUpQueue (a : Agent) : Agent := with_queues a (ag_steering a) (clear (ag_followUp a)).
Definition clearAllQueues (a : Agent) : Agent := clearFollowUpQueue (clearSteeringQueue a).
Definition hasQueuedMessages (a : Agent) : bool := hasItems (ag_steering a) || hasItems (ag_followUp a).

Definition abort (a : Agent) : Agent :=
  match ag_activeRun a with
  | Some r => with_run a (Some (mkRun (set_aborted (run_loop r)) (run_skip r)))
  | None => a
  end.

Inductive AgentError := AlreadyProcessing | NoMessagesToContinue | CannotContinueFromAssistant.

Definition reset (a : Agent) : result AgentError Agent :=
  match ag_activeRun a with
  | Some _ => Err AlreadyProcessing
  | None => Ok (clearSteeringQueue (clearFollowUpQueue (with_runtime a [] false None [] None None)))
  end.

(** ** Events *)

Definition remove_call (id : string) (ids : list string) : list string := filter (λ x, x ≠ id) ids.
Definition add_call_id (id : string) (ids : list string) : list string := if bool_decide (id ∈ ids) then ids else ids ++ [id].

Definition processEvents (a : Agent) (e : AgentEvent) : Agent :=
  let update messages streamingMessage pending error :=
    with_runtime a messages (ag_isStreaming a) streamingMessage pending error (ag_activeRun a) in
  match e with
  | message_start m => update (ag_messages a) (Some m) (ag_pendingToolCalls a) (ag_errorMessage a)
  | message_update m => update (ag_messages a) (Some (MAssistant m)) (ag_pendingToolCalls a) (ag_errorMessage a)
  | message_end m => update (ag_messages a ++ [m]) None (ag_pendingToolCalls a) (ag_errorMessage a)
  | tool_execution_start call => update (ag_messages a) (ag_streamingMessage a) (add_call_id (tc_id call) (ag_pendingToolCalls a)) (ag_errorMessage a)
  | tool_execution_end call _ _ => update (ag_messages a) (ag_streamingMessage a) (remove_call (tc_id call) (ag_pendingToolCalls a)) (ag_errorMessage a)
  | turn_end m _ =>
      update (ag_messages a) (ag_streamingMessage a) (ag_pendingToolCalls a)
        (match truthy_text (errorMessage m) with Some text => Some text | None => ag_errorMessage a end)
  | agent_end _ => update (ag_messages a) None (ag_pendingToolCalls a) (ag_errorMessage a)
  | agent_start | turn_start | tool_execution_update _ _ => a
  end.

(** ** Runs *)

Definition createContextSnapshot (a : Agent) : AgentContext := mkContext (ag_systemPrompt a) (ag_messages a) (ag_tools a).

Definition createLoopConfig (a : Agent) : AgentLoopConfig :=
  mkConfig (ag_model a) (if bool_decide (ag_thinkingLevel a = "off") then None else Some (ag_thinkingLevel a))
    (ag_sequential a) (ag_before a) (ag_after a).

(** [runWithLifecycle], up to the first await of the loop. *)
Definition begin_run (a : Agent) (loop : State) (skip : bool) : Agent :=
  let a := with_runtime a (ag_messages a) true None (ag_pendingToolCalls a) None (Some (mkRun loop skip)) in
  foldl processEvents a (events loop).

Definition finishRun (a : Agent) : Agent := with_runtime a (ag_messages a) false None [] (ag_errorMessage a) None.

Definition EMPTY_USAGE : json :=
  let zero := TNum (NInt 0) in
  TMap [(js_lit "input", zero); (js_lit "output", zero); (js_lit "cacheRead", zero); (js_lit "cacheWrite", zero); (js_lit "totalTokens", zero);
        (js_lit "cost", TMap [(js_lit "input", zero); (js_lit "output", zero); (js_lit "cacheRead", zero); (js_lit "cacheWrite", zero); (js_lit "total", zero)])].

Definition string_of_units (s : jsstr) : string := String.string_of_list_ascii ((λ u, Ascii.ascii_of_N (Z.to_N u)) <$> s).

Definition model_text (model : json) (name : string) : jsstr :=
  match model with TMap o => match map_get o (js_lit name) with Some (TText s) => s | _ => [] end | _ => [] end.

Definition failureMessage (a : Agent) (error : jsstr) (aborted_ : bool) (now : Z) : AssistantMessage :=
  mkAssistant [ContentText EmptyString] (string_of_units (model_text (ag_model a) "provider")) (string_of_units (model_text (ag_model a) "id"))
    (if aborted_ then aborted else error_) None
    (TMap [(js_lit "api", TText (model_text (ag_model a) "api")); (js_lit "usage", EMPTY_USAGE); (js_lit "errorMessage", TText error);
           (js_lit "timestamp", TNum (NInt now))]).

Definition failure_events (m : AssistantMessage) : list AgentEvent :=
  [message_start (MAssistant m); message_end (MAssistant m); turn_end m []; agent_end [MAssistant m]].

Definition handleRunFailure (a : Agent) (error : jsstr) (aborted_ : bool) (now : Z) : Agent :=
  foldl processEvents a (failure_events (failureMessage a error aborted_ now)).

Definition runPromptMessages (a : Agent) (messages : list Message) (skip : bool) : result AgentError Agent :=
  match ag_activeRun a with
  | Some _ => Err AlreadyProcessing
  | None => Ok (begin_run a (runAgentLoop messages (createContextSnapshot a) (createLoopConfig a) false) skip)
  end.

(** The loop checks the last message again, which [continue] has. *)
Definition runContinuation (a : Agent) (now : Z) : result AgentError Agent :=
  match ag_activeRun a with
  | Some _ => Err AlreadyProcessing
  | None =>
      match runAgentLoopContinue (createContextSnapshot a) (createLoopConfig a) false with
      | Ok loop => Ok (begin_run a loop false)
      | Err e =>
          let text := match e with NoMessages => "Cannot continue: no messages in context" | LastIsAssistant => "Cannot continue from message role: assistant" end in
          let a := with_runtime a (ag_messages a) true None (ag_pendingToolCalls a) None None in
          Ok (finishRun (handleRunFailure a (js_lit text) false now))
      end
  end.

Inductive PromptInput :=
| PromptText (text : string) (images : list Content)
| PromptMessage (m : Message)
| PromptMessages (ms : list Message).

Definition normalizePromptInput (input : PromptInput) (now : Z) : list Message :=
  match input with
  | PromptMessages ms => ms
  | PromptMessage m => [m]
  | PromptText text images => [MOther (UserMessage (Parts (ContentText text :: images)) now)]
  end.

Definition prompt (a : Agent) (input : PromptInput) (now : Z) : result AgentError Agent :=
  match ag_activeRun a with
  | Some _ => Err AlreadyProcessing
  | None => runPromptMessages a (normalizePromptInput input now) false
  end.

(** [continue]: the agent after it, also where it throws. *)
Definition continue_ (a : Agent) (now : Z) : Agent * option AgentError :=
  let started r a := match r with Ok a' => (a', None) | Err e => (a, Some e) end in
  match ag_activeRun a with
  | Some _ => (a, Some AlreadyProcessing)
  | None =>
      match last (ag_messages a) with
      | None => (a, Some NoMessagesToContinue)
      | Some (MAssistant _) =>
          let '(queuedSteering, steering) := drain (ag_steering a) in
          let a := with_queues a steering (ag_followUp a) in
          match queuedSteering with
          | _ :: _ => started (runPromptMessages a queuedSteering true) a
          | [] =>
              let '(queuedFollowUps, follow) := drain (ag_followUp a) in
              let a := with_queues a (ag_steering a) follow in
              match queuedFollowUps with
              | _ :: _ => started (runPromptMessages a queuedFollowUps false) a
              | [] => (a, Some CannotContinueFromAssistant)
              end
          end
      | Some _ => started (runContinuation a now) a
      end
  end.

(** ** The run goes on *)

Section advance.
Context (validate : AgentTool → AgentToolCall → result string json) (clock : nat → Z).

(** What the loop waits for from the queues: [getSteeringMessages] and
    [getFollowUpMessages]. *)
Definition poll (a : Agent) (r : ActiveRun) : option (list Message * Agent * ActiveRun) :=
  match control (run_loop r) with
  | AtSteeringFirst | AtSteeringAgain | AtSteering =>
      if run_skip r then Some ([], a, mkRun (run_loop r) false)
      else let '(ms, q) := drain (ag_steering a) in Some (ms, with_queues a q (ag_followUp a), r)
  | AtFollowUp => let '(ms, q) := drain (ag_followUp a) in Some (ms, with_queues a (ag_steering a) q, r)
  | _ => None
  end.

(** The loop has moved to [s']. *)
Definition settle (a : Agent) (r : ActiveRun) (s' : State) (error : jsstr) (now : Z) : Agent :=
  let a := with_run a (Some (mkRun s' (run_skip r))) in
  let a := foldl processEvents a (drop (length (events (run_loop r))) (events s')) in
  match control s' with
  | Returned => finishRun a
  | Rejected => finishRun (handleRunFailure a error (signal_aborted s') now)
  | _ => a
  end.

(** One answer to the loop; [answer] is ignored where a queue is polled.  [error] is
    what a party that breaks its contract throws. *)
Definition advance (a : Agent) (answer : Answer) (error : jsstr) (now : Z) : option Agent :=
  match ag_activeRun a with
  | None => None
  | Some r =>
      match poll a r with
      | Some (ms, a, r) => match step validate clock (run_loop r) (Messages ms) with Some s' => Some (settle a r s' error now) | None => None end
      | None =>
          match answer with
          | Messages _ => None
          | _ => match step validate clock (run_loop r) answer with Some s' => Some (settle a r s' error now) | None => None end
          end
      end
  end.
End advance.
