(* ===== verification/AgentSpec.v ===== *)
(** The agent keeps to its loop: one run at a time, and a transcript that is what the
    loop announced and what the model is asked with. *)
From S2P Require Import Prelude JsValue JsMap Json SessionTypes Regex Retry AgentLoop AgentLoopSpec Agent.
Open Scope Z_scope.

(** ** The loop only adds events *)

Definition extends (s s' : State) : Prop := events s `prefix_of` events s'.

Create HintDb extends_db.

Lemma extends_refl s s' : events s' = events s → extends s s'.
Proof. unfold extends. by intros ->. Qed.
Lemma extends_trans s s1 s' : extends s s1 → extends s1 s' → extends s s'.
Proof. unfold extends. by etrans. Qed.
Lemma extends_emit s es : extends s (emit s es).
Proof. by apply prefix_app_r. Qed.

(** [s'] is [f] applied to a state that extends [s]. *)
Ltac extending lemma := eapply extends_trans; [|apply lemma]; first [apply extends_emit|by apply extends_refl|idtac].

Lemma extends_finish s : extends s (finish s).
Proof. unfold finish. eapply extends_trans; [apply extends_emit|by apply extends_refl]. Qed.
Lemma extends_finish_turn s m rs : extends s (finish_turn s m rs).
Proof. apply (extends_emit s [turn_end m rs]). Qed.
Lemma extends_batch_done s m rs t : extends s (batch_done s m rs t).
Proof. unfold batch_done. extending extends_finish_turn. Qed.
Lemma extends_inject s : extends s (inject s).
Proof. apply (extends_emit s (pendingMessages s ≫= announce)). Qed.
Lemma extends_loop_head s : extends s (loop_head s).
Proof. unfold loop_head. destruct (_ || _); [destruct (completedTurn s); [by apply extends_refl|apply extends_inject]|by apply extends_refl]. Qed.

Section extends.
Context (validate : AgentTool → AgentToolCall → result string json) (clock : nat → Z).

Lemma extends_seq_finalized s m rest fins msgs f : extends s (seq_finalized clock s m rest fins msgs f).
Proof.
  unfold seq_finalized. set (s1 := emit s _). apply extends_trans with s1; [apply extends_emit|].
  eapply extends_trans; [apply extends_emit|by apply extends_refl].
Qed.
Lemma extends_seq_prepared s m c rest fins msgs p : extends s (seq_prepared clock s m c rest fins msgs p).
Proof. destruct p; cbn [seq_prepared]; [apply extends_seq_finalized|by apply extends_refl..]. Qed.
Lemma extends_seq_next s m calls fins msgs : extends s (seq_next s m calls fins msgs).
Proof. destruct calls; cbn [seq_next]; [apply extends_batch_done|]. eapply extends_trans; [apply extends_emit|by apply extends_refl]. Qed.
Lemma extends_par_check s m entries : extends s (par_check clock s m entries).
Proof. unfold par_check. case_match; [|by apply extends_refl]. extending extends_batch_done. Qed.
Lemma extends_par_start s m entries : extends s (par_start clock s m entries).
Proof. unfold par_start. extending extends_par_check. Qed.
Lemma extends_preflight_prepared s m c rest entries p : extends s (preflight_prepared s m c rest entries p).
Proof. destruct p; cbn [preflight_prepared]; [|by apply extends_refl..]. eapply extends_trans; [apply extends_emit|by apply extends_refl]. Qed.
Lemma extends_preflight_next s m calls entries : extends s (preflight_next clock s m calls entries).
Proof. destruct calls; cbn [preflight_next]; [apply extends_par_start|]. eapply extends_trans; [apply extends_emit|by apply extends_refl]. Qed.
Lemma extends_set_entry s es m entries i e : extends s (set_entry clock (emit s es) m entries i e).
Proof. unfold set_entry. extending extends_par_check. Qed.
Lemma extends_fail_truncated s calls msgs : extends s (fail_truncated clock s calls msgs).1.
Proof.
  revert s msgs. induction calls as [|c calls IH]; intros s msgs; cbn [fail_truncated]; [by apply extends_refl|].
  eapply extends_trans; [|apply IH]. eapply extends_trans; apply extends_emit.
Qed.
Lemma extends_response_done s m : extends s (response_done clock s m).
Proof.
  unfold response_done. set (s1 := push_new s _). assert (extends s s1) as H1 by by apply extends_refl.
  destruct (stopped m); [eapply extends_trans; [apply (extends_emit s1)|apply extends_finish]|].
  set (s2 := set_pending s1 _ _). assert (extends s s2) as H2 by by apply extends_refl. destruct (toolCalls_of m) as [|c cs]; [apply (extends_finish_turn s2)|].
  case_match.
  - pose proof (extends_fail_truncated s2 (c :: cs) []) as H3. destruct (fail_truncated clock s2 (c :: cs) []) as [s3 msgs].
    eapply extends_trans; [exact H2|]. eapply extends_trans; [exact H3|]. apply extends_batch_done.
  - eapply extends_trans; [exact H2|]. unfold executeToolCalls. case_match; [apply extends_seq_next|apply extends_preflight_next].
Qed.
Lemma extends_stream_end s partial final : extends s (stream_end clock s partial final).
Proof. unfold stream_end. destruct partial; extending extends_response_done; apply (extends_emit (set_messages s _)). Qed.

Hint Resolve extends_finish extends_finish_turn extends_batch_done extends_inject extends_loop_head extends_seq_finalized extends_seq_prepared
  extends_seq_next extends_par_start extends_preflight_prepared extends_preflight_next extends_set_entry extends_stream_end extends_emit : extends_db.

Lemma seq_step_extends s m rest fins msgs stage a s' : seq_step validate clock s m rest fins msgs stage a = Some s' → extends s s'.
Proof.
  intros H. destruct stage, a; try done; cbn [seq_step] in H; repeat case_match; simplify_eq; auto with extends_db; by apply extends_refl.
Qed.

Lemma preflight_step_extends s m rest entries stage a s' : preflight_step validate clock s m rest entries stage a = Some s' → extends s s'.
Proof.
  intros H. destruct stage, a; try done; cbn [preflight_step] in H; repeat case_match; simplify_eq; auto with extends_db; by apply extends_refl.
Qed.

Lemma parallel_step_extends s m entries a s' : parallel_step clock s m entries a = Some s' → extends s s'.
Proof.
  intros H. destruct a; try done; cbn [parallel_step] in H; (destruct (entries !! i) as [e|]; [|done]); destruct e; try done.
  - injection H as <-. apply extends_emit.
  - destruct (cf_afterToolCall (st_config s)); injection H as <-; [apply extends_par_check|apply extends_set_entry].
  - injection H as <-. apply extends_set_entry.
Qed.

Lemma step_extends s a s' : step validate clock s a = Some s' → extends s s'.
Proof.
  intros H. unfold step in H. destruct (control s) as [| | |partial|m rest fins msgs stage|m rest entries stage|m entries| | | | |] eqn:Ec.
  5: destruct a; first [by injection H as <-; apply extends_refl|by eapply seq_step_extends].
  5: destruct a; first [by injection H as <-; apply extends_refl|by eapply preflight_step_extends].
  5: destruct a; first [by injection H as <-; apply extends_refl|by eapply parallel_step_extends].
  all: destruct a; try done; try (injection H as <-; by apply extends_refl);
    try (destruct partial; first [done|injection H as <-; first [by apply extends_refl|apply extends_stream_end|apply (extends_emit (set_messages s _))]]).
  - injection H as <-. apply (extends_loop_head (set_pending s messages true)).
  - assert (events (apply_update s update) = events s) as E by (by destruct update as [[]|]).
    destruct (pendingMessages (apply_update s update)); injection H as <-; [by apply extends_refl|].
    eapply extends_trans; [apply (extends_refl s (apply_update s update) E)|]. eapply extends_trans; [apply extends_emit|apply extends_inject].
  - injection H as <-. eapply extends_trans; [apply (extends_emit (set_pending s messages (hasMoreToolCalls s)) [turn_start])|apply extends_inject].
  - assert (s' = stream_end clock s partial final) as -> by (by destruct partial; injection H). apply extends_stream_end.
  - injection H as <-. destruct stop; [apply extends_finish|by apply extends_refl].
  - injection H as <-. apply (extends_loop_head (set_pending s messages (hasMoreToolCalls s))).
  - destruct messages; injection H as <-; [apply extends_finish|apply (extends_loop_head (set_pending s _ true))].
Qed.
End extends.

(** ** Only a party that throws makes the loop throw *)

Definition throws (s : State) : Prop := control s = Rejected.

Section throws.
Context (validate : AgentTool → AgentToolCall → result string json) (clock : nat → Z).

Lemma loop_head_throws s : ¬ throws (loop_head s).
Proof. unfold throws, loop_head. destruct (_ || _); [|done]. by destruct (completedTurn s). Qed.
Lemma seq_prepared_throws s m c rest fins msgs p : ¬ throws (seq_prepared clock s m c rest fins msgs p).
Proof. by destruct p. Qed.
Lemma seq_next_throws s m calls fins msgs : ¬ throws (seq_next s m calls fins msgs).
Proof. by destruct calls. Qed.
Lemma par_check_throws s m entries : ¬ throws (par_check clock s m entries).
Proof. unfold throws, par_check. by case_match. Qed.
Lemma preflight_prepared_throws s m c rest entries p : ¬ throws (preflight_prepared s m c rest entries p).
Proof. by destruct p. Qed.
Lemma preflight_next_throws s m calls entries : ¬ throws (preflight_next clock s m calls entries).
Proof. destruct calls; [apply par_check_throws|done]. Qed.
Lemma response_done_throws s m : ¬ throws (response_done clock s m).
Proof.
  unfold throws, response_done. destruct (stopped m); [done|]. destruct (toolCalls_of m) as [|c cs]; [done|]. case_match; [by destruct (fail_truncated _ _ _ _)|].
  unfold executeToolCalls. case_match; [apply seq_next_throws|apply preflight_next_throws].
Qed.

Hint Resolve loop_head_throws seq_prepared_throws seq_next_throws par_check_throws preflight_prepared_throws preflight_next_throws response_done_throws : extends_db.

Lemma step_throws s a s' : step validate clock s a = Some s' → ¬ throws s → a ≠ Rejects → ¬ throws s'.
Proof.
  intros H Hn Ha. unfold step in H. destruct (control s) as [| | |partial|m rest fins msgs stage|m rest entries stage|m entries| | | | |] eqn:Ec.
  5: { destruct a; try (injection H as <-; done); destruct stage; try done; cbn [seq_step] in H; repeat case_match; simplify_eq; auto with extends_db; unfold throws; cbn; congruence. }
  5: { destruct a; try (injection H as <-; done); destruct stage; try done; cbn [preflight_step] in H; repeat case_match; simplify_eq; auto with extends_db; unfold throws; cbn; apply par_check_throws. }
  5: { destruct a; try (injection H as <-; done); cbn [parallel_step] in H; try done; (destruct (entries !! i) as [e|]; [|done]); destruct e; try done.
       - injection H as <-. unfold throws. cbn. congruence.
       - destruct (cf_afterToolCall (st_config s)); injection H as <-; apply par_check_throws.
       - injection H as <-. apply par_check_throws. }
  all: destruct a; try done; try (injection H as <-; done); try (destruct partial; first [done|injection H as <-; unfold throws in *; cbn; congruence]).
  - injection H as <-. apply loop_head_throws.
  - destruct (pendingMessages (apply_update s update)); by injection H as <-.
  - assert (s' = stream_end clock s partial final) as -> by (by destruct partial; injection H). unfold stream_end. destruct partial; apply response_done_throws.
  - injection H as <-. by destruct stop.
  - injection H as <-. apply loop_head_throws.
  - destruct messages; injection H as <-; [done|apply loop_head_throws].
Qed.
End throws.

(** ** Reducing events *)

Lemma fold_events a es :
  let a' := foldl processEvents a es in
  ag_messages a' = ag_messages a ++ ended es ∧ ag_isStreaming a' = ag_isStreaming a ∧ ag_activeRun a' = ag_activeRun a ∧
  ag_steering a' = ag_steering a ∧ ag_followUp a' = ag_followUp a.
Proof.
  revert a. induction es as [|e es IH]; intros a; cbn [foldl]; [by rewrite app_nil_r|].
  destruct (IH (processEvents a e)) as (-> & -> & -> & -> & ->). destruct e; cbn; rewrite <- ?app_assoc; done.
Qed.

(** ** A run of the agent *)

Definition idle (a : Agent) : Prop := ag_isStreaming a = false ∧ ag_streamingMessage a = None ∧ ag_pendingToolCalls a = [].

Definition queued (a : Agent) : list Message := pq_messages (ag_steering a) ++ pq_messages (ag_followUp a).

(** The messages that the next [advance] takes from a queue. *)
Definition takes (a : Agent) : list Message :=
  match ag_activeRun a with
  | Some r => match poll a r with Some (ms, _, _) => ms | None => [] end
  | None => []
  end.

Lemma drain_queue q : pq_messages q = (drain q).1 ++ pq_messages (drain q).2.
Proof. unfold drain. destruct (pq_mode q); cbn; [by rewrite app_nil_r|]. by destruct (pq_messages q) eqn:E; cbn; rewrite ?E. Qed.

Lemma poll_spec a r ms a' r' :
  poll a r = Some (ms, a', r') →
  run_loop r' = run_loop r ∧ queued a ≡ₚ ms ++ queued a' ∧ ag_messages a' = ag_messages a ∧ ag_isStreaming a' = ag_isStreaming a.
Proof.
  unfold poll, queued. intros H. destruct (control (run_loop r)); try done.
  all: try (destruct (run_skip r); [injection H as <- <- <-; done|];
    pose proof (drain_queue (ag_steering a)) as Hd; destruct (drain (ag_steering a)) as [x q]; injection H as <- <- <-; cbn in *;
    split_and!; [done|by rewrite Hd, <- app_assoc|done|done]).
  pose proof (drain_queue (ag_followUp a)) as Hd; destruct (drain (ag_followUp a)) as [x q]; injection H as <- <- <-; cbn in *.
  split_and!; [done| |done|done]. rewrite Hd. rewrite !app_assoc. by rewrite (Permutation_app_comm (pq_messages (ag_steering a)) x).
Qed.

Definition over (s : State) : Prop := control s = Returned ∨ control s = Rejected.

(** What a run that threw adds to the transcript. *)
Definition failure_tail (s : State) (tail : list Message) : Prop :=
  (control s = Returned ∧ tail = []) ∨ (control s = Rejected ∧ ∃ m, tail = [MAssistant m]).

Lemma settle_messages a r s' error now :
  extends (run_loop r) s' →
  queued (settle a r s' error now) = queued a ∧
  ∃ tail, ag_messages (settle a r s' error now) = ag_messages a ++ ended (drop (length (events (run_loop r))) (events s')) ++ tail ∧
  match ag_activeRun (settle a r s' error now) with
  | Some r' => r' = mkRun s' (run_skip r) ∧ ¬ over s' ∧ tail = [] ∧ ag_isStreaming (settle a r s' error now) = ag_isStreaming a
  | None => failure_tail s' tail ∧ idle (settle a r s' error now)
  end.
Proof.
  intros He. unfold settle, queued, failure_tail, over, idle. set (a1 := with_run a _). set (es := drop _ _).
  destruct (fold_events a1 es) as (E1 & E2 & E3 & E4 & E5). set (a2 := foldl processEvents a1 es) in *. destruct (control s') eqn:Ec.
  12: { set (m := failureMessage a2 error (signal_aborted s') now). destruct (fold_events a2 (failure_events m)) as (F1 & F2 & F3 & F4 & F5).
        unfold handleRunFailure. fold m. cbn -[foldl failure_events]. rewrite F1, F4, F5, E1, E4, E5. split; [done|].
        exists [MAssistant m]. rewrite <- app_assoc. split; [done|]. split; [right; eauto|done]. }
  11: { cbn. rewrite E1, E4, E5. split; [done|]. exists []. rewrite app_nil_r. split; [done|]. split; [by left|done]. }
  all: rewrite E1, E2, E3, E4, E5; cbn; (split; [done|]); exists []; rewrite app_nil_r; split_and!; try done; by intros [].
Qed.

Lemma polled_snoc h ms : polled (h ++ [ms]) = polled h ++ polled_by ms.
Proof. unfold polled. rewrite bind_app. cbn. by rewrite app_nil_r. Qed.

Lemma ended_prefix s s' : extends s s' → ended (events s) ++ ended (drop (length (events s)) (events s')) = ended (events s').
Proof. intros [es E]. rewrite E, drop_app_length. unfold ended. by rewrite omap_app. Qed.

(** [allowed] is what the other parties keep to; polls of the queues and aborts are
    always possible. *)
Section run.
Context (validate : AgentTool → AgentToolCall → result string json) (clock : nat → Z) (allowed : State → Answer → Prop).

(** A run from the idle agent [a0], and what is done with the agent meanwhile: [given] is
    queued, [taken] is what the loop has taken from the queues. *)
Inductive during (a0 : Agent) (prompts : list Message) : list Message → list Message → Agent → Prop :=
| during_prompt a skip : runPromptMessages a0 prompts skip = Ok a → during a0 prompts [] [] a
| during_continue loop : prompts = [] → ag_activeRun a0 = None →
    runAgentLoopContinue (createContextSnapshot a0) (createLoopConfig a0) false = Ok loop → during a0 prompts [] [] (begin_run a0 loop false)
| during_steer given taken a m : during a0 prompts given taken a → during a0 prompts (given ++ [m]) taken (steer a m)
| during_followUp given taken a m : during a0 prompts given taken a → during a0 prompts (given ++ [m]) taken (followUp a m)
| during_modes given taken a m1 m2 : during a0 prompts given taken a → during a0 prompts given taken (set_modes a m1 m2)
| during_abort given taken a : during a0 prompts given taken a → during a0 prompts given taken (abort a)
| during_advance given taken a answer error now a' :
    during a0 prompts given taken a → (∀ r, ag_activeRun a = Some r → allowed (run_loop r) answer) →
    advance validate clock a answer error now = Some a' → during a0 prompts given (taken ++ takes a) a'.

Context (poll_allowed : ∀ s ms, allowed s (Messages ms)) (abort_allowed : ∀ s, allowed s Abort).

(** The loop's state behind the agent. *)
Definition tracks (a0 : Agent) (prompts taken : list Message) (s : State) : Prop :=
  ∃ h, runs validate clock allowed (runAgentLoop prompts (createContextSnapshot a0) (createLoopConfig a0) false) h s ∧ polled h = taken.

Definition run_state (a0 : Agent) (prompts taken : list Message) (a : Agent) : Prop :=
  match ag_activeRun a with
  | Some r =>
      tracks a0 prompts taken (run_loop r) ∧ ag_messages a = ag_messages a0 ++ ended (events (run_loop r)) ∧
      ¬ over (run_loop r) ∧ ag_isStreaming a = true
  | None =>
      ∃ s tail, tracks a0 prompts taken s ∧ ag_messages a = ag_messages a0 ++ ended (events s) ++ tail ∧ failure_tail s tail ∧ idle a
  end.

Lemma begin_state a0 prompts skip :
  run_state a0 prompts [] (begin_run a0 (runAgentLoop prompts (createContextSnapshot a0) (createLoopConfig a0) false) skip) ∧
  queued (begin_run a0 (runAgentLoop prompts (createContextSnapshot a0) (createLoopConfig a0) false) skip) = queued a0.
Proof.
  unfold begin_run, run_state, queued. set (loop := runAgentLoop _ _ _ _). set (a := with_runtime _ _ _ _ _ _ _).
  destruct (fold_events a (events loop)) as (E1 & E2 & E3 & E4 & E5). rewrite E3, E4, E5. split; [|done].
  split; [exists []; split; [constructor|done]|]. split; [by rewrite E1|]. split; [by intros []|by rewrite E2].
Qed.

Lemma tracks_step a0 prompts taken a r answer s' error now :
  tracks a0 prompts taken (run_loop r) → ag_messages a = ag_messages a0 ++ ended (events (run_loop r)) → ag_isStreaming a = true →
  allowed (run_loop r) answer → step validate clock (run_loop r) answer = Some s' →
  run_state a0 prompts (taken ++ polled_by answer) (settle a r s' error now) ∧ queued (settle a r s' error now) = queued a.
Proof.
  intros (h & Hh & <-) Hm Hst Hk Hs. pose proof (step_extends validate clock _ _ _ Hs) as He.
  assert (tracks a0 prompts (polled h ++ polled_by answer) s') as Ht by (exists (h ++ [answer]); split; [by econstructor|apply polled_snoc]).
  destruct (settle_messages a r s' error now He) as (E1 & tail & E2 & E3). split; [|done]. unfold run_state.
  rewrite Hm, <- app_assoc, (app_assoc _ _ tail), ended_prefix in E2 by done. destruct (ag_activeRun (settle a r s' error now)) as [r'|].
  - destruct E3 as (-> & Ho & -> & Hst'). rewrite app_nil_r in E2. split_and!; [done|done|done|congruence].
  - exists s', tail. by destruct E3.
Qed.

Lemma run_state_other a0 prompts taken a a' :
  ag_messages a' = ag_messages a → ag_isStreaming a' = ag_isStreaming a → ag_streamingMessage a' = ag_streamingMessage a →
  ag_pendingToolCalls a' = ag_pendingToolCalls a → ag_activeRun a' = ag_activeRun a → run_state a0 prompts taken a → run_state a0 prompts taken a'.
Proof. intros E1 E2 E3 E4 E5. unfold run_state, idle. by rewrite E1, E2, E3, E4, E5. Qed.

Lemma aborted_state a0 prompts taken a : run_state a0 prompts taken a → run_state a0 prompts taken (abort a) ∧ queued (abort a) = queued a.
Proof.
  unfold abort. intros Ha. destruct (ag_activeRun a) as [r|] eqn:Er; [|done]. unfold run_state in *. rewrite Er in Ha. cbn. split; [|done].
  destruct Ha as ((h & Hh & <-) & Hm & Ho & Hs). split_and!; [|done|done|done].
  exists (h ++ [Abort]). split; [|rewrite polled_snoc; cbn; by rewrite app_nil_r].
  econstructor; [done|apply abort_allowed|]. unfold step. unfold over in Ho.
  destruct (control (run_loop r)) as [| | |[]| | | | | | | |]; try done; destruct Ho; auto.
Qed.

Lemma during_state a0 prompts given taken a :
  during a0 prompts given taken a → run_state a0 prompts taken a ∧ queued a ++ taken ≡ₚ queued a0 ++ given.
Proof.
  induction 1 as [a skip H|loop -> Hi H|given taken a m H [IH1 IH2]|given taken a m H [IH1 IH2]|given taken a m1 m2 H [IH1 IH2]|given taken a H [IH1 IH2]
    |given taken a answer error now a' H [IH1 IH2] Hk Ha].
  - unfold runPromptMessages in H. destruct (ag_activeRun a0); [done|]. injection H as <-.
    destruct (begin_state a0 prompts skip) as [H1 H2]. by rewrite H2, !app_nil_r.
  - rewrite (continue_is_run _ _ _ _ H). destruct (begin_state a0 [] false) as [H1 H2]. by rewrite H2, !app_nil_r.
  - split; [by eapply run_state_other; [..|exact IH1]|]. unfold queued in *. cbn. rewrite (app_assoc _ given), <- IH2. solve_Permutation.
  - split; [by eapply run_state_other; [..|exact IH1]|]. unfold queued in *. cbn. rewrite (app_assoc _ given), <- IH2. solve_Permutation.
  - split; [by eapply run_state_other; [..|exact IH1]|done].
  - destruct (aborted_state _ _ _ _ IH1) as [H1 H2]. by rewrite H2.
  - unfold advance, run_state, takes in *. destruct (ag_activeRun a) as [r|] eqn:Er; [|done]. destruct IH1 as (Ht & Hm & Ho & Hs). specialize (Hk r eq_refl).
    destruct (poll a r) as [[[ms a1] r1]|] eqn:Ep.
    + destruct (poll_spec _ _ _ _ _ Ep) as (E1 & E2 & E3 & E4). destruct (step validate clock (run_loop r1) (Messages ms)) as [s'|] eqn:Es; [|done].
      injection Ha as <-. destruct (tracks_step a0 prompts taken a1 r1 (Messages ms) s' error now) as [H1 H2]; [by rewrite E1|congruence|congruence|done|done|].
      split; [done|]. rewrite H2, <- IH2, E2. solve_Permutation.
    + rewrite app_nil_r. assert (polled_by answer = []) as Hp by (by destruct answer).
      destruct (step validate clock (run_loop r) answer) as [s'|] eqn:Es; [|by destruct answer]. assert (a' = settle a r s' error now) as -> by (destruct answer; first [done|by injection Ha]).
      destruct (tracks_step a0 prompts taken a r answer s' error now) as [H1 H2]; [done..|]. rewrite Hp, app_nil_r in H1. by rewrite H2.
Qed.

Lemma advance_step a answer error now a' r r' :
  advance validate clock a answer error now = Some a' → ag_activeRun a = Some r → ag_activeRun a' = Some r' → allowed (run_loop r) answer →
  ∃ answer', step validate clock (run_loop r) answer' = Some (run_loop r') ∧ allowed (run_loop r) answer'.
Proof.
  intros Ha Er Er' Hk. unfold advance in Ha. rewrite Er in Ha.
  assert (∀ a1 r1 s', ag_activeRun (settle a1 r1 s' error now) = Some r' → run_loop r' = s') as Hset.
  { intros a1 r1 s'. unfold settle. set (a2 := with_run a1 _). set (es := drop _ _). destruct (fold_events a2 es) as (_ & _ & E & _).
    destruct (control s'); try (rewrite E; cbn; by intros [= <-]); done. }
  destruct (poll a r) as [[[ms a1] r1]|] eqn:Ep.
  - destruct (poll_spec _ _ _ _ _ Ep) as (E1 & _). destruct (step validate clock (run_loop r1) (Messages ms)) as [s'|] eqn:Es; [|done].
    injection Ha as <-. exists (Messages ms). by rewrite (Hset _ _ _ Er'), <- E1.
  - destruct (step validate clock (run_loop r) answer) as [s'|] eqn:Es; [|by destruct answer].
    assert (a' = settle a r s' error now) as -> by (destruct answer; first [done|by injection Ha]). exists answer. by rewrite (Hset _ _ _ Er').
Qed.
End run.

(** ** Properties *)

Section properties.
Context (validate : AgentTool → AgentToolCall → result string json) (clock : nat → Z).

(** The stream of a response starts at most once; [rejects] says whether a hook or a
    stream may throw. *)
Definition may_reject (rejects : bool) (s : State) (answer : Answer) : Prop := starts_once s answer ∧ (rejects = false → answer ≠ Rejects).

(** The stream of a response starts at most once, and [prepareNextTurn] does not replace
    the context. *)
Definition keeps (s : State) (answer : Answer) : Prop := starts_once s answer ∧ keeps_context answer.

Lemma starts_once_polled s ms : starts_once s (Messages ms).
Proof. unfold starts_once. by destruct (control s) as [| | |[]| | | | | | | |]. Qed.
Lemma starts_once_abort s : starts_once s Abort.
Proof. unfold starts_once. by destruct (control s) as [| | |[]| | | | | | | |]. Qed.

Lemma runs_throw s0 h s : ¬ throws s0 → runs validate clock (may_reject false) s0 h s → ¬ throws s.
Proof. intros H0. induction 1 as [|h s a s' _ IH [_ Hk] Hs]; [done|]. eapply step_throws; [exact Hs|done|by apply Hk]. Qed.

(** The loop's messages when it is over: [pendingMessages] are those that were taken and
    not sent. *)
Lemma over_delivered prompts context config ab h s tail :
  runs validate clock starts_once (runAgentLoop prompts context config ab) h s → failure_tail s tail →
  others (ended (events s) ++ tail) ++ others (pendingMessages s) = others (prompts ++ polled h) ∧
  others (pendingMessages s) `suffix_of` others (polled h) ∧ (control s = Returned → pendingMessages s = []).
Proof.
  intros Hr Ht. destruct (run_inv validate clock _ _ _ _ _ _ Hr) as [_ Hat]. destruct (queue_delivery validate clock _ _ _ _ _ _ Hr) as [Hd Hp].
  split; [|split; [|done]]; [|destruct (prompts_first validate clock _ _ _ _ _ _ Hr) as [l El]; exists (others l);
    by rewrite El, <- app_assoc, !(others_app prompts), !others_app in Hd; apply app_inv_head in Hd].
  rewrite <- Hd, !others_app. unfold at_control in Hat. destruct Ht as [[Ec ->]|(Ec & m & ->)]; rewrite Ec in Hat; cbn; rewrite app_nil_r.
  - destruct Hat as (es & He & _ & Hn & _). rewrite He. unfold ended in *. rewrite omap_app. cbn. by rewrite app_nil_r, Hn.
  - destruct Hat as (k & [_ Hn _]). by rewrite Hn.
Qed.



(** While a run is active another cannot start, and nothing changes by trying. *)
Lemma one_run a r input now :
  ag_activeRun a = Some r → prompt a input now = Err AlreadyProcessing ∧ reset a = Err AlreadyProcessing ∧ continue_ a now = (a, Some AlreadyProcessing).
Proof. intros E. unfold prompt, reset, continue_. by rewrite E. Qed.
End properties.

(** ** Instances *)

Definition keepsb (s : State) (answer : Answer) : bool :=
  match answer with
  | Rejects => false
  | StreamStart _ => match control s with AtStream (Some _) => false | _ => true end
  | TurnUpdate (Some u) => match up_context u with None => true | Some _ => false end
  | _ => true
  end.

Lemma keepsb_keeps s answer : keepsb s answer = true → keeps s answer ∧ answer ≠ Rejects.
Proof.
  intros H. split; [split|by destruct answer].
  - unfold starts_once. destruct (control s) as [| | |[]| | | | | | | |] eqn:Ec, answer; try done. unfold keepsb in H. by rewrite Ec in H.
  - unfold keeps_context. destruct answer as [| | | |[u|]| | | | | | | |]; try done. cbn in H. by destruct (up_context u).
Qed.

Fixpoint drive (a : Agent) (answers : list Answer) : option Agent :=
  match answers with
  | [] => Some a
  | answer :: answers =>
      match ag_activeRun a with
      | Some r => if keepsb (run_loop r) answer then advance accept sample_clock a answer [] 0 ≫= λ a, drive a answers else None
      | None => None
      end
  end.

Lemma drive_during (allowed : State → Answer → Prop) a0 prompts given taken a answers a' :
  (∀ s answer, keepsb s answer = true → allowed s answer) →
  during accept sample_clock allowed a0 prompts given taken a → drive a answers = Some a' →
  ∃ taken', during accept sample_clock allowed a0 prompts given taken' a'.
Proof.
  intros Hall. revert taken a. induction answers as [|answer answers IH]; intros taken a H; cbn [drive]; [intros [= <-]; by exists taken|].
  destruct (ag_activeRun a) as [r|] eqn:Er; [|done]. destruct (keepsb (run_loop r) answer) eqn:Ek; [|done].
  destruct (advance accept sample_clock a answer [] 0) as [a1|] eqn:Ea; [|done]. cbn. apply IH with (taken ++ takes a).
  eapply during_advance; [done| |done]. intros r'. rewrite Er. intros [= <-]. by apply Hall.
Qed.

Definition sample_agent : Agent := new_Agent None None None [mkTool "echo" false None] [] None None false true false.
Definition sample_prompted : Agent := match runPromptMessages sample_agent [sample_user 0] false with Ok a => steer a (sample_user 1) | Err _ => sample_agent end.

(** The answers of the loop's sample; the queues answer by themselves. *)
Definition sample_env : list Answer :=
  sample_answers ≫= λ a, match a with Messages _ => [Continue] | TurnUpdate u => [TurnUpdate u; Continue] | _ => [a] end.
Definition sample_idle : Agent := default sample_agent (drive sample_prompted sample_env).

Lemma sample_prompted_during allowed : during accept sample_clock allowed sample_agent [sample_user 0] [sample_user 1] [] sample_prompted.
Proof. apply (during_steer accept sample_clock allowed sample_agent [sample_user 0] [] []). by apply (during_prompt accept sample_clock allowed sample_agent [sample_user 0] _ false). Qed.

Lemma sample_idle_during : ∃ taken, during accept sample_clock (may_reject false) sample_agent [sample_user 0] [sample_user 1] taken sample_idle.
Proof.
  apply (drive_during (may_reject false) sample_agent [sample_user 0] [sample_user 1] [] sample_prompted sample_env); [|apply sample_prompted_during|vm_compute; reflexivity].
  intros s answer H. by destruct (keepsb_keeps _ _ H) as [[] ?].
Qed.


(** The first request. *)
Definition sample_asked : Agent := default sample_agent (advance accept sample_clock sample_prompted Continue [] 0).
Definition sample_convert (ms : list Message) : list json := (λ _, TNull) <$> ms.


Definition sample_streaming : Agent :=
  default sample_agent (drive sample_prompted [Continue; StreamStart (sample_message stop [])]).
Definition sample_preparing : Agent :=
  default sample_agent (drive (steer sample_streaming (sample_user 2)) [StreamEnd (sample_message stop []); Stop false; Continue]).

(** What [agent_delivers] allows when a hook throws does happen: a steering message that
    the loop has taken when [prepareNextTurn] throws is in no queue and not in the
    transcript. *)
Theorem steering_lost :
  ∃ a', advance accept sample_clock sample_preparing Rejects [] 0 = Some a' ∧ queued (steer sample_streaming (sample_user 2)) = [sample_user 2] ∧
    ag_activeRun a' = None ∧ queued a' = [] ∧ others (ag_messages a') = others [sample_user 0; sample_user 1].
Proof. eexists. split; [vm_compute; reflexivity|]. by vm_compute. Qed.

Lemma run_extends validate clock answers s s' : run_answers validate clock s answers = Some s' → extends s s'.
Proof.
  unfold run_answers. revert s. induction answers as [|a answers IH]; intros s; cbn; [intros [= <-]; by apply extends_refl|].
  destruct (step validate clock s a) as [s1|] eqn:E; [|by clear; induction answers]. intros H. eapply extends_trans; [by eapply step_extends|by apply IH].
Qed.

(** The condition of [loop_events] is needed: a stream that starts twice announces a
    message within a message, and the brackets stay broken for the rest of the run. *)
Theorem second_start_nests m m' answers s :
  run_answers accept sample_clock sample_start ([Messages []; StreamStart m; StreamStart m'] ++ answers) = Some s →
  ∀ k, ¬ checked (events s) k.
Proof.
  intros H k. unfold run_answers in H. rewrite foldl_app in H. apply (run_extends accept sample_clock answers) in H as [es ->].
  unfold checked, check_all. rewrite foldl_app. cbn. by induction es.
Qed.
