(* ===== verification/Reducer.v ===== *)
(** Recovery of a lane: [harness/reducer.ts].

    [validateRecordLog] checks the records of a lane in sequence order against the
    entries that exist, threading what it has seen so far ([VState]);
    [reduceLaneState] reconstructs the lane's orchestration state.  A corruption is
    reported by its reason.  Deep equality of payloads ([Guard.IsDeepEqual] of
    typebox) is a parameter.  [entriesById] is only looked up, so it is a map
    without order; the key of a tool invocation, assistant entry id and index
    joined by NUL, is the pair. *)
From S2P Require Import Prelude JsValue SessionTypes.
Open Scope Z_scope.

Inductive RecordLogCorruptionReason :=
| multiple_open_operations | unknown_operation | record_after_finish | non_consecutive_attempt
| invalid_compaction_reason | queue_after_abort | invalid_queue_cancellation | inconsistent_step
| tool_call_mismatch | duplicate_tool_invocation | provisioned_entry_mismatch | invalid_deferred_handle.

#[export] Instance reason_eq_dec : EqDecision RecordLogCorruptionReason.
Proof. solve_decision. Defined.

Notation checked A := (result RecordLogCorruptionReason A).

(** An operation's start, typed. *)
Record OperationStartedRecord := mkStarted {
  os_id : string;
  os_seq : Z;
  os_intent : Intent;
}.

Record RecordLogSlice := mkSlice {
  lane : string;
  openOperations : list OperationStartedRecord;
  records : list LaneRecord;
  entries : list Entry;
}.

Record EffectiveLaneConfiguration := mkConfiguration {
  model : string * string;
  thinkingLevel : string;
  activeToolNames : list string;
}.

Inductive FailureSource := SourceStep | SourceDeferredFetch.

Record TerminalFailureState := mkFailure {
  tf_entryId : string;
  tf_source : FailureSource;
  tf_message : AssistantMessage;
}.

Record ToolCallState := mkCallState {
  cs_toolIndex : nat;
  cs_toolCall : AgentToolCall;
  cs_started : option LaneRecord;
  cs_resultExists : bool;
  cs_terminate : bool;
}.

Record ToolBatchState := mkBatch {
  assistantEntryId : string;
  calls : list ToolCallState;
  truncated : bool;
  unresolved : bool;
}.

Record StepState := mkStepState {
  ss_kind : Step;
  ss_attempts : Z;
  ss_resultEntryId : string;
  ss_compactionReason : option string;
}.

Record NewestOwn := mkNewestOwn {
  no_entryId : string;
  no_type : EntryType;
  no_role : option Role;
  no_stopReason : option StopReason;
}.

Record OperationState := mkOperation {
  op_id : string;
  op_kind : OperationKind;
  op_intent : Intent;
  op_aborting : bool;
  op_step : option StepState;
  op_toolBatch : option ToolBatchState;
  op_missingInitialMessages : list ProvisionedEntry;
  op_pendingSteer : list ProvisionedEntry;
  op_pendingFollowUp : list ProvisionedEntry;
  op_pendingWrites : list ProvisionedEntry;
  op_deferred : option json;
  op_overflowRecoveryUsed : bool;
  op_newestOwn : option NewestOwn;
  op_targets_result : option bool;
  op_targets_summary : option bool;
}.

Record LaneState := mkLaneState {
  ls_lane : string;
  ls_leafId : option string;
  ls_operation : option OperationState;
  ls_pendingNextRun : list ProvisionedEntry;
}.

Record LaneReductionInput := mkInput {
  slice : RecordLogSlice;
  leafId : option string;
  ownEntries : list Entry;
  configurationEntries : list Entry;
  defaults : EffectiveLaneConfiguration;
}.

Record LaneReductionResult := mkReduction {
  laneState : LaneState;
  effectiveConfiguration : EffectiveLaneConfiguration;
  terminalFailure : option TerminalFailureState;
}.

(** [[...values].sort((l, r) => l.seq - r.seq)] *)
Definition bySequence {A} (key : A → Z) (values : list A) : list A := sort_by key values.

(** [for (const entry of entries) map.set(entry.id, entry)] *)
Definition entryMap (es : list Entry) : gmap string Entry :=
  foldl (λ m e, <[e_id e := e]> m) ∅ es.

Definition has (m : gmap string Entry) (id : string) : bool := bool_decide (is_Some (m !! id)).

Definition tool_calls (content : list Content) : list AgentToolCall :=
  omap (λ c : Content, match c with ContentToolCall t => Some t | _ => None end) content.

(** The assistant message of an entry, if it is one. *)
Definition assistant_of (e : Entry) : option AssistantMessage :=
  match e_body e with MessageEntry (AssistantMsg a) _ => Some a | _ => None end.

(** Truthiness of an optional string. *)
Definition truthy (s : option string) : option string :=
  match s with Some s => if bool_decide (s = EmptyString) then None else Some s | None => None end.

(** [toolCalls[index]] *)
Definition nth_call (calls : list AgentToolCall) (index : Z) : option AgentToolCall :=
  if index <? 0 then None else calls !! Z.to_nat index.

Section reducer.
Context (IsDeepEqual : ProvisionedEntry → ProvisionedEntry → bool).

(** ** Validation *)

Definition matchesProvisionedEntry (entry : Entry) (target : ProvisionedEntry) : bool :=
  IsDeepEqual (mkProvisioned (e_id entry) (e_body entry)) target.

Definition validateExactProvisionedEntry (m : gmap string Entry) (target : ProvisionedEntry) : checked unit :=
  match m !! pe_id target with
  | Some entry => if negb (matchesProvisionedEntry entry target) then Err provisioned_entry_mismatch else Ok tt
  | None => Ok tt
  end.

Definition validateResultEntry (m : gmap string Entry) (resultEntryId : string) (matches : Entry → bool) : checked unit :=
  match m !! resultEntryId with
  | Some entry => if negb (matches entry) then Err provisioned_entry_mismatch else Ok tt
  | None => Ok tt
  end.

Definition validateAttemptReason (step : Step) (reason : option string) : checked unit :=
  match step with
  | StepCompaction =>
      if bool_decide (reason = Some "manual") || bool_decide (reason = Some "threshold") ||
         bool_decide (reason = Some "overflow") then Ok tt else Err invalid_compaction_reason
  | _ => if bool_decide (reason = None) then Ok tt else Err invalid_compaction_reason
  end.

(** A step attempt, as the validator remembers it. *)
Record Attempt := mkAttempt {
  at_seq : Z;
  at_step : Step;
  at_attempt : Z;
  at_resultEntryId : string;
  at_reason : option string;
}.

Definition continuesSeries (m : gmap string Entry) (a : Attempt) (previous : option Attempt) : bool :=
  match previous with
  | None => false
  | Some p =>
      bool_decide (at_step p = at_step a) &&
      match m !! at_resultEntryId p with None => true | Some result => at_seq a <=? e_seq result end
  end.

Definition validateAttemptSequence (a : Attempt) (previous : option Attempt) (m : gmap string Entry) : checked unit :=
  let continues := continuesSeries m a previous in
  let expected := match previous with Some p => if continues then at_attempt p + 1 else 1 | None => 1 end in
  if negb (at_attempt a =? expected) then Err non_consecutive_attempt else
  if negb continues || bool_decide (at_step a = StepAssistant) then Ok tt else
  match previous with
  | None => Ok tt
  | Some p =>
      if negb (bool_decide (at_resultEntryId a = at_resultEntryId p)) then Err inconsistent_step else
      if negb (bool_decide (at_reason a = at_reason p)) then Err inconsistent_step else Ok tt
  end.

Definition validateAttemptResult (m : gmap string Entry) (a : Attempt) : checked unit :=
  validateResultEntry m (at_resultEntryId a)
    (match at_step a with
     | StepAssistant => λ e, bool_decide (is_Some (assistant_of e))
     | StepCompaction => λ e, bool_decide (e_type e = compaction)
     | StepBranchSummary => λ e, bool_decide (e_type e = branch_summary)
     end).

Definition is_tool_result (toolCallId : string) (toolName : option string) (e : Entry) : bool :=
  match e_body e with
  | MessageEntry (ToolResultMessage id nm _) _ =>
      bool_decide (id = toolCallId) && match toolName with Some n => bool_decide (nm = n) | None => true end
  | _ => false
  end.

Definition validateToolStart (assistantEntryId : string) (toolIndex : Z) (toolCallId toolName resultEntryId : string)
    (m : gmap string Entry) (invocations : gset (string * Z)) : checked (gset (string * Z)) :=
  if bool_decide ((assistantEntryId, toolIndex) ∈ invocations) then Err duplicate_tool_invocation else
  let invocations := {[ (assistantEntryId, toolIndex) ]} ∪ invocations in
  match m !! assistantEntryId ≫= assistant_of with
  | None => Err tool_call_mismatch
  | Some a =>
      match nth_call (tool_calls (am_content a)) toolIndex with
      | None => Err tool_call_mismatch
      | Some call =>
          if negb (bool_decide (tc_id call = toolCallId)) || negb (bool_decide (tc_name call = toolName))
          then Err tool_call_mismatch else
          let* _ := validateResultEntry m resultEntryId (is_tool_result toolCallId (Some toolName)) in
          Ok invocations
      end
  end.

(** A deferred assistant message without its handle. *)
Definition missing_handle (e : Entry) : bool :=
  match assistant_of e with
  | Some a => bool_decide (am_stopReason a = deferred) && bool_decide (am_deferred a = None)
  | None => false
  end.

Definition validateDeferredHandles (m : gmap string Entry) : checked unit :=
  if bool_decide (map_Forall (λ _ e, missing_handle e = false) m) then Ok tt else Err invalid_deferred_handle.

Fixpoint validateTargets (m : gmap string Entry) (targets : list ProvisionedEntry) : checked unit :=
  match targets with
  | [] => Ok tt
  | t :: targets => let* _ := validateExactProvisionedEntry m t in validateTargets m targets
  end.

Definition validateOperationResult (m : gmap string Entry) (intent : Intent) : checked unit :=
  match intent with
  | RunIntent _ initialMessages _ _ => validateTargets m initialMessages
  | CompactionIntent _ resultEntryId => validateResultEntry m resultEntryId (λ e, bool_decide (e_type e = compaction))
  | NavigationIntent _ _ _ _ summaryEntryId =>
      match truthy summaryEntryId with
      | Some id => validateResultEntry m id (λ e, bool_decide (e_type e = branch_summary))
      | None => Ok tt
      end
  end.

(** An enqueued item, as a later cancellation looks it up. *)
Record Enqueue := mkEnqueue { en_seq : Z; en_runId : option string }.

Record VState := mkV {
  starts : gset string;
  finishedAt : gmap string Z;
  abortedAt : gmap string Z;
  queueEnqueues : gmap string Enqueue;
  latestAttempt : gmap string Attempt;
  toolInvocations : gset (string * Z);
}.

Definition new_VState : VState := mkV ∅ ∅ ∅ ∅ ∅ ∅.

(** The checks every record of an operation passes first. *)
Definition validateRun (v : VState) (record : LaneRecord) : checked unit :=
  match r_runId record with
  | None => Ok tt
  | Some runId =>
      if negb (bool_decide (runId ∈ starts v)) then Err unknown_operation else
      match finishedAt v !! runId with
      | Some finishSeq => if finishSeq <? r_seq record then Err record_after_finish else Ok tt
      | None => Ok tt
      end
  end.

Definition validateRecord (m : gmap string Entry) (v : VState) (record : LaneRecord) : checked VState :=
  match r_body record with
  | OperationStarted _ intent =>
      let* _ := validateOperationResult m intent in
      Ok (mkV ({[ r_id record ]} ∪ starts v) (finishedAt v) (abortedAt v) (queueEnqueues v) (latestAttempt v) (toolInvocations v))
  | body =>
    let* _ := validateRun v record in
    match body with
    | OperationFinished runId _ _ =>
        Ok (mkV (starts v) (<[runId := r_seq record]> (finishedAt v)) (abortedAt v) (queueEnqueues v) (latestAttempt v) (toolInvocations v))
    | AbortRequested runId =>
        Ok (mkV (starts v) (finishedAt v) (<[runId := r_seq record]> (abortedAt v)) (queueEnqueues v) (latestAttempt v) (toolInvocations v))
    | StepAttempt runId step attempt resultEntryId reason =>
        let a := mkAttempt (r_seq record) step attempt resultEntryId reason in
        let* _ := validateAttemptReason step reason in
        let* _ := validateAttemptSequence a (latestAttempt v !! runId) m in
        let* _ := validateAttemptResult m a in
        Ok (mkV (starts v) (finishedAt v) (abortedAt v) (queueEnqueues v) (<[runId := a]> (latestAttempt v)) (toolInvocations v))
    | ToolStarted _ assistantEntryId toolIndex toolCallId toolName _ resultEntryId _ =>
        let* invocations := validateToolStart assistantEntryId toolIndex toolCallId toolName resultEntryId m (toolInvocations v) in
        Ok (mkV (starts v) (finishedAt v) (abortedAt v) (queueEnqueues v) (latestAttempt v) invocations)
    | QueueEnqueued queue runId target =>
        if negb (bool_decide (queue = QNextRun)) &&
           match runId ≫= λ id, abortedAt v !! id with Some abortSeq => abortSeq <? r_seq record | None => false end
        then Err queue_after_abort else
        let* _ := validateExactProvisionedEntry m target in
        Ok (mkV (starts v) (finishedAt v) (abortedAt v)
              (<[pe_id target := mkEnqueue (r_seq record) runId]> (queueEnqueues v)) (latestAttempt v) (toolInvocations v))
    | QueueCancelled runId entryId =>
        match queueEnqueues v !! entryId with
        | None => Err invalid_queue_cancellation
        | Some enqueue =>
            if (r_seq record <=? en_seq enqueue) || negb (bool_decide (en_runId enqueue = runId)) || has m entryId
            then Err invalid_queue_cancellation else Ok v
        end
    | WriteDeferred _ target => let* _ := validateExactProvisionedEntry m target in Ok v
    | _ => Ok v
    end
  end.

Definition validateRecordLog (input : RecordLogSlice) : checked unit :=
  if (1 <? length (openOperations input))%nat then Err multiple_open_operations else
  let m := entryMap (entries input) in
  let* _ := validateDeferredHandles m in
  let* _ := rfold (validateRecord m) new_VState (bySequence r_seq (records input)) in
  Ok tt.

(** ** Reduction *)

Definition configure (c : EffectiveLaneConfiguration) (e : Entry) : EffectiveLaneConfiguration :=
  match e_body e with
  | ModelChangeEntry provider modelId => mkConfiguration (provider, modelId) (thinkingLevel c) (activeToolNames c)
  | ThinkingLevelEntry level => mkConfiguration (model c) level (activeToolNames c)
  | ActiveToolsEntry names => mkConfiguration (model c) (thinkingLevel c) names
  | MessageEntry (AssistantMsg a) _ =>
      mkConfiguration (am_provider a, am_model a) (thinkingLevel c) (activeToolNames c)
  | _ => c
  end.

(** The entries by id, first occurrence first, last value kept. *)
Fixpoint dedup (es : list Entry) : list Entry :=
  match es with
  | [] => []
  | e :: es =>
      let later := List.filter (λ x, bool_decide (e_id x = e_id e)) es in
      default e (last later) :: List.filter (λ x, negb (bool_decide (e_id x = e_id e))) (dedup es)
  end.

Definition deriveEffectiveConfiguration (input : LaneReductionInput) : EffectiveLaneConfiguration :=
  foldl configure (defaults input) (bySequence e_seq (dedup (configurationEntries input ++ ownEntries input))).

Definition deriveNewestOwn (entry : option Entry) : option NewestOwn :=
  match entry with
  | None => None
  | Some e =>
      Some match e_body e with
           | MessageEntry (AssistantMsg a) _ => mkNewestOwn (e_id e) (e_type e) (Some RAssistant) (Some (am_stopReason a))
           | MessageEntry m _ => mkNewestOwn (e_id e) (e_type e) (Some (role m)) None
           | _ => mkNewestOwn (e_id e) (e_type e) None None
           end
  end.

Definition has_tool_call (e : Entry) : bool :=
  match assistant_of e with Some a => negb (bool_decide (length (tool_calls (am_content a)) = 0%nat)) | None => false end.

(** [starts] of the batch: the last start of each index. *)
Definition batchStarts (operationId entryId : string) (rs : list LaneRecord) : gmap Z LaneRecord :=
  foldl (λ m r,
    match r_body r with
    | ToolStarted runId a index _ _ _ _ _ =>
        if bool_decide (runId = operationId) && bool_decide (a = entryId) then <[index := r]> m else m
    | _ => m
    end) ∅ rs.

Definition tool_result_id (r : LaneRecord) : option string :=
  match r_body r with ToolStarted _ _ _ _ _ _ resultEntryId _ => Some resultEntryId | _ => None end.

Definition deriveCall (assistant : Entry) (batch : gmap Z LaneRecord) (own : list Entry) (m : gmap string Entry)
    (deferredWriteIds : list string) (toolIndex : nat) (toolCall : AgentToolCall) : ToolCallState :=
  let started := batch !! Z.of_nat toolIndex in
  let startedResult := (started ≫= tool_result_id) ≫= λ id, m !! id in
  let blockedResult := snd <$> list_find (λ e,
    (e_seq assistant <? e_seq e) && negb (bool_decide (e_id e ∈ deferredWriteIds)) &&
    is_tool_result (tc_id toolCall) None e = true) own in
  let result := match startedResult with Some e => Some e | None => blockedResult end in
  mkCallState toolIndex toolCall started (bool_decide (is_Some result))
    match result with
    | Some e => match e_body e with MessageEntry _ terminate => terminate | _ => false end
    | None => false
    end.

Definition deriveToolBatch (operationId : string) (rs : list LaneRecord) (own : list Entry) (m : gmap string Entry)
    (deferredWriteIds : list string) : option ToolBatchState :=
  match list_find (λ e, has_tool_call e = true) (reverse own) with
  | None => None
  | Some (_, e) =>
      match assistant_of e with
      | None => None
      | Some a =>
          let batch := batchStarts operationId (e_id e) rs in
          let cs := imap (deriveCall e batch own m deferredWriteIds) (tool_calls (am_content a)) in
          Some (mkBatch (e_id e) cs (bool_decide (am_stopReason a = length_)) (existsb (λ c, negb (cs_resultExists c)) cs))
      end
  end.

Definition initialMessages (intent : Intent) : list ProvisionedEntry :=
  match intent with RunIntent _ initial _ _ => initial | _ => [] end.

Definition queue_item (r : LaneRecord) : option (Queue * option string * ProvisionedEntry) :=
  match r_body r with QueueEnqueued q runId target => Some (q, runId, target) | _ => None end.

Definition cancelledIds (rs : list LaneRecord) : list string :=
  omap (λ r, match r_body r with QueueCancelled _ entryId => Some entryId | _ => None end) rs.

(** Enqueued items neither delivered nor cancelled, in order. *)
Definition pendingQueue (m : gmap string Entry) (rs : list LaneRecord) : list (Queue * option string * ProvisionedEntry) :=
  List.filter (λ it, negb (has m (pe_id it.2)) && negb (bool_decide (pe_id it.2 ∈ cancelledIds rs))) (omap queue_item rs).

Definition pendingOf (q : Queue) (runId : string) (items : list (Queue * option string * ProvisionedEntry)) : list ProvisionedEntry :=
  snd <$> List.filter (λ it, bool_decide (it.1.1 = q) && bool_decide (it.1.2 = Some runId)) items.

Definition belongs (operationId : string) (r : LaneRecord) : bool :=
  match r_body r with
  | OperationStarted _ _ => bool_decide (r_id r = operationId)
  | _ => bool_decide (r_runId r = Some operationId)
  end.

Definition is_abort (r : LaneRecord) : bool := match r_body r with AbortRequested _ => true | _ => false end.

Definition deferredWrite (r : LaneRecord) : option ProvisionedEntry :=
  match r_body r with WriteDeferred _ target => Some target | _ => None end.

Definition attemptOf (r : LaneRecord) : option Attempt :=
  match r_body r with
  | StepAttempt _ step attempt resultEntryId reason => Some (mkAttempt (r_seq r) step attempt resultEntryId reason)
  | _ => None
  end.

Definition deriveStepState (m : gmap string Entry) (attempts : list Attempt) : option StepState :=
  match last attempts with
  | None => None
  | Some a =>
      if has m (at_resultEntryId a) then None else
      Some (mkStepState (at_step a) (at_attempt a) (at_resultEntryId a)
              (match at_step a with StepCompaction => at_reason a | _ => None end))
  end.

(** [Math.max] over the consumed inputs, from negative infinity. *)
Definition newestConsumed (m : gmap string Entry) (ids : list string) : option Z :=
  foldl (λ acc id,
    match m !! id with
    | Some e =>
        if bool_decide (e_type e = message)
        then Some (match acc with Some z => Z.max z (e_seq e) | None => e_seq e end) else acc
    | None => acc
    end) None ids.

Definition overflowUsed (newest : option Z) (attempts : list Attempt) : bool :=
  existsb (λ a, bool_decide (at_step a = StepCompaction) && bool_decide (at_reason a = Some "overflow") &&
    match newest with Some z => z <? at_seq a | None => true end) attempts.

Definition deriveFailure (ops : list LaneRecord) (deferredWriteIds : list string) (newest previous : option Entry) :
    option TerminalFailureState :=
  match newest with
  | None => None
  | Some e =>
      match assistant_of e with
      | None => None
      | Some a =>
          if negb (bool_decide (am_stopReason a = error_)) || bool_decide (e_id e ∈ deferredWriteIds) then None else
          let producedByStep := existsb (λ r, match attemptOf r with
            | Some at_ => bool_decide (at_resultEntryId at_ = e_id e) | None => false end) ops in
          let producedByDeferredFetch :=
            existsb (λ r, match r_body r with
              | UsageRecord CDeferredFetch _ _ entryId _ => bool_decide (entryId = Some (e_id e)) | _ => false end) ops ||
            match previous ≫= assistant_of with Some p => bool_decide (am_stopReason p = deferred) | None => false end in
          if producedByStep || producedByDeferredFetch
          then Some (mkFailure (e_id e) (if producedByStep then SourceStep else SourceDeferredFetch) a)
          else None
      end
  end.

(** [ownEntries.at(-2)] *)
Definition second_last (own : list Entry) : option Entry :=
  match reverse own with _ :: e :: _ => Some e | _ => None end.

(** The state of the open operation. *)
Definition reduceOperation (started : OperationStartedRecord) (rs : list LaneRecord) (own : list Entry)
    (m : gmap string Entry) : OperationState * option TerminalFailureState :=
  let ops := List.filter (belongs (os_id started)) rs in
  let aborting := existsb is_abort ops in
  let pending := pendingQueue m rs in
  let writes := omap deferredWrite ops in
  let attempts := omap attemptOf ops in
  let consumed := (pe_id <$> initialMessages (os_intent started)) ++
    omap (λ r, it ← queue_item r; if bool_decide (it.1.1 = QNextRun) then None else Some (pe_id it.2)) ops in
  let newestOwn := last own in
  let deferredWriteIds := pe_id <$> writes in
  (mkOperation (os_id started) (intent_kind (os_intent started)) (os_intent started) aborting
     (deriveStepState m attempts)
     (deriveToolBatch (os_id started) ops own m deferredWriteIds)
     (List.filter (λ t, negb (has m (pe_id t))) (initialMessages (os_intent started)))
     (if aborting then [] else pendingOf QSteer (os_id started) pending)
     (if aborting then [] else pendingOf QFollowUp (os_id started) pending)
     (List.filter (λ t, negb (has m (pe_id t))) writes)
     (a ← newestOwn ≫= assistant_of; if bool_decide (am_stopReason a = deferred) then am_deferred a else None)
     (overflowUsed (newestConsumed m consumed) attempts)
     (deriveNewestOwn newestOwn)
     (match os_intent started with CompactionIntent _ id => Some (has m id) | _ => None end)
     (match os_intent started with NavigationIntent _ _ _ _ id => has m <$> truthy id | _ => None end),
   deriveFailure ops deferredWriteIds newestOwn (second_last own)).

Definition reduceLaneState (input : LaneReductionInput) : checked LaneReductionResult :=
  let* _ := validateRecordLog (slice input) in
  let rs := bySequence r_seq (records (slice input)) in
  let own := bySequence e_seq (ownEntries input) in
  let m := entryMap (entries (slice input) ++ own) in
  let started := head (openOperations (slice input)) in
  let captured := pe_id <$> (s ← option_list started; initialMessages (os_intent s)) in
  let pendingNextRun := snd <$> List.filter (λ it, bool_decide (it.1.1 = QNextRun) &&
    negb (bool_decide (pe_id it.2 ∈ captured))) (pendingQueue m rs) in
  let configuration := deriveEffectiveConfiguration input in
  match started with
  | None =>
      Ok (mkReduction (mkLaneState (lane (slice input)) (leafId input) None pendingNextRun) configuration None)
  | Some started =>
      let '(operation, failure) := reduceOperation started rs own m in
      Ok (mkReduction (mkLaneState (lane (slice input)) (leafId input) (Some operation) pendingNextRun) configuration failure)
  end.
End reducer.
