(* ===== verification/ReducerSpec.v ===== *)
(** What recovery guarantees: an accepted record log is consistent (operations,
    finishes, attempts, tool invocations), the reduced state holds only work that
    is still to be done, and neither depends on the order in which storage
    returned records and entries. *)
From S2P Require Import Prelude JsValue SessionTypes Reducer.
Open Scope Z_scope.

(** In a sorted list a prefix is at most its end. *)
Lemma sorted_before {A} (key : A → Z) pre x post y :
  StronglySorted (λ a b, key a ≤ key b) (pre ++ x :: post) → y ∈ pre → key y ≤ key x.
Proof.
  induction pre as [|z pre IH]; simpl; intros Hs Hy; [set_solver|].
  inversion Hs as [|? ? Hs' Hz]; subst. apply elem_of_cons in Hy as [->|Hy]; [|by apply IH].
  rewrite Forall_forall in Hz. apply Hz. set_solver.
Qed.

Lemma exists_snoc {A} (P : A → Prop) l x : (∃ r, r ∈ l ++ [x] ∧ P r) ↔ (∃ r, r ∈ l ∧ P r) ∨ P x.
Proof.
  split.
  - intros (r & [Hr|Hr%list_elem_of_singleton]%elem_of_app & HP); [left; eauto|right; by subst].
  - intros [(r & Hr & HP)|HP]; [exists r|exists x]; rewrite elem_of_app, list_elem_of_singleton; auto.
Qed.

Lemma entryMap_Some es id e : NoDup (e_id <$> es) → entryMap es !! id = Some e ↔ e ∈ es ∧ e_id e = id.
Proof.
  unfold entryMap. induction es as [|x es IH] using rev_ind; intros Hnd; [set_solver|].
  rewrite fmap_app in Hnd. apply NoDup_app in Hnd as (Hnd & Hx & _). rewrite foldl_app. simpl.
  rewrite elem_of_app, list_elem_of_singleton. destruct (decide (e_id x = id)) as [<-|Hne].
  - rewrite lookup_insert_eq. split; [naive_solver|]. intros [[He| ->] Hid]; [|done].
    exfalso. apply (Hx (e_id x)); [rewrite <- Hid; by apply list_elem_of_fmap_2|simpl; left].
  - rewrite lookup_insert_ne, IH by done. naive_solver.
Qed.

Lemma entryMap_perm es es' : NoDup (e_id <$> es) → es ≡ₚ es' → entryMap es = entryMap es'.
Proof.
  intros Hnd Hp. apply map_eq. intros id. apply option_eq. intros e.
  rewrite !entryMap_Some by (done || by rewrite <- Hp). by rewrite Hp.
Qed.

(** ** The validator's invariant *)

Definition is_started (id : string) (r : LaneRecord) : Prop :=
  r_id r = id ∧ ∃ leaf intent, r_body r = OperationStarted leaf intent.

Definition is_finish (runId : string) (r : LaneRecord) : Prop :=
  ∃ outcome error, r_body r = OperationFinished runId outcome error.

Definition tool_key (r : LaneRecord) : option (string * Z) :=
  match r_body r with ToolStarted _ a index _ _ _ _ _ => Some (a, index) | _ => None end.

(** The attempt a record makes, with its operation. *)
Definition attempt_of (r : LaneRecord) : option (string * Attempt) :=
  match r_body r with
  | StepAttempt runId step attempt result reason => Some (runId, mkAttempt (r_seq r) step attempt result reason)
  | _ => None
  end.

Section validate.
Context (IsDeepEqual : ProvisionedEntry → ProvisionedEntry → bool) (m : gmap string Entry).

Record VInv (pre : list LaneRecord) (v : VState) : Prop := {
  vi_starts : ∀ id, id ∈ starts v ↔ ∃ r, r ∈ pre ∧ is_started id r;
  vi_finished : ∀ f runId, f ∈ pre → is_finish runId f → finishedAt v !! runId = Some (r_seq f);
  vi_tools : ∀ k, k ∈ toolInvocations v ↔ k ∈ omap tool_key pre;
  vi_latest : ∀ runId a, latestAttempt v !! runId = Some a → ∃ r, r ∈ pre ∧ attempt_of r = Some (runId, a);
  (* what has been established of the records seen *)
  vi_run : ∀ r runId, r ∈ pre → r_runId r = Some runId → ∃ s, s ∈ pre ∧ is_started runId s ∧ r_seq s ≤ r_seq r;
  vi_finish_last : ∀ f r runId, f ∈ pre → r ∈ pre → is_finish runId f → r_runId r = Some runId → r_seq r ≤ r_seq f;
  vi_tools_nodup : NoDup (omap tool_key pre);
  vi_attempts : ∀ r runId a, r ∈ pre → attempt_of r = Some (runId, a) →
    1 ≤ at_attempt a ∧
    (1 < at_attempt a → ∃ r' p, r' ∈ pre ∧ attempt_of r' = Some (runId, p) ∧ r_seq r' ≤ r_seq r ∧
       at_step p = at_step a ∧ at_attempt p = at_attempt a - 1);
}.

Lemma VInv_nil : VInv [] new_VState.
Proof. split; simpl; try set_solver. constructor. Qed.

Lemma validateRun_Ok v r runId :
  validateRun v r = Ok tt → r_runId r = Some runId →
  runId ∈ starts v ∧ ∀ q, finishedAt v !! runId = Some q → r_seq r ≤ q.
Proof.
  unfold validateRun. intros H Hr. rewrite Hr in H. case_bool_decide; [|done]. simpl in H. split; [done|].
  intros q Hq. rewrite Hq in H. destruct (Z.ltb_spec q (r_seq r)); [done|lia].
Qed.

Lemma validateAttemptSequence_Ok a prev :
  validateAttemptSequence a prev m = Ok tt →
  (at_attempt a = 1 ∨ ∃ p, prev = Some p ∧ at_step p = at_step a ∧ at_attempt a = at_attempt p + 1).
Proof.
  unfold validateAttemptSequence, continuesSeries. destruct prev as [p|]; simpl.
  - destruct (bool_decide (at_step p = at_step a)) eqn:Es; simpl.
    + match goal with |- context [if ?b then at_attempt p + 1 else 1] => destruct b end.
      * destruct (Z.eqb_spec (at_attempt a) (at_attempt p + 1)); [|done]. intros _. right. exists p. zb. done.
      * destruct (Z.eqb_spec (at_attempt a) 1); [|done]. auto.
    + destruct (Z.eqb_spec (at_attempt a) 1); [|done]. auto.
  - destruct (Z.eqb_spec (at_attempt a) 1); [|done]. auto.
Qed.

(** What a step of the validator does to its state. *)
Lemma validateRecord_Ok v x v' :
  validateRecord IsDeepEqual m v x = Ok v' →
  ((∃ leaf intent, r_body x = OperationStarted leaf intent) ∧ starts v' = {[ r_id x ]} ∪ starts v ∧
     finishedAt v' = finishedAt v ∧ latestAttempt v' = latestAttempt v ∧ toolInvocations v' = toolInvocations v) ∨
  ((∀ leaf intent, r_body x ≠ OperationStarted leaf intent) ∧ starts v' = starts v ∧ validateRun v x = Ok tt ∧
     finishedAt v' = match r_body x with OperationFinished runId _ _ => <[runId := r_seq x]> (finishedAt v) | _ => finishedAt v end ∧
     (∀ runId a, attempt_of x = Some (runId, a) →
        validateAttemptSequence a (latestAttempt v !! runId) m = Ok tt ∧ latestAttempt v' = <[runId := a]> (latestAttempt v)) ∧
     (attempt_of x = None → latestAttempt v' = latestAttempt v) ∧
     (∀ k, tool_key x = Some k → k ∉ toolInvocations v ∧ toolInvocations v' = {[ k ]} ∪ toolInvocations v) ∧
     (tool_key x = None → toolInvocations v' = toolInvocations v)).
Proof.
  unfold validateRecord, attempt_of, tool_key. destruct (r_body x) as [leaf intent| | | | | | | |] eqn:Hb; intros H.
  1: left; invert_ok; subst; split_and!; eauto.
  all: right; apply rbind_Ok in H as ([] & Hrun & H).
  1,2: injection H as <-; split_and!; try done.
  - invert_ok. subst. split_and!; try done. intros ? ? [= <- <-]. repeat match goal with u : unit |- _ => destruct u end. done.
  - invert_ok. subst. unfold validateToolStart in H0. invert_ok. zb.
    destruct (_ ≫= assistant_of); [|done]. destruct (nth_call _ _); [|done]. invert_ok. subst.
    split_and!; try done. by intros ? [= <-].
  - invert_ok. subst. by split_and!.
  - destruct (queueEnqueues v !! entryId) as [en|]; [|done]. invert_ok. subst. by split_and!.
  - invert_ok. subst. by split_and!.
  - injection H as <-. by split_and!.
Qed.

Lemma attempt_runId r runId a : attempt_of r = Some (runId, a) → r_runId r = Some runId ∧ at_seq a = r_seq r.
Proof. unfold attempt_of, r_runId. destruct (r_body r); try done. by intros [= <- <-]. Qed.

(** The invariant over the start of an operation, and over any other record. *)
Lemma VInv_started pre x v v' leaf intent :
  VInv pre v → validateRecord IsDeepEqual m v x = Ok v' → r_body x = OperationStarted leaf intent →
  VInv (pre ++ [x]) v'.
Proof.
  intros [H1 H2 H3 H4 H5 H6 H7 H8] Hx Hb.
  destruct (validateRecord_Ok v x v' Hx) as [(_ & Hv1 & Hv2 & Hv3 & Hv4)|(Hns & _)]; [|by destruct (Hns leaf intent)].
  assert (r_runId x = None ∧ attempt_of x = None ∧ tool_key x = None) as (Hr & Ha & Ht)
    by (unfold r_runId, attempt_of, tool_key; by rewrite Hb).
  assert (∀ runId, ¬ is_finish runId x) as Hnf by (intros runId (? & ? & Hf); congruence).
  split.
  - intros id. rewrite Hv1, elem_of_union, elem_of_singleton, H1, (exists_snoc (is_started id)).
    assert (is_started id x ↔ id = r_id x) as ->; [|tauto]. unfold is_started. split; [by intros [-> _]|].
    intros ->. split; [done|by eexists _, _].
  - intros f runId [Hf|Hf%list_elem_of_singleton]%elem_of_app Hfin; [rewrite Hv2; by apply H2|by subst; destruct (Hnf runId)].
  - intros k. rewrite Hv4, H3, omap_app. simpl. rewrite Ht, app_nil_r. done.
  - intros runId a. rewrite Hv3. intros (r & Hin & He)%H4. exists r. split; [set_solver|done].
  - intros r runId [Hin|Hin%list_elem_of_singleton]%elem_of_app Hrr; [|congruence].
    destruct (H5 r runId Hin Hrr) as (s & ? & ? & ?). exists s. set_solver.
  - intros f r runId [Hf|Hf%list_elem_of_singleton]%elem_of_app [Hr'|Hr'%list_elem_of_singleton]%elem_of_app Hfin Hrr;
      subst; try congruence; [by eapply H6|by destruct (Hnf runId)].
  - rewrite omap_app. simpl. by rewrite Ht, app_nil_r.
  - intros r runId a [Hin|Hin%list_elem_of_singleton]%elem_of_app Hra; [|congruence].
    destruct (H8 r runId a Hin Hra) as [? Hp]. split; [done|]. intros Hlt. destruct (Hp Hlt) as (r' & p & ? & ?).
    exists r', p. set_solver.
Qed.

Lemma VInv_other pre x post v v' :
  StronglySorted (λ a b, r_seq a ≤ r_seq b) (pre ++ x :: post) →
  VInv pre v → validateRecord IsDeepEqual m v x = Ok v' → (∀ leaf intent, r_body x ≠ OperationStarted leaf intent) →
  VInv (pre ++ [x]) v'.
Proof.
  intros Hs [H1 H2 H3 H4 H5 H6 H7 H8] Hx Hns. pose proof (λ y, sorted_before r_seq pre x post y Hs) as Hle.
  destruct (validateRecord_Ok v x v' Hx) as
    [((l & i & Hb) & _)|(_ & Hv1 & Hrun & Hv2 & Hat & Hnat & Htk & Hntk)]; [by destruct (Hns l i)|].
  split.
  - intros id. rewrite Hv1, H1, (exists_snoc (is_started id)). split; [tauto|]. intros [?|[_ (l & i & Hb)]]; [done|].
    by destruct (Hns l i).
  - intros f runId Hin Hfin. rewrite Hv2. apply elem_of_app in Hin as [Hf|Hf%list_elem_of_singleton].
    + pose proof (H2 f runId Hf Hfin) as Hq. destruct (r_body x) as [| |run' oc er| | | | | |] eqn:Hb; try done.
      destruct (decide (run' = runId)) as [->|Hne]; [|by rewrite lookup_insert_ne].
      rewrite lookup_insert_eq. f_equal. destruct (validateRun_Ok v x runId Hrun) as [_ Hfr]; [unfold r_runId; by rewrite Hb|].
      specialize (Hfr _ Hq). specialize (Hle f Hf). lia.
    + subst f. destruct Hfin as (oc & er & Hb). rewrite Hb. apply lookup_insert_eq.
  - intros k. rewrite omap_app, elem_of_app. simpl. destruct (tool_key x) as [k'|] eqn:Ht.
    + destruct (Htk k' eq_refl) as [_ ->]. rewrite elem_of_union, elem_of_singleton, list_elem_of_singleton, H3. tauto.
    + rewrite Hntk, H3 by done. set_solver.
  - intros runId a Hl. destruct (attempt_of x) as [[run' a']|] eqn:Ha.
    + destruct (Hat run' a' eq_refl) as [_ Hla]. rewrite Hla in Hl. apply lookup_insert_Some in Hl as [[-> ->]|[_ Hl]].
      * exists x. split; [set_solver|done].
      * destruct (H4 _ _ Hl) as (r & ? & ?). exists r. set_solver.
    + rewrite Hnat in Hl by done. destruct (H4 _ _ Hl) as (r & ? & ?). exists r. set_solver.
  - intros r runId [Hin|Hin%list_elem_of_singleton]%elem_of_app Hrr.
    + destruct (H5 r runId Hin Hrr) as (s & ? & ? & ?). exists s. set_solver.
    + subst r. destruct (validateRun_Ok v x runId Hrun Hrr) as [Hst _]. apply H1 in Hst as (s & Hin & Hst).
      exists s. split; [set_solver|]. split; [done|by apply Hle].
  - intros f r runId [Hf|Hf%list_elem_of_singleton]%elem_of_app [Hr'|Hr'%list_elem_of_singleton]%elem_of_app Hfin Hrr.
    + by eapply H6.
    + subst r. destruct (validateRun_Ok v x runId Hrun Hrr) as [_ Hfr]. apply Hfr. by eapply H2.
    + subst f. by apply Hle.
    + by subst.
  - rewrite omap_app. simpl. destruct (tool_key x) as [k|] eqn:Ht; [|by rewrite app_nil_r].
    destruct (Htk k eq_refl) as [Hk _]. apply NoDup_app. split_and!; [done| |apply NoDup_singleton].
    intros k' Hk' ->%list_elem_of_singleton. by apply Hk, H3.
  - intros r runId a [Hin|Hin%list_elem_of_singleton]%elem_of_app Hra.
    + destruct (H8 r runId a Hin Hra) as [? Hp]. split; [done|]. intros Hlt. destruct (Hp Hlt) as (r' & p & ? & ?).
      exists r', p. set_solver.
    + subst r. destruct (Hat runId a Hra) as [Hseq _].
      apply validateAttemptSequence_Ok in Hseq as [->|(p & Hp & Hstep & ->)]; [lia|].
      destruct (H4 _ _ Hp) as (r' & Hin & Hr'). destruct (H8 r' runId p Hin Hr') as [Hpos _]. split; [lia|].
      intros _. exists r', p. split_and!; [set_solver|done|by apply Hle|done|lia].
Qed.

Lemma VInv_step pre x post v v' :
  StronglySorted (λ a b, r_seq a ≤ r_seq b) (pre ++ x :: post) →
  VInv pre v → validateRecord IsDeepEqual m v x = Ok v' → VInv (pre ++ [x]) v'.
Proof.
  intros Hs Hv Hx. destruct (r_body x) eqn:Hb; [by eapply VInv_started|..]; by eapply VInv_other; [| | |rewrite Hb].
Qed.

Lemma validate_inv rs v :
  StronglySorted (λ a b, r_seq a ≤ r_seq b) rs →
  rfold (validateRecord IsDeepEqual m) new_VState rs = Ok v → VInv rs v.
Proof.
  intros Hs. apply (rfold_prefix (validateRecord IsDeepEqual m) VInv); [apply VInv_nil|].
  intros pre x post v1 v2 -> Hpre Hx. by eapply VInv_step.
Qed.
End validate.

(** ** What an accepted log guarantees *)

Section accepted.
Context (IsDeepEqual : ProvisionedEntry → ProvisionedEntry → bool).

Lemma validateRecordLog_inv input :
  validateRecordLog IsDeepEqual input = Ok tt →
  (length (openOperations input) ≤ 1)%nat ∧ ∃ v, VInv (bySequence r_seq (records input)) v.
Proof.
  unfold validateRecordLog. destruct (Nat.ltb_spec 1 (length (openOperations input))); [done|].
  intros (? & _ & H2)%rbind_Ok. apply rbind_Ok in H2 as (v & Hv & _). split; [done|]. exists v.
  eapply validate_inv; [|done]. apply (sort_by_spec r_seq).
Qed.
End accepted.

(** Operations.  In an accepted log every record of an operation follows the
    start of that operation, none follows its finish, and at most one operation is
    open. *)
Theorem accepted_operations IsDeepEqual input :
  validateRecordLog IsDeepEqual input = Ok tt →
  (length (openOperations input) ≤ 1)%nat ∧
  (∀ r runId, r ∈ records input → r_runId r = Some runId →
     ∃ s, s ∈ records input ∧ is_started runId s ∧ r_seq s ≤ r_seq r) ∧
  (∀ f r runId, f ∈ records input → r ∈ records input → is_finish runId f → r_runId r = Some runId →
     r_seq r ≤ r_seq f).
Proof.
  intros (Hone & v & Hv)%validateRecordLog_inv. split; [done|]. split.
  - intros r runId Hr Hrun. destruct (vi_run _ _ Hv r runId) as (s & Hs & ? & ?); [by apply sort_by_elem|done|].
    exists s. by rewrite sort_by_elem in Hs.
  - intros f r runId Hf Hr. apply (vi_finish_last _ _ Hv); by apply sort_by_elem.
Qed.

(** Steps.  In an accepted log the attempts of a step are numbered from 1
    without gaps: attempt n + 1 of an operation's step follows attempt n of it. *)
Theorem accepted_attempts IsDeepEqual input r runId a :
  validateRecordLog IsDeepEqual input = Ok tt →
  r ∈ records input → attempt_of r = Some (runId, a) →
  1 ≤ at_attempt a ∧
  (1 < at_attempt a → ∃ r' p, r' ∈ records input ∧ attempt_of r' = Some (runId, p) ∧ r_seq r' ≤ r_seq r ∧
     at_step p = at_step a ∧ at_attempt p = at_attempt a - 1).
Proof.
  intros (_ & v & Hv)%validateRecordLog_inv Hr Ha.
  destruct (vi_attempts _ _ Hv r runId a) as [Hpos Hprev]; [by apply sort_by_elem|done|]. split; [done|].
  intros Hlt. destruct (Hprev Hlt) as (r' & p & Hr' & ?). exists r', p. by rewrite sort_by_elem in Hr'.
Qed.

(** Tools.  In an accepted log no tool call of an assistant message is started
    twice: the pairs of assistant entry and call index are distinct. *)
Theorem accepted_tools_once IsDeepEqual input :
  validateRecordLog IsDeepEqual input = Ok tt → NoDup (omap tool_key (records input)).
Proof.
  intros (_ & v & Hv)%validateRecordLog_inv. pose proof (vi_tools_nodup _ _ Hv) as Hnd.
  by rewrite (proj1 (sort_by_spec r_seq (records input))) in Hnd.
Qed.

(** An accepted log: a run with two attempts of the assistant step, its answer with
    a tool call, the started tool, a steering message and one more queued for the
    next run. *)
Definition ex_assistant : AssistantMessage :=
  mkAssistant [ContentText "ok"; ContentToolCall (mkToolCall "call1" "bash" TNull)] "p" "m" toolUse None TNull.

Definition user_item (id : string) : ProvisionedEntry :=
  mkProvisioned id (MessageEntry (UserMessage (PlainText "hi") 0) false).

Definition ex_intent : Intent := RunIntent [] [user_item "u1"] None None.

Definition ex_records : list LaneRecord := [
  mkRecord "q2" 7 "main" 0 (QueueEnqueued QNextRun None (user_item "n1"));
  mkRecord "op" 1 "main" 0 (OperationStarted None ex_intent);
  mkRecord "t1" 5 "main" 0 (ToolStarted "op" "a1" 0 "call1" "bash" TNull "tr1" false);
  mkRecord "s1" 3 "main" 0 (StepAttempt "op" StepAssistant 1 "a1" None);
  mkRecord "q1" 6 "main" 0 (QueueEnqueued QSteer (Some "op") (user_item "st1"));
  mkRecord "s2" 4 "main" 0 (StepAttempt "op" StepAssistant 2 "a1" None)].

Definition ex_own : list Entry := [
  mkEntry "u1" 2 None 0 (MessageEntry (UserMessage (PlainText "hi") 0) false);
  mkEntry "a1" 4 (Some "u1") 0 (MessageEntry (AssistantMsg ex_assistant) false)].

Definition ex_slice : RecordLogSlice := mkSlice "main" [mkStarted "op" 1 ex_intent] ex_records ex_own.

Definition always (_ _ : ProvisionedEntry) : bool := true.

Lemma ex_slice_ok : validateRecordLog always ex_slice = Ok tt.
Proof. vm_compute. reflexivity. Qed.

Lemma accepted_operations_witness :
  (length (openOperations ex_slice) ≤ 1)%nat ∧
  (∀ r runId, r ∈ records ex_slice → r_runId r = Some runId →
     ∃ s, s ∈ records ex_slice ∧ is_started runId s ∧ r_seq s ≤ r_seq r) ∧
  (∀ f r runId, f ∈ records ex_slice → r ∈ records ex_slice → is_finish runId f → r_runId r = Some runId →
     r_seq r ≤ r_seq f).
Proof. exact (accepted_operations always ex_slice ex_slice_ok). Defined.

Lemma accepted_attempts_witness :
  1 ≤ 2 ∧ (1 < 2 → ∃ r' p, r' ∈ records ex_slice ∧ attempt_of r' = Some ("op", p) ∧ r_seq r' ≤ 4 ∧
     at_step p = StepAssistant ∧ at_attempt p = 2 - 1).
Proof.
  apply (accepted_attempts always ex_slice (mkRecord "s2" 4 "main" 0 (StepAttempt "op" StepAssistant 2 "a1" None))
    "op" (mkAttempt 4 StepAssistant 2 "a1" None) ex_slice_ok); [|reflexivity].
  do 5 right. left.
Defined.

Lemma accepted_tools_once_witness : NoDup (omap tool_key (records ex_slice)).
Proof. exact (accepted_tools_once always ex_slice ex_slice_ok). Defined.

(** ** The reduced state *)

Section reduced.
Context (IsDeepEqual : ProvisionedEntry → ProvisionedEntry → bool).

(** The entries recovery knows of. *)
Definition known (input : LaneReductionInput) : gmap string Entry :=
  entryMap (entries (slice input) ++ bySequence e_seq (ownEntries input)).

Lemma reduce_shape input res op :
  reduceLaneState IsDeepEqual input = Ok res → ls_operation (laneState res) = Some op →
  ∃ started, head (openOperations (slice input)) = Some started ∧
    op = (reduceOperation started (bySequence r_seq (records (slice input)))
            (bySequence e_seq (ownEntries input)) (known input)).1.
Proof.
  unfold reduceLaneState. intros (? & _ & H)%rbind_Ok Hop.
  destruct (head (openOperations (slice input))) as [started|]; [|by injection H as <-].
  exists started. split; [done|]. unfold known. destruct (reduceOperation _ _ _ _) as [o f]. injection H as <-.
  simpl in Hop. by injection Hop as <-.
Qed.

Lemma pendingOf_elem q runId m rs t :
  t ∈ pendingOf q runId (pendingQueue m rs) →
  m !! pe_id t = None ∧ pe_id t ∉ cancelledIds rs ∧
  ∃ r, r ∈ rs ∧ r_body r = QueueEnqueued q (Some runId) t.
Proof.
  unfold pendingOf, pendingQueue. intros (it & -> & Hit)%list_elem_of_fmap.
  apply list_elem_of_In, filter_In in Hit as [Hit Hq]. apply filter_In in Hit as [Hit Hp].
  apply andb_true_iff in Hq as [Hq1 Hq2]. apply andb_true_iff in Hp as [Hp1 Hp2].
  apply negb_true_iff in Hp1. apply negb_true_iff in Hp2. unfold has in Hp1. zb. split_and!; [|done|].
  - by apply eq_None_not_Some.
  - apply list_elem_of_In, list_elem_of_omap in Hit as (r & Hr & He). exists r. split; [done|].
    unfold queue_item in He. destruct (r_body r); try done. injection He as <-. simpl in *. by subst.
Qed.
End reduced.

(** Pending work.  What recovery will deliver (steering and follow-up messages,
    deferred writes, missing initial messages) is work of the open operation that
    does not exist as an entry yet; queued messages are not cancelled, and there
    are none once the operation is aborting. *)
Theorem pending_work IsDeepEqual input res op :
  reduceLaneState IsDeepEqual input = Ok res → ls_operation (laneState res) = Some op →
  (∀ t, t ∈ op_pendingSteer op ++ op_pendingFollowUp op →
     op_aborting op = false ∧ known input !! pe_id t = None ∧
     pe_id t ∉ cancelledIds (bySequence r_seq (records (slice input))) ∧
     ∃ r q, r ∈ records (slice input) ∧ q ≠ QNextRun ∧ r_body r = QueueEnqueued q (Some (op_id op)) t) ∧
  (∀ t, t ∈ op_pendingWrites op →
     known input !! pe_id t = None ∧
     ∃ r, r ∈ records (slice input) ∧ r_body r = WriteDeferred (op_id op) t) ∧
  (∀ t, t ∈ op_missingInitialMessages op ↔ t ∈ initialMessages (op_intent op) ∧ known input !! pe_id t = None).
Proof.
  intros Hred Hop. destruct (reduce_shape _ _ _ _ Hred Hop) as (started & _ & ->).
  set (rs := bySequence r_seq (records (slice input))). set (m := known input). cbn [op_aborting op_id op_intent reduceOperation fst
    op_pendingSteer op_pendingFollowUp op_pendingWrites op_missingInitialMessages].
  assert (∀ t : ProvisionedEntry, negb (has m (pe_id t)) = true ↔ m !! pe_id t = None) as Hnone.
  { intros t. unfold has. rewrite negb_true_iff, bool_decide_eq_false. by rewrite eq_None_not_Some. }
  split_and!.
  - intros t Ht. destruct (existsb is_abort _) eqn:Hab; [set_solver|]. split; [done|].
    apply elem_of_app in Ht as [Ht|Ht]; apply pendingOf_elem in Ht as (H1 & H2 & r & Hr & Hb);
      (split_and!; [done|done|exists r; eexists; split_and!; [by apply (sort_by_elem r_seq)| |exact Hb]; done]).
  - intros t Ht. apply list_elem_of_In, filter_In in Ht as [Ht Hh]. apply Hnone in Hh. split; [done|].
    apply list_elem_of_In, list_elem_of_omap in Ht as (r & Hr & Hw). apply list_elem_of_In, filter_In in Hr as [Hr Hbel].
    exists r. split; [by apply (sort_by_elem r_seq), list_elem_of_In|].
    unfold deferredWrite, belongs, r_runId in *. destruct (r_body r); try done. zb. congruence.
  - intros t. rewrite <- Hnone. rewrite list_elem_of_In, filter_In, <- list_elem_of_In. done.
Qed.

Definition ex_input : LaneReductionInput :=
  mkInput ex_slice (Some "a1") ex_own [] (mkConfiguration ("p", "m") "off" []).

Definition ex_reduction : LaneReductionResult :=
  match reduceLaneState always ex_input with Ok r => r | Err _ => mkReduction (mkLaneState "" None None []) (mkConfiguration ("", "") "" []) None end.

Definition ex_operation : OperationState :=
  match ls_operation (laneState ex_reduction) with Some o => o
  | None => (reduceOperation (mkStarted "" 0 ex_intent) [] [] ∅).1 end.

Lemma pending_work_witness :
  op_pendingSteer ex_operation = [user_item "st1"] ∧ ls_pendingNextRun (laneState ex_reduction) = [user_item "n1"] ∧
  (∀ t, t ∈ op_missingInitialMessages ex_operation ↔
     t ∈ initialMessages (op_intent ex_operation) ∧ known ex_input !! pe_id t = None).
Proof.
  split; [vm_compute; reflexivity|]. split; [vm_compute; reflexivity|].
  apply (pending_work always ex_input ex_reduction ex_operation); vm_compute; reflexivity.
Defined.

Lemma imap_value {A} (f : nat → A → A) l : (∀ i x, f i x = x) → imap f l = l.
Proof. intros H. apply list_eq. intros i. rewrite list_lookup_imap. destruct (l !! i); simpl; [by rewrite H|done]. Qed.

Lemma imap_index {A} (f : nat → A → nat) l : (∀ i x, f i x = i) → imap f l = seq 0 (length l).
Proof.
  intros H. apply list_eq. intros i. rewrite list_lookup_imap.
  destruct (l !! i) eqn:E; simpl.
  - rewrite H. symmetry. apply lookup_seq. apply lookup_lt_Some in E. lia.
  - symmetry. apply lookup_seq_ge. by apply lookup_ge_None.
Qed.

(** The tool batch.  It belongs to the newest assistant entry of the operation
    with tool calls, lists those calls in order, and is resolved exactly when every
    call has a result entry. *)
Theorem tool_batch operationId rs own m deferredWriteIds batch :
  deriveToolBatch operationId rs own m deferredWriteIds = Some batch →
  (∃ pre e a post, own = pre ++ e :: post ∧ e_id e = assistantEntryId batch ∧ assistant_of e = Some a ∧
     Forall (λ x, has_tool_call x = false) post ∧
     cs_toolCall <$> calls batch = tool_calls (am_content a) ∧
     cs_toolIndex <$> calls batch = seq 0 (length (tool_calls (am_content a)))) ∧
  (unresolved batch = false ↔ Forall (λ c, cs_resultExists c = true) (calls batch)).
Proof.
  unfold deriveToolBatch. destruct (list_find _ (reverse own)) as [[i e]|] eqn:Hf; [|done].
  apply list_find_Some in Hf as (Hi & Hhas & Hbefore).
  destruct (assistant_of e) as [a|] eqn:Ha; [|done]. intros [= <-]. cbn [assistantEntryId calls unresolved]. split.
  - pose proof (take_drop_middle _ _ _ Hi) as Hmid.
    exists (reverse (drop (S i) (reverse own))), e, a, (reverse (take i (reverse own))). split_and!; try done.
    + rewrite <- (reverse_involutive own) at 1. rewrite <- Hmid at 1. rewrite reverse_app, reverse_cons, <- app_assoc. done.
    + apply Forall_reverse, Forall_forall. intros x [j Hj]%list_elem_of_lookup. apply lookup_take_Some in Hj as [Hj Hlt].
      specialize (Hbefore j x Hj Hlt). by destruct (has_tool_call x).
    + rewrite fmap_imap. by apply imap_value.
    + rewrite fmap_imap. by apply imap_index.
  - rewrite Forall_forall. split.
    + intros Hex c Hc. destruct (cs_resultExists c) eqn:E; [done|]. exfalso.
      assert (existsb (λ c, negb (cs_resultExists c)) (imap (deriveCall e (batchStarts operationId (e_id e) rs) own m deferredWriteIds)
        (tool_calls (am_content a))) = true); [|congruence].
      apply existsb_exists. exists c. split; [by apply list_elem_of_In|by rewrite E].
    + intros Hall. apply not_true_iff_false. intros (c & Hc%list_elem_of_In & Hn)%existsb_exists.
      by rewrite (Hall c Hc) in Hn.
Qed.

Lemma tool_batch_witness :
  ∃ batch, deriveToolBatch "op" (records ex_slice) ex_own (entryMap ex_own) [] = Some batch ∧
    length (calls batch) = 1%nat ∧
    (unresolved batch = false ↔ Forall (λ c, cs_resultExists c = true) (calls batch)).
Proof.
  eexists. split; [vm_compute; reflexivity|]. split; [reflexivity|].
  eapply (tool_batch "op" (records ex_slice) ex_own (entryMap ex_own) []). vm_compute. reflexivity.
Defined.

(** C22: Recovery does not depend on the order in which storage returned the records
    and entries: with distinct sequence numbers and ids, permuting them changes
    neither the verdict nor the reduced state. *)
Theorem reduce_order_independent IsDeepEqual ln opens rs rs' es es' leaf own config defs :
  NoDup (r_seq <$> rs) → NoDup (e_id <$> es) → rs ≡ₚ rs' → es ≡ₚ es' →
  reduceLaneState IsDeepEqual (mkInput (mkSlice ln opens rs es) leaf own config defs) =
  reduceLaneState IsDeepEqual (mkInput (mkSlice ln opens rs' es') leaf own config defs).
Proof.
  intros Hrs Hes Hpr Hpe. unfold reduceLaneState, validateRecordLog.
  cbn [slice leafId ownEntries configurationEntries defaults lane openOperations records entries].
  change (bySequence r_seq rs) with (sort_by r_seq rs). rewrite (sort_by_perm r_seq rs _ Hrs Hpr), (entryMap_perm es es' Hes Hpe).
  assert (entryMap (es ++ bySequence e_seq own) = entryMap (es' ++ bySequence e_seq own)) as ->; [|done].
  unfold entryMap. rewrite !foldl_app. fold (entryMap es). fold (entryMap es'). by rewrite (entryMap_perm es es' Hes Hpe).
Qed.

Lemma reduce_order_witness :
  reduceLaneState always ex_input =
  reduceLaneState always (mkInput (mkSlice "main" [mkStarted "op" 1 ex_intent] (reverse ex_records) (reverse ex_own))
    (Some "a1") ex_own [] (mkConfiguration ("p", "m") "off" [])).
Proof.
  apply (reduce_order_independent always "main" [mkStarted "op" 1 ex_intent] ex_records (reverse ex_records) ex_own (reverse ex_own)).
  - decide_now.
  - decide_now.
  - symmetry. apply reverse_Permutation.
  - symmetry. apply reverse_Permutation.
Defined.
