(* ===== verification/WireTypes.v ===== *)
(** The messages of the wire protocol as the client reads them: the static types
    of [cli/packages/protocol/src/schemas.ts] for snapshots, transcript items,
    progress, events, commands and results.  Parts that the client only stores
    and copies are carried as JSON data ([tree]). *)
From S2P Require Import Prelude JsValue.
Open Scope Z_scope.

Inductive AssistantContent :=
| TextContent (text : jsstr)
| ThinkingContent (thinking : jsstr) (redacted : option bool)
| ToolCallContent (toolCallId toolName : jsstr) (input : tree).

Inductive TranscriptItem :=
| UserTranscriptItem (id : jsstr) (rest : tree)
| AssistantTranscriptItem (id : jsstr) (content : list AssistantContent) (rest : tree)
| ToolTranscriptItem (id : jsstr) (rest : tree).

Definition item_id (i : TranscriptItem) : jsstr :=
  match i with
  | UserTranscriptItem id _ | AssistantTranscriptItem id _ _ | ToolTranscriptItem id _ => id
  end.

Inductive DeltaKind := DText | DThinking | DToolCall.

Inductive TranscriptProgress :=
| item_started (item : TranscriptItem)
| assistant_delta (messageId : jsstr) (contentIndex : nat) (kind : DeltaKind) (delta : jsstr)
| item_updated (item : TranscriptItem)
| item_finished (item : TranscriptItem).

Record SessionSnapshot := mkSession {
  ss_id : jsstr;
  ss_attached : bool;
  ss_revision : Z;
  ss_transcript : list TranscriptItem;
  ss_queuedSteer : list TranscriptItem;
  ss_rest : tree;
}.

Record ServerSnapshot := mkServer {
  sv_revision : Z;
  sv_rest : tree;
}.

Inductive ServerEvent :=
| server_snapshot (snapshot : ServerSnapshot)
| session_snapshot (snapshot : SessionSnapshot)
| session_progress (sessionId : jsstr) (progress : TranscriptProgress)
| session_removed (sessionId : jsstr).

Inductive CommandName :=
| list_cmd | create_cmd | attach_cmd | detach_cmd | prompt_cmd | steer_cmd | abort_cmd | set_model_cmd
| set_thinking_cmd.

#[export] Instance CommandName_eq_dec : EqDecision CommandName.
Proof. solve_decision. Defined.

Definition command_text (c : CommandName) : jsstr :=
  js_lit match c with
  | list_cmd => "list"
  | create_cmd => "create"
  | attach_cmd => "attach"
  | detach_cmd => "detach"
  | prompt_cmd => "prompt"
  | steer_cmd => "steer"
  | abort_cmd => "abort"
  | set_model_cmd => "set_model"
  | set_thinking_cmd => "set_thinking"
  end.

(** A command: its name, and its parameters as sent. *)
Record Command := mkCommand {
  c_command : CommandName;
  c_params : tree;
}.

(** Results: [list] carries metadata, [detach] a session id, every other command a session snapshot. *)
Inductive CommandResult :=
| ListResult (sessions : tree)
| DetachResult (sessionId : jsstr)
| SessionResult (command : CommandName) (session : SessionSnapshot).

Definition result_command (r : CommandResult) : CommandName :=
  match r with
  | ListResult _ => list_cmd
  | DetachResult _ => detach_cmd
  | SessionResult command _ => command
  end.

(** [SessionResult] is never the result of [list] or [detach]. *)
Definition result_typed (r : CommandResult) : bool :=
  match r with
  | SessionResult command _ => negb (bool_decide (command = list_cmd ∨ command = detach_cmd))
  | _ => true
  end.

Record ProtocolError := mkProtocolError {
  err_code : string;
  err_message : jsstr;
  err_details : option tree;
}.

Inductive ServerMessage :=
| ServerHello (snapshot : ServerSnapshot)
| ServerHelloError (error : ProtocolError)
| Response (id : jsstr) (outcome : CommandResult + ProtocolError)
| Event (event : ServerEvent).
