(* ===== verification/ClientState.v ===== *)
(** The client's view of the server: [cli/packages/client/src/state.ts].

    [ClientState] is the class's fields as a record.  A listener is a callback,
    named by a positive number; a [Set] of listeners is a list in insertion order
    without duplicates.  [addMappedListener] keeps one [Set] object per session
    id, and the closure it returns captures that object: the sets live in a store
    and the map holds their locations.  An operation returns the new state and
    the calls it makes to listeners, in order; a listener that throws is reported
    and does not disturb the rest, and what a listener does to the client
    is a later operation. *)
From S2P Require Import Prelude JsValue WireTypes.
Open Scope Z_scope.

Notation listener := positive.

(** [Set.add] and [Set.delete] *)
Definition set_add (l : listener) (s : list listener) : list listener :=
  if bool_decide (l ∈ s) then s else s ++ [l].
Definition set_delete (l : listener) (s : list listener) : list listener :=
  filter (λ x, x ≠ l) s.

(** ** Listeners per session id *)

Record registry := mkRegistry {
  listenersById : gmap jsstr loc;
  sets : gmap loc (list listener);
}.

(** The closure [addMappedListener] returns: the id, the captured set, the listener. *)
Record subscription := mkSubscription {
  sub_id : jsstr;
  sub_set : loc;
  sub_listener : listener;
}.

Definition new_registry : registry := mkRegistry ∅ ∅.

Section registry.
Implicit Types r : registry.

(** [listenersById.get(id)], empty when undefined. *)
Definition listeners r (id : jsstr) : list listener :=
  default [] (l ← listenersById r !! id; sets r !! l).

Definition addMappedListener r (id : jsstr) (l : listener) : registry * subscription :=
  match listenersById r !! id with
  | Some s =>
      (mkRegistry (listenersById r) (<[s := set_add l (default [] (sets r !! s))]> (sets r)),
       mkSubscription id s l)
  | None =>
      let s := fresh (dom (sets r)) in
      (mkRegistry (<[id := s]> (listenersById r)) (<[s := set_add l []]> (sets r)),
       mkSubscription id s l)
  end.

Definition unsubscribe r (u : subscription) : registry :=
  let ls := set_delete (sub_listener u) (default [] (sets r !! sub_set u)) in
  let sets := <[sub_set u := ls]> (sets r) in
  if bool_decide (ls = []) then mkRegistry (delete (sub_id u) (listenersById r)) sets
  else mkRegistry (listenersById r) sets.

(** [listenersById.clear()] *)
Definition clear_registry r : registry := mkRegistry ∅ (sets r).
End registry.

(** ** The state *)

Record ClientState := mkClientState {
  sessionSnapshots : gmap jsstr SessionSnapshot;
  attachedSessionIds : gset jsstr;
  snapshotListeners : list listener;
  eventListeners : list listener;
  sessionSnapshotListeners : registry;
  sessionEventListeners : registry;
  snapshot : option ServerSnapshot;
}.

(** A call of a listener. *)
Inductive notification :=
| OnSnapshot (l : listener) (s : ServerSnapshot)
| OnEvent (l : listener) (e : ServerEvent)
| OnSessionSnapshot (l : listener) (s : SessionSnapshot)
| OnSessionEvent (l : listener) (e : ServerEvent).

Definition new_ClientState : ClientState :=
  mkClientState ∅ ∅ [] [] new_registry new_registry None.

Section client_state.
Implicit Types st : ClientState.

Definition reset st : ClientState :=
  mkClientState ∅ ∅ (snapshotListeners st) (eventListeners st) (sessionSnapshotListeners st)
    (sessionEventListeners st) None.

Definition clearAttachments st : ClientState :=
  mkClientState (sessionSnapshots st) ∅ (snapshotListeners st) (eventListeners st)
    (sessionSnapshotListeners st) (sessionEventListeners st) (snapshot st).

Definition dispose st : ClientState :=
  let st := reset st in
  mkClientState (sessionSnapshots st) (attachedSessionIds st) [] []
    (clear_registry (sessionSnapshotListeners st)) (clear_registry (sessionEventListeners st))
    (snapshot st).

Definition getSessionSnapshot st (sessionId : jsstr) : option SessionSnapshot :=
  sessionSnapshots st !! sessionId.

Definition isSessionAttached st (sessionId : jsstr) : bool :=
  bool_decide (sessionId ∈ attachedSessionIds st).

Definition with_sessions st (snapshots : gmap jsstr SessionSnapshot) (attached : gset jsstr) : ClientState :=
  mkClientState snapshots attached (snapshotListeners st) (eventListeners st)
    (sessionSnapshotListeners st) (sessionEventListeners st) (snapshot st).

Definition forgetSessionSnapshot st (sessionId : jsstr) : ClientState * option SessionSnapshot :=
  (with_sessions st (delete sessionId (sessionSnapshots st)) (attachedSessionIds st),
   sessionSnapshots st !! sessionId).

Definition restoreSessionSnapshot st (s : SessionSnapshot) : ClientState :=
  if bool_decide (is_Some (sessionSnapshots st !! ss_id s)) then st
  else with_sessions st (<[ss_id s := s]> (sessionSnapshots st)) (attachedSessionIds st).

Definition subscribeSession st (sessionId : jsstr) (l : listener) : ClientState * subscription :=
  let '(r, u) := addMappedListener (sessionSnapshotListeners st) sessionId l in
  (mkClientState (sessionSnapshots st) (attachedSessionIds st) (snapshotListeners st) (eventListeners st)
     r (sessionEventListeners st) (snapshot st), u).

Definition onSessionEvent st (sessionId : jsstr) (l : listener) : ClientState * subscription :=
  let '(r, u) := addMappedListener (sessionEventListeners st) sessionId l in
  (mkClientState (sessionSnapshots st) (attachedSessionIds st) (snapshotListeners st) (eventListeners st)
     (sessionSnapshotListeners st) r (snapshot st), u).

Definition subscribe st (l : listener) : ClientState :=
  mkClientState (sessionSnapshots st) (attachedSessionIds st) (set_add l (snapshotListeners st))
    (eventListeners st) (sessionSnapshotListeners st) (sessionEventListeners st) (snapshot st).

Definition onEvent st (l : listener) : ClientState :=
  mkClientState (sessionSnapshots st) (attachedSessionIds st) (snapshotListeners st)
    (set_add l (eventListeners st)) (sessionSnapshotListeners st) (sessionEventListeners st) (snapshot st).

(** The closures [subscribe], [onEvent], [subscribeSession] and [onSessionEvent] return. *)
Definition unsubscribeSnapshot st (l : listener) : ClientState :=
  mkClientState (sessionSnapshots st) (attachedSessionIds st) (set_delete l (snapshotListeners st))
    (eventListeners st) (sessionSnapshotListeners st) (sessionEventListeners st) (snapshot st).

Definition unsubscribeEvent st (l : listener) : ClientState :=
  mkClientState (sessionSnapshots st) (attachedSessionIds st) (snapshotListeners st)
    (set_delete l (eventListeners st)) (sessionSnapshotListeners st) (sessionEventListeners st) (snapshot st).

Definition unsubscribeSession st (u : subscription) : ClientState :=
  mkClientState (sessionSnapshots st) (attachedSessionIds st) (snapshotListeners st) (eventListeners st)
    (unsubscribe (sessionSnapshotListeners st) u) (sessionEventListeners st) (snapshot st).

Definition unsubscribeSessionEvent st (u : subscription) : ClientState :=
  mkClientState (sessionSnapshots st) (attachedSessionIds st) (snapshotListeners st) (eventListeners st)
    (sessionSnapshotListeners st) (unsubscribe (sessionEventListeners st) u) (snapshot st).

Definition applySessionSnapshot st (s : SessionSnapshot) (force : bool) : ClientState * list notification :=
  let current := sessionSnapshots st !! ss_id s in
  if negb force && match current with Some c => ss_revision s <? ss_revision c | None => false end
  then (st, []) else
  (with_sessions st (<[ss_id s := s]> (sessionSnapshots st))
     (if ss_attached s then {[ ss_id s ]} ∪ attachedSessionIds st
      else attachedSessionIds st ∖ {[ ss_id s ]}),
   (λ l, OnSessionSnapshot l s) <$> listeners (sessionSnapshotListeners st) (ss_id s)).

Definition applyServerSnapshot st (s : ServerSnapshot) : ClientState * list notification :=
  if match snapshot st with Some c => sv_revision s <? sv_revision c | None => false end then (st, []) else
  (mkClientState (sessionSnapshots st) (attachedSessionIds st) (snapshotListeners st) (eventListeners st)
     (sessionSnapshotListeners st) (sessionEventListeners st) (Some s),
   (λ l, OnSnapshot l s) <$> snapshotListeners st).

(** [{ ...snapshot, attached: false }] *)
Definition detached (s : SessionSnapshot) : SessionSnapshot :=
  mkSession (ss_id s) false (ss_revision s) (ss_transcript s) (ss_queuedSteer s) (ss_rest s).

Definition applyResult st (r : CommandResult) : ClientState * list notification :=
  match r with
  | ListResult _ => (st, [])
  | DetachResult sessionId =>
      let st := with_sessions st (sessionSnapshots st) (attachedSessionIds st ∖ {[ sessionId ]}) in
      match sessionSnapshots st !! sessionId with
      | Some s => applySessionSnapshot st (detached s) true
      | None => (st, [])
      end
  | SessionResult _ s => applySessionSnapshot st s false
  end.

Definition getEventSessionId (e : ServerEvent) : option jsstr :=
  match e with
  | session_snapshot s => Some (ss_id s)
  | session_progress sessionId _ | session_removed sessionId => Some sessionId
  | server_snapshot _ => None
  end.

Definition applyEvent st (e : ServerEvent) : ClientState * list notification :=
  let '(st, calls) :=
    match e with
    | server_snapshot s => applyServerSnapshot st s
    | session_snapshot s => applySessionSnapshot st s false
    | session_removed sessionId =>
        (with_sessions st (delete sessionId (sessionSnapshots st)) (attachedSessionIds st ∖ {[ sessionId ]}), [])
    | session_progress _ _ => (st, [])
    end in
  let calls := calls ++ ((λ l, OnEvent l e) <$> eventListeners st) in
  match getEventSessionId e with
  | Some sessionId =>
      if bool_decide (sessionId = []) then (st, calls) else
      (st, calls ++ ((λ l, OnSessionEvent l e) <$> listeners (sessionEventListeners st) sessionId))
  | None => (st, calls)
  end.
End client_state.
