(* ===== verification/ClientStateSpec.v ===== *)
(** Theorems about the client's state: a session listener stays in step with the
    stored snapshot, revisions never go back, and what the registry of listeners
    promises (and where a stale [Unsubscribe] breaks it). *)
From S2P Require Import Prelude JsValue WireTypes ClientState.
Open Scope Z_scope.

(** ** Snapshots *)

(** The inputs that reach the state from the server. *)
Inductive server_input :=
| FromResult (r : CommandResult)
| FromEvent (e : ServerEvent).

Definition receive (st : ClientState) (m : server_input) : ClientState * list notification :=
  match m with
  | FromResult r => applyResult st r
  | FromEvent e => applyEvent st e
  end.

Fixpoint receiveAll (st : ClientState) (ms : list server_input) : ClientState * list notification :=
  match ms with
  | [] => (st, [])
  | m :: ms =>
      let '(st, calls) := receive st m in
      let '(st, calls') := receiveAll st ms in (st, calls ++ calls')
  end.

(** Snapshots are filed under their id and the attached set agrees with them. *)
Definition view_ok (st : ClientState) : Prop :=
  map_Forall (λ id s, ss_id s = id ∧ (id ∈ attachedSessionIds st ↔ ss_attached s = true)) (sessionSnapshots st).

(** The snapshots of session [id] a listener is called with. *)
Definition seen_by (l : listener) (id : jsstr) (c : notification) : option SessionSnapshot :=
  match c with
  | OnSessionSnapshot l' s => if bool_decide (l' = l ∧ ss_id s = id) then Some s else None
  | _ => None
  end.

Definition seen (l : listener) (id : jsstr) (calls : list notification) : list SessionSnapshot :=
  omap (seen_by l id) calls.

Definition removes (id : jsstr) (m : server_input) : bool :=
  match m with
  | FromEvent (session_removed id') => bool_decide (id' = id)
  | _ => false
  end.

Definition older (a b : SessionSnapshot) : Prop := ss_revision a ≤ ss_revision b.

#[export] Instance older_transitive : Transitive older.
Proof. unfold older. intros ???. lia. Qed.

Lemma seen_app l id c c' : seen l id (c ++ c') = seen l id c ++ seen l id c'.
Proof. apply omap_app. Qed.

Lemma seen_other l id {A} (f : A → notification) ls :
  (∀ x, seen_by l id (f x) = None) → seen l id (f <$> ls) = [].
Proof. intros H. unfold seen. induction ls; csimpl; [done|]. by rewrite H. Qed.

Lemma seen_session l id s ls :
  seen l id ((λ l, OnSessionSnapshot l s) <$> ls) =
  if bool_decide (ss_id s = id) then replicate (length (filter (λ x, x = l) ls)) s else [].
Proof.
  unfold seen. induction ls as [|x ls IH]; csimpl; [by case_bool_decide|].
  rewrite IH, filter_cons. repeat case_decide; repeat case_bool_decide; naive_solver.
Qed.

(** What one input does to session [id], as a listener of it sees it. *)
Inductive stepped (l : listener) (id : jsstr) (st st' : ClientState) : list notification → Prop :=
| stepped_same calls :
    sessionSnapshots st' !! id = sessionSnapshots st !! id → seen l id calls = [] → stepped l id st st' calls
| stepped_new calls s n :
    sessionSnapshots st' !! id = Some s → seen l id calls = replicate (S n) s →
    (∀ c, sessionSnapshots st !! id = Some c → older c s) → stepped l id st st' calls.

Section steps.
Context (l : listener) (id : jsstr).

Lemma stepped_app st st' calls calls' :
  seen l id calls' = [] → stepped l id st st' calls → stepped l id st st' (calls ++ calls').
Proof.
  intros E [c H1 H2|c s n H1 H2 H3]; [apply stepped_same|eapply stepped_new];
    rewrite ?seen_app, ?E, ?app_nil_r; eauto.
Qed.

Lemma applySessionSnapshot_step st s force :
  view_ok st →
  (force = true → ∀ c, sessionSnapshots st !! ss_id s = Some c → older c s) →
  l ∈ listeners (sessionSnapshotListeners st) id →
  let '(st', calls) := applySessionSnapshot st s force in
  view_ok st' ∧ sessionSnapshotListeners st' = sessionSnapshotListeners st ∧ stepped l id st st' calls.
Proof.
  intros Hok Hforce Hl. unfold applySessionSnapshot.
  destruct (negb force && _) eqn:E; [split_and!; [done..|by apply stepped_same]|].
  split_and!; [|done|].
  - intros id' s'. unfold with_sessions; simpl. rewrite lookup_insert_Some.
    intros [[<- <-]|[Hne Hs']]; [destruct (ss_attached s); set_solver|].
    apply Hok in Hs' as [? Hs']. split; [done|]. rewrite <- Hs'. destruct (ss_attached s); set_solver.
  - destruct (decide (ss_id s = id)) as [<-|Hne].
    + assert (∃ n, length (filter (λ x, x = l) (listeners (sessionSnapshotListeners st) (ss_id s))) = S n) as [n Hn].
      { destruct (filter _ _) as [|x k] eqn:Ef; [|by eexists].
        exfalso. apply (not_elem_of_nil l). rewrite <- Ef, list_elem_of_filter. done. }
      apply stepped_new with s n; simpl.
      * apply lookup_insert_eq.
      * by rewrite seen_session, bool_decide_eq_true_2, Hn.
      * intros c Hc. destruct force; [by apply Hforce|]. rewrite Hc in E. simpl in E. unfold older. zb. lia.
    + apply stepped_same; simpl.
      * by rewrite lookup_insert_ne.
      * by rewrite seen_session, bool_decide_eq_false_2.
Qed.

Lemma receive_step st m :
  view_ok st → l ∈ listeners (sessionSnapshotListeners st) id → removes id m = false →
  let '(st', calls) := receive st m in
  view_ok st' ∧ sessionSnapshotListeners st' = sessionSnapshotListeners st ∧ stepped l id st st' calls.
Proof.
  intros Hok Hl Hm. destruct m as [r|e]; simpl.
  - destruct r as [|sessionId|cmd s]; simpl; [split_and!; [done..|by apply stepped_same]| |].
    + destruct (sessionSnapshots st !! sessionId) as [s|] eqn:Es.
      * destruct (Hok _ _ Es) as [Hid Hat].
        set (st0 := with_sessions st (sessionSnapshots st) (attachedSessionIds st ∖ {[sessionId]})).
        assert (applySessionSnapshot st0 (detached s) true = applySessionSnapshot st (detached s) true) as ->.
        { unfold applySessionSnapshot, st0, with_sessions. simpl. subst sessionId. f_equal. f_equal. set_solver. }
        apply applySessionSnapshot_step; [done| |done].
        simpl. rewrite Hid, Es. intros _ c [= <-]. unfold older. simpl. lia.
      * split_and!; [|done|by apply stepped_same]. intros id' s'. simpl. intros Hs'.
        destruct (Hok _ _ Hs') as [? ?]. assert (id' ≠ sessionId) by congruence. set_solver.
    + by apply applySessionSnapshot_step.
  - unfold applyEvent.
    assert (∀ st' calls c2, seen l id c2 = [] →
      view_ok st' ∧ sessionSnapshotListeners st' = sessionSnapshotListeners st ∧ stepped l id st st' calls →
      view_ok st' ∧ sessionSnapshotListeners st' = sessionSnapshotListeners st ∧ stepped l id st st' (calls ++ c2)) as Happ.
    { intros ??? Hc2 (?&?&?). split_and!; [done..|by apply stepped_app]. }
    destruct (match e with server_snapshot _ => _ | _ => _ end) as [st' calls] eqn:E.
    assert (view_ok st' ∧ sessionSnapshotListeners st' = sessionSnapshotListeners st ∧ stepped l id st st' calls) as H.
    { destruct e as [s|s|sid p|sid].
      - unfold applyServerSnapshot in E. case_match; injection E as <- <-; [split_and!; [done..|by apply stepped_same]|].
        split_and!; [done..|]. apply stepped_same; [done|]. by apply seen_other.
      - pose proof (applySessionSnapshot_step st s false) as H. rewrite E in H. by apply H.
      - injection E as <- <-. split_and!; [done..|by apply stepped_same].
      - injection E as <- <-. simpl in Hm. zb. split_and!; [|done|].
        + intros id' s'. simpl. rewrite lookup_delete_Some. intros [Hne Hs']. apply Hok in Hs' as [??]. set_solver.
        + apply stepped_same; [|done]. simpl. by rewrite lookup_delete_ne. }
    destruct (getEventSessionId e); [case_bool_decide|];
      repeat (apply Happ; [by apply seen_other|]); done.
Qed.

Lemma Sorted_replicate s n k : Sorted older (s :: k) → Sorted older (replicate (S n) s ++ k).
Proof.
  intros H. induction n as [|n IH]; [done|]. simpl. constructor; [done|]. constructor. unfold older. lia.
Qed.

Lemma last_replicate (s : SessionSnapshot) n k : last (replicate (S n) s ++ k) = last (s :: k).
Proof. induction n as [|n IH]; [done|]. by rewrite <- IH. Qed.
End steps.

Lemma last_cons_ne {A} (x : A) k : k ≠ [] → last (x :: k) = last k.
Proof. by destruct k. Qed.

(** a session's listener is in step with the session.  Whatever results and
    events arrive, in any order (short of the session's removal), the snapshots a
    subscribed listener is called with never go back in revision, start no earlier
    than the stored one, and the last of them is the snapshot stored at the end;
    the set of attached sessions agrees with the stored snapshots throughout. *)
Theorem session_listener_in_step l id st ms :
  view_ok st →
  l ∈ listeners (sessionSnapshotListeners st) id →
  forallb (λ m, negb (removes id m)) ms = true →
  let '(st', calls) := receiveAll st ms in
  let history := option_list (getSessionSnapshot st id) ++ seen l id calls in
  Sorted older history ∧ last history = getSessionSnapshot st' id ∧ view_ok st'.
Proof.
  unfold getSessionSnapshot. revert st. induction ms as [|m ms IH]; intros st Hok Hl Hms; simpl.
  - rewrite app_nil_r. destruct (sessionSnapshots st !! id); simpl; (split_and!; [repeat constructor|done..]).
  - simpl in Hms. zb. pose proof (receive_step l id st m Hok Hl) as Hstep.
    destruct (receive st m) as [st1 c1]. destruct Hstep as (Hok1 & Hls & Hstep); [done|].
    specialize (IH st1 Hok1). rewrite Hls in IH. specialize (IH Hl ltac:(done)).
    destruct (receiveAll st1 ms) as [st' c2]. destruct IH as (Hsort & Hlast & ?).
    rewrite seen_app. destruct Hstep as [c E ->|c s n E -> Hold].
    + rewrite <- E. done.
    + rewrite E in Hsort, Hlast. simpl in Hsort, Hlast.
      split; [|split; [|done]]; destruct (sessionSnapshots st !! id) as [c0|]; cbn [option_list app].
      * constructor; [by apply Sorted_replicate|]. constructor. by apply Hold.
      * by apply Sorted_replicate.
      * change (option_list (Some c0)) with [c0]. rewrite <- Hlast, <- (last_replicate s n). by apply last_cons_ne.
      * rewrite <- Hlast, <- (last_replicate s n). done.
Qed.

Definition ex_snapshot (revision : Z) (attached : bool) : SessionSnapshot :=
  mkSession (js_lit "s") attached revision [] [] TNull.

Lemma session_listener_witness :
  let st := (subscribeSession new_ClientState (js_lit "s") 7%positive).1 in
  let ms := [FromResult (SessionResult attach_cmd (ex_snapshot 3 true));
             FromEvent (session_snapshot (ex_snapshot 2 true));
             FromEvent (session_snapshot (ex_snapshot 5 true));
             FromResult (DetachResult (js_lit "s"))] in
  seen 7 (js_lit "s") (receiveAll st ms).2 = [ex_snapshot 3 true; ex_snapshot 5 true; ex_snapshot 5 false] ∧
  let '(st', calls) := receiveAll st ms in
  let history := option_list (getSessionSnapshot st (js_lit "s")) ++ seen 7 (js_lit "s") calls in
  Sorted older history ∧ last history = getSessionSnapshot st' (js_lit "s") ∧ view_ok st'.
Proof.
  split; [vm_compute; reflexivity|].
  apply session_listener_in_step; [|decide_now|vm_compute; reflexivity].
  change (map_Forall (λ id s, ss_id s = id ∧ (id ∈ (∅ : gset jsstr) ↔ ss_attached s = true)) (∅ : gmap jsstr SessionSnapshot)). apply map_Forall_empty.
Defined.

(** ** Listeners per session id *)

(** Client calls on the registry; subscriptions are numbered in the order they
    are made, and a cancellation calls the closure of the one it names. *)
Inductive registry_call :=
| Subscribe (id : jsstr) (l : listener)
| Cancel (k : nat).

Definition registry_step (s : registry * list subscription) (c : registry_call) : registry * list subscription :=
  let '(r, subs) := s in
  match c with
  | Subscribe id l => let '(r, u) := addMappedListener r id l in (r, subs ++ [u])
  | Cancel k => match subs !! k with Some u => (unsubscribe r u, subs) | None => (r, subs) end
  end.

(** The contract: the listeners of a session are those subscribed for it and not
    cancelled, in the order of their subscriptions. *)
Record live_sub := mkLive { live_key : nat; live_id : jsstr; live_listener : listener }.

Definition spec_step (s : list live_sub * nat) (c : registry_call) : list live_sub * nat :=
  let '(live, n) := s in
  match c with
  | Subscribe id l => (live ++ [mkLive n id l], S n)
  | Cancel k => (filter (λ v, live_key v ≠ k) live, n)
  end.

Definition live_for (id : jsstr) (live : list live_sub) : list listener :=
  live_listener <$> filter (λ v, live_id v = id) live.

(** Each call names a fresh listener or a subscription that is still live: no
    closure is called twice. *)
Fixpoint well_used (s : list live_sub * nat) (cs : list registry_call) : bool :=
  match cs with
  | [] => true
  | c :: cs =>
      match c with
      | Subscribe _ l => bool_decide (l ∉ live_listener <$> s.1)
      | Cancel k => bool_decide (k ∈ live_key <$> s.1)
      end && well_used (spec_step s c) cs
  end.

Definition sub_of (subs : list subscription) (r : registry) (v : live_sub) : Prop :=
  ∃ loc, subs !! live_key v = Some (mkSubscription (live_id v) loc (live_listener v)) ∧
         listenersById r !! live_id v = Some loc.

Record registry_ok (s : registry * list subscription) (t : list live_sub * nat) : Prop := {
  ro_count : length s.2 = t.2;
  ro_listeners id : listeners s.1 id = live_for id t.1;
  ro_sets id loc : listenersById s.1 !! id = Some loc → is_Some (sets s.1 !! loc) ∧ live_for id t.1 ≠ [];
  ro_inj id id' loc : listenersById s.1 !! id = Some loc → listenersById s.1 !! id' = Some loc → id = id';
  ro_subs v : v ∈ t.1 → sub_of s.2 s.1 v;
  ro_fresh : NoDup (live_listener <$> t.1);
  ro_keys : NoDup (live_key <$> t.1);
  ro_bound v : v ∈ t.1 → (live_key v < t.2)%nat;
}.

Lemma live_for_snoc id live v :
  live_for id (live ++ [v]) = live_for id live ++ (if bool_decide (live_id v = id) then [live_listener v] else []).
Proof.
  unfold live_for. rewrite filter_app, fmap_app, filter_cons, filter_nil. repeat case_decide; repeat case_bool_decide; naive_solver.
Qed.

Lemma live_for_elem id live l : l ∈ live_for id live → l ∈ live_listener <$> live.
Proof.
  unfold live_for. rewrite !list_elem_of_fmap. intros (v & ? & [_ Hv]%list_elem_of_filter). eauto.
Qed.

(** Deleting the listener of the cancelled subscription from its set. *)
Lemma live_for_cancel live v :
  NoDup (live_listener <$> live) → NoDup (live_key <$> live) → v ∈ live →
  set_delete (live_listener v) (live_for (live_id v) live) =
  live_for (live_id v) (filter (λ w, live_key w ≠ live_key v) live).
Proof.
  intros Hl Hk Hv. unfold set_delete, live_for.
  assert (∀ w, w ∈ live → live_listener w ≠ live_listener v ↔ live_key w ≠ live_key v) as Heq.
  { intros w Hw. split; intros Hne E; apply Hne; f_equal;
      [by apply (NoDup_fmap_eq live_key live)|by apply (NoDup_fmap_eq live_listener live)]. }
  clear Hl Hk Hv. induction live as [|w live IH]; [done|].
  assert (∀ w, w ∈ live → live_listener w ≠ live_listener v ↔ live_key w ≠ live_key v) as Heq'
    by (intros; apply Heq; by right).
  specialize (IH Heq'). specialize (Heq w ltac:(left)). rewrite !filter_cons.
  destruct (decide (live_id w = live_id v)); destruct (decide (live_key w ≠ live_key v)); csimpl; rewrite ?filter_cons;
    repeat case_decide; csimpl; rewrite ?IH; naive_solver.
Qed.

Lemma live_for_other id live k :
  (∀ w, w ∈ live → live_key w = k → live_id w ≠ id) →
  live_for id (filter (λ w, live_key w ≠ k) live) = live_for id live.
Proof.
  unfold live_for. induction live as [|w live IH]; intros H; [done|].
  assert (∀ w, w ∈ live → live_key w = k → live_id w ≠ id) as H' by (intros; apply H; [by right|done]).
  specialize (IH H'). specialize (H w ltac:(left)). rewrite !filter_cons.
  destruct (decide (live_key w ≠ k)) as [Hk|Hk]; rewrite ?filter_cons; case_decide; csimpl; rewrite ?IH; try done.
  apply dec_stable in Hk. naive_solver.
Qed.

Section registry_sim.
Context (r : registry) (subs : list subscription) (live : list live_sub) (n : nat).
Context (Hok : registry_ok (r, subs) (live, n)).

(** The set object a session's subscriptions share, and its content. *)
Lemma registry_set id loc : listenersById r !! id = Some loc → sets r !! loc = Some (live_for id live).
Proof.
  intros H. destruct (ro_sets _ _ Hok id loc H) as [[ls Hls] _]. simpl in *.
  pose proof (ro_listeners _ _ Hok id) as Hid. unfold listeners in Hid. simpl in Hid.
  rewrite H in Hid. simpl in Hid. rewrite Hls in Hid. simpl in Hid. by rewrite Hls, Hid.
Qed.

Lemma live_for_None id : listenersById r !! id = None → live_for id live = [].
Proof. intros H. pose proof (ro_listeners _ _ Hok id) as Hid. unfold listeners in Hid. simpl in Hid. by rewrite H in Hid. Qed.

(** What [addMappedListener] does: the session's set, shared or new, gets the listener. *)
Lemma add_spec id l :
  l ∉ live_listener <$> live →
  ∃ loc,
    addMappedListener r id l =
      (mkRegistry (<[id := loc]> (listenersById r)) (<[loc := live_for id live ++ [l]]> (sets r)), mkSubscription id loc l) ∧
    (listenersById r !! id = Some loc ∨ listenersById r !! id = None ∧ sets r !! loc = None) ∧
    (∀ id' loc', id' ≠ id → listenersById r !! id' = Some loc' → loc' ≠ loc).
Proof.
  intros Hfresh. unfold addMappedListener. destruct (listenersById r !! id) as [loc|] eqn:E.
  - exists loc. rewrite (registry_set id loc E). simpl. unfold set_add. rewrite bool_decide_eq_false_2.
    + rewrite (insert_id (listenersById r)) by done. split_and!; [done|by left|].
      intros id' loc' Hne H' ->. apply Hne. by apply (ro_inj _ _ Hok _ _ loc).
    + intros ?%live_for_elem. done.
  - exists (fresh (dom (sets r))). unfold set_add. rewrite bool_decide_eq_false_2 by set_solver.
    rewrite (live_for_None id E).
    assert (sets r !! fresh (dom (sets r)) = None) as Hf by apply not_elem_of_dom, is_fresh.
    split_and!; [done|by right|]. intros id' loc' Hne H' ->. by rewrite (registry_set id' _ H') in Hf.
Qed.

Lemma subscribe_ok id l :
  l ∉ live_listener <$> live →
  registry_ok (registry_step (r, subs) (Subscribe id l)) (spec_step (live, n) (Subscribe id l)).
Proof.
  intros Hfresh. pose proof (ro_count _ _ Hok) as Hn. simpl in Hn. cbn [registry_step spec_step].
  destruct (add_spec id l Hfresh) as (loc & -> & Hloc & Hdiff).
  constructor; simpl.
  - rewrite length_app. simpl. lia.
  - intros id'. rewrite live_for_snoc. simpl. unfold listeners. simpl. case_bool_decide as E.
    + subst id'. rewrite lookup_insert_eq. simpl. by rewrite lookup_insert_eq.
    + rewrite lookup_insert_ne by done. destruct (listenersById r !! id') as [loc'|] eqn:E'; simpl.
      * rewrite lookup_insert_ne by (intros <-; by eapply Hdiff). rewrite app_nil_r. by rewrite (registry_set _ _ E').
      * by rewrite (live_for_None _ E').
  - intros id' loc'. rewrite live_for_snoc. simpl. rewrite lookup_insert_Some. intros [[<- <-]|[Hne H]].
    + rewrite lookup_insert_eq, bool_decide_eq_true_2 by done. split; [by eexists|]. by destruct (live_for id live).
    + rewrite lookup_insert_ne by (intros <-; by eapply Hdiff). rewrite bool_decide_eq_false_2, app_nil_r by done.
      by apply (ro_sets _ _ Hok).
  - intros id1 id2 loc'. rewrite !lookup_insert_Some. intros [[<- <-]|[Hne1 H1]] [[<- E2]|[Hne2 H2]]; [done| | |].
    + exfalso. by eapply Hdiff.
    + exfalso. subst loc'. by eapply Hdiff.
    + by apply (ro_inj _ _ Hok _ _ loc').
  - intros v [Hv|Hv]%elem_of_app.
    + destruct (ro_subs _ _ Hok v Hv) as (loc' & Hs & Hb). simpl in *. exists loc'. simpl. split; [by apply lookup_app_l_Some|].
      destruct (decide (live_id v = id)) as [E|E]; [|by rewrite lookup_insert_ne].
      rewrite E, lookup_insert_eq in *. destruct Hloc as [?|[? _]]; congruence.
    + apply list_elem_of_singleton in Hv as ->. exists loc. simpl. rewrite lookup_insert_eq. split; [|done].
      by rewrite lookup_app_r, Hn, Nat.sub_diag by lia.
  - rewrite fmap_app. apply NoDup_app. split; [apply (ro_fresh _ _ Hok)|]. split; [|apply NoDup_singleton].
    simpl. intros x Hx ->%list_elem_of_singleton. done.
  - rewrite fmap_app. apply NoDup_app. split; [apply (ro_keys _ _ Hok)|]. split; [|apply NoDup_singleton].
    simpl. intros x (v & -> & Hv)%list_elem_of_fmap Hx%list_elem_of_singleton.
    apply (ro_bound _ _ Hok) in Hv. simpl in Hv. lia.
  - intros v [Hv|Hv]%elem_of_app; [apply (ro_bound _ _ Hok) in Hv; simpl in Hv; lia|].
    apply list_elem_of_singleton in Hv as ->. simpl. lia.
Qed.

Lemma cancel_ok k :
  k ∈ live_key <$> live →
  registry_ok (registry_step (r, subs) (Cancel k)) (spec_step (live, n) (Cancel k)).
Proof.
  intros (v & -> & Hv)%list_elem_of_fmap. destruct (ro_subs _ _ Hok v Hv) as (loc & Hs & Hb). simpl in Hs, Hb.
  pose proof (live_for_cancel live v (ro_fresh _ _ Hok) (ro_keys _ _ Hok) Hv) as Hdel.
  set (live' := filter (λ w, live_key w ≠ live_key v) live) in *.
  assert (∀ id, id ≠ live_id v → live_for id live' = live_for id live) as Hother.
  { intros id Hne. apply live_for_other. intros w Hw E. pose proof (NoDup_fmap_eq _ _ _ _ (ro_keys _ _ Hok) Hw Hv E).
    naive_solver. }
  assert (∀ id' loc', id' ≠ live_id v → listenersById r !! id' = Some loc' → loc' ≠ loc) as Hdiff.
  { intros id' loc' Hne H' ->. apply Hne. by apply (ro_inj _ _ Hok _ _ loc). }
  set (byId := if bool_decide (live_for (live_id v) live' = []) then delete (live_id v) (listenersById r) else listenersById r).
  assert (registry_step (r, subs) (Cancel (live_key v)) =
          (mkRegistry byId (<[loc := live_for (live_id v) live']> (sets r)), subs)) as ->.
  { cbn [registry_step]. rewrite Hs. unfold unsubscribe. cbn [sub_set sub_listener sub_id].
    rewrite (registry_set _ _ Hb). cbn [default from_option id]. rewrite Hdel. unfold byId. by case_bool_decide. }
  assert (∀ id' loc', byId !! id' = Some loc' ↔
            listenersById r !! id' = Some loc' ∧ (id' = live_id v → live_for (live_id v) live' ≠ [])) as Hby.
  { intros id' loc'. unfold byId. case_bool_decide as E; [rewrite lookup_delete_Some|]; naive_solver. }
  cbn [spec_step]. fold live'. assert (live' ⊆ live) as Hsub by (intros w [_ Hw]%list_elem_of_filter; done).
  constructor; simpl.
  - apply (ro_count _ _ Hok).
  - intros id'. unfold listeners. simpl. destruct (byId !! id') as [loc'|] eqn:E; simpl.
    + apply Hby in E as [E Hne]. destruct (decide (id' = live_id v)) as [->|Hid].
      * assert (loc' = loc) as -> by congruence. by rewrite lookup_insert_eq.
      * rewrite lookup_insert_ne by (intros <-; by eapply Hdiff). rewrite (registry_set _ _ E). simpl. by rewrite Hother.
    + destruct (decide (id' = live_id v)) as [->|Hid].
      * destruct (decide (live_for (live_id v) live' = [])) as [->|Hne]; [done|].
        assert (byId !! live_id v = Some loc) by (by apply Hby). congruence.
      * rewrite Hother by done. destruct (listenersById r !! id') as [loc'|] eqn:E'; [|by rewrite live_for_None].
        assert (byId !! id' = Some loc') by (apply Hby; naive_solver). congruence.
  - intros id' loc' [E Hne]%Hby. destruct (decide (id' = live_id v)) as [->|Hid].
    + assert (loc' = loc) as -> by congruence. rewrite lookup_insert_eq. split; [by eexists|by apply Hne].
    + rewrite lookup_insert_ne by (intros <-; by eapply Hdiff). rewrite Hother by done. by apply (ro_sets _ _ Hok).
  - intros id1 id2 loc' [E1 _]%Hby [E2 _]%Hby. by apply (ro_inj _ _ Hok _ _ loc').
  - intros w Hw. destruct (ro_subs _ _ Hok w (Hsub w Hw)) as (loc' & Hs' & Hb'). exists loc'. simpl in *. split; [done|].
    apply Hby. split; [done|]. intros E. unfold live_for. rewrite <- E. intros Hnil%fmap_nil_inv.
    apply (not_elem_of_nil w). rewrite <- Hnil. by apply list_elem_of_filter.
  - apply (sublist_NoDup _ _ (ro_fresh _ _ Hok)), fmap_sublist, sublist_filter.
  - apply (sublist_NoDup _ _ (ro_keys _ _ Hok)), fmap_sublist, sublist_filter.
  - intros w Hw. apply (ro_bound _ _ Hok w). by apply Hsub.
Qed.
End registry_sim.

Lemma registry_ok_empty : registry_ok (new_registry, []) ([], 0%nat).
Proof. constructor; simpl; [done|done|intros ??; by rewrite lookup_empty|intros ???; by rewrite lookup_empty|set_solver|constructor|constructor|set_solver]. Qed.

Lemma registry_sim cs s t :
  registry_ok s t → well_used t cs = true →
  registry_ok (foldl registry_step s cs) (foldl spec_step t cs).
Proof.
  revert s t. induction cs as [|c cs IH]; intros [r subs] [live n] Hok Hw; [done|].
  cbn [well_used foldl] in *. apply andb_true_iff in Hw as [Hc Hw]. apply IH; [|done].
  destruct c; zb; [by apply subscribe_ok|by apply cancel_ok].
Qed.

(** the registry refines its contract.  For any interleaving of
    subscriptions and cancellations over any sessions, in which no [Unsubscribe]
    is called twice, the listeners that a snapshot or event of a session reaches
    are exactly those subscribed for that session and not yet cancelled, in the
    order they subscribed. *)
Theorem registry_refines cs id :
  well_used ([], 0%nat) cs = true →
  listeners (foldl registry_step (new_registry, []) cs).1 id = live_for id (foldl spec_step ([], 0%nat) cs).1.
Proof. intros Hw. apply (ro_listeners _ _ (registry_sim cs _ _ registry_ok_empty Hw) id). Qed.

Lemma registry_refines_witness :
  let cs := [Subscribe (js_lit "a") 1; Subscribe (js_lit "a") 2; Subscribe (js_lit "b") 3; Cancel 0;
             Subscribe (js_lit "a") 4; Cancel 1; Cancel 3; Subscribe (js_lit "a") 5] in
  live_for (js_lit "a") (foldl spec_step ([], 0%nat) cs).1 = [5%positive] ∧
  listeners (foldl registry_step (new_registry, []) cs).1 (js_lit "a") =
  live_for (js_lit "a") (foldl spec_step ([], 0%nat) cs).1.
Proof. split; [vm_compute; reflexivity|]. apply registry_refines. vm_compute. reflexivity. Defined.

(** calling an [Unsubscribe] a second time can cancel someone else's
    subscription.  When the session's last listener is cancelled its set is
    dropped from the map; a new subscriber gets a new set; the old closure, called
    again, finds its own set empty and drops the session's entry, and the new
    subscriber is no longer reached. *)
Theorem stale_unsubscribe_drops r id a b :
  listenersById r !! id = None →
  let '(r1, ua) := addMappedListener r id a in
  let r2 := unsubscribe r1 ua in
  let '(r3, _) := addMappedListener r2 id b in
  listeners r3 id = [b] ∧ listeners (unsubscribe r3 ua) id = [].
Proof.
  intros H. unfold addMappedListener at 1. rewrite H. set (s := fresh (dom (sets r))).
  assert (∀ x, set_add x [] = [x]) as Hadd by done. rewrite Hadd.
  set (r1 := mkRegistry _ _). set (u := mkSubscription id s a).
  assert (set_delete a [a] = []) as Hdel by (unfold set_delete; rewrite filter_cons_False, filter_nil; [done|naive_solver]).
  assert (unsubscribe r1 u = mkRegistry (delete id (listenersById r1)) (<[s := []]> (sets r1))) as ->.
  { unfold unsubscribe. cbn [sub_set sub_listener sub_id u]. 
    assert (sets r1 !! s = Some [a]) as -> by apply lookup_insert_eq.
    change (default [] (Some [a])) with [a]. rewrite Hdel. by rewrite bool_decide_eq_true_2. }
  unfold addMappedListener. cbn [listenersById sets]. rewrite lookup_delete_eq.
  set (s2 := fresh _). rewrite Hadd.
  assert (s2 ≠ s) as Hne.
  { intros E. pose proof (is_fresh (dom (<[s:=[]]> (sets r1)))) as Hf. fold s2 in Hf. rewrite E in Hf. apply Hf.
    rewrite dom_insert. set_solver. }
  split.
  - unfold listeners. cbn [listenersById sets]. rewrite lookup_insert_eq. cbn. by rewrite lookup_insert_eq.
  - unfold unsubscribe. cbn [sub_set sub_listener sub_id u listenersById sets]. rewrite lookup_insert_ne by done.
    rewrite lookup_insert_eq.
    change (default [] (Some (@nil listener))) with (@nil listener). rewrite bool_decide_eq_true_2 by done.
    unfold listeners. cbn [listenersById]. by rewrite lookup_delete_eq.
Qed.

Lemma stale_unsubscribe_witness :
  listenersById new_registry !! js_lit "s" = None ∧
  let '(r1, ua) := addMappedListener new_registry (js_lit "s") 1 in
  let r2 := unsubscribe r1 ua in
  let '(r3, _) := addMappedListener r2 (js_lit "s") 2 in
  listeners r3 (js_lit "s") = [2%positive] ∧ listeners (unsubscribe r3 ua) (js_lit "s") = [].
Proof. split; [reflexivity|]. apply (stale_unsubscribe_drops new_registry (js_lit "s") 1 2). reflexivity. Defined.
