(* ===== verification/Connection.v ===== *)
(** The client's connection: [cli/packages/client/src/connection.ts].

    A [World] is the connection's fields, the state [env] of whoever owns the
    connection, and the trace of its visible effects: calls of the state-change
    callback, settlements of the handshake promises (named by the connection's
    id), uses of the transport.  The callbacks of [ConnectionOptions] are
    functions on worlds, so a callback may call back into the connection before
    it returns; the checks [this.#lifecycle !== connected] of the source compare
    the id and the pending handshake of the object they expect.  What follows an
    [await] is an operation of its own ([openResolved], [sendRejected], ...).

    The message decoder, the encoded hello and the transports are parameters: the
    theorems hold for every decoder, that of [Codec] included. *)
From S2P Require Import Prelude JsValue WireTypes.
Open Scope Z_scope.

Definition MAX_UINT32 : Z := 0xffffffff.
Definition DEFAULT_MAX_FRAME_LENGTH : Z := 16 * 1024 * 1024.

Inductive client_error :=
| PiDisconnectedError (message : jsstr)
| PiServerError (error : ProtocolError)
| PiClientDisposedError
| PiSessionDetachedError (sessionId : jsstr)
| ProtocolValidationError (message : jsstr)
| OtherError (message : jsstr).

(** [toDisconnectedError] keeps a disconnect and wraps the message of anything else. *)
Definition error_message (e : client_error) : jsstr :=
  match e with
  | PiDisconnectedError m | ProtocolValidationError m | OtherError m => m
  | PiServerError e => err_message e
  | PiClientDisposedError => js_lit "Pi client is disposed"
  | PiSessionDetachedError sessionId => js_lit "Session " ++ sessionId ++ js_lit " is not attached"
  end.

Definition toDisconnectedError (e : client_error) : client_error :=
  match e with
  | PiDisconnectedError _ => e
  | _ => PiDisconnectedError (error_message e)
  end.

Inductive ConnectionStateChange :=
| StateDisconnected (error : client_error)
| StateConnecting
| StateConnected.

Notation transport := positive.

Inductive effect :=
| StateChange (c : ConnectionStateChange)
| HandshakeResolved (id : nat) (s : ServerSnapshot)
| HandshakeRejected (id : nat) (e : client_error)
| OpenTransport (id : nat)
| Send (t : transport) (frame : list Z)
| Close (t : transport).

(** The connection's options check of the constructor. *)
Definition connectionMaxFrameLength (maxFrameLength : option Z) : option Z :=
  let value := default DEFAULT_MAX_FRAME_LENGTH maxFrameLength in
  if (2 ^ 53 - 1 <? Z.abs value) || (value <=? 0) || (MAX_UINT32 <? value) then None else Some value.

Inductive ConnectionLifecycle (D : Type) :=
| Disconnected
| Connecting (id : nat) (decoder : D) (t : option transport)
| Connected (id : nat) (decoder : D) (t : transport) (handshake : bool).
Arguments Disconnected {D}.
Arguments Connecting {D} id decoder t.
Arguments Connected {D} id decoder t handshake.

Record World (D E : Type) := mkWorld {
  lifecycle : ConnectionLifecycle D;
  sequence : nat;
  env : E;
  trace : list effect;
}.
Arguments mkWorld {D E} lifecycle sequence env trace.
Arguments lifecycle {D E} w.
Arguments sequence {D E} w.
Arguments env {D E} w.
Arguments trace {D E} w.

Definition new_World {D E} (e : E) : World D E := mkWorld Disconnected 0 e [].

Section connection.
Context {D E : Type}.
Notation World := (World D E).
Context (new_decoder : D)
        (decoder_push : D → list Z → D * result client_error (list ServerMessage))
        (decoder_end : D → result client_error unit)
        (hello : result client_error (list Z))
        (transport_send : transport → list Z → option client_error).
Context (onHandshake : ServerSnapshot → World → World * option client_error)
        (onMessage : ServerMessage → World → World)
        (onStateChange : ConnectionStateChange → World → World).
Implicit Types w : World.

Definition emit w (x : effect) : World :=
  mkWorld (lifecycle w) (sequence w) (env w) (trace w ++ [x]).

Definition set_lifecycle w (lc : ConnectionLifecycle D) : World :=
  mkWorld lc (sequence w) (env w) (trace w).

(** Calls the state-change callback. *)
Definition change w (c : ConnectionStateChange) : World := onStateChange c (emit w (StateChange c)).

Definition isCurrent w (id : nat) : bool :=
  match lifecycle w with
  | Disconnected => false
  | Connecting id' _ _ | Connected id' _ _ _ => (id' =? id)%nat
  end.

Definition fail_ w (e : client_error) : World :=
  match lifecycle w with
  | Disconnected => w
  | Connecting id _ _ | Connected id _ _ true =>
      change (emit (set_lifecycle w Disconnected) (HandshakeRejected id e)) (StateDisconnected e)
  | Connected _ _ _ false => change (set_lifecycle w Disconnected) (StateDisconnected e)
  end.

Definition current_transport w : option transport :=
  match lifecycle w with
  | Disconnected => None
  | Connecting _ _ t => t
  | Connected _ _ t _ => Some t
  end.

Definition failAndClose w (e : client_error) : World :=
  let transport := current_transport w in
  let w := fail_ w e in
  match transport with
  | Some t => emit w (Close t)
  | None => w
  end.

(** The result is the id of the handshake promise, or the rejection. *)
Definition connect w : World * result client_error nat :=
  match lifecycle w with
  | Disconnected =>
      let id := S (sequence w) in
      let w := mkWorld (Connecting id new_decoder None) id (env w) (trace w) in
      let w := change w StateConnecting in
      (emit w (OpenTransport id), Ok id)
  | Connecting _ _ _ => (w, Err (PiDisconnectedError (js_lit "PiClient is already connecting")))
  | Connected _ _ _ _ => (w, Err (PiDisconnectedError (js_lit "PiClient is already connected")))
  end.

Definition disconnect w (reason : client_error) : World :=
  match lifecycle w with
  | Disconnected => w
  | _ => failAndClose w reason
  end.

Definition fail w (e : client_error) : World := failAndClose w e.

Definition send w (frame : list Z) : World * result client_error unit :=
  match lifecycle w with
  | Connected _ _ t _ =>
      match transport_send t frame with
      | Some e => (failAndClose w (toDisconnectedError e), Ok tt)
      | None => (emit w (Send t frame), Ok tt)
      end
  | _ => (w, Err (PiDisconnectedError (js_lit "Pi client is disconnected")))
  end.

(** The promise of [transport.send] rejects. *)
Definition sendRejected w (t : transport) (e : client_error) : World :=
  if bool_decide (current_transport w = Some t) then failAndClose w (toDisconnectedError e) else w.

(** The transport factory rejects, or resolves to a transport. *)
Definition openRejected w (id : nat) (e : client_error) : World :=
  if isCurrent w id then fail_ w (toDisconnectedError e) else w.

Definition helloRejected w (id : nat) (e : client_error) : World :=
  if isCurrent w id then failAndClose w (toDisconnectedError e) else w.

Definition openResolved w (id : nat) (t : transport) : World :=
  match lifecycle w with
  | Connecting id' d _ =>
      if (id' =? id)%nat then
        let w := set_lifecycle w (Connecting id' d (Some t)) in
        match hello with
        | Err e => helloRejected w id e
        | Ok frame =>
            match transport_send t frame with
            | Some e => helloRejected w id e
            | None => emit w (Send t frame)
            end
        end
      else emit w (Close t)
  | _ => emit w (Close t)
  end.

(** [this.#lifecycle === connected]: the object built when the hello arrived. *)
Definition is_pending w (id : nat) : bool :=
  match lifecycle w with
  | Connected id' _ _ true => (id' =? id)%nat
  | _ => false
  end.

(** [this.#lifecycle = { ...connected, handshake: undefined }] *)
Definition settle_handshake w : World :=
  match lifecycle w with
  | Connected id d t _ => set_lifecycle w (Connected id d t false)
  | _ => w
  end.

Definition handleHello w (id : nat) (d : D) (t : transport) (s : ServerSnapshot) : World :=
  let w := set_lifecycle w (Connected id d t true) in
  match onHandshake s w with
  | (w, Some e) => if is_pending w id then failAndClose w e else w
  | (w, None) =>
      if negb (is_pending w id) then w else
      let w := change w StateConnected in
      if negb (is_pending w id) then w else
      emit (settle_handshake w) (HandshakeResolved id s)
  end.

Definition handleMessage w (m : ServerMessage) : World :=
  match lifecycle w with
  | Connecting id d t =>
      match m with
      | ServerHelloError e => failAndClose w (PiServerError e)
      | ServerHello s =>
          match t with
          | None => failAndClose w (ProtocolValidationError (js_lit "Received server hello before the client hello was sent"))
          | Some t => handleHello w id d t s
          end
      | _ => failAndClose w (ProtocolValidationError (js_lit "Expected server hello as first message"))
      end
  | Connected _ _ _ _ =>
      match m with
      | ServerHello _ | ServerHelloError _ => failAndClose w (ProtocolValidationError (js_lit "Unexpected handshake message"))
      | _ => onMessage m w
      end
  | Disconnected => w
  end.

(** The loop over the decoded messages stops once disconnected. *)
Fixpoint handleMessages w (ms : list ServerMessage) : World :=
  match ms with
  | [] => w
  | m :: ms =>
      match lifecycle w with
      | Disconnected => w
      | _ => handleMessages (handleMessage w m) ms
      end
  end.

(** [decoder.push] updates the decoder object in place. *)
Definition set_decoder w (d : D) : World :=
  match lifecycle w with
  | Disconnected => w
  | Connecting id _ t => set_lifecycle w (Connecting id d t)
  | Connected id _ t h => set_lifecycle w (Connected id d t h)
  end.

Definition receiveChunk w (d : D) (chunk : list Z) : World :=
  let '(d, decoded) := decoder_push d chunk in
  let w := set_decoder w d in
  match decoded with
  | Err e => failAndClose w e
  | Ok messages => handleMessages w messages
  end.

Definition handleData w (id : nat) (chunk : list Z) : World :=
  if negb (isCurrent w id) then w else
  match lifecycle w with
  | Disconnected => w
  | Connecting _ _ None =>
      failAndClose w (ProtocolValidationError (js_lit "Received server data before the client hello was sent"))
  | Connecting _ d (Some _) | Connected _ d _ _ => receiveChunk w d chunk
  end.

Definition handleClose w : World :=
  match lifecycle w with
  | Disconnected => w
  | Connecting _ d _ | Connected _ d _ _ =>
      match decoder_end d with
      | Ok _ => fail_ w (PiDisconnectedError (js_lit "Byte transport closed"))
      | Err e => fail_ w e
      end
  end.

Definition onClose w (id : nat) : World := if isCurrent w id then handleClose w else w.

Definition onError w (id : nat) (e : client_error) : World :=
  if isCurrent w id then failAndClose w (toDisconnectedError e) else w.
End connection.
