(* ===== verification/ConnectionSpec.v ===== *)
(** The life of a connection: for every interleaving of client calls and transport
    events, and for callbacks that call back into the connection, the state
    changes reported and the settlements of the handshake promises are well
    formed.  [connection_ok] is the invariant; a callback is admitted when it
    preserves it. *)
From S2P Require Import Prelude JsValue WireTypes Connection.

(** ** What is observable: phases and settlements *)

Inductive phase := PDown | PUp | PLive.

#[export] Instance phase_eq_dec : EqDecision phase.
Proof. solve_decision. Defined.

(** Reported state changes alternate: connecting, perhaps connected, disconnected. *)
Definition advance (p : phase) (x : effect) : option phase :=
  match x, p with
  | StateChange StateConnecting, PDown => Some PUp
  | StateChange StateConnected, PUp => Some PLive
  | StateChange (StateDisconnected _), (PUp | PLive) => Some PDown
  | StateChange _, _ => None
  | _, _ => Some p
  end.

Fixpoint phases (p : phase) (xs : list effect) : option phase :=
  match xs with
  | [] => Some p
  | x :: xs => match advance p x with Some p => phases p xs | None => None end
  end.

Definition settles (id : nat) (x : effect) : bool :=
  match x with
  | HandshakeResolved id' _ | HandshakeRejected id' _ => (id' =? id)%nat
  | _ => false
  end.

(** How often the handshake promise of connection [id] is settled. *)
Definition settled (id : nat) (xs : list effect) : nat := length (List.filter (settles id) xs).

Definition opening (x : effect) : bool :=
  match x with StateChange StateConnecting => true | _ => false end.

Definition openings (xs : list effect) : nat := length (List.filter opening xs).

(** ** The invariant *)

Definition phase_of {D} (lc : ConnectionLifecycle D) (p : phase) : Prop :=
  match lc with
  | Disconnected => p = PDown
  | Connecting _ _ _ => p = PUp
  | Connected _ _ _ true => p = PUp ∨ p = PLive
  | Connected _ _ _ false => p = PLive
  end.

(** The connection whose handshake promise is not settled yet. *)
Definition unsettled {D} (lc : ConnectionLifecycle D) : option nat :=
  match lc with
  | Connecting id _ _ | Connected id _ _ true => Some id
  | _ => None
  end.

Definition current_id {D} (lc : ConnectionLifecycle D) : option nat :=
  match lc with
  | Disconnected => None
  | Connecting id _ _ | Connected id _ _ _ => Some id
  end.

Record connection_ok {D E} (w : World D E) : Prop := {
  co_phase : ∃ p, phases PDown (trace w) = Some p ∧ phase_of (lifecycle w) p;
  co_openings : openings (trace w) = sequence w;
  co_current id : current_id (lifecycle w) = Some id → id = sequence w ∧ (0 < id)%nat;
  co_settled id :
    settled id (trace w) =
    if bool_decide ((1 ≤ id ≤ sequence w)%nat ∧ unsettled (lifecycle w) ≠ Some id) then 1%nat else 0%nat;
}.

(** The connection that has the server's hello and is reporting it. *)
Definition pending {D} (lc : ConnectionLifecycle D) : option nat :=
  match lc with
  | Connected id _ _ true => Some id
  | _ => None
  end.

(** An operation that keeps the invariant, only adds to the trace, and, while a
    connection is reporting its handshake, leaves it as it is or ends it. *)
Definition admitted {D E} (w w' : World D E) : Prop :=
  connection_ok w → connection_ok w' ∧ trace w `prefix_of` trace w' ∧
  (∀ id, pending (lifecycle w) = Some id → unsettled (lifecycle w') = Some id →
     pending (lifecycle w') = Some id ∧ phases PDown (trace w') = phases PDown (trace w)).

Lemma phases_app p xs ys : phases p (xs ++ ys) = (q ← phases p xs; phases q ys).
Proof. revert p. induction xs as [|x xs IH]; intros p; simpl; [done|]. destruct (advance p x); [apply IH|done]. Qed.

Lemma settled_app id xs ys : settled id (xs ++ ys) = (settled id xs + settled id ys)%nat.
Proof. unfold settled. by rewrite List.filter_app, length_app. Qed.

Lemma openings_app xs ys : openings (xs ++ ys) = (openings xs + openings ys)%nat.
Proof. unfold openings. by rewrite List.filter_app, length_app. Qed.

Lemma openings_snoc xs x : openings (xs ++ [x]) = (openings xs + if opening x then 1 else 0)%nat.
Proof. rewrite openings_app. unfold openings at 2. simpl. by destruct (opening x). Qed.

Lemma settled_snoc id xs x : settled id (xs ++ [x]) = (settled id xs + if settles id x then 1 else 0)%nat.
Proof. rewrite settled_app. unfold settled at 2. simpl. by destruct (settles id x). Qed.

Lemma prefix_settled id xs ys : xs `prefix_of` ys → (settled id xs ≤ settled id ys)%nat.
Proof. intros [k ->]. rewrite settled_app. lia. Qed.

Lemma prefix_openings xs ys : xs `prefix_of` ys → (openings xs ≤ openings ys)%nat.
Proof. intros [k ->]. rewrite openings_app. lia. Qed.

Lemma pending_unsettled {D} (lc : ConnectionLifecycle D) id : pending lc = Some id → unsettled lc = Some id.
Proof. by destruct lc as [| |??? []]. Qed.

Lemma unsettled_current {D} (lc : ConnectionLifecycle D) id : unsettled lc = Some id → current_id lc = Some id.
Proof. by destruct lc as [| |??? []]. Qed.

(** A promise unsettled before and after was unsettled in between. *)
Lemma unsettled_between {D E} (w1 w2 w3 : World D E) id :
  connection_ok w1 → connection_ok w2 → connection_ok w3 →
  trace w1 `prefix_of` trace w2 → trace w2 `prefix_of` trace w3 →
  unsettled (lifecycle w1) = Some id → unsettled (lifecycle w3) = Some id → unsettled (lifecycle w2) = Some id.
Proof.
  intros H1 H2 H3 H12 H23 U1 U3.
  destruct (co_current _ H1 id (unsettled_current _ _ U1)).
  destruct (co_current _ H3 id (unsettled_current _ _ U3)).
  pose proof (prefix_openings _ _ H12) as O12. pose proof (prefix_openings _ _ H23) as O23.
  rewrite (co_openings _ H1), (co_openings _ H2) in O12. rewrite (co_openings _ H2), (co_openings _ H3) in O23.
  pose proof (prefix_settled id _ _ H23) as S23. rewrite (co_settled _ H2), (co_settled _ H3) in S23.
  destruct (decide (unsettled (lifecycle w2) = Some id)) as [|Hne]; [done|].
  rewrite bool_decide_eq_true_2, bool_decide_eq_false_2 in S23 by naive_solver lia. lia.
Qed.

#[export] Instance admitted_reflexive {D E} : Reflexive (@admitted D E).
Proof. intros w Hw. split; [done|]. split; [done|]. intros id Hp. naive_solver. Qed.

#[export] Instance admitted_transitive {D E} : Transitive (@admitted D E).
Proof.
  intros w1 w2 w3 H12 H23 H1. destruct (H12 H1) as (H2 & P12 & C12). destruct (H23 H2) as (H3 & P23 & C23).
  split; [done|]. split; [by etrans|]. intros id Hp Hu.
  destruct (C12 id Hp) as [Hp2 E12].
  { apply (unsettled_between w1 w2 w3); [done..| |done]. by apply pending_unsettled. }
  destruct (C23 id Hp2 Hu) as [? E23]. split; [done|]. by rewrite E23.
Qed.

Lemma admitted_intro {D E} (w w' : World D E) : (connection_ok w → admitted w w') → admitted w w'.
Proof. intros H Hw. by apply H. Qed.

(** Once the promise of the pending connection is settled, nothing is left to keep. *)
Lemma admitted_settled {D E} (w w' : World D E) :
  connection_ok w' → trace w `prefix_of` trace w' →
  (∀ id, pending (lifecycle w) = Some id → unsettled (lifecycle w') ≠ Some id) → admitted w w'.
Proof. intros ??? ?. split; [done|]. split; [done|]. naive_solver. Qed.

Section invariant.
Context {D E : Type}.
Context (new_decoder : D)
        (decoder_push : D → list Z → D * result client_error (list ServerMessage))
        (decoder_end : D → result client_error unit)
        (hello : result client_error (list Z))
        (transport_send : transport → list Z → option client_error).
Context (onHandshake : ServerSnapshot → World D E → World D E * option client_error)
        (onMessage : ServerMessage → World D E → World D E)
        (onStateChange : ConnectionStateChange → World D E → World D E).
(** The callbacks may act on the connection, as its own operations do. *)
Context (Hhandshake : ∀ s w, admitted w (onHandshake s w).1)
        (Hmessage : ∀ m w, admitted w (onMessage m w))
        (Hchange : ∀ c w, admitted w (onStateChange c w)).
Implicit Types w : World D E.

(** Effects that are neither a state change nor a settlement. *)
Lemma emit_admitted w x :
  (∀ p, advance p x = Some p) → (∀ id, settles id x = false) → opening x = false → admitted w (emit w x).
Proof.
  intros Hp Hs Ho [[p [Hph Hlc]] Hop Hcur Hset].
  assert (phases PDown (trace w ++ [x]) = Some p) as Hx by (rewrite phases_app, Hph; simpl; by rewrite Hp).
  split; [|split; [apply prefix_app_r; done|]].
  2:{ simpl. rewrite Hx, Hph. done. }
  constructor; simpl.
  - eauto.
  - rewrite openings_snoc, Ho. lia.
  - done.
  - intros id. rewrite settled_snoc, Hset, Hs. lia.
Qed.

(** A lifecycle that means the same to the outside. *)
Lemma set_lifecycle_admitted w lc :
  (∀ p, phase_of (lifecycle w) p → phase_of lc p) → current_id lc = current_id (lifecycle w) →
  unsettled lc = unsettled (lifecycle w) →
  (∀ id, pending (lifecycle w) = Some id → pending lc = Some id) → admitted w (set_lifecycle w lc).
Proof.
  intros Hp Hc Hu Hpe [[p [Hph Hlc]] Hop Hcur Hset]. split; [|split; [done|naive_solver]]. constructor; simpl; [naive_solver|done| |].
  - intros id. rewrite Hc. apply Hcur.
  - intros id. rewrite Hset. by rewrite Hu.
Qed.

(** A reported state change, followed by its callback. *)
Lemma change_admitted w w' c :
  connection_ok (emit w' (StateChange c)) → trace w `prefix_of` trace w' →
  (∀ id, pending (lifecycle w) = Some id →
     (1 ≤ id ≤ sequence w')%nat ∧ unsettled (lifecycle w') ≠ Some id) →
  admitted w (change onStateChange w' c).
Proof.
  intros Hw' Hpre Hp. unfold change. set (w1 := emit w' (StateChange c)) in *.
  destruct (Hchange c w1 Hw') as (H2 & P2 & _).
  assert (trace w `prefix_of` trace w1) as P1 by (simpl; by apply prefix_app_r).
  apply admitted_settled; [done|by etrans|].
  intros id Hid Hu. destruct (Hp id Hid) as [Hr Hne]. set (w2 := onStateChange c w1) in *.
  pose proof (prefix_settled id _ _ P2) as S. rewrite (co_settled _ Hw'), (co_settled _ H2) in S.
  rewrite bool_decide_eq_true_2, bool_decide_eq_false_2 in S; [lia|naive_solver|]. simpl. naive_solver.
Qed.

Lemma fail_admitted w e : admitted w (fail_ onStateChange w e).
Proof.
  apply admitted_intro. intros Hw. pose proof Hw as [[p [Hph Hlc]] Hop Hcur Hset]. unfold fail_.
  assert (∀ id, unsettled (lifecycle w) = Some id → (p = PUp ∨ p = PLive) →
    admitted w (change onStateChange (emit (set_lifecycle w Disconnected) (HandshakeRejected id e)) (StateDisconnected e))) as Hrej.
  { intros id Hu Hp. destruct (Hcur id (unsettled_current _ _ Hu)). apply change_admitted; simpl.
    - constructor; simpl.
      + exists PDown. rewrite <- app_assoc, phases_app, Hph. simpl. destruct Hp; subst p; done.
      + rewrite !openings_snoc. simpl. lia.
      + done.
      + intros id'. rewrite !settled_snoc, Hset. simpl. rewrite Hu.
        destruct (Nat.eqb_spec id id'); simpl; repeat case_bool_decide; naive_solver lia.
    - by apply prefix_app_r.
    - intros id' Hid'%pending_unsettled. split; [|done]. assert (id' = id) as -> by congruence. lia. }
  destruct (lifecycle w) as [|id d t|id d t []] eqn:El; [reflexivity|..]; simpl in *.
  1,2: apply Hrej; naive_solver.
  apply change_admitted; simpl; [|done|by rewrite El].
  constructor; simpl.
  - exists PDown. rewrite phases_app, Hph. simpl in *. by subst p.
  - rewrite openings_snoc. simpl. lia.
  - done.
  - intros id'. rewrite settled_snoc, Hset. simpl. repeat case_bool_decide; naive_solver lia.
Qed.

Lemma emit_quiet w x :
  match x with Close _ | Send _ _ | OpenTransport _ => True | _ => False end → admitted w (emit w x).
Proof. intros H. apply emit_admitted; by destruct x. Qed.

Lemma failAndClose_admitted w e : admitted w (failAndClose onStateChange w e).
Proof.
  unfold failAndClose. destruct (current_transport w); [|apply fail_admitted].
  etrans; [apply fail_admitted|]. by apply emit_quiet.
Qed.

Lemma connect_admitted w : admitted w (connect new_decoder onStateChange w).1.
Proof.
  apply admitted_intro. intros Hw. unfold connect.
  destruct (lifecycle w) as [|id d t|id d t h] eqn:El; [|reflexivity..].
  pose proof Hw as [[p [Hph Hlc]] Hop Hcur Hset]. rewrite El in *. simpl in Hlc. subst p.
  cbn [fst]. etrans; [|by apply emit_quiet]. apply change_admitted; simpl; [|done|by rewrite El].
  constructor; simpl.
  - exists PUp. rewrite phases_app, Hph. done.
  - rewrite openings_snoc. simpl. lia.
  - intros id [= <-]. lia.
  - intros id. rewrite settled_snoc, Hset. simpl. rewrite Nat.add_0_r. apply (f_equal (λ b : bool, if b then 1%nat else 0%nat)).
    apply bool_decide_ext. split; [naive_solver lia|]. intros [? Hne]. split; [|done].
    assert (S (sequence w) ≠ id) by naive_solver. lia.
Qed.

Lemma disconnect_admitted w e : admitted w (disconnect onStateChange w e).
Proof. unfold disconnect. destruct (lifecycle w); [reflexivity|apply failAndClose_admitted..]. Qed.

Lemma send_admitted w frame : admitted w (send transport_send onStateChange w frame).1.
Proof.
  unfold send. destruct (lifecycle w); [reflexivity..|].
  destruct (transport_send _ _); [apply failAndClose_admitted|by apply emit_quiet].
Qed.

Lemma sendRejected_admitted w t e : admitted w (sendRejected onStateChange w t e).
Proof. unfold sendRejected. guarded failAndClose_admitted. Qed.

Lemma openRejected_admitted w id e : admitted w (openRejected onStateChange w id e).
Proof. unfold openRejected. guarded fail_admitted. Qed.

Lemma helloRejected_admitted w id e : admitted w (helloRejected onStateChange w id e).
Proof. unfold helloRejected. guarded failAndClose_admitted. Qed.

Lemma openResolved_admitted w id t : admitted w (openResolved hello transport_send onStateChange w id t).
Proof.
  unfold openResolved. destruct (lifecycle w) as [|id' d t'|] eqn:El; [by apply emit_quiet| |by apply emit_quiet].
  case_match; [|by apply emit_quiet].
  etrans; [apply (set_lifecycle_admitted w (Connecting id' d (Some t))); rewrite El; naive_solver|].
  destruct hello as [frame|e]; [|apply helloRejected_admitted].
  destruct (transport_send t frame); [apply helloRejected_admitted|by apply emit_quiet].
Qed.

Lemma is_pending_spec w id : is_pending w id = true ↔ pending (lifecycle w) = Some id.
Proof.
  unfold is_pending, pending. destruct (lifecycle w) as [| |id' ?? []]; try done.
  rewrite Nat.eqb_eq. naive_solver.
Qed.

(** Reporting the handshake: the callbacks may end the connection, or another
    may already be under way when they return. *)
Lemma handleHello_admitted w id d t s :
  lifecycle w = Connecting id d (Some t) → admitted w (handleHello onHandshake onStateChange w id d t s).
Proof.
  intros El. apply admitted_intro. intros Hw. unfold handleHello. set (w0 := set_lifecycle w (Connected id d t true)).
  assert (admitted w w0) as H0 by (apply set_lifecycle_admitted; rewrite El; naive_solver).
  pose proof (Hhandshake s w0) as Hcb. destruct (onHandshake s w0) as [w1 [e|]]; simpl in Hcb.
  - etrans; [exact H0|]. etrans; [exact Hcb|]. guarded failAndClose_admitted.
  - destruct (H0 Hw) as (Hw0 & P0 & _). destruct (Hcb Hw0) as (Hw1 & P1 & C1).
    assert (admitted w w1) as H1 by (by etrans).
    destruct (is_pending w1 id) eqn:Ep1; simpl; [|done].
    apply is_pending_spec in Ep1. destruct (C1 id) as [_ E1]; [done|by apply pending_unsettled|].
    assert (phases PDown (trace w1) = Some PUp) as Ph1.
    { destruct (co_phase _ Hw) as (p & Hp & Hlc). rewrite El in Hlc. simpl in *. congruence. }
    assert (connection_ok (emit w1 (StateChange StateConnected))) as Hw2.
    { destruct Hw1 as [_ Hop Hcur Hset]. constructor; simpl.
      - exists PLive. rewrite phases_app, Ph1. split; [done|]. destruct (lifecycle w1) as [| |??? []]; naive_solver.
      - rewrite openings_snoc. simpl. lia.
      - done.
      - intros id'. rewrite settled_snoc, Hset. simpl. lia. }
    unfold change. set (w2 := emit w1 _) in *. destruct (Hchange StateConnected w2 Hw2) as (Hw3 & P3 & C3).
    set (w3 := onStateChange StateConnected w2) in *.
    assert (trace w `prefix_of` trace w3) as P03.
    { etrans; [exact P0|]. etrans; [exact P1|]. etrans; [|exact P3]. by apply prefix_app_r. }
    destruct (is_pending w3 id) eqn:Ep3; simpl.
    + apply is_pending_spec in Ep3. destruct (C3 id) as [_ E3]; [done|by apply pending_unsettled|].
      assert (phases PDown (trace w3) = Some PLive) as Ph3 by (rewrite E3; simpl; by rewrite phases_app, Ph1).
      unfold settle_handshake. destruct (lifecycle w3) as [| |id3 d3 t3 []] eqn:E3'; try done. injection Ep3 as ->.
      destruct Hw3 as [_ Hop Hcur Hset]. rewrite E3' in *. destruct (Hcur id eq_refl).
      apply (admitted_settled w); [|by apply prefix_app_r|by rewrite El]. constructor; simpl.
      * exists PLive. rewrite phases_app, Ph3. done.
      * rewrite openings_snoc. simpl. lia.
      * naive_solver.
      * intros id'. rewrite settled_snoc, Hset. simpl. destruct (Nat.eqb_spec id id'); repeat case_bool_decide; naive_solver lia.
    + apply (admitted_settled w); [done|done|by rewrite El].
Qed.

Lemma handleMessage_admitted w m : admitted w (handleMessage onHandshake onMessage onStateChange w m).
Proof.
  unfold handleMessage. destruct (lifecycle w) as [|id d t|id d t h] eqn:El; [reflexivity|..].
  - destruct m; try apply failAndClose_admitted. destruct t; [by apply handleHello_admitted|apply failAndClose_admitted].
  - destruct m; try apply failAndClose_admitted; apply Hmessage.
Qed.

Lemma handleMessages_admitted ms w : admitted w (handleMessages onHandshake onMessage onStateChange w ms).
Proof.
  revert w. induction ms as [|m ms IH]; intros w; simpl; [reflexivity|].
  destruct (lifecycle w); [reflexivity|..]; (etrans; [apply handleMessage_admitted|apply IH]).
Qed.

Lemma set_decoder_admitted w d : admitted w (set_decoder w d).
Proof.
  unfold set_decoder. destruct (lifecycle w) as [| |??? []] eqn:El; [reflexivity|..];
    apply set_lifecycle_admitted; rewrite El; naive_solver.
Qed.

Lemma handleData_admitted w id chunk :
  admitted w (handleData decoder_push onHandshake onMessage onStateChange w id chunk).
Proof.
  unfold handleData. case_match; [reflexivity|].
  assert (∀ d, admitted w (receiveChunk decoder_push onHandshake onMessage onStateChange w d chunk)) as Hrc.
  { intros d. unfold receiveChunk. destruct (decoder_push d chunk) as [d' [ms|e]];
      (etrans; [apply set_decoder_admitted|]); [apply handleMessages_admitted|apply failAndClose_admitted]. }
  destruct (lifecycle w) as [|? d []|]; [reflexivity|apply Hrc|apply failAndClose_admitted|apply Hrc].
Qed.

Lemma handleClose_admitted w : admitted w (handleClose decoder_end onStateChange w).
Proof. unfold handleClose. destruct (lifecycle w); [reflexivity|..]; case_match; apply fail_admitted. Qed.
End invariant.

(** ** Runs *)

(** What happens to a connection: calls of its owner, and of its transport. *)
Inductive connection_event :=
| EConnect
| EDisconnect (e : client_error)
| EFail (e : client_error)
| ESend (frame : list Z)
| ESendRejected (t : transport) (e : client_error)
| EOpenRejected (id : nat) (e : client_error)
| EOpenResolved (id : nat) (t : transport)
| EHelloRejected (id : nat) (e : client_error)
| EData (id : nat) (chunk : list Z)
| EClose (id : nat)
| EError (id : nat) (e : client_error).

(** What the callbacks are called with. *)
Inductive callback_input :=
| InHandshake (s : ServerSnapshot)
| InMessage (m : ServerMessage)
| InChange (c : ConnectionStateChange).

Section runs.
Context {D E : Type}.
Context (new_decoder : D)
        (decoder_push : D → list Z → D * result client_error (list ServerMessage))
        (decoder_end : D → result client_error unit)
        (hello : result client_error (list Z))
        (transport_send : transport → list Z → option client_error).
(** The owner's callbacks: from its own state, a new state, the calls to make
    on the connection before returning, and whether to throw. *)
Context (react : callback_input → E → E * list connection_event * option client_error).
Implicit Types w : World D E.

Section step.
Context (onHandshake : ServerSnapshot → World D E → World D E * option client_error)
        (onMessage : ServerMessage → World D E → World D E)
        (onStateChange : ConnectionStateChange → World D E → World D E).

Definition step w (ev : connection_event) : World D E :=
  match ev with
  | EConnect => (connect new_decoder onStateChange w).1
  | EDisconnect e => disconnect onStateChange w e
  | EFail e => fail onStateChange w e
  | ESend frame => (send transport_send onStateChange w frame).1
  | ESendRejected t e => sendRejected onStateChange w t e
  | EOpenRejected id e => openRejected onStateChange w id e
  | EOpenResolved id t => openResolved hello transport_send onStateChange w id t
  | EHelloRejected id e => helloRejected onStateChange w id e
  | EData id chunk => handleData decoder_push onHandshake onMessage onStateChange w id chunk
  | EClose id => onClose decoder_end onStateChange w id
  | EError id e => onError onStateChange w id e
  end.

Lemma step_admitted w ev :
  (∀ s w, admitted w (onHandshake s w).1) → (∀ m w, admitted w (onMessage m w)) →
  (∀ c w, admitted w (onStateChange c w)) → admitted w (step w ev).
Proof.
  intros Hh Hm Hc. destruct ev; simpl.
  - by apply connect_admitted.
  - by apply disconnect_admitted.
  - by apply failAndClose_admitted.
  - by apply send_admitted.
  - by apply sendRejected_admitted.
  - by apply openRejected_admitted.
  - by apply openResolved_admitted.
  - by apply helloRejected_admitted.
  - by apply handleData_admitted.
  - unfold onClose. guarded handleClose_admitted.
  - unfold onError. guarded failAndClose_admitted.
Qed.
End step.

Definition with_env w (e : E) : World D E := mkWorld (lifecycle w) (sequence w) e (trace w).

(** A callback runs its calls with callbacks in force, nested [n] deep. *)
Fixpoint reaction (n : nat) (i : callback_input) w : World D E * option client_error :=
  let '(e, evs, err) := react i (env w) in
  let w := with_env w e in
  match n with
  | O => (w, err)
  | S n =>
      (foldl (step (λ s w, reaction n (InHandshake s) w) (λ m w, (reaction n (InMessage m) w).1)
                (λ c w, (reaction n (InChange c) w).1)) w evs, err)
  end.

Definition event (n : nat) w (ev : connection_event) : World D E :=
  step (λ s w, reaction n (InHandshake s) w) (λ m w, (reaction n (InMessage m) w).1)
    (λ c w, (reaction n (InChange c) w).1) w ev.

Lemma with_env_admitted w e : admitted w (with_env w e).
Proof. intros [? ? ? ?]. split; [by constructor|]. split; [done|]. naive_solver. Qed.

Lemma foldl_admitted {A} (f : World D E → A → World D E) xs w :
  (∀ w x, admitted w (f w x)) → admitted w (foldl f w xs).
Proof.
  intros Hf. revert w. induction xs as [|x xs IH]; intros w; simpl; [reflexivity|]. etrans; [apply Hf|apply IH].
Qed.

Lemma reaction_admitted n i w : admitted w (reaction n i w).1.
Proof.
  revert i w. induction n as [|n IH]; intros i w; simpl; destruct (react i (env w)) as [[e evs] err]; simpl.
  - apply with_env_admitted.
  - etrans; [apply with_env_admitted|]. apply foldl_admitted. intros w' ev. apply step_admitted; intros; apply IH.
Qed.

Lemma run_ok n e evs : connection_ok (foldl (event n) (new_World e) evs).
Proof.
  assert (connection_ok (new_World e : World D E)) as H0.
  { constructor; simpl; [by exists PDown|done|done|]. intros id. rewrite bool_decide_eq_false_2; [done|lia]. }
  apply (foldl_admitted (event n) evs (new_World e)); [|done].
  intros w ev. apply step_admitted; intros; apply reaction_admitted.
Qed.

(** C28: the life of a connection, for every interleaving of the owner's calls
    and the transport's, every decoder, and callbacks that make any calls on the
    connection before they return (to any depth).  The reported state changes
    follow connecting, perhaps connected, disconnected, and say "disconnected"
    exactly when the connection is; every [connect] has its promise settled at
    most once, and exactly once when nothing is under way. *)
Theorem connection_lifecycle n e evs :
  let w := foldl (event n) (new_World e) evs in
  (∃ p, phases PDown (trace w) = Some p ∧ (lifecycle w = Disconnected ↔ p = PDown)) ∧
  (∀ id, (settled id (trace w) ≤ 1)%nat) ∧
  (lifecycle w = Disconnected → ∀ id, (1 ≤ id ≤ sequence w)%nat → settled id (trace w) = 1%nat).
Proof.
  intros w. destruct (run_ok n e evs) as [[p [Hph Hlc]] _ _ Hset]. fold w in Hph, Hlc, Hset. split_and!.
  - exists p. split; [done|]. destruct (lifecycle w) as [| |??? []]; naive_solver.
  - intros id. rewrite Hset. case_bool_decide; lia.
  - intros El id Hid. rewrite Hset, El, bool_decide_eq_true_2; done.
Qed.
End runs.

(** ** A callback that reconnects *)

Section reconnect.
Context {D E : Type}.
Context (new_decoder : D)
        (decoder_push : D → list Z → D * result client_error (list ServerMessage)) (reason : client_error).

Definition quiet (c : ConnectionStateChange) (w : World D E) : World D E := w.
Definition accept (s : ServerSnapshot) (w : World D E) : World D E * option client_error := (w, None).

(** On any message: [connection.disconnect(reason); connection.connect()]. *)
Definition reconnecting (m : ServerMessage) (w : World D E) : World D E :=
  (connect new_decoder quiet (disconnect quiet w reason)).1.

Definition is_hello (m : ServerMessage) : bool :=
  match m with ServerHello _ | ServerHelloError _ => true | _ => false end.

(** messages left over from a closed connection reach the next one.  The
    loop over the messages of a chunk stops when it finds the connection
    disconnected, but does not look at whose connection it is: when handling a
    message replaces the connection, the rest of the old chunk is handled as the
    first messages of the new one, which fails before its hello.  The same
    messages in two chunks leave the new connection alone. *)
Theorem stale_messages_fail_reconnect w d d' t chunk m1 m2 :
  lifecycle w = Connected (sequence w) d t false →
  decoder_push d chunk = (d', Ok [m1; m2]) → is_hello m1 = false → is_hello m2 = false →
  let handle := handleData decoder_push accept reconnecting quiet in
  let id' := S (sequence w) in
  (lifecycle (handle w (sequence w) chunk) = Disconnected ∧
   HandshakeRejected id' (ProtocolValidationError (js_lit "Expected server hello as first message"))
     ∈ trace (handle w (sequence w) chunk)) ∧
  (∀ c1 c2 d1, decoder_push d c1 = (d1, Ok [m1]) →
     let w1 := handle w (sequence w) c1 in
     handle w1 (sequence w) c2 = w1 ∧ lifecycle w1 = Connecting id' new_decoder None).
Proof.
  intros El Hd Hm1 Hm2 handle id'. unfold handle, handleData, isCurrent. rewrite El, Nat.eqb_refl. cbn [negb].
  assert (∀ d2 k, handleMessages accept reconnecting quiet (set_decoder w d2) (m1 :: k) =
    handleMessages accept reconnecting quiet (reconnecting m1 (set_decoder w d2)) k) as Hfirst.
  { intros d2 k. cbn [handleMessages]. unfold set_decoder. rewrite El. cbn [lifecycle set_lifecycle].
    unfold handleMessage. cbn [lifecycle set_lifecycle]. by destruct m1. }
  assert (∀ d2, lifecycle (reconnecting m1 (set_decoder w d2)) = Connecting id' new_decoder None) as Hnew
    by (intros d2; unfold set_decoder; by rewrite El).
  split.
  - unfold receiveChunk. rewrite Hd, Hfirst. cbn [handleMessages]. rewrite Hnew. unfold handleMessage. rewrite Hnew.
    assert (∀ w0, lifecycle w0 = Connecting id' new_decoder None →
      match m2 with
      | ServerHello s => failAndClose quiet w0 (ProtocolValidationError (js_lit "Received server hello before the client hello was sent"))
      | ServerHelloError e => failAndClose quiet w0 (PiServerError e)
      | _ => failAndClose quiet w0 (ProtocolValidationError (js_lit "Expected server hello as first message"))
      end = failAndClose quiet w0 (ProtocolValidationError (js_lit "Expected server hello as first message"))) as ->
      by (intros; by destruct m2).
    + pose proof (Hnew d') as Hw0. set (w0 := reconnecting m1 (set_decoder w d')) in *.
      unfold failAndClose, current_transport, fail_. rewrite Hw0.
      split; [done|]. unfold change, quiet. simpl. set_solver.
    + done.
  - intros c1 c2 d1 Hd1.
    assert (receiveChunk decoder_push accept reconnecting quiet w d c1 = reconnecting m1 (set_decoder w d1)) as ->
      by (unfold receiveChunk; by rewrite Hd1, Hfirst).
    rewrite Hnew. destruct (Nat.eqb_spec id' (sequence w)) as [E'|E']; [unfold id' in E'; lia|]. done.
Qed.
End reconnect.

(** Each byte of a chunk is a message; a connected world. *)
Definition ex_message : ServerMessage := Event (session_removed (js_lit "s")).
Definition ex_push (d : unit) (chunk : list Z) : unit * result client_error (list ServerMessage) :=
  (d, Ok ((λ _, ex_message) <$> chunk)).
Definition ex_world : World unit unit := mkWorld (Connected 1 tt 9 false) 1 tt [].

Lemma stale_messages_witness :
  lifecycle ex_world = Connected (sequence ex_world) tt 9 false ∧
  let handle := handleData ex_push accept (reconnecting tt (PiDisconnectedError (js_lit "removed"))) quiet in
  let id' := S (sequence ex_world) in
  (lifecycle (handle ex_world (sequence ex_world) [1; 2]%Z) = Disconnected ∧
   HandshakeRejected id' (ProtocolValidationError (js_lit "Expected server hello as first message"))
     ∈ trace (handle ex_world (sequence ex_world) [1; 2]%Z)) ∧
  (∀ c1 c2 d1, ex_push tt c1 = (d1, Ok [ex_message]) →
     let w1 := handle ex_world (sequence ex_world) c1 in
     handle w1 (sequence ex_world) c2 = w1 ∧ lifecycle w1 = Connecting id' tt None).
Proof.
  split; [reflexivity|].
  exact (stale_messages_fail_reconnect tt ex_push (PiDisconnectedError (js_lit "removed")) ex_world tt tt 9 [1; 2]%Z
           ex_message ex_message eq_refl eq_refl eq_refl eq_refl).
Defined.
