(* ===== verification/PiClient.v ===== *)
(** The protocol client: [cli/packages/client/src/client.ts].

    [Client] holds the fields of [PiClient] other than its connection; a client is
    a [World] of [Connection] with a [Client] as the owner's state, and the
    callbacks the constructor passes are the definitions below.  A request's
    promise is named by its id and its settlements are recorded in order.  Lease
    tokens are compared by identity in the source and are numbers here; a
    [Lease] is the closure state of [#createSessionLease].  What follows an
    [await] is a definition of its own ([releaseResolved], [acquireFinished], ...).
    Listeners are observers (see [ClientState]). *)
From stdpp Require Import pretty.
From S2P Require Import Prelude JsValue JsMap WireTypes ClientState Connection.
Open Scope nat_scope.

Inductive SessionLeaseMode := shared | exclusive.

#[export] Instance SessionLeaseMode_eq_dec : EqDecision SessionLeaseMode.
Proof. solve_decision. Defined.

Notation token := nat.

Inductive SessionLeaseState := lease_active | lease_releasing | lease_released | lease_invalidated.

#[export] Instance SessionLeaseState_eq_dec : EqDecision SessionLeaseState.
Proof. solve_decision. Defined.

(** The tables of session leases; [leaseTokens] numbers the token objects. *)
Record LeaseTables := mkTables {
  sessionLeaseCounts : gmap jsstr nat;
  exclusiveSessionLeases : gmap jsstr token;
  sessionLeaseGenerations : gmap jsstr nat;
  sessionCleanupRequired : gset jsstr;
  leaseTokens : nat;
}.

(** Calls of listeners, in order. *)
Inductive client_call :=
| StateCall (n : notification)
| ConnectionCall (l : listener) (c : ConnectionStateChange).

Notation outcome := (result client_error CommandResult).

Record Client := mkClient {
  c_state : ClientState;
  pendingRequests : list (jsstr * Command);
  requestSequence : nat;
  disposed : bool;
  leases : LeaseTables;
  connectionStateListeners : list listener;
  settlements : list (jsstr * outcome);
  calls : list client_call;
}.

Definition new_LeaseTables : LeaseTables := mkTables ∅ ∅ ∅ ∅ 0.
Definition new_Client : Client := mkClient new_ClientState [] 0 false new_LeaseTables [] [] [].

(** [PiSessionOwnershipError] *)
Inductive ownership_error :=
| AlreadyLeased (sessionId : jsstr)
| ExclusivelyLeased (sessionId : jsstr).

(** ** Lease tables *)

Section tables.
Implicit Types lt : LeaseTables.

Definition lease_count lt (sessionId : jsstr) : nat := default 0 (sessionLeaseCounts lt !! sessionId).

Definition reserveSessionLease lt (sessionId : jsstr) (mode : SessionLeaseMode) :
    result ownership_error (LeaseTables * token) :=
  let count := lease_count lt sessionId in
  if bool_decide (mode = exclusive) && (0 <? count) then Err (AlreadyLeased sessionId) else
  if bool_decide (mode = shared) && bool_decide (is_Some (exclusiveSessionLeases lt !! sessionId))
  then Err (ExclusivelyLeased sessionId) else
  let token := leaseTokens lt in
  Ok (mkTables (<[sessionId := S count]> (sessionLeaseCounts lt))
        (if bool_decide (mode = exclusive) then <[sessionId := token]> (exclusiveSessionLeases lt)
         else exclusiveSessionLeases lt)
        (sessionLeaseGenerations lt) (sessionCleanupRequired lt) (S token), token).

Definition releaseSessionLease lt (sessionId : jsstr) (t : token) : LeaseTables :=
  let count := lease_count lt sessionId in
  mkTables
    (if (count <=? 1) then delete sessionId (sessionLeaseCounts lt)
     else <[sessionId := pred count]> (sessionLeaseCounts lt))
    (if bool_decide (exclusiveSessionLeases lt !! sessionId = Some t)
     then delete sessionId (exclusiveSessionLeases lt) else exclusiveSessionLeases lt)
    (sessionLeaseGenerations lt) (sessionCleanupRequired lt) (leaseTokens lt).

Definition generation lt (sessionId : jsstr) : nat := default 0 (sessionLeaseGenerations lt !! sessionId).

Definition invalidateSessionLeases lt (sessionId : jsstr) : LeaseTables :=
  mkTables (delete sessionId (sessionLeaseCounts lt)) (delete sessionId (exclusiveSessionLeases lt))
    (<[sessionId := S (generation lt sessionId)]> (sessionLeaseGenerations lt))
    (sessionCleanupRequired lt ∖ {[ sessionId ]}) (leaseTokens lt).

Definition invalidateAllSessionLeases lt : LeaseTables :=
  let lt := foldl invalidateSessionLeases lt (elements (dom (sessionLeaseCounts lt))) in
  mkTables (sessionLeaseCounts lt) (exclusiveSessionLeases lt) (sessionLeaseGenerations lt) ∅ (leaseTokens lt).
End tables.

(** ** Leases *)

Record Lease := mkLease {
  l_session : jsstr;
  l_token : token;
  l_generation : nat;
  l_state : SessionLeaseState;
}.

Section leases.
Implicit Types (c : Client) (l : Lease).

Definition with_leases c (lt : LeaseTables) : Client :=
  mkClient (c_state c) (pendingRequests c) (requestSequence c) (disposed c) lt (connectionStateListeners c)
    (settlements c) (calls c).

Definition createSessionLease c (sessionId : jsstr) (t : token) : Client * Lease :=
  let g := generation (leases c) sessionId in
  (with_leases c (mkTables (sessionLeaseCounts (leases c)) (exclusiveSessionLeases (leases c))
     (<[sessionId := g]> (sessionLeaseGenerations (leases c))) (sessionCleanupRequired (leases c))
     (leaseTokens (leases c))),
   mkLease sessionId t g lease_active).

Definition set_lease l (s : SessionLeaseState) : Lease := mkLease (l_session l) (l_token l) (l_generation l) s.

Definition refreshState c l : Lease :=
  if bool_decide (l_state l = lease_active ∨ l_state l = lease_releasing) &&
     negb (bool_decide (sessionLeaseGenerations (leases c) !! l_session l = Some (l_generation l)))
  then set_lease l lease_invalidated else l.

Definition isActive c l : bool :=
  bool_decide (l_state (refreshState c l) = lease_active) && isSessionAttached (c_state c) (l_session l).

(** The wrapped listeners of a lease: a snapshot reaches the caller while the
    lease is active, an event also when it is the session's removal. *)
Definition leaseSeesSnapshot c l : bool := isActive c l.
Definition leaseSeesEvent c l (e : ServerEvent) : bool :=
  isActive c l || match e with session_removed _ => true | _ => false end.

Definition leaseSnapshot c l : option SessionSnapshot :=
  if isActive c l then getSessionSnapshot (c_state c) (l_session l) else None.
End leases.

(** ** Requests *)

Section requests.
Implicit Types c : Client.

Definition with_requests c (pending : list (jsstr * Command)) (settled : list (jsstr * outcome)) : Client :=
  mkClient (c_state c) pending (requestSequence c) (disposed c) (leases c) (connectionStateListeners c)
    (settlements c ++ settled) (calls c).

Definition takePendingRequest c (id : jsstr) : Client * option Command :=
  match map_get (pendingRequests c) id with
  | Some command => (with_requests c (map_delete (pendingRequests c) id) [], Some command)
  | None => (c, None)
  end.

Definition settle c (id : jsstr) (o : outcome) : Client := with_requests c (pendingRequests c) [(id, o)].

Definition rejectPendingRequests c (e : client_error) : Client :=
  with_requests c [] ((λ r, (r.1, Err e)) <$> pendingRequests c).

Definition with_state c (st : ClientState) (ns : list notification) : Client :=
  mkClient st (pendingRequests c) (requestSequence c) (disposed c) (leases c) (connectionStateListeners c)
    (settlements c) (calls c ++ (StateCall <$> ns)).

Definition request_id (n : nat) : jsstr := js_lit ("request-" +:+ pretty n).
End requests.

(** ** The callbacks of the connection *)

Section callbacks.
Context {D : Type}.
Notation ClientWorld := (World D Client).
Implicit Types w : ClientWorld.

Definition with_client w (c : Client) : ClientWorld := mkWorld (lifecycle w) (sequence w) c (trace w).

Definition handleConnectionStateChange (ch : ConnectionStateChange) w : ClientWorld :=
  let c := env w in
  let c :=
    match ch with
    | StateDisconnected e =>
        let c := with_state c (clearAttachments (c_state c)) [] in
        let c := with_leases c (invalidateAllSessionLeases (leases c)) in
        rejectPendingRequests c e
    | _ => c
    end in
  with_client w
    (mkClient (c_state c) (pendingRequests c) (requestSequence c) (disposed c) (leases c)
       (connectionStateListeners c) (settlements c)
       (calls c ++ ((λ l, ConnectionCall l ch) <$> connectionStateListeners c))).

Definition clientOnHandshake (s : ServerSnapshot) w : ClientWorld * option client_error :=
  let '(st, ns) := applyServerSnapshot (c_state (env w)) s in
  (with_client w (with_state (env w) st ns), None).

Definition clientFail w (e : client_error) : ClientWorld := fail handleConnectionStateChange w e.

(** [#handleMessage]; the connection passes it responses and events only. *)
Definition handleServerMessage (m : ServerMessage) w : ClientWorld :=
  match m with
  | Event e =>
      let c := match e with
               | session_removed sessionId =>
                   with_leases (env w) (invalidateSessionLeases (leases (env w)) sessionId)
               | _ => env w
               end in
      let '(st, ns) := applyEvent (c_state c) e in
      with_client w (with_state c st ns)
  | Response id r =>
      match takePendingRequest (env w) id with
      | (_, None) => clientFail w (ProtocolValidationError (js_lit "Response has no matching request"))
      | (c, Some command) =>
          match r with
          | inr e => with_client w (settle c id (Err (PiServerError e)))
          | inl r =>
              if negb (bool_decide (result_command r = c_command command)) then
                let e := ProtocolValidationError
                  (js_lit "Response command " ++ command_text (result_command r) ++ js_lit " does not match " ++
                   command_text (c_command command)) in
                clientFail (with_client w (settle c id (Err e))) e
              else
                let '(st, ns) := applyResult (c_state c) r in
                with_client w (settle (with_state c st ns) id (Ok r))
          end
      end
  | _ => w
  end.
End callbacks.

(** ** The client's operations *)

Section operations.
Context {D : Type}.
Notation ClientWorld := (World D Client).
Context (new_decoder : D)
        (decoder_push : D → list Z → D * result client_error (list ServerMessage))
        (decoder_end : D → result client_error unit)
        (hello : result client_error (list Z))
        (transport_send : transport → list Z → option client_error).
(** [encodeClientMessage] of a request envelope. *)
Context (encode_request : jsstr → Command → result client_error (list Z)).
Implicit Types w : ClientWorld.

Definition clientConnect w : ClientWorld * result client_error nat :=
  if disposed (env w) then (w, Err PiClientDisposedError) else
  let w := match lifecycle w with
           | Disconnected => with_client w (with_state (env w) (reset (c_state (env w))) [])
           | _ => w
           end in
  connect new_decoder handleConnectionStateChange w.

Definition clientDisconnect w (reason : jsstr) : ClientWorld :=
  disconnect handleConnectionStateChange w (PiDisconnectedError reason).

Definition is_connected w : bool := match lifecycle w with Connected _ _ _ _ => true | _ => false end.

(** The result names the promise, or is an immediate rejection. *)
Definition request w (command : Command) : ClientWorld * result client_error jsstr :=
  if disposed (env w) then (w, Err PiClientDisposedError) else
  if negb (is_connected w) then (w, Err (PiDisconnectedError (js_lit "Pi client is disconnected"))) else
  let c := env w in
  let n := S (requestSequence c) in
  let id := request_id n in
  let c := mkClient (c_state c) (map_set (pendingRequests c) id command) n (disposed c) (leases c)
             (connectionStateListeners c) (settlements c) (calls c) in
  match encode_request id command with
  | Err e =>
      match takePendingRequest c id with
      | (c, Some _) => (with_client w (settle c id (Err e)), Ok id)
      | (c, None) => (with_client w c, Ok id)
      end
  | Ok frame => ((send transport_send handleConnectionStateChange (with_client w c) frame).1, Ok id)
  end.

Definition clientDispose w : ClientWorld :=
  if disposed (env w) then w else
  let c := env w in
  let c := mkClient (c_state c) (pendingRequests c) (requestSequence c) true (leases c)
             (connectionStateListeners c) (settlements c) (calls c) in
  let c := rejectPendingRequests c PiClientDisposedError in
  let w := disconnect handleConnectionStateChange (with_client w c) PiClientDisposedError in
  let c := with_state (env w) (dispose (c_state (env w))) [] in
  let c := with_leases c (invalidateAllSessionLeases (leases c)) in
  with_client w (mkClient (c_state c) (pendingRequests c) (requestSequence c) (disposed c) (leases c) []
                   (settlements c) (calls c)).

Definition onConnectionStateChange w (l : listener) : result client_error ClientWorld :=
  if disposed (env w) then Err PiClientDisposedError else
  let c := env w in
  Ok (with_client w (mkClient (c_state c) (pendingRequests c) (requestSequence c) (disposed c) (leases c)
                       (set_add l (connectionStateListeners c)) (settlements c) (calls c))).

(** The transport's events, with the client's callbacks in force. *)
Definition clientData w (id : nat) (chunk : list Z) : ClientWorld :=
  handleData decoder_push clientOnHandshake handleServerMessage handleConnectionStateChange w id chunk.

Definition clientOpened w (id : nat) (t : transport) : ClientWorld :=
  openResolved hello transport_send handleConnectionStateChange w id t.

Definition clientClosed w (id : nat) : ClientWorld := onClose decoder_end handleConnectionStateChange w id.

(** [assertActive] of a lease. *)
Definition assertActive w (l : Lease) : result client_error unit :=
  if disposed (env w) then Err PiClientDisposedError else
  if negb (is_connected w) then Err (PiDisconnectedError (js_lit "Pi client is disconnected")) else
  if negb (isActive (env w) l) then Err (PiSessionDetachedError (l_session l)) else Ok tt.

Definition leaseRequest w (l : Lease) (command : Command) : ClientWorld * result client_error jsstr :=
  match assertActive w l with
  | Err e => (w, Err e)
  | Ok _ => request w command
  end.

(** [release] up to its first [await]: a resolved promise, the promise of a
    release under way, the thrown error, or the promise of the detach request. *)
Inductive release_result :=
| ReleaseDone
| ReleaseUnderWay
| ReleaseThrows (e : client_error)
| ReleaseDetaching (r : result client_error jsstr).

Definition release w (l : Lease) (detach : Command) : ClientWorld * Lease * release_result :=
  let l := refreshState (env w) l in
  match l_state l with
  | lease_released | lease_invalidated => (w, l, ReleaseDone)
  | lease_releasing => (w, l, ReleaseUnderWay)
  | lease_active =>
      match assertActive w l with
      | Err e => (w, l, ReleaseThrows e)
      | Ok _ =>
          let l := set_lease l lease_releasing in
          if (lease_count (leases (env w)) (l_session l) <=? 1) then
            let '(w, r) := request w detach in (w, l, ReleaseDetaching r)
          else
            let c := env w in
            (with_client w (with_leases c (releaseSessionLease (leases c) (l_session l) (l_token l))),
             set_lease l lease_released, ReleaseDone)
      end
  end.

(** The detach request resolves, or fails. *)
Definition releaseResolved w (l : Lease) : ClientWorld * Lease :=
  let c := env w in
  (with_client w (with_leases c (releaseSessionLease (leases c) (l_session l) (l_token l))),
   set_lease l lease_released).

Definition require_cleanup (lt : LeaseTables) (sessionId : jsstr) : LeaseTables :=
  mkTables (sessionLeaseCounts lt) (exclusiveSessionLeases lt) (sessionLeaseGenerations lt)
    ({[ sessionId ]} ∪ sessionCleanupRequired lt) (leaseTokens lt).

Definition releaseRejected w (l : Lease) (relinquishOnFailure : bool) : ClientWorld * Lease :=
  let l := refreshState (env w) l in
  if bool_decide (l_state l = lease_invalidated) then (w, l) else
  if relinquishOnFailure then
    let c := env w in
    let lt := releaseSessionLease (leases c) (l_session l) (l_token l) in
    (with_client w (with_leases c (require_cleanup lt (l_session l))), set_lease l lease_released)
  else (w, set_lease l lease_active).

(** [acquireSession]: the reservation before its first [await], then the lease,
    or the release of the reservation. *)
Definition acquireBegin w (sessionId : jsstr) (mode : SessionLeaseMode) :
    result (client_error + ownership_error) (ClientWorld * token) :=
  if disposed (env w) then Err (inl PiClientDisposedError) else
  match reserveSessionLease (leases (env w)) sessionId mode with
  | Err e => Err (inr e)
  | Ok (lt, t) => Ok (with_client w (with_leases (env w) lt), t)
  end.

Definition acquireFinished w (sessionId : jsstr) (t : token) : ClientWorld * Lease :=
  let '(c, l) := createSessionLease (env w) sessionId t in (with_client w c, l).

Definition acquireFailed w (sessionId : jsstr) (t : token) : ClientWorld :=
  let c := env w in with_client w (with_leases c (releaseSessionLease (leases c) sessionId t)).

(** [#attachSession]: the request, and the snapshot it restores when it fails. *)
Definition attachBegin w (sessionId : jsstr) (attach : Command) :
    ClientWorld * option SessionSnapshot * result client_error jsstr :=
  let '(st, previous) := forgetSessionSnapshot (c_state (env w)) sessionId in
  let '(w, r) := request (with_client w (with_state (env w) st [])) attach in
  (w, previous, r).

Definition attachRejected w (previous : option SessionSnapshot) : ClientWorld :=
  match previous with
  | Some s => with_client w (with_state (env w) (restoreSessionSnapshot (c_state (env w)) s) [])
  | None => w
  end.
End operations.
