(* ===== verification/PiClientSpec.v ===== *)
(** Theorems about the protocol client: every request is answered exactly once,
    and what the lease tables promise, and where a token that outlives its
    reservation breaks it. *)
From stdpp Require Import pretty.
From S2P Require Import Prelude JsValue Schemas JsMap WireTypes ClientState Connection ConnectionSpec PiClient.
Open Scope nat_scope.

(** ** Requests *)

#[export] Instance request_id_inj : Inj eq eq request_id.
Proof. intros n m H. unfold request_id in H. apply (inj js_lit) in H. simplify_eq. by apply (inj pretty). Qed.

(** The ids of the first [n] requests. *)
Definition request_ids (n : nat) : list jsstr := request_id <$> seq 1 n.

Lemma request_ids_S n : request_ids (S n) = request_ids n ++ [request_id (S n)].
Proof. unfold request_ids. by rewrite seq_S, fmap_app. Qed.

Lemma request_ids_NoDup n : NoDup (request_ids n).
Proof. apply NoDup_fmap; [apply _|apply NoDup_seq]. Qed.

Lemma request_id_fresh n : request_id (S n) ∉ request_ids n.
Proof. unfold request_ids. intros (k & <-%(inj request_id) & Hk)%list_elem_of_fmap. apply elem_of_seq in Hk. lia. Qed.

(** Every request made is either pending or settled, once. *)
Definition accounted (c : Client) : Prop :=
  (settlements c).*1 ++ (pendingRequests c).*1 ≡ₚ request_ids (requestSequence c).

Definition requests_ok {D} (w : World D Client) : Prop :=
  accounted (env w) ∧ (pendingRequests (env w) ≠ [] → is_connected w = true).

(** Nothing about requests differs. *)
Definition same_requests (c c' : Client) : Prop :=
  pendingRequests c' = pendingRequests c ∧ requestSequence c' = requestSequence c ∧ settlements c' = settlements c.

Lemma accounted_same c c' : same_requests c c' → accounted c → accounted c'.
Proof. intros (Hp & Hn & Hs). unfold accounted. by rewrite Hp, Hn, Hs. Qed.

Lemma accounted_NoDup c : accounted c → NoDup ((pendingRequests c).*1).
Proof.
  intros H. unfold accounted in H. assert (NoDup ((settlements c).*1 ++ (pendingRequests c).*1)) as Hnd by (rewrite H; apply request_ids_NoDup).
  by apply NoDup_app in Hnd as (_ & _ & ?).
Qed.

Lemma map_delete_perm {A} (m : list (jsstr * A)) k v :
  NoDup m.*1 → map_get m k = Some v → m.*1 ≡ₚ k :: (map_delete m k).*1.
Proof.
  unfold map_delete. induction m as [|[k' v'] m IH]; simpl; [done|]. intros [Hk Hnd]%NoDup_cons Hget.
  rewrite filter_cons. simpl. case_bool_decide as E.
  - subst k'. rewrite decide_False by naive_solver. assert (filter (λ kv, kv.1 ≠ k) m = m) as ->; [|done].
    apply filter_all. apply Forall_forall. intros [k1 v1] H1 E1. simpl in E1. subst k1.
    apply Hk. by apply (list_elem_of_fmap_2 fst _ (k, v1)).
  - rewrite decide_True by done. csimpl. rewrite (IH Hnd Hget). constructor.
Qed.

(** Taking a pending request and settling it. *)
Lemma take_settle_accounted c id c' command o :
  accounted c → takePendingRequest c id = (c', Some command) → accounted (settle c' id o).
Proof.
  unfold takePendingRequest. destruct (map_get (pendingRequests c) id) as [cmd|] eqn:E; [|done].
  intros Hc [= <- _]. pose proof (map_delete_perm _ _ _ (accounted_NoDup c Hc) E) as Hp.
  unfold accounted in *. simpl. rewrite app_nil_r, fmap_app. simpl. rewrite <- Hc, Hp, <- app_assoc. done.
Qed.

Lemma take_pending_nil c id c' command :
  takePendingRequest c id = (c', Some command) → pendingRequests c ≠ [].
Proof. unfold takePendingRequest. by destruct (pendingRequests c). Qed.

Lemma reject_accounted c e : accounted c → accounted (rejectPendingRequests c e).
Proof.
  unfold accounted. simpl. intros <-. rewrite app_nil_r, fmap_app, <- list_fmap_compose. done.
Qed.

Section client.
Context {D : Type}.
Notation ClientWorld := (World D Client).
Context (new_decoder : D)
        (decoder_push : D → list Z → D * result client_error (list ServerMessage))
        (decoder_end : D → result client_error unit)
        (hello : result client_error (list Z))
        (transport_send : transport → list Z → option client_error)
        (encode_request : jsstr → Command → result client_error (list Z)).
Implicit Types w : ClientWorld.

(** The state-change callback rejects what is pending, and otherwise leaves requests alone. *)
Lemma handleChange_disconnected e w :
  accounted (env w) →
  accounted (env (handleConnectionStateChange (StateDisconnected e) w)) ∧
  pendingRequests (env (handleConnectionStateChange (StateDisconnected e) w)) = [].
Proof.
  intros H. split; [|done].
  apply (accounted_same (rejectPendingRequests (env w) e)); [done|by apply reject_accounted].
Qed.

Lemma handleChange_same c w :
  match c with StateDisconnected _ => False | _ => True end →
  same_requests (env w) (env (handleConnectionStateChange c w)) ∧
  lifecycle (handleConnectionStateChange c w) = lifecycle w.
Proof. by destruct c. Qed.

Lemma fail_requests w e : requests_ok w → requests_ok (fail_ handleConnectionStateChange w e).
Proof.
  intros [Ha Hp]. unfold fail_.
  assert (∀ w', env w' = env w → requests_ok (change handleConnectionStateChange w' (StateDisconnected e))) as H.
  { intros w' E. unfold change. destruct (handleChange_disconnected e (emit w' (StateChange (StateDisconnected e)))) as [H1 H2].
    - simpl. by rewrite E.
    - split; [done|]. by rewrite H2. }
  destruct (lifecycle w) as [|id d t|id d t []]; [done|by apply H..].
Qed.

Lemma failAndClose_requests w e : requests_ok w → requests_ok (failAndClose handleConnectionStateChange w e).
Proof. intros H. unfold failAndClose. destruct (current_transport w); by apply fail_requests. Qed.

(** An operation on the client that leaves requests and the connection alone. *)
Lemma with_client_requests w c : same_requests (env w) c → requests_ok w → requests_ok (with_client w c).
Proof.
  intros Hs [Ha Hp]. split; simpl; [by apply (accounted_same (env w))|]. destruct Hs as (-> & _). done.
Qed.

Lemma message_requests m w : requests_ok w → requests_ok (handleServerMessage m w).
Proof.
  intros [Ha Hp]. destruct m as [s|e|id r|e]; simpl; [done|done| |].
  - destruct (takePendingRequest (env w) id) as [c [command|]] eqn:E; [|by apply failAndClose_requests].
    specialize (Hp (take_pending_nil _ _ _ _ E)).
    assert (∀ o c', same_requests (settle c id o) c' → requests_ok (with_client w c')) as Hs.
    { intros o c' Hs. split; [|done]. apply (accounted_same _ _ Hs). by eapply take_settle_accounted. }
    destruct r as [r|e]; [|by eapply Hs].
    case_match; [apply failAndClose_requests; by eapply Hs|].
    destruct (applyResult (c_state c) r) as [st ns]. by apply (Hs (Ok r)).
  - destruct e; (destruct (applyEvent _ _) as [st ns]; by apply with_client_requests).
Qed.

Lemma handleHello_requests w id d t s :
  lifecycle w = Connecting id d (Some t) → requests_ok w →
  requests_ok (handleHello clientOnHandshake handleConnectionStateChange w id d t s).
Proof.
  intros El [Ha Hp]. unfold handleHello, clientOnHandshake. cbn [env set_lifecycle].
  destruct (applyServerSnapshot (c_state (env w)) s) as [st ns].
  unfold change, handleConnectionStateChange, with_client, is_pending, settle_handshake. simpl.
  rewrite !Nat.eqb_refl. simpl. split; [|done]. by apply (accounted_same (env w)).
Qed.

Lemma handleMessage_requests w m :
  requests_ok w → requests_ok (handleMessage clientOnHandshake handleServerMessage handleConnectionStateChange w m).
Proof.
  intros H. unfold handleMessage. destruct (lifecycle w) as [|id d t|id d t h] eqn:El; [done|..].
  - destruct m; try by apply failAndClose_requests. destruct t; [by apply handleHello_requests|by apply failAndClose_requests].
  - destruct m; solve [by apply failAndClose_requests|by apply message_requests].
Qed.

Lemma handleMessages_requests ms w :
  requests_ok w → requests_ok (handleMessages clientOnHandshake handleServerMessage handleConnectionStateChange w ms).
Proof.
  revert w. induction ms as [|m ms IH]; intros w H; simpl; [done|].
  destruct (lifecycle w); [done|..]; by apply IH, handleMessage_requests.
Qed.

(** A step of the lifecycle that does not leave the connected state. *)
Lemma set_lifecycle_requests w lc :
  (is_connected w = true → is_connected (set_lifecycle w lc) = true) → requests_ok w → requests_ok (set_lifecycle w lc).
Proof. intros Hc [Ha Hp]. split; [done|]. intros Hne. by apply Hc, Hp. Qed.

Lemma data_requests w id chunk : requests_ok w → requests_ok (clientData decoder_push w id chunk).
Proof.
  intros H. unfold clientData, handleData. case_match; [done|].
  assert (∀ d, requests_ok (set_decoder w d)) as Hset.
  { intros d. unfold set_decoder. destruct (lifecycle w) eqn:El; [done|..]; apply set_lifecycle_requests;
      unfold is_connected; simpl; by rewrite ?El. }
  assert (∀ d, requests_ok (receiveChunk decoder_push clientOnHandshake handleServerMessage handleConnectionStateChange w d chunk)) as Hr.
  { intros d. unfold receiveChunk. destruct (decoder_push d chunk) as [d' [ms|e]];
      [by apply handleMessages_requests|by apply failAndClose_requests]. }
  destruct (lifecycle w) as [|? d []|]; [done|apply Hr|by apply failAndClose_requests|apply Hr].
Qed.

Lemma connect_requests w : requests_ok w → requests_ok (connect new_decoder handleConnectionStateChange w).1.
Proof.
  intros [Ha Hp]. unfold connect. destruct (lifecycle w) eqn:El; [|done..]. split; simpl; [done|].
  intros Hne. specialize (Hp Hne). unfold is_connected in Hp. by rewrite El in Hp.
Qed.

Lemma disconnect_requests w e : requests_ok w → requests_ok (disconnect handleConnectionStateChange w e).
Proof. intros H. unfold disconnect. destruct (lifecycle w); [done|by apply failAndClose_requests..]. Qed.

Lemma send_requests w frame : requests_ok w → requests_ok (send transport_send handleConnectionStateChange w frame).1.
Proof.
  intros H. unfold send. destruct (lifecycle w); [done..|].
  destruct (transport_send _ _); [by apply failAndClose_requests|done].
Qed.

Lemma opened_requests w id t : requests_ok w → requests_ok (clientOpened hello transport_send w id t).
Proof.
  intros H. unfold clientOpened, openResolved. destruct (lifecycle w) as [|id' d t'|] eqn:El; [done| |done].
  case_match; [|done]. set (w1 := set_lifecycle w _).
  assert (requests_ok w1) as H1
    by (apply set_lifecycle_requests; [unfold is_connected; by rewrite El|done]).
  assert (∀ e, requests_ok (helloRejected handleConnectionStateChange w1 id e)) as Hr
    by (intros e; unfold helloRejected; guarded failAndClose_requests).
  destruct hello as [frame|e]; [|apply Hr]. destruct (transport_send t frame); [apply Hr|done].
Qed.

Lemma step_requests w ev :
  requests_ok w →
  requests_ok (step new_decoder decoder_push decoder_end hello transport_send
                 clientOnHandshake handleServerMessage handleConnectionStateChange w ev).
Proof.
  intros H. destruct ev; simpl.
  - by apply connect_requests.
  - by apply disconnect_requests.
  - by apply failAndClose_requests.
  - by apply send_requests.
  - unfold sendRejected. guarded failAndClose_requests.
  - unfold openRejected. guarded fail_requests.
  - by apply opened_requests.
  - unfold helloRejected. guarded failAndClose_requests.
  - by apply data_requests.
  - unfold onClose, handleClose. case_match; [|done].
    destruct (lifecycle w); [done|..]; case_match; by apply fail_requests.
  - unfold onError. guarded failAndClose_requests.
Qed.

Lemma request_requests w command :
  requests_ok w → requests_ok (request transport_send encode_request w command).1.
Proof.
  intros [Ha Hp]. unfold request. case_match; [done|]. case_match; [done|].
  set (c := mkClient _ _ _ _ _ _ _ _). set (id := request_id (S (requestSequence (env w)))).
  assert (id ∉ (pendingRequests (env w)).*1) as Hfresh.
  { intros Hin. apply (request_id_fresh (requestSequence (env w))). unfold accounted in Ha. rewrite <- Ha.
    apply elem_of_app. by right. }
  assert (accounted c) as Hc.
  { unfold accounted in *. simpl. rewrite map_set_fresh by done. rewrite request_ids_S, <- Ha, fmap_app, app_assoc. done. }
  assert (requests_ok (with_client w c)) as Hok by (split; [done|]; intros _; zb; done).
  destruct (encode_request id command) as [frame|e]; [by apply send_requests|].
  destruct (takePendingRequest c id) as [c' [cmd|]] eqn:Et; simpl.
  - split; simpl; [by eapply take_settle_accounted|]. intros _. zb. done.
  - unfold takePendingRequest in Et. case_match; [done|]. injection Et as <-. done.
Qed.

Lemma dispose_requests w : requests_ok w → requests_ok (clientDispose w).
Proof.
  intros [Ha Hp]. unfold clientDispose. case_match; [done|]. set (c := rejectPendingRequests _ _).
  assert (requests_ok (disconnect handleConnectionStateChange (with_client w c) PiClientDisposedError)) as H1.
  { apply disconnect_requests. split; [|done]. apply reject_accounted. done. }
  by apply with_client_requests.
Qed.

(** ** Runs of a client *)

Inductive client_event :=
| CConnect
| CDisconnect (reason : jsstr)
| CRequest (command : Command)
| CDispose
| CAttach (sessionId : jsstr) (attach : Command)
| CAttachRejected (previous : option SessionSnapshot)
| CAcquire (sessionId : jsstr) (mode : SessionLeaseMode)
| CAcquired (sessionId : jsstr) (t : token)
| CAcquireFailed (sessionId : jsstr) (t : token)
| CRelease (l : Lease) (detach : Command)
| CReleased (l : Lease)
| CReleaseRejected (l : Lease) (relinquish : bool)
| CTransport (ev : connection_event).

Definition client_step w (ev : client_event) : ClientWorld :=
  match ev with
  | CConnect => (clientConnect new_decoder w).1
  | CDisconnect reason => clientDisconnect w reason
  | CRequest command => (request transport_send encode_request w command).1
  | CDispose => clientDispose w
  | CAttach sessionId attach => (attachBegin transport_send encode_request w sessionId attach).1.1
  | CAttachRejected previous => attachRejected w previous
  | CAcquire sessionId mode =>
      match acquireBegin w sessionId mode with Ok (w, _) => w | Err _ => w end
  | CAcquired sessionId t => (acquireFinished w sessionId t).1
  | CAcquireFailed sessionId t => acquireFailed w sessionId t
  | CRelease l detach => (release transport_send encode_request w l detach).1.1
  | CReleased l => (releaseResolved w l).1
  | CReleaseRejected l relinquish => (releaseRejected w l relinquish).1
  | CTransport ev =>
      step new_decoder decoder_push decoder_end hello transport_send
        clientOnHandshake handleServerMessage handleConnectionStateChange w ev
  end.

Lemma client_step_requests w ev : requests_ok w → requests_ok (client_step w ev).
Proof.
  intros H. destruct ev; cbn [client_step].
  - unfold clientConnect. case_match; [done|]. apply connect_requests.
    destruct (lifecycle w); [by apply with_client_requests|done..].
  - by apply disconnect_requests.
  - by apply request_requests.
  - by apply dispose_requests.
  - unfold attachBegin, forgetSessionSnapshot.
    set (w0 := with_client w _). pose proof (request_requests w0 attach) as Hr.
    destruct (request _ _ _ _) as [w1 r]. apply Hr. by apply with_client_requests.
  - destruct previous; [by apply with_client_requests|done].
  - unfold acquireBegin. destruct (disposed (env w)); [done|]. destruct (reserveSessionLease _ _ _) as [[lt t]|e]; [|done].
    by apply with_client_requests.
  - by apply with_client_requests.
  - by apply with_client_requests.
  - unfold release. destruct (l_state _); try done. destruct (assertActive _ _); [|done].
    case_match; [|by apply with_client_requests]. pose proof (request_requests w detach H) as Hr.
    by destruct (request _ _ _ _).
  - by apply with_client_requests.
  - unfold releaseRejected. case_match; [done|]. destruct relinquish; [by apply with_client_requests|done].
  - by apply step_requests.
Qed.

(** C29: every request is answered exactly once.  After any sequence of client
    calls and transport events, each request the client has made is either
    pending or settled, and settled only once; a client that is not connected
    has none pending, so every request made so far has been resolved or
    rejected. *)
Theorem requests_answered_once evs :
  let w := foldl client_step (new_World new_Client) evs in
  let made := request_ids (requestSequence (env w)) in
  (settlements (env w)).*1 ++ (pendingRequests (env w)).*1 ≡ₚ made ∧ NoDup made ∧
  (is_connected w = false → (settlements (env w)).*1 ≡ₚ made).
Proof.
  intros w made. assert (requests_ok w) as [Ha Hp].
  { unfold w. assert (requests_ok (new_World new_Client : ClientWorld)) as H0
      by (split; [by apply Permutation_nil_r|done]).
    revert H0. generalize (new_World new_Client : ClientWorld).
    induction evs as [|ev evs IH]; intros w0 H0; simpl; [done|]. by apply IH, client_step_requests. }
  split_and!; [exact Ha|apply request_ids_NoDup|]. intros Hc. unfold accounted in Ha.
  destruct (pendingRequests (env w)) as [|x k]; [by rewrite app_nil_r in Ha|].
  rewrite Hp in Hc; done.
Qed.
End client.

(** ** Leases *)

(** The contract of the tables: which leases are held. *)
Record held_lease := mkHeld { h_session : jsstr; h_token : token; h_mode : SessionLeaseMode }.

#[export] Instance held_lease_eq_dec : EqDecision held_lease.
Proof. solve_decision. Defined.

Notation of_session id held := (filter (λ h, h_session h = id) held).

(** A lease may be added: alone, or next to shared ones. *)
Definition admissible (held : list held_lease) (id : jsstr) (mode : SessionLeaseMode) : bool :=
  match mode with
  | exclusive => bool_decide (of_session id held = [])
  | shared => forallb (λ h, bool_decide (h_mode h = shared)) (of_session id held)
  end.

Inductive lease_call :=
| Reserve (id : jsstr) (mode : SessionLeaseMode)
| ReleaseToken (id : jsstr) (t : token)
| Invalidate (id : jsstr)
| InvalidateAll.

Definition lease_step (s : LeaseTables * list held_lease) (c : lease_call) : LeaseTables * list held_lease :=
  let '(lt, held) := s in
  match c with
  | Reserve id mode =>
      match reserveSessionLease lt id mode with
      | Ok (lt, t) => (lt, held ++ [mkHeld id t mode])
      | Err _ => (lt, held)
      end
  | ReleaseToken id t =>
      (releaseSessionLease lt id t, filter (λ h, h_token h ≠ t) held)
  | Invalidate id => (invalidateSessionLeases lt id, filter (λ h, h_session h ≠ id) held)
  | InvalidateAll => (invalidateAllSessionLeases lt, [])
  end.

(** Only tokens that are held are released. *)
Fixpoint releases_held (s : LeaseTables * list held_lease) (cs : list lease_call) : bool :=
  match cs with
  | [] => true
  | c :: cs =>
      match c with
      | ReleaseToken id t => bool_decide ((id, t) ∈ (λ h, (h_session h, h_token h)) <$> s.2)
      | _ => true
      end && releases_held (lease_step s c) cs
  end.

Record leases_ok (s : LeaseTables * list held_lease) : Prop := {
  lo_count id : lease_count s.1 id = length (of_session id s.2);
  lo_exclusive id t : exclusiveSessionLeases s.1 !! id = Some t ↔ mkHeld id t exclusive ∈ s.2;
  lo_alone h : h ∈ s.2 → h_mode h = exclusive → of_session (h_session h) s.2 = [h];
  lo_tokens : NoDup (h_token <$> s.2);
  lo_fresh h : h ∈ s.2 → h_token h < leaseTokens s.1;
}.

(** The tables allow exactly the reservations of the contract. *)
Lemma reserve_admissible lt held id mode :
  leases_ok (lt, held) → is_Ok (reserveSessionLease lt id mode) = admissible held id mode.
Proof.
  intros [Hc He Ha Ht Hf]. unfold reserveSessionLease. simpl in *. destruct mode; simpl.
  - assert (forallb (λ h, bool_decide (h_mode h = shared)) (of_session id held) =
            negb (bool_decide (is_Some (exclusiveSessionLeases lt !! id)))) as ->; [|by case_bool_decide].
    apply eq_true_iff_eq. rewrite negb_true_iff, bool_decide_eq_false, List.forallb_forall. split.
    + intros Hall [t Hs]. apply He in Hs. specialize (Hall (mkHeld id t exclusive)).
      rewrite bool_decide_eq_false_2 in Hall by done. assert (false = true); [|done].
      by apply Hall, list_elem_of_In, list_elem_of_filter.
    + intros Hno h [Hid Hh]%list_elem_of_In%list_elem_of_filter. apply bool_decide_eq_true.
      destruct (h_mode h) eqn:E; [done|]. destruct Hno. exists (h_token h). apply He. destruct h; simpl in *; by subst.
  - rewrite Hc. destruct (of_session id held); done.
Qed.

Lemma of_session_filter id (P : held_lease → Prop) `{∀ h, Decision (P h)} (held : list held_lease) :
  (∀ h, h ∈ held → h_session h = id → P h) → of_session id (filter P held) = of_session id held.
Proof.
  induction held as [|h held IH]; intros HP; [done|].
  assert (of_session id (filter P held) = of_session id held) as E by (apply IH; intros; apply HP; [by right|done]).
  specialize (HP h ltac:(left)). rewrite !(filter_cons _ h held). destruct (decide (P h)).
  - rewrite filter_cons, E. done.
  - rewrite decide_False by auto. done.
Qed.

Lemma of_session_none id (P : held_lease → Prop) `{∀ h, Decision (P h)} (held : list held_lease) :
  (∀ h, P h → h_session h ≠ id) → of_session id (filter P held) = [].
Proof.
  intros HP. induction held as [|h held IH]; [done|]. rewrite filter_cons. case_decide; [|done].
  rewrite filter_cons_False by (by apply HP). done.
Qed.

(** Releasing a held lease leaves one fewer in its session. *)
Lemma of_session_release (held : list held_lease) h :
  NoDup (h_token <$> held) → h ∈ held →
  of_session (h_session h) held ≡ₚ h :: of_session (h_session h) (filter (λ x, h_token x ≠ h_token h) held).
Proof.
  induction held as [|x held IH]; csimpl; [set_solver|]. intros [Hx Hnd]%NoDup_cons [->|Hh]%elem_of_cons.
  - rewrite (filter_cons_True _ x) by done. rewrite (filter_cons_False _ x) by naive_solver.
    rewrite (filter_all (λ y, h_token y ≠ h_token x) held); [done|]. apply Forall_forall. intros y Hy E. apply Hx. rewrite <- E.
    by apply list_elem_of_fmap_2.
  - rewrite (filter_cons_True (λ x, h_token x ≠ h_token h) x)
      by (intros E; apply Hx; rewrite E; by apply list_elem_of_fmap_2).
    rewrite !(filter_cons _ x). case_decide; [|by apply IH]. rewrite (IH Hnd Hh). constructor.
Qed.

Section lease_sim.
Context (lt : LeaseTables) (held : list held_lease) (Hok : leases_ok (lt, held)).

Lemma of_session_snoc id h :
  of_session id (held ++ [h]) = of_session id held ++ (if bool_decide (h_session h = id) then [h] else []).
Proof. rewrite filter_app, filter_cons, filter_nil. repeat case_decide; repeat case_bool_decide; naive_solver. Qed.

Lemma reserve_ok id mode : leases_ok (lease_step (lt, held) (Reserve id mode)).
Proof.
  pose proof (reserve_admissible lt held id mode Hok) as Had. simpl.
  destruct (reserveSessionLease lt id mode) as [[lt' t]|e] eqn:E; [|done]. simpl in Had. symmetry in Had.
  unfold reserveSessionLease in E. invert_ok. simplify_eq. destruct Hok as [Hc He Ha Ht Hf]. simpl in *.
  assert (∀ h, h ∈ held → h_session h = id → h_mode h = shared ∧ mode = shared) as Hshared.
  { intros h Hh Hid. assert (h ∈ of_session id held) as Hin by (by apply list_elem_of_filter).
    destruct mode; simpl in Had.
    - rewrite List.forallb_forall in Had. apply list_elem_of_In, Had in Hin. zb. done.
    - zb. rewrite Had in Hin. set_solver. }
  constructor; simpl.
  - intros id'. rewrite of_session_snoc, length_app. simpl. unfold lease_count in *. simpl. destruct (bool_decide (id = id')) eqn:Ei; zb.
    + subst id'. rewrite lookup_insert_eq. simpl. rewrite Hc. lia.
    + rewrite lookup_insert_ne, Hc by done. simpl. lia.
  - intros id' t'. rewrite elem_of_app, list_elem_of_singleton. destruct mode; simpl.
    + rewrite He. naive_solver.
    + rewrite lookup_insert_Some, He. split; [naive_solver|]. intros [Hin|[= -> ->]]; [|naive_solver].
      right. split; [|done]. intros <-. destruct (Hshared _ Hin eq_refl). done.
  - intros h [Hh| ->%list_elem_of_singleton]%elem_of_app Hm; rewrite of_session_snoc; simpl.
    + rewrite (Ha h Hh Hm). rewrite bool_decide_eq_false_2; [done|]. intros Es. destruct (Hshared h Hh (eq_sym Es)). congruence.
    + rewrite bool_decide_eq_true_2 by done. simpl in Hm. subst mode. simpl in Had. zb. by rewrite Had.
  - rewrite fmap_app. apply NoDup_app. split; [done|]. split; [|apply NoDup_singleton].
    intros x (h & -> & Hh)%list_elem_of_fmap Hx%list_elem_of_singleton. apply Hf in Hh. simpl in Hx. lia.
  - intros h [Hh| ->%list_elem_of_singleton]%elem_of_app; [apply Hf in Hh|simpl]; lia.
Qed.

(** Dropping leases keeps what is left in order. *)
Lemma drop_ok lt' (P : held_lease → Prop) `{∀ h, Decision (P h)} :
  leaseTokens lt' = leaseTokens lt →
  (∀ id, lease_count lt' id = length (of_session id (filter P held))) →
  (∀ id t, exclusiveSessionLeases lt' !! id = Some t ↔ mkHeld id t exclusive ∈ filter P held) →
  leases_ok (lt', filter P held).
Proof.
  intros Hn Hc He. destruct Hok as [_ _ Ha Ht Hf]. simpl in *. constructor; simpl; [done|done|..].
  - intros h [HP Hh]%list_elem_of_filter Hm. rewrite list_filter_filter.
    rewrite (list_filter_iff _ (λ x, P x ∧ h_session x = h_session h)) by naive_solver.
    rewrite <- list_filter_filter. rewrite (Ha h Hh Hm), filter_cons_True, filter_nil; done.
  - apply (sublist_NoDup _ _ Ht), fmap_sublist, sublist_filter.
  - intros h [_ Hh]%list_elem_of_filter. rewrite Hn. by apply Hf.
Qed.

Lemma release_ok id t :
  (id, t) ∈ (λ h, (h_session h, h_token h)) <$> held → leases_ok (lease_step (lt, held) (ReleaseToken id t)).
Proof.
  intros (h & [= -> ->] & Hh)%list_elem_of_fmap. pose proof Hok as [Hc He Ha Ht Hf]. simpl in *.
  assert (∀ h', h' ∈ held → h_token h' = h_token h → h' = h) as Huniq
    by (intros h' Hh'; by apply (NoDup_fmap_eq h_token held)).
  apply drop_ok; [done|..].
  - intros id'. unfold lease_count at 1. simpl. rewrite Hc.
    destruct (decide (id' = h_session h)) as [->|Hne].
    + pose proof (Permutation_length (of_session_release held h Ht Hh)) as El. simpl in El. rewrite El. simpl.
      destruct (length (of_session (h_session h) (filter _ held))) as [|k]; simpl.
      * by rewrite lookup_delete_eq.
      * by rewrite lookup_insert_eq.
    + rewrite of_session_filter; [|intros h' Hh' Es Et; apply Hne; rewrite <- Es; f_equal; by apply Huniq].
      rewrite <- (Hc id'). destruct (_ <=? 1); [by rewrite lookup_delete_ne|by rewrite lookup_insert_ne].
  - intros id' t'. simpl. rewrite list_elem_of_filter, <- He. simpl. case_bool_decide as E.
    + rewrite lookup_delete_Some, He. split.
      * intros [Hne Hin]. split; [|done]. intros ->. apply Hne. by rewrite <- (Huniq _ Hin eq_refl).
      * intros [Hne Hin]. split; [|done]. intros <-. apply Hne. apply He in Hin. congruence.
    + split; [|naive_solver]. intros Hs. split; [|done]. intros ->. apply E. apply He in Hs as Hin.
      pose proof (Huniq _ Hin eq_refl) as <-. done.
Qed.

Lemma invalidate_ok id : leases_ok (lease_step (lt, held) (Invalidate id)).
Proof.
  pose proof Hok as [Hc He Ha Ht Hf]. simpl in *. apply drop_ok; [done|..].
  - intros id'. unfold lease_count at 1. simpl. destruct (decide (id' = id)) as [->|Hne].
    + rewrite lookup_delete_eq, of_session_none; done.
    + rewrite lookup_delete_ne, of_session_filter by naive_solver. apply Hc.
  - intros id' t. simpl. rewrite lookup_delete_Some, list_elem_of_filter, He. simpl. naive_solver.
Qed.

Lemma invalidate_fold ids lt0 :
  let lt1 := foldl invalidateSessionLeases lt0 ids in
  leaseTokens lt1 = leaseTokens lt0 ∧
  (∀ id, sessionLeaseCounts lt1 !! id = if bool_decide (id ∈ ids) then None else sessionLeaseCounts lt0 !! id) ∧
  (∀ id, exclusiveSessionLeases lt1 !! id = if bool_decide (id ∈ ids) then None else exclusiveSessionLeases lt0 !! id).
Proof.
  revert lt0. induction ids as [|i ids IH]; intros lt0; cbn [foldl].
  - split_and!; [done|..]; intros id; (rewrite bool_decide_eq_false_2; [done|set_solver]).
  - destruct (IH (invalidateSessionLeases lt0 i)) as (Hn & Hc & He). split_and!; [done|..]; intros id.
    + rewrite Hc. simpl. destruct (decide (id = i)) as [->|]; [rewrite lookup_delete_eq|rewrite lookup_delete_ne by done];
        repeat case_bool_decide; set_solver.
    + rewrite He. simpl. destruct (decide (id = i)) as [->|]; [rewrite lookup_delete_eq|rewrite lookup_delete_ne by done];
        repeat case_bool_decide; set_solver.
Qed.

Lemma invalidateAll_ok : leases_ok (lease_step (lt, held) InvalidateAll).
Proof.
  pose proof Hok as [Hc He Ha Ht Hf]. simpl in *. unfold invalidateAllSessionLeases.
  destruct (invalidate_fold (elements (dom (sessionLeaseCounts lt))) lt) as (Hn & Hc' & He').
  set (lt1 := foldl _ _ _) in *. constructor; simpl; [| |set_solver|constructor|set_solver].
  - intros id. unfold lease_count. simpl. rewrite Hc'. case_bool_decide as E; [done|].
    rewrite elem_of_elements, not_elem_of_dom in E. by rewrite E.
  - intros id t. split; [|set_solver]. rewrite He'. case_bool_decide as E; [done|].
    intros Hs. apply He in Hs. rewrite elem_of_elements, not_elem_of_dom in E.
    specialize (Hc id). unfold lease_count in Hc. rewrite E in Hc. simpl in Hc. symmetry in Hc.
    apply nil_length_inv in Hc. exfalso. apply (not_elem_of_nil (mkHeld id t exclusive)). rewrite <- Hc.
    by apply list_elem_of_filter.
Qed.
End lease_sim.

Lemma lease_sim cs s : leases_ok s → releases_held s cs = true → leases_ok (foldl lease_step s cs).
Proof.
  revert s. induction cs as [|c cs IH]; intros [lt held] Hok Hr; [done|].
  cbn [releases_held foldl] in *. apply andb_true_iff in Hr as [Hc Hr]. apply IH; [|done].
  destruct c; zb; [by apply reserve_ok|by apply release_ok|by apply invalidate_ok|by apply invalidateAll_ok].
Qed.

Lemma leases_ok_empty : leases_ok (new_LeaseTables, []).
Proof. constructor; simpl; [done| |set_solver|constructor|set_solver]. intros id t. rewrite lookup_empty. set_solver. Qed.

(** C30: exclusive leases are exclusive.  For any sequence of reservations,
    releases of held leases and invalidations, over any sessions: a session with
    an exclusive lease has no other, and a reservation succeeds exactly when the
    contract admits it (an exclusive one when the session has no lease, a shared
    one when it has no exclusive lease). *)
Theorem lease_exclusion cs :
  releases_held (new_LeaseTables, []) cs = true →
  let '(lt, held) := foldl lease_step (new_LeaseTables, []) cs in
  (∀ h, h ∈ held → h_mode h = exclusive → of_session (h_session h) held = [h]) ∧
  (∀ id mode, is_Ok (reserveSessionLease lt id mode) = admissible held id mode).
Proof.
  intros Hr. pose proof (lease_sim cs _ leases_ok_empty Hr) as Hok.
  destruct (foldl lease_step (new_LeaseTables, []) cs) as [lt held]. split; [apply (lo_alone _ Hok)|].
  intros id mode. by apply reserve_admissible.
Qed.

Lemma lease_exclusion_witness :
  let a := js_lit "a" in
  let cs := [Reserve a shared; Reserve a shared; Reserve a exclusive; ReleaseToken a 0; ReleaseToken a 1;
             Reserve a exclusive; Reserve a shared] in
  (foldl lease_step (new_LeaseTables, []) cs).2 = [mkHeld a 2 exclusive] ∧
  let '(lt, held) := foldl lease_step (new_LeaseTables, []) cs in
  (∀ h, h ∈ held → h_mode h = exclusive → of_session (h_session h) held = [h]) ∧
  (∀ id mode, is_Ok (reserveSessionLease lt id mode) = admissible held id mode).
Proof. split; [vm_compute; reflexivity|]. apply lease_exclusion. vm_compute. reflexivity. Defined.

Section stale_tokens.
Context {D : Type}.
Notation ClientWorld := (World D Client).
Implicit Types w : ClientWorld.

(** No lease of the session, reserved or held. *)
Definition unleased w (id : jsstr) : Prop :=
  sessionLeaseCounts (leases (env w)) !! id = None ∧ exclusiveSessionLeases (leases (env w)) !! id = None.

Lemma reserve_unleased lt id mode :
  sessionLeaseCounts lt !! id = None → exclusiveSessionLeases lt !! id = None →
  reserveSessionLease lt id mode =
  Ok (mkTables (<[id := 1]> (sessionLeaseCounts lt))
        (if bool_decide (mode = exclusive) then <[id := leaseTokens lt]> (exclusiveSessionLeases lt)
         else exclusiveSessionLeases lt)
        (sessionLeaseGenerations lt) (sessionCleanupRequired lt) (S (leaseTokens lt)), leaseTokens lt).
Proof. intros Hc He. unfold reserveSessionLease, lease_count. rewrite Hc, He. by destruct mode. Qed.

(** The session's removal, as the client handles it. *)
Definition removed w (id : jsstr) : ClientWorld := handleServerMessage (Event (session_removed id)) w.

Lemma removed_spec w id :
  leases (env (removed w id)) = invalidateSessionLeases (leases (env w)) id ∧ disposed (env (removed w id)) = disposed (env w).
Proof. unfold removed, handleServerMessage. destruct (applyEvent _ _). done. Qed.

Lemma acquire_ok w id mode lt t :
  disposed (env w) = false → reserveSessionLease (leases (env w)) id mode = Ok (lt, t) →
  acquireBegin w id mode = Ok (with_client w (with_leases (env w) lt), t).
Proof. intros Hd Hr. unfold acquireBegin. by rewrite Hd, Hr. Qed.

(** A lease of a session that already has a generation leaves the tables as they are. *)
Lemma acquireFinished_spec w id t g :
  sessionLeaseGenerations (leases (env w)) !! id = Some g →
  let '(w', l) := acquireFinished w id t in
  l = mkLease id t g lease_active ∧ leases (env w') = leases (env w) ∧ disposed (env w') = disposed (env w) ∧
  c_state (env w') = c_state (env w).
Proof.
  intros Hg. unfold acquireFinished, createSessionLease, generation. rewrite Hg. simpl. split_and!; [done| |done|done].
  destruct (leases (env w)); simpl in *. by rewrite insert_id.
Qed.

(** The next acquisition after an invalidation. *)
Lemma acquire_invalidated w lt id mode :
  leases (env w) = invalidateSessionLeases lt id → disposed (env w) = false →
  ∃ w', acquireBegin w id mode = Ok (w', leaseTokens lt) ∧ disposed (env w') = false ∧
    leases (env w') =
      mkTables (<[id := 1]> (delete id (sessionLeaseCounts lt)))
        (if bool_decide (mode = exclusive) then <[id := leaseTokens lt]> (delete id (exclusiveSessionLeases lt))
         else delete id (exclusiveSessionLeases lt))
        (<[id := S (generation lt id)]> (sessionLeaseGenerations lt)) (sessionCleanupRequired lt ∖ {[ id ]})
        (S (leaseTokens lt)).
Proof.
  intros Hl Hd. eexists. split; [apply acquire_ok; [done|]|].
  - rewrite Hl. rewrite reserve_unleased; [done|apply lookup_delete_eq..].
  - split; done.
Qed.

(** a reservation that is invalidated while its attach is under way still
    counts when the attach ends.  The session is acquired exclusively and
    removed before the acquisition finishes.  If the attach then fails, its
    release takes back the reservation of whoever acquired the session in
    between, and an exclusive acquisition succeeds next to that one.  If it
    succeeds, the lease it creates takes the new generation without an entry in
    the tables, and after another exclusive acquisition both leases are
    active. *)
Theorem stale_reservation w id st ns :
  disposed (env w) = false → unleased w id → isSessionAttached st id = true →
  ∃ w1 a, acquireBegin w id exclusive = Ok (w1, a) ∧
    (∃ w2 b, acquireBegin (removed w1 id) id shared = Ok (w2, b) ∧
       ∃ w3 c, acquireBegin (acquireFailed w2 id a) id exclusive = Ok (w3, c) ∧ b ≠ c) ∧
    (let '(w2, la) := acquireFinished (removed w1 id) id a in
     ∃ w3 b, acquireBegin w2 id exclusive = Ok (w3, b) ∧
       let '(w4, lb) := acquireFinished (with_client w3 (with_state (env w3) st ns)) id b in
       l_token la ≠ l_token lb ∧ isActive (env w4) la = true ∧ isActive (env w4) lb = true).
Proof.
  intros Hd [Hc He] Hst. set (lt := leases (env w)) in *.
  set (lt1 := mkTables (<[id := 1]> (sessionLeaseCounts lt)) (<[id := leaseTokens lt]> (exclusiveSessionLeases lt))
                (sessionLeaseGenerations lt) (sessionCleanupRequired lt) (S (leaseTokens lt))).
  set (w1 := with_client w (with_leases (env w) lt1)). exists w1, (leaseTokens lt).
  split; [apply acquire_ok; [done|by rewrite reserve_unleased]|].
  destruct (removed_spec w1 id) as [Hl Hd1]. set (wr := removed w1 id) in *. change (leases (env w1)) with lt1 in Hl.
  assert (disposed (env wr) = false) as Hdr by (rewrite Hd1; exact Hd).
  split.
  - destruct (acquire_invalidated wr lt1 id shared Hl Hdr) as (w2 & Ha2 & Hd2 & Hl2). exists w2, (S (leaseTokens lt)). split; [done|].
    assert (leases (env (acquireFailed w2 id (leaseTokens lt))) =
            releaseSessionLease (leases (env w2)) id (leaseTokens lt)) as Hf by done.
    eexists _, _. split; [apply acquire_ok; [done|]|].
    + rewrite Hf, Hl2. rewrite reserve_unleased; [done| |].
      * unfold releaseSessionLease, lease_count. simpl. rewrite lookup_insert_eq. simpl. apply lookup_delete_eq.
      * simpl. rewrite lookup_delete_eq. apply lookup_delete_eq.
    + simpl. lia.
  - set (g := S (generation lt1 id)).
    assert (sessionLeaseGenerations (leases (env wr)) !! id = Some g) as Hg by (rewrite Hl; apply lookup_insert_eq).
    pose proof (acquireFinished_spec wr id (leaseTokens lt) g Hg) as Hfin.
    destruct (acquireFinished wr id (leaseTokens lt)) as [w2 la]. destruct Hfin as (-> & Hl2 & Hd2 & _).
    destruct (acquire_invalidated w2 lt1 id exclusive) as (w3 & Ha3 & Hd3 & Hl3); [congruence..|].
    exists w3, (S (leaseTokens lt)). split; [done|].
    set (w3' := with_client w3 (with_state (env w3) st ns)).
    assert (sessionLeaseGenerations (leases (env w3')) !! id = Some g) as Hg3
      by (change (leases (env w3')) with (leases (env w3)); rewrite Hl3; apply lookup_insert_eq).
    pose proof (acquireFinished_spec w3' id (S (leaseTokens lt)) g Hg3) as Hfin3.
    destruct (acquireFinished w3' id (S (leaseTokens lt))) as [w4 lb]. destruct Hfin3 as (-> & Hl4 & _ & Hs4).
    assert (∀ t, isActive (env w4) (mkLease id t g lease_active) = true) as Hact.
    { intros t. unfold isActive, refreshState. simpl. rewrite Hl4, Hg3, Hs4.
      rewrite (bool_decide_eq_true_2 (Some g = Some g)) by done. simpl. exact Hst. }
    split_and!; [simpl; lia|apply Hact..].
Qed.
End stale_tokens.

Lemma stale_reservation_witness :
  let w : World unit Client := new_World new_Client in
  let id := js_lit "s" in
  let '(st, ns) := applyResult new_ClientState (SessionResult attach_cmd (mkSession id true 1%Z [] [] TNull)) in
  (disposed (env w) = false ∧ isSessionAttached st id = true) ∧
  ∃ w1 a, acquireBegin w id exclusive = Ok (w1, a) ∧
    (∃ w2 b, acquireBegin (removed w1 id) id shared = Ok (w2, b) ∧
       ∃ w3 c, acquireBegin (acquireFailed w2 id a) id exclusive = Ok (w3, c) ∧ b ≠ c) ∧
    (let '(w2, la) := acquireFinished (removed w1 id) id a in
     ∃ w3 b, acquireBegin w2 id exclusive = Ok (w3, b) ∧
       let '(w4, lb) := acquireFinished (with_client w3 (with_state (env w3) st ns)) id b in
       l_token la ≠ l_token lb ∧ isActive (env w4) la = true ∧ isActive (env w4) lb = true).
Proof.
  split; [vm_compute; done|].
  apply stale_reservation; [reflexivity|split; reflexivity|vm_compute; reflexivity].
Defined.
