(* ===== verification/Transcript.v ===== *)
(** The transcript a remote session shows:
    [cli/packages/coding-agent/src/client/transcript.ts].

    Snapshots are authoritative; progress events overlay items on top of the last
    one.  [TranscriptState] is immutable in the source and each operation returns
    a new one.  [JSON.parse] is a parameter: the value it returns, or nothing when
    it throws. *)
From stdpp Require Import pretty.
From S2P Require Import Prelude JsValue WireTypes.
Open Scope Z_scope.

Record TranscriptState := mkTranscript {
  ts_snapshot : SessionSnapshot;
  progressItems : gmap jsstr TranscriptItem;
  progressOrder : list jsstr;
  toolCallBuffers : gmap jsstr jsstr;
}.

(** [isJsonValue] on a value that [JSON.parse] returned. *)
Fixpoint isJsonValue (value : tree) : bool :=
  match value with
  | TNull | TBool _ | TText _ => true
  | TNum n => isFinite n
  | TArray ts => forallb isJsonValue ts
  | TMap es => forallb (λ e, isJsonValue e.2) es
  | TBytes _ => false
  end.

Definition createTranscriptState (snapshot : SessionSnapshot) : TranscriptState :=
  mkTranscript snapshot ∅ [] ∅.

Definition applyTranscriptSnapshot (state : TranscriptState) (snapshot : SessionSnapshot) : TranscriptState :=
  if bool_decide (ss_id (ts_snapshot state) = ss_id snapshot) &&
     (ss_revision snapshot <? ss_revision (ts_snapshot state))
  then state else createTranscriptState snapshot.

Definition setProgressItem (state : TranscriptState) (item : TranscriptItem) : TranscriptState :=
  let order := if bool_decide (is_Some (progressItems state !! item_id item)) then progressOrder state
               else progressOrder state ++ [item_id item] in
  mkTranscript (ts_snapshot state) (<[item_id item := item]> (progressItems state)) order (toolCallBuffers state).

Definition with_buffers (state : TranscriptState) (buffers : gmap jsstr jsstr) : TranscriptState :=
  mkTranscript (ts_snapshot state) (progressItems state) (progressOrder state) buffers.

(** [`${messageId}:${contentIndex}`] *)
Definition buffer_key (messageId : jsstr) (contentIndex : nat) : jsstr :=
  messageId ++ js_lit ":" ++ js_lit (pretty contentIndex).

Definition startsWith (s pre : jsstr) : bool := bool_decide (take (length pre) s = pre).

(** Deletes the buffers whose key starts with [`${id}:`]. *)
Definition dropBuffers (id : jsstr) (buffers : gmap jsstr jsstr) : gmap jsstr jsstr :=
  filter (λ kv, startsWith kv.1 (id ++ js_lit ":") = false) buffers.

Section transcript.
Context (JSON_parse : jsstr → option tree).

Definition parsePartialToolInput (value : jsstr) : tree :=
  match JSON_parse value with
  | Some parsed => if isJsonValue parsed then parsed else TText value
  | None => TText value
  end.

(** The new content of the part a delta addresses, and its tool-call buffer. *)
Definition applyDelta (buffers : gmap jsstr jsstr) (key : jsstr) (kind : DeltaKind) (delta : jsstr)
    (part : AssistantContent) : AssistantContent * gmap jsstr jsstr :=
  match kind, part with
  | DText, TextContent text => (TextContent (text ++ delta), buffers)
  | DThinking, ThinkingContent thinking redacted => (ThinkingContent (thinking ++ delta) redacted, buffers)
  | DToolCall, ToolCallContent toolCallId toolName input =>
      let existing := match buffers !! key with
                      | Some buffer => buffer
                      | None => match input with TText s => s | _ => [] end
                      end in
      let buffer := existing ++ delta in
      (ToolCallContent toolCallId toolName (parsePartialToolInput buffer), <[key := buffer]> buffers)
  | _, _ => (part, buffers)
  end.

Definition applyDeltaAt (buffers : gmap jsstr jsstr) (messageId : jsstr) (contentIndex : nat) (kind : DeltaKind)
    (delta : jsstr) (content : list AssistantContent) : list AssistantContent * gmap jsstr jsstr :=
  match content !! contentIndex with
  | Some part =>
      let '(part, buffers) := applyDelta buffers (buffer_key messageId contentIndex) kind delta part in
      (<[contentIndex := part]> content, buffers)
  | None => (content, buffers)
  end.

(** The item a delta addresses: its progress version, or the snapshot's. *)
Definition progressTarget (state : TranscriptState) (messageId : jsstr) : option TranscriptItem :=
  match progressItems state !! messageId with
  | Some item => Some item
  | None => List.find (λ item, bool_decide (item_id item = messageId)) (ss_transcript (ts_snapshot state))
  end.

Definition applyTranscriptProgress (state : TranscriptState) (progress : TranscriptProgress) : TranscriptState :=
  match progress with
  | item_started item | item_updated item => setProgressItem state item
  | item_finished item =>
      setProgressItem (with_buffers state (dropBuffers (item_id item) (toolCallBuffers state))) item
  | assistant_delta messageId contentIndex kind delta =>
      match progressTarget state messageId with
      | Some (AssistantTranscriptItem id content rest) =>
          let '(content, buffers) :=
            applyDeltaAt (toolCallBuffers state) messageId contentIndex kind delta content in
          setProgressItem (with_buffers state buffers) (AssistantTranscriptItem id content rest)
      | _ => state
      end
  end.
End transcript.

(** The progress items that are not in the snapshot, then the queued items. *)
Fixpoint pushProgress (items : gmap jsstr TranscriptItem) (order : list jsstr) (transcript : list TranscriptItem)
    (ids : gset jsstr) : list TranscriptItem * gset jsstr :=
  match order with
  | [] => (transcript, ids)
  | id :: order =>
      if bool_decide (id ∈ ids) then pushProgress items order transcript ids else
      match items !! id with
      | Some item => pushProgress items order (transcript ++ [item]) ({[ id ]} ∪ ids)
      | None => pushProgress items order transcript ids
      end
  end.

Fixpoint pushQueued (queued : list TranscriptItem) (transcript : list TranscriptItem) (ids : gset jsstr) :
    list TranscriptItem :=
  match queued with
  | [] => transcript
  | item :: queued =>
      if bool_decide (item_id item ∈ ids) then pushQueued queued transcript ids
      else pushQueued queued (transcript ++ [item]) ({[ item_id item ]} ∪ ids)
  end.

Definition selectTranscript (state : TranscriptState) : list TranscriptItem :=
  let transcript := (λ item, default item (progressItems state !! item_id item)) <$> ss_transcript (ts_snapshot state) in
  let ids : gset jsstr := list_to_set (item_id <$> transcript) in
  let '(transcript, ids) := pushProgress (progressItems state) (progressOrder state) transcript ids in
  pushQueued (ss_queuedSteer (ts_snapshot state)) transcript ids.

(** * Properties

   Theorems about the transcript of a remote session: what is shown, and that
    streamed deltas accumulate however they are cut. *)

(** ** Streaming *)

(** A part after the text [d] has been streamed to it. *)
Definition streamed (JSON_parse : jsstr → option tree) (buffers : gmap jsstr jsstr) (key : jsstr) (kind : DeltaKind)
    (d : jsstr) (part : AssistantContent) : AssistantContent :=
  (applyDelta JSON_parse buffers key kind d part).1.

Section streaming.
Context (JSON_parse : jsstr → option tree).

(** Two deltas are one. *)
Lemma applyDelta_app buffers key kind d1 d2 part :
  let '(part1, buffers1) := applyDelta JSON_parse buffers key kind d1 part in
  applyDelta JSON_parse buffers1 key kind d2 part1 =
  let '(part2, buffers2) := applyDelta JSON_parse buffers key kind (d1 ++ d2) part in (part2, buffers2).
Proof.
  destruct kind, part; simpl; try done; try by rewrite app_assoc.
  rewrite lookup_insert_eq, app_assoc, insert_insert_eq. done.
Qed.

Definition delta messageId contentIndex kind (state : TranscriptState) (d : jsstr) : TranscriptState :=
  applyTranscriptProgress JSON_parse state (assistant_delta messageId contentIndex kind d).

Lemma delta_spec messageId contentIndex kind state d content rest part :
  progressTarget state messageId = Some (AssistantTranscriptItem messageId content rest) →
  content !! contentIndex = Some part →
  let '(part', buffers') :=
    applyDelta JSON_parse (toolCallBuffers state) (buffer_key messageId contentIndex) kind d part in
  let item := AssistantTranscriptItem messageId (<[contentIndex := part']> content) rest in
  delta messageId contentIndex kind state d = setProgressItem (with_buffers state buffers') item ∧
  progressTarget (delta messageId contentIndex kind state d) messageId = Some item ∧
  toolCallBuffers (delta messageId contentIndex kind state d) = buffers'.
Proof.
  intros Ht Hp. unfold delta, applyTranscriptProgress. rewrite Ht. unfold applyDeltaAt. rewrite Hp.
  destruct (applyDelta _ _ _ _ _ _) as [part' buffers']. split; [done|]. split; [|done].
  unfold progressTarget, setProgressItem. simpl. by rewrite lookup_insert_eq.
Qed.

(** streamed deltas accumulate, however the stream is cut.  Applying the
    deltas of one part one after the other leaves the message as one delta with
    the whole text would: text and thinking are appended, and the input of a
    tool call is read from everything streamed so far, once it is valid JSON. *)
Theorem deltas_accumulate messageId contentIndex kind state ds d content rest part :
  progressTarget state messageId = Some (AssistantTranscriptItem messageId content rest) →
  content !! contentIndex = Some part →
  let state' := foldl (delta messageId contentIndex kind) state (ds ++ [d]) in
  let key := buffer_key messageId contentIndex in
  progressItems state' !! messageId =
    Some (AssistantTranscriptItem messageId
            (<[contentIndex := streamed JSON_parse (toolCallBuffers state) key kind (concat (ds ++ [d])) part]> content)
            rest) ∧
  state' = delta messageId contentIndex kind state (concat (ds ++ [d])).
Proof.
  intros Ht Hp. cbv zeta.
  assert (foldl (delta messageId contentIndex kind) state (ds ++ [d]) =
          delta messageId contentIndex kind state (concat (ds ++ [d]))) as ->.
  { revert state content part Ht Hp. induction ds as [|d1 ds IH]; intros state content part Ht Hp.
    { simpl. by rewrite app_nil_r. }
    simpl. pose proof (delta_spec messageId contentIndex kind state d1 content rest part Ht Hp) as H1.
    pose proof (delta_spec messageId contentIndex kind state (d1 ++ concat (ds ++ [d])) content rest part Ht Hp) as H3.
    pose proof (applyDelta_app (toolCallBuffers state) (buffer_key messageId contentIndex) kind d1 (concat (ds ++ [d])) part) as Happ.
    destruct (applyDelta JSON_parse (toolCallBuffers state) _ kind d1 part) as [part1 buffers1].
    destruct H1 as (E1 & T1 & B1). set (state1 := delta messageId contentIndex kind state d1) in *.
    assert (<[contentIndex := part1]> content !! contentIndex = Some part1) as Hp1
      by (apply list_lookup_insert_eq; by eapply lookup_lt_Some).
    rewrite (IH state1 _ part1 T1 Hp1).
    pose proof (delta_spec messageId contentIndex kind state1 (concat (ds ++ [d])) _ rest part1 T1 Hp1) as H2.
    rewrite B1, Happ in H2. destruct (applyDelta JSON_parse (toolCallBuffers state) _ kind _ part) as [part2 buffers2].
    destruct H2 as (E2 & _ & _). destruct H3 as (E3 & _ & _). rewrite E2, E3, E1, list_insert_insert_eq.
    unfold setProgressItem, with_buffers. simpl. rewrite lookup_insert_eq, insert_insert_eq.
    rewrite bool_decide_eq_true_2 by (by eexists). done. }
  split; [|done]. pose proof (delta_spec messageId contentIndex kind state (concat (ds ++ [d])) content rest part Ht Hp) as H.
  unfold streamed. destruct (applyDelta _ _ _ _ _ _) as [part' buffers']. destruct H as (-> & _ & _).
  simpl. by rewrite lookup_insert_eq.
Qed.
End streaming.

(** Reads a single JSON document: the empty object. *)
Definition ex_parse (s : jsstr) : option tree := if bool_decide (s = js_lit "{}") then Some (TMap []) else None.

Lemma deltas_accumulate_witness :
  let m := js_lit "m" in
  let call := ToolCallContent (js_lit "c") (js_lit "bash") (TText []) in
  let state := setProgressItem (createTranscriptState (mkSession (js_lit "s") true 1 [] [] TNull))
                 (AssistantTranscriptItem m [call] TNull) in
  let ds := [js_lit "{"] in
  let state' := foldl (delta ex_parse m 0 DToolCall) state (ds ++ [js_lit "}"]) in
  streamed ex_parse (toolCallBuffers state) (buffer_key m 0) DToolCall (concat (ds ++ [js_lit "}"])) call =
    ToolCallContent (js_lit "c") (js_lit "bash") (TMap []) ∧
  progressItems state' !! m =
    Some (AssistantTranscriptItem m
            (<[0%nat := streamed ex_parse (toolCallBuffers state) (buffer_key m 0) DToolCall (concat (ds ++ [js_lit "}"])) call]>
               [call]) TNull) ∧
  state' = delta ex_parse m 0 DToolCall state (concat (ds ++ [js_lit "}"])).
Proof.
  split; [vm_compute; reflexivity|].
  apply (deltas_accumulate ex_parse (js_lit "m") 0 DToolCall _ [js_lit "{"] (js_lit "}")
           [ToolCallContent (js_lit "c") (js_lit "bash") (TText [])] TNull); [vm_compute|]; reflexivity.
Defined.

(** ** What is shown *)

Inductive transcript_input :=
| NewSnapshot (s : SessionSnapshot)
| Progress (p : TranscriptProgress).

Section shown.
Context (JSON_parse : jsstr → option tree).

Definition transcript_step (state : TranscriptState) (i : transcript_input) : TranscriptState :=
  match i with
  | NewSnapshot s => applyTranscriptSnapshot state s
  | Progress p => applyTranscriptProgress JSON_parse state p
  end.

Definition unique_ids (s : SessionSnapshot) : bool := bool_decide (NoDup (item_id <$> ss_transcript s)).

Definition input_ok (i : transcript_input) : bool :=
  match i with NewSnapshot s => unique_ids s | Progress _ => true end.

(** Progress items are filed under their id, in the order they first appeared. *)
Record transcript_ok (state : TranscriptState) : Prop := {
  to_keyed id i : progressItems state !! id = Some i → item_id i = id;
  to_order id : id ∈ progressOrder state ↔ is_Some (progressItems state !! id);
  to_unique : unique_ids (ts_snapshot state) = true;
}.

Lemma create_ok s : unique_ids s = true → transcript_ok (createTranscriptState s).
Proof.
  intros H. constructor; simpl; [intros ??; by rewrite lookup_empty| |done].
  intros id. rewrite lookup_empty. split; [set_solver|by intros []].
Qed.

Lemma setProgress_ok state item : transcript_ok state → transcript_ok (setProgressItem state item).
Proof.
  intros [Hk Ho Hu]. constructor; simpl; [| |done].
  - intros id i [[<- <-]|[_ Hi]]%lookup_insert_Some; [done|by apply Hk].
  - intros id. rewrite lookup_insert_is_Some. case_bool_decide as E.
    + rewrite Ho. destruct (decide (item_id item = id)) as [<-|]; naive_solver.
    + rewrite elem_of_app, list_elem_of_singleton, Ho. destruct (decide (item_id item = id)); naive_solver.
Qed.

Lemma transcript_step_ok state i : input_ok i = true → transcript_ok state → transcript_ok (transcript_step state i).
Proof.
  intros Hi Hok. assert (∀ b, transcript_ok (with_buffers state b)) as Hb by (intros b; by destruct Hok).
  destruct i as [s|p]; simpl.
  - unfold applyTranscriptSnapshot. case_match; [done|by apply create_ok].
  - destruct p as [item|m ix k d|item|item]; simpl; [by apply setProgress_ok| |by apply setProgress_ok..].
    destruct (progressTarget state m) as [[| |]|]; try done. destruct (applyDeltaAt _ _ _ _ _ _ _). by apply setProgress_ok.
Qed.

(** The two loops of [selectTranscript]. *)
Lemma pushProgress_spec items order transcript ids transcript' ids' :
  (∀ id i, items !! id = Some i → item_id i = id) →
  NoDup (item_id <$> transcript) → ids = list_to_set (item_id <$> transcript) →
  pushProgress items order transcript ids = (transcript', ids') →
  NoDup (item_id <$> transcript') ∧ ids' = list_to_set (item_id <$> transcript') ∧ transcript `prefix_of` transcript' ∧
  (∀ i, i ∈ transcript' → i ∈ transcript ∨ items !! item_id i = Some i) ∧
  (∀ id, id ∈ order → is_Some (items !! id) → id ∈ item_id <$> transcript').
Proof.
  intros Hk. revert transcript ids. induction order as [|id order IH]; intros transcript ids Hnd Hids E; simpl in E.
  { simplify_eq. split_and!; [done..|naive_solver|set_solver]. }
  case_bool_decide as Hin; [|destruct (items !! id) as [item|] eqn:Ei].
  - destruct (IH _ _ Hnd Hids E) as (H1 & H2 & H3 & H4 & H5). split_and!; [done..|].
    intros id' [->|H]%elem_of_cons Hs; [|by apply H5]. destruct H3 as [k ->]. rewrite fmap_app. set_solver.
  - pose proof (Hk _ _ Ei) as Hid. destruct (IH (transcript ++ [item]) ({[id]} ∪ ids)) as (H1 & H2 & H3 & H4 & H5); [| |done|].
    + rewrite fmap_app. apply NoDup_app. split; [done|]. split; [|apply NoDup_singleton]. simpl. set_solver.
    + rewrite fmap_app, list_to_set_app_L, Hids. simpl. rewrite Hid. set_solver.
    + split_and!; [done|done| | |].
      * etrans; [|done]. by apply prefix_app_r.
      * intros i [[?|Hi]%elem_of_app|?]%H4; [by left| |by right]. apply list_elem_of_singleton in Hi as ->.
        right. by rewrite Hid.
      * intros id' [->|H]%elem_of_cons Hs; [|by apply H5]. destruct H3 as [k ->]. rewrite !fmap_app. set_solver.
  - destruct (IH _ _ Hnd Hids E) as (H1 & H2 & H3 & H4 & H5). split_and!; [done..|].
    intros id' [->|H]%elem_of_cons Hs; [|by apply H5]. rewrite Ei in Hs. by destruct Hs.
Qed.

Lemma pushQueued_spec queued transcript ids :
  NoDup (item_id <$> transcript) → ids = list_to_set (item_id <$> transcript) →
  let shown := pushQueued queued transcript ids in
  NoDup (item_id <$> shown) ∧ transcript `prefix_of` shown ∧
  (∀ i, i ∈ shown → i ∈ transcript ∨ i ∈ queued ∧ item_id i ∉ item_id <$> transcript) ∧
  (∀ i, i ∈ queued → item_id i ∈ item_id <$> shown).
Proof.
  revert transcript ids. induction queued as [|q queued IH]; intros transcript ids Hnd Hids; simpl.
  { split_and!; [done..|naive_solver|set_solver]. }
  case_bool_decide as Hin.
  - destruct (IH _ _ Hnd Hids) as (H1 & H2 & H3 & H4). split_and!; [done..| |].
    + intros i Hi. destruct (H3 i Hi) as [|[??]]; [by left|]. right. split; [by right|done].
    + intros i [->|H]%elem_of_cons; [|by apply H4]. destruct H2 as [k ->]. rewrite fmap_app. set_solver.
  - destruct (IH (transcript ++ [q]) ({[item_id q]} ∪ ids)) as (H1 & H2 & H3 & H4).
    + rewrite fmap_app. apply NoDup_app. split; [done|]. split; [|apply NoDup_singleton]. simpl. set_solver.
    + rewrite fmap_app, list_to_set_app_L, Hids. simpl. set_solver.
    + split_and!; [done| | |].
      * etrans; [|done]. by apply prefix_app_r.
      * intros i Hi. destruct (H3 i Hi) as [[?|Hq]%elem_of_app|[? Hn]]; [by left| |].
        -- apply list_elem_of_singleton in Hq as ->. right. set_solver.
        -- right. split; [by right|]. rewrite fmap_app in Hn. set_solver.
      * intros i [->|H]%elem_of_cons; [|by apply H4]. destruct H2 as [k ->]. rewrite !fmap_app. set_solver.
Qed.

Lemma transcript_run_ok is_ state :
  transcript_ok state → forallb input_ok is_ = true → transcript_ok (foldl transcript_step state is_).
Proof.
  revert state. induction is_ as [|i is_ IH]; intros state Hok Hi; simpl in *; [done|]. zb.
  apply IH; [|done]. by apply transcript_step_ok.
Qed.

(** what is shown.  After any snapshots and progress events, the selected
    transcript names each item once, begins with the items of the snapshot in
    their order, shows every item with progress in its latest version and every
    other item as the snapshot or the queue has it, and includes every queued
    message. *)
Theorem transcript_shown s0 is_ :
  unique_ids s0 = true → forallb input_ok is_ = true →
  let state := foldl transcript_step (createTranscriptState s0) is_ in
  let base := ts_snapshot state in
  let shown := selectTranscript state in
  NoDup (item_id <$> shown) ∧
  item_id <$> ss_transcript base `prefix_of` item_id <$> shown ∧
  (∀ id i, progressItems state !! id = Some i → i ∈ shown) ∧
  (∀ i, i ∈ shown →
     progressItems state !! item_id i = Some i ∨
     progressItems state !! item_id i = None ∧ (i ∈ ss_transcript base ∨ i ∈ ss_queuedSteer base)) ∧
  (∀ i, i ∈ ss_queuedSteer base → item_id i ∈ item_id <$> shown).
Proof.
  intros H0 His state base shown.
  assert (transcript_ok state) as [Hk Ho Hu] by (apply transcript_run_ok; [by apply create_ok|done]).
  unfold unique_ids in Hu. apply bool_decide_eq_true in Hu. fold base in Hu.
  unfold shown, selectTranscript. fold base. set (t0 := (λ item, _) <$> ss_transcript base).
  assert (item_id <$> t0 = item_id <$> ss_transcript base) as Et.
  { unfold t0. rewrite <- list_fmap_compose. apply list_fmap_ext. intros ? x _. simpl.
    destruct (progressItems state !! item_id x) as [y|] eqn:E; simpl; [by apply Hk|done]. }
  assert (∀ i, i ∈ t0 → progressItems state !! item_id i = Some i ∨
            progressItems state !! item_id i = None ∧ i ∈ ss_transcript base) as H_t0.
  { intros i (x & -> & Hx)%list_elem_of_fmap. destruct (progressItems state !! item_id x) as [y|] eqn:E; simpl.
    - left. by rewrite (Hk _ _ E).
    - by right. }
  destruct (pushProgress _ _ _ _) as [t1 ids] eqn:Ep. rewrite <- Et in Hu.
  destruct (pushProgress_spec _ _ _ _ _ _ Hk Hu eq_refl Ep) as (N1 & I1 & P1 & S1 & A1).
  destruct (pushQueued_spec (ss_queuedSteer base) t1 ids N1 I1) as (N2 & P2 & S2 & A2).
  assert (∀ id i, progressItems state !! id = Some i → i ∈ t1) as Hprog.
  { intros id i Hi. assert (id ∈ item_id <$> t1) as (j & -> & Hj)%list_elem_of_fmap by (apply A1; [apply Ho|]; by eexists).
    assert (progressItems state !! item_id j = Some j) as Hj'; [|congruence].
    destruct (S1 j Hj) as [Hj0|?]; [|done]. destruct (H_t0 j Hj0) as [?|[? _]]; [done|congruence]. }
  split_and!; [done| | | |done].
  - rewrite <- Et. destruct P1 as [k1 E1], P2 as [k2 E2]. rewrite E2, E1, !fmap_app, <- app_assoc. by apply prefix_app_r.
  - intros id i Hi. destruct P2 as [k ->]. apply elem_of_app. left. by eapply Hprog.
  - intros i Hi. destruct (S2 i Hi) as [Hi1|[Hq Hn]].
    + destruct (S1 i Hi1) as [Hi0|?]; [|by left]. destruct (H_t0 i Hi0) as [?|[??]]; [by left|]. right. auto.
    + right. split; [|by right]. destruct (progressItems state !! item_id i) as [j|] eqn:E; [|done].
      exfalso. apply Hn. rewrite <- (Hk _ _ E). apply list_elem_of_fmap_2. by eapply Hprog.
Qed.
End shown.

Lemma transcript_shown_witness :
  let user id := UserTranscriptItem (js_lit id) TNull in
  let s0 := mkSession (js_lit "s") true 1 [user "u1"] [user "u2"; user "a1"] TNull in
  let is_ := [Progress (item_started (AssistantTranscriptItem (js_lit "a1") [TextContent []] TNull));
              Progress (assistant_delta (js_lit "a1") 0 DText (js_lit "hi"))] in
  let state := foldl (transcript_step ex_parse) (createTranscriptState s0) is_ in
  selectTranscript state =
    [user "u1"; AssistantTranscriptItem (js_lit "a1") [TextContent (js_lit "hi")] TNull; user "u2"] ∧
  let base := ts_snapshot state in
  let shown := selectTranscript state in
  NoDup (item_id <$> shown) ∧
  item_id <$> ss_transcript base `prefix_of` item_id <$> shown ∧
  (∀ id i, progressItems state !! id = Some i → i ∈ shown) ∧
  (∀ i, i ∈ shown →
     progressItems state !! item_id i = Some i ∨
     progressItems state !! item_id i = None ∧ (i ∈ ss_transcript base ∨ i ∈ ss_queuedSteer base)) ∧
  (∀ i, i ∈ ss_queuedSteer base → item_id i ∈ item_id <$> shown).
Proof.
  split; [vm_compute; reflexivity|].
  apply (transcript_shown ex_parse); vm_compute; reflexivity.
Defined.
