(* ===== verification/StdinBuffer.v ===== *)
(** Terminal input: [tui/src/stdin-buffer.ts].

    Input arrives in chunks that may cut escape sequences and pastes; the buffer emits
    complete ones.  Chunks and timer expirations are calls; the events go to the
    listeners of the class. *)
From S2P Require Import Prelude JsValue Utf8 Regex NodePath Json JsonSpec.
Open Scope Z_scope.

Definition ESC : Z := 0x1b.
Definition DEFAULT_SEQUENCE_TIMEOUT_MS : Z := 50.
Definition DEFAULT_ESCAPE_TIMEOUT_MS : Z := 10.
Definition BRACKETED_PASTE_START : jsstr := ESC :: js_lit "[200~".
Definition BRACKETED_PASTE_END : jsstr := ESC :: js_lit "[201~".

(** ** Sequences *)

Inductive status := complete | incomplete | not_escape.

#[export] Instance status_eq_dec : EqDecision status.
Proof. solve_decision. Defined.

Definition digits : regex := plus (Class_ is_digit).
Definition MOUSE_PATTERN : regex := seq_of [Bol; lit "<"; digits; lit ";"; digits; lit ";"; digits; Class_ (one_of "Mm"); Eol].
Definition DIGITS_PATTERN : regex := seq_of [Bol; digits; Eol].

Definition isCompleteCsiSequence (data : jsstr) : status :=
  if negb (startsWith data (ESC :: js_lit "[")) then complete else
  if bool_decide (length data < 3)%nat then incomplete else
  let payload := drop 2 data in
  let lastChar := default 0 (last payload) in
  if (0x40 <=? lastChar) && (lastChar <=? 0x7e) then
    if startsWith payload (js_lit "<") then
      if test MOUSE_PATTERN payload then complete else
      if one_of "Mm" lastChar then
        let parts := split_on 0x3b (removelast (drop 1 payload)) in
        if bool_decide (length parts = 3%nat) && forallb (test DIGITS_PATTERN) parts then complete else incomplete
      else incomplete
    else complete
  else incomplete.

Definition ends_ST (data : jsstr) : bool := endsWith data (ESC :: js_lit "\").

Definition isCompleteOscSequence (data : jsstr) : status :=
  if negb (startsWith data (ESC :: js_lit "]")) then complete else
  if ends_ST data || endsWith data [0x07] then complete else incomplete.

Definition isCompleteDcsSequence (data : jsstr) : status :=
  if negb (startsWith data (ESC :: js_lit "P")) then complete else if ends_ST data then complete else incomplete.

Definition isCompleteApcSequence (data : jsstr) : status :=
  if negb (startsWith data (ESC :: js_lit "_")) then complete else if ends_ST data then complete else incomplete.

Definition isCompleteSequence (data : jsstr) : status :=
  if negb (startsWith data [ESC]) then not_escape else
  if bool_decide (length data = 1%nat) then incomplete else
  let afterEsc := drop 1 data in
  if startsWith afterEsc (js_lit "[") then
    if startsWith afterEsc (js_lit "[M") then (if bool_decide (6 ≤ length data)%nat then complete else incomplete)
    else isCompleteCsiSequence data
  else if startsWith afterEsc (js_lit "]") then isCompleteOscSequence data
  else if startsWith afterEsc (js_lit "P") then isCompleteDcsSequence data
  else if startsWith afterEsc (js_lit "_") then isCompleteApcSequence data
  else if startsWith afterEsc (js_lit "O") then (if bool_decide (2 ≤ length afterEsc)%nat then complete else incomplete)
  else complete.

(** The loop over [seqEnd]: [n] is how many ends are left to try. *)
Fixpoint sequence_end (remaining : jsstr) (n seqEnd : nat) : option nat :=
  match n with
  | O => None
  | S n => if bool_decide (isCompleteSequence (take seqEnd remaining) = incomplete) then sequence_end remaining n (S seqEnd) else Some seqEnd
  end.

(** The characters after [ESC ESC] that begin a sequence. *)
Definition introducer (u : option Z) : bool := match u with Some u => one_of "[]OP_" u | None => false end.

Fixpoint extract_loop (fuel : nat) (buffer : jsstr) (sequences : list jsstr) : list jsstr * jsstr :=
  match fuel, buffer with
  | S fuel, u :: rest =>
      if u =? ESC then
        match sequence_end buffer (length buffer) 1 with
        | None => (sequences, buffer)
        | Some e =>
            let candidate := take e buffer in
            if bool_decide (candidate = [ESC; ESC]) && introducer (buffer !! e) then extract_loop fuel rest (sequences ++ [[ESC]])
            else extract_loop fuel (drop e buffer) (sequences ++ [candidate])
        end
      else extract_loop fuel rest (sequences ++ [[u]])
  | _, _ => (sequences, buffer)
  end.

Definition extractCompleteSequences (buffer : jsstr) : list jsstr * jsstr := extract_loop (length buffer) buffer [].

(** A key press without modifiers: its code point, perhaps with alternates, and [u]. *)
Definition KITTY_PATTERN : regex :=
  seq_of [Bol; chr ESC; lit "["; Group 1 digits; opt (Seq (lit ":") (Star (Class_ is_digit))); opt (Seq (lit ":") digits); lit "u"; Eol].

Definition parseUnmodifiedKittyPrintableCodepoint (sequence : jsstr) : option Z :=
  match exec KITTY_PATTERN sequence with
  | None => None
  | Some caps =>
      match group 1 caps with
      | Some ds => let codepoint := digits_value ds in if 32 <=? codepoint then Some codepoint else None
      | None => None
      end
  end.

(** ** The buffer *)

Record StdinBuffer := mkStdin {
  sb_buffer : jsstr; sb_timeout : option Z; sb_timeoutMs : Z; sb_escapeTimeoutMs : Z;
  sb_pasteMode : bool; sb_pasteBuffer : jsstr; sb_pendingKittyPrintableCodepoint : option Z }.

Inductive InputEvent := Data (sequence : jsstr) | Paste (content : jsstr).

Definition new_StdinBuffer (timeout escapeTimeout : option Z) : StdinBuffer :=
  mkStdin [] None (default DEFAULT_SEQUENCE_TIMEOUT_MS timeout) (default DEFAULT_ESCAPE_TIMEOUT_MS escapeTimeout) false [] None.

Definition set_pending (s : StdinBuffer) (pending : option Z) : StdinBuffer :=
  mkStdin (sb_buffer s) (sb_timeout s) (sb_timeoutMs s) (sb_escapeTimeoutMs s) (sb_pasteMode s) (sb_pasteBuffer s) pending.
Definition set_text (s : StdinBuffer) (buffer : jsstr) (pasteMode : bool) (pasteBuffer : jsstr) : StdinBuffer :=
  mkStdin buffer (sb_timeout s) (sb_timeoutMs s) (sb_escapeTimeoutMs s) pasteMode pasteBuffer (sb_pendingKittyPrintableCodepoint s).
Definition set_timeout (s : StdinBuffer) (timeout : option Z) : StdinBuffer :=
  mkStdin (sb_buffer s) timeout (sb_timeoutMs s) (sb_escapeTimeoutMs s) (sb_pasteMode s) (sb_pasteBuffer s) (sb_pendingKittyPrintableCodepoint s).

Definition emitDataSequence (s : StdinBuffer) (sequence : jsstr) : StdinBuffer * list InputEvent :=
  let rawCodepoint := match sequence with [u] => Some u | _ => None end in
  if bool_decide (is_Some rawCodepoint ∧ rawCodepoint = sb_pendingKittyPrintableCodepoint s) then (set_pending s None, [])
  else (set_pending s (parseUnmodifiedKittyPrintableCodepoint sequence), [Data sequence]).

Fixpoint emit_all (s : StdinBuffer) (sequences : list jsstr) : StdinBuffer * list InputEvent :=
  match sequences with
  | [] => (s, [])
  | sequence :: sequences => let '(s, e) := emitDataSequence s sequence in let '(s, es) := emit_all s sequences in (s, e ++ es)
  end.

(** [s.indexOf(t)] *)
Fixpoint indexOf (s t : jsstr) : option nat :=
  if startsWith s t then Some 0%nat else match s with [] => None | _ :: s => S <$> indexOf s t end.

(** In paste mode: the content up to the end marker, and what follows it. *)
Definition finish_paste (s : StdinBuffer) : option (StdinBuffer * jsstr * jsstr) :=
  match indexOf (sb_pasteBuffer s) BRACKETED_PASTE_END with
  | None => None
  | Some i =>
      Some (set_pending (set_text s [] false []) None, take i (sb_pasteBuffer s), drop (i + length BRACKETED_PASTE_END) (sb_pasteBuffer s))
  end.

(** [process] of a string; [None] when the fuel for the calls on what follows a paste
    has run out. *)
Fixpoint process_text (fuel : nat) (s : StdinBuffer) (str : jsstr) : option (StdinBuffer * list InputEvent) :=
  match fuel with
  | O => None
  | S fuel =>
      let s := set_timeout s None in
      if bool_decide (str = []) && bool_decide (sb_buffer s = []) then Some (emitDataSequence s []) else
      let after_paste s events :=
        match finish_paste s with
        | None => Some (s, events)
        | Some (s, content, remaining) =>
            if bool_decide (remaining = []) then Some (s, events ++ [Paste content]) else
            match process_text fuel s remaining with Some (s, es) => Some (s, events ++ [Paste content] ++ es) | None => None end
        end in
      let buffer := sb_buffer s ++ str in
      if sb_pasteMode s then after_paste (set_text s [] true (sb_pasteBuffer s ++ buffer)) []
      else
        match indexOf buffer BRACKETED_PASTE_START with
        | Some i =>
            let '(s, events) := emit_all s (if (0 <? i)%nat then (extractCompleteSequences (take i buffer)).1 else []) in
            after_paste (set_pending (set_text s [] true (drop (i + length BRACKETED_PASTE_START) buffer)) None) events
        | None =>
            let '(sequences, remainder) := extractCompleteSequences buffer in
            let '(s, events) := emit_all (set_text s remainder false (sb_pasteBuffer s)) sequences in
            Some (if bool_decide (remainder = []) then s else set_timeout s (Some (if bool_decide (remainder = [ESC]) then sb_escapeTimeoutMs s else sb_timeoutMs s)), events)
        end
  end.

Inductive Chunk := Text (s : jsstr) | Bytes (bs : list Z).

Definition chunk_text (data : Chunk) : jsstr :=
  match data with
  | Text s => s
  | Bytes [b] => if 127 <? b then [ESC; b - 128] else utf8_lossy [b]
  | Bytes bs => utf8_lossy bs
  end.

(** Every call on the rest of a paste is on less text. *)
Definition process_fuel (s : StdinBuffer) (str : jsstr) : nat := S (length (sb_pasteBuffer s) + length (sb_buffer s) + length str).

Definition process (s : StdinBuffer) (data : Chunk) : option (StdinBuffer * list InputEvent) := process_text (process_fuel s (chunk_text data)) s (chunk_text data).

Definition flush (s : StdinBuffer) : StdinBuffer * list jsstr :=
  let s := set_timeout s None in
  if bool_decide (sb_buffer s = []) then (s, []) else (set_pending (set_text s [] (sb_pasteMode s) (sb_pasteBuffer s)) None, [sb_buffer s]).

(** The callback of the timer. *)
Definition on_timeout (s : StdinBuffer) : StdinBuffer * list InputEvent := let '(s, flushed) := flush s in emit_all s flushed.

Definition clear (s : StdinBuffer) : StdinBuffer := set_pending (set_text (set_timeout s None) [] false []) None.

(** * Properties *)

(** Chunks in turn, without the timer. *)
Fixpoint process_all (s : StdinBuffer) (chunks : list jsstr) : option (StdinBuffer * list InputEvent) :=
  match chunks with
  | [] => Some (s, [])
  | c :: chunks =>
      match process s (Text c) with
      | None => None
      | Some (s, es) => match process_all s chunks with Some (s, es') => Some (s, es ++ es') | None => None end
      end
  end.

Example mouse_example :
  snd <$> process_all (new_StdinBuffer None None) [[ESC]; js_lit "[<35"; js_lit ";20;5m" ++ js_lit "x"] = Some [Data (ESC :: js_lit "[<35;20;5m"); Data (js_lit "x")].
Proof. vm_compute. reflexivity. Qed.

Example paste_example :
  snd <$> process_all (new_StdinBuffer None None) [ESC :: js_lit "[20"; js_lit "0~hello" ++ [ESC]; js_lit "[20"; js_lit "1~y"] = Some [Paste (js_lit "hello"); Data (js_lit "y")].
Proof. vm_compute. reflexivity. Qed.

(** ** Extraction *)

Definition incomplete_at (r : jsstr) (j : nat) : Prop := isCompleteSequence (take j r) = incomplete.

Lemma sequence_end_spec r n k e : sequence_end r n k = Some e ↔ (k ≤ e < k + n)%nat ∧ ¬ incomplete_at r e ∧ ∀ j, (k ≤ j < e)%nat → incomplete_at r j.
Proof.
  revert k. induction n as [|n IH]; intros k; cbn [sequence_end]; [split; [done|lia]|]. case_bool_decide as Hk.
  - rewrite IH. split; intros (H1 & H2 & H3).
    + split; [lia|]. split; [done|]. intros j Hj. destruct (decide (j = k)) as [->|]; [done|]. apply H3. lia.
    + assert (k ≠ e) by (by intros ->). split; [lia|]. split; [done|]. intros j Hj. apply H3. lia.
  - split.
    + intros [= <-]. split; [lia|]. split; [done|]. lia.
    + intros (H1 & H2 & H3). destruct (decide (k = e)) as [->|]; [done|]. destruct Hk. apply H3. lia.
Qed.

Lemma sequence_end_None r n k j : sequence_end r n k = None → (k ≤ j < k + n)%nat → incomplete_at r j.
Proof.
  revert k. induction n as [|n IH]; intros k; cbn [sequence_end]; [lia|]. case_bool_decide as Hk; [|done]. intros E Hj. destruct (decide (j = k)) as [->|]; [done|]. apply (IH (S k)); [done|lia].
Qed.

Definition first_end (r : jsstr) : option nat := sequence_end r (length r) 1.

Lemma first_end_app r b e : first_end r = Some e → first_end (r ++ b) = Some e.
Proof.
  unfold first_end. rewrite !sequence_end_spec. intros (H1 & H2 & H3). rewrite length_app. unfold incomplete_at in *. split; [lia|]. split.
  - by rewrite take_app_le by lia.
  - intros j Hj. rewrite take_app_le by lia. by apply H3.
Qed.

Definition restarts (r : jsstr) (e : nat) : bool := bool_decide (take e r = [ESC; ESC]) && introducer (r !! e).

(** The extraction as a relation. *)
Inductive extracts : jsstr → list jsstr → jsstr → Prop :=
| ex_end : extracts [] [] []
| ex_plain u rest ss r : u ≠ ESC → extracts rest ss r → extracts (u :: rest) ([u] :: ss) r
| ex_wait rest : first_end (ESC :: rest) = None → extracts (ESC :: rest) [] (ESC :: rest)
| ex_restart rest e ss r : first_end (ESC :: rest) = Some e → restarts (ESC :: rest) e = true → extracts rest ss r → extracts (ESC :: rest) ([ESC] :: ss) r
| ex_sequence rest e ss r :
    first_end (ESC :: rest) = Some e → restarts (ESC :: rest) e = false → extracts (drop e (ESC :: rest)) ss r → extracts (ESC :: rest) (take e (ESC :: rest) :: ss) r.

Lemma extract_loop_spec fuel buffer acc : (length buffer ≤ fuel)%nat → ∃ ss r, extract_loop fuel buffer acc = (acc ++ ss, r) ∧ extracts buffer ss r.
Proof.
  revert buffer acc. induction fuel as [|fuel IH]; intros [|u rest] acc Hf; cbn [length] in Hf; try lia.
  1, 2: exists [], []; rewrite app_nil_r; split; [done|constructor].
  cbn [extract_loop]. destruct (Z.eqb_spec u ESC) as [->|Hu].
  - fold (first_end (ESC :: rest)). destruct (first_end (ESC :: rest)) as [e|] eqn:Ee; [|exists [], (ESC :: rest); rewrite app_nil_r; split; [done|by constructor]].
    fold (restarts (ESC :: rest) e). destruct (restarts (ESC :: rest) e) eqn:Er.
    + destruct (IH rest (acc ++ [[ESC]])) as (ss & r & E & Hx); [lia|]. exists ([ESC] :: ss), r. rewrite E, <- app_assoc. split; [done|]. by eapply ex_restart.
    + pose proof Ee as Hr. unfold first_end in Hr. rewrite sequence_end_spec in Hr. destruct (IH (drop e (ESC :: rest)) (acc ++ [take e (ESC :: rest)])) as (ss & r & E & Hx); [rewrite length_drop; cbn [length]; lia|].
      exists (take e (ESC :: rest) :: ss), r. rewrite E, <- app_assoc. split; [done|]. by eapply ex_sequence.
  - destruct (IH rest (acc ++ [[u]])) as (ss & r & E & Hx); [lia|]. exists ([u] :: ss), r. rewrite E, <- app_assoc. split; [done|]. by constructor.
Qed.

Lemma extract_spec buffer : extracts buffer (extractCompleteSequences buffer).1 (extractCompleteSequences buffer).2.
Proof. unfold extractCompleteSequences. destruct (extract_loop_spec (length buffer) buffer []) as (ss & r & -> & H); [done|]. exact H. Qed.

Lemma extracts_det buffer ss r ss' r' : extracts buffer ss r → extracts buffer ss' r' → ss' = ss ∧ r' = r.
Proof.
  intros H. revert ss' r'. induction H as [|u rest ss r Hu _ IH|rest He|rest e ss r He Hr _ IH|rest e ss r He Hr _ IH]; intros ss' r' H'; inversion H'; subst; try done; try congruence.
  - by destruct (IH _ _ ltac:(eassumption)) as [-> ->].
  - by destruct (IH _ _ ltac:(eassumption)) as [-> ->].
  - assert (e0 = e) as -> by congruence. by destruct (IH _ _ ltac:(eassumption)) as [-> ->].
Qed.

Lemma extract_eq buffer ss r : extracts buffer ss r → extractCompleteSequences buffer = (ss, r).
Proof. intros H. destruct (extracts_det _ _ _ _ _ H (extract_spec buffer)) as [E1 E2]. destruct (extractCompleteSequences buffer). cbn in *. by subst. Qed.

Lemma extracts_concat buffer ss r : extracts buffer ss r → concat ss ++ r = buffer.
Proof. induction 1 as [|u rest ss r Hu _ IH|rest He|rest e ss r He Hr _ IH|rest e ss r He Hr _ IH]; cbn [concat app]; try done; [by rewrite IH|by rewrite IH|]. rewrite <- app_assoc, IH. apply take_drop. Qed.

(** Extraction goes on where it stopped, unless the text is cut after [ESC ESC]. *)
Lemma extracts_app a ss r b ss' r' :
  extracts a ss r → (r = [] → last ss = Some [ESC; ESC] → introducer (head b) = false) → extracts (r ++ b) ss' r' → extracts (a ++ b) (ss ++ ss') r'.
Proof.
  intros Ha. revert ss' r'. induction Ha as [|u rest ss r Hu Hx IH|rest He|rest e ss r He Hr Hx IH|rest e ss r He Hr Hx IH]; intros ss' r' Hcut Hb; try done; cbn [app].
  - constructor; [done|]. apply IH; [|done]. intros Hre Hl. apply Hcut; [done|]. by rewrite last_cons, Hl.
  - eapply ex_restart; [by apply (first_end_app (ESC :: rest))| |apply IH; [|done]; intros Hre Hl; apply Hcut; [done|]; by rewrite last_cons, Hl].
    unfold restarts in *. apply andb_true_iff in Hr as [Hc Hi]. apply bool_decide_eq_true in Hc. unfold introducer in Hi. destruct ((ESC :: rest) !! e) as [u|] eqn:El; [|done].
    pose proof (lookup_lt_Some _ _ _ El) as Hlt. change (ESC :: rest ++ b) with ((ESC :: rest) ++ b). rewrite take_app_le, lookup_app_l, El, bool_decide_eq_true_2 by (done || lia). exact Hi.
  - pose proof He as Hlt. unfold first_end in Hlt. rewrite sequence_end_spec in Hlt. destruct Hlt as [Hlt _]. cbn [length] in Hlt.
    rewrite <- (take_app_le (ESC :: rest) b e) by (cbn [length]; lia). cbn [app]. eapply ex_sequence; [by apply (first_end_app (ESC :: rest))| |].
    + change (ESC :: rest ++ b) with ((ESC :: rest) ++ b). unfold restarts in *. rewrite take_app_le by (cbn [length]; lia). destruct (decide (e < length (ESC :: rest))%nat) as [Hl|Hl]; [by rewrite lookup_app_l|].
      apply andb_false_iff. destruct (bool_decide (take e (ESC :: rest) = [ESC; ESC])) eqn:Ec; [right|by left]. apply bool_decide_eq_true in Ec.
      rewrite lookup_app_r, (proj2 (Nat.sub_0_le e _)) by (cbn [length] in *; lia). rewrite drop_ge in Hx by lia. inversion Hx; subst.
      rewrite <- head_lookup. apply Hcut; [done|]. by rewrite Ec.
    + change (ESC :: rest ++ b) with ((ESC :: rest) ++ b). rewrite drop_app_le by (cbn [length]; lia). apply IH; [|done]. intros Hre Hl. apply Hcut; [done|]. by rewrite last_cons, Hl.
Qed.

(** ** Markers *)

Lemma indexOf_unfold s t : indexOf s t = if startsWith s t then Some 0%nat else match s with [] => None | _ :: s => S <$> indexOf s t end.
Proof. by destruct s. Qed.

Lemma startsWith_app s t b : startsWith s t = true → startsWith (s ++ b) t = true.
Proof. unfold startsWith. rewrite !bool_decide_eq_true. apply prefix_app_r. Qed.

Lemma startsWith_shorter s t : startsWith s t = true → (length t ≤ length s)%nat.
Proof. unfold startsWith. rewrite bool_decide_eq_true. apply prefix_length. Qed.

Lemma paste_mark_at s t i : indexOf s t = Some i → (i + length t ≤ length s)%nat ∧ startsWith (drop i s) t = true.
Proof.
  revert i. induction s as [|u s IH]; intros i; rewrite indexOf_unfold.
  - destruct (startsWith [] t) eqn:E; [|done]. intros [= <-]. split; [|done]. by apply startsWith_shorter in E.
  - destruct (startsWith (u :: s) t) eqn:E; [intros [= <-]; split; [|done]; by apply startsWith_shorter in E|].
    destruct (indexOf s t) as [j|]; [|done]. intros [= <-]. destruct (IH j eq_refl). split; [cbn; lia|done].
Qed.

Lemma indexOf_app s t b i : indexOf s t = Some i → indexOf (s ++ b) t = Some i.
Proof.
  revert i. induction s as [|u s IH]; intros i; rewrite indexOf_unfold; destruct (startsWith _ t) eqn:E; cbn [app].
  - intros [= <-]. apply startsWith_app with (b := b) in E. cbn [app] in E. by rewrite indexOf_unfold, E.
  - done.
  - intros [= <-]. apply startsWith_app with (b := b) in E. cbn [app] in E. by rewrite indexOf_unfold, E.
  - destruct (indexOf s t) as [j|] eqn:Ej; [|done]. intros [= <-]. rewrite indexOf_unfold. destruct (startsWith (u :: s ++ b) t) eqn:E'; [|by rewrite (IH j)].
    exfalso. apply paste_mark_at in Ej as [Hl _]. apply not_true_iff_false in E. apply E. unfold startsWith in *. rewrite !bool_decide_eq_true in *. destruct E' as [k Ek].
    exists (take (length s + 1 - length t) k). rewrite (app_comm_cons s b u) in Ek. apply (f_equal (take (length (u :: s)))) in Ek.
    rewrite take_app_length, take_app in Ek. rewrite Ek at 1. rewrite (take_ge t) by (cbn; lia). do 2 f_equal. cbn. lia.
Qed.

Lemma indexOf_prefix s t b : indexOf (s ++ b) t = None → indexOf s t = None.
Proof. intros E. destruct (indexOf s t) as [i|] eqn:Ei; [|done]. apply (indexOf_app _ _ b) in Ei. congruence. Qed.

Lemma indexOf_suffix a s t : indexOf (a ++ s) t = None → indexOf s t = None.
Proof. induction a as [|u a IH]; [done|]. cbn [app]. rewrite indexOf_unfold. destruct (startsWith _ t); [done|]. intros E. apply IH. by destruct (indexOf (a ++ s) t). Qed.

(** ** Emission *)

(** [emit_all] on what it depends on. *)
Fixpoint emitted (pending : option Z) (sequences : list jsstr) : option Z * list InputEvent :=
  match sequences with
  | [] => (pending, [])
  | sequence :: sequences =>
      if bool_decide (is_Some (match sequence with [u] => Some u | _ => None end) ∧ match sequence with [u] => Some u | _ => None end = pending) then emitted None sequences
      else let '(p, es) := emitted (parseUnmodifiedKittyPrintableCodepoint sequence) sequences in (p, Data sequence :: es)
  end.

Lemma emit_all_spec s ss :
  emit_all s ss = (set_pending s (emitted (sb_pendingKittyPrintableCodepoint s) ss).1, (emitted (sb_pendingKittyPrintableCodepoint s) ss).2).
Proof.
  revert s. induction ss as [|q ss IH]; intros s; [by destruct s|]. cbn [emit_all emitted]. unfold emitDataSequence. destruct (bool_decide _).
  - rewrite IH. by destruct s.
  - rewrite IH. cbn [sb_pendingKittyPrintableCodepoint set_pending]. destruct (emitted _ ss) as [p es]. by destruct s.
Qed.

Lemma emitted_app p ss ss' : emitted p (ss ++ ss') = let '(p1, es) := emitted p ss in let '(p2, es') := emitted p1 ss' in (p2, es ++ es').
Proof.
  revert p. induction ss as [|q ss IH]; intros p; cbn [app emitted]; [by destruct (emitted p ss')|]. destruct (bool_decide _); [apply IH|]. rewrite IH.
  destruct (emitted _ ss) as [p1 es]. by destruct (emitted p1 ss').
Qed.

(** The state that is left outside a paste. *)
Definition waiting (s : StdinBuffer) (remainder : jsstr) (pending : option Z) : StdinBuffer :=
  mkStdin remainder (if bool_decide (remainder = []) then None else Some (if bool_decide (remainder = [ESC]) then sb_escapeTimeoutMs s else sb_timeoutMs s))
    (sb_timeoutMs s) (sb_escapeTimeoutMs s) false (sb_pasteBuffer s) pending.

Lemma process_plain s str ss r :
  str ≠ [] → sb_pasteMode s = false → indexOf (sb_buffer s ++ str) BRACKETED_PASTE_START = None → extracts (sb_buffer s ++ str) ss r →
  process s (Text str) = Some (waiting s r (emitted (sb_pendingKittyPrintableCodepoint s) ss).1, (emitted (sb_pendingKittyPrintableCodepoint s) ss).2).
Proof.
  intros Hne Hp Hi Hx. unfold process, process_fuel. cbn [chunk_text process_text sb_buffer sb_pasteMode set_timeout]. rewrite (bool_decide_eq_false_2 (str = [])) by done. cbn [andb].
  rewrite Hp, Hi, (extract_eq _ _ _ Hx), emit_all_spec. unfold waiting. case_bool_decide; destruct s; reflexivity.
Qed.

(** No cut between [ESC ESC] and what would begin a sequence. *)
Definition no_escape_cut (t rest : jsstr) : Prop := endsWith t [ESC; ESC] = true → introducer (head rest) = false.

Fixpoint cuts_ok (t : jsstr) (chunks : list jsstr) : Prop :=
  match chunks with
  | [] => True
  | c :: chunks => (chunks ≠ [] → no_escape_cut (t ++ c) (concat chunks)) ∧ cuts_ok (t ++ c) chunks
  end.

Lemma cuts_suffix a t chunks : cuts_ok (a ++ t) chunks → cuts_ok t chunks.
Proof.
  revert t. induction chunks as [|c chunks IH]; intros t; [done|]. cbn [cuts_ok]. rewrite <- app_assoc. intros [Hc Hr]. split; [|by apply IH].
  intros Hne He. apply Hc; [done|]. unfold endsWith in *. rewrite bool_decide_eq_true in *. by apply suffix_app_r.
Qed.

Lemma ends_escape ss : last ss = Some [ESC; ESC] → endsWith (concat ss) [ESC; ESC] = true.
Proof.
  destruct ss as [|q ss _] using rev_ind; [done|]. rewrite last_snoc. intros [= ->]. unfold endsWith. apply bool_decide_eq_true. rewrite concat_app. cbn [concat]. rewrite app_nil_r. by exists (concat ss).
Qed.

(** C37: Input without a paste gives the same sequences, kept input and state however it
    is cut into chunks that come before the timer, unless a cut separates [ESC ESC] from a
    character that begins a sequence. *)
Theorem stdin_chunks s c chunks :
  Forall (λ c, c ≠ []) (c :: chunks) → sb_pasteMode s = false → indexOf (sb_buffer s ++ concat (c :: chunks)) BRACKETED_PASTE_START = None → cuts_ok (sb_buffer s) (c :: chunks) →
  process_all s (c :: chunks) = process s (Text (concat (c :: chunks))).
Proof.
  revert s c. induction chunks as [|d chunks IH]; intros s c Hne Hp Hi Hc; apply Forall_cons in Hne as [Hcn Hne].
  { cbn [process_all concat]. rewrite app_nil_r. destruct (process s (Text c)) as [[s1 es]|]; [|done]. by rewrite app_nil_r. }
  change (concat (c :: d :: chunks)) with (c ++ concat (d :: chunks)) in *. rewrite (assoc_L (++)) in Hi. pose proof (extract_spec (sb_buffer s ++ c)) as Hx. destruct (extractCompleteSequences (sb_buffer s ++ c)) as [ss r]. cbn [fst snd] in Hx.
  pose proof (extracts_concat _ _ _ Hx) as Hcat. destruct Hc as [Hcut Hc]. specialize (Hcut ltac:(done)).
  change (process_all s (c :: d :: chunks)) with (match process s (Text c) with None => None | Some (s1, es) => match process_all s1 (d :: chunks) with Some (s2, es') => Some (s2, es ++ es') | None => None end end).
  rewrite (process_plain s c ss r); [|done..|by apply indexOf_prefix in Hi|done]. set (s1 := waiting _ _ _).
  assert (concat (d :: chunks) ≠ []) as Hdn by (apply Forall_cons in Hne as [Hd _]; cbn; intros E%app_eq_nil; by destruct E).
  assert (indexOf (r ++ concat (d :: chunks)) BRACKETED_PASTE_START = None) as Hi' by (eapply indexOf_suffix with (a := concat ss); by rewrite (assoc_L (++)), Hcat).
  rewrite (IH s1); [|done|done|exact Hi'|apply (cuts_suffix (concat ss)); cbn [s1 sb_buffer waiting]; by rewrite Hcat].
  pose proof (extract_spec (r ++ concat (d :: chunks))) as Hx'. destruct (extractCompleteSequences (r ++ concat (d :: chunks))) as [ss' r']. cbn [fst snd] in Hx'.
  rewrite (process_plain s1 _ ss' r'), (process_plain s _ (ss ++ ss') r'); try done.
  - rewrite emitted_app. cbn [s1 waiting sb_pendingKittyPrintableCodepoint]. destruct (emitted _ ss) as [p1 es]. cbn [fst snd]. by destruct (emitted p1 ss') as [p2 es'].
  - intros E%app_eq_nil. by destruct E.
  - by rewrite (assoc_L (++)).
  - rewrite (assoc_L (++)). eapply extracts_app; [exact Hx| |exact Hx']. intros -> Hl. apply Hcut. rewrite app_nil_r in Hcat. rewrite <- Hcat. by apply ends_escape.
Qed.

(** ** Pastes *)

Lemma finish_spec s :
  finish_paste s = None ∨ ∃ s' content remaining, finish_paste s = Some (s', content, remaining) ∧ sb_buffer s' = [] ∧ sb_pasteBuffer s' = [] ∧ (length remaining + 6 ≤ length (sb_pasteBuffer s))%nat.
Proof.
  unfold finish_paste. destruct (indexOf (sb_pasteBuffer s) BRACKETED_PASTE_END) as [i|] eqn:Ei; [right|by left]. eexists _, _, _. split; [reflexivity|]. split; [done|]. split; [done|].
  apply paste_mark_at in Ei as [Hl _]. rewrite length_drop. change (length BRACKETED_PASTE_END) with 6%nat in *. lia.
Qed.

Lemma process_total fuel s str : (process_fuel s str ≤ fuel)%nat → is_Some (process_text fuel s str).
Proof.
  revert s str. induction fuel as [|fuel IH]; intros s str Hf; unfold process_fuel in Hf; [lia|]. cbn [process_text sb_buffer sb_pasteMode sb_pasteBuffer set_timeout].
  destruct (bool_decide (str = []) && _); [done|].
  assert (∀ s1 es, (length (sb_pasteBuffer s1) ≤ fuel)%nat → is_Some
    match finish_paste s1 with
    | None => Some (s1, es)
    | Some (s2, content, remaining) => if bool_decide (remaining = []) then Some (s2, es ++ [Paste content]) else match process_text fuel s2 remaining with Some (s3, es') => Some (s3, es ++ [Paste content] ++ es') | None => None end
    end) as Hpaste.
  { intros s1 es Hl. destruct (finish_spec s1) as [->|(s2 & content & remaining & -> & Hb & Hp & Hr)]; [done|]. case_bool_decide; [done|].
    destruct (IH s2 remaining) as [[s3 es'] ->]; [unfold process_fuel; rewrite Hb, Hp; cbn; lia|done]. }
  destruct (sb_pasteMode s).
  - apply Hpaste. cbn. rewrite !length_app. lia.
  - destruct (indexOf _ BRACKETED_PASTE_START) as [i|].
    + rewrite emit_all_spec. apply Hpaste. cbn. rewrite length_drop, length_app. lia.
    + destruct (extractCompleteSequences _) as [ss r]. rewrite emit_all_spec. done.
Qed.

(** The end marker is found in a part of a paste when the part is all of it. *)
Lemma paste_part content x y :
  indexOf (content ++ BRACKETED_PASTE_END) BRACKETED_PASTE_END = Some (length content) → x ++ y = content ++ BRACKETED_PASTE_END →
  indexOf x BRACKETED_PASTE_END = if bool_decide (y = []) then Some (length content) else None.
Proof.
  intros Hc E. destruct (indexOf x BRACKETED_PASTE_END) as [i|] eqn:Ei.
  - pose proof (paste_mark_at _ _ _ Ei) as [Hl _]. apply (indexOf_app _ _ y) in Ei. rewrite E, Hc in Ei. injection Ei as <-. rewrite bool_decide_eq_true_2; [done|].
    apply (f_equal length) in E. rewrite !length_app in E. apply nil_length_inv. lia.
  - case_bool_decide as Hy; [|done]. subst y. rewrite app_nil_r in E. congruence.
Qed.

(** A state in a paste of which [x] has come. *)
Definition pasting (s : StdinBuffer) (x : jsstr) (pending : option Z) : StdinBuffer := mkStdin [] None (sb_timeoutMs s) (sb_escapeTimeoutMs s) true x pending.
Definition idle (s : StdinBuffer) : StdinBuffer := mkStdin [] None (sb_timeoutMs s) (sb_escapeTimeoutMs s) false [] None.

Lemma finish_part s x pending content y :
  indexOf (content ++ BRACKETED_PASTE_END) BRACKETED_PASTE_END = Some (length content) → x ++ y = content ++ BRACKETED_PASTE_END →
  finish_paste (pasting s x pending) = if bool_decide (y = []) then Some (idle s, content, []) else None.
Proof.
  intros Hc E. unfold finish_paste. cbn [sb_pasteBuffer pasting]. rewrite (paste_part content x y Hc E). case_bool_decide as Hy; [|done]. subst y. rewrite app_nil_r in E. subst x.
  rewrite take_app_length, drop_ge by (rewrite length_app; lia). done.
Qed.

Lemma pasting_step s x c y pending content :
  indexOf (content ++ BRACKETED_PASTE_END) BRACKETED_PASTE_END = Some (length content) → c ≠ [] → (x ++ c) ++ y = content ++ BRACKETED_PASTE_END →
  process (pasting s x pending) (Text c) = Some (if bool_decide (y = []) then (idle s, [Paste content]) else (pasting s (x ++ c) pending, [])).
Proof.
  intros Hc Hne E. unfold process, process_fuel. cbn [chunk_text process_text sb_buffer sb_pasteMode sb_pasteBuffer set_timeout pasting]. rewrite (bool_decide_eq_false_2 (c = [])) by done. cbn [andb app].
  change (set_text _ [] true (x ++ c)) with (pasting s (x ++ c) pending). rewrite (finish_part s (x ++ c) pending content y Hc E). by case_bool_decide.
Qed.

(** *** Input with its timer *)

(** A chunk arrives, or the timer expires, if it is set. *)
Inductive Input := Arrives (c : jsstr) | Expires.

Definition expire (s : StdinBuffer) : StdinBuffer * list InputEvent := match sb_timeout s with Some _ => on_timeout s | None => (s, []) end.

Fixpoint run_inputs (s : StdinBuffer) (inputs : list Input) : option (StdinBuffer * list InputEvent) :=
  match inputs with
  | [] => Some (s, [])
  | input :: inputs =>
      match (match input with Arrives c => process s (Text c) | Expires => Some (expire s) end) with
      | None => None
      | Some (s, es) => match run_inputs s inputs with Some (s, es') => Some (s, es ++ es') | None => None end
      end
  end.

Definition texts (inputs : list Input) : list jsstr := omap (λ input, match input with Arrives c => Some c | Expires => None end) inputs.

(** After [n] characters have come: the timer expires only while none, or the whole start
    marker, has come. *)
Fixpoint marker_in_time (n : nat) (inputs : list Input) : Prop :=
  match inputs with
  | [] => True
  | Arrives c :: inputs => marker_in_time (n + length c) inputs
  | Expires :: inputs => (n = 0 ∨ length BRACKETED_PASTE_START ≤ n)%nat ∧ marker_in_time n inputs
  end.

Lemma idle_inputs s inputs : texts inputs = [] → run_inputs (idle s) inputs = Some (idle s, []).
Proof. induction inputs as [|[c|] inputs IH]; [done|done|]. cbn [run_inputs texts omap list_omap]. intros E. change (expire (idle s)) with (idle s, @nil InputEvent). cbv beta iota. by rewrite (IH E). Qed.

Lemma no_text inputs : Forall (λ c, c ≠ []) (texts inputs) → concat (texts inputs) = [] → texts inputs = [].
Proof. destruct (texts inputs) as [|c cs]; [done|]. intros [Hc _]%Forall_cons. cbn. intros Eq%app_eq_nil. by destruct Eq. Qed.

Lemma pasting_inputs s inputs x pending content :
  indexOf (content ++ BRACKETED_PASTE_END) BRACKETED_PASTE_END = Some (length content) → Forall (λ c, c ≠ []) (texts inputs) → texts inputs ≠ [] →
  x ++ concat (texts inputs) = content ++ BRACKETED_PASTE_END → run_inputs (pasting s x pending) inputs = Some (idle s, [Paste content]).
Proof.
  intros Hc. revert x. induction inputs as [|[c|] inputs IH]; intros x Hne Hn E; [done| |].
  - cbn [texts omap list_omap] in Hne, E. fold (texts inputs) in Hne, E. apply Forall_cons in Hne as [Hcn Hne]. cbn [concat] in E. rewrite (assoc_L (++)) in E.
    cbn [run_inputs]. rewrite (pasting_step s x c (concat (texts inputs)) pending content Hc Hcn E). case_bool_decide as Hy.
    + rewrite idle_inputs by (by apply no_text). done.
    + rewrite IH; [done|done| |done]. intros Ht. apply Hy. by rewrite Ht.
  - cbn [run_inputs]. change (expire (pasting s x pending)) with (pasting s x pending, @nil InputEvent). cbv beta iota. by rewrite (IH x).
Qed.

(** A proper prefix of the start marker waits for more. *)
Lemma marker_part q y : q ++ y = BRACKETED_PASTE_START → y ≠ [] → q ≠ [] → indexOf q BRACKETED_PASTE_START = None ∧ extracts q [] q.
Proof.
  intros E Hy Hq. assert (q = take (length q) BRACKETED_PASTE_START) as Eq by (by rewrite <- E, take_app_length).
  assert (0 < length q < 6)%nat as Hl by (apply (f_equal length) in E; rewrite length_app in E; change (length BRACKETED_PASTE_START) with 6%nat in E; destruct q, y; cbn in *; lia || done).
  assert (extractCompleteSequences q = ([], q) ∧ indexOf q BRACKETED_PASTE_START = None) as [Ex Ei].
  { rewrite Eq. destruct (length q) as [|[|[|[|[|[|]]]]]]; try lia; vm_compute; done. }
  split; [done|]. pose proof (extract_spec q) as Hx. by rewrite Ex in Hx.
Qed.

Lemma marker_step s c content y :
  sb_pasteMode s = false → c ≠ [] → indexOf (content ++ BRACKETED_PASTE_END) BRACKETED_PASTE_END = Some (length content) →
  ∀ x, sb_buffer s ++ c = BRACKETED_PASTE_START ++ x → x ++ y = content ++ BRACKETED_PASTE_END →
  process s (Text c) = Some (if bool_decide (y = []) then (idle s, [Paste content]) else (pasting s x None, [])).
Proof.
  intros Hp Hne Hc x E Ex. unfold process, process_fuel. cbn [chunk_text process_text sb_buffer sb_pasteMode set_timeout]. rewrite (bool_decide_eq_false_2 (c = [])) by done. cbn [andb]. rewrite Hp, E.
  assert (indexOf (BRACKETED_PASTE_START ++ x) BRACKETED_PASTE_START = Some 0%nat) as -> by (by apply indexOf_app). cbn [Nat.ltb Nat.leb emit_all Nat.add]. rewrite drop_app_length.
  change (set_pending _ None) with (pasting s x None). rewrite (finish_part s x None content y Hc Ex). by case_bool_decide.
Qed.

(** Before a paste an empty buffer does not mind the timer. *)
Lemma expire_empty s : sb_buffer s = [] → sb_pasteMode s = false →
  ∃ s', expire s = (s', []) ∧ sb_buffer s' = [] ∧ sb_pasteMode s' = false ∧ idle s' = idle s ∧ ∀ x p, pasting s' x p = pasting s x p.
Proof.
  intros Hb Hp. unfold expire. destruct (sb_timeout s); [|by exists s]. exists (set_timeout s None). unfold on_timeout, flush. cbn [sb_buffer set_timeout]. rewrite Hb, bool_decide_true by done.
  by split_and!.
Qed.

Lemma marker_all inputs s content :
  sb_pasteMode s = false → (length (sb_buffer s) < 6)%nat → Forall (λ c, c ≠ []) (texts inputs) → marker_in_time (length (sb_buffer s)) inputs →
  indexOf (content ++ BRACKETED_PASTE_END) BRACKETED_PASTE_END = Some (length content) →
  sb_buffer s ++ concat (texts inputs) = BRACKETED_PASTE_START ++ content ++ BRACKETED_PASTE_END → run_inputs s inputs = Some (idle s, [Paste content]).
Proof.
  revert s. induction inputs as [|[c|] inputs IH]; intros s Hp Hl Hne Htime Hc E.
  { apply (f_equal length) in E. rewrite !length_app in E. change (length BRACKETED_PASTE_START) with 6%nat in E. cbn in E. lia. }
  2:{ destruct Htime as [Hn Htime]. change (length BRACKETED_PASTE_START) with 6%nat in Hn. assert (sb_buffer s = []) as Hb by (apply nil_length_inv; lia).
      destruct (expire_empty s Hb Hp) as (s' & Es & Hb' & Hp' & Hi & _). cbn [run_inputs]. rewrite Es. cbv beta iota. rewrite (IH s'); try done.
      - by rewrite Hi.
      - rewrite Hb'. cbn. lia.
      - rewrite Hb'. by rewrite Hb in Htime.
      - rewrite Hb'. by rewrite Hb in E. }
  cbn [texts omap list_omap] in Hne, E. fold (texts inputs) in Hne, E. cbn [marker_in_time] in Htime.
  apply Forall_cons in Hne as [Hcn Hne]. cbn [concat] in E. rewrite (assoc_L (++)) in E. cbn [run_inputs]. destruct (decide (length (sb_buffer s ++ c) < 6)%nat) as [Hs|Hs].
  - assert (∃ y, (sb_buffer s ++ c) ++ y = BRACKETED_PASTE_START ∧ y ≠ []) as (y & Ey & Hy).
    { exists (drop (length (sb_buffer s ++ c)) BRACKETED_PASTE_START). rewrite <- (take_drop (length (sb_buffer s ++ c)) BRACKETED_PASTE_START) at 2. split.
      - f_equal. apply (f_equal (take (length (sb_buffer s ++ c)))) in E. rewrite take_app_length, take_app_le in E by (change (length BRACKETED_PASTE_START) with 6%nat; lia). exact E.
      - intros Hd%(f_equal length). rewrite length_drop in Hd. change (length BRACKETED_PASTE_START) with 6%nat in Hd. cbn in Hd. lia. }
    destruct (marker_part _ _ Ey Hy) as [Hi Hx]; [intros En%app_eq_nil; by destruct En|]. rewrite (process_plain s c [] _ Hcn Hp Hi Hx). cbn [emitted fst snd].
    rewrite IH; try done. cbn [sb_buffer waiting]. by rewrite length_app.
  - assert (∃ x, sb_buffer s ++ c = BRACKETED_PASTE_START ++ x ∧ x ++ concat (texts inputs) = content ++ BRACKETED_PASTE_END) as (x & Ex & Exy).
    { exists (drop 6 (sb_buffer s ++ c)). assert (take 6 (sb_buffer s ++ c) = BRACKETED_PASTE_START) as Et.
      { apply (f_equal (take 6)) in E. rewrite take_app_le in E by lia. exact E. }
      split; [by rewrite <- Et, take_drop|]. apply (f_equal (drop 6)) in E. rewrite drop_app_le in E by lia. exact E. }
    rewrite (marker_step s c content (concat (texts inputs)) Hp Hcn Hc x Ex Exy). case_bool_decide as Hy.
    + rewrite idle_inputs by (by apply no_text). done.
    + rewrite (pasting_inputs s inputs x None content); [done|done|done| |done]. intros Ht. apply Hy. by rewrite Ht.
Qed.

(** ** What the buffer promises *)

Lemma stdin_chunks_witness :
  process_all (new_StdinBuffer None None) [[ESC]; js_lit "[<35"; js_lit ";20;5mx"] = process (new_StdinBuffer None None) (Text (ESC :: js_lit "[<35;20;5mx")).
Proof.
  refine (stdin_chunks (new_StdinBuffer None None) [ESC] [js_lit "[<35"; js_lit ";20;5mx"] _ _ _ _).
  - repeat constructor; discriminate.
  - reflexivity.
  - vm_compute. reflexivity.
  - split; [intros _ Hc; vm_compute in Hc; discriminate Hc|]. split; [intros _ Hc; vm_compute in Hc; discriminate Hc|]. split; [|exact I]. intros Hn. destruct Hn. reflexivity.
Defined.

(** C38: A bracketed paste that starts on an empty buffer arrives as one event with
    exactly its content and leaves the buffer empty, wherever the chunks cut it or its
    markers and whenever the timer expires, unless it expires while only a part of the
    start marker has come.  The content is what precedes the first end marker. *)
Theorem paste_whole s inputs content :
  sb_pasteMode s = false → sb_buffer s = [] → Forall (λ c, c ≠ []) (texts inputs) → marker_in_time 0 inputs →
  concat (texts inputs) = BRACKETED_PASTE_START ++ content ++ BRACKETED_PASTE_END →
  indexOf (content ++ BRACKETED_PASTE_END) BRACKETED_PASTE_END = Some (length content) → run_inputs s inputs = Some (idle s, [Paste content]).
Proof. intros Hp Hb Hne Ht E Hc. apply marker_all; try done; rewrite Hb; [cbn; lia|done|exact E]. Qed.

Lemma paste_whole_witness :
  run_inputs (new_StdinBuffer None None) [Expires; Arrives (ESC :: js_lit "[20"); Arrives (js_lit "0~hel" ++ [ESC]); Expires; Arrives (js_lit "lo" ++ [ESC]); Arrives (js_lit "[201~"); Expires] =
  Some (idle (new_StdinBuffer None None), [Paste (js_lit "hel" ++ [ESC] ++ js_lit "lo")]).
Proof.
  apply paste_whole; [reflexivity|reflexivity|repeat constructor; discriminate| |vm_compute; reflexivity|vm_compute; reflexivity].
  split; [by left|]. split; [right; vm_compute; lia|]. split; [right; vm_compute; lia|exact I].
Defined.

(** A timer that expires inside the start marker types the paste as text. *)
Theorem late_marker_typed :
  snd <$> run_inputs (new_StdinBuffer None None) [Arrives (ESC :: js_lit "[20"); Expires; Arrives (js_lit "0~x")] =
  Some [Data (ESC :: js_lit "[20"); Data (js_lit "0"); Data (js_lit "~"); Data (js_lit "x")].
Proof. vm_compute. reflexivity. Qed.

(** The kinds of sequence that are emitted, and what is kept back. *)
Definition minimal (q : jsstr) : Prop := isCompleteSequence q ≠ incomplete ∧ ∀ j, (1 ≤ j < length q)%nat → incomplete_at q j.
Definition sequence_ok (q : jsstr) : Prop := (∃ u, q = [u] ∧ u ≠ ESC) ∨ q = [ESC] ∨ (head q = Some ESC ∧ minimal q).
Definition kept_ok (r : jsstr) : Prop := r = [] ∨ (head r = Some ESC ∧ ∀ j, (1 ≤ j ≤ length r)%nat → incomplete_at r j).

(** Extraction cuts the text into single characters, shortest complete escape
    sequences and a rest that no prefix of completes; nothing is lost. *)
Theorem sequences_exact buffer :
  concat (extractCompleteSequences buffer).1 ++ (extractCompleteSequences buffer).2 = buffer ∧
  Forall sequence_ok (extractCompleteSequences buffer).1 ∧ kept_ok (extractCompleteSequences buffer).2.
Proof.
  pose proof (extract_spec buffer) as Hx. split; [by apply extracts_concat|].
  induction Hx as [|u rest ss r Hu _ [IH1 IH2]|rest He|rest e ss r He Hr _ [IH1 IH2]|rest e ss r He Hr _ [IH1 IH2]].
  - split; [constructor|by left].
  - split; [|done]. constructor; [left; by exists u|done].
  - split; [constructor|]. right. split; [done|]. intros j Hj. eapply sequence_end_None; [exact He|]. cbn [length] in *. lia.
  - split; [|done]. constructor; [right; by left|done].
  - split; [|done]. constructor; [right; right|done]. unfold first_end in He. rewrite sequence_end_spec in He. destruct He as (Hl & Hn & Hj). split; [by destruct e; [lia|]|]. split.
    + exact Hn.
    + intros j Hj'. rewrite length_take in Hj'. unfold incomplete_at. rewrite take_take, Nat.min_l by lia. apply Hj. lia.
Qed.

(** A key press of Escape with its release, as WezTerm sends them, is taken apart only if
    both come in one chunk. *)
Theorem escape_cut_typed :
  snd <$> process (new_StdinBuffer None None) (Text ([ESC; ESC] ++ js_lit "[27;1:3u")) = Some [Data [ESC]; Data (ESC :: js_lit "[27;1:3u")] ∧
  snd <$> process_all (new_StdinBuffer None None) [[ESC; ESC]; js_lit "[27u"] = Some [Data [ESC; ESC]; Data (js_lit "["); Data (js_lit "2"); Data (js_lit "7"); Data (js_lit "u")].
Proof. vm_compute. done. Qed.

(** An incomplete sequence before a paste is dropped, though the timer would have
    emitted it: here the Escape key. *)
Theorem escape_before_paste_lost :
  snd <$> process (new_StdinBuffer None None) (Text ([ESC] ++ BRACKETED_PASTE_START ++ js_lit "x" ++ BRACKETED_PASTE_END)) = Some [Paste (js_lit "x")] ∧
  (on_timeout <$> (fst <$> process (new_StdinBuffer None None) (Text [ESC]))) = Some (idle (new_StdinBuffer None None), [Data [ESC]]).
Proof. vm_compute. done. Qed.
