(* ===== verification/RemoteSession.v ===== *)
(** The remote session of the client: [coding-agent/src/client/remote-session.ts].

    Calls overlap, so each is a record of where its promise is, and a step runs the
    object from one await to the next.  The client ([PiClient]) is the environment: it
    hands out leases, answers requests and tells when a lease is lost.  Listeners only
    observe: [rs_notified] keeps, in order, the states [#notify] passes on. *)
From S2P Require Import Prelude JsValue JsMap Json Regex WireTypes Transcript.
Open Scope Z_scope.

Inductive RemoteSessionOperation := op_open | op_create | op_submit | op_abort | op_setModel | op_setThinking | op_reconnect.

#[export] Instance operation_eq_dec : EqDecision RemoteSessionOperation.
Proof. solve_decision. Defined.

(** The object of a busy state is that of its call, which its number stands for. *)
Inductive RemoteSessionLifecycle := unbound | ready | busy (call : nat) | disposed.

#[export] Instance lifecycle_eq_dec : EqDecision RemoteSessionLifecycle.
Proof. solve_decision. Defined.

Inductive error := RemoteSessionDisposedError | Error (message : string) | Other (code : Z) | AggregateError (errors : list error).

(** A lease of the client: [attached] is true while it is active; [detach()] and
    [dispose()] start a release; it is gone once released, invalidated or lost. *)
Inductive lease_state := active | releasing | gone.

#[export] Instance lease_state_eq_dec : EqDecision lease_state.
Proof. solve_decision. Defined.

Record Lease := mkLease { l_id : jsstr; l_state : lease_state }.

(** The request a handle sends for a call. *)
Inductive HandleRequest := prompt (text : jsstr) | steer (text : jsstr) | abort | setModel | setThinking.

(** Where the promise of an operation is.  After [#assertNotDisposedAfterAwait] the code
    goes on in a later job, so a passed check is a stage of its own. *)
Inductive Running :=
| Requesting (handle : nat) (r : HandleRequest)
| Preparing (previous : option nat)
| CheckedFirst (previous : option nat) (next : nat)
| DetachingPrevious (previous next : nat) (snapshot : SessionSnapshot)
| CheckedLast (next : nat) (snapshot : SessionSnapshot)
| Detaching (next : nat) (failure : error) (aggregate : bool)
| Reconnecting (sessionId : jsstr)
| Acquiring (sessionId : jsstr)
| CheckedReconnect (next : nat)
| Done (r : result error unit).

(** A call of [#runOperation]; [k_settled] is what its caller got. *)
Record OperationCall := mkCall {
  k_operation : RemoteSessionOperation; k_preempt : bool; k_previous : RemoteSessionLifecycle;
  k_running : Running; k_settled : option (result error unit) }.

Record RemoteSessionState := mkState { st_lifecycle : RemoteSessionLifecycle; st_snapshot : option SessionSnapshot; st_transcript : list TranscriptItem }.

Record RemoteSession := mkRemote {
  rs_lifecycle : RemoteSessionLifecycle;
  rs_handle : option nat;
  rs_transcript : option TranscriptState;
  rs_subscribed : option nat;                        (* the lease listened to *)
  rs_active : list nat;                              (* #activeOperationStates *)
  rs_signal : bool;                                  (* #disposeSignal is resolved *)
  rs_cleanup : option (list nat * option nat);       (* what #disposePromise waits for *)
  rs_calls : list OperationCall;
  rs_leases : list Lease;
  rs_notified : list RemoteSessionState }.

Definition new_RemoteSession : RemoteSession := mkRemote unbound None None None [] false None [] [] [].

Definition state_of (s : RemoteSession) : RemoteSessionState :=
  mkState (rs_lifecycle s) (ts_snapshot <$> rs_transcript s) (match rs_transcript s with Some t => selectTranscript t | None => [] end).

Definition notify (s : RemoteSession) : RemoteSession :=
  mkRemote (rs_lifecycle s) (rs_handle s) (rs_transcript s) (rs_subscribed s) (rs_active s) (rs_signal s) (rs_cleanup s) (rs_calls s) (rs_leases s) (rs_notified s ++ [state_of s]).
Definition set_lifecycle (s : RemoteSession) (l : RemoteSessionLifecycle) : RemoteSession :=
  mkRemote l (rs_handle s) (rs_transcript s) (rs_subscribed s) (rs_active s) (rs_signal s) (rs_cleanup s) (rs_calls s) (rs_leases s) (rs_notified s).
Definition set_binding (s : RemoteSession) (handle : option nat) (t : option TranscriptState) (subscribed : option nat) : RemoteSession :=
  mkRemote (rs_lifecycle s) handle t subscribed (rs_active s) (rs_signal s) (rs_cleanup s) (rs_calls s) (rs_leases s) (rs_notified s).
Definition set_active (s : RemoteSession) (l : list nat) : RemoteSession :=
  mkRemote (rs_lifecycle s) (rs_handle s) (rs_transcript s) (rs_subscribed s) l (rs_signal s) (rs_cleanup s) (rs_calls s) (rs_leases s) (rs_notified s).
Definition set_signal (s : RemoteSession) : RemoteSession :=
  mkRemote (rs_lifecycle s) (rs_handle s) (rs_transcript s) (rs_subscribed s) (rs_active s) true (rs_cleanup s) (rs_calls s) (rs_leases s) (rs_notified s).
Definition set_cleanup (s : RemoteSession) (cleanup : list nat * option nat) : RemoteSession :=
  mkRemote (rs_lifecycle s) (rs_handle s) (rs_transcript s) (rs_subscribed s) (rs_active s) (rs_signal s) (Some cleanup) (rs_calls s) (rs_leases s) (rs_notified s).
Definition set_calls (s : RemoteSession) (calls : list OperationCall) : RemoteSession :=
  mkRemote (rs_lifecycle s) (rs_handle s) (rs_transcript s) (rs_subscribed s) (rs_active s) (rs_signal s) (rs_cleanup s) calls (rs_leases s) (rs_notified s).
Definition set_leases (s : RemoteSession) (leases : list Lease) : RemoteSession :=
  mkRemote (rs_lifecycle s) (rs_handle s) (rs_transcript s) (rs_subscribed s) (rs_active s) (rs_signal s) (rs_cleanup s) (rs_calls s) leases (rs_notified s).

Definition running (c : OperationCall) (r : Running) : OperationCall := mkCall (k_operation c) (k_preempt c) (k_previous c) r (k_settled c).
Definition run_to (s : RemoteSession) (i : nat) (c : OperationCall) (r : Running) : RemoteSession := set_calls s (<[i := running c r]> (rs_calls s)).

(** ** Leases *)

Definition lease_id (s : RemoteSession) (n : nat) : option jsstr := l_id <$> rs_leases s !! n.
Definition lease_at (s : RemoteSession) (n : nat) (st : lease_state) : bool := bool_decide (l_state <$> rs_leases s !! n = Some st).
Definition attached (s : RemoteSession) (n : nat) : bool := lease_at s n active.

Definition move_lease (s : RemoteSession) (n : nat) (f : lease_state → lease_state) : RemoteSession :=
  set_leases s (alter (λ l, mkLease (l_id l) (f (l_state l))) n (rs_leases s)).

Definition release_from (st : lease_state) : lease_state := match st with active => releasing | _ => st end.
Definition restore_from (st : lease_state) : lease_state := match st with releasing => active | _ => st end.

Definition release (s : RemoteSession) (n : nat) : RemoteSession := move_lease s n release_from.
Definition lose (s : RemoteSession) (n : nat) : RemoteSession := move_lease s n (λ _, gone).
(** A failed [detach()] makes the lease active again. *)
Definition restore (s : RemoteSession) (n : nat) : RemoteSession := move_lease s n restore_from.

(** The client has a snapshot of a session while its lease is active. *)
Definition lease_snapshot (s : RemoteSession) (n : nat) (snapshot : SessionSnapshot) : option SessionSnapshot :=
  if attached s n then Some snapshot else None.

(** Leases are exclusive: the client hands one out while no other of that session is held. *)
Definition exclusive (s : RemoteSession) (id : jsstr) : bool := forallb (λ l, bool_decide (l_state l = gone) || negb (bool_decide (l_id l = id))) (rs_leases s).

Definition phase_of (snapshot : SessionSnapshot) : option jsstr :=
  match ss_rest snapshot with TMap o => match map_get o (js_lit "phase") with Some (TText p) => Some p | _ => None end | _ => None end.
Definition phase (s : RemoteSession) : option jsstr := match rs_transcript s with Some t => phase_of (ts_snapshot t) | None => None end.
Definition phase_is (s : RemoteSession) (p : string) : bool := bool_decide (phase s = Some (js_lit p)).

Definition is_busy (s : RemoteSession) : bool := match rs_lifecycle s with busy _ => true | _ => false end.
Definition is_disposed (s : RemoteSession) : bool := bool_decide (rs_lifecycle s = disposed).

(** The operation of the busy state. *)
Definition busy_with (s : RemoteSession) : option RemoteSessionOperation :=
  match rs_lifecycle s with busy i => k_operation <$> rs_calls s !! i | _ => None end.

(** ** Calls *)

Inductive Request := Open (sessionId : jsstr) | Create | Submit (text : jsstr) | Abort | SetModel | SetThinking | Reconnect.

Inductive Outcome := Returned | Threw | Started.

(** [#runOperation] up to the first await of [run]. *)
Definition runOperation (s : RemoteSession) (o : RemoteSessionOperation) (run : Running) (preempt : bool) : RemoteSession :=
  let i := length (rs_calls s) in
  let c := mkCall o preempt (rs_lifecycle s) run None in
  notify (set_lifecycle (set_active (set_calls s (rs_calls s ++ [c])) (rs_active s ++ [i])) (busy i)).

Definition replace (s : RemoteSession) (o : RemoteSessionOperation) : RemoteSession * Outcome :=
  if is_disposed s || is_busy s then (s, Threw) else
  if bool_decide (is_Some (rs_handle s)) && negb (phase_is s "idle") then (s, Threw) else
  (runOperation s o (Preparing (rs_handle s)) false, Started).

Definition runIdleOperation (s : RemoteSession) (o : RemoteSessionOperation) (r : HandleRequest) : RemoteSession * Outcome :=
  if is_disposed s || is_busy s then (s, Threw) else
  match rs_handle s with
  | None => (s, Threw)
  | Some handle => if phase_is s "idle" then (runOperation s o (Requesting handle r) false, Started) else (s, Threw)
  end.

Definition request (s : RemoteSession) (q : Request) : RemoteSession * Outcome :=
  match q with
  | Open sessionId =>
      if bool_decide (rs_handle s ≫= lease_id s = Some sessionId) && bool_decide (rs_lifecycle s = ready) then (s, Returned) else replace s op_open
  | Create => replace s op_create
  | Submit text =>
      let normalized := trim text in
      if bool_decide (normalized = []) then (s, Returned) else
      if is_disposed s || is_busy s then (s, Threw) else
      match rs_handle s with
      | None => (s, Threw)
      | Some handle =>
          if phase_is s "idle" then (runOperation s op_submit (Requesting handle (prompt normalized)) false, Started) else
          if phase_is s "turn" then (runOperation s op_submit (Requesting handle (steer normalized)) false, Started) else (s, Threw)
      end
  | Abort =>
      let preempting := bool_decide (busy_with s = Some op_submit) in
      if is_disposed s || is_busy s && negb preempting then (s, Threw) else
      match rs_handle s with
      | None => (s, Threw)
      | Some handle =>
          if phase_is s "idle" && negb preempting then (s, Returned) else (runOperation s op_abort (Requesting handle abort) preempting, Started)
      end
  | SetModel => runIdleOperation s op_setModel setModel
  | SetThinking => runIdleOperation s op_setThinking setThinking
  | Reconnect =>
      if is_disposed s || is_busy s then (s, Threw) else
      match rs_handle s ≫= lease_id s with
      | None => (s, Threw)
      | Some sessionId => (runOperation s op_reconnect (Reconnecting sessionId) false, Started)
      end
  end.

(** ** Promises *)

(** What the client answers: a lease comes with its session's identifier, any for [open]
    and [create]. *)
Inductive Answer := Resolved | Rejected (e : error) | Leased (sessionId : jsstr).

(** [#bind], the last thing its call does; subscribing to a lost lease throws. *)
Definition bind_lease (s : RemoteSession) (i : nat) (c : OperationCall) (n : nat) (snapshot : SessionSnapshot) : RemoteSession :=
  if attached s n
  then run_to (set_binding s (Some n) (Some (createTranscriptState snapshot)) (Some n)) i c (Done (Ok tt))
  else run_to (set_binding s (Some n) (Some (createTranscriptState snapshot)) None) i c (Done (Err (Error "Session is not attached"))).

(** [#detach], then a throw. *)
Definition detach_next (s : RemoteSession) (i : nat) (c : OperationCall) (next : nat) (failure : error) (aggregate : bool) : RemoteSession :=
  run_to (release s next) i c (Detaching next failure aggregate).

(** [#assertNotDisposedAfterAwait] *)
Definition assertNotDisposedAfterAwait (s : RemoteSession) (i : nat) (c : OperationCall) (next : nat) (go_on : Running) : RemoteSession :=
  if is_disposed s then detach_next s i c next RemoteSessionDisposedError false else run_to s i c go_on.

Definition acquired (s : RemoteSession) (i : nat) (c : OperationCall) (sessionId : jsstr) (go_on : nat → Running) : option RemoteSession :=
  if exclusive s sessionId then
    let n := length (rs_leases s) in
    Some (assertNotDisposedAfterAwait (set_leases s (rs_leases s ++ [mkLease sessionId active])) i c n (go_on n))
  else None.

(** The promise that call [i] awaits is settled. *)
Definition answer (s : RemoteSession) (i : nat) (a : Answer) : option RemoteSession :=
  match rs_calls s !! i with
  | None => None
  | Some c =>
      match k_running c, a with
      | Requesting _ _, Resolved => Some (run_to s i c (Done (Ok tt)))
      | (Requesting _ _ | Preparing _ | Reconnecting _ | Acquiring _), Rejected e => Some (run_to s i c (Done (Err e)))
      | Preparing previous, Leased id => acquired s i c id (CheckedFirst previous)
      | Reconnecting id, Resolved => Some (run_to s i c (Acquiring id))
      | Acquiring id, Leased id' => if bool_decide (id = id') then acquired s i c id CheckedReconnect else None
      | DetachingPrevious previous next snapshot, Resolved => Some (assertNotDisposedAfterAwait (lose s previous) i c next (CheckedLast next snapshot))
      | DetachingPrevious previous next _, Rejected e => Some (detach_next (restore s previous) i c next e true)
      | Detaching next failure _, Resolved => Some (run_to (lose s next) i c (Done (Err failure)))
      | Detaching next failure aggregate, Rejected e =>
          Some (run_to (lose s next) i c (Done (Err (if aggregate then AggregateError [failure; e] else e))))
      | _, _ => None
      end
  end.

Definition prepared (s : RemoteSession) (i : nat) (c : OperationCall) (previous : option nat) (next : nat) (snapshot : SessionSnapshot) : RemoteSession :=
  match lease_snapshot s next snapshot with
  | None => detach_next s i c next (Error "Session did not provide a snapshot") false
  | Some snapshot =>
      match previous with
      | Some p =>
          if negb (bool_decide (lease_id s p = lease_id s next)) && attached s p then
            if phase_is s "idle" then run_to (release s p) i c (DetachingPrevious p next snapshot)
            else detach_next s i c next (Error "Cannot replace the session in its phase") false
          else assertNotDisposedAfterAwait s i c next (CheckedLast next snapshot)
      | None => assertNotDisposedAfterAwait s i c next (CheckedLast next snapshot)
      end
  end.

(** Call [i] goes on after a check it passed; [snapshot] is what the client has of the lease. *)
Definition continue (s : RemoteSession) (i : nat) (snapshot : SessionSnapshot) : option RemoteSession :=
  match rs_calls s !! i with
  | None => None
  | Some c =>
      match k_running c with
      | CheckedFirst previous next => Some (prepared s i c previous next snapshot)
      | CheckedLast next known => Some (bind_lease s i c next known)
      | CheckedReconnect next =>
          match lease_snapshot s next snapshot with
          | Some snapshot => Some (bind_lease s i c next snapshot)
          | None => Some (run_to s i c (Done (Err (Error "Session did not provide a snapshot"))))
          end
      | _ => None
      end
  end.

(** What the race of [#runOperation] gives: the promise of [run], or the dispose signal. *)
Definition race (s : RemoteSession) (c : OperationCall) (by_signal : bool) : option (result error unit) :=
  if by_signal then if rs_signal s then Some (Err (Error "Remote session is disposed")) else None
  else match k_running c with Done r => Some r | _ => None end.

(** The [finally] of [#runOperation]. *)
Definition settle (s : RemoteSession) (i : nat) (by_signal : bool) : option RemoteSession :=
  match rs_calls s !! i with
  | Some (mkCall o preempt previous run None as c) =>
      match race s c by_signal with
      | None => None
      | Some r =>
          let s := set_calls s (<[i := mkCall o preempt previous run (Some r)]> (rs_calls s)) in
          let s := set_active s (filter (λ j, j ≠ i) (rs_active s)) in
          if negb (is_disposed s) && bool_decide (rs_lifecycle s = busy i) then
            Some (notify (set_lifecycle s (
              match previous with
              | busy j => if preempt && bool_decide (j ∈ rs_active s) then busy j else if rs_handle s then ready else unbound
              | _ => if rs_handle s then ready else unbound
              end)))
          else Some s
      end
  | _ => None
  end.

(** ** Disposal *)

Definition attaching (c : OperationCall) : bool :=
  match k_running c with Requesting _ _ | Done _ => false | _ => true end.

(** The promises of [#pendingAttachmentOperations]. *)
Definition pendingAttachmentOperations (s : RemoteSession) : list nat :=
  List.filter (λ i, match rs_calls s !! i with Some c => attaching c | None => false end) (seq 0 (length (rs_calls s))).

(** [throws]: [handle.dispose()] throws, which a lease that is not active may do. *)
Definition dispose (s : RemoteSession) (throws : bool) : RemoteSession * Outcome :=
  match rs_cleanup s with
  | Some _ => (s, Returned)
  | None =>
      let pending := pendingAttachmentOperations s in
      let disposed_s := set_binding (set_signal (set_lifecycle s disposed)) None None None in
      match rs_handle s with
      | Some n =>
          if throws && negb (attached s n) then (disposed_s, Threw)
          else (notify (set_cleanup (release disposed_s n) (pending, Some n)), Started)
      | None => (notify (set_cleanup disposed_s (pending, None)), Started)
      end
  end.

Definition settleRemoteSessionDisposal (results : list (result error unit)) : result error unit :=
  match omap (λ r, match r with Err RemoteSessionDisposedError | Ok _ => None | Err e => Some e end) results with
  | [] => Ok tt
  | [e] => Err e
  | errors => Err (AggregateError errors)
  end.

(** What [#disposePromise] settles with, once the calls it waits for have ended; [released]
    is the outcome of [handle.dispose()]. *)
Definition dispose_promise (s : RemoteSession) (released : result error unit) : option (result error unit) :=
  match rs_cleanup s with
  | None => None
  | Some (pending, handle) =>
      results ← mapM (λ i, match k_running <$> rs_calls s !! i with Some (Done r) => Some r | _ => None end) pending;
      Some (settleRemoteSessionDisposal (results ++ if handle then [released] else []))
  end.

(** The static [open] and [create]: the first call of a new session, which is disposed when it fails. *)
Definition static_failed (s : RemoteSession) : RemoteSession :=
  match k_settled <$> rs_calls s !! 0%nat with Some (Some (Err _)) => (dispose s false).1 | _ => s end.

(** ** Events of the lease *)

Section events.
Context (JSON_parse : jsstr → option tree).

Definition snapshot_listener (s : RemoteSession) (next : SessionSnapshot) : RemoteSession :=
  match rs_transcript s with
  | None => s
  | Some t => notify (set_binding s (rs_handle s) (Some (applyTranscriptSnapshot t next)) (rs_subscribed s))
  end.

Definition handleEvent (s : RemoteSession) (event : ServerEvent) : RemoteSession :=
  match event with
  | session_removed _ =>
      let s := set_binding s None None None in
      notify (if is_busy s then s else set_lifecycle s unbound)
  | session_progress _ progress =>
      match rs_transcript s with
      | None => s
      | Some t => notify (set_binding s (rs_handle s) (Some (applyTranscriptProgress JSON_parse t progress)) (rs_subscribed s))
      end
  | _ => s
  end.

(** ** Steps *)

Inductive Step :=
| Call (q : Request)
| Answered (i : nat) (a : Answer)
| Continue (i : nat) (snapshot : SessionSnapshot)
| Settle (i : nat) (by_signal : bool)
| Dispose (throws : bool)
| Lost (n : nat)
| Snapshot (next : SessionSnapshot)
| Event (event : ServerEvent).

(** The lease passes on what it hears while it is active; a removed session is gone. *)
Definition step (s : RemoteSession) (x : Step) : option RemoteSession :=
  match x with
  | Call q => Some (request s q).1
  | Answered i a => answer s i a
  | Continue i snapshot => continue s i snapshot
  | Settle i by_signal => settle s i by_signal
  | Dispose throws => Some (dispose s throws).1
  | Lost n => Some (lose s n)
  | Snapshot next => n ← rs_subscribed s; if attached s n then Some (snapshot_listener s next) else None
  | Event (session_removed id) => n ← rs_subscribed s; Some (handleEvent (lose s n) (session_removed id))
  | Event event => n ← rs_subscribed s; if attached s n then Some (handleEvent s event) else None
  end.

Definition steps (s : RemoteSession) (xs : list Step) : option RemoteSession := foldl (λ o x, s ← o; step s x) (Some s) xs.

(** The states that steps with a property reach. *)
Inductive reaches (allowed : RemoteSession → Step → Prop) : RemoteSession → Prop :=
| reaches_new : reaches allowed new_RemoteSession
| reaches_step s x s' : reaches allowed s → allowed s x → step s x = Some s' → reaches allowed s'.
End events.

(** ** Examples *)

Definition ex_snapshot (id p : string) : SessionSnapshot := mkSession (js_lit id) true 0 [] [] (TMap [(js_lit "phase", TText (js_lit p))]).
Definition ex_json : jsstr → option tree := λ _, None.

Definition ex_created : list Step :=
  [Call Create; Answered 0 (Leased (js_lit "a")); Continue 0 (ex_snapshot "a" "idle"); Continue 0 (ex_snapshot "a" "idle"); Settle 0 false].

Example created_ready :
  (λ s, (rs_lifecycle s, rs_handle s, rs_active s, (λ t, st_lifecycle t) <$> rs_notified s)) <$> steps ex_json new_RemoteSession ex_created
  = Some (ready, Some 0%nat, [], [busy 0; ready]).
Proof. vm_compute. reflexivity. Qed.

(** A submission is aborted, and ends only after the abort. *)
Example abort_preempts :
  (λ s, (rs_lifecycle s, rs_active s, (λ t, st_lifecycle t) <$> drop 2 (rs_notified s))) <$>
    steps ex_json new_RemoteSession (ex_created ++ [Call (Submit (js_lit " hi ")); Call Abort; Answered 2 Resolved; Settle 2 false; Answered 1 Resolved; Settle 1 false])
  = Some (ready, [], [busy 1; busy 2; busy 1; ready]).
Proof. vm_compute. reflexivity. Qed.

(** A session is replaced; the old lease is released first. *)
Example open_replaces :
  (λ s, (rs_lifecycle s, rs_handle s, rs_subscribed s, l_state <$> rs_leases s)) <$>
    steps ex_json new_RemoteSession (ex_created ++ [Call (Open (js_lit "b")); Answered 1 (Leased (js_lit "b")); Continue 1 (ex_snapshot "b" "idle");
      Answered 1 Resolved; Continue 1 (ex_snapshot "b" "idle"); Settle 1 false])
  = Some (ready, Some 1%nat, Some 1%nat, [gone; active]).
Proof. vm_compute. reflexivity. Qed.

(** ** One operation at a time *)

(** Call [i] is an abort that preempts the submission [j]. *)
Definition preempts (s : RemoteSession) (i j : nat) : Prop :=
  ∃ c d, rs_calls s !! i = Some c ∧ k_operation c = op_abort ∧ k_preempt c = true ∧ k_previous c = busy j ∧
         rs_calls s !! j = Some d ∧ k_operation d = op_submit ∧ (j < i)%nat.

Definition unsettled (s : RemoteSession) (i : nat) : Prop := ∃ c, rs_calls s !! i = Some c ∧ k_settled c = None.

Definition lifecycle_ok (s : RemoteSession) : Prop :=
  match rs_lifecycle s with
  | busy i => i ∈ rs_active s ∧ ∀ j, j ∈ rs_active s → j ≠ i → preempts s i j
  | ready => rs_active s = [] ∧ is_Some (rs_handle s)
  | unbound => rs_active s = [] ∧ rs_handle s = None
  | disposed => False
  end.

Definition bound_ok (s : RemoteSession) : Prop :=
  (∀ n, rs_subscribed s = Some n → rs_handle s = Some n) ∧ (is_Some (rs_transcript s) ↔ is_Some (rs_handle s)).

Record exclusive_ok (s : RemoteSession) : Prop := {
  ex_active : ∀ j, j ∈ rs_active s ↔ unsettled s j;
  ex_lifecycle : rs_signal s = false → lifecycle_ok s;
  ex_done : rs_signal s = false → ∀ j c, rs_calls s !! j = Some c → is_Some (k_settled c) → attaching c = false;
  ex_bound : bound_ok s }.

Section exclusive.
Context (JSON_parse : jsstr → option tree).

Lemma unsettled_run s i c r j : rs_calls s !! i = Some c → unsettled (run_to s i c r) j ↔ unsettled s j.
Proof.
  intros Hc. assert (i < length (rs_calls s))%nat by (eapply lookup_lt_Some; eauto).
  unfold unsettled, run_to; cbn. destruct (decide (i = j)) as [<-|].
  - rewrite list_lookup_insert_eq by done. split; intros (d&?&?); simplify_eq; eauto.
  - by rewrite list_lookup_insert_ne.
Qed.

Lemma preempts_run s i c r a b : rs_calls s !! i = Some c → preempts s a b → preempts (run_to s i c r) a b.
Proof.
  intros Hc (d&e&Hd&?&?&?&He&?&?). assert (i < length (rs_calls s))%nat by (eapply lookup_lt_Some; eauto).
  assert (Hl : ∀ k f, rs_calls s !! k = Some f → ∃ f', <[i := running c r]> (rs_calls s) !! k = Some f' ∧
    k_operation f' = k_operation f ∧ k_preempt f' = k_preempt f ∧ k_previous f' = k_previous f).
  { intros k f Hf. destruct (decide (i = k)) as [<-|].
    - rewrite list_lookup_insert_eq by done. simplify_eq. eexists; done.
    - rewrite list_lookup_insert_ne by done. eauto. }
  destruct (Hl _ _ Hd) as (d'&?&?&?&?), (Hl _ _ He) as (e'&?&?&?&?).
  exists d', e'. cbn. repeat split; congruence.
Qed.

(** A promise step keeps the discipline. *)
Lemma exclusive_run s s0 i c r :
  exclusive_ok s → rs_calls s !! i = Some c → attaching c = true ∨ attaching (running c r) = false →
  rs_calls s0 = rs_calls s → rs_lifecycle s0 = rs_lifecycle s → rs_active s0 = rs_active s → rs_signal s0 = rs_signal s →
  rs_handle s0 = rs_handle s ∨ attaching c = true → bound_ok s0 → exclusive_ok (run_to s0 i c r).
Proof.
  intros [Ha Hl Hd Hb] Hc Hrun Ecalls Elife Eact Esig Hhandle Hb0.
  assert (Hc0 : rs_calls s0 !! i = Some c) by congruence.
  assert (Hun : attaching c = true → rs_signal s = false → i ∈ rs_active s).
  { intros Hat Hs. apply Ha. exists c. split; [done|]. destruct (k_settled c) eqn:E; [|done].
    rewrite (Hd Hs i c Hc) in Hat; [done|by rewrite E]. }
  split; [| | |done].
  - intros j. rewrite unsettled_run by done. cbn. rewrite Eact, Ha. unfold unsettled. by rewrite Ecalls.
  - cbn. rewrite Esig. intros Hs. specialize (Hl Hs). unfold lifecycle_ok in *. cbn. rewrite Elife, Eact.
    destruct (rs_lifecycle s) eqn:E; try done.
    + destruct Hl as [Hn Hh]. split; [done|]. destruct Hhandle as [->|Hat]; [done|]. specialize (Hun Hat Hs). rewrite Hn in Hun. set_solver.
    + destruct Hl as [Hn Hh]. split; [done|]. destruct Hhandle as [->|Hat]; [done|]. specialize (Hun Hat Hs). rewrite Hn in Hun. set_solver.
    + destruct Hl as [Hin Hp]. split; [done|]. intros j Hj Hne. apply preempts_run; [done|].
      destruct (Hp j Hj Hne) as (?&?&?&?). rewrite <- Ecalls in *. eexists _, _. split_and!; naive_solver.
  - cbn. rewrite Esig. intros Hs j d Hj Hset. rewrite Ecalls in Hj.
    assert (i < length (rs_calls s))%nat by (eapply lookup_lt_Some; eauto).
    destruct (decide (i = j)) as [<-|].
    + rewrite list_lookup_insert_eq in Hj by done. simplify_eq. destruct Hrun as [Hat|]; [|done].
      rewrite (Hd Hs i c Hc) in Hat; done.
    + rewrite list_lookup_insert_ne in Hj by done. eauto.
Qed.

Ltac run_exclusive Hok Hc :=
  eapply (exclusive_run _ _ _ _ _ Hok Hc); cbn; try done; first [by right | by left | by (left; unfold attaching; cbn; case_match) | apply Hok | idtac].

Lemma answer_exclusive s i a s' : exclusive_ok s → answer s i a = Some s' → exclusive_ok s'.
Proof.
  intros Hok H. unfold answer in H. destruct (rs_calls s !! i) as [c|] eqn:Hc; [|done].
  assert (Hb := ex_bound _ Hok). unfold acquired, assertNotDisposedAfterAwait, detach_next in H.
  destruct c as [o pre prev run st]; cbn in H.
  repeat case_match; simplify_eq/=; run_exclusive Hok Hc.
Qed.

Lemma continue_exclusive s i snapshot s' : exclusive_ok s → continue s i snapshot = Some s' → exclusive_ok s'.
Proof.
  intros Hok H. unfold continue in H. destruct (rs_calls s !! i) as [c|] eqn:Hc; [|done].
  assert (Hb := ex_bound _ Hok). unfold prepared, bind_lease, assertNotDisposedAfterAwait, detach_next in H.
  destruct c as [o pre prev run st]; cbn in H.
  repeat case_match; simplify_eq/=; run_exclusive Hok Hc.
  all: split; cbn; [congruence|done].
Qed.

(** A call may start when no other is active, or as an abort of the only active submission. *)
Definition may_start (s : RemoteSession) (o : RemoteSessionOperation) (preempt : bool) : Prop :=
  rs_active s = [] ∨
  (o = op_abort ∧ preempt = true ∧ ∃ j d, rs_lifecycle s = busy j ∧ rs_calls s !! j = Some d ∧ k_operation d = op_submit ∧ ∀ k, k ∈ rs_active s → k = j).

Lemma runOperation_exclusive s o run preempt :
  exclusive_ok s → (rs_signal s = false → may_start s o preempt) → exclusive_ok (runOperation s o run preempt).
Proof.
  intros [Ha Hl Hd Hb] Hmay. unfold runOperation. split; cbn; [| | |done].
  - intros j. rewrite elem_of_app, list_elem_of_singleton, Ha. unfold unsettled; cbn. split.
    + intros [(c&Hc&?)| ->]; [exists c; split; [by apply lookup_app_l_Some|done]|]. eexists. by rewrite list_lookup_middle.
    + intros (c&Hc&Hs). apply lookup_app_Some in Hc as [Hc|[Hlen Hc]]; [eauto|]. right.
      apply lookup_lt_Some in Hc. cbn in Hc. lia.
  - intros Hs. unfold lifecycle_ok; cbn. split; [set_solver|]. intros j Hj Hne.
    apply elem_of_app in Hj as [Hj|Hj]; [|set_solver].
    destruct (Hmay Hs) as [E|(-> & -> & j' & d & E & Hd' & Ho & Honly)]; [rewrite E in Hj; set_solver|].
    apply Honly in Hj as ->. eexists _, d. cbn. rewrite list_lookup_middle by done. split_and!; try done.
    + by apply lookup_app_l_Some.
    + by eapply lookup_lt_Some.
  - intros Hs j c Hc Hset. apply lookup_app_Some in Hc as [Hc|[Hlen Hc]]; [by eapply Hd|].
    apply list_lookup_singleton_Some in Hc as [_ <-]. by destruct Hset.
Qed.

Lemma available_active s : exclusive_ok s → rs_signal s = false → is_disposed s || is_busy s = false → rs_active s = [].
Proof.
  intros Hok Hs H. apply orb_false_iff in H as [_ Hb]. pose proof (ex_lifecycle _ Hok Hs) as Hl.
  unfold lifecycle_ok, is_busy in *. destruct (rs_lifecycle s); naive_solver.
Qed.

Lemma busy_submit_alone s : exclusive_ok s → rs_signal s = false → busy_with s = Some op_submit → may_start s op_abort true.
Proof.
  intros Hok Hs H. pose proof (ex_lifecycle _ Hok Hs) as Hl. unfold busy_with, lifecycle_ok in *.
  destruct (rs_lifecycle s) as [| |j|] eqn:E; try done. apply fmap_Some in H as (d&Hd&Ho). destruct Hl as [Hj Hp].
  right. split_and!; [done..|]. exists j, d. split_and!; [done..|]. intros k Hk. destruct (decide (k = j)); [done|].
  destruct (Hp k Hk ltac:(done)) as (c&?&Hc&?&_). congruence.
Qed.

Lemma request_exclusive s q : exclusive_ok s → exclusive_ok (request s q).1.
Proof.
  intros Hok. assert (Hfree : ∀ o run, is_disposed s || is_busy s = false → exclusive_ok (runOperation s o run false)).
  { intros. apply runOperation_exclusive; [done|]. left. by apply available_active. }
  unfold request, replace, runIdleOperation. destruct q; repeat case_match; cbn; auto.
  apply runOperation_exclusive; [done|]. intros Hs. case_bool_decide as Hb; [by apply busy_submit_alone|].
  left. apply available_active; [done..|]. rewrite andb_true_r in *. done.
Qed.

(** Call [i], unsettled, is settled. *)
Definition settled_call (s : RemoteSession) (i : nat) (c : OperationCall) (r : result error unit) : RemoteSession :=
  set_active (set_calls s (<[i := mkCall (k_operation c) (k_preempt c) (k_previous c) (k_running c) (Some r)]> (rs_calls s)))
    (filter (λ j, j ≠ i) (rs_active s)).

Definition settled_lifecycle (s : RemoteSession) (c : OperationCall) : RemoteSessionLifecycle :=
  match k_previous c with
  | busy j => if k_preempt c && bool_decide (j ∈ rs_active s) then busy j else if rs_handle s then ready else unbound
  | _ => if rs_handle s then ready else unbound
  end.

Lemma settle_inv s i by_signal s' :
  settle s i by_signal = Some s' →
  ∃ c r, rs_calls s !! i = Some c ∧ k_settled c = None ∧ race s c by_signal = Some r ∧
    let t := settled_call s i c r in
    s' = if negb (is_disposed t) && bool_decide (rs_lifecycle t = busy i) then notify (set_lifecycle t (settled_lifecycle t c)) else t.
Proof.
  unfold settle. destruct (rs_calls s !! i) as [[o pre prev run [r0|]]|]; try done.
  destruct (race _ _ _) as [r|] eqn:Hr; [|done]. intros H. eexists _, r. split_and!; [done..|].
  unfold settled_lifecycle, settled_call, is_disposed in *. cbn in *. by destruct (_ && _); simplify_eq.
Qed.

Lemma settled_unsettled s i c r j : rs_calls s !! i = Some c → unsettled (settled_call s i c r) j ↔ unsettled s j ∧ j ≠ i.
Proof.
  intros Hc. assert (i < length (rs_calls s))%nat by (eapply lookup_lt_Some; eauto).
  unfold unsettled; cbn. destruct (decide (i = j)) as [<-|].
  - rewrite list_lookup_insert_eq by done. naive_solver.
  - rewrite list_lookup_insert_ne by done. naive_solver.
Qed.

Lemma settled_preempts s i c r a b : rs_calls s !! i = Some c → preempts s a b → preempts (settled_call s i c r) a b.
Proof.
  intros Hc (d&e&Hd&?&?&?&He&?&?). assert (i < length (rs_calls s))%nat by (eapply lookup_lt_Some; eauto).
  set (c' := mkCall (k_operation c) (k_preempt c) (k_previous c) (k_running c) (Some r)).
  exists (if decide (i = a) then c' else d), (if decide (i = b) then c' else e). cbn.
  split_and!; repeat case_decide; simplify_eq; cbn; auto using list_lookup_insert_eq; by rewrite list_lookup_insert_ne.
Qed.

(** The last active call leaves a free session. *)
Lemma settled_free s i c : exclusive_ok s → rs_signal s = false → rs_lifecycle s = busy i → rs_calls s !! i = Some c →
  (∀ j, k_previous c = busy j → k_preempt c = true → j ∈ rs_active s → j = i) → filter (λ j, j ≠ i) (rs_active s) = [].
Proof.
  intros Hok Hs Hl Hc Hprev. pose proof (ex_lifecycle _ Hok Hs) as H. unfold lifecycle_ok in H. rewrite Hl in H. destruct H as [_ Hp].
  apply elem_of_nil_inv. intros j Hj. apply list_elem_of_filter in Hj as [Hne Hj].
  destruct (Hp j Hj Hne) as (c'&d&Hc'&_&Hpre&Hprev'&_). simplify_eq. by apply Hne, Hprev.
Qed.

Lemma settled_lifecycle_ok s i c r : exclusive_ok s → rs_signal s = false → rs_calls s !! i = Some c → rs_lifecycle s = busy i →
  lifecycle_ok (set_lifecycle (settled_call s i c r) (settled_lifecycle (settled_call s i c r) c)).
Proof.
  intros Hok Hs Hc Hl. pose proof (settled_free s i c Hok Hs Hl Hc) as Hfree.
  assert (Hend : filter (λ j, j ≠ i) (rs_active s) = [] → lifecycle_ok (set_lifecycle (settled_call s i c r) (if rs_handle s then ready else unbound))).
  { intros E. unfold lifecycle_ok; cbn. destruct (rs_handle s); rewrite E; eauto. }
  unfold settled_lifecycle. destruct (k_previous c) as [| |j|] eqn:Eprev; try (apply Hend, Hfree; congruence).
  cbn. destruct (k_preempt c) eqn:Epre; cbn; [|apply Hend, Hfree; congruence].
  case_bool_decide as Hj.
  - unfold lifecycle_ok; cbn. split; [done|]. intros k Hk Hne. apply list_elem_of_filter in Hk as [Hki Hk].
    pose proof (ex_lifecycle _ Hok Hs) as H. unfold lifecycle_ok in H. rewrite Hl in H. destruct H as [_ Hp].
    destruct (Hp k Hk Hki) as (c'&d&Hc'&_&_&Hprev'&_). congruence.
  - apply Hend, Hfree. intros j' Ej' _ Hj'. simplify_eq. destruct (decide (j' = i)); [done|].
    exfalso. apply Hj, list_elem_of_filter; done.
Qed.

Lemma settle_exclusive s i by_signal s' : exclusive_ok s → settle s i by_signal = Some s' → exclusive_ok s'.
Proof.
  intros Hok H. apply settle_inv in H as (c&r&Hc&Hset&Hrace&E). pose proof Hok as [Ha Hl Hd Hb].
  assert (Hi : (i < length (rs_calls s))%nat) by (eapply lookup_lt_Some; eauto).
  assert (Hact : ∀ j, j ∈ filter (λ j, j ≠ i) (rs_active s) ↔ unsettled (settled_call s i c r) j).
  { intros j. rewrite settled_unsettled, list_elem_of_filter, Ha by done. naive_solver. }
  assert (Hdone : rs_signal s = false → ∀ j d, rs_calls (settled_call s i c r) !! j = Some d → is_Some (k_settled d) → attaching d = false).
  { intros Hs j d. cbn. destruct (decide (i = j)) as [<-|]; [|rewrite list_lookup_insert_ne by done; by apply Hd].
    rewrite list_lookup_insert_eq by done. intros [= <-] _. unfold race in Hrace. destruct by_signal; [by rewrite Hs in Hrace|].
    unfold attaching; cbn. by destruct (k_running c). }
  cbn zeta in E. destruct (negb _ && _) eqn:Ebusy; subst s'; split; cbn; try done.
  - intros Hs. apply andb_true_iff in Ebusy as [_ Ebusy%bool_decide_eq_true]. by apply settled_lifecycle_ok.
  - intros Hs. specialize (Hl Hs). unfold is_disposed, lifecycle_ok in *. cbn in *.
    destruct (rs_lifecycle s) as [| |b|] eqn:El; cbn in *; try done.
    + destruct Hl as [-> ?]. done.
    + destruct Hl as [-> ?]. done.
    + destruct Hl as [Hb1 Hp]. assert (b ≠ i) by (intros ->; case_bool_decide; [done|]; rewrite bool_decide_true in Ebusy; done).
      split; [by apply list_elem_of_filter|]. intros j [_ Hj]%list_elem_of_filter Hne. apply settled_preempts; auto.
Qed.

Lemma dispose_exclusive s throws : exclusive_ok s → exclusive_ok (dispose s throws).1.
Proof.
  intros [Ha Hl Hd Hb]. unfold dispose. repeat case_match; cbn; first [by split|split; [exact Ha|by cbn|by cbn|by split; cbn]].
Qed.

(** Losing a lease and hearing of the session change none of this, removal apart. *)
Lemma rebound_exclusive s h t sub : exclusive_ok s → is_Some h ↔ is_Some (rs_handle s) → bound_ok (set_binding s h t sub) →
  exclusive_ok (set_binding s h t sub).
Proof.
  intros [Ha Hl Hd _] Hh Hb. split; cbn; [done| |done|done]. intros Hs. specialize (Hl Hs). unfold lifecycle_ok in *. cbn.
  destruct (rs_lifecycle s); [|naive_solver|done..]. destruct Hl as [? E]. split; [done|].
  rewrite E in Hh. destruct h; [|done]. destruct Hh as [[? ?] _]; [eauto|done].
Qed.

Lemma heard_exclusive s t : exclusive_ok s → is_Some (rs_transcript s) → exclusive_ok (set_binding s (rs_handle s) (Some t) (rs_subscribed s)).
Proof. intros Hok Ht. apply rebound_exclusive; [done..|]. destruct (ex_bound _ Hok) as [Hs Hb]. split; cbn; [done|]. naive_solver. Qed.

Lemma removed_exclusive s id : exclusive_ok s → exclusive_ok (handleEvent JSON_parse s (session_removed id)).
Proof.
  intros [Ha Hl Hd Hb]. unfold handleEvent; cbn.
  change (is_busy (set_binding s None None None)) with (is_busy s).
  destruct (is_busy s) eqn:E; (split; [exact Ha| |exact Hd|by split; cbn]); cbn; intros Hs; specialize (Hl Hs);
    unfold lifecycle_ok, is_busy in *; cbn in *; destruct (rs_lifecycle s); naive_solver.
Qed.

Lemma step_exclusive s x s' : exclusive_ok s → step JSON_parse s x = Some s' → exclusive_ok s'.
Proof.
  intros Hok H. destruct x as [q|i a|i sn|i b|th|n|next|ev]; cbn in H.
  - simplify_eq. by apply request_exclusive.
  - by eapply answer_exclusive.
  - by eapply continue_exclusive.
  - by eapply settle_exclusive.
  - simplify_eq. by apply dispose_exclusive.
  - simplify_eq. by destruct Hok.
  - destruct (rs_subscribed s); [|done]; cbn in H. case_match; [|done]. simplify_eq. unfold snapshot_listener.
    destruct (rs_transcript s) eqn:E; [|done]. pose proof (heard_exclusive s (applyTranscriptSnapshot t next) Hok ltac:(by rewrite E)) as H'. by destruct H'.
  - destruct (rs_subscribed s); [|by destruct ev]; cbn in H.
    destruct ev as [|?|? pr|id]; cbn in H; try (case_match; [|done]); simplify_eq; cbn; try done.
    + destruct (rs_transcript s) eqn:E; [|done].
      pose proof (heard_exclusive s (applyTranscriptProgress JSON_parse t pr) Hok ltac:(by rewrite E)) as H'. by destruct H'.
    + apply (removed_exclusive _ id). by destruct Hok.
Qed.

Lemma new_exclusive : exclusive_ok new_RemoteSession.
Proof. split; [|done..|by split; cbn]. intros j. unfold unsettled; cbn. split; [set_solver|naive_solver]. Qed.

Lemma reaches_exclusive allowed s : reaches JSON_parse allowed s → exclusive_ok s.
Proof. induction 1; eauto using new_exclusive, step_exclusive. Qed.

Lemma active_pair s i j : exclusive_ok s → rs_signal s = false → i ∈ rs_active s → j ∈ rs_active s → (i < j)%nat → preempts s j i.
Proof.
  intros Hok Hs Hi Hj Hlt. pose proof (ex_lifecycle _ Hok Hs) as Hl. unfold lifecycle_ok in Hl.
  destruct (rs_lifecycle s) as [| |b|]; try (destruct Hl as [E _]; rewrite E in Hi; set_solver); [|done].
  destruct Hl as [_ Hp]. destruct (decide (j = b)) as [->|Hjb]; [apply Hp; [done|lia]|].
  destruct (decide (i = b)) as [->|Hib].
  - destruct (Hp j Hj Hjb) as (?&?&?&?&?&?&?&?&?). lia.
  - destruct (Hp j Hj Hjb) as (?&?&?&?&?&?&?), (Hp i Hi Hib) as (?&?&?&?&?&?&?). assert (busy j = busy i) by congruence. simplify_eq. lia.
Qed.

(** C31: Until it is disposed, a remote session runs one operation at a time: of two calls
    that have not settled the earlier is a submission and the later the abort that
    preempts it, whatever the order in which requests, answers, checks and events come.
    It shows busy exactly while some call has not settled; otherwise it is ready when it
    has a handle and unbound when it has none, and it only listens to its handle. *)
Theorem operations_exclusive allowed s :
  reaches JSON_parse allowed s → rs_signal s = false →
  (∀ i j, unsettled s i → unsettled s j → (i < j)%nat → preempts s j i) ∧
  ((∃ i, rs_lifecycle s = busy i ∧ unsettled s i) ∨ (∀ i, ¬ unsettled s i) ∧ rs_lifecycle s = if rs_handle s then ready else unbound) ∧
  bound_ok s.
Proof.
  intros Hr Hs. pose proof (reaches_exclusive _ _ Hr) as Hok. pose proof Hok as [Ha Hl _ Hb]. specialize (Hl Hs). split_and!; [| |done].
  - intros i j Hi Hj. apply active_pair; [done..| |]; by apply Ha.
  - unfold lifecycle_ok in Hl. destruct (rs_lifecycle s) as [| |b|]; [right|right|left; exists b; split; [done|by apply Ha; apply Hl]|done];
      destruct Hl as [E Hh]; (split; [intros i Hi; apply Ha in Hi; rewrite E in Hi; set_solver|]); [by rewrite Hh|by destruct Hh as [? ->]].
Qed.
End exclusive.

(** ** No lease is left behind *)

Definition handle_is (s : RemoteSession) (P : nat → Prop) : Prop := ∀ h, rs_handle s = Some h → P h.

Definition lease_exists (s : RemoteSession) (n : nat) : Prop := (n < length (rs_leases s))%nat.

(** The session to be replaced is still the one bound, unless it was lost or removed. *)
Definition previous_ok (s : RemoteSession) (previous : option nat) : Prop :=
  handle_is s (λ h, previous = Some h) ∧ ∀ p, previous = Some p → lease_exists s p ∧ (attached s p → rs_handle s = Some p).

(** What holds at each stage of a call that attaches. *)
Definition stage_ok (s : RemoteSession) (r : Running) : Prop :=
  match r with
  | Preparing previous => previous_ok s previous
  | CheckedFirst previous next => lease_exists s next ∧ previous_ok s previous
  | DetachingPrevious p next _ =>
      rs_signal s = false ∧ lease_exists s next ∧ handle_is s (λ h, h = p) ∧ ¬ attached s p ∧ (lease_at s p releasing → rs_handle s = Some p)
  | CheckedLast next _ => rs_signal s = false ∧ lease_exists s next ∧ handle_is s (λ h, attached s h → h = next)
  | Reconnecting id | Acquiring id => handle_is s (λ h, lease_id s h = Some id)
  | CheckedReconnect next => rs_signal s = false ∧ lease_exists s next ∧ handle_is s (λ h, lease_id s h = lease_id s next)
  | Requesting _ _ | Detaching _ _ _ | Done _ => True
  end.

(** The call holds the lease and will bind or release it. *)
Definition holds (r : Running) (n : nat) : bool :=
  match r with
  | CheckedFirst _ next | DetachingPrevious _ next _ | CheckedLast next _ | CheckedReconnect next => bool_decide (n = next)
  | _ => false
  end.

Definition ids_ok (s : RemoteSession) : Prop :=
  ∀ n m, lease_exists s n → lease_exists s m → ¬ lease_at s n gone → ¬ lease_at s m gone → lease_id s n = lease_id s m → n = m.

Definition signal_ok (s : RemoteSession) : Prop :=
  if rs_signal s then rs_lifecycle s = disposed ∧ rs_handle s = None else rs_lifecycle s ≠ disposed.

Record lease_ok (s : RemoteSession) : Prop := {
  le_ids : ids_ok s;
  le_handle : handle_is s (lease_exists s);
  le_solo : ∀ i j c d, rs_calls s !! i = Some c → rs_calls s !! j = Some d → attaching c = true → attaching d = true → i = j;
  le_stage : ∀ i c, rs_calls s !! i = Some c → stage_ok s (k_running c);
  le_signal : signal_ok s;
  le_held : ∀ n, attached s n → rs_handle s = Some n ∨ ∃ i c, rs_calls s !! i = Some c ∧ holds (k_running c) n }.

(** A disposal that comes while no call has passed its last check or is detaching the
    session it replaces. *)
Definition settled_stage (c : OperationCall) : bool :=
  match k_running c with CheckedLast _ _ | CheckedReconnect _ | DetachingPrevious _ _ _ => false | _ => true end.
Definition disposal_safe (s : RemoteSession) (x : Step) : Prop :=
  match x with Dispose _ => forallb settled_stage (rs_calls s) = true | _ => True end.

Section leases.
Context (JSON_parse : jsstr → option tree).

(** *** Moving a lease *)

Lemma lease_at_move s n f m st : lease_at (move_lease s n f) m st ↔
  ∃ st0, lease_at s m st0 ∧ st = if decide (n = m) then f st0 else st0.
Proof.
  unfold lease_at, move_lease; cbn. rewrite !bool_decide_spec. setoid_rewrite bool_decide_spec. destruct (decide (n = m)) as [<-|].
  - rewrite list_lookup_alter_eq. destruct (rs_leases s !! n); cbn; naive_solver.
  - rewrite list_lookup_alter_ne by done. naive_solver.
Qed.

Lemma lease_id_move s n f m : lease_id (move_lease s n f) m = lease_id s m.
Proof.
  unfold lease_id, move_lease; cbn. destruct (decide (n = m)) as [<-|].
  - rewrite list_lookup_alter_eq. by destruct (rs_leases s !! n).
  - by rewrite list_lookup_alter_ne.
Qed.

Lemma lease_exists_move s n f m : lease_exists (move_lease s n f) m ↔ lease_exists s m.
Proof. unfold lease_exists, move_lease; cbn. by rewrite length_alter. Qed.

Lemma lease_at_unique s n a b : lease_at s n a → lease_at s n b → a = b.
Proof. unfold lease_at. rewrite !bool_decide_spec. congruence. Qed.

Lemma lease_at_exists s n st : lease_at s n st → lease_exists s n.
Proof. unfold lease_at. rewrite bool_decide_spec. intros (l&?&?)%fmap_Some. by eapply lookup_lt_Some. Qed.

Lemma exists_lease_at s n : lease_exists s n → ∃ st, lease_at s n st.
Proof. intros [l E]%lookup_lt_is_Some. exists (l_state l). unfold lease_at. rewrite E. by apply bool_decide_spec. Qed.

(** Identifiers stay unique when nothing gone comes back. *)
Lemma ids_move s n f : f gone = gone → ids_ok s → ids_ok (move_lease s n f).
Proof.
  intros Hf Hids a b. rewrite !lease_exists_move, !lease_id_move. intros Ha Hb Hna Hnb. apply Hids; [done..| |];
    intros Hg; [apply Hna|apply Hnb]; apply lease_at_move; exists gone; (split; [done|]); by case_decide.
Qed.

Lemma lose_at s n m st : lease_at (lose s n) m st → lease_at s m st ∧ m ≠ n ∨ m = n ∧ st = gone.
Proof. intros (st0&H&->)%lease_at_move. destruct (decide (n = m)); naive_solver. Qed.

Lemma lose_attached s n m : attached (lose s n) m → attached s m ∧ m ≠ n.
Proof. intros [?|[_ ?]]%lose_at; done. Qed.

Lemma release_attached s n m : attached (release s n) m → attached s m ∧ m ≠ n.
Proof. intros (st0&H&E)%lease_at_move. destruct (decide (n = m)); [by destruct st0|]. subst. naive_solver. Qed.

Lemma restore_attached s n m : attached (restore s n) m → attached s m ∨ m = n ∧ lease_at s n releasing.
Proof. intros (st0&H&E)%lease_at_move. destruct (decide (n = m)); [destruct st0|]; naive_solver. Qed.

(** *** A call that attaches goes on *)

Lemma holds_attaching c n : holds (k_running c) n → attaching c = true.
Proof. unfold attaching. by destruct (k_running c). Qed.

Lemma held_at s i c n : lease_ok s → rs_calls s !! i = Some c → attaching c = true → attached s n →
  rs_handle s = Some n ∨ holds (k_running c) n.
Proof.
  intros Hok Hc Hat Hn. destruct (le_held _ Hok n Hn) as [?|(j&d&Hd&Hh)]; [by left|right].
  rewrite (le_solo _ Hok i j c d) in Hc; [congruence|done..|by eapply holds_attaching].
Qed.

Lemma lease_run s s0 i c r :
  lease_ok s → rs_calls s !! i = Some c → attaching c = true → rs_calls s0 = rs_calls s →
  ids_ok s0 → handle_is s0 (lease_exists s0) → stage_ok s0 r → signal_ok s0 →
  (∀ n, attached s0 n → rs_handle s0 = Some n ∨ holds r n) → lease_ok (run_to s0 i c r).
Proof.
  intros Hok Hc Hat Ecalls Hids Hhandle Hstage Hsig Hheld.
  assert (Hi : (i < length (rs_calls s))%nat) by (eapply lookup_lt_Some; eauto).
  assert (Hother : ∀ j d, j ≠ i → rs_calls s !! j = Some d → attaching d = false).
  { intros j d Hne Hd. destruct (attaching d) eqn:E; [|done]. destruct Hne. by eapply (le_solo _ Hok). }
  assert (Hcalls : ∀ j d, rs_calls (run_to s0 i c r) !! j = Some d → j = i ∧ d = running c r ∨ attaching d = false).
  { intros j d. cbn. rewrite Ecalls. destruct (decide (i = j)) as [<-|].
    - rewrite list_lookup_insert_eq by done. naive_solver.
    - rewrite list_lookup_insert_ne by done. eauto. }
  split; [done|done| | |done|].
  - intros j k d e Hd He Hatd Hate. destruct (Hcalls _ _ Hd) as [[-> _]|?], (Hcalls _ _ He) as [[-> _]|?]; congruence.
  - intros j d Hd. destruct (Hcalls _ _ Hd) as [[-> ->]|H]; [done|]. unfold attaching in H. by destruct (k_running d).
  - intros n Hn. destruct (Hheld n Hn) as [|Hh]; [by left|right]. exists i, (running c r). cbn. rewrite Ecalls.
    by rewrite list_lookup_insert_eq.
Qed.

Lemma handle_exists_move s n f : handle_is s (lease_exists s) → handle_is (move_lease s n f) (lease_exists (move_lease s n f)).
Proof. intros H h Hh. apply lease_exists_move. by apply H. Qed.

Lemma detach_lease s s0 i c next e b :
  lease_ok s → rs_calls s !! i = Some c → attaching c = true → rs_calls s0 = rs_calls s →
  ids_ok s0 → handle_is s0 (lease_exists s0) → signal_ok s0 →
  (∀ n, attached s0 n → rs_handle s0 = Some n ∨ n = next) → lease_ok (detach_next s0 i c next e b).
Proof.
  intros Hok Hc Hat Ecalls Hids Hh Hsig Hheld. unfold detach_next. apply (lease_run s); try done.
  - by apply ids_move.
  - by apply handle_exists_move.
  - intros n [Hn ?]%release_attached. destruct (Hheld n Hn); [by left|done].
Qed.

Lemma assert_lease s s0 i c next go_on :
  lease_ok s → rs_calls s !! i = Some c → attaching c = true → rs_calls s0 = rs_calls s →
  ids_ok s0 → handle_is s0 (lease_exists s0) → signal_ok s0 → (rs_signal s0 = false → stage_ok s0 go_on) → holds go_on next →
  (∀ n, attached s0 n → rs_handle s0 = Some n ∨ n = next) → lease_ok (assertNotDisposedAfterAwait s0 i c next go_on).
Proof.
  intros Hok Hc Hat Ecalls Hids Hh Hsig Hst Hgo Hheld. unfold assertNotDisposedAfterAwait.
  destruct (is_disposed s0) eqn:E; [by apply (detach_lease s)|]. apply (lease_run s); try done.
  - apply Hst. unfold signal_ok, is_disposed in *. destruct (rs_signal s0); [|done]. destruct Hsig as [Hd _]. by rewrite Hd in E.
  - intros n Hn. destruct (Hheld n Hn) as [| ->]; auto.
Qed.

(** A new lease is handed out. *)
Definition with_lease (s : RemoteSession) (id : jsstr) : RemoteSession := set_leases s (rs_leases s ++ [mkLease id active]).

Lemma with_lease_at s id n st : lease_at (with_lease s id) n st → lease_at s n st ∨ n = length (rs_leases s) ∧ st = active.
Proof.
  unfold lease_at, with_lease; cbn. rewrite !bool_decide_spec. intros (l&Hl&->)%fmap_Some.
  apply lookup_app_Some in Hl as [Hl|[? Hl]]; [left; by rewrite Hl|right].
  apply list_lookup_singleton_Some in Hl as [? <-]. split; [lia|done].
Qed.

Lemma with_lease_old s id n : lease_exists s n → lease_id (with_lease s id) n = lease_id s n ∧ ∀ st, lease_at (with_lease s id) n st ↔ lease_at s n st.
Proof. intros H. unfold lease_id, lease_at, with_lease; cbn. rewrite lookup_app_l by done. done. Qed.

Lemma with_lease_exists s id n : lease_exists s n → lease_exists (with_lease s id) n.
Proof. unfold lease_exists, with_lease; cbn. rewrite length_app; cbn. lia. Qed.

Lemma with_lease_new s id : lease_exists (with_lease s id) (length (rs_leases s)) ∧ lease_id (with_lease s id) (length (rs_leases s)) = Some id.
Proof.
  unfold lease_exists, lease_id, with_lease; cbn. rewrite length_app, list_lookup_middle by done. split; [cbn; lia|done].
Qed.

Lemma exclusive_id s id n : exclusive s id = true → lease_exists s n → ¬ lease_at s n gone → lease_id s n ≠ Some id.
Proof.
  unfold exclusive, lease_exists, lease_at, lease_id. rewrite forallb_forall. intros H [l Hl]%lookup_lt_is_Some Hg E.
  specialize (H l ltac:(apply list_elem_of_In; by eapply list_elem_of_lookup_2)). rewrite Hl in *; cbn in *. simplify_eq.
  apply orb_true_iff in H as [H|H]; [apply bool_decide_eq_true in H|by rewrite bool_decide_true in H].
  apply Hg. rewrite H. by apply bool_decide_spec.
Qed.

Lemma with_lease_ids s id : exclusive s id = true → ids_ok s → ids_ok (with_lease s id).
Proof.
  intros Hex Hids n m Hn Hm Hgn Hgm E.
  assert (Hold : ∀ k, lease_exists (with_lease s id) k → lease_exists s k ∨ k = length (rs_leases s)).
  { unfold lease_exists, with_lease; cbn. intros k. rewrite length_app; cbn. lia. }
  pose proof (with_lease_new s id) as [_ Hnew].
  assert (Hfresh : ∀ k, lease_exists s k → ¬ lease_at (with_lease s id) k gone → lease_id (with_lease s id) k = Some id → False).
  { intros k Hk Hg. destruct (with_lease_old s id k Hk) as [-> Hat]. rewrite Hat in Hg. by apply exclusive_id. }
  destruct (Hold n Hn) as [Hn'| ->], (Hold m Hm) as [Hm'| ->]; [| | |done].
  - destruct (with_lease_old s id n Hn') as [E1 A1], (with_lease_old s id m Hm') as [E2 A2]. rewrite E1, E2 in E. rewrite A1 in Hgn. rewrite A2 in Hgm. by apply Hids.
  - destruct (Hfresh n); [done..|congruence].
  - destruct (Hfresh m); [done..|congruence].
Qed.

Lemma acquired_lease s i c id go_on s' :
  lease_ok s → rs_calls s !! i = Some c → attaching c = true → holds (go_on (length (rs_leases s))) (length (rs_leases s)) →
  (rs_signal s = false → stage_ok (with_lease s id) (go_on (length (rs_leases s)))) → (∀ n, ¬ holds (k_running c) n) →
  acquired s i c id go_on = Some s' → lease_ok s'.
Proof.
  intros Hok Hc Hat Hgo Hst Hno H. unfold acquired in H. destruct (exclusive s id) eqn:Hex; [|done]. simplify_eq.
  apply (assert_lease s); try done.
  - by apply with_lease_ids, Hok.
  - intros h Hh. by apply with_lease_exists, (le_handle _ Hok).
  - apply Hok.
  - intros n [Hn|[-> _]]%with_lease_at; [|by right]. left. destruct (held_at _ _ _ _ Hok Hc Hat Hn) as [|Hh]; [done|]. by destruct (Hno n).
Qed.

(** A request that is answered, or a call that ends and held nothing. *)
Lemma answered_lease s i c r : lease_ok s → rs_calls s !! i = Some c → attaching c = false → attaching (running c r) = false → lease_ok (run_to s i c r).
Proof.
  intros Hok Hc Hat Hr. assert (Hi : (i < length (rs_calls s))%nat) by (eapply lookup_lt_Some; eauto).
  assert (Hcalls : ∀ j d, rs_calls (run_to s i c r) !! j = Some d → d = running c r ∨ j ≠ i ∧ rs_calls s !! j = Some d).
  { intros j d. cbn. destruct (decide (i = j)) as [<-|].
    - rewrite list_lookup_insert_eq by done. naive_solver.
    - rewrite list_lookup_insert_ne by done. eauto. }
  split; [apply Hok|apply Hok| | |apply Hok|].
  - intros j k d e Hd He Hatd Hate. destruct (Hcalls _ _ Hd) as [->|[_ ?]], (Hcalls _ _ He) as [->|[_ ?]]; [congruence..|]. by eapply (le_solo _ Hok).
  - intros j d Hd. destruct (Hcalls _ _ Hd) as [->|[_ H]]; [unfold attaching in Hr; by destruct r|]. by apply (le_stage _ Hok) in H.
  - intros n Hn. destruct (le_held _ Hok n Hn) as [|(j&d&Hd&Hh)]; [by left|right]. exists j, d. cbn. split; [|done].
    rewrite list_lookup_insert_ne; [done|]. intros <-. simplify_eq. apply holds_attaching in Hh. congruence.
Qed.

Lemma ended_lease s s0 i c r : lease_ok s → rs_calls s !! i = Some c → attaching c = true → rs_calls s0 = rs_calls s →
  ids_ok s0 → handle_is s0 (lease_exists s0) → signal_ok s0 → (∀ n, attached s0 n → rs_handle s0 = Some n) → lease_ok (run_to s0 i c (Done r)).
Proof. intros. apply (lease_run s); eauto. done. Qed.

Lemma previous_with_lease s id previous : handle_is s (lease_exists s) → previous_ok s previous → previous_ok (with_lease s id) previous.
Proof.
  intros Hh [H1 H2]. split; [done|]. intros p E. destruct (H2 p E) as [He Ha]. split; [by apply with_lease_exists|].
  unfold attached. by rewrite (proj2 (with_lease_old s id p He) active).
Qed.

Lemma answer_lease s i a s' : lease_ok s → answer s i a = Some s' → lease_ok s'.
Proof.
  intros Hok H. unfold answer in H. destruct (rs_calls s !! i) as [c|] eqn:Hc; [|done].
  pose proof (le_stage _ Hok _ _ Hc) as Hst. pose proof Hok as [Hids Hh _ _ Hsig _].
  assert (Hheld : attaching c = true → ∀ n, attached s n → rs_handle s = Some n ∨ holds (k_running c) n) by eauto using held_at.
  destruct c as [o pre prev run st]. cbn in H, Hst, Hheld.
  destruct run as [h q|p|p next|p next sn|next sn|next e b|id|id|next|r]; cbn in Hst, Hheld; destruct a as [|e'|id']; try done.
  - simplify_eq. by apply answered_lease.
  - simplify_eq. by apply answered_lease.
  - simplify_eq. apply (ended_lease s); try done. intros n Hn. by destruct (Hheld eq_refl n Hn).
  - apply (acquired_lease s i _ id' (CheckedFirst p) s' Hok Hc); [done|by apply bool_decide_spec| |by intros ? []|exact H].
    intros _. split; [apply with_lease_new|]. by apply previous_with_lease.
  - simplify_eq. destruct Hst as (Hs&He&Hhp&Hna&Hre). apply (assert_lease s); try done.
    + by apply ids_move.
    + by apply handle_exists_move.
    + intros _. cbn. split_and!; [done|by apply lease_exists_move|]. intros x Hx Hax. apply lose_attached in Hax as [_ []]. by apply Hhp.
    + by apply bool_decide_spec.
    + intros n [Hn _]%lose_attached. destruct (Hheld eq_refl n Hn) as [|?%bool_decide_spec]; auto.
  - simplify_eq. destruct Hst as (Hs&He&Hhp&Hna&Hre). apply (detach_lease s); try done.
    + by apply ids_move.
    + by apply handle_exists_move.
    + intros n [Hn|[-> Hn]]%restore_attached; [|by left; apply Hre]. destruct (Hheld eq_refl n Hn) as [|?%bool_decide_spec]; auto.
  - simplify_eq. apply (ended_lease s); try done; [by apply ids_move|by apply handle_exists_move|].
    intros n [Hn _]%lose_attached. by destruct (Hheld eq_refl n Hn).
  - simplify_eq. apply (ended_lease s); try done; [by apply ids_move|by apply handle_exists_move|].
    intros n [Hn _]%lose_attached. by destruct (Hheld eq_refl n Hn).
  - simplify_eq. apply (lease_run s); try done. intros n Hn. by destruct (Hheld eq_refl n Hn); [left|].
  - simplify_eq. apply (ended_lease s); try done. intros n Hn. by destruct (Hheld eq_refl n Hn).
  - simplify_eq. apply (ended_lease s); try done. intros n Hn. by destruct (Hheld eq_refl n Hn).
  - case_bool_decide; [subst id'|done]. apply (acquired_lease s i _ id CheckedReconnect s' Hok Hc); [done|by apply bool_decide_spec| |by intros ? []|exact H].
    intros Hs. pose proof (with_lease_new s id) as [Hex Hid]. split_and!; [done..|]. intros x Hx.
    rewrite Hid, (proj1 (with_lease_old s id x (Hh x Hx))). by apply Hst.
Qed.

Lemma prepared_lease s i c previous next sn :
  lease_ok s → rs_calls s !! i = Some c → k_running c = CheckedFirst previous next → lease_ok (prepared s i c previous next sn).
Proof.
  intros Hok Hc Hrun. assert (Hat : attaching c = true) by (unfold attaching; by rewrite Hrun).
  pose proof (le_stage _ Hok _ _ Hc) as Hst. rewrite Hrun in Hst. destruct Hst as (He&Hhp&Hprev). pose proof Hok as [Hids Hh _ _ Hsig _].
  assert (Hheld : ∀ n, attached s n → rs_handle s = Some n ∨ n = next).
  { intros n Hn. destruct (held_at _ _ _ _ Hok Hc Hat Hn) as [|Hx]; [by left|right]. rewrite Hrun in Hx. by apply bool_decide_spec in Hx. }
  unfold prepared, lease_snapshot. destruct (attached s next) eqn:Hnext; [|by apply (detach_lease s)].
  assert (Hgo : handle_is s (λ h, attached s h → h = next) → lease_ok (assertNotDisposedAfterAwait s i c next (CheckedLast next sn))).
  { intros Hl. apply (assert_lease s); try done. by apply bool_decide_spec. }
  destruct previous as [p|]; [|apply Hgo; intros h Hx; by apply Hhp in Hx].
  destruct (Hprev p eq_refl) as [Hep Hap]. case_bool_decide as Hid; cbn; [|destruct (attached s p) eqn:Hp].
  - apply Hgo. intros h Hx Hax. apply Hhp in Hx. simplify_eq. apply Hids; try done; intros Hg; [pose proof (lease_at_unique _ _ _ _ Hg Hax)|pose proof (lease_at_unique _ next gone active Hg ltac:(unfold attached in Hnext; by rewrite Hnext))]; done.
  - destruct (phase_is s "idle"); [|by apply (detach_lease s)]. specialize (Hap I). apply (lease_run s); try done.
    + by apply ids_move.
    + by apply handle_exists_move.
    + cbn. split_and!; [|by apply lease_exists_move| | |done].
      * unfold signal_ok in Hsig. destruct (rs_signal s); [|done]. destruct Hsig. congruence.
      * intros h Hx. apply Hhp in Hx. congruence.
      * intros [_ []]%release_attached. done.
    + intros n [Hn _]%release_attached. destruct (Hheld n Hn) as [| ->]; [by left|right; by apply bool_decide_spec].
  - apply Hgo. intros h Hx Hax. apply Hhp in Hx. simplify_eq. by rewrite Hp in Hax.
Qed.

Lemma bind_ok s i c n sn : lease_ok s → rs_calls s !! i = Some c → attaching c = true → lease_exists s n → rs_signal s = false →
  (∀ m, attached s m → m = n) → lease_ok (bind_lease s i c n sn).
Proof.
  intros Hok Hc Hat He Hs Hall. pose proof Hok as [Hids _ _ _ Hsig _].
  unfold bind_lease. destruct (attached s n); apply (ended_lease s); try done.
  all: try (by intros h [= <-]). all: try (by unfold signal_ok in *; cbn; rewrite Hs in *).
  all: intros m Hm; cbn; f_equal; symmetry; by apply Hall.
Qed.

Lemma continue_lease s i sn s' : lease_ok s → continue s i sn = Some s' → lease_ok s'.
Proof.
  intros Hok H. unfold continue in H. destruct (rs_calls s !! i) as [c|] eqn:Hc; [|done].
  pose proof (le_stage _ Hok _ _ Hc) as Hst. pose proof Hok as [Hids Hh _ _ Hsig _].
  destruct (k_running c) as [| |previous next| |next known| | | |next|] eqn:Hrun; simplify_eq; try done; [by apply prepared_lease|..].
  all: assert (Hat : attaching c = true) by (unfold attaching; by rewrite Hrun).
  all: assert (Hheld : ∀ n, attached s n → rs_handle s = Some n ∨ n = next) by
    (intros n Hn; destruct (held_at _ _ _ _ Hok Hc Hat Hn) as [|Hx]; [by left|right; rewrite Hrun in Hx; by apply bool_decide_spec in Hx]).
  - destruct Hst as (Hs&He&Hl). simplify_eq. apply bind_ok; try done. intros m Hm. destruct (Hheld m Hm); [by apply Hl|done].
  - destruct Hst as (Hs&He&Hl). unfold lease_snapshot in H. destruct (attached s next) eqn:Hnext; simplify_eq.
    + apply bind_ok; try done. intros m Hm. destruct (Hheld m Hm) as [Hx|]; [|done].
      apply Hids; [by apply Hh|done| | |by apply Hl]; intros Hg.
      * pose proof (lease_at_unique _ _ _ _ Hg Hm). done.
      * pose proof (lease_at_unique s next gone active Hg ltac:(unfold attached in Hnext; by rewrite Hnext)). done.
    + apply (ended_lease s); try done. intros n Hn. destruct (Hheld n Hn) as [| ->]; [done|]. by rewrite Hnext in Hn.
Qed.

(** *** The other steps *)

Lemma start_lease s o run preempt : lease_ok s → rs_signal s = false → stage_ok s run →
  (∀ n, ¬ holds run n) →
  (∀ j d, rs_calls s !! j = Some d → attaching d = true → attaching (mkCall o preempt (rs_lifecycle s) run None) = false) →
  lease_ok (runOperation s o run preempt).
Proof.
  intros Hok Hs Hst Hno Hfree. pose proof Hok as [Hids Hh Hsolo Hstages Hsig Hheld]. unfold runOperation.
  set (c := mkCall o preempt (rs_lifecycle s) run None) in *.
  assert (Hcalls : ∀ j d, (rs_calls s ++ [c]) !! j = Some d → rs_calls s !! j = Some d ∨ j = length (rs_calls s) ∧ d = c).
  { intros j d [H|[? H]]%lookup_app_Some; [by left|right]. apply list_lookup_singleton_Some in H as [? <-]. split; [lia|done]. }
  split; cbn; [done|done| | | |].
  - intros i j d e Hd He Hatd Hate. destruct (Hcalls _ _ Hd) as [Hd'|[-> ->]], (Hcalls _ _ He) as [He'|[-> ->]]; [by eapply Hsolo| | |done].
    + rewrite (Hfree _ _ Hd' Hatd) in Hate. done.
    + rewrite (Hfree _ _ He' Hate) in Hatd. done.
  - intros i d Hd. destruct (Hcalls _ _ Hd) as [Hd'|[-> ->]]; [by eapply Hstages|done].
  - unfold signal_ok; cbn. by rewrite Hs.
  - intros n Hn. destruct (Hheld n Hn) as [|(i&d&Hd&Hx)]; [by left|right]. exists i, d. split; [by apply lookup_app_l_Some|done].
Qed.

Lemma not_disposed_signal s : lease_ok s → is_disposed s = false → rs_signal s = false.
Proof. intros Hok Hd. pose proof (le_signal _ Hok) as H. unfold signal_ok, is_disposed in *. destruct (rs_signal s); [|done]. destruct H as [H _]. by rewrite H in Hd. Qed.

Lemma request_lease s q : exclusive_ok s → lease_ok s → lease_ok (request s q).1.
Proof.
  intros Hex Hok.
  assert (Hfree : ∀ o run, is_disposed s || is_busy s = false → stage_ok s run → (∀ n, ¬ holds run n) → lease_ok (runOperation s o run false)).
  { intros o run Ha Hst Hno. pose proof Ha as [Hd _]%orb_false_iff. pose proof (not_disposed_signal _ Hok Hd) as Hs. apply start_lease; try done.
    intros j d Hj Hat. pose proof (available_active _ Hex Hs Ha) as Hact. exfalso.
    destruct (k_settled d) eqn:Hset; [by rewrite (ex_done _ Hex Hs j d Hj) in Hat|].
    assert (j ∈ rs_active s) as Hin by (apply (ex_active _ Hex); by exists d). rewrite Hact in Hin. set_solver. }
  assert (Hprev : stage_ok s (Preparing (rs_handle s))).
  { split; [by intros h|]. intros p Hp. split; [by apply (le_handle _ Hok)|done]. }
  unfold request, replace, runIdleOperation. destruct q; repeat case_match; cbn; auto; try (apply Hfree; [done|done|by intros ? []]).
  - apply start_lease; [done| |done|by intros ? []|done]. apply not_disposed_signal; [done|]. by destruct (is_disposed s).
  - apply Hfree; [done| |by intros ? []]. intros h Hx. destruct (rs_handle s); simplify_eq/=. done.
Qed.

Lemma settle_lease s i b s' : lease_ok s → settle s i b = Some s' → lease_ok s'.
Proof.
  intros [Hids Hh Hsolo Hst Hsig Hheld] H. apply settle_inv in H as (c&r&Hc&_&_&E).
  assert (Hi : (i < length (rs_calls s))%nat) by (eapply lookup_lt_Some; eauto).
  assert (Hcalls : ∀ j d, rs_calls (settled_call s i c r) !! j = Some d → ∃ d', rs_calls s !! j = Some d' ∧ k_running d = k_running d').
  { intros j d. cbn. destruct (decide (i = j)) as [<-|]; [rewrite list_lookup_insert_eq by done|rewrite list_lookup_insert_ne by done]; naive_solver. }
  assert (Hback : ∀ j d, rs_calls s !! j = Some d → ∃ d', rs_calls (settled_call s i c r) !! j = Some d' ∧ k_running d' = k_running d).
  { intros j d. cbn. destruct (decide (i = j)) as [<-|]; [rewrite list_lookup_insert_eq by done|rewrite list_lookup_insert_ne by done]; [|eauto].
    intros Hd. simplify_eq. eexists; done. }
  assert (Ht : lease_ok (settled_call s i c r)).
  { split; [done|done| | |done|].
    - intros j k d e Hd He Hatd Hate. destruct (Hcalls _ _ Hd) as (d'&Hd'&Ed), (Hcalls _ _ He) as (e'&He'&Ee).
      apply (Hsolo j k d' e'); try done; unfold attaching in *; [by rewrite <- Ed|by rewrite <- Ee].
    - intros j d Hd. destruct (Hcalls _ _ Hd) as (d'&Hd'&->). exact (Hst _ _ Hd').
    - intros n Hn. destruct (Hheld n Hn) as [|(j&d&Hd&Hx)]; [by left|right]. destruct (Hback _ _ Hd) as (d'&?&Ed). exists j, d'. by rewrite Ed. }
  cbn zeta in E. destruct (negb _ && _) eqn:Eb; subst s'; [|done]. apply andb_true_iff in Eb as [Ed _]. destruct Ht as [? ? ? ? Hsig' ?].
  split; try done. unfold signal_ok in *; cbn in *. unfold is_disposed in Ed; cbn in Ed. destruct (rs_signal s).
  - destruct Hsig as [Hl _]. by rewrite Hl in Ed.
  - unfold settled_lifecycle. repeat case_match; done.
Qed.

Lemma stage_lose s n r : stage_ok s r → stage_ok (lose s n) r.
Proof.
  assert (Hp : ∀ previous, previous_ok s previous → previous_ok (lose s n) previous).
  { intros previous [H1 H2]. split; [done|]. intros p E. destruct (H2 p E) as [He Ha]. split; [by apply lease_exists_move|].
    intros [H _]%lose_attached. by apply Ha. }
  destruct r; cbn; try done; try (apply Hp).
  - intros [He H]. split; [by apply lease_exists_move|by apply Hp].
  - intros (Hs&He&Hh&Hna&Hre). split_and!; [done|by apply lease_exists_move|done|by intros [? _]%lose_attached|].
    intros [[H _]|[_ ?]]%lose_at; [by apply Hre|done].
  - intros (Hs&He&Hh). split_and!; [done|by apply lease_exists_move|]. intros h Hx [Ha _]%lose_attached. by apply Hh.
  - intros H h Hx. unfold lose. rewrite lease_id_move. by apply H.
  - intros H h Hx. unfold lose. rewrite lease_id_move. by apply H.
  - intros (Hs&He&Hh). split_and!; [done|by apply lease_exists_move|]. intros h Hx. unfold lose. rewrite !lease_id_move. by apply Hh.
Qed.

Lemma lose_lease s n : lease_ok s → lease_ok (lose s n).
Proof.
  intros [Hids Hh Hsolo Hst Hsig Hheld]. split; [by apply ids_move|by apply handle_exists_move|done| |done|].
  - intros i c Hc. by eapply stage_lose, Hst.
  - intros m [Hm _]%lose_attached. destruct (Hheld m Hm); [by left|by right].
Qed.

(** The session is unbound after its lease [n], if it had one, stopped being active. *)
Lemma stage_unbound s r : stage_ok s r → (∀ n, rs_handle s = Some n → ¬ attached s n ∧ ¬ lease_at s n releasing) →
  stage_ok (set_binding s None None None) r.
Proof.
  intros H Hgone. assert (Hp : ∀ previous, previous_ok s previous → previous_ok (set_binding s None None None) previous).
  { intros previous [_ H2]. split; [by intros h|]. intros p E. destruct (H2 p E) as [He Ha]. split; [done|]. intros Hx. by destruct (Hgone p (Ha Hx)). }
  destruct r; cbn in *; try done; try (by apply Hp); try (destruct H as (?&?&?); split_and!; (done || by intros ?)); try (by intros ?).
  - destruct H as [He H]. split; [done|by apply Hp].
  - destruct H as (?&?&_&?&Hre). split_and!; [done..|by intros ?|done|]. intros Hx. by destruct (Hgone _ (Hre Hx)).
Qed.

Lemma removed_lease s n id : exclusive_ok s → lease_ok s → rs_subscribed s = Some n → lease_ok (handleEvent JSON_parse (lose s n) (session_removed id)).
Proof.
  intros Hex Hok Hsub. apply (ex_bound _ Hex) in Hsub as Hn. pose proof (lose_lease s n Hok) as [Hids Hh Hsolo Hst Hsig Hheld].
  assert (Hs : rs_signal s = false).
  { pose proof (le_signal _ Hok) as H. unfold signal_ok in H. destruct (rs_signal s); [|done]. destruct H. congruence. }
  assert (Hgone : ∀ m, rs_handle (lose s n) = Some m → ¬ attached (lose s n) m ∧ ¬ lease_at (lose s n) m releasing).
  { intros m Hm. cbn in Hm. assert (m = n) as -> by congruence. split; [by intros [_ []]%lose_attached|]. by intros [[_ []]|[_ ?]]%lose_at. }
  unfold handleEvent. match goal with |- lease_ok (notify ?t) => set (u := t) end.
  assert (Hu : u = set_lifecycle (set_binding (lose s n) None None None) (if is_busy s then rs_lifecycle s else unbound)).
  { subst u. unfold is_busy; cbn. destruct (rs_lifecycle s) eqn:E; unfold set_lifecycle, set_binding; cbn; by rewrite ?E. }
  rewrite Hu. clear u Hu. split; cbn; [done|by intros h|done| | |].
  - intros i c Hc. exact (stage_unbound _ _ (Hst i c Hc) Hgone).
  - unfold signal_ok, is_busy in *; cbn in *. rewrite Hs in *. by destruct (rs_lifecycle s).
  - intros m Hm. destruct (Hheld m Hm) as [Hx|]; [|by right]. by destruct (Hgone m Hx).
Qed.

Lemma dispose_lease s throws : lease_ok s → forallb settled_stage (rs_calls s) = true → lease_ok (dispose s throws).1.
Proof.
  intros Hok Hsafe. rewrite forallb_forall in Hsafe. pose proof Hok as [Hids Hh Hsolo Hst Hsig Hheld]. unfold dispose.
  destruct (rs_cleanup s); [done|]. set (t := set_binding (set_signal (set_lifecycle s disposed)) None None None).
  assert (Hend : ∀ u, rs_calls u = rs_calls s → rs_handle u = None → rs_lifecycle u = disposed → rs_signal u = true →
    ids_ok u → length (rs_leases u) = length (rs_leases s) → (∀ m, attached u m → attached s m ∧ rs_handle s ≠ Some m) → lease_ok u).
  { intros u Ec Eh El Es Hi Elen Hatt. split; [done|by intros h; rewrite Eh|by rewrite Ec| | |].
    - rewrite Ec. intros i c Hc. specialize (Hst i c Hc). specialize (Hsafe c ltac:(apply list_elem_of_In; by eapply list_elem_of_lookup_2)).
      unfold settled_stage in Hsafe. assert (Hnone : ∀ P, handle_is u P) by (intros P h; by rewrite Eh).
      assert (Hp : ∀ previous, previous_ok s previous → previous_ok u previous).
      { intros previous [_ H2]. split; [done|]. intros p E. destruct (H2 p E) as [He Ha]. split; [unfold lease_exists in *; lia|].
        intros Hx. destruct (Hatt p Hx) as [Hx1 Hx2]. by destruct Hx2; apply Ha. }
      destruct (k_running c); cbn in *; try done; [by apply Hp|]. destruct Hst as [He ?]. split; [unfold lease_exists in *; lia|by apply Hp].
    - unfold signal_ok. by rewrite Es.
    - rewrite Ec. intros m Hm. destruct (Hatt m Hm) as [Hx1 Hx2]. destruct (Hheld m Hx1); [done|by right]. }
  destruct (rs_handle s) as [n|] eqn:En; [destruct (throws && negb (attached s n)) eqn:Et|]; cbn; apply Hend; try done.
  - intros m Hm. split; [done|]. intros [= <-]. apply andb_true_iff in Et as [_ Et]. change (Is_true (attached s n)) in Hm. by destruct (attached s n).
  - by apply (ids_move t).
  - apply length_alter.
  - intros m Hm. change (Is_true (attached (release t n) m)) in Hm. apply release_attached in Hm as [? ?]. split; [done|congruence].
Qed.

Lemma heard_lease s t : lease_ok s → lease_ok (set_binding s (rs_handle s) t (rs_subscribed s)).
Proof. by intros [? ? ? ? ? ?]. Qed.

Lemma step_lease s x s' : exclusive_ok s → lease_ok s → disposal_safe s x → step JSON_parse s x = Some s' → lease_ok s'.
Proof.
  intros Hex Hok Hsafe H. destruct x as [q|i a|i sn|i b|th|n|next|ev]; cbn in H.
  - simplify_eq. by apply request_lease.
  - by eapply answer_lease.
  - by eapply continue_lease.
  - by eapply settle_lease.
  - simplify_eq. by apply dispose_lease.
  - simplify_eq. by apply lose_lease.
  - destruct (rs_subscribed s); [|done]; cbn in H. case_match; [|done]. simplify_eq. unfold snapshot_listener.
    destruct (rs_transcript s); [|done]. by destruct (heard_lease s (Some (applyTranscriptSnapshot t next)) Hok).
  - destruct (rs_subscribed s) eqn:Hsub; [|by destruct ev]; cbn in H.
    destruct ev as [|?|? pr|id]; cbn in H; try (case_match; [|done]); simplify_eq; cbn; try done.
    + destruct (rs_transcript s); [|done]. by destruct (heard_lease s (Some (applyTranscriptProgress JSON_parse t pr)) Hok).
    + by apply (removed_lease s _ id).
Qed.

Lemma new_lease : lease_ok new_RemoteSession.
Proof. split; try done. unfold ids_ok, lease_exists; cbn. lia. Qed.

Lemma reaches_lease s : reaches JSON_parse disposal_safe s → lease_ok s.
Proof. induction 1; eauto using new_lease, step_lease, reaches_exclusive. Qed.

(** C32: No exclusive lease is left behind.  Every lease still attached is the one bound, or
    is held by a call that has passed a check and will bind it or release it; at most one
    call holds any.  This takes disposals that come while no call is past its last check
    or is detaching the session it replaces; after one, the session stays disposed and
    unbound, so that nothing is attached once its calls have ended. *)
Theorem remote_no_leak s :
  reaches JSON_parse disposal_safe s →
  (∀ n, attached s n → rs_handle s = Some n ∨ ∃ i c, rs_calls s !! i = Some c ∧ holds (k_running c) n) ∧
  (∀ i j c d n m, rs_calls s !! i = Some c → rs_calls s !! j = Some d → holds (k_running c) n → holds (k_running d) m → i = j) ∧
  (rs_signal s = true → rs_lifecycle s = disposed ∧ rs_handle s = None ∧ (pendingAttachmentOperations s = [] → ∀ n, ¬ attached s n)).
Proof.
  intros Hr. pose proof (reaches_lease _ Hr) as [_ _ Hsolo _ Hsig Hheld]. split_and!; [done| |].
  - intros i j c d n m Hc Hd Hx Hy. by eapply (Hsolo i j c d); eauto using holds_attaching.
  - intros Hs. unfold signal_ok in Hsig. rewrite Hs in Hsig. destruct Hsig as [Hl Hh]. split_and!; [done..|].
    intros Hp n Hn. destruct (Hheld n Hn) as [|(i&c&Hc&Hx)]; [congruence|]. apply holds_attaching in Hx.
    assert (i ∈ pendingAttachmentOperations s) as Hin; [|rewrite Hp in Hin; set_solver].
    apply list_elem_of_In, filter_In. rewrite Hc. split; [|done]. apply in_seq. apply lookup_lt_Some in Hc. lia.
Qed.
End leases.

(** ** Runs *)

Fixpoint safe_steps (JSON_parse : jsstr → option tree) (s : RemoteSession) (xs : list Step) : bool :=
  match xs with
  | [] => true
  | x :: xs =>
      (match x with Dispose _ => forallb settled_stage (rs_calls s) | _ => true end) &&
      match step JSON_parse s x with Some s' => safe_steps JSON_parse s' xs | None => false end
  end.

Definition run_of (JSON_parse : jsstr → option tree) (s : RemoteSession) (xs : list Step) : RemoteSession := foldl (λ s x, default s (step JSON_parse s x)) s xs.

Lemma safe_steps_reach JSON_parse s xs :
  reaches JSON_parse disposal_safe s → safe_steps JSON_parse s xs = true → reaches JSON_parse disposal_safe (run_of JSON_parse s xs).
Proof.
  revert s. induction xs as [|x xs IH]; [done|]. intros s Hr. cbn. intros [Hsafe H]%andb_true_iff.
  destruct (step JSON_parse s x) as [s'|] eqn:E; [|done]. apply IH; [|done]. eapply reaches_step; [done| |done]. by destruct x.
Qed.

(** A submission and the abort that preempts it. *)
Definition ex_preempted : RemoteSession := run_of ex_json new_RemoteSession (ex_created ++ [Call (Submit (js_lit "hi")); Call Abort]).

Lemma operations_exclusive_witness : unsettled ex_preempted 1 ∧ unsettled ex_preempted 2 ∧ preempts ex_preempted 2 1.
Proof.
  assert (H1 : unsettled ex_preempted 1) by (eexists; split; vm_compute; reflexivity).
  assert (H2 : unsettled ex_preempted 2) by (eexists; split; vm_compute; reflexivity).
  split_and!; [done..|]. assert (Hs : rs_signal ex_preempted = false) by (vm_compute; reflexivity).
  assert (Hr : reaches ex_json disposal_safe ex_preempted) by (apply safe_steps_reach; [constructor|vm_compute; reflexivity]).
  destruct (operations_exclusive ex_json disposal_safe ex_preempted Hr Hs) as [H _]. apply H; [done..|lia].
Defined.

(** Disposed while another session is being opened: its lease comes later, and is released. *)
Definition ex_disposed : RemoteSession :=
  run_of ex_json new_RemoteSession (ex_created ++ [Call (Open (js_lit "b")); Dispose false; Lost 0; Settle 1 true; Answered 1 (Leased (js_lit "b")); Answered 1 Resolved]).

Lemma remote_no_leak_witness : l_id <$> rs_leases ex_disposed = [js_lit "a"; js_lit "b"] ∧ ∀ n, ¬ attached ex_disposed n.
Proof.
  split; [vm_compute; reflexivity|]. assert (Hr : reaches ex_json disposal_safe ex_disposed) by (apply safe_steps_reach; [constructor|vm_compute; reflexivity]).
  destruct (remote_no_leak ex_json ex_disposed Hr) as (_&_&H). destruct H as (_&_&H); [vm_compute; reflexivity|]. apply H. vm_compute. reflexivity.
Defined.

(** ** Disposals the code does not cover *)

(** A disposal between the last check of a call and the job in which it goes on: the call
    binds its lease to the disposed session and nothing releases it, while [dispose()]
    succeeds; when the session is removed later, the disposed object is unbound again. *)
Theorem disposed_then_bound :
  ∃ s, steps ex_json new_RemoteSession [Call Create; Answered 0 (Leased (js_lit "a")); Continue 0 (ex_snapshot "a" "idle"); Dispose false; Continue 0 (ex_snapshot "a" "idle")] = Some s ∧
    rs_lifecycle s = disposed ∧ rs_handle s = Some 0%nat ∧ attached s 0 ∧ dispose_promise s (Ok tt) = Some (Ok tt) ∧
    rs_lifecycle <$> step ex_json s (Event (session_removed (js_lit "a"))) = Some unbound.
Proof. eexists. split; [vm_compute; reflexivity|]. vm_compute. repeat split. Qed.

(** A disposal while the replaced session is being detached joins that release; when it
    fails the old lease is active again and nothing holds it. *)
Theorem failed_detach_leaks e :
  ∃ s, steps ex_json new_RemoteSession (ex_created ++ [Call (Open (js_lit "b")); Answered 1 (Leased (js_lit "b")); Continue 1 (ex_snapshot "b" "idle");
         Dispose false; Answered 1 (Rejected e); Answered 1 Resolved]) = Some s ∧
    rs_lifecycle s = disposed ∧ rs_handle s = None ∧ pendingAttachmentOperations s = [] ∧ attached s 0.
Proof. eexists. split; [vm_compute; reflexivity|]. vm_compute. repeat split. Qed.

(** [handle.dispose()] throws at the call when its lease is not active: [dispose()] throws
    instead of returning a promise, and the listeners are not told. *)
Theorem dispose_throws s n :
  rs_cleanup s = None → rs_handle s = Some n → attached s n = false →
  (dispose s true).2 = Threw ∧ rs_lifecycle (dispose s true).1 = disposed ∧ rs_notified (dispose s true).1 = rs_notified s.
Proof. intros Hc Hn Ha. unfold dispose. by rewrite Hc, Hn, Ha. Qed.

Lemma dispose_throws_witness : (dispose (lose ex_preempted 0) true).2 = Threw.
Proof. apply (dispose_throws (lose ex_preempted 0) 0); vm_compute; reflexivity. Defined.
